(* ===== verification/_CoqProject ===== *)
-Q . S2P
Prelude.v
Fr.v
Poseidon2.v
Tree.v
Xdr.v
ScVal.v
VaultState.v
Events.v
Calls.v
ChainData.v
ChainState.v
ChainInv.v
ChainDelta.v
Chain.v
Keys.v
Rpc.v
Token.v
Freeze.v
Fee.v
Guard.v
Request.v
Groth16.v
RelayState.v
Relay.v
Held.v
RelayOutcome.v
Follow.v
Archive.v
ArchiveChain.v
Checker.v
Screening.v
Threads.v
Alert.v
AlertQueue.v
EngineFees.v
Engine.v
EngineCalls.v
Keeper.v
KeeperCalls.v
KeeperTTL.v
KeeperLife.v
Watcher.v
WatcherChecks.v
WatcherAccounts.v
WatcherAttest.v
WatcherReplay.v
WatcherCompare.v
