(* ===== verification/Prelude.v ===== *)
(** * The Cyphras services, verified

    Cyphras keeps a shielded pool in a Stellar contract, the vault: deposits wait in a queue until a
    screening service attests them, notes are spent with Groth16 proofs, and payments past a day's
    window wait in a queue of exits. The Go services under [src/services] follow the vault, replay its
    state, relay transactions for users and watch over it. This library is a shallow embedding of their
    core in Rocq, one definition per Go function, with the theorems that make it correct.

    ** The parts, and the files that model them

    Names of Go files are relative to [src/services/internal].

    - Prelude (this file): machine integers, errors, the state monad with its weakest preconditions, byte
      strings and the lemmas the parts share.
    - Fr (module [fr], fr/fr.go): the BN254 scalar field in four 64-bit limbs in Montgomery form.
    - Poseidon2 ([poseidon2], poseidon2/): the permutation and the compression of two nodes.
    - Tree ([tree], tree/tree.go): the incremental Merkle tree of commitments, appended in pairs.
    - Xdr: the values and keys of the Stellar SDK the code builds and reads, the SDK as a class
      [StellarSDK] with its laws, and a concrete SDK for the witnesses.
    - ScVal ([scval], vault/scval.go), VaultState ([vault], vault/state.go), Events ([events],
      vault/events.go), Token ([token], vault/token.go): the contract's values, entries and events and
      their decoders, and those of the asset's contract.
    - Calls ([calls], vault/calls.go): a transaction's events as the vault's calls.
    - ChainData, ChainState ([chaindata], [chainstate], chainstate/state.go): the vault's state replayed call by call,
      with the delta of a window; ChainInv, ChainDelta and Chain ([chain]): its invariants and theorems.
    - Keys ([keys], vault/keys.go, extdata.go, room.go): ledger keys, what a proof binds, and the
      entries of the exit queue a transaction is given room for.
    - Rpc ([rpc], rpc/rpc.go): reads of ledger entries, of the vault's instance and of the network's
      settings. Freeze ([freeze], freeze/freeze.go): the network's frozen keys by address.
    - Groth16 ([groth16], groth16/groth16.go): the proof verifier, over a curve library [Bn254].
    - The relayer: Fee ([fee], relayer/fee.go) its prices, Guard ([guard], relayer/guard.go) what it
      remembers to refuse, Request ([request], relayer/request.go) the requests it parses, RelayState
      ([relay], relayer/relayer.go and loss.go) its configuration, state, quotes and losses, Relay
      ([submit]) the submission of a request, Held ([held]) held requests and the interleavings of its
      goroutines, RelayOutcome ([outcome]) what becomes of a sent transaction.
    - Follow ([follow], follow/): the pages of events read from an RPC, the follower's step and the
      turns of its loop.
    - Archive ([archive], vaultarchive/format.go, window.go, read.go): manifests, windows, their writer
      and their reader. ArchiveChain ([archivechain], vaultarchive/read.go, chain.go): the manifest's
      JSON keys and the check of an archive against the vault.
    - Checker ([checker], screening/sources.go, checker.go): the lists a depositor and its funders are
      looked up in, their guards, and a check. Screening ([screening], screening/screener.go, ops.go,
      store.go): the schedule that checks, flags, holds and attests deposits, and the operators.
    - EngineFees ([fees], submit/submit.go): the fees and bounds of a Soroban transaction. Engine
      ([engine], submit/submit.go): transactions prepared, sent and followed, and calls sent again;
      EngineCalls ([enginecalls]): what calls achieve.
    - Keeper ([keeper], keeper/keeper.go, exits.go): the jobs that admit, refund, release and claim, over
      the engine; KeeperCalls ([keepercalls]): what they send. KeeperTTL ([ttl], keeper/ttl.go): the
      cycle that keeps the entries alive; KeeperLife ([life]): what it achieves.
    - Threads ([threads]): programs of atomic actions, their interleavings, and the rules that keep an
      invariant whatever the other programs do. Alert ([alert], alert/alert.go): the alerts raised and
      cleared. AlertQueue ([queue], alert/queue.go): the queue that delivers them.
    - The watcher: Watcher ([watcher], watcher/watcher.go, store.go) its data and what it does with a window;
      WatcherChecks ([checks], watcher/checks.go, statesize.go) the checks of the replay, the two RPC providers,
      the other services and the queues; WatcherAccounts ([accounts], watcher/ttl.go, hot.go, patterns.go)
      those of entries and accounts, and the turn of a job. WatcherReplay ([replayed]), WatcherAttest
      ([attest]) and WatcherCompare ([compared]): their theorems.

    The parts call each other as the packages do: the chain state applies the calls that Calls reads
    from the events that Events decodes, over the tree of Tree; the relayer's submission reads the
    network through Rpc with the keys of Keys, verifies with Groth16 what Request parsed, prices with
    Fee, refuses by Guard, and its outcomes feed back into both. An archive is checked with the tree and the
    calls against the instance Rpc reads; the schedule of screening reads the chain through Rpc, decides
    by Checker's verdicts and sends through the engine. The keeper's jobs read the chain through Rpc and each of
    their calls is a run of the engine's. The watcher is another sink of a follower, over the chain state, and
    reads what it compares it with through Rpc, Keys, Token and Freeze. The alerts the services raise through
    Alert are delivered by AlertQueue.

    ** How Go reads in Rocq

    An integer is a [Z]; a sum or product that may leave its width is wrapped where it is computed with
    [u64], [u32] or [i64]. A function that returns a value and an error is in [res], which keeps the
    error; a panic is [None] of an option. A struct is a record, a map a [gmap], a nil map an empty one,
    a pointer that may be nil an option. Methods that change their receiver return the new one. Times
    and durations are in nanoseconds; a function reads one clock per run.

    What the code calls outside the repository is a class or an argument: the Stellar SDK ([StellarSDK],
    with laws only where a theorem needs them), the pairing library ([groth16.Bn254]), the hash of the
    tree's nodes ([tree.NodeHash], instantiated by Poseidon2), SHA-256, the network ([rpc.Client]), and for
    a submission the answers of the limiters, the channel pool, screening and the engine ([submit.Env]). The
    floating-point estimate of the ledger at a time is an argument ([ledgerAt]). A section under a lock is
    one atomic function; where the order of such sections matters, in Held and AlertQueue, each is a step of
    a transition system, and in AlertQueue a goroutine is a program of Threads whose sections and questions
    interleave with all others'. Screening keeps its database in its world: a statement of it may fail, and
    then changes nothing; the workers of one round run one after the other, and each of its operations is a
    step. The watcher keeps its tables in its world in the same way, and the operations of its jobs and of
    its sink run one at a time; the world outside it answers each question by how many were asked before.
    The floats of its thresholds are the Standard Library's [SpecFloat]. Logs and the raising of alerts are
    left out of the parts that do it, and so are the writes to the database that repeat the state in memory.

    ** What the theorems show

    - Replay (Chain): from the first event on, the replayed state keeps its totals, queues, window and
      counters in order, conserves value, holds the Merkle tree of its leaves, spends no nullifier
      twice; each call does what the vault's rules say, a halt freezes it, and every failure is the
      error of an inconsistent history.
    - Arithmetic and encodings (Fr, Poseidon2, Tree, ScVal, VaultState, Events, Calls): limb arithmetic
      is field arithmetic, the compression and the root refine their definitions on integers and on
      whole trees, decoders invert the encoders and accept nothing else, and the parser of calls accepts
      exactly the sequences of events the vault emits.
    - Proofs and network (Groth16, Keys, Rpc, Freeze): acceptance is the pairing equation on canonical
      points; batched reads give the ledger's entries; rent is exact at any plausible state size, for rent
      fees as far apart as the network's and well beyond, and room within its bounds.
    - The relayer (Fee, Guard, Request, RelayState, Relay, Held, RelayOutcome): prices are the least
      that cover the cost and quotes are honoured; a transaction is sent only for a request that passed
      every check, and covers what the network charges; a held request touches nothing until it is due;
      refusals and failures are not repeatable at will; in every interleaving a note has one owner and
      nothing is held for ever; each outcome counts once.
    - Archives and followers (Follow, Archive, ArchiveChain): a follower's batches miss nothing however its
      reads fail; a window is read exactly as it is written; an archive that is accepted is the vault's
      history, but for a collision of the tree's hash between the nodes of the two trees compared.
    - Screening (Checker, Screening): a check clears an address exactly when no list names it or a funder
      that matters; an attestation sent covers only deposits whose own final check passed lately, in
      every run and with every failure; the schedule decides every deposit; and a final check that is
      interrupted between two writes can let a deposit pass on findings nobody reviewed, so that a person had
      each of a check's findings on record is said only of a database that did not fail.
    - Transactions (Engine, EngineCalls): what is prepared keeps its operator's caps whatever the network
      answers, and carries only authorizations of the source account; a call is applied at most once, however often it is sent, and says whether it was; and it
      ends by itself.
    - Fees (EngineFees): what a call's other path may need is added within the network's limits, keeps
      what the simulation found, and is charged exactly and without overflow; a transaction is bounded to
      the ledgers in which all it touches is live.
    - The keeper (KeeperCalls, KeeperLife): whatever the network answers, it sends only admissions, refunds
      and claims that are due and releases that fit the window and the funds, none in the state in which one
      handled none; an entry the simulation refuses holds back no other; and a TTL cycle without an error leaves
      no live entry near its end, each extended by an hour at the least and to a day past the threshold unless
      the fee cap refused it.
    - Alerts (Alert, AlertQueue): a code is alerted once per cooldown; in every interleaving, with every
      failure of channels and database and across restarts, an alert is delivered, waits, or ended by a
      rule of the queue whose condition held; a channel is left alone while it rests; and a lane is reported stalled exactly
      when its sends have failed for long, tests aside.
    - The watcher (WatcherReplay, WatcherAttest, WatcherCompare): after any run it holds the replay of the windows
      it took, within the bounds of its memory; an attestation is judged, by the delay on record, or still
      stored to be, whatever fails; a window whose asset events the RPC still has pages exactly when they do not
      add up with the vault's, payments to the issuer included; a level of the network's state pages once;
      and a cross-check that fails in the middle drops the ready windows after the one that failed.

    ** Fuel and bounds

    Loops over lists are structural. [calls.parse_loop] and [parse_txs] have the number of events as
    fuel and each turn consumes one at least; [rpc.read_batches] has as many turns as keys;
    [keys.exit_keys] has one turn per key and one more, and runs out only where the Go loop does not
    end. [checker.page] has one turn per retry and [tag_pages] one per page, the bounds of the code. The
    theorems about each say that the fuel is enough. A context, in Engine, is the number of waits it
    lasts: each turn of a polling loop waits once, so the loops have one turn more than waits, and the
    theorems hold for every number. The loop of [keeper.Admit] has a turn for each deposit and each halving of
    its batch, that of [ttl.extendBatch] 32, which halve any 32-bit distance; lemmas say that both suffice.
    [keeper.Release] has the 100 turns of the code. [watcher.doublings] has the 20 turns that reach the bound
    of its loop, a lemma says, [accounts.read_operations] the 50 pages of the code, and [chunks] as many turns as
    elements.

    ** What is not modelled, and why

    In the packages above: the channel pool, the room and the exit slot of [prepare], [Refresh],
    [FollowNullifiers] and [Resume] of the relayer, its HTTP handlers and its SQL; the HTTP client of rpc;
    the building and mirroring of an archive; of screening, the OFAC list behind a CSV reader and a regular
    expression, its HTTP API, its lock, the cache of Horizon's answers and the loop around a round. Of
    alert, the HTTP of a webhook with its formats. Of keeper, the goroutines around the jobs, its sink over
    the chain state's database, and its HTTP. Of watcher, the texts of alerts, the parser of the list of hot
    accounts, the HTTP of the health endpoints and of the indexer, and the goroutines of its jobs. Of the
    other packages, chainstate/store.go, indexer, archive, config, horizon, httpapi, service and the
    commands are I/O, SQL and wiring. The contract in Rust, the circuits and the TypeScript SDK are other
    programs. *)
From Stdlib Require Export ZArith Lia Ascii.
From stdpp Require Export base gmap strings list fin_maps sorting.
Open Scope Z_scope.

(** ** Machine integers

    A Go integer of width [w] is a [Z]; the wrap of the language, keeping the low [w] bits, is
    written out at each operation that may leave its range. *)

Definition W64 : Z := 18446744073709551616.
Definition W32 : Z := 4294967296.

Definition u64 (z : Z) : Z := Z.land z 18446744073709551615.
Definition u32 (z : Z) : Z := Z.land z 4294967295.
(** Two's complement reading of 64 bits, the conversion [int64(x)]. *)
Definition i64 (z : Z) : Z := (z + 9223372036854775808) mod W64 - 9223372036854775808.

Definition is_u64 (z : Z) : Prop := 0 <= z < W64.
Definition is_u32 (z : Z) : Prop := 0 <= z < W32.
Definition is_byte (z : Z) : Prop := 0 <= z < 256.

(** ** Errors

    A Go error is a sentinel made by [errors.New], or a [fmt.Errorf] that wraps another with [%w].
    The format and its arguments are kept, so that every error path stays distinguishable. *)

Inductive gerr : Type :=
| Sentinel (msg : string)
| Wrapf (cause : gerr) (fmt : string) (args : list fmtarg)
with fmtarg : Type :=
| FInt (n : Z)
| FStr (s : string)
| FErr (e : gerr)
| FOther.

(** [errors.Is(e, Sentinel target)]. *)
Fixpoint errors_is (target : string) (e : gerr) : bool :=
  match e with
  | Sentinel m => String.eqb m target
  | Wrapf c _ _ => errors_is target c
  end.

(** A Go pair [(value, error)] of which callers read the value only when the error is nil. *)
Inductive res (A : Type) : Type :=
| Ok (a : A)
| Fail (e : gerr).
Arguments Ok {A} _.
Arguments Fail {A} _.

#[export] Instance res_ret : MRet res := λ A a, Ok a.
#[export] Instance res_bind : MBind res := λ A B f m,
  match m with Ok a => f a | Fail e => Fail e end.

(** [if cond { return err }] *)
Definition fail_if (cond : bool) (e : gerr) : res unit :=
  if cond then Fail e else Ok tt.

(** [x, err := m; if err != nil { return ..., other }] *)
Definition or_fail {A} (m : res A) (other : gerr → gerr) : res A :=
  match m with Ok a => Ok a | Fail e => Fail (other e) end.

Definition is_ok {A} (m : res A) : bool := match m with Ok _ => true | Fail _ => false end.

(** A method that updates its receiver [S] and returns [A] or an error. The state is part of the
    result on both paths: on an error the updates made so far stay. *)
Definition ST (S A : Type) : Type := S → S * res A.

#[export] Instance ST_ret {S} : MRet (ST S) := λ A a s, (s, Ok a).
#[export] Instance ST_bind {S} : MBind (ST S) := λ A B f m s,
  match m s with
  | (s', Ok a) => f a s'
  | (s', Fail e) => (s', Fail e)
  end.

Definition st_get {S} : ST S S := λ s, (s, Ok s).
Definition st_modify {S} (f : S → S) : ST S unit := λ s, (f s, Ok tt).
Definition st_fail {S A} (e : gerr) : ST S A := λ s, (s, Fail e).
Definition st_fail_if {S} (cond : bool) (e : gerr) : ST S unit :=
  if cond then st_fail e else mret tt.
Definition st_lift {S A} (r : res A) : ST S A := λ s, (s, r).
(** A method whose error is looked at. *)
Definition st_try {S A} (m : ST S A) : ST S (res A) := λ s, let '(s, r) := m s in (s, Ok r).

(** ** Byte strings, big-endian, as [encoding/binary.BigEndian] and [big.Int.FillBytes] lay them *)

Fixpoint be_bytes (n : nat) (z : Z) : list Z :=
  match n with
  | O => []
  | S m => be_bytes m (z / 256) ++ [z mod 256]
  end.

Definition be_val (bs : list Z) : Z := foldl (λ acc b, acc * 256 + b) 0 bs.

(** [slices.Chunk], and a loop that takes [size] off: the runs of at most [size]. *)
Fixpoint chunks {A} (fuel size : nat) (items : list A) : list (list A) :=
  match fuel, items with
  | S fuel, _ :: _ => take size items :: chunks fuel size (drop size items)
  | _, _ => []
  end.

(** Sum of an integer measure over the values of a map. *)
Definition map_sum {V} (f : V → Z) (m : gmap Z V) : Z := map_fold (λ _ v acc, f v + acc) 0 m.
(** * Lemmas *)

Lemma u64_mod z : u64 z = z mod W64.
Proof. apply (Z.land_ones z 64). lia. Qed.

Lemma u64_small z : is_u64 z → u64 z = z.
Proof. intros H. rewrite u64_mod. apply Z.mod_small, H. Qed.

Lemma u64_range z : is_u64 (u64 z).
Proof. rewrite u64_mod. apply Z.mod_pos_bound. reflexivity. Qed.

Lemma u32_mod z : u32 z = z mod W32.
Proof. apply (Z.land_ones z 32). lia. Qed.

Lemma u32_small z : is_u32 z → u32 z = z.
Proof. intros H. rewrite u32_mod. apply Z.mod_small, H. Qed.

Lemma u32_range z : is_u32 (u32 z).
Proof. rewrite u32_mod. apply Z.mod_pos_bound. reflexivity. Qed.

Lemma bind_Ok {A B} (m : res A) (f : A → res B) b :
  mbind f m = Ok b ↔ ∃ a, m = Ok a ∧ f a = Ok b.
Proof. destruct m; simpl; naive_solver. Qed.

Lemma Ok_bind {A B} (f : A → res B) a : mbind f (Ok a) = f a.
Proof. reflexivity. Qed.

Lemma fail_if_Ok c e u : fail_if c e = Ok u ↔ c = false.
Proof. destruct c, u; simpl; naive_solver. Qed.

Lemma or_fail_Ok {A} (m : res A) o a : or_fail m o = Ok a ↔ m = Ok a.
Proof. destruct m; simpl; naive_solver. Qed.

Lemma mapM_Ok {A B} (f : A → res B) l k : mapM f l = Ok k → Forall2 (λ x y, f x = Ok y) l k.
Proof.
  revert k. induction l as [|x l IH]; intros k; cbn [mapM]; [by intros [= <-]|].
  rewrite bind_Ok. intros (y & Hy & H). apply bind_Ok in H as (ys & Hys & H).
  injection H as <-. constructor; [done|by apply IH].
Qed.

Lemma mapM_res_length {A B} (f : A → res B) (l : list A) k : mapM f l = Ok k → length k = length l.
Proof. intros H%mapM_Ok%Forall2_length. done. Qed.

Lemma st_bind_Ok {S A B} (m : ST S A) (f : A → ST S B) s s' b :
  mbind f m s = (s', Ok b) ↔ ∃ a s1, m s = (s1, Ok a) ∧ f a s1 = (s', Ok b).
Proof.
  unfold mbind, ST_bind. destruct (m s) as [s1 [a|e]]; naive_solver.
Qed.

Lemma st_fail_if_Ok {S} c e (s s' : S) u :
  st_fail_if c e s = (s', Ok u) ↔ c = false ∧ s' = s.
Proof. destruct c, u; unfold st_fail_if, st_fail, mret, ST_ret; naive_solver. Qed.

(** *** Weakest preconditions of a method: what holds of its result and of the state it leaves *)

Definition wp {S A} (m : ST S A) (Q : res A → S → Prop) (s : S) : Prop := Q (m s).2 (m s).1.

Lemma wp_use {S A} (m : ST S A) Q s s' r : wp m Q s → m s = (s', r) → Q r s'.
Proof. unfold wp. intros H E. by rewrite E in H. Qed.

Lemma wp_intro {S A} (m : ST S A) (Q : res A → S → Prop) s : (∀ s' r, m s = (s', r) → Q r s') → wp m Q s.
Proof. unfold wp. intros H. apply H. by destruct (m s). Qed.

Lemma wp_bind {S A B} (m : ST S A) (f : A → ST S B) Q s :
  wp m (λ r s', match r with Ok a => wp (f a) Q s' | Fail e => Q (Fail e) s' end) s → wp (mbind f m) Q s.
Proof. unfold wp, mbind, ST_bind. by destruct (m s) as [s' [a|e]]. Qed.

Lemma wp_mono {S A} (m : ST S A) (P Q : res A → S → Prop) s : wp m P s → (∀ r s', P r s' → Q r s') → wp m Q s.
Proof. unfold wp. auto. Qed.

Lemma wp_ret {S A} (a : A) (Q : res A → S → Prop) s : Q (Ok a) s → wp (mret a) Q s.
Proof. done. Qed.

Lemma wp_fail {S A} e (Q : res A → S → Prop) s : Q (Fail e) s → wp (st_fail e) Q s.
Proof. done. Qed.

Lemma wp_get {S} (Q : res S → S → Prop) s : Q (Ok s) s → wp st_get Q s.
Proof. done. Qed.

Lemma wp_modify {S} (f : S → S) Q s : Q (Ok tt) (f s) → wp (st_modify f) Q s.
Proof. done. Qed.

Lemma wp_fail_if {S} (c : bool) e (Q : res unit → S → Prop) s :
  (c = true → Q (Fail e) s) → (c = false → Q (Ok tt) s) → wp (st_fail_if c e) Q s.
Proof. destruct c; unfold wp; cbn; auto. Qed.

Lemma wp_st_try {S A} (m : ST S A) (Q : res (res A) → S → Prop) s : wp m (λ r s', Q (Ok r) s') s → wp (st_try m) Q s.
Proof. unfold wp, st_try. by destruct (m s). Qed.

Lemma st_try_Ok {S A} (m : ST S A) s s' r : st_try m s = (s', Ok r) → m s = (s', r).
Proof. unfold st_try. destruct (m s). by intros [= -> ->]. Qed.

(** *** What a method does to the state, whatever its result *)

Definition moves {S} (R : relation S) {A} (m : ST S A) : Prop := ∀ s, R s (m s).1.

Section moves.
Context {S : Type} {R : relation S} `{HR : !PreOrder R}.

Lemma moves_bind {A B} (m : ST S A) (f : A → ST S B) : moves R m → (∀ a, moves R (f a)) → moves R (mbind f m).
Proof.
  intros Hm Hf s. specialize (Hm s). unfold mbind, ST_bind. destruct (m s) as [s1 [a|e]]; [|done].
  etransitivity; [exact Hm|apply Hf].
Qed.

(** The same, of what the first method gives. *)
Lemma moves_bind_at {A B} (m : ST S A) (f : A → ST S B) s :
  R s (m s).1 → (∀ a s', m s = (s', Ok a) → R s' (f a s').1) → R s (mbind f m s).1.
Proof.
  intros Hm Hf. unfold mbind, ST_bind. destruct (m s) as [s1 [a|e]] eqn:E'; [|done].
  etransitivity; [exact Hm|]. by apply Hf.
Qed.

Lemma moves_ret {A} (a : A) : moves R (mret a : ST S A).
Proof. intros s. reflexivity. Qed.
Lemma moves_lift {A} (r : res A) : moves R (st_lift r : ST S A).
Proof. intros s. reflexivity. Qed.
Lemma moves_fail {A} e : moves R (st_fail e : ST S A).
Proof. intros s. reflexivity. Qed.
Lemma moves_fail_if b e : moves R (st_fail_if b e).
Proof. destruct b; intros s; reflexivity. Qed.
Lemma moves_get : moves R (st_get : ST S S).
Proof. intros s. reflexivity. Qed.
Lemma moves_try {A} (m : ST S A) : moves R m → moves R (st_try m).
Proof. intros H s. specialize (H s). unfold st_try. by destruct (m s). Qed.
End moves.

Create HintDb calm.
#[export] Hint Resolve moves_ret moves_lift moves_fail moves_fail_if moves_get moves_try : calm.

(** A method made of ones that are known to move the state so. *)
Ltac hush :=
  repeat first [solve [eauto with calm typeclass_instances] | apply moves_bind; [|intros ?]
               | match goal with |- moves _ (match ?x with _ => _ end) => destruct x end].

(** *** Byte strings *)

Lemma length_be_bytes n z : length (be_bytes n z) = n.
Proof.
  revert z; induction n as [|n IH]; intros z; simpl; [done|].
  rewrite length_app, IH. simpl. lia.
Qed.

Lemma be_bytes_byte n z : Forall is_byte (be_bytes n z).
Proof.
  revert z; induction n as [|n IH]; intros z; simpl; [done|].
  apply Forall_app; split; [apply IH|].
  repeat constructor; apply Z.mod_pos_bound; lia.
Qed.

Lemma be_val_snoc bs b : be_val (bs ++ [b]) = be_val bs * 256 + b.
Proof. unfold be_val. by rewrite foldl_app. Qed.

Lemma pow256_S n : 256 ^ Z.of_nat (S n) = 256 ^ Z.of_nat n * 256.
Proof. rewrite Nat2Z.inj_succ, Z.pow_succ_r by lia. lia. Qed.

Lemma be_val_app xs ys : be_val (xs ++ ys) = be_val xs * 256 ^ Z.of_nat (length ys) + be_val ys.
Proof.
  induction ys as [|y ys IH] using rev_ind; [rewrite app_nil_r; unfold be_val at 3; simpl; lia|].
  rewrite app_assoc, !be_val_snoc, IH, length_app, Nat.add_1_r, pow256_S. lia.
Qed.

Lemma be_val_bytes n z : be_val (be_bytes n z) = z mod 256 ^ Z.of_nat n.
Proof.
  revert z; induction n as [|n IH]; intros z.
  { simpl. by rewrite Z.mod_1_r. }
  cbn [be_bytes]. rewrite be_val_snoc, IH, pow256_S, (Z.mul_comm (256 ^ _) 256).
  rewrite (Z.rem_mul_r z 256 (256 ^ Z.of_nat n)) by lia. lia.
Qed.

Lemma be_val_bytes_small n z : 0 <= z < 256 ^ Z.of_nat n → be_val (be_bytes n z) = z.
Proof. intros H. rewrite be_val_bytes. by apply Z.mod_small. Qed.

Lemma be_val_range bs : Forall is_byte bs → 0 <= be_val bs < 256 ^ Z.of_nat (length bs).
Proof.
  induction bs as [|b bs IH] using rev_ind; intros H; [unfold be_val; simpl; lia|].
  apply Forall_app in H as [H1 H2]. apply Forall_cons_1 in H2 as [H2 _]. unfold is_byte in H2.
  specialize (IH H1). rewrite be_val_snoc, length_app, Nat.add_1_r, pow256_S.
  lia.
Qed.

Lemma be_bytes_val bs n : Forall is_byte bs → length bs = n → be_bytes n (be_val bs) = bs.
Proof.
  revert n; induction bs as [|b bs IH] using rev_ind; intros n H <-; [done|].
  apply Forall_app in H as [H1 H2]. apply Forall_cons_1 in H2 as [H2 _]. unfold is_byte in H2.
  rewrite length_app, Nat.add_1_r. cbn [be_bytes]. rewrite be_val_snoc.
  replace ((be_val bs * 256 + b) / 256) with (be_val bs) by (apply Z.div_unique with b; lia).
  replace ((be_val bs * 256 + b) mod 256) with b by (apply Z.mod_unique with (be_val bs); lia).
  by rewrite IH.
Qed.

(** *** The sign tests of [big.Int] *)

Lemma sgn_leb_0 z : (Z.sgn z <=? 0) = (z <=? 0).
Proof. by destruct z. Qed.

Lemma sgn_ltb_0 z : (Z.sgn z <? 0) = (z <? 0).
Proof. by destruct z. Qed.

Lemma sgn_0_ltb z : (0 <? Z.sgn z) = (0 <? z).
Proof. by destruct z. Qed.

Lemma sgn_eqb_0 z : (Z.sgn z =? 0) = (z =? 0).
Proof. by destruct z. Qed.

Lemma lookup_map {A B} (f : A → B) (l : list A) (i : nat) : map f l !! i = f <$> (l !! i).
Proof. revert i. induction l as [|x l IH]; intros [|i]; [done..|apply IH]. Qed.

(** *** Runs of a list *)

Lemma concat_chunks {A} fuel size (items : list A) : (0 < size)%nat → (length items <= fuel)%nat → concat (chunks fuel size items) = items.
Proof.
  intros Hs. revert items. induction fuel as [|fuel IH]; intros items Hl; [by destruct items; [|simpl in Hl; lia]|].
  destruct items as [|x items]; [done|]. cbn [chunks concat]. rewrite IH, take_drop; [done|].
  rewrite length_drop. cbn [length] in *. lia.
Qed.

Lemma chunks_subseteq {A} fuel size (items : list A) b : b ∈ chunks fuel size items → b ⊆ items.
Proof.
  revert items. induction fuel as [|fuel IH]; intros items; [by intros ?%elem_of_nil|].
  destruct items as [|x items]; [by intros ?%elem_of_nil|]. cbn [chunks]. intros [->|Hb%IH]%elem_of_cons.
  - apply sublist_subseteq, sublist_take.
  - etransitivity; [exact Hb|]. apply sublist_subseteq, sublist_drop.
Qed.

Lemma chunks_nonempty {B} fuel size (items : list B) : (0 < size)%nat → Forall (λ b, b ≠ []) (chunks fuel size items).
Proof.
  intros Hs. revert items. induction fuel as [|fuel IH]; intros items; [constructor|].
  destruct items as [|x items]; [constructor|]. cbn [chunks]. constructor; [by destruct size; [lia|]|apply IH].
Qed.

(** *** Sums over maps *)

Section map_sum.
Context {V : Type} (f : V → Z).
Implicit Types m : gmap Z V.

Lemma map_sum_empty : map_sum f ∅ = 0.
Proof. apply map_fold_empty. Qed.

Lemma map_sum_insert_new m k v : m !! k = None → map_sum f (<[k:=v]> m) = f v + map_sum f m.
Proof.
  intros H. unfold map_sum. rewrite map_fold_insert_L; [done| |done].
  intros; lia.
Qed.

Lemma map_sum_delete m k v : m !! k = Some v → map_sum f (delete k m) = map_sum f m - f v.
Proof.
  intros H. rewrite <- (insert_delete_id m k v) at 2 by done.
  rewrite map_sum_insert_new; [lia|]. apply lookup_delete_eq.
Qed.

Lemma map_sum_replace m k v w :
  m !! k = Some v → map_sum f (<[k:=w]> m) = map_sum f m - f v + f w.
Proof.
  intros H. rewrite <- insert_delete_eq, map_sum_insert_new by apply lookup_delete_eq.
  rewrite (map_sum_delete _ _ _ H). lia.
Qed.

Lemma map_sum_nonneg m : (∀ k v, m !! k = Some v → 0 <= f v) → 0 <= map_sum f m.
Proof.
  induction m as [|k v m Hk IH] using map_ind; intros H; [rewrite map_sum_empty; lia|].
  rewrite map_sum_insert_new by done.
  assert (0 <= f v) by (apply (H k); apply lookup_insert_eq).
  enough (0 <= map_sum f m) by lia.
  apply IH. intros j w Hj. apply (H j). rewrite lookup_insert_ne; [done|congruence].
Qed.
End map_sum.
