(* ===== verification/Fr.v ===== *)
(** The BN254 scalar field of [services/internal/fr/fr.go]: limbs, Montgomery multiplication,
    encodings, and the ring they implement. *)
From S2P Require Import Prelude.

Create HintDb fr discriminated.

Module fr.

(** [Element] is four little-endian 64-bit limbs in Montgomery form. *)
Record Element : Type := mkElement { e0 : Z; e1 : Z; e2 : Z; e3 : Z }.

Definition limb (e : Element) (i : nat) : Z :=
  match i with 0%nat => e0 e | 1%nat => e1 e | 2%nat => e2 e | _ => e3 e end.

Definition of_limbs (f : nat → Z) : Element := mkElement (f 0%nat) (f 1%nat) (f 2%nat) (f 3%nat).

Definition Modulus : Z :=
  21888242871839275222246405745257275088548364400416034343698204186575808495617.

Definition q : Element :=
  mkElement 0x43e1f593f0000001 0x2833e84879b97091 0xb85045b68181585d 0x30644e72e131a029.

Definition ErrNonCanonical : gerr := Sentinel "fr: value is not below the field modulus".

(** The [math/bits] primitives: sum and carry, difference and borrow, high and low product. *)
Definition Add64 (x y carry : Z) : Z * Z := (u64 (x + y + carry), Z.shiftr (x + y + carry) 64).
Definition Sub64 (x y borrow : Z) : Z * Z :=
  (u64 (x - y - borrow), if x - y - borrow <? 0 then 1 else 0).
Definition Mul64 (x y : Z) : Z * Z := (Z.shiftr (x * y) 64, u64 (x * y)).

(** The Newton iteration of [init]: [inv *= 2 - q[0]*inv], six times from 1. *)
Definition newton (inv : Z) : Z := u64 (inv * u64 (2 - u64 (e0 q * inv))).
Definition qInvNeg : Z := Eval vm_compute in u64 (- Nat.iter 6 newton 1).

(** The double loop [e[i] |= uint64(buf[31-8*i-j]) << (8*j)] over a 32-byte buffer. *)
Definition load_limb (buf : list Z) (i : nat) : Z :=
  foldl (λ acc j, Z.lor acc (u64 (Z.shiftl (buf !!! (31 - 8 * i - j)%nat) (8 * Z.of_nat j))))
    0 (seq 0 8).
Definition load_limbs (buf : list Z) : Element := of_limbs (load_limb buf).

Definition fromBigRaw (v : Z) : Element := load_limbs (be_bytes 32 v).
Definition rSquare : Element := Eval vm_compute in fromBigRaw (2 ^ 512 mod Modulus).

Fixpoint less_limbs (z : Element) (ixs : list nat) : bool :=
  match ixs with
  | [] => false
  | i :: ixs => if limb z i =? limb q i then less_limbs z ixs else limb z i <? limb q i
  end.
Definition lessThanQ (z : Element) : bool := less_limbs z [3; 2; 1; 0]%nat.

Definition subQ (z : Element) : Element :=
  let '(z0, b) := Sub64 (e0 z) (e0 q) 0 in
  let '(z1, b) := Sub64 (e1 z) (e1 q) b in
  let '(z2, b) := Sub64 (e2 z) (e2 q) b in
  let '(z3, _) := Sub64 (e3 z) (e3 q) b in
  mkElement z0 z1 z2 z3.

(** [madd] returns hi, lo of a*b + c + d. *)
Definition madd (a b c d : Z) : Z * Z :=
  let '(hi, lo) := Mul64 a b in
  let '(lo, carry) := Add64 lo c 0 in
  let hi := u64 (hi + carry) in
  let '(lo, carry) := Add64 lo d 0 in
  let hi := u64 (hi + carry) in
  (hi, lo).

(** One pass of the outer loop of [mul], for the limb [yi], over the array [t] of six limbs. *)
Definition mul_row (x : Element) (yi : Z) (t : list Z) : list Z :=
  let '(t, c) := foldl (λ '(t, c) j,
      let '(c, tj) := madd (limb x j) yi (t !!! j) c in (<[j := tj]> t, c))
    (t, 0) [0; 1; 2; 3]%nat in
  let '(t4, carry) := Add64 (t !!! 4%nat) c 0 in
  let t := <[5%nat := carry]> (<[4%nat := t4]> t) in
  let m := u64 (t !!! 0%nat * qInvNeg) in
  let '(c, _) := madd m (e0 q) (t !!! 0%nat) 0 in
  let '(t, c) := foldl (λ '(t, c) j,
      let '(c, tj) := madd m (limb q j) (t !!! j) c in (<[(j - 1)%nat := tj]> t, c))
    (t, c) [1; 2; 3]%nat in
  let '(t3, carry) := Add64 (t !!! 4%nat) c 0 in
  let t := <[3%nat := t3]> t in
  <[4%nat := u64 (t !!! 5%nat + carry)]> t.

Definition mul (x y : Element) : Element :=
  let t := foldl (λ t i, mul_row x (limb y i) t) (replicate 6 0) [0; 1; 2; 3]%nat in
  let r := of_limbs (λ i, t !!! i) in
  if negb (t !!! 4%nat =? 0) || negb (lessThanQ r) then subQ r else r.

(** [SetBytes] decodes a canonical 32-byte big-endian value. *)
Definition SetBytes (b : list Z) : res Element :=
  let e := load_limbs b in
  _ ← fail_if (negb (lessThanQ e)) ErrNonCanonical;
  mret (mul e rSquare).

Definition SetUint64 (v : Z) : Element := mul (mkElement v 0 0 0) rSquare.

(** The loop [b[31-8*i-j] = byte(e[i] >> (8*j))]. *)
Definition store_limbs (e : Element) : list Z :=
  foldl (λ b i,
      foldl (λ b j, <[(31 - 8 * i - j)%nat := Z.shiftr (limb e i) (8 * Z.of_nat j) mod 256]> b)
        b (seq 0 8))
    (replicate 32 0) (seq 0 4).

Definition Bytes (e : Element) : list Z := store_limbs (mul e (mkElement 1 0 0 0)).

Definition Big (e : Element) : Z := be_val (Bytes e).

Definition Add (x y : Element) : Element :=
  let '(z0, c) := Add64 (e0 x) (e0 y) 0 in
  let '(z1, c) := Add64 (e1 x) (e1 y) c in
  let '(z2, c) := Add64 (e2 x) (e2 y) c in
  let '(z3, _) := Add64 (e3 x) (e3 y) c in
  let z := mkElement z0 z1 z2 z3 in
  if negb (lessThanQ z) then subQ z else z.

Definition Mul (x y : Element) : Element := mul x y.

#[global] Instance Element_eq_dec : EqDecision Element.
Proof. solve_decision. Defined.

#[global] Instance Element_countable : Countable Element.
Proof.
  refine (inj_countable' (λ e, (e0 e, e1 e, e2 e, e3 e))
            (λ '(a, b, c, d), mkElement a b c d) _).
  by intros [].
Defined.

Definition zero : Element := mkElement 0 0 0 0.
Definition IsZero (e : Element) : bool := bool_decide (e = zero).

(** ** Hex, as [encoding/hex] reads and writes it *)

Definition hex_digit (c : Ascii.ascii) : option Z :=
  let n := Z.of_N (Ascii.N_of_ascii c) in
  if (48 <=? n) && (n <=? 57) then Some (n - 48)
  else if (97 <=? n) && (n <=? 102) then Some (n - 87)
  else if (65 <=? n) && (n <=? 70) then Some (n - 55)
  else None.

Definition ErrHex : gerr := Sentinel "encoding/hex: invalid byte".

Fixpoint hex_decode (s : string) : res (list Z) :=
  match s with
  | String a (String b s) =>
      match hex_digit a, hex_digit b with
      | Some x, Some y => bs ← hex_decode s; mret (x * 16 + y :: bs)
      | _, _ => Fail ErrHex
      end
  | EmptyString => mret []
  | _ => Fail ErrHex
  end.

Definition hex_char (n : Z) : Ascii.ascii :=
  Ascii.ascii_of_N (Z.to_N (if n <? 10 then n + 48 else n + 87)).

Fixpoint hex_encode (bs : list Z) : string :=
  match bs with
  | [] => EmptyString
  | b :: bs => String (hex_char (b / 16)) (String (hex_char (b mod 16)) (hex_encode bs))
  end.

(** [SetHex] decodes 64 hex digits, big-endian, with no prefix. *)
Definition SetHex (s : string) : res Element :=
  _ ← fail_if (negb (String.length s =? 64)%nat) (Sentinel "fr: hex value must be 64 digits");
  b ← hex_decode s;
  SetBytes b.

Definition Hex (e : Element) : string := hex_encode (Bytes e).

(** ** The values a limb vector stands for *)

(** The integer of the four limbs. *)
Definition val (e : Element) : Z := e0 e + e1 e * W64 + e2 e * W64 ^ 2 + e3 e * W64 ^ 3.

(** Every limb fits 64 bits. *)
Definition limbs_ok (e : Element) : Prop :=
  is_u64 (e0 e) ∧ is_u64 (e1 e) ∧ is_u64 (e2 e) ∧ is_u64 (e3 e).

(** The representation invariant of the package: a reduced limb vector. *)
Definition valid (e : Element) : Prop := limbs_ok e ∧ val e < Modulus.

(** The Montgomery radix R = 2^256 and its inverse modulo q. *)
Definition R : Z := 2 ^ 256.
Definition Rinv : Z :=
  9915499612839321149637521777990102151350674507940716049588462388200839649614.

(** The field value of an element, [fr.Element.Big] at the level of integers. *)
Definition toZ (e : Element) : Z := val e * Rinv mod Modulus.

(** * Lemmas *)

Lemma val_q : val q = Modulus.
Proof. reflexivity. Qed.

Lemma R_Rinv : (R * Rinv) mod Modulus = 1.
Proof. vm_compute. reflexivity. Qed.

Lemma qInvNeg_spec : (e0 q * qInvNeg) mod W64 = W64 - 1.
Proof. vm_compute. reflexivity. Qed.

Lemma rSquare_val : val rSquare = R * R mod Modulus.
Proof. vm_compute. reflexivity. Qed.

Lemma limbs_ok_range e : limbs_ok e → 0 <= val e < R.
Proof.
  unfold limbs_ok, is_u64, val, R. change (2 ^ 256) with (W64 * W64 ^ 3). unfold W64. lia.
Qed.

Lemma high_low z : z = Z.shiftr z 64 * W64 + u64 z.
Proof.
  rewrite u64_mod, Z.shiftr_div_pow2 by lia. change (2 ^ 64) with W64.
  pose proof (Z.div_mod z W64 ltac:(done)). lia.
Qed.

Lemma Add64_spec x y c : 0 <= x + y + c < 2 * W64 →
  ∃ s co, Add64 x y c = (s, co) ∧ s + co * W64 = x + y + c ∧ is_u64 s ∧ 0 <= co <= 1.
Proof.
  intros H. unfold Add64. eexists _, _; split; [reflexivity|].
  pose proof (high_low (x + y + c)). pose proof (u64_range (x + y + c)).
  unfold is_u64 in *. unfold W64 in *. lia.
Qed.

Lemma Sub64_spec x y b : is_u64 x → is_u64 y → 0 <= b <= 1 →
  ∃ d bo, Sub64 x y b = (d, bo) ∧ d - bo * W64 = x - y - b ∧ is_u64 d ∧ 0 <= bo <= 1.
Proof.
  unfold is_u64, Sub64. rewrite u64_mod. intros Hx Hy Hb. eexists _, _; split; [reflexivity|].
  pose proof (Z.div_mod (x - y - b) W64 ltac:(done)) as E.
  pose proof (Z.mod_pos_bound (x - y - b) W64 ltac:(done)).
  unfold W64 in *. destruct (Z.ltb_spec (x - y - b) 0); lia.
Qed.

Lemma u64_mul_bound a b : is_u64 a → is_u64 b → 0 <= a * b <= (W64 - 1) * (W64 - 1).
Proof. unfold is_u64. nia. Qed.

Lemma madd_spec a b c d : is_u64 a → is_u64 b → is_u64 c → is_u64 d →
  ∃ hi lo, madd a b c d = (hi, lo) ∧ hi * W64 + lo = a * b + c + d ∧ is_u64 hi ∧ is_u64 lo.
Proof.
  intros Ha Hb Hc Hd. pose proof (u64_mul_bound a b Ha Hb) as Hab.
  unfold madd, Mul64.
  pose proof (high_low (a * b)) as E. pose proof (u64_range (a * b)) as Hlo.
  set (h := Z.shiftr (a * b) 64) in *. set (l := u64 (a * b)) in *.
  unfold is_u64 in *.
  destruct (Add64_spec l c 0) as (s1 & c1 & -> & E1 & H1 & K1); [lia|].
  assert (0 <= h + c1 < W64) by (unfold is_u64, W64 in *; lia).
  rewrite (u64_small (h + c1)) by done.
  destruct (Add64_spec s1 d 0) as (s2 & c2 & -> & E2 & H2 & K2); [unfold is_u64 in *; lia|].
  assert (0 <= h + c1 + c2 < W64) by (unfold is_u64, W64 in *; lia).
  rewrite (u64_small (h + c1 + c2)) by done.
  eexists _, _; split; [reflexivity|]. unfold is_u64 in *. lia.
Qed.

Lemma lessThanQ_spec e : limbs_ok e → lessThanQ e = (val e <? Modulus).
Proof.
  unfold limbs_ok, is_u64, lessThanQ, less_limbs, limb, val. rewrite <- val_q. unfold val.
  set (q0 := e0 q). set (q1 := e1 q). set (q2 := e2 q). set (q3 := e3 q).
  assert (0 <= q0 < W64 ∧ 0 <= q1 < W64 ∧ 0 <= q2 < W64 ∧ 0 <= q3 < W64)
    by (subst q0 q1 q2 q3; unfold W64; cbn; lia).
  clearbody q0 q1 q2 q3. unfold W64 in *. intros H0.
  repeat match goal with |- context [?a =? ?b] => destruct (Z.eqb_spec a b) end;
  match goal with
  | |- (?a <? ?b) = _ => destruct (Z.ltb_spec a b)
  | |- _ => idtac
  end; symmetry; first [apply Z.ltb_lt; lia | apply Z.ltb_ge; lia].
Qed.

Lemma subQ_spec e : limbs_ok e → Modulus <= val e →
  limbs_ok (subQ e) ∧ val (subQ e) = val e - Modulus.
Proof.
  rewrite <- val_q. unfold limbs_ok, val, subQ. intros (H0 & H1 & H2 & H3) Hge.
  assert (is_u64 (e0 q) ∧ is_u64 (e1 q) ∧ is_u64 (e2 q) ∧ is_u64 (e3 q)) as (Q0 & Q1 & Q2 & Q3)
    by (unfold is_u64, W64; cbn; lia).
  destruct (Sub64_spec (e0 e) (e0 q) 0) as (d0 & b0 & -> & E0 & D0 & B0); [done..|].
  destruct (Sub64_spec (e1 e) (e1 q) b0) as (d1 & b1 & -> & E1 & D1 & B1); [done..|].
  destruct (Sub64_spec (e2 e) (e2 q) b1) as (d2 & b2 & -> & E2 & D2 & B2); [done..|].
  destruct (Sub64_spec (e3 e) (e3 q) b2) as (d3 & b3 & -> & E3 & D3 & B3); [done..|].
  cbn [e0 e1 e2 e3]. split; [done|]. unfold is_u64, W64 in *. lia.
Qed.

Lemma reduce_once e : limbs_ok e → val e < 2 * Modulus →
  let r := if negb (lessThanQ e) then subQ e else e in
  valid r ∧ val r = val e mod Modulus.
Proof.
  intros H Hlt. pose proof (limbs_ok_range e H). simpl. rewrite lessThanQ_spec by done.
  destruct (Z.ltb_spec (val e) Modulus); simpl.
  - split; [done|]. by rewrite Z.mod_small by lia.
  - destruct (subQ_spec e) as [Hok Hv]; [done..|]. split; [split; [done|lia]|].
    rewrite Hv. apply Z.mod_unique with 1; lia.
Qed.

Lemma Add_spec x y : valid x → valid y →
  valid (Add x y) ∧ val (Add x y) = (val x + val y) mod Modulus.
Proof.
  intros [(X0 & X1 & X2 & X3) Hx] [(Y0 & Y1 & Y2 & Y3) Hy]. unfold Add.
  unfold is_u64 in *.
  destruct (Add64_spec (e0 x) (e0 y) 0) as (s0 & c0 & -> & E0 & S0 & C0); [lia|].
  destruct (Add64_spec (e1 x) (e1 y) c0) as (s1 & c1 & -> & E1 & S1 & C1); [lia|].
  destruct (Add64_spec (e2 x) (e2 y) c1) as (s2 & c2 & -> & E2 & S2 & C2); [lia|].
  destruct (Add64_spec (e3 x) (e3 y) c2) as (s3 & c3 & -> & E3 & S3 & C3); [lia|].
  set (z := mkElement s0 s1 s2 s3).
  assert (limbs_ok z) as Hz by done.
  assert (val z = val x + val y) as Hv.
  { unfold val in *. subst z. cbn [e0 e1 e2 e3].
    unfold Modulus, W64, is_u64 in *. lia. }
  destruct (reduce_once z) as [Hr Er]; [done|lia|]. by rewrite <- Hv.
Qed.

(** The value of the array [t] of the multiplication loop. *)
Definition tval (t : list Z) : Z :=
  t !!! 0%nat + t !!! 1%nat * W64 + t !!! 2%nat * W64 ^ 2 + t !!! 3%nat * W64 ^ 3
  + t !!! 4%nat * W64 ^ 4.

(** Six limbs holding a value below 2q: the invariant of the outer loop. *)
Definition row_ok (t : list Z) : Prop :=
  length t = 6%nat ∧ Forall is_u64 t ∧ tval t < 2 * Modulus.

Lemma tval_six a b c d e f :
  tval [a; b; c; d; e; f] = a + b * W64 + c * W64 ^ 2 + d * W64 ^ 3 + e * W64 ^ 4.
Proof. reflexivity. Qed.

Lemma low_limb_cancels t0 : is_u64 t0 → (u64 (t0 * qInvNeg) * e0 q + t0) mod W64 = 0.
Proof.
  intros H. rewrite u64_mod, Zplus_mod, Zmult_mod_idemp_l, <- Zplus_mod.
  replace (t0 * qInvNeg * e0 q + t0) with (t0 * (e0 q * qInvNeg + 1)) by ring.
  rewrite Zmult_mod. rewrite (Zplus_mod (e0 q * qInvNeg)), qInvNeg_spec.
  replace ((W64 - 1 + 1 mod W64) mod W64) with 0 by reflexivity. by rewrite Z.mul_0_r.
Qed.

Lemma row_bound v xv y m : 0 <= xv < Modulus → is_u64 y → is_u64 m → 0 <= v < 2 * Modulus →
  v + xv * y + m * Modulus < 2 * Modulus * W64.
Proof.
  unfold is_u64. intros Hx Hy Hm Hv.
  assert (xv * y <= (Modulus - 1) * (W64 - 1)) by (apply Z.mul_le_mono_nonneg; lia).
  unfold Modulus, W64 in *. lia.
Qed.

Ltac step_madd :=
  match goal with
  | |- context [madd ?a ?b ?c ?d] =>
      let h := fresh "h" in let s := fresh "s" in let E := fresh "E" in
      let Bh := fresh "Bh" in let Bs := fresh "Bs" in
      destruct (madd_spec a b c d) as (h & s & -> & E & Bh & Bs); [done..|];
      cbn [lookup_total list_lookup_total insert list_insert Nat.sub limb]
  end.

Ltac step_add64 :=
  match goal with
  | |- context [Add64 ?a ?b ?c] =>
      let h := fresh "co" in let s := fresh "s" in let E := fresh "E" in
      let Bh := fresh "Bc" in let Bs := fresh "Bs" in
      destruct (Add64_spec a b c) as (s & h & -> & E & Bs & Bh); [unfold is_u64 in *; lia|];
      cbn [lookup_total list_lookup_total insert list_insert Nat.sub limb]
  end.

Lemma mul_row_spec x yi t : limbs_ok x → val x < Modulus → is_u64 yi → row_ok t →
  ∃ m, row_ok (mul_row x yi t) ∧
    tval (mul_row x yi t) * W64 = tval t + val x * yi + m * Modulus.
Proof.
  intros Hxo Hx Hy (Hlen & Ht & Hlt).
  pose proof (limbs_ok_range x Hxo) as Hx0. destruct Hxo as (X0 & X1 & X2 & X3).
  assert (is_u64 (e0 q) ∧ is_u64 (e1 q) ∧ is_u64 (e2 q) ∧ is_u64 (e3 q)) as (Q0 & Q1 & Q2 & Q3)
    by (unfold is_u64, W64; cbn; lia).
  assert (is_u64 0) as Z0 by done.
  destruct t as [|t0 [|t1 [|t2 [|t3 [|t4 [|t5 [|]]]]]]]; try done.
  do 6 (apply Forall_cons in Ht as [? Ht]). clear Ht Hlen.
  rewrite tval_six in Hlt. rewrite tval_six.
  unfold mul_row. cbn [foldl limb lookup_total list_lookup_total insert list_insert].
  do 4 step_madd. step_add64.
  pose proof (low_limb_cancels s ltac:(done)) as Hlow.
  assert (is_u64 (u64 (s * qInvNeg))) as Hm by apply u64_range.
  set (m := u64 (s * qInvNeg)) in *. clearbody m.
  step_madd.
  assert (s4 = 0) as ->.
  { replace (m * e0 q + s) with (s4 + h3 * W64) in Hlow by lia.
    rewrite Z_mod_plus_full, Z.mod_small in Hlow; done. }
  do 3 step_madd. step_add64.
  rewrite (u64_small (co + co0)) by (unfold is_u64, W64; lia).
  assert ((s4 + s5 * W64 + s6 * W64 ^ 2 + s7 * W64 ^ 3 + (co + co0) * W64 ^ 4) * W64 =
    t0 + t1 * W64 + t2 * W64 ^ 2 + t3 * W64 ^ 3 + t4 * W64 ^ 4 + val x * yi + m * Modulus) as Hid.
  { rewrite <- val_q. unfold val.
    replace t0 with (h * W64 + s - e0 x * yi) by lia.
    replace t1 with (h0 * W64 + s0 - e1 x * yi - h) by lia.
    replace t2 with (h1 * W64 + s1 - e2 x * yi - h0) by lia.
    replace t3 with (h2 * W64 + s2 - e3 x * yi - h1) by lia.
    replace t4 with (s3 + co * W64 - h2) by lia.
    replace s with (h3 * W64 - m * e0 q) by lia.
    replace s0 with (h4 * W64 + s4 - m * e1 q - h3) by lia.
    replace s1 with (h5 * W64 + s5 - m * e2 q - h4) by lia.
    replace s2 with (h6 * W64 + s6 - m * e3 q - h5) by lia.
    replace s3 with (s7 + co0 * W64 - h6) by lia. ring. }
  exists m. unfold row_ok. rewrite tval_six. split; [|exact Hid].
  split; [done|]. split; [repeat (apply Forall_cons; split); try done; unfold is_u64, W64; lia|].
  pose proof (row_bound (t0 + t1 * W64 + t2 * W64 ^ 2 + t3 * W64 ^ 3 + t4 * W64 ^ 4)
    (val x) yi m ltac:(lia) Hy Hm ltac:(unfold is_u64, W64 in *; lia)).
  unfold W64 in *; lia.
Qed.

Lemma row_ok_result t : row_ok t →
  let r := of_limbs (λ i, t !!! i) in
  t !!! 4%nat = 0 ∧ limbs_ok r ∧ val r = tval t.
Proof.
  intros (Hlen & Ht & Hlt).
  destruct t as [|t0 [|t1 [|t2 [|t3 [|t4 [|t5 [|]]]]]]]; try done.
  do 6 (apply Forall_cons in Ht as [? Ht]). rewrite tval_six in *.
  unfold val, limbs_ok, of_limbs.
  cbn [lookup_total list_lookup_total e0 e1 e2 e3].
  unfold is_u64, Modulus, W64 in *. lia.
Qed.

(** Four passes, over any row function that meets the specification of a row. *)
Lemma four_rows (f : Z → list Z → list Z) (xv : Z) (y : Element) (t0 : list Z) :
  (∀ yi t, is_u64 yi → row_ok t →
     ∃ m, row_ok (f yi t) ∧ tval (f yi t) * W64 = tval t + xv * yi + m * Modulus) →
  limbs_ok y → row_ok t0 → tval t0 = 0 →
  let t := f (e3 y) (f (e2 y) (f (e1 y) (f (e0 y) t0))) in
  row_ok t ∧ ∃ m, tval t * R = xv * val y + m * Modulus.
Proof.
  intros Hf (Y0 & Y1 & Y2 & Y3) K0 Z0.
  destruct (Hf (e0 y) _ Y0 K0) as (m0 & K1 & I0).
  destruct (Hf (e1 y) _ Y1 K1) as (m1 & K2 & I1).
  destruct (Hf (e2 y) _ Y2 K2) as (m2 & K3 & I2).
  destruct (Hf (e3 y) _ Y3 K3) as (m3 & K4 & I3).
  intros t. split; [exact K4|]. exists (m0 + m1 * W64 + m2 * W64 ^ 2 + m3 * W64 ^ 3).
  subst t. revert I0 I1 I2 I3. rewrite Z0. clear. unfold val.
  generalize (tval (f (e3 y) (f (e2 y) (f (e1 y) (f (e0 y) t0))))) as T4.
  generalize (tval (f (e2 y) (f (e1 y) (f (e0 y) t0)))) as T3.
  generalize (tval (f (e1 y) (f (e0 y) t0))) as T2.
  generalize (tval (f (e0 y) t0)) as T1.
  replace R with (W64 ^ 4) by reflexivity. generalize W64 as W. generalize Modulus as Q.
  intros Q W T1 T2 T3 T4 I0 I1 I2 I3.
  transitivity (T4 * W * W ^ 3); [ring|]. rewrite I3.
  transitivity (T3 * W * W ^ 2 + (xv * e3 y + m3 * Q) * W ^ 3); [ring|]. rewrite I2.
  transitivity (T2 * W * W + (xv * e2 y + m2 * Q) * W ^ 2 + (xv * e3 y + m3 * Q) * W ^ 3);
    [ring|]. rewrite I1.
  transitivity (T1 * W + (xv * e1 y + m1 * Q) * W
     + (xv * e2 y + m2 * Q) * W ^ 2 + (xv * e3 y + m3 * Q) * W ^ 3); [ring|].
  rewrite I0. ring.
Qed.

Lemma rows_spec x y : valid x → limbs_ok y →
  let t := foldl (λ t i, mul_row x (limb y i) t) (replicate 6 0) [0; 1; 2; 3]%nat in
  row_ok t ∧ ∃ m, tval t * R = val x * val y + m * Modulus.
Proof.
  intros [Hxo Hx] Hy. apply (four_rows (mul_row x) (val x) y (replicate 6 0)); [|done| |done].
  - intros yi t Hyi Ht. by apply mul_row_spec.
  - split; [done|]. split; [|done]. by apply Forall_replicate.
Qed.

(** Montgomery multiplication: a reduced result with [result * R = x * y] modulo q. *)
Lemma mul_spec x y : valid x → limbs_ok y →
  valid (mul x y) ∧ (val (mul x y) * R) mod Modulus = (val x * val y) mod Modulus.
Proof.
  intros Hx Hy. destruct (rows_spec x y Hx Hy) as [Hrow [m Hm]]. unfold mul.
  set (t := foldl _ _ _) in *. clearbody t.
  destruct (row_ok_result t Hrow) as (H4 & Hok & Hval). rewrite H4. cbn [Z.eqb negb orb].
  destruct (reduce_once (of_limbs (λ i, t !!! i))) as [Hv Hr]; [done|rewrite Hval; apply Hrow|].
  split; [exact Hv|]. cbv zeta in Hr. rewrite Hr, Hval, Zmult_mod_idemp_l, Hm.
  by rewrite Z_mod_plus_full.
Qed.

Lemma toZ_range e : 0 <= toZ e < Modulus.
Proof. apply Z.mod_pos_bound. done. Qed.

Lemma cancel_R a b : (a * R) mod Modulus = b mod Modulus → a mod Modulus = (b * Rinv) mod Modulus.
Proof.
  intros H. rewrite <- (Zmult_mod_idemp_l b), <- H, Zmult_mod_idemp_l.
  replace (a * R * Rinv) with (a * (R * Rinv)) by ring.
  rewrite <- Zmult_mod_idemp_r, R_Rinv. f_equal. ring.
Qed.

Lemma toZ_mul x y : valid x → limbs_ok y →
  toZ (mul x y) = (val x * Rinv) * (val y * Rinv) mod Modulus.
Proof.
  intros Hx Hy. destruct (mul_spec x y Hx Hy) as [_ H]. unfold toZ.
  apply cancel_R in H. rewrite <- Zmult_mod_idemp_l, H, Zmult_mod_idemp_l. f_equal. ring.
Qed.

Lemma toZ_Mul x y : valid x → valid y → toZ (Mul x y) = (toZ x * toZ y) mod Modulus.
Proof.
  intros Hx [Hy _]. unfold Mul. rewrite toZ_mul by done. unfold toZ. by rewrite <- Zmult_mod.
Qed.

Lemma toZ_Add x y : valid x → valid y → toZ (Add x y) = (toZ x + toZ y) mod Modulus.
Proof.
  intros Hx Hy. destruct (Add_spec x y Hx Hy) as [_ H]. unfold toZ.
  rewrite H, Zmult_mod_idemp_l, <- Zplus_mod. f_equal. ring.
Qed.

Lemma valid_Mul x y : valid x → valid y → valid (Mul x y).
Proof. intros Hx [Hy _]. by apply mul_spec. Qed.

Lemma valid_Add x y : valid x → valid y → valid (Add x y).
Proof. intros. by apply Add_spec. Qed.

Lemma valid_zero : valid zero.
Proof. done. Qed.

#[global] Hint Resolve valid_Mul valid_Add valid_zero : fr.

Lemma val_inj x y : limbs_ok x → limbs_ok y → val x = val y → x = y.
Proof.
  destruct x, y. unfold limbs_ok, val, is_u64, W64. cbn [e0 e1 e2 e3]. intros ? ? ?.
  f_equal; lia.
Qed.

(** The field value identifies a reduced element, so [==] on elements is equality in the field. *)
Lemma toZ_inj x y : valid x → valid y → toZ x = toZ y → x = y.
Proof.
  intros [Hx Hx'] [Hy Hy'] H. apply val_inj; [done..|].
  pose proof (limbs_ok_range x Hx). pose proof (limbs_ok_range y Hy).
  rewrite <- (Z.mod_small (val x) Modulus), <- (Z.mod_small (val y) Modulus) by lia.
  assert (∀ a, a mod Modulus = (a * Rinv mod Modulus) * R mod Modulus) as E.
  { intros a. rewrite Zmult_mod_idemp_l. replace (a * Rinv * R) with (a * (R * Rinv)) by ring.
    rewrite <- Zmult_mod_idemp_r, R_Rinv. f_equal. ring. }
  rewrite (E (val x)), (E (val y)). unfold toZ in H. by rewrite H.
Qed.

(** *** Congruence modulo p, with the rewriting the field proofs use *)

Definition eqp (a b : Z) : Prop := (Modulus | a - b).

Lemma eqp_iff a b : eqp a b ↔ a mod Modulus = b mod Modulus.
Proof.
  unfold eqp. rewrite <- Z.mod_divide by done. split; intros H.
  - replace a with (b + (a - b)) by ring. rewrite <- Zplus_mod_idemp_r, H. f_equal. ring.
  - by rewrite Zminus_mod, H, Z.sub_diag.
Qed.

#[global] Instance eqp_equiv : Equivalence eqp.
Proof. split; intros ?*; rewrite ?eqp_iff; congruence. Qed.

#[global] Instance eqp_add : Proper (eqp ==> eqp ==> eqp) Z.add.
Proof. intros a b H c d K. rewrite eqp_iff in *. by rewrite Zplus_mod, H, K, <- Zplus_mod. Qed.

#[global] Instance eqp_mul : Proper (eqp ==> eqp ==> eqp) Z.mul.
Proof. intros a b H c d K. rewrite eqp_iff in *. by rewrite Zmult_mod, H, K, <- Zmult_mod. Qed.

Lemma eqp_refl_eq a b : a = b → eqp a b.
Proof. intros ->. reflexivity. Qed.

Lemma eqp_mod z : eqp (z mod Modulus) z.
Proof. apply eqp_iff. by rewrite Z.mod_mod. Qed.

Lemma eqp_Mul x y : valid x → valid y → eqp (toZ (Mul x y)) (toZ x * toZ y).
Proof. intros. rewrite toZ_Mul by done. apply eqp_mod. Qed.

Lemma eqp_Add x y : valid x → valid y → eqp (toZ (Add x y)) (toZ x + toZ y).
Proof. intros. rewrite toZ_Add by done. apply eqp_mod. Qed.

(** A field value equals a reduced integer when they are congruent. *)
Lemma toZ_eq_mod e z : eqp (toZ e) z → toZ e = z mod Modulus.
Proof. intros <-%eqp_iff. by rewrite Z.mod_small by apply toZ_range. Qed.

(** *** Encodings *)

Lemma lor_disjoint a b n : 0 <= n → 0 <= a < 2 ^ n → Z.lor a (Z.shiftl b n) = a + b * 2 ^ n.
Proof.
  intros Hn Ha. rewrite <- Z.shiftl_mul_pow2 by done. symmetry. apply Z.add_nocarry_lor.
  apply Z.bits_inj'. intros i Hi. rewrite Z.land_spec, Z.bits_0.
  destruct (decide (i < n)).
  - rewrite Z.shiftl_spec_low by done. apply andb_false_r.
  - rewrite <- (Z.mod_small a (2 ^ n)), Z.mod_pow2_bits_high by lia. done.
Qed.

(** The shift-and-or loop over [k] bytes [g 0, g 1, ...], least significant first. *)
Lemma or_loop (g : nat → Z) k : (k <= 8)%nat → (∀ j, is_byte (g j)) →
  foldl (λ acc j, Z.lor acc (u64 (Z.shiftl (g j) (8 * Z.of_nat j)))) 0 (seq 0 k)
  = be_val (rev (map g (seq 0 k))).
Proof.
  intros Hk Hg. induction k as [|k IH]; [done|].
  rewrite seq_S, foldl_app, map_app, rev_app_distr. cbn [foldl map rev app plus].
  rewrite IH by lia.
  change (g k :: rev (map g (seq 0 k))) with ([g k] ++ rev (map g (seq 0 k))).
  rewrite be_val_app, length_rev, length_map, length_seq.
  assert (Forall is_byte (rev (map g (seq 0 k)))) as HF.
  { apply Forall_rev, Forall_fmap, Forall_forall. intros; apply Hg. }
  pose proof (be_val_range _ HF) as Hr. rewrite length_rev, length_map, length_seq in Hr.
  assert (256 ^ Z.of_nat k = 2 ^ (8 * Z.of_nat k)) as Hp
    by (change 256 with (2 ^ 8); rewrite <- Z.pow_mul_r by lia; f_equal; lia).
  pose proof (Hg k) as Hb. unfold is_byte in Hb.
  assert (2 ^ (8 * Z.of_nat k) * 256 <= W64).
  { change W64 with (2 ^ 56 * 256). apply Z.mul_le_mono_nonneg_r; [lia|].
    apply Z.pow_le_mono_r; lia. }
  rewrite u64_small by (unfold is_u64; rewrite Z.shiftl_mul_pow2 by lia; nia).
  rewrite lor_disjoint by lia. rewrite Hp.
  replace (be_val [g k]) with (g k) by (unfold be_val; simpl; lia). lia.
Qed.

Lemma load_limb_byte buf j : Forall is_byte buf → is_byte (buf !!! (j : nat)).
Proof.
  intros H. rewrite list_lookup_total_alt. destruct (buf !! j) eqn:E; simpl; [|done].
  by eapply Forall_lookup_1 in E.
Qed.

Lemma load_limb_val buf i : Forall is_byte buf →
  load_limb buf i = be_val (rev (map (λ j, buf !!! (31 - 8 * i - j)%nat) (seq 0 8))).
Proof. intros H. apply or_loop; [lia|]. intros; by apply load_limb_byte. Qed.

Lemma load_limb_u64 buf i : Forall is_byte buf → is_u64 (load_limb buf i).
Proof.
  intros H. rewrite load_limb_val by done.
  match goal with |- is_u64 (be_val ?l) => assert (Forall is_byte l) as HF end.
  { apply Forall_rev, Forall_fmap, Forall_forall. intros; by apply load_limb_byte. }
  apply be_val_range in HF. by rewrite length_rev, length_map, length_seq in HF.
Qed.

Lemma load_limbs_spec buf : Forall is_byte buf → length buf = 32%nat →
  limbs_ok (load_limbs buf) ∧ val (load_limbs buf) = be_val buf.
Proof.
  intros H Hl. split; [by repeat split; apply load_limb_u64|].
  unfold load_limbs, of_limbs, val. cbn [e0 e1 e2 e3].
  rewrite !load_limb_val by done.
  do 32 (destruct buf as [|? buf]; [done|]). destruct buf; [|done]. clear.
  cbn [seq map rev app lookup_total list_lookup_total Nat.sub Nat.mul Nat.add].
  unfold be_val. cbn [foldl]. unfold W64. lia.
Qed.

Lemma store_limbs_spec e : limbs_ok e → store_limbs e = be_bytes 32 (val e).
Proof.
  intros (H0 & H1 & H2 & H3).
  assert (store_limbs e = be_bytes 8 (e3 e) ++ be_bytes 8 (e2 e) ++ be_bytes 8 (e1 e)
            ++ be_bytes 8 (e0 e)) as ->.
  { cbv [store_limbs seq foldl replicate limb insert list_insert Nat.sub Nat.mul Nat.add
         be_bytes app].
    rewrite !Z.shiftr_div_pow2 by lia. rewrite !Z.div_div by lia.
    cbn [Z.of_nat Z.mul Pos.mul Pos.of_succ_nat Pos.succ].
    rewrite !Z.pow_0_r, !Z.div_1_r. reflexivity. }
  symmetry. set (l := _ ++ _).
  assert (length l = 32%nat) by (subst l; by rewrite !length_app, !length_be_bytes).
  assert (Forall is_byte l) by (subst l; rewrite !Forall_app; auto using be_bytes_byte).
  assert (be_val l = val e) as <-; [|by apply be_bytes_val].
  subst l. rewrite !be_val_app, !length_app, !length_be_bytes, !be_val_bytes.
  unfold is_u64 in *. change (256 ^ Z.of_nat 8) with W64. rewrite !Z.mod_small by assumption.
  unfold val, W64. lia.
Qed.

Lemma SetBytes_spec b : Forall is_byte b → length b = 32%nat →
  (be_val b < Modulus ∧ ∃ e, SetBytes b = Ok e ∧ valid e ∧ toZ e = be_val b) ∨
  (Modulus <= be_val b ∧ SetBytes b = Fail ErrNonCanonical).
Proof.
  intros Hb Hl. destruct (load_limbs_spec b Hb Hl) as [Hok Hv]. unfold SetBytes.
  rewrite lessThanQ_spec, Hv by done.
  destruct (Z.ltb_spec (be_val b) Modulus) as [Hlt|Hge]; [left|right]; split; try done.
  exists (mul (load_limbs b) rSquare). split; [done|].
  assert (valid (load_limbs b)) as Hvl by (split; [done|lia]).
  assert (valid rSquare) as [Hr _] by (split; [repeat split|]; vm_compute; congruence).
  split; [by apply mul_spec|]. rewrite toZ_mul by done. rewrite rSquare_val, Hv.
  pose proof (limbs_ok_range _ Hok).
  rewrite <- (Z.mod_small (be_val b) Modulus) at 2 by lia.
  replace (be_val b * Rinv * (R * R mod Modulus * Rinv)) with
    (be_val b * (Rinv * (R * R mod Modulus * Rinv))) by ring.
  rewrite <- Zmult_mod_idemp_r.
  replace ((Rinv * (R * R mod Modulus * Rinv)) mod Modulus) with 1 by (vm_compute; reflexivity).
  f_equal. lia.
Qed.

Lemma Bytes_spec e : valid e → Bytes e = be_bytes 32 (toZ e).
Proof.
  intros He. unfold Bytes. set (one := mkElement 1 0 0 0).
  assert (limbs_ok one) as H1 by done.
  destruct (mul_spec e one He H1) as [[Hok Hlt] Hm]. rewrite store_limbs_spec by done. f_equal.
  pose proof (limbs_ok_range _ Hok).
  apply cancel_R in Hm. rewrite Z.mod_small in Hm by lia. rewrite Hm.
  replace (val one) with 1 by reflexivity. unfold toZ. f_equal. lia.
Qed.

Lemma toZ_256 e : 0 <= toZ e < 256 ^ Z.of_nat 32.
Proof.
  pose proof (toZ_range e). change (256 ^ Z.of_nat 32) with R. unfold Modulus, R in *. lia.
Qed.

Lemma Big_spec e : valid e → Big e = toZ e.
Proof.
  intros He. unfold Big. rewrite Bytes_spec by done. apply be_val_bytes_small, toZ_256.
Qed.

Lemma SetBytes_Ok b e : Forall is_byte b → length b = 32%nat → SetBytes b = Ok e →
  valid e ∧ toZ e = be_val b ∧ be_val b < Modulus.
Proof. intros Hb Hl. destruct (SetBytes_spec b Hb Hl) as [(? & ? & -> & ?)|[? ->]]; naive_solver. Qed.

Lemma SetBytes_Bytes e : valid e → SetBytes (Bytes e) = Ok e.
Proof.
  intros He. rewrite Bytes_spec by done. pose proof (toZ_range e).
  destruct (SetBytes_spec (be_bytes 32 (toZ e))) as [(_ & e' & -> & Hv & Hz)|[H1 _]].
  - apply be_bytes_byte.
  - apply length_be_bytes.
  - rewrite be_val_bytes_small in Hz by apply toZ_256. f_equal. by apply toZ_inj.
  - rewrite be_val_bytes_small in H1 by apply toZ_256. lia.
Qed.

Lemma Bytes_SetBytes b e : Forall is_byte b → length b = 32%nat → SetBytes b = Ok e → Bytes e = b.
Proof.
  intros Hb Hl H. destruct (SetBytes_Ok b e Hb Hl H) as (Hv & Hz & _).
  rewrite Bytes_spec, Hz by done. by apply be_bytes_val.
Qed.

#[global] Hint Resolve SetBytes_Bytes : fr.

(** *** Hex *)

Lemma hex_digit_char n : 0 <= n < 16 → hex_digit (hex_char n) = Some n.
Proof.
  intros H. assert (∃ k : nat, (k < 16)%nat ∧ n = Z.of_nat k) as (k & Hk & ->).
  { exists (Z.to_nat n). lia. }
  do 16 (destruct k as [|k]; [vm_compute; reflexivity|]). lia.
Qed.

Lemma hex_decode_encode bs : Forall is_byte bs → hex_decode (hex_encode bs) = Ok bs.
Proof.
  induction bs as [|b bs IH]; intros H; [done|]. apply Forall_cons in H as [Hb H].
  unfold is_byte in Hb. cbn [hex_encode hex_decode].
  rewrite !hex_digit_char by (split; [apply Z.div_pos || apply Z.mod_pos_bound; lia|];
    first [apply Z.div_lt_upper_bound; lia | apply Z.mod_pos_bound; lia]).
  rewrite IH by done. cbn. do 2 f_equal. pose proof (Z.div_mod b 16). lia.
Qed.

Lemma length_hex_encode bs : String.length (hex_encode bs) = (2 * length bs)%nat.
Proof. induction bs as [|b bs IH]; [done|]. cbn [hex_encode String.length length]. rewrite IH. lia. Qed.

(** [valid] as a test, to evaluate on concrete elements. *)
Definition validb (e : Element) : bool :=
  forallb (λ i, (0 <=? limb e i) && (limb e i <? W64)) [0; 1; 2; 3]%nat && (val e <? Modulus).

Lemma validb_valid e : validb e = true → valid e.
Proof.
  unfold validb, valid, limbs_ok, is_u64. cbn [forallb limb]. rewrite !andb_true_iff.
  rewrite !Z.leb_le, !Z.ltb_lt. tauto.
Qed.

Ltac solve_valid := apply validb_valid; vm_compute; reflexivity.

(** * Properties *)

(** C24: [fr.Mul] on reduced limb vectors stays reduced and multiplies the canonical integers
    ([Element.Big]) modulo the BN254 scalar modulus: the CIOS Montgomery loop over 64-bit limbs with
    its carries implements multiplication of F_p. *)
Theorem Mul_is_field_multiplication (x y : Element) (Hx : valid x) (Hy : valid y) :
  valid (Mul x y) ∧ Big (Mul x y) = (Big x * Big y) mod Modulus.
Proof.
  assert (valid (Mul x y)) by auto with fr.
  split; [done|]. rewrite !Big_spec by done. by apply toZ_Mul.
Qed.

Lemma Mul_witness :
  valid (SetUint64 1000003) ∧ Big (Mul (SetUint64 1000003) (SetUint64 6)) = 6000018.
Proof.
  assert (V : valid (SetUint64 1000003)) by solve_valid.
  assert (V' : valid (SetUint64 6)) by solve_valid.
  split; [exact V|].
  destruct (Mul_is_field_multiplication _ _ V V') as [_ ->]. vm_compute. reflexivity.
Defined.

(** [fr.Add] on reduced limb vectors stays reduced, never loses a carry, and adds the canonical
    integers modulo the BN254 scalar modulus. *)
Theorem Add_is_field_addition (x y : Element) (Hx : valid x) (Hy : valid y) :
  valid (Add x y) ∧ Big (Add x y) = (Big x + Big y) mod Modulus.
Proof.
  assert (valid (Add x y)) by auto with fr.
  split; [done|]. rewrite !Big_spec by done. by apply toZ_Add.
Qed.

Lemma Add_witness :
  valid (SetUint64 18446744073709551615) ∧
  Big (Add (SetUint64 18446744073709551615) (SetUint64 2)) = 18446744073709551617.
Proof.
  assert (V : valid (SetUint64 18446744073709551615)) by solve_valid.
  assert (V' : valid (SetUint64 2)) by solve_valid.
  split; [exact V|].
  destruct (Add_is_field_addition _ _ V V') as [_ ->]. vm_compute. reflexivity.
Defined.

(** [fr.SetBytes] accepts a 32-byte string exactly when its big-endian value is below the
    modulus, then returns the reduced element of that value, whose [Bytes] give the string back;
    any other string is refused with [ErrNonCanonical]. *)
Theorem SetBytes_is_canonical (b : list Z) (Hb : Forall is_byte b) (Hl : length b = 32%nat) :
  (be_val b < Modulus → ∃ e, SetBytes b = Ok e ∧ valid e ∧ Big e = be_val b ∧ Bytes e = b) ∧
  (Modulus <= be_val b → SetBytes b = Fail ErrNonCanonical).
Proof.
  destruct (SetBytes_spec b Hb Hl) as [(Hlt & e & He & Hv & Hz)|[Hge He]]; split; try lia.
  - intros _. exists e. rewrite Big_spec by done. eauto using Bytes_SetBytes.
  - done.
Qed.

Lemma SetBytes_witness :
  SetBytes (be_bytes 32 Modulus) = Fail ErrNonCanonical ∧
  ∃ e, SetBytes (be_bytes 32 (Modulus - 1)) = Ok e ∧ Big e = Modulus - 1.
Proof.
  split.
  - apply (SetBytes_is_canonical (be_bytes 32 Modulus));
      [apply be_bytes_byte|reflexivity|vm_compute; congruence].
  - destruct (proj1 (SetBytes_is_canonical (be_bytes 32 (Modulus - 1))
      ltac:(apply be_bytes_byte) eq_refl) ltac:(vm_compute; reflexivity)) as (e & H1 & _ & H2 & _).
    exists e. split; [exact H1|]. rewrite H2. vm_compute. reflexivity.
Defined.

(** An element survives its text form: [fr.SetHex] of [Element.Hex] gives the same limbs. *)
Theorem SetHex_Hex (e : Element) (He : valid e) : SetHex (Hex e) = Ok e.
Proof.
  assert (length (Bytes e) = 32%nat) as Hl by (rewrite Bytes_spec by done; apply length_be_bytes).
  unfold SetHex, Hex. rewrite length_hex_encode, Hl. cbn [Nat.mul Nat.eqb negb fail_if].
  rewrite hex_decode_encode by (rewrite Bytes_spec by done; apply be_bytes_byte).
  by apply SetBytes_Bytes.
Qed.

Lemma SetHex_witness : SetHex (Hex (SetUint64 11)) = Ok (SetUint64 11).
Proof. apply (SetHex_Hex (SetUint64 11)). solve_valid. Defined.

End fr.
