(* ===== verification/Poseidon2.v ===== *)
(** The t = 2 Poseidon2 permutation of [services/internal/poseidon2] (poseidon2.go, constants.go)
    and its refinement of the permutation over the integers modulo the field order. *)
From S2P Require Import Prelude.
From S2P Require Import Fr.

Module poseidon2.

Local Open Scope string_scope.

Definition fullRoundConstants : list (string * string) := [
  ("09c46e9ec68e9bd4fe1faaba294cba38a71aa177534cdd1b6c7dc0dbd0abd7a7",
   "0c0356530896eec42a97ed937f3135cfc5142b3ae405b8343c1d83ffa604cb81");
  ("1e28a1d935698ad1142e51182bb54cf4a00ea5aabd6268bd317ea977cc154a30",
   "27af2d831a9d2748080965db30e298e40e5757c3e008db964cf9e2b12b91251f");
  ("1e6f11ce60fc8f513a6a3cfe16ae175a41291462f214cd0879aaf43545b74e03",
   "2a67384d3bbd5e438541819cb681f0be04462ed14c3613d8f719206268d142d3");
  ("0b66fdf356093a611609f8e12fbfecf0b985e381f025188936408f5d5c9f45d0",
   "012ee3ec1e78d470830c61093c2ade370b26c83cc5cebeeddaa6852dbdb09e21");
  ("19b9b63d2f108e17e63817863a8f6c288d7ad29916d98cb1072e4e7b7d52b376",
   "015bee1357e3c015b5bda237668522f613d1c88726b5ec4224a20128481b4f7f");
  ("2953736e94bb6b9f1b9707a4f1615e4efe1e1ce4bab218cbea92c785b128ffd1",
   "0b069353ba091618862f806180c0385f851b98d372b45f544ce7266ed6608dfc");
  ("304f74d461ccc13115e4e0bcfb93817e55aeb7eb9306b64e4f588ac97d81f429",
   "15bbf146ce9bca09e8a33f5e77dfe4f5aad2a164a4617a4cb8ee5415cde913fc");
  ("0ab4dfe0c2742cde44901031487964ed9b8f4b850405c10ca9ff23859572c8c6",
   "0e32db320a044e3197f45f7649a19675ef5eedfea546dea9251de39f9639779a")].

Definition partialRoundConstants : list string := [
  "0252ba5f6760bfbdfd88f67f8175e3fd6cd1c431b099b6bb2d108e7b445bb1b9";
  "179474cceca5ff676c6bec3cef54296354391a8935ff71d6ef5aeaad7ca932f1";
  "2c24261379a51bfa9228ff4a503fd4ed9c1f974a264969b37e1a2589bbed2b91";
  "1cc1d7b62692e63eac2f288bd0695b43c2f63f5001fc0fc553e66c0551801b05";
  "255059301aada98bb2ed55f852979e9600784dbf17fbacd05d9eff5fd9c91b56";
  "28437be3ac1cb2e479e1f5c0eccd32b3aea24234970a8193b11c29ce7e59efd9";
  "28216a442f2e1f711ca4fa6b53766eb118548da8fb4f78d4338762c37f5f2043";
  "2c1f47cd17fa5adf1f39f4e7056dd03feee1efce03094581131f2377323482c9";
  "07abad02b7a5ebc48632bcc9356ceb7dd9dafca276638a63646b8566a621afc9";
  "0230264601ffdf29275b33ffaab51dfe9429f90880a69cd137da0c4d15f96c3c";
  "1bc973054e51d905a0f168656497ca40a864414557ee289e717e5d66899aa0a9";
  "2e1c22f964435008206c3157e86341edd249aff5c2d8421f2a6b22288f0a67fc";
  "1224f38df67c5378121c1d5f461bbc509e8ea1598e46c9f7a70452bc2bba86b8";
  "02e4e69d8ba59e519280b4bd9ed0068fd7bfe8cd9dfeda1969d2989186cde20e";
  "1f1eccc34aaba0137f5df81fc04ff3ee4f19ee364e653f076d47e9735d98018e";
  "1672ad3d709a353974266c3039a9a7311424448032cd1819eacb8a4d4284f582";
  "283e3fdc2c6e420c56f44af5192b4ae9cda6961f284d24991d2ed602df8c8fc7";
  "1c2a3d120c550ecfd0db0957170fa013683751f8fdff59d6614fbd69ff394bcc";
  "216f84877aac6172f7897a7323456efe143a9a43773ea6f296cb6b8177653fbd";
  "2c0d272becf2a75764ba7e8e3e28d12bceaa47ea61ca59a411a1f51552f94788";
  "16e34299865c0e28484ee7a74c454e9f170a5480abe0508fcb4a6c3d89546f43";
  "175ceba599e96f5b375a232a6fb9cc71772047765802290f48cd939755488fc5";
  "0c7594440dc48c16fead9e1758b028066aa410bfbc354f54d8c5ffbb44a1ee32";
  "1a3c29bc39f21bb5c466db7d7eb6fd8f760e20013ccf912c92479882d919fd8d";
  "0ccfdd906f3426e5c0986ea049b253400855d349074f5a6695c8eeabcd22e68f";
  "14f6bc81d9f186f62bdb475ce6c9411866a7a8a3fd065b3ce0e699b67dd9e796";
  "0962b82789fb3d129702ca70b2f6c5aacc099810c9c495c888edeb7386b97052";
  "1a880af7074d18b3bf20c79de25127bc13284ab01ef02575afef0c8f6a31a86d";
  "10cba18419a6a332cd5e77f0211c154b20af2924fc20ff3f4c3012bb7ae9311b";
  "057e62a9a8f89b3ebdc76ba63a9eaca8fa27b7319cae3406756a2849f302f10d";
  "287c971de91dc0abd44adf5384b4988cb961303bbf65cff5afa0413b44280cee";
  "21df3388af1687bbb3bca9da0cca908f1e562bc46d4aba4e6f7f7960e306891d";
  "1be5c887d25bce703e25cc974d0934cd789df8f70b498fd83eff8b560e1682b3";
  "268da36f76e568fb68117175cea2cd0dd2cb5d42fda5acea48d59c2706a0d5c1";
  "0e17ab091f6eae50c609beaf5510ececc5d8bb74135ebd05bd06460cc26a5ed6";
  "04d727e728ffa0a67aee535ab074a43091ef62d8cf83d270040f5caa1f62af40";
  "0ddbd7bf9c29341581b549762bc022ed33702ac10f1bfd862b15417d7e39ca6e";
  "2790eb3351621752768162e82989c6c234f5b0d1d3af9b588a29c49c8789654b";
  "1e457c601a63b73e4471950193d8a570395f3d9ab8b2fd0984b764206142f9e9";
  "21ae64301dca9625638d6ab2bbe7135ffa90ecd0c43ff91fc4c686fc46e091b0";
  "0379f63c8ce3468d4da293166f494928854be9e3432e09555858534eed8d350b";
  "002d56420359d0266a744a080809e054ca0e4921a46686ac8c9f58a324c35049";
  "123158e5965b5d9b1d68b3cd32e10bbeda8d62459e21f4090fc2c5af963515a6";
  "0be29fc40847a941661d14bbf6cbe0420fbb2b6f52836d4e60c80eb49cad9ec1";
  "1ac96991dec2bb0557716142015a453c36db9d859cad5f9a233802f24fdf4c1a";
  "1596443f763dbcc25f4964fc61d23b3e5e12c9fa97f18a9251ca3355bcb0627e";
  "12e0bcd3654bdfa76b2861d4ec3aeae0f1857d9f17e715aed6d049eae3ba3212";
  "0fc92b4f1bbea82b9ea73d4af9af2a50ceabac7f37154b1904e6c76c7cf964ba";
  "1f9c0b1610446442d6f2e592a8013f40b14f7c7722236f4f9c7e965233872762";
  "0ebd74244ae72675f8cde06157a782f4050d914da38b4c058d159f643dbbf4d3";
  "2cb7f0ed39e16e9f69a9fafd4ab951c03b0671e97346ee397a839839dccfc6d1";
  "1a9d6e2ecff022cc5605443ee41bab20ce761d0514ce526690c72bca7352d9bf";
  "2a115439607f335a5ea83c3bc44a9331d0c13326a9a7ba3087da182d648ec72f";
  "23f9b6529b5d040d15b8fa7aee3e3410e738b56305cd44f29535c115c5a4c060";
  "05872c16db0f72a2249ac6ba484bb9c3a3ce97c16d58b68b260eb939f0e6e8a7";
  "1300bdee08bb7824ca20fb80118075f40219b6151d55b5c52b624a7cdeddf6a7"].

Local Close Scope string_scope.

(** [mustHex] panics on a constant that does not parse; [None] is the panic. *)
Definition mustHex (s : string) : option fr.Element :=
  match fr.SetHex s with Ok e => Some e | Fail _ => None end.

(** The loops of [init]. *)
Definition init_full : option (list (fr.Element * fr.Element)) :=
  mapM (λ row, a ← mustHex row.1; b ← mustHex row.2; Some (a, b)) fullRoundConstants.
Definition init_partial : option (list fr.Element) := mapM mustHex partialRoundConstants.

Definition full : list (fr.Element * fr.Element) :=
  Eval vm_compute in default [] init_full.
Definition partial : list fr.Element := Eval vm_compute in default [] init_partial.

Definition sbox (x : fr.Element) : fr.Element :=
  let x2 := fr.Mul x x in
  let x4 := fr.Mul x2 x2 in
  fr.Mul x4 x.

(** [external] applies circ(2, 1). *)
Definition external (s0 s1 : fr.Element) : fr.Element * fr.Element :=
  let sum := fr.Add s0 s1 in (fr.Add sum s0, fr.Add sum s1).

Definition full_at (r : nat) : fr.Element * fr.Element := default (fr.zero, fr.zero) (full !! r).
Definition partial_at (r : nat) : fr.Element := default fr.zero (partial !! r).

Definition full_round (s : fr.Element * fr.Element) (r : nat) : fr.Element * fr.Element :=
  external (sbox (fr.Add s.1 (full_at r).1)) (sbox (fr.Add s.2 (full_at r).2)).

Definition partial_round (s : fr.Element * fr.Element) (r : nat) : fr.Element * fr.Element :=
  let x0 := sbox (fr.Add s.1 (partial_at r)) in
  let sum := fr.Add x0 s.2 in
  (fr.Add sum x0, fr.Add sum (fr.Add s.2 s.2)).

Definition Permute (s0 s1 : fr.Element) : fr.Element * fr.Element :=
  let s := external s0 s1 in
  let s := foldl full_round s (seq 0 4) in
  let s := foldl partial_round s (seq 0 56) in
  foldl full_round s (seq 4 4).

(** [Compress] is the Merkle node hash (P(l, r) + (l, r))[0]. *)
Definition Compress (l r : fr.Element) : fr.Element := fr.Add (Permute l r).1 l.

(** ** The permutation over the integers modulo p *)

Definition constant (s : string) : Z :=
  match fr.hex_decode s with Ok b => be_val b | Fail _ => 0 end.
Definition spec_full : list (Z * Z) :=
  Eval vm_compute in map (λ row, (constant row.1, constant row.2)) fullRoundConstants.
Definition spec_partial : list Z := Eval vm_compute in map constant partialRoundConstants.

Definition modp (z : Z) : Z := z mod fr.Modulus.

(** The linear layer of a 2 by 2 matrix. *)
Definition spec_matrix (a b c d : Z) (s : Z * Z) : Z * Z :=
  (modp (a * s.1 + b * s.2), modp (c * s.1 + d * s.2)).
Definition spec_external : Z * Z → Z * Z := spec_matrix 2 1 1 2.
Definition spec_internal : Z * Z → Z * Z := spec_matrix 2 1 1 3.

Definition spec_full_round (s : Z * Z) (k : Z * Z) : Z * Z :=
  spec_external (modp ((s.1 + k.1) ^ 5), modp ((s.2 + k.2) ^ 5)).
Definition spec_partial_round (s : Z * Z) (k : Z) : Z * Z :=
  spec_internal (modp ((s.1 + k) ^ 5), s.2).

(** Four full rounds, the partial rounds, four full rounds, after an initial linear layer. *)
Definition spec_permute (s : Z * Z) : Z * Z :=
  foldl spec_full_round
    (foldl spec_partial_round
       (foldl spec_full_round (spec_external s) (take 4 spec_full)) spec_partial)
    (drop 4 spec_full).

Definition spec_compress (l r : Z) : Z := modp ((spec_permute (l, r)).1 + l).

(** * Lemmas *)

Lemma init_full_parses : init_full = Some full.
Proof. vm_compute. reflexivity. Qed.

Lemma init_partial_parses : init_partial = Some partial.
Proof. vm_compute. reflexivity. Qed.

(** A pair of reduced elements standing for a pair of integers. *)
Definition stands (s : fr.Element * fr.Element) (z : Z * Z) : Prop :=
  fr.valid s.1 ∧ fr.valid s.2 ∧ (fr.toZ s.1, fr.toZ s.2) = z.

Lemma full_constants : Forall2 stands full spec_full.
Proof.
  repeat (apply Forall2_cons; split; [split; [fr.solve_valid|split; [fr.solve_valid|]];
    vm_compute; reflexivity|]). apply Forall2_nil. done.
Qed.

Lemma partial_constants : Forall2 (λ e k, fr.valid e ∧ fr.toZ e = k) partial spec_partial.
Proof.
  repeat (apply Forall2_cons; split; [split; [fr.solve_valid|vm_compute; reflexivity]|]).
  apply Forall2_nil. done.
Qed.

Lemma sbox_spec x : fr.valid x → fr.valid (sbox x) ∧ fr.eqp (fr.toZ (sbox x)) (fr.toZ x ^ 5).
Proof.
  intros H. unfold sbox. cbv zeta. split; [auto with fr|].
  rewrite !fr.eqp_Mul by auto with fr. by replace (fr.toZ x ^ 5) with
    (fr.toZ x * fr.toZ x * (fr.toZ x * fr.toZ x) * fr.toZ x) by ring.
Qed.

Lemma modp_eqp z : fr.eqp (modp z) z.
Proof. apply fr.eqp_mod. Qed.

Lemma pow5_eqp a b : fr.eqp a b → fr.eqp (a ^ 5) (b ^ 5).
Proof.
  intros H. replace (a ^ 5) with (a * a * a * a * a) by ring.
  replace (b ^ 5) with (b * b * b * b * b) by ring. by rewrite H.
Qed.

Lemma external_stands x y u v : fr.valid x → fr.valid y → fr.eqp (fr.toZ x) u →
  fr.eqp (fr.toZ y) v → stands (external x y) (spec_external (u, v)).
Proof.
  intros Hx Hy Hu Hv. unfold external, spec_external, spec_matrix. cbv zeta. cbn [fst snd].
  unfold stands; cbn [fst snd]. split; [auto with fr|]. split; [auto with fr|].
  f_equal; apply fr.toZ_eq_mod; rewrite !fr.eqp_Add, Hu, Hv by auto with fr;
    apply fr.eqp_refl_eq; ring.
Qed.

Lemma full_round_stands s z r k : stands s z → stands (full_at r) k →
  stands (full_round s r) (spec_full_round z k).
Proof.
  destruct z as [u v], k as [a b]. intros (H1 & H2 & [= <- <-]) (K1 & K2 & [= <- <-]).
  unfold full_round, spec_full_round. cbn [fst snd].
  destruct (sbox_spec (fr.Add s.1 (full_at r).1)) as [V1 E1]; [auto with fr|].
  destruct (sbox_spec (fr.Add s.2 (full_at r).2)) as [V2 E2]; [auto with fr|].
  apply external_stands; [done..| |].
  - rewrite E1, modp_eqp. by apply pow5_eqp, fr.eqp_Add.
  - rewrite E2, modp_eqp. by apply pow5_eqp, fr.eqp_Add.
Qed.

Lemma partial_round_stands s z r k : stands s z → fr.valid (partial_at r) →
  fr.toZ (partial_at r) = k → stands (partial_round s r) (spec_partial_round z k).
Proof.
  destruct z as [u v]. intros (H1 & H2 & [= <- <-]) K1 <-.
  unfold partial_round, spec_partial_round, spec_internal, spec_matrix. cbv zeta. cbn [fst snd].
  destruct (sbox_spec (fr.Add s.1 (partial_at r))) as [V1 E1]; [auto with fr|].
  unfold stands; cbn [fst snd]. split; [auto with fr|]. split; [auto with fr|].
  rewrite (pow5_eqp _ _ (fr.eqp_Add s.1 (partial_at r) H1 K1)) in E1.
  f_equal; apply fr.toZ_eq_mod; rewrite !fr.eqp_Add, E1, modp_eqp by auto with fr;
    apply fr.eqp_refl_eq; ring.
Qed.

(** A loop over round indices refines the fold over the constants those indices name. *)
Lemma rounds_refine {K} (f : fr.Element * fr.Element → nat → fr.Element * fr.Element)
    (g : Z * Z → K → Z * Z) (ks : list K) (start : nat) s z :
  (∀ s z i k, ks !! i = Some k → stands s z → stands (f s (start + i)%nat) (g z k)) →
  stands s z → stands (foldl f s (seq start (length ks))) (foldl g z ks).
Proof.
  revert start s z. induction ks as [|k ks IH]; intros start s z H Hs; [done|].
  cbn [length seq foldl]. apply IH.
  - intros s' z' i k' Hi Hs'. specialize (H s' z' (S i) k' Hi Hs').
    by replace (S start + i)%nat with (start + S i)%nat by lia.
  - specialize (H s z 0%nat k eq_refl Hs). by rewrite Nat.add_0_r in H.
Qed.

Lemma full_at_stands r k : spec_full !! r = Some k → stands (full_at r) k.
Proof.
  intros H. destruct (Forall2_lookup_r _ _ _ _ _ full_constants H) as (c & Hc & Hs).
  unfold full_at. by rewrite Hc.
Qed.

Lemma partial_at_stands r k : spec_partial !! r = Some k →
  fr.valid (partial_at r) ∧ fr.toZ (partial_at r) = k.
Proof.
  intros H. destruct (Forall2_lookup_r _ _ _ _ _ partial_constants H) as (c & Hc & Hs).
  unfold partial_at. by rewrite Hc.
Qed.

Lemma Permute_stands x y : fr.valid x → fr.valid y →
  stands (Permute x y) (spec_permute (fr.toZ x, fr.toZ y)).
Proof.
  intros Hx Hy. unfold Permute, spec_permute.
  apply (rounds_refine full_round spec_full_round (drop 4 spec_full) 4).
  { intros s z i k Hi Hs. apply full_round_stands; [done|]. apply full_at_stands.
    by rewrite <- lookup_drop. }
  apply (rounds_refine partial_round spec_partial_round spec_partial 0).
  { intros s z i k Hi Hs. destruct (partial_at_stands _ _ Hi). by apply partial_round_stands. }
  apply (rounds_refine full_round spec_full_round (take 4 spec_full) 0).
  { intros s z i k Hi Hs. apply full_round_stands; [done|]. apply full_at_stands.
    apply lookup_take_Some in Hi. apply Hi. }
  by apply external_stands.
Qed.

Lemma Compress_stands l r : fr.valid l → fr.valid r →
  fr.valid (Compress l r) ∧ fr.toZ (Compress l r) = spec_compress (fr.toZ l) (fr.toZ r).
Proof.
  intros Hl Hr. destruct (Permute_stands l r Hl Hr) as (V1 & V2 & E).
  unfold Compress, spec_compress.
  generalize dependent (Permute l r). intros s V1 V2 E. split; [by apply fr.valid_Add|].
  rewrite <- E. cbn [fst]. apply fr.toZ_eq_mod. apply fr.eqp_Add; assumption.
Qed.

Lemma Compress_valid l r : fr.valid l → fr.valid r → fr.valid (Compress l r).
Proof. intros. by apply Compress_stands. Qed.

#[global] Hint Resolve Compress_valid : fr.

#[global] Opaque Permute Compress.

(** * Properties *)

(** C26: [poseidon2.Compress], with its 8 full and 56 partial rounds run on Montgomery limbs, computes
    the Poseidon2 compression over the integers modulo p: additions of the round constants, the
    fifth power, the matrices circ(2, 1) and [[2, 1], [1, 3]], and the feed-forward of the left
    input; and its result is reduced. *)
Theorem Compress_refines_poseidon2 (l r : fr.Element) (Hl : fr.valid l) (Hr : fr.valid r) :
  fr.valid (Compress l r) ∧ fr.Big (Compress l r) = spec_compress (fr.Big l) (fr.Big r).
Proof.
  destruct (Compress_stands l r Hl Hr) as [V E]. split; [done|]. by rewrite !fr.Big_spec by done.
Qed.

(** The known answer that poseidon2_test.go and the contract's crate pin, computed by the
    specification and so returned by the code. *)
Lemma Compress_witness :
  fr.valid (fr.SetUint64 7) ∧
  fr.Big (Compress (fr.SetUint64 7) (fr.SetUint64 11)) =
  0x0960972bcfa9d858be6a1cca2c850d2eb0e5df1ad309192beeb95f8be328945f.
Proof.
  assert (V7 : fr.valid (fr.SetUint64 7)) by fr.solve_valid.
  assert (V11 : fr.valid (fr.SetUint64 11)) by fr.solve_valid.
  split; [exact V7|].
  destruct (Compress_refines_poseidon2 _ _ V7 V11) as [_ ->]. vm_compute. reflexivity.
Defined.

(** The [init] of the package never panics: all 72 round constants of constants.go are 64 hex
    digits of canonical field elements, and the tables hold reduced elements. *)
Theorem init_never_panics :
  init_full = Some full ∧ init_partial = Some partial ∧
  length full = 8%nat ∧ length partial = 56%nat ∧
  Forall (λ row, fr.valid row.1 ∧ fr.valid row.2) full ∧ Forall fr.valid partial.
Proof.
  split; [exact init_full_parses|]. split; [exact init_partial_parses|].
  split; [reflexivity|]. split; [reflexivity|]. split.
  - eapply Forall2_Forall_l; [apply full_constants|]. apply Forall_forall.
    intros z _ s (? & ? & _). done.
  - eapply Forall2_Forall_l; [apply partial_constants|]. apply Forall_forall.
    intros z _ s (? & _). done.
Qed.

End poseidon2.
