(* ===== verification/Tree.v ===== *)
(** The incremental Merkle tree of [services/internal/tree/tree.go], its marshalled form, and its
    equivalence with the tree recomputed from the leaves. *)
From S2P Require Import Prelude.
From S2P Require Import Fr.
From S2P Require Import Poseidon2.

Create HintDb tree discriminated.

Module tree.

(** What the tree asks of the node hash, the [poseidon2.Compress] it calls: a function on elements,
    and, for the marshalled form, that it maps reduced elements to reduced elements. *)
Class NodeHash : Type := node_hash : fr.Element → fr.Element → fr.Element.

Class ValidHash (H : NodeHash) : Prop :=
  node_hash_valid : ∀ l r, fr.valid l → fr.valid r → fr.valid (node_hash l r).

#[global] Instance poseidon2_hash : NodeHash := poseidon2.Compress.

#[global] Instance poseidon2_valid : ValidHash poseidon2_hash.
Proof. exact poseidon2.Compress_valid. Qed.

#[global] Instance Element_inhabited : Inhabited fr.Element := populate fr.zero.

Definition Depth : nat := 32.
Definition Capacity : Z := Z.shiftl 1 (Z.of_nat Depth).
Definition StateSize : nat := 8 + 32 + (Depth - 1) * 32.

Definition ErrFull : gerr := Sentinel "tree: full".
Definition ErrBadState : gerr := Sentinel "tree: bad state".

Section tree.
Context {NH : NodeHash}.

(** [zeros[i] = Compress(zeros[i-1], zeros[i-1])], from the zero element. *)
Fixpoint zeros (i : nat) : fr.Element :=
  match i with
  | O => fr.zero
  | S j => let z := zeros j in node_hash z z
  end.

Definition Zero (height : nat) : fr.Element := zeros height.

(** [Tree] is the frontier of an append-only tree: [frontier[level]] is the latest left child at
    that level. *)
Record Tree : Type := mkTree { next : Z; root : fr.Element; frontier : list fr.Element }.

(** The zero value of the Go struct is the empty tree. *)
Definition empty : Tree := mkTree 0 fr.zero (replicate Depth fr.zero).

Definition Len (t : Tree) : Z := next t.

Definition Root (t : Tree) : fr.Element := if next t =? 0 then zeros Depth else root t.

(** The loop body of [AppendPair] at one level, on the frontier, the node and its position. *)
Definition append_level (st : list fr.Element * fr.Element * Z) (level : nat)
    : list fr.Element * fr.Element * Z :=
  let '(frontier, node, position) := st in
  let '(frontier, node) :=
    if Z.land position 1 =? 0
    then (<[level := node]> frontier, node_hash node (zeros level))
    else (frontier, node_hash (frontier !!! level) node) in
  (frontier, node, Z.shiftr position 1).

(** [AppendPair] inserts left and right at the next two leaf indices and returns the index of
    left. *)
Definition AppendPair (left right : fr.Element) : ST Tree Z := λ t,
  let index := next t in
  if Capacity <? u64 (index + 2) then (t, Fail ErrFull)
  else
    let node := node_hash left right in
    let position := Z.shiftr index 1 in
    let '(frontier, node, _) :=
      foldl append_level (frontier t, node, position) (seq 1 (Depth - 1)) in
    (mkTree (u64 (index + 2)) node frontier, Ok index).

(** [MarshalBinary] encodes the leaf count, the root and levels 1 to Depth-1 of the frontier. *)
Definition MarshalBinary (t : Tree) : list Z :=
  be_bytes 8 (next t) ++ fr.Bytes (Root t) ++ concat (map fr.Bytes (drop 1 (frontier t))).

(** [data[lo:hi]] *)
Definition slice (data : list Z) (lo hi : nat) : list Z := take (hi - lo) (drop lo data).

(** [UnmarshalBinary] builds the restored tree before it replaces the receiver. *)
Definition UnmarshalBinary (data : list Z) : res Tree :=
  _ ← fail_if (negb (length data =? StateSize)%nat) ErrBadState;
  let next := be_val (take 8 data) in
  _ ← fail_if (negb (next mod 2 =? 0) || (Capacity <? next)) ErrBadState;
  nodes ← mapM (λ i, or_fail (fr.SetBytes (slice data (8 + 32 * i) (8 + 32 * (i + 1))))
                       (λ _, ErrBadState)) (seq 0 Depth);
  let restored := mkTree next (nodes !!! 0%nat) (fr.zero :: drop 1 nodes) in
  _ ← fail_if ((next =? 0) && bool_decide (root restored ≠ zeros Depth)) ErrBadState;
  mret restored.

(** ** The tree recomputed from its leaves

    [node h i leaves] is the node of height [h] and index [i] over the leaf sequence padded with
    zero leaves, [referenceRoot] of tree_test.go read top down. *)

Fixpoint node (h : nat) (i : Z) (leaves : list fr.Element) : fr.Element :=
  match h with
  | O => default fr.zero (leaves !! Z.to_nat i)
  | S h => node_hash (node h (2 * i) leaves) (node h (2 * i + 1) leaves)
  end.

Definition reference_root (leaves : list fr.Element) : fr.Element := node Depth 0 leaves.

(** [t] holds the sequence [leaves]: the count and the root are theirs, and every left child that
    waits for its right sibling is in the frontier. *)
Definition represents (t : Tree) (leaves : list fr.Element) : Prop :=
  next t = Z.of_nat (length leaves) ∧ next t mod 2 = 0 ∧ next t <= Capacity ∧
  length (frontier t) = Depth ∧ Root t = reference_root leaves ∧
  ∀ l, (1 <= l < Depth)%nat → Z.odd (next t / 2 ^ Z.of_nat l) = true →
    frontier t !!! l = node l (next t / 2 ^ Z.of_nat l - 1) leaves.

(** Every node the tree holds is a reduced field element. *)
Definition nodes_valid (t : Tree) : Prop := fr.valid (root t) ∧ Forall fr.valid (frontier t).

(** * Lemmas *)

(** A subtree beyond the last leaf is the empty subtree of its height. *)
Lemma node_empty h i leaves : 0 <= i → Z.of_nat (length leaves) <= i * 2 ^ Z.of_nat h →
  node h i leaves = zeros h.
Proof.
  revert i. induction h as [|h IH]; intros i Hi H; cbn [node zeros].
  - rewrite lookup_ge_None_2; [done|]. change (2 ^ Z.of_nat 0) with 1 in H. lia.
  - rewrite Nat2Z.inj_succ, Z.pow_succ_r in H by lia.
    by rewrite !IH by lia.
Qed.

(** A complete subtree is unchanged by the leaves that come after it. *)
Lemma node_app h i leaves more : 0 <= i → (i + 1) * 2 ^ Z.of_nat h <= Z.of_nat (length leaves) →
  node h i (leaves ++ more) = node h i leaves.
Proof.
  revert i. induction h as [|h IH]; intros i Hi H; cbn [node].
  - rewrite lookup_app_l; [done|]. change (2 ^ Z.of_nat 0) with 1 in H. lia.
  - rewrite Nat2Z.inj_succ, Z.pow_succ_r in H by lia.
    assert (0 < 2 ^ Z.of_nat h) by (apply Z.pow_pos_nonneg; lia).
    by rewrite !IH by nia.
Qed.

Lemma represents_empty : represents empty [].
Proof.
  split; [done|]. split; [done|]. split; [done|]. split; [done|].
  split.
  - cbn [Root empty next]. symmetry. apply node_empty; simpl; lia.
  - intros l Hl Hodd. cbn [empty next] in Hodd. by rewrite Z.div_0_l in Hodd by lia.
Qed.

(** *** The loop of [AppendPair] *)

(** At [level], over [n] leaves extended to [leaves]: [node] is the node on the path of the new
    pair, and the frontier keeps, at the levels already passed, what the new count needs, and at
    the levels above, what the old count left. *)
Definition loop_inv (n : Z) (old leaves : list fr.Element) (level : nat)
    (st : list fr.Element * fr.Element * Z) : Prop :=
  let '(frontier, nd, position) := st in
  length frontier = Depth ∧ position = n / 2 ^ Z.of_nat level ∧ nd = node level position leaves ∧
  (∀ l, (1 <= l < level)%nat → Z.odd ((n + 2) / 2 ^ Z.of_nat l) = true →
     frontier !!! l = node l ((n + 2) / 2 ^ Z.of_nat l - 1) leaves) ∧
  (∀ l, (level <= l < Depth)%nat → Z.odd (n / 2 ^ Z.of_nat l) = true →
     frontier !!! l = node l (n / 2 ^ Z.of_nat l - 1) old).

Lemma div_pow_succ n l : 0 <= n → n / 2 ^ Z.of_nat (S l) = n / 2 ^ Z.of_nat l / 2.
Proof.
  intros H. rewrite Nat2Z.inj_succ, Z.pow_succ_r by lia. rewrite Z.mul_comm.
  rewrite Z.div_div; [done|lia|lia].
Qed.

(** Adding a pair to an even count moves a level's index by at most one, and only past a boundary. *)
Lemma div_pair n l : 0 <= n → n mod 2 = 0 → (1 <= l)%nat →
  let p := n / 2 ^ Z.of_nat l in
  0 <= p ∧ p * 2 ^ Z.of_nat l <= n ∧ n + 2 <= (p + 1) * 2 ^ Z.of_nat l ∧
  ((n + 2) / 2 ^ Z.of_nat l = p ∨ (n + 2) / 2 ^ Z.of_nat l = p + 1).
Proof.
  intros Hn He Hl p. destruct l as [|l]; [lia|].
  assert (0 < 2 ^ Z.of_nat l) as Hpos by (apply Z.pow_pos_nonneg; lia).
  assert (2 ^ Z.of_nat (S l) = 2 * 2 ^ Z.of_nat l) as Ep
    by (rewrite Nat2Z.inj_succ, Z.pow_succ_r by lia; lia).
  subst p. rewrite Ep. set (w := 2 ^ Z.of_nat l) in *. clearbody w.
  assert (n = 2 * (n / 2)) as En by (pose proof (Z.div_mod n 2); lia).
  pose proof (Z.div_mod n (2 * w) ltac:(lia)) as D.
  pose proof (Z.mod_pos_bound n (2 * w) ltac:(lia)) as B.
  set (p := n / (2 * w)) in *. clearbody p.
  assert (0 <= p) by nia.
  assert (n + 2 <= (p + 1) * (2 * w)) by nia.
  split; [done|]. split; [nia|]. split; [done|].
  destruct (decide (n + 2 = (p + 1) * (2 * w))) as [->|Hne].
  - right. apply Z.div_mul. lia.
  - left. symmetry. apply Z.div_unique with (n + 2 - 2 * w * p); nia.
Qed.

Lemma shiftr_1 p : Z.shiftr p 1 = p / 2.
Proof. by rewrite Z.shiftr_div_pow2 by lia. Qed.

Lemma land_1_odd p : Z.land p 1 = if Z.odd p then 1 else 0.
Proof. change (Z.land p (Z.ones 1) = if Z.odd p then 1 else 0). rewrite Z.land_ones by lia. apply Zmod_odd. Qed.

Lemma odd_false_half p : Z.odd p = false → p = 2 * (p / 2).
Proof. intros H. pose proof (Zmod_odd p) as E. rewrite H in E. pose proof (Z.div_mod p 2). lia. Qed.

Lemma odd_true_half p : Z.odd p = true → p = 2 * (p / 2) + 1.
Proof. intros H. pose proof (Zmod_odd p) as E. rewrite H in E. pose proof (Z.div_mod p 2). lia. Qed.

Lemma append_level_inv n old a b level st :
  Z.of_nat (length old) = n → n mod 2 = 0 → (1 <= level < Depth)%nat →
  loop_inv n old (old ++ [a; b]) level st →
  loop_inv n old (old ++ [a; b]) (S level) (append_level st level).
Proof.
  intros Hlen Heven Hl. destruct st as [[frontier nd] position].
  intros (Hf & -> & -> & Hlow & Hhigh).
  assert (0 <= n) as Hn by lia.
  assert (Z.of_nat (length (old ++ [a; b])) = n + 2) as Hlen2
    by (rewrite length_app; simpl; lia).
  destruct (div_pair n level Hn Heven ltac:(lia)) as (Hp & Hple & Hpge & Hp2).
  unfold append_level. rewrite land_1_odd.
  specialize (Hhigh level ltac:(lia)) as Hhere.
  unfold loop_inv. rewrite div_pow_succ by done.
  set (p := n / 2 ^ Z.of_nat level) in *.
  rewrite (shiftr_1 p).
  destruct (Z.odd p) eqn:Hodd; cbn [Z.eqb].
  - pose proof (odd_true_half p Hodd) as Hhalf. split; [done|]. split; [done|]. split; [|split].
    + cbn [node]. rewrite Hhere by done. rewrite <- Hhalf.
      replace (2 * (p / 2)) with (p - 1) by lia. f_equal. symmetry. apply node_app; lia.
    + intros l Hl'. destruct (decide (l = level)) as [->|Hne]; [|apply Hlow; lia].
      intros Ho. destruct Hp2 as [Hp2|Hp2]; rewrite Hp2 in Ho |- *.
      * rewrite Hhere by done. symmetry. apply node_app; lia.
      * rewrite Z.odd_add, Hodd in Ho. done.
    + intros l Hl'. apply Hhigh. lia.
  - pose proof (odd_false_half p Hodd) as Hhalf. split; [by rewrite length_insert|].
    split; [done|]. split; [|split].
    + cbn [node]. rewrite <- Hhalf. f_equal. symmetry. apply node_empty; lia.
    + intros l Hl'. destruct (decide (l = level)) as [->|Hne].
      * intros Ho. destruct Hp2 as [Hp2|Hp2]; rewrite Hp2 in Ho |- *; [congruence|].
        rewrite list_lookup_total_insert_eq by lia. f_equal. lia.
      * rewrite list_lookup_total_insert_ne by done. apply Hlow. lia.
    + intros l Hl'. rewrite list_lookup_total_insert_ne by lia. apply Hhigh. lia.
Qed.

Lemma append_loop_inv n old a b k level st :
  Z.of_nat (length old) = n → n mod 2 = 0 → (1 <= level)%nat → (level + k <= Depth)%nat →
  loop_inv n old (old ++ [a; b]) level st →
  loop_inv n old (old ++ [a; b]) (level + k) (foldl append_level st (seq level k)).
Proof.
  intros Hlen He. revert level st. induction k as [|k IH]; intros level st H1 H2 H; cbn [seq foldl].
  - by rewrite Nat.add_0_r.
  - rewrite Nat.add_succ_r. apply (IH (S level)); [lia|lia|]. apply append_level_inv; [done..|lia|done].
Qed.

Lemma loop_inv_start n old a b frontier :
  Z.of_nat (length old) = n → n mod 2 = 0 → length frontier = Depth →
  (∀ l, (1 <= l < Depth)%nat → Z.odd (n / 2 ^ Z.of_nat l) = true →
    frontier !!! l = node l (n / 2 ^ Z.of_nat l - 1) old) →
  loop_inv n old (old ++ [a; b]) 1 (frontier, node_hash a b, Z.shiftr n 1).
Proof.
  intros Hlen He Hf H. split; [done|]. split; [apply shiftr_1|]. split; [|split; [lia|done]].
  rewrite (shiftr_1 n). cbn [node].
  assert (2 * (n / 2) = n) as -> by (pose proof (Z.div_mod n 2); lia).
  rewrite lookup_app_r by lia. rewrite lookup_app_r by lia.
  replace (Z.to_nat n - length old)%nat with 0%nat by lia.
  by replace (Z.to_nat (n + 1) - length old)%nat with 1%nat by lia.
Qed.

Lemma Capacity_eq : Capacity = 2 ^ 32.
Proof. reflexivity. Qed.

Lemma AppendPair_represents t leaves a b : represents t leaves → next t + 2 <= Capacity →
  ∃ t', AppendPair a b t = (t', Ok (next t)) ∧ represents t' (leaves ++ [a; b]).
Proof.
  intros (Hn & He & _ & Hf & _ & Hfr) Hcap.
  assert (u64 (next t + 2) = next t + 2) as Hu
    by (apply u64_small; rewrite Capacity_eq in Hcap; unfold is_u64, W64; lia).
  unfold AppendPair. rewrite Hu. destruct (Z.ltb_spec Capacity (next t + 2)); [lia|].
  pose proof (loop_inv_start (next t) leaves a b (frontier t) ltac:(done) He Hf Hfr) as Hstart.
  apply (append_loop_inv (next t) leaves a b (Depth - 1)) in Hstart; [|done..|unfold Depth; lia].
  destruct (foldl append_level _ _) as [[fr' nd] pos].
  destruct Hstart as (Hl' & Hpos & Hnd & Hlow & _).
  eexists; split; [reflexivity|]. unfold represents, Root. cbn [next root frontier].
  rewrite length_app. cbn [length].
  split; [lia|]. split; [by rewrite Z.add_mod, He by lia|]. split; [lia|]. split; [done|]. split.
  - destruct (Z.eqb_spec (next t + 2) 0); [lia|]. rewrite Hnd. unfold reference_root.
    replace (1 + (Depth - 1))%nat with Depth in * by (unfold Depth; lia). f_equal.
    rewrite Hpos. apply Z.div_small. rewrite Capacity_eq in Hcap.
    change (2 ^ Z.of_nat Depth) with (2 ^ 32). lia.
  - intros l Hl. apply Hlow. unfold Depth in *; lia.
Qed.

Lemma AppendPair_full t leaves a b : represents t leaves → Capacity < next t + 2 →
  AppendPair a b t = (t, Fail ErrFull).
Proof.
  intros (Hn & _ & Hc & _) H. unfold AppendPair. rewrite u64_small.
  - destruct (Z.ltb_spec Capacity (next t + 2)); [done|lia].
  - rewrite Capacity_eq in Hc. unfold is_u64, W64. lia.
Qed.

(** *** Indistinguishable trees

    Level 0 of the frontier is never read, and the root field of an empty tree neither; two trees
    equal in everything else behave alike. *)

Definition tree_equiv (t1 t2 : Tree) : Prop :=
  next t1 = next t2 ∧ Root t1 = Root t2 ∧ drop 1 (frontier t1) = drop 1 (frontier t2).

#[global] Instance tree_equivalence : Equivalence tree_equiv.
Proof.
  split; unfold tree_equiv.
  - done.
  - by intros t1 t2 (-> & -> & ->).
  - by intros t1 t2 t3 (-> & -> & ->) (-> & -> & ->).
Qed.

#[global] Instance Len_proper : Proper (tree_equiv ==> eq) Len.
Proof. by intros t1 t2 (? & _). Qed.

#[global] Instance Root_proper : Proper (tree_equiv ==> eq) Root.
Proof. by intros t1 t2 (_ & ? & _). Qed.

#[global] Instance MarshalBinary_proper : Proper (tree_equiv ==> eq) MarshalBinary.
Proof. intros t1 t2 (H1 & H2 & H3). unfold MarshalBinary. by rewrite H1, H2, H3. Qed.

Definition level_equiv (s1 s2 : list fr.Element * fr.Element * Z) : Prop :=
  drop 1 s1.1.1 = drop 1 s2.1.1 ∧ s1.1.2 = s2.1.2 ∧ s1.2 = s2.2.

Lemma append_level_equiv s1 s2 level : (1 <= level)%nat → level_equiv s1 s2 →
  level_equiv (append_level s1 level) (append_level s2 level).
Proof.
  destruct s1 as [[f1 nd1] pos1], s2 as [[f2 nd2] pos2], level as [|level]; [lia|].
  intros _ (Hd & Hn & Hp). cbn [fst snd] in *. subst. unfold append_level, level_equiv.
  destruct (Z.land pos2 1 =? 0); cbn [fst snd].
  - split; [|done]. destruct f1, f2; simpl in *; rewrite ?drop_0 in *; subst; done.
  - split; [done|]. split; [|done]. f_equal. rewrite !list_lookup_total_alt. f_equal.
    destruct f1, f2; simpl in *; rewrite ?drop_0 in *; subst; rewrite ?lookup_nil; done.
Qed.

Lemma append_loop_equiv s1 s2 k level : (1 <= level)%nat → level_equiv s1 s2 →
  level_equiv (foldl append_level s1 (seq level k)) (foldl append_level s2 (seq level k)).
Proof.
  revert s1 s2 level. induction k as [|k IH]; intros s1 s2 level Hl Hs; [done|].
  cbn [seq foldl]. apply IH; [lia|]. by apply append_level_equiv.
Qed.

(** Appending to indistinguishable trees gives the same answer and indistinguishable trees. *)
#[global] Instance AppendPair_proper a b :
  Proper (tree_equiv ==> (λ r1 r2, tree_equiv r1.1 r2.1 ∧ r1.2 = r2.2)) (AppendPair a b).
Proof.
  intros t1 t2 (H1 & H2 & H3). unfold AppendPair. rewrite H1.
  destruct (Capacity <? _); [by repeat split|].
  destruct (append_loop_equiv (frontier t1, node_hash a b, Z.shiftr (next t2) 1)
    (frontier t2, node_hash a b, Z.shiftr (next t2) 1) (Depth - 1) 1) as (K1 & K2 & K3); [done..|].
  destruct (foldl _ (frontier t1, _, _) _) as [[f1 n1] p1].
  destruct (foldl _ (frontier t2, _, _) _) as [[f2 n2] p2]. cbn [fst snd] in *. subst.
  split; [|reflexivity]. split; [reflexivity|]. split; [reflexivity|exact K1].
Qed.

(** *** The marshalled form *)

Lemma mapM_seq_Ok {A} (f : nat → res A) (l : list A) k :
  (∀ i x, l !! i = Some x → f (k + i)%nat = Ok x) → mapM f (seq k (length l)) = Ok l.
Proof.
  revert k. induction l as [|x l IH]; intros k H; [done|]. cbn [length seq mapM].
  assert (f k = Ok x) as -> by (specialize (H 0%nat x eq_refl); by rewrite Nat.add_0_r in H).
  cbn. rewrite IH; [done|]. intros i y Hi. specialize (H (S i) y Hi).
  by rewrite Nat.add_succ_r in H.
Qed.

Lemma mapM_seq_inv {A} (f : nat → res A) (l : list A) k n :
  mapM f (seq k n) = Ok l →
  length l = n ∧ ∀ i x, l !! i = Some x → f (k + i)%nat = Ok x.
Proof.
  revert k l. induction n as [|n IH]; intros k l; cbn [seq mapM]; [by intros [= <-]|].
  destruct (f k) as [x|] eqn:Ex; [|done]. cbn. destruct (mapM f (seq (S k) n)) as [xs|] eqn:Exs; [|done].
  cbn. intros [= <-]. destruct (IH _ _ Exs) as [Hl Hi]. split; [simpl; lia|].
  intros [|i] y; cbn; [intros [= <-]; by rewrite Nat.add_0_r|].
  intros Hy. rewrite Nat.add_succ_r. by apply Hi.
Qed.

Lemma slice_chunk {A} (f : A → list Z) (l : list A) i x (pre : list Z) :
  (∀ y, y ∈ l → length (f y) = 32%nat) → l !! i = Some x →
  slice (pre ++ concat (map f l)) (length pre + 32 * i) (length pre + 32 * (i + 1)) = f x.
Proof.
  intros Hl Hi. unfold slice.
  replace (length pre + 32 * (i + 1) - (length pre + 32 * i))%nat with 32%nat by lia.
  rewrite drop_app_add. clear pre. revert i Hi. induction l as [|y l IH]; intros i Hi; [done|].
  assert (length (f y) = 32%nat) as Hy by (apply Hl; left).
  cbn [map concat]. destruct i as [|i].
  - injection Hi as ->. rewrite Nat.mul_0_r, drop_0, <- Hy. apply take_app_length.
  - replace (32 * S i)%nat with (length (f y) + 32 * i)%nat by lia. rewrite drop_app_add.
    apply IH; [|done]. intros z Hz. apply Hl. by right.
Qed.

Lemma length_concat_32 {A} (f : A → list Z) l :
  (∀ y, y ∈ l → length (f y) = 32%nat) → length (concat (map f l)) = (32 * length l)%nat.
Proof.
  induction l as [|x l IH]; intros H; [done|]. cbn [map concat length].
  rewrite length_app, (H x), IH; [lia| |by left]. intros y Hy. apply H. by right.
Qed.

Lemma length_Bytes e : fr.valid e → length (fr.Bytes e) = 32%nat.
Proof. intros H. rewrite fr.Bytes_spec by done. apply length_be_bytes. Qed.

(** The nodes in the order they are marshalled. *)
Definition marshalled_nodes (t : Tree) : list fr.Element := Root t :: drop 1 (frontier t).

Lemma MarshalBinary_nodes t :
  MarshalBinary t = be_bytes 8 (next t) ++ concat (map fr.Bytes (marshalled_nodes t)).
Proof. reflexivity. Qed.

(** The check [UnmarshalBinary] makes of the restored count and root. *)
Definition header_ok (n : Z) (r : fr.Element) : Prop :=
  n mod 2 = 0 ∧ 0 <= n <= Capacity ∧ (n = 0 → r = zeros Depth).

Lemma concat_slices data k n : (k + 32 * n <= length data)%nat →
  concat (map (λ i, slice data (k + 32 * i) (k + 32 * (i + 1))) (seq 0 n)) =
  take (32 * n) (drop k data).
Proof.
  intros H. induction n as [|n IH]; [done|].
  rewrite seq_S, map_app, concat_app, IH by lia. cbn [map concat plus].
  rewrite app_nil_r. unfold slice.
  replace (k + 32 * (n + 1) - (k + 32 * n))%nat with 32%nat by lia.
  rewrite <- drop_drop. replace (32 * S n)%nat with (32 * n + 32)%nat by lia.
  by rewrite take_take_drop.
Qed.

Lemma slice_length data lo hi : (lo <= hi <= length data)%nat →
  length (slice data lo hi) = (hi - lo)%nat.
Proof. intros H. unfold slice. rewrite length_take, length_drop. lia. Qed.

Lemma slice_byte data lo hi : Forall is_byte data → Forall is_byte (slice data lo hi).
Proof. intros H. by apply Forall_take, Forall_drop. Qed.

(** A successful [UnmarshalBinary] read the canonical encoding of 32 reduced nodes. *)
Lemma UnmarshalBinary_inv data t : Forall is_byte data → UnmarshalBinary data = Ok t →
  ∃ nodes, data = be_bytes 8 (next t) ++ concat (map fr.Bytes nodes) ∧ length nodes = Depth ∧
    Forall fr.valid nodes ∧ header_ok (next t) (root t) ∧
    root t = nodes !!! 0%nat ∧ frontier t = fr.zero :: drop 1 nodes.
Proof.
  intros Hb. unfold UnmarshalBinary.
  rewrite bind_Ok. intros ([] & Hlen%fail_if_Ok & H).
  apply negb_false_iff, Nat.eqb_eq in Hlen.
  apply bind_Ok in H as ([] & Hn%fail_if_Ok & H). apply orb_false_iff in Hn as [Hn1 Hn2].
  apply negb_false_iff, Z.eqb_eq in Hn1. apply Z.ltb_ge in Hn2.
  apply bind_Ok in H as (nodes & Hnodes & H). apply mapM_seq_inv in Hnodes as [Hnl Hnodes].
  apply bind_Ok in H as ([] & Hz%fail_if_Ok & [= <-]). cbn [next root frontier] in *.
  assert (∀ i x, nodes !! i = Some x → fr.valid x ∧
    fr.Bytes x = slice data (8 + 32 * i) (8 + 32 * (i + 1))) as HB.
  { intros i x Hi. pose proof (lookup_lt_Some _ _ _ Hi). specialize (Hnodes i x Hi).
    apply or_fail_Ok in Hnodes. unfold StateSize, Depth in *.
    assert (length (slice data (8 + 32 * i) (8 + 32 * (i + 1))) = 32%nat) as Hs
      by (rewrite slice_length; lia).
    pose proof (slice_byte data (8 + 32 * i) (8 + 32 * (i + 1)) Hb) as Hsb.
    split; [apply (fr.SetBytes_Ok _ _ Hsb Hs Hnodes)|apply (fr.Bytes_SetBytes _ _ Hsb Hs Hnodes)]. }
  assert (Forall is_byte (take 8 data)) as Hb8 by by apply Forall_take.
  assert (length (take 8 data) = 8%nat) as Hl8
    by (rewrite length_take; unfold StateSize, Depth in *; lia).
  exists nodes. split; [|split; [done|split; [|split; [|done]]]].
  - rewrite be_bytes_val by done. rewrite <- (take_drop 8 data) at 1. f_equal.
    transitivity (take (32 * Depth) (drop 8 data)).
    { rewrite take_ge; [done|]. rewrite length_drop. unfold StateSize, Depth in *. lia. }
    rewrite <- concat_slices by (unfold StateSize, Depth in *; lia). f_equal.
    apply list_eq. intros i. rewrite !lookup_map.
    rewrite <- Hnl. destruct (nodes !! i) as [x|] eqn:Hi.
    + rewrite lookup_seq_lt by (by eapply lookup_lt_Some). apply (f_equal Some). symmetry. apply (HB i x Hi).
    + rewrite lookup_seq_ge by (by apply lookup_ge_None). done.
  - apply Forall_lookup. intros i x Hi. by apply (HB i x Hi).
  - split; [done|]. split.
    + pose proof (be_val_range _ Hb8). lia.
    + intros E. rewrite E in Hz. rewrite Z.eqb_refl, andb_true_l in Hz. by apply bool_decide_eq_false, dec_stable in Hz.
Qed.

Lemma UnmarshalBinary_encoded n nodes : length nodes = Depth → Forall fr.valid nodes →
  header_ok n (nodes !!! 0%nat) →
  UnmarshalBinary (be_bytes 8 n ++ concat (map fr.Bytes nodes)) =
  Ok (mkTree n (nodes !!! 0%nat) (fr.zero :: drop 1 nodes)).
Proof.
  intros Hl Hv (He & Hc & Hz). unfold UnmarshalBinary.
  assert (∀ y, y ∈ nodes → length (fr.Bytes y) = 32%nat) as HB.
  { intros y Hy. apply length_Bytes. by eapply Forall_forall in Hv. }
  assert (take 8 (be_bytes 8 n ++ concat (map fr.Bytes nodes)) = be_bytes 8 n) as ->
    by (apply take_app_length'; by rewrite length_be_bytes).
  rewrite be_val_bytes_small by (rewrite Capacity_eq in Hc; lia).
  rewrite length_app, length_be_bytes, length_concat_32, Hl by done.
  change (negb (8 + 32 * Depth =? StateSize)%nat) with false. rewrite He.
  destruct (Z.ltb_spec Capacity n); [lia|]. cbn [Z.eqb negb orb fail_if]. rewrite !Ok_bind.
  rewrite <- Hl at 1. rewrite (mapM_seq_Ok _ nodes 0), Ok_bind.
  - cbn [root]. destruct (Z.eqb_spec n 0) as [E|]; [|reflexivity]. rewrite (Hz E).
    rewrite bool_decide_eq_false_2; [reflexivity|]. intros K. by apply K.
  - intros i x Hi. rewrite Nat.add_0_l.
    pose proof (slice_chunk fr.Bytes nodes i x (be_bytes 8 n) HB Hi) as Hs.
    rewrite length_be_bytes in Hs. rewrite Hs.
    rewrite fr.SetBytes_Bytes; [done|]. by eapply Forall_lookup_1 in Hv.
Qed.

(** *** Every node is a reduced element *)

Lemma zeros_valid `{!ValidHash NH} h : fr.valid (zeros h).
Proof. induction h; cbn [zeros]; [apply fr.valid_zero|by apply node_hash_valid]. Qed.

Definition level_valid (st : list fr.Element * fr.Element * Z) : Prop :=
  Forall fr.valid st.1.1 ∧ fr.valid st.1.2.

Lemma append_level_valid `{!ValidHash NH} st level :
  level_valid st → level_valid (append_level st level).
Proof.
  destruct st as [[f nd] pos]. intros [Hf Hn]. unfold append_level, level_valid.
  destruct (Z.land pos 1 =? 0); cbn [fst snd] in *.
  - split; [by apply Forall_insert|]. apply node_hash_valid; [done|apply zeros_valid].
  - split; [done|]. apply node_hash_valid; [|done]. rewrite list_lookup_total_alt.
    destruct (f !! level) eqn:E; [by eapply Forall_lookup_1 in E|apply fr.valid_zero].
Qed.

Lemma append_loop_valid `{!ValidHash NH} st levels :
  level_valid st → level_valid (foldl append_level st levels).
Proof. revert st. induction levels; cbn; auto using append_level_valid. Qed.

Lemma AppendPair_valid `{!ValidHash NH} a b t : nodes_valid t → fr.valid a → fr.valid b →
  nodes_valid (AppendPair a b t).1.
Proof.
  intros [Hr Hf] Ha Hb. unfold AppendPair. destruct (Capacity <? _); [by split|].
  pose proof (append_loop_valid (frontier t, node_hash a b, Z.shiftr (next t) 1)
    (seq 1 (Depth - 1))) as K. destruct (foldl _ _ _) as [[f nd] pos].
  destruct K as [K1 K2]; [|by split]. split; [done|]. by apply node_hash_valid.
Qed.

Lemma Root_valid `{!ValidHash NH} t : nodes_valid t → fr.valid (Root t).
Proof. intros [Hr _]. unfold Root. destruct (next t =? 0); [apply zeros_valid|done]. Qed.

Lemma empty_valid : nodes_valid empty.
Proof. split; [apply fr.valid_zero|]. apply Forall_replicate, fr.valid_zero. Qed.

(** The state of a tree that a program can reach: its leaves are represented and reduced. *)
Lemma UnmarshalBinary_MarshalBinary `{!ValidHash NH} t leaves :
  represents t leaves → nodes_valid t →
  UnmarshalBinary (MarshalBinary t) = Ok (mkTree (next t) (Root t) (fr.zero :: drop 1 (frontier t))).
Proof.
  intros (Hn & He & Hc & Hf & _) Hv. rewrite MarshalBinary_nodes.
  apply (UnmarshalBinary_encoded (next t) (marshalled_nodes t)).
  - unfold marshalled_nodes. cbn [length]. rewrite length_drop, Hf. reflexivity.
  - apply Forall_cons; split; [by apply Root_valid|]. apply Forall_drop, Hv.
  - split; [done|]. split; [lia|]. intros E. change (Root t = zeros Depth). unfold Root.
    rewrite E. reflexivity.
Qed.

Lemma MarshalBinary_bytes `{!ValidHash NH} t : nodes_valid t → Forall is_byte (MarshalBinary t).
Proof.
  intros Hv. rewrite MarshalBinary_nodes. apply Forall_app; split; [apply be_bytes_byte|].
  assert (Forall fr.valid (marshalled_nodes t)) as H
    by (apply Forall_cons; split; [by apply Root_valid|apply Forall_drop, Hv]).
  induction H as [|e l He _ IH]; [by apply Forall_nil|]. cbn [map concat].
  apply Forall_app; split; [|done]. rewrite fr.Bytes_spec by done. apply be_bytes_byte.
Qed.

(** Appending a sequence of pairs, stopping at the first error. *)
Fixpoint append_all (pairs : list (fr.Element * fr.Element)) : ST Tree unit :=
  match pairs with
  | [] => mret tt
  | p :: pairs => _ ← AppendPair p.1 p.2; append_all pairs
  end.

Definition leaves_of (pairs : list (fr.Element * fr.Element)) : list fr.Element :=
  concat (map (λ p, [p.1; p.2]) pairs).

Lemma length_leaves_of pairs : length (leaves_of pairs) = (2 * length pairs)%nat.
Proof.
  unfold leaves_of. induction pairs as [|p pairs IH]; [done|].
  cbn [map concat length]. rewrite length_app, IH. cbn [length]. lia.
Qed.

Lemma append_all_represents pairs t leaves : represents t leaves →
  next t + 2 * Z.of_nat (length pairs) <= Capacity →
  ∃ t', append_all pairs t = (t', Ok tt) ∧ represents t' (leaves ++ leaves_of pairs).
Proof.
  revert t leaves. induction pairs as [|p pairs IH]; intros t leaves Ht Hc.
  - exists t. split; [done|]. by rewrite app_nil_r.
  - cbn [length] in Hc.
    destruct (AppendPair_represents t leaves p.1 p.2 Ht ltac:(lia)) as (t1 & E1 & H1).
    destruct (IH t1 _ H1) as (t2 & E2 & H2).
    { destruct Ht as (Hn & _), H1 as (Hn1 & _). rewrite length_app in Hn1. simpl in Hn1. lia. }
    exists t2. cbn [append_all]. unfold mbind, ST_bind. rewrite E1. split; [done|].
    by rewrite <- app_assoc in H2.
Qed.

(** *** A root binds its leaves *)

(** Two different pairs of canonical elements with one hash: the children of one place in the trees over two
    sequences of leaves, so both are determined by the leaves. *)
Definition collides (xs ys : list fr.Element) : Prop := ∃ h i, 0 <= i ∧
  let a := node h (2 * i) xs in let b := node h (2 * i + 1) xs in
  let c := node h (2 * i) ys in let d := node h (2 * i + 1) ys in
  Forall fr.valid [a; b; c; d] ∧ (a, b) ≠ (c, d) ∧ node_hash a b = node_hash c d.

Lemma collides_not_same xs : ¬ collides xs xs.
Proof. by intros (h & i & _ & _ & H & _). Qed.

Definition leaf_of (leaves : list fr.Element) (j : Z) : fr.Element := default fr.zero (leaves !! Z.to_nat j).

Section binds.
Context {VH : ValidHash _} (xs ys : list fr.Element) (Hxs : Forall fr.valid xs) (Hys : Forall fr.valid ys).

Lemma node_valid leaves : Forall fr.valid leaves → ∀ h i, fr.valid (node h i leaves).
Proof.
  intros Hl h. induction h as [|h IH]; intros i; cbn [node]; [|by apply node_hash_valid].
  destruct (leaves !! Z.to_nat i) as [x|] eqn:E; [|exact fr.valid_zero]. by eapply Forall_lookup_1.
Qed.

Lemma node_binds h : ∀ i, 0 <= i → node h i xs = node h i ys →
  (∀ j, i * 2 ^ Z.of_nat h <= j < (i + 1) * 2 ^ Z.of_nat h → leaf_of xs j = leaf_of ys j) ∨ collides xs ys.
Proof.
  induction h as [|h IH]; intros i Hi H; cbn [node] in H.
  { left. intros j Hj. change (2 ^ Z.of_nat 0) with 1 in Hj. by replace j with i by lia. }
  destruct (decide ((node h (2 * i) xs, node h (2 * i + 1) xs) = (node h (2 * i) ys, node h (2 * i + 1) ys))) as [E|E].
  2: { right. exists h, i. split; [done|]. cbv zeta. split; [by repeat constructor; apply node_valid|done]. }
  injection E as E1 E2. destruct (IH (2 * i) ltac:(lia) E1) as [H1|]; [|by right].
  destruct (IH (2 * i + 1) ltac:(lia) E2) as [H2|]; [|by right]. left. intros j Hj.
  rewrite Nat2Z.inj_succ, Z.pow_succ_r in Hj by lia.
  destruct (Z.lt_ge_cases j ((2 * i + 1) * 2 ^ Z.of_nat h)); [apply H1|apply H2]; lia.
Qed.

(** Sequences of one length under one node of their height are equal, or their trees collide. *)
Lemma leaves_bind h : length xs = length ys → Z.of_nat (length xs) <= 2 ^ Z.of_nat h →
  node h 0 xs = node h 0 ys → xs = ys ∨ collides xs ys.
Proof.
  intros Hl Hc H. destruct (node_binds h 0 (Z.le_refl 0) H) as [Hj|]; [left|by right].
  apply list_eq. intros i. destruct (decide (i < length xs)%nat) as [Hi|Hi]; [|by rewrite !lookup_ge_None_2 by lia].
  specialize (Hj (Z.of_nat i) ltac:(lia)). unfold leaf_of in Hj. rewrite Nat2Z.id in Hj.
  destruct (lookup_lt_is_Some_2 xs i Hi) as [x Hx], (lookup_lt_is_Some_2 ys i ltac:(lia)) as [y Hy].
  rewrite Hx, Hy in Hj |- *. cbn [default] in Hj. by f_equal.
Qed.
End binds.

(** The root is the node of the tree's height; stated with the node given first, so that its unfolding
    is not attempted. *)
Lemma reference_root_node leaves : reference_root leaves = node Depth 0 leaves.
Proof. exact (eq_refl (node Depth 0 leaves)). Qed.

Lemma root_binds {VH : ValidHash _} xs ys : Forall fr.valid xs → Forall fr.valid ys → length xs = length ys →
  Z.of_nat (length xs) <= Capacity → reference_root xs = reference_root ys → xs = ys ∨ collides xs ys.
Proof.
  rewrite (reference_root_node xs), (reference_root_node ys), Capacity_eq. intros Hx Hy Hl Hc.
  exact (leaves_bind xs ys Hx Hy Depth Hl Hc).
Qed.

End tree.

(** * Properties *)

(** C27: appending any sequence of pairs that fits to the empty tree succeeds, and the root kept in
    the frontier with one hash per level is the root of the depth 32 Merkle tree recomputed from all
    the leaves, padded with zero leaves; the count is the number of leaves. *)
Theorem incremental_root_is_merkle_root `{NodeHash} (pairs : list (fr.Element * fr.Element))
    (Hfit : 2 * Z.of_nat (length pairs) <= Capacity) :
  ∃ t, append_all pairs empty = (t, Ok tt) ∧
    Len t = 2 * Z.of_nat (length pairs) ∧ Root t = reference_root (leaves_of pairs).
Proof.
  destruct (append_all_represents pairs empty [] represents_empty Hfit) as (t & E & Ht).
  exists t. split; [done|]. destruct Ht as (Hn & _ & _ & _ & Hr & _). split; [|done].
  unfold Len. rewrite Hn, app_nil_l, length_leaves_of. lia.
Qed.

Lemma incremental_root_witness :
  ∃ t, append_all [(fr.SetUint64 1, fr.SetUint64 2); (fr.SetUint64 3, fr.SetUint64 4)] empty
       = (t, Ok tt) ∧ Len t = 4 ∧
    Root t = reference_root [fr.SetUint64 1; fr.SetUint64 2; fr.SetUint64 3; fr.SetUint64 4].
Proof.
  apply (incremental_root_is_merkle_root
    [(fr.SetUint64 1, fr.SetUint64 2); (fr.SetUint64 3, fr.SetUint64 4)]).
  vm_compute. congruence.
Defined.

(** One [AppendPair] on a tree that holds [leaves]: with room for a pair it returns the index of
    the left leaf and the tree then holds the leaves with the pair at the end, all its nodes reduced;
    with no room it returns [ErrFull] and leaves the tree as it was. *)
Theorem AppendPair_step `{!NodeHash, !ValidHash _} (t : Tree) (leaves : list fr.Element)
    (a b : fr.Element) (Ht : represents t leaves) (Hv : nodes_valid t)
    (Ha : fr.valid a) (Hb : fr.valid b) :
  (next t + 2 <= Capacity → ∃ t', AppendPair a b t = (t', Ok (Len t)) ∧
     represents t' (leaves ++ [a; b]) ∧ nodes_valid t') ∧
  (Capacity < next t + 2 → AppendPair a b t = (t, Fail ErrFull)).
Proof.
  split; intros Hc; [|by eapply AppendPair_full].
  destruct (AppendPair_represents t leaves a b Ht Hc) as (t' & E & Ht').
  exists t'. split; [done|]. split; [done|].
  pose proof (AppendPair_valid a b t Hv Ha Hb) as K. by rewrite E in K.
Qed.

Lemma AppendPair_witness :
  ∃ t', AppendPair (fr.SetUint64 1) (fr.SetUint64 2) empty = (t', Ok 0) ∧
    represents t' [fr.SetUint64 1; fr.SetUint64 2] ∧ nodes_valid t'.
Proof.
  apply (AppendPair_step empty [] (fr.SetUint64 1) (fr.SetUint64 2) represents_empty empty_valid).
  - fr.solve_valid.
  - fr.solve_valid.
  - vm_compute. congruence.
Defined.

(** A tree restored by [UnmarshalBinary] from its own [MarshalBinary] is indistinguishable from
    it: the same count, root and frontier above level 0, so every later root agrees; and it still
    represents the same leaves. *)
Theorem marshal_roundtrip `{!NodeHash, !ValidHash _} (t : Tree) (leaves : list fr.Element)
    (Ht : represents t leaves) (Hv : nodes_valid t) :
  ∃ t', UnmarshalBinary (MarshalBinary t) = Ok t' ∧ tree_equiv t' t ∧ represents t' leaves ∧
    nodes_valid t'.
Proof.
  eexists. split; [by eapply UnmarshalBinary_MarshalBinary|].
  destruct Ht as (Hn & He & Hc & Hf & Hr & Hfr). unfold tree_equiv, represents, nodes_valid.
  assert (Root (mkTree (next t) (Root t) (fr.zero :: drop 1 (frontier t))) = Root t) as HR
    by (unfold Root; cbn [next root]; by destruct (next t =? 0)).
  rewrite HR. cbn [next root frontier drop]. rewrite drop_0.
  split; [done|]. split; [|split; [by apply Root_valid|]].
  - do 3 (split; [done|]). split; [cbn [length]; rewrite length_drop, Hf; reflexivity|].
    split; [done|]. intros l Hl Ho. rewrite <- (Hfr l Hl Ho).
    destruct l as [|l]; [lia|]. destruct (frontier t); [done|]. reflexivity.
  - apply Forall_cons; split; [apply fr.valid_zero|apply Forall_drop, Hv].
Qed.

Lemma marshal_witness :
  ∃ t', UnmarshalBinary (MarshalBinary empty) = Ok t' ∧ tree_equiv t' empty ∧ represents t' [] ∧
    nodes_valid t'.
Proof. apply (marshal_roundtrip empty [] represents_empty empty_valid). Defined.

(** [UnmarshalBinary] accepts only canonical encodings: whatever it restores has reduced nodes,
    an even count within the capacity, the empty root when it holds no leaf, and marshals back to
    exactly the bytes it was read from. *)
Theorem unmarshal_is_canonical `{NodeHash} (data : list Z) (t : Tree) (Hb : Forall is_byte data)
    (Hok : UnmarshalBinary data = Ok t) :
  MarshalBinary t = data ∧ nodes_valid t ∧ length (frontier t) = Depth ∧
  next t mod 2 = 0 ∧ 0 <= next t <= Capacity ∧ (next t = 0 → root t = zeros Depth).
Proof.
  destruct (UnmarshalBinary_inv data t Hb Hok) as (nodes & Hd & Hl & Hv & (He & Hc & Hz) & Hr & Hf).
  destruct nodes as [|r nodes]; [done|]. cbn in Hr, Hf. rewrite drop_0 in Hf.
  apply Forall_cons in Hv as [Hvr Hvn].
  assert (Root t = r) as HR.
  { unfold Root. destruct (Z.eqb_spec (next t) 0) as [E|]; [|done]. by rewrite <- Hz, Hr. }
  split; [|split; [|split; [|done]]].
  - rewrite MarshalBinary_nodes. unfold marshalled_nodes. rewrite HR, Hf, Hd. cbn [drop]. by rewrite ?drop_0.
  - split; [by rewrite Hr|]. rewrite Hf. apply Forall_cons; split; [apply fr.valid_zero|done].
  - rewrite Hf. exact Hl.
Qed.

Lemma unmarshal_witness :
  ∃ t, UnmarshalBinary (MarshalBinary empty) = Ok t ∧ MarshalBinary t = MarshalBinary empty ∧
    root t = zeros Depth.
Proof.
  exists (mkTree (next empty) (Root empty) (fr.zero :: drop 1 (frontier empty))).
  assert (E := UnmarshalBinary_MarshalBinary empty [] represents_empty empty_valid).
  destruct (unmarshal_is_canonical _ _ (MarshalBinary_bytes empty empty_valid) E)
    as (K & _ & _ & _ & _ & Z0).
  split; [exact E|]. split; [exact K|]. apply Z0. reflexivity.
Defined.

End tree.
