(* ===== verification/Xdr.v ===== *)
(** The XDR data the vault package builds and reads, and the interface of the Stellar SDK it calls.

    The types are the arms of the XDR unions that the code constructs or inspects, any other arm
    being [...Other]; a value is one the XDR decoder can produce, so the arm its type names is set.
    The functions of the SDK (strkey, base64 and XDR codecs, muxed accounts) are not under src/: they
    are the operations of a class, with the documented behaviour the code relies on as its laws. *)
From S2P Require Import Prelude.

(** [xdr.ScAddress]: a 32-byte account key, a 32-byte contract ID, a muxed account, or another. *)
Inductive ScAddress : Type :=
| AddressAccount (key : list Z)
| AddressContract (id : list Z)
| AddressMuxed (id : Z) (key : list Z)
| AddressOther (type : Z).

(** [xdr.ContractExecutable]; the hash pointer may be nil. *)
Inductive Executable : Type :=
| ExecutableWasm (hash : option (list Z))
| ExecutableOther (type : Z).

(** [xdr.ScVal]. A vector, map or storage is behind a pointer that may be nil; an error
    has the code of a contract, or one of the host's own. *)
Inductive ScVal : Type :=
| ScvVoid
| ScvBool (b : bool)
| ScvU32 (n : Z)
| ScvU64 (n : Z)
| ScvI128 (hi lo : Z)
| ScvU256 (hihi hilo lohi lolo : Z)
| ScvBytes (b : list Z)
| ScvString (s : string)
| ScvSymbol (s : string)
| ScvVec (v : option (list ScVal))
| ScvMap (m : option (list (ScVal * ScVal)))
| ScvAddress (a : ScAddress)
| ScvContractInstance (exec : Executable) (storage : option (list (ScVal * ScVal)))
| ScvLedgerKeyContractInstance
| ScvError (type : Z) (code : option Z)
| ScvOther (type : Z).

(** [xdr.ContractDataDurability]. *)
Inductive Durability : Type := Temporary | Persistent.

(** [xdr.LedgerKey]; account IDs are their 32-byte keys. [asset] of a trustline is the asset code
    and issuer it was made from. *)
Inductive LedgerKey : Type :=
| KeyAccount (id : list Z)
| KeyTrustline (id : list Z) (code issuer : string)
| KeyOffer (seller : list Z)
| KeyData (id : list Z)
| KeyContractData (contract : ScAddress) (key : ScVal) (durability : Durability)
| KeyContractCode (hash : list Z)
| KeyConfigSetting (id : Z)
| KeyOther (type : Z).

(** The version bytes of [strkey] the code uses. *)
Inductive Version : Type := VersionAccountID | VersionContract.

#[export] Instance ScAddress_eq_dec : EqDecision ScAddress.
Proof. solve_decision. Defined.

#[export] Instance Durability_eq_dec : EqDecision Durability.
Proof. solve_decision. Defined.

#[export] Instance Executable_eq_dec : EqDecision Executable.
Proof. solve_decision. Defined.

(** Values nest through lists, so the comparison of lists is given the one of values. *)
#[export] Instance ScVal_eq_dec : EqDecision ScVal.
Proof.
  refine (fix go v w := let dec : EqDecision ScVal := @go in
    match v, w with
    | ScvVoid, ScvVoid | ScvLedgerKeyContractInstance, ScvLedgerKeyContractInstance => left eq_refl
    | ScvBool a, ScvBool b => cast_if (decide (a = b))
    | ScvU32 a, ScvU32 b | ScvU64 a, ScvU64 b | ScvOther a, ScvOther b => cast_if (decide (a = b))
    | ScvU256 a b c d, ScvU256 a' b' c' d' => cast_if_and4 (decide (a = a')) (decide (b = b')) (decide (c = c')) (decide (d = d'))
    | ScvBytes a, ScvBytes b => cast_if (decide (a = b))
    | ScvString a, ScvString b | ScvSymbol a, ScvSymbol b => cast_if (decide (a = b))
    | ScvVec a, ScvVec b => cast_if (decide (a = b))
    | ScvMap a, ScvMap b => cast_if (decide (a = b))
    | ScvAddress a, ScvAddress b => cast_if (decide (a = b))
    | ScvI128 a b, ScvI128 c d => cast_if_and (decide (a = c)) (decide (b = d))
    | ScvContractInstance a b, ScvContractInstance c d => cast_if_and (decide (a = c)) (decide (b = d))
    | ScvError a b, ScvError c d => cast_if_and (decide (a = c)) (decide (b = d))
    | _, _ => right _
    end); clear dec go; abstract congruence.
Defined.

(** The SDK functions the vault package calls; [None] is an error. *)
Class StellarSDK : Type := {
  (** [strkey.Decode], [strkey.Encode] *)
  strkey_decode : Version → string → option (list Z);
  strkey_encode : Version → list Z → option string;
  (** [MuxedAccount.SetAddress] giving a muxed account: its ID and key *)
  muxed_of_string : string → option (Z * list Z);
  (** [ScAddress.String] *)
  address_string : ScAddress → option string;
  (** [xdr.AddressToAccountId] *)
  account_id_of : string → option (list Z);
  (** [xdr.NewCreditAsset] accepts this code and issuer *)
  credit_asset_ok : string → string → bool;
  (** [strkey.IsValidEd25519PublicKey] *)
  is_public_key : string → bool;
  (** [xdr.SafeUnmarshalBase64] and [xdr.MarshalBase64] of a value *)
  unmarshal_base64 : string → option ScVal;
  marshal_base64 : ScVal → option string;
  (** [ScVal.MarshalBinary] *)
  marshal_val : ScVal → option (list Z);
  (** [LedgerKey.UnmarshalBinary] and [LedgerKey.MarshalBinary] *)
  unmarshal_key : list Z → option LedgerKey;
  marshal_key : LedgerKey → option (list Z);
  (** [base64.StdEncoding.EncodeToString] *)
  base64_encode : list Z → string;
  (** the legacy Keccak-256 digest *)
  keccak256 : list Z → list Z;
}.

Definition first_char (s : string) : option Ascii.ascii :=
  match s with String c _ => Some c | EmptyString => None end.

(** What the documentation of the SDK promises of its address codecs: strkeys are canonical, of 32
    bytes, and told apart by their first character; an address prints as its strkey. *)
Class StellarSDKLaws (S : StellarSDK) : Prop := {
  strkey_canonical : ∀ v s raw, strkey_decode v s = Some raw ↔
    strkey_encode v raw = Some s ∧ length raw = 32%nat;
  strkey_account_prefix : ∀ s raw, strkey_decode VersionAccountID s = Some raw →
    first_char s = Some "G"%char;
  strkey_contract_prefix : ∀ s raw, strkey_decode VersionContract s = Some raw →
    first_char s = Some "C"%char;
  muxed_prefix : ∀ s id key, muxed_of_string s = Some (id, key) → first_char s = Some "M"%char;
  account_string : ∀ key, address_string (AddressAccount key) = strkey_encode VersionAccountID key;
  contract_string : ∀ id, address_string (AddressContract id) = strkey_encode VersionContract id;
  muxed_string : ∀ s id key, muxed_of_string s = Some (id, key) ↔
    address_string (AddressMuxed id key) = Some s ∧ length key = 32%nat;
}.

(** ** A concrete SDK

    An address codec that meets the laws, to evaluate the theorems on: a strkey is the prefix
    character and the raw bytes as characters. Values travel as the names of a table. *)
Module example.

Definition byte_char (b : Z) : Ascii.ascii := Ascii.ascii_of_N (Z.to_N b).
Definition char_byte (c : Ascii.ascii) : Z := Z.of_N (Ascii.N_of_ascii c).

Fixpoint bytes_string (bs : list Z) : string :=
  match bs with [] => EmptyString | b :: bs => String (byte_char b) (bytes_string bs) end.
Fixpoint string_bytes (s : string) : list Z :=
  match s with EmptyString => [] | String c s => char_byte c :: string_bytes s end.

Definition is_byteb (b : Z) : bool := (0 <=? b) && (b <? 256).

(** The payload of [n] bytes behind a prefix character. *)
Definition enc (c : Ascii.ascii) (n : nat) (raw : list Z) : option string :=
  if (length raw =? n)%nat && forallb is_byteb raw then Some (String c (bytes_string raw)) else None.
Definition dec (c : Ascii.ascii) (n : nat) (s : string) : option (list Z) :=
  match s with
  | String c' s =>
      if bool_decide (c = c') && (length (string_bytes s) =? n)%nat then Some (string_bytes s)
      else None
  | EmptyString => None
  end.

Definition prefix (v : Version) : Ascii.ascii :=
  match v with VersionAccountID => "G"%char | VersionContract => "C"%char end.

Definition muxed (s : string) : option (Z * list Z) :=
  raw ← dec "M"%char 40 s; Some (be_val (take 8 raw), drop 8 raw).
Definition muxed_enc (id : Z) (key : list Z) : option string :=
  if (0 <=? id) && (id <? W64) then enc "M"%char 40 (be_bytes 8 id ++ key) else None.

Definition sdk_vals (table : list (string * ScVal)) (vals : ScVal → option (list Z))
    (unmarshal : list Z → option LedgerKey) (marshal : LedgerKey → option (list Z)) : StellarSDK := {|
  strkey_decode v := dec (prefix v) 32;
  strkey_encode v := enc (prefix v) 32;
  muxed_of_string := muxed;
  address_string a :=
    match a with
    | AddressAccount key => enc "G"%char 32 key
    | AddressContract id => enc "C"%char 32 id
    | AddressMuxed id key => muxed_enc id key
    | AddressOther _ => None
    end;
  account_id_of := dec "G"%char 32;
  credit_asset_ok _ _ := true;
  is_public_key s := match dec "G"%char 32 s with Some _ => true | None => false end;
  unmarshal_base64 s := (list_to_map table : gmap string ScVal) !! s;
  marshal_base64 _ := None;
  marshal_val := vals;
  unmarshal_key := unmarshal;
  marshal_key := marshal;
  base64_encode := bytes_string;
  keccak256 _ := replicate 32 0;
|}.

(** The same with no value encoded. *)
Definition sdk_keys (table : list (string * ScVal)) (unmarshal : list Z → option LedgerKey)
    (marshal : LedgerKey → option (list Z)) : StellarSDK := sdk_vals table (λ _, None) unmarshal marshal.

(** The same with no ledger key in the table. *)
Definition sdk (table : list (string * ScVal)) : StellarSDK :=
  sdk_keys table (λ _, None) (λ _, None).

Lemma char_byte_range c : is_byte (char_byte c).
Proof. by destruct c as [[] [] [] [] [] [] [] []]. Qed.

Lemma byte_char_byte c : byte_char (char_byte c) = c.
Proof. by destruct c as [[] [] [] [] [] [] [] []]. Qed.

Lemma char_byte_char b : is_byte b → char_byte (byte_char b) = b.
Proof.
  intros [H1 H2]. unfold char_byte, byte_char.
  rewrite Ascii.N_ascii_embedding by lia. lia.
Qed.

Lemma bytes_string_bytes s : bytes_string (string_bytes s) = s.
Proof. induction s as [|c s IH]; [done|]. cbn. by rewrite byte_char_byte, IH. Qed.

Lemma string_bytes_string bs : Forall is_byte bs → string_bytes (bytes_string bs) = bs.
Proof. induction 1 as [|b bs H _ IH]; [done|]. cbn. by rewrite char_byte_char, IH. Qed.

Lemma is_byteb_Forall bs : forallb is_byteb bs = true ↔ Forall is_byte bs.
Proof.
  rewrite forallb_forall, Forall_forall. unfold is_byteb, is_byte.
  split; intros H b Hb.
  - apply list_elem_of_In in Hb. specialize (H b Hb). lia.
  - apply list_elem_of_In in Hb. specialize (H b Hb). lia.
Qed.

Lemma string_bytes_byte s : Forall is_byte (string_bytes s).
Proof. induction s; [by apply Forall_nil|]. apply Forall_cons; auto using char_byte_range. Qed.

Lemma dec_enc c n s raw : dec c n s = Some raw ↔ enc c n raw = Some s ∧ length raw = n.
Proof.
  unfold dec, enc. split.
  - destruct s as [|c' s]; [done|]. case_bool_decide as Hc; [|done]. cbn.
    destruct (Nat.eqb_spec (length (string_bytes s)) n) as [Hl|]; [|done]. intros [= <-].
    rewrite (proj2 (is_byteb_Forall _) (string_bytes_byte s)), Hl, Nat.eqb_refl. cbn.
    by rewrite bytes_string_bytes, Hc.
  - intros [H Hl]. destruct (forallb is_byteb raw) eqn:E; [|by rewrite andb_false_r in H].
    apply is_byteb_Forall in E. rewrite Hl, Nat.eqb_refl in H. cbn in H. injection H as <-.
    rewrite string_bytes_string, Hl, Nat.eqb_refl by done. by rewrite bool_decide_eq_true_2.
Qed.

Lemma dec_first c n s raw : dec c n s = Some raw → first_char s = Some c.
Proof. destruct s as [|c' s]; [done|]. cbn. case_bool_decide as H; [by subst|done]. Qed.

Lemma sdk_keys_laws table u m : StellarSDKLaws (sdk_keys table u m).
Proof.
  split; cbn.
  - intros v s raw. apply dec_enc.
  - intros s raw. apply dec_first.
  - intros s raw. apply dec_first.
  - intros s id key. unfold muxed. destruct (dec _ 40 s) as [raw|] eqn:E; [|done].
    intros _. by eapply dec_first.
  - done.
  - done.
  - intros s id key. unfold muxed, muxed_enc. split.
    + destruct (dec _ 40 s) as [raw|] eqn:E; [|done]. cbn [mbind option_bind]. intros [= <- <-].
      apply dec_enc in E as [E Hl]. assert (Forall is_byte raw) as Hb.
      { unfold enc in E. destruct (forallb is_byteb raw) eqn:F; [by apply is_byteb_Forall|].
        by rewrite andb_false_r in E. }
      assert (length (take 8 raw) = 8%nat) as H8 by (rewrite length_take; lia).
      assert (Forall is_byte (take 8 raw)) as B8 by by apply Forall_take.
      pose proof (be_val_range _ B8) as Hr. rewrite H8 in Hr. change (256 ^ Z.of_nat 8) with W64 in Hr.
      rewrite (proj2 (Z.leb_le 0 _)), (proj2 (Z.ltb_lt _ W64)) by lia. cbn [andb].
      rewrite be_bytes_val, take_drop by done. split; [done|]. rewrite length_drop. lia.
    + intros [H Hl]. destruct (Z.leb_spec 0 id); [|done]. destruct (Z.ltb_spec id W64); [|done].
      cbn [andb] in H.
      rewrite (proj2 (dec_enc "M"%char 40 s (be_bytes 8 id ++ key)))
        by (split; [done|rewrite length_app, length_be_bytes; lia]).
      cbn [mbind option_bind]. rewrite take_app_length', drop_app_length' by (by rewrite length_be_bytes).
      by rewrite be_val_bytes_small by (change (256 ^ Z.of_nat 8) with W64; lia).
Qed.

Lemma sdk_laws table : StellarSDKLaws (sdk table).
Proof. apply sdk_keys_laws. Qed.

(** The zero account and contract. *)
Definition account (n : Z) : string := String "G"%char (bytes_string (be_bytes 32 n)).
Definition contract (n : Z) : string := String "C"%char (bytes_string (be_bytes 32 n)).

End example.
