(* ===== verification/ScVal.v ===== *)
(** The value codec of [services/internal/vault/scval.go]: encoders of contract values, strict
    decoders, and their round trips. *)
From S2P Require Import Prelude.
From S2P Require Import Fr.
From S2P Require Import Xdr.

Module scval.

Definition ErrMalformed : gerr := Sentinel "vault: malformed value".
Definition malformed (format : string) (args : list fmtarg) : gerr :=
  Wrapf ErrMalformed format args.

Definition i128Min : Z := - 2 ^ 127.
Definition i128Max : Z := 2 ^ 127 - 1.

(** ** Encoders *)

Definition Symbol (s : string) : ScVal := ScvSymbol s.
Definition U32 (n : Z) : ScVal := ScvU32 n.
Definition U64 (n : Z) : ScVal := ScvU64 n.
Definition Bool (b : bool) : ScVal := ScvBool b.
Definition Bytes (b : list Z) : ScVal := ScvBytes b.

(** [binary.BigEndian.Uint64(b[lo:lo+8])] *)
Definition be_uint64 (b : list Z) (lo : nat) : Z := be_val (take 8 (drop lo b)).

(** [U256] encodes a 32-byte big-endian value. *)
Definition U256 (b : list Z) : ScVal :=
  ScvU256 (be_uint64 b 0) (be_uint64 b 8) (be_uint64 b 16) (be_uint64 b 24).

(** [I128] encodes a value in [-2^127, 2^127). *)
Definition I128 (n : Z) : res ScVal :=
  if (n <? i128Min) || (i128Max <? n) then Fail (malformed "%v is out of i128 range" [FInt n])
  else
    let t := if n <? 0 then n + 2 ^ 128 else n in
    let buf := be_bytes 16 t in
    Ok (ScvI128 (i64 (be_uint64 buf 0)) (be_uint64 buf 8)).

Definition Vec (items : list ScVal) : ScVal := ScvVec (Some items).

(** [Field] is one entry of a contracttype struct. *)
Record Field : Type := mkField { Name : string; Value : ScVal }.

(** The order of [slices.SortFunc] in [Struct]. *)
Fixpoint insert_field (f : Field) (fs : list Field) : list Field :=
  match fs with
  | [] => [f]
  | g :: fs' => if String.ltb (Name g) (Name f) then g :: insert_field f fs' else f :: fs
  end.
Definition sort_fields (fs : list Field) : list Field := foldr insert_field [] fs.

(** [Struct] encodes a contracttype struct, a map keyed by field name in sorted order. *)
Definition Struct (fields : list Field) : ScVal :=
  ScvMap (Some (map (λ f, (Symbol (Name f), Value f)) (sort_fields fields))).

Section scval.
Context {sdk : StellarSDK}.

(** [copy(key[:], raw)] into a zeroed 32-byte array. *)
Definition copy32 (raw : list Z) : list Z := take 32 (raw ++ replicate 32 0).

(** [ScAddress] decodes a G, M or C strkey. *)
Definition ScAddressOf (s : string) : res ScAddress :=
  match first_char s with
  | None => Fail (malformed "empty address" [])
  | Some "G"%char =>
      match strkey_decode VersionAccountID s with
      | Some raw => Ok (AddressAccount (copy32 raw))
      | None => Fail (malformed "account %q" [FStr s])
      end
  | Some "C"%char =>
      match strkey_decode VersionContract s with
      | Some raw => Ok (AddressContract (copy32 raw))
      | None => Fail (malformed "contract %q" [FStr s])
      end
  | Some "M"%char =>
      match muxed_of_string s with
      | Some (id, key) => Ok (AddressMuxed id key)
      | None => Fail (malformed "muxed account %q" [FStr s])
      end
  | Some _ => Fail (malformed "address %q" [FStr s])
  end.

(** [Address] encodes a G, M or C strkey. *)
Definition Address (s : string) : res ScVal := a ← ScAddressOf s; mret (ScvAddress a).

(** [AccountOf] returns the G account behind a G or M address, and the address unchanged
    otherwise. *)
Definition AccountOf (s : string) : res string :=
  a ← ScAddressOf s;
  match a with
  | AddressMuxed _ key =>
      match strkey_encode VersionAccountID key with
      | Some g => Ok g
      | None => Fail (Sentinel "strkey: encode")
      end
  | _ => Ok s
  end.

(** ** Decoders *)

Definition symbolOf (v : ScVal) : option string :=
  match v with ScvSymbol s => Some s | _ => None end.

Definition u32Of (v : ScVal) : res Z :=
  match v with ScvU32 n => Ok n | _ => Fail (malformed "want u32, got %v" [FOther]) end.

Definition u64Of (v : ScVal) : res Z :=
  match v with ScvU64 n => Ok n | _ => Fail (malformed "want u64, got %v" [FOther]) end.

Definition boolOf (v : ScVal) : res bool :=
  match v with ScvBool b => Ok b | _ => Fail (malformed "want bool, got %v" [FOther]) end.

Definition bytesOf (v : ScVal) : res (list Z) :=
  match v with ScvBytes b => Ok b | _ => Fail (malformed "want bytes, got %v" [FOther]) end.

Definition u256Of (v : ScVal) : res (list Z) :=
  match v with
  | ScvU256 a b c d => Ok (be_bytes 8 a ++ be_bytes 8 b ++ be_bytes 8 c ++ be_bytes 8 d)
  | _ => Fail (malformed "want u256, got %v" [FOther])
  end.

(** [fieldOf] decodes a U256 that must be a canonical field element. *)
Definition fieldOf (v : ScVal) : res fr.Element :=
  b ← u256Of v;
  or_fail (fr.SetBytes b) (λ _, malformed "non-canonical field element" []).

Definition i128Of (v : ScVal) : res Z :=
  match v with
  | ScvI128 hi lo =>
      let n := be_val (be_bytes 8 (u64 hi) ++ be_bytes 8 lo) in
      Ok (if hi <? 0 then n - 2 ^ 128 else n)
  | _ => Fail (malformed "want i128, got %v" [FOther])
  end.

(** [addressOf] decodes an Address or MuxedAddress into its strkey. *)
Definition addressOf (v : ScVal) : res string :=
  match v with
  | ScvAddress (AddressOther _) => Fail (malformed "unexpected address type %v" [FOther])
  | ScvAddress a =>
      match address_string a with
      | Some s => Ok s
      | None => Fail (malformed "address: %v" [FOther])
      end
  | _ => Fail (malformed "want address, got %v" [FOther])
  end.

Definition vecOf (v : ScVal) : res (list ScVal) :=
  match v with
  | ScvVec (Some items) => Ok items
  | _ => Fail (malformed "want vec, got %v" [FOther])
  end.

(** The loop of [structOf] over the entries of the map. *)
Fixpoint struct_fields (names : list string) (entries : list (ScVal * ScVal))
    (out : gmap string ScVal) : res (gmap string ScVal) :=
  match entries with
  | [] => Ok out
  | (k, v) :: entries =>
      match symbolOf k with
      | Some name =>
          if bool_decide (name ∈ names) then
            match out !! name with
            | Some _ => Fail (malformed "repeated field %q" [FStr name])
            | None => struct_fields names entries (<[name := v]> out)
            end
          else Fail (malformed "unexpected field %v" [FOther])
      | None => Fail (malformed "unexpected field %v" [FOther])
      end
  end.

(** [structOf] decodes a contracttype struct, which must have exactly the named fields. *)
Definition structOf (v : ScVal) (names : list string) : res (gmap string ScVal) :=
  match v with
  | ScvMap (Some entries) =>
      _ ← fail_if (negb (length entries =? length names)%nat)
            (malformed "want %d fields, got %d"
               [FInt (Z.of_nat (length names)); FInt (Z.of_nat (length entries))]);
      struct_fields names entries ∅
  | _ => Fail (malformed "want map, got %v" [FOther])
  end.

(** [optionU64Of] and [optionU32Of] decode an Option, which is void or the value. *)
Definition optionU64Of (v : ScVal) : res (option Z) :=
  match v with ScvVoid => Ok None | _ => n ← u64Of v; mret (Some n) end.

Definition optionU32Of (v : ScVal) : res (option Z) :=
  match v with ScvVoid => Ok None | _ => n ← u32Of v; mret (Some n) end.

(** * Lemmas *)

Lemma struct_fields_dom names entries out m :
  struct_fields names entries out = Ok m → dom out ⊆ list_to_set names →
  dom m ⊆ (list_to_set names : gset string) ∧ size m = (size out + length entries)%nat.
Proof.
  revert out. induction entries as [|[k v] entries IH]; intros out; cbn [struct_fields length].
  - intros [= <-] H. split; [done|lia].
  - destruct (symbolOf k) as [name|]; [|done].
    case_bool_decide as Hin; [|done]. destruct (out !! name) eqn:E; [done|].
    intros H Hd. apply IH in H as [H1 H2]; [|rewrite dom_insert_L; set_solver].
    split; [done|]. rewrite H2, map_size_insert_None by done. lia.
Qed.

Lemma structOf_dom v names m : NoDup names → structOf v names = Ok m →
  dom m = list_to_set names.
Proof.
  intros Hnd. unfold structOf. destruct v; try done. destruct m0 as [entries|]; [|done].
  rewrite bind_Ok. intros ([] & Hl%fail_if_Ok & H). apply negb_false_iff, Nat.eqb_eq in Hl.
  apply struct_fields_dom in H as [H1 H2]; [|set_solver].
  apply set_eq. intros x. split; [set_solver|]. intros Hx.
  rewrite map_size_empty in H2. rewrite <- size_dom in H2.
  rewrite <- (size_list_to_set (C := gset string) names Hnd) in Hl.
  apply (set_subseteq_size_eq (C := gset string)) in H1; [|lia].
  by rewrite H1.
Qed.

Lemma struct_fields_map names (fs : list Field) out :
  (∀ f, f ∈ fs → Name f ∈ names) → NoDup (map Name fs) →
  (∀ f, f ∈ fs → out !! Name f = None) →
  ∃ m, struct_fields names (map (λ f, (Symbol (Name f), Value f)) fs) out = Ok m ∧
    (∀ f, f ∈ fs → m !! Name f = Some (Value f)) ∧
    (∀ n, n ∉ map Name fs → m !! n = out !! n).
Proof.
  revert out. induction fs as [|f fs IH]; intros out Hin Hnd Hout.
  - exists out. split; [done|]. split; [by intros f ?%elem_of_nil|done].
  - cbn [map struct_fields symbolOf Symbol]. cbn [map] in Hnd. apply NoDup_cons in Hnd as [Hf Hnd].
    rewrite bool_decide_eq_true_2 by (apply Hin; left). rewrite (Hout f) by left.
    destruct (IH (<[Name f := Value f]> out)) as (m & Hm & H1 & H2); [| done| |].
    + intros g Hg. apply Hin. by right.
    + intros g Hg. rewrite lookup_insert_ne; [apply Hout; by right|]. intros E. apply Hf.
      rewrite E. apply list_elem_of_In, in_map, list_elem_of_In, Hg.
    + exists m. split; [done|]. split.
      * intros g [->|Hg]%elem_of_cons; [|by apply H1]. rewrite H2 by done. apply lookup_insert_eq.
      * intros n Hn. rewrite H2 by set_solver. rewrite lookup_insert_ne; [done|set_solver].
Qed.

Lemma insert_field_perm f fs : insert_field f fs ≡ₚ f :: fs.
Proof.
  induction fs as [|g fs IH]; [done|]. cbn [insert_field].
  destruct (String.ltb (Name g) (Name f)); [|done]. rewrite IH. apply Permutation_swap.
Qed.

Lemma sort_fields_perm fs : sort_fields fs ≡ₚ fs.
Proof.
  induction fs as [|f fs IH]; [done|]. cbn [sort_fields foldr].
  etransitivity; [apply insert_field_perm|]. by apply perm_skip.
Qed.

(** Names in order: no field before one with a smaller name. *)
Definition name_le (f g : Field) : Prop := String.ltb (Name g) (Name f) = false.

Lemma insert_field_sorted f fs : Sorted name_le fs → Sorted name_le (insert_field f fs).
Proof.
  induction fs as [|g fs IH]; intros H; cbn [insert_field]; [by repeat constructor|].
  destruct (String.ltb (Name g) (Name f)) eqn:E; [|constructor; [done|by constructor]].
  apply Sorted_inv in H as [H Hg]. constructor; [by apply IH|].
  assert (name_le g f) as Hgf.
  { unfold name_le, String.ltb in *. rewrite String.compare_antisym.
    by destruct (String.compare (Name g) (Name f)). }
  destruct fs as [|h fs]; cbn [insert_field] in *; [by constructor|].
  apply HdRel_inv in Hg. destruct (String.ltb (Name h) (Name f)); by constructor.
Qed.

Lemma sort_fields_sorted fs : Sorted name_le (sort_fields fs).
Proof. induction fs; cbn; [constructor|by apply insert_field_sorted]. Qed.

Lemma structOf_Struct fs names : NoDup (map Name fs) → names ≡ₚ map Name fs →
  ∃ r, structOf (Struct fs) names = Ok r ∧ (∀ f, f ∈ fs → r !! Name f = Some (Value f)).
Proof.
  intros Hfs Hnames.
  assert (∀ f, f ∈ sort_fields fs → Name f ∈ names) as Hin.
  { intros f Hf. rewrite Hnames. rewrite sort_fields_perm in Hf.
    by apply list_elem_of_In, in_map, list_elem_of_In. }
  destruct (struct_fields_map names (sort_fields fs) ∅ Hin) as (r & Hr & H1 & _).
  { by rewrite sort_fields_perm. }
  { intros f _. apply lookup_empty. }
  exists r. split.
  - unfold structOf, Struct. rewrite length_map, (Permutation_length (sort_fields_perm fs)).
    apply Permutation_length in Hnames. rewrite length_map in Hnames.
    by rewrite Hnames, Nat.eqb_refl.
  - intros f Hf. apply H1. by rewrite sort_fields_perm.
Qed.

(** *** Integers *)

Lemma be_bytes_16 z : be_bytes 16 z = be_bytes 8 (z / 2 ^ 64) ++ be_bytes 8 z.
Proof.
  cbn [be_bytes app]. rewrite !Z.div_div by lia.
  repeat f_equal.
Qed.

Lemma be_uint64_app b c : length b = 8%nat → be_uint64 (b ++ c) 0 = be_val b.
Proof. intros H. unfold be_uint64. by rewrite drop_0, <- H, take_app_length. Qed.

Lemma be_uint64_drop pre b c k : length pre = k → length b = 8%nat →
  be_uint64 (pre ++ b ++ c) k = be_val b.
Proof. intros <- H. unfold be_uint64. by rewrite drop_app_length, <- H, take_app_length. Qed.

Lemma i64_u64 z : 0 <= z < 2 ^ 64 → u64 (i64 z) = z ∧ (i64 z <? 0) = (2 ^ 63 <=? z).
Proof.
  intros H. unfold i64. rewrite u64_mod.
  assert ((z + 9223372036854775808) mod W64 =
    if 2 ^ 63 <=? z then z - 2 ^ 63 else z + 2 ^ 63) as ->.
  { change 9223372036854775808 with (2 ^ 63). destruct (Z.leb_spec (2 ^ 63) z).
    - symmetry. apply Z.mod_unique with 1; unfold W64; lia.
    - apply Z.mod_small. unfold W64. lia. }
  destruct (Z.leb_spec (2 ^ 63) z); split; try (apply Z.ltb_lt || apply Z.ltb_ge; lia).
  - symmetry. apply Z.mod_unique with (-1); unfold W64; lia.
  - replace (z + 2 ^ 63 - 9223372036854775808) with z by lia. apply Z.mod_small. unfold W64. lia.
Qed.

Lemma I128_ok n : i128Min <= n <= i128Max →
  ∃ hi lo, I128 n = Ok (ScvI128 hi lo) ∧ i128Of (ScvI128 hi lo) = Ok n ∧
    - 2 ^ 63 <= hi < 2 ^ 63 ∧ is_u64 lo.
Proof.
  unfold i128Min, i128Max. intros H. unfold I128, i128Min, i128Max.
  destruct (Z.ltb_spec n (- 2 ^ 127)); [lia|]. destruct (Z.ltb_spec (2 ^ 127 - 1) n); [lia|].
  cbn [orb]. set (t := if n <? 0 then n + 2 ^ 128 else n).
  assert (0 <= t < 2 ^ 128) as Ht by (subst t; destruct (Z.ltb_spec n 0); lia).
  eexists _, _. split; [reflexivity|].
  rewrite be_bytes_16, be_uint64_app by apply length_be_bytes.
  rewrite <- (app_nil_r (be_bytes 8 t)), (be_uint64_drop _ _ [] 8) by apply length_be_bytes.
  rewrite !be_val_bytes. change (256 ^ Z.of_nat 8) with W64.
  assert (0 <= t / 2 ^ 64 < 2 ^ 64) as Hhi.
  { split; [apply Z.div_pos; lia|apply Z.div_lt_upper_bound; lia]. }
  rewrite (Z.mod_small (t / 2 ^ 64)) by (unfold W64; lia).
  destruct (i64_u64 (t / 2 ^ 64) Hhi) as [E1 E2].
  split; [|split; [unfold i64; pose proof (Z.mod_pos_bound (t / 2 ^ 64 + 9223372036854775808) W64
    ltac:(done)); unfold W64 in *; lia|apply Z.mod_pos_bound; done]].
  unfold i128Of. rewrite E1, E2. f_equal.
  rewrite be_val_app, !be_val_bytes, length_be_bytes. change (256 ^ Z.of_nat 8) with (2 ^ 64).
  change W64 with (2 ^ 64). rewrite Z.mod_mod, (Z.mod_small (t / 2 ^ 64)) by lia.
  pose proof (Z.div_mod t (2 ^ 64)). pose proof (Z.mod_pos_bound t (2 ^ 64)).
  destruct (Z.leb_spec (2 ^ 63) (t / 2 ^ 64)); subst t; destruct (Z.ltb_spec n 0); lia.
Qed.

Lemma u64_i64 hi : - 2 ^ 63 <= hi < 2 ^ 63 →
  u64 hi = (if hi <? 0 then hi + 2 ^ 64 else hi) ∧ i64 (u64 hi) = hi.
Proof.
  intros H.
  assert (u64 hi = if hi <? 0 then hi + 2 ^ 64 else hi) as E.
  { rewrite u64_mod. destruct (Z.ltb_spec hi 0).
    - symmetry. apply Z.mod_unique with (-1); unfold W64; lia.
    - apply Z.mod_small. unfold W64. lia. }
  split; [done|]. rewrite E. unfold i64. change 9223372036854775808 with (2 ^ 63).
  destruct (Z.ltb_spec hi 0).
  - replace ((hi + 2 ^ 64 + 2 ^ 63) mod W64) with (hi + 2 ^ 63); [lia|].
    apply Z.mod_unique with 1; unfold W64; lia.
  - rewrite Z.mod_small by (unfold W64; lia). lia.
Qed.

(** A pair of words decodes to [hi * 2^64 + lo]. *)
Lemma i128Of_value hi lo : - 2 ^ 63 <= hi < 2 ^ 63 → is_u64 lo →
  i128Of (ScvI128 hi lo) = Ok (hi * 2 ^ 64 + lo).
Proof.
  intros Hhi Hlo. unfold i128Of. f_equal. destruct (u64_i64 hi Hhi) as [E _].
  rewrite be_val_app, !be_val_bytes, length_be_bytes. change (256 ^ Z.of_nat 8) with W64.
  rewrite (Z.mod_small (u64 hi)), (Z.mod_small lo) by (try apply u64_range; done).
  rewrite E. change W64 with (2 ^ 64). destruct (hi <? 0); lia.
Qed.

Lemma i128Of_canonical hi lo n : - 2 ^ 63 <= hi < 2 ^ 63 → is_u64 lo →
  i128Of (ScvI128 hi lo) = Ok n → i128Min <= n <= i128Max ∧ I128 n = Ok (ScvI128 hi lo).
Proof.
  intros Hhi Hlo. rewrite i128Of_value by done. intros [= <-].
  unfold is_u64, W64 in Hlo.
  assert (i128Min <= hi * 2 ^ 64 + lo <= i128Max) as Hr by (unfold i128Min, i128Max; lia).
  split; [done|]. destruct (I128_ok _ Hr) as (hi' & lo' & -> & Hd & Hhi' & Hlo').
  rewrite i128Of_value in Hd by done. injection Hd as Hd.
  unfold is_u64, W64 in Hlo'. assert (hi' = hi) by lia. subst. do 2 f_equal. lia.
Qed.

Lemma I128_inv n v : I128 n = Ok v → i128Of v = Ok n.
Proof.
  intros H. assert (i128Min <= n <= i128Max) as Hr.
  { unfold I128 in H. destruct (Z.ltb_spec n i128Min), (Z.ltb_spec i128Max n); first [done|lia]. }
  destruct (I128_ok n Hr) as (hi & lo & E & D & _). congruence.
Qed.

(** The four words of a 32-byte string. *)
Lemma u256Of_U256 b : Forall is_byte b → length b = 32%nat → u256Of (U256 b) = Ok b.
Proof.
  intros Hb Hl. cbn [u256Of U256]. f_equal. unfold be_uint64.
  assert (∀ k, (k + 8 <= 32)%nat → be_bytes 8 (be_val (take 8 (drop k b))) = take 8 (drop k b)) as E.
  { intros k Hk. apply be_bytes_val; [by apply Forall_take, Forall_drop|].
    rewrite length_take, length_drop. lia. }
  rewrite !E by lia. rewrite drop_0.
  do 32 (destruct b as [|? b]; [done|]). by destruct b.
Qed.

Lemma fieldOf_U256 e : fr.valid e → fieldOf (U256 (fr.Bytes e)) = Ok e.
Proof.
  intros He. unfold fieldOf. rewrite u256Of_U256.
  - rewrite Ok_bind, fr.SetBytes_Bytes; done.
  - rewrite fr.Bytes_spec by done. apply be_bytes_byte.
  - rewrite fr.Bytes_spec by done. apply length_be_bytes.
Qed.

Lemma fieldOf_Ok v e : fieldOf v = Ok e →
  ∃ a b c d, v = ScvU256 a b c d ∧ fr.valid e ∧
    fr.Bytes e = be_bytes 8 a ++ be_bytes 8 b ++ be_bytes 8 c ++ be_bytes 8 d.
Proof.
  unfold fieldOf. destruct v as [| | | | |a b c d| | | | | | | | | |]; try done. cbn [u256Of].
  rewrite Ok_bind, or_fail_Ok. intros H. exists a, b, c, d. split; [done|].
  set (bs := be_bytes 8 a ++ _) in *.
  assert (Forall is_byte bs) by (subst bs; rewrite !Forall_app; auto using be_bytes_byte).
  assert (length bs = 32%nat) by (subst bs; by rewrite !length_app, !length_be_bytes).
  split; [by eapply fr.SetBytes_Ok|by apply fr.Bytes_SetBytes].
Qed.

Lemma fieldOf_valid v e : fieldOf v = Ok e → fr.valid e.
Proof. intros (? & ? & ? & ? & _ & H & _)%fieldOf_Ok. done. Qed.

(** *** Addresses *)

Lemma copy32_id raw : length raw = 32%nat → copy32 raw = raw.
Proof. intros H. unfold copy32. by apply take_app_length'. Qed.

Lemma ScAddressOf_string `{!StellarSDKLaws sdk} s a :
  ScAddressOf s = Ok a → address_string a = Some s ∧ (∀ t, a ≠ AddressOther t).
Proof.
  unfold ScAddressOf. destruct (first_char s) as [c|]; [|done].
  intros H.
  destruct c as [[] [] [] [] [] [] [] []]; try discriminate H.
  - destruct (strkey_decode VersionAccountID s) as [raw|] eqn:E; [|done]. injection H as <-.
    apply strkey_canonical in E as [E Hl]. by rewrite copy32_id, account_string.
  - destruct (strkey_decode VersionContract s) as [raw|] eqn:E; [|done]. injection H as <-.
    apply strkey_canonical in E as [E Hl]. by rewrite copy32_id, contract_string.
  - destruct (muxed_of_string s) as [[id key]|] eqn:E; [|done]. injection H as <-.
    by apply muxed_string in E as [E Hl].
Qed.

Lemma ScAddressOf_account `{!StellarSDKLaws sdk} s key :
  strkey_encode VersionAccountID key = Some s → length key = 32%nat →
  ScAddressOf s = Ok (AddressAccount key).
Proof.
  intros H Hl. assert (strkey_decode VersionAccountID s = Some key) as E
    by by apply strkey_canonical.
  unfold ScAddressOf. by rewrite (strkey_account_prefix _ _ E), E, copy32_id.
Qed.

Lemma addressOf_Address `{!StellarSDKLaws sdk} s v : Address s = Ok v → addressOf v = Ok s.
Proof.
  unfold Address. rewrite bind_Ok. intros (a & Ha & [= <-]).
  apply ScAddressOf_string in Ha as [Hs Hn]. destruct a; cbn [addressOf]; rewrite ?Hs; try done.
  by destruct (Hn type).
Qed.

(** An address as the XDR types have it: of 32 bytes. *)
Definition sized_address (v : ScVal) : Prop :=
  match v with ScvAddress (AddressAccount k | AddressContract k | AddressMuxed _ k) => length k = 32%nat | _ => True end.

Lemma Address_addressOf `{!StellarSDKLaws sdk} s v : sized_address v → addressOf v = Ok s → Address s = Ok v.
Proof.
  intros Hl H. destruct v as [| | | | | | | | | | |a| | | |]; try done. unfold Address.
  assert (address_string a = Some s) as Hs by (destruct a; cbn in H; try done; destruct (address_string _); by inversion H).
  enough (ScAddressOf s = Ok a) as -> by done. unfold ScAddressOf. destruct a as [k|k|id k|t]; [| | |done].
  - by apply ScAddressOf_account; [rewrite <- account_string|].
  - rewrite contract_string in Hs. assert (strkey_decode VersionContract s = Some k) as E by by apply strkey_canonical.
    by rewrite (strkey_contract_prefix _ _ E), E, copy32_id.
  - assert (muxed_of_string s = Some (id, k)) as E by by apply muxed_string. by rewrite (muxed_prefix _ _ _ E), E.
Qed.

Lemma AccountOf_not_muxed `{!StellarSDKLaws sdk} s g : AccountOf s = Ok g →
  ∃ a, ScAddressOf g = Ok a ∧ (∀ id key, a ≠ AddressMuxed id key).
Proof.
  unfold AccountOf. rewrite bind_Ok. intros (a & Ha & Hg).
  destruct a as [key|id|id key|t]; try (injection Hg as <-; eexists; split; [exact Ha|done]).
  destruct (strkey_encode VersionAccountID key) as [g'|] eqn:E; [|done]. injection Hg as <-.
  exists (AddressAccount key). split; [|done]. apply ScAddressOf_account; [done|].
  unfold ScAddressOf in Ha. destruct (first_char s) as [c|]; [|done].
  destruct c as [[] [] [] [] [] [] [] []]; try discriminate Ha.
  - by destruct (strkey_decode VersionAccountID s).
  - by destruct (strkey_decode VersionContract s).
  - destruct (muxed_of_string s) as [[i k]|] eqn:Em; [|done]. injection Ha as -> ->.
    by apply muxed_string in Em as [_ ?].
Qed.

Lemma AccountOf_idempotent `{!StellarSDKLaws sdk} s g :
  AccountOf s = Ok g → AccountOf g = Ok g.
Proof.
  intros H. destruct (AccountOf_not_muxed s g H) as (a & Ha & Hn).
  unfold AccountOf. rewrite Ha, Ok_bind. destruct a; try done. by destruct (Hn id key).
Qed.

End scval.

(** * Properties *)

(** [I128] and [i128Of] are inverse on the i128 range: [I128] encodes exactly the integers of
    [-2^127, 2^127) and refuses any other as malformed, decoding its two words gives the integer
    back, and any signed high word and unsigned low word are the encoding of what they decode to. *)
Theorem i128_codec (n hi lo : Z) :
  (i128Min <= n <= i128Max → ∃ h l, I128 n = Ok (ScvI128 h l) ∧ i128Of (ScvI128 h l) = Ok n) ∧
  (¬ (i128Min <= n <= i128Max) →
     I128 n = Fail (malformed "%v is out of i128 range" [FInt n])) ∧
  (- 2 ^ 63 <= hi < 2 ^ 63 → is_u64 lo →
     ∃ m, i128Of (ScvI128 hi lo) = Ok m ∧ i128Min <= m <= i128Max ∧ I128 m = Ok (ScvI128 hi lo)).
Proof.
  split; [|split].
  - intros H. destruct (I128_ok n H) as (h & l & H1 & H2 & _). eauto.
  - intros H. unfold I128. destruct (Z.ltb_spec n i128Min), (Z.ltb_spec i128Max n); cbn; try done. lia.
  - intros Hhi Hlo. rewrite i128Of_value by done. eexists. split; [done|].
    apply i128Of_canonical; [done..|]. by apply i128Of_value.
Qed.

Lemma i128_codec_witness :
  I128 (-5) = Ok (ScvI128 (-1) 18446744073709551611) ∧
  ∃ h l, I128 (-5) = Ok (ScvI128 h l) ∧ i128Of (ScvI128 h l) = Ok (-5).
Proof.
  split; [vm_compute; reflexivity|].
  apply (i128_codec (-5) 0 0). unfold i128Min, i128Max. lia.
Defined.

(** A field element crosses the contract boundary unchanged: [fieldOf] of the [U256] of its
    bytes is the element; and whatever [fieldOf] accepts is a U256 holding the canonical bytes of a
    reduced element, so an encoding at or above the modulus is refused. *)
Theorem field_codec (e : fr.Element) (v : ScVal) :
  (fr.valid e → fieldOf (U256 (fr.Bytes e)) = Ok e) ∧
  (fieldOf v = Ok e → ∃ a b c d, v = ScvU256 a b c d ∧ fr.valid e ∧
     fr.Bytes e = be_bytes 8 a ++ be_bytes 8 b ++ be_bytes 8 c ++ be_bytes 8 d).
Proof. split; [apply fieldOf_U256|apply fieldOf_Ok]. Qed.

Lemma field_codec_witness :
  fieldOf (U256 (fr.Bytes (fr.SetUint64 9))) = Ok (fr.SetUint64 9) ∧
  fieldOf (U256 (be_bytes 32 fr.Modulus)) = Fail (malformed "non-canonical field element" []).
Proof.
  split; [|vm_compute; reflexivity].
  apply (field_codec (fr.SetUint64 9) ScvVoid). fr.solve_valid.
Defined.

(** The struct codec: [Struct] writes each field once, in name order, and [structOf] with the
    names of the fields, in any order, reads back every value; and whatever [structOf] accepts under
    distinct names binds exactly those names, so no later field read can miss. *)
Theorem struct_codec (fs : list Field) (names : list string) (v : ScVal) (m : gmap string ScVal)
    (Hfs : NoDup (map Name fs)) (Hnames : names ≡ₚ map Name fs) :
  (∃ sorted, Struct fs = ScvMap (Some (map (λ f, (ScvSymbol (Name f), Value f)) sorted)) ∧
     sorted ≡ₚ fs ∧ Sorted name_le sorted) ∧
  (∃ r, structOf (Struct fs) names = Ok r ∧
     (∀ f, f ∈ fs → r !! Name f = Some (Value f)) ∧ dom r = list_to_set names) ∧
  (structOf v names = Ok m → dom m = list_to_set names).
Proof.
  assert (NoDup names) as Hnd by by rewrite Hnames.
  split; [|split; [|by apply structOf_dom]].
  - exists (sort_fields fs). split; [done|]. split; [apply sort_fields_perm|apply sort_fields_sorted].
  - destruct (structOf_Struct fs names Hfs Hnames) as (r & E & H1).
    exists r. split; [done|]. split; [done|by eapply structOf_dom].
Qed.

Lemma struct_codec_witness :
  ∃ r, structOf (Struct [mkField "up_to" (U64 7); mkField "id" (U32 3)]) ["id"; "up_to"]%string = Ok r ∧
    (∀ f, f ∈ [mkField "up_to" (U64 7); mkField "id" (U32 3)] → r !! Name f = Some (Value f)) ∧
    dom r = list_to_set ["id"; "up_to"]%string.
Proof.
  apply (struct_codec [mkField "up_to" (U64 7); mkField "id" (U32 3)] ["id"; "up_to"]%string
           ScvVoid ∅).
  - apply (bool_decide_unpack (NoDup _)). vm_compute. exact I.
  - apply Permutation_swap.
Defined.

(** Addresses: whatever G, C or M strkey [Address] accepts is read back by [addressOf] as the
    same string; [AccountOf] returns an address that is not muxed and that it maps to itself. *)
Theorem address_codec `{!StellarSDK, !StellarSDKLaws _} (s g : string) (v : ScVal) :
  (Address s = Ok v → addressOf v = Ok s) ∧
  (AccountOf s = Ok g → AccountOf g = Ok g ∧
     ∃ a, ScAddressOf g = Ok a ∧ ∀ id key, a ≠ AddressMuxed id key).
Proof.
  split; [apply addressOf_Address|]. intros HA.
  split; [by eapply AccountOf_idempotent|by eapply AccountOf_not_muxed].
Qed.

(** A muxed address over the account of key 5, with the example SDK. *)
Lemma address_codec_witness :
  let M := String "M"%char (example.bytes_string (be_bytes 8 9 ++ be_bytes 32 5)) in
  @AccountOf (example.sdk []) M = Ok (example.account 5) ∧
  @AccountOf (example.sdk []) (example.account 5) = Ok (example.account 5).
Proof.
  set (M := String _ _).
  assert (E : @AccountOf (example.sdk []) M = Ok (example.account 5)) by (vm_compute; reflexivity).
  split; [exact E|].
  destruct (@address_codec (example.sdk []) (example.sdk_laws []) M (example.account 5) ScvVoid)
    as [_ K]. exact (proj1 (K E)).
Defined.

End scval.
