(* ===== verification/VaultState.v ===== *)
(** The vault's instance state of [services/internal/vault/state.go]: the records, the strict
    decoders of the instance, exit, deposit and root ring entries, and the delay of a deposit. *)
From S2P Require Import Prelude.
From S2P Require Import Fr.
From S2P Require Import Xdr.
From S2P Require Import ScVal.

Module vault.

Import scval.

Definition RootHistory : Z := 256.
Definition MaxUint64 : Z := 18446744073709551615.

Record Config : Type := mkConfig {
  Token : string; Domain : fr.Element; Guardian : string; ASP : string;
  DelaySmall : Z; DelayLarge : Z }.

(** Limits are in the asset's smallest unit. *)
Record Limits : Type := mkLimits {
  MinDeposit : Z; MaxDeposit : Z; MaxDailyPerDepositor : Z; TvlCap : Z; MaxDailyOutflow : Z;
  MaxFee : Z; LargeDepositThreshold : Z }.

Record QueuedLimits : Type := mkQueuedLimits { QLimits : Limits; QReadyAt : Z }.

(** [Status] is the vault's mutable instance state. *)
Record Status : Type := mkStatus {
  DepositsPaused : bool; TransfersPaused : bool; HaltedUntil : Z; NextHaltAt : Z;
  NextDepositID : Z; AttestedUpTo : Z; Tvl : Z; PendingTotal : Z; QueuedTotal : Z;
  ExitHead : Z; ExitTail : Z; OutflowDay : Z; Outflow : Z }.

(** [OutflowOn] is what the window of the given day has paid so far. *)
Definition OutflowOn (s : Status) (day : Z) : Z := if OutflowDay s =? day then Outflow s else 0.

(** [Halted] reports whether the vault is halted at the given ledger time. *)
Definition Halted (s : Status) (now : Z) : bool := now <? HaltedUntil s.

(** [PendingDeposit] is a deposit waiting in the entry queue. *)
Record PendingDeposit : Type := mkPendingDeposit {
  Depositor : string; Amount : Z; Commitment0 : fr.Element; Commitment1 : fr.Element;
  Ciphertext0 : list Z; Ciphertext1 : list Z; CreatedAt : Z; Delay : Z; Flag : option Z;
  FlaggedAt : Z }.

(** [DelayFor] is the delay the configuration gives a deposit of this amount. *)
Definition DelayFor (amount : Z) (cfg : Config) (limits : Limits) : Z :=
  if LargeDepositThreshold limits <=? amount then DelayLarge cfg else DelaySmall cfg.

(** [EligibleAt] is the earliest time admit accepts the deposit. *)
Definition EligibleAt (d : PendingDeposit) (cfg : Config) (limits : Limits) : Z :=
  let delay := Z.max (Delay d) (DelayFor (Amount d) cfg limits) in
  if u64 (MaxUint64 - delay) <? CreatedAt d then MaxUint64 else u64 (CreatedAt d + delay).

(** [RootRing] holds the last [RootHistory] roots; [Newest] indexes the current one. *)
Record RootRing : Type := mkRootRing { Roots : list fr.Element; Newest : Z }.

(** [Current] returns the newest root; [None] is the panic of an index out of range. *)
Definition Current (r : RootRing) : option fr.Element := Roots r !! Z.to_nat (Newest r).

Definition configFields : list string :=
  ["token"; "domain"; "guardian"; "asp"; "delay_small"; "delay_large"]%string.
Definition limitsFields : list string :=
  ["min_deposit"; "max_deposit"; "max_daily_per_depositor"; "tvl_cap"; "max_daily_outflow";
   "max_fee"; "large_deposit_threshold"]%string.
Definition queuedFields : list string := ["limits"; "ready_at"]%string.
Definition statusFields : list string :=
  ["deposits_paused"; "transfers_paused"; "halted_until"; "next_halt_at"; "next_deposit_id";
   "attested_up_to"; "tvl"; "pending_total"; "queued_total"; "exit_head"; "exit_tail";
   "outflow_day"; "outflow"]%string.
Definition exitFields : list string :=
  ["recipient"; "payout"; "relayer"; "fee"; "queued_at"]%string.
Definition pendingFields : list string :=
  ["depositor"; "amount"; "commitment0"; "commitment1"; "encrypted_output0"; "encrypted_output1";
   "created_at"; "delay"; "flag"; "flagged_at"]%string.
Definition ringFields : list string := ["roots"; "newest"]%string.

(** ** The decoder, which accumulates the first error of a sequence of field decodes *)

Record decoder : Type := mkDecoder { fields : gmap string ScVal; err : option gerr }.

Definition keep (d : decoder) (e : option gerr) : decoder :=
  match err d, e with
  | None, Some e => mkDecoder (fields d) (Some e)
  | _, _ => d
  end.

(** [d.fields[name]]: a name the decoder does not hold gives the zero value, which no decode
    reaches, since [structOf] binds every name it is given. *)
Definition field_at (d : decoder) (name : string) : ScVal := default (ScvOther 0) (fields d !! name).

(** A method of the decoder: it returns a value and updates the decoder. *)
Definition DEC (A : Type) : Type := decoder → A * decoder.
#[global] Instance DEC_ret : MRet DEC := λ A a d, (a, d).
#[global] Instance DEC_bind : MBind DEC := λ A B f m d, let '(a, d) := m d in f a d.

(** [x, err := get(d.fields[name]); d.keep(err); return x], where [x] is the zero value on error. *)
Definition d_read {A} (get : ScVal → res A) (zero : A) (name : string) : DEC A := λ d,
  match get (field_at d name) with
  | Ok a => (a, keep d None)
  | Fail e => (zero, keep d (Some e))
  end.

Definition newDecoder (v : ScVal) (names : list string) : decoder :=
  match structOf v names with
  | Ok f => mkDecoder f None
  | Fail e => mkDecoder ∅ (Some e)
  end.

(** [d := newDecoder(v, names); if d.err != nil { return err }; x := ...; return x, d.err] *)
Definition with_decoder {A} (v : ScVal) (names : list string) (body : DEC A) : res A :=
  let d := newDecoder v names in
  match err d with
  | Some e => Fail e
  | None =>
      let '(a, d) := body d in
      match err d with Some e => Fail e | None => Ok a end
  end.

Definition d_u64 (name : string) : DEC Z := d_read u64Of 0 name.
Definition d_u32 (name : string) : DEC Z := d_read u32Of 0 name.
Definition d_bool (name : string) : DEC bool := d_read boolOf false name.
(** The zero value of a [*big.Int] is nil; no caller reads it after an error. *)
Definition d_i128 (name : string) : DEC Z := d_read i128Of 0 name.
Definition d_field (name : string) : DEC fr.Element := d_read fieldOf fr.zero name.
Definition d_bytes (name : string) : DEC (list Z) := d_read bytesOf [] name.

Section vault.
Context {sdk : StellarSDK}.

Definition d_address (name : string) : DEC string := d_read addressOf EmptyString name.

(** [DecodeConfig] decodes the Config instance entry. *)
Definition DecodeConfig (v : ScVal) : res Config :=
  with_decoder v configFields (
    token ← d_address "token"; domain ← d_field "domain"; guardian ← d_address "guardian";
    asp ← d_address "asp"; small ← d_u64 "delay_small"; large ← d_u64 "delay_large";
    mret (mkConfig token domain guardian asp small large)).

(** [DecodeLimits] decodes a Limits value. *)
Definition DecodeLimits (v : ScVal) : res Limits :=
  with_decoder v limitsFields (
    a ← d_i128 "min_deposit"; b ← d_i128 "max_deposit"; c ← d_i128 "max_daily_per_depositor";
    d ← d_i128 "tvl_cap"; e ← d_i128 "max_daily_outflow"; f ← d_i128 "max_fee";
    g ← d_i128 "large_deposit_threshold";
    mret (mkLimits a b c d e f g)).

(** [limits, err := DecodeLimits(d.fields["limits"]); if err != nil { return err }], then the ready
    time through the decoder: shared by [DecodeQueuedLimits] and [decodeLimitsChange]. *)
Definition decode_limits_at (v : ScVal) : res (Limits * Z) :=
  let d := newDecoder v queuedFields in
  match err d with
  | Some e => Fail e
  | None =>
      limits ← DecodeLimits (field_at d "limits");
      let '(ready, d) := d_u64 "ready_at" d in
      match err d with Some e => Fail e | None => Ok (limits, ready) end
  end.

(** [DecodeQueuedLimits] decodes a QueuedLimits value. *)
Definition DecodeQueuedLimits (v : ScVal) : res QueuedLimits :=
  '(limits, ready) ← decode_limits_at v; mret (mkQueuedLimits limits ready).

(** [DecodeStatus] decodes the Status instance entry. *)
Definition DecodeStatus (v : ScVal) : res Status :=
  with_decoder v statusFields (
    dp ← d_bool "deposits_paused"; tp ← d_bool "transfers_paused"; hu ← d_u64 "halted_until";
    nh ← d_u64 "next_halt_at"; nd ← d_u64 "next_deposit_id"; au ← d_u64 "attested_up_to";
    tvl ← d_i128 "tvl"; pt ← d_i128 "pending_total"; qt ← d_i128 "queued_total";
    eh ← d_u64 "exit_head"; et ← d_u64 "exit_tail"; od ← d_u64 "outflow_day";
    o ← d_i128 "outflow";
    mret (mkStatus dp tp hu nh nd au tvl pt qt eh et od o)).

(** [Exit] is a payment the vault owes. *)
Record Exit : Type := mkExit {
  Recipient : string; Payout : Z; Relayer : string; Fee : Z; QueuedAt : Z }.

(** [DecodeExit] decodes an Exit(id) or Stranded(id) entry. *)
Definition DecodeExit (v : ScVal) : res Exit :=
  with_decoder v exitFields (
    r ← d_address "recipient"; p ← d_i128 "payout"; l ← d_address "relayer"; f ← d_i128 "fee";
    q ← d_u64 "queued_at"; mret (mkExit r p l f q)).

(** [DecodePendingDeposit] decodes a Pending(id) entry; the flag is read before the others. *)
Definition DecodePendingDeposit (v : ScVal) : res PendingDeposit :=
  with_decoder v pendingFields (
    flag ← d_read optionU32Of None "flag";
    dep ← d_address "depositor"; am ← d_i128 "amount"; c0 ← d_field "commitment0";
    c1 ← d_field "commitment1"; b0 ← d_bytes "encrypted_output0";
    b1 ← d_bytes "encrypted_output1"; ca ← d_u64 "created_at"; de ← d_u64 "delay";
    fa ← d_u64 "flagged_at";
    mret (mkPendingDeposit dep am c0 c1 b0 b1 ca de flag fa)).

(** [DecodeRootRing] decodes the Roots entry. *)
Definition DecodeRootRing (v : ScVal) : res RootRing :=
  let d := newDecoder v ringFields in
  match err d with
  | Some e => Fail e
  | None =>
      items ← vecOf (field_at d "roots");
      _ ← fail_if (negb (Z.of_nat (length items) =? RootHistory))
            (malformed "root ring of %d entries" [FInt (Z.of_nat (length items))]);
      let '(newest, d) := d_u32 "newest" d in
      roots ← mapM fieldOf items;
      match err d with
      | None =>
          _ ← fail_if (RootHistory <=? newest) (malformed "newest root index %d" [FInt newest]);
          mret (mkRootRing roots newest)
      | Some e => Fail e
      end
  end.

(** [Instance] is the vault's instance storage. *)
Record VaultInstance : Type := mkInstance {
  IConfig : option Config; ILimits : option Limits; IQueued : option QueuedLimits;
  IStatus : option Status; WasmHash : list Z }.

(** [enumName] returns the variant name of a unit contracttype enum value. *)
Definition enumName (v : ScVal) : res string :=
  match vecOf v with
  | Ok [item] =>
      match symbolOf item with
      | Some name => Ok name
      | None => Fail (malformed "enum key is not a symbol" [])
      end
  | _ => Fail (malformed "want a unit enum key" [])
  end.

(** One turn of the loop over the instance storage; a part that was seen is [Some], which is the
    bit of [seen] the loop sets. *)
Definition instance_entry (out : VaultInstance) (entry : ScVal * ScVal) : res VaultInstance :=
  name ← enumName entry.1;
  if String.eqb name "Config" then
    c ← DecodeConfig entry.2;
    mret (mkInstance (Some c) (ILimits out) (IQueued out) (IStatus out) (WasmHash out))
  else if String.eqb name "Limits" then
    l ← DecodeLimits entry.2;
    mret (mkInstance (IConfig out) (Some l) (IQueued out) (IStatus out) (WasmHash out))
  else if String.eqb name "Status" then
    s ← DecodeStatus entry.2;
    mret (mkInstance (IConfig out) (ILimits out) (IQueued out) (Some s) (WasmHash out))
  else if String.eqb name "QueuedLimits" then
    q ← DecodeQueuedLimits entry.2;
    mret (mkInstance (IConfig out) (ILimits out) (Some q) (IStatus out) (WasmHash out))
  else Fail (malformed "unexpected instance key %q" [FStr name]).

Fixpoint instance_entries (out : VaultInstance) (entries : list (ScVal * ScVal))
    : res VaultInstance :=
  match entries with
  | [] => Ok out
  | e :: entries => out ← instance_entry out e; instance_entries out entries
  end.

(** [DecodeInstance] decodes the vault's contract instance entry value. *)
Definition DecodeInstance (v : ScVal) : res VaultInstance :=
  match v with
  | ScvContractInstance exec storage =>
      match exec with
      | ExecutableWasm (Some hash) =>
          match storage with
          | Some entries =>
              out ← instance_entries (mkInstance None None None None hash) entries;
              match IConfig out, ILimits out, IStatus out with
              | Some _, Some _, Some _ => Ok out
              | _, _, _ => Fail (malformed "instance storage lacks config, limits or status" [])
              end
          | None => Fail (malformed "empty instance storage" [])
          end
      | _ => Fail (malformed "vault executable is not wasm" [])
      end
  | _ => Fail (malformed "want contract instance, got %v" [FOther])
  end.

(** ** The contract's encoding

    The entries as the vault writes them: contracttype structs of the same field names, built with
    the encoders of scval.go. *)

Definition field_val (e : fr.Element) : ScVal := U256 (fr.Bytes e).
Definition option_u32_val (o : option Z) : ScVal :=
  match o with Some n => U32 n | None => ScvVoid end.

Definition encode_config (c : Config) : res ScVal :=
  t ← Address (Token c); g ← Address (Guardian c); a ← Address (ASP c);
  mret (Struct [mkField "token" t; mkField "domain" (field_val (Domain c)); mkField "guardian" g;
    mkField "asp" a; mkField "delay_small" (U64 (DelaySmall c));
    mkField "delay_large" (U64 (DelayLarge c))]).

Definition encode_limits (l : Limits) : res ScVal :=
  a ← I128 (MinDeposit l); b ← I128 (MaxDeposit l); c ← I128 (MaxDailyPerDepositor l);
  d ← I128 (TvlCap l); e ← I128 (MaxDailyOutflow l); f ← I128 (MaxFee l);
  g ← I128 (LargeDepositThreshold l);
  mret (Struct [mkField "min_deposit" a; mkField "max_deposit" b;
    mkField "max_daily_per_depositor" c; mkField "tvl_cap" d; mkField "max_daily_outflow" e;
    mkField "max_fee" f; mkField "large_deposit_threshold" g]).

Definition encode_queued (q : QueuedLimits) : res ScVal :=
  l ← encode_limits (QLimits q);
  mret (Struct [mkField "limits" l; mkField "ready_at" (U64 (QReadyAt q))]).

Definition encode_status (s : Status) : res ScVal :=
  a ← I128 (Tvl s); b ← I128 (PendingTotal s); c ← I128 (QueuedTotal s); d ← I128 (Outflow s);
  mret (Struct [mkField "deposits_paused" (Bool (DepositsPaused s));
    mkField "transfers_paused" (Bool (TransfersPaused s));
    mkField "halted_until" (U64 (HaltedUntil s)); mkField "next_halt_at" (U64 (NextHaltAt s));
    mkField "next_deposit_id" (U64 (NextDepositID s));
    mkField "attested_up_to" (U64 (AttestedUpTo s)); mkField "tvl" a; mkField "pending_total" b;
    mkField "queued_total" c; mkField "exit_head" (U64 (ExitHead s));
    mkField "exit_tail" (U64 (ExitTail s)); mkField "outflow_day" (U64 (OutflowDay s));
    mkField "outflow" d]).

Definition encode_exit (e : Exit) : res ScVal :=
  r ← Address (Recipient e); p ← I128 (Payout e); l ← Address (Relayer e); f ← I128 (Fee e);
  mret (Struct [mkField "recipient" r; mkField "payout" p; mkField "relayer" l; mkField "fee" f;
    mkField "queued_at" (U64 (QueuedAt e))]).

Definition encode_pending (d : PendingDeposit) : res ScVal :=
  a ← Address (Depositor d); n ← I128 (Amount d);
  mret (Struct [mkField "depositor" a; mkField "amount" n;
    mkField "commitment0" (field_val (Commitment0 d));
    mkField "commitment1" (field_val (Commitment1 d));
    mkField "encrypted_output0" (Bytes (Ciphertext0 d));
    mkField "encrypted_output1" (Bytes (Ciphertext1 d)); mkField "created_at" (U64 (CreatedAt d));
    mkField "delay" (U64 (Delay d)); mkField "flag" (option_u32_val (Flag d));
    mkField "flagged_at" (U64 (FlaggedAt d))]).

(** * Lemmas *)

Lemma newDecoder_Struct fs names : NoDup (map Name fs) → names ≡ₚ map Name fs →
  ∃ r, newDecoder (Struct fs) names = mkDecoder r None ∧
    ∀ f, f ∈ fs → field_at (mkDecoder r None) (Name f) = Value f.
Proof.
  intros Hfs Hn. destruct (structOf_Struct fs names Hfs Hn) as (r & E & H).
  exists r. unfold newDecoder. rewrite E. split; [done|]. intros f Hf.
  unfold field_at. cbn [fields]. by rewrite (H f Hf).
Qed.

Lemma d_read_get {A} (get : ScVal → res A) zero name d v a :
  field_at d name = v → get v = Ok a → d_read get zero name d = (a, d).
Proof. intros <- H. unfold d_read. rewrite H. by destruct d as [? []]. Qed.

Lemma DEC_bind_get {A B} (m : DEC A) (f : A → DEC B) d a d' :
  m d = (a, d') → mbind f m d = f a d'.
Proof. unfold mbind, DEC_bind. by intros ->. Qed.

(** Decoding the struct of [fs]: each read finds the value of the field of its name. *)
Lemma with_decoder_Struct {A} fs names (body : DEC A) a :
  NoDup (map Name fs) → names ≡ₚ map Name fs →
  (∀ d, (∀ f, f ∈ fs → field_at d (Name f) = Value f) → body d = (a, d)) →
  with_decoder (Struct fs) names body = Ok a.
Proof.
  intros Hfs Hn Hbody. destruct (newDecoder_Struct fs names Hfs Hn) as (r & E & Hr).
  unfold with_decoder. rewrite E. cbn [err]. by rewrite Hbody.
Qed.

Lemma optionU32Of_val o : optionU32Of (option_u32_val o) = Ok o.
Proof. by destruct o. Qed.

End vault.

(** Reads one field through the hypothesis [Hd] on the struct's fields. *)
Ltac read_field Hd :=
  erewrite DEC_bind_get;
  [|eapply d_read_get;
    [match goal with |- field_at _ ?n = _ => eapply (Hd (mkField n _)); repeat first [left | right] end
    |first [reflexivity | eassumption]]].

(** Turns the encoder's successes into what the decoder's reads give. *)
Ltac encoded :=
  repeat match goal with
  | H : mbind _ _ = Ok _ |- _ => apply bind_Ok in H as (? & ? & H)
  | H : Address _ = Ok _ |- _ => apply addressOf_Address in H
  | H : I128 _ = Ok _ |- _ => apply I128_inv in H
  | H : mret _ = Ok _ |- _ => injection H as <-
  end.

Ltac distinct_names := apply (bool_decide_unpack (NoDup _)); vm_compute; exact I.

(** Decodes a struct the encoder built, field by field. *)
Ltac decode_struct :=
  encoded; apply with_decoder_Struct;
  [distinct_names|reflexivity|let d := fresh "d" in let Hd := fresh "Hd" in intros d Hd;
    repeat read_field Hd; try reflexivity].

Section roundtrip.
Context {sdk : StellarSDK} {laws : StellarSDKLaws sdk}.

Lemma decode_limits_encoded l v : encode_limits l = Ok v → DecodeLimits v = Ok l.
Proof. intros H. unfold encode_limits in H. destruct l. cbn in H. decode_struct. Qed.

Lemma decode_status_encoded s v : encode_status s = Ok v → DecodeStatus v = Ok s.
Proof. intros H. unfold encode_status in H. destruct s. cbn in H. decode_struct. Qed.

Lemma decode_exit_encoded e v : encode_exit e = Ok v → DecodeExit v = Ok e.
Proof. intros H. unfold encode_exit in H. destruct e. cbn in H. decode_struct. Qed.

Lemma decode_config_encoded c v : fr.valid (Domain c) → encode_config c = Ok v →
  DecodeConfig v = Ok c.
Proof.
  intros Hv%fieldOf_U256 H. unfold encode_config in H. destruct c. cbn in H, Hv. decode_struct.
Qed.

Lemma decode_queued_encoded q v : encode_queued q = Ok v → DecodeQueuedLimits v = Ok q.
Proof.
  intros H. unfold encode_queued in H. destruct q as [l ready].
  cbn [QLimits QReadyAt] in H. apply bind_Ok in H as (lv & Hl & [= <-]).
  apply decode_limits_encoded in Hl. unfold DecodeQueuedLimits, decode_limits_at.
  destruct (newDecoder_Struct [mkField "limits" lv; mkField "ready_at" (U64 ready)] queuedFields)
    as (r & E & Hr); [distinct_names|reflexivity|].
  rewrite E. cbn [err].
  replace (field_at (mkDecoder r None) "limits") with lv
    by (symmetry; apply (Hr (mkField "limits" lv)); left).
  rewrite Hl, Ok_bind.
  unfold d_u64. erewrite d_read_get; [|apply (Hr (mkField "ready_at" (U64 ready))); set_solver|done].
  done.
Qed.

Lemma decode_pending_encoded d v : fr.valid (Commitment0 d) → fr.valid (Commitment1 d) →
  encode_pending d = Ok v → DecodePendingDeposit v = Ok d.
Proof.
  intros H0%fieldOf_U256 H1%fieldOf_U256 H. pose proof (optionU32Of_val (Flag d)) as Hf.
  unfold encode_pending in H. destruct d. cbn in H, H0, H1, Hf. decode_struct.
Qed.

Lemma mapM_fieldOf_valid items roots : mapM fieldOf items = Ok roots →
  length roots = length items ∧ Forall fr.valid roots.
Proof.
  revert roots. induction items as [|v items IH]; intros roots; cbn [mapM]; [by intros [= <-]|].
  rewrite bind_Ok. intros (e & He & H). apply bind_Ok in H as (es & Hes & [= <-]).
  destruct (IH es Hes) as [Hl Hv]. split; [cbn; by rewrite Hl|].
  apply Forall_cons; split; [by eapply fieldOf_valid|done].
Qed.

End roundtrip.

Lemma DecodeRootRing_inv v r : DecodeRootRing v = Ok r →
  Z.of_nat (length (Roots r)) = RootHistory ∧ Forall fr.valid (Roots r) ∧ Newest r < RootHistory.
Proof.
  unfold DecodeRootRing. destruct (err (newDecoder v ringFields)); [done|].
  rewrite bind_Ok. intros (items & _ & H). apply bind_Ok in H as ([] & Hl%fail_if_Ok & H).
  destruct (d_u32 _ _) as [newest d]. apply bind_Ok in H as (roots & Hr & H).
  destruct (err d); [done|]. apply bind_Ok in H as ([] & Hn%fail_if_Ok & [= <-]).
  apply mapM_fieldOf_valid in Hr as [Hr Hv]. cbn [Roots Newest]. rewrite Hr.
  apply negb_false_iff, Z.eqb_eq in Hl. apply Z.leb_gt in Hn. done.
Qed.

(** * Properties *)

(** Every entry decoder of state.go reads back what the vault's struct encoding holds: for each
    of Config, Limits, QueuedLimits, Status, Exit and PendingDeposit, a value the encoders accept
    decodes to itself, each field from the field of its own name. *)
Theorem entries_roundtrip {sdk : StellarSDK} {laws : StellarSDKLaws sdk} (v : ScVal) :
  (∀ c, fr.valid (Domain c) → encode_config c = Ok v → DecodeConfig v = Ok c) ∧
  (∀ l, encode_limits l = Ok v → DecodeLimits v = Ok l) ∧
  (∀ q, encode_queued q = Ok v → DecodeQueuedLimits v = Ok q) ∧
  (∀ s, encode_status s = Ok v → DecodeStatus v = Ok s) ∧
  (∀ e, encode_exit e = Ok v → DecodeExit v = Ok e) ∧
  (∀ d, fr.valid (Commitment0 d) → fr.valid (Commitment1 d) → encode_pending d = Ok v →
     DecodePendingDeposit v = Ok d).
Proof.
  split; [intros c; apply decode_config_encoded|]. split; [intros l; apply decode_limits_encoded|].
  split; [intros q; apply decode_queued_encoded|]. split; [intros s; apply decode_status_encoded|].
  split; [intros e; apply decode_exit_encoded|]. intros d; apply decode_pending_encoded.
Qed.

(** The exit of 25 with a fee of 3 from an account to a contract, with the example SDK. *)
Lemma entries_roundtrip_witness :
  let S := example.sdk [] in
  let e := mkExit (example.account 1) 25 (example.contract 2) 3 1700000000 in
  ∃ v, @encode_exit S e = Ok v ∧ @DecodeExit S v = Ok e.
Proof.
  intros S e. destruct (@encode_exit S e) as [v|] eqn:E; [|exfalso; vm_compute in E; discriminate E].
  exists v. split; [reflexivity|].
  apply (@entries_roundtrip S (example.sdk_laws []) v). exact E.
Defined.

(** A root ring [DecodeRootRing] accepts holds exactly 256 canonical roots and a newest index
    below 256, so reading the current root never runs out of the ring and gives a field element. *)
Theorem root_ring_in_bounds (v : ScVal) (r : RootRing) (H : DecodeRootRing v = Ok r) :
  Z.of_nat (length (Roots r)) = RootHistory ∧ Forall fr.valid (Roots r) ∧
  Newest r < RootHistory ∧ ∃ e, Current r = Some e ∧ fr.valid e.
Proof.
  apply DecodeRootRing_inv in H as (Hl & Hv & Hn). split; [done|]. split; [done|]. split; [done|].
  unfold Current. destruct (lookup_lt_is_Some_2 (Roots r) (Z.to_nat (Newest r))) as [e He].
  { unfold RootHistory in *. lia. }
  exists e. split; [done|]. by eapply Forall_lookup_1 in Hv.
Qed.

Lemma root_ring_witness :
  let ring := Struct [mkField "newest" (U32 255);
    mkField "roots" (Vec (repeat (U256 (fr.Bytes fr.zero)) 256))] in
  ∃ r, DecodeRootRing ring = Ok r ∧ ∃ e, Current r = Some e ∧ fr.valid e.
Proof.
  intros ring. destruct (DecodeRootRing ring) as [r|] eqn:E; [|exfalso; vm_compute in E; discriminate E].
  exists r. split; [reflexivity|]. exact (proj2 (proj2 (proj2 (root_ring_in_bounds ring r E)))).
Defined.

(** The earliest admission time never wraps: it is the deposit time plus the longer of the two
    delays, cut at the largest 64-bit time. *)
Theorem eligible_at_saturates (d : PendingDeposit) (cfg : Config) (limits : Limits)
    (Hc : is_u64 (CreatedAt d)) (Hd : is_u64 (Delay d)) (Hs : is_u64 (DelaySmall cfg))
    (Hl : is_u64 (DelayLarge cfg)) :
  EligibleAt d cfg limits =
    Z.min MaxUint64 (CreatedAt d + Z.max (Delay d)
      (if LargeDepositThreshold limits <=? Amount d then DelayLarge cfg else DelaySmall cfg)) ∧
  is_u64 (EligibleAt d cfg limits) ∧ CreatedAt d <= EligibleAt d cfg limits.
Proof.
  unfold EligibleAt. fold (DelayFor (Amount d) cfg limits).
  assert (is_u64 (DelayFor (Amount d) cfg limits)) as Hf
    by (unfold DelayFor; by destruct (_ <=? _)).
  set (delay := Z.max (Delay d) _).
  assert (is_u64 delay) as Hdel by (subst delay; unfold is_u64 in *; lia).
  rewrite u64_small by (unfold is_u64, MaxUint64, W64 in *; lia).
  destruct (Z.ltb_spec (MaxUint64 - delay) (CreatedAt d)).
  - unfold is_u64, MaxUint64, W64 in *. lia.
  - rewrite u64_small by (unfold is_u64, MaxUint64, W64 in *; lia).
    unfold is_u64, MaxUint64, W64 in *. lia.
Qed.

Lemma eligible_at_witness :
  let d := mkPendingDeposit "" 5 fr.zero fr.zero [] [] 18446744073709551610 600 None 0 in
  let cfg := mkConfig "" fr.zero "" "" 60 86400 in
  let limits := mkLimits 1 10 10 100 100 1 5 in
  EligibleAt d cfg limits = 18446744073709551615.
Proof.
  intros d cfg limits.
  destruct (eligible_at_saturates d cfg limits) as [-> _]; [split; vm_compute; congruence..|].
  vm_compute. reflexivity.
Defined.

End vault.
