(* ===== verification/Events.v ===== *)
(** The vault's events of [services/internal/vault/events.go]: their chain position, what a raw
    event must look like, the body of each of the eighteen topics and the decoder that reads them. *)
From S2P Require Import Prelude.
From S2P Require Import Fr.
From S2P Require Import Xdr.
From S2P Require Import ScVal.
From S2P Require Import VaultState.

Module events.

Import scval.

(** Of extdata.go: the length of an encrypted output. *)
Definition CiphertextLen : Z := 181.

(** [RawEvent] is a vault event as it appears on chain, with its position in the ledger. [Tx] is
    the 1-based application order of the transaction in its ledger. *)
Record RawEvent : Type := mkRawEvent {
  Ledger : Z; ClosedAt : Z; TxHash : string; Tx : Z; Op : Z; Index : Z; Contract : string;
  Topics : list string; Value : string }.

Definition maxEventBytes : Z := Z.shiftl 32 10.

(** [strings.Trim] of the characters that satisfy [cut], on the characters of a string. *)
Fixpoint trim_left (cut : Ascii.ascii → bool) (s : list Ascii.ascii) : list Ascii.ascii :=
  match s with
  | c :: s' => if cut c then trim_left cut s' else s
  | [] => []
  end.
Definition trim (cut : Ascii.ascii → bool) (s : list Ascii.ascii) : list Ascii.ascii :=
  rev (trim_left cut (rev (trim_left cut s))).

Definition lower_hex (c : Ascii.ascii) : bool :=
  bool_decide (c ∈ String.list_ascii_of_string "0123456789abcdef").

(** [Position] orders events in chain order. *)
Record Position : Type := mkPosition { PLedger : Z; PTx : Z; POp : Z; PIndex : Z }.

(** [Pos] returns the event's position. *)
Definition Pos (r : RawEvent) : Position := mkPosition (Ledger r) (Tx r) (Op r) (Index r).

(** [Less] reports whether p comes before o. *)
Definition Less (p o : Position) : bool :=
  if negb (PLedger p =? PLedger o) then PLedger p <? PLedger o
  else if negb (PTx p =? PTx o) then PTx p <? PTx o
  else if negb (POp p =? POp o) then POp p <? POp o
  else PIndex p <? PIndex o.

(** [ErrUnknownTopic] reports an event the vault never emits. *)
Definition ErrUnknownTopic : gerr := Sentinel "vault: unknown event topic".

(** ** Event bodies *)

Record DepositPending : Type := mkDepositPending {
  DP_ID : Z; DP_Depositor : string; DP_Amount : Z; DP_Commitment0 : fr.Element;
  DP_Commitment1 : fr.Element; DP_CreatedAt : Z }.
Record DepositFlagged : Type := mkDepositFlagged { DF_ID : Z; DF_Reason : Z }.
Record DepositUnflagged : Type := mkDepositUnflagged { DU_ID : Z; DU_Reason : Z }.
Record Attested : Type := mkAttested { A_UpTo : Z }.
Record DepositAdmitted : Type := mkDepositAdmitted {
  DA_ID : Z; DA_LeafIndex0 : Z; DA_LeafIndex1 : Z }.
Record DepositRefunded : Type := mkDepositRefunded { DR_ID : Z; DR_Reason : Z }.
Record NewCommitment : Type := mkNewCommitment {
  NC_Index : Z; NC_Commitment : fr.Element; NC_Ciphertext : list Z }.
Record NewNullifier : Type := mkNewNullifier { NN_Nullifier : fr.Element }.
Record Settled : Type := mkSettled {
  S_ExtAmount : Z; S_Fee : Z; S_Recipient : string; S_Relayer : string; S_ExitID : option Z }.
Record ExitQueued : Type := mkExitQueued {
  EQ_ID : Z; EQ_ExtAmount : Z; EQ_Fee : Z; EQ_Recipient : string; EQ_Relayer : string }.
Record ExitPaid : Type := mkExitPaid {
  EP_ID : Z; EP_PayoutPaid : Z; EP_FeePaid : Z; EP_PayoutLeft : Z; EP_FeeLeft : Z }.
Record ExitStranded : Type := mkExitStranded { ES_ID : Z; ES_Payout : Z; ES_Fee : Z }.
Record ExitRequeued : Type := mkExitRequeued {
  ER_ID : Z; ER_NewID : Z; ER_Payout : Z; ER_Fee : Z }.
Record Paused : Type := mkPaused { P_Deposits : bool; P_Transfers : bool }.
Record Halted : Type := mkHalted { H_Until : Z }.
Record Resumed : Type := mkResumed { R_NextHaltAt : Z }.
(** [LimitsChange] is the data of limits_queued, limits_applied and limits_cancelled. *)
Record LimitsChange : Type := mkLimitsChange { LC_Limits : vault.Limits; LC_ReadyAt : Z }.

(** The [any] of [Event.Body]: one of the event types. *)
Inductive Body : Type :=
| BDepositPending (e : DepositPending)
| BDepositFlagged (e : DepositFlagged)
| BDepositUnflagged (e : DepositUnflagged)
| BAttested (e : Attested)
| BDepositAdmitted (e : DepositAdmitted)
| BDepositRefunded (e : DepositRefunded)
| BNewCommitment (e : NewCommitment)
| BNewNullifier (e : NewNullifier)
| BSettled (e : Settled)
| BExitQueued (e : ExitQueued)
| BExitPaid (e : ExitPaid)
| BExitStranded (e : ExitStranded)
| BExitRequeued (e : ExitRequeued)
| BPaused (e : Paused)
| BHalted (e : Halted)
| BResumed (e : Resumed)
| BLimitsQueued (e : LimitsChange)
| BLimitsApplied (e : LimitsChange)
| BLimitsCancelled (e : LimitsChange).

(** [Event] is a decoded vault event. *)
Record Event : Type := mkEvent { Raw : RawEvent; EName : string; EBody : Body }.

(** [xdr.ContractEvent]: the topics and data of a version 0 body, and the contract, if it has one. *)
Record ContractEvent : Type := mkContractEvent {
  CE_V : Z; CE_V0 : option (list ScVal * ScVal); CE_ContractId : option (list Z) }.

Section events.
Context {sdk : StellarSDK}.

(** [Valid] reports a raw event whose fields could have come from the chain; [None] is no error. *)
Definition Valid (r : RawEvent) : option gerr :=
  if (Ledger r =? 0) || (ClosedAt r <=? 0) then
    Some (malformed "event without a ledger or close time" [])
  else if negb (String.length (TxHash r) =? 64)%nat
       || negb (length (trim lower_hex (String.list_ascii_of_string (TxHash r))) =? 0)%nat then
    Some (malformed "transaction hash %.80q" [FStr (TxHash r)])
  else if negb (bool_decide (is_Some (strkey_decode VersionContract (Contract r)))) then
    Some (malformed "contract %.80q" [FStr (Contract r)])
  else if (length (Topics r) =? 0)%nat || (4 <? length (Topics r))%nat then
    Some (malformed "event with %d topics" [FInt (Z.of_nat (length (Topics r)))])
  else
    let size := foldl (λ size t, size + Z.of_nat (String.length t))
                  (Z.of_nat (String.length (Value r))) (Topics r) in
    if maxEventBytes <? size then Some (malformed "event of %d bytes" [FInt size]) else None.

(** [RawFromXDR] converts a contract event from transaction metadata. The position fields are the
    caller's to fill. *)
Definition RawFromXDR (e : ContractEvent) : res RawEvent :=
  match CE_V0 e, CE_ContractId e with
  | Some (ts, data), Some id =>
      topics ← mapM (λ t, match marshal_base64 t with
                          | Some s => Ok s | None => Fail (Sentinel "xdr: marshal") end) ts;
      match marshal_base64 data with
      | Some value =>
          match strkey_encode VersionContract id with
          | Some contract => Ok (mkRawEvent 0 0 "" 0 0 0 contract topics value)
          | None => Fail (Sentinel "strkey: encode")
          end
      | None => Fail (Sentinel "xdr: marshal")
      end
  | _, _ => Fail (malformed "event body version %d" [FInt (CE_V e)])
  end.

(** ** The decoders, by topic *)

Definition decode_deposit_pending (v : ScVal) : res Body :=
  e ← vault.with_decoder v ["id"; "depositor"; "amount"; "commitment0"; "commitment1"; "created_at"]%string (
    id ← vault.d_u64 "id"; dep ← vault.d_address "depositor"; am ← vault.d_i128 "amount";
    c0 ← vault.d_field "commitment0"; c1 ← vault.d_field "commitment1";
    ca ← vault.d_u64 "created_at"; mret (mkDepositPending id dep am c0 c1 ca));
  _ ← fail_if (Z.sgn (DP_Amount e) <=? 0) (malformed "deposit of %v" [FInt (DP_Amount e)]);
  mret (BDepositPending e).

Definition decode_deposit_flagged (v : ScVal) : res Body :=
  e ← vault.with_decoder v ["id"; "reason"]%string (
    id ← vault.d_u64 "id"; r ← vault.d_u32 "reason"; mret (mkDepositFlagged id r));
  _ ← fail_if (DF_Reason e =? 0) (malformed "flag with reason 0" []);
  mret (BDepositFlagged e).

Definition decode_deposit_unflagged (v : ScVal) : res Body :=
  vault.with_decoder v ["id"; "reason"]%string (
    id ← vault.d_u64 "id"; r ← vault.d_u32 "reason"; mret (BDepositUnflagged (mkDepositUnflagged id r))).

Definition decode_attested (v : ScVal) : res Body :=
  vault.with_decoder v ["up_to"]%string (
    u ← vault.d_u64 "up_to"; mret (BAttested (mkAttested u))).

Definition decode_deposit_admitted (v : ScVal) : res Body :=
  vault.with_decoder v ["id"; "leaf_index0"; "leaf_index1"]%string (
    id ← vault.d_u64 "id"; l0 ← vault.d_u64 "leaf_index0"; l1 ← vault.d_u64 "leaf_index1";
    mret (BDepositAdmitted (mkDepositAdmitted id l0 l1))).

Definition decode_deposit_refunded (v : ScVal) : res Body :=
  vault.with_decoder v ["id"; "reason"]%string (
    id ← vault.d_u64 "id"; r ← vault.d_u32 "reason"; mret (BDepositRefunded (mkDepositRefunded id r))).

Definition decode_new_commitment (v : ScVal) : res Body :=
  e ← vault.with_decoder v ["index"; "commitment"; "encrypted_output"]%string (
    i ← vault.d_u64 "index"; c ← vault.d_field "commitment"; b ← vault.d_bytes "encrypted_output";
    mret (mkNewCommitment i c b));
  _ ← fail_if (negb (Z.of_nat (length (NC_Ciphertext e)) =? CiphertextLen))
        (malformed "ciphertext of %d bytes" [FInt (Z.of_nat (length (NC_Ciphertext e)))]);
  mret (BNewCommitment e).

Definition decode_new_nullifier (v : ScVal) : res Body :=
  vault.with_decoder v ["nullifier"]%string (
    n ← vault.d_field "nullifier"; mret (BNewNullifier (mkNewNullifier n))).

Definition decode_settled (v : ScVal) : res Body :=
  e ← vault.with_decoder v ["ext_amount"; "fee"; "recipient"; "relayer"; "exit_id"]%string (
    exit ← vault.d_read optionU64Of None "exit_id";
    x ← vault.d_i128 "ext_amount"; f ← vault.d_i128 "fee"; r ← vault.d_address "recipient";
    l ← vault.d_address "relayer"; mret (mkSettled x f r l exit));
  _ ← fail_if ((0 <? Z.sgn (S_ExtAmount e)) || (Z.sgn (S_Fee e) <? 0))
        (malformed "settled with ext_amount %v and fee %v" [FInt (S_ExtAmount e); FInt (S_Fee e)]);
  mret (BSettled e).

Definition decode_exit_queued (v : ScVal) : res Body :=
  e ← vault.with_decoder v ["id"; "ext_amount"; "fee"; "recipient"; "relayer"]%string (
    id ← vault.d_u64 "id"; x ← vault.d_i128 "ext_amount"; f ← vault.d_i128 "fee";
    r ← vault.d_address "recipient"; l ← vault.d_address "relayer"; mret (mkExitQueued id x f r l));
  _ ← fail_if ((0 <? Z.sgn (EQ_ExtAmount e)) || (Z.sgn (EQ_Fee e) <? 0) ||
               (Z.sgn (EQ_Fee e - EQ_ExtAmount e) <=? 0))
        (malformed "queued exit with ext_amount %v and fee %v" [FInt (EQ_ExtAmount e); FInt (EQ_Fee e)]);
  mret (BExitQueued e).

Definition decode_exit_paid (v : ScVal) : res Body :=
  e ← vault.with_decoder v ["id"; "payout_paid"; "fee_paid"; "payout_left"; "fee_left"]%string (
    id ← vault.d_u64 "id"; pp ← vault.d_i128 "payout_paid"; fp ← vault.d_i128 "fee_paid";
    pl ← vault.d_i128 "payout_left"; fl ← vault.d_i128 "fee_left"; mret (mkExitPaid id pp fp pl fl));
  _ ← fail_if (existsb (λ n, Z.sgn n <? 0)
                 [EP_PayoutPaid e; EP_FeePaid e; EP_PayoutLeft e; EP_FeeLeft e])
        (malformed "exit part payment with a negative part" []);
  _ ← fail_if ((Z.sgn (EP_PayoutPaid e) + Z.sgn (EP_FeePaid e) =? 0) ||
               (Z.sgn (EP_PayoutLeft e) + Z.sgn (EP_FeeLeft e) =? 0))
        (malformed "exit part payment that pays nothing or leaves nothing" []);
  mret (BExitPaid e).

Definition decode_exit_requeued (v : ScVal) : res Body :=
  e ← vault.with_decoder v ["id"; "new_id"; "payout"; "fee"]%string (
    id ← vault.d_u64 "id"; n ← vault.d_u64 "new_id"; p ← vault.d_i128 "payout";
    f ← vault.d_i128 "fee"; mret (mkExitRequeued id n p f));
  _ ← fail_if ((Z.sgn (ER_Payout e) <? 0) || (Z.sgn (ER_Fee e) <? 0) ||
               (Z.sgn (ER_Payout e) + Z.sgn (ER_Fee e) =? 0) || (ER_NewID e <=? ER_ID e))
        (malformed "requeued exit %d as %d with payout %v and fee %v"
           [FInt (ER_ID e); FInt (ER_NewID e); FInt (ER_Payout e); FInt (ER_Fee e)]);
  mret (BExitRequeued e).

Definition decode_exit_stranded (v : ScVal) : res Body :=
  e ← vault.with_decoder v ["id"; "payout"; "fee"]%string (
    id ← vault.d_u64 "id"; p ← vault.d_i128 "payout"; f ← vault.d_i128 "fee";
    mret (mkExitStranded id p f));
  _ ← fail_if ((Z.sgn (ES_Payout e) <? 0) || (Z.sgn (ES_Fee e) <? 0) ||
               (Z.sgn (ES_Payout e) + Z.sgn (ES_Fee e) =? 0))
        (malformed "stranded exit with payout %v and fee %v" [FInt (ES_Payout e); FInt (ES_Fee e)]);
  mret (BExitStranded e).

Definition decode_paused (v : ScVal) : res Body :=
  vault.with_decoder v ["deposits"; "transfers"]%string (
    d ← vault.d_bool "deposits"; t ← vault.d_bool "transfers"; mret (BPaused (mkPaused d t))).

Definition decode_halted (v : ScVal) : res Body :=
  vault.with_decoder v ["until"]%string (
    u ← vault.d_u64 "until"; mret (BHalted (mkHalted u))).

Definition decode_resumed (v : ScVal) : res Body :=
  vault.with_decoder v ["next_halt_at"]%string (
    n ← vault.d_u64 "next_halt_at"; mret (BResumed (mkResumed n))).

Definition decodeLimitsChange (v : ScVal) : res LimitsChange :=
  '(limits, ready) ← vault.decode_limits_at v; mret (mkLimitsChange limits ready).

Definition decoders : list (string * (ScVal → res Body)) :=
  [("deposit_pending", decode_deposit_pending);
   ("deposit_flagged", decode_deposit_flagged);
   ("deposit_unflagged", decode_deposit_unflagged);
   ("attested", decode_attested);
   ("deposit_admitted", decode_deposit_admitted);
   ("deposit_refunded", decode_deposit_refunded);
   ("new_commitment", decode_new_commitment);
   ("new_nullifier", decode_new_nullifier);
   ("settled", decode_settled);
   ("exit_queued", decode_exit_queued);
   ("exit_paid", decode_exit_paid);
   ("exit_requeued", decode_exit_requeued);
   ("exit_stranded", decode_exit_stranded);
   ("paused", decode_paused);
   ("halted", decode_halted);
   ("resumed", decode_resumed);
   ("limits_queued", λ v, c ← decodeLimitsChange v; mret (BLimitsQueued c));
   ("limits_applied", λ v, c ← decodeLimitsChange v; mret (BLimitsApplied c));
   ("limits_cancelled", λ v, c ← decodeLimitsChange v; mret (BLimitsCancelled c))]%string.

(** [decoders[name]] *)
Fixpoint lookup_decoder {A} (table : list (string * A)) (name : string) : option A :=
  match table with
  | [] => None
  | (n, d) :: table => if String.eqb n name then Some d else lookup_decoder table name
  end.

(** [Decode] dispatches on the topic before it reads the data, so an unknown event never reaches a
    data decoder. *)
Definition Decode (raw : RawEvent) : res Event :=
  match Topics raw with
  | [t] =>
      match unmarshal_base64 t with
      | None => Fail (malformed "topic: %v" [FOther])
      | Some topic =>
          match symbolOf topic with
          | None => Fail (malformed "topic is not a symbol" [])
          | Some name =>
              match lookup_decoder decoders name with
              | None => Fail (Wrapf ErrUnknownTopic "%q" [FStr name])
              | Some decode =>
                  match unmarshal_base64 (Value raw) with
                  | None => Fail (malformed "%s data: %v" [FStr name; FOther])
                  | Some value =>
                      body ← or_fail (decode value) (λ e, Wrapf e "%s: %w" [FStr name]);
                      mret (mkEvent raw name body)
                  end
              end
          end
      end
  | ts => Fail (malformed "event with %d topics" [FInt (Z.of_nat (length ts))])
  end.

(** ** The contract's encoding of an event, and what makes its body well formed *)

Definition option_u64_val (o : option Z) : ScVal :=
  match o with Some n => U64 n | None => ScvVoid end.

Definition encode_limits_change (c : LimitsChange) : res ScVal :=
  vault.encode_queued (vault.mkQueuedLimits (LC_Limits c) (LC_ReadyAt c)).

Definition encode_body (b : Body) : res ScVal :=
  match b with
  | BDepositPending e =>
      d ← Address (DP_Depositor e); a ← I128 (DP_Amount e);
      mret (Struct [mkField "id" (U64 (DP_ID e)); mkField "depositor" d; mkField "amount" a;
        mkField "commitment0" (vault.field_val (DP_Commitment0 e));
        mkField "commitment1" (vault.field_val (DP_Commitment1 e));
        mkField "created_at" (U64 (DP_CreatedAt e))])
  | BDepositFlagged e =>
      Ok (Struct [mkField "id" (U64 (DF_ID e)); mkField "reason" (U32 (DF_Reason e))])
  | BDepositUnflagged e =>
      Ok (Struct [mkField "id" (U64 (DU_ID e)); mkField "reason" (U32 (DU_Reason e))])
  | BAttested e => Ok (Struct [mkField "up_to" (U64 (A_UpTo e))])
  | BDepositAdmitted e =>
      Ok (Struct [mkField "id" (U64 (DA_ID e)); mkField "leaf_index0" (U64 (DA_LeafIndex0 e));
        mkField "leaf_index1" (U64 (DA_LeafIndex1 e))])
  | BDepositRefunded e =>
      Ok (Struct [mkField "id" (U64 (DR_ID e)); mkField "reason" (U32 (DR_Reason e))])
  | BNewCommitment e =>
      Ok (Struct [mkField "index" (U64 (NC_Index e));
        mkField "commitment" (vault.field_val (NC_Commitment e));
        mkField "encrypted_output" (Bytes (NC_Ciphertext e))])
  | BNewNullifier e => Ok (Struct [mkField "nullifier" (vault.field_val (NN_Nullifier e))])
  | BSettled e =>
      x ← I128 (S_ExtAmount e); f ← I128 (S_Fee e); r ← Address (S_Recipient e);
      l ← Address (S_Relayer e);
      mret (Struct [mkField "ext_amount" x; mkField "fee" f; mkField "recipient" r;
        mkField "relayer" l; mkField "exit_id" (option_u64_val (S_ExitID e))])
  | BExitQueued e =>
      x ← I128 (EQ_ExtAmount e); f ← I128 (EQ_Fee e); r ← Address (EQ_Recipient e);
      l ← Address (EQ_Relayer e);
      mret (Struct [mkField "id" (U64 (EQ_ID e)); mkField "ext_amount" x; mkField "fee" f;
        mkField "recipient" r; mkField "relayer" l])
  | BExitPaid e =>
      a ← I128 (EP_PayoutPaid e); b ← I128 (EP_FeePaid e); c ← I128 (EP_PayoutLeft e);
      d ← I128 (EP_FeeLeft e);
      mret (Struct [mkField "id" (U64 (EP_ID e)); mkField "payout_paid" a; mkField "fee_paid" b;
        mkField "payout_left" c; mkField "fee_left" d])
  | BExitStranded e =>
      p ← I128 (ES_Payout e); f ← I128 (ES_Fee e);
      mret (Struct [mkField "id" (U64 (ES_ID e)); mkField "payout" p; mkField "fee" f])
  | BExitRequeued e =>
      p ← I128 (ER_Payout e); f ← I128 (ER_Fee e);
      mret (Struct [mkField "id" (U64 (ER_ID e)); mkField "new_id" (U64 (ER_NewID e));
        mkField "payout" p; mkField "fee" f])
  | BPaused e =>
      Ok (Struct [mkField "deposits" (Bool (P_Deposits e)); mkField "transfers" (Bool (P_Transfers e))])
  | BHalted e => Ok (Struct [mkField "until" (U64 (H_Until e))])
  | BResumed e => Ok (Struct [mkField "next_halt_at" (U64 (R_NextHaltAt e))])
  | BLimitsQueued c | BLimitsApplied c | BLimitsCancelled c => encode_limits_change c
  end.

(** The topic of a body, as the vault emits it. *)
Definition topic (b : Body) : string :=
  match b with
  | BDepositPending _ => "deposit_pending" | BDepositFlagged _ => "deposit_flagged"
  | BDepositUnflagged _ => "deposit_unflagged" | BAttested _ => "attested"
  | BDepositAdmitted _ => "deposit_admitted" | BDepositRefunded _ => "deposit_refunded"
  | BNewCommitment _ => "new_commitment" | BNewNullifier _ => "new_nullifier"
  | BSettled _ => "settled" | BExitQueued _ => "exit_queued" | BExitPaid _ => "exit_paid"
  | BExitStranded _ => "exit_stranded" | BExitRequeued _ => "exit_requeued"
  | BPaused _ => "paused" | BHalted _ => "halted" | BResumed _ => "resumed"
  | BLimitsQueued _ => "limits_queued" | BLimitsApplied _ => "limits_applied"
  | BLimitsCancelled _ => "limits_cancelled"
  end%string.

(** What the vault guarantees of each body's values. *)
Definition body_ok (b : Body) : Prop :=
  match b with
  | BDepositPending e => 0 < DP_Amount e
  | BDepositFlagged e => DF_Reason e ≠ 0
  | BNewCommitment e => Z.of_nat (length (NC_Ciphertext e)) = CiphertextLen
  | BSettled e => S_ExtAmount e <= 0 ∧ 0 <= S_Fee e
  | BExitQueued e => EQ_ExtAmount e <= 0 ∧ 0 <= EQ_Fee e ∧ 0 < EQ_Fee e - EQ_ExtAmount e
  | BExitPaid e =>
      0 <= EP_PayoutPaid e ∧ 0 <= EP_FeePaid e ∧ 0 <= EP_PayoutLeft e ∧ 0 <= EP_FeeLeft e ∧
      0 < EP_PayoutPaid e + EP_FeePaid e ∧ 0 < EP_PayoutLeft e + EP_FeeLeft e
  | BExitStranded e => 0 <= ES_Payout e ∧ 0 <= ES_Fee e ∧ 0 < ES_Payout e + ES_Fee e
  | BExitRequeued e =>
      0 <= ER_Payout e ∧ 0 <= ER_Fee e ∧ 0 < ER_Payout e + ER_Fee e ∧ ER_ID e < ER_NewID e
  | _ => True
  end.

(** Its field elements are reduced, as the values of [fr.Element] always are. *)
Definition body_valid (b : Body) : Prop :=
  match b with
  | BDepositPending e => fr.valid (DP_Commitment0 e) ∧ fr.valid (DP_Commitment1 e)
  | BNewCommitment e => fr.valid (NC_Commitment e)
  | BNewNullifier e => fr.valid (NN_Nullifier e)
  | _ => True
  end.

#[global] Instance body_ok_dec b : Decision (body_ok b).
Proof. destruct b; cbn [body_ok]; apply _. Defined.

(** The decoder the table holds for the topic of a body. *)
Definition decode_as (name : string) (v : ScVal) : option (res Body) :=
  d ← lookup_decoder decoders name; Some (d v).

(** * Lemmas *)

Lemma optionU64Of_val o : optionU64Of (option_u64_val o) = Ok o.
Proof. by destruct o. Qed.

Lemma guard_decide {A} (c : bool) (P : Prop) `{!Decision P} e (a : A) : (c = false ↔ P) →
  (_ ← fail_if c e; mret a) = if decide P then Ok a else Fail e.
Proof.
  intros H. destruct (decide P) as [HP|HP], c; cbn; try done.
  - by apply H in HP.
  - by destruct HP; apply H.
Qed.

End events.

Create HintDb vault_decoders.
#[global] Hint Unfold decode_deposit_pending decode_deposit_flagged decode_deposit_unflagged
  decode_attested decode_deposit_admitted decode_deposit_refunded decode_new_commitment
  decode_new_nullifier decode_settled decode_exit_queued decode_exit_paid decode_exit_stranded
  decode_exit_requeued decode_paused decode_halted decode_resumed : vault_decoders.

(** The two steps of every decoder: the fields of the encoded struct, then its guards. *)
Ltac decode_event :=
  match goal with |- context[vault.with_decoder (Struct ?fs) ?names ?body] =>
    erewrite (vault.with_decoder_Struct fs names body);
    [|vault.distinct_names|reflexivity
     |let d := fresh "d" in let Hd := fresh "Hd" in intros d Hd; repeat vault.read_field Hd;
      reflexivity]
  end.

(** What a decoder gives for the encoding of [b]: [b] itself, or a malformed value error. *)
Definition guarded (b : Body) (r : res Body) : Prop :=
  if decide (body_ok b) then r = Ok b else ∃ format args, r = Fail (malformed format args).

Lemma guarded_ok b : body_ok b → guarded b (Ok b).
Proof. intros H. unfold guarded. by rewrite decide_True. Qed.

Lemma guarded_if b c format args : (c = false ↔ body_ok b) →
  guarded b (_ ← fail_if c (malformed format args); mret b).
Proof.
  intros H. unfold guarded. rewrite (guard_decide c (body_ok b)) by done.
  destruct (decide (body_ok b)); [done|by eexists _, _].
Qed.

Lemma guarded_if2 b c1 f1 a1 c2 f2 a2 : (c1 = false ∧ c2 = false ↔ body_ok b) →
  guarded b (_ ← fail_if c1 (malformed f1 a1); _ ← fail_if c2 (malformed f2 a2); mret b).
Proof.
  destruct c1; cbn; intros H.
  - unfold guarded. rewrite decide_False by (intros []%H; done). by eexists _, _.
  - apply guarded_if. rewrite <- H. naive_solver.
Qed.

Section decoded.
Context {sdk : StellarSDK} {laws : StellarSDKLaws sdk}.

Lemma limits_change_encoded c v : encode_limits_change c = Ok v → decodeLimitsChange v = Ok c.
Proof.
  destruct c as [cl cr]. intros H. apply (vault.decode_queued_encoded (vault.mkQueuedLimits cl cr)) in H.
  unfold decodeLimitsChange, vault.DecodeQueuedLimits in *.
  apply bind_Ok in H as ([l r] & -> & H). injection H as -> ->. reflexivity.
Qed.

Lemma decode_guarded b v : body_valid b → encode_body b = Ok v →
  ∃ r, decode_as (topic b) v = Some r ∧ guarded b r.
Proof.
  intros Hv H. destruct b as [e|e|e|e|e|e|e|e|e|e|e|e|e|e|e|e|e|e|e];
    (eexists; split; [reflexivity|]).
  all: try (cbn in H; apply limits_change_encoded in H; cbn beta; rewrite H;
            by apply guarded_ok).
  all: unfold encode_body in H; destruct e; cbn in H, Hv; vault.encoded.
  all: try (injection H as <-).
  all: try match type of Hv with
    | _ ∧ _ => destruct Hv as [?%fieldOf_U256 ?%fieldOf_U256]
    | fr.valid _ => apply fieldOf_U256 in Hv
    end.
  all: try pose proof (optionU64Of_val S_ExitID0).
  all: autounfold with vault_decoders; decode_event.
  all: first [apply guarded_ok; exact I | apply guarded_if; cbn; lia | apply guarded_if2; cbn; lia].
Qed.

(** *** What a successful decode says of any value *)

Lemma with_decoder_Ok {A} v names (body : vault.DEC A) a :
  vault.with_decoder v names body = Ok a →
  ∃ d d', body d = (a, d') ∧ vault.err d' = None.
Proof.
  unfold vault.with_decoder. destruct (vault.err (vault.newDecoder v names)); [done|].
  destruct (body _) as [a' d'] eqn:E. destruct (vault.err d') eqn:E'; [done|]. intros [= ->]. eauto.
Qed.

Lemma d_read_Ok {A} (get : ScVal → res A) zero name d a d' :
  vault.d_read get zero name d = (a, d') → vault.err d' = None →
  vault.err d = None ∧ d' = d ∧ get (vault.field_at d name) = Ok a.
Proof.
  unfold vault.d_read, vault.keep. destruct d as [f [e|]]; cbn; destruct (get _) as [x|x]; cbn;
    intros [= <- <-]; cbn; try done.
Qed.

Lemma DEC_bind_Ok {A B} (m : vault.DEC A) (f : A → vault.DEC B) d b d' :
  mbind f m d = (b, d') ↔ ∃ a d1, m d = (a, d1) ∧ f a d1 = (b, d').
Proof.
  unfold mbind, vault.DEC_bind. destruct (m d) as [a d1]. split; [by eauto|].
  by intros (? & ? & [= -> ->] & H).
Qed.

Lemma DEC_ret_Ok {A} (a b : A) d d' : (mret a : vault.DEC A) d = (b, d') ↔ a = b ∧ d = d'.
Proof. unfold mret, vault.DEC_ret. naive_solver. Qed.

End decoded.

(** Opens a successful decode into its reads and its guards. *)
Ltac decoded H :=
  repeat match type of H with
  | mbind _ (vault.with_decoder _ _ _) = Ok _ =>
      let e := fresh "e" in let E := fresh "E" in
      apply bind_Ok in H as (e & E & H);
      apply with_decoder_Ok in E as (? & ? & E & ?); destruct e
  | vault.with_decoder _ _ _ = Ok _ =>
      apply with_decoder_Ok in H as (? & ? & H & ?)
  | mbind _ (fail_if _ _) = Ok _ =>
      let G := fresh "G" in apply bind_Ok in H as ([] & G%fail_if_Ok & H)
  | mbind _ _ = Ok _ => apply bind_Ok in H as (? & _ & H)
  | mret _ = Ok _ => injection H as <-
  end;
  repeat match goal with
  | E : mbind _ _ ?d = (_, _) |- _ =>
      let R := fresh "R" in apply DEC_bind_Ok in E as (? & ? & R & E)
  | E : mret _ _ = (_, _) |- _ => apply DEC_ret_Ok in E as [E ?]; try injection E as <-; subst
  end;
  repeat match goal with
  | R : _ ?d = (_, ?d'), N : vault.err ?d' = None |- _ =>
      apply d_read_Ok in R as (? & -> & R); [|exact N]
  end;
  repeat match goal with
  | R : fieldOf _ = Ok _ |- _ => apply fieldOf_valid in R
  end.

Section dispatch.
Context {sdk : StellarSDK}.

Lemma decode_as_Ok name v b : decode_as name v = Some (Ok b) →
  name = topic b ∧ body_ok b ∧ body_valid b.
Proof.
  unfold decode_as. destruct (lookup_decoder decoders name) as [d|] eqn:L; [|done].
  cbn [mbind option_bind]. intros [= H]. unfold decoders in L. cbn [lookup_decoder] in L.
  repeat match type of L with
  | (if String.eqb ?n name then _ else _) = _ => destruct (String.eqb_spec n name) as [<-|]
  end.
  all: try done. all: injection L as <-.
  all: autounfold with vault_decoders in H; decoded H; cbn in *.
  all: split; [reflexivity|]; split; first [exact I | lia | assumption | done].
Qed.

Lemma lookup_decoder_None name : lookup_decoder decoders name = None ↔ ∀ b, topic b ≠ name.
Proof.
  split.
  - intros H b <-. by destruct b.
  - intros H. unfold decoders. cbn [lookup_decoder].
    repeat match goal with |- (if String.eqb ?n name then _ else _) = _ =>
      destruct (String.eqb_spec n name) as [E|_];
      [exfalso; revert E; match goal with |- ?n = name → _ =>
        let b := eval cbv in (let c := vault.mkLimits 0 0 0 0 0 0 0 in
          find (λ b, String.eqb (topic b) n)
            [BDepositPending (mkDepositPending 0 "" 0 fr.zero fr.zero 0);
             BDepositFlagged (mkDepositFlagged 0 0); BDepositUnflagged (mkDepositUnflagged 0 0);
             BAttested (mkAttested 0); BDepositAdmitted (mkDepositAdmitted 0 0 0);
             BDepositRefunded (mkDepositRefunded 0 0); BNewCommitment (mkNewCommitment 0 fr.zero []);
             BNewNullifier (mkNewNullifier fr.zero); BSettled (mkSettled 0 0 "" "" None);
             BExitQueued (mkExitQueued 0 0 0 "" ""); BExitPaid (mkExitPaid 0 0 0 0 0);
             BExitStranded (mkExitStranded 0 0 0); BExitRequeued (mkExitRequeued 0 0 0 0);
             BPaused (mkPaused false false); BHalted (mkHalted 0); BResumed (mkResumed 0);
             BLimitsQueued (mkLimitsChange c 0); BLimitsApplied (mkLimitsChange c 0);
             BLimitsCancelled (mkLimitsChange c 0)]) in
        match b with Some ?x => exact (H x) end end|]
    end.
    done.
Qed.

Lemma Decode_Ok raw ev : Decode raw = Ok ev →
  Raw ev = raw ∧ EName ev = topic (EBody ev) ∧ body_ok (EBody ev) ∧ body_valid (EBody ev).
Proof.
  intros H. unfold Decode in H. destruct (Topics raw) as [|t [|]]; [done| |done].
  destruct (unmarshal_base64 t) as [tv|]; [|done]. destruct (symbolOf tv) as [name|]; [|done].
  destruct (lookup_decoder decoders name) as [d|] eqn:L; [|done].
  destruct (unmarshal_base64 (Value raw)) as [v|]; [|done].
  apply bind_Ok in H as (b & Hb%or_fail_Ok & H). injection H as <-. cbn [Raw EName EBody].
  assert (decode_as name v = Some (Ok b)) as Ha by (unfold decode_as; by rewrite L, <- Hb).
  by apply decode_as_Ok in Ha as (-> & ? & ?).
Qed.

End dispatch.

(** *** Positions *)

#[global] Instance Position_eq_dec : EqDecision Position.
Proof. solve_decision. Defined.

Lemma Less_spec p o : Less p o = true ↔
  PLedger p < PLedger o ∨ (PLedger p = PLedger o ∧ (PTx p < PTx o ∨ (PTx p = PTx o ∧
    (POp p < POp o ∨ (POp p = POp o ∧ PIndex p < PIndex o))))).
Proof.
  unfold Less.
  destruct (Z.eqb_spec (PLedger p) (PLedger o)); cbn [negb]; [|lia].
  destruct (Z.eqb_spec (PTx p) (PTx o)); cbn [negb]; [|lia].
  destruct (Z.eqb_spec (POp p) (POp o)); cbn [negb]; lia.
Qed.

Lemma Less_trans p q r : Less p q = true → Less q r = true → Less p r = true.
Proof. rewrite !Less_spec. lia. Qed.

Lemma Position_eq p o : PLedger p = PLedger o → PTx p = PTx o → POp p = POp o →
  PIndex p = PIndex o → p = o.
Proof. destruct p, o. cbn. by intros -> -> -> ->. Qed.

(** *** Trimming *)

Lemma trim_left_nil cut s : trim_left cut s = [] ↔ forallb cut s = true.
Proof.
  induction s as [|c s IH]; [done|]. cbn [trim_left forallb]. by destruct (cut c).
Qed.

Lemma trim_left_suffix cut s : ∃ pre, s = pre ++ trim_left cut s ∧ forallb cut pre = true.
Proof.
  induction s as [|c s (pre & IH & Hp)]; [by exists []|]. cbn [trim_left].
  destruct (cut c) eqn:E; [|by exists []]. exists (c :: pre). cbn.
  split; [by rewrite <- IH|by rewrite E, Hp].
Qed.

Lemma trim_nil cut s : trim cut s = [] ↔ forallb cut s = true.
Proof.
  unfold trim. destruct (trim_left_suffix cut s) as (pre & E & Hp). rewrite E at 2.
  rewrite forallb_app, Hp. cbn [andb]. set (t := trim_left cut s).
  rewrite <- (rev_involutive t) at 2. set (r := rev t).
  split; intros H.
  - apply (f_equal (@rev _)) in H. rewrite rev_involutive in H. cbn [rev] in H. rename H into H'.
    apply trim_left_nil in H'. apply forallb_forall. intros x Hx.
    apply (in_rev r x) in Hx. rewrite forallb_forall in H'. by apply H'.
  - assert (forallb cut r = true) as H'.
    { apply forallb_forall. intros x Hx. apply (in_rev r x) in Hx.
      rewrite forallb_forall in H. by apply H. }
    apply trim_left_nil in H'. by rewrite H'.
Qed.

(** A test of [Valid] that fails. *)
Ltac bad := split; [done|intros (? & ? & ? & ? & ? & ? & ?); try done; try lia].

Lemma topics_size ts n :
  foldl (λ size t, size + Z.of_nat (String.length t)) n ts =
  n + foldr (λ t n, Z.of_nat (String.length t) + n) 0 ts.
Proof. revert n. induction ts as [|t ts IH]; intros n; cbn; [lia|]. rewrite IH. lia. Qed.

(** The two tests on the transaction hash. *)
Definition hash_ok (h : string) : Prop :=
  String.length h = 64%nat ∧ ∀ c, c ∈ String.list_ascii_of_string h →
    c ∈ String.list_ascii_of_string "0123456789abcdef".

#[global] Instance hash_ok_dec h : Decision (hash_ok h).
Proof.
  destruct (decide (String.length h = 64%nat)) as [Hl|]; [|right; by intros []].
  destruct (decide (Forall (λ c, c ∈ String.list_ascii_of_string "0123456789abcdef")
    (String.list_ascii_of_string h))) as [H|H]; rewrite Forall_forall in H;
    [by left|right; by intros []].
Defined.

Lemma hash_guard h :
  negb (String.length h =? 64)%nat ||
  negb (length (trim lower_hex (String.list_ascii_of_string h)) =? 0)%nat =
  negb (bool_decide (hash_ok h)).
Proof.
  rewrite <- negb_andb. f_equal. apply eq_true_iff_eq.
  rewrite andb_true_iff, Nat.eqb_eq, Nat.eqb_eq, bool_decide_eq_true. unfold hash_ok.
  rewrite length_zero_iff_nil, trim_nil, forallb_forall.
  setoid_rewrite list_elem_of_In. unfold lower_hex. setoid_rewrite bool_decide_eq_true.
  by setoid_rewrite list_elem_of_In.
Qed.

(** * Properties *)

(** C38: an event [Decode] accepts is the one its topic names, keeps the raw event it came from, and
    carries a body within the vault's guarantees: positive amounts, nonzero flag reasons, payments
    split into non-negative parts, later ids for requeued exits, canonical field elements. *)
Theorem decode_is_well_formed {sdk : StellarSDK} (raw : RawEvent) (ev : Event)
    (H : Decode raw = Ok ev) :
  Raw ev = raw ∧ EName ev = topic (EBody ev) ∧ body_ok (EBody ev) ∧ body_valid (EBody ev).
Proof.
  by apply Decode_Ok in H.
Qed.

Lemma decode_well_formed_witness :
  let v := Struct [mkField "id" (U64 4); mkField "reason" (U32 7)] in
  let S := example.sdk [("t", Symbol "deposit_flagged"); ("v", v)]%string in
  let raw := mkRawEvent 10 1700000000 "" 1 0 0 "" ["t"]%string "v" in
  ∃ ev, @Decode S raw = Ok ev ∧ body_ok (EBody ev).
Proof.
  intros v S raw.
  destruct (@Decode S raw) as [ev|] eqn:E; [|exfalso; vm_compute in E; discriminate E].
  exists ev. split; [reflexivity|]. exact (proj1 (proj2 (proj2 (@decode_is_well_formed S raw ev E)))).
Defined.

(** C37: [Decode] reads back every event the vault emits, all nineteen bodies: given the topic of a
    body and the contract's encoding of it, the result is that body when its values are within the
    vault's guarantees, and a malformed value error naming the topic when they are not. *)
Theorem decode_inverts_encoding {sdk : StellarSDK} {laws : StellarSDKLaws sdk} (raw : RawEvent)
    (b : Body) (t : string) (v : ScVal) (Ht : Topics raw = [t])
    (Hs : unmarshal_base64 t = Some (Symbol (topic b))) (Hv : unmarshal_base64 (Value raw) = Some v)
    (Hval : body_valid b) (He : encode_body b = Ok v) :
  (body_ok b → Decode raw = Ok (mkEvent raw (topic b) b)) ∧
  (¬ body_ok b → ∃ format args,
     Decode raw = Fail (Wrapf (malformed format args) "%s: %w" [FStr (topic b)])).
Proof.
  destruct (decode_guarded b v Hval He) as (r & Hr & Hg). unfold decode_as in Hr.
  unfold Decode. rewrite Ht, Hs. cbn [symbolOf Symbol].
  destruct (lookup_decoder decoders (topic b)) as [d|]; [|done]. rewrite Hv.
  injection Hr as ->. unfold guarded in Hg. split; intros Hb.
  - rewrite decide_True in Hg by done. by subst r.
  - rewrite decide_False in Hg by done. destruct Hg as (f & a & ->). by exists f, a.
Qed.

Lemma decode_inverts_witness :
  let b := BExitQueued (mkExitQueued 9 (-40) 2 (example.account 1) (example.account 2)) in
  ∃ v, @encode_body (example.sdk []) b = Ok v ∧
    let S := example.sdk [("t", Symbol "exit_queued"); ("v", v)]%string in
    let raw := mkRawEvent 10 1700000000 "" 1 0 0 "" ["t"]%string "v" in
    @Decode S raw = Ok (mkEvent raw "exit_queued" b).
Proof.
  intros b. destruct (@encode_body (example.sdk []) b) as [v|] eqn:E;
    [|exfalso; vm_compute in E; discriminate E].
  exists v. split; [reflexivity|]. intros S raw.
  apply (@decode_inverts_encoding S (example.sdk_laws _) raw b "t" v);
    [reflexivity..|exact I|exact E|cbn; lia].
Defined.

(** Dispatch comes before the data: a topic that is none of the vault's gives
    [ErrUnknownTopic], whatever the event carries as its data. *)
Theorem unknown_topic_before_data {sdk : StellarSDK} (raw : RawEvent) (t name : string)
    (Ht : Topics raw = [t]) (Hs : unmarshal_base64 t = Some (Symbol name))
    (Hn : ∀ b, topic b ≠ name) :
  Decode raw = Fail (Wrapf ErrUnknownTopic "%q" [FStr name]).
Proof.
  unfold Decode. rewrite Ht, Hs. cbn [symbolOf Symbol].
  by rewrite (proj2 (lookup_decoder_None name) Hn).
Qed.

Lemma unknown_topic_witness :
  let S := example.sdk [("t", Symbol "transfer")]%string in
  let raw := mkRawEvent 10 1700000000 "" 1 0 0 "" ["t"]%string "not base64" in
  @Decode S raw = Fail (Wrapf ErrUnknownTopic "%q" [FStr "transfer"]).
Proof.
  intros S raw. apply (@unknown_topic_before_data S raw "t" "transfer"); [reflexivity..|].
  intros []; discriminate.
Defined.

(** Chain order is a strict total order on event positions. *)
Theorem position_order (p q r : Position) :
  Less p p = false ∧ (Less p q = true → Less q r = true → Less p r = true) ∧
  (Less p q = true ∨ p = q ∨ Less q p = true).
Proof.
  split; [|split; [apply Less_trans|]]; rewrite ?Less_spec.
  - apply not_true_iff_false. rewrite Less_spec. lia.
  - destruct (decide (p = q)) as [|Hn]; [by right; left|].
    assert (¬ (PLedger p = PLedger q ∧ PTx p = PTx q ∧ POp p = POp q ∧ PIndex p = PIndex q)) as H
      by (intros (? & ? & ? & ?); by apply Hn, Position_eq).
    lia.
Qed.

(** [Valid] accepts exactly the raw events the network could have emitted: a positive ledger
    and close time, a 64-digit lowercase hexadecimal hash, a contract's strkey, one to four topics,
    and at most 32 KiB of topics and data. *)
Theorem valid_raw_event {sdk : StellarSDK} (r : RawEvent) :
  Valid r = None ↔
    Ledger r ≠ 0 ∧ 0 < ClosedAt r ∧ String.length (TxHash r) = 64%nat ∧
    (∀ c, c ∈ String.list_ascii_of_string (TxHash r) →
       c ∈ String.list_ascii_of_string "0123456789abcdef") ∧
    is_Some (strkey_decode VersionContract (Contract r)) ∧
    (1 <= length (Topics r) <= 4)%nat ∧
    Z.of_nat (String.length (Value r)) +
      foldr (λ t n, Z.of_nat (String.length t) + n) 0 (Topics r) <= 32768.
Proof.
  unfold Valid. rewrite topics_size.
  destruct (Z.eqb_spec (Ledger r) 0); cbn [orb]; [bad|].
  destruct (Z.leb_spec (ClosedAt r) 0); cbn [orb]; [bad|].
  rewrite hash_guard. case_bool_decide as Hh; cbn [negb]; [|bad; by destruct Hh].
  case_bool_decide as Hc; cbn [negb]; [|bad].
  destruct (Nat.eqb_spec (length (Topics r)) 0); cbn [orb]; [bad|].
  destruct (Nat.ltb_spec 4 (length (Topics r))); [bad|].
  change maxEventBytes with 32768. cbv zeta.
  match goal with |- context[32768 <? ?n] => destruct (Z.ltb_spec 32768 n) end; [bad|].
  split; [|done]. intros _. destruct Hh. repeat (split; [done || lia|]). lia.
Qed.

End events.
