(* ===== verification/Calls.v ===== *)
(** The shapes of [services/internal/vault/calls.go]: grouping a stream of events into transactions
    and each transaction's events into the calls that emitted them. *)
From S2P Require Import Prelude.
From S2P Require Import Fr.
From S2P Require Import Xdr.
From S2P Require Import ScVal.
From S2P Require Import VaultState.
From S2P Require Import Events.

Module calls.

Import scval events.

(** [Shield] is the event shape of one shield: two nullifiers, then the pending deposit. *)
Record Shield : Type := mkShield { Sh_Nullifiers : NewNullifier * NewNullifier; Sh_Deposit : DepositPending }.

(** [Transact] is the event shape of one transact: two nullifiers, the two outputs, then settled
    when it paid at once or exit_queued when its payment waits in the exit queue. *)
Record Transact : Type := mkTransact {
  T_Nullifiers : NewNullifier * NewNullifier; T_Outputs : NewCommitment * NewCommitment;
  T_Settled : option Settled; T_Queued : option ExitQueued }.

(** [Admission] is the event shape of one admitted deposit. *)
Record Admission : Type := mkAdmission {
  Ad_Outputs : NewCommitment * NewCommitment; Ad_Admitted : DepositAdmitted }.

(** The [any] of [Tx.Calls]; [CExitSettled] is [ExitSettled], a settled event with an exit ID. *)
Inductive Call : Type :=
| CShield (c : Shield)
| CTransact (c : Transact)
| CExitSettled (s : Settled)
| CAdmission (c : Admission)
| CBody (b : Body).

(** [Tx] is the vault's part of one transaction. *)
Record Transaction : Type := mkTx {
  TLedger : Z; TClosedAt : Z; THash : string; TCalls : list Call }.

(** [at]: the body at index [i] when it is of the type the assertion names. *)
Definition at_ {T} (assertion : Body → option T) (events : list Event) (i : nat) : option T :=
  e ← events !! i; assertion (EBody e).

Definition as_nullifier (b : Body) : option NewNullifier :=
  match b with BNewNullifier e => Some e | _ => None end.
Definition as_commitment (b : Body) : option NewCommitment :=
  match b with BNewCommitment e => Some e | _ => None end.
Definition as_deposit (b : Body) : option DepositPending :=
  match b with BDepositPending e => Some e | _ => None end.
Definition as_admitted (b : Body) : option DepositAdmitted :=
  match b with BDepositAdmitted e => Some e | _ => None end.
Definition as_settled (b : Body) : option Settled :=
  match b with BSettled e => Some e | _ => None end.
Definition as_queued (b : Body) : option ExitQueued :=
  match b with BExitQueued e => Some e | _ => None end.

(** [outputPair] reads the two new_commitment events of one inserted pair, which takes an even
    index and the one after it. *)
Definition outputPair (events : list Event) (i : nat) : res (NewCommitment * NewCommitment) :=
  match at_ as_commitment events i with
  | None => Fail (malformed "missing output" [])
  | Some lft =>
      match at_ as_commitment events (i + 1) with
      | None => Fail (malformed "an output without its pair" [])
      | Some rgt =>
          _ ← fail_if (negb (NC_Index lft mod 2 =? 0) || negb (NC_Index rgt =? u64 (NC_Index lft + 1)))
                (malformed "outputs at leaves %d and %d" [FInt (NC_Index lft); FInt (NC_Index rgt)]);
          mret (lft, rgt)
      end
  end.

(** The turn of the loop of [parseCalls] that starts at the first of [events], which are the events
    from the loop's index on: the call it appends and the number of events it takes. *)
Definition parse_call (events : list Event) (first : Event) : res (Call * nat) :=
  match EBody first with
  | BNewNullifier n1 =>
      match at_ as_nullifier events 1 with
      | None => Fail (malformed "a nullifier without its pair" [])
      | Some n2 =>
          match at_ as_deposit events 2 with
          | Some deposit => Ok (CShield (mkShield (n1, n2) deposit), 3%nat)
          | None =>
              outputs ← outputPair events 2;
              match at_ as_settled events 4 with
              | Some (mkSettled _ _ _ _ None as settled) =>
                  Ok (CTransact (mkTransact (n1, n2) outputs (Some settled) None), 5%nat)
              | _ =>
                  match at_ as_queued events 4 with
                  | Some queued =>
                      Ok (CTransact (mkTransact (n1, n2) outputs None (Some queued)), 5%nat)
                  | None =>
                      Fail (malformed
                        "spent nullifiers without a deposit, a settlement or a queued exit" [])
                  end
              end
          end
      end
  | BNewCommitment _ =>
      outputs ← outputPair events 0;
      match at_ as_admitted events 2 with
      | None => Fail (malformed "outputs without a settlement or an admission" [])
      | Some admitted =>
          _ ← fail_if (negb (DA_LeafIndex0 admitted =? NC_Index outputs.1) ||
                       negb (DA_LeafIndex1 admitted =? NC_Index outputs.2))
                (malformed "deposit %d admitted at leaves %d, %d but inserted at %d, %d"
                   [FInt (DA_ID admitted); FInt (DA_LeafIndex0 admitted);
                    FInt (DA_LeafIndex1 admitted); FInt (NC_Index outputs.1);
                    FInt (NC_Index outputs.2)]);
          mret (CAdmission (mkAdmission outputs admitted), 3%nat)
      end
  | BSettled s =>
      match S_ExitID s with
      | None => Fail (malformed "a settlement without its transact" [])
      | Some _ => Ok (CExitSettled s, 1%nat)
      end
  | BDepositPending _ | BDepositAdmitted _ | BExitQueued _ =>
      Fail (malformed "%s out of place" [FStr (EName first)])
  | b => Ok (CBody b, 1%nat)
  end.

(** The turn's result before those of the turns that follow. *)
Definition push {A} (x : A) (r : res (list A)) : res (list A) := xs ← r; mret (x :: xs).

(** The loop; [None] is only for the fuel running out. *)
Fixpoint parse_loop (fuel : nat) (events : list Event) : option (res (list Call)) :=
  match events with
  | [] => Some (Ok [])
  | first :: _ =>
      match fuel with
      | O => None
      | S fuel =>
          match parse_call events first with
          | Fail e => Some (Fail e)
          | Ok (call, n) =>
              r ← parse_loop fuel (drop n events);
              Some (push call r)
          end
      end
  end.

Definition out_of_fuel : gerr := Sentinel "out of fuel".

(** Every turn takes an event or more, so as many turns as events are enough. *)
Definition parseCalls (events : list Event) : res (list Call) :=
  default (Fail out_of_fuel) (parse_loop (length events) events).

(** [events[end].Raw.Ledger == first.Ledger && events[end].Raw.TxHash == first.TxHash] *)
Definition same_tx (first : RawEvent) (e : Event) : bool :=
  (Ledger (Raw e) =? Ledger first) && String.eqb (TxHash (Raw e)) (TxHash first).

(** How many of the events that follow the first are of its transaction. *)
Fixpoint tx_end (first : RawEvent) (rest : list Event) : nat :=
  match rest with
  | e :: rest => if same_tx first e then S (tx_end first rest) else O
  | [] => O
  end.

Definition before (e f : Event) : bool := Less (Pos (Raw e)) (Pos (Raw f)).

(** No event of the group that does not come after the one before it. *)
Fixpoint in_order (group : list Event) : bool :=
  match group with
  | e :: ((f :: _) as group) => before e f && in_order group
  | _ => true
  end.

(** One turn of the loop of [ParseTxs] from [start]: [events] are those from [start] on, [prev] is
    the one before, if there is one. *)
Definition parse_tx (prev : option Event) (first : Event) (rest : list Event)
    : res (Transaction * nat) :=
  let raw := Raw first in
  let n := S (tx_end raw rest) in
  let group := take n (first :: rest) in
  _ ← fail_if (negb (in_order group)) (malformed "events of %s out of order" [FStr (TxHash raw)]);
  _ ← fail_if (match prev with Some p => negb (before p first) | None => false end)
        (malformed "transaction %s out of order" [FStr (TxHash raw)]);
  calls ← or_fail (parseCalls group) (λ e,
    Wrapf e "transaction %s in ledger %d: %w" [FStr (TxHash raw); FInt (Ledger raw)]);
  mret (mkTx (Ledger raw) (ClosedAt raw) (TxHash raw) calls, n).

Fixpoint parse_txs (fuel : nat) (prev : option Event) (events : list Event)
    : option (res (list Transaction)) :=
  match events with
  | [] => Some (Ok [])
  | first :: rest =>
      match fuel with
      | O => None
      | S fuel =>
          match parse_tx prev first rest with
          | Fail e => Some (Fail e)
          | Ok (tx, n) =>
              r ← parse_txs fuel (last (take n events)) (drop n events);
              Some (push tx r)
          end
      end
  end.

(** The loop over [seen]. *)
Fixpoint split_check (seen : gset string) (txs : list Transaction) : res unit :=
  match txs with
  | [] => Ok tt
  | tx :: txs =>
      _ ← fail_if (bool_decide (THash tx ∈ seen)) (malformed "transaction %s split" [FStr (THash tx)]);
      split_check ({[THash tx]} ∪ seen) txs
  end.

(** [ParseTxs] groups events in chain order by transaction and checks that each transaction's
    events are a sequence of the shapes the vault emits. *)
Definition ParseTxs (events : list Event) : res (list Transaction) :=
  txs ← default (Fail out_of_fuel) (parse_txs (length events) None events);
  _ ← split_check ∅ txs;
  mret txs.

(** ** Specification: the events of a call, and which calls the vault emits *)

Definition flatten (c : Call) : list Body :=
  match c with
  | CShield s =>
      [BNewNullifier (Sh_Nullifiers s).1; BNewNullifier (Sh_Nullifiers s).2;
       BDepositPending (Sh_Deposit s)]
  | CTransact t =>
      [BNewNullifier (T_Nullifiers t).1; BNewNullifier (T_Nullifiers t).2;
       BNewCommitment (T_Outputs t).1; BNewCommitment (T_Outputs t).2] ++
      match T_Settled t with Some s => [BSettled s] | None => [] end ++
      match T_Queued t with Some q => [BExitQueued q] | None => [] end
  | CExitSettled s => [BSettled s]
  | CAdmission a =>
      [BNewCommitment (Ad_Outputs a).1; BNewCommitment (Ad_Outputs a).2;
       BDepositAdmitted (Ad_Admitted a)]
  | CBody b => [b]
  end.

(** An even leaf and the one after it. *)
Definition pair_ok (p : NewCommitment * NewCommitment) : Prop :=
  NC_Index p.1 mod 2 = 0 ∧ NC_Index p.2 = u64 (NC_Index p.1 + 1).

Definition call_ok (c : Call) : Prop :=
  match c with
  | CShield _ => True
  | CTransact t =>
      pair_ok (T_Outputs t) ∧
      match T_Settled t, T_Queued t with
      | Some s, None => S_ExitID s = None
      | None, Some _ => True
      | _, _ => False
      end
  | CExitSettled s => is_Some (S_ExitID s)
  | CAdmission a =>
      pair_ok (Ad_Outputs a) ∧ DA_LeafIndex0 (Ad_Admitted a) = NC_Index (Ad_Outputs a).1 ∧
      DA_LeafIndex1 (Ad_Admitted a) = NC_Index (Ad_Outputs a).2
  | CBody b =>
      match b with
      | BNewNullifier _ | BNewCommitment _ | BSettled _ | BDepositPending _
      | BDepositAdmitted _ | BExitQueued _ => False
      | _ => True
      end
  end.

(** * Lemmas *)

Definition bodies (events : list Event) : list Body := map EBody events.

(** [at] reads the body of the type it asserts. *)
Class Assertion {T} (assertion : Body → option T) (inject : T → Body) : Prop :=
  assertion_Some : ∀ b x, assertion b = Some x ↔ b = inject x.

#[global] Instance as_nullifier_ok : Assertion as_nullifier BNewNullifier.
Proof. intros [] ?; cbn; split; congruence. Qed.
#[global] Instance as_commitment_ok : Assertion as_commitment BNewCommitment.
Proof. intros [] ?; cbn; split; congruence. Qed.
#[global] Instance as_deposit_ok : Assertion as_deposit BDepositPending.
Proof. intros [] ?; cbn; split; congruence. Qed.
#[global] Instance as_admitted_ok : Assertion as_admitted BDepositAdmitted.
Proof. intros [] ?; cbn; split; congruence. Qed.
#[global] Instance as_settled_ok : Assertion as_settled BSettled.
Proof. intros [] ?; cbn; split; congruence. Qed.
#[global] Instance as_queued_ok : Assertion as_queued BExitQueued.
Proof. intros [] ?; cbn; split; congruence. Qed.

Lemma at_Some {T} (assertion : Body → option T) inject `{!Assertion assertion inject} events i x :
  at_ assertion events i = Some x ↔ bodies events !! i = Some (inject x).
Proof.
  unfold at_, bodies. rewrite lookup_map. destruct (events !! i) as [e|]; cbn; [|done].
  rewrite (assertion_Some (EBody e) x). split; congruence.
Qed.

(** Turns the successful assertions into facts on the bodies. *)
Ltac assertions :=
  repeat match goal with
  | H : at_ as_nullifier _ _ = Some _ |- _ => apply (at_Some as_nullifier BNewNullifier) in H
  | H : at_ as_commitment _ _ = Some _ |- _ => apply (at_Some as_commitment BNewCommitment) in H
  | H : at_ as_deposit _ _ = Some _ |- _ => apply (at_Some as_deposit BDepositPending) in H
  | H : at_ as_admitted _ _ = Some _ |- _ => apply (at_Some as_admitted BDepositAdmitted) in H
  | H : at_ as_settled _ _ = Some _ |- _ => apply (at_Some as_settled BSettled) in H
  | H : at_ as_queued _ _ = Some _ |- _ => apply (at_Some as_queued BExitQueued) in H
  end.

Lemma outputPair_Ok events i p : outputPair events i = Ok p ↔
  bodies events !! i = Some (BNewCommitment p.1) ∧
  bodies events !! (i + 1)%nat = Some (BNewCommitment p.2) ∧ pair_ok p.
Proof.
  unfold outputPair, pair_ok.
  destruct (at_ as_commitment events i) as [l|] eqn:L.
  2: { split; [done|]. intros (H & _). apply (at_Some as_commitment BNewCommitment) in H. congruence. }
  destruct (at_ as_commitment events (i + 1)) as [r|] eqn:R.
  2: { split; [done|]. intros (_ & H & _). apply (at_Some as_commitment BNewCommitment) in H. congruence. }
  assertions.
  rewrite bind_Ok. setoid_rewrite fail_if_Ok. destruct p as [l' r']. cbn [fst snd].
  rewrite L, R. split.
  - intros ([] & G & H). injection H as -> ->. apply orb_false_iff in G as [G1 G2].
    apply negb_false_iff, Z.eqb_eq in G1. apply negb_false_iff, Z.eqb_eq in G2. done.
  - intros (E1 & E2 & H1 & H2). injection E1 as ->. injection E2 as ->. exists tt.
    rewrite H1, H2, !Z.eqb_refl. done.
Qed.

(** The bodies an index list reads, put together. *)
Lemma prefix_lookups {A} (l m : list A) : l `prefix_of` m ↔
  ∀ i x, l !! i = Some x → m !! i = Some x.
Proof.
  split.
  - intros [k ->] i x H. by apply lookup_app_l_Some.
  - revert m. induction l as [|y l IH]; intros m H; [apply prefix_nil|].
    destruct m as [|z m]; [by specialize (H 0%nat y eq_refl)|].
    pose proof (H 0%nat y eq_refl) as E. injection E as ->. apply prefix_cons, IH.
    intros i x Hi. by apply (H (S i)).
Qed.

Lemma parse_call_sound first rest c n : parse_call (first :: rest) first = Ok (c, n) →
  call_ok c ∧ n = length (flatten c) ∧ flatten c `prefix_of` bodies (first :: rest).
Proof.
  set (events := first :: rest).
  assert (bodies events !! 0%nat = Some (EBody first)) as H0 by done.
  unfold parse_call. destruct (EBody first) as [e|e|e|e|e|e|e|e|e|e|e|e|e|e|e|e|e|e|e]; try done.
  all: repeat match goal with
    | |- match at_ ?a ?l ?i with _ => _ end = _ → _ =>
        let E := fresh "E" in destruct (at_ a l i) eqn:E; cbn beta iota
    | |- match S_ExitID ?e with _ => _ end = _ → _ => destruct (S_ExitID e) eqn:?; cbn beta iota
    | |- mbind _ (outputPair _ _) = _ → _ =>
        rewrite bind_Ok; intros (? & (?P & ?P & [?P ?P])%outputPair_Ok & HX); revert HX
    | |- mbind _ (fail_if _ _) = _ → _ =>
        rewrite bind_Ok; intros ([] & ?G%fail_if_Ok & HX); revert HX
    | |- match ?s with mkSettled _ _ _ _ _ => _ end = _ → _ => destruct s as [? ? ? ? []]; cbn beta iota
    | |- Fail _ = Ok _ → _ => intros [=]
    end.
  all: intros H; injection H as <- <-; assertions.
  all: split; [cbn; repeat split; try assumption; try by eexists
    |split; [reflexivity|apply prefix_lookups; intros [|[|[|[|[|i]]]]] b' E'; cbn in E';
       try discriminate E'; injection E' as <-; assumption]].
  all: lia.
Qed.

Lemma at_body {T} (assertion : Body → option T) events i b :
  bodies events !! i = Some b → at_ assertion events i = assertion b.
Proof.
  unfold at_, bodies. rewrite lookup_map. destruct (events !! i) as [e|]; cbn; [|done].
  by intros [= ->].
Qed.

Lemma outputPair_pair events i p : bodies events !! i = Some (BNewCommitment p.1) →
  bodies events !! (i + 1)%nat = Some (BNewCommitment p.2) → pair_ok p → outputPair events i = Ok p.
Proof. intros. by apply outputPair_Ok. Qed.

Lemma parse_call_complete first rest c : call_ok c → flatten c `prefix_of` bodies (first :: rest) →
  parse_call (first :: rest) first = Ok (c, length (flatten c)).
Proof.
  set (events := first :: rest). intros Hok Hp. pose proof (proj1 (prefix_lookups _ _) Hp) as H.
  assert (∀ b, flatten c !! 0%nat = Some b → EBody first = b) as H0.
  { intros b Hb. specialize (H 0%nat b Hb). by injection H. }
  unfold parse_call. destruct c as [[[n1 n2] d]|[[n1 n2] outs st qd]|s|[outs ad]|b].
  - rewrite (H0 _ eq_refl). by rewrite (at_body _ _ _ _ (H 1%nat _ eq_refl)),
      (at_body _ _ _ _ (H 2%nat _ eq_refl)).
  - destruct Hok as [Hpair Hst]. cbn [T_Settled T_Queued T_Outputs T_Nullifiers] in *.
    rewrite (H0 _ eq_refl), (at_body _ _ _ _ (H 1%nat _ eq_refl)),
      (at_body _ _ _ _ (H 2%nat _ eq_refl)).
    rewrite (outputPair_pair _ _ _ (H 2%nat _ eq_refl) (H 3%nat _ eq_refl) Hpair); unfold mbind, res_bind.
    destruct st as [[x f r l o]|], qd as [q|]; try done; rewrite !(at_body _ _ _ _ (H 4%nat _ eq_refl));
      cbn in Hst; subst; done.
  - destruct Hok as [o Ho]. rewrite (H0 _ eq_refl), Ho. done.
  - destruct Hok as (Hpair & H1 & H2). cbn [Ad_Outputs Ad_Admitted] in *.
    rewrite (H0 _ eq_refl).
    rewrite (outputPair_pair _ _ _ (H 0%nat _ eq_refl) (H 1%nat _ eq_refl) Hpair); unfold mbind, res_bind.
    rewrite (at_body _ _ _ _ (H 2%nat _ eq_refl)). cbn [as_admitted Ad_Admitted Ad_Outputs].
    by rewrite H1, H2, !Z.eqb_refl.
  - rewrite (H0 _ eq_refl). by destruct b.
Qed.

Lemma flatten_nonempty c : (1 <= length (flatten c))%nat.
Proof. destruct c; cbn; lia. Qed.

Lemma bodies_drop events n : bodies (drop n events) = drop n (bodies events).
Proof. unfold bodies. rewrite <- fmap_drop. done. Qed.

(** The loop ends within its fuel, and gives the one way to cut the events into calls. *)
Lemma parse_loop_spec fuel events : (length events <= fuel)%nat →
  ∃ r, parse_loop fuel events = Some r ∧
    ∀ calls, r = Ok calls ↔ Forall call_ok calls ∧ concat (map flatten calls) = bodies events.
Proof.
  revert events. induction fuel as [|fuel IH]; intros [|first rest] Hf; [| | |].
  1, 3: exists (Ok []); split; [done|]; intros calls; split;
    [by intros [= <-]|intros [_ H]; destruct calls as [|c calls]; [done|exfalso];
     apply (f_equal length) in H; cbn in H; rewrite length_app in H;
     pose proof (flatten_nonempty c); lia].
  { cbn in Hf. lia. }
  cbn [parse_loop]. destruct (parse_call (first :: rest) first) as [[c n]|e] eqn:P.
  - destruct (parse_call_sound _ _ _ _ P) as (Hc & -> & [k Hk]).
    pose proof (flatten_nonempty c) as Hne.
    destruct (IH (drop (length (flatten c)) (first :: rest))) as (r & Hr & Hspec).
    { rewrite length_drop. cbn [length] in *. lia. }
    rewrite Hr. exists (push c r). split; [done|]. intros calls. rewrite bodies_drop in Hspec.
    rewrite Hk, drop_app_length in Hspec. rewrite Hk. unfold push. rewrite bind_Ok. split.
    + intros (cs & [H1 H2]%Hspec & [= <-]). split; [by constructor|]. cbn. by rewrite H2.
    + intros [Hall Hcat]. destruct calls as [|c' calls].
      { apply (f_equal length) in Hcat. cbn in Hcat. rewrite length_app in Hcat. lia. }
      apply Forall_cons in Hall as [Hc' Hall]. cbn [map concat] in Hcat.
      assert (c' = c) as ->.
      { pose proof (parse_call_complete first rest c' Hc') as Hp. rewrite P in Hp.
        assert (flatten c' `prefix_of` bodies (first :: rest)) as Hpre
          by (rewrite Hk, <- Hcat; by eexists).
        specialize (Hp Hpre). by injection Hp as <-. }
      apply app_inv_head in Hcat. exists calls. split; [by apply Hspec|done].
  - exists (Fail e). split; [done|]. intros calls. split; [done|]. intros [Hall Hcat].
    destruct calls as [|c calls]; [done|]. apply Forall_cons in Hall as [Hc _].
    rewrite (parse_call_complete first rest c Hc) in P; [done|].
    rewrite <- Hcat. cbn [map concat]. by eexists.
Qed.

Lemma parseCalls_Ok events calls :
  parseCalls events = Ok calls ↔ Forall call_ok calls ∧ concat (map flatten calls) = bodies events.
Proof.
  unfold parseCalls. destruct (parse_loop_spec (length events) events) as (r & -> & H); [lia|].
  apply H.
Qed.

(** *** Transactions *)

Definition Before (e f : Event) : Prop := before e f = true.

#[global] Instance Before_trans : Transitive Before.
Proof. intros e f g. apply Less_trans. Qed.

(** The transaction read from a run of events. *)
Definition tx_of (group : list Event) (tx : Transaction) : Prop :=
  (∃ first, head group = Some first ∧ TClosedAt tx = ClosedAt (Raw first)) ∧
  Forall (λ e, Ledger (Raw e) = TLedger tx ∧ TxHash (Raw e) = THash tx) group ∧
  Forall call_ok (TCalls tx) ∧ concat (map flatten (TCalls tx)) = bodies group.

(** In chain order, after the event [prev] if there is one. *)
Definition linked (prev : option Event) (events : list Event) : Prop :=
  match prev with Some p => Sorted Before (p :: events) | None => Sorted Before events end.

Lemma in_order_Sorted events : in_order events = true ↔ Sorted Before events.
Proof.
  induction events as [|e [|f events] IH]; cbn [in_order].
  - split; [constructor|done].
  - split; [by repeat constructor|done].
  - rewrite andb_true_iff, IH. split.
    + intros [H1 H2]. by constructor; [|constructor].
    + intros H. apply Sorted_inv in H as [H1 H2]. by apply HdRel_inv in H2.
Qed.

Lemma Sorted_app_last (l m : list Event) x : last l = Some x →
  Sorted Before (l ++ m) ↔ Sorted Before l ∧ Sorted Before (x :: m).
Proof.
  induction l as [|y l IH]; [done|]. destruct l as [|z l].
  - intros [= ->]. cbn [app]. split; [intros H; split; [by repeat constructor|done]|by intros []].
  - intros Hl. specialize (IH Hl). cbn [app]. split.
    + intros H. apply Sorted_inv in H as [H Hd]. apply IH in H as [H1 H2]. split; [|done].
      constructor; [done|]. constructor. by apply HdRel_inv in Hd.
    + intros [H Hx]. apply Sorted_inv in H as [H Hd]. constructor; [by apply IH|].
      constructor. by apply HdRel_inv in Hd.
Qed.

(** Cutting a chain of events after a run of them. *)
Lemma linked_app prev l m x : last l = Some x →
  linked prev (l ++ m) ↔ linked prev l ∧ linked (Some x) m.
Proof.
  intros Hx. destruct prev as [p|]; unfold linked.
  - assert (last (p :: l) = Some x) as Hp by (by destruct l).
    apply (Sorted_app_last (p :: l) m x Hp).
  - by apply Sorted_app_last.
Qed.

Lemma linked_cons prev first l : linked prev (first :: l) ↔
  match prev with Some p => Before p first | None => True end ∧ Sorted Before (first :: l).
Proof.
  destruct prev as [p|]; cbn [linked]; [|naive_solver]. split.
  - intros H. apply Sorted_inv in H as [H Hd]. by apply HdRel_inv in Hd.
  - intros [H1 H2]. by constructor; [|constructor].
Qed.

Lemma same_tx_spec first e : same_tx first e = true ↔
  Ledger (Raw e) = Ledger first ∧ TxHash (Raw e) = TxHash first.
Proof. unfold same_tx. by rewrite andb_true_iff, Z.eqb_eq, String.eqb_eq. Qed.

Lemma tx_end_take first rest :
  Forall (λ e, same_tx first e = true) (take (tx_end first rest) rest).
Proof.
  induction rest as [|e rest IH]; cbn [tx_end]; [by rewrite take_nil|].
  destruct (same_tx first e) eqn:E; [by constructor|constructor].
Qed.

Lemma tx_end_run first run tail : Forall (λ e, same_tx first e = true) run →
  (∀ e, head tail = Some e → same_tx first e = false) → tx_end first (run ++ tail) = length run.
Proof.
  intros Hrun Htail. induction Hrun as [|e run He _ IH]; cbn [app tx_end length].
  - destruct tail as [|e tail]; [done|]. cbn. by rewrite (Htail e eq_refl).
  - by rewrite He, IH.
Qed.

Lemma parse_tx_Ok prev first rest tx n : parse_tx prev first rest = Ok (tx, n) ↔
  let group := take n (first :: rest) in
  n = S (tx_end (Raw first) rest) ∧ tx_of group tx ∧ linked prev group.
Proof.
  unfold parse_tx. rewrite bind_Ok. setoid_rewrite bind_Ok. setoid_rewrite bind_Ok.
  setoid_rewrite fail_if_Ok. setoid_rewrite or_fail_Ok. setoid_rewrite parseCalls_Ok.
  split.
  - intros ([] & Ho & [] & Hp & calls & [Hc Hf] & H). injection H as <- <-. cbv zeta.
    split; [done|]. apply negb_false_iff, in_order_Sorted in Ho. split.
    + split; [by exists first|]. cbn [TLedger THash TCalls]. split; [|done].
      cbn [take]. constructor; [done|]. eapply Forall_impl; [apply tx_end_take|].
      intros e He. by apply same_tx_spec in He.
    + cbn [take]. apply linked_cons. split; [|done]. destruct prev; [|done].
      by apply negb_false_iff in Hp.
  - cbv zeta. intros (-> & ((f & Hf & Hclosed) & Hsame & Hc & Hb) & Hl). cbn [take] in *.
    injection Hf as <-. apply linked_cons in Hl as [Hp Ho]. exists tt.
    split; [by apply negb_false_iff, in_order_Sorted|]. exists tt. split.
    { destruct prev; [by rewrite Hp|done]. }
    exists (TCalls tx). split; [done|]. apply Forall_cons in Hsame as [[HL HH] _].
    destruct tx. cbn in *. by subst.
Qed.

Lemma tx_of_nonempty group tx : tx_of group tx → group ≠ [].
Proof. by intros [(f & H & _) _] ->. Qed.

Lemma push_Ok {A} (x : A) r xs : push x r = Ok xs ↔ ∃ ys, r = Ok ys ∧ xs = x :: ys.
Proof. unfold push. rewrite bind_Ok. split; intros (ys & -> & H); exists ys; [by injection H|by subst]. Qed.

Lemma parse_txs_total fuel prev events : (length events <= fuel)%nat →
  ∃ r, parse_txs fuel prev events = Some r ∧ ∀ txs, r = Ok txs →
    (∃ groups, concat groups = events ∧ Forall2 tx_of groups txs) ∧ linked prev events.
Proof.
  revert prev events. induction fuel as [|fuel IH]; intros prev [|first rest] Hf.
  1, 3: exists (Ok []); split; [done|]; intros txs [= <-]; split;
    [by exists []|destruct prev; by repeat constructor].
  { cbn in Hf. lia. }
  cbn [parse_txs]. destruct (parse_tx prev first rest) as [[tx n]|e] eqn:P;
    [|by exists (Fail e)].
  apply parse_tx_Ok in P. cbv zeta in P. destruct P as (Hn & Htx & Hl).
  set (group := take n (first :: rest)) in *.
  destruct (IH (last group) (drop n (first :: rest))) as (r & Hr & Hspec).
  { rewrite length_drop, Hn. cbn [length] in *. lia. }
  rewrite Hr. exists (push tx r). split; [done|].
  intros txs (txs' & Hok & ->)%push_Ok. destruct (Hspec txs' Hok) as [(groups & Hg & Hall) Hlink].
  split.
  - exists (group :: groups). split; [|by constructor]. cbn [concat]. rewrite Hg. apply take_drop.
  - rewrite <- (take_drop n (first :: rest)). fold group.
    destruct (last group) as [x|] eqn:Hx.
    + by apply (linked_app prev group _ x Hx).
    + apply last_None in Hx. by apply tx_of_nonempty in Htx.
Qed.

Lemma parse_txs_groups fuel prev groups txs : Forall2 tx_of groups txs →
  linked prev (concat groups) → NoDup (map THash txs) → (length (concat groups) <= fuel)%nat →
  parse_txs fuel prev (concat groups) = Some (Ok txs).
Proof.
  intros Hall. revert fuel prev.
  induction Hall as [|group tx groups txs Htx Hall IH]; intros fuel prev Hl Hnd Hf.
  { by destruct fuel. }
  cbn [concat] in *. destruct group as [|first run]; [by apply tx_of_nonempty in Htx|].
  destruct (last (first :: run)) as [x|] eqn:Hx; [|by apply last_None in Hx].
  apply (linked_app prev _ _ x Hx) in Hl as [Hl1 Hl2]. cbn [map] in Hnd.
  apply NoDup_cons in Hnd as [Hni Hnd].
  assert (Hend : tx_end (Raw first) (run ++ concat groups) = length run).
  { destruct Htx as (_ & Hsame & _). apply Forall_cons in Hsame as [[HL HH] Hsame].
    apply tx_end_run.
    - eapply Forall_impl; [exact Hsame|]. intros e He. apply same_tx_spec. by rewrite HL, HH.
    - intros e He. apply not_true_iff_false. rewrite same_tx_spec, HH. intros [_ E]. apply Hni.
      destruct Hall as [|g tx' gs txs' Htx' _]; [done|]. cbn [map].
      destruct g as [|f g]; [by apply tx_of_nonempty in Htx'|]. injection He as ->.
      destruct Htx' as (_ & Hs & _). apply Forall_cons in Hs as [[_ Hs] _].
      rewrite <- E, Hs. left. }
  cbn [app] in *. destruct fuel as [|fuel]; [cbn in Hf; lia|]. cbn [parse_txs].
  assert (Hgrp : take (S (length run)) (first :: run ++ concat groups) = first :: run)
    by (cbn [take]; by rewrite take_app_length).
  assert (P : parse_tx prev first (run ++ concat groups) = Ok (tx, S (length run))).
  { apply parse_tx_Ok. cbv zeta. rewrite Hgrp, Hend. done. }
  rewrite P, Hgrp, Hx. cbn [drop]. rewrite drop_app_length.
  rewrite (IH fuel (Some x)); [done|done|done|]. cbn [length] in Hf. rewrite length_app in Hf. lia.
Qed.

Lemma split_check_Ok seen txs u : split_check seen txs = Ok u ↔
  NoDup (map THash txs) ∧ Forall (λ tx, THash tx ∉ seen) txs.
Proof.
  revert seen. induction txs as [|tx txs IH]; intros seen; cbn [split_check map].
  { destruct u. split; [|done]. intros _. split; constructor. }
  rewrite bind_Ok. setoid_rewrite fail_if_Ok. setoid_rewrite IH.
  rewrite NoDup_cons, Forall_cons. setoid_rewrite bool_decide_eq_false.
  setoid_rewrite Forall_forall. split.
  - intros ([] & Hni & Hnd & Hall). split; [split; [|done]|split; [done|]].
    + intros (tx' & E & Hin)%list_elem_of_In%in_map_iff. apply list_elem_of_In in Hin.
      specialize (Hall tx' Hin). set_solver.
    + intros tx' Hin. specialize (Hall tx' Hin). set_solver.
  - intros ([Hni Hnd] & Hx & Hall). exists tt. split; [done|]. split; [done|].
    intros tx' Hin [E%elem_of_singleton|?]%elem_of_union; [|by eapply Hall].
    apply Hni. rewrite <- E. by apply list_elem_of_In, in_map, list_elem_of_In.
Qed.

Lemma ParseTxs_Ok events txs : ParseTxs events = Ok txs ↔
  (∃ groups, concat groups = events ∧ Forall2 tx_of groups txs) ∧
  Sorted Before events ∧ NoDup (map THash txs).
Proof.
  unfold ParseTxs. rewrite bind_Ok. setoid_rewrite bind_Ok. setoid_rewrite split_check_Ok.
  split.
  - intros (txs' & H & [] & [Hnd _] & [= ->]).
    destruct (parse_txs_total (length events) None events) as (r & Hr & Hs); [lia|].
    rewrite Hr in H. cbn in H. destruct (Hs _ H). done.
  - intros ((groups & <- & Hall) & Hs & Hnd). exists txs.
    rewrite (parse_txs_groups _ None _ _ Hall Hs Hnd) by lia. split; [done|]. exists tt.
    split; [|done]. split; [done|]. apply Forall_forall. set_solver.
Qed.

(** * Properties *)

(** C33: [parseCalls] accepts exactly the sequences of events the vault's calls emit, and in one way:
    it returns calls when they are of the shapes of calls.go (pairs of nullifiers and of consecutive
    outputs, one settlement or queued exit per transact, admissions at the leaves inserted) and
    their events, put one after the other, are the events it was given, none dropped or invented.
    The loop ends
    within as many turns as there are events. *)
Theorem parseCalls_grammar (events : list Event) (calls : list Call) :
  (parseCalls events = Ok calls ↔
     Forall call_ok calls ∧ concat (map flatten calls) = bodies events) ∧
  is_Some (parse_loop (length events) events).
Proof.
  split; [apply parseCalls_Ok|].
  destruct (parse_loop_spec (length events) events) as (r & E & _); [lia|]. by exists r.
Qed.

(** [ParseTxs] accepts exactly the streams in strict chain order that split into runs of one
    ledger and hash, each the events of a sequence of calls, with no hash in two runs; its result is
    the transaction of each run, so no event is lost, moved or counted twice. The loop ends within
    as many turns as there are events. *)
Theorem ParseTxs_partitions (events : list Event) (txs : list Transaction) :
  (ParseTxs events = Ok txs ↔
     (∃ groups, concat groups = events ∧ Forall2 tx_of groups txs) ∧
     StronglySorted (λ e f, Less (Pos (Raw e)) (Pos (Raw f)) = true) events ∧
     NoDup (map THash txs)) ∧
  is_Some (parse_txs (length events) None events).
Proof.
  split; [|destruct (parse_txs_total (length events) None events) as (r & E & _); [lia|by exists r]].
  rewrite ParseTxs_Ok. split; intros (H1 & H2 & H3).
  - split; [done|]. split; [|done]. by apply Sorted_StronglySorted in H2; [|apply Before_trans].
  - split; [done|]. split; [|done]. by apply StronglySorted_Sorted.
Qed.

End calls.
