(* ===== verification/ChainData.v ===== *)
(** The data of [services/internal/chainstate/state.go]: the replayed state, the delta of a window
    and the updates of their fields.

    Go's pointers to [big.Int]s and exits are values here: the code replaces the integers of an exit
    with new ones rather than update them in place, and no two states share a map. A field
    assignment [s.F = x] is [set_F x], an append to a field of the delta is [add_F x]. *)
From S2P Require Import Prelude.
From S2P Require Import Fr.
From S2P Require Import Tree.
From S2P Require Import VaultState.
From S2P Require Import Events.
From S2P Require Import Calls.

Module chaindata.

(** [Deposit] is a deposit still in the entry queue. *)
Record Deposit : Type := mkDeposit { DepID : Z; Depositor : string; Amount : Z;
  Commitment0 : fr.Element; Commitment1 : fr.Element; CreatedAt : Z; CreatedLedger : Z;
  CreatedTx : string; Flag : option Z; FlaggedAt : Z }.

Definition set_Flag (x : option Z) (d : Deposit) : Deposit := mkDeposit (DepID d) (Depositor d)
    (Amount d) (Commitment0 d) (Commitment1 d) (CreatedAt d) (CreatedLedger d) (CreatedTx d) x
    (FlaggedAt d).
Definition set_FlaggedAt (x : Z) (d : Deposit) : Deposit := mkDeposit (DepID d) (Depositor d)
    (Amount d) (Commitment0 d) (Commitment1 d) (CreatedAt d) (CreatedLedger d) (CreatedTx d)
    (Flag d) x.

(** [Exit] is a payment the vault owes: one waiting in the exit queue, or, among the stranded exits,
    the parts a release could not pay. *)
Record Exit : Type := mkExit { ExID : Z; Payout : Z; Fee : Z; QueuedPayout : Z; QueuedFee : Z;
  MovedPayout : Z; MovedFee : Z; Recipient : string; Relayer : string; QueuedAt : Z; ExLedger : Z;
  ExTxHash : string; StrandedLedger : Z; StrandedAt : Z; StrandedTx : string;
  RequeuedFrom : option Z; RequeuedTo : list Z }.

Definition set_Payout (x : Z) (e : Exit) : Exit := mkExit (ExID e) x (Fee e) (QueuedPayout e)
    (QueuedFee e) (MovedPayout e) (MovedFee e) (Recipient e) (Relayer e) (QueuedAt e) (ExLedger e)
    (ExTxHash e) (StrandedLedger e) (StrandedAt e) (StrandedTx e) (RequeuedFrom e) (RequeuedTo e).
Definition set_Fee (x : Z) (e : Exit) : Exit := mkExit (ExID e) (Payout e) x (QueuedPayout e)
    (QueuedFee e) (MovedPayout e) (MovedFee e) (Recipient e) (Relayer e) (QueuedAt e) (ExLedger e)
    (ExTxHash e) (StrandedLedger e) (StrandedAt e) (StrandedTx e) (RequeuedFrom e) (RequeuedTo e).
Definition set_MovedPayout (x : Z) (e : Exit) : Exit := mkExit (ExID e) (Payout e) (Fee e)
    (QueuedPayout e) (QueuedFee e) x (MovedFee e) (Recipient e) (Relayer e) (QueuedAt e)
    (ExLedger e) (ExTxHash e) (StrandedLedger e) (StrandedAt e) (StrandedTx e) (RequeuedFrom e)
    (RequeuedTo e).
Definition set_MovedFee (x : Z) (e : Exit) : Exit := mkExit (ExID e) (Payout e) (Fee e)
    (QueuedPayout e) (QueuedFee e) (MovedPayout e) x (Recipient e) (Relayer e) (QueuedAt e)
    (ExLedger e) (ExTxHash e) (StrandedLedger e) (StrandedAt e) (StrandedTx e) (RequeuedFrom e)
    (RequeuedTo e).
Definition set_StrandedLedger (x : Z) (e : Exit) : Exit := mkExit (ExID e) (Payout e) (Fee e)
    (QueuedPayout e) (QueuedFee e) (MovedPayout e) (MovedFee e) (Recipient e) (Relayer e)
    (QueuedAt e) (ExLedger e) (ExTxHash e) x (StrandedAt e) (StrandedTx e) (RequeuedFrom e)
    (RequeuedTo e).
Definition set_StrandedAt (x : Z) (e : Exit) : Exit := mkExit (ExID e) (Payout e) (Fee e)
    (QueuedPayout e) (QueuedFee e) (MovedPayout e) (MovedFee e) (Recipient e) (Relayer e)
    (QueuedAt e) (ExLedger e) (ExTxHash e) (StrandedLedger e) x (StrandedTx e) (RequeuedFrom e)
    (RequeuedTo e).
Definition set_StrandedTx (x : string) (e : Exit) : Exit := mkExit (ExID e) (Payout e) (Fee e)
    (QueuedPayout e) (QueuedFee e) (MovedPayout e) (MovedFee e) (Recipient e) (Relayer e)
    (QueuedAt e) (ExLedger e) (ExTxHash e) (StrandedLedger e) (StrandedAt e) x (RequeuedFrom e)
    (RequeuedTo e).
Definition set_RequeuedTo (x : list Z) (e : Exit) : Exit := mkExit (ExID e) (Payout e) (Fee e)
    (QueuedPayout e) (QueuedFee e) (MovedPayout e) (MovedFee e) (Recipient e) (Relayer e)
    (QueuedAt e) (ExLedger e) (ExTxHash e) (StrandedLedger e) (StrandedAt e) (StrandedTx e)
    (RequeuedFrom e) x.

(** [Exit.Outflow] is what the exit takes from a day's window. *)
Definition ExitOutflow (e : Exit) : Z := Payout e + Fee e.

(** [Paid] is what releases have paid under this ID. *)
Definition Paid (e : Exit) : Z * Z :=
  let payout := QueuedPayout e - Payout e in
  let fee := QueuedFee e - Fee e in
  (payout - MovedPayout e, fee - MovedFee e).

(** [State] is what the vault's events determine. *)
Record State : Type := mkState { Tree : tree.Tree; NextDepositID : Z; AttestedUpTo : Z;
  Pending : gmap Z Deposit; NullifierCount : Z; Tvl : Z; PendingTotal : Z; QueuedTotal : Z;
  ExitHead : Z; ExitTail : Z; Exits : gmap Z Exit; Stranded : gmap Z Exit; OutflowDay : Z;
  Outflow : Z; DepositsPaused : bool; TransfersPaused : bool; HaltedUntil : Z; NextHaltAt : Z;
  Limits : option vault.Limits; Queued : option vault.QueuedLimits }.

(** Field updates. *)
Definition set_Tree (x : tree.Tree) (s : State) : State := mkState x (NextDepositID s)
    (AttestedUpTo s) (Pending s) (NullifierCount s) (Tvl s) (PendingTotal s) (QueuedTotal s)
    (ExitHead s) (ExitTail s) (Exits s) (Stranded s) (OutflowDay s) (Outflow s) (DepositsPaused s)
    (TransfersPaused s) (HaltedUntil s) (NextHaltAt s) (Limits s) (Queued s).
Definition set_NextDepositID (x : Z) (s : State) : State := mkState (Tree s) x (AttestedUpTo s)
    (Pending s) (NullifierCount s) (Tvl s) (PendingTotal s) (QueuedTotal s) (ExitHead s)
    (ExitTail s) (Exits s) (Stranded s) (OutflowDay s) (Outflow s) (DepositsPaused s)
    (TransfersPaused s) (HaltedUntil s) (NextHaltAt s) (Limits s) (Queued s).
Definition set_AttestedUpTo (x : Z) (s : State) : State := mkState (Tree s) (NextDepositID s) x
    (Pending s) (NullifierCount s) (Tvl s) (PendingTotal s) (QueuedTotal s) (ExitHead s)
    (ExitTail s) (Exits s) (Stranded s) (OutflowDay s) (Outflow s) (DepositsPaused s)
    (TransfersPaused s) (HaltedUntil s) (NextHaltAt s) (Limits s) (Queued s).
Definition set_Pending (x : gmap Z Deposit) (s : State) : State := mkState (Tree s)
    (NextDepositID s) (AttestedUpTo s) x (NullifierCount s) (Tvl s) (PendingTotal s)
    (QueuedTotal s) (ExitHead s) (ExitTail s) (Exits s) (Stranded s) (OutflowDay s) (Outflow s)
    (DepositsPaused s) (TransfersPaused s) (HaltedUntil s) (NextHaltAt s) (Limits s) (Queued s).
Definition set_NullifierCount (x : Z) (s : State) : State := mkState (Tree s) (NextDepositID s)
    (AttestedUpTo s) (Pending s) x (Tvl s) (PendingTotal s) (QueuedTotal s) (ExitHead s)
    (ExitTail s) (Exits s) (Stranded s) (OutflowDay s) (Outflow s) (DepositsPaused s)
    (TransfersPaused s) (HaltedUntil s) (NextHaltAt s) (Limits s) (Queued s).
Definition set_Tvl (x : Z) (s : State) : State := mkState (Tree s) (NextDepositID s)
    (AttestedUpTo s) (Pending s) (NullifierCount s) x (PendingTotal s) (QueuedTotal s)
    (ExitHead s) (ExitTail s) (Exits s) (Stranded s) (OutflowDay s) (Outflow s) (DepositsPaused s)
    (TransfersPaused s) (HaltedUntil s) (NextHaltAt s) (Limits s) (Queued s).
Definition set_PendingTotal (x : Z) (s : State) : State := mkState (Tree s) (NextDepositID s)
    (AttestedUpTo s) (Pending s) (NullifierCount s) (Tvl s) x (QueuedTotal s) (ExitHead s)
    (ExitTail s) (Exits s) (Stranded s) (OutflowDay s) (Outflow s) (DepositsPaused s)
    (TransfersPaused s) (HaltedUntil s) (NextHaltAt s) (Limits s) (Queued s).
Definition set_QueuedTotal (x : Z) (s : State) : State := mkState (Tree s) (NextDepositID s)
    (AttestedUpTo s) (Pending s) (NullifierCount s) (Tvl s) (PendingTotal s) x (ExitHead s)
    (ExitTail s) (Exits s) (Stranded s) (OutflowDay s) (Outflow s) (DepositsPaused s)
    (TransfersPaused s) (HaltedUntil s) (NextHaltAt s) (Limits s) (Queued s).
Definition set_ExitHead (x : Z) (s : State) : State := mkState (Tree s) (NextDepositID s)
    (AttestedUpTo s) (Pending s) (NullifierCount s) (Tvl s) (PendingTotal s) (QueuedTotal s) x
    (ExitTail s) (Exits s) (Stranded s) (OutflowDay s) (Outflow s) (DepositsPaused s)
    (TransfersPaused s) (HaltedUntil s) (NextHaltAt s) (Limits s) (Queued s).
Definition set_ExitTail (x : Z) (s : State) : State := mkState (Tree s) (NextDepositID s)
    (AttestedUpTo s) (Pending s) (NullifierCount s) (Tvl s) (PendingTotal s) (QueuedTotal s)
    (ExitHead s) x (Exits s) (Stranded s) (OutflowDay s) (Outflow s) (DepositsPaused s)
    (TransfersPaused s) (HaltedUntil s) (NextHaltAt s) (Limits s) (Queued s).
Definition set_Exits (x : gmap Z Exit) (s : State) : State := mkState (Tree s) (NextDepositID s)
    (AttestedUpTo s) (Pending s) (NullifierCount s) (Tvl s) (PendingTotal s) (QueuedTotal s)
    (ExitHead s) (ExitTail s) x (Stranded s) (OutflowDay s) (Outflow s) (DepositsPaused s)
    (TransfersPaused s) (HaltedUntil s) (NextHaltAt s) (Limits s) (Queued s).
Definition set_Stranded (x : gmap Z Exit) (s : State) : State := mkState (Tree s)
    (NextDepositID s) (AttestedUpTo s) (Pending s) (NullifierCount s) (Tvl s) (PendingTotal s)
    (QueuedTotal s) (ExitHead s) (ExitTail s) (Exits s) x (OutflowDay s) (Outflow s)
    (DepositsPaused s) (TransfersPaused s) (HaltedUntil s) (NextHaltAt s) (Limits s) (Queued s).
Definition set_OutflowDay (x : Z) (s : State) : State := mkState (Tree s) (NextDepositID s)
    (AttestedUpTo s) (Pending s) (NullifierCount s) (Tvl s) (PendingTotal s) (QueuedTotal s)
    (ExitHead s) (ExitTail s) (Exits s) (Stranded s) x (Outflow s) (DepositsPaused s)
    (TransfersPaused s) (HaltedUntil s) (NextHaltAt s) (Limits s) (Queued s).
Definition set_Outflow (x : Z) (s : State) : State := mkState (Tree s) (NextDepositID s)
    (AttestedUpTo s) (Pending s) (NullifierCount s) (Tvl s) (PendingTotal s) (QueuedTotal s)
    (ExitHead s) (ExitTail s) (Exits s) (Stranded s) (OutflowDay s) x (DepositsPaused s)
    (TransfersPaused s) (HaltedUntil s) (NextHaltAt s) (Limits s) (Queued s).
Definition set_DepositsPaused (x : bool) (s : State) : State := mkState (Tree s) (NextDepositID s)
    (AttestedUpTo s) (Pending s) (NullifierCount s) (Tvl s) (PendingTotal s) (QueuedTotal s)
    (ExitHead s) (ExitTail s) (Exits s) (Stranded s) (OutflowDay s) (Outflow s) x
    (TransfersPaused s) (HaltedUntil s) (NextHaltAt s) (Limits s) (Queued s).
Definition set_TransfersPaused (x : bool) (s : State) : State := mkState (Tree s)
    (NextDepositID s) (AttestedUpTo s) (Pending s) (NullifierCount s) (Tvl s) (PendingTotal s)
    (QueuedTotal s) (ExitHead s) (ExitTail s) (Exits s) (Stranded s) (OutflowDay s) (Outflow s)
    (DepositsPaused s) x (HaltedUntil s) (NextHaltAt s) (Limits s) (Queued s).
Definition set_HaltedUntil (x : Z) (s : State) : State := mkState (Tree s) (NextDepositID s)
    (AttestedUpTo s) (Pending s) (NullifierCount s) (Tvl s) (PendingTotal s) (QueuedTotal s)
    (ExitHead s) (ExitTail s) (Exits s) (Stranded s) (OutflowDay s) (Outflow s) (DepositsPaused s)
    (TransfersPaused s) x (NextHaltAt s) (Limits s) (Queued s).
Definition set_NextHaltAt (x : Z) (s : State) : State := mkState (Tree s) (NextDepositID s)
    (AttestedUpTo s) (Pending s) (NullifierCount s) (Tvl s) (PendingTotal s) (QueuedTotal s)
    (ExitHead s) (ExitTail s) (Exits s) (Stranded s) (OutflowDay s) (Outflow s) (DepositsPaused s)
    (TransfersPaused s) (HaltedUntil s) x (Limits s) (Queued s).
Definition set_Limits (x : option vault.Limits) (s : State) : State := mkState (Tree s)
    (NextDepositID s) (AttestedUpTo s) (Pending s) (NullifierCount s) (Tvl s) (PendingTotal s)
    (QueuedTotal s) (ExitHead s) (ExitTail s) (Exits s) (Stranded s) (OutflowDay s) (Outflow s)
    (DepositsPaused s) (TransfersPaused s) (HaltedUntil s) (NextHaltAt s) x (Queued s).
Definition set_Queued (x : option vault.QueuedLimits) (s : State) : State := mkState (Tree s)
    (NextDepositID s) (AttestedUpTo s) (Pending s) (NullifierCount s) (Tvl s) (PendingTotal s)
    (QueuedTotal s) (ExitHead s) (ExitTail s) (Exits s) (Stranded s) (OutflowDay s) (Outflow s)
    (DepositsPaused s) (TransfersPaused s) (HaltedUntil s) (NextHaltAt s) (Limits s) x.

(** [New] returns the state of a freshly deployed vault. *)
Definition New : State :=
  mkState tree.empty 1 0 ∅ 0 0 0 0 1 1 ∅ ∅ 0 0 false false 0 0 None None.

(** [Status] is the vault status the state replays. *)
Definition Status (s : State) : vault.Status :=
  vault.mkStatus (DepositsPaused s) (TransfersPaused s) (HaltedUntil s) (NextHaltAt s)
    (NextDepositID s) (AttestedUpTo s) (Tvl s) (PendingTotal s) (QueuedTotal s) (ExitHead s)
    (ExitTail s) (OutflowDay s) (Outflow s).

(** A difference [StatusDiff] reports: the field, its value on chain and its replayed value. *)
Record difference : Type := mkDifference { field : string; on_chain : fmtarg; replayed : fmtarg }.

(** A boolean as [%v] prints it. *)
Definition FBool (b : bool) : fmtarg := FStr (if b then "true" else "false").

(** [StatusDiff] lists the fields where a status the vault holds and a replayed one differ; what was
    paid out is compared for one day only. *)
Definition StatusDiff (chain replayed : vault.Status) (day : Z) : list difference :=
  let check name (equal : bool) c r := if equal then [] else [mkDifference name c r] in
  let check_int name c r := check name (c =? r) (FInt c) (FInt r) in
  let check_bool name c r := check name (Bool.eqb c r) (FBool c) (FBool r) in
  check_int "tvl" (vault.Tvl chain) (vault.Tvl replayed) ++
  check_int "pending_total" (vault.PendingTotal chain) (vault.PendingTotal replayed) ++
  check_int "queued_total" (vault.QueuedTotal chain) (vault.QueuedTotal replayed) ++
  check_int "exit_head" (vault.ExitHead chain) (vault.ExitHead replayed) ++
  check_int "exit_tail" (vault.ExitTail chain) (vault.ExitTail replayed) ++
  check_int "next_deposit_id" (vault.NextDepositID chain) (vault.NextDepositID replayed) ++
  check_int "attested_up_to" (vault.AttestedUpTo chain) (vault.AttestedUpTo replayed) ++
  check_bool "deposits_paused" (vault.DepositsPaused chain) (vault.DepositsPaused replayed) ++
  check_bool "transfers_paused" (vault.TransfersPaused chain) (vault.TransfersPaused replayed) ++
  check_int "halted_until" (vault.HaltedUntil chain) (vault.HaltedUntil replayed) ++
  check_int "next_halt_at" (vault.NextHaltAt chain) (vault.NextHaltAt replayed) ++
  check_int "today's outflow" (vault.OutflowOn chain day) (vault.OutflowOn replayed day).

(** [State.OutflowOn] is what the window of the given day has paid. *)
Definition OutflowOn (s : State) (d : Z) : Z := if OutflowDay s =? d then Outflow s else 0.

(** ** The delta of a window *)

(** [Leaf] is an inserted commitment. *)
Record Leaf : Type := mkLeaf {
  LeafIndex : Z; LeafCommitment : fr.Element; LeafCiphertext : list Z; LeafLedger : Z;
  LeafTxHash : string }.

(** [Nullifier] is a spent nullifier; [Seq] is its position in chain order. *)
Record Nullifier : Type := mkNullifier {
  Seq : Z; NullifierOf : fr.Element; NullifierLedger : Z; NullifierTxHash : string }.

(** [Outcome] is how a deposit left the queue. *)
Inductive Outcome : Type := OutAdmitted | Cancelled | Refunded.

(** [Resolution] records a deposit leaving the queue. *)
Record Resolution : Type := mkResolution {
  RDeposit : Deposit; ROutcome : Outcome; Reason : Z; RLedger : Z; RClosedAt : Z; RTxHash : string;
  LeafIndex0 : Z; LeafIndex1 : Z }.

(** [Settlement] records one payment out of the vault. *)
Record Settlement : Type := mkSettlement {
  SSettled : events.Settled; SLedger : Z; SClosedAt : Z; STxHash : string }.

(** [Released] is a queued exit that release took off the queue. *)
Record Released : Type := mkReleased {
  RelExit : Exit; UnpaidPayout : Z; UnpaidFee : Z; PaidLedger : Z; PaidAt : Z; PaidTx : string }.

(** [PartPaid] is what the exit at the head of the queue still owes after release paid part of it. *)
Record PartPaid : Type := mkPartPaid { PPID : Z; PayoutLeft : Z; FeeLeft : Z }.

(** [Requeued] is a claim that moved parts of the stranded exit [From] back into the queue as the
    exit [To]. *)
Record Requeued : Type := mkRequeued {
  From : Z; To : Z; RqPayoutLeft : Z; RqFeeLeft : Z; RqLedger : Z; RqClosedAt : Z;
  RqTxHash : string }.

(** [RootAt] is the tree's root once it holds [LeafCount] leaves. *)
Record RootAt : Type := mkRootAt { LeafCount : Z; RootOf : fr.Element }.

(** The [any] of [Notice.Body]: an event body, an [Attestation] (the attestation and the deposits it
    vouches for) or an [Unflag] (the unflag and the attestation it came under). *)
Inductive NoticeBody : Type :=
| NBody (b : events.Body)
| NAttestation (a : events.Attested) (covered : list Z)
| NUnflag (u : events.DepositUnflagged) (attestedUpTo : Z).

(** [Notice] is a governance, queue or exit event, kept for the services that report them. *)
Record Notice : Type := mkNotice {
  NName : string; NoticeBodyOf : NoticeBody; NLedger : Z; NClosedAt : Z; NTxHash : string;
  NIndex : nat }.

Inductive exitChangeKind : Type := queuedChange | partPaidChange | releasedChange | requeuedChange.

Record exitChange : Type := mkExitChange { kind : exitChangeKind; index : nat }.

(** [Delta] is what one window of transactions changed. *)
Record Delta : Type := mkDelta { Leaves : list Leaf; Roots : list RootAt;
  Nullifiers : list Nullifier; Created : list Deposit; Updated : list Deposit;
  Resolved : list Resolution; Settlements : list Settlement; DQueued : list Exit;
  DPartPaid : list PartPaid; DReleased : list Released; DRequeued : list Requeued;
  Notices : list Notice; exitOrder : list exitChange }.

Definition empty_delta : Delta := mkDelta [] [] [] [] [] [] [] [] [] [] [] [] [].

(** Appends. *)
Definition add_Leaves (x : Leaf) (d : Delta) : Delta := mkDelta (Leaves d ++ [x]) (Roots d)
    (Nullifiers d) (Created d) (Updated d) (Resolved d) (Settlements d) (DQueued d) (DPartPaid d)
    (DReleased d) (DRequeued d) (Notices d) (exitOrder d).
Definition add_Roots (x : RootAt) (d : Delta) : Delta := mkDelta (Leaves d) (Roots d ++ [x])
    (Nullifiers d) (Created d) (Updated d) (Resolved d) (Settlements d) (DQueued d) (DPartPaid d)
    (DReleased d) (DRequeued d) (Notices d) (exitOrder d).
Definition add_Nullifiers (x : Nullifier) (d : Delta) : Delta := mkDelta (Leaves d) (Roots d)
    (Nullifiers d ++ [x]) (Created d) (Updated d) (Resolved d) (Settlements d) (DQueued d)
    (DPartPaid d) (DReleased d) (DRequeued d) (Notices d) (exitOrder d).
Definition add_Created (x : Deposit) (d : Delta) : Delta := mkDelta (Leaves d) (Roots d)
    (Nullifiers d) (Created d ++ [x]) (Updated d) (Resolved d) (Settlements d) (DQueued d)
    (DPartPaid d) (DReleased d) (DRequeued d) (Notices d) (exitOrder d).
Definition add_Updated (x : Deposit) (d : Delta) : Delta := mkDelta (Leaves d) (Roots d)
    (Nullifiers d) (Created d) (Updated d ++ [x]) (Resolved d) (Settlements d) (DQueued d)
    (DPartPaid d) (DReleased d) (DRequeued d) (Notices d) (exitOrder d).
Definition add_Resolved (x : Resolution) (d : Delta) : Delta := mkDelta (Leaves d) (Roots d)
    (Nullifiers d) (Created d) (Updated d) (Resolved d ++ [x]) (Settlements d) (DQueued d)
    (DPartPaid d) (DReleased d) (DRequeued d) (Notices d) (exitOrder d).
Definition add_Settlements (x : Settlement) (d : Delta) : Delta := mkDelta (Leaves d) (Roots d)
    (Nullifiers d) (Created d) (Updated d) (Resolved d) (Settlements d ++ [x]) (DQueued d)
    (DPartPaid d) (DReleased d) (DRequeued d) (Notices d) (exitOrder d).
Definition add_DQueued (x : Exit) (d : Delta) : Delta := mkDelta (Leaves d) (Roots d)
    (Nullifiers d) (Created d) (Updated d) (Resolved d) (Settlements d) (DQueued d ++ [x])
    (DPartPaid d) (DReleased d) (DRequeued d) (Notices d) (exitOrder d).
Definition add_DPartPaid (x : PartPaid) (d : Delta) : Delta := mkDelta (Leaves d) (Roots d)
    (Nullifiers d) (Created d) (Updated d) (Resolved d) (Settlements d) (DQueued d)
    (DPartPaid d ++ [x]) (DReleased d) (DRequeued d) (Notices d) (exitOrder d).
Definition add_DReleased (x : Released) (d : Delta) : Delta := mkDelta (Leaves d) (Roots d)
    (Nullifiers d) (Created d) (Updated d) (Resolved d) (Settlements d) (DQueued d) (DPartPaid d)
    (DReleased d ++ [x]) (DRequeued d) (Notices d) (exitOrder d).
Definition add_DRequeued (x : Requeued) (d : Delta) : Delta := mkDelta (Leaves d) (Roots d)
    (Nullifiers d) (Created d) (Updated d) (Resolved d) (Settlements d) (DQueued d) (DPartPaid d)
    (DReleased d) (DRequeued d ++ [x]) (Notices d) (exitOrder d).
Definition add_Notices (x : Notice) (d : Delta) : Delta := mkDelta (Leaves d) (Roots d)
    (Nullifiers d) (Created d) (Updated d) (Resolved d) (Settlements d) (DQueued d) (DPartPaid d)
    (DReleased d) (DRequeued d) (Notices d ++ [x]) (exitOrder d).
Definition add_exitOrder (x : exitChange) (d : Delta) : Delta := mkDelta (Leaves d) (Roots d)
    (Nullifiers d) (Created d) (Updated d) (Resolved d) (Settlements d) (DQueued d) (DPartPaid d)
    (DReleased d) (DRequeued d) (Notices d) (exitOrder d ++ [x]).

(** [Delta.queued], [Delta.partPaid], [Delta.released] and [Delta.requeued]. *)
Definition queued (e : Exit) (d : Delta) : Delta :=
  add_DQueued e (add_exitOrder (mkExitChange queuedChange (length (DQueued d))) d).
Definition partPaid (p : PartPaid) (d : Delta) : Delta :=
  add_DPartPaid p (add_exitOrder (mkExitChange partPaidChange (length (DPartPaid d))) d).
Definition released (r : Released) (d : Delta) : Delta :=
  add_DReleased r (add_exitOrder (mkExitChange releasedChange (length (DReleased d))) d).
Definition requeued (r : Requeued) (d : Delta) : Delta :=
  add_DRequeued r (add_exitOrder (mkExitChange requeuedChange (length (DRequeued d))) d).

End chaindata.
