(* ===== verification/ChainState.v ===== *)
(** The replay of [services/internal/chainstate/state.go]: every call of a transaction checked
    against the vault's rules and applied to the state, the delta and the nullifiers spent so far. *)
From S2P Require Import Prelude.
From S2P Require Import Fr.
From S2P Require Import Tree.
From S2P Require Import VaultState.
From S2P Require Import Events.
From S2P Require Import Calls.
From S2P Require Import ChainData.

Module chainstate.

Import chaindata.

(** [ErrInconsistent] reports events that contradict the vault's own rules. *)
Definition ErrInconsistent : gerr := Sentinel "chainstate: events contradict the vault".
Definition inconsistent (format : string) (args : list fmtarg) : gerr :=
  Wrapf ErrInconsistent format args.

Definition day : Z := 86400.
Definition haltCooldown : Z := 7 * day.
Definition refundDelay : Z := day.

(** What the methods of a state update while they apply a window: the state, the delta [d] and the
    set [spent] the code passes along. *)
Record World : Type := mkWorld { state : State; delta : Delta; spent : gset fr.Element }.

Definition get : ST World State := λ w, (w, Ok (state w)).
Definition upd (f : State → State) : ST World unit :=
  st_modify (λ w, mkWorld (f (state w)) (delta w) (spent w)).
Definition record (f : Delta → Delta) : ST World unit :=
  st_modify (λ w, mkWorld (state w) (f (delta w)) (spent w)).
Definition reject {A} (format : string) (args : list fmtarg) : ST World A :=
  st_fail (inconsistent format args).
Definition reject_if (cond : bool) (format : string) (args : list fmtarg) : ST World unit :=
  st_fail_if cond (inconsistent format args).

(** A nil pointer dereference, which panics. *)
Definition nil_dereference {A} : ST World A := st_fail (Sentinel "nil pointer dereference").

Definition halted (s : State) (now : Z) : bool := now <? HaltedUntil s.

Definition minInt (a b : Z) : Z := if a <? b then a else b.

(** [step] is what a release tries to pay of an exit today: the payout first, then the fee, each cut
    to what is left of the window; [None] before the first limits event. *)
Definition step (s : State) (now : Z) (e : Exit) : option (Z * Z) :=
  match Limits s with
  | None => None
  | Some limits =>
      let room := vault.MaxDailyOutflow limits - OutflowOn s (now / day) in
      let room := if Z.sgn room <? 0 then 0 else room in
      let payout := minInt (Payout e) room in
      Some (payout, minInt (Fee e) (room - payout))
  end.

(** [fits] reports whether an outflow fits what is left of today's window. *)
Definition fits (s : State) (now outflow : Z) : bool :=
  match Limits s with
  | None => true
  | Some limits => OutflowOn s (now / day) + outflow <=? vault.MaxDailyOutflow limits
  end.

(** [pay] takes an outflow out of the vault and today's window. *)
Definition pay (now outflow : Z) (s : State) : State :=
  let s := set_Tvl (Tvl s - outflow) s in
  let today := now / day in
  let s := if negb (today =? OutflowDay s) then set_Outflow 0 (set_OutflowDay today s) else s in
  set_Outflow (Outflow s + outflow) s.

(** [notice] numbers the notices of one transaction in their order. *)
Definition notice (tx : calls.Transaction) (name : string) (body : NoticeBody) : ST World unit :=
  record (λ d,
    let index := length (filter (λ n, NTxHash n = calls.THash tx ∧ NLedger n = calls.TLedger tx)
                           (Notices d)) in
    add_Notices (mkNotice name body (calls.TLedger tx) (calls.TClosedAt tx) (calls.THash tx) index) d).

(** One turn of the loop of [spend]. *)
Definition spend_one (tx : calls.Transaction) (nf : events.NewNullifier) : ST World unit := λ w,
  let n := events.NN_Nullifier nf in
  if bool_decide (n ∈ spent w) then reject "nullifier %s spent twice" [FStr (fr.Hex n)] w
  else
    (mkWorld (set_NullifierCount (u64 (NullifierCount (state w) + 1)) (state w))
       (add_Nullifiers (mkNullifier (NullifierCount (state w)) n (calls.TLedger tx)
          (calls.THash tx)) (delta w))
       ({[n]} ∪ spent w), Ok tt).

Definition spend (tx : calls.Transaction) (nfs : events.NewNullifier * events.NewNullifier)
    : ST World unit :=
  _ ← reject_if (bool_decide (events.NN_Nullifier nfs.1 = events.NN_Nullifier nfs.2))
        "one transaction spends a nullifier twice" [];
  _ ← spend_one tx nfs.1;
  spend_one tx nfs.2.

Section chainstate.
Context {NH : tree.NodeHash}.

(** [s.Tree.AppendPair(left, right)] *)
Definition append_pair (left right : fr.Element) : ST World unit := λ w,
  match tree.AppendPair left right (Tree (state w)) with
  | (t, Ok _) => (mkWorld (set_Tree t (state w)) (delta w) (spent w), Ok tt)
  | (t, Fail e) =>
      (mkWorld (set_Tree t (state w)) (delta w) (spent w), Fail (inconsistent "insertion: %v" [FErr e]))
  end.

Definition leaf (tx : calls.Transaction) (o : events.NewCommitment) : Leaf :=
  mkLeaf (events.NC_Index o) (events.NC_Commitment o) (events.NC_Ciphertext o) (calls.TLedger tx)
    (calls.THash tx).

Definition insert (tx : calls.Transaction) (outputs : events.NewCommitment * events.NewCommitment)
    : ST World unit :=
  s ← get;
  _ ← reject_if (negb (events.NC_Index outputs.1 =? tree.Len (Tree s)))
        "leaf %d inserted where %d was next"
        [FInt (events.NC_Index outputs.1); FInt (tree.Len (Tree s))];
  _ ← append_pair (events.NC_Commitment outputs.1) (events.NC_Commitment outputs.2);
  s ← get;
  _ ← record (add_Roots (mkRootAt (tree.Len (Tree s)) (tree.Root (Tree s))));
  _ ← record (add_Leaves (leaf tx outputs.1));
  record (add_Leaves (leaf tx outputs.2)).

(** [vault.Settled] of a payment of an exit, and the settlement that records it. *)
Definition settlement (tx : calls.Transaction) (s : events.Settled) : Settlement :=
  mkSettlement s (calls.TLedger tx) (calls.TClosedAt tx) (calls.THash tx).

(** The four values of [transact]: those of the queued exit, or else of the settlement. *)
Definition payment (c : calls.Transact) : ST World (Z * Z * string * string) :=
  match calls.T_Queued c with
  | Some q =>
      mret (events.EQ_ExtAmount q, events.EQ_Fee q, events.EQ_Recipient q, events.EQ_Relayer q)
  | None =>
      match calls.T_Settled c with
      | Some p =>
          mret (events.S_ExtAmount p, events.S_Fee p, events.S_Recipient p, events.S_Relayer p)
      | None => nil_dereference
      end
  end.

Definition transact (tx : calls.Transaction) (c : calls.Transact) : ST World unit :=
  let now := u64 (calls.TClosedAt tx) in
  s ← get;
  _ ← reject_if (halted s now) "a transact while halted" [];
  '(extAmount, fee, recipient, relayer) ← payment c;
  _ ← reject_if ((Z.sgn extAmount =? 0) &&
                 (TransfersPaused s || negb (String.eqb recipient relayer)))
        "a transfer while transfers are paused or to a recipient other than its relayer" [];
  _ ← reject_if (bool_decide (events.NC_Commitment (calls.T_Outputs c).1 =
                              events.NC_Commitment (calls.T_Outputs c).2))
        "a transaction with two equal outputs" [];
  let outflow := fee - extAmount in
  let notes := Tvl s - PendingTotal s - QueuedTotal s in
  _ ← reject_if (notes <? outflow) "an exit larger than the value of the admitted notes" [];
  _ ← reject_if (match Limits s with
                 | None => false
                 | Some l => (vault.MaxFee l <? fee) || (vault.MaxDailyOutflow l <? outflow)
                 end) "a fee above max_fee or an exit above max_daily_outflow" [];
  _ ← spend tx (calls.T_Nullifiers c);
  _ ← insert tx (calls.T_Outputs c);
  s ← get;
  let fits := (ExitHead s =? ExitTail s) && fits s now outflow in
  match calls.T_Queued c with
  | Some q =>
      let id := events.EQ_ID q in
      _ ← reject_if (negb (id =? ExitTail s)) "exit %d queued where %d was next"
            [FInt id; FInt (ExitTail s)];
      _ ← reject_if (fits && bool_decide (is_Some (Limits s)))
            "exit %d queued while it could be paid at once" [FInt id];
      let e := mkExit id (- events.EQ_ExtAmount q) (events.EQ_Fee q) (- events.EQ_ExtAmount q)
                 (events.EQ_Fee q) 0 0 (events.EQ_Recipient q) (events.EQ_Relayer q) now
                 (calls.TLedger tx) (calls.THash tx) 0 0 "" None [] in
      _ ← upd (λ s, set_Exits (<[id := e]> (Exits s)) s);
      _ ← upd (λ s, set_ExitTail (u64 (ExitTail s + 1)) s);
      _ ← upd (λ s, set_QueuedTotal (QueuedTotal s + outflow) s);
      _ ← record (queued e);
      notice tx "exit_queued" (NBody (events.BExitQueued q))
  | None =>
      _ ← reject_if ((0 <? Z.sgn outflow) && negb fits)
            "an exit paid at once past a queued one or beyond today's window" [];
      _ ← upd (pay now outflow);
      match calls.T_Settled c with
      | Some p => record (add_Settlements (settlement tx p))
      | None => nil_dereference
      end
  end.

(** [head] returns the exit at the head of the queue, which a release must handle next. *)
Definition head (now id : Z) : ST World Exit :=
  s ← get;
  _ ← reject_if (halted s now) "a release while halted" [];
  match Exits s !! id with
  | Some e =>
      _ ← reject_if (negb (id =? ExitHead s)) "exit %d released out of turn; the head is %d"
            [FInt id; FInt (ExitHead s)];
      mret e
  | None => reject "exit %d released out of turn; the head is %d" [FInt id; FInt (ExitHead s)]
  end.

(** The test that ends [takeOff], [payPart] and a refund. *)
Definition holds_enough (total : State → Z) (format : string) (id : Z) : ST World unit :=
  s ← get;
  reject_if ((Z.sgn (Tvl s) <? 0) || (Z.sgn (total s) <? 0)) format [FInt id].

(** [takeOff] removes the head exit from the queue and pays what was paid of it. *)
Definition takeOff (now id paid : Z) : ST World unit :=
  _ ← upd (λ s, set_Exits (delete id (Exits s)) s);
  _ ← upd (λ s, set_ExitHead (u64 (ExitHead s + 1)) s);
  _ ← upd (λ s, set_QueuedTotal (QueuedTotal s - paid) s);
  _ ← upd (pay now paid);
  holds_enough QueuedTotal "exit %d pays more than the vault holds" id.

(** [release] pays what the exit at the head of the queue still owes and completes it. *)
Definition release (tx : calls.Transaction) (settled : events.Settled) : ST World unit :=
  let now := u64 (calls.TClosedAt tx) in
  match events.S_ExitID settled with
  | None => nil_dereference
  | Some id =>
      e ← head now id;
      _ ← reject_if (negb (- events.S_ExtAmount settled =? Payout e) ||
                     negb (events.S_Fee settled =? Fee e) ||
                     negb (String.eqb (events.S_Recipient settled) (Recipient e)) ||
                     negb (String.eqb (events.S_Relayer settled) (Relayer e)))
            "exit %d paid differently from what it owes" [FInt id];
      s ← get;
      _ ← reject_if (negb (fits s now (ExitOutflow e))) "exit %d paid beyond today's window" [FInt id];
      _ ← takeOff now id (ExitOutflow e);
      _ ← record (released (mkReleased e 0 0 (calls.TLedger tx) (calls.TClosedAt tx) (calls.THash tx)));
      _ ← record (add_Settlements (settlement tx settled));
      notice tx "exit_released" (NBody (events.BSettled settled))
  end.

(** [payPart] pays part of the exit at the head of the queue and leaves the rest there, as release
    does when the day's window cannot pay all of it. *)
Definition payPart (tx : calls.Transaction) (c : events.ExitPaid) : ST World unit :=
  let now := u64 (calls.TClosedAt tx) in
  let id := events.EP_ID c in
  e ← head now id;
  _ ← reject_if (negb (events.EP_PayoutPaid c + events.EP_PayoutLeft c =? Payout e) ||
                 negb (events.EP_FeePaid c + events.EP_FeeLeft c =? Fee e))
        "exit %d part paid differently from what it owes" [FInt id];
  s ← get;
  _ ← reject_if (match step s now e with
                 | Some (p, f) =>
                     negb (events.EP_PayoutPaid c =? p) || negb (events.EP_FeePaid c =? f)
                 | None => false
                 end) "exit %d part paid other than what today's window allows" [FInt id];
  let paid := events.EP_PayoutPaid c + events.EP_FeePaid c in
  let e := set_Fee (events.EP_FeeLeft c) (set_Payout (events.EP_PayoutLeft c) e) in
  _ ← upd (λ s, set_Exits (<[id := e]> (Exits s)) s);
  _ ← upd (λ s, set_QueuedTotal (QueuedTotal s - paid) s);
  _ ← upd (pay now paid);
  _ ← holds_enough QueuedTotal "exit %d pays more than the vault holds" id;
  let part := events.mkSettled (- events.EP_PayoutPaid c) (events.EP_FeePaid c) (Recipient e)
                (Relayer e) (Some id) in
  _ ← record (partPaid (mkPartPaid id (Payout e) (Fee e)));
  _ ← record (add_Settlements (settlement tx part));
  notice tx "exit_paid" (NBody (events.BExitPaid c)).

(** The closure [whole] of [strand] and [requeue]: a part moved in full or not at all. *)
Definition whole (moved part : Z) : bool := (Z.sgn moved =? 0) || (moved =? part).

(** [strand] releases the exit at the head of the queue with the parts the asset contract refused
    left owed. *)
Definition strand (tx : calls.Transaction) (c : events.ExitStranded) : ST World unit :=
  let now := u64 (calls.TClosedAt tx) in
  let id := events.ES_ID c in
  e ← head now id;
  _ ← reject_if ((Payout e <? events.ES_Payout c) || (Fee e <? events.ES_Fee c))
        "exit %d stranded with more than it owes" [FInt id];
  let paidPayout := Payout e - events.ES_Payout c in
  let paidFee := Fee e - events.ES_Fee c in
  let paid := paidPayout + paidFee in
  s ← get;
  _ ← reject_if (negb (fits s now paid)) "exit %d released beyond today's window" [FInt id];
  _ ← reject_if (match step s now e with
                 | Some (p, f) =>
                     negb (whole paidPayout p) || negb (whole paidFee f) ||
                     ((paidPayout =? p) && (paidFee =? f))
                 | None => false
                 end) "exit %d stranded with parts its release could not have left" [FInt id];
  _ ← takeOff now id paid;
  let left := set_Fee (events.ES_Fee c) (set_Payout (events.ES_Payout c) e) in
  let left := set_StrandedTx (calls.THash tx) (set_StrandedAt (calls.TClosedAt tx)
                (set_StrandedLedger (calls.TLedger tx) left)) in
  _ ← upd (λ s, set_Stranded (<[id := left]> (Stranded s)) s);
  _ ← record (released (mkReleased e (Payout left) (Fee left) (calls.TLedger tx)
                (calls.TClosedAt tx) (calls.THash tx)));
  _ ← (if 0 <? Z.sgn paid then
         record (add_Settlements (settlement tx
           (events.mkSettled (- paidPayout) paidFee (Recipient e) (Relayer e) (Some id))))
       else mret tt);
  notice tx "exit_stranded" (NBody (events.BExitStranded c)).

(** The stranded exit [e] without the parts the claim [c] moves. *)
Definition move_out (c : events.ExitRequeued) (e : Exit) : Exit :=
  let e := set_Fee (Fee e - events.ER_Fee c) (set_Payout (Payout e - events.ER_Payout c) e) in
  let e := set_MovedFee (MovedFee e + events.ER_Fee c)
             (set_MovedPayout (MovedPayout e + events.ER_Payout c) e) in
  set_RequeuedTo (RequeuedTo e ++ [events.ER_NewID c]) e.

(** [requeue] moves the parts of a stranded exit whose parties can receive again back into the
    queue, at its tail, as a new exit. *)
Definition requeue (tx : calls.Transaction) (c : events.ExitRequeued) : ST World unit :=
  let now := u64 (calls.TClosedAt tx) in
  let id := events.ER_ID c in
  let newID := events.ER_NewID c in
  s ← get;
  _ ← reject_if (halted s now) "a claim while halted" [];
  match Stranded s !! id with
  | None => reject "exit %d requeued while not stranded" [FInt id]
  | Some e =>
      _ ← reject_if (negb (whole (events.ER_Payout c) (Payout e)) ||
                     negb (whole (events.ER_Fee c) (Fee e)))
            "stranded exit %d requeued with parts it does not owe" [FInt id];
      _ ← reject_if (negb (newID =? ExitTail s))
            "stranded exit %d requeued as %d where %d was next"
            [FInt id; FInt newID; FInt (ExitTail s)];
      let moved := mkExit newID (events.ER_Payout c) (events.ER_Fee c) (events.ER_Payout c)
                     (events.ER_Fee c) 0 0 (Recipient e) (Relayer e) now (calls.TLedger tx)
                     (calls.THash tx) 0 0 "" (Some id) [] in
      _ ← upd (λ s, set_Exits (<[newID := moved]> (Exits s)) s);
      _ ← upd (λ s, set_ExitTail (u64 (ExitTail s + 1)) s);
      let e := move_out c e in
      _ ← upd (λ s, set_Stranded (<[id := e]> (Stranded s)) s);
      _ ← (if (Z.sgn (Payout e) =? 0) && (Z.sgn (Fee e) =? 0)
           then upd (λ s, set_Stranded (delete id (Stranded s)) s) else mret tt);
      _ ← record (queued moved);
      _ ← record (requeued (mkRequeued id newID (Payout e) (Fee e) (calls.TLedger tx)
                    (calls.TClosedAt tx) (calls.THash tx)));
      notice tx "exit_requeued" (NBody (events.BExitRequeued c))
  end.

(** The cases of [apply]. *)
Definition apply_shield (tx : calls.Transaction) (c : calls.Shield) : ST World unit :=
  let now := u64 (calls.TClosedAt tx) in
  s ← get;
  _ ← reject_if (halted s now || DepositsPaused s)
        "a deposit while halted or while deposits are paused" [];
  _ ← spend tx (calls.Sh_Nullifiers c);
  let p := calls.Sh_Deposit c in
  let id := events.DP_ID p in
  s ← get;
  _ ← reject_if (negb (id =? NextDepositID s)) "deposit %d where %d was next"
        [FInt id; FInt (NextDepositID s)];
  _ ← reject_if (bool_decide (events.DP_Commitment0 p = events.DP_Commitment1 p))
        "deposit %d has two equal outputs" [FInt id];
  let dep := mkDeposit id (events.DP_Depositor p) (events.DP_Amount p) (events.DP_Commitment0 p)
               (events.DP_Commitment1 p) (events.DP_CreatedAt p) (calls.TLedger tx)
               (calls.THash tx) None 0 in
  _ ← upd (λ s, set_Pending (<[id := dep]> (Pending s)) s);
  _ ← upd (λ s, set_NextDepositID (u64 (NextDepositID s + 1)) s);
  _ ← upd (λ s, set_Tvl (Tvl s + events.DP_Amount p) s);
  _ ← upd (λ s, set_PendingTotal (PendingTotal s + events.DP_Amount p) s);
  record (add_Created dep).

Definition apply_admission (tx : calls.Transaction) (c : calls.Admission) : ST World unit :=
  let now := u64 (calls.TClosedAt tx) in
  let admitted := calls.Ad_Admitted c in
  let id := events.DA_ID admitted in
  s ← get;
  match Pending s !! id with
  | None => reject "deposit %d admitted while not pending" [FInt id]
  | Some dep =>
      _ ← reject_if (bool_decide (is_Some (Flag dep)) || (AttestedUpTo s <? id))
            "deposit %d admitted while flagged or not attested" [FInt id];
      _ ← reject_if (halted s now) "deposit %d admitted while halted" [FInt id];
      _ ← reject_if (bool_decide (events.NC_Commitment (calls.Ad_Outputs c).1 ≠ Commitment0 dep) ||
                     bool_decide (events.NC_Commitment (calls.Ad_Outputs c).2 ≠ Commitment1 dep))
            "deposit %d admitted with other commitments" [FInt id];
      _ ← insert tx (calls.Ad_Outputs c);
      _ ← upd (λ s, set_Pending (delete id (Pending s)) s);
      _ ← upd (λ s, set_PendingTotal (PendingTotal s - Amount dep) s);
      record (add_Resolved (mkResolution dep OutAdmitted 0 (calls.TLedger tx) (calls.TClosedAt tx)
        (calls.THash tx) (events.DA_LeafIndex0 admitted) (events.DA_LeafIndex1 admitted)))
  end.

Definition apply_flagged (tx : calls.Transaction) (c : events.DepositFlagged) : ST World unit :=
  let now := u64 (calls.TClosedAt tx) in
  let id := events.DF_ID c in
  s ← get;
  match Pending s !! id with
  | None => reject "deposit %d flagged while not pending" [FInt id]
  | Some dep =>
      let dep := match Flag dep with None => set_FlaggedAt now dep | Some _ => dep end in
      let dep := set_Flag (Some (events.DF_Reason c)) dep in
      _ ← upd (λ s, set_Pending (<[id := dep]> (Pending s)) s);
      _ ← record (add_Updated dep);
      notice tx "deposit_flagged" (NBody (events.BDepositFlagged c))
  end.

Definition apply_unflagged (tx : calls.Transaction) (c : events.DepositUnflagged) : ST World unit :=
  let id := events.DU_ID c in
  s ← get;
  match Pending s !! id with
  | Some dep =>
      _ ← reject_if (bool_decide (Flag dep ≠ Some (events.DU_Reason c)))
            "deposit %d unflagged without that flag" [FInt id];
      let dep := set_FlaggedAt 0 (set_Flag None dep) in
      _ ← upd (λ s, set_Pending (<[id := dep]> (Pending s)) s);
      _ ← record (add_Updated dep);
      s ← get;
      notice tx "deposit_unflagged" (NUnflag c (AttestedUpTo s))
  | None => reject "deposit %d unflagged without that flag" [FInt id]
  end.

(** The deposits an attestation vouches for; the sort makes the order of the map's iteration of no
    effect. *)
Definition covered_by (s : State) (upTo : Z) : list Z :=
  merge_sort Z.le (map fst (filter
    (λ entry, (AttestedUpTo s < entry.1 ∧ entry.1 <= upTo) ∧ Flag entry.2 = None)
    (map_to_list (Pending s)))).

Definition apply_attested (tx : calls.Transaction) (c : events.Attested) : ST World unit :=
  let now := u64 (calls.TClosedAt tx) in
  let upTo := events.A_UpTo c in
  s ← get;
  _ ← reject_if (halted s now) "an attestation while halted" [];
  _ ← reject_if ((upTo <=? AttestedUpTo s) || (NextDepositID s <=? upTo))
        "attestation up to %d after %d with %d next"
        [FInt upTo; FInt (AttestedUpTo s); FInt (NextDepositID s)];
  let covered := covered_by s upTo in
  _ ← upd (set_AttestedUpTo upTo);
  notice tx "attested" (NAttestation c covered).

(** The outcome of a deposit refunded for [reason], 0 for a cancellation. *)
Definition refund_outcome (dep : Deposit) (id reason now : Z) : ST World Outcome :=
  if negb (reason =? 0) then
    _ ← reject_if (bool_decide (Flag dep ≠ Some reason))
          "deposit %d refunded for reason %d it was not flagged with" [FInt id; FInt reason];
    _ ← reject_if (now <? u64 (FlaggedAt dep + refundDelay))
          "deposit %d refunded within a day of its flag" [FInt id];
    mret Refunded
  else mret Cancelled.

Definition apply_refunded (tx : calls.Transaction) (c : events.DepositRefunded) : ST World unit :=
  let now := u64 (calls.TClosedAt tx) in
  let id := events.DR_ID c in
  s ← get;
  match Pending s !! id with
  | None => reject "deposit %d refunded while not pending" [FInt id]
  | Some dep =>
      outcome ← refund_outcome dep id (events.DR_Reason c) now;
      _ ← upd (λ s, set_Pending (delete id (Pending s)) s);
      _ ← upd (λ s, set_Tvl (Tvl s - Amount dep) s);
      _ ← upd (λ s, set_PendingTotal (PendingTotal s - Amount dep) s);
      _ ← holds_enough PendingTotal "refund of deposit %d exceeds the value held" id;
      record (add_Resolved (mkResolution dep outcome (events.DR_Reason c) (calls.TLedger tx)
        (calls.TClosedAt tx) (calls.THash tx) 0 0))
  end.

Definition apply_paused (tx : calls.Transaction) (c : events.Paused) : ST World unit :=
  _ ← upd (λ s, set_TransfersPaused (events.P_Transfers c) (set_DepositsPaused (events.P_Deposits c) s));
  notice tx "paused" (NBody (events.BPaused c)).

Definition apply_halted (tx : calls.Transaction) (c : events.Halted) : ST World unit :=
  _ ← upd (set_HaltedUntil (events.H_Until c));
  _ ← upd (set_NextHaltAt (u64 (events.H_Until c + haltCooldown)));
  notice tx "halted" (NBody (events.BHalted c)).

Definition apply_resumed (tx : calls.Transaction) (c : events.Resumed) : ST World unit :=
  _ ← upd (set_HaltedUntil (u64 (calls.TClosedAt tx)));
  _ ← upd (set_NextHaltAt (events.R_NextHaltAt c));
  notice tx "resumed" (NBody (events.BResumed c)).

Definition apply_limits_queued (tx : calls.Transaction) (c : events.LimitsChange) : ST World unit :=
  _ ← upd (set_Queued (Some (vault.mkQueuedLimits (events.LC_Limits c) (events.LC_ReadyAt c))));
  notice tx "limits_queued" (NBody (events.BLimitsQueued c)).

Definition apply_limits_applied (tx : calls.Transaction) (c : events.LimitsChange) : ST World unit :=
  _ ← upd (set_Limits (Some (events.LC_Limits c)));
  _ ← upd (λ s, match Queued s with
                | Some q => if vault.QReadyAt q =? events.LC_ReadyAt c then set_Queued None s else s
                | None => s
                end);
  notice tx "limits_applied" (NBody (events.BLimitsApplied c)).

Definition apply_limits_cancelled (tx : calls.Transaction) (c : events.LimitsChange)
    : ST World unit :=
  _ ← upd (set_Queued None);
  notice tx "limits_cancelled" (NBody (events.BLimitsCancelled c)).

Definition apply (tx : calls.Transaction) (call : calls.Call) : ST World unit :=
  match call with
  | calls.CShield c => apply_shield tx c
  | calls.CTransact c => transact tx c
  | calls.CExitSettled c => release tx c
  | calls.CAdmission c => apply_admission tx c
  | calls.CBody b =>
      match b with
      | events.BExitPaid c => payPart tx c
      | events.BExitRequeued c => requeue tx c
      | events.BExitStranded c => strand tx c
      | events.BDepositFlagged c => apply_flagged tx c
      | events.BDepositUnflagged c => apply_unflagged tx c
      | events.BAttested c => apply_attested tx c
      | events.BDepositRefunded c => apply_refunded tx c
      | events.BPaused c => apply_paused tx c
      | events.BHalted c => apply_halted tx c
      | events.BResumed c => apply_resumed tx c
      | events.BLimitsQueued c => apply_limits_queued tx c
      | events.BLimitsApplied c => apply_limits_applied tx c
      | events.BLimitsCancelled c => apply_limits_cancelled tx c
      | _ => reject "unexpected call %T" [FOther]
      end
  end.

(** The inner loop of [Apply], over the calls of a transaction. *)
Fixpoint apply_calls (tx : calls.Transaction) (cs : list calls.Call) : ST World unit :=
  match cs with
  | [] => mret tt
  | c :: cs => _ ← apply tx c; apply_calls tx cs
  end.

(** An error is wrapped with the transaction it came from. *)
Definition apply_tx (tx : calls.Transaction) : ST World unit := λ w,
  match apply_calls tx (calls.TCalls tx) w with
  | (w, Fail e) =>
      (w, Fail (Wrapf e "transaction %s in ledger %d: %w"
                  [FStr (calls.THash tx); FInt (calls.TLedger tx)]))
  | r => r
  end.

Fixpoint apply_txs (txs : list calls.Transaction) : ST World unit :=
  match txs with
  | [] => mret tt
  | tx :: txs => _ ← apply_tx tx; apply_txs txs
  end.

(** [Apply] applies the transactions in chain order and returns what changed. On error the state is
    left partly applied. *)
Definition Apply (txs : list calls.Transaction) : ST State Delta := λ s,
  match apply_txs txs (mkWorld s empty_delta ∅) with
  | (w, Ok _) => (state w, Ok (delta w))
  | (w, Fail e) => (state w, Fail e)
  end.

End chainstate.
End chainstate.
