(* ===== verification/ChainInv.v ===== *)
(** What the replay of state.go keeps true: the totals and the queues of the state, and what a
    window's delta says of it. The lemmas of each primitive, the invariants and their preservation
    by every call. *)
From S2P Require Import Prelude.
From S2P Require Import Fr.
From S2P Require Import Tree.
From S2P Require Import VaultState.
From S2P Require Import Events.
From S2P Require Import Calls.
From S2P Require Import ChainData.
From S2P Require Import ChainState.

Module chaininv.

Import chaindata chainstate.

(** ** The primitives, run to success *)

Lemma get_Ok w w' s : get w = (w', Ok s) ↔ w' = w ∧ s = state w.
Proof. unfold get. split; [by intros [= <- <-]|by intros [-> ->]]. Qed.

Lemma upd_Ok f w w' u : upd f w = (w', Ok u) ↔ w' = mkWorld (f (state w)) (delta w) (spent w).
Proof. destruct u. unfold upd, st_modify. split; [by intros [= <-]|by intros ->]. Qed.

Lemma record_Ok f w w' u : record f w = (w', Ok u) ↔ w' = mkWorld (state w) (f (delta w)) (spent w).
Proof. destruct u. unfold record, st_modify. split; [by intros [= <-]|by intros ->]. Qed.

Lemma reject_if_Ok c f a w w' u : reject_if c f a w = (w', Ok u) ↔ c = false ∧ w' = w.
Proof. apply st_fail_if_Ok. Qed.

Lemma reject_Ok {A} f a w w' (u : A) : reject f a w = (w', Ok u) ↔ False.
Proof. done. Qed.

Lemma nil_Ok {A} w w' (u : A) : nil_dereference w = (w', Ok u) ↔ False.
Proof. done. Qed.

Lemma ret_Ok {A} (a b : A) (w w' : World) : (mret a : ST World A) w = (w', Ok b) ↔ w' = w ∧ b = a.
Proof. unfold mret, ST_ret. split; [by intros [= <- <-]|by intros [-> ->]]. Qed.

Lemma record_if_Ok (b : bool) f w w' u : (if b then record f else mret tt) w = (w', Ok u) ↔
  w' = mkWorld (state w) (if b then f (delta w) else delta w) (spent w).
Proof. destruct b; [apply record_Ok|]. rewrite ret_Ok. by destruct w, u; split; [intros []|]. Qed.

Lemma upd_if_Ok (b : bool) f w w' u : (if b then upd f else mret tt) w = (w', Ok u) ↔
  w' = mkWorld (if b then f (state w) else state w) (delta w) (spent w).
Proof. destruct b; [apply upd_Ok|]. rewrite ret_Ok. by destruct w, u; split; [intros []|]. Qed.

(** Opens a successful run into its guards and its last world. *)
Ltac run H :=
  repeat match type of H with
  | mbind _ _ _ = (_, Ok _) =>
      let w := fresh "w" in let x := fresh "x" in let R := fresh "R" in
      apply st_bind_Ok in H as (x & w & R & H); run R
  | (if _ then record _ else _) _ = _ => apply record_if_Ok in H; subst
  | (if _ then upd _ else _) _ = _ => apply upd_if_Ok in H; subst
  | get _ = _ => apply get_Ok in H as [-> ->]
  | upd _ _ = _ => apply upd_Ok in H; subst
  | record _ _ = _ => apply record_Ok in H; subst
  | notice _ _ _ _ = _ => apply record_Ok in H; subst
  | reject_if _ _ _ _ = _ => apply reject_if_Ok in H as [H ->]
  | reject _ _ _ = _ => by apply reject_Ok in H
  | nil_dereference _ = _ => by apply nil_Ok in H
  | mret _ _ = _ => apply ret_Ok in H as [-> ->]
  end.

(** Turns the boolean guards of a run into facts. *)
Ltac guards :=
  repeat match goal with
  | H : negb _ = false |- _ => apply negb_false_iff in H
  | H : negb _ = true |- _ => apply negb_true_iff in H
  | H : _ || _ = false |- _ => apply orb_false_iff in H as [? ?]
  | H : bool_decide _ = false |- _ => apply bool_decide_eq_false in H
  | H : bool_decide _ = true |- _ => apply bool_decide_eq_true in H
  | H : (_ =? _) = true |- _ => apply Z.eqb_eq in H
  | H : (_ =? _) = false |- _ => apply Z.eqb_neq in H
  | H : (_ <? _) = false |- _ => apply Z.ltb_ge in H
  | H : (_ <=? _) = false |- _ => apply Z.leb_gt in H
  | H : (_ <=? _) = true |- _ => apply Z.leb_le in H
  | H : String.eqb _ _ = true |- _ => apply String.eqb_eq in H
  end.

Lemma pay_eq now outflow s : pay now outflow s =
  set_Outflow (OutflowOn s (now / day) + outflow) (set_OutflowDay (now / day)
    (set_Tvl (Tvl s - outflow) s)).
Proof.
  unfold pay, OutflowOn. cbn. rewrite (Z.eqb_sym (OutflowDay s)).
  destruct (Z.eqb_spec (now / day) (OutflowDay s)) as [E|]; cbn; [by rewrite E|done].
Qed.

Lemma spend_one_Ok tx nf w w' u : spend_one tx nf w = (w', Ok u) →
  (events.NN_Nullifier nf ∉ spent w) ∧
  w' = mkWorld (set_NullifierCount (u64 (NullifierCount (state w) + 1)) (state w))
    (add_Nullifiers (mkNullifier (NullifierCount (state w)) (events.NN_Nullifier nf)
       (calls.TLedger tx) (calls.THash tx)) (delta w))
    ({[events.NN_Nullifier nf]} ∪ spent w).
Proof. unfold spend_one. case_bool_decide; [done|]. by intros [= <- <-]. Qed.

Section run.
Context {NH : tree.NodeHash}.

Lemma append_pair_Ok l r w w' u : append_pair l r w = (w', Ok u) →
  ∃ t i, tree.AppendPair l r (Tree (state w)) = (t, Ok i) ∧
    w' = mkWorld (set_Tree t (state w)) (delta w) (spent w).
Proof.
  unfold append_pair. destruct (tree.AppendPair l r (Tree (state w))) as [t [i|e]]; [|done].
  intros [= <- <-]. by exists t, i.
Qed.

Lemma insert_Ok tx o w w' u : insert tx o w = (w', Ok u) →
  events.NC_Index o.1 = tree.Len (Tree (state w)) ∧
  ∃ t i, tree.AppendPair (events.NC_Commitment o.1) (events.NC_Commitment o.2) (Tree (state w))
           = (t, Ok i) ∧
    w' = mkWorld (set_Tree t (state w))
      (add_Leaves (leaf tx o.2) (add_Leaves (leaf tx o.1)
        (add_Roots (mkRootAt (tree.Len t) (tree.Root t)) (delta w)))) (spent w).
Proof.
  intros H. unfold insert in H. run H. guards. split; [done|].
  match goal with R : append_pair _ _ _ = _ |- _ => apply append_pair_Ok in R as (t & i & E & ->) end.
  by exists t, i.
Qed.

Lemma head_Ok now id w w' e : head now id w = (w', Ok e) →
  w' = w ∧ halted (state w) now = false ∧ Exits (state w) !! id = Some e ∧ id = ExitHead (state w).
Proof.
  intros H. unfold head in H. run H. destruct (Exits (state w) !! id) as [e'|]; [|by run H].
  run H. guards. done.
Qed.

Lemma takeOff_Ok now id paid w w' u : takeOff now id paid w = (w', Ok u) →
  let s := set_QueuedTotal (QueuedTotal (state w) - paid)
             (set_ExitHead (u64 (ExitHead (state w) + 1))
               (set_Exits (delete id (Exits (state w))) (state w))) in
  w' = mkWorld (set_Outflow (OutflowOn s (now / day) + paid) (set_OutflowDay (now / day)
    (set_Tvl (Tvl s - paid) s))) (delta w) (spent w) ∧
  0 <= Tvl (state w') ∧ 0 <= QueuedTotal (state w').
Proof.
  intros H. unfold takeOff, holds_enough in H. run H. guards. cbv zeta. rewrite pay_eq in *.
  cbn [state delta spent] in *. split; [done|]. lia.
Qed.

(** ** The invariants *)

(** What an exit owes and has moved never exceeds what it was queued with, and it owes something. *)
Definition exit_ok (id : Z) (e : Exit) : Prop :=
  ExID e = id ∧ 0 <= Payout e ∧ 0 <= Fee e ∧ 0 < ExitOutflow e ∧
  0 <= (Paid e).1 ∧ 0 <= (Paid e).2 ∧ 0 <= MovedPayout e ∧ 0 <= MovedFee e.

(** The deposits in the entry queue: under their own IDs, below the next one, of positive amounts;
    their total is kept, and nothing beyond the deposits made is attested. *)
Record pending_ok (s : State) : Prop := mkPendingOk {
  pending_total : PendingTotal s = map_sum Amount (Pending s);
  pending_ids : ∀ id d, Pending s !! id = Some d →
    DepID d = id ∧ 1 <= id < NextDepositID s ∧ 0 < Amount d;
  pending_attested : 0 <= AttestedUpTo s < NextDepositID s }.

(** The exit queue: exactly the IDs from the head to the tail; the stranded exits are behind the
    head; the total owed is kept. *)
Record queue_ok (s : State) : Prop := mkQueueOk {
  queue_total :
    QueuedTotal s = map_sum ExitOutflow (Exits s) + map_sum ExitOutflow (Stranded s);
  queue_ids : ∀ id, is_Some (Exits s !! id) ↔ ExitHead s <= id < ExitTail s;
  queue_head : 1 <= ExitHead s <= ExitTail s;
  queue_exits : ∀ id e, Exits s !! id = Some e → exit_ok id e;
  queue_stranded : ∀ id e, Stranded s !! id = Some e → exit_ok id e ∧ id < ExitHead s }.

(** Users' notes: what the vault holds beyond pending deposits and owed exits is never negative. *)
Definition notes (s : State) : Z := Tvl s - PendingTotal s - QueuedTotal s.

Definition inv (s : State) : Prop := pending_ok s ∧ queue_ok s ∧ 0 <= notes s.

(** A call whose events are within the vault's guarantees. *)
Definition call_wf (c : calls.Call) : Prop := Forall events.body_ok (calls.flatten c).

(** The next call cannot wrap the deposit and exit counters. *)
Definition room (s : State) : Prop := NextDepositID s + 1 < W64 ∧ ExitTail s + 1 < W64.

Lemma pending_insert s id d d' : pending_ok s → Pending s !! id = Some d →
  DepID d' = DepID d → Amount d' = Amount d → pending_ok (set_Pending (<[id := d']> (Pending s)) s).
Proof.
  intros [H1 H2 H3] Hd Hi Ha. destruct (H2 _ _ Hd) as (? & ? & ?). split; cbn; [|intros j e|done].
  - rewrite (map_sum_replace _ _ _ _ _ Hd). lia.
  - rewrite lookup_insert_Some. intros [[<- <-]|[_ He]]; [lia|by apply H2].
Qed.

Lemma pending_delete s id d total : pending_ok s → Pending s !! id = Some d →
  total = PendingTotal s - Amount d →
  pending_ok (set_PendingTotal total (set_Pending (delete id (Pending s)) s)).
Proof.
  intros [H1 H2 H3] Hd ->. split; cbn; [|intros j e|done].
  - rewrite (map_sum_delete _ _ _ _ Hd). lia.
  - rewrite lookup_delete_Some. intros [_ He]. by apply H2.
Qed.

Lemma pending_fits s id d : pending_ok s → Pending s !! id = Some d →
  0 < Amount d <= PendingTotal s.
Proof.
  intros [H1 H2 _] Hd. destruct (H2 _ _ Hd) as (_ & _ & Hp). split; [done|].
  pose proof (map_sum_delete Amount _ _ _ Hd) as E. rewrite H1.
  enough (0 <= map_sum Amount (delete id (Pending s))) by lia.
  apply map_sum_nonneg. intros j e. rewrite lookup_delete_Some. intros [_ He].
  destruct (H2 _ _ He) as (_ & _ & ?). lia.
Qed.

(** The invariants see only some of the fields. *)
Lemma pending_ext s s' : Pending s' = Pending s → PendingTotal s' = PendingTotal s →
  NextDepositID s' = NextDepositID s → AttestedUpTo s' = AttestedUpTo s →
  pending_ok s → pending_ok s'.
Proof. intros E1 E2 E3 E4 [H1 H2 H3]. split; rewrite ?E1, ?E2, ?E3, ?E4; assumption. Qed.

Lemma queue_ext s s' : Exits s' = Exits s → Stranded s' = Stranded s →
  QueuedTotal s' = QueuedTotal s → ExitHead s' = ExitHead s → ExitTail s' = ExitTail s →
  queue_ok s → queue_ok s'.
Proof.
  intros E1 E2 E3 E4 E5 [H1 H2 H3 H4 H5]. split; rewrite ?E1, ?E2, ?E3, ?E4, ?E5; assumption.
Qed.

(** A new exit joins at the tail. *)
Lemma queue_push s e id tail total : queue_ok s → exit_ok id e → id = ExitTail s →
  tail = ExitTail s + 1 → total = QueuedTotal s + ExitOutflow e →
  queue_ok (set_QueuedTotal total (set_ExitTail tail (set_Exits (<[id := e]> (Exits s)) s))).
Proof.
  intros [H1 H2 H3 H4 H5] He -> -> ->.
  assert (Exits s !! ExitTail s = None) as Hn.
  { apply eq_None_not_Some. rewrite H2. lia. }
  split; cbn; [|intros j|lia|intros j f|done].
  - rewrite map_sum_insert_new by done. lia.
  - rewrite lookup_insert_is_Some', H2. lia.
  - rewrite lookup_insert_Some. intros [[<- <-]|[_ Hf]]; [done|by apply H4].
Qed.

(** The exit at the head leaves, with [left] of it kept stranded or nothing at all. *)
Lemma queue_pop s e id head total : queue_ok s → Exits s !! id = Some e → id = ExitHead s →
  head = ExitHead s + 1 → total = QueuedTotal s - ExitOutflow e →
  queue_ok (set_QueuedTotal total (set_ExitHead head (set_Exits (delete id (Exits s)) s))).
Proof.
  intros [H1 H2 H3 H4 H5] He -> -> ->.
  assert (ExitHead s < ExitTail s) as Hlt by (by apply H2; eexists).
  split; cbn; [|intros j|lia|intros j f|].
  - rewrite (map_sum_delete _ _ _ _ He). lia.
  - rewrite lookup_delete_is_Some, H2. lia.
  - rewrite lookup_delete_Some. intros [_ Hf]. by apply H4.
  - intros j f Hf. destruct (H5 _ _ Hf). split; [done|lia].
Qed.

Lemma queue_strand s left id total : queue_ok s → Stranded s !! id = None → id < ExitHead s →
  exit_ok id left → total = QueuedTotal s + ExitOutflow left →
  queue_ok (set_QueuedTotal total (set_Stranded (<[id := left]> (Stranded s)) s)).
Proof.
  intros [H1 H2 H3 H4 H5] Hn Hlt Hok ->. split; cbn; try done.
  - rewrite map_sum_insert_new by done. lia.
  - intros j f. rewrite lookup_insert_Some. intros [[<- <-]|[_ Hf]]; [done|by apply H5].
Qed.

(** The exit at the head keeps its place with less owed. *)
Lemma queue_reduce s e e' id total : queue_ok s → Exits s !! id = Some e → exit_ok id e' →
  total = QueuedTotal s - ExitOutflow e + ExitOutflow e' →
  queue_ok (set_QueuedTotal total (set_Exits (<[id := e']> (Exits s)) s)).
Proof.
  intros [H1 H2 H3 H4 H5] He Hok ->. split; cbn; [|intros j|done|intros j f|done].
  - rewrite (map_sum_replace _ _ _ _ _ He). lia.
  - rewrite lookup_insert_is_Some', <- H2. split; [|by right].
    intros [<-|Hj]; [by eexists|done].
  - rewrite lookup_insert_Some. intros [[<- <-]|[_ Hf]]; [done|by apply H4].
Qed.

(** A stranded exit keeps less, or goes when it keeps nothing. *)
Lemma queue_unstrand s e id total : queue_ok s → Stranded s !! id = Some e →
  total = QueuedTotal s - ExitOutflow e →
  queue_ok (set_QueuedTotal total (set_Stranded (delete id (Stranded s)) s)).
Proof.
  intros [H1 H2 H3 H4 H5] He ->. split; cbn; try done.
  - rewrite (map_sum_delete _ _ _ _ He). lia.
  - intros j f. rewrite lookup_delete_Some. intros [_ Hf]. by apply H5.
Qed.

(** ** Every call keeps the invariants *)

(** From [s] to [s'] with at most one new deposit and one new exit. *)
Definition advance (s s' : State) : Prop :=
  inv s' ∧ NextDepositID s' <= NextDepositID s + 1 ∧ ExitTail s' <= ExitTail s + 1.

(** A change of none of the fields of the invariants. *)
Lemma advance_frame s s' : inv s → Pending s' = Pending s → PendingTotal s' = PendingTotal s →
  NextDepositID s' = NextDepositID s → AttestedUpTo s' = AttestedUpTo s → Exits s' = Exits s →
  Stranded s' = Stranded s → QueuedTotal s' = QueuedTotal s → ExitHead s' = ExitHead s →
  ExitTail s' = ExitTail s → Tvl s' = Tvl s → advance s s'.
Proof.
  intros (Hp & Hq & Hn) E1 E2 E3 E4 E5 E6 E7 E8 E9 E10. split; [|lia]. split; [|split].
  - by eapply pending_ext.
  - by eapply queue_ext.
  - unfold notes in *. lia.
Qed.

(** The queues, or the deposits, are those of a state where they are known to be in order. *)
Ltac same_queue := eapply queue_ext; [..|eassumption]; reflexivity.
Ltac same_pending := eapply pending_ext; [..|eassumption]; reflexivity.
Ltac frame := apply advance_frame; first [assumption|reflexivity].

Lemma spend_Ok tx nfs w w' u : spend tx nfs w = (w', Ok u) →
  events.NN_Nullifier nfs.1 ≠ events.NN_Nullifier nfs.2 ∧
  (events.NN_Nullifier nfs.1 ∉ spent w) ∧ (events.NN_Nullifier nfs.2 ∉ spent w) ∧
  w' = mkWorld (set_NullifierCount (u64 (u64 (NullifierCount (state w) + 1) + 1)) (state w))
    (add_Nullifiers (mkNullifier (u64 (NullifierCount (state w) + 1))
       (events.NN_Nullifier nfs.2) (calls.TLedger tx) (calls.THash tx))
      (add_Nullifiers (mkNullifier (NullifierCount (state w)) (events.NN_Nullifier nfs.1)
        (calls.TLedger tx) (calls.THash tx)) (delta w)))
    ({[events.NN_Nullifier nfs.2]} ∪ ({[events.NN_Nullifier nfs.1]} ∪ spent w)).
Proof.
  intros H. unfold spend in H. run H. guards.
  match goal with R : spend_one _ nfs.1 _ = _ |- _ => apply spend_one_Ok in R as [? ->] end.
  apply spend_one_Ok in H as [? ->]. cbn in *. set_solver.
Qed.

Lemma shield_advance tx c w w' u : apply_shield tx c w = (w', Ok u) → call_wf (calls.CShield c) →
  room (state w) → inv (state w) → advance (state w) (state w').
Proof.
  intros H Hwf [Hr _] (Hp & Hq & Hn). unfold apply_shield in H. run H. guards.
  match goal with R : spend _ _ _ = _ |- _ => apply spend_Ok in R as (_ & _ & _ & ->) end.
  cbn in *. apply Forall_cons in Hwf as [_ Hwf]. apply Forall_cons in Hwf as [_ Hwf].
  apply Forall_cons in Hwf as [Ha _]. cbn in Ha. destruct Hp as [P1 P2 P3].
  rewrite u64_small by (unfold is_u64, room in *; lia).
  split; [|cbn; lia]. split; [|split].
  - assert (Pending (state w) !! events.DP_ID (calls.Sh_Deposit c) = None) as Hnone.
    { apply eq_None_not_Some. intros [d Hd]. destruct (P2 _ _ Hd). lia. }
    split; cbn; [|intros id d|lia].
    + rewrite map_sum_insert_new by done. cbn. lia.
    + rewrite lookup_insert_Some. intros [[<- <-]|[_ Hd]]; cbn; [lia|]. destruct (P2 _ _ Hd). lia.
  - same_queue.
  - unfold notes in *. cbn. lia.
Qed.

Lemma admission_advance tx c w w' u : apply_admission tx c w = (w', Ok u) →
  inv (state w) → advance (state w) (state w').
Proof.
  intros H (Hp & Hq & Hn). unfold apply_admission in H. run H.
  destruct (Pending (state w) !! _) as [dep|] eqn:Hd; [|by run H]. run H.
  match goal with R : insert _ _ _ = _ |- _ => apply insert_Ok in R as (_ & t & i & _ & ->) end.
  destruct (pending_fits _ _ _ Hp Hd). split; [|cbn; lia]. split; [|split].
  - cbn. eapply pending_ext; [..|eapply pending_delete; [exact Hp|exact Hd|reflexivity]]; reflexivity.
  - same_queue.
  - unfold notes in *. cbn in *. lia.
Qed.

Lemma flagged_advance tx c w w' u : apply_flagged tx c w = (w', Ok u) →
  inv (state w) → advance (state w) (state w').
Proof.
  intros H (Hp & Hq & Hn). unfold apply_flagged in H. run H.
  destruct (Pending (state w) !! _) as [dep|] eqn:Hd; [|by run H]. run H.
  split; [|cbn; lia]. split; [|split; [same_queue|done]].
  cbn. eapply pending_insert; [done|exact Hd|..]; by destruct dep as [? ? ? ? ? ? ? ? []].
Qed.

Lemma unflagged_advance tx c w w' u : apply_unflagged tx c w = (w', Ok u) →
  inv (state w) → advance (state w) (state w').
Proof.
  intros H (Hp & Hq & Hn). unfold apply_unflagged in H. run H.
  destruct (Pending (state w) !! _) as [dep|] eqn:Hd; [|by run H]. run H.
  split; [|cbn; lia]. split; [|split; [same_queue|done]].
  cbn. by eapply pending_insert.
Qed.

Lemma attested_advance tx c w w' u : apply_attested tx c w = (w', Ok u) →
  inv (state w) → advance (state w) (state w').
Proof.
  intros H (Hp & Hq & Hn). unfold apply_attested in H. run H. guards.
  split; [|cbn; lia]. split; [|split; [same_queue|done]].
  destruct Hp as [P1 P2 P3]. split; cbn; [done..|lia].
Qed.

Lemma refunded_advance tx c w w' u : apply_refunded tx c w = (w', Ok u) →
  inv (state w) → advance (state w) (state w').
Proof.
  intros H (Hp & Hq & Hn). unfold apply_refunded, refund_outcome, holds_enough in H. run H.
  destruct (Pending (state w) !! _) as [dep|] eqn:Hd; [|by run H].
  destruct (negb _); run H.
  all: split; [|cbn; lia]; split; [|split; [same_queue|unfold notes in *; cbn; lia]].
  all: cbn; eapply pending_ext; [..|eapply pending_delete; [exact Hp|exact Hd|reflexivity]];
    reflexivity.
Qed.

(** Whose values the payment of a transact has. *)
Lemma payment_values c w w' x f r l : payment c w = (w', Ok (x, f, r, l)) →
  w' = w ∧
  match calls.T_Queued c with
  | Some q => x = events.EQ_ExtAmount q ∧ f = events.EQ_Fee q
  | None => ∃ p, calls.T_Settled c = Some p ∧ x = events.S_ExtAmount p ∧ f = events.S_Fee p
  end.
Proof.
  unfold payment. intros H. destruct (calls.T_Queued c) as [q|].
  - apply ret_Ok in H as [-> E]. by injection E as -> -> -> ->.
  - destruct (calls.T_Settled c) as [p|]; [|done]. apply ret_Ok in H as [-> E].
    injection E as -> -> -> ->. split; [done|]. by exists p.
Qed.

(** Within the vault's guarantees, it is of no negative amount, and of some when it is queued. *)
Lemma payment_Ok c w w' x f r l : payment c w = (w', Ok (x, f, r, l)) →
  call_wf (calls.CTransact c) →
  x <= 0 ∧ 0 <= f ∧ (is_Some (calls.T_Queued c) → 0 < f - x).
Proof.
  unfold call_wf. cbn [calls.flatten]. intros [_ H]%payment_values Hwf.
  apply Forall_app in Hwf as [_ [Hs Hq]%Forall_app].
  destruct (calls.T_Queued c) as [q|].
  - destruct H as [-> ->]. apply Forall_cons in Hq as [Hq _]. cbn in Hq. lia.
  - destruct H as (p & E & -> & ->). rewrite E in Hs. apply Forall_cons in Hs as [Hs _].
    cbn in Hs. split; [lia|]. split; [lia|]. by intros [].
Qed.

Lemma transact_advance tx c w w' u : transact tx c w = (w', Ok u) →
  call_wf (calls.CTransact c) → room (state w) → inv (state w) → advance (state w) (state w').
Proof.
  intros H Hwf [_ Hr] (Hp & Hq & Hn). unfold transact in H. run H.
  match goal with R : payment _ _ = (_, Ok ?p) |- _ => destruct p as [[[ext fee] rcp] rel] end.
  cbn zeta in H. run H. guards.
  match goal with R : payment _ _ = _ |- _ =>
    destruct (payment_Ok _ _ _ _ _ _ _ R Hwf) as (Hx & Hf & Hpos);
    apply payment_values in R as [-> Hpay] end.
  match goal with R : spend _ _ _ = _ |- _ => apply spend_Ok in R as (_ & _ & _ & ->) end.
  match goal with R : insert _ _ _ = _ |- _ => apply insert_Ok in R as (_ & t & i & _ & ->) end.
  pose proof (queue_head _ Hq) as Hh.
  destruct (calls.T_Queued c) as [q|].
  - run H. guards. destruct Hpay as [-> ->]. specialize (Hpos ltac:(by eexists)). cbn in *.
    rewrite u64_small by (unfold is_u64; lia).
    split; [|cbn; lia]. split; [same_pending|]. split; [|unfold notes in *; cbn; lia].
    eapply queue_ext; [..|eapply (queue_push (state w) _ _ _ (QueuedTotal (state w) + (events.EQ_Fee q - events.EQ_ExtAmount q)));
         [exact Hq| |eassumption|reflexivity|]];
      try reflexivity.
    + unfold exit_ok, ExitOutflow, Paid. cbn. lia.
    + unfold ExitOutflow. cbn. lia.
  - destruct Hpay as (p & Hst & -> & ->). rewrite Hst in H. run H. rewrite pay_eq. cbn in *.
    split; [|cbn; lia]. split; [same_pending|]. split; [same_queue|].
    unfold notes in *. cbn. lia.
Qed.

Lemma release_advance tx p w w' u : release tx p w = (w', Ok u) → room (state w) →
  inv (state w) → advance (state w) (state w').
Proof.
  intros H [_ Hr] (Hp & Hq & Hn). unfold release in H.
  destruct (events.S_ExitID p) as [id|]; [|by run H]. run H.
  match goal with R : head _ _ _ = _ |- _ => apply head_Ok in R as (-> & _ & He & Hid) end.
  match goal with R : takeOff _ _ _ _ = _ |- _ => apply takeOff_Ok in R as (-> & ? & ?) end.
  pose proof (queue_head _ Hq) as Hh. cbn in *.
  rewrite u64_small by (unfold is_u64; lia).
  split; [|cbn; lia]. split; [same_pending|]. split; [|unfold notes in *; cbn; lia].
  eapply queue_ext; [..|eapply (queue_pop (state w)); [exact Hq|exact He|exact Hid|reflexivity..]];
    reflexivity.
Qed.

Lemma payPart_advance tx c w w' u : payPart tx c w = (w', Ok u) →
  call_wf (calls.CBody (events.BExitPaid c)) → inv (state w) → advance (state w) (state w').
Proof.
  intros H Hwf (Hp & Hq & Hn). unfold payPart, holds_enough in H. run H. guards.
  match goal with R : head _ _ _ = _ |- _ => apply head_Ok in R as (-> & _ & He & Hid) end.
  apply Forall_cons in Hwf as [Hwf _]. cbn in Hwf. rewrite pay_eq in *. cbn in *.
  split; [|cbn; lia]. split; [same_pending|]. split; [|unfold notes in *; cbn; lia].
  destruct (queue_exits _ Hq _ _ He) as (E1 & E2 & E3 & E4 & E5 & E6 & E7 & E8).
  unfold ExitOutflow, Paid in *. cbn in E5, E6.
  eapply queue_ext; [..|eapply (queue_reduce (state w)); [exact Hq|exact He| |reflexivity]];
    try reflexivity; unfold exit_ok, ExitOutflow, Paid; cbn; try lia.
Qed.

Lemma strand_advance tx c w w' u : strand tx c w = (w', Ok u) →
  call_wf (calls.CBody (events.BExitStranded c)) → room (state w) → inv (state w) →
  advance (state w) (state w').
Proof.
  intros H Hwf [_ Hr] (Hp & Hq & Hn). unfold strand in H. run H. guards.
  match goal with R : head _ _ _ = _ |- _ => apply head_Ok in R as (-> & _ & He & Hid) end.
  match goal with R : takeOff _ _ _ _ = _ |- _ => apply takeOff_Ok in R as (-> & ? & ?) end.
  apply Forall_cons in Hwf as [Hwf _]. cbn in Hwf.
  pose proof (queue_head _ Hq) as Hh. pose proof (queue_exits _ Hq _ _ He) as Hok.
  assert (Hnone : Stranded (state w) !! events.ES_ID c = None).
  { apply eq_None_not_Some. intros [f Hf]. destruct (queue_stranded _ Hq _ _ Hf). lia. }
  cbn in *. rewrite u64_small by (unfold is_u64; lia).
  split; [|cbn; lia]. split; [same_pending|]. split; [|unfold notes in *; cbn; lia].
  pose proof (queue_pop _ _ _ _ _ Hq He Hid eq_refl eq_refl) as Hpop.
  destruct Hok as (E1 & E2 & E3 & E4 & E5 & E6 & E7 & E8). unfold ExitOutflow, Paid in *.
  cbn [fst snd] in *.
  eapply queue_ext; [..|eapply (queue_strand _ _ _ (QueuedTotal (state w) -
    (Payout x - events.ES_Payout c + (Fee x - events.ES_Fee c))));
    [exact Hpop|exact Hnone|cbn; lia| |]]; try reflexivity.
  - unfold exit_ok, ExitOutflow, Paid. cbn. lia.
  - unfold ExitOutflow. cbn. lia.
Qed.

Lemma move_out_ok id c e : exit_ok id e → 0 <= events.ER_Payout c → 0 <= events.ER_Fee c →
  whole (events.ER_Payout c) (Payout e) = true → whole (events.ER_Fee c) (Fee e) = true →
  ¬ (Payout (move_out c e) = 0 ∧ Fee (move_out c e) = 0) → exit_ok id (move_out c e).
Proof.
  unfold whole, exit_ok, ExitOutflow, Paid. cbn. intros. lia.
Qed.

Lemma requeue_advance tx c w w' u : requeue tx c w = (w', Ok u) →
  call_wf (calls.CBody (events.BExitRequeued c)) → room (state w) → inv (state w) →
  advance (state w) (state w').
Proof.
  intros H Hwf [_ Hr] (Hp & Hq & Hn). unfold requeue in H. run H.
  destruct (Stranded (state w) !! _) as [e|] eqn:He; [|by run H]. cbv zeta in H. run H. guards.
  apply Forall_cons in Hwf as [Hwf _]. cbn in Hwf.
  pose proof (queue_head _ Hq) as Hh. destruct (queue_stranded _ Hq _ _ He) as [Hok Hlt].
  pose proof (move_out_ok _ _ _ Hok (proj1 Hwf) (proj1 (proj2 Hwf)) H H0) as Hleft.
  set (new := chaindata.mkExit _ _ _ _ _ _ _ _ _ _ _ _ _ _ _ _ _) in *.
  assert (Hnew : exit_ok (events.ER_NewID c) new)
    by (unfold exit_ok, ExitOutflow, Paid, new; cbn; lia).
  assert (Hout : ExitOutflow (move_out c e) + ExitOutflow new = ExitOutflow e)
    by (unfold ExitOutflow, new; cbn; lia).
  set (left := move_out c e) in *. clearbody left. cbn [state delta spent].
  pose proof (queue_push _ _ _ _ _ Hq Hnew R1 eq_refl eq_refl) as Hpush.
  pose proof (queue_unstrand _ e (events.ER_ID c)
    (QueuedTotal (state w) - ExitOutflow left) Hpush He ltac:(cbn; lia)) as Hun.
  match goal with |- context[u64 (ExitTail ?s + 1)] =>
    change (ExitTail s) with (ExitTail (state w)) end.
  rewrite (u64_small (ExitTail (state w) + 1)) by (unfold is_u64; lia).
  destruct (_ && _) eqn:Hz.
  - apply andb_true_iff in Hz as [Z1 Z2].
    assert (ExitOutflow left = 0) as Hl0 by (unfold ExitOutflow; lia).
    split; [|cbn; lia]. split; [same_pending|]. split; [|unfold notes in *; cbn; lia].
    eapply queue_ext; [..|exact Hun]; cbn; try reflexivity; [|lia].
    by rewrite delete_insert_eq.
  - assert (exit_ok (events.ER_ID c) left) as Hl.
    { apply Hleft. intros H'. apply andb_false_iff in Hz. lia. }
    split; [|cbn; lia]. split; [same_pending|]. split; [|unfold notes in *; cbn; lia].
    assert (Stranded (state w) !! events.ER_ID c = Some e) as He' by done.
    pose proof (queue_strand _ left (events.ER_ID c) (QueuedTotal (state w)) Hun
      (lookup_delete_eq _ _) ltac:(cbn; lia) Hl ltac:(cbn; lia)) as Hst.
    eapply queue_ext; [..|exact Hst]; cbn; try reflexivity.
    by rewrite insert_delete_eq.
Qed.

Lemma apply_advance tx c w w' u : apply tx c w = (w', Ok u) → call_wf c → room (state w) →
  inv (state w) → advance (state w) (state w').
Proof.
  intros H Hwf Hr Hi. destruct c as [c|c|c|c|b]; cbn [apply] in H.
  - by eapply shield_advance.
  - by eapply transact_advance.
  - by eapply release_advance.
  - by eapply admission_advance.
  - destruct b; try by apply reject_Ok in H.
    + by eapply flagged_advance.
    + by eapply unflagged_advance.
    + by eapply attested_advance.
    + by eapply refunded_advance.
    + by eapply payPart_advance.
    + by eapply strand_advance.
    + by eapply requeue_advance.
    + unfold apply_paused in H. run H. frame.
    + unfold apply_halted in H. run H. frame.
    + unfold apply_resumed in H. run H. frame.
    + unfold apply_limits_queued in H. run H. frame.
    + unfold apply_limits_applied in H. run H. cbn [state].
      destruct (Queued _) as [q|]; [destruct (_ =? _)|]; frame.
    + unfold apply_limits_cancelled in H. run H. frame.
Qed.

(** [n] more calls cannot wrap the counters. *)
Definition room_for (n : nat) (s : State) : Prop :=
  NextDepositID s + Z.of_nat n < W64 ∧ ExitTail s + Z.of_nat n < W64.

Definition call_count (txs : list calls.Transaction) : nat :=
  sum_list (map (λ tx, length (calls.TCalls tx)) txs).

Definition txs_wf (txs : list calls.Transaction) : Prop :=
  Forall (λ tx, Forall call_wf (calls.TCalls tx)) txs.

Lemma apply_tx_Ok tx w w' u : apply_tx tx w = (w', Ok u) ↔
  apply_calls tx (calls.TCalls tx) w = (w', Ok u).
Proof. unfold apply_tx. by destruct (apply_calls _ _ w) as [? []]. Qed.

(** A property of worlds every call keeps holds after a run, [n] calls being left to make. *)
Section rule.
Context (P : nat → World → Prop) (wf : calls.Call → Prop).
Context (keep : ∀ tx c n w w' u, apply tx c w = (w', Ok u) → wf c → P (S n) w → P n w').

Lemma apply_calls_keep tx cs n w w' u : apply_calls tx cs w = (w', Ok u) → Forall wf cs →
  P (length cs + n) w → P n w'.
Proof.
  revert w. induction cs as [|c cs IH]; intros w H Hwf HP; cbn [apply_calls] in H.
  - by run H.
  - run H. apply Forall_cons in Hwf as [Hc Hwf]. eapply IH; [exact H|done|].
    by eapply keep.
Qed.

Lemma apply_txs_keep txs n w w' u : apply_txs txs w = (w', Ok u) →
  Forall (λ tx, Forall wf (calls.TCalls tx)) txs → P (call_count txs + n) w → P n w'.
Proof.
  revert w. induction txs as [|tx txs IH]; intros w H Hwf HP; cbn [apply_txs] in H.
  - by run H.
  - run H. apply Forall_cons in Hwf as [Hc Hwf]. eapply IH; [exact H|done|].
    match goal with R : apply_tx _ _ = _ |- _ => apply apply_tx_Ok in R;
      eapply apply_calls_keep; [exact R|done|] end.
    unfold call_count in *. cbn [map sum_list] in HP. by rewrite Nat.add_assoc.
Qed.

Lemma Apply_keep txs s s' d : Apply txs s = (s', Ok d) →
  Forall (λ tx, Forall wf (calls.TCalls tx)) txs →
  P (call_count txs) (mkWorld s empty_delta ∅) → ∃ sp, P 0 (mkWorld s' d sp).
Proof.
  unfold Apply. destruct (apply_txs txs _) as [w [u|e]] eqn:E; [|done]. intros H Hwf HP.
  injection H as <- <-. exists (spent w). destruct w as [ws wd wsp]. cbn [state delta spent].
  eapply apply_txs_keep; [exact E|done|by rewrite Nat.add_0_r].
Qed.

End rule.

Lemma apply_inv_keep tx c n w w' u : apply tx c w = (w', Ok u) → call_wf c →
  inv (state w) ∧ room_for (S n) (state w) → inv (state w') ∧ room_for n (state w').
Proof.
  intros H Hwf [Hi [Hr1 Hr2]]. unfold room_for in *.
  destruct (apply_advance tx c w w' u H Hwf ltac:(unfold room; lia) Hi) as (? & ? & ?).
  split; [done|lia].
Qed.

Lemma Apply_inv txs s s' d : Apply txs s = (s', Ok d) → txs_wf txs → inv s →
  room_for (call_count txs) s → inv s'.
Proof.
  intros H Hwf Hi Hr.
  destruct (Apply_keep (λ n w, inv (state w) ∧ room_for n (state w)) call_wf apply_inv_keep
    txs s s' d H Hwf) as (sp & Hs & _); done.
Qed.

Lemma inv_New : inv New.
Proof.
  split; [|split; [|vm_compute; congruence]]; split; cbn.
  - by rewrite map_sum_empty.
  - intros id d H. by rewrite lookup_empty in H.
  - lia.
  - by rewrite !map_sum_empty.
  - intros id. rewrite lookup_empty. split; [by intros []|lia].
  - lia.
  - intros id e H. by rewrite lookup_empty in H.
  - intros id e H. by rewrite lookup_empty in H.
Qed.

End run.
End chaininv.
