(* ===== verification/ChainDelta.v ===== *)
(** What a window's delta says of the states before and after it: the value that came and went, the
    leaves and roots of the tree, the nullifiers, the order of the exit changes; what a halt stops,
    what a day's window bounds, and which errors a replay can end in. *)
From S2P Require Import Prelude.
From S2P Require Import Fr.
From S2P Require Import Tree.
From S2P Require Import VaultState.
From S2P Require Import Events.
From S2P Require Import Calls.
From S2P Require Import ChainData.
From S2P Require Import ChainState.
From S2P Require Import ChainInv.

Module chaindelta.

Import chaindata chainstate chaininv.

(** ** Value *)

Definition total {A} (f : A → Z) (l : list A) : Z := foldr (λ x n, f x + n) 0 l.

Lemma total_snoc {A} (f : A → Z) l x : total f (l ++ [x]) = total f l + f x.
Proof. unfold total. induction l as [|y l IH]; cbn; [lia|]. rewrite IH. lia. Qed.

#[global] Arguments total : simpl never.

(** What a resolution takes out of the vault: nothing when the deposit was admitted. *)
Definition refunded_value (r : Resolution) : Z :=
  match ROutcome r with OutAdmitted => 0 | _ => Amount (RDeposit r) end.

(** What a settlement takes out of the vault. *)
Definition paid_value (s : Settlement) : Z :=
  events.S_Fee (SSettled s) - events.S_ExtAmount (SSettled s).

(** What the window of [d] added to the vault. *)
Definition net (d : Delta) : Z :=
  total Amount (Created d) - total refunded_value (Resolved d) - total paid_value (Settlements d).

Definition flow_ok (s0 : State) (w : World) : Prop := Tvl (state w) = Tvl s0 + net (delta w).

Lemma refund_outcome_Ok dep id reason now w w' o : refund_outcome dep id reason now w = (w', Ok o) →
  w' = w ∧ (reason = 0 ∧ o = Cancelled ∨ reason ≠ 0 ∧ o = Refunded ∧ Flag dep = Some reason ∧
    u64 (FlaggedAt dep + refundDelay) <= now).
Proof.
  unfold refund_outcome. destruct (negb (reason =? 0)) eqn:E; intros H.
  - run H. guards. split; [done|]. right. split; [done|]. split; [done|]. split; [|done].
    destruct (decide (Flag dep = Some reason)); [done|]. tauto.
  - run H. guards. by auto.
Qed.

(** Opens a successful call into its guards, its cases and its last world. *)
Ltac open_steps :=
  repeat match goal with
  | R : spend _ _ _ = (_, Ok _) |- _ => apply spend_Ok in R as (? & ? & ? & ->)
  | R : insert _ _ _ = (_, Ok _) |- _ => apply insert_Ok in R as (? & ? & ? & ? & ->)
  | R : payment _ _ = (_, Ok ?p) |- _ =>
      destruct p as [[[? ?] ?] ?]; apply payment_values in R as [-> ?]
  | R : head _ _ _ = (_, Ok _) |- _ => apply head_Ok in R as (-> & ? & ? & ?)
  | R : takeOff _ _ _ _ = (_, Ok _) |- _ => apply takeOff_Ok in R as (-> & ? & ?)
  | R : refund_outcome _ _ _ _ _ = (_, Ok _) |- _ => apply refund_outcome_Ok in R as [-> ?]
  | E : ∃ p, Some _ = Some p ∧ _ ∧ _ |- _ => destruct E as (? & [= <-] & -> & ->)
  end.

Ltac open_run H :=
  run H; open_steps; try (cbn beta zeta iota in H);
  try lazymatch type of H with
  | context[match Pending ?s !! ?i with _ => _ end] => destruct (Pending s !! i) eqn:?; open_run H
  | context[match Stranded ?s !! ?i with _ => _ end] => destruct (Stranded s !! i) eqn:?; open_run H
  | context[match calls.T_Queued ?c with _ => _ end] => destruct (calls.T_Queued c) eqn:?; open_run H
  | context[match calls.T_Settled ?c with _ => _ end] => destruct (calls.T_Settled c) eqn:?; open_run H
  | context[match events.S_ExitID ?c with _ => _ end] => destruct (events.S_ExitID c) eqn:?; open_run H
  | _ => idtac
  end.

Ltac open_apply H :=
  match type of H with apply _ ?c _ = _ => destruct c as [c|c|c|c|b]; [| | | |destruct b] end;
  cbn [apply] in H; try (exfalso; by apply reject_Ok in H);
  unfold apply_shield, transact, release, apply_admission, apply_flagged, apply_unflagged,
    apply_attested, apply_refunded, payPart, strand, requeue, apply_paused,
    apply_halted, apply_resumed, apply_limits_queued, apply_limits_applied,
    apply_limits_cancelled, holds_enough in H;
  open_run H.

(** The conditional updates of the last world. *)
Ltac open_ifs :=
  cbn [state delta spent] in *;
  repeat match goal with
  | |- context[if ?b then _ else _] => destruct b eqn:?
  | |- context[match Queued ?s with _ => _ end] => destruct (Queued s)
  end.

Section run.
Context {NH : tree.NodeHash}.

Ltac flow := unfold flow_ok, net in *; cbn; rewrite ?total_snoc; cbn; try lia.

Lemma apply_flow s0 tx c w w' u : apply tx c w = (w', Ok u) → flow_ok s0 w → flow_ok s0 w'.
Proof.
  intros H Hf. open_apply H; rewrite ?pay_eq; open_ifs; guards.
  all: flow; unfold paid_value, refunded_value, ExitOutflow in *; cbn; try lia.
  destruct H as [[_ ->]|(_ & -> & _)]; lia.
Qed.

(** ** Leaves, roots and nullifiers *)

Definition commitments (d : Delta) : list fr.Element := map LeafCommitment (Leaves d).

(** The root recorded at a leaf count is the root of the tree of the first leaves of [all]. *)
Definition root_ok (all : list fr.Element) (r : RootAt) : Prop :=
  ∃ n, LeafCount r = Z.of_nat n ∧ (n <= length all)%nat ∧ RootOf r = tree.reference_root (take n all).

(** The tree holds the leaves of before the window and the window's, whose indices go on from the
    last one. *)
Record leaves_ok (old : list fr.Element) (w : World) : Prop := mkLeavesOk {
  leaves_tree : tree.represents (Tree (state w)) (old ++ commitments (delta w));
  leaves_index : map LeafIndex (Leaves (delta w)) =
    seqZ (Z.of_nat (length old)) (Z.of_nat (length (Leaves (delta w))));
  leaves_roots : Forall (root_ok (old ++ commitments (delta w))) (Roots (delta w)) }.

(** What one insertion leaves: [w] is a world of the tree [t] and the delta [d] of the insertion. *)
Definition inserted (tx : calls.Transaction) (o : events.NewCommitment * events.NewCommitment)
    (t : tree.Tree) (d : Delta) : Delta :=
  add_Leaves (leaf tx o.2) (add_Leaves (leaf tx o.1)
    (add_Roots (mkRootAt (tree.Len t) (tree.Root t)) d)).

Lemma root_ok_app all more r : root_ok all r → root_ok (all ++ more) r.
Proof.
  intros (n & H1 & H2 & H3). exists n. split; [done|]. split; [rewrite length_app; lia|].
  by rewrite take_app_le.
Qed.

Lemma AppendPair_Ok t leaves a b t' i : tree.represents t leaves →
  tree.AppendPair a b t = (t', Ok i) → tree.represents t' (leaves ++ [a; b]).
Proof.
  intros Ht H. destruct (Z.leb_spec (tree.next t + 2) tree.Capacity) as [Hc|Hc].
  - destruct (tree.AppendPair_represents t leaves a b Ht Hc) as (t'' & E & Ht').
    rewrite E in H. by injection H as <- _.
  - rewrite (tree.AppendPair_full t leaves a b Ht Hc) in H. done.
Qed.

Lemma insert_leaves old tx o w t i s' sp : leaves_ok old w → calls.pair_ok o →
  events.NC_Index o.1 = tree.Len (Tree (state w)) →
  tree.AppendPair (events.NC_Commitment o.1) (events.NC_Commitment o.2) (Tree (state w)) = (t, Ok i) →
  Tree s' = t → leaves_ok old (mkWorld s' (inserted tx o t (delta w)) sp).
Proof.
  intros [H1 H2 H3] [_ Hpair] Hi Ha Ht. pose proof (AppendPair_Ok _ _ _ _ _ _ H1 Ha) as Hr.
  destruct H1 as (Hn & _ & Hcap & _). unfold tree.Len in Hi.
  assert (Hlen : events.NC_Index o.1 = Z.of_nat (length old + length (Leaves (delta w)))).
  { rewrite Hi, Hn, length_app. unfold commitments. by rewrite length_map. }
  assert (Hsnd : events.NC_Index o.2 = events.NC_Index o.1 + 1).
  { rewrite Hpair. apply u64_small. rewrite tree.Capacity_eq in Hcap. unfold is_u64, W64. lia. }
  assert (E : old ++ commitments (inserted tx o t (delta w)) =
    (old ++ commitments (delta w)) ++ [events.NC_Commitment o.1; events.NC_Commitment o.2]).
  { unfold commitments, inserted. cbn [Leaves add_Leaves add_Roots].
    rewrite !map_app. cbn [map leaf LeafCommitment]. by rewrite <- !app_assoc. }
  split; cbn [state delta]; rewrite ?E, ?Ht; [done| |].
  - unfold inserted. cbn [Leaves add_Leaves add_Roots]. rewrite !map_app, H2, !length_app.
    cbn [map leaf LeafIndex length]. rewrite Hsnd, Hlen, <- app_assoc.
    replace (Z.of_nat (length (Leaves (delta w)) + 1 + 1))
      with (Z.of_nat (length (Leaves (delta w))) + 2) by lia.
    rewrite seqZ_app by lia. f_equal.
    rewrite !seqZ_cons, seqZ_nil by lia. cbn [app]. repeat (f_equal; try lia).
  - unfold inserted. cbn [Roots add_Leaves add_Roots]. apply Forall_app. split.
    + eapply Forall_impl; [exact H3|]. intros r. apply root_ok_app.
    + apply Forall_cons. split; [|constructor]. destruct Hr as (Hn' & _ & _ & _ & Hroot & _).
      eexists. split; [exact Hn'|]. split; [done|]. cbn [RootOf].
      rewrite firstn_all. exact Hroot.
Qed.

Lemma leaves_frame old w w' : leaves_ok old w → Tree (state w') = Tree (state w) →
  Leaves (delta w') = Leaves (delta w) → Roots (delta w') = Roots (delta w) → leaves_ok old w'.
Proof.
  intros [H1 H2 H3] E1 E2 E3. unfold commitments in *.
  split; unfold commitments; rewrite ?E1, ?E2, ?E3; assumption.
Qed.

Lemma apply_leaves old tx c w w' u : apply tx c w = (w', Ok u) → calls.call_ok c →
  leaves_ok old w → leaves_ok old w'.
Proof.
  intros H Hok Hl. open_apply H; rewrite ?pay_eq; open_ifs.
  all: try (apply (leaves_frame old w); [exact Hl|reflexivity..]).
  all: match goal with E : tree.AppendPair _ _ _ = (?t, Ok _) |- _ =>
    eapply leaves_frame;
    [eapply (insert_leaves old tx _ w t _ (set_Tree t (state w)) ∅ Hl);
      [apply Hok|eassumption|exact E|reflexivity]|reflexivity..] end.
Qed.

(** The nullifiers of the window, numbered on from the state's count, all different and all kept in
    the set of those spent. *)
Record nullifiers_ok (s0 : State) (w : World) : Prop := mkNullifiersOk {
  nullifiers_distinct : NoDup (map NullifierOf (Nullifiers (delta w)));
  nullifiers_spent : spent w = list_to_set (map NullifierOf (Nullifiers (delta w)));
  nullifiers_count : NullifierCount (state w) =
    NullifierCount s0 + Z.of_nat (length (Nullifiers (delta w)));
  nullifiers_seq : map Seq (Nullifiers (delta w)) =
    seqZ (NullifierCount s0) (Z.of_nat (length (Nullifiers (delta w)))) }.

Definition spent_two (tx : calls.Transaction) (a b : fr.Element) (k : Z) (d : Delta) : Delta :=
  add_Nullifiers (mkNullifier (u64 (k + 1)) b (calls.TLedger tx) (calls.THash tx))
    (add_Nullifiers (mkNullifier k a (calls.TLedger tx) (calls.THash tx)) d).

Lemma spend_nullifiers s0 tx a b w s' : nullifiers_ok s0 w → 0 <= NullifierCount s0 →
  NullifierCount (state w) + 2 < W64 → a ≠ b → a ∉ spent w → b ∉ spent w →
  NullifierCount s' = u64 (u64 (NullifierCount (state w) + 1) + 1) →
  nullifiers_ok s0 (mkWorld s' (spent_two tx a b (NullifierCount (state w)) (delta w))
    ({[b]} ∪ ({[a]} ∪ spent w))).
Proof.
  intros [H1 H2 H3 H4] H0 Hw Hab Ha Hb Hc.
  assert (Hk : 0 <= NullifierCount (state w)) by lia.
  rewrite (u64_small (NullifierCount (state w) + 1)) in Hc by (unfold is_u64; lia).
  rewrite u64_small in Hc by (unfold is_u64; lia).
  rewrite H2, elem_of_list_to_set in Ha, Hb. unfold spent_two.
  rewrite (u64_small (NullifierCount (state w) + 1)) by (unfold is_u64; lia).
  split; cbn [state delta spent Nullifiers add_Nullifiers]; rewrite ?map_app, ?length_app;
    cbn [map NullifierOf Seq length].
  - rewrite <- app_assoc. apply NoDup_app. split; [done|]. split; [|].
    + intros x Hx [->|[->|?%elem_of_nil]%elem_of_cons]%elem_of_cons; done.
    + apply NoDup_cons. split; [|apply NoDup_singleton]. by intros ->%list_elem_of_singleton.
  - rewrite H2, !list_to_set_app_L. cbn. set_solver.
  - lia.
  - rewrite H4, <- app_assoc, H3.
    replace (Z.of_nat (length (Nullifiers (delta w)) + 1 + 1))
      with (Z.of_nat (length (Nullifiers (delta w))) + 2) by lia.
    rewrite seqZ_app by lia. f_equal. rewrite !seqZ_cons, seqZ_nil by lia. cbn [app].
    repeat (f_equal; try lia).
Qed.

Lemma nullifiers_frame s0 w w' : nullifiers_ok s0 w → NullifierCount (state w') = NullifierCount (state w) →
  Nullifiers (delta w') = Nullifiers (delta w) → spent w' = spent w → nullifiers_ok s0 w'.
Proof. intros [H1 H2 H3 H4] E1 E2 E3. split; rewrite ?E1, ?E2, ?E3; assumption. Qed.

(** With [n] calls left to make, the count of nullifiers does not wrap. *)
Definition nullifiers_left (s0 : State) (n : nat) (w : World) : Prop :=
  nullifiers_ok s0 w ∧ NullifierCount (state w) + 2 * Z.of_nat n < W64.

Lemma apply_nullifiers s0 tx c n w w' u : 0 <= NullifierCount s0 → apply tx c w = (w', Ok u) →
  nullifiers_left s0 (S n) w → nullifiers_left s0 n w'.
Proof.
  intros H0 H [Hn Hr]. pose proof (nullifiers_count _ _ Hn).
  open_apply H; rewrite ?pay_eq; open_ifs.
  all: split; [|cbn -[Z.of_nat Z.mul]; rewrite ?u64_small by (rewrite ?u64_small; unfold is_u64; lia);
    rewrite ?u64_small by (unfold is_u64; lia); lia].
  all: try (apply (nullifiers_frame s0 w); [exact Hn|reflexivity..]).
  all: match goal with N : ?a ≠ ?b, A : ?a ∉ _, B : ?b ∉ _ |- _ =>
    eapply nullifiers_frame;
    [eapply (spend_nullifiers s0 tx a b w
       (set_NullifierCount (u64 (u64 (NullifierCount (state w) + 1) + 1)) (state w)) Hn H0);
       [lia|exact N|exact A|exact B|reflexivity]|reflexivity..] end.
Qed.

(** ** The order of the exit changes *)

#[global] Instance exitChangeKind_eq_dec : EqDecision exitChangeKind.
Proof. solve_decision. Defined.

(** The changes of one kind, in order, are the entries of that kind's list. *)
Definition order_of (k : exitChangeKind) (d : Delta) : list nat :=
  map index (filter (λ c, kind c = k) (exitOrder d)).

Definition order_ok (d : Delta) : Prop :=
  order_of queuedChange d = seq 0 (length (DQueued d)) ∧
  order_of partPaidChange d = seq 0 (length (DPartPaid d)) ∧
  order_of releasedChange d = seq 0 (length (DReleased d)) ∧
  order_of requeuedChange d = seq 0 (length (DRequeued d)).

Lemma order_frame d d' : order_ok d → exitOrder d' = exitOrder d → DQueued d' = DQueued d →
  DPartPaid d' = DPartPaid d → DReleased d' = DReleased d → DRequeued d' = DRequeued d → order_ok d'.
Proof. unfold order_ok, order_of. by intros H -> -> -> -> ->. Qed.

(** Each of the four methods of the delta appends one entry and one change that points at it. *)
Lemma order_append d : order_ok d →
  (∀ e, order_ok (queued e d)) ∧ (∀ p, order_ok (partPaid p d)) ∧
  (∀ r, order_ok (released r d)) ∧ (∀ r, order_ok (requeued r d)).
Proof.
  unfold order_ok, order_of, queued, partPaid, released, requeued. cbn.
  intros (H1 & H2 & H3 & H4).
  do 3 (split; [intros x; rewrite !filter_app, !length_app, !map_app, H1, H2, H3, H4; cbn;
    rewrite ?app_nil_r, Nat.add_1_r, seq_S; done|]).
  intros x; rewrite !filter_app, !length_app, !map_app, H1, H2, H3, H4; cbn;
    rewrite ?app_nil_r, Nat.add_1_r, seq_S; done.
Qed.

Lemma apply_order tx c w w' u : apply tx c w = (w', Ok u) → order_ok (delta w) →
  order_ok (delta w').
Proof.
  intros H Ho. destruct (order_append _ Ho) as (A1 & A2 & A3 & A4).
  open_apply H; rewrite ?pay_eq; open_ifs.
  all: try (eapply order_frame; [exact Ho|reflexivity..]).
  all: match type of Ho with order_ok ?d => lazymatch goal with
    | |- context[requeued ?r (queued ?e _)] =>
        apply (order_frame (requeued r (queued e d)));
        [exact (proj2 (proj2 (proj2 (order_append _ (A1 e)))) r)|..]
    | |- context[queued ?e _] => apply (order_frame (queued e d)); [apply A1|..]
    | |- context[partPaid ?p _] => apply (order_frame (partPaid p d)); [apply A2|..]
    | |- context[released ?r _] => apply (order_frame (released r d)); [apply A3|..]
    end end; reflexivity.
Qed.

(** ** What a halt stops *)

(** The state that a halt freezes. *)
Definition frozen (w : World) :=
  (Tree (state w), NextDepositID (state w), AttestedUpTo (state w), NullifierCount (state w),
   (Exits (state w), Stranded (state w), ExitHead (state w), ExitTail (state w),
    QueuedTotal (state w)), (OutflowDay (state w), Outflow (state w)), spent w).

Lemma apply_while_halted tx c w w' u : apply tx c w = (w', Ok u) →
  halted (state w) (u64 (calls.TClosedAt tx)) = true → frozen w' = frozen w.
Proof.
  intros H Hh. open_apply H; rewrite ?pay_eq; open_ifs; guards.
  all: try congruence. all: reflexivity.
Qed.

(** ** The day's window *)

Lemma apply_window tx c w w' u l : apply tx c w = (w', Ok u) → Limits (state w) = Some l →
  OutflowOn (state w') (u64 (calls.TClosedAt tx) / day) <=
    Z.max (OutflowOn (state w) (u64 (calls.TClosedAt tx) / day)) (vault.MaxDailyOutflow l).
Proof.
  intros H Hl. open_apply H; rewrite ?pay_eq; open_ifs; guards.
  all: try (apply Z.le_trans with (OutflowOn (state w) (u64 (calls.TClosedAt tx) / day));
    [reflexivity|lia]).
  all: unfold fits, step, minInt, OutflowOn in *; cbn in *; rewrite ?Hl in *; rewrite ?Z.eqb_refl.
  all: set (o := if OutflowDay (state w) =? _ then _ else _) in *; clearbody o; guards.
  all: repeat match goal with
    | H : context[if ?b then _ else _] |- _ => destruct b eqn:?; guards
    end; lia.
Qed.

(** ** Errors *)

Definition inconsistency (e : gerr) : Prop :=
  errors_is "chainstate: events contradict the vault" e = true.

(** The step fails, if it does, with [ErrInconsistent]. *)
Definition consistent {A} (m : ST World A) : Prop :=
  ∀ w w' e, m w = (w', Fail e) → inconsistency e.

Lemma consistent_bind {A B} (m : ST World A) (f : A → ST World B) :
  consistent m → (∀ a, consistent (f a)) → consistent (mbind f m).
Proof.
  intros Hm Hf w w' e. unfold mbind, ST_bind. destruct (m w) as [w1 [a|e1]] eqn:E.
  - apply Hf.
  - intros [= <- <-]. by eapply Hm.
Qed.

Lemma consistent_total {A} (m : ST World A) : (∀ w, is_ok (m w).2 = true) → consistent m.
Proof. intros H w w' e E. specialize (H w). by rewrite E in H. Qed.

Lemma consistent_reject {A} f a : consistent (reject (A := A) f a).
Proof. intros w w' e [= <- <-]. done. Qed.

Lemma consistent_reject_if c f a : consistent (reject_if c f a).
Proof. intros w w' e. unfold reject_if, st_fail_if. destruct c; [apply consistent_reject|done]. Qed.

Lemma consistent_spend_one tx nf : consistent (spend_one tx nf).
Proof. intros w w' e. unfold spend_one. destruct (bool_decide _); [apply consistent_reject|done]. Qed.

Lemma consistent_append_pair l r : consistent (append_pair l r).
Proof. intros w w' e. unfold append_pair. destruct (tree.AppendPair _ _ _) as [? []]; [done|]. by intros [= <- <-]. Qed.

Lemma consistent_payment c : calls.call_ok (calls.CTransact c) → consistent (payment c).
Proof.
  intros [_ H]. unfold payment. destruct (calls.T_Queued c), (calls.T_Settled c); try done;
    by apply consistent_total.
Qed.

Create HintDb consistent.
#[local] Hint Resolve consistent_reject consistent_reject_if consistent_spend_one
  consistent_append_pair consistent_payment : consistent.

Ltac consistent_step :=
  repeat match goal with
  | |- consistent (mbind _ _) => apply consistent_bind; [|intros]
  | |- consistent (match ?x with _ => _ end) => destruct x eqn:?
  | |- consistent (if ?b then _ else _) => destruct b
  | |- consistent (mret _) => by apply consistent_total
  | |- consistent get => by apply consistent_total
  | |- consistent (upd _) => by apply consistent_total
  | |- consistent (record _) => by apply consistent_total
  | |- consistent (notice _ _ _) => by apply consistent_total
  end; auto with consistent.

Lemma consistent_apply tx c : calls.call_ok c → consistent (apply tx c).
Proof.
  intros Hok. destruct c as [c|c|c|c|b]; cbn [apply].
  - unfold apply_shield, spend. consistent_step.
  - unfold transact, spend, insert. consistent_step.
    exfalso. destruct Hok as [_ Hst]. simplify_eq. by rewrite Heqo, Heqo0 in Hst.
  - unfold release, head, takeOff, holds_enough. destruct Hok as [id ->]. consistent_step.
  - unfold apply_admission, insert. consistent_step.
  - destruct b; try done; unfold apply_flagged, apply_unflagged, apply_attested, apply_refunded,
      refund_outcome, payPart, strand, requeue, head, takeOff, holds_enough, apply_paused,
      apply_halted, apply_resumed, apply_limits_queued, apply_limits_applied,
      apply_limits_cancelled; consistent_step.
Qed.

Lemma Apply_error txs s s' e : Forall (λ tx, Forall calls.call_ok (calls.TCalls tx)) txs →
  Apply txs s = (s', Fail e) → inconsistency e.
Proof.
  intros Hwf. unfold Apply. destruct (apply_txs txs _) as [w [[]|e']] eqn:E; [done|].
  intros [= _ <-]. revert E. generalize (mkWorld s empty_delta ∅).
  intros w0 E. revert w0 E. enough (consistent (apply_txs txs)) as H by (intros w0; apply H).
  induction Hwf as [|tx txs Htx _ IH]; cbn [apply_txs]; [by apply consistent_total|].
  apply consistent_bind; [|done]. intros w1 w2 e2 E. unfold apply_tx in E.
  destruct (apply_calls tx (calls.TCalls tx) w1) as [w3 [[]|e3]] eqn:E3; [done|].
  injection E as <- <-. unfold inconsistency. cbn [errors_is]. revert E3. generalize w1 w3 e3.
  fold (consistent (apply_calls tx (calls.TCalls tx))).
  induction Htx as [|c cs Hc _ IHc]; cbn [apply_calls]; [by apply consistent_total|].
  apply consistent_bind; [by apply consistent_apply|done].
Qed.

End run.
End chaindelta.
