(* ===== verification/Chain.v ===== *)
(** What the replay of the vault's events guarantees: the theorems of chainstate/state.go, from the
    raw events to the state and the delta a window leaves. *)
From S2P Require Import Prelude.
From S2P Require Import Fr.
From S2P Require Import Tree.
From S2P Require Import Xdr.
From S2P Require Import VaultState.
From S2P Require Import Events.
From S2P Require Import Calls.
From S2P Require Import ChainData.
From S2P Require Import ChainState.
From S2P Require Import ChainInv.
From S2P Require Import ChainDelta.

Module chain.

Import chaindata chainstate chaininv chaindelta.

(** * Lemmas *)

(** ** Transactions parsed from decoded events *)

Lemma decoded_bodies `{StellarSDK} raws evs : mapM events.Decode raws = Ok evs →
  Forall events.body_ok (calls.bodies evs).
Proof.
  intros Hm%mapM_Ok. unfold calls.bodies. induction Hm as [|raw ev raws evs Hd _ IH]; constructor.
  - by apply events.Decode_Ok in Hd as (_ & _ & ? & _).
  - done.
Qed.

Lemma tx_of_wf group tx : calls.tx_of group tx → Forall events.body_ok (calls.bodies group) →
  Forall call_wf (calls.TCalls tx) ∧ Forall calls.call_ok (calls.TCalls tx) ∧
  (length (calls.TCalls tx) <= length group)%nat.
Proof.
  intros (_ & _ & Hok & Hcat) Hb. rewrite <- Hcat in Hb. split; [|split; [done|]].
  - clear Hcat. induction (calls.TCalls tx) as [|c cs IH]; [constructor|]. cbn [map concat] in Hb.
    apply Forall_app in Hb as [Hc Hcs]. apply Forall_cons in Hok as [_ Hok].
    constructor; [exact Hc|by apply IH].
  - replace (length group) with (length (calls.bodies group))
      by (unfold calls.bodies; apply length_map).
    rewrite <- Hcat. clear. induction (calls.TCalls tx) as [|c cs IH]; cbn; [lia|].
    rewrite length_app. pose proof (calls.flatten_nonempty c). lia.
Qed.

(** What [ParseTxs] gives [Apply]: calls of the vault's shapes with values within its guarantees, no
    more of them than events. *)
Lemma parsed_wf evs txs : calls.ParseTxs evs = Ok txs → Forall events.body_ok (calls.bodies evs) →
  txs_wf txs ∧ Forall (λ tx, Forall calls.call_ok (calls.TCalls tx)) txs ∧
  (call_count txs <= length evs)%nat.
Proof.
  intros ((groups & <- & Hall) & _ & _)%calls.ParseTxs_Ok Hb.
  induction Hall as [|group tx groups txs Htx _ IH]; [split; [constructor|split; [constructor|done]]|].
  cbn [concat] in *. unfold calls.bodies in Hb. rewrite map_app in Hb.
  apply Forall_app in Hb as [Hb1 Hb2]. destruct (tx_of_wf group tx Htx Hb1) as (H1 & H2 & H3).
  destruct (IH Hb2) as (I1 & I2 & I3). split; [by constructor|]. split; [by constructor|].
  unfold call_count in *. cbn [map sum_list]. rewrite length_app.
  change (id (length (calls.TCalls tx))) with (length (calls.TCalls tx)). lia.
Qed.

Section run.
Context {NH : tree.NodeHash}.

Lemma Apply_flow txs s s' d : Apply txs s = (s', Ok d) → Tvl s' = Tvl s + net d.
Proof.
  intros H.
  destruct (Apply_keep (λ _ w, flow_ok s w) (λ _, True) (λ tx c n w w' u E _, apply_flow s tx c w w' u E)
    txs s s' d H) as (sp & Hs); [|unfold flow_ok, net, total; cbn; lia|exact Hs].
  apply Forall_forall. intros tx _. by apply Forall_forall.
Qed.

Lemma Apply_leaves txs s s' d old : Apply txs s = (s', Ok d) →
  Forall (λ tx, Forall calls.call_ok (calls.TCalls tx)) txs → tree.represents (Tree s) old →
  tree.represents (Tree s') (old ++ commitments d) ∧
  map LeafIndex (Leaves d) = seqZ (Z.of_nat (length old)) (Z.of_nat (length (Leaves d))) ∧
  Forall (root_ok (old ++ commitments d)) (Roots d).
Proof.
  intros H Hwf Ht.
  destruct (Apply_keep (λ _ w, leaves_ok old w) calls.call_ok
    (λ tx c n w w' u E, apply_leaves old tx c w w' u E) txs s s' d H Hwf) as (sp & [H1 H2 H3]);
    [|done].
  split; cbn; [by rewrite app_nil_r|done|constructor].
Qed.

Lemma Apply_nullifiers txs s s' d : Apply txs s = (s', Ok d) → 0 <= NullifierCount s →
  NullifierCount s + 2 * Z.of_nat (call_count txs) < W64 →
  NoDup (map NullifierOf (Nullifiers d)) ∧
  map Seq (Nullifiers d) = seqZ (NullifierCount s) (Z.of_nat (length (Nullifiers d))) ∧
  NullifierCount s' = NullifierCount s + Z.of_nat (length (Nullifiers d)).
Proof.
  intros H H0 Hn.
  destruct (Apply_keep (nullifiers_left s) (λ _, True)
    (λ tx c n w w' u E _, apply_nullifiers s tx c n w w' u H0 E) txs s s' d H)
    as (sp & [[N1 N2 N3 N4] _]); [| |done].
  - apply Forall_forall. intros tx _. by apply Forall_forall.
  - split; [|done]. split; cbn; [constructor|done|lia|by rewrite seqZ_nil].
Qed.

Lemma Apply_order txs s s' d : Apply txs s = (s', Ok d) → order_ok d.
Proof.
  intros H.
  destruct (Apply_keep (λ _ w, order_ok (delta w)) (λ _, True)
    (λ tx c n w w' u E _, apply_order tx c w w' u E) txs s s' d H) as (sp & Hs); [|done|exact Hs].
  apply Forall_forall. intros tx _. by apply Forall_forall.
Qed.

End run.

Lemma covered_by_spec s upTo :
  Sorted Z.le (covered_by s upTo) ∧ NoDup (covered_by s upTo) ∧
  ∀ id, id ∈ covered_by s upTo ↔
    ∃ d, Pending s !! id = Some d ∧ AttestedUpTo s < id <= upTo ∧ Flag d = None.
Proof.
  unfold covered_by. set (l := filter _ (map_to_list (Pending s))).
  assert (Hp : merge_sort Z.le (map fst l) ≡ₚ map fst l) by apply merge_sort_Permutation.
  split; [apply (Sorted_merge_sort _)|]. split.
  - rewrite Hp. subst l. generalize (NoDup_fst_map_to_list (Pending s)).
    generalize (map_to_list (Pending s)). intros l Hnd. induction l as [|[k d] l IH]; [constructor|].
    cbn in Hnd. apply NoDup_cons in Hnd as [Hni Hnd]. rewrite filter_cons.
    destruct (decide _); [|by apply IH]. cbn. apply NoDup_cons. split; [|by apply IH].
    intros Hin. apply Hni. apply list_elem_of_fmap in Hin as (x & -> & Hx).
    apply list_elem_of_filter in Hx as [_ Hx]. by apply list_elem_of_fmap_2.
  - intros id. rewrite Hp. split.
    + intros ([k d] & -> & Hx)%list_elem_of_fmap. subst l. apply list_elem_of_filter in Hx as [Hf Hx].
      apply elem_of_map_to_list in Hx. exists d. cbn in *. naive_solver.
    + intros (d & Hd & Hr & Hf). apply list_elem_of_fmap. exists (id, d). split; [done|]. subst l.
      apply list_elem_of_filter. split; [done|]. by apply elem_of_map_to_list.
Qed.

(** ** A run to evaluate the theorems on *)
Module run.

(** Any hash will do; this one keeps the left child. *)
Definition left_hash : tree.NodeHash := λ a b, a.

Definition nullifiers (n : Z) : events.NewNullifier * events.NewNullifier :=
  (events.mkNewNullifier (fr.SetUint64 n), events.mkNewNullifier (fr.SetUint64 (n + 1))).
Definition outputs (i n : Z) : events.NewCommitment * events.NewCommitment :=
  (events.mkNewCommitment i (fr.SetUint64 n) (replicate 181 0),
   events.mkNewCommitment (i + 1) (fr.SetUint64 (n + 1)) (replicate 181 0)).

Definition limits : events.LimitsChange :=
  events.mkLimitsChange (vault.mkLimits 1 1000 1000 10000 50 5 500) 0.
Definition shield : calls.Call :=
  calls.CShield (calls.mkShield (nullifiers 1)
    (events.mkDepositPending 1 "D" 100 (fr.SetUint64 11) (fr.SetUint64 12) 1000)).
Definition attest : calls.Call := calls.CBody (events.BAttested (events.mkAttested 1)).
Definition admission : calls.Call :=
  calls.CAdmission (calls.mkAdmission (outputs 0 11) (events.mkDepositAdmitted 1 0 1)).
Definition paid : events.Settled := events.mkSettled (-28) 2 "R" "L" None.
Definition pay_out : calls.Call :=
  calls.CTransact (calls.mkTransact (nullifiers 3) (outputs 2 21) (Some paid) None).
Definition queue_exit : calls.Call :=
  calls.CTransact (calls.mkTransact (nullifiers 5) (outputs 4 31) None
    (Some (events.mkExitQueued 1 (-38) 2 "R" "L"))).
Definition part_pay : calls.Call :=
  calls.CBody (events.BExitPaid (events.mkExitPaid 1 20 0 18 2)).
Definition strand_exit : calls.Call :=
  calls.CBody (events.BExitStranded (events.mkExitStranded 1 18 2)).
Definition claim : calls.Call :=
  calls.CBody (events.BExitRequeued (events.mkExitRequeued 1 2 18 2)).
Definition release_exit : calls.Call :=
  calls.CExitSettled (events.mkSettled (-18) 2 "R" "L" (Some 2)).

(** Two days: a deposit comes in, is attested and admitted, a transact is paid, the next one waits
    and is part paid, stranded, claimed and released. *)
Definition txs : list calls.Transaction :=
  [calls.mkTx 10 1000 "a" [calls.CBody (events.BLimitsApplied limits); shield];
   calls.mkTx 11 1005 "b" [attest; admission]; calls.mkTx 12 1010 "c" [pay_out];
   calls.mkTx 13 1015 "d" [queue_exit; part_pay];
   calls.mkTx 14 90000 "e" [strand_exit; claim; release_exit]].

(** A run is its first component and its result. *)
Lemma pair_Ok {A B} (p : A * res B) b : p.2 = Ok b → p = (p.1, Ok b).
Proof. destruct p. cbn. by intros ->. Qed.

Lemma delta_Ok (p : State * res Delta) : is_ok p.2 = true →
  p = (p.1, Ok (match p.2 with Ok d => d | Fail _ => empty_delta end)).
Proof. by destruct p as [? []]. Qed.

Definition outcome : State * res Delta := Apply (NH := left_hash) txs New.
Definition final : State := outcome.1.
Definition changes : Delta := match outcome.2 with Ok d => d | Fail _ => empty_delta end.

(** Worlds of the run: the one a call starts from, and the one it leaves. *)
Definition at_tx (n : nat) : World :=
  (apply_txs (NH := left_hash) (take n txs) (mkWorld New empty_delta ∅)).1.
Definition call (ledger closed : Z) (hash : string) (c : calls.Call) (w : World) : World * res unit :=
  apply (NH := left_hash) (calls.mkTx ledger closed hash []) c w.

Definition before_attest : World := at_tx 1.
Definition after_attest : World := (call 11 1005 "b" attest before_attest).1.
Definition after_admit : World := (call 11 1005 "b" admission after_attest).1.
Definition before_release : World :=
  (call 14 90000 "e" claim (call 14 90000 "e" strand_exit (at_tx 4)).1).1.
Definition after_release : World := (call 14 90000 "e" release_exit before_release).1.

Lemma attest_Ok : call 11 1005 "b" attest before_attest = (after_attest, Ok tt).
Proof. unfold after_attest. apply pair_Ok. vm_compute. reflexivity. Qed.
Lemma admit_Ok : call 11 1005 "b" admission after_attest = (after_admit, Ok tt).
Proof. unfold after_admit. apply pair_Ok. vm_compute. reflexivity. Qed.
Lemma release_Ok : call 14 90000 "e" release_exit before_release = (after_release, Ok tt).
Proof. unfold after_release. apply pair_Ok. vm_compute. reflexivity. Qed.

Lemma outcome_Ok : outcome = (final, Ok changes).
Proof. unfold final, changes. apply delta_Ok. vm_compute. reflexivity. Qed.

Lemma call_wf_dec c : Decision (call_wf c).
Proof. unfold call_wf. apply _. Defined.
#[global] Existing Instance call_wf_dec.

Lemma txs_are_wf : txs_wf txs.
Proof. apply (bool_decide_unpack (Forall (λ tx, Forall call_wf (calls.TCalls tx)) txs)). vm_compute. exact I. Qed.

Lemma txs_are_ok : Forall (λ tx, Forall calls.call_ok (calls.TCalls tx)) txs.
Proof.
  repeat (apply Forall_cons; split; [|]); try apply Forall_nil_2;
    repeat (apply Forall_cons; split; [|]); try apply Forall_nil_2; cbn; try done.
  all: try (eexists; reflexivity). all: repeat split.
Qed.

(** *** A first deposit, from its raw events *)
Open Scope string_scope.

Definition genesis_bodies : list events.Body :=
  [events.BNewNullifier (nullifiers 1).1; events.BNewNullifier (nullifiers 1).2;
   events.BDepositPending (events.mkDepositPending 1 (example.account 1) 100 (fr.SetUint64 11)
     (fr.SetUint64 12) 1000)].
Definition genesis_values : list ScVal :=
  omap (λ b, match @events.encode_body (example.sdk []) b with Ok v => Some v | Fail _ => None end)
    genesis_bodies.
Definition genesis_sdk : StellarSDK :=
  example.sdk (("n", ScvSymbol "new_nullifier") :: ("d", ScvSymbol "deposit_pending") ::
    zip ["0"; "1"; "2"] genesis_values).
Definition genesis_raw (i : Z) (topic value : string) : events.RawEvent :=
  events.mkRawEvent 10 1000 "a" 1 0 i "C" [topic] value.
Definition genesis_raws : list events.RawEvent :=
  [genesis_raw 0 "n" "0"; genesis_raw 1 "n" "1"; genesis_raw 2 "d" "2"].
Definition genesis_events : list events.Event :=
  match mapM (@events.Decode genesis_sdk) genesis_raws with Ok evs => evs | Fail _ => [] end.
Definition genesis_txs : list calls.Transaction :=
  match calls.ParseTxs genesis_events with Ok txs => txs | Fail _ => [] end.
Definition genesis_state : State := (Apply (NH := left_hash) genesis_txs New).1.
Definition genesis_delta : Delta :=
  match (Apply (NH := left_hash) genesis_txs New).2 with Ok d => d | Fail _ => empty_delta end.

Lemma genesis_decodes : mapM (@events.Decode genesis_sdk) genesis_raws = Ok genesis_events.
Proof. vm_compute. reflexivity. Qed.
Lemma genesis_parses : calls.ParseTxs genesis_events = Ok genesis_txs.
Proof. vm_compute. reflexivity. Qed.
Lemma genesis_applies : Apply (NH := left_hash) genesis_txs New = (genesis_state, Ok genesis_delta).
Proof. unfold genesis_state, genesis_delta. apply delta_Ok. vm_compute. reflexivity. Qed.
Close Scope string_scope.

End run.

(** * Properties *)

(** C4: [Apply] keeps the state's invariants: the deposits pending under their own IDs and summing to
    [PendingTotal], the exits queued under exactly the IDs from head to tail, the stranded ones
    behind the head, what both owe summing to [QueuedTotal], no exit owing a negative part or more
    than it was queued with, nothing attested that was not deposited, and never less value held than
    pending deposits and owed exits take. The transactions are of the vault's events, and too few to
    wrap a 64-bit counter. *)
Theorem Apply_keeps_invariants `{tree.NodeHash} (txs : list calls.Transaction) (s s' : State)
    (d : Delta) (Hok : Apply txs s = (s', Ok d)) (Hwf : txs_wf txs) (Hinv : inv s)
    (Hroom : room_for (call_count txs) s) : inv s'.
Proof. by eapply Apply_inv. Qed.

Lemma Apply_invariants_witness : inv run.final.
Proof.
  apply (@Apply_keeps_invariants run.left_hash run.txs New run.final run.changes run.outcome_Ok
    run.txs_are_wf inv_New).
  split; vm_compute; reflexivity.
Defined.

(** C10: a window neither makes nor loses value: what the vault holds after it is what it held before,
    plus the deposits the delta lists as created, less those it lists as cancelled or refunded, less
    the payout and fee of every settlement it lists. *)
Theorem Apply_conserves_value `{tree.NodeHash} (txs : list calls.Transaction) (s s' : State)
    (d : Delta) (Hok : Apply txs s = (s', Ok d)) :
  Tvl s' = Tvl s + total Amount (Created d) - total refunded_value (Resolved d)
           - total paid_value (Settlements d).
Proof. rewrite (Apply_flow _ _ _ _ Hok). unfold net. lia. Qed.

Lemma Apply_value_witness : Tvl run.final = 100 - 70.
Proof.
  rewrite (@Apply_conserves_value run.left_hash run.txs New run.final run.changes run.outcome_Ok).
  vm_compute. reflexivity.
Defined.

(** C12: the tree after a window is the Merkle tree of the leaves of before and the delta's, in order;
    the delta numbers its leaves on from the last one; and each root it records is the root the tree
    had at that leaf count, which is what the vault's root ring holds. *)
Theorem Apply_extends_tree `{tree.NodeHash} (txs : list calls.Transaction) (s s' : State) (d : Delta)
    (old : list fr.Element) (Hok : Apply txs s = (s', Ok d))
    (Hwf : Forall (λ tx, Forall calls.call_ok (calls.TCalls tx)) txs)
    (Ht : tree.represents (Tree s) old) :
  tree.represents (Tree s') (old ++ commitments d) ∧
  map LeafIndex (Leaves d) = seqZ (Z.of_nat (length old)) (Z.of_nat (length (Leaves d))) ∧
  Forall (root_ok (old ++ commitments d)) (Roots d).
Proof. by eapply Apply_leaves. Qed.

Lemma Apply_tree_witness :
  tree.represents (NH := run.left_hash) (Tree run.final) (commitments run.changes) ∧
  map LeafIndex (Leaves run.changes) = [0; 1; 2; 3; 4; 5].
Proof.
  destruct (@Apply_extends_tree run.left_hash run.txs New run.final run.changes [] run.outcome_Ok
    run.txs_are_ok (@tree.represents_empty run.left_hash)) as (H1 & H2 & _).
  split; [exact H1|]. rewrite H2. vm_compute. reflexivity.
Defined.

(** No nullifier is spent twice in a window, and the delta numbers them on from the state's
    count without a gap. *)
Theorem Apply_spends_once `{tree.NodeHash} (txs : list calls.Transaction) (s s' : State) (d : Delta)
    (Hok : Apply txs s = (s', Ok d)) (H0 : 0 <= NullifierCount s)
    (Hn : NullifierCount s + 2 * Z.of_nat (call_count txs) < W64) :
  NoDup (map NullifierOf (Nullifiers d)) ∧
  map Seq (Nullifiers d) = seqZ (NullifierCount s) (Z.of_nat (length (Nullifiers d))) ∧
  NullifierCount s' = NullifierCount s + Z.of_nat (length (Nullifiers d)).
Proof. by eapply Apply_nullifiers. Qed.

Lemma Apply_nullifiers_witness :
  NoDup (map NullifierOf (Nullifiers run.changes)) ∧ NullifierCount run.final = 6.
Proof.
  destruct (@Apply_spends_once run.left_hash run.txs New run.final run.changes run.outcome_Ok)
    as (H1 & _ & H3); [vm_compute; congruence|vm_compute; reflexivity|].
  split; [exact H1|]. rewrite H3. vm_compute. reflexivity.
Defined.

(** The order a delta gives for its exit changes is complete: for each kind, the changes point
    at the entries of that kind's list, each once and in order. *)
Theorem Apply_orders_exits `{tree.NodeHash} (txs : list calls.Transaction) (s s' : State) (d : Delta)
    (Hok : Apply txs s = (s', Ok d)) :
  order_of queuedChange d = seq 0 (length (DQueued d)) ∧
  order_of partPaidChange d = seq 0 (length (DPartPaid d)) ∧
  order_of releasedChange d = seq 0 (length (DReleased d)) ∧
  order_of requeuedChange d = seq 0 (length (DRequeued d)).
Proof. by apply Apply_order in Hok. Qed.

Lemma Apply_orders_witness : order_of releasedChange run.changes = [0; 1]%nat.
Proof.
  rewrite (proj1 (proj2 (proj2
    (@Apply_orders_exits run.left_hash run.txs New run.final run.changes run.outcome_Ok)))).
  vm_compute. reflexivity.
Defined.

(** Every way a replay of parsed transactions can fail is [ErrInconsistent], wrapped with the
    transaction it came from: a window is refused for what its events say, and no call panics. *)
Theorem Apply_fails_inconsistent `{tree.NodeHash} (txs : list calls.Transaction) (s s' : State)
    (e : gerr) (Hwf : Forall (λ tx, Forall calls.call_ok (calls.TCalls tx)) txs)
    (Hfail : Apply txs s = (s', Fail e)) :
  errors_is "chainstate: events contradict the vault" e = true.
Proof. by eapply Apply_error. Qed.

Lemma Apply_fails_witness :
  let txs := [calls.mkTx 10 1000 "a" [run.shield; run.shield]] in
  ∃ s e, Apply (NH := run.left_hash) txs New = (s, Fail e) ∧
    errors_is "chainstate: events contradict the vault" e = true.
Proof.
  intros txs. destruct (Apply (NH := run.left_hash) txs New) as [s [d|e]] eqn:E;
    [exfalso; vm_compute in E; discriminate E|].
  exists s, e. split; [reflexivity|].
  apply (@Apply_fails_inconsistent run.left_hash txs New s e); [|exact E].
  repeat (apply Forall_cons; split; [|]); try apply Forall_nil_2;
    repeat (apply Forall_cons; split; [|]); try apply Forall_nil_2; exact I.
Defined.

(** C1: from the raw events of a fresh vault to its state: when they decode, parse and apply, the
    state keeps every invariant, holds exactly the value the delta accounts for, its tree is the
    Merkle tree of the delta's leaves and no nullifier was spent twice. *)
Theorem replay_from_genesis `{StellarSDK} `{tree.NodeHash} (raws : list events.RawEvent)
    (evs : list events.Event) (txs : list calls.Transaction) (s : State) (d : Delta)
    (Hd : mapM events.Decode raws = Ok evs) (Hp : calls.ParseTxs evs = Ok txs)
    (Ha : Apply txs New = (s, Ok d)) (Hn : 2 * Z.of_nat (length raws) + 1 < W64) :
  inv s ∧ Tvl s = net d ∧ tree.represents (Tree s) (commitments d) ∧
  NoDup (map NullifierOf (Nullifiers d)).
Proof.
  destruct (parsed_wf evs txs Hp (decoded_bodies raws evs Hd)) as (Hwf & Hok & Hc).
  apply mapM_Ok, Forall2_length in Hd. rewrite <- Hd in Hc.
  split; [|split; [|split]].
  - eapply Apply_inv; [exact Ha|done|apply inv_New|]. unfold room_for. cbn [NextDepositID ExitTail New].
    lia.
  - rewrite (Apply_flow _ _ _ _ Ha). done.
  - by apply (Apply_leaves _ _ _ _ [] Ha Hok tree.represents_empty).
  - apply (Apply_nullifiers _ _ _ _ Ha); cbn [NullifierCount New]; lia.
Qed.

Lemma replay_witness :
  inv run.genesis_state ∧ Tvl run.genesis_state = 100.
Proof.
  destruct (@replay_from_genesis run.genesis_sdk run.left_hash run.genesis_raws run.genesis_events
    run.genesis_txs run.genesis_state run.genesis_delta run.genesis_decodes run.genesis_parses
    run.genesis_applies) as (H1 & H2 & _); [vm_compute; reflexivity|].
  split; [exact H1|]. rewrite H2. vm_compute. reflexivity.
Defined.

(** While the vault is halted no call that succeeds moves the tree, the deposit and exit
    counters, the attestation, the exit queue, the stranded exits, the day's window or the spent
    nullifiers: only flags, refunds, pauses, limits, halts and resumes go through. *)
Theorem halt_freezes `{tree.NodeHash} (tx : calls.Transaction) (c : calls.Call) (w w' : World)
    (u : unit) (Hok : apply tx c w = (w', Ok u))
    (Hh : halted (state w) (u64 (calls.TClosedAt tx)) = true) : frozen w' = frozen w.
Proof. by eapply apply_while_halted. Qed.

Lemma halt_witness :
  let s := set_HaltedUntil 5000 New in
  let w := mkWorld s empty_delta ∅ in
  let pause := calls.CBody (events.BPaused (events.mkPaused true true)) in
  frozen (apply (NH := run.left_hash) (calls.mkTx 10 1000 "a" []) pause w).1 = frozen w.
Proof.
  intros s w pause. apply (@halt_freezes run.left_hash (calls.mkTx 10 1000 "a" []) pause w _ tt);
    [reflexivity|vm_compute; reflexivity].
Defined.

(** No call that succeeds takes what a day has paid out past the daily limit in force: it ends
    within the limit, or, when a lowered limit was already passed, no higher than it was. *)
Theorem window_bounds_outflow `{tree.NodeHash} (tx : calls.Transaction) (c : calls.Call)
    (w w' : World) (u : unit) (l : vault.Limits) (Hok : apply tx c w = (w', Ok u))
    (Hl : Limits (state w) = Some l) :
  let today := u64 (calls.TClosedAt tx) / day in
  OutflowOn (state w') today <= Z.max (OutflowOn (state w) today) (vault.MaxDailyOutflow l).
Proof. by eapply apply_window. Qed.

Lemma window_witness :
  OutflowOn (state run.after_release) (u64 90000 / day) <=
    Z.max (OutflowOn (state run.before_release) (u64 90000 / day)) 50.
Proof.
  exact (@window_bounds_outflow run.left_hash _ _ _ _ _ (events.LC_Limits run.limits) run.release_Ok
    ltac:(vm_compute; reflexivity)).
Defined.

(** A deposit enters the tree only when it is pending, attested and unflagged, the vault is not
    halted, and its own two commitments are inserted, at the tree's next leaves; it then leaves the
    queue for good, and the value it held becomes the value of notes. *)
Theorem admission_rule `{tree.NodeHash} (tx : calls.Transaction) (c : calls.Admission) (w w' : World)
    (u : unit) (Hok : apply tx (calls.CAdmission c) w = (w', Ok u)) :
  let id := events.DA_ID (calls.Ad_Admitted c) in
  ∃ dep, Pending (state w) !! id = Some dep ∧ Flag dep = None ∧ id <= AttestedUpTo (state w) ∧
    HaltedUntil (state w) <= u64 (calls.TClosedAt tx) ∧
    events.NC_Commitment (calls.Ad_Outputs c).1 = Commitment0 dep ∧
    events.NC_Commitment (calls.Ad_Outputs c).2 = Commitment1 dep ∧
    events.NC_Index (calls.Ad_Outputs c).1 = tree.Len (Tree (state w)) ∧
    Pending (state w') = delete id (Pending (state w)) ∧
    Tvl (state w') = Tvl (state w) ∧ notes (state w') = notes (state w) + Amount dep.
Proof.
  cbn [apply] in Hok. unfold apply_admission in Hok. open_run Hok. open_ifs. guards.
  exists d. split; [assumption|]. unfold halted in *. guards.
  split; [destruct (Flag d); [exfalso; by eauto|done]|]. split; [done|]. split; [done|].
  do 2 (split; [by apply dec_stable|]). split; [done|].
  split; [reflexivity|]. split; [reflexivity|]. unfold notes. cbn. lia.
Qed.

Lemma admission_witness :
  ∃ dep, Pending (state run.after_attest) !! 1 = Some dep ∧ Flag dep = None ∧
    Tvl (state run.after_admit) = Tvl (state run.after_attest).
Proof.
  destruct (@admission_rule run.left_hash _ _ _ _ _ run.admit_Ok)
    as (dep & H1 & H2 & _ & _ & _ & _ & _ & _ & H3 & _).
  exists dep. split; [exact H1|split; [exact H2|exact H3]].
Defined.

(** An attestation moves forward and stays below the next deposit; the notice it leaves vouches
    for exactly the pending, unflagged deposits of its range, in ascending order. *)
Theorem attestation_covers `{tree.NodeHash} (tx : calls.Transaction) (a : events.Attested)
    (w w' : World) (u : unit) (Hok : apply tx (calls.CBody (events.BAttested a)) w = (w', Ok u)) :
  AttestedUpTo (state w) < AttestedUpTo (state w') < NextDepositID (state w') ∧
  ∃ n covered, Notices (delta w') = Notices (delta w) ++ [n] ∧
    NoticeBodyOf n = NAttestation a covered ∧ Sorted Z.le covered ∧ NoDup covered ∧
    ∀ id, id ∈ covered ↔ ∃ dep, Pending (state w) !! id = Some dep ∧
      AttestedUpTo (state w) < id <= AttestedUpTo (state w') ∧ Flag dep = None.
Proof.
  cbn [apply] in Hok. unfold apply_attested in Hok. open_run Hok. open_ifs. guards.
  split; [cbn; lia|]. eexists _, (covered_by (state w) (events.A_UpTo a)).
  split; [reflexivity|]. split; [reflexivity|]. apply covered_by_spec.
Qed.

Lemma attestation_witness :
  AttestedUpTo (state run.before_attest) < AttestedUpTo (state run.after_attest).
Proof. exact (proj1 (proj1 (@attestation_covers run.left_hash _ _ _ _ _ run.attest_Ok))). Defined.






(** A queued exit is completed only at the head of the queue, by a payment of exactly what it
    still owes to the parties it is owed to, within today's window; the next exit is then the head. *)
Theorem release_pays_head `{tree.NodeHash} (tx : calls.Transaction) (p : events.Settled)
    (w w' : World) (u : unit) (Hok : apply tx (calls.CExitSettled p) w = (w', Ok u)) :
  ∃ e, events.S_ExitID p = Some (ExitHead (state w)) ∧
    Exits (state w) !! ExitHead (state w) = Some e ∧
    events.S_ExtAmount p = - Payout e ∧ events.S_Fee p = Fee e ∧
    events.S_Recipient p = Recipient e ∧ events.S_Relayer p = Relayer e ∧
    Exits (state w') = delete (ExitHead (state w)) (Exits (state w)) ∧
    ExitHead (state w') = u64 (ExitHead (state w) + 1) ∧
    Tvl (state w') = Tvl (state w) - ExitOutflow e ∧ 0 <= Tvl (state w') ∧
    (∀ l, Limits (state w) = Some l →
       OutflowOn (state w) (u64 (calls.TClosedAt tx) / day) + ExitOutflow e <= vault.MaxDailyOutflow l).
Proof.
  cbn [apply] in Hok. unfold release in Hok. open_run Hok. open_ifs. guards. subst.
  exists x. do 2 (split; [done|]). split; [lia|]. do 3 (split; [done|]).
  do 3 (split; [reflexivity|]). split; [done|]. intros l Hl. unfold fits in *. rewrite Hl in *. lia.
Qed.

Lemma release_witness :
  ∃ e, Exits (state run.before_release) !! ExitHead (state run.before_release) = Some e ∧
    Tvl (state run.after_release) = Tvl (state run.before_release) - ExitOutflow e.
Proof.
  destruct (@release_pays_head run.left_hash _ _ _ _ _ run.release_Ok)
    as (e & _ & He & _ & _ & _ & _ & _ & _ & Hv & _).
  exists e. split; [exact He|exact Hv].
Defined.

End chain.
