(* ===== verification/Keys.v ===== *)
(** The ledger keys of [services/internal/vault/keys.go], the external data and proof of extdata.go,
    and the entries a call on the exit queue is given beyond its simulation, room.go. *)
From S2P Require Import Prelude.
From S2P Require Import Fr.
From S2P Require Import Xdr.
From S2P Require Import ScVal.
From S2P Require Import VaultState.
From S2P Require Import Events.

Module keys.

Import scval.

(** ** Strings of the standard library *)

(** [strings.Cut(s, sep)] for a separator of one character. *)
Fixpoint cut (sep : Ascii.ascii) (s : string) : option (string * string) :=
  match s with
  | EmptyString => None
  | String c s' =>
      if Ascii.eqb c sep then Some (EmptyString, s')
      else '(before, after) ← cut sep s'; Some (String c before, after)
  end.

(** [strings.HasSuffix(s, suffix)] *)
Definition has_suffix (s suffix : string) : bool :=
  (String.length suffix <=? String.length s)%nat &&
  String.eqb (String.substring (String.length s - String.length suffix) (String.length suffix) s) suffix.

(** ** Keys *)

Section keys.
Context {sdk : StellarSDK}.

Definition enumKey (name : string) (args : list ScVal) : ScVal := Vec ([Symbol name] ++ args).

Definition contractData (contract : string) (key : ScVal) (durability : Durability) : res LedgerKey :=
  addr ← ScAddressOf contract;
  match addr with
  | AddressContract _ => Ok (KeyContractData addr key durability)
  | _ => Fail (malformed "%q is not a contract" [FStr contract])
  end.

(** [InstanceKey] is the contract instance entry, which holds the instance storage. *)
Definition InstanceKey (contract : string) : res LedgerKey :=
  contractData contract ScvLedgerKeyContractInstance Persistent.
Definition RootsKey (vault : string) : res LedgerKey :=
  contractData vault (enumKey "Roots" []) Persistent.
Definition FrontierKey (vault : string) : res LedgerKey :=
  contractData vault (enumKey "Frontier" []) Persistent.
Definition NextLeafKey (vault : string) : res LedgerKey :=
  contractData vault (enumKey "NextLeaf" []) Persistent.
Definition NullifierKey (vault : string) (nullifier : list Z) : res LedgerKey :=
  contractData vault (enumKey "Nullifier" [U256 nullifier]) Persistent.
Definition PendingKey (vault : string) (id : Z) : res LedgerKey :=
  contractData vault (enumKey "Pending" [U64 id]) Persistent.
Definition ExitKey (vault : string) (id : Z) : res LedgerKey :=
  contractData vault (enumKey "Exit" [U64 id]) Persistent.
Definition StrandedKey (vault : string) (id : Z) : res LedgerKey :=
  contractData vault (enumKey "Stranded" [U64 id]) Persistent.

(** [TreeKeys] are the keys of the tree entries: Roots, Frontier and NextLeaf, in that order. *)
Definition TreeKeys (vault : string) : res (list LedgerKey) :=
  mapM (λ f, f vault) [RootsKey; FrontierKey; NextLeafKey].

(** [CodeKey] is the entry of an uploaded wasm. *)
Definition CodeKey (hash : list Z) : LedgerKey := KeyContractCode hash.

(** [BalanceKey] is the asset contract's entry that holds a contract address's balance. *)
Definition BalanceKey (token holder : string) : res LedgerKey :=
  h ← Address holder;
  contractData token (Vec [Symbol "Balance"; h]) Persistent.

(** [AccountKey] is the entry of a G account. *)
Definition AccountKey (account : string) : res LedgerKey :=
  match account_id_of account with
  | Some id => Ok (KeyAccount id)
  | None => Fail (malformed "account %q" [FStr account])
  end.

(** [TrustlineKey] is the trustline of an account for an asset named CODE:ISSUER. *)
Definition TrustlineKey (account asset : string) : res LedgerKey :=
  match account_id_of account with
  | None => Fail (malformed "account %q" [FStr account])
  | Some id =>
      match cut ":"%char asset with
      | None => Fail (malformed "asset %q" [FStr asset])
      | Some (code, issuer) =>
          if credit_asset_ok code issuer then Ok (KeyTrustline id code issuer)
          else Fail (malformed "asset %q" [FStr asset])
      end
  end.

(** [ReceiveKeys] are the entries that decide whether a G account can receive the asset. *)
Definition ReceiveKeys (asset account : string) : res (list LedgerKey) :=
  k ← AccountKey account;
  if String.eqb asset "native" || has_suffix asset (":" ++ account)%string then Ok [k]
  else t ← TrustlineKey account asset; mret ([k] ++ [t]).

(** The largest 64-bit integer. *)
Definition MaxU64 : Z := 18446744073709551615.

Definition MinNewAccountPayout : Z := 10000000.

(** [ConfigSettingKey] is the entry of a network configuration setting. *)
Definition ConfigSettingKey (id : Z) : LedgerKey := KeyConfigSetting id.

(** ** External data and proofs *)

(** [ExtData] is the external data a proof binds through its ext_data_hash. *)
Record ExtData : Type := mkExtData {
  Vault : string; NetworkID : list Z; Deadline : Z; ExtAmount : Z; Fee : Z; Recipient : string;
  Relayer : string; Ciphertext0 : list Z; Ciphertext1 : list Z }.

(** [ExtData.ScVal] encodes the ExtData as the vault's contracttype does. *)
Definition ExtDataScVal (e : ExtData) : res ScVal :=
  vault ← Address (Vault e); recipient ← Address (Recipient e); relayer ← Address (Relayer e);
  extAmount ← I128 (ExtAmount e); fee ← I128 (Fee e);
  mret (Struct [mkField "vault" vault; mkField "network_id" (Bytes (NetworkID e));
    mkField "deadline" (U32 (Deadline e)); mkField "ext_amount" extAmount; mkField "fee" fee;
    mkField "recipient" recipient; mkField "relayer" relayer;
    mkField "encrypted_output0" (Bytes (Ciphertext0 e));
    mkField "encrypted_output1" (Bytes (Ciphertext1 e))]).

(** [fromBig] encodes [n] in 32 bytes; [None] is its panic, for a value that is not canonical. *)
Definition fromBig (n : Z) : option fr.Element :=
  match fr.SetBytes (be_bytes 32 n) with Ok e => Some e | Fail _ => None end.

(** [Hash] is keccak256(XDR(ScVal(ext))) mod p, the value the proof commits to; [Some None] of the
    result is the panic of [fromBig]. *)
Definition Hash (e : ExtData) : res (option fr.Element) :=
  v ← ExtDataScVal e;
  match marshal_val v with
  | None => Fail (Sentinel "xdr: marshal")
  | Some raw => Ok (fromBig (be_val (keccak256 raw) mod fr.Modulus))
  end.

(** [PublicAmount] is (ext_amount - fee) mod p. *)
Definition PublicAmount (extAmount fee : Z) : option fr.Element :=
  fromBig ((extAmount - fee) mod fr.Modulus).

(** [Proof] is a Groth16 proof with the public inputs the client supplies, the vault's TxProof. *)
Record Proof : Type := mkProof {
  A : list Z; B : list Z; C : list Z; Root : fr.Element; ProofPublicAmount : fr.Element;
  ExtDataHash : fr.Element; Nullifiers : fr.Element * fr.Element;
  Commitments : fr.Element * fr.Element }.

Definition fieldVal (e : fr.Element) : ScVal := U256 (fr.Bytes e).

(** [Proof.ScVal] encodes the proof as the vault's contracttype does. *)
Definition ProofScVal (p : Proof) : ScVal :=
  Struct [mkField "proof" (Struct [mkField "a" (Bytes (A p)); mkField "b" (Bytes (B p));
      mkField "c" (Bytes (C p))]);
    mkField "root" (fieldVal (Root p)); mkField "public_amount" (fieldVal (ProofPublicAmount p));
    mkField "ext_data_hash" (fieldVal (ExtDataHash p));
    mkField "input_nullifiers" (Vec [fieldVal (Nullifiers p).1; fieldVal (Nullifiers p).2]);
    mkField "output_commitments" (Vec [fieldVal (Commitments p).1; fieldVal (Commitments p).2])].

(** ** Room *)

Definition ExitEntryBytes : Z := 400.
Definition BalanceEntryBytes : Z := 256.
Definition SwitchInstructions : Z := 1000000.
Definition SwitchEventBytes : Z := 512.
Definition EntryTTL : Z := 30 * 17280 + 720.

(** [PayKeys] are the entries a payment of the asset to an address writes. *)
Definition PayKeys (token asset address : string) : res (list LedgerKey) :=
  account ← AccountOf address;
  if String.prefix "C" account then k ← BalanceKey token account; mret [k]
  else if String.eqb asset "native" then k ← AccountKey account; mret [k]
  else if has_suffix asset (":" ++ account)%string then Ok []
  else k ← TrustlineKey account asset; mret [k].

(** The loop of [ExitKeys] from [id]; [None] is only for the fuel running out. The counter and the
    bound wrap at 64 bits. *)
Fixpoint exit_keys (fuel : nat) (vault : string) (id bound : Z) : option (res (list LedgerKey)) :=
  if id <=? bound then
    match fuel with
    | O => None
    | S fuel =>
        match ExitKey vault id with
        | Fail e => Some (Fail e)
        | Ok key =>
            r ← exit_keys fuel vault (u64 (id + 1)) bound;
            Some (match r with Ok keys => Ok (key :: keys) | Fail e => Fail e end)
        end
    end
  else Some (Ok []).

Definition does_not_end : gerr := Sentinel "the loop does not end".

(** [ExitKeys] are the keys of the exits from first to first+k. One turn per key and one more are
    enough, save when first+k is the largest 64-bit integer, where the loop never ends. *)
Definition ExitKeys (vault : string) (first k : Z) : res (list LedgerKey) :=
  default (Fail does_not_end) (exit_keys (Z.to_nat k + 1) vault first (u64 (first + k))).

(** [TransactRoom] are the entries a transact that pays anything is given beyond its simulation. *)
Definition TransactRoom (vault token asset : string) (ext : ExtData) (tail k : Z)
    : res (list LedgerKey) :=
  let payout := - ExtAmount ext in
  if (Z.sgn payout <=? 0) && (Z.sgn (Fee ext) <=? 0) then Ok []
  else
    own ← BalanceKey token vault;
    paid ← (if 0 <? Z.sgn payout then PayKeys token asset (Recipient ext) else Ok []);
    relayed ← (if 0 <? Z.sgn (Fee ext) then PayKeys token asset (Relayer ext) else Ok []);
    exits ← ExitKeys vault tail k;
    mret ((([own] ++ paid) ++ relayed) ++ exits).

(** [exitID] returns the ID of an exit entry's key of the vault. *)
Definition exitID (vault : string) (k : LedgerKey) : option Z :=
  match k with
  | KeyContractData (AddressContract id) key _ =>
      match ScAddressOf vault with
      | Ok (AddressContract want) =>
          if bool_decide (want = id) then
            match key with
            | ScvVec (Some [name; arg]) =>
                match symbolOf name with
                | Some name =>
                    if String.eqb name "Exit" then match arg with ScvU64 n => Some n | _ => None end
                    else None
                | None => None
                end
            | _ => None
            end
          else None
      | _ => None
      end
  | _ => None
  end.

(** One turn of the loop of [QueuedExit], over the ID found so far. *)
Definition queued_exit_turn (vault : string) (tail : option Z) (k : LedgerKey) : option Z :=
  match exitID vault k with
  | Some id =>
      match tail with
      | None => Some id
      | Some t => if t <? id then Some id else Some t
      end
  | None => tail
  end.

(** [QueuedExit] returns the ID of the exit a simulated footprint writes, if it writes any; the
    footprint is its read-write keys. *)
Definition QueuedExit (vault : string) (readWrite : list LedgerKey) : option Z :=
  foldl (queued_exit_turn vault) None readWrite.

(** * Lemmas *)

Definition exit_key (id : list Z) (n : Z) : LedgerKey :=
  KeyContractData (AddressContract id) (enumKey "Exit" [U64 n]) Persistent.

Lemma ExitKey_contract vault id n : ScAddressOf vault = Ok (AddressContract id) →
  ExitKey vault n = Ok (exit_key id n).
Proof. intros H. unfold ExitKey, contractData. by rewrite H. Qed.

Lemma exitID_exit_key vault id n : ScAddressOf vault = Ok (AddressContract id) →
  exitID vault (exit_key id n) = Some n.
Proof. intros H. unfold exitID, exit_key, enumKey, Vec. rewrite H. by rewrite bool_decide_eq_true_2. Qed.

Lemma exit_keys_spec vault id n fuel first bound : ScAddressOf vault = Ok (AddressContract id) →
  0 <= first → bound < MaxU64 → bound = first + Z.of_nat n - 1 → (n <= fuel)%nat →
  exit_keys fuel vault first bound = Some (Ok (map (exit_key id) (seqZ first (Z.of_nat n)))).
Proof.
  intros Ha. revert n first. induction fuel as [|fuel IH]; intros n first H0 Hb -> Hn.
  - destruct n; [|lia]. cbn [exit_keys]. by destruct (Z.leb_spec first (first + Z.of_nat 0 - 1)); [lia|].
  - cbn [exit_keys]. destruct (Z.leb_spec first (first + Z.of_nat n - 1)).
    + rewrite (ExitKey_contract vault id) by done. unfold MaxU64 in *.
      rewrite u64_small by (unfold is_u64, W64; lia). destruct n as [|n]; [lia|].
      rewrite (IH n (first + 1)) by lia. cbn [mbind option_bind].
      rewrite (seqZ_cons first) by lia. cbn [map]. repeat f_equal; lia.
    + destruct n; [done|lia].
Qed.

(** The largest 64-bit integer as bound: every counter is within it. *)
Lemma exit_keys_endless vault id fuel first : ScAddressOf vault = Ok (AddressContract id) →
  is_u64 first → exit_keys fuel vault first MaxU64 = None.
Proof.
  intros Ha. revert first. induction fuel as [|fuel IH]; intros first Hf; cbn [exit_keys].
  - destruct (Z.leb_spec first MaxU64); [done|]. unfold is_u64, MaxU64, W64 in *. lia.
  - destruct (Z.leb_spec first MaxU64); [|unfold is_u64, MaxU64, W64 in *; lia].
    rewrite (ExitKey_contract vault id) by done. rewrite IH by apply u64_range. done.
Qed.

Lemma ExitKeys_spec vault id first k : ScAddressOf vault = Ok (AddressContract id) → 0 <= first →
  0 <= k → first + k < MaxU64 →
  ExitKeys vault first k = Ok (map (exit_key id) (seqZ first (k + 1))).
Proof.
  intros Ha H0 Hk Hb. unfold ExitKeys. rewrite u64_small by (unfold is_u64, MaxU64, W64 in *; lia).
  rewrite (exit_keys_spec vault id (Z.to_nat k + 1)); [|done|done|done|lia|done].
  cbn [default from_option]. by replace (Z.of_nat (Z.to_nat k + 1)) with (k + 1) by lia.
Qed.

Lemma exitID_exit_keys vault id l : ScAddressOf vault = Ok (AddressContract id) →
  map (exitID vault) (map (exit_key id) l) = map Some l.
Proof.
  intros Ha. rewrite map_map. apply map_ext. intros n. by apply exitID_exit_key.
Qed.

Lemma omap_cons {A B} (f : A → option B) x l :
  omap f (x :: l) = match f x with Some y => y :: omap f l | None => omap f l end.
Proof. done. Qed.

(** [QueuedExit] is the largest of the IDs the footprint's exit keys have. *)
Lemma queued_exit_fold vault l t :
  match foldl (queued_exit_turn vault) t l with
  | None => t = None ∧ omap (exitID vault) l = []
  | Some m => (t = Some m ∨ m ∈ omap (exitID vault) l) ∧
      (∀ n, t = Some n → n <= m) ∧ ∀ n, n ∈ omap (exitID vault) l → n <= m
  end.
Proof.
  revert t. induction l as [|k l IH]; intros t; cbn [foldl].
  - destruct t as [m|]; [|done]. split; [by left|]. split; [by intros n [= ->]|]. by intros n ?%elem_of_nil.
  - specialize (IH (queued_exit_turn vault t k)). unfold queued_exit_turn in *. rewrite omap_cons.
    destruct (exitID vault k) as [id|] eqn:E.
    + destruct t as [t|].
      * destruct (Z.ltb_spec t id); destruct (foldl _ _ l) as [m|]; try (destruct IH as [[=] _]).
        -- destruct IH as (H1 & H2 & H3). specialize (H2 id eq_refl). split; [|split].
           ++ right. rewrite elem_of_cons. destruct H1 as [[= ->]|H1]; auto.
           ++ intros n [= <-]. lia.
           ++ intros n [->|Hn]%elem_of_cons; [done|by apply H3].
        -- destruct IH as (H1 & H2 & H3). specialize (H2 t eq_refl). split; [|split].
           ++ destruct H1 as [H1|H1]; [by left|right; by right].
           ++ intros n [= <-]. lia.
           ++ intros n [->|Hn]%elem_of_cons; [lia|by apply H3].
      * destruct (foldl _ _ l) as [m|]; [|by destruct IH as [[=] _]].
        destruct IH as (H1 & H2 & H3). specialize (H2 id eq_refl). split; [|split; [by intros n [=]|]].
        -- right. rewrite elem_of_cons. destruct H1 as [[= ->]|H1]; auto.
        -- intros n [->|Hn]%elem_of_cons; [done|by apply H3].
    + exact IH.
Qed.

Lemma QueuedExit_spec vault l :
  match QueuedExit vault l with
  | None => omap (exitID vault) l = []
  | Some m => m ∈ omap (exitID vault) l ∧ ∀ n, n ∈ omap (exitID vault) l → n <= m
  end.
Proof.
  unfold QueuedExit. pose proof (queued_exit_fold vault l None) as H.
  destruct (foldl _ _ l); [|by destruct H]. destruct H as ([[=]|H] & _ & H'). done.
Qed.

Lemma omap_Some {A B} (f : A → option B) (l : list A) (k : list B) :
  map f l = map Some k → omap f l = k.
Proof.
  revert k. induction l as [|x l IH]; intros [|y k]; [done..|]. cbn [map]. intros [= Hx Hl].
  rewrite omap_cons. by rewrite Hx, (IH k Hl).
Qed.

Lemma fromBig_canonical n : 0 <= n < fr.Modulus →
  ∃ e, fromBig n = Some e ∧ fr.valid e ∧ fr.toZ e = n.
Proof.
  intros Hn. unfold fromBig.
  assert (be_val (be_bytes 32 n) = n) as E.
  { apply be_val_bytes_small. split; [lia|]. eapply Z.lt_trans; [apply Hn|vm_compute; reflexivity]. }
  destruct (fr.SetBytes_spec (be_bytes 32 n)) as [(_ & e & -> & Hv & Hz)|[H1 _]].
  - apply be_bytes_byte.
  - apply length_be_bytes.
  - exists e. rewrite E in Hz. done.
  - rewrite E in H1. lia.
Qed.

Lemma mod_close p x y : 0 < p → Z.abs (x - y) < p → x mod p = y mod p → x = y.
Proof.
  intros Hp Hd E. pose proof (Z.div_mod x p). pose proof (Z.div_mod y p).
  enough (x / p = y / p) by nia. nia.
Qed.

Lemma Modulus_pos : 0 < fr.Modulus.
Proof. vm_compute. reflexivity. Qed.

Lemma fromBig_mod n :
  ∃ e, fromBig (n mod fr.Modulus) = Some e ∧ fr.valid e ∧ fr.toZ e = n mod fr.Modulus.
Proof. apply fromBig_canonical. apply Z.mod_pos_bound, Modulus_pos. Qed.

Lemma PublicAmount_spec x g : ∃ e, PublicAmount x g = Some e ∧ fr.valid e ∧
  fr.toZ e = (x - g) mod fr.Modulus ∧
  ∀ a f, Z.abs ((a - f) - (x - g)) < fr.Modulus → PublicAmount a f = Some e → a - f = x - g.
Proof.
  unfold PublicAmount. destruct (fromBig_mod (x - g)) as (e & He & Hv & Hz).
  exists e. split; [exact He|]. split; [exact Hv|]. split; [exact Hz|]. intros a f Hd Ha.
  destruct (fromBig_mod (a - f)) as (e' & He' & _ & Hz'). rewrite He' in Ha.
  apply (inj Some) in Ha. subst e'. rewrite Hz' in Hz.
  exact (mod_close fr.Modulus _ _ Modulus_pos Hd Hz).
Qed.

Lemma Hash_spec ext :
  match Hash ext with
  | Ok h => ∃ e v raw, h = Some e ∧ fr.valid e ∧ ExtDataScVal ext = Ok v ∧ marshal_val v = Some raw ∧
      fr.toZ e = be_val (keccak256 raw) mod fr.Modulus
  | Fail e => ExtDataScVal ext = Fail e ∨ ∃ v, ExtDataScVal ext = Ok v ∧ marshal_val v = None
  end.
Proof.
  unfold Hash. destruct (ExtDataScVal ext) as [v|e]; cbn [mbind res_bind]; [|by left].
  destruct (marshal_val v) as [raw|] eqn:E; [|right; eauto].
  destruct (fromBig_mod (be_val (keccak256 raw))) as (e & He & Hv & Hz). rewrite He. exists e, v, raw.
  split; [reflexivity|]. split; [exact Hv|]. split; [reflexivity|]. split; [exact E|exact Hz].
Qed.

Lemma BalanceKey_holder token id h v : ScAddressOf token = Ok (AddressContract id) →
  Address h = Ok v →
  BalanceKey token h = Ok (KeyContractData (AddressContract id) (Vec [Symbol "Balance"; v]) Persistent).
Proof. intros Ht Hh. unfold BalanceKey, contractData. by rewrite Hh, Ok_bind, Ht. Qed.

End keys.

(** * Properties *)

(** C40: The exit keys a call on the queue is given are, for the [k] exits that may be queued ahead of
    it, exactly the [k + 1] exit entries from the tail on, in order; the IDs are read back from them
    by [exitID], and [QueuedExit] of that footprint, whatever other keys of the ledger are mixed in
    that are not exits of the vault, is the last one. The loop of [ExitKeys] compares wrapped 64-bit
    counters, so when the last ID is the largest 64-bit integer it never ends, whatever the fuel. *)
Theorem exit_keys_cover_the_queue {sdk : StellarSDK} (vault : string) (id : list Z) (first k : Z)
    (Hv : ScAddressOf vault = Ok (AddressContract id)) (Hf : is_u64 first) (Hk : is_u32 k)
    (Hb : first + k <= MaxU64) :
  (first + k < MaxU64 → ∃ ks, ExitKeys vault first k = Ok ks ∧ Z.of_nat (length ks) = k + 1 ∧
     (∀ i key, ks !! i = Some key → ExitKey vault (first + Z.of_nat i) = Ok key ∧
        exitID vault key = Some (first + Z.of_nat i)) ∧
     ∀ others footprint, Forall (λ key, exitID vault key = None) others →
       footprint ≡ₚ others ++ ks → QueuedExit vault footprint = Some (first + k)) ∧
  (first + k = MaxU64 → ∀ fuel, exit_keys fuel vault first (u64 (first + k)) = None).
Proof.
  unfold is_u64, is_u32 in *. split.
  - intros Hlt. exists (map (exit_key id) (seqZ first (k + 1))).
    split; [apply ExitKeys_spec; [done|lia..]|].
    split; [rewrite length_map, length_seqZ; lia|]. split.
    + intros i key. rewrite lookup_map, fmap_Some. intros (n & Hn & ->).
      apply lookup_seqZ in Hn as [-> _].
      split; [by apply ExitKey_contract|by apply exitID_exit_key].
    + intros others fp Ho Hp. pose proof (QueuedExit_spec vault fp) as H.
      assert (omap (exitID vault) fp ≡ₚ seqZ first (k + 1)) as E.
      { rewrite Hp, omap_app.
        rewrite (omap_Some _ _ _ (exitID_exit_keys vault id (seqZ first (k + 1)) Hv)).
        assert (omap (exitID vault) others = []) as ->; [|done].
        clear Hp. induction Ho as [|o l Ho _ IH]; [done|]. rewrite omap_cons, Ho. exact IH. }
      assert (first + k ∈ seqZ first (k + 1)) as Hin by (apply elem_of_seqZ; lia).
      destruct (QueuedExit vault fp) as [m|].
      * destruct H as [H1 H2]. rewrite E in H1. apply elem_of_seqZ in H1.
        specialize (H2 (first + k)). rewrite E in H2. specialize (H2 Hin). f_equal. lia.
      * rewrite H in E. apply Permutation_nil_l in E. rewrite <- E in Hin. by apply elem_of_nil in Hin.
  - intros E fuel. rewrite E. by apply (exit_keys_endless vault id).
Qed.

Lemma exit_keys_witness : ∃ ks,
  ExitKeys (sdk := example.sdk []) (example.contract 7) 5 3 = Ok ks ∧ length ks = 4%nat ∧
  QueuedExit (sdk := example.sdk []) (example.contract 7) (CodeKey [] :: ks) = Some 8 ∧
  exit_keys (sdk := example.sdk []) 100 (example.contract 7) (MaxU64 - 1) (u64 (MaxU64 - 1 + 1)) = None.
Proof.
  destruct (exit_keys_cover_the_queue (sdk := example.sdk []) (example.contract 7) (be_bytes 32 7) 5 3)
    as [H _]; [vm_compute; reflexivity|unfold is_u64, W64; lia|unfold is_u32, W32; lia|
    unfold MaxU64; lia|].
  destruct H as (ks & H1 & H2 & _ & H3); [reflexivity|]. exists ks.
  split; [exact H1|]. split; [lia|]. split.
  - apply (H3 [CodeKey []]); [by repeat constructor|done].
  - apply (exit_keys_cover_the_queue (sdk := example.sdk []) (example.contract 7) (be_bytes 32 7)
      (MaxU64 - 1) 1); [vm_compute; reflexivity|unfold is_u64, MaxU64, W64; lia|
      unfold is_u32, W32; lia|unfold MaxU64; lia|unfold MaxU64; lia].
Defined.

(** The entries a transact is given beyond its simulation are none when it pays nobody, and
    otherwise, in this order, the vault's balance, the entries a payment to the recipient writes when
    the payout is positive, those a payment to the relayer writes when the fee is, and the exits from
    the tail on; a call none of whose parts fails is given them all, and one with a part that fails
    is refused. *)
Theorem transact_room_covers {sdk : StellarSDK} (vault token asset : string) (ext : ExtData)
    (tail k : Z) :
  match TransactRoom vault token asset ext tail k with
  | Ok room =>
      (0 <= ExtAmount ext ∧ Fee ext <= 0 ∧ room = []) ∨
      ((ExtAmount ext < 0 ∨ 0 < Fee ext) ∧ ∃ own paid relayed exits,
         BalanceKey token vault = Ok own ∧ ExitKeys vault tail k = Ok exits ∧
         (if decide (ExtAmount ext < 0) then PayKeys token asset (Recipient ext) = Ok paid
          else paid = []) ∧
         (if decide (0 < Fee ext) then PayKeys token asset (Relayer ext) = Ok relayed
          else relayed = []) ∧
         room = own :: paid ++ relayed ++ exits)
  | Fail e =>
      (ExtAmount ext < 0 ∨ 0 < Fee ext) ∧
      (BalanceKey token vault = Fail e ∨ ExitKeys vault tail k = Fail e ∨
       ExtAmount ext < 0 ∧ PayKeys token asset (Recipient ext) = Fail e ∨
       0 < Fee ext ∧ PayKeys token asset (Relayer ext) = Fail e)
  end.
Proof.
  unfold TransactRoom.
  rewrite !sgn_leb_0, !sgn_0_ltb, !Z.leb_antisym.
  replace (0 <? - ExtAmount ext) with (bool_decide (ExtAmount ext < 0)) by (case_bool_decide; lia).
  replace (0 <? Fee ext) with (bool_decide (0 < Fee ext)) by (case_bool_decide; lia).
  case_bool_decide as H1; case_bool_decide as H2; cbn [negb andb]; [| | |left; split; [lia|]; split; [lia|done]].
  all: destruct (BalanceKey token vault) as [own|e]; cbn [mbind res_bind]; [|tauto].
  all: destruct (decide (ExtAmount ext < 0)); [try done|try done]; destruct (decide (0 < Fee ext)); try done.
  all: try (destruct (PayKeys token asset (Recipient ext)) as [paid|e]; cbn [mbind res_bind]; [|tauto]).
  all: try (destruct (PayKeys token asset (Relayer ext)) as [relayed|e]; cbn [mbind res_bind]; [|tauto]).
  all: destruct (ExitKeys vault tail k) as [exits|e]; cbn [mbind res_bind mret res_ret]; [right|tauto].
  all: split; [lia|]; rewrite <- ?app_assoc; eauto 10.
Qed.

(** The public amount and the external-data hash of a proof are always canonical field elements:
    [PublicAmount] never panics and is [(ext_amount - fee) mod p], so it determines the difference
    within less than the field's order; [Hash] never panics either, and its value is the Keccak
    digest of the encoding modulo [p]. *)
Theorem public_inputs_canonical {sdk : StellarSDK} (extAmount fee : Z) (ext : ExtData) :
  (∃ e, PublicAmount extAmount fee = Some e ∧ fr.valid e ∧
     fr.toZ e = (extAmount - fee) mod fr.Modulus ∧
     ∀ a f, Z.abs ((a - f) - (extAmount - fee)) < fr.Modulus → PublicAmount a f = Some e →
       a - f = extAmount - fee) ∧
  match Hash ext with
  | Ok h => ∃ e v raw, h = Some e ∧ fr.valid e ∧ ExtDataScVal ext = Ok v ∧ marshal_val v = Some raw ∧
      fr.toZ e = be_val (keccak256 raw) mod fr.Modulus
  | Fail e => ExtDataScVal ext = Fail e ∨ ∃ v, ExtDataScVal ext = Ok v ∧ marshal_val v = None
  end.
Proof.
  split; [apply PublicAmount_spec|apply Hash_spec].
Qed.

End keys.
