(* ===== verification/Rpc.v ===== *)
(** The services' view of Stellar RPC, [services/internal/rpc/rpc.go]: reads of ledger entries in
    batches, the vault's instance, and the rent the network's state size sets. The RPC client is not
    under src/: it is a record of the calls this development reads through. *)
From S2P Require Import Prelude.
From S2P Require Import Xdr.
From S2P Require Import ScVal.
From S2P Require Import VaultState.
From S2P Require Import Keys.

Module rpc.

(** The network's settings the services read, by the fields they read; fees are in stroops. *)
Record LedgerCosts : Type := mkLedgerCosts {
  FeeDiskReadLedgerEntry : Z; FeeWriteLedgerEntry : Z; FeeDiskRead1Kb : Z; TxMaxDiskReadEntries : Z;
  TxMaxWriteLedgerEntries : Z; TxMaxDiskReadBytes : Z; TxMaxWriteBytes : Z }.
Inductive ConfigSetting : Type :=
| ContractCompute (fee_per_increment max_instructions : Z)
| LedgerCost (target growth low high : Z) (costs : LedgerCosts)
| HistoricalData (fee_1kb : Z)
| ContractEvents (fee_1kb : Z)
| Bandwidth (fee_tx_1kb : Z)
| StateArchival (max_entry_ttl min_persistent_ttl rent_denominator : Z)
| StateSizeWindow (window : list Z)
| LedgerCostExt (fee_write_1kb max_footprint : Z)
| FrozenLedgerKeys (keys : list (list Z))
| OtherSetting (id : Z).

(** [xdr.LedgerEntryData], by the arms the services read; a signer is the address of its key, when it has
    one, and its weight. *)
Inductive EntryData : Type :=
| DataContract (val : ScVal)
| DataTrustLine (flags balance : Z)
| DataConfigSetting (s : ConfigSetting)
| DataAccount (seqNum balance : Z) (thresholds : list Z) (signers : list (option string * Z))
| DataOther (type : Z).

(** [Entry] is one ledger entry with its archival state. *)
Record Entry : Type := mkEntry { Data : EntryData; LastModified : Z; LiveUntil : option Z }.

(** [Client], by the calls modelled: a call answers or fails. The health is the oldest and latest
    ledgers and the latest one's close time; ledger entries come with the latest ledger, decoded. *)
Record Client : Type := mkClient {
  GetHealth : res (Z * Z * Z);
  GetLedgerEntries : list string → res (list (string * Entry) * Z) }.

Definition maxKeysPerRequest : nat := 200.

Section rpc.
Context {sdk : StellarSDK}.

(** [KeyString] is the base64 of the key's XDR. *)
Definition KeyString (k : LedgerKey) : res string :=
  match marshal_key k with
  | Some raw => Ok (base64_encode raw)
  | None => Fail (Sentinel "xdr: marshal")
  end.

(** One turn of the loop of [Entries]: a batch of keys. *)
Definition read_batch (c : Client) (acc : gmap string Entry * Z) (batch : list LedgerKey)
    : res (gmap string Entry * Z) :=
  let '(out, latest) := acc in
  encoded ← mapM KeyString batch;
  '(entries, l) ← GetLedgerEntries c encoded;
  let latest := if (latest =? 0) || (l <? latest) then l else latest in
  mret (foldl (λ out e, <[e.1 := e.2]> out) out entries, latest).

(** The loop of [Entries], with fuel for as many batches as there are keys. *)
Fixpoint read_batches (fuel : nat) (c : Client) (acc : gmap string Entry * Z) (keys : list LedgerKey)
    : res (gmap string Entry * Z) :=
  match keys, fuel with
  | [], _ => Ok acc
  | _, O => Ok acc
  | _, S fuel =>
      acc ← read_batch c acc (take maxKeysPerRequest keys);
      read_batches fuel c acc (drop maxKeysPerRequest keys)
  end.

(** [Entries] reads ledger entries in batches and returns those that exist, with the lowest latest
    ledger the batches reported. *)
Definition Entries (c : Client) (keys : list LedgerKey) : res (gmap string Entry * Z) :=
  read_batches (length keys) c (∅, 0) keys.

Definition ErrMissing : gerr := Sentinel "rpc: ledger entry missing".

(** [One] reads a single ledger entry. *)
Definition One (c : Client) (key : LedgerKey) : res (Entry * Z) :=
  '(entries, latest) ← Entries c [key];
  s ← KeyString key;
  match entries !! s with Some e => Ok (e, latest) | None => Fail ErrMissing end.

(** The entry read for a key, by the key's name. *)
Definition entry_of (entries : gmap string Entry) (key : LedgerKey) : option Entry :=
  entries !! (match KeyString key with Ok s => s | Fail _ => ""%string end).

(** [ContractValue] returns the value of a contract data entry. *)
Definition ContractValue (e : Entry) : res ScVal :=
  match Data e with
  | DataContract v => Ok v
  | _ => Fail (Sentinel "rpc: not a contract data entry")
  end.

(** [VaultInstance] reads and decodes the vault's instance storage. *)
Definition VaultInstance (c : Client) (vaultID : string) : res (vault.VaultInstance * Z) :=
  key ← keys.InstanceKey vaultID;
  '(e, latest) ← One c key;
  v ← ContractValue e;
  inst ← vault.DecodeInstance v;
  mret (inst, latest).

(** [MaxEntryTTL] reads the network's maximum entry TTL. *)
Definition MaxEntryTTL (c : Client) : res Z :=
  '(e, _) ← One c (keys.ConfigSettingKey 10);
  match Data e with
  | DataConfigSetting (StateArchival ttl _ _) => Ok ttl
  | _ => Fail (Sentinel "rpc: no state archival settings")
  end.

(** ** The Soroban state *)

Definition maxStateSample : Z := 10000000000000.

(** [CheckStateWindow] refuses a window or target no network holds. *)
Definition CheckStateWindow (window : list Z) (target : Z) : res unit :=
  if (length window =? 0)%nat then
    Fail (Sentinel "rpc: the network's state size window is empty")
  else if (target <=? 0) || (maxStateSample <? target) then
    Fail (Wrapf (Sentinel "") "rpc: the network's state size target of %d bytes is implausible" [FInt target])
  else
    match list_find (λ n, Is_true ((n =? 0) || (maxStateSample <? n))) window with
    | Some (_, n) =>
        Fail (Wrapf (Sentinel "") "rpc: the network's state size window holds an implausible %d bytes" [FInt n])
    | None => Ok tt
    end.

(** [StateAverage] is the mean of a window, in 64-bit arithmetic; [None] is its division by zero. *)
Definition StateAverage (window : list Z) : option Z :=
  let sum := foldl (λ s n, u64 (s + n)) 0 window in
  if (length window =? 0)%nat then None else Some (i64 (sum / Z.of_nat (length window))).

(** The [int64] division of Go, which truncates. *)
Definition ceilDiv64 (a b : Z) : Z := i64 (Z.quot (i64 (i64 (a + b) - 1)) b).

Definition MaxInt64 : Z := 9223372036854775807.

(** [RentPerKB], in int64 arithmetic below the target and exact above it, then saturated. *)
Definition RentPerKB (size low high target growth : Z) : Z :=
  let target := Z.max target 1 in
  let fee :=
    if size <? target then i64 (ceilDiv64 (i64 (i64 (high - low) * size)) target + low)
    else
      let over := i64 (high - low) * i64 (size - target) * growth + i64 (target - 1) in
      let over := Z.quot over target + high in
      if (-9223372036854775808 <=? over) && (over <=? MaxInt64) then over else MaxInt64 in
  Z.max fee 1000.

(** [SorobanState] *)
Record SorobanState : Type := mkSorobanState {
  Average : Z; Target : Z; Growth : Z; Rent1KB : Z; TargetRent1KB : Z }.

(** The loop of [ReadSorobanState] over the entries read, in no fixed order: the window and the
    cost settings, of which the last met stays. *)
Definition soroban_settings (entries : list Entry)
    : list Z * option (Z * Z * Z * Z) :=
  foldl (λ acc e,
    match Data e with
    | DataConfigSetting (StateSizeWindow w) => (w, acc.2)
    | DataConfigSetting (LedgerCost t g l h _) => (acc.1, Some (t, g, l, h))
    | _ => acc
    end) ([], None) entries.

(** [ReadSorobanState], after its read. *)
Definition soroban_state (entries : list Entry) : res SorobanState :=
  let '(window, cost) := soroban_settings entries in
  match cost with
  | None => Fail (Sentinel "rpc: the network's state size settings are missing")
  | Some (target, growth, low, high) =>
      _ ← CheckStateWindow window target;
      match StateAverage window with
      | None => Fail (Sentinel "division by zero")
      | Some avg =>
          _ ← fail_if (avg <? target / 100)
                (Sentinel "rpc: the network's state size window averages under 1% of its target");
          mret (mkSorobanState avg target growth (RentPerKB avg low high target growth)
                  (RentPerKB target low high target growth))
      end
  end.

(** [ReadSorobanState]; 12 is the setting of the size window, 2 that of the ledger costs. *)
Definition ReadSorobanState (c : Client) : res SorobanState :=
  '(entries, _) ← Entries c [keys.ConfigSettingKey 12; keys.ConfigSettingKey 2];
  soroban_state (map snd (map_to_list entries)).

(** * Specification *)

(** A client that answers each batch from one state of the ledger: an entry for each key that has
    one, and none other, at one latest ledger. *)
Definition serves (c : Client) (ledger : gmap string Entry) (latest : Z) : Prop :=
  ∀ batch, (length batch <= maxKeysPerRequest)%nat → ∃ entries,
    GetLedgerEntries c batch = Ok (entries, latest) ∧
    ∀ s e, (s, e) ∈ entries ↔ s ∈ batch ∧ ledger !! s = Some e.

(** The rent as the network defines it, over exact integers: linear up to the target, then steeper
    by the growth factor, rounded up, and at least 1000. *)
Definition ceil (a b : Z) : Z := - (- a / b).
Definition rent (size low high target growth : Z) : Z :=
  Z.max 1000
    (if size <? target then ceil ((high - low) * size) target + low
     else Z.min MaxInt64 (ceil ((high - low) * (size - target) * growth) target + high)).

(** * Lemmas *)

Lemma foldl_insert_entries (l : list (string * Entry)) (m : gmap string Entry) s e :
  (∀ s e e', (s, e) ∈ l → (s, e') ∈ l → e = e') →
  foldl (λ out e, <[e.1 := e.2]> out) m l !! s = Some e ↔
  (s, e) ∈ l ∨ (∀ e', (s, e') ∉ l) ∧ m !! s = Some e.
Proof.
  intros Hf. revert m. induction l as [|[s' e'] l IH]; intros m; cbn [foldl fst snd].
  - setoid_rewrite elem_of_nil. naive_solver.
  - rewrite IH by (intros; eapply Hf; by right). destruct (decide (s = s')) as [->|Hn].
    + rewrite lookup_insert_eq. split.
      * intros [?|[_ [= <-]]]; left; [by right|by left].
      * intros [[[= ->]|?]%elem_of_cons|[H _]]; [|by left|by destruct (H e'); left].
        destruct (decide (Exists (λ p, p.1 = s') l)) as [(p & Hp & Hs)%Exists_exists|Hno].
        -- destruct p as [s0 e0]. cbn in Hs. subst s0. left.
           by replace e' with e0 by (eapply (Hf s'); [by right|by left]).
        -- right. split; [|done]. intros e0 Hin0. apply Hno, Exists_exists. by exists (s', e0).
    + rewrite lookup_insert_ne by done. setoid_rewrite elem_of_cons. split.
      * intros [?|[H ?]]; [by left; right|right]. split; [|done]. intros e0 [[= ? ?]|?]; [done|by eapply H].
      * intros [[[= ? ?]|?]|[H ?]]; [done|by left|right]. split; [|done]. intros e0 Hin0. apply (H e0). by right.
Qed.

(** A key that encodes, and its string. *)
Definition key_string (k : LedgerKey) (s : string) : Prop := KeyString k = Ok s.

Lemma KeyStrings ks : (∀ k, k ∈ ks → is_Some (marshal_key k)) →
  ∃ ss, mapM KeyString ks = Ok ss ∧ length ss = length ks ∧
    ∀ s, s ∈ ss ↔ ∃ k, k ∈ ks ∧ key_string k s.
Proof.
  induction ks as [|k ks IH]; intros H.
  - exists []. split; [done|]. split; [done|]. intros s. rewrite elem_of_nil. split; [done|].
    by intros (k & Hk%elem_of_nil & _).
  - destruct (IH (λ k' Hk, H k' (list_elem_of_further k' k _ Hk))) as (ss & Hss & Hl & Hin).
    destruct (H k (list_elem_of_here k ks)) as [raw Hraw].
    assert (KeyString k = Ok (base64_encode raw)) as E by (unfold KeyString; by rewrite Hraw).
    exists (base64_encode raw :: ss). cbn [mapM]. rewrite E, Ok_bind, Hss, Ok_bind.
    split; [done|]. split; [cbn; by rewrite Hl|]. intros s. setoid_rewrite elem_of_cons. rewrite Hin.
    unfold key_string. split.
    + intros [->|(k' & ? & ?)]; [by exists k; split; [left|]|]. exists k'. auto.
    + intros (k' & [->|?] & Hk); [left; congruence|right; eauto].
Qed.

(** What a run of batches holds: every entry of the keys read so far. *)
Lemma read_batches_spec c ledger latest fuel acc l0 keys : serves c ledger latest → latest ≠ 0 →
  (∀ k, k ∈ keys → is_Some (marshal_key k)) → (length keys <= fuel)%nat →
  (l0 = 0 ∨ l0 = latest) → acc ⊆ ledger →
  ∃ m, read_batches fuel c (acc, l0) keys = Ok (m, if decide (keys = []) then l0 else latest) ∧
    m ⊆ ledger ∧ acc ⊆ m ∧
    ∀ k s, k ∈ keys → key_string k s → m !! s = ledger !! s.
Proof.
  intros Hc Hl. revert acc l0 keys. induction fuel as [|fuel IH]; intros acc l0 keys Hk Hf H0 Hsub.
  - destruct keys; [|cbn in Hf; lia]. exists acc. split; [done|]. split; [done|]. split; [done|].
    by intros k s Hin%elem_of_nil.
  - destruct keys as [|k0 keys0]; [exists acc; repeat split; [done|done|by intros k s Hin%elem_of_nil]|].
    set (keys := k0 :: keys0) in *. cbn [read_batches]. fold keys.
    assert (∀ k, k ∈ take maxKeysPerRequest keys → is_Some (marshal_key k)) as Hk1.
    { intros k Hin. apply Hk. rewrite <- (take_drop maxKeysPerRequest keys). apply elem_of_app. by left. }
    destruct (KeyStrings _ Hk1) as (ss & Hss & Hlen & Hin). unfold read_batch at 1. rewrite Hss, Ok_bind.
    destruct (Hc ss) as (entries & He & Hmem); [rewrite Hlen, length_take; lia|].
    rewrite He, Ok_bind. cbn [mret res_ret mbind res_bind].
    assert ((if (l0 =? 0) || (latest <? l0) then latest else l0) = latest) as ->.
    { destruct H0 as [->| ->]; [done|]. destruct (Z.eqb_spec latest 0); [done|].
      by rewrite Z.ltb_irrefl. }
    set (m1 := foldl _ acc entries).
    assert (∀ s e e', (s, e) ∈ entries → (s, e') ∈ entries → e = e') as Hfun.
    { intros s e e' [_ ?]%Hmem [_ ?]%Hmem. congruence. }
    assert (m1 ⊆ ledger) as Hm1.
    { apply map_subseteq_spec. intros s e [[_ ?]%Hmem|[_ H]]%foldl_insert_entries; [done| |done].
      by eapply map_subseteq_spec in H. }
    assert (acc ⊆ m1) as Ha1.
    { apply map_subseteq_spec. intros s e H. apply foldl_insert_entries; [done|].
      assert (ledger !! s = Some e) as Hle by by eapply map_subseteq_spec in H.
      destruct (decide (s ∈ ss)) as [Hs|Hs]; [left; by apply Hmem|right]. split; [|done].
      intros e' Hin'. by apply Hmem in Hin' as [? _]. }
    destruct (IH m1 latest (drop maxKeysPerRequest keys)) as (m & Hm & Hm2 & Hm3 & Hm4).
    + intros k Hin'. apply Hk. rewrite <- (take_drop maxKeysPerRequest keys). apply elem_of_app. by right.
    + rewrite length_drop. unfold maxKeysPerRequest. cbn [length keys] in *. lia.
    + by right.
    + done.
    + exists m. rewrite Hm. split; [destruct (decide (drop _ _ = [])); by rewrite decide_False|].
      split; [done|]. split; [by transitivity m1|]. intros k s Hin' Hs.
      rewrite <- (take_drop maxKeysPerRequest keys) in Hin'. apply elem_of_app in Hin' as [Ht|Hd]; [|by eapply Hm4].
      destruct (ledger !! s) as [e|] eqn:El.
      * apply (map_subseteq_spec m1 m); [done|]. apply foldl_insert_entries; [done|]. left.
        apply Hmem. split; [|done]. apply Hin. by exists k.
      * destruct (m !! s) as [e|] eqn:Em; [|done]. eapply map_subseteq_spec in Em; [|exact Hm2]. congruence.
Qed.

(** ...and nothing that was not asked for. *)
Lemma read_batches_asked c ledger latest fuel acc keys r : serves c ledger latest →
  (∀ k, k ∈ keys → is_Some (marshal_key k)) → read_batches fuel c acc keys = Ok r →
  ∀ s e, r.1 !! s = Some e → acc.1 !! s = Some e ∨ ∃ k, k ∈ keys ∧ key_string k s.
Proof.
  intros Hc. revert acc keys. induction fuel as [|fuel IH]; intros acc keys Hk H s e Hs.
  - destruct keys; injection H as ->; by left.
  - destruct keys as [|k0 keys0]; [injection H as ->; by left|].
    set (keys := k0 :: keys0) in *. cbn [read_batches] in H. fold keys in H.
    apply bind_Ok in H as (acc1 & H1 & H).
    assert (Hd : ∀ k, k ∈ drop maxKeysPerRequest keys → k ∈ keys).
    { intros k Hin. rewrite <- (take_drop maxKeysPerRequest keys). apply elem_of_app. by right. }
    assert (Ht : ∀ k, k ∈ take maxKeysPerRequest keys → k ∈ keys).
    { intros k Hin. rewrite <- (take_drop maxKeysPerRequest keys). apply elem_of_app. by left. }
    destruct (IH acc1 _ (λ k Hin, Hk k (Hd k Hin)) H s e Hs) as [Ha|(k & Hin & Hks)]; [|right; eauto].
    destruct (KeyStrings (take maxKeysPerRequest keys)) as (ss & Hss & Hlen & Hin); [by auto|].
    unfold read_batch in H1. destruct acc as [out l0]. rewrite Hss, Ok_bind in H1.
    destruct (Hc ss) as (entries & He & Hmem); [rewrite Hlen, length_take; lia|].
    rewrite He, Ok_bind in H1. injection H1 as <-. cbn [fst] in *.
    apply foldl_insert_entries in Ha as [[Hs' _]%Hmem|[_ ?]]; [|by left|].
    + right. apply Hin in Hs' as (k & Hk' & ?). eauto.
    + intros s0 e0 e1 [_ ?]%Hmem [_ ?]%Hmem. congruence.
Qed.

Lemma Entries_exactly c ledger latest keys : serves c ledger latest → latest ≠ 0 → keys ≠ [] →
  (∀ k, k ∈ keys → is_Some (marshal_key k)) →
  ∃ m, Entries c keys = Ok (m, latest) ∧ ∀ s e, m !! s = Some e ↔ ledger !! s = Some e ∧ ∃ k, k ∈ keys ∧ key_string k s.
Proof.
  intros Hc Hl Hne Hk.
  destruct (read_batches_spec c ledger latest (length keys) ∅ 0 keys Hc Hl Hk) as (m & H1 & H2 & _ & H3);
    [done|by left|apply map_empty_subseteq|].
  rewrite decide_False in H1 by done. exists m. split; [done|]. intros s e. split.
  - intros Hs. split; [by eapply map_subseteq_spec in H2|].
    by destruct (read_batches_asked _ _ _ _ _ _ _ Hc Hk H1 s e Hs) as [?|?].
  - intros [Hs (k & Hin & Hks)]. by rewrite (H3 k s Hin Hks).
Qed.

(** ** Rent *)

Lemma ceil_div a b : 0 <= a → 0 < b → ceil a b = (a + b - 1) / b.
Proof.
  intros Ha Hb. unfold ceil.
  pose proof (Z.div_mod (- a) b). pose proof (Z.mod_pos_bound (- a) b Hb).
  apply Z.div_unique with (b - 1 - (- a) mod b); lia.
Qed.

Lemma i64_id z : - 2 ^ 63 <= z < 2 ^ 63 → i64 z = z.
Proof. intros H. unfold i64, W64. rewrite Z.mod_small; lia. Qed.

(** Settings at which no int64 product overflows; the low fee is negative on the network. *)
Record plausible (size low high target growth : Z) : Prop := {
  p_size : 0 <= size <= maxStateSample; p_target : 1 <= target <= maxStateSample;
  p_low : - 2 ^ 62 <= low <= high; p_high : high < 2 ^ 62; p_range : high - low <= 900000; p_growth : 0 <= growth }.

Lemma RentPerKB_exact size low high target growth : plausible size low high target growth →
  RentPerKB size low high target growth = rent size low high target growth.
Proof.
  intros [Hs Ht Hl Hh Hr Hg]. unfold RentPerKB, rent, maxStateSample in *.
  replace (Z.max target 1) with target by lia. rewrite (Z.max_comm _ 1000). cbv zeta. f_equal.
  rewrite (i64_id (high - low)) by lia. destruct (Z.ltb_spec size target).
  - assert (0 <= (high - low) * size <= 900000 * 10000000000000) by nia.
    rewrite (i64_id ((high - low) * size)) by lia. unfold ceilDiv64.
    rewrite (i64_id ((high - low) * size + target)) by lia.
    rewrite (i64_id ((high - low) * size + target - 1)) by lia.
    rewrite Z.quot_div_nonneg, ceil_div by lia.
    assert (0 <= ((high - low) * size + target - 1) / target <= 900000 + 1).
    { split; [apply Z.div_pos; lia|]. apply Z.div_le_upper_bound; [lia|]. nia. }
    rewrite (i64_id (((high - low) * size + target - 1) / target)) by lia. apply i64_id. lia.
  - rewrite (i64_id (size - target)), (i64_id (target - 1)) by lia.
    set (n := (high - low) * (size - target) * growth).
    assert (0 <= n) by (unfold n; apply Z.mul_nonneg_nonneg; [nia|done]).
    rewrite Z.quot_div_nonneg, ceil_div by lia. replace (n + (target - 1)) with (n + target - 1) by lia.
    assert (0 <= (n + target - 1) / target) by (apply Z.div_pos; lia). unfold MaxInt64.
    set (q := (n + target - 1) / target) in *.
    destruct (Z.leb_spec (-9223372036854775808) (q + high)); [|lia].
    destruct (Z.leb_spec (q + high) 9223372036854775807); cbn [andb]; lia.
Qed.

Lemma ceil_mono a a' b : 0 <= a <= a' → 0 < b → ceil a b <= ceil a' b.
Proof. intros Ha Hb. rewrite !ceil_div by lia. apply Z.div_le_mono; lia. Qed.

Lemma ceil_le a b q : 0 <= a → 0 < b → a <= q * b → ceil a b <= q.
Proof. intros Ha Hb Hq. rewrite ceil_div by lia. apply Z.lt_succ_r, Z.div_lt_upper_bound; nia. Qed.

Lemma ceil_nonneg a b : 0 <= a → 0 < b → 0 <= ceil a b.
Proof. intros Ha Hb. rewrite ceil_div by lia. apply Z.div_pos; lia. Qed.

Lemma rent_mono size size' low high target growth : plausible size low high target growth →
  plausible size' low high target growth → size <= size' →
  rent size low high target growth <= rent size' low high target growth.
Proof.
  intros [Hs Ht Hl Hh Hr Hg] [Hs' _ _ _ _ _] Hle. unfold rent. apply Z.max_le_compat_l.
  destruct (Z.ltb_spec size target), (Z.ltb_spec size' target); try lia.
  - apply Z.add_le_mono_r, ceil_mono; [nia|lia].
  - assert (ceil ((high - low) * size) target <= high - low) by (apply ceil_le; nia).
    assert (0 <= ceil ((high - low) * (size' - target) * growth) target).
    { apply ceil_nonneg; [apply Z.mul_nonneg_nonneg; nia|lia]. }
    unfold MaxInt64. lia.
  - apply Z.min_le_compat_l, Z.add_le_mono_r, ceil_mono; [|lia].
    assert (0 <= (high - low) * (size - target)) by nia.
    assert ((high - low) * (size - target) <= (high - low) * (size' - target)) by nia. nia.
Qed.

Lemma CheckStateWindow_Ok window target : Forall is_u64 window → CheckStateWindow window target = Ok tt →
  window ≠ [] ∧ 1 <= target <= maxStateSample ∧ Forall (λ n, 1 <= n <= maxStateSample) window.
Proof.
  unfold CheckStateWindow, maxStateSample. intros Hu H.
  destruct (Nat.eqb_spec (length window) 0) as [|Hl]; [done|].
  destruct (Z.leb_spec target 0); cbn [orb] in H; [done|].
  destruct (Z.ltb_spec 10000000000000 target); [done|]. split; [by destruct window|]. split; [lia|].
  destruct (list_find _ window) as [[]|] eqn:E; [done|]. apply list_find_None in E.
  rewrite Forall_forall in *. intros n Hn. specialize (E n Hn). specialize (Hu n Hn).
  unfold is_u64 in Hu.
  destruct (Z.eqb_spec n 0), (Z.ltb_spec 10000000000000 n); cbn in E; try tauto; lia.
Qed.

Lemma window_sum window s : 0 <= s → Forall (λ n, 1 <= n <= maxStateSample) window →
  s + maxStateSample * Z.of_nat (length window) < 2 ^ 63 →
  s + Z.of_nat (length window) <= foldl (λ s n, u64 (s + n)) s window
    <= s + maxStateSample * Z.of_nat (length window).
Proof.
  intros Hs H. revert s Hs. induction H as [|n l Hn _ IH]; intros s Hs Hb; cbn [foldl length] in *; [lia|].
  unfold maxStateSample in *. rewrite u64_small by (unfold is_u64, W64; lia).
  specialize (IH (s + n) ltac:(lia) ltac:(lia)). lia.
Qed.

Lemma StateAverage_range window target : Forall is_u64 window → CheckStateWindow window target = Ok tt →
  Z.of_nat (length window) <= 100000 →
  ∃ avg, StateAverage window = Some avg ∧ 1 <= avg <= maxStateSample.
Proof.
  intros Hu (Hn & _ & Hf)%CheckStateWindow_Ok Hl; [|done].
  pose proof (window_sum window 0 ltac:(lia) Hf ltac:(unfold maxStateSample; lia)) as Hs.
  unfold StateAverage. destruct (Nat.eqb_spec (length window) 0); [by destruct window|].
  eexists. split; [done|]. set (sum := foldl _ 0 window) in *. unfold maxStateSample in *.
  assert (1 <= sum / Z.of_nat (length window) <= 10000000000000).
  { split; [apply Z.div_le_lower_bound; lia|]. apply Z.div_le_upper_bound; lia. }
  rewrite i64_id; lia.
Qed.

End rpc.

(** * Properties *)

(** Reading entries in batches reads the ledger: however many keys are asked for, when the RPC
    answers each batch of at most 200 from one ledger, [Entries] returns for every key its entry or
    none as the ledger has it, and nothing else, at that ledger; [One] of them gives the entry or
    [ErrMissing]. *)
Theorem entries_read_the_ledger {sdk : StellarSDK} (c : Client) (ledger : gmap string Entry)
    (latest : Z) (keys : list LedgerKey) (Hc : serves c ledger latest) (Hl : latest ≠ 0)
    (Hk : ∀ k, k ∈ keys → is_Some (marshal_key k)) :
  (∃ m, Entries c keys = Ok (m, if decide (keys = []) then 0 else latest) ∧ m ⊆ ledger ∧
     ∀ k s, k ∈ keys → KeyString k = Ok s → m !! s = ledger !! s) ∧
  ∀ k s, k ∈ keys → KeyString k = Ok s →
    One c k = match ledger !! s with Some e => Ok (e, latest) | None => Fail ErrMissing end.
Proof.
  split.
  - destruct (read_batches_spec c ledger latest (length keys) ∅ 0 keys Hc Hl Hk)
      as (m & H1 & H2 & _ & H3); [done|by left|apply map_empty_subseteq|]. by exists m.
  - intros k s Hin Hs. unfold One.
    destruct (read_batches_spec c ledger latest 1 ∅ 0 [k] Hc Hl) as (m & H1 & _ & _ & H3);
      [by intros k' ->%list_elem_of_singleton; apply Hk|done|by left|apply map_empty_subseteq|].
    unfold Entries. cbn [length]. rewrite H1. cbn [mbind res_bind]. rewrite Hs. cbn [mbind res_bind].
    rewrite (H3 k s) by (done || by left). done.
Qed.

(** A client over a ledger of one entry, for an SDK where code keys encode as their hash. *)
Definition code_sdk : StellarSDK :=
  example.sdk_keys [] (λ _, None) (λ k, match k with KeyContractCode h => Some h | _ => None end).
Definition one_entry : Entry := mkEntry (DataTrustLine 1 0) 7 None.
Definition one_client : Client := mkClient (Ok (1, 9, 100))
  (λ batch, Ok (if decide ("A"%string ∈ batch) then [("A"%string, one_entry)] else [], 9)).

Lemma entries_witness :
  One (sdk := code_sdk) one_client (KeyContractCode [65]) = Ok (one_entry, 9) ∧
  One (sdk := code_sdk) one_client (KeyContractCode [66]) = Fail ErrMissing.
Proof.
  destruct (entries_read_the_ledger (sdk := code_sdk) one_client {["A"%string := one_entry]} 9
    [KeyContractCode [65]; KeyContractCode [66]]) as [_ H].
  - intros batch _. eexists. split; [reflexivity|]. intros s e. rewrite lookup_singleton_Some.
    case_decide as Hb; [rewrite list_elem_of_singleton|rewrite elem_of_nil]; naive_solver.
  - discriminate.
  - intros k [->|[->|[]%elem_of_nil]%elem_of_cons]%elem_of_cons; eexists; reflexivity.
  - split.
    + rewrite (H (KeyContractCode [65]) "A"%string); [reflexivity|by left|reflexivity].
    + rewrite (H (KeyContractCode [66]) "B"%string); [reflexivity|right; by left|reflexivity].
Defined.

(** C39: Rent is computed as the network defines it and never overflows, at any state size and target the
    plausibility check passes and rent fees, the low one negative or not, that differ by up to 900,000 stroops
    (the network's are -17,000 and 10,000): the int64 arithmetic below the target and the saturated arithmetic
    above it give the exact rounded-up rent, at least 1000, and a larger state never costs less. The window's mean
    is computed without overflow too, between one byte and ten terabytes. *)
Theorem rent_is_exact (size size' low high target growth : Z) (window : list Z)
    (Hp : plausible size low high target growth) (Hp' : plausible size' low high target growth)
    (Hs : size <= size') (Hu : Forall is_u64 window) (Hl : Z.of_nat (length window) <= 100000) :
  RentPerKB size low high target growth = rent size low high target growth ∧
  1000 <= RentPerKB size low high target growth <= RentPerKB size' low high target growth ∧
  (CheckStateWindow window target = Ok tt →
     ∃ avg, StateAverage window = Some avg ∧ 1 <= avg <= maxStateSample).
Proof.
  rewrite !RentPerKB_exact by done. split; [done|]. split.
  - split; [unfold rent; lia|by apply rent_mono].
  - intros Hc. by eapply StateAverage_range.
Qed.

(** The network's own settings, at a size above the target and at the floor below it. *)
Lemma rent_witness : RentPerKB 3009000000 (-17000) 10000 3000000000 5000 = 415000 ∧
  RentPerKB 1614568461 (-17000) 10000 3000000000 5000 = 1000 ∧
  1000 <= RentPerKB 1614568461 (-17000) 10000 3000000000 5000 <= RentPerKB 3009000000 (-17000) 10000 3000000000 5000.
Proof.
  split; [vm_compute; reflexivity|]. split; [vm_compute; reflexivity|].
  apply (rent_is_exact 1614568461 3009000000 (-17000) 10000 3000000000 5000 [1]);
    [split; unfold maxStateSample; lia|split; unfold maxStateSample; lia|lia| |cbn; lia].
  apply Forall_singleton. unfold is_u64, W64. lia.
Defined.

(** Rent fees are not bounded by the plausibility check, and beyond it the int64 product below the
    target does overflow: here the exact rent is 990,000 stroops and the computed one the minimum. *)
Lemma rent_overflow : CheckStateWindow [9000000000000] maxStateSample = Ok tt ∧
  rent 9000000000000 0 1100000 maxStateSample 1 = 990000 ∧
  RentPerKB 9000000000000 0 1100000 maxStateSample 1 = 1000.
Proof. split; [reflexivity|]. split; vm_compute; reflexivity. Qed.

End rpc.
