(* ===== verification/Token.v ===== *)
(** The asset contract's balance entry, transfer event and burn event, as
    [services/internal/vault/token.go] decodes them. *)
From S2P Require Import Prelude.
From S2P Require Import Fr.
From S2P Require Import Xdr.
From S2P Require Import ScVal.
From S2P Require Import VaultState.
From S2P Require Import Events.
From S2P Require Import Keys.

Module token.

Import scval.

Section token.
Context {sdk : StellarSDK}.

(** [DecodeBalance] reads a Balance(holder) entry: the amount and whether the holder may hold the
    asset. The clawback field must be there and is not read. *)
Definition DecodeBalance (v : ScVal) : res (Z * bool) :=
  vault.with_decoder v ["amount"; "authorized"; "clawback"]%string (
    amount ← vault.d_i128 "amount"; authorized ← vault.d_bool "authorized";
    mret (amount, authorized)).

(** [Transfer] is an asset contract's transfer event; [To] is an account, never a muxed one. *)
Record Transfer : Type := mkTransfer { From : string; To : string; Amount : Z }.

(** The loop that reads a number of topics; any further topic is not read. *)
Fixpoint read_topics (n : nat) (topics : list string) (format : string) : res (list ScVal) :=
  match n, topics with
  | S n, t :: topics =>
      match unmarshal_base64 t with
      | Some v => vs ← read_topics n topics format; mret (v :: vs)
      | None => Fail (malformed format [FOther])
      end
  | _, _ => Ok []
  end.

(** The loop over the data map of a muxed transfer: the last entry named amount, if any. *)
Definition amount_entry (entries : list (ScVal * ScVal)) : option ScVal :=
  foldl (λ found e,
    match symbolOf e.1 with
    | Some k => if String.eqb k "amount" then Some e.2 else found
    | None => found
    end) None entries.

(** The data of a transfer: the amount, or the amount entry of a map. *)
Definition transfer_amount (data : ScVal) : res ScVal :=
  match data with
  | ScvMap m =>
      match m with
      | None => Fail (malformed "transfer data map" [])
      | Some entries =>
          match amount_entry entries with
          | Some v => Ok v
          | None => Fail (malformed "transfer data without an amount" [])
          end
      end
  | _ => Ok data
  end.

(** [DecodeTransfer] reads a transfer event. *)
Definition DecodeTransfer (raw : events.RawEvent) : res Transfer :=
  if (length (events.Topics raw) <? 3)%nat then
    Fail (malformed "transfer with %d topics" [FInt (Z.of_nat (length (events.Topics raw)))])
  else
    topics ← read_topics 3 (events.Topics raw) "transfer topic: %v";
    match topics with
    | [name; from; to] =>
        _ ← fail_if (negb (bool_decide (symbolOf name = Some "transfer"%string)))
              (malformed "not a transfer event" []);
        from ← addressOf from;
        to ← addressOf to;
        to ← AccountOf to;
        match unmarshal_base64 (events.Value raw) with
        | None => Fail (malformed "transfer data: %v" [FOther])
        | Some data =>
            data ← transfer_amount data;
            amount ← i128Of data;
            _ ← fail_if (Z.sgn amount <? 0) (malformed "negative transfer" []);
            mret (mkTransfer from to amount)
        end
    | _ => Fail (malformed "transfer with %d topics" [FInt (Z.of_nat (length topics))])
    end.

(** The issuer of CODE:ISSUER, a public key. *)
Definition burn_issuer (asset : ScVal) : option string :=
  match asset with
  | ScvString s =>
      '(_, issuer) ← keys.cut ":"%char s;
      if is_public_key issuer then Some issuer else None
  | _ => None
  end.

(** [DecodeBurn] reads the burn event a payment to the asset's issuer emits. *)
Definition DecodeBurn (raw : events.RawEvent) : res Transfer :=
  if negb (length (events.Topics raw) =? 3)%nat then
    Fail (malformed "burn with %d topics" [FInt (Z.of_nat (length (events.Topics raw)))])
  else
    topics ← read_topics 3 (events.Topics raw) "burn topic: %v";
    match topics with
    | [name; from; asset] =>
        _ ← fail_if (negb (bool_decide (symbolOf name = Some "burn"%string)))
              (malformed "not a burn event" []);
        from ← addressOf from;
        match burn_issuer asset with
        | None => Fail (malformed "burn of an asset without an issuer" [])
        | Some issuer =>
            match unmarshal_base64 (events.Value raw) with
            | None => Fail (malformed "burn data: %v" [FOther])
            | Some data =>
                amount ← i128Of data;
                _ ← fail_if (Z.sgn amount <? 0) (malformed "negative burn" []);
                mret (mkTransfer from issuer amount)
            end
        end
    | _ => Fail (malformed "burn with %d topics" [FInt (Z.of_nat (length topics))])
    end.

(** * Specification *)

(** The data an asset contract emits for an amount: the amount, or for a muxed destination a map of
    the amount and the muxed ID, in the order of the field names. *)
Definition transfer_data (muxed : option Z) (amount : ScVal) : ScVal :=
  match muxed with
  | None => amount
  | Some id => Struct [mkField "amount" amount; mkField "to_muxed_id" (U64 id)]
  end.

(** * Lemmas *)

Lemma read_topics_all ts vs format : Forall2 (λ t v, unmarshal_base64 t = Some v) ts vs →
  ∀ rest n, n = length ts → read_topics n (ts ++ rest) format = Ok vs.
Proof.
  induction 1 as [|t v ts vs H _ IH]; intros rest n ->; [by destruct rest|]. cbn [app length read_topics].
  rewrite H. by rewrite IH.
Qed.

Lemma read_topics_inv n ts format vs : read_topics n ts format = Ok vs →
  Forall2 (λ t v, unmarshal_base64 t = Some v) (take n ts) vs.
Proof.
  revert ts vs. induction n as [|n IH]; intros [|t ts] vs; cbn [read_topics take];
    try by intros [= <-]; constructor.
  destruct (unmarshal_base64 t) as [v|] eqn:E; [|done]. rewrite bind_Ok.
  intros (vs' & H & [= <-]). by constructor; [|apply IH].
Qed.

Lemma sgn_negative a : (Z.sgn a <? 0) = false ↔ 0 <= a.
Proof. rewrite sgn_ltb_0, Z.ltb_ge. done. Qed.

Lemma transfer_amount_data muxed n a : I128 n = Ok a →
  transfer_amount (transfer_data muxed a) = Ok a.
Proof.
  unfold I128. destruct (_ || _); [done|]. cbn zeta. intros [= <-]. by destruct muxed.
Qed.

(** The event a transfer of [amount] emits: topics the name, sender and destination, then any more. *)
Record transfer_event (raw : events.RawEvent) (from to : string) (muxed : option Z) (amount : Z)
    : Prop := {
  te_topics : ∃ t0 t1 t2 rest f d, events.Topics raw = [t0; t1; t2] ++ rest ∧
    Address from = Ok f ∧ Address to = Ok d ∧ unmarshal_base64 t0 = Some (Symbol "transfer") ∧
    unmarshal_base64 t1 = Some f ∧ unmarshal_base64 t2 = Some d;
  te_data : ∃ a, I128 amount = Ok a ∧
    unmarshal_base64 (events.Value raw) = Some (transfer_data muxed a);
}.

(** The event a payment of [amount] to the issuer of CODE:ISSUER emits. *)
Record burn_event (raw : events.RawEvent) (from code issuer : string) (amount : Z) : Prop := {
  be_topics : ∃ t0 t1 t2 f, events.Topics raw = [t0; t1; t2] ∧
    Address from = Ok f ∧ unmarshal_base64 t0 = Some (Symbol "burn") ∧
    unmarshal_base64 t1 = Some f ∧ unmarshal_base64 t2 = Some (ScvString (code ++ ":" ++ issuer));
  be_code : ∀ c, c ∈ String.list_ascii_of_string code → c ≠ ":"%char;
  be_issuer : is_public_key issuer = true;
  be_data : ∃ a, I128 amount = Ok a ∧ unmarshal_base64 (events.Value raw) = Some a;
}.

Lemma cut_code code rest : (∀ c, c ∈ String.list_ascii_of_string code → c ≠ ":"%char) →
  keys.cut ":"%char (code ++ ":" ++ rest) = Some (code, rest).
Proof.
  induction code as [|c code IH]; intros H; [done|].
  change ((String c code ++ ":" ++ rest)%string) with (String c (code ++ ":" ++ rest)).
  cbn [keys.cut]. destruct (Ascii.eqb_spec c ":"%char) as [->|_].
  - destruct (H ":"%char); [by left|done].
  - rewrite IH by (intros c' Hc; apply H; by right). done.
Qed.

Lemma transfer_topics raw t0 t1 t2 rest v0 v1 v2 format :
  events.Topics raw = [t0; t1; t2] ++ rest → unmarshal_base64 t0 = Some v0 →
  unmarshal_base64 t1 = Some v1 → unmarshal_base64 t2 = Some v2 →
  (length (events.Topics raw) <? 3)%nat = false ∧
  read_topics 3 (events.Topics raw) format = Ok [v0; v1; v2].
Proof.
  intros -> H0 H1 H2. split; [by apply Nat.ltb_ge; rewrite length_app; cbn; lia|].
  apply read_topics_all; [|done]. by repeat constructor.
Qed.

Lemma DecodeTransfer_event `{!StellarSDKLaws sdk} raw from to muxed amount account :
  transfer_event raw from to muxed amount → AccountOf to = Ok account →
  DecodeTransfer raw = if decide (0 <= amount) then Ok (mkTransfer from account amount)
                       else Fail (malformed "negative transfer" []).
Proof.
  intros [(t0 & t1 & t2 & rest & f & d & Ht & Hf & Hd & H0 & H1 & H2) (a & Ha & Hv)] Hto.
  destruct (transfer_topics raw t0 t1 t2 rest _ _ _ "transfer topic: %v" Ht H0 H1 H2) as [Hl Hr].
  unfold DecodeTransfer. rewrite Hl, Hr. cbn [mbind res_bind symbolOf Symbol].
  rewrite bool_decide_eq_true_2 by done. cbn [negb fail_if mbind res_bind].
  rewrite (addressOf_Address _ _ Hf), (addressOf_Address _ _ Hd). cbn [mbind res_bind].
  rewrite Hto, Hv. cbn [mbind res_bind]. rewrite (transfer_amount_data _ _ _ Ha).
  cbn [mbind res_bind]. rewrite (I128_inv _ _ Ha). cbn [mbind res_bind].
  destruct (decide (0 <= amount)) as [Hp|Hp].
  - by rewrite (proj2 (sgn_negative _) Hp).
  - destruct (Z.sgn amount <? 0) eqn:E; [done|]. by apply sgn_negative in E.
Qed.

Lemma DecodeBurn_event `{!StellarSDKLaws sdk} raw from code issuer amount :
  burn_event raw from code issuer amount →
  DecodeBurn raw = if decide (0 <= amount) then Ok (mkTransfer from issuer amount)
                   else Fail (malformed "negative burn" []).
Proof.
  intros [(t0 & t1 & t2 & f & Ht & Hf & H0 & H1 & H2) Hc Hk (a & Ha & Hv)].
  destruct (transfer_topics raw t0 t1 t2 [] _ _ _ "burn topic: %v" Ht H0 H1 H2) as [_ Hr].
  unfold DecodeBurn. rewrite Hr, Ht. cbn [length negb Nat.eqb mbind res_bind symbolOf Symbol].
  rewrite bool_decide_eq_true_2 by done. cbn [negb fail_if mbind res_bind].
  rewrite (addressOf_Address _ _ Hf). cbn [mbind res_bind burn_issuer].
  rewrite (cut_code _ _ Hc). cbn [mbind option_bind]. rewrite Hk, Hv, (I128_inv _ _ Ha).
  cbn [mbind res_bind]. destruct (decide (0 <= amount)) as [Hp|Hp].
  - by rewrite (proj2 (sgn_negative _) Hp).
  - destruct (Z.sgn amount <? 0) eqn:E; [done|]. by apply sgn_negative in E.
Qed.

(** What any accepted transfer or burn is read from. *)
Lemma read_three ts format vs : read_topics 3 ts format = Ok vs → (3 <= length ts)%nat →
  ∃ t0 t1 t2 v0 v1 v2, vs = [v0; v1; v2] ∧ take 3 ts = [t0; t1; t2] ∧
    unmarshal_base64 t0 = Some v0 ∧ unmarshal_base64 t1 = Some v1 ∧ unmarshal_base64 t2 = Some v2.
Proof.
  intros H%read_topics_inv Hl. destruct ts as [|t0 [|t1 [|t2 ts]]]; cbn in Hl; try lia.
  cbn [take] in H. apply Forall2_cons_inv_l in H as (v0 & vs0 & H0 & H & ->).
  apply Forall2_cons_inv_l in H as (v1 & vs1 & H1 & H & ->).
  apply Forall2_cons_inv_l in H as (v2 & vs2 & H2 & H & ->).
  rewrite take_0 in H. apply Forall2_nil_inv_l in H as ->. by exists t0, t1, t2, v0, v1, v2.
Qed.

(** The name and sender of the first two topics. *)
Definition emitted (name : string) (from : string) (raw : events.RawEvent) : Prop :=
  ∃ t0 t1 v1, events.Topics raw !! 0%nat = Some t0 ∧ events.Topics raw !! 1%nat = Some t1 ∧
    unmarshal_base64 t0 = Some (Symbol name) ∧ unmarshal_base64 t1 = Some v1 ∧ addressOf v1 = Ok from.

Lemma symbolOf_Some v s : symbolOf v = Some s → v = Symbol s.
Proof. by destruct v; cbn; intros [= ->]. Qed.

Lemma emitted_intro name from raw t0 t1 t2 v0 v1 : take 3 (events.Topics raw) = [t0; t1; t2] →
  unmarshal_base64 t0 = Some v0 → symbolOf v0 = Some name → unmarshal_base64 t1 = Some v1 →
  addressOf v1 = Ok from → emitted name from raw.
Proof.
  intros Ht H0 ->%symbolOf_Some H1 Ha. exists t0, t1, v1.
  destruct (events.Topics raw) as [|a [|b l]]; try done. cbn [take] in Ht. injection Ht as -> -> _.
  done.
Qed.

Lemma DecodeTransfer_Ok `{!StellarSDKLaws sdk} raw t : DecodeTransfer raw = Ok t →
  emitted "transfer" (From t) raw ∧ 0 <= Amount t ∧ AccountOf (To t) = Ok (To t).
Proof.
  unfold DecodeTransfer. destruct (Nat.ltb_spec (length (events.Topics raw)) 3) as [|Hl]; [done|].
  rewrite bind_Ok. intros (vs & Hr & H).
  destruct (read_three _ _ _ Hr Hl) as (t0 & t1 & t2 & v0 & v1 & v2 & -> & Ht & H0 & H1 & H2).
  apply bind_Ok in H as (? & Hn%fail_if_Ok & H). apply negb_false_iff, bool_decide_eq_true in Hn.
  apply bind_Ok in H as (f & Hf & H). apply bind_Ok in H as (d & Hd & H).
  apply bind_Ok in H as (acc & Hacc & H). destruct (unmarshal_base64 (events.Value raw)); [|done].
  apply bind_Ok in H as (a & _ & H). apply bind_Ok in H as (n & _ & H).
  apply bind_Ok in H as (? & Hs%fail_if_Ok%sgn_negative & [= <-]). cbn [From To Amount].
  split; [|split; [done|by eapply AccountOf_idempotent]]. by eapply emitted_intro.
Qed.

Lemma DecodeBurn_Ok raw t : DecodeBurn raw = Ok t →
  emitted "burn" (From t) raw ∧ 0 <= Amount t ∧ is_public_key (To t) = true.
Proof.
  unfold DecodeBurn. destruct (Nat.eqb_spec (length (events.Topics raw)) 3) as [Hl|]; [|done].
  cbn [negb]. rewrite bind_Ok. intros (vs & Hr & H).
  destruct (read_three _ _ _ Hr ltac:(lia)) as (t0 & t1 & t2 & v0 & v1 & v2 & -> & Ht & H0 & H1 & H2).
  apply bind_Ok in H as (? & Hn%fail_if_Ok & H). apply negb_false_iff, bool_decide_eq_true in Hn.
  apply bind_Ok in H as (f & Hf & H). destruct (burn_issuer v2) as [iss|] eqn:Ei; [|done].
  destruct (unmarshal_base64 (events.Value raw)); [|done].
  apply bind_Ok in H as (n & _ & H).
  apply bind_Ok in H as (? & Hs%fail_if_Ok%sgn_negative & [= <-]). cbn [From To Amount].
  split; [by eapply emitted_intro|]. split; [done|].
  destruct v2; try done. cbn [burn_issuer] in Ei. destruct (keys.cut _ _) as [[c i]|]; [|done].
  cbn [mbind option_bind] in Ei. destruct (is_public_key i) eqn:Ek; [|done]. by injection Ei as <-.
Qed.

Lemma emitted_name n m f g raw : emitted n f raw → emitted m g raw → n = m.
Proof.
  intros (t0 & t1 & v1 & H0 & _ & H2 & _) (t0' & t1' & v1' & H0' & _ & H2' & _).
  rewrite H0 in H0'. injection H0' as <-. rewrite H2 in H2'. by injection H2'.
Qed.

End token.

(** * Properties *)

(** The payments out of the vault are read from the asset contract's events as they were made: a
    transfer of a non-negative amount, to an account, a contract or a muxed account (whose event
    carries a map), is read back with its sender, its destination as the account and the amount, and
    a payment to the issuer, which burns, with the issuer as its destination; an event with a negative
    amount is refused. No event is both: what one decoder accepts the other refuses. *)
Theorem payments_read_back {sdk : StellarSDK} {laws : StellarSDKLaws sdk} (raw : events.RawEvent)
    (from : string) (amount : Z) :
  (∀ to muxed account, transfer_event raw from to muxed amount → AccountOf to = Ok account →
     DecodeTransfer raw = if decide (0 <= amount) then Ok (mkTransfer from account amount)
                          else Fail (malformed "negative transfer" [])) ∧
  (∀ code issuer, burn_event raw from code issuer amount →
     DecodeBurn raw = if decide (0 <= amount) then Ok (mkTransfer from issuer amount)
                      else Fail (malformed "negative burn" [])) ∧
  (is_ok (DecodeTransfer raw) = true → is_ok (DecodeBurn raw) = false) ∧
  ∀ t, DecodeTransfer raw = Ok t ∨ DecodeBurn raw = Ok t →
    0 <= Amount t ∧ (AccountOf (To t) = Ok (To t) ∨ is_public_key (To t) = true) ∧
    ∃ name, (name = "transfer" ∨ name = "burn")%string ∧ emitted name (From t) raw.
Proof.
  split; [intros; by eapply DecodeTransfer_event|].
  split; [intros; by eapply DecodeBurn_event|]. split.
  - destruct (DecodeTransfer raw) as [t|] eqn:E; [intros _|done].
    destruct (DecodeBurn raw) as [b|] eqn:E'; [|done].
    apply DecodeTransfer_Ok in E as [E _]. apply DecodeBurn_Ok in E' as [E' _].
    by pose proof (emitted_name _ _ _ _ _ E E').
  - intros t [H|H].
    + apply DecodeTransfer_Ok in H as (He & Hp & Ha). split; [exact Hp|].
      split; [by left|]. exists "transfer"%string. split; [by left|exact He].
    + apply DecodeBurn_Ok in H as (He & Hp & Ha). split; [exact Hp|].
      split; [by right|]. exists "burn"%string. split; [by right|exact He].
Qed.

Lemma payments_witness :
  let m := String "M"%char (example.bytes_string (be_bytes 8 9 ++ be_bytes 32 2)) in
  ∃ a f d, Address (sdk := example.sdk []) (example.contract 1) = Ok f ∧
    Address (sdk := example.sdk []) m = Ok d ∧ I128 40 = Ok a ∧
    let sdk := example.sdk [("n", Symbol "transfer"); ("f", f); ("d", d);
                            ("v", transfer_data (Some 9) a)]%string in
    DecodeTransfer (sdk := sdk) (events.mkRawEvent 10 1700000000 "" 1 0 0 "" ["n"; "f"; "d"]%string "v")
    = Ok (mkTransfer (example.contract 1) (example.account 2) 40).
Proof.
  intros m. destruct (I128 40) as [a|] eqn:Ea; [|exfalso; vm_compute in Ea; discriminate Ea].
  destruct (Address (sdk := example.sdk []) (example.contract 1)) as [f|] eqn:Ef;
    [|exfalso; vm_compute in Ef; discriminate Ef].
  destruct (Address (sdk := example.sdk []) m) as [d|] eqn:Ed;
    [|exfalso; vm_compute in Ed; discriminate Ed].
  exists a, f, d. split; [reflexivity|]. split; [reflexivity|]. split; [reflexivity|]. intros sdk0.
  apply (proj1 (@payments_read_back sdk0 (example.sdk_laws _) _ (example.contract 1) 40) m (Some 9)).
  - split.
    + exists "n"%string, "f"%string, "d"%string, [], f, d.
      split; [reflexivity|]. split; [exact Ef|]. split; [exact Ed|].
      split; [reflexivity|]. split; reflexivity.
    + exists a. split; [exact Ea|]. reflexivity.
  - vm_compute. reflexivity.
Defined.

End token.
