(* ===== verification/Freeze.v ===== *)
(** The frozen ledger keys, indexed by the accounts, contracts and code they touch:
    [services/internal/freeze/freeze.go]. *)
From S2P Require Import Prelude.
From S2P Require Import Xdr.
From S2P Require Import ScVal.
From S2P Require Import Keys.
From S2P Require Import Rpc.

Module freeze.

Import scval.

(** [Set] is the frozen list, indexed by what it touches; the Go maps hold only true. *)
Record Set_ : Type := mkSet {
  Keys : gset string; Accounts : gset string; Contracts : gset string; Codes : gset (list Z) }.

Definition empty_set : Set_ := mkSet ∅ ∅ ∅ ∅.

Section freeze.
Context {sdk : StellarSDK}.

Definition addAccount (s : Set_) (id : list Z) : Set_ :=
  match strkey_encode VersionAccountID id with
  | Some addr => mkSet (Keys s) ({[addr]} ∪ Accounts s) (Contracts s) (Codes s)
  | None => s
  end.

Definition addAddress (s : Set_) (a : ScAddress) : Set_ :=
  match a with
  | AddressAccount key => addAccount s key
  | AddressContract id =>
      match strkey_encode VersionContract id with
      | Some c => mkSet (Keys s) (Accounts s) ({[c]} ∪ Contracts s) (Codes s)
      | None => s
      end
  | AddressMuxed _ key =>
      match strkey_encode VersionAccountID key with
      | Some g => mkSet (Keys s) ({[g]} ∪ Accounts s) (Contracts s) (Codes s)
      | None => s
      end
  | AddressOther _ => s
  end.

(** [walk] records every address inside a contract data key. *)
Fixpoint walk (s : Set_) (v : ScVal) : Set_ :=
  match v with
  | ScvAddress a => addAddress s a
  | ScvVec (Some items) => foldl walk s items
  | ScvMap (Some entries) => foldl (λ s e, walk (walk s e.1) e.2) s entries
  | _ => s
  end.

(** What one frozen key adds, after its encoding. *)
Definition add_key (s : Set_) (k : LedgerKey) : Set_ :=
  match k with
  | KeyAccount id | KeyTrustline id _ _ | KeyOffer id | KeyData id => addAccount s id
  | KeyContractData contract key _ => walk (addAddress s contract) key
  | KeyContractCode hash => mkSet (Keys s) (Accounts s) (Contracts s) ({[hash]} ∪ Codes s)
  | _ => s
  end.

(** One turn of the loop of [Parse]. *)
Definition parse_key (s : Set_) (raw : list Z) : res Set_ :=
  match unmarshal_key raw with
  | None => Fail (Wrapf (Sentinel "xdr: unmarshal") "freeze: frozen key: %w" [])
  | Some k =>
      Ok (add_key (mkSet ({[base64_encode raw]} ∪ Keys s) (Accounts s) (Contracts s) (Codes s)) k)
  end.

Fixpoint parse_keys (s : Set_) (keys : list (list Z)) : res Set_ :=
  match keys with
  | [] => Ok s
  | raw :: keys => s ← parse_key s raw; parse_keys s keys
  end.

(** [Parse] indexes encoded ledger keys. *)
Definition Parse (keys : list (list Z)) : res Set_ := parse_keys empty_set keys.

(** [Read] fetches the frozen list from the ledger; [id] is the XDR library's number of the setting.
    A network without the setting has frozen nothing. *)
Definition Read (c : rpc.Client) (id : Z) : res Set_ :=
  match rpc.One c (keys.ConfigSettingKey id) with
  | Fail e => if errors_is "rpc: ledger entry missing" e then Parse [] else Fail e
  | Ok (entry, _) =>
      match rpc.Data entry with
      | rpc.DataConfigSetting (rpc.FrozenLedgerKeys keys) => Parse keys
      | _ => Fail (Sentinel "freeze: not a frozen ledger keys setting")
      end
  end.

(** [Touches] reports whether the freeze touches a G, M or C address. *)
Definition Touches (s : Set_) (address : string) : bool :=
  match AccountOf address with
  | Ok account => bool_decide (account ∈ Accounts s) || bool_decide (account ∈ Contracts s)
  | Fail _ => false
  end.

(** [Has] reports whether a ledger key is frozen. *)
Definition Has (s : Set_) (k : LedgerKey) : bool :=
  match marshal_key k with
  | Some raw => bool_decide (base64_encode raw ∈ Keys s)
  | None => false
  end.

(** * Specification *)

(** The addresses inside a value: the value itself, or inside an item of a vector, or inside a key
    or a value of a map. *)
Inductive inside (a : ScAddress) : ScVal → Prop :=
| inside_here : inside a (ScvAddress a)
| inside_vec items v : v ∈ items → inside a v → inside a (ScvVec (Some items))
| inside_key entries e : e ∈ entries → inside a e.1 → inside a (ScvMap (Some entries))
| inside_val entries e : e ∈ entries → inside a e.2 → inside a (ScvMap (Some entries)).

(** The addresses a ledger key belongs to or names. *)
Inductive key_names (a : ScAddress) : LedgerKey → Prop :=
| names_account id : a = AddressAccount id → key_names a (KeyAccount id)
| names_trustline id c i : a = AddressAccount id → key_names a (KeyTrustline id c i)
| names_offer id : a = AddressAccount id → key_names a (KeyOffer id)
| names_data id : a = AddressAccount id → key_names a (KeyData id)
| names_contract key d : key_names a (KeyContractData a key d)
| names_inside contract key d : inside a key → key_names a (KeyContractData contract key d).

(** The strkey an address is recorded under: a muxed account under its account. *)
Definition recorded (a : ScAddress) : option string :=
  match a with
  | AddressAccount key | AddressMuxed _ key => strkey_encode VersionAccountID key
  | AddressContract id => strkey_encode VersionContract id
  | AddressOther _ => None
  end.

(** * Lemmas *)

(** The strkeys of either index. *)
Definition touched (s : Set_) : gset string := Accounts s ∪ Contracts s.

Lemma addAccount_touched s id x :
  x ∈ touched (addAccount s id) ↔ x ∈ touched s ∨ strkey_encode VersionAccountID id = Some x.
Proof.
  unfold addAccount, touched. destruct (strkey_encode _ _) as [g|]; cbn; [|naive_solver].
  rewrite !elem_of_union, elem_of_singleton. naive_solver.
Qed.

Lemma addAddress_touched s a x :
  x ∈ touched (addAddress s a) ↔ x ∈ touched s ∨ recorded a = Some x.
Proof.
  destruct a as [key|id|id key|]; cbn [addAddress recorded]; [by apply addAccount_touched| | |naive_solver].
  - unfold touched. destruct (strkey_encode _ _) as [g|]; cbn; [|naive_solver].
    rewrite !elem_of_union, elem_of_singleton. naive_solver.
  - by apply addAccount_touched.
Qed.

(** Addresses inside a value, by what the value is. *)
Lemma inside_inv a v : inside a v ↔
  match v with
  | ScvAddress b => a = b
  | ScvVec (Some items) => ∃ w, w ∈ items ∧ inside a w
  | ScvMap (Some entries) => ∃ e, e ∈ entries ∧ (inside a e.1 ∨ inside a e.2)
  | _ => False
  end.
Proof.
  split.
  - intros []; naive_solver.
  - destruct v as [| | | | | | | | |[items|]|[entries|]|b| | | |]; try done.
    + intros (w & ? & ?). by eapply inside_vec.
    + intros (e & ? & [?|?]); [by eapply inside_key|by eapply inside_val].
    + intros <-. apply inside_here.
Qed.

(** A fold of steps each of which records what its element holds. *)
Lemma foldl_touched {A} (step : Set_ → A → Set_) (holds : A → string → Prop) (l : list A) x :
  (∀ y, y ∈ l → ∀ s, x ∈ touched (step s y) ↔ x ∈ touched s ∨ holds y x) →
  ∀ s, x ∈ touched (foldl step s l) ↔ x ∈ touched s ∨ ∃ y, y ∈ l ∧ holds y x.
Proof.
  induction l as [|y l IH]; intros H s; cbn [foldl].
  - split; [by left|]. intros [?|(y & Hy & _)]; [done|by apply elem_of_nil in Hy].
  - rewrite IH, H by (try (intros z Hz; apply H); by constructor).
    setoid_rewrite elem_of_cons. naive_solver.
Qed.

Fixpoint val_size (v : ScVal) : nat :=
  match v with
  | ScvVec (Some items) => S (foldr (λ i n, val_size i + n)%nat 0%nat items)
  | ScvMap (Some entries) => S (foldr (λ e n, val_size e.1 + val_size e.2 + n)%nat 0%nat entries)
  | _ => 1%nat
  end.

Lemma foldr_size_le {A} (f : A → nat) (l : list A) y : y ∈ l →
  (f y <= foldr (λ i n, f i + n)%nat 0%nat l)%nat.
Proof. induction 1 as [|z y l _ IH]; cbn [foldr]; lia. Qed.

Lemma walk_touched v s x :
  x ∈ touched (walk s v) ↔ x ∈ touched s ∨ ∃ a, inside a v ∧ recorded a = Some x.
Proof.
  revert s. induction v as [v IH] using (induction_ltof1 _ val_size). unfold ltof in IH. intros s.
  setoid_rewrite inside_inv.
  destruct v as [| | | | | | | | |[items|]|[entries|]|b| | | |]; cbn [walk]; try naive_solver.
  - rewrite (foldl_touched walk (λ y x, ∃ a, inside a y ∧ recorded a = Some x)); [naive_solver|].
    intros y Hy s'. apply IH. cbn [val_size]. pose proof (foldr_size_le val_size _ _ Hy). lia.
  - rewrite (foldl_touched _ (λ e x, ∃ a, (inside a e.1 ∨ inside a e.2) ∧ recorded a = Some x));
      [naive_solver|].
    intros e He s'. pose proof (foldr_size_le (λ e, val_size e.1 + val_size e.2)%nat _ _ He) as Hs.
    rewrite !IH by (cbn [val_size]; cbn beta in Hs; lia). naive_solver.
  - rewrite addAddress_touched. naive_solver.
Qed.

Lemma add_key_touched s k x :
  x ∈ touched (add_key s k) ↔ x ∈ touched s ∨ ∃ a, key_names a k ∧ recorded a = Some x.
Proof.
  assert (∀ id, key_names (AddressAccount id) k → (∀ a, key_names a k → a = AddressAccount id) →
    (x ∈ touched s ∨ strkey_encode VersionAccountID id = Some x) ↔
    (x ∈ touched s ∨ ∃ a, key_names a k ∧ recorded a = Some x)) as Hacc.
  { intros id H1 H2. split; (intros [?|H]; [by left|right]); [by exists (AddressAccount id)|].
    destruct H as (a & ->%H2 & H). exact H. }
  destruct k as [id|id c i|id|id|contract key d|h|i|t]; cbn [add_key];
    try (rewrite addAccount_touched; apply Hacc; [by constructor|by inversion 1]).
  - rewrite walk_touched, addAddress_touched. split.
    + intros [[?|?]|(a & ? & ?)]; [by left|right..].
      * exists contract. split; [constructor|done].
      * exists a. split; [by constructor|done].
    + intros [?|(a & Hk & ?)]; [by left; left|]. inversion Hk; subst; [by left; right|].
      right. by exists a.
  - split; [by left|]. intros [?|(a & Hk & _)]; [done|inversion Hk].
  - split; [by left|]. intros [?|(a & Hk & _)]; [done|inversion Hk].
  - split; [by left|]. intros [?|(a & Hk & _)]; [done|inversion Hk].
Qed.

Lemma addAccount_rest s id : Keys (addAccount s id) = Keys s ∧ Codes (addAccount s id) = Codes s.
Proof. unfold addAccount. by destruct (strkey_encode _ _). Qed.

Lemma addAddress_rest s a : Keys (addAddress s a) = Keys s ∧ Codes (addAddress s a) = Codes s.
Proof. destruct a; cbn [addAddress]; try apply addAccount_rest; try (by destruct (strkey_encode _ _)); done. Qed.

(** Recording addresses leaves the keys and the code hashes. *)
Lemma foldl_rest {A} (step : Set_ → A → Set_) (l : list A) :
  (∀ y, y ∈ l → ∀ s, Keys (step s y) = Keys s ∧ Codes (step s y) = Codes s) →
  ∀ s, Keys (foldl step s l) = Keys s ∧ Codes (foldl step s l) = Codes s.
Proof.
  induction l as [|y l IH]; intros H s; cbn [foldl]; [done|].
  destruct (H y (list_elem_of_here _ _) s) as [<- <-]. apply IH. intros z Hz. apply H. by right.
Qed.

Lemma walk_rest v s : Keys (walk s v) = Keys s ∧ Codes (walk s v) = Codes s.
Proof.
  revert s. induction v as [v IH] using (induction_ltof1 _ val_size). unfold ltof in IH. intros s.
  destruct v as [| | | | | | | | |[items|]|[entries|]|b| | | |]; cbn [walk]; try done.
  - apply foldl_rest. intros y Hy s'. apply IH. cbn [val_size].
    pose proof (foldr_size_le val_size _ _ Hy). lia.
  - apply foldl_rest. intros e He s'.
    pose proof (foldr_size_le (λ e, val_size e.1 + val_size e.2)%nat _ _ He) as Hs.
    destruct (IH e.2) with (s := walk s' e.1) as [-> ->]; [cbn [val_size]; cbn beta in Hs; lia|].
    apply IH. cbn [val_size]. cbn beta in Hs. lia.
  - apply addAddress_rest.
Qed.

Lemma add_key_Keys s k : Keys (add_key s k) = Keys s.
Proof.
  destruct k; cbn [add_key]; try apply addAccount_rest; try done.
  rewrite (proj1 (walk_rest _ _)). apply addAddress_rest.
Qed.

Lemma add_key_Codes s k h :
  h ∈ Codes (add_key s k) ↔ k = KeyContractCode h ∨ h ∈ Codes s.
Proof.
  destruct k; cbn [add_key]; rewrite ?(proj2 (walk_rest _ _)), ?(proj2 (addAddress_rest _ _)),
    ?(proj2 (addAccount_rest _ _)); try (split; [by right|by intros [|]]).
  cbn [Codes]. rewrite elem_of_union, elem_of_singleton. naive_solver.
Qed.

(** What [Parse] keeps of its keys, for any index started from. *)
Lemma parse_keys_spec keys s s' : parse_keys s keys = Ok s' →
  (∀ x, x ∈ touched s' ↔ x ∈ touched s ∨
     ∃ raw k a, raw ∈ keys ∧ unmarshal_key raw = Some k ∧ key_names a k ∧ recorded a = Some x) ∧
  (∀ e, e ∈ Keys s' ↔ e ∈ Keys s ∨ ∃ raw, raw ∈ keys ∧ e = base64_encode raw) ∧
  (∀ h, h ∈ Codes s' ↔ h ∈ Codes s ∨ ∃ raw, raw ∈ keys ∧ unmarshal_key raw = Some (KeyContractCode h)).
Proof.
  revert s. induction keys as [|raw keys IH]; intros s; cbn [parse_keys].
  - intros [= <-]. repeat split; (try by left); intros [?|H]; try done;
      destruct H as (? & H); [destruct H as (? & ? & H & _)|destruct H as [H _]..];
      by apply elem_of_nil in H.
  - rewrite bind_Ok. intros (s1 & H1 & H). destruct (IH _ H) as (IH1 & IH2 & IH3). clear IH H.
    unfold parse_key in H1. destruct (unmarshal_key raw) as [k|] eqn:Ek; [|done].
    injection H1 as <-. split; [|split].
    + intros x. rewrite IH1, add_key_touched. setoid_rewrite elem_of_cons.
      change (touched (mkSet _ (Accounts s) (Contracts s) _)) with (touched s). split.
      * intros [[?|(a & ? & ?)]|(r & k' & a & ? & ? & ? & ?)]; [by left|right..].
        -- exists raw, k, a. auto.
        -- exists r, k', a. auto.
      * intros [?|(r & k' & a & [->|?] & Hr & ? & ?)]; [by left; left|left; right|right].
        -- exists a. by replace k with k' by congruence.
        -- exists r, k', a. auto.
    + intros e. rewrite IH2, add_key_Keys. cbn [Keys]. setoid_rewrite elem_of_cons.
      rewrite elem_of_union, elem_of_singleton. naive_solver.
    + intros h. rewrite IH3, add_key_Codes. cbn [Codes]. setoid_rewrite elem_of_cons.
      split.
      * intros [[->|?]|(r & ? & ?)]; [right; exists raw; auto|by left|right; exists r; auto].
      * intros [?|(r & [->|?] & Hr)]; [by left; right| |right; exists r; auto].
        left. left. congruence.
Qed.

Lemma parse_keys_fails keys s : is_ok (parse_keys s keys) = true ↔
  ∀ raw, raw ∈ keys → is_Some (unmarshal_key raw).
Proof.
  revert s. induction keys as [|raw keys IH]; intros s; cbn [parse_keys].
  - split; [|done]. by intros _ raw ?%elem_of_nil.
  - unfold parse_key. setoid_rewrite elem_of_cons. destruct (unmarshal_key raw) as [k|] eqn:E.
    + cbn [mbind res_bind]. rewrite IH. split; [|by auto]. intros H r [->|?]; [by rewrite E|by apply H].
    + split; [done|]. intros H. destruct (H raw (or_introl eq_refl)) as [k Hk]. congruence.
Qed.

End freeze.

(** * Properties *)

(** The index of the frozen list answers for exactly what is frozen: an address is touched when
    it, or for a muxed address its account, is what a frozen key belongs to or is named anywhere
    inside a frozen contract data key, at any depth of its vectors and maps; a key is frozen when its
    encoding is in the list; a wasm hash when its code entry is; and an address that is none of the
    three kinds is not touched. The list is refused exactly when one of its keys does not decode. *)
Theorem freeze_index_is_exact {sdk : StellarSDK} (keys : list (list Z)) :
  (is_ok (Parse keys) = true ↔ ∀ raw, raw ∈ keys → is_Some (unmarshal_key raw)) ∧
  ∀ s, Parse keys = Ok s →
    (∀ address account, AccountOf address = Ok account →
       Touches s address = true ↔ ∃ raw k a, raw ∈ keys ∧ unmarshal_key raw = Some k ∧
         key_names a k ∧ recorded a = Some account) ∧
    (∀ address, is_ok (AccountOf address) = false → Touches s address = false) ∧
    (∀ k, Has s k = true ↔ ∃ raw frozen, marshal_key k = Some raw ∧ frozen ∈ keys ∧
       base64_encode raw = base64_encode frozen) ∧
    ∀ hash, hash ∈ Codes s ↔ ∃ raw, raw ∈ keys ∧ unmarshal_key raw = Some (KeyContractCode hash).
Proof.
  split; [apply parse_keys_fails|]. intros s H.
  destruct (parse_keys_spec _ _ _ H) as (H1 & H2 & H3). split; [|split; [|split]].
  - intros address account Ha. unfold Touches. rewrite Ha, orb_true_iff, !bool_decide_eq_true, <- elem_of_union.
    change (Accounts s ∪ Contracts s) with (touched s). rewrite H1.
    split; [|by right]. intros [[?%not_elem_of_empty|?%not_elem_of_empty]%elem_of_union|?]; done.
  - intros address Ha. unfold Touches. by destruct (AccountOf address).
  - intros k. unfold Has. destruct (marshal_key k) as [raw|].
    + rewrite bool_decide_eq_true, H2. split.
      * intros [?%not_elem_of_empty|(r & ? & ?)]; [done|]. by exists raw, r.
      * intros (r & frozen & [= <-] & ? & ?). right. by exists frozen.
    + split; [done|]. by intros (? & ? & ? & _).
  - intros h. rewrite H3. split; [intros [?%not_elem_of_empty|?]; done|by right].
Qed.

(** The example SDK with two ledger keys: the encoding [[1]] of a balance entry of contract 7 held by
    account 3, and [[2]] of the code with hash [[9]]. *)
Definition frozen_sdk : StellarSDK := example.sdk_keys []
  (λ raw, match raw with
    | [1] => Some (KeyContractData (AddressContract (be_bytes 32 7))
               (Vec [Symbol "Balance"; ScvAddress (AddressAccount (be_bytes 32 3))]) Persistent)
    | [2] => Some (KeyContractCode [9])
    | _ => None
    end)
  (λ k, match k with KeyContractCode _ => Some [2] | _ => Some [1] end).

Lemma freeze_witness : ∃ s, Parse (sdk := frozen_sdk) [[1]; [2]] = Ok s ∧
  Touches (sdk := frozen_sdk) s (example.account 3) = true ∧
  Has (sdk := frozen_sdk) s (KeyContractCode [9]) = true ∧ [9] ∈ Codes s.
Proof.
  destruct (freeze_index_is_exact (sdk := frozen_sdk) [[1]; [2]]) as [H1 H2].
  destruct (Parse (sdk := frozen_sdk) [[1]; [2]]) as [s|e] eqn:E.
  - exists s. destruct (H2 s eq_refl) as (H3 & _ & H4 & H5). split; [reflexivity|].
    split; [|split].
    + apply (H3 _ (example.account 3)); [vm_compute; reflexivity|].
      eexists [1], _, (AddressAccount (be_bytes 32 3)).
      split; [by left|]. split; [reflexivity|]. split; [|vm_compute; reflexivity].
      apply names_inside. eapply inside_vec; [right; left|apply inside_here].
    + apply H4. exists [2], [2]. split; [reflexivity|]. split; [right; left|reflexivity].
    + apply H5. exists [2]. split; [right; left|reflexivity].
  - exfalso. assert (false = true) as D; [|discriminate D]. apply H1.
    intros raw [->|[->|[]%elem_of_nil]%elem_of_cons]%elem_of_cons; eexists; reflexivity.
Defined.

End freeze.
