(* ===== verification/Fee.v ===== *)
(** The relayer's prices: the fee a cost makes ([Pricing]), the resource fee learned from confirmed
    relays ([Costs]) and the quotes a fee is accepted against ([quotes]), of
    [services/internal/relayer/fee.go]. A [big.Int] is a [Z] and a nil one [None]; an operation on a
    nil or by zero panics, which is [None] of its result. A time is its nanoseconds since the Unix
    epoch. *)
From S2P Require Import Prelude.

Module fee.

Definition second : Z := 1000000000.
Definition minute : Z := 60 * second.
Definition hour : Z := 60 * minute.

Definition Samples : Z := 50.
Definition QuoteLifetime : Z := 5 * minute.
Definition MaxMarginBps : Z := 1000.

(** ** Pricing *)

(** [Pricing] turns a cost in stroops into a fee in the pool asset. *)
Record Pricing : Type := mkPricing {
  Native : bool; PerStroopNum : option Z; PerStroopDen : option Z; MarginBps : Z; Tier : option Z }.

(** A pointer that is nil or holds a number that is not positive. *)
Definition not_positive (p : option Z) : bool :=
  match p with None => true | Some n => Z.sgn n <=? 0 end.

(** [Pricing.Validate] *)
Definition Validate (p : Pricing) : res unit :=
  _ ← fail_if ((MarginBps p <? 0) || (MaxMarginBps <? MarginBps p))
        (Sentinel "relayer: the margin must be between 0 and 1000 basis points");
  _ ← fail_if (not_positive (Tier p)) (Sentinel "relayer: the fee tier must be positive");
  fail_if (negb (Native p) && (not_positive (PerStroopNum p) || not_positive (PerStroopDen p)))
    (Sentinel "relayer: a non-native vault needs a price").

(** [ceilDiv]: [QuoRem] truncates, and panics on a zero divisor. *)
Definition ceilDiv (a b : Z) : option Z :=
  if b =? 0 then None
  else
    let q := Z.quot a b in let r := Z.rem a b in
    Some (if 0 <? Z.sgn r then q + 1 else q).

(** [Pricing.ToAsset] *)
Definition ToAsset (p : Pricing) (costStroops : Z) : option Z :=
  if negb (Native p) then
    num ← PerStroopNum p; den ← PerStroopDen p; ceilDiv (costStroops * num) den
  else Some costStroops.

(** [Pricing.QuoteAt]; the margin is an int64. *)
Definition QuoteAt (p : Pricing) (costStroops marginBps : Z) : option Z :=
  cost ← ToAsset p costStroops;
  let margin := Z.min marginBps MaxMarginBps in
  withMargin ← ceilDiv (cost * i64 (10000 + margin)) 10000;
  tier ← Tier p;
  n ← ceilDiv withMargin tier;
  Some (n * tier).

(** [Pricing.Quote] *)
Definition Quote (p : Pricing) (costStroops : Z) : option Z := QuoteAt p costStroops (MarginBps p).

(** ** Costs *)

Definition SampleMultiple : Z := 2.

(** [Costs] learns the resource fee from the relayer's own confirmed transactions. *)
Record Costs : Type := mkCosts { bootstrap : Z; samples : list Z }.

(** [sorted := slices.Clone(l); slices.Sort(sorted)] *)
Definition sorted (l : list Z) : list Z := merge_sort (≤) l.
(** [sorted[len(sorted)/2]], of a list that is not empty. *)
Definition median (l : list Z) : Z := default 0 (sorted l !! (length l / 2)%nat).
(** [l[len(l)-n:]], of a list at least that long. *)
Definition last_n {A} (n : Z) (l : list A) : list A := drop (length l - Z.to_nat n) l.

(** [Costs.Add] records the resource fee of a confirmed transaction. *)
Definition Add (c : Costs) (resourceFee : Z) : Costs :=
  if resourceFee <=? 0 then c
  else
    let reference :=
      if Samples <=? Z.of_nat (length (samples c)) then median (samples c) else bootstrap c in
    let s := samples c ++ [Z.min resourceFee (i64 (SampleMultiple * reference))] in
    mkCosts (bootstrap c) (if Samples <? Z.of_nat (length s) then last_n Samples s else s).

(** [NewCosts] starts from the stored samples, newest last, and the bootstrap value. *)
Definition NewCosts (bootstrap : Z) (stored : list Z) : Costs :=
  if Z.of_nat (length stored) <? Samples then foldl Add (mkCosts bootstrap []) stored
  else
    let stored := last_n Samples stored in
    let median := median stored in
    mkCosts bootstrap
      (omap (λ s, if 0 <? s then Some (Z.min s (i64 (SampleMultiple * median))) else None) stored).

(** [Costs.ResourceFee] is the p90 of the last 50 samples, or the bootstrap value before. *)
Definition ResourceFee (c : Costs) : Z :=
  if Z.of_nat (length (samples c)) <? Samples then bootstrap c
  else default 0 (sorted (samples c) !! ((length (samples c) * 9 + 9) / 10 - 1)%nat).

(** ** Quotes *)

(** [quoted] is one quote: the fee of a payment paid at once and of a queued one, if below the cap. *)
Record quoted : Type := mkQuoted { at_ : Z; qfee : Z; queued : option Z }.

(** [for i < len(l) && f(l[i]) { i++ }; l = l[i:]] *)
Fixpoint drop_while {A} (f : A → bool) (l : list A) : list A :=
  match l with
  | [] => []
  | x :: l' => if f x then drop_while f l' else l
  end.

(** [quotes.publish] on the history. *)
Definition publish (history : list quoted) (now fee : Z) (queued : option Z) : list quoted :=
  let cutoff := now - QuoteLifetime in
  drop_while (λ h, at_ h <? cutoff) (history ++ [mkQuoted now fee queued]).

(** [quotes.newest] returns the latest quote published since a time, with its queued fee. *)
Definition newest (history : list quoted) (since : Z) : option Z * option Z :=
  match last history with
  | Some h => if negb (at_ h <? since) then (Some (qfee h), queued h) else (None, None)
  | None => (None, None)
  end.

(** [quotes.lowestQueued] *)
Definition lowestQueued (history : list quoted) (now : Z) : option Z :=
  let cutoff := now - QuoteLifetime in
  foldl (λ low h,
    if negb (at_ h <? cutoff) then
      match queued h with
      | Some q =>
          match low with
          | None => Some q
          | Some l => if q <? l then Some q else low
          end
      | None => low
      end
    else low) None history.

(** [quotes.lowest] *)
Definition lowest (history : list quoted) (now : Z) : option Z :=
  let cutoff := now - QuoteLifetime in
  foldl (λ low h,
    if negb (at_ h <? cutoff) then
      match low with
      | None => Some (qfee h)
      | Some l => if qfee h <? l then Some (qfee h) else low
      end
    else low) None history.

(** * Specification *)

(** [m] is the smallest of [l], none when [l] is empty. *)
Definition is_least (m : option Z) (l : list Z) : Prop :=
  match m with None => l = [] | Some x => x ∈ l ∧ ∀ y, y ∈ l → x <= y end.

(** The fees quoted within the lifetime before [now], of every quote ever published. *)
Definition quoted_within (log : list quoted) (now : Z) : list quoted :=
  filter (λ h, now - QuoteLifetime <= at_ h) log.

(** A run of publications, with the log of all of them. *)
Definition run (log : list quoted) : list quoted :=
  foldl (λ h q, publish h (at_ q) (qfee q) (queued q)) [] log.

(** * Lemmas *)

(** ** Rounding *)

Lemma ceilDiv_pos a b : 0 <= a → 0 < b →
  ∃ q, ceilDiv a b = Some q ∧ 0 <= q ∧ a <= q * b ∧ (∀ q', a <= q' * b → q <= q').
Proof.
  intros Ha Hb. unfold ceilDiv. destruct (Z.eqb_spec b 0); [lia|]. cbv zeta.
  rewrite Z.quot_div_nonneg, Z.rem_mod_nonneg by lia.
  pose proof (Z.div_mod a b). pose proof (Z.mod_pos_bound a b Hb).
  eexists. split; [reflexivity|]. rewrite sgn_0_ltb. destruct (Z.ltb_spec 0 (a mod b)) as [Hs|Hs].
  - pose proof (Z.div_pos a b). split; [lia|]. split; [nia|]. nia.
  - assert (a mod b = 0) by lia.
    pose proof (Z.div_pos a b). split; [lia|]. split; [nia|]. nia.
Qed.

Definition valid_pricing (p : Pricing) : Prop := Validate p = Ok tt.

Lemma not_positive_false o : not_positive o = false ↔ ∃ n, o = Some n ∧ 0 < n.
Proof.
  destruct o as [n|]; cbn; [|naive_solver]. rewrite sgn_leb_0, Z.leb_gt. naive_solver.
Qed.

Lemma valid_pricing_inv p : valid_pricing p → 0 <= MarginBps p <= MaxMarginBps ∧
  (∃ t, Tier p = Some t ∧ 0 < t) ∧
  (Native p = false → ∃ n d, PerStroopNum p = Some n ∧ PerStroopDen p = Some d ∧ 0 < n ∧ 0 < d).
Proof.
  unfold valid_pricing, Validate. rewrite bind_Ok. intros (? & H1%fail_if_Ok & H).
  apply bind_Ok in H as (? & H2%fail_if_Ok & H3%fail_if_Ok).
  apply orb_false_iff in H1 as [H1 H1']. apply not_positive_false in H2.
  split; [lia|]. split; [done|]. intros Hn. rewrite Hn in H3. cbn [negb andb] in H3.
  apply orb_false_iff in H3 as [(n & ? & ?)%not_positive_false (d & ? & ?)%not_positive_false].
  eauto 10.
Qed.

(** The exact price of a cost: [cost * num / den], as a fraction. *)
Definition rate (p : Pricing) : Z * Z :=
  if Native p then (1, 1) else (default 1 (PerStroopNum p), default 1 (PerStroopDen p)).

Lemma ToAsset_spec p c : valid_pricing p → 0 <= c →
  ∃ a, ToAsset p c = Some a ∧ 0 <= a ∧ c * (rate p).1 <= a * (rate p).2 ∧
    ∀ a', c * (rate p).1 <= a' * (rate p).2 → a <= a'.
Proof.
  intros (_ & _ & Hr)%valid_pricing_inv Hc. unfold ToAsset, rate. destruct (Native p); cbn [negb fst snd].
  - exists c. split; [done|]. split; [done|]. split; [lia|]. intros; lia.
  - destruct (Hr eq_refl) as (n & d & -> & -> & Hn & Hd). cbn [mbind option_bind default fst snd].
    destruct (ceilDiv_pos (c * n) d) as (q & ? & ? & ? & ?); [nia|done|]. eauto.
Qed.

Lemma QuoteAt_spec p c m : valid_pricing p → 0 <= c → 0 <= m →
  ∃ a t q, ToAsset p c = Some a ∧ Tier p = Some t ∧ QuoteAt p c m = Some q ∧ 0 < t ∧
    (t | q) ∧ a * (10000 + Z.min m 1000) <= q * 10000 ∧
    ∀ q', (t | q') → a * (10000 + Z.min m 1000) <= q' * 10000 → q <= q'.
Proof.
  intros Hv Hc Hm. destruct (ToAsset_spec p c Hv Hc) as (a & Ha & Ha0 & _).
  destruct (valid_pricing_inv p Hv) as (_ & (t & Ht & Ht0) & _).
  unfold QuoteAt. rewrite Ha, Ht. cbn [mbind option_bind]. unfold MaxMarginBps.
  assert (i64 (10000 + Z.min m 1000) = 10000 + Z.min m 1000) as ->
    by (unfold i64, W64; rewrite Z.mod_small; lia).
  set (k := 10000 + Z.min m 1000). assert (10000 <= k <= 11000) by lia.
  destruct (ceilDiv_pos (a * k) 10000) as (w & -> & Hw0 & Hw1 & Hw2); [nia|lia|].
  cbn [mbind option_bind]. destruct (ceilDiv_pos w t) as (n & -> & Hn0 & Hn1 & Hn2); [done|done|].
  cbn [mbind option_bind]. exists a, t, (n * t). do 4 (split; [done|]).
  split; [by exists n|]. split; [lia|]. intros q' [n' ->] Hq.
  apply Z.mul_le_mono_nonneg_r; [lia|]. apply Hn2, Hw2. exact Hq.
Qed.

(** ** Sorted lists *)

Lemma sorted_perm l : sorted l ≡ₚ l.
Proof. apply merge_sort_Permutation. Qed.

Lemma sorted_sorted l : StronglySorted Z.le (sorted l).
Proof. apply StronglySorted_merge_sort; apply _. Qed.

Lemma sorted_length l : length (sorted l) = length l.
Proof. apply Permutation_length, sorted_perm. Qed.

Lemma filter_le_length {A} (P : A → Prop) `{∀ x, Decision (P x)} l :
  (length (filter P l) <= length l)%nat.
Proof. apply length_filter. Qed.

Lemma filter_all {A} (P : A → Prop) `{∀ x, Decision (P x)} l : Forall P l → filter P l = l.
Proof. induction 1 as [|x l Hx _ IH]; [done|]. rewrite filter_cons_True by done. by rewrite IH. Qed.

(** At most [i] elements of a sorted list are below its [i]-th. *)
Lemma sorted_below l i x h : StronglySorted Z.le l → l !! i = Some x → h < x →
  (length (filter (λ s, (s <= h)%Z) l) <= i)%nat.
Proof.
  intros Hs Hi Hx. revert i Hi. induction Hs as [|y l Hs IH Hy]; intros i Hi; [done|].
  destruct i as [|i]; cbn in Hi.
  - injection Hi as ->. rewrite filter_cons_False by lia.
    rewrite Forall_forall in Hy. enough (filter (λ s, (s <= h)%Z) l = []) as -> by done.
    apply elem_of_nil_inv. intros z [Hz Hl]%list_elem_of_filter. specialize (Hy z Hl). lia.
  - specialize (IH i Hi). rewrite filter_cons. destruct (decide (y <= h)); cbn; lia.
Qed.

(** At least [i + 1] elements of a sorted list are at most its [i]-th. *)
Lemma sorted_upto l i x : StronglySorted Z.le l → l !! i = Some x →
  (S i <= length (filter (λ s, (s <= x)%Z) l))%nat.
Proof.
  intros Hs. revert i. induction Hs as [|y l Hs IH Hy]; intros i Hi; [done|].
  assert (y <= x) as Hyx.
  { destruct i as [|i]; cbn in Hi; [injection Hi as ->; lia|].
    rewrite Forall_forall in Hy. apply Hy. by eapply list_elem_of_lookup_2. }
  rewrite filter_cons_True by done. destruct i as [|i]; cbn in *; [lia|]. specialize (IH i Hi). lia.
Qed.

(** More than [i] elements at most [h] put the [i]-th at most [h]. *)
Lemma sorted_bound l i h : (i < length (filter (λ s, (s <= h)%Z) l))%nat →
  ∃ x, sorted l !! i = Some x ∧ x <= h ∧ x ∈ l.
Proof.
  intros Hi. assert (i < length (sorted l))%nat as Hl.
  { rewrite sorted_length. eapply Nat.lt_le_trans; [done|apply filter_le_length]. }
  apply lookup_lt_is_Some in Hl as [x Hx]. exists x. split; [done|]. split.
  - destruct (Z.le_gt_cases x h) as [|Hg]; [done|].
    pose proof (sorted_below _ _ _ h (sorted_sorted l) Hx ltac:(lia)) as Hb.
    rewrite sorted_perm in Hb. lia.
  - rewrite <- sorted_perm. by eapply list_elem_of_lookup_2.
Qed.

(** At least [length l - i] elements of a sorted list are at least its [i]-th. *)
Lemma sorted_from l i x : StronglySorted Z.le l → l !! i = Some x →
  (length l - i <= length (filter (λ s, (x <= s)%Z) l))%nat.
Proof.
  intros Hs. revert i. induction Hs as [|y l Hs IH Hy]; intros i Hi; [done|].
  destruct i as [|i]; cbn in Hi.
  - injection Hi as ->. rewrite filter_all; [cbn; lia|].
    constructor; [lia|done].
  - specialize (IH i Hi). rewrite filter_cons. destruct (decide (x <= y)); cbn; lia.
Qed.

(** ** Costs *)

(** The window is full, its samples positive and at most [2 h], and all but [k] at most [h]. *)
Record lifted (h : Z) (k : nat) (c : Costs) : Prop := {
  l_full : length (samples c) = 50%nat;
  l_range : Forall (λ s, 0 < s <= 2 * h) (samples c);
  l_low : (50 - k <= length (filter (λ s, (s <= h)%Z) (samples c)))%nat;
}.

Lemma median_low h k c : lifted h k c → (k < 25)%nat →
  0 < median (samples c) <= h.
Proof.
  intros [Hl Hr Hf] Hk. unfold median. rewrite Hl. change (50 / 2)%nat with 25%nat.
  destruct (sorted_bound (samples c) 25 h) as (x & -> & Hx & Hin); [lia|].
  cbn [default from_option id]. rewrite Forall_forall in Hr. specialize (Hr x Hin). lia.
Qed.

Lemma i64_small z : - 2 ^ 63 <= z < 2 ^ 63 → i64 z = z.
Proof. intros H. unfold i64, W64. rewrite Z.mod_small; lia. Qed.

Lemma Add_lifted h k c fee : 0 < h < 2 ^ 61 → lifted h k c → (k < 25)%nat → lifted h (S k) (Add c fee).
Proof.
  intros Hh H Hk. pose proof (median_low h k c H Hk) as Hm. destruct H as [Hl Hr Hf]. unfold Add.
  destruct (Z.leb_spec fee 0); [by split; [..|lia]|]. cbv zeta. rewrite Hl.
  change (Samples <=? Z.of_nat 50) with true. cbn [samples].
  unfold SampleMultiple. rewrite i64_small by lia. set (x := Z.min fee (2 * median (samples c))).
  rewrite length_app, Hl. change (Samples <? Z.of_nat (50 + length [x])) with true.
  unfold last_n. rewrite length_app, Hl. change (50 + length [x] - Z.to_nat Samples)%nat with 1%nat.
  assert (0 < x <= 2 * h) as Hx by lia. destruct (samples c) as [|s l]; [done|].
  cbn [app drop]. rewrite drop_0. apply Forall_cons in Hr as [Hs Hr]. split; cbn [samples].
  - rewrite length_app. cbn in *. lia.
  - apply Forall_app. split; [done|by apply Forall_singleton].
  - rewrite filter_app, length_app. rewrite filter_cons in Hf.
    destruct (decide (s <= h)); cbn [length] in Hf; lia.
Qed.

Lemma Adds_lifted h fees k c : 0 < h < 2 ^ 61 → lifted h k c → (k + length fees <= 25)%nat →
  lifted h (k + length fees) (foldl Add c fees).
Proof.
  intros Hh. revert k c. induction fees as [|fee fees IH]; intros k c H Hk; cbn [foldl length].
  - by rewrite Nat.add_0_r.
  - cbn [length] in Hk. rewrite Nat.add_succ_r. apply (IH (S k)); [|lia].
    apply Add_lifted; [done|done|lia].
Qed.

(** The p90: the 45th of the sorted window. *)
Lemma ResourceFee_p90 c : length (samples c) = 50%nat →
  let f := ResourceFee c in f ∈ samples c ∧
  (45 <= length (filter (λ s, (s <= f)%Z) (samples c)))%nat ∧
  (6 <= length (filter (λ s, (f <= s)%Z) (samples c)))%nat.
Proof.
  intros Hl. cbv zeta. assert (is_Some (sorted (samples c) !! 44%nat)) as [x Hx].
  { apply lookup_lt_is_Some. rewrite sorted_length. lia. }
  assert (ResourceFee c = x) as ->.
  { unfold ResourceFee. rewrite Hl. change (Z.of_nat 50 <? Samples) with false.
    change ((50 * 9 + 9) / 10 - 1)%nat with 44%nat. by rewrite Hx. }
  split; [|split].
  - rewrite <- sorted_perm. by eapply list_elem_of_lookup_2.
  - rewrite <- (sorted_perm (samples c)) at 1. by eapply sorted_upto, Hx; apply sorted_sorted.
  - rewrite <- (sorted_perm (samples c)) at 1.
    pose proof (sorted_from _ _ _ (sorted_sorted (samples c)) Hx) as H.
    rewrite sorted_length, Hl in H. exact H.
Qed.

(** ** Quotes *)

Lemma is_least_fold {A} (f : A → option Z) (step : option Z → A → option Z) (l : list A) :
  (∀ low x, step low x = match f x with
     | Some q => match low with None => Some q | Some m => if q <? m then Some q else low end
     | None => low end) →
  is_least (foldl step None l) (omap f l).
Proof.
  intros Hs. enough (∀ pre low, is_least low pre → is_least (foldl step low l) (pre ++ omap f l)) as H
    by by apply (H []).
  induction l as [|x l IH]; intros pre low Hl; cbn [foldl].
  - change (omap f []) with (@nil Z). by rewrite app_nil_r.
  - change (omap f (x :: l)) with (match f x with Some y => y :: omap f l | None => omap f l end).
    rewrite Hs. destruct (f x) as [q|]; [|by apply IH].
    change (q :: omap f l) with ([q] ++ omap f l). rewrite app_assoc. apply IH.
    destruct low as [m|].
    + destruct Hl as [H1 H2]. destruct (Z.ltb_spec q m); split.
      * apply elem_of_app. right. by apply list_elem_of_singleton.
      * intros y [Hy|Hy%list_elem_of_singleton]%elem_of_app; [specialize (H2 y Hy); lia|lia].
      * apply elem_of_app. by left.
      * intros y [Hy|Hy%list_elem_of_singleton]%elem_of_app; [by apply H2|lia].
    + rewrite Hl. split; [by apply list_elem_of_singleton|].
      intros y Hy%list_elem_of_singleton. lia.
Qed.

Lemma omap_filter_some {A} (P : A → Prop) `{∀ x, Decision (P x)} (f : A → option Z) (l : list A) :
  omap (λ x, if decide (P x) then f x else None) l = omap f (filter P l).
Proof.
  induction l as [|x l IH]; [done|]. rewrite filter_cons. cbn. case_decide; cbn; by rewrite IH.
Qed.

Lemma drop_while_split {A} (f : A → bool) (l : list A) :
  ∃ pre, l = pre ++ drop_while f l ∧ Forall (λ x, f x = true) pre.
Proof.
  induction l as [|x l (pre & IH & Hp)]; [by exists []|]. cbn [drop_while].
  destruct (f x) eqn:E; [|by exists []].
  exists (x :: pre). split; [cbn; by rewrite <- IH|]. by constructor.
Qed.

(** What the history drops is past its lifetime. *)
Lemma run_suffix log now : (∀ q, q ∈ log → at_ q <= now) →
  ∃ old, log = old ++ run log ∧ Forall (λ h, at_ h < now - QuoteLifetime) old.
Proof.
  unfold run. induction log as [|q log IH] using rev_ind; intros Hn; [by exists []|].
  destruct IH as (old & Hlog & Hold); [intros r Hr; apply Hn, elem_of_app; by left|].
  rewrite foldl_app. cbn [foldl]. unfold publish at 1.
  set (h := foldl _ [] log) in *. destruct q as [at0 fee q0]. cbn [at_ qfee queued].
  destruct (drop_while_split (λ h, at_ h <? at0 - QuoteLifetime) (h ++ [mkQuoted at0 fee q0]))
    as (pre & Hpre & Hf).
  exists (old ++ pre). split.
  - rewrite <- app_assoc, <- Hpre. rewrite Hlog at 1. by rewrite app_assoc.
  - apply Forall_app. split; [done|]. eapply Forall_impl; [exact Hf|].
    intros x Hx%Z.ltb_lt. cbn beta. specialize (Hn (mkQuoted at0 fee q0)). cbn [at_] in Hn.
    enough (at0 <= now) by lia. apply Hn, elem_of_app. right. by apply list_elem_of_singleton.
Qed.

Lemma quoted_within_run log now : (∀ q, q ∈ log → at_ q <= now) →
  quoted_within (run log) now = quoted_within log now.
Proof.
  intros H. destruct (run_suffix log now H) as (old & Hlog & Hold).
  rewrite Hlog at 2. unfold quoted_within. rewrite filter_app.
  enough (filter (λ h, now - QuoteLifetime <= at_ h) old = []) as -> by done.
  clear Hlog. induction Hold as [|x old Hx _ IH]; [done|]. by rewrite filter_cons_False by lia.
Qed.

Lemma lowest_least h now : is_least (lowest h now) (map qfee (quoted_within h now)).
Proof.
  assert (∀ l, map qfee l = omap (λ x, Some (qfee x)) l) as ->.
  { induction l as [|x l IH]; [done|]. cbn. by rewrite IH. }
  unfold quoted_within. rewrite <- omap_filter_some. apply is_least_fold. intros low x. cbv beta.
  destruct (Z.ltb_spec (at_ x) (now - QuoteLifetime)); cbn [negb];
    destruct (decide (now - QuoteLifetime <= at_ x)); try lia; done.
Qed.

Lemma lowestQueued_least h now : is_least (lowestQueued h now) (omap queued (quoted_within h now)).
Proof.
  unfold quoted_within. rewrite <- omap_filter_some. apply is_least_fold. intros low x. cbv beta.
  destruct (Z.ltb_spec (at_ x) (now - QuoteLifetime)); cbn [negb];
    destruct (decide (now - QuoteLifetime <= at_ x)); try lia; done.
Qed.

(** * Properties *)

(** A quote is rounded up and no further: for a validated pricing, a cost and a margin that are
    not negative, it is the least multiple of the tier at or above the cost with the margin, capped
    at ten percent, where the cost in the asset is itself the least number of units the exchange
    rate allows; so it never is below the cost, never panics, and a dearer relay never quotes
    less. *)
Theorem quote_is_least_multiple (p : Pricing) (cost margin : Z) (Hp : valid_pricing p)
    (Hc : 0 <= cost) (Hm : 0 <= margin) :
  ∃ asset tier quote, ToAsset p cost = Some asset ∧ Tier p = Some tier ∧
    QuoteAt p cost margin = Some quote ∧
    cost * (rate p).1 <= asset * (rate p).2 ∧
    (∀ a, cost * (rate p).1 <= a * (rate p).2 → asset <= a) ∧
    (tier | quote) ∧ asset * (10000 + Z.min margin 1000) <= quote * 10000 ∧ asset <= quote ∧
    (∀ q, (tier | q) → asset * (10000 + Z.min margin 1000) <= q * 10000 → quote <= q) ∧
    ∀ dearer quote', cost <= dearer → QuoteAt p dearer margin = Some quote' → quote <= quote'.
Proof.
  destruct (QuoteAt_spec p cost margin Hp Hc Hm) as (a & t & q & Ha & Ht & Hq & Ht0 & Hd & Hle & Hl).
  destruct (ToAsset_spec p cost Hp Hc) as (a' & Ha' & Ha0 & Hr & Hrl).
  assert (a' = a) as -> by congruence. exists a, t, q.
  do 5 (split; [done|]). split; [done|]. split; [done|]. split; [nia|]. split; [done|].
  intros d q' Hcd Hq'.
  destruct (QuoteAt_spec p d margin Hp ltac:(lia) Hm) as (b & t' & q1 & Hb & Ht' & Hq1 & _ & Hd1 & Hle1 & _).
  assert (q1 = q') as -> by congruence. assert (t' = t) as -> by congruence.
  apply Hl; [done|]. enough (a <= b) by nia. apply Hrl.
  destruct (ToAsset_spec p d Hp ltac:(lia)) as (b' & Hb' & _ & Hrb & _).
  assert (b' = b) as -> by congruence. assert (0 < (rate p).1).
  { unfold rate. destruct (Native p) eqn:En; [done|].
    destruct (valid_pricing_inv p Hp) as (_ & _ & Hn). destruct (Hn En) as (n & ? & -> & _ & ? & _).
    done. }
  nia.
Qed.

Lemma quote_witness : ∃ a t q,
  ToAsset (mkPricing false (Some 7) (Some 100) 250 (Some 50)) 100001 = Some a ∧
  Tier (mkPricing false (Some 7) (Some 100) 250 (Some 50)) = Some t ∧
  QuoteAt (mkPricing false (Some 7) (Some 100) 250 (Some 50)) 100001 250 = Some q ∧ (t | q) ∧ a <= q.
Proof.
  destruct (quote_is_least_multiple (mkPricing false (Some 7) (Some 100) 250 (Some 50)) 100001 250)
    as (a & t & q & H1 & H2 & H3 & _ & _ & H6 & _ & H8 & _); [reflexivity|lia|lia|].
  exists a, t, q. split; [exact H1|]. split; [exact H2|]. split; [exact H3|]. split; [exact H6|exact H8].
Defined.

(** Clients cannot lift the price at will: once fifty samples are learned, none above [h], any
    25 further confirmed relays, however dear, leave the learned resource fee positive and at most
    twice [h], since none of them can move the median; and the fee is always the p90 of the window,
    an element of it with 45 samples at or below it and 6 at or above. *)
Theorem learned_fee_is_bounded (c : Costs) (h : Z) (fees : list Z) (Hh : 0 < h < 2 ^ 61)
    (Hc : length (samples c) = 50%nat) (Hs : Forall (λ s, 0 < s <= h) (samples c))
    (Hf : (length fees <= 25)%nat) :
  let c' := foldl Add c fees in let fee := ResourceFee c' in
  0 < fee <= 2 * h ∧ length (samples c') = 50%nat ∧ fee ∈ samples c' ∧
  (45 <= length (filter (λ s, (s <= fee)%Z) (samples c')))%nat ∧
  (6 <= length (filter (λ s, (fee <= s)%Z) (samples c')))%nat.
Proof.
  intros c' fee. assert (lifted h (0 + length fees) c') as [Hl Hr _].
  { apply Adds_lifted; [done| |done]. split; [done| |].
    - eapply Forall_impl; [exact Hs|]. cbn. lia.
    - rewrite filter_all; [lia|]. eapply Forall_impl; [exact Hs|]. cbn. lia. }
  destruct (ResourceFee_p90 c' Hl) as (H1 & H2 & H3). split; [|done].
  rewrite Forall_forall in Hr. by apply Hr.
Qed.

Lemma learned_fee_witness : let c := mkCosts 70 (replicate 50 100) in
  0 < ResourceFee (foldl Add c (replicate 25 1000000)) <= 200 ∧
  ResourceFee (foldl Add c (replicate 25 1000000)) = 200.
Proof.
  split; [|vm_compute; reflexivity].
  apply (learned_fee_is_bounded (mkCosts 70 (replicate 50 100)) 100 (replicate 25 1000000));
    [lia|reflexivity| |cbn; lia].
  apply Forall_replicate. lia.
Defined.

(** The quotes' pruned history answers as the full log of publications would: while time does
    not go back, the fee a request is held against is the lowest published within the last five
    minutes, none when nothing was, and the same for queued payments; so a fee quoted within the
    lifetime is never found too low. *)
Theorem quotes_answer_for_the_lifetime (log : list quoted) (now : Z)
    (Ht : ∀ q, q ∈ log → at_ q <= now) :
  is_least (lowest (run log) now) (map qfee (quoted_within log now)) ∧
  is_least (lowestQueued (run log) now) (omap queued (quoted_within log now)) ∧
  ∀ q, q ∈ log → now - QuoteLifetime <= at_ q →
    (∃ low, lowest (run log) now = Some low ∧ low <= qfee q) ∧
    ∀ fee, queued q = Some fee → ∃ low, lowestQueued (run log) now = Some low ∧ low <= fee.
Proof.
  pose proof (lowest_least (run log) now) as H1.
  pose proof (lowestQueued_least (run log) now) as H2.
  rewrite quoted_within_run in H1, H2 by done. split; [done|]. split; [done|].
  intros q Hq Hat. assert (q ∈ quoted_within log now) as Hw by by apply list_elem_of_filter.
  split.
  - apply (list_elem_of_fmap_2 qfee) in Hw.
    change (qfee q ∈ map qfee (quoted_within log now)) in Hw. destruct (lowest (run log) now) as [m|].
    + exists m. split; [done|]. by apply H1.
    + cbn in H1. rewrite H1 in Hw. by apply elem_of_nil in Hw.
  - intros fee Hfee. assert (fee ∈ omap queued (quoted_within log now)) as Hin
      by (apply list_elem_of_omap; eauto).
    destruct (lowestQueued (run log) now) as [m|].
    + exists m. split; [done|]. by apply H2.
    + cbn in H2. rewrite H2 in Hin. by apply elem_of_nil in Hin.
Qed.

Lemma quotes_witness :
  let log := [mkQuoted 0 90 (Some 120); mkQuoted (4 * minute) 100 None;
              mkQuoted (6 * minute) 110 (Some 130)] in
  is_least (lowest (run log) (6 * minute)) (map qfee (quoted_within log (6 * minute))) ∧
  lowest (run log) (6 * minute) = Some 100.
Proof.
  intros log. split; [|vm_compute; reflexivity].
  refine (proj1 (quotes_answer_for_the_lifetime log (6 * minute) _)).
  apply Forall_forall. unfold log.
  repeat apply Forall_cons_2; [vm_compute; discriminate..|apply Forall_nil_2].
Defined.

End fee.
