(* ===== verification/Guard.v ===== *)
(** What the relayer remembers to refuse requests without paying for them:
    [services/internal/relayer/guard.go]. Cooldowns rest the notes and destinations of relays that
    failed, the spent set holds nullifiers known to be spent, verdicts answer a refused proof from
    memory, breakers pause after a burst of failures, outcomes give the failure rate a quote carries,
    and the clock keeps the close times of recent ledgers.

    A nil map reads as an empty one, and every write makes it first, so a map is never nil here. A
    Unix time is in seconds, a [time.Time] in nanoseconds; [ledgerClock.pace] and [ledgerAt] compute
    in floating point and are parameters where they are used. *)
From S2P Require Import Prelude.
From S2P Require Import Fr.
From S2P Require Import Fee.

Module guard.

(** [t.Sub(u)] saturates at the largest and smallest Duration. *)
Definition Sub (t u : Z) : Z :=
  Z.max (-9223372036854775808) (Z.min 9223372036854775807 (t - u)).

(** ** Cooldowns *)

(** [cooldowns]: until when a key is refused, and a destination's failures in a row. *)
Record cooldowns : Type := mkCooldowns { until : gmap string Z; strikes : gmap string Z }.

Definition no_cooldowns : cooldowns := mkCooldowns ∅ ∅.

Definition nullifierKey (hex : string) : string := "nullifier:" ++ hex.
Definition destinationKey (address : string) : string := "destination:" ++ address.

Definition strikeMemory : Z := 24 * 60 * 60.

(** [destinationRest]: ten minutes, doubling up to a day. *)
Definition destinationRest (n : Z) : Z :=
  Z.min (Z.shiftl (10 * fee.minute) (Z.min (Z.max n 1 - 1) 8)) (24 * fee.hour).

(** The value a Go map of numbers gives for a key, 0 when it is absent. *)
Definition get (m : gmap string Z) (k : string) : Z := default 0 (m !! k).

(** [cooldowns.add] *)
Definition add (c : cooldowns) (keys : list string) (u : Z) : cooldowns :=
  mkCooldowns (foldl (λ m k, <[k := Z.max (get m k) u]> m) (until c) keys) (strikes c).

(** [cooldowns.restore] *)
Definition restore (c : cooldowns) (key : string) (u s : Z) : cooldowns :=
  mkCooldowns (<[key := Z.max (get (until c) key) u]> (until c))
    (<[key := Z.max (get (strikes c) key) s]> (strikes c)).

(** [cooldowns.strike] returns the end of the rest and the strikes counted. *)
Definition strike (c : cooldowns) (key : string) (now : Z) : cooldowns * (Z * Z) :=
  let n :=
    match until c !! key with
    | Some u => if now <? i64 (u + strikeMemory) then get (strikes c) key + 1 else 1
    | None => 1
    end in
  let u := Z.max (get (until c) key) (i64 (now + destinationRest n / fee.second)) in
  (mkCooldowns (<[key := u]> (until c)) (<[key := n]> (strikes c)), (u, n)).

(** One turn of the loop of [cooling]: the cooldowns, and whether a key is still refused. *)
Definition cooling_turn (now : Z) (st : cooldowns * bool) (k : string) : cooldowns * bool :=
  let '(c, hit) := st in
  match until c !! k with
  | None => (c, hit)
  | Some u =>
      if now <? u then (c, true)
      else if i64 (u + strikeMemory) <=? now then
        (mkCooldowns (delete k (until c)) (delete k (strikes c)), hit)
      else (c, hit)
  end.

(** [cooldowns.cooling] *)
Definition cooling (c : cooldowns) (now : Z) (keys : list string) : cooldowns * bool :=
  foldl (cooling_turn now) (c, false) keys.

(** ** The spent set *)

Record spentSet : Type := mkSpent { smax : Z; seen : gset fr.Element; order : list fr.Element }.

Definition no_spent (max : Z) : spentSet := mkSpent max ∅ [].

(** One turn of the loop of [spentSet.add]. *)
Definition spent_turn (s : spentSet) (nf : fr.Element) : spentSet :=
  if bool_decide (nf ∈ seen s) then s
  else mkSpent (smax s) ({[nf]} ∪ seen s) (order s ++ [nf]).

(** [if over := len(order)-max; max > 0 && over > 0], the end of [spentSet.add]. *)
Definition spent_trim (s : spentSet) : spentSet :=
  let over := Z.of_nat (length (order s)) - smax s in
  if (0 <? smax s) && (0 <? over) then
    let dropped := take (Z.to_nat over) (order s) in
    mkSpent (smax s) (foldl (λ m nf, m ∖ {[nf]}) (seen s) dropped) (drop (Z.to_nat over) (order s))
  else s.

(** [spentSet.add] *)
Definition spent_add (s : spentSet) (nfs : list fr.Element) : spentSet :=
  spent_trim (foldl spent_turn s nfs).

(** [spentSet.any] *)
Definition spent_any (s : spentSet) (nfs : fr.Element * fr.Element) : bool :=
  bool_decide (nfs.1 ∈ seen s) || bool_decide (nfs.2 ∈ seen s).

(** ** Verdicts *)

(** [failure] is an API error of relayer.go. *)
Record failure : Type := mkFailure {
  status : Z; code : string; reason : option Z; networkFee : option Z; settled : bool }.

Record verdict : Type := mkVerdict { vf : failure; vat : Z }.

(** [verdicts] by the 32-byte digest of a proof or of a statement. *)
Record verdicts : Type := mkVerdicts {
  ttl : Z; vmax : Z; by_ : gmap (list Z) verdict; vorder : list (list Z) }.

Definition no_verdicts (ttl max : Z) : verdicts := mkVerdicts ttl max ∅ [].

(** [if over := len(order)-max; max > 0 && over > 0], the end of [verdicts.remember]. *)
Definition verdict_trim (v : verdicts) : verdicts :=
  let over := Z.of_nat (length (vorder v)) - vmax v in
  if (0 <? vmax v) && (0 <? over) then
    let dropped := take (Z.to_nat over) (vorder v) in
    mkVerdicts (ttl v) (vmax v) (foldl (λ m k, delete k m) (by_ v) dropped)
      (drop (Z.to_nat over) (vorder v))
  else v.

(** [verdicts.remember] *)
Definition remember (v : verdicts) (key : list Z) (f : failure) (now : Z) : verdicts :=
  let order :=
    match by_ v !! key with Some _ => vorder v | None => vorder v ++ [key] end in
  verdict_trim (mkVerdicts (ttl v) (vmax v) (<[key := mkVerdict f now]> (by_ v)) order).

(** [verdicts.recall] *)
Definition recall (v : verdicts) (key : list Z) (now : Z) : option failure :=
  match by_ v !! key with
  | Some r => if Sub now (vat r) <? ttl v then Some (vf r) else None
  | None => None
  end.

(** ** Breakers *)

Record breaker : Type := mkBreaker {
  failures : Z; window : Z; pause : Z; recent : list Z; openUntil : Z }.

(** The zero [time.Time], the first of January of the year 1. *)
Definition zero_time : Z := - 62135596800 * fee.second.

Definition new_breaker (failures window pause : Z) : breaker :=
  mkBreaker failures window pause [] zero_time.

(** [breaker.failed] records a failure and reports whether it opened the breaker. *)
Definition failed (b : breaker) (now : Z) : breaker * bool :=
  let keep := filter (λ t, Is_true (Sub now t <? window b)) (recent b) in
  let recent := keep ++ [now] in
  if (failures b <=? 0) || (Z.of_nat (length recent) <? failures b) || (now <? openUntil b) then
    (mkBreaker (failures b) (window b) (pause b) recent (openUntil b), false)
  else (mkBreaker (failures b) (window b) (pause b) [] (now + pause b), true).

(** [breaker.open] *)
Definition open (b : breaker) (now : Z) : bool := now <? openUntil b.

(** ** Outcomes *)

Definition outcomeSamples : Z := 200.

(** [outcomes.add] on the relays remembered. *)
Definition outcomes_add (last : list bool) (success : bool) : list bool :=
  let last := last ++ [success] in
  if outcomeSamples <? Z.of_nat (length last) then fee.last_n outcomeSamples last else last.

(** [outcomes.failureBps] *)
Definition failureBps (last : list bool) : Z :=
  let failed := foldl (λ n ok, if negb ok then n + 1 else n) 0 last in
  failed * 10000 / Z.max (Z.of_nat (length last)) 100.

(** ** The ledger clock *)

Record ledgerSample : Type := mkSample { ledger : Z; closed : Z }.

Definition clockSpan : Z := 30 * 60.

(** [for len(samples) > 2 && at-samples[0].at > clockSpan { samples = samples[1:] }] *)
Fixpoint clock_trim (at_ : Z) (samples : list ledgerSample) : list ledgerSample :=
  match samples with
  | s :: rest =>
      if (2 <? Z.of_nat (length samples)) && (clockSpan <? i64 (at_ - closed s)) then
        clock_trim at_ rest
      else samples
  | [] => []
  end.

(** [ledgerClock.observe] on the samples. *)
Definition observe (samples : list ledgerSample) (l at_ : Z) : list ledgerSample :=
  match last samples with
  | Some s =>
      if l <=? ledger s then samples else clock_trim at_ (samples ++ [mkSample l at_])
  | None => clock_trim at_ (samples ++ [mkSample l at_])
  end.

(** * Specification *)

(** The operations on the cooldowns, and a run of them. *)
Inductive cool_op : Type :=
| OpAdd (keys : list string) (u : Z)
| OpRestore (key : string) (u s : Z)
| OpStrike (key : string) (now : Z)
| OpCooling (now : Z) (keys : list string).

Definition cool_step (c : cooldowns) (op : cool_op) : cooldowns :=
  match op with
  | OpAdd keys u => add c keys u
  | OpRestore key u s => restore c key u s
  | OpStrike key now => (strike c key now).1
  | OpCooling now keys => (cooling c now keys).1
  end.

(** A key rests at least until [u]. *)
Definition rested (c : cooldowns) (k : string) (u : Z) : Prop := ∃ u', until c !! k = Some u' ∧ u <= u'.

(** The last verdict remembered under a key, of all that ever were. *)
Definition last_verdict (log : list (list Z * failure * Z)) (key : list Z) : option verdict :=
  foldl (λ r e, if decide (e.1.1 = key) then Some (mkVerdict e.1.2 e.2) else r) None log.

Definition remember_all (ttl max : Z) (log : list (list Z * failure * Z)) : verdicts :=
  foldl (λ v e, remember v e.1.1 e.1.2 e.2) (no_verdicts ttl max) log.

(** A breaker that forgets nothing: all failures since it last opened, and until when it is open. *)
Definition burst (f w p : Z) (st : list Z * Z) (now : Z) : (list Z * Z) * bool :=
  let since := st.1 ++ [now] in
  if (0 <? f) && (f <=? Z.of_nat (length (filter (λ t, now - t < w) since))) && (st.2 <=? now)
  then (([], now + p), true) else ((since, st.2), false).

(** The answers of a run of failures, of the breaker and of the one that forgets nothing. *)
Fixpoint failed_run (b : breaker) (times : list Z) : list bool :=
  match times with
  | [] => []
  | t :: times => (failed b t).2 :: failed_run (failed b t).1 times
  end.

Fixpoint burst_run (f w p : Z) (st : list Z * Z) (times : list Z) : list bool :=
  match times with
  | [] => []
  | t :: times => (burst f w p st t).2 :: burst_run f w p (burst f w p st t).1 times
  end.

(** * Lemmas *)

(** ** Cooldowns *)

Lemma rested_insert c k u k' v : rested c k u → (k = k' → u <= v) →
  ∀ st, rested (mkCooldowns (<[k' := v]> (until c)) st) k u.
Proof.
  intros (u' & Hu & Hle) Hv st. unfold rested. cbn [until]. destruct (decide (k = k')) as [->|Hn].
  - exists v. rewrite lookup_insert_eq. auto.
  - exists u'. by rewrite lookup_insert_ne.
Qed.

Lemma get_rested c k u : rested c k u → u <= get (until c) k.
Proof. intros (u' & Hu & Hle). unfold get. by rewrite Hu. Qed.

Lemma add_rested c keys u : (∀ k v, rested c k v → rested (add c keys u) k v) ∧
  ∀ k, k ∈ keys → rested (add c keys u) k u.
Proof.
  unfold add. destruct c as [m st]. cbn [until strikes]. revert m.
  induction keys as [|k' keys IH]; intros m; cbn [foldl].
  - split; [done|]. by intros k ?%elem_of_nil.
  - destruct (IH (<[k' := Z.max (get m k') u]> m)) as [IH1 IH2]. split.
    + intros k v Hr. apply IH1. apply (rested_insert (mkCooldowns m st)); [done|].
      intros ->. apply get_rested in Hr. cbn [until] in Hr. lia.
    + intros k [->|Hk]%elem_of_cons; [|by apply IH2]. apply IH1.
      eexists. cbn [until]. rewrite lookup_insert_eq. split; [done|lia].
Qed.

(** A rested key is not forgotten within a day of its rest. *)
Lemma cooling_turn_rested now c hit k k' u : rested c k u → 0 <= u → now < u + strikeMemory →
  now < 2 ^ 62 → rested (cooling_turn now (c, hit) k').1 k u.
Proof.
  intros (u' & Hu & Hle) H0 Hn Hb. unfold cooling_turn.
  destruct (until c !! k') as [v|] eqn:Ev; [|by exists u'].
  destruct (Z.ltb_spec now v); [by exists u'|].
  destruct (Z.leb_spec (i64 (v + strikeMemory)) now); [|by exists u'].
  cbn [fst]. unfold rested. cbn [until]. destruct (decide (k = k')) as [->|Hk].
  - assert (v = u') as -> by congruence. unfold strikeMemory in *.
    rewrite fee.i64_small in * by lia. lia.
  - exists u'. by rewrite lookup_delete_ne.
Qed.

Lemma cooling_rested now keys c hit k u : rested c k u → 0 <= u → now < u + strikeMemory →
  now < 2 ^ 62 → rested (foldl (cooling_turn now) (c, hit) keys).1 k u.
Proof.
  intros Hr H0 Hn Hb. revert c hit Hr. induction keys as [|k' keys IH]; intros c hit Hr; [done|].
  cbn [foldl]. pose proof (cooling_turn_rested now c hit k k' u Hr H0 Hn Hb) as H.
  destruct (cooling_turn now (c, hit) k') as [c' hit']. by apply IH.
Qed.

Lemma cooling_hit_stays now keys c : (foldl (cooling_turn now) (c, true) keys).2 = true.
Proof.
  revert c. induction keys as [|k keys IH]; intros c; [done|]. cbn [foldl]. unfold cooling_turn at 2.
  destruct (until c !! k) as [u|]; [|apply IH]. destruct (now <? u); [apply IH|].
  destruct (_ <=? now); apply IH.
Qed.

Lemma cooling_hits now keys c hit k u : rested c k u → now < u → 0 <= u → now < 2 ^ 62 → k ∈ keys →
  (foldl (cooling_turn now) (c, hit) keys).2 = true.
Proof.
  intros Hr Hn H0 Hb. revert c hit Hr. induction keys as [|k' keys IH]; intros c hit Hr Hk.
  - by apply elem_of_nil in Hk.
  - cbn [foldl]. apply elem_of_cons in Hk as [<-|Hk].
    + destruct Hr as (u' & Hu & Hle). unfold cooling_turn at 2. rewrite Hu.
      destruct (Z.ltb_spec now u'); [|lia]. apply cooling_hit_stays.
    + pose proof (cooling_turn_rested now c hit k k' u Hr H0 ltac:(unfold strikeMemory; lia) Hb) as H.
      destruct (cooling_turn now (c, hit) k') as [c' hit']. by apply IH.
Qed.

(** Only a key that rests past [now] refuses. *)
Lemma cooling_only now keys c hit : (foldl (cooling_turn now) (c, hit) keys).2 = true →
  hit = true ∨ ∃ k u, k ∈ keys ∧ until c !! k = Some u ∧ now < u.
Proof.
  revert c hit. induction keys as [|k keys IH]; intros c hit H; cbn [foldl] in H; [by left|].
  unfold cooling_turn at 2 in H. setoid_rewrite elem_of_cons.
  destruct (until c !! k) as [u|] eqn:Eu.
  - destruct (Z.ltb_spec now u); [right; exists k, u; auto|].
    destruct (i64 (u + strikeMemory) <=? now).
    + destruct (IH _ _ H) as [?|(k' & u' & Hk & Hu & ?)]; [by left|right].
      cbn [until] in Hu. apply lookup_delete_Some in Hu as [_ Hu]. exists k', u'. auto.
    + destruct (IH _ _ H) as [?|(k' & u' & ? & ? & ?)]; [by left|right]. exists k', u'. auto.
  - destruct (IH _ _ H) as [?|(k' & u' & ? & ? & ?)]; [by left|right]. exists k', u'. auto.
Qed.

Lemma strike_rested c key now : let '(c', (u, n)) := strike c key now in
  rested c' key u ∧ (∀ k v, rested c k v → rested c' k v) ∧ i64 (now + destinationRest n / fee.second) <= u.
Proof.
  unfold strike. cbv zeta. split; [|split; [|lia]].
  - eexists. cbn [until]. rewrite lookup_insert_eq. split; [done|lia].
  - intros k v Hr. apply (rested_insert c); [done|]. intros ->. apply get_rested in Hr. lia.
Qed.

Lemma cool_step_rested c op k u : rested c k u → 0 <= u →
  (∀ now keys, op = OpCooling now keys → now < u + strikeMemory ∧ now < 2 ^ 62) →
  rested (cool_step c op) k u.
Proof.
  intros Hr H0 Hop. destruct op as [keys v|key v s|key now|now keys]; cbn [cool_step].
  - by apply add_rested.
  - unfold restore. apply (rested_insert c); [done|]. intros ->. apply get_rested in Hr. lia.
  - pose proof (strike_rested c key now) as H. destruct (strike c key now) as [c' [v n]].
    destruct H as (_ & H & _). by apply H.
  - destruct (Hop now keys eq_refl). by apply cooling_rested.
Qed.

Lemma destinationRest_range n : 600 <= destinationRest n / fee.second <= 86400.
Proof.
  unfold destinationRest. set (k := Z.min (Z.max n 1 - 1) 8). assert (0 <= k <= 8) as Hk by lia.
  rewrite Z.shiftl_mul_pow2 by lia.
  assert (k = 0 ∨ k = 1 ∨ k = 2 ∨ k = 3 ∨ k = 4 ∨ k = 5 ∨ k = 6 ∨ k = 7 ∨ k = 8) as Hc by lia.
  repeat destruct Hc as [->|Hc]; [vm_compute; split; discriminate..|].
  rewrite Hc. vm_compute. split; discriminate.
Qed.

(** ** Bounded memories *)

(** The oldest entries beyond the bound go, from an order without duplicates. *)
Lemma take_drop_NoDup {A} (l : list A) n x : NoDup l →
  x ∈ drop n l ↔ x ∈ l ∧ x ∉ take n l.
Proof.
  intros Hn. rewrite <- (take_drop n l) in Hn at 1. apply NoDup_app in Hn as (_ & Hd & _).
  rewrite <- (take_drop n l) at 2. rewrite elem_of_app. split.
  - intros H. split; [by right|]. intros Ht. by apply (Hd x).
  - intros [[?|?] ?]; done.
Qed.

Lemma foldl_difference (l : list fr.Element) (X : gset fr.Element) x :
  x ∈ foldl (λ m nf, m ∖ {[nf]}) X l ↔ x ∈ X ∧ x ∉ l.
Proof.
  revert X. induction l as [|y l IH]; intros X; cbn [foldl].
  - split; [|by intros []]. intros H. split; [done|apply not_elem_of_nil].
  - rewrite IH, elem_of_difference, elem_of_singleton, not_elem_of_cons. tauto.
Qed.

Lemma foldl_delete {V} (l : list (list Z)) (m : gmap (list Z) V) k v :
  foldl (λ m k, delete k m) m l !! k = Some v ↔ m !! k = Some v ∧ k ∉ l.
Proof.
  revert m. induction l as [|y l IH]; intros m; cbn [foldl].
  - split; [|by intros []]. intros H. split; [done|apply not_elem_of_nil].
  - rewrite IH, lookup_delete_Some, not_elem_of_cons. naive_solver.
Qed.

Record spent_ok (s : spentSet) : Prop := {
  so_set : ∀ x, x ∈ seen s ↔ x ∈ order s;
  so_nodup : NoDup (order s);
  so_bound : 0 < smax s → Z.of_nat (length (order s)) <= smax s;
}.

Record turned (s s' : spentSet) (nfs : list fr.Element) : Prop := {
  t_max : smax s' = smax s;
  t_set : ∀ x, x ∈ seen s' ↔ x ∈ order s';
  t_nodup : NoDup (order s');
  t_all : ∀ x, x ∈ order s' ↔ x ∈ order s ∨ x ∈ nfs;
}.

Lemma spent_turns s nfs : (∀ x, x ∈ seen s ↔ x ∈ order s) → NoDup (order s) →
  turned s (foldl spent_turn s nfs) nfs.
Proof.
  revert s. induction nfs as [|nf nfs IH]; intros s Hs Hn; cbn [foldl].
  - split; [done..|]. intros x. rewrite elem_of_nil. tauto.
  - destruct (IH (spent_turn s nf)) as [H1 H2 H3 H4].
    + unfold spent_turn. case_bool_decide as Hb; [done|]. intros x. cbn [seen order].
      rewrite elem_of_union, elem_of_singleton, elem_of_app, list_elem_of_singleton, Hs. tauto.
    + unfold spent_turn. case_bool_decide as Hb; [done|]. cbn [order].
      apply NoDup_app. split; [done|]. split; [|apply NoDup_singleton].
      intros x Hx ->%list_elem_of_singleton. apply Hb. by apply Hs.
    + split; [rewrite H1; unfold spent_turn; by case_bool_decide|done..|].
      intros x. rewrite H4, elem_of_cons. unfold spent_turn. case_bool_decide as Hb; cbn [order].
      * apply Hs in Hb. naive_solver.
      * rewrite elem_of_app, list_elem_of_singleton. tauto.
Qed.

Lemma spent_trim_ok s : (∀ x, x ∈ seen s ↔ x ∈ order s) → NoDup (order s) →
  spent_ok (spent_trim s) ∧ smax (spent_trim s) = smax s ∧
  (∃ old, order s = old ++ order (spent_trim s)) ∧
  (smax s <= 0 ∨ Z.of_nat (length (order s)) <= smax s → spent_trim s = s) ∧
  (0 < smax s → Z.of_nat (length (order (spent_trim s))) = Z.min (smax s) (Z.of_nat (length (order s)))).
Proof.
  intros Hs Hn. unfold spent_trim. cbv zeta. destruct (Z.ltb_spec 0 (smax s)); cbn [andb].
  - destruct (Z.ltb_spec 0 (Z.of_nat (length (order s)) - smax s)).
    + set (n := Z.to_nat (Z.of_nat (length (order s)) - smax s)).
      split; [split; cbn [seen order smax]|].
      * intros x. rewrite foldl_difference, take_drop_NoDup by done. by rewrite Hs.
      * rewrite <- (take_drop n (order s)) in Hn. by apply NoDup_app in Hn as (_ & _ & ?).
      * intros _. rewrite length_drop. lia.
      * cbn [smax order]. split; [done|]. split; [exists (take n (order s)); by rewrite take_drop|].
        split; [lia|]. intros _. rewrite length_drop. lia.
    + split; [by split; [..|lia]|]. split; [done|]. split; [by exists []|]. split; [done|]. lia.
  - split; [by split; [..|lia]|]. split; [done|]. split; [by exists []|]. split; [done|]. lia.
Qed.

Lemma spent_add_ok s nfs : spent_ok s → spent_ok (spent_add s nfs) ∧
  smax (spent_add s nfs) = smax s ∧ (∀ x, x ∈ order (spent_add s nfs) → x ∈ order s ∨ x ∈ nfs) ∧
  (∀ d, (∀ x, x ∈ order s ∨ x ∈ nfs → x ∈ d) → smax s <= 0 ∨ Z.of_nat (length d) <= smax s →
     ∀ x, x ∈ order s ∨ x ∈ nfs → x ∈ order (spent_add s nfs)).
Proof.
  intros [H1 H2 H3]. destruct (spent_turns s nfs H1 H2) as [T1 T2 T3 T4]. unfold spent_add.
  destruct (spent_trim_ok _ T2 T3) as (K1 & K2 & (old & K3) & K4 & _). split; [done|].
  split; [congruence|]. split.
  - intros x Hx. apply T4. rewrite K3, elem_of_app. by right.
  - intros d Hd Hb x Hx. rewrite K4; [by apply T4|]. rewrite T1. destruct Hb as [|Hb]; [by left|right].
    enough (length (order (foldl spent_turn s nfs)) <= length d)%nat by lia.
    apply submseteq_length, NoDup_submseteq; [done|]. intros y Hy. apply Hd. by apply T4.
Qed.

Definition spent_run (max : Z) (batches : list (list fr.Element)) : spentSet :=
  foldl spent_add (no_spent max) batches.

Lemma spent_run_ok max batches : spent_ok (spent_run max batches) ∧
  smax (spent_run max batches) = max ∧
  (∀ x, x ∈ order (spent_run max batches) → x ∈ concat batches) ∧
  (∀ d, (∀ x, x ∈ concat batches → x ∈ d) → max <= 0 ∨ Z.of_nat (length d) <= max →
     ∀ x, x ∈ concat batches → x ∈ order (spent_run max batches)).
Proof.
  unfold spent_run. induction batches as [|nfs batches IH] using rev_ind.
  - split; [|split; [done|split; intros; by apply elem_of_nil in H || by apply elem_of_nil in H1]].
    split; cbn; [|apply NoDup_nil_2|lia]. intros x. rewrite elem_of_empty, elem_of_nil. done.
  - rewrite foldl_app. cbn [foldl]. destruct IH as (I1 & I2 & I3 & I4).
    destruct (spent_add_ok _ nfs I1) as (J1 & J2 & J3 & J4). split; [done|].
    assert (∀ x, x ∈ concat (batches ++ [nfs]) ↔ x ∈ concat batches ∨ x ∈ nfs) as Hc.
    { intros x. rewrite concat_app, elem_of_app. cbn [concat]. by rewrite app_nil_r. }
    setoid_rewrite Hc. split; [congruence|]. split.
    + intros x [?|?]%J3; [left; by apply I3|by right].
    + intros d Hd Hb x Hx. apply (J4 d).
      * intros y [Hy|Hy]; apply Hd; [left; by apply I3|by right].
      * by rewrite I2.
      * destruct Hx as [Hx|Hx]; [left|by right]. apply (I4 d); [|done|done]. intros y Hy.
        apply Hd. by left.
Qed.

(** The last one added is remembered. *)
Lemma spent_add_last s nf : spent_ok s → nf ∈ order (spent_add s [nf]).
Proof.
  intros [H1 H2 H3]. destruct (spent_turns s [nf] H1 H2) as [T1 T2 T3 T4]. unfold spent_add.
  destruct (spent_trim_ok _ T2 T3) as (_ & _ & (old & K3) & K4 & K5).
  assert (nf ∈ order (foldl spent_turn s [nf])) as Hin by (apply T4; right; by left).
  destruct (Z.le_gt_cases (smax s) 0) as [|Hm]; [rewrite K4; [done|left; by rewrite T1]|].
  rewrite T1 in K4, K5. cbn [foldl] in *. unfold spent_turn in *.
  case_bool_decide as Hb; [rewrite K4; [done|right; by apply H3]|].
  cbn [order] in *. rewrite K3 in Hin. specialize (K5 ltac:(lia)).
  rewrite length_app in K5. cbn [length] in K5.
  destruct (order (spent_trim _)) as [|y l _] using rev_ind; [cbn in K5; lia|].
  rewrite app_assoc in K3. apply app_inj_tail in K3 as [_ ->]. apply elem_of_app. right. by left.
Qed.

(** ** Verdicts *)

Record verdicts_ok (v : verdicts) : Prop := {
  vo_dom : ∀ k, is_Some (by_ v !! k) ↔ k ∈ vorder v;
  vo_nodup : NoDup (vorder v);
  vo_bound : 0 < vmax v → Z.of_nat (length (vorder v)) <= vmax v;
}.

Lemma verdict_trim_ok v : (∀ k, is_Some (by_ v !! k) ↔ k ∈ vorder v) → NoDup (vorder v) →
  verdicts_ok (verdict_trim v) ∧ vmax (verdict_trim v) = vmax v ∧ ttl (verdict_trim v) = ttl v ∧
  (∀ k r, by_ (verdict_trim v) !! k = Some r → by_ v !! k = Some r) ∧
  (vmax v <= 0 ∨ Z.of_nat (length (vorder v)) <= vmax v → verdict_trim v = v).
Proof.
  intros Hs Hn. unfold verdict_trim. cbv zeta. destruct (Z.ltb_spec 0 (vmax v)); cbn [andb].
  - destruct (Z.ltb_spec 0 (Z.of_nat (length (vorder v)) - vmax v)).
    + set (n := Z.to_nat (Z.of_nat (length (vorder v)) - vmax v)).
      split; [split; cbn [by_ vorder vmax]|].
      * intros k. rewrite take_drop_NoDup, <- Hs by done. unfold is_Some.
        setoid_rewrite foldl_delete. naive_solver.
      * rewrite <- (take_drop n (vorder v)) in Hn. by apply NoDup_app in Hn as (_ & _ & ?).
      * intros _. rewrite length_drop. lia.
      * cbn [vmax ttl by_]. split; [done|]. split; [done|].
        split; [|lia]. intros k r. rewrite foldl_delete. by intros [].
    + split; [by split; [..|lia]|]. done.
  - split; [by split; [..|lia]|]. done.
Qed.

Lemma remember_ok v key f now : verdicts_ok v → let v' := remember v key f now in
  verdicts_ok v' ∧ vmax v' = vmax v ∧ ttl v' = ttl v ∧
  (∀ k r, by_ v' !! k = Some r → <[key := mkVerdict f now]> (by_ v) !! k = Some r) ∧
  (∀ d, (∀ k, k ∈ vorder v ∨ k = key → k ∈ d) → vmax v <= 0 ∨ Z.of_nat (length d) <= vmax v →
     by_ v' = <[key := mkVerdict f now]> (by_ v)).
Proof.
  intros [H1 H2 H3]. cbv zeta. unfold remember.
  set (v1 := mkVerdicts (ttl v) (vmax v) _ _).
  assert (∀ k, k ∈ vorder v1 ↔ k ∈ vorder v ∨ k = key) as Hin.
  { intros k. cbn [vorder v1]. destruct (by_ v !! key) eqn:E.
    - assert (key ∈ vorder v) by (apply H1; eauto). naive_solver.
    - by rewrite elem_of_app, list_elem_of_singleton. }
  assert (NoDup (vorder v1)) as Hn.
  { cbn [vorder v1]. destruct (by_ v !! key) eqn:E; [done|]. apply NoDup_app. split; [done|].
    split; [|apply NoDup_singleton]. intros k Hk ->%list_elem_of_singleton.
    apply H1 in Hk as [? Hk]. congruence. }
  destruct (verdict_trim_ok v1) as (K1 & K2 & K3 & K4 & K5); [|done|].
  { intros k. rewrite Hin, <- H1. cbn [by_ v1]. destruct (decide (k = key)) as [->|Hne].
    - rewrite lookup_insert_eq. split; [by right|by eexists].
    - rewrite lookup_insert_ne by done. naive_solver. }
  split; [done|]. split; [done|]. split; [done|]. split; [exact K4|].
  intros d Hd Hb. rewrite K5; [done|]. destruct Hb as [|Hb]; [by left|right]. cbn [vmax v1].
  enough (length (vorder v1) <= length d)%nat by lia.
  apply submseteq_length, NoDup_submseteq; [done|]. intros k Hk. apply Hd. by apply Hin.
Qed.

(** What was just remembered is recalled for as long as a verdict lives. *)
Lemma recall_remember v key f now now' : verdicts_ok v → 0 < vmax v → 0 < ttl v < 2 ^ 63 →
  now' - now < ttl v → recall (remember v key f now) key now' = Some f.
Proof.
  intros Hv Hm Ht Hn. pose proof (remember_ok v key f now Hv) as (K1 & K2 & K3 & K4 & _).
  assert (key ∈ vorder (remember v key f now)) as Hk.
  { unfold remember, verdict_trim. cbv zeta. cbn [vmax vorder].
    destruct (by_ v !! key) eqn:E.
    - assert (key ∈ vorder v) by (apply Hv; eauto). pose proof (vo_bound _ Hv Hm).
      destruct (0 <? vmax v); [|done]. by destruct (Z.ltb_spec 0 (Z.of_nat (length (vorder v)) - vmax v)); [lia|].
    - assert (key ∈ vorder v ++ [key]) by (apply elem_of_app; right; by left).
      destruct (_ && _) eqn:Eo; [|done]. cbn [vorder]. rewrite length_app. cbn [length].
      rewrite drop_app_le by lia. apply elem_of_app. right. by left. }
  apply K1 in Hk as [r Hr]. pose proof (K4 _ _ Hr) as Hr'. rewrite lookup_insert_eq in Hr'. injection Hr' as <-.
  unfold recall. rewrite Hr. cbn [vat vf]. rewrite K3.
  unfold Sub. by destruct (Z.ltb_spec (Z.max (- 9223372036854775808) (Z.min 9223372036854775807 (now' - now))) (ttl v)); [|lia].
Qed.

Lemma last_verdict_snoc log e key : last_verdict (log ++ [e]) key =
  if decide (e.1.1 = key) then Some (mkVerdict e.1.2 e.2) else last_verdict log key.
Proof. unfold last_verdict. by rewrite foldl_app. Qed.

Lemma last_verdict_in log key r : last_verdict log key = Some r → key ∈ map (λ e, e.1.1) log.
Proof.
  induction log as [|e log IH] using rev_ind; [done|]. rewrite last_verdict_snoc, map_app, elem_of_app.
  case_decide as H; [|by left; apply IH]. intros _. right. rewrite <- H. by left.
Qed.

Lemma remember_all_ok ttl0 max log : let v := remember_all ttl0 max log in
  verdicts_ok v ∧ vmax v = max ∧ ttl v = ttl0 ∧
  (∀ k r, by_ v !! k = Some r → last_verdict log k = Some r) ∧
  (∀ d, (∀ k, k ∈ map (λ e, e.1.1) log → k ∈ d) → max <= 0 ∨ Z.of_nat (length d) <= max →
     ∀ k, by_ v !! k = last_verdict log k).
Proof.
  cbv zeta. unfold remember_all. induction log as [|[[key f] now] log IH] using rev_ind.
  - split; [split; cbn; [|apply NoDup_nil_2|lia]|done].
    intros k. rewrite lookup_empty, elem_of_nil. split; [by intros []|done].
  - rewrite foldl_app. cbn [foldl fst snd]. destruct IH as (I1 & I2 & I3 & I4 & I5).
    set (v := foldl _ _ log) in *.
    destruct (remember_ok v key f now I1) as (J1 & J2 & J3 & J4 & J5).
    split; [done|]. split; [congruence|]. split; [congruence|]. split.
    + intros k r Hr%J4. rewrite last_verdict_snoc. cbn [fst snd]. destruct (decide (key = k)) as [->|Hne].
      * by rewrite lookup_insert_eq in Hr.
      * rewrite lookup_insert_ne in Hr by done. by apply I4.
    + intros d Hd Hb k. setoid_rewrite map_app in Hd. setoid_rewrite elem_of_app in Hd.
      rewrite J5 with (d := d).
      * rewrite last_verdict_snoc. cbn [fst snd]. destruct (decide (key = k)) as [->|Hne].
        -- by rewrite lookup_insert_eq.
        -- rewrite lookup_insert_ne by done. apply (I5 d); [|done]. intros j Hj. apply Hd. by left.
      * intros j [Hj| ->]; apply Hd; [left|right; by left].
        apply I1 in Hj as [r Hr]. apply I4 in Hr. by eapply last_verdict_in.
      * by rewrite I2.
Qed.

(** ** Breakers *)

Lemma Sub_ltb t u w : - 2 ^ 63 < w < 2 ^ 63 → (Sub t u <? w) = (t - u <? w).
Proof.
  intros Hw. unfold Sub. destruct (Z.ltb_spec (t - u) w); [apply Z.ltb_lt|apply Z.ltb_ge]; lia.
Qed.

Lemma filter_idem {A} (P Q : A → Prop) `{∀ x, Decision (P x), ∀ x, Decision (Q x)} (l : list A) :
  (∀ x, P x → Q x) → filter P (filter Q l) = filter P l.
Proof.
  intros HPQ. induction l as [|x l IH]; [done|]. rewrite (filter_cons Q).
  destruct (decide (Q x)) as [Hq|Hq]; rewrite !filter_cons; destruct (decide (P x)) as [Hp|Hp]; rewrite ?IH; try done.
  by apply HPQ in Hp.
Qed.

(** The breaker keeps what the next failure, no earlier than [last], may still count. *)
Record breaker_is (f w p last : Z) (st : list Z * Z) (b : breaker) : Prop := {
  bi_f : failures b = f; bi_w : window b = w; bi_p : pause b = p; bi_open : openUntil b = st.2;
  bi_recent : ∀ now, last <= now →
    filter (λ t, now - t < w) (recent b) = filter (λ t, now - t < w) st.1;
}.

Lemma failed_burst f w p last st b now : 0 < w < 2 ^ 63 → breaker_is f w p last st b → last <= now →
  (failed b now).2 = (burst f w p st now).2 ∧
  breaker_is f w p now (burst f w p st now).1 (failed b now).1.
Proof.
  intros Hw [Hf Hww Hp Ho Hr] Hl. unfold failed, burst. rewrite Hf, Hww, Hp, Ho. cbv zeta.
  assert (filter (λ t, Is_true (Sub now t <? w)) (recent b) = filter (λ t, now - t < w) st.1) as E.
  { rewrite <- (Hr now Hl). apply list_filter_iff. intros t. rewrite Sub_ltb by lia.
    rewrite Is_true_true. apply Z.ltb_lt. }
  rewrite E. set (keep := filter _ st.1).
  assert (filter (λ t, now - t < w) (st.1 ++ [now]) = keep ++ [now]) as Ek.
  { rewrite filter_app. unfold keep. f_equal. rewrite filter_cons_True by lia. done. }
  rewrite Ek. assert (∀ m, now <= m → filter (λ t, m - t < w) (keep ++ [now]) =
    filter (λ t, m - t < w) (st.1 ++ [now])) as Hk.
  { intros m Hm. rewrite !filter_app. f_equal. unfold keep. apply filter_idem. lia. }
  destruct (Z.ltb_spec 0 f), (Z.leb_spec f 0); try lia; cbn [andb orb fst snd]; [|by split].
  destruct (Z.leb_spec f (Z.of_nat (length (keep ++ [now])))),
    (Z.ltb_spec (Z.of_nat (length (keep ++ [now]))) f); try lia; cbn [andb orb fst snd]; [|by split].
  destruct (Z.leb_spec st.2 now), (Z.ltb_spec now st.2); try lia; cbn [fst snd]; by split.
Qed.

Lemma failed_runs f w p last st b times : 0 < w < 2 ^ 63 → breaker_is f w p last st b →
  StronglySorted Z.le times → Forall (λ t, last <= t) times →
  failed_run b times = burst_run f w p st times.
Proof.
  intros Hw Hb Hs. revert last st b Hb. induction Hs as [|t times Hs IH Ht]; intros last st b Hb Hl; [done|].
  apply Forall_cons in Hl as [Hl _]. destruct (failed_burst f w p last st b t Hw Hb Hl) as [H1 H2].
  cbn [failed_run burst_run]. rewrite H1. f_equal. by apply (IH t).
Qed.

(** ** Outcomes and clock *)

Lemma failed_count l n : 0 <= n →
  n <= foldl (λ n ok, if negb ok then n + 1 else n) n l <= n + Z.of_nat (length l).
Proof.
  revert n. induction l as [|ok l IH]; intros n Hn; cbn [foldl length]; [lia|].
  specialize (IH (if negb ok then n + 1 else n)). destruct ok; cbn [negb] in *; lia.
Qed.

Lemma outcomes_add_length l ok : Z.of_nat (length l) <= outcomeSamples →
  Z.of_nat (length (outcomes_add l ok)) <= outcomeSamples.
Proof.
  intros H. unfold outcomes_add, fee.last_n. destruct (Z.ltb_spec outcomeSamples (Z.of_nat (length (l ++ [ok])))).
  - rewrite length_drop. lia.
  - done.
Qed.

Lemma failureBps_range l : 0 <= failureBps l <= 10000.
Proof.
  unfold failureBps. pose proof (failed_count l 0 ltac:(lia)) as H.
  split; [apply Z.div_pos; lia|]. apply Z.div_le_upper_bound; lia.
Qed.

(** Ledgers strictly increase along the samples. *)
Definition increasing (l : list ledgerSample) : Prop :=
  StronglySorted (λ a b, ledger a < ledger b) l.

Lemma clock_trim_suffix at_ l : ∃ old, l = old ++ clock_trim at_ l.
Proof.
  induction l as [|s l [old IH]]; [by exists []|]. cbn [clock_trim].
  destruct (_ && _); [|by exists []]. exists (s :: old). cbn. by rewrite <- IH.
Qed.

Lemma increasing_app l k : increasing (l ++ k) → increasing k.
Proof.
  unfold increasing. induction l as [|x l IH]; [done|]. cbn [app]. inversion_clear 1. by apply IH.
Qed.

Lemma increasing_snoc l s x : increasing l → last l = Some s → ledger s < ledger x → increasing (l ++ [x]).
Proof.
  unfold increasing. induction l as [|y l IH]; [done|]. intros Hi Hl Hx. inversion_clear Hi as [|?? Hl' Hy].
  cbn [app]. destruct l as [|z l].
  - injection Hl as ->. by repeat constructor.
  - constructor; [by apply IH|]. apply Forall_app. split; [done|]. apply Forall_singleton.
    assert (s ∈ z :: l) as Hin.
    { change (last (z :: l) = Some s) in Hl. apply last_Some in Hl as [k ->]. apply elem_of_app.
      right. by left. }
    rewrite Forall_forall in Hy. specialize (Hy s Hin). cbn beta in Hy. lia.
Qed.

Lemma observe_increasing l led at_ : increasing l → increasing (observe l led at_).
Proof.
  intros Hi. unfold observe. destruct (last l) as [s|] eqn:Hl.
  - destruct (Z.leb_spec led (ledger s)); [done|].
    destruct (clock_trim_suffix at_ (l ++ [mkSample led at_])) as [old Hold].
    apply (increasing_app old). rewrite <- Hold. by eapply increasing_snoc.
  - apply last_None in Hl as ->. destruct (clock_trim_suffix at_ ([] ++ [mkSample led at_])) as [old Hold].
    apply (increasing_app old). rewrite <- Hold. by repeat constructor.
Qed.

(** * Properties *)

(** A cooldown holds: a key rested until [u], by a failed relay's [add] or by a destination's
    [strike], is refused at every time before [u], whatever else is added, restored, struck or looked
    up in between, as long as no lookup came a day past its end, when it may be forgotten; each
    strike rests for ten minutes to a day; and a request is refused only for a key whose rest is not
    over. *)
Theorem cooldown_holds (c : cooldowns) (k : string) (u : Z) (ops : list cool_op) (now : Z)
    (keys : list string) (H0 : 0 <= u) (Hnow : now < 2 ^ 62)
    (Hops : ∀ t ks, OpCooling t ks ∈ ops → t < u + strikeMemory ∧ t < 2 ^ 62) :
  (rested c k u → k ∈ keys → now < u → (cooling (foldl cool_step c ops) now keys).2 = true) ∧
  (∀ ks, k ∈ ks → rested (add c ks u) k u) ∧
  (∀ t, let '(c', (v, n)) := strike c k t in rested c' k v ∧
     i64 (t + destinationRest n / fee.second) <= v ∧ 600 <= destinationRest n / fee.second <= 86400) ∧
  ((cooling c now keys).2 = true → ∃ k' v, k' ∈ keys ∧ until c !! k' = Some v ∧ now < v).
Proof.
  split; [|split; [|split]].
  - intros Hr Hk Hn. apply (cooling_hits now keys _ false k u); [|done..].
    clear Hnow Hk Hn. revert c Hr. induction ops as [|op ops IH]; intros c Hr; [done|]. cbn [foldl].
    apply IH; [intros t ks Hin; apply (Hops t ks); by right|].
    apply cool_step_rested; [done|done|]. intros t ks ->. apply (Hops t ks). by left.
  - intros ks. apply add_rested.
  - intros t. pose proof (strike_rested c k t) as H. destruct (strike c k t) as [c' [v n]].
    destruct H as (H & _ & Hle). split; [done|]. split; [done|]. apply destinationRest_range.
  - intros H. by destruct (cooling_only now keys c false H).
Qed.

Lemma cooldown_witness :
  let c := add no_cooldowns ["a"; "b"]%string 1000 in
  (cooling (foldl cool_step c [OpStrike "b" 500; OpCooling 2000 ["a"; "b"]; OpAdd ["c"] 5])%string 999
    ["z"; "a"]%string).2 = true.
Proof.
  intros c. apply (cooldown_holds c "a" 1000); [lia|lia| | |right; by left|lia].
  - intros t ks H. apply elem_of_cons in H as [H|H]; [discriminate H|].
    apply elem_of_cons in H as [H|H]; [injection H as -> _; unfold strikeMemory; lia|].
    apply list_elem_of_singleton in H. discriminate H.
  - exists 1000. split; [vm_compute; reflexivity|lia].
Defined.

(** The spent set is exact within its bound and never wrong: whatever batches of nullifiers were
    added, what it answers for was added, it never holds more than its bound, the last nullifier
    added is always in it, and while no more than the bound's distinct nullifiers were ever added (or
    with no bound) it answers for every one of them. *)
Theorem spent_set_is_exact (max : Z) (batches : list (list fr.Element)) (a b : fr.Element) :
  let s := spent_run max batches in
  (spent_any s (a, b) = true → a ∈ concat batches ∨ b ∈ concat batches) ∧
  (0 < max → Z.of_nat (size (seen s)) <= max) ∧ spent_any (spent_add s [a]) (a, b) = true ∧
  ∀ distinct, (∀ x, x ∈ concat batches → x ∈ distinct) →
    max <= 0 ∨ Z.of_nat (length distinct) <= max →
    spent_any s (a, b) = true ↔ a ∈ concat batches ∨ b ∈ concat batches.
Proof.
  intros s. destruct (spent_run_ok max batches) as (H1 & H2 & H3 & H4). fold s in H1, H2, H3, H4.
  assert (∀ s, spent_ok s → spent_any s (a, b) = true ↔ a ∈ order s ∨ b ∈ order s) as Hany.
  { intros s' Hs'. unfold spent_any. cbn [fst snd].
    by rewrite orb_true_iff, !bool_decide_eq_true, !(so_set _ Hs'). }
  split; [|split; [|split]].
  - rewrite Hany by done. intros [?|?]; auto.
  - intros Hm. pose proof (so_bound _ H1) as Hb. rewrite H2 in Hb. specialize (Hb Hm).
    enough (size (seen s) = length (order s)) by lia.
    rewrite <- (size_list_to_set (C := gset fr.Element)) by apply H1. f_equal.
    apply set_eq. intros x. rewrite elem_of_list_to_set. apply H1.
  - apply Hany; [apply (spent_add_ok s [a] H1)|]. left. by apply spent_add_last.
  - intros d Hd Hb. rewrite Hany by done. split; [intros [?|?]; auto|].
    intros [?|?]; [left|right]; by apply (H4 d).
Qed.

(** A refusal answered from memory is the last one the proof got: whatever verdicts were
    remembered, one recalled for a key is the last remembered under it and younger than the lifetime;
    no more than the bound are kept; and while no more than the bound's distinct keys were ever
    remembered, the last verdict of any key within its lifetime is recalled. *)
Theorem verdicts_recall_the_last (life max : Z) (log : list (list Z * failure * Z)) (key : list Z)
    (now : Z) (Hl : 0 < life < 2 ^ 63) :
  let v := remember_all life max log in
  (∀ f, recall v key now = Some f →
     ∃ at_, last_verdict log key = Some (mkVerdict f at_) ∧ now - at_ < life) ∧
  (0 < max → Z.of_nat (length (vorder v)) <= max ∧ dom (by_ v) = list_to_set (vorder v)) ∧
  ∀ distinct, (∀ k, k ∈ map (λ e, e.1.1) log → k ∈ distinct) →
    max <= 0 ∨ Z.of_nat (length distinct) <= max →
    ∀ f at_, last_verdict log key = Some (mkVerdict f at_) → now - at_ < life →
      recall v key now = Some f.
Proof.
  intros v. destruct (remember_all_ok life max log) as (H1 & H2 & H3 & H4 & H5). fold v in H1, H2, H3, H4, H5.
  split; [|split].
  - unfold recall. intros f. destruct (by_ v !! key) as [[f0 a0]|] eqn:E; [|done].
    rewrite H3. cbn [vat vf]. rewrite Sub_ltb by lia. destruct (Z.ltb_spec (now - a0) life); [|done].
    intros [= ->]. exists a0. split; [by apply H4|done].
  - intros Hm. pose proof (vo_bound _ H1) as Hb. rewrite H2 in Hb. split; [by apply Hb|].
    apply set_eq. intros k. rewrite elem_of_dom, elem_of_list_to_set. apply H1.
  - intros d Hd Hb f a0 Hf Ha. unfold recall. rewrite (H5 d Hd Hb), Hf, H3. cbn [vat vf].
    rewrite Sub_ltb by lia. by destruct (Z.ltb_spec (now - a0) life); [|lia].
Qed.

Lemma verdicts_witness :
  let f := mkFailure 422 "rejected" None None true in
  recall (remember_all 600 2 [([1], f, 10); ([2], f, 20)]) [1] 100 = Some f.
Proof.
  intros f. refine (proj2 (proj2 (verdicts_recall_the_last 600 2 [([1], f, 10); ([2], f, 20)] [1] 100 _))
    [[1]; [2]] _ _ f 10 _ _); [lia| |right; cbn; lia|vm_compute; reflexivity|lia].
  intros k Hk. exact Hk.
Defined.

(** A breaker opens on exactly the bursts it is meant for: fed any failures in order of time, it
    gives the answers of one that forgets nothing, which opens when, while it is closed, the failures
    since it last opened that are within the window, this one included, reach the threshold; dropping
    old failures loses nothing. *)
Theorem breaker_opens_on_bursts (threshold w p : Z) (times : list Z) (Hw : 0 < w < 2 ^ 63)
    (Hs : StronglySorted Z.le times) :
  failed_run (new_breaker threshold w p) times = burst_run threshold w p ([], zero_time) times.
Proof.
  destruct times as [|t times]; [done|]. apply (failed_runs threshold w p t); [done| |done|].
  - by split.
  - apply StronglySorted_inv in Hs as [_ Hs]. by constructor.
Qed.

Lemma breaker_witness : failed_run (new_breaker 3 10 5) [0; 1; 12; 13; 14; 15; 16]
  = burst_run 3 10 5 ([], zero_time) [0; 1; 12; 13; 14; 15; 16] ∧
  failed_run (new_breaker 3 10 5) [0; 1; 12; 13; 14; 15; 16] = [false; false; false; false; true; false; false].
Proof.
  split; [|vm_compute; reflexivity]. apply breaker_opens_on_bursts; [lia|].
  repeat first [apply SSorted_nil | apply SSorted_cons | apply Forall_nil_2 | apply Forall_cons_2 | lia].
Defined.

End guard.
