(* ===== verification/Request.v ===== *)
(** The relayer's request: its JSON form and [SubmitBody.Parse] of
    [services/internal/relayer/request.go], and the digests that name a proof in guard.go. *)
From stdpp Require Import pretty.
From S2P Require Import Prelude.
From S2P Require Import Fr.
From S2P Require Import Xdr.
From S2P Require Import ScVal.
From S2P Require Import Events.
From S2P Require Import Keys.

Module request.

(** [SubmitBody] is the request of POST /v1/submit, its nested objects flattened. *)
Record SubmitBody : Type := mkSubmitBody {
  bA : string; bB : string; bC : string; bRoot : string; bPublicAmount : string;
  bExtDataHash : string; bNullifiers : list string; bCommitments : list string;
  bVault : string; bNetworkID : string; bDeadline : Z; bExtAmount : string; bFee : string;
  bRecipient : string; bRelayer : string; bCiphertext0 : string; bCiphertext1 : string;
  bNotBefore : option Z }.

(** [Request] is a parsed submission. *)
Record Request : Type := mkRequest {
  Proof : keys.Proof; Ext : keys.ExtData; NotBefore : option Z }.

Definition errBadRequest : gerr := Sentinel "bad_request".

(** [(c < '0' || c > '9') && (c < 'a' || c > 'f')] *)
Definition not_lower_hex (c : Ascii.ascii) : bool :=
  let n := Ascii.nat_of_ascii c in
  ((n <? 48)%nat || (57 <? n)%nat) && ((n <? 97)%nat || (102 <? n)%nat).

(** [lowerHex]; its loop ranges over characters, and any that is not ASCII is refused like any other
    that is no lowercase digit. *)
Definition lowerHex (s : string) (n : nat) : res (list Z) :=
  if negb (String.length s =? 2 * n)%nat then Fail errBadRequest
  else if existsb not_lower_hex (String.list_ascii_of_string s) then Fail errBadRequest
  else fr.hex_decode s.

Definition field (s : string) : res fr.Element :=
  b ← lowerHex s 32; or_fail (fr.SetBytes b) (λ _, errBadRequest).

(** The value of decimal digits, most significant first. *)
Fixpoint digits (acc : Z) (s : string) : option Z :=
  match s with
  | EmptyString => Some acc
  | String c s =>
      let n := Z.of_nat (Ascii.nat_of_ascii c) - 48 in
      if (0 <=? n) && (n <=? 9) then digits (acc * 10 + n) s else None
  end.

(** [new(big.Int).SetString(s, 10)]: an optional sign and at least one digit. *)
Definition SetString (s : string) : option Z :=
  match s with
  | EmptyString => None
  | String c s' =>
      if Ascii.eqb c "-" then
        match s' with EmptyString => None | _ => Z.opp <$> digits 0 s' end
      else if Ascii.eqb c "+" then match s' with EmptyString => None | _ => digits 0 s' end
      else digits 0 s
  end.

(** [amount] parses a canonical decimal integer; [big.Int.String] is [pretty]. *)
Definition amount (s : string) : res Z :=
  if (String.length s =? 0)%nat || (40 <? String.length s)%nat then Fail errBadRequest
  else
    match SetString s with
    | None => Fail errBadRequest
    | Some n =>
        if negb (String.eqb (pretty n) s) then Fail errBadRequest
        else match scval.I128 n with Ok _ => Ok n | Fail _ => Fail errBadRequest end
    end.

(** [fr.Element] values are compared by their limbs. *)
Definition element_eqb (a b : fr.Element) : bool := bool_decide (a = b).

Definition proof_body (b : SubmitBody) : res keys.Proof :=
  a ← lowerHex (bA b) 64; bb ← lowerHex (bB b) 128; c ← lowerHex (bC b) 64;
  root ← field (bRoot b); amt ← field (bPublicAmount b); hash ← field (bExtDataHash b);
  match bNullifiers b, bCommitments b with
  | [n0; n1], [c0; c1] =>
      n0 ← field n0; c0 ← field c0; n1 ← field n1; c1 ← field c1;
      _ ← fail_if (element_eqb n0 n1 || element_eqb c0 c1) errBadRequest;
      mret (keys.mkProof a bb c root amt hash (n0, n1) (c0, c1))
  | _, _ => Fail errBadRequest
  end.

Section request.
Context {sdk : StellarSDK}.

Definition ext_body (b : SubmitBody) : res keys.ExtData :=
  network ← lowerHex (bNetworkID b) 32;
  ext ← amount (bExtAmount b);
  fee ← amount (bFee b);
  _ ← fail_if (Z.sgn fee <? 0) errBadRequest;
  c0 ← lowerHex (bCiphertext0 b) (Z.to_nat events.CiphertextLen);
  c1 ← lowerHex (bCiphertext1 b) (Z.to_nat events.CiphertextLen);
  _ ← fail_if (negb (forallb (λ a, is_ok (scval.ScAddressOf a)) [bVault b; bRecipient b; bRelayer b]))
        errBadRequest;
  _ ← fail_if (negb (bool_decide (first_char (bVault b) = Some "C"%char)) ||
               negb (bool_decide (first_char (bRelayer b) = Some "G"%char))) errBadRequest;
  mret (keys.mkExtData (bVault b) network (bDeadline b) ext fee (bRecipient b) (bRelayer b) c0 c1).

(** [SubmitBody.Parse] checks every field's form. *)
Definition Parse (b : SubmitBody) : res Request :=
  p ← proof_body b; e ← ext_body b; mret (mkRequest p e (bNotBefore b)).

(** ** Digests; [sha256] is the standard library's *)

Context (sha256 : list Z → list Z).

(** The bytes of the seven field elements, in order. *)
Definition inputs (p : keys.Proof) : list Z :=
  concat (map fr.Bytes [keys.Root p; keys.ProofPublicAmount p; keys.ExtDataHash p;
    (keys.Nullifiers p).1; (keys.Nullifiers p).2; (keys.Commitments p).1; (keys.Commitments p).2]).

(** [proofKey] identifies a proof by everything it commits to. *)
Definition proofKey (r : Request) : list Z :=
  sha256 (keys.A (Proof r) ++ keys.B (Proof r) ++ keys.C (Proof r) ++ inputs (Proof r)).

(** [statementKey] identifies a proof by its public inputs alone. *)
Definition statementKey (r : Request) : list Z := sha256 (inputs (Proof r)).

Definition requestKey (r : Request) : string := "request:" ++ fr.hex_encode (proofKey r).

(** * Specification *)

(** The one body a client writes for a request. *)
Definition render (r : Request) : SubmitBody :=
  let p := Proof r in let e := Ext r in
  mkSubmitBody (fr.hex_encode (keys.A p)) (fr.hex_encode (keys.B p)) (fr.hex_encode (keys.C p))
    (fr.Hex (keys.Root p)) (fr.Hex (keys.ProofPublicAmount p)) (fr.Hex (keys.ExtDataHash p))
    [fr.Hex (keys.Nullifiers p).1; fr.Hex (keys.Nullifiers p).2]
    [fr.Hex (keys.Commitments p).1; fr.Hex (keys.Commitments p).2]
    (keys.Vault e) (fr.hex_encode (keys.NetworkID e)) (keys.Deadline e)
    (pretty (keys.ExtAmount e)) (pretty (keys.Fee e)) (keys.Recipient e) (keys.Relayer e)
    (fr.hex_encode (keys.Ciphertext0 e)) (fr.hex_encode (keys.Ciphertext1 e)) (NotBefore r).

Definition bytes_of (n : nat) (b : list Z) : Prop := Forall is_byte b ∧ length b = n.

Record proof_wf (p : keys.Proof) : Prop := {
  pw_a : bytes_of 64 (keys.A p); pw_b : bytes_of 128 (keys.B p); pw_c : bytes_of 64 (keys.C p);
  pw_root : fr.valid (keys.Root p); pw_amount : fr.valid (keys.ProofPublicAmount p);
  pw_hash : fr.valid (keys.ExtDataHash p);
  pw_n0 : fr.valid (keys.Nullifiers p).1; pw_n1 : fr.valid (keys.Nullifiers p).2;
  pw_c0 : fr.valid (keys.Commitments p).1; pw_c1 : fr.valid (keys.Commitments p).2;
  pw_notes : (keys.Nullifiers p).1 ≠ (keys.Nullifiers p).2;
  pw_outputs : (keys.Commitments p).1 ≠ (keys.Commitments p).2;
}.

Record ext_wf (e : keys.ExtData) : Prop := {
  ew_network : bytes_of 32 (keys.NetworkID e);
  ew_amount : scval.i128Min <= keys.ExtAmount e <= scval.i128Max;
  ew_fee : 0 <= keys.Fee e <= scval.i128Max;
  ew_c0 : bytes_of 181 (keys.Ciphertext0 e); ew_c1 : bytes_of 181 (keys.Ciphertext1 e);
  ew_addresses : ∀ a, a ∈ [keys.Vault e; keys.Recipient e; keys.Relayer e] →
    is_ok (scval.ScAddressOf a) = true;
  ew_vault : first_char (keys.Vault e) = Some "C"%char;
  ew_relayer : first_char (keys.Relayer e) = Some "G"%char;
}.

End request.

(** * Lemmas *)

(** ** Hexadecimal *)

Lemma lower_hex_char c : not_lower_hex c = false →
  ∃ x, fr.hex_digit c = Some x ∧ 0 <= x < 16 ∧ fr.hex_char x = c.
Proof.
  intros H. destruct (fr.hex_digit c) as [x|] eqn:E.
  - exists x. split; [done|].
    destruct c as [[] [] [] [] [] [] [] []]; try discriminate H; injection E as <-;
      (split; [split; [discriminate|reflexivity]|reflexivity]).
  - exfalso. by destruct c as [[] [] [] [] [] [] [] []].
Qed.

Lemma hex_char_lower x : 0 <= x < 16 → not_lower_hex (fr.hex_char x) = false.
Proof.
  intros H. assert (∃ k : nat, (k < 16)%nat ∧ x = Z.of_nat k) as (k & Hk & ->).
  { exists (Z.to_nat x). lia. }
  do 16 (destruct k as [|k]; [reflexivity|]). lia.
Qed.

Lemma hex_lower bs : Forall is_byte bs →
  existsb not_lower_hex (String.list_ascii_of_string (fr.hex_encode bs)) = false.
Proof.
  induction 1 as [|b bs Hb _ IH]; [done|]. unfold is_byte in Hb.
  cbn [fr.hex_encode String.list_ascii_of_string existsb].
  rewrite !hex_char_lower, IH; [done|split; [apply Z.mod_pos_bound|apply Z.mod_pos_bound]; lia|].
  split; [apply Z.div_pos; lia|apply Z.div_lt_upper_bound; lia].
Qed.

Lemma hex_decode_lower n s : String.length s = (2 * n)%nat →
  existsb not_lower_hex (String.list_ascii_of_string s) = false →
  ∃ b, fr.hex_decode s = Ok b ∧ s = fr.hex_encode b ∧ bytes_of n b.
Proof.
  revert s. induction n as [|n IH]; intros s Hl Hc.
  - destruct s; [|done]. exists []. split; [done|]. split; [done|]. split; [constructor|done].
  - destruct s as [|c [|d s]]; cbn in Hl; try lia. cbn [String.list_ascii_of_string existsb] in Hc.
    apply orb_false_iff in Hc as [Hc Hd]. apply orb_false_iff in Hd as [Hd Hs].
    destruct (IH s ltac:(lia) Hs) as (b & Hb & -> & Hby & Hlen).
    destruct (lower_hex_char c Hc) as (x & Hx & Hxr & <-).
    destruct (lower_hex_char d Hd) as (y & Hy & Hyr & <-).
    exists (x * 16 + y :: b). cbn [fr.hex_decode]. rewrite Hx, Hy, Hb. split; [done|].
    cbn [fr.hex_encode]. split.
    + replace ((x * 16 + y) / 16) with x by (apply Z.div_unique with y; lia).
      by replace ((x * 16 + y) mod 16) with y by (apply Z.mod_unique with x; lia).
    + split; [|cbn; lia]. constructor; [unfold is_byte; lia|done].
Qed.

Lemma lowerHex_Ok s n b : lowerHex s n = Ok b ↔ s = fr.hex_encode b ∧ bytes_of n b.
Proof.
  unfold lowerHex. split.
  - destruct (Nat.eqb_spec (String.length s) (2 * n)) as [Hl|]; [|done]. cbn [negb].
    destruct (existsb _ _) eqn:E; [done|]. intros H.
    destruct (hex_decode_lower n s Hl E) as (b' & Hb & Hs & Hw). assert (b' = b) as -> by congruence.
    done.
  - intros [-> [Hb Hl]]. rewrite fr.length_hex_encode, Hl, Nat.eqb_refl. cbn [negb].
    rewrite hex_lower by done. by apply fr.hex_decode_encode.
Qed.

Lemma lowerHex_Fail s n e : lowerHex s n = Fail e → e = errBadRequest.
Proof.
  unfold lowerHex. destruct (Nat.eqb_spec (String.length s) (2 * n)) as [Hl|]; cbn [negb].
  - destruct (existsb _ _) eqn:E; [by intros [= <-]|].
    destruct (hex_decode_lower n s Hl E) as (b' & -> & _). done.
  - by intros [= <-].
Qed.

Lemma field_Ok s e : field s = Ok e ↔ s = fr.Hex e ∧ fr.valid e.
Proof.
  unfold field. rewrite bind_Ok. setoid_rewrite lowerHex_Ok. setoid_rewrite or_fail_Ok. split.
  - intros (b & (-> & Hb & Hl) & He). destruct (fr.SetBytes_spec b Hb Hl) as [(_ & e' & He' & Hv & _)|[_ ?]]; [|congruence].
    assert (e' = e) as -> by congruence. split; [|done]. unfold fr.Hex. f_equal.
    symmetry. by eapply fr.Bytes_SetBytes.
  - intros [-> Hv]. exists (fr.Bytes e). rewrite fr.Bytes_spec by done.
    split; [split; [unfold fr.Hex; by rewrite fr.Bytes_spec|]|].
    + split; [apply be_bytes_byte|apply length_be_bytes].
    + rewrite <- fr.Bytes_spec by done. by apply fr.SetBytes_Bytes.
Qed.

Lemma field_Fail s e : field s = Fail e → e = errBadRequest.
Proof.
  unfold field. destruct (lowerHex s 32) as [b|e'] eqn:E; cbn.
  - destruct (fr.SetBytes b); cbn; congruence.
  - intros [= <-]. by eapply lowerHex_Fail.
Qed.

(** ** Decimals *)

Lemma digit_char d : (d < 10)%N →
  let n := Z.of_nat (Ascii.nat_of_ascii (pretty_N_char d)) - 48 in n = Z.of_N d ∧ 0 <= n <= 9.
Proof.
  intros H. assert (∃ k : nat, (k < 10)%nat ∧ d = N.of_nat k) as (k & Hk & ->).
  { exists (N.to_nat d). lia. }
  do 10 (destruct k as [|k]; [vm_compute; repeat split; discriminate|]). lia.
Qed.

Lemma digits_pretty x s : digits 0 (pretty_N_go x s) = digits (Z.of_N x) s.
Proof.
  revert s. induction (N.lt_wf_0 x) as [x _ IH]. intros s.
  destruct (decide (x = 0)%N) as [->|Hx]; [by rewrite pretty_N_go_0|].
  rewrite pretty_N_go_step by lia. rewrite IH by (apply N.div_lt; lia). cbn [digits].
  destruct (digit_char (x mod 10)) as [E R]; [by apply N.mod_lt|]. cbv zeta in *. rewrite E in *.
  destruct (Z.leb_spec 0 (Z.of_N (x mod 10))), (Z.leb_spec (Z.of_N (x mod 10)) 9); try lia. cbn [andb].
  f_equal. pose proof (N.div_mod x 10). lia.
Qed.

Lemma pretty_head x s : (0 < x)%N → ∃ d s', pretty_N_go x s = String (pretty_N_char d) s' ∧ (d < 10)%N.
Proof.
  revert s. induction (N.lt_wf_0 x) as [x _ IH]. intros s Hx. rewrite pretty_N_go_step by done.
  destruct (decide (x / 10 = 0)%N) as [E|Hd].
  - rewrite E, pretty_N_go_0. eexists _, _. split; [done|]. by apply N.mod_lt.
  - apply IH; [apply N.div_lt; lia|by apply N.neq_0_lt_0].
Qed.

Lemma pretty_length k x s : (x < 10 ^ N.of_nat k)%N →
  (String.length (pretty_N_go x s) <= k + String.length s)%nat.
Proof.
  revert x s. induction k as [|k IH]; intros x s Hx.
  - assert (x = 0)%N as -> by (cbn in Hx; lia). by rewrite pretty_N_go_0.
  - destruct (decide (x = 0)%N) as [->|H0]; [rewrite pretty_N_go_0; lia|].
    rewrite pretty_N_go_step by lia. rewrite Nat2N.inj_succ, N.pow_succ_r' in Hx.
    specialize (IH (x / 10)%N (String (pretty_N_char (x mod 10)) s)).
    cbn [String.length] in IH. assert (x / 10 < 10 ^ N.of_nat k)%N by (apply N.Div0.div_lt_upper_bound; lia).
    specialize (IH ltac:(done)). lia.
Qed.

Lemma digit_not_sign d : (d < 10)%N →
  Ascii.eqb (pretty_N_char d) "-" = false ∧ Ascii.eqb (pretty_N_char d) "+" = false.
Proof.
  intros H. assert (∃ k : nat, (k < 10)%nat ∧ d = N.of_nat k) as (k & Hk & ->).
  { exists (N.to_nat d). lia. }
  do 10 (destruct k as [|k]; [split; reflexivity|]). lia.
Qed.

Lemma pretty_pos p : pretty (Z.pos p) = pretty_N_go (N.pos p) "".
Proof. reflexivity. Qed.

Lemma pretty_neg p : pretty (Z.neg p) = String "-" (pretty_N_go (N.pos p) "").
Proof. reflexivity. Qed.

Lemma SetString_pretty n : SetString (pretty n) = Some n.
Proof.
  destruct n as [|p|p]; [done| |].
  - rewrite pretty_pos. destruct (pretty_head (N.pos p) "") as (d & s & E & Hd); [lia|].
    pose proof (digits_pretty (N.pos p) "") as D. rewrite E in *. unfold SetString.
    destruct (digit_not_sign d Hd) as [-> ->]. rewrite D. done.
  - rewrite pretty_neg. pose proof (digits_pretty (N.pos p) "") as D.
    destruct (pretty_head (N.pos p) "") as (d & s & E & Hd); [lia|]. unfold SetString. cbn [Ascii.eqb].
    change (Ascii.eqb "-" "-") with true. cbv iota. rewrite D, E. done.
Qed.

Lemma pretty_size n : scval.i128Min <= n <= scval.i128Max →
  (1 <= String.length (pretty n) <= 40)%nat.
Proof.
  intros H. unfold scval.i128Min, scval.i128Max in H. destruct n as [|p|p]; [cbn; lia| |].
  - rewrite pretty_pos. destruct (pretty_head (N.pos p) "") as (d & s & E & _); [lia|].
    pose proof (pretty_length 39 (N.pos p) "" ltac:(change (10 ^ N.of_nat 39)%N with 1000000000000000000000000000000000000000%N; lia)).
    rewrite E in *. cbn in *. lia.
  - rewrite pretty_neg.
    pose proof (pretty_length 39 (N.pos p) "" ltac:(change (10 ^ N.of_nat 39)%N with 1000000000000000000000000000000000000000%N; lia)).
    cbn [String.length] in *. lia.
Qed.

Lemma amount_Ok s n : amount s = Ok n ↔ s = pretty n ∧ scval.i128Min <= n <= scval.i128Max.
Proof.
  unfold amount. split.
  - destruct (_ || _); [done|]. destruct (SetString s) as [m|]; [|done].
    destruct (String.eqb_spec (pretty m) s) as [<-|]; [|done]. cbn [negb].
    destruct (scval.I128 m) eqn:E; [|done]. intros [= <-]. split; [done|].
    unfold scval.I128 in E. destruct (Z.ltb_spec m scval.i128Min), (Z.ltb_spec scval.i128Max m); done.
  - intros [-> Hr]. destruct (pretty_size n Hr).
    destruct (Nat.eqb_spec (String.length (pretty n)) 0); [lia|].
    destruct (Nat.ltb_spec 40 (String.length (pretty n))); [lia|]. cbn [orb].
    rewrite SetString_pretty, String.eqb_refl. cbn [negb].
    by destruct (scval.I128_ok n Hr) as (hi & lo & -> & _).
Qed.

Lemma amount_Fail s e : amount s = Fail e → e = errBadRequest.
Proof.
  unfold amount. destruct (_ || _); [congruence|]. destruct (SetString s); [|congruence].
  destruct (negb _); [congruence|]. destruct (scval.I128 z); congruence.
Qed.

(** ** The two parts of a body *)

Lemma element_eqb_spec a b : element_eqb a b = false ↔ a ≠ b.
Proof. unfold element_eqb. by case_bool_decide. Qed.

Lemma proof_body_Ok (b : SubmitBody) p : proof_body b = Ok p ↔
  proof_wf p ∧ bA b = fr.hex_encode (keys.A p) ∧ bB b = fr.hex_encode (keys.B p) ∧
  bC b = fr.hex_encode (keys.C p) ∧ bRoot b = fr.Hex (keys.Root p) ∧
  bPublicAmount b = fr.Hex (keys.ProofPublicAmount p) ∧ bExtDataHash b = fr.Hex (keys.ExtDataHash p) ∧
  bNullifiers b = [fr.Hex (keys.Nullifiers p).1; fr.Hex (keys.Nullifiers p).2] ∧
  bCommitments b = [fr.Hex (keys.Commitments p).1; fr.Hex (keys.Commitments p).2].
Proof.
  unfold proof_body. rewrite !bind_Ok. split.
  - intros (a & [Ha1 Ha2]%lowerHex_Ok & H). apply bind_Ok in H as (bb & [Hb1 Hb2]%lowerHex_Ok & H).
    apply bind_Ok in H as (c & [Hc1 Hc2]%lowerHex_Ok & H).
    apply bind_Ok in H as (root & [Hr1 Hr2]%field_Ok & H).
    apply bind_Ok in H as (amt & [Hm1 Hm2]%field_Ok & H).
    apply bind_Ok in H as (hash & [Hh1 Hh2]%field_Ok & H).
    destruct (bNullifiers b) as [|n0 [|n1 []]]; try discriminate H.
    destruct (bCommitments b) as [|c0 [|c1 []]]; try discriminate H.
    apply bind_Ok in H as (e0 & [-> He0]%field_Ok & H). apply bind_Ok in H as (o0 & [-> Ho0]%field_Ok & H).
    apply bind_Ok in H as (e1 & [-> He1]%field_Ok & H). apply bind_Ok in H as (o1 & [-> Ho1]%field_Ok & H).
    apply bind_Ok in H as (? & Hn%fail_if_Ok & [= <-]).
    apply orb_false_iff in Hn as [Hn%element_eqb_spec Ho%element_eqb_spec].
    split; [by split|]. done.
  - intros ([] & Ha & Hb & Hc & Hr & Hm & Hh & Hn & Ho).
    exists (keys.A p). split; [by apply lowerHex_Ok|]. apply bind_Ok.
    exists (keys.B p). split; [by apply lowerHex_Ok|]. apply bind_Ok.
    exists (keys.C p). split; [by apply lowerHex_Ok|]. apply bind_Ok.
    exists (keys.Root p). split; [by apply field_Ok|]. apply bind_Ok.
    exists (keys.ProofPublicAmount p). split; [by apply field_Ok|]. apply bind_Ok.
    exists (keys.ExtDataHash p). split; [by apply field_Ok|]. rewrite Hn, Ho. apply bind_Ok.
    exists (keys.Nullifiers p).1. split; [by apply field_Ok|]. apply bind_Ok.
    exists (keys.Commitments p).1. split; [by apply field_Ok|]. apply bind_Ok.
    exists (keys.Nullifiers p).2. split; [by apply field_Ok|]. apply bind_Ok.
    exists (keys.Commitments p).2. split; [by apply field_Ok|].
    rewrite (proj2 (element_eqb_spec _ _) pw_notes0), (proj2 (element_eqb_spec _ _) pw_outputs0).
    by destruct p as [? ? ? ? ? ? [] []].
Qed.

Section body.
Context {sdk : StellarSDK}.

Lemma ext_body_Ok (b : SubmitBody) e : ext_body b = Ok e ↔
  ext_wf e ∧ bVault b = keys.Vault e ∧ bNetworkID b = fr.hex_encode (keys.NetworkID e) ∧
  bDeadline b = keys.Deadline e ∧ bExtAmount b = pretty (keys.ExtAmount e) ∧
  bFee b = pretty (keys.Fee e) ∧ bRecipient b = keys.Recipient e ∧ bRelayer b = keys.Relayer e ∧
  bCiphertext0 b = fr.hex_encode (keys.Ciphertext0 e) ∧
  bCiphertext1 b = fr.hex_encode (keys.Ciphertext1 e).
Proof.
  unfold ext_body. rewrite !bind_Ok. change (Z.to_nat events.CiphertextLen) with 181%nat. split.
  - intros (n & [Hn1 Hn2]%lowerHex_Ok & H). apply bind_Ok in H as (x & [Hx1 Hx2]%amount_Ok & H).
    apply bind_Ok in H as (f & [Hf1 Hf2]%amount_Ok & H).
    apply bind_Ok in H as (? & Hs%fail_if_Ok & H). rewrite sgn_ltb_0, Z.ltb_ge in Hs.
    apply bind_Ok in H as (c0 & [Hc1 Hc2]%lowerHex_Ok & H).
    apply bind_Ok in H as (c1 & [Hd1 Hd2]%lowerHex_Ok & H).
    apply bind_Ok in H as (? & Ha%fail_if_Ok%negb_false_iff & H).
    apply bind_Ok in H as (? & Hp%fail_if_Ok & [= <-]).
    apply orb_false_iff in Hp as [Hv%negb_false_iff%bool_decide_eq_true Hr%negb_false_iff%bool_decide_eq_true].
    split; [|done]. split; [done|done|by split; [|apply Hf2]|done|done| |done|done].
    intros a Hin. rewrite forallb_forall in Ha. apply Ha. by apply list_elem_of_In.
  - intros ([] & Hv & Hn & Hd & Hx & Hf & Hr & Hl & H0 & H1).
    exists (keys.NetworkID e). split; [by apply lowerHex_Ok|]. apply bind_Ok.
    exists (keys.ExtAmount e). split; [by apply amount_Ok|]. apply bind_Ok.
    exists (keys.Fee e). split; [apply amount_Ok; unfold scval.i128Min in *; split; [done|lia]|]. apply bind_Ok.
    exists tt. split; [apply fail_if_Ok; rewrite sgn_ltb_0; lia|]. apply bind_Ok.
    exists (keys.Ciphertext0 e). split; [by apply lowerHex_Ok|]. apply bind_Ok.
    exists (keys.Ciphertext1 e). split; [by apply lowerHex_Ok|]. rewrite Hv, Hr, Hl, Hd. apply bind_Ok.
    exists tt. split.
    + apply fail_if_Ok, negb_false_iff, forallb_forall. intros a Ha. apply ew_addresses0.
      by apply list_elem_of_In.
    + rewrite !bool_decide_eq_true_2 by done. by destruct e.
Qed.

Lemma res_cases {A} (m : res A) : (∃ a, m = Ok a) ∨ (∃ e, m = Fail e).
Proof. destruct m; eauto. Qed.

Lemma bind_Fail {A B} (m : res A) (f : A → res B) e :
  mbind f m = Fail e ↔ m = Fail e ∨ ∃ a, m = Ok a ∧ f a = Fail e.
Proof. destruct m; cbn; naive_solver. Qed.

Lemma fail_if_bad c e : fail_if c errBadRequest = Fail e → e = errBadRequest.
Proof. destruct c; cbn; congruence. Qed.

Lemma proof_body_Fail b e : proof_body b = Fail e → e = errBadRequest.
Proof.
  unfold proof_body. intros H.
  repeat (apply bind_Fail in H as [H|(? & _ & H)];
    [first [by eapply lowerHex_Fail | by eapply field_Fail]|]).
  destruct (bNullifiers b) as [|n0 [|n1 []]]; try congruence.
  destruct (bCommitments b) as [|c0 [|c1 []]]; try congruence.
  repeat (apply bind_Fail in H as [H|(? & _ & H)];
    [first [by eapply field_Fail | by eapply fail_if_bad]|]). done.
Qed.

Lemma ext_body_Fail b e : ext_body b = Fail e → e = errBadRequest.
Proof.
  unfold ext_body. intros H.
  repeat (apply bind_Fail in H as [H|(? & _ & H)];
    [first [by eapply lowerHex_Fail | by eapply amount_Fail | by eapply fail_if_bad]|]). done.
Qed.

End body.

(** * Properties *)

(** A request has one form: [SubmitBody.Parse] accepts a body exactly when it is the one a client
    writes for a well-formed request, lowercase hexadecimal of the exact lengths, canonical field
    elements and decimals (no leading zero, plus sign or negative zero), amounts within i128, a fee
    that is not negative, two distinct nullifiers and commitments and the vault and relayer of the
    right kinds, and then gives that request; every other body is refused as a bad request. So no two
    bodies stand for one request, and no request is read otherwise than it was written. *)
Theorem requests_have_one_form {sdk : StellarSDK} (b : SubmitBody) (r : Request) :
  (Parse b = Ok r ↔ b = render r ∧ proof_wf (Proof r) ∧ ext_wf (Ext r)) ∧
  (∀ e, Parse b = Fail e → e = errBadRequest) ∧
  (proof_wf (Proof r) → ext_wf (Ext r) → Parse (render r) = Ok r).
Proof.
  assert (∀ b, Parse b = Ok r ↔ b = render r ∧ proof_wf (Proof r) ∧ ext_wf (Ext r)) as Hp.
  { clear b. intros b. unfold Parse. rewrite bind_Ok. split.
    - intros (p & (Hw & H1 & H2 & H3 & H4 & H5 & H6 & H7 & H8)%proof_body_Ok & H).
      apply bind_Ok in H as (e & (He & K1 & K2 & K3 & K4 & K5 & K6 & K7 & K8 & K9)%ext_body_Ok & [= <-]).
      split; [|split; [exact Hw|exact He]].
      destruct b; cbn [bA bB bC bRoot bPublicAmount bExtDataHash bNullifiers bCommitments bVault bNetworkID
        bDeadline bExtAmount bFee bRecipient bRelayer bCiphertext0 bCiphertext1 bNotBefore] in *.
      unfold render. cbn [Proof Ext NotBefore]. subst. reflexivity.
    - intros (-> & Hpw & Hew). exists (Proof r). split.
      { apply proof_body_Ok. split; [exact Hpw|]. repeat split. }
      apply bind_Ok. exists (Ext r). split.
      { apply ext_body_Ok. split; [exact Hew|]. repeat split. }
      by destruct r. }
  split; [apply Hp|]. split.
  - unfold Parse. intros e [H|(? & _ & H)]%bind_Fail; [by eapply proof_body_Fail|].
    apply bind_Fail in H as [H|(? & _ & H)]; [by eapply ext_body_Fail|done].
  - intros H1 H2. by apply Hp.
Qed.

(** A request to pay 40 from the vault 7 to account 1, with a fee of 2 to account 2. *)
Definition sample_request : Request :=
  mkRequest (keys.mkProof (replicate 64 1) (replicate 128 2) (replicate 64 3) (fr.SetUint64 5)
      (fr.SetUint64 6) (fr.SetUint64 7) (fr.SetUint64 8, fr.SetUint64 9)
      (fr.SetUint64 10, fr.SetUint64 11))
    (keys.mkExtData (example.contract 7) (replicate 32 4) 1000 (-40) 2 (example.account 1)
      (example.account 2) (replicate 181 0) (replicate 181 255)) None.

Lemma sample_proof_wf : proof_wf (Proof sample_request).
Proof.
  split; cbn [sample_request Proof keys.A keys.B keys.C keys.Root keys.ProofPublicAmount keys.ExtDataHash
    keys.Nullifiers keys.Commitments fst snd];
    try (by fr.solve_valid);
    try (split; [by apply Forall_replicate|reflexivity]); vm_compute; discriminate.
Qed.

Lemma sample_ext_wf : ext_wf (sdk := example.sdk []) (Ext sample_request).
Proof.
  split; cbn [sample_request Ext keys.NetworkID keys.ExtAmount keys.Fee keys.Ciphertext0 keys.Ciphertext1
    keys.Vault keys.Recipient keys.Relayer];
    try (split; [by apply Forall_replicate|reflexivity]);
    try (unfold scval.i128Min, scval.i128Max; lia); try reflexivity.
  intros a [->|[->|[->|[]%elem_of_nil]%elem_of_cons]%elem_of_cons]%elem_of_cons; vm_compute; reflexivity.
Qed.

Lemma one_form_witness :
  Parse (sdk := example.sdk []) (render sample_request) = Ok sample_request.
Proof.
  apply (requests_have_one_form (sdk := example.sdk []) (render sample_request) sample_request).
  - apply sample_proof_wf.
  - apply sample_ext_wf.
Defined.

End request.
