(* ===== verification/Groth16.v ===== *)
(** The off-chain Groth16 verifier of [services/internal/groth16/groth16.go]. The curve arithmetic
    of gnark-crypto is not under src/: its operations on affine points are the class [Bn254], over
    base-field elements that are their canonical integers. *)
From S2P Require Import Prelude.
From S2P Require Import Fr.

Module groth16.

(** A G1 point by its coordinates, and a G2 point, whose coordinates are pairs c0, c1. *)
Record G1 : Type := mkG1 { X : Z; Y : Z }.
Record G2 : Type := mkG2 { X0 : Z; X1 : Z; Y0 : Z; Y1 : Z }.

(** The operations of gnark-crypto's bn254 and bn254/fp packages the verifier calls. *)
Class Bn254 : Type := {
  fp_modulus : Z;
  (** [fp.Element.SetString] *)
  fp_of_string : string → option Z;
  g1_infinity : G1 → bool;
  g1_on_curve : G1 → bool;
  g1_add : G1 → G1 → G1;
  g1_neg : G1 → G1;
  (** [ScalarMultiplication] by a [big.Int] *)
  g1_mul : G1 → Z → G1;
  g2_infinity : G2 → bool;
  g2_on_curve : G2 → bool;
  g2_in_subgroup : G2 → bool;
  (** [PairingCheck] of as many points of either group; [None] is its error *)
  pairing_check : list G1 → list G2 → option bool;
}.

(** A failed check of a point; the key's errors are told apart by their message. *)
Definition PublicInputs : nat := 8.

(** [Key] is a verifying key; [ic] has [PublicInputs + 1] points. *)
Record Key : Type := mkKey { alpha : G1; beta : G2; gamma : G2; delta : G2; ic : list G1 }.

(** [keyJSON], the JSON object's fields; a point is its coordinates' strings. *)
Record keyJSON : Type := mkKeyJSON {
  Protocol : string; Curve : string; NPublic : Z; JAlpha : string * string * string;
  JBeta : list (string * string); JGamma : list (string * string); JDelta : list (string * string);
  JIC : list (string * string * string) }.

Section groth16.
Context {bn : Bn254}.

Definition decimal (s : string) : res Z :=
  match fp_of_string s with Some e => Ok e | None => Fail (Sentinel "fp: SetString") end.

Definition keyG1 (p : string * string * string) : res G1 :=
  let '(x, y, z) := p in
  _ ← fail_if (negb (String.eqb z "1")) (Sentinel "groth16: key point not in affine form");
  x ← decimal x; y ← decimal y;
  _ ← fail_if (negb (g1_on_curve (mkG1 x y))) (Sentinel "groth16: key point not on the curve");
  mret (mkG1 x y).

(** [keyG2] reads a snarkjs point, three pairs whose coordinates list c0 then c1. *)
Definition keyG2 (p : list (string * string)) : res G2 :=
  match p with
  | [(x0, x1); (y0, y1); (z0, z1)] =>
      _ ← fail_if (negb (String.eqb z0 "1" && String.eqb z1 "0"))
            (Sentinel "groth16: key point not in affine form");
      x0 ← decimal x0; x1 ← decimal x1; y0 ← decimal y0; y1 ← decimal y1;
      let out := mkG2 x0 x1 y0 y1 in
      _ ← fail_if (negb (g2_on_curve out) || negb (g2_in_subgroup out))
            (Sentinel "groth16: key point not in G2");
      mret out
  | _ => Fail (Sentinel "groth16: key point not in affine form")
  end.

(** [ParseKey], after [json.Unmarshal]. *)
Definition ParseKey (j : keyJSON) : res Key :=
  _ ← fail_if (negb (String.eqb (Protocol j) "groth16") || negb (String.eqb (Curve j) "bn128") ||
        negb (NPublic j =? Z.of_nat PublicInputs) || negb (length (JIC j) =? PublicInputs + 1)%nat)
      (Sentinel "groth16: not a key for the transaction circuit");
  a ← keyG1 (JAlpha j); b ← keyG2 (JBeta j); g ← keyG2 (JGamma j); d ← keyG2 (JDelta j);
  ic ← mapM keyG1 (JIC j);
  mret (mkKey a b g d ic).

(** [coordinate] reads one big-endian base-field element: [SetBytesCanonical] refuses a value that
    is not below the modulus. *)
Definition coordinate (b : list Z) : option Z :=
  if be_val b <? fp_modulus then Some (be_val b) else None.

(** [b[32*i : 32*(i+1)]] *)
Definition slot (i : nat) (b : list Z) : list Z := take 32 (drop (32 * i) b).

(** [proofG1] reads a point in the host encoding X || Y. *)
Definition proofG1 (b : list Z) : option G1 :=
  x ← coordinate (slot 0 b); y ← coordinate (slot 1 b); Some (mkG1 x y).

(** [proofG2] reads a point in the host encoding, which orders each coordinate c1 || c0. *)
Definition proofG2 (b : list Z) : option G2 :=
  x1 ← coordinate (slot 0 b); x0 ← coordinate (slot 1 b);
  y1 ← coordinate (slot 2 b); y0 ← coordinate (slot 3 b);
  Some (mkG2 x0 x1 y0 y1).

(** The loop that sums the public inputs over the key's points. *)
Fixpoint accumulate (vkx : G1) (ic : list G1) (inputs : list fr.Element) : G1 :=
  match inputs, ic with
  | i :: inputs, p :: ic => accumulate (g1_add vkx (g1_mul p (fr.Big i))) ic inputs
  | _, _ => vkx
  end.

(** [Key.Verify] reports whether the proof is valid for the inputs, in the circuit's order. *)
Definition Verify (k : Key) (a b c : list Z) (inputs : list fr.Element) : bool :=
  match proofG1 a, proofG2 b, proofG1 c with
  | Some pa, Some pb, Some pc =>
      if g1_infinity pa || g1_infinity pc || g2_infinity pb || negb (g1_on_curve pa) ||
         negb (g1_on_curve pc) || negb (g2_on_curve pb) || negb (g2_in_subgroup pb)
      then false
      else
        match ic k with
        | [] => false
        | ic0 :: ic =>
            let vkx := accumulate ic0 ic inputs in
            match pairing_check [g1_neg pa; alpha k; vkx; pc] [pb; beta k; gamma k; delta k] with
            | Some ok => ok
            | None => false
            end
        end
  | _, _, _ => false
  end.

(** * Specification *)

(** The one host encoding of a point. *)
Definition encode_G1 (p : G1) : list Z := be_bytes 32 (X p) ++ be_bytes 32 (Y p).
Definition encode_G2 (p : G2) : list Z :=
  be_bytes 32 (X1 p) ++ be_bytes 32 (X0 p) ++ be_bytes 32 (Y1 p) ++ be_bytes 32 (Y0 p).

Definition canonical (z : Z) : Prop := 0 <= z < fp_modulus.

(** A point of a proof: canonical coordinates, on the curve and not at infinity. *)
Definition proof_G1 (p : G1) : Prop :=
  canonical (X p) ∧ canonical (Y p) ∧ g1_on_curve p = true ∧ g1_infinity p = false.
Definition proof_G2 (p : G2) : Prop :=
  canonical (X0 p) ∧ canonical (X1 p) ∧ canonical (Y0 p) ∧ canonical (Y1 p) ∧
  g2_on_curve p = true ∧ g2_in_subgroup p = true ∧ g2_infinity p = false.

(** The sum of points and of the inputs' multiples of the key's points. *)
Definition input_sum (k : Key) (inputs : list fr.Element) : G1 :=
  match ic k with
  | [] => mkG1 0 0
  | ic0 :: ic => foldl g1_add ic0 (zip_with (λ p i, g1_mul p (fr.Big i)) ic inputs)
  end.

(** The Groth16 equation. *)
Definition equation (k : Key) (pa : G1) (pb : G2) (pc : G1) (inputs : list fr.Element) : Prop :=
  pairing_check [g1_neg pa; alpha k; input_sum k inputs; pc] [pb; beta k; gamma k; delta k] = Some true.

(** * Lemmas *)

Lemma accumulate_sum vkx ic inputs :
  accumulate vkx ic inputs = foldl g1_add vkx (zip_with (λ p i, g1_mul p (fr.Big i)) ic inputs).
Proof.
  revert vkx ic. induction inputs as [|i inputs IH]; intros vkx [|p ic]; cbn [accumulate zip_with foldl]; try done.
Qed.

Hypothesis modulus_range : 0 < fp_modulus <= 2 ^ 256.

Lemma coordinate_Some b z : Forall is_byte b → length b = 32%nat →
  coordinate b = Some z ↔ canonical z ∧ b = be_bytes 32 z.
Proof.
  intros Hb Hl. unfold coordinate, canonical. pose proof (be_val_range b Hb) as Hr. split.
  - destruct (Z.ltb_spec (be_val b) fp_modulus); [|done]. intros [= <-]. split; [lia|].
    symmetry. by apply be_bytes_val.
  - intros [Hz ->]. rewrite be_val_bytes_small by (change (256 ^ Z.of_nat 32) with (2 ^ 256); lia).
    by destruct (Z.ltb_spec z fp_modulus); [|lia].
Qed.

(** A byte string of [n] slots is the slots in order. *)
Lemma slot_bytes i b n : Forall is_byte b → length b = (32 * n)%nat → (i < n)%nat →
  Forall is_byte (slot i b) ∧ length (slot i b) = 32%nat.
Proof.
  intros Hb Hl Hi. unfold slot. split; [by apply Forall_take, Forall_drop|].
  rewrite length_take, length_drop. lia.
Qed.

Lemma split_slots b n : length b = (32 * n)%nat →
  b = concat (map (λ i, slot i b) (seq 0 n)).
Proof.
  revert b. induction n as [|n IH]; intros b Hl; [destruct b; [done|cbn in Hl; lia]|].
  rewrite <- (take_drop 32 b) at 1. cbn [seq map concat]. f_equal.
  rewrite (IH (drop 32 b)) at 1 by (rewrite length_drop; lia). rewrite <- seq_shift, map_map.
  f_equal. apply map_ext. intros i. unfold slot. rewrite drop_drop. do 2 f_equal. lia.
Qed.

Lemma proofG1_Some b p : Forall is_byte b → length b = 64%nat →
  proofG1 b = Some p ↔ canonical (X p) ∧ canonical (Y p) ∧ b = encode_G1 p.
Proof.
  intros Hb Hl. destruct p as [x y]. cbn [X Y]. unfold proofG1, encode_G1. cbn [X Y].
  destruct (slot_bytes 0 b 2 Hb Hl ltac:(lia)) as [B0 L0].
  destruct (slot_bytes 1 b 2 Hb Hl ltac:(lia)) as [B1 L1].
  pose proof (split_slots b 2 Hl) as Hs. cbn [seq map concat] in Hs. rewrite app_nil_r in Hs. split.
  - destruct (coordinate (slot 0 b)) as [x'|] eqn:E0; [|done].
    destruct (coordinate (slot 1 b)) as [y'|] eqn:E1; [|done]. cbn [mbind option_bind].
    intros [= -> ->]. apply coordinate_Some in E0 as [? E0]; [|done..].
    apply coordinate_Some in E1 as [? E1]; [|done..]. split; [done|]. split; [done|]. by rewrite <- E0, <- E1.
  - intros (Hx & Hy & E). rewrite Hs in E. apply app_inj_1 in E as [E0 E1]; [|by rewrite L0, length_be_bytes].
    rewrite (proj2 (coordinate_Some _ x B0 L0)) by done.
    by rewrite (proj2 (coordinate_Some _ y B1 L1)) by done.
Qed.

Lemma proofG2_Some b p : Forall is_byte b → length b = 128%nat →
  proofG2 b = Some p ↔ canonical (X0 p) ∧ canonical (X1 p) ∧ canonical (Y0 p) ∧ canonical (Y1 p) ∧
    b = encode_G2 p.
Proof.
  intros Hb Hl. destruct p as [x0 x1 y0 y1]. unfold proofG2, encode_G2. cbn [X0 X1 Y0 Y1].
  destruct (slot_bytes 0 b 4 Hb Hl ltac:(lia)) as [B0 L0].
  destruct (slot_bytes 1 b 4 Hb Hl ltac:(lia)) as [B1 L1].
  destruct (slot_bytes 2 b 4 Hb Hl ltac:(lia)) as [B2 L2].
  destruct (slot_bytes 3 b 4 Hb Hl ltac:(lia)) as [B3 L3].
  pose proof (split_slots b 4 Hl) as Hs. cbn [seq map concat] in Hs. rewrite app_nil_r in Hs. split.
  - destruct (coordinate (slot 0 b)) as [a|] eqn:E0; [|done].
    destruct (coordinate (slot 1 b)) as [a'|] eqn:E1; [|done].
    destruct (coordinate (slot 2 b)) as [c|] eqn:E2; [|done].
    destruct (coordinate (slot 3 b)) as [c'|] eqn:E3; [|done]. cbn [mbind option_bind].
    intros [= -> -> -> ->]. apply coordinate_Some in E0 as [? E0]; [|done..].
    apply coordinate_Some in E1 as [? E1]; [|done..]. apply coordinate_Some in E2 as [? E2]; [|done..].
    apply coordinate_Some in E3 as [? E3]; [|done..]. do 4 (split; [done|]).
    by rewrite <- E0, <- E1, <- E2, <- E3.
  - intros (H0 & H1 & H2 & H3 & E). rewrite Hs in E.
    apply app_inj_1 in E as [E0 E]; [|by rewrite L0, length_be_bytes].
    apply app_inj_1 in E as [E1 E]; [|by rewrite L1, length_be_bytes].
    apply app_inj_1 in E as [E2 E3]; [|by rewrite L2, length_be_bytes].
    rewrite (proj2 (coordinate_Some _ x1 B0 L0)) by done.
    rewrite (proj2 (coordinate_Some _ x0 B1 L1)) by done.
    rewrite (proj2 (coordinate_Some _ y1 B2 L2)) by done.
    by rewrite (proj2 (coordinate_Some _ y0 B3 L3)) by done.
Qed.

End groth16.

(** * Properties *)

(** C25: The verifier accepts exactly the proofs of the Groth16 equation, in one encoding: a proof
    verifies for its inputs when its bytes are the canonical encodings of a point A and a point C of
    the curve, neither at infinity, and a point B of G2 not at infinity, for which the pairing check
    of the key and of the inputs' sum over the key's points succeeds; so no second encoding of the
    same points verifies, and a key read by [ParseKey] has a point for every input. *)
Theorem verify_is_the_groth16_equation {bn : Bn254} (k : Key) (a b c : list Z)
    (inputs : list fr.Element) (Hm : 0 < fp_modulus <= 2 ^ 256) (Hk : length (ic k) = 9%nat)
    (Ha : Forall is_byte a ∧ length a = 64%nat) (Hb : Forall is_byte b ∧ length b = 128%nat)
    (Hc : Forall is_byte c ∧ length c = 64%nat) :
  (Verify k a b c inputs = true ↔ ∃ pa pb pc, proof_G1 pa ∧ proof_G2 pb ∧ proof_G1 pc ∧
     a = encode_G1 pa ∧ b = encode_G2 pb ∧ c = encode_G1 pc ∧ equation k pa pb pc inputs) ∧
  ∀ j k', ParseKey j = Ok k' → length (ic k') = 9%nat ∧ ic k' ≠ [].
Proof.
  destruct Ha as [Ha La], Hb as [Hb Lb], Hc as [Hc Lc]. split.
  - unfold Verify, equation, input_sum. destruct (ic k) as [|ic0 ic] eqn:Ek; [done|].
    cbv zeta. rewrite ?accumulate_sum. split.
    + destruct (proofG1 a) as [pa|] eqn:Ea; [|done]. destruct (proofG2 b) as [pb|] eqn:Eb; [|done].
      destruct (proofG1 c) as [pc|] eqn:Ec; [|done].
      apply proofG1_Some in Ea as (? & ? & ->); [|done..]. apply proofG1_Some in Ec as (? & ? & ->); [|done..].
      apply proofG2_Some in Eb as (? & ? & ? & ? & ->); [|done..].
      destruct (_ || _) eqn:Eg; [done|]. rewrite !orb_false_iff, !negb_false_iff in Eg.
      destruct (pairing_check _ _) as [[]|] eqn:Ep; [|done..]. intros _. exists pa, pb, pc.
      unfold proof_G1, proof_G2. tauto.
    + intros (pa & pb & pc & (? & ? & Oa & Ia) & (? & ? & ? & ? & Ob & Sb & Ib) & (? & ? & Oc & Ic) & -> & -> & -> & Hp).
      rewrite (proj2 (proofG1_Some Hm _ pa Ha La)) by done. rewrite (proj2 (proofG2_Some Hm _ pb Hb Lb)) by done.
      rewrite (proj2 (proofG1_Some Hm _ pc Hc Lc)) by done.
      rewrite Oa, Ia, Ob, Sb, Ib, Oc, Ic. cbn [orb negb]. by rewrite Hp.
  - intros j k' H. unfold ParseKey in H. apply bind_Ok in H as (? & Hg%fail_if_Ok & H).
    apply bind_Ok in H as (? & _ & H). apply bind_Ok in H as (? & _ & H).
    apply bind_Ok in H as (? & _ & H). apply bind_Ok in H as (? & _ & H).
    apply bind_Ok in H as (l & Hl & [= <-]). cbn [ic]. rewrite !orb_false_iff, !negb_false_iff in Hg.
    destruct Hg as [_ Hg%Nat.eqb_eq]. apply mapM_res_length in Hl. rewrite Hg in Hl.
    split; [done|]. by destruct l.
Qed.

Lemma encode_G1_bytes p : Forall is_byte (encode_G1 p) ∧ length (encode_G1 p) = 64%nat.
Proof.
  unfold encode_G1. rewrite length_app, !length_be_bytes. split; [|done].
  apply Forall_app. split; apply be_bytes_byte.
Qed.

Lemma encode_G2_bytes p : Forall is_byte (encode_G2 p) ∧ length (encode_G2 p) = 128%nat.
Proof.
  unfold encode_G2. rewrite !length_app, !length_be_bytes. split; [|done].
  rewrite !Forall_app. repeat (split; [apply be_bytes_byte|]). apply be_bytes_byte.
Qed.

(** A small group in place of the curve: a point's first coordinate is its logarithm modulo 97. *)
Definition toy : Bn254 := {|
  fp_modulus := 97; fp_of_string _ := None;
  g1_infinity p := X p =? 0; g1_on_curve p := Y p =? 1;
  g1_add p q := mkG1 ((X p + X q) mod 97) 1; g1_neg p := mkG1 ((- X p) mod 97) 1;
  g1_mul p n := mkG1 ((X p * n) mod 97) 1;
  g2_infinity p := X0 p =? 0; g2_on_curve p := Y0 p =? 1; g2_in_subgroup _ := true;
  pairing_check ps qs :=
    Some (foldl Z.add 0 (zip_with (λ p q, X p * X0 q) ps qs) mod 97 =? 0) |}.

(** alpha = 2, every other point of the key 1; the inputs are all 1, so their sum is 9. *)
Definition toy_key : Key :=
  mkKey (mkG1 2 1) (mkG2 1 0 1 0) (mkG2 1 0 1 0) (mkG2 1 0 1 0) (replicate 9 (mkG1 1 1)).

Lemma verify_witness :
  Verify (bn := toy) toy_key (encode_G1 (mkG1 16 1)) (encode_G2 (mkG2 1 0 1 0))
    (encode_G1 (mkG1 5 1)) (replicate 8 (fr.SetUint64 1)) = true.
Proof.
  apply (verify_is_the_groth16_equation (bn := toy) toy_key).
  - cbn. lia.
  - reflexivity.
  - apply encode_G1_bytes.
  - apply encode_G2_bytes.
  - apply encode_G1_bytes.
  - exists (mkG1 16 1), (mkG2 1 0 1 0), (mkG1 5 1). unfold proof_G1, proof_G2, canonical.
    repeat split; vm_compute; try reflexivity; try discriminate.
Defined.

End groth16.
