(* ===== verification/RelayState.v ===== *)
(** The relayer's configuration and state, of [services/internal/relayer/relayer.go] and loss.go,
    and the network it reads: the parts the submission steps (Relay.v), the outcomes
    (RelayOutcome.v) and the held requests (Held.v) share.

    Every lock of the relayer guards a part of the state that one function reads and writes at once;
    a function here is one such run, given the answers of the network, and the runs interleave in
    Held.v. Alerts and logs only tell an operator and are left out. A time is in nanoseconds. *)
From S2P Require Import Prelude.
From S2P Require Import Fr.
From S2P Require Import Xdr.
From S2P Require Import ScVal.
From S2P Require Import VaultState.
From S2P Require Import Events.
From S2P Require Import Keys.
From S2P Require Import Rpc.
From S2P Require Import Fee.
From S2P Require Import Guard.
From S2P Require Import Request.
From S2P Require Import Groth16.

Module relay.

(** The error codes of the API. *)
Definition CodeBadRequest : string := "bad_request".
Definition CodeWrongVault : string := "wrong_vault".
Definition CodeFeeTooLow : string := "fee_too_low".
Definition CodeFeeAboveCap : string := "fee_above_cap".
Definition CodeDuplicate : string := "duplicate".
Definition CodePaused : string := "paused".
Definition CodeRefused : string := "refused".
Definition CodeRejected : string := "rejected".
Definition CodeRateLimited : string := "rate_limited".
Definition CodeUnavailable : string := "unavailable".
Definition CodeRestoreNeeded : string := "restore_needed".
Definition CodeNetworkFeeHigh : string := "network_fee_high".

(** [Config] fixes what the relayer serves; durations are in nanoseconds. *)
Record Config : Type := mkConfig {
  Vault : string; NetworkID : list Z; Asset : string; FeeAddress : string; Pricing : fee.Pricing;
  LedgerSeconds : Z; MaxHeld : Z; Jitter : Z; VerifyingKey : groth16.Key; DeadlineMargin : Z;
  Cooldown : Z; BreakerFailures : Z; BreakerWindow : Z; BreakerPause : Z; RaceFailures : Z;
  RaceWindow : Z; GuardedFor : Z; FreshRoots : Z; ExitKeys : Z; QuoteFloor : Z; LossBudget : Z }.

Definition or_default (x d : Z) : Z := if x =? 0 then d else x.

(** [Config.defaults] *)
Definition defaults (c : Config) : Config :=
  mkConfig (Vault c) (NetworkID c) (Asset c) (FeeAddress c) (Pricing c)
    (or_default (LedgerSeconds c) 5) (MaxHeld c) (Jitter c) (VerifyingKey c)
    (or_default (DeadlineMargin c) 20) (or_default (Cooldown c) (24 * fee.hour))
    (or_default (BreakerFailures c) 3) (or_default (BreakerWindow c) fee.hour)
    (or_default (BreakerPause c) (30 * fee.minute)) (or_default (RaceFailures c) 5)
    (or_default (RaceWindow c) fee.hour) (or_default (GuardedFor c) fee.hour)
    (or_default (FreshRoots c) 200) (or_default (ExitKeys c) 4) (QuoteFloor c)
    (or_default (LossBudget c) 20000000).

(** [vault.Instance], by the entries the relayer reads. *)
Record Instance : Type := mkInstance {
  IConfig : vault.Config; ILimits : vault.Limits; IStatus : vault.Status }.

(** [txStatus] is a submitted transaction's state. *)
Record txStatus : Type := mkStatus { Status : string; Code : string; ExitID : option Z }.

(** [heldRequest]; [timer] is whether its timer is set. *)
Record heldRequest : Type := mkHeld {
  hash : string; hcode : string; hreason : option Z; cancelled : bool; sending : bool;
  timer : bool; nfs : fr.Element * fr.Element }.

(** [lossEntry] *)
Record lossEntry : Type := mkLoss { lledger : Z; lat : Z; lamount : Z }.

(** [Relayer], by the fields that are state. *)
Record Relayer : Type := mkRelayer {
  cfg : Config; costs : fee.Costs; history : list fee.quoted; cool : guard.cooldowns;
  brk : guard.breaker; races : guard.breaker; results : list bool;
  clock : list guard.ledgerSample; known : guard.spentSet; told : guard.verdicts;
  brief : guard.verdicts; losses : gmap string lossEntry; seen : gmap fr.Element Z;
  hits : list Z; inflight : gset fr.Element; statuses : gmap string txStatus;
  order : list string; held : Z; heldBy : gmap string heldRequest; heldOrder : list string;
  inst : option Instance; roots : gmap fr.Element Z; rootsLedger : Z; latest : Z;
  latestClose : Z }.

Definition set_costs (x : fee.Costs) (r : Relayer) : Relayer := mkRelayer (cfg r) x (history r)
  (cool r) (brk r) (races r) (results r) (clock r) (known r) (told r) (brief r) (losses r) (seen
  r) (hits r) (inflight r) (statuses r) (order r) (held r) (heldBy r) (heldOrder r) (inst r)
  (roots r) (rootsLedger r) (latest r) (latestClose r).
Definition set_history (x : list fee.quoted) (r : Relayer) : Relayer := mkRelayer (cfg r) (costs
  r) x (cool r) (brk r) (races r) (results r) (clock r) (known r) (told r) (brief r) (losses r)
  (seen r) (hits r) (inflight r) (statuses r) (order r) (held r) (heldBy r) (heldOrder r) (inst r)
  (roots r) (rootsLedger r) (latest r) (latestClose r).
Definition set_cool (x : guard.cooldowns) (r : Relayer) : Relayer := mkRelayer (cfg r) (costs r)
  (history r) x (brk r) (races r) (results r) (clock r) (known r) (told r) (brief r) (losses r)
  (seen r) (hits r) (inflight r) (statuses r) (order r) (held r) (heldBy r) (heldOrder r) (inst r)
  (roots r) (rootsLedger r) (latest r) (latestClose r).
Definition set_brk (x : guard.breaker) (r : Relayer) : Relayer := mkRelayer (cfg r) (costs r)
  (history r) (cool r) x (races r) (results r) (clock r) (known r) (told r) (brief r) (losses r)
  (seen r) (hits r) (inflight r) (statuses r) (order r) (held r) (heldBy r) (heldOrder r) (inst r)
  (roots r) (rootsLedger r) (latest r) (latestClose r).
Definition set_races (x : guard.breaker) (r : Relayer) : Relayer := mkRelayer (cfg r) (costs r)
  (history r) (cool r) (brk r) x (results r) (clock r) (known r) (told r) (brief r) (losses r)
  (seen r) (hits r) (inflight r) (statuses r) (order r) (held r) (heldBy r) (heldOrder r) (inst r)
  (roots r) (rootsLedger r) (latest r) (latestClose r).
Definition set_results (x : list bool) (r : Relayer) : Relayer := mkRelayer (cfg r) (costs r)
  (history r) (cool r) (brk r) (races r) x (clock r) (known r) (told r) (brief r) (losses r) (seen
  r) (hits r) (inflight r) (statuses r) (order r) (held r) (heldBy r) (heldOrder r) (inst r)
  (roots r) (rootsLedger r) (latest r) (latestClose r).
Definition set_clock (x : list guard.ledgerSample) (r : Relayer) : Relayer := mkRelayer (cfg r)
  (costs r) (history r) (cool r) (brk r) (races r) (results r) x (known r) (told r) (brief r)
  (losses r) (seen r) (hits r) (inflight r) (statuses r) (order r) (held r) (heldBy r) (heldOrder
  r) (inst r) (roots r) (rootsLedger r) (latest r) (latestClose r).
Definition set_known (x : guard.spentSet) (r : Relayer) : Relayer := mkRelayer (cfg r) (costs r)
  (history r) (cool r) (brk r) (races r) (results r) (clock r) x (told r) (brief r) (losses r)
  (seen r) (hits r) (inflight r) (statuses r) (order r) (held r) (heldBy r) (heldOrder r) (inst r)
  (roots r) (rootsLedger r) (latest r) (latestClose r).
Definition set_told (x : guard.verdicts) (r : Relayer) : Relayer := mkRelayer (cfg r) (costs r)
  (history r) (cool r) (brk r) (races r) (results r) (clock r) (known r) x (brief r) (losses r)
  (seen r) (hits r) (inflight r) (statuses r) (order r) (held r) (heldBy r) (heldOrder r) (inst r)
  (roots r) (rootsLedger r) (latest r) (latestClose r).
Definition set_brief (x : guard.verdicts) (r : Relayer) : Relayer := mkRelayer (cfg r) (costs r)
  (history r) (cool r) (brk r) (races r) (results r) (clock r) (known r) (told r) x (losses r)
  (seen r) (hits r) (inflight r) (statuses r) (order r) (held r) (heldBy r) (heldOrder r) (inst r)
  (roots r) (rootsLedger r) (latest r) (latestClose r).
Definition set_losses (x : gmap string lossEntry) (r : Relayer) : Relayer := mkRelayer (cfg r)
  (costs r) (history r) (cool r) (brk r) (races r) (results r) (clock r) (known r) (told r) (brief
  r) x (seen r) (hits r) (inflight r) (statuses r) (order r) (held r) (heldBy r) (heldOrder r)
  (inst r) (roots r) (rootsLedger r) (latest r) (latestClose r).
Definition set_seen (x : gmap fr.Element Z) (r : Relayer) : Relayer := mkRelayer (cfg r) (costs r)
  (history r) (cool r) (brk r) (races r) (results r) (clock r) (known r) (told r) (brief r)
  (losses r) x (hits r) (inflight r) (statuses r) (order r) (held r) (heldBy r) (heldOrder r)
  (inst r) (roots r) (rootsLedger r) (latest r) (latestClose r).
Definition set_hits (x : list Z) (r : Relayer) : Relayer := mkRelayer (cfg r) (costs r) (history
  r) (cool r) (brk r) (races r) (results r) (clock r) (known r) (told r) (brief r) (losses r)
  (seen r) x (inflight r) (statuses r) (order r) (held r) (heldBy r) (heldOrder r) (inst r) (roots
  r) (rootsLedger r) (latest r) (latestClose r).
Definition set_inflight (x : gset fr.Element) (r : Relayer) : Relayer := mkRelayer (cfg r) (costs
  r) (history r) (cool r) (brk r) (races r) (results r) (clock r) (known r) (told r) (brief r)
  (losses r) (seen r) (hits r) x (statuses r) (order r) (held r) (heldBy r) (heldOrder r) (inst r)
  (roots r) (rootsLedger r) (latest r) (latestClose r).
Definition set_statuses (x : gmap string txStatus) (r : Relayer) : Relayer := mkRelayer (cfg r)
  (costs r) (history r) (cool r) (brk r) (races r) (results r) (clock r) (known r) (told r) (brief
  r) (losses r) (seen r) (hits r) (inflight r) x (order r) (held r) (heldBy r) (heldOrder r) (inst
  r) (roots r) (rootsLedger r) (latest r) (latestClose r).
Definition set_order (x : list string) (r : Relayer) : Relayer := mkRelayer (cfg r) (costs r)
  (history r) (cool r) (brk r) (races r) (results r) (clock r) (known r) (told r) (brief r)
  (losses r) (seen r) (hits r) (inflight r) (statuses r) x (held r) (heldBy r) (heldOrder r) (inst
  r) (roots r) (rootsLedger r) (latest r) (latestClose r).
Definition set_held (x : Z) (r : Relayer) : Relayer := mkRelayer (cfg r) (costs r) (history r)
  (cool r) (brk r) (races r) (results r) (clock r) (known r) (told r) (brief r) (losses r) (seen
  r) (hits r) (inflight r) (statuses r) (order r) x (heldBy r) (heldOrder r) (inst r) (roots r)
  (rootsLedger r) (latest r) (latestClose r).
Definition set_heldBy (x : gmap string heldRequest) (r : Relayer) : Relayer := mkRelayer (cfg r)
  (costs r) (history r) (cool r) (brk r) (races r) (results r) (clock r) (known r) (told r) (brief
  r) (losses r) (seen r) (hits r) (inflight r) (statuses r) (order r) (held r) x (heldOrder r)
  (inst r) (roots r) (rootsLedger r) (latest r) (latestClose r).
Definition set_heldOrder (x : list string) (r : Relayer) : Relayer := mkRelayer (cfg r) (costs r)
  (history r) (cool r) (brk r) (races r) (results r) (clock r) (known r) (told r) (brief r)
  (losses r) (seen r) (hits r) (inflight r) (statuses r) (order r) (held r) (heldBy r) x (inst r)
  (roots r) (rootsLedger r) (latest r) (latestClose r).
Definition set_inst (x : option Instance) (r : Relayer) : Relayer := mkRelayer (cfg r) (costs r)
  (history r) (cool r) (brk r) (races r) (results r) (clock r) (known r) (told r) (brief r)
  (losses r) (seen r) (hits r) (inflight r) (statuses r) (order r) (held r) (heldBy r) (heldOrder
  r) x (roots r) (rootsLedger r) (latest r) (latestClose r).
Definition set_roots (x : gmap fr.Element Z) (r : Relayer) : Relayer := mkRelayer (cfg r) (costs
  r) (history r) (cool r) (brk r) (races r) (results r) (clock r) (known r) (told r) (brief r)
  (losses r) (seen r) (hits r) (inflight r) (statuses r) (order r) (held r) (heldBy r) (heldOrder
  r) (inst r) x (rootsLedger r) (latest r) (latestClose r).
Definition set_rootsLedger (x : Z) (r : Relayer) : Relayer := mkRelayer (cfg r) (costs r) (history
  r) (cool r) (brk r) (races r) (results r) (clock r) (known r) (told r) (brief r) (losses r)
  (seen r) (hits r) (inflight r) (statuses r) (order r) (held r) (heldBy r) (heldOrder r) (inst r)
  (roots r) x (latest r) (latestClose r).
Definition set_latest (x : Z) (r : Relayer) : Relayer := mkRelayer (cfg r) (costs r) (history r)
  (cool r) (brk r) (races r) (results r) (clock r) (known r) (told r) (brief r) (losses r) (seen
  r) (hits r) (inflight r) (statuses r) (order r) (held r) (heldBy r) (heldOrder r) (inst r)
  (roots r) (rootsLedger r) x (latestClose r).
Definition set_latestClose (x : Z) (r : Relayer) : Relayer := mkRelayer (cfg r) (costs r) (history
  r) (cool r) (brk r) (races r) (results r) (clock r) (known r) (told r) (brief r) (losses r)
  (seen r) (hits r) (inflight r) (statuses r) (order r) (held r) (heldBy r) (heldOrder r) (inst r)
  (roots r) (rootsLedger r) (latest r) x.

Definition maxStatuses : Z := 10000.
Definition maxKnownSpent : Z := 1000000.
Definition verdictLifetime : Z := 10 * fee.minute.
Definition maxVerdicts : Z := 10000.
Definition briefVerdictLifetime : Z := fee.minute.

(** [New], given what the database kept: the samples, the outcomes and the cooldowns. *)
Definition New (c : Config) (bootstrapCost : Z) (samples : list Z) (past : list bool)
    (cooling : list (string * (Z * Z))) : res Relayer :=
  _ ← fee.Validate (Pricing c);
  let c := defaults c in
  mret (mkRelayer c (fee.NewCosts bootstrapCost samples) []
    (foldl (λ cool e, guard.restore cool e.1 e.2.1 e.2.2) guard.no_cooldowns cooling)
    (guard.new_breaker (BreakerFailures c) (BreakerWindow c) (BreakerPause c))
    (guard.new_breaker (RaceFailures c) (RaceWindow c) (GuardedFor c))
    (foldl guard.outcomes_add [] past) []
    (guard.no_spent maxKnownSpent) (guard.no_verdicts verdictLifetime maxVerdicts)
    (guard.no_verdicts briefVerdictLifetime maxVerdicts) ∅ ∅ [] ∅ ∅ [] 0 ∅ [] None ∅ 0 0 0).

(** ** Failures *)

Definition fail (status : Z) (code : string) : guard.failure :=
  guard.mkFailure status code None None false.
Definition settledFail (status : Z) (code : string) : guard.failure :=
  guard.mkFailure status code None None true.
Definition networkFeeHigh (stroops : Z) : guard.failure :=
  guard.mkFailure 422 CodeNetworkFeeHigh None (Some stroops) false.

(** ** Modes *)

(** [Relayer.guarded] *)
Definition guarded (r : Relayer) (now : Z) : bool := guard.open (races r) now.

Definition deadlineMargin (r : Relayer) (now : Z) : Z :=
  if guarded r now then 2 * DeadlineMargin (cfg r) else DeadlineMargin (cfg r).

(** ** Quotes

    The pricing was validated by [New], so the arithmetic of quotes does not panic; [None] is its
    panic. *)

(** [Relayer.Margin] *)
Definition Margin (r : Relayer) : Z :=
  Z.min (i64 (fee.MarginBps (Pricing (cfg r)) + guard.failureBps (results r))) fee.MaxMarginBps.

(** [Relayer.FloorFee]: the inner [None] is no floor. *)
Definition FloorFee (r : Relayer) : option (option Z) :=
  if QuoteFloor (cfg r) <=? 0 then Some None
  else Some <$> fee.QuoteAt (Pricing (cfg r)) (QuoteFloor (cfg r)) 0.

(** [wouldQueue] reports whether the vault, as last read, queues a payment of outflow. *)
Definition wouldQueue (i : Instance) (closedAt outflow : Z) : bool :=
  if Z.sgn outflow <=? 0 then false
  else if negb (vault.ExitHead (IStatus i) =? vault.ExitTail (IStatus i)) then true
  else
    let today := vault.OutflowOn (IStatus i) (u64 closedAt / 86400) in
    vault.MaxDailyOutflow (ILimits i) <? today + outflow.

Definition ErrNoQuote : gerr := Sentinel "relayer: no quote".

(** The closure [price] of [Relayer.Quote]. *)
Definition price (r : Relayer) (cost : Z) : option Z :=
  f ← fee.QuoteAt (Pricing (cfg r)) cost (Margin r);
  floor ← FloorFee r;
  Some (match floor with Some fl => if f <? fl then fl else f | None => f end).

(** [Relayer.Quote], given the inclusion fee and the queued extra the engine reads ([None] is an
    error of either). *)
Definition Quote (r : Relayer) (now : Z) (inclusion extra : option Z) : option (Relayer * res Z) :=
  match inclusion, extra with
  | Some inclusion, Some extra =>
      let cost := i64 (fee.ResourceFee (costs r) + inclusion) in
      f ← price r cost; queued ← price r (i64 (cost + extra));
      Some (match inst r with
      | None => (r, Fail ErrNoQuote)
      | Some i =>
          let f := if wouldQueue i (latestClose r) f then queued else f in
          if vault.MaxFee (ILimits i) <? f then (r, Fail ErrNoQuote)
          else
            let q := if vault.MaxFee (ILimits i) <? queued then None else Some queued in
            (set_history (fee.publish (history r) now f q) r, Ok f)
      end)
  | _, _ => Some (r, Fail ErrNoQuote)
  end.

(** [Relayer.CurrentQuote] *)
Definition CurrentQuote (r : Relayer) (now : Z) (inclusion extra : option Z)
    : option (Relayer * res (option Z * option Z)) :=
  match fee.newest (history r) (now - 15 * fee.second) with
  | (Some f, queued) => Some (r, Ok (Some f, queued))
  | (None, _) =>
      '(r, q) ← Quote r now inclusion extra;
      Some (r, match q with
               | Fail e => Fail e
               | Ok _ => Ok (fee.newest (history r) guard.zero_time)
               end)
  end.

(** [Relayer.minimumFee] is the least fee a request may pay now. *)
Definition minimumFee (r : Relayer) (now : Z) (q : request.Request) : option guard.failure :=
  match inst r with
  | None => Some (fail 503 CodeUnavailable)
  | Some i =>
      let e := request.Ext q in
      let low :=
        if wouldQueue i (latestClose r) (keys.Fee e - keys.ExtAmount e)
        then fee.lowestQueued (history r) now else fee.lowest (history r) now in
      match low with
      | None => Some (fail 503 CodeUnavailable)
      | Some low => if keys.Fee e <? low then Some (fail 400 CodeFeeTooLow) else None
      end
  end.

(** [Relayer.CheckQuoteFloor], given the vault it reads. *)
Definition CheckQuoteFloor (r : Relayer) (read : res Instance) : option (res unit) :=
  floor ← FloorFee r;
  Some (match floor with
  | None => Ok tt
  | Some fl =>
      i ← read;
      fail_if (vault.MaxFee (ILimits i) <? fl)
        (Wrapf (Sentinel "") "relayer: QUOTE_FLOOR makes a fee of %v, above the vault's max_fee %v"
           [FInt fl; FInt (vault.MaxFee (ILimits i))])
  end).

(** ** Losses *)

Definition lossWindow : Z := 17280.
Definition lossAge : Z := 24 * fee.hour.

(** [losses.addAt] at a known time. *)
Definition addAt (m : gmap string lossEntry) (h : string) (ledger at_ amount : Z)
    : gmap string lossEntry :=
  match m !! h with Some _ => m | None => <[h := mkLoss ledger at_ amount]> m end.

(** A loss that [losses.sum] drops. *)
Definition expired (latest now : Z) (e : lossEntry) : bool :=
  (lledger e + lossWindow <=? latest) && (lossAge <=? guard.Sub now (lat e)).

(** [losses.sum] returns the losses not yet dropped and drops the others. *)
Definition sum_losses (m : gmap string lossEntry) (latest now : Z) : gmap string lossEntry * Z :=
  let kept := filter (λ p, Is_true (negb (expired latest now p.2))) m in
  (kept, map_fold (λ _ e total, lamount e + total) 0 kept).

(** [Relayer.loss] is what a confirmed relay was charged above the fee it paid, or nil; the outer
    [None] is a panic. The fee is its decimal. *)
Definition loss (r : Relayer) (charged : Z) (paid : string) : option (option Z) :=
  match request.SetString paid with
  | None => Some None
  | Some paid =>
      asset ← fee.ToAsset (Pricing (cfg r)) charged;
      let over := asset - paid in
      Some (if Z.sgn over <=? 0 then None else Some over)
  end.

(** [Relayer.overBudget]: it drops the losses of past days. *)
Definition overBudget (r : Relayer) (now : Z) : option (Relayer * bool) :=
  let '(m, total) := sum_losses (losses r) (latest r) now in
  budget ← fee.ToAsset (Pricing (cfg r)) (LossBudget (cfg r));
  Some (set_losses m r, budget <? total).

(** [Relayer.chargedAbove] records a confirmed relay charged more than the fee it paid. *)
Definition chargedAbove (r : Relayer) (now : Z) (h : string) (ledger charged : Z) (paid : string)
    : option Relayer :=
  over ← loss r charged paid;
  match over with
  | None => Some r
  | Some over => Some (set_losses (sum_losses (addAt (losses r) h ledger now over) (latest r) now).1 r)
  end.

(** [charge] is a confirmed relay of the database's records. *)
Record charge : Type := mkCharge {
  ch_hash : string; ch_ledger : Z; ch_fee : string; ch_networkFee : Z; ch_finishedAt : Z }.

(** One turn of the loop of [Relayer.loadLosses]. *)
Definition load_loss (r : Relayer) (now : Z) (c : charge) : option Relayer :=
  over ← loss r (ch_networkFee c) (ch_fee c);
  Some (match over with
  | None => r
  | Some over =>
      let at_ := if 0 <? ch_finishedAt c then ch_finishedAt c * fee.second else now in
      set_losses (addAt (losses r) (ch_hash c) (ch_ledger c) at_ over) r
  end).

(** [Relayer.loadLosses], with [lossesLoaded] and the charges the database returns: the relayer, the
    flag and the error. *)
Definition loadLosses (r : Relayer) (loaded : bool) (now : Z) (read : res (list charge))
    : option (Relayer * bool * option gerr) :=
  if loaded then Some (r, true, None)
  else
    match read with
    | Fail e => Some (r, false, Some e)
    | Ok charges => r ← foldl (λ r c, r ← r; load_loss r now c) (Some r) charges; Some (r, true, None)
    end.

Definition belowCostRequests : Z := 3.
Definition belowCostWindow : Z := fee.hour.

(** [Relayer.refusedAtQuote] counts a request refused for its network fee though it paid the
    published quote, and reports whether it alerts. *)
Definition refusedAtQuote (r : Relayer) (now : Z) (q : request.Request) : Relayer * bool :=
  let young := λ at_, Is_true (guard.Sub now at_ <? belowCostWindow) in
  let seen1 := filter (λ p, young p.2) (seen r) in
  let hits1 := filter young (hits r) in
  let '(n0, n1) := keys.Nullifiers (request.Proof q) in
  let known0 := bool_decide (is_Some (seen1 !! n0)) in
  let known1 := bool_decide (is_Some (seen1 !! n1)) in
  let hits2 := if negb known0 && negb known1 then hits1 ++ [now] else hits1 in
  (set_hits hits2 (set_seen (<[n1 := now]> (<[n0 := now]> seen1)) r),
   belowCostRequests <=? Z.of_nat (length hits2)).

(** * Specification *)

(** The losses recorded and the sums taken, in any order: confirmed relays, the records of earlier
    runs, and the checks of the budget. *)
Inductive loss_op : Type :=
| OpLoss (h : string) (e : lossEntry)
| OpSum (latest now : Z).

Definition loss_step (m : gmap string lossEntry) (op : loss_op) : gmap string lossEntry :=
  match op with
  | OpLoss h e => addAt m h (lledger e) (lat e) (lamount e)
  | OpSum latest now => (sum_losses m latest now).1
  end.

(** The losses ever recorded, each by its first record. *)
Definition recorded (ops : list loss_op) : gmap string lossEntry :=
  foldl (λ m op, match op with OpLoss h e => addAt m h (lledger e) (lat e) (lamount e) | OpSum _ _ => m end) ∅ ops.

Definition total (m : gmap string lossEntry) : Z := map_fold (λ _ e t, lamount e + t) 0 m.

(** The losses of the last day: those of the ledgers or of the hours it holds. *)
Definition of_the_day (latest now : Z) (m : gmap string lossEntry) : gmap string lossEntry :=
  filter (λ p, latest < lledger p.2 + lossWindow ∨ now - lat p.2 < lossAge) m.

(** * Lemmas *)

Lemma expired_iff latest now e :
  expired latest now e = true ↔ lledger e + lossWindow <= latest ∧ lossAge <= now - lat e.
Proof.
  unfold expired, guard.Sub, lossAge, fee.hour, fee.minute, fee.second.
  rewrite andb_true_iff, !Z.leb_le. split; intros [? ?]; (split; [done|lia]).
Qed.

Lemma expired_later latest now latest' now' e : latest <= latest' → now <= now' →
  expired latest now e = true → expired latest' now' e = true.
Proof. rewrite !expired_iff. lia. Qed.

Lemma addAt_lookup m h e h' : addAt m h (lledger e) (lat e) (lamount e) !! h' =
  match m !! h' with Some x => Some x | None => if decide (h = h') then Some e else None end.
Proof.
  unfold addAt. destruct e as [l a x]. cbn. destruct (m !! h) as [y|] eqn:E.
  - destruct (decide (h = h')) as [<-|]; [by rewrite E|]. by destruct (m !! h').
  - destruct (decide (h = h')) as [<-|Hn]; [by rewrite lookup_insert_eq, E|].
    rewrite lookup_insert_ne by done. by destruct (m !! h').
Qed.

Lemma sum_losses_lookup m latest now h e :
  (sum_losses m latest now).1 !! h = Some e ↔ m !! h = Some e ∧ expired latest now e = false.
Proof.
  unfold sum_losses. cbn [fst]. rewrite map_lookup_filter_Some. cbn [snd].
  by rewrite Is_true_true, negb_true_iff.
Qed.

(** What is kept against all that was recorded: a loss is there as it was first recorded, or it is
    expired, whatever is there. *)
Definition keeps (latest now : Z) (m full : gmap string lossEntry) : Prop :=
  ∀ h, match full !! h with
       | Some e => m !! h = Some e ∨
           expired latest now e = true ∧ ∀ e', m !! h = Some e' → expired latest now e' = true
       | None => m !! h = None
       end.

Lemma recorded_app ops op : recorded (ops ++ [op]) =
  match op with OpLoss h e => addAt (recorded ops) h (lledger e) (lat e) (lamount e) | OpSum _ _ => recorded ops end.
Proof. unfold recorded. by rewrite foldl_app. Qed.

Lemma keeps_run latest now ops :
  (∀ l t, OpSum l t ∈ ops → l <= latest ∧ t <= now) →
  (∀ h e e0, OpLoss h e ∈ ops → recorded ops !! h = Some e0 → lledger e = lledger e0 ∧ lat e <= lat e0) →
  keeps latest now (foldl loss_step ∅ ops) (recorded ops).
Proof.
  induction ops as [|op ops IH] using rev_ind; intros Hs He; [done|].
  assert (∀ h e0, recorded ops !! h = Some e0 → recorded (ops ++ [op]) !! h = Some e0) as Hmono.
  { intros h e0 H. rewrite recorded_app. destruct op; [|done]. rewrite addAt_lookup, H. done. }
  assert (keeps latest now (foldl loss_step ∅ ops) (recorded ops)) as K.
  { apply IH; [intros l t H; apply Hs|intros h e e0 H H0; apply (He h e e0); [|by apply Hmono]];
      apply elem_of_app; by left. }
  rewrite foldl_app. cbn [foldl]. set (m := foldl loss_step ∅ ops) in *. intros h. specialize (K h).
  destruct op as [h' e|l t]; cbn [loss_step].
  - assert (∀ e0, recorded ops !! h' = Some e0 → lledger e = lledger e0 ∧ lat e <= lat e0) as He'.
    { intros e0 H. apply (He h' e e0); [apply elem_of_app; right; by left|by apply Hmono]. }
    rewrite recorded_app, !addAt_lookup. destruct (recorded ops !! h) as [e0|] eqn:E0.
    + destruct (m !! h) as [x|] eqn:Em; [destruct K as [K|[K1 K2]]; [by left|by right]|].
      destruct K as [K|[K1 _]]; [done|right]. split; [done|]. intros e'.
      destruct (decide (h' = h)) as [->|]; [|done]. intros [= <-]. destruct (He' _ E0).
      apply expired_iff. apply expired_iff in K1. lia.
    + rewrite K. destruct (decide (h' = h)); [by left|done].
  - rewrite recorded_app. destruct (Hs l t) as [Hl Ht]; [apply elem_of_app; right; by left|].
    destruct (recorded ops !! h) as [e0|].
    + destruct K as [K|[K1 K2]].
      * destruct (expired l t e0) eqn:Ee.
        -- right. split; [by apply (expired_later l t)|]. intros e' [H1 H2]%sum_losses_lookup. congruence.
        -- left. by apply sum_losses_lookup.
      * right. split; [done|]. intros e' [H _]%sum_losses_lookup. by apply K2.
    + apply eq_None_not_Some. intros [x [H _]%sum_losses_lookup]. congruence.
Qed.

(** What the budget takes as lost is what the unexpired records say. *)
Lemma sum_of_the_day latest now m full : keeps latest now m full →
  (sum_losses m latest now).1 = of_the_day latest now full.
Proof.
  intros K. apply map_eq. intros h. apply option_eq. intros e. rewrite sum_losses_lookup.
  unfold of_the_day. rewrite map_lookup_filter_Some. cbn [snd].
  assert (expired latest now e = false ↔ latest < lledger e + lossWindow ∨ now - lat e < lossAge) as ->.
  { rewrite <- not_true_iff_false, expired_iff. lia. }
  specialize (K h). split; intros [H1 H2]; (split; [|done]).
  - destruct (full !! h) as [e0|]; [|congruence]. destruct K as [K|[_ K]]; [congruence|].
    apply K, expired_iff in H1. lia.
  - rewrite H1 in K. destruct K as [K|[K _]]; [done|]. apply expired_iff in K. lia.
Qed.

(** ** Quotes *)

(** The fee a quote asks of a payment, by the path it takes. *)
Definition asked (queues : bool) (x : fee.quoted) : option Z :=
  if queues then fee.queued x else Some (fee.qfee x).

Lemma asked_least log now queues : (∀ x, x ∈ log → fee.at_ x <= now) →
  fee.is_least (if queues : bool then fee.lowestQueued (fee.run log) now else fee.lowest (fee.run log) now)
    (omap (asked queues) (fee.quoted_within log now)).
Proof.
  intros H. rewrite <- (fee.quoted_within_run log now H). destruct queues; cbn [asked].
  - apply fee.lowestQueued_least.
  - assert (∀ l, omap (asked false) l = map fee.qfee l) as ->; [|apply fee.lowest_least].
    induction l as [|x l IH]; [done|]. cbn. by rewrite IH.
Qed.

(** * Properties *)

(** The loss budget counts what relays were charged above their fees within the last day, and each
    relay once: whatever was recorded, summed and dropped before, and however often a relay is recorded
    again, as one followed before the records are read is (with the same ledger and a time no later),
    the sum is that of the relays of the last 17280 ledgers or 24 hours; and the relayer is over budget
    exactly when it is above the budget's price. *)
Theorem loss_budget_counts_the_day (r : Relayer) (ops : list loss_op) (now b : Z)
    (Hr : losses r = foldl loss_step ∅ ops)
    (Hs : ∀ l t, OpSum l t ∈ ops → l <= latest r ∧ t <= now)
    (He : ∀ h e e0, OpLoss h e ∈ ops → recorded ops !! h = Some e0 → lledger e = lledger e0 ∧ lat e <= lat e0)
    (Hb : fee.ToAsset (Pricing (cfg r)) (LossBudget (cfg r)) = Some b) :
  ∃ r', overBudget r now = Some (r', bool_decide (b < total (of_the_day (latest r) now (recorded ops)))) ∧
    losses r' = of_the_day (latest r) now (recorded ops).
Proof.
  pose proof (sum_of_the_day _ _ _ _ (keeps_run (latest r) now ops Hs He)) as Hk. rewrite <- Hr in Hk.
  unfold overBudget. rewrite Hb. destruct (sum_losses (losses r) (latest r) now) as [m t] eqn:E.
  cbn [fst] in Hk.
  assert (t = total m) as -> by (injection E as E1 E2; by rewrite <- E1, <- E2). subst m.
  cbn [mbind option_bind]. exists (set_losses (of_the_day (latest r) now (recorded ops)) r).
  split; [|reflexivity]. do 2 f_equal.
  destruct (Z.ltb_spec b (total (of_the_day (latest r) now (recorded ops)))) as [H|H].
  - by rewrite bool_decide_eq_true_2.
  - rewrite bool_decide_eq_false_2; [done|]. lia.
Qed.

(** Quotes are honoured: a request that pays what any quote of the last five minutes asked of its
    path, paid at once or queued as the vault was last read, is not refused for its fee, and one that
    is accepted pays what some such quote asked; and a quote given is published, at most the vault's
    fee cap and no less than the floor. *)
Theorem quotes_are_honoured (r : Relayer) (log : list fee.quoted) (now : Z) (q : request.Request) (i : Instance)
    (Hi : inst r = Some i) (Hh : history r = fee.run log) (Hl : ∀ x, x ∈ log → fee.at_ x <= now) :
  let queues := wouldQueue i (latestClose r) (keys.Fee (request.Ext q) - keys.ExtAmount (request.Ext q)) in
  (minimumFee r now q = None ↔ ∃ x f, x ∈ log ∧ now - fee.QuoteLifetime <= fee.at_ x ∧ asked queues x = Some f ∧
     f <= keys.Fee (request.Ext q)) ∧
  ∀ inclusion extra r' f, Quote r now inclusion extra = Some (r', Ok f) →
    f <= vault.MaxFee (ILimits i) ∧ (∀ fl, FloorFee r = Some (Some fl) → fl <= f) ∧
    ∃ queued, history r' = fee.run (log ++ [fee.mkQuoted now f queued]).
Proof.
  intros queues. split.
  - unfold minimumFee. rewrite Hi. fold queues. pose proof (asked_least log now queues Hl) as H.
    rewrite <- Hh in H. cbv zeta.
    destruct (if queues then _ else _) as [low|]; cbn [fee.is_least] in H.
    + destruct H as [H1 H2]. destruct (Z.ltb_spec (keys.Fee (request.Ext q)) low) as [Hlt|Hge].
      * split; [done|]. intros (x & f & Hx & Ha & Hf & Hle).
        assert (low <= f); [|lia]. apply H2, list_elem_of_omap. exists x. split; [|done].
        by apply list_elem_of_filter.
      * split; [intros _|done]. apply list_elem_of_omap in H1 as (x & [Ha Hx]%list_elem_of_filter & Hf).
        by exists x, low.
    + split; [done|]. intros (x & f & Hx & Ha & Hf & _).
      assert (f ∈ omap (asked queues) (fee.quoted_within log now)) as Hin; [|rewrite H in Hin; by apply elem_of_nil in Hin].
      apply list_elem_of_omap. exists x. split; [|done]. by apply list_elem_of_filter.
  - intros inclusion extra r' f. unfold Quote.
    destruct inclusion as [inc|]; [|discriminate]. destruct extra as [ex|]; [|discriminate].
    rewrite Hi. unfold price. destruct (FloorFee r) as [fl|] eqn:Efl; cbn [mbind option_bind];
      [|destruct (fee.QuoteAt _ (i64 (fee.ResourceFee (costs r) + inc)) _); intros Hx; discriminate Hx].
    destruct (fee.QuoteAt _ (i64 (fee.ResourceFee (costs r) + inc)) _) as [f1|]; cbn [mbind option_bind]; [|discriminate].
    destruct (fee.QuoteAt _ _ _) as [f2|]; cbn [mbind option_bind]; [|discriminate].
    destruct (vault.MaxFee (ILimits i) <? _) eqn:Em; [discriminate|]. apply Z.ltb_ge in Em.
    intros [= <- <-]. split; [exact Em|]. split.
    + intros fl0 [= ->]. destruct (Z.ltb_spec f1 fl0), (Z.ltb_spec f2 fl0); case_match; lia.
    + cbn [history set_history]. unfold fee.run. setoid_rewrite foldl_app. cbn [foldl fee.at_ fee.qfee fee.queued].
      rewrite Hh. by eexists.
Qed.

(** ** A relayer to evaluate the theorems on

    Native vault 7, fee address 2. *)
Definition demo_config : Config :=
  defaults (mkConfig (example.contract 7) (replicate 32 4) "native" (example.account 2)
    (fee.mkPricing true None None 0 (Some 1)) 5 2 0 groth16.toy_key 20 0 0 0 0 0 0 0 0 0 0 0).

Definition demo_instance : Instance :=
  mkInstance (vault.mkConfig (example.contract 9) (fr.SetUint64 1) (example.account 3) (example.account 4) 0 0)
    (vault.mkLimits 1 1000 1000 1000 500 200 100)
    (vault.mkStatus false false 0 0 1 1 900 0 0 1 1 0 0).

(** Root 5 was read at ledger 9 and a fee of 90 is quoted. *)
Definition demo_relayer : Relayer :=
  mkRelayer demo_config (fee.NewCosts 80 []) [fee.mkQuoted 0 90 (Some 120)] guard.no_cooldowns
    (guard.new_breaker 3 fee.hour fee.hour) (guard.new_breaker 5 fee.hour fee.hour) [] []
    (guard.no_spent maxKnownSpent) (guard.no_verdicts verdictLifetime maxVerdicts)
    (guard.no_verdicts briefVerdictLifetime maxVerdicts) ∅ ∅ [] ∅ ∅ [] 0 ∅ [] (Some demo_instance)
    {[ fr.SetUint64 5 := 3 ]} 9 9 60.

Lemma losses_witness : ∃ r',
  overBudget (set_losses (foldl loss_step ∅ [OpLoss "a" (mkLoss 5 0 30000000); OpSum 9 fee.hour;
      OpLoss "a" (mkLoss 5 0 30000000)]) demo_relayer) fee.hour = Some (r', true).
Proof.
  destruct (loss_budget_counts_the_day (set_losses (foldl loss_step ∅ [OpLoss "a" (mkLoss 5 0 30000000);
      OpSum 9 fee.hour; OpLoss "a" (mkLoss 5 0 30000000)]) demo_relayer)
    [OpLoss "a" (mkLoss 5 0 30000000); OpSum 9 fee.hour; OpLoss "a" (mkLoss 5 0 30000000)] fee.hour 20000000)
    as (r' & H & _).
  - reflexivity.
  - intros l t [H|[H|[H|[]%elem_of_nil]%elem_of_cons]%elem_of_cons]%elem_of_cons; try discriminate H.
    injection H as -> ->. split; vm_compute; discriminate.
  - intros h e e0 Hin H0. assert (recorded [OpLoss "a" (mkLoss 5 0 30000000); OpSum 9 fee.hour;
      OpLoss "a" (mkLoss 5 0 30000000)] = {[ "a" := mkLoss 5 0 30000000 ]}) as Hr by (vm_compute; reflexivity).
    rewrite Hr in H0. apply lookup_singleton_Some in H0 as [<- <-].
    apply elem_of_cons in Hin as [[= ->]|Hin]; [done|]. apply elem_of_cons in Hin as [Hin|Hin]; [discriminate Hin|].
    apply elem_of_cons in Hin as [[= ->]|[]%elem_of_nil]. done.
  - reflexivity.
  - exists r'. rewrite H. do 2 f_equal.
Defined.

Lemma honoured_witness : minimumFee demo_relayer fee.minute request.sample_request ≠ None ∧ fee.lowest (history demo_relayer) fee.minute = Some 90.
Proof.
  split; [|reflexivity]. intros H.
  apply (quotes_are_honoured demo_relayer [fee.mkQuoted 0 90 (Some 120)] fee.minute _ demo_instance) in H
    as (x & f & Hx & _ & Hf & Hle).
  - apply list_elem_of_singleton in Hx as ->. revert Hf Hle. vm_compute. intros [= <-] H. by apply H.
  - reflexivity.
  - reflexivity.
  - intros x ->%list_elem_of_singleton. vm_compute. discriminate.
Defined.

End relay.
