(* ===== verification/Relay.v ===== *)
(** The submission of a relayed transaction, [Relayer.Submit] of
    [services/internal/relayer/relayer.go] with the steps it runs in order: the local checks of form,
    vault, fee and proof, the memory of refusals, the cooldowns and the in-flight claim, then, for a
    request that is not held, the checks against the chain as it is now, screening, simulation and
    sending.

    The network is a [rpc.Client], and the rest of the world an [Env]: what the limiters, the channel
    pool, screening, the submission engine and the network answer this run. A run reads one clock.
    The estimate [ledgerAt] of guard.go computes in floating point and is a parameter. *)
From stdpp Require Import pretty.
From S2P Require Import Prelude.
From S2P Require Import Fr.
From S2P Require Import Xdr.
From S2P Require Import ScVal.
From S2P Require Import VaultState.
From S2P Require Import Events.
From S2P Require Import Keys.
From S2P Require Import Rpc.
From S2P Require Import Fee.
From S2P Require Import Guard.
From S2P Require Import Request.
From S2P Require Import Groth16.
From S2P Require Import RelayState.

Module submit.

Import scval relay.

(** What screening answers for a destination. *)
Inductive Screening : Type :=
| ScreenAllow
| ScreenRefuse (reason : Z)
| ScreenWithheld
| ScreenError.

(** What [prepare] gives: the simulated call and whether it holds the exit slot, or its error. *)
Inductive Prepared : Type :=
| PreparedOk (expected maxFee inclusion simulatedAt : Z) (slot : bool)
| PrepareRestoreNeeded
| PrepareFeeCap (inclusion resource : Z)
| PrepareSimulation
| PrepareError.

(** What [engine.Send] answers. *)
Inductive SendAnswer : Type :=
| Sent (hash : string)
| SendRejected
| SendError.

(** The rest of the world, for one run. [late] is the network right before the transaction is sent. *)
Record Env : Type := mkEnv {
  client : rpc.Client; late : rpc.Client; costlyAllow : bool; simulateAllow : bool;
  channel : option string; screen : string → Screening; prepared : Prepared; answer : SendAnswer;
  heldID : string }.

(** [Record] of store.go, by what a sent transaction's record holds. *)
Record Rec : Type := mkRec {
  RHash : string; RKind : string; RFee : string; RChannel : string; RRequest : string;
  RNullifiers : string * string; RSimulatedAt : Z; RExpected : Z; RDestination : string }.

(** [Accepted], with the record of a transaction that was sent. *)
Inductive Accepted : Type :=
| AcceptedSent (hash : string) (rec : Rec) (slot : bool)
| AcceptedHeld (id : string).

Definition answered (A : Type) : Type := sum guard.failure A.

Section submit.
Context {sdk : StellarSDK} {bn : groth16.Bn254} (sha256 : list Z → list Z).
(** [ledgerClock.ledgerAt] on the samples, with the fallback pace in seconds. *)
Context (ledgerAt : list guard.ledgerSample → Z → Z → Z).

(** [r.now().Unix()] *)
Definition unix (now : Z) : Z := now / fee.second.

(** ** Local checks *)

(** [Relayer.check] compares a parsed request with the relayer and the vault. *)
Definition check (r : Relayer) (now : Z) (q : request.Request) : option guard.failure :=
  let e := request.Ext q in let p := request.Proof q in
  if negb (String.eqb (keys.Vault e) (Vault (cfg r))) ||
     negb (bool_decide (keys.NetworkID e = NetworkID (cfg r))) then Some (fail 400 CodeWrongVault)
  else if (0 <? Z.sgn (keys.ExtAmount e)) || negb (String.eqb (keys.Relayer e) (FeeAddress (cfg r))) ||
     String.eqb (keys.Recipient e) (Vault (cfg r)) then Some (fail 400 CodeBadRequest)
  else if (Z.sgn (keys.ExtAmount e) =? 0) && negb (String.eqb (keys.Recipient e) (keys.Relayer e)) then
    Some (fail 400 CodeBadRequest)
  else
    match inst r with
    | None => Some (fail 503 CodeUnavailable)
    | Some i =>
        if vault.MaxFee (ILimits i) <? keys.Fee e then Some (fail 400 CodeFeeAboveCap)
        else
          match minimumFee r now q with
          | Some f => Some f
          | None =>
              if vault.MaxDailyOutflow (ILimits i) <? keys.Fee e - keys.ExtAmount e then
                Some (fail 422 CodeRejected)
              else
                let t := unix now in
                let late_held :=
                  match request.NotBefore q with Some nb => t + 24 * 3600 <? nb | None => false end in
                if late_held then Some (fail 400 CodeBadRequest)
                else
                  let minDeadline :=
                    match request.NotBefore q with
                    | Some nb =>
                        if t <? nb then
                          ledgerAt (clock r) (LedgerSeconds (cfg r)) (nb + Z.quot (Jitter (cfg r)) fee.second)
                            + deadlineMargin r now
                        else latest r + deadlineMargin r now
                    | None => latest r + deadlineMargin r now
                    end in
                  if keys.Deadline e <? minDeadline then Some (fail 422 CodeRejected)
                  else if negb (match keys.Hash e with
                           | Ok (Some h) => bool_decide (h = keys.ExtDataHash p)
                           | _ => false
                           end) ||
                     negb (match keys.PublicAmount (keys.ExtAmount e) (keys.Fee e) with
                           | Some a => bool_decide (a = keys.ProofPublicAmount p)
                           | None => false
                           end) then
                    Some (fail 422 CodeRejected)
                  else if vault.Halted (IStatus i) (u64 t) then Some (fail 503 CodeUnavailable)
                  else if (Z.sgn (keys.ExtAmount e) =? 0) && vault.TransfersPaused (IStatus i) then
                    Some (fail 503 CodePaused)
                  else None
          end
    end.

(** [Relayer.readRoots] reads the vault's root history: each root's age, 0 for the newest. *)
Definition root_ages (ring : vault.RootRing) : gmap fr.Element Z :=
  foldl (λ m ir, if fr.IsZero ir.2 then m
                 else <[ir.2 := u32 (vault.Newest ring + vault.RootHistory - Z.of_nat ir.1)
                                mod vault.RootHistory]> m)
    ∅ (imap pair (vault.Roots ring)).

Definition readRoots (r : Relayer) (c : rpc.Client) : res Relayer :=
  key ← keys.RootsKey (Vault (cfg r));
  '(e, l) ← rpc.One c key;
  v ← rpc.ContractValue e;
  ring ← vault.DecodeRootRing v;
  mret (set_rootsLedger l (set_roots (root_ages ring) r)).

(** [Relayer.readRootsAt] reads it again unless it was read at ledger or later. *)
Definition readRootsAt (r : Relayer) (c : rpc.Client) (ledger : Z) : res Relayer :=
  if (0 <? ledger) && (ledger <=? rootsLedger r) then Ok r else readRoots r c.

(** [Relayer.freshRoot] reports whether a root is among the newest [FreshRoots], and known at all. *)
Definition freshRoot (r : Relayer) (c : rpc.Client) (root : fr.Element) (ledger : Z) (reread : bool)
    : Relayer * res (bool * bool) :=
  match roots r !! root with
  | Some age =>
      if negb reread then (r, Ok (age <? FreshRoots (cfg r), true))
      else
        match readRootsAt r c ledger with
        | Fail e => (r, Fail e)
        | Ok r => (r, Ok (match roots r !! root with
                          | Some age => (age <? FreshRoots (cfg r), true)
                          | None => (false, false)
                          end))
        end
  | None =>
      match readRootsAt r c ledger with
      | Fail e => (r, Fail e)
      | Ok r => (r, Ok (match roots r !! root with
                        | Some age => (age <? FreshRoots (cfg r), true)
                        | None => (false, false)
                        end))
      end
  end.

(** [Relayer.local] checks the proof against the vault's key and domain, and its root. *)
Definition local (r : Relayer) (c : rpc.Client) (now : Z) (q : request.Request)
    : Relayer * option guard.failure :=
  match inst r with
  | None => (r, Some (fail 503 CodeUnavailable))
  | Some i =>
      let p := request.Proof q in
      let inputs := [keys.Root p; keys.ProofPublicAmount p; keys.ExtDataHash p; vault.Domain (IConfig i);
        (keys.Nullifiers p).1; (keys.Nullifiers p).2; (keys.Commitments p).1; (keys.Commitments p).2] in
      if negb (groth16.Verify (VerifyingKey (cfg r)) (keys.A p) (keys.B p) (keys.C p) inputs) then
        (r, Some (settledFail 422 CodeRejected))
      else
        let '(r, answer) := freshRoot r c (keys.Root p)
          (ledgerAt (clock r) (LedgerSeconds (cfg r)) (unix now)) false in
        match answer with
        | Fail _ => (r, Some (fail 503 CodeUnavailable))
        | Ok (fresh, known) =>
            if known && negb fresh then (r, Some (settledFail 422 CodeRejected))
            else if negb fresh then (r, Some (fail 422 CodeRejected))
            else (r, None)
        end
  end.

(** The cooldown keys of a request, in the order of [Relayer.guard]. *)
Definition guard_keys (q : request.Request) : list string :=
  let p := request.Proof q in
  [guard.nullifierKey (fr.Hex (keys.Nullifiers p).1); guard.nullifierKey (fr.Hex (keys.Nullifiers p).2);
   request.requestKey sha256 q] ++
  (if Z.sgn (keys.ExtAmount (request.Ext q)) <? 0
   then [guard.destinationKey (keys.Recipient (request.Ext q))] else []).

(** [Relayer.guard] refuses while relaying is paused, and what a failed relay rests. *)
Definition guard_request (r : Relayer) (now : Z) (q : request.Request)
    : Relayer * option guard.failure :=
  if guard.open (brk r) now then (r, Some (fail 503 CodeUnavailable))
  else
    let '(cool, hit) := guard.cooling (cool r) (unix now) (guard_keys q) in
    (set_cool cool r, if hit then Some (fail 422 CodeRejected) else None).

(** [Relayer.claim] and [unclaim] *)
Definition claim (r : Relayer) (nfs : fr.Element * fr.Element) : Relayer * bool :=
  if bool_decide (nfs.1 ∈ inflight r) || bool_decide (nfs.2 ∈ inflight r) then (r, false)
  else (set_inflight ({[ nfs.1; nfs.2 ]} ∪ inflight r) r, true).

Definition unclaim (r : Relayer) (nfs : fr.Element * fr.Element) : Relayer :=
  set_inflight (inflight r ∖ {[nfs.1]} ∖ {[nfs.2]}) r.

(** ** Checks against the chain *)

(** [Relayer.spent] reports whether either nullifier is already spent. *)
Definition spent (r : Relayer) (c : rpc.Client) (nfs : fr.Element * fr.Element) : res bool :=
  k0 ← keys.NullifierKey (Vault (cfg r)) (fr.Bytes nfs.1);
  k1 ← keys.NullifierKey (Vault (cfg r)) (fr.Bytes nfs.2);
  '(entries, _) ← rpc.Entries c [k0; k1];
  mret (0 <? Z.of_nat (size entries)).

(** [xdr.TrustLineFlagsAuthorizedFlag] *)
Definition AuthorizedFlag : Z := 1.

(** [Relayer.CanReceive] mirrors the vault's check of an account that is to be paid. The strings of
    the keys are those of keys the relayer built, which always encode. *)
Definition CanReceive (r : Relayer) (c : rpc.Client) (address : string) (payout : Z) : res bool :=
  account ← AccountOf address;
  if negb (bool_decide (first_char account = Some "G"%char)) then Ok true
  else
    ks ← keys.ReceiveKeys (Asset (cfg r)) account;
    '(entries, _) ← rpc.Entries c ks;
    strings ← mapM rpc.KeyString ks;
    match strings with
    | [] => Ok true
    | s0 :: rest =>
        match entries !! s0 with
        | None => Ok (String.eqb (Asset (cfg r)) "native" && (keys.MinNewAccountPayout <=? payout))
        | Some _ =>
            match rest with
            | [] => Ok true
            | s1 :: _ =>
                match rpc.Data <$> entries !! s1 with
                | Some (rpc.DataTrustLine flags _) => Ok (negb (Z.land flags AuthorizedFlag =? 0))
                | _ => Ok false
                end
            end
        end
    end.

Definition balanceMargin : Z := 500.

Definition contractAddress (address : string) : bool := String.prefix "C" address.

(** [Relayer.balanceLapses] reports a contract destination whose balance archives soon. *)
Definition balanceLapses (r : Relayer) (c : rpc.Client) (address : string) (latest : Z) : res bool :=
  if negb (contractAddress address) then Ok false
  else
    match inst r with
    | None => Fail (Sentinel "relayer: the vault is not read yet")
    | Some i =>
        key ← keys.BalanceKey (vault.Token (IConfig i)) address;
        match rpc.One c key with
        | Fail e => if errors_is "rpc: ledger entry missing" e then Ok false else Fail e
        | Ok (e, _) =>
            Ok (match rpc.LiveUntil e with Some l => l <? latest + balanceMargin | None => false end)
        end
    end.

(** [Relayer.fresh] checks the request against the chain as it is now. *)
Definition fresh (r : Relayer) (c : rpc.Client) (now : Z) (q : request.Request)
    : Relayer * option guard.failure :=
  let e := request.Ext q in
  match rpc.GetHealth c with
  | Fail _ => (r, Some (fail 503 CodeUnavailable))
  | Ok (_, latest, close) =>
      let r := set_clock (guard.observe (clock r) latest close) r in
      if keys.Deadline e <? latest + deadlineMargin r now then (r, Some (fail 422 CodeRejected))
      else
        let nfs := keys.Nullifiers (request.Proof q) in
        match spent r c nfs with
        | Fail _ => (r, Some (fail 503 CodeUnavailable))
        | Ok true =>
            (set_known (guard.spent_add (known r) [nfs.1; nfs.2]) r, Some (settledFail 422 CodeRejected))
        | Ok false =>
            if Z.sgn (keys.ExtAmount e) <? 0 then
              match CanReceive r c (keys.Recipient e) (- keys.ExtAmount e) with
              | Fail _ => (r, Some (fail 503 CodeUnavailable))
              | Ok false => (r, Some (settledFail 422 CodeRejected))
              | Ok true =>
                  match balanceLapses r c (keys.Recipient e) latest with
                  | Fail _ => (r, Some (fail 503 CodeUnavailable))
                  | Ok true => (r, Some (fail 422 CodeRejected))
                  | Ok false => (r, None)
                  end
              end
            else (r, None)
        end
  end.

(** [Relayer.screenDestination] *)
Definition screenDestination (env : Env) (e : keys.ExtData) : option guard.failure :=
  if Z.sgn (keys.ExtAmount e) =? 0 then None
  else
    match screen env (keys.Recipient e) with
    | ScreenWithheld => Some (settledFail 422 CodeRejected)
    | ScreenError => Some (fail 503 CodeUnavailable)
    | ScreenRefuse reason => Some (guard.mkFailure 403 CodeRefused (Some reason) None true)
    | ScreenAllow => None
    end.

(** ** Sending *)

(** [Relayer.transact] builds the call; only whether it can be built matters here. *)
Definition transact (r : Relayer) (q : request.Request) (channel : string) : res unit :=
  _ ← ScAddressOf (Vault (cfg r)); _ ← keys.ExtDataScVal (request.Ext q); _ ← Address channel;
  mret tt.

(** [Relayer.paidTheQuote] *)
Definition paidTheQuote (r : Relayer) (now : Z) (q : request.Request) (queued : bool) : bool :=
  match minimumFee r now q with
  | Some _ => false
  | None =>
      if negb queued then true
      else
        match fee.lowestQueued (history r) now with
        | Some low => low <=? keys.Fee (request.Ext q)
        | None => false
        end
  end.

(** [Relayer.sample] is what the quote learns from a relay once it is confirmed. *)
Definition sample (expected inclusion : Z) (queued : bool) : Z :=
  if queued then 0 else i64 (expected - inclusion).

(** [Relayer.setStatus] keeps a transaction's status, the oldest dropped past the bound. *)
Definition setStatus (r : Relayer) (h : string) (s : txStatus) : Relayer :=
  let r :=
    match statuses r !! h with
    | Some _ => r
    | None =>
        let order1 := order r ++ [h] in
        if maxStatuses <? Z.of_nat (length order1) then
          match order1 with
          | h0 :: rest => set_order rest (set_statuses (delete h0 (statuses r)) r)
          | [] => r
          end
        else set_order order1 r
    end in
  set_statuses (<[h := s]> (statuses r)) r.

(** The record of a sent transaction. *)
Definition sent_record (q : request.Request) (h channel : string) (simulatedAt expected : Z) : Rec :=
  let p := request.Proof q in let e := request.Ext q in
  mkRec h (if Z.sgn (keys.ExtAmount e) <? 0 then "unshield" else "transfer") (pretty.pretty (keys.Fee e))
    channel (request.requestKey sha256 q) (fr.Hex (keys.Nullifiers p).1, fr.Hex (keys.Nullifiers p).2)
    simulatedAt expected (if Z.sgn (keys.ExtAmount e) <? 0 then keys.Recipient e else "").

(** The end of [Relayer.send], once the price is covered: the checks right before the send. *)
Definition send_checked (r : Relayer) (env : Env) (now : Z) (q : request.Request) (ch : string)
    (expected inclusion simulatedAt : Z) (slot : bool) : Relayer * answered (string * Rec * bool) :=
  let '(r, f) := if guarded r now then fresh r (late env) now q else (r, None) in
  match f with
  | Some f => (r, inl f)
  | None =>
      let '(r, ans) := freshRoot r (late env) (keys.Root (request.Proof q)) simulatedAt true in
      match ans with
      | Fail _ => (r, inl (fail 503 CodeUnavailable))
      | Ok (current, _) =>
          if negb current then (r, inl (settledFail 422 CodeRejected))
          else
            match answer env with
            | SendRejected => (r, inl (fail 422 CodeRejected))
            | SendError => (r, inl (fail 503 CodeUnavailable))
            | Sent h =>
                (setStatus r h (mkStatus "pending" "" None),
                 inr (h, sent_record q h ch simulatedAt (sample expected inclusion slot), slot))
            end
      end
  end.

(** [Relayer.send]; [None] is a panic of the pricing. *)
Definition send (r : Relayer) (env : Env) (now : Z) (q : request.Request)
    : option (Relayer * answered (string * Rec * bool)) :=
  match channel env with
  | None => Some (r, inl (fail 503 CodeUnavailable))
  | Some ch =>
      if negb (simulateAllow env) then Some (r, inl (fail 429 CodeRateLimited))
      else
        match transact r q ch with
        | Fail _ => Some (r, inl (fail 400 CodeBadRequest))
        | Ok _ =>
            match prepared env with
            | PrepareRestoreNeeded => Some (r, inl (fail 422 CodeRestoreNeeded))
            | PrepareFeeCap inclusion resource =>
                Some (r, inl (networkFeeHigh (i64 (inclusion + resource))))
            | PrepareSimulation => Some (r, inl (settledFail 422 CodeRejected))
            | PrepareError => Some (r, inl (fail 503 CodeUnavailable))
            | PreparedOk expected maxFee inclusion simulatedAt slot =>
                '(r, over) ← overBudget r now;
                let cost := if over : bool then maxFee else expected in
                asset ← fee.ToAsset (Pricing (cfg r)) cost;
                Some (if keys.Fee (request.Ext q) <? asset then
                        let r := if negb over && paidTheQuote r now q slot
                                 then (refusedAtQuote r now q).1 else r in
                        (r, inl (networkFeeHigh cost))
                      else send_checked r env now q ch expected inclusion simulatedAt slot)
            end
        end
  end.

(** [Relayer.costlySteps] *)
Definition costlySteps (r : Relayer) (env : Env) (now : Z) (q : request.Request)
    : option (Relayer * answered (string * Rec * bool)) :=
  let '(r, f) := fresh r (client env) now q in
  match f with
  | Some f => Some (r, inl f)
  | None =>
      match screenDestination env (request.Ext q) with
      | Some f => Some (r, inl f)
      | None => send r env now q
      end
  end.

(** [Relayer.relay] runs the steps that cost the network, on a global budget. *)
Definition relay_ (r : Relayer) (env : Env) (now : Z) (q : request.Request)
    : option (Relayer * answered (string * Rec * bool)) :=
  if negb (costlyAllow env) then Some (r, inl (fail 429 CodeRateLimited))
  else
    '(r, a) ← costlySteps r env now q;
    Some (match a with
    | inl f =>
        if guard.settled f
        then (set_told (guard.remember (told r) (request.proofKey sha256 q) f now) r, inl f)
        else (r, inl f)
    | inr s => (r, inr s)
    end).

(** ** Held requests *)

(** [Relayer.track] keeps a held request's record, the oldest dropped past the bound. *)
Definition track (r : Relayer) (id : string) (h : heldRequest) : Relayer :=
  let r :=
    match heldBy r !! id with
    | Some _ => r
    | None =>
        let order1 := heldOrder r ++ [id] in
        if maxStatuses <? Z.of_nat (length order1) then
          match order1 with
          | id0 :: rest => set_heldOrder rest (set_heldBy (delete id0 (heldBy r)) r)
          | [] => r
          end
        else set_heldOrder order1 r
    end in
  set_heldBy (<[id := h]> (heldBy r)) r.

(** [Relayer.hold] keeps a request until its timer runs. *)
Definition hold (r : Relayer) (id : string) (q : request.Request) : Relayer * answered string :=
  let ns := keys.Nullifiers (request.Proof q) in
  if MaxHeld (cfg r) <=? held r then (unclaim r ns, inl (fail 503 CodeUnavailable))
  else
    (track (set_held (held r + 1) r) id (mkHeld "" "" None false false true ns), inr id).

(** [Relayer.Submit] runs the submission steps in order and stops at the first failure. *)
Definition Submit (r : Relayer) (env : Env) (now : Z) (q : request.Request)
    : option (Relayer * answered Accepted) :=
  match check r now q with
  | Some f => Some (r, inl f)
  | None =>
  match guard.recall (told r) (request.proofKey sha256 q) now with
  | Some f => Some (r, inl f)
  | None =>
  match guard.recall (brief r) (request.statementKey sha256 q) now with
  | Some f => Some (r, inl f)
  | None =>
  let '(r, f) := local r (client env) now q in
  match f with
  | Some f =>
      let r := if guard.settled f
               then set_told (guard.remember (told r) (request.proofKey sha256 q) f now) r else r in
      Some (r, inl f)
  | None =>
  let ns := keys.Nullifiers (request.Proof q) in
  if guard.spent_any (known r) ns then Some (r, inl (fail 422 CodeRejected))
  else
  let '(r, f) := guard_request r now q in
  match f with
  | Some f => Some (r, inl f)
  | None =>
  let '(r, claimed) := claim r ns in
  if negb claimed then Some (r, inl (fail 409 CodeDuplicate))
  else
  let is_held := match request.NotBefore q with Some nb => unix now <? nb | None => false end in
  if is_held then
    let '(r, a) := hold r (heldID env) q in
    Some (r, match a with inl f => inl f | inr id => inr (AcceptedHeld id) end)
  else
    '(r, a) ← relay_ r env now q;
    Some (match a with
    | inl f =>
        let r := unclaim r ns in
        let r := if String.eqb (guard.code f) CodeRestoreNeeded || String.eqb (guard.code f) CodeNetworkFeeHigh
                 then set_brief (guard.remember (brief r) (request.statementKey sha256 q) f now) r else r in
        (r, inl f)
    | inr (h, rec, slot) => (r, inr (AcceptedSent h rec slot))
    end)
  end end end end end.


(** * Specification *)

(** What the checks of form, vault and fee promise of a request. *)
Record checked (r : Relayer) (now : Z) (q : request.Request) (i : Instance) : Prop := mkChecked {
  ck_inst : inst r = Some i;
  ck_vault : keys.Vault (request.Ext q) = Vault (cfg r) ∧ keys.NetworkID (request.Ext q) = NetworkID (cfg r);
  ck_relayer : keys.Relayer (request.Ext q) = FeeAddress (cfg r);
  ck_pays_out : keys.ExtAmount (request.Ext q) <= 0 ∧ keys.Recipient (request.Ext q) ≠ Vault (cfg r) ∧
    (keys.ExtAmount (request.Ext q) = 0 → keys.Recipient (request.Ext q) = FeeAddress (cfg r));
  ck_fee : keys.Fee (request.Ext q) <= vault.MaxFee (ILimits i) ∧ minimumFee r now q = None;
  ck_outflow : keys.Fee (request.Ext q) - keys.ExtAmount (request.Ext q) <= vault.MaxDailyOutflow (ILimits i);
  ck_bound : keys.Hash (request.Ext q) = Ok (Some (keys.ExtDataHash (request.Proof q))) ∧
    keys.PublicAmount (keys.ExtAmount (request.Ext q)) (keys.Fee (request.Ext q))
      = Some (keys.ProofPublicAmount (request.Proof q));
  ck_open : vault.Halted (IStatus i) (u64 (unix now)) = false ∧
    (keys.ExtAmount (request.Ext q) = 0 → vault.TransfersPaused (IStatus i) = false);
  ck_notBefore : ∀ nb, request.NotBefore q = Some nb → nb <= unix now + 24 * 3600 }.

(** The proof verifies against the vault's key and domain. *)
Definition proved (r : Relayer) (i : Instance) (q : request.Request) : Prop :=
  let p := request.Proof q in
  groth16.Verify (VerifyingKey (cfg r)) (keys.A p) (keys.B p) (keys.C p)
    [keys.Root p; keys.ProofPublicAmount p; keys.ExtDataHash p; vault.Domain (IConfig i);
     (keys.Nullifiers p).1; (keys.Nullifiers p).2; (keys.Commitments p).1; (keys.Commitments p).2] = true.

(** The fee covers what the network is expected to charge: the simulated charge, or, over the loss
    budget, all the envelope declares. *)
Definition covered (r : Relayer) (env : Env) (now : Z) (q : request.Request) : Prop :=
  ∃ expected maxFee inclusion at_ slot r1 over asset,
    prepared env = PreparedOk expected maxFee inclusion at_ slot ∧ overBudget r now = Some (r1, over) ∧
    fee.ToAsset (Pricing (cfg r)) (if over : bool then maxFee else expected) = Some asset ∧
    asset <= keys.Fee (request.Ext q).

(** * Lemmas *)

(** The part of the state that the steps on the network leave as it is. *)
Definition core (r : Relayer) :=
  ((cfg r, inst r, costs r, results r), (inflight r, held r, heldBy r, heldOrder r),
   (history r, cool r, brk r, races r), (brief r, latest r, latestClose r)).

(** The steps on the network up to the one that remembers a refusal leave those remembered too. *)
Definition quiet (r : Relayer) := (core r, told r).

Lemma core_inv r r' : core r' = core r → (cfg r' = cfg r ∧ inst r' = inst r ∧ inflight r' = inflight r) ∧
  (held r' = held r ∧ heldBy r' = heldBy r ∧ heldOrder r' = heldOrder r) ∧
  (history r' = history r ∧ cool r' = cool r ∧ brk r' = brk r ∧ races r' = races r) ∧
  (brief r' = brief r ∧ latest r' = latest r ∧ latestClose r' = latestClose r).
Proof. unfold core. intros H. by simplify_eq. Qed.

(** Reading the root history again changes nothing else. *)
Definition reread (r r' : Relayer) : Prop := ∃ m l, r' = set_rootsLedger l (set_roots m r).

Lemma reread_refl r : reread r r.
Proof. exists (roots r), (rootsLedger r). by destruct r. Qed.

Lemma reread_frame r r' : reread r r' → core r' = core r ∧ losses r' = losses r ∧ known r' = known r ∧
  told r' = told r ∧ statuses r' = statuses r ∧ clock r' = clock r.
Proof. by intros (m & l & ->). Qed.

Lemma readRootsAt_reread r c l r' : readRootsAt r c l = Ok r' → reread r r'.
Proof.
  unfold readRootsAt, readRoots. destruct (_ && _); [intros [= <-]; apply reread_refl|].
  intros H. apply bind_Ok in H as (k & _ & H). apply bind_Ok in H as ([e l'] & _ & H).
  apply bind_Ok in H as (v & _ & H). apply bind_Ok in H as (ring & _ & [= <-]).
  by exists (root_ages ring), l'.
Qed.

Lemma freshRoot_reread r c root l b : reread r (freshRoot r c root l b).1.
Proof.
  unfold freshRoot. destruct (roots r !! root) as [age|]; [destruct b; [|apply reread_refl]|];
    destruct (readRootsAt r c l) as [r'|e] eqn:E; cbn [fst];
    try apply reread_refl; by apply readRootsAt_reread in E.
Qed.

Lemma freshRoot_quiet r c root l b : quiet (freshRoot r c root l b).1 = quiet r.
Proof. by destruct (freshRoot_reread r c root l b) as (? & ? & ->). Qed.

Lemma local_reread r c now q : reread r (local r c now q).1.
Proof.
  unfold local. destruct (inst r) as [i|]; [|apply reread_refl]. destruct (negb _); [apply reread_refl|].
  pose proof (freshRoot_reread r c (keys.Root (request.Proof q))
    (ledgerAt (clock r) (LedgerSeconds (cfg r)) (unix now)) false) as H.
  destruct (freshRoot _ _ _ _ _) as [r' [[f k]|e]]; cbn [fst] in H; [|done].
  destruct (k && negb f); [done|]. by destruct (negb f).
Qed.

Lemma fresh_quiet r c now q : quiet (fresh r c now q).1 = quiet r.
Proof.
  unfold fresh. destruct (rpc.GetHealth c) as [[[o l] cl]|e]; [|done]. cbv zeta.
  destruct (_ <? _); [done|]. destruct (spent _ _ _) as [[]|]; [done| |done].
  destruct (Z.sgn _ <? 0); [|done]. destruct (CanReceive _ _ _ _) as [[]|]; [|done..].
  by destruct (balanceLapses _ _ _ _) as [[]|].
Qed.

Lemma overBudget_quiet r now r' b : overBudget r now = Some (r', b) → quiet r' = quiet r.
Proof.
  unfold overBudget. destruct (sum_losses _ _ _) as [m t]. destruct (fee.ToAsset _ _); [|done].
  by intros [= <- _].
Qed.

Lemma setStatus_quiet r h s : quiet (setStatus r h s) = quiet r.
Proof.
  unfold setStatus. destruct (statuses r !! h); [done|]. destruct (maxStatuses <? _); [|done].
  by destruct (order r ++ [h]).
Qed.

Lemma send_checked_quiet r env now q ch e i at_ slot :
  quiet (send_checked r env now q ch e i at_ slot).1 = quiet r.
Proof.
  unfold send_checked. pose proof (fresh_quiet r (late env) now q) as Hf.
  destruct (if guarded r now then _ else _) as [r1 f] eqn:E.
  assert (quiet r1 = quiet r) as H1.
  { destruct (guarded r now); [by rewrite <- Hf, E|by injection E as <- _]. }
  destruct f; [done|].
  pose proof (freshRoot_quiet r1 (late env) (keys.Root (request.Proof q)) at_ true) as H2.
  destruct (freshRoot _ _ _ _ _) as [r2 [[cur k]|er]]; cbn [fst] in H2; [|cbn; congruence].
  destruct (negb cur); [cbn; congruence|]. destruct (answer env); cbn [fst]; try congruence.
  rewrite setStatus_quiet. congruence.
Qed.

Lemma send_quiet r env now q r' a : send r env now q = Some (r', a) → quiet r' = quiet r.
Proof.
  unfold send. destruct (channel env) as [ch|]; [|by intros [= <- _]].
  destruct (negb _); [by intros [= <- _]|]. destruct (transact r q ch); [|by intros [= <- _]].
  destruct (prepared env) as [ex mf inc at_ slot| | | |]; try (by intros [= <- _]).
  destruct (overBudget r now) as [[r1 over]|] eqn:Eo; cbn [mbind option_bind]; [|done].
  apply overBudget_quiet in Eo. destruct (fee.ToAsset _ _) as [asset|]; cbn [mbind option_bind]; [|done].
  destruct (_ <? asset).
  - intros [= <- _]. destruct (negb over && _); [|done]. rewrite <- Eo. unfold refusedAtQuote.
    by destruct (keys.Nullifiers _).
  - intros [= H]. apply (f_equal fst) in H. cbn [fst] in H. subst r'. by rewrite send_checked_quiet.
Qed.

Lemma costlySteps_quiet r env now q r' a : costlySteps r env now q = Some (r', a) → quiet r' = quiet r.
Proof.
  unfold costlySteps. pose proof (fresh_quiet r (client env) now q) as Hf.
  destruct (fresh _ _ _ _) as [r1 [f|]]; cbn [fst] in Hf; [by intros [= <- _]|].
  destruct (screenDestination _ _); [by intros [= <- _]|]. intros H%send_quiet. congruence.
Qed.

Lemma quiet_core r r' : quiet r' = quiet r → core r' = core r.
Proof. unfold quiet. congruence. Qed.

Lemma relay_core r env now q r' a : relay_ r env now q = Some (r', a) → core r' = core r.
Proof.
  unfold relay_. destruct (negb _); [by intros [= <- _]|].
  destruct (costlySteps r env now q) as [[r1 b]|] eqn:E; cbn [mbind option_bind]; [|done].
  apply costlySteps_quiet, quiet_core in E. destruct b as [f|s]; [destruct (guard.settled f)|]; by intros [= <- _].
Qed.

Lemma check_None r now q : check r now q = None → ∃ i, checked r now q i.
Proof.
  unfold check. destruct (negb _ || negb _) eqn:E1; [done|]. rewrite orb_false_iff, !negb_false_iff in E1.
  destruct E1 as [V1%String.eqb_eq V2%bool_decide_eq_true]. destruct (_ || _ || _) eqn:E2; [done|].
  rewrite !orb_false_iff, negb_false_iff in E2. destruct E2 as [[E2 R%String.eqb_eq] E3%String.eqb_neq].
  rewrite sgn_0_ltb in E2. apply Z.ltb_ge in E2. destruct (_ && _) eqn:E4; [done|].
  rewrite andb_false_iff, sgn_eqb_0, negb_false_iff in E4.
  destruct (inst r) as [i|] eqn:Ei; [|done]. destruct (_ <? keys.Fee _) eqn:E5; [done|].
  apply Z.ltb_ge in E5. destruct (minimumFee r now q) eqn:E6; [done|]. destruct (_ <? _ - _) eqn:E7; [done|].
  apply Z.ltb_ge in E7. cbv zeta.
  destruct (match request.NotBefore q with Some _ => _ | None => false end) eqn:E8; [done|].
  destruct (keys.Deadline _ <? _) eqn:E9; [done|]. destruct (negb _ || negb _) eqn:E10; [done|].
  rewrite orb_false_iff, !negb_false_iff in E10. destruct E10 as [H1 H2].
  destruct (vault.Halted _ _) eqn:E11; [done|]. destruct (_ && _) eqn:E12; [done|].
  rewrite andb_false_iff, sgn_eqb_0 in E12. intros _. exists i.
  destruct (keys.Hash _) as [[h|]|] eqn:Eh; [|done..]. apply bool_decide_eq_true in H1 as ->.
  destruct (keys.PublicAmount _ _) as [a|] eqn:Ea; [|done]. apply bool_decide_eq_true in H2 as ->.
  split; try done.
  - repeat split; [done|done|]. intros H0. destruct E4 as [E4%Z.eqb_neq|E4%String.eqb_eq]; [done|congruence].
  - split; [done|]. intros H0. by destruct E12 as [E12%Z.eqb_neq|].
  - intros nb Hnb. rewrite Hnb in E8. by apply Z.ltb_ge.
Qed.

Lemma local_None r c now q r' i : inst r = Some i → local r c now q = (r', None) → proved r i q.
Proof.
  unfold local, proved. intros ->. cbv zeta. by destruct (groth16.Verify _ _ _ _ _).
Qed.

Lemma guard_None r now q r' : guard_request r now q = (r', None) → guard.open (brk r) now = false ∧
  (guard.cooling (cool r) (unix now) (guard_keys q)).2 = false ∧ r' = set_cool (cool r') r.
Proof.
  unfold guard_request. destruct (guard.open _ _); [done|]. destruct (guard.cooling _ _ _) as [c h].
  destruct h; [done|]. by intros [= <-].
Qed.

Lemma claim_true r nfs r' : claim r nfs = (r', true) → nfs.1 ∉ inflight r ∧ nfs.2 ∉ inflight r ∧
  r' = set_inflight ({[ nfs.1; nfs.2 ]} ∪ inflight r) r.
Proof.
  unfold claim. destruct (_ || _) eqn:E; [done|]. intros [= <-].
  rewrite orb_false_iff, !bool_decide_eq_false in E. tauto.
Qed.

Lemma spent_core r r' c nfs : core r' = core r → spent r' c nfs = spent r c nfs.
Proof. intros ((H & _) & _)%core_inv. unfold spent. by rewrite H. Qed.

Lemma fresh_None r c now q r' : fresh r c now q = (r', None) →
  spent r c (keys.Nullifiers (request.Proof q)) = Ok false ∧
  ∃ latest, latest + deadlineMargin r now <= keys.Deadline (request.Ext q).
Proof.
  unfold fresh. destruct (rpc.GetHealth c) as [[[o l] cl]|e]; [|done]. cbv zeta.
  destruct (_ <? _) eqn:E; [done|]. apply Z.ltb_ge in E. rewrite (spent_core r) by done.
  destruct (spent r c _) as [[]|]; [done| |done]. intros _. split; [done|]. by exists l.
Qed.

Lemma send_sent r env now q r' s : send r env now q = Some (r', inr s) → covered r env now q ∧
  answer env = Sent s.1.1.
Proof.
  unfold send, covered. destruct (channel env) as [ch|]; [|done]. destruct (negb _); [done|].
  destruct (transact r q ch); [|done]. destruct (prepared env) as [ex mf inc at_ slot| | | |]; try done.
  destruct (overBudget r now) as [[r1 over]|] eqn:Eo; cbn [mbind option_bind]; [|done].
  pose proof (quiet_core _ _ (overBudget_quiet _ _ _ _ Eo)) as ((Hc & _) & _)%core_inv.
  destruct (fee.ToAsset _ _) as [asset|] eqn:Ea; cbn [mbind option_bind]; [|done].
  destruct (_ <? asset) eqn:El; [done|]. apply Z.ltb_ge in El. intros H. split.
  - exists ex, mf, inc, at_, slot, r1, over, asset. rewrite <- Hc. auto.
  - revert H. unfold send_checked. destruct (if guarded r1 now then _ else _) as [r2 [f|]]; [done|].
    destruct (freshRoot _ _ _ _ _) as [r3 [[cur k]|]]; [|done]. destruct (negb cur); [done|].
    destruct (answer env); [|done..]. by intros [= <- <-].
Qed.

Lemma fresh_losses r c now q : losses (fresh r c now q).1 = losses r.
Proof.
  unfold fresh. destruct (rpc.GetHealth c) as [[[o l] cl]|e]; [|done]. cbv zeta.
  destruct (_ <? _); [done|]. destruct (spent _ _ _) as [[]|]; [done| |done].
  destruct (Z.sgn _ <? 0); [|done]. destruct (CanReceive _ _ _ _) as [[]|]; [|done..].
  by destruct (balanceLapses _ _ _ _) as [[]|].
Qed.

Lemma covered_same r r' env now q : cfg r' = cfg r → latest r' = latest r → losses r' = losses r →
  covered r' env now q → covered r env now q.
Proof.
  intros H1 H2 H3 (ex & mf & inc & at_ & slot & r1 & over & asset & Hp & Ho & Ha & Hl).
  unfold overBudget in Ho. rewrite H1, H2, H3 in Ho. rewrite H1 in Ha.
  destruct (sum_losses _ _ _) as [m t] eqn:E. destruct (fee.ToAsset _ (LossBudget _)) as [b|] eqn:Eb; [|done].
  injection Ho as _ <-. exists ex, mf, inc, at_, slot, (set_losses m r), (b <? t), asset.
  split; [done|]. split; [|done]. unfold overBudget. by rewrite E, Eb.
Qed.

(** What a relay that was sent passed on the network. *)
Lemma relay_sent r env now q r' s : relay_ r env now q = Some (r', inr s) →
  spent r (client env) (keys.Nullifiers (request.Proof q)) = Ok false ∧
  screenDestination env (request.Ext q) = None ∧ covered r env now q ∧ answer env = Sent s.1.1.
Proof.
  unfold relay_, costlySteps. destruct (negb _); [done|].
  pose proof (quiet_core _ _ (fresh_quiet r (client env) now q)) as Hc. pose proof (fresh_losses r (client env) now q) as Hl.
  destruct (fresh _ _ _ _) as [r1 [f|]] eqn:Ef; cbn [fst mbind option_bind] in *; [by destruct (guard.settled f)|].
  apply fresh_None in Ef as [Hs _]. destruct (screenDestination _ _) as [f|]; cbn [mbind option_bind];
    [by destruct (guard.settled f)|].
  destruct (send r1 env now q) as [[r2 [f|s']]|] eqn:Es; cbn [mbind option_bind]; [by destruct (guard.settled f)| |done].
  intros [= <- <-]. apply send_sent in Es as [Hcov Ha]. split; [done|]. split; [done|].
  apply core_inv in Hc as ((Hc1 & _) & _ & _ & (_ & Hc2 & _)). split; [|done]. by apply (covered_same r r1).
Qed.

(** What the network answers to a read of the root history is all [local] learns from it. *)
Lemma local_network r c c' now q : is_Some (roots r !! keys.Root (request.Proof q)) ∨ readRoots r c = readRoots r c' →
  local r c now q = local r c' now q.
Proof.
  intros H. unfold local. destruct (inst r) as [i|]; [|done]. destruct (negb _); [done|].
  assert (freshRoot r c (keys.Root (request.Proof q)) (ledgerAt (clock r) (LedgerSeconds (cfg r)) (unix now)) false =
    freshRoot r c' (keys.Root (request.Proof q)) (ledgerAt (clock r) (LedgerSeconds (cfg r)) (unix now)) false) as ->; [|done].
  unfold freshRoot, readRootsAt. destruct H as [[age ->]|H]; [done|]. by rewrite H.
Qed.

(** The steps before a request is claimed leave what is held and sent alone. *)
Definition untouched (r r' : Relayer) : Prop :=
  known r' = known r ∧ statuses r' = statuses r ∧ clock r' = clock r ∧ losses r' = losses r ∧
  history r' = history r.

Lemma hold_accepts r id q : heldBy r !! id = None →
  untouched r (hold r id q).1 ∧ cfg (hold r id q).1 = cfg r ∧
  match (hold r id q).2 with
  | inl f => f = fail 503 CodeUnavailable ∧ MaxHeld (cfg r) <= held r ∧ held (hold r id q).1 = held r ∧
      inflight (hold r id q).1 = inflight (unclaim r (keys.Nullifiers (request.Proof q)))
  | inr id' => id' = id ∧ held r < MaxHeld (cfg r) ∧ held (hold r id q).1 = held r + 1 ∧
      inflight (hold r id q).1 = inflight r ∧
      heldBy (hold r id q).1 !! id = Some (mkHeld "" "" None false false true (keys.Nullifiers (request.Proof q)))
  end.
Proof.
  intros Hid. unfold hold. destruct (Z.leb_spec (MaxHeld (cfg r)) (held r)) as [H|H]; [by repeat split|].
  unfold track. cbn [set_held heldBy heldOrder]. rewrite Hid.
  destruct (maxStatuses <? _); [destruct (heldOrder r ++ [id])|]; cbn; rewrite ?lookup_insert_eq;
    repeat split; try reflexivity; exact H.
Qed.

(** A settled refusal of the steps on the network is remembered, and no other changes the memory. *)
Lemma relay_told r env now q r' f : relay_ r env now q = Some (r', inl f) →
  told r' = if guard.settled f then guard.remember (told r) (request.proofKey sha256 q) f now else told r.
Proof.
  unfold relay_. destruct (negb _); [by intros [= <- <-]|].
  destruct (costlySteps r env now q) as [[r1 [f'|s]]|] eqn:E; cbn [mbind option_bind]; [| |done].
  - apply costlySteps_quiet in E. unfold quiet in E. assert (told r1 = told r) as Ht by congruence.
    destruct (guard.settled f') eqn:Es; intros [= <- <-]; rewrite Es; [|done]. cbn [told set_told]. by rewrite Ht.
  - by intros [=].
Qed.

Lemma check_unsettled r now q f : check r now q = Some f → guard.settled f = false.
Proof.
  unfold check, minimumFee. intros H. repeat case_match; simplify_eq; reflexivity.
Qed.

Lemma guard_unsettled r now q r' f : guard_request r now q = (r', Some f) → guard.settled f = false.
Proof.
  unfold guard_request. destruct (guard.open _ _); [by intros [= _ <-]|].
  destruct (guard.cooling _ _ _) as [c []]; by intros [= _ <-].
Qed.

Lemma hold_unsettled r id q r' f : hold r id q = (r', inl f) → guard.settled f = false.
Proof. unfold hold. destruct (_ <=? _); by intros [= _ <-]. Qed.

(** The first settled refusal of a request is remembered under its proof. *)
Lemma settled_is_told r env now q r' f :
  guard.recall (told r) (request.proofKey sha256 q) now = None →
  guard.recall (brief r) (request.statementKey sha256 q) now = None →
  Submit r env now q = Some (r', inl f) → guard.settled f = true →
  told r' = guard.remember (told r) (request.proofKey sha256 q) f now.
Proof.
  intros Ht Hb. unfold Submit. destruct (check r now q) eqn:Ec.
  { intros [= _ <-]. by rewrite (check_unsettled _ _ _ _ Ec). }
  rewrite Ht, Hb. pose proof (reread_frame _ _ (local_reread r (client env) now q)) as (_ & _ & _ & Hl & _).
  destruct (local r (client env) now q) as [r1 [f1|]]; cbn [fst] in Hl.
  { intros [= <- <-] Hs. rewrite Hs. cbn [told set_told]. by rewrite Hl. }
  destruct (guard.spent_any _ _); [by intros [= _ <-]|].
  destruct (guard_request r1 now q) as [r2 [f2|]] eqn:Eg.
  { intros [= _ <-]. by rewrite (guard_unsettled _ _ _ _ _ Eg). }
  apply guard_None in Eg as (_ & _ & E2). assert (told r2 = told r1) as H2 by by rewrite E2.
  destruct (claim r2 _) as [r3 []] eqn:Ecl; [|by intros [= _ <-]]. apply claim_true in Ecl as (_ & _ & E3).
  assert (told r3 = told r1) as H3 by by rewrite E3. cbn [negb].
  destruct (match request.NotBefore q with Some _ => _ | None => false end).
  { destruct (hold r3 _ q) as [r4 [f4|]] eqn:Eh; [|done]. intros [= _ <-]. by rewrite (hold_unsettled _ _ _ _ _ Eh). }
  destruct (relay_ r3 env now q) as [[r4 [f4|[[? ?] ?]]]|] eqn:Er; cbn [mbind option_bind]; [|done|done].
  apply relay_told in Er. intros [= <- <-] Hs. rewrite Hs in Er. rewrite <- Hl, <- H3, <- Er.
  by destruct (_ || _).
Qed.

(** C2: A transaction is sent only for a request that passed every step: it names this vault, network
    and fee address, binds its external data and public amount to the proof, pays no more than the
    vault's fee cap and daily window allow and no less than the quotes of the last minutes, its proof
    verifies against the vault's key and domain, none of its notes is known spent, spent on chain,
    resting after a failure or in flight, relaying is not paused, its destination passed screening when
    it pays one, and its fee covers the charge the network is expected to make, or the whole envelope's
    while the loss budget is used up. Its notes are then in flight. *)
Theorem sent_requests_are_checked (r : Relayer) (env : Env) (now : Z) (q : request.Request) (r' : Relayer)
    (h : string) (rec : Rec) (slot : bool) :
  let ns := keys.Nullifiers (request.Proof q) in
  Submit r env now q = Some (r', inr (AcceptedSent h rec slot)) →
  (∃ i, checked r now q i ∧ proved r i q) ∧ covered r env now q ∧
  guard.spent_any (known r) ns = false ∧ spent r (client env) ns = Ok false ∧
  guard.open (brk r) now = false ∧ (guard.cooling (cool r) (unix now) (guard_keys q)).2 = false ∧
  (ns.1 ∉ inflight r ∧ ns.2 ∉ inflight r ∧ inflight r' = {[ ns.1; ns.2 ]} ∪ inflight r) ∧
  (keys.ExtAmount (request.Ext q) ≠ 0 → screen env (keys.Recipient (request.Ext q)) = ScreenAllow) ∧
  (∀ nb, request.NotBefore q = Some nb → nb <= unix now) ∧ answer env = Sent h.
Proof.
  intros ns. unfold Submit. fold ns. destruct (check r now q) eqn:Ec; [done|]. apply check_None in Ec as [i Hi].
  destruct (guard.recall (told r) _ _); [done|]. destruct (guard.recall (brief r) _ _); [done|].
  pose proof (local_reread r (client env) now q) as (Hc & Hl & Hk & _)%reread_frame.
  destruct (local r (client env) now q) as [r1 [f|]] eqn:El; [by destruct (guard.settled f)|].
  apply (local_None _ _ _ _ _ i) in El as Hp; [|apply Hi]. cbn [fst] in Hc, Hl, Hk.
  apply core_inv in Hc as ((Hc1 & _ & Hc2) & _ & (_ & Hc3 & Hc4 & _) & (_ & Hc5 & _)).
  rewrite Hk. destruct (guard.spent_any (known r) ns) eqn:Ek; [done|].
  destruct (guard_request r1 now q) as [r2 [f|]] eqn:Eg; [done|].
  apply guard_None in Eg as (Hg1 & Hg2 & E2). rewrite Hc3 in Hg2. rewrite Hc4 in Hg1.
  destruct (claim r2 ns) as [r3 b] eqn:Ecl. destruct b; [|done]. cbn [negb].
  apply claim_true in Ecl as (N1 & N2 & E3). rewrite E2 in N1, N2, E3. cbn [inflight set_cool] in N1, N2, E3.
  rewrite Hc2 in N1, N2, E3.
  destruct (match request.NotBefore q with Some _ => _ | None => false end) eqn:Eh.
  { destruct (hold r3 (heldID env) q) as [r4 [f|id]]; done. }
  destruct (relay_ r3 env now q) as [[r4 [f|[[h' rec'] slot']]]|] eqn:Er; cbn [mbind option_bind]; [done| |done].
  intros [= -> -> -> ->]. pose proof (relay_core _ _ _ _ _ _ Er) as ((_ & _ & Hf) & _)%core_inv. apply relay_sent in Er as (Hs & Hd & Hv & Ha).
  rewrite Hf, E3.
  split; [by exists i|]. split.
  { apply (covered_same r r3); [rewrite E3; exact Hc1|rewrite E3; exact Hc5|rewrite E3; exact Hl|exact Hv]. }
  split; [done|]. split. { rewrite E3 in Hs. unfold spent in Hs |- *. cbn [cfg set_inflight set_cool] in Hs. by rewrite Hc1 in Hs. }
  split; [done|]. split; [done|]. split; [done|]. split; [|split; [|done]].
  - unfold screenDestination in Hd. rewrite sgn_eqb_0 in Hd. intros Hn%Z.eqb_neq. rewrite Hn in Hd.
    by destruct (screen env _).
  - intros nb Hnb. rewrite Hnb in Eh. by apply Z.ltb_ge.
Qed.

(** A held request touches nothing on the network until it is due: whatever the network, screening,
    the limiters and the engine answer, its submission gives the same, save for one read of the vault's
    root history when its root is not known yet. It is never sent by the submission: it is refused, or
    held with its notes in flight and counted, and no status, spent note, ledger time or loss is
    learned meanwhile. *)
Theorem held_requests_touch_nothing (r : Relayer) (env env' : Env) (now nb : Z) (q : request.Request)
    (Hn : request.NotBefore q = Some nb) (Hd : unix now < nb) (Hid : heldID env = heldID env')
    (Hf : heldBy r !! heldID env = None)
    (Hr : is_Some (roots r !! keys.Root (request.Proof q)) ∨ readRoots r (client env) = readRoots r (client env')) :
  let ns := keys.Nullifiers (request.Proof q) in
  Submit r env now q = Submit r env' now q ∧
  ∃ r' a, Submit r env now q = Some (r', a) ∧ untouched r r' ∧
    match a with
    | inl _ => held r' = held r
    | inr (AcceptedHeld id) => id = heldID env ∧ held r' = held r + 1 ∧ held r' <= MaxHeld (cfg r) ∧
        inflight r' = {[ ns.1; ns.2 ]} ∪ inflight r ∧ ns.1 ∉ inflight r ∧ ns.2 ∉ inflight r ∧
        heldBy r' !! id = Some (mkHeld "" "" None false false true ns)
    | inr (AcceptedSent _ _ _) => False
    end.
Proof.
  intros ns.
  assert (∀ r0 r1 : Relayer, reread r0 r1 → untouched r0 r1 ∧ held r1 = held r0) as Hu by by intros ?? (? & ? & ->).
  split.
  - unfold Submit. rewrite Hn, (proj2 (Z.ltb_lt _ _) Hd), (local_network r _ _ now q Hr), Hid. done.
  - unfold Submit. fold ns. rewrite Hn, (proj2 (Z.ltb_lt _ _) Hd).
    destruct (check r now q) as [f|]; [by exists r, (inl f)|].
    destruct (guard.recall (told r) _ _) as [f|]; [by exists r, (inl f)|].
    destruct (guard.recall (brief r) _ _) as [f|]; [by exists r, (inl f)|].
    pose proof (local_reread r (client env) now q) as Hr1.
    destruct (Hu _ _ Hr1) as [Hu1 Hh1]. apply reread_frame in Hr1 as (((Hc1 & _ & Hi1) & (_ & Hb1 & _) & _)%core_inv & _).
    destruct (local r (client env) now q) as [r1 [f|]]; cbn [fst] in *.
    { eexists _, _. split; [done|]. by destruct (guard.settled f). }
    destruct (guard.spent_any _ _); [by eexists _, _|]. unfold guard_request.
    destruct (guard.open _ _); [by eexists _, _|]. destruct (guard.cooling _ _ _) as [c []]; [by eexists _, _|].
    unfold claim. cbn [inflight set_cool]. destruct (_ || _) eqn:Ecl; [by eexists _, _|]. cbn [negb].
    rewrite orb_false_iff, !bool_decide_eq_false, Hi1 in Ecl. destruct Ecl as [N1 N2].
    match goal with |- context [hold ?R ?I q] => pose proof (hold_accepts R I q) as H; destruct (hold R I q) as [r4 a] end.
    cbn [heldBy set_inflight set_cool] in H. rewrite Hb1 in H. destruct (H Hf) as (H1 & H2 & H3). clear H.
    cbn [fst snd cfg held inflight set_inflight set_cool] in *. destruct Hu1 as (U1 & U2 & U3 & U4 & U5).
    destruct H1 as (V1 & V2 & V3 & V4 & V5). cbn [known statuses clock losses history set_inflight set_cool] in *.
    destruct a as [f|id]; eexists _, _; (split; [reflexivity|]); (split; [repeat split; congruence|]).
    + destruct H3 as (_ & _ & H3 & _). congruence.
    + destruct H3 as (-> & H3 & H4 & H5 & H6). rewrite H4, H5, Hi1, Hh1. rewrite Hh1, Hc1 in H3.
      repeat split; [lia|done..].
Qed.

(** A request refused for good is answered from memory: once a proof was refused with a settled
    failure, another submission of it within ten minutes that passes the local checks of form gets the
    same refusal again, whatever the network, screening and the limiters answer then, and changes no
    state: replaying public proofs spends no budget. *)
Theorem settled_refusals_are_remembered (r : Relayer) (env : Env) (now : Z) (q : request.Request)
    (r' : Relayer) (f : guard.failure) (log : list (list Z * guard.failure * Z))
    (Hlog : told r = guard.remember_all verdictLifetime maxVerdicts log)
    (Ht : guard.recall (told r) (request.proofKey sha256 q) now = None)
    (Hb : guard.recall (brief r) (request.statementKey sha256 q) now = None)
    (Hs : Submit r env now q = Some (r', inl f)) (Hf : guard.settled f = true) :
  ∀ r'' env' now', told r'' = told r' → now' - now < verdictLifetime → check r'' now' q = None →
    Submit r'' env' now' q = Some (r'', inl f).
Proof.
  intros r'' env' now' H1 H2 H3. pose proof (settled_is_told _ _ _ _ _ _ Ht Hb Hs Hf) as Hm.
  unfold Submit. rewrite H3, H1, Hm, Hlog.
  pose proof (guard.remember_all_ok verdictLifetime maxVerdicts log) as (K1 & K2 & K3 & _).
  rewrite guard.recall_remember; [done|exact K1|..].
  - rewrite K2. reflexivity.
  - rewrite K3. unfold verdictLifetime, fee.minute, fee.second. lia.
  - by rewrite K3.
Qed.

End submit.
(** ** A run to evaluate the theorems on

    The demo relayer's vault; values and keys encode as nothing, so every hash is 0, and no ledger entry
    exists. *)
Definition demo_sdk : StellarSDK := example.sdk_vals [] (λ _, Some []) (λ _, None) (λ _, Some []).

Definition demo_client : rpc.Client := rpc.mkClient (Ok (1, 9, 60)) (λ _, Ok ([], 9)).

Definition demo_env (p : Prepared) : Env :=
  mkEnv demo_client demo_client true true (Some (example.account 6)) (λ _, ScreenAllow) p (Sent "tx") "held".

(** A payment of 12000000 for a fee of 100, with a proof of the toy curve. *)
Definition demo_request (nb : option Z) : request.Request :=
  request.mkRequest
    (keys.mkProof (groth16.encode_G1 (groth16.mkG1 1 1)) (groth16.encode_G2 (groth16.mkG2 1 0 1 0))
      (groth16.encode_G1 (groth16.mkG1 72 1)) (fr.SetUint64 5)
      (default (fr.SetUint64 0) (keys.PublicAmount (-300) 100)) (fr.SetUint64 0)
      (fr.SetUint64 8, fr.SetUint64 9) (fr.SetUint64 10, fr.SetUint64 11))
    (keys.mkExtData (example.contract 7) (replicate 32 4) 1000 (-300) 100 (example.contract 1)
      (example.account 2) (replicate 181 0) (replicate 181 255)) nb.

Definition demo_submit (env : Env) (q : request.Request) : option (Relayer * answered Accepted) :=
  Submit (sdk := demo_sdk) (bn := groth16.toy) (λ l, l) (λ _ _ _, 9) demo_relayer env 0 q.

(** Whether a submission is answered with a settled failure, or another. *)
Definition refusal (o : option (Relayer * answered Accepted)) : option bool :=
  match o with Some (_, inl f) => Some (guard.settled f) | _ => None end.

Definition sent_hash (o : option (Relayer * answered Accepted)) : option string :=
  match o with Some (_, inr (AcceptedSent h _ _)) => Some h | _ => None end.

Lemma sent_witness : ∃ r' h rec slot,
  demo_submit (demo_env (PreparedOk 95 200 50 9 false)) (demo_request None) = Some (r', inr (AcceptedSent h rec slot)) ∧
  covered demo_relayer (demo_env (PreparedOk 95 200 50 9 false)) 0 (demo_request None).
Proof.
  destruct (demo_submit (demo_env (PreparedOk 95 200 50 9 false)) (demo_request None))
    as [[r' [f|[h rec slot|id]]]|] eqn:E;
    pose proof (f_equal sent_hash E) as Hh; vm_compute in Hh; try discriminate Hh.
  exists r', h, rec, slot. split; [reflexivity|]. unfold demo_submit in E.
  apply sent_requests_are_checked in E as (_ & H & _). exact H.
Defined.

(** Held until 100: the network refuses everything and the answer is the same. *)
Definition down_env : Env :=
  mkEnv (rpc.mkClient (Fail (Sentinel "down")) (λ _, Fail (Sentinel "down"))) demo_client false false None
    (λ _, ScreenError) PrepareError SendError "held".

Lemma held_witness : demo_submit (demo_env PrepareError) (demo_request (Some 100))
  = demo_submit down_env (demo_request (Some 100)).
Proof.
  unfold demo_submit.
  destruct (held_requests_touch_nothing (sdk := demo_sdk) (bn := groth16.toy) (λ l, l) (λ _ _ _, 9)
    demo_relayer (demo_env PrepareError) down_env 0 100 (demo_request (Some 100))) as [H _].
  - reflexivity.
  - reflexivity.
  - reflexivity.
  - reflexivity.
  - left. vm_compute. by eexists.
  - exact H.
Defined.

(** A request that fails its simulation is refused again with the network down. *)
Lemma remembered_witness : ∃ r' f, demo_submit (demo_env PrepareSimulation) (demo_request None) = Some (r', inl f) ∧
  Submit (sdk := demo_sdk) (bn := groth16.toy) (λ l, l) (λ _ _ _, 9) (set_told (told r') demo_relayer) down_env
    fee.second (demo_request None) = Some (set_told (told r') demo_relayer, inl f).
Proof.
  destruct (demo_submit (demo_env PrepareSimulation) (demo_request None)) as [[r' [f|a]]|] eqn:E;
    pose proof (f_equal refusal E) as Hf; vm_compute in Hf; [|discriminate Hf..]. injection Hf as Hf.
  exists r', f. split; [reflexivity|]. unfold demo_submit in E.
  apply (settled_refusals_are_remembered (sdk := demo_sdk) (bn := groth16.toy) (λ l, l) (λ _ _ _, 9)
    demo_relayer (demo_env PrepareSimulation) 0 (demo_request None) r' f []).
  - reflexivity.
  - reflexivity.
  - reflexivity.
  - exact E.
  - symmetry. exact Hf.
  - reflexivity.
  - vm_compute. reflexivity.
  - vm_compute. reflexivity.
Defined.

End submit.
