(* ===== verification/Held.v ===== *)
(** Held requests and the notes in flight, of [services/internal/relayer/relayer.go]: [settleHeld],
    [HeldStatus], [CancelHeld], [sendHeld] and [Status], and the interleavings of the goroutines that
    run them with [Submit] and the release of [follow]. The system starts with nothing in flight; what
    [Resume] claims of an earlier run's records is not modelled.

    Every goroutine of a submission takes the relayer's lock for short sections. The system below is
    the relayer with the goroutines alive, each between two of its sections, and a step is one
    section, in any order the scheduler picks. What the goroutines do outside those sections is a step
    that leaves the notes in flight and the held requests alone, as Relay.v proves of the functions. *)
From S2P Require Import Prelude.
From S2P Require Import Fr.
From S2P Require Import Xdr.
From S2P Require Import Keys.
From S2P Require Import Guard.
From S2P Require Import Request.
From S2P Require Import Groth16.
From S2P Require Import RelayState.
From S2P Require Import Relay.

Module held.

Import relay submit.

Definition notes : Type := (fr.Element * fr.Element)%type.

(** [Relayer.settleHeld] *)
Definition settleHeld (r : Relayer) (id h c : string) (reason : option Z) : Relayer :=
  match heldBy r !! id with
  | Some x => set_heldBy (<[id := mkHeld h c reason (cancelled x) (sending x) false (nfs x)]> (heldBy r)) r
  | None => r
  end.

(** The outcomes of the relayer's records. *)
Definition outcomeSuccess : string := "success".
Definition outcomeFailed : string := "failed".
Definition outcomeExpired : string := "expired".

Definition errLookupBudget : gerr := Sentinel "relayer: status lookups over budget".

(** [Relayer.Status], given whether a lookup is within budget and what the records hold of the
    transaction: its outcome and exit ID. *)
Definition Status_ (r : Relayer) (allow : bool) (lookup : res (option (string * option Z))) (h : string)
    : res (option txStatus) :=
  match statuses r !! h with
  | Some s => Ok (Some s)
  | None =>
      if negb allow then Fail errLookupBudget
      else
        found ← lookup;
        match found with
        | None => Ok None
        | Some (outcome, exitID) =>
            if String.eqb outcome outcomeSuccess then Ok (Some (mkStatus "success" "" exitID))
            else if String.eqb outcome outcomeFailed then Ok (Some (mkStatus "failed" CodeRejected None))
            else if String.eqb outcome outcomeExpired then Ok (Some (mkStatus "failed" CodeUnavailable None))
            else Ok (Some (mkStatus "pending" "" None))
        end
  end.

(** [Relayer.HeldStatus]: the status, the hash and the reason, or nothing for an unknown ID. *)
Definition HeldStatus (r : Relayer) (allow : bool) (lookup : res (option (string * option Z))) (id : string)
    : option (txStatus * string * option Z) :=
  match heldBy r !! id with
  | None => None
  | Some x =>
      if cancelled x then Some (mkStatus "cancelled" "" None, "", None)
      else if negb (String.eqb (hcode x) "") then Some (mkStatus "failed" (hcode x) None, "", hreason x)
      else if String.eqb (hash x) "" then Some (mkStatus "held" "" None, "", None)
      else
        match Status_ r allow lookup (hash x) with
        | Ok (Some s) => Some (s, hash x, None)
        | _ => Some (mkStatus "pending" "" None, hash x, None)
        end
  end.

(** The locked section of [Relayer.CancelHeld], given what [timer.Stop] would answer: the notes to
    free. *)
Definition cancel_locked (r : Relayer) (id : string) (stops : bool) : option (Relayer * notes) :=
  match heldBy r !! id with
  | None => None
  | Some x =>
      if negb (timer x) || sending x || cancelled x || negb stops then None
      else
        Some (set_held (held r - 1) (set_heldBy
                (<[id := mkHeld (hash x) (hcode x) (hreason x) true (sending x) false (nfs x)]> (heldBy r)) r),
              nfs x)
  end.

Definition CancelHeld (r : Relayer) (id : string) (stops : bool) : Relayer * bool :=
  match cancel_locked r id stops with
  | None => (r, false)
  | Some (r, ns) => (unclaim r ns, true)
  end.

(** What the first locked section of [sendHeld] finds: the record was dropped for newer ones, the
    request was cancelled, or it is due. *)
Inductive Due : Type := DueDropped | DueCancelled | DueSend.

Definition begin_locked (r : Relayer) (id : string) : Relayer * Due :=
  match heldBy r !! id with
  | None => (set_held (held r - 1) r, DueDropped)
  | Some x =>
      if cancelled x then (r, DueCancelled)
      else
        (set_heldBy (<[id := mkHeld (hash x) (hcode x) (hreason x) (cancelled x) true (timer x) (nfs x)]>
                       (heldBy r)) r, DueSend)
  end.

Section held.
Context {sdk : StellarSDK} {bn : groth16.Bn254} (sha256 : list Z → list Z).
Context (ledgerAt : list guard.ledgerSample → Z → Z → Z).

(** What [sendHeld] does once the request is due: everything that depends on the moment runs now.
    [stopped] is the relayer's context ended. *)
Definition send_due (r : Relayer) (env : Env) (now : Z) (stopped : bool) (q : request.Request)
    : option (Relayer * answered (string * Rec * bool)) :=
  if stopped then Some (r, inl (fail 0 CodeUnavailable))
  else
    match minimumFee r now q with
    | Some f => Some (r, inl f)
    | None =>
        let '(r, f) := guard_request sha256 r now q in
        match f with
        | Some f => Some (r, inl f)
        | None => relay_ sha256 r env now q
        end
    end.

(** [Relayer.sendHeld], with the hash and the record of a transaction that was sent. *)
Definition sendHeld (r : Relayer) (env : Env) (now : Z) (stopped : bool) (id : string) (q : request.Request)
    : option (Relayer * option (string * Rec * bool)) :=
  let ns := keys.Nullifiers (request.Proof q) in
  let '(r, due) := begin_locked r id in
  match due with
  | DueDropped => Some (unclaim r ns, None)
  | DueCancelled => Some (r, None)
  | DueSend =>
      '(r, a) ← send_due r env now stopped q;
      let '(r, sent) :=
        match a with
        | inl f => (settleHeld (unclaim r ns) id "" (guard.code f) (guard.reason f), None)
        | inr (h, rec, slot) => (settleHeld r id h "" None, Some (h, rec, slot))
        end in
      Some (set_held (held r - 1) r, sent)
  end.

(** ** The goroutines

    A goroutine by what it holds and has still to do. *)
Inductive task : Type :=
| Claimed (ns : notes)               (* [Submit] after its claim *)
| Waiting (id : string) (ns : notes) (* a held request's timer *)
| Fired (id : string) (ns : notes)   (* the timer fired, [sendHeld] has not locked yet *)
| Sending (id : string) (ns : notes) (* [sendHeld] of a request that is due *)
| Failing (id : string) (f : guard.failure) (* [sendHeld] once the notes are freed *)
| Handed (id h : string)             (* [sendHeld] once the transaction is followed *)
| Ending (id : string)               (* [sendHeld] before its deferred section *)
| Freeing (ns : notes)               (* an [unclaim] to do *)
| Following (h : string) (ns : notes). (* [follow] until the outcome is known *)

(** The notes a goroutine answers for. *)
Definition owned (t : task) : gset fr.Element :=
  match t with
  | Claimed ns | Waiting _ ns | Fired _ ns | Sending _ ns | Freeing ns | Following _ ns => {[ ns.1; ns.2 ]}
  | Failing _ _ | Handed _ _ | Ending _ => ∅
  end.

(** The held request a goroutine is for, which [held] counts. *)
Definition held_id (t : task) : option string :=
  match t with
  | Waiting id _ | Fired id _ | Sending id _ | Failing id _ | Handed id _ | Ending id => Some id
  | Claimed _ | Freeing _ | Following _ _ => None
  end.

Record System : Type := mkSystem { rel : Relayer; tasks : gmap nat task }.

(** The notes in flight and the held requests of two relayers are the same. *)
Definition same_slots (r r' : Relayer) : Prop :=
  cfg r' = cfg r ∧ inflight r' = inflight r ∧ held r' = held r ∧ heldBy r' = heldBy r ∧ heldOrder r' = heldOrder r.

(** A step that begins a goroutine, that runs elsewhere, or that brings a goroutine nearer its end. *)
Inductive label : Type := Begin | Elsewhere | Work.

Inductive step : label → System → System → Prop :=
| step_elsewhere r r' ts : same_slots r r' → step Elsewhere (mkSystem r ts) (mkSystem r' ts)
| step_claim r r' ts k ns : ts !! k = None → claim r ns = (r', true) →
    step Begin (mkSystem r ts) (mkSystem r' (<[k := Claimed ns]> ts))
| step_hold r r' ts k id q : ts !! k = Some (Claimed (keys.Nullifiers (request.Proof q))) →
    heldBy r !! id = None → (∀ j t, ts !! j = Some t → held_id t ≠ Some id) →
    hold r id q = (r', inr id) →
    step Work (mkSystem r ts) (mkSystem r' (<[k := Waiting id (keys.Nullifiers (request.Proof q))]> ts))
| step_hold_full r r' ts k id q f : ts !! k = Some (Claimed (keys.Nullifiers (request.Proof q))) →
    hold r id q = (r', inl f) → step Work (mkSystem r ts) (mkSystem r' (delete k ts))
| step_refused r ts k ns : ts !! k = Some (Claimed ns) →
    step Work (mkSystem r ts) (mkSystem (unclaim r ns) (delete k ts))
| step_sent r ts k ns h : ts !! k = Some (Claimed ns) →
    step Work (mkSystem r ts) (mkSystem r (<[k := Following h ns]> ts))
| step_fire r ts k id ns : ts !! k = Some (Waiting id ns) →
    step Work (mkSystem r ts) (mkSystem r (<[k := Fired id ns]> ts))
| step_begin r r' ts k id ns due : ts !! k = Some (Fired id ns) → begin_locked r id = (r', due) →
    step Work (mkSystem r ts) (mkSystem r'
      (match due with
       | DueDropped => <[k := Freeing ns]> ts
       | DueCancelled => delete k ts
       | DueSend => <[k := Sending id ns]> ts
       end))
| step_fails r ts k id ns f : ts !! k = Some (Sending id ns) →
    step Work (mkSystem r ts) (mkSystem (unclaim r ns) (<[k := Failing id f]> ts))
| step_settle_failed r ts k id f : ts !! k = Some (Failing id f) →
    step Work (mkSystem r ts)
      (mkSystem (settleHeld r id "" (guard.code f) (guard.reason f)) (<[k := Ending id]> ts))
| step_sends r ts k j id ns h : ts !! k = Some (Sending id ns) → ts !! j = None →
    step Work (mkSystem r ts) (mkSystem r (<[j := Following h ns]> (<[k := Handed id h]> ts)))
| step_settle_sent r ts k id h : ts !! k = Some (Handed id h) →
    step Work (mkSystem r ts) (mkSystem (settleHeld r id h "" None) (<[k := Ending id]> ts))
| step_end r ts k id : ts !! k = Some (Ending id) →
    step Work (mkSystem r ts) (mkSystem (set_held (held r - 1) r) (delete k ts))
| step_cancel r r' ts k id ns ns' : ts !! k = Some (Waiting id ns) → cancel_locked r id true = Some (r', ns') →
    step Work (mkSystem r ts) (mkSystem r' (<[k := Freeing ns']> ts))
| step_free r ts k ns : ts !! k = Some (Freeing ns) →
    step Work (mkSystem r ts) (mkSystem (unclaim r ns) (delete k ts))
| step_followed r ts k h ns : ts !! k = Some (Following h ns) →
    step Work (mkSystem r ts) (mkSystem (unclaim r ns) (delete k ts)).

(** * Specification *)

(** The notes in flight are those the goroutines answer for, and no two answer for the same note. *)
Definition slots (I : gset fr.Element) (ts : gmap nat task) : Prop :=
  (∀ x, x ∈ I ↔ ∃ k t, ts !! k = Some t ∧ x ∈ owned t) ∧
  ∀ k j t u, ts !! k = Some t → ts !! j = Some u → k ≠ j → owned t ## owned u.

(** How many held requests the goroutines are for. *)
Definition is_held (t : task) : bool := bool_decide (is_Some (held_id t)).
Definition holding (ts : gmap nat task) : Z := Z.of_nat (size (filter (λ p, Is_true (is_held p.2)) ts)).

(** What the record of a held request says at each point of its goroutine. *)
Definition record_ok (t : task) (x : heldRequest) : Prop :=
  cancelled x = false ∧
  match t with
  | Waiting _ ns | Fired _ ns => nfs x = ns ∧ sending x = false ∧ timer x = true ∧ hash x = "" ∧ hcode x = ""
  | Sending _ _ | Failing _ _ | Handed _ _ => sending x = true ∧ hash x = "" ∧ hcode x = ""
  | _ => True
  end.

(** Each held request has one goroutine, which agrees with its record. *)
Definition named (by_ : gmap string heldRequest) (ts : gmap nat task) : Prop :=
  (∀ k j t u id, ts !! k = Some t → ts !! j = Some u → held_id t = Some id → held_id u = Some id → k = j) ∧
  ∀ k t id x, ts !! k = Some t → held_id t = Some id → by_ !! id = Some x → record_ok t x.

Record sound (s : System) : Prop := mkSound {
  so_slots : slots (inflight (rel s)) (tasks s);
  so_held : held (rel s) = holding (tasks s);
  so_bound : held (rel s) <= Z.max 0 (MaxHeld (cfg (rel s)));
  so_named : named (heldBy (rel s)) (tasks s) }.

(** The states the scheduler reaches from a relayer with nothing in flight. *)
Inductive reachable : System → Prop :=
| reachable_start r : inflight r = ∅ → held r = 0 → heldBy r = ∅ → reachable (mkSystem r ∅)
| reachable_step l s s' : reachable s → step l s s' → reachable s'.

(** A run in which no submission begins, by the number of its steps that bring a goroutine nearer its
    end. *)
Inductive run : nat → System → System → Prop :=
| run_none s : run 0 s s
| run_elsewhere n s s' s'' : run n s s' → step Elsewhere s' s'' → run n s s''
| run_work n s s' s'' : run n s s' → step Work s' s'' → run (S n) s s''.

(** The steps a goroutine can still take. *)
Definition weight (t : task) : nat :=
  match t with
  | Claimed _ => 7
  | Waiting _ _ => 6
  | Fired _ _ => 5
  | Sending _ _ => 4
  | Failing _ _ | Handed _ _ => 2
  | Ending _ | Freeing _ | Following _ _ => 1
  end.

Definition left_to_do (ts : gmap nat task) : nat := map_fold (λ _ t n, weight t + n)%nat 0%nat ts.

Definition steps : System → System → Prop := rtc (λ s s', ∃ l, step l s s').

(** * Lemmas *)

(** ** Goroutines begin, go on and end *)

Lemma slots_go_on I ts k t t' : ts !! k = Some t → owned t' = owned t → slots I ts → slots I (<[k := t']> ts).
Proof.
  intros Hk Ho [H1 H2]. split.
  - intros x. rewrite H1. split; intros (j & u & Hj & Hx).
    + destruct (decide (j = k)) as [->|Hn].
      * exists k, t'. rewrite lookup_insert_eq, Ho. split; [done|]. by simplify_eq.
      * exists j, u. by rewrite lookup_insert_ne.
    + apply lookup_insert_Some in Hj as [[<- <-]|[_ Hj]]; [|by exists j, u].
      exists k, t. by rewrite <- Ho.
  - intros i j u v [[<- <-]|[_ Hi]]%lookup_insert_Some [[<- <-]|[_ Hj]]%lookup_insert_Some Hn; try done.
    + rewrite Ho. by apply (H2 k j).
    + rewrite Ho. by apply (H2 i k).
    + by apply (H2 i j).
Qed.

Lemma slots_begin I ts k t : ts !! k = None → owned t ## I → slots I ts → slots (owned t ∪ I) (<[k := t]> ts).
Proof.
  intros Hk Hd [H1 H2]. split.
  - intros x. rewrite elem_of_union, H1. split.
    + intros [Hx|(j & u & Hj & Hx)]; [exists k, t; by rewrite lookup_insert_eq|].
      exists j, u. rewrite lookup_insert_ne; [done|]. intros ->. congruence.
    + intros (j & u & [[<- <-]|[_ Hj]]%lookup_insert_Some & Hx); [by left|right]. by exists j, u.
  - assert (∀ j u, ts !! j = Some u → owned t ## owned u) as Ht.
    { intros j u Hj x Hx Hu. apply (Hd x Hx), H1. by exists j, u. }
    intros i j u v [[<- <-]|[_ Hi]]%lookup_insert_Some [[<- <-]|[_ Hj]]%lookup_insert_Some Hn; try done.
    + by apply (Ht j).
    + symmetry. by apply (Ht i).
    + by apply (H2 i j).
Qed.

Lemma slots_end I ts k t : ts !! k = Some t → slots I ts → slots (I ∖ owned t) (delete k ts).
Proof.
  intros Hk [H1 H2]. split.
  - intros x. rewrite elem_of_difference, H1. split.
    + intros [(j & u & Hj & Hx) Hn]. exists j, u. rewrite lookup_delete_ne; [done|].
      intros ->. simplify_eq. by apply Hn.
    + intros (j & u & [Hn Hj]%lookup_delete_Some & Hx). split; [by exists j, u|].
      intros Hx'. by apply (H2 j k u t Hj Hk (not_eq_sym Hn) x).
  - intros i j u v [_ Hi]%lookup_delete_Some [_ Hj]%lookup_delete_Some. by apply H2.
Qed.

(** A goroutine frees its notes and goes on. *)
Lemma slots_free I ts k t t' : ts !! k = Some t → owned t' = ∅ → slots I ts →
  slots (I ∖ owned t) (<[k := t']> ts).
Proof.
  intros Hk Ho H. rewrite <- insert_delete_eq. rewrite <- (union_empty_l_L (I ∖ owned t)), <- Ho.
  apply slots_begin; [apply lookup_delete_eq|rewrite Ho; set_solver|by apply slots_end].
Qed.

(** A goroutine hands its notes to a new one. *)
Lemma slots_hand I ts k j t t' u : ts !! k = Some t → ts !! j = None → owned t' = ∅ → owned u = owned t →
  slots I ts → slots I (<[j := u]> (<[k := t']> ts)).
Proof.
  intros Hk Hj Ho Hu H. assert (k ≠ j) by congruence.
  assert (owned t ⊆ I) by (intros x Hx; apply H; by exists k, t).
  replace I with (owned u ∪ I ∖ owned t) by (rewrite Hu; symmetry; by apply union_difference_L).
  apply slots_begin; [by rewrite lookup_insert_ne|rewrite Hu; set_solver|by apply slots_free].
Qed.

Lemma holding_insert ts k t : ts !! k = None →
  holding (<[k := t]> ts) = holding ts + (if is_held t then 1 else 0).
Proof.
  intros Hk. unfold holding. destruct (is_held t) eqn:E.
  - rewrite map_filter_insert_True by (cbn; by rewrite E).
    rewrite map_size_insert_None; [lia|]. rewrite map_lookup_filter_None. by left.
  - rewrite map_filter_insert_False by (cbn; rewrite E; by intros []). rewrite delete_id by done. lia.
Qed.

Lemma holding_delete ts k t : ts !! k = Some t →
  holding (delete k ts) = holding ts - (if is_held t then 1 else 0).
Proof.
  intros Hk. rewrite <- (insert_delete_id ts k t Hk) at 2.
  rewrite holding_insert by apply lookup_delete_eq. lia.
Qed.

Lemma holding_go_on ts k t t' : ts !! k = Some t →
  holding (<[k := t']> ts) = holding ts - (if is_held t then 1 else 0) + (if is_held t' then 1 else 0).
Proof.
  intros Hk. rewrite <- insert_delete_eq, holding_insert by apply lookup_delete_eq.
  by rewrite (holding_delete _ _ t).
Qed.

(** A record is the same for every goroutine but one, or was dropped. *)
Definition agrees (by_ by' : gmap string heldRequest) (ts : gmap nat task) (k : nat) : Prop :=
  ∀ j u id, j ≠ k → ts !! j = Some u → held_id u = Some id → by' !! id = None ∨ by' !! id = by_ !! id.

Lemma agrees_refl by_ ts k : agrees by_ by_ ts k.
Proof. right. done. Qed.

Lemma named_set by_ by' ts k t' : (∀ j u id, j ≠ k → ts !! j = Some u → held_id u = Some id → held_id t' ≠ Some id) →
  agrees by_ by' ts k → (∀ id x, held_id t' = Some id → by' !! id = Some x → record_ok t' x) →
  named by_ ts → named by' (<[k := t']> ts).
Proof.
  intros Ht Hb Hr [H1 H2]. split.
  - intros i j u v id [[<- <-]|[Hi Hu]]%lookup_insert_Some [[<- <-]|[Hj Hv]]%lookup_insert_Some Hid Hid'; [done|..].
    + by destruct (Ht j v id (not_eq_sym Hj) Hv Hid').
    + by destruct (Ht i u id (not_eq_sym Hi) Hu Hid).
    + by apply (H1 i j u v id).
  - intros j u id x [[<- <-]|[Hj Hu]]%lookup_insert_Some Hid Hx; [by apply (Hr id)|].
    apply (H2 j u id); [done..|]. destruct (Hb j u id (not_eq_sym Hj) Hu Hid); congruence.
Qed.

Lemma named_delete by_ by' ts k : agrees by_ by' ts k → named by_ ts → named by' (delete k ts).
Proof.
  intros Hb [H1 H2]. split.
  - intros i j u v id [_ Hu]%lookup_delete_Some [_ Hv]%lookup_delete_Some. by apply H1.
  - intros j u id x [Hj Hu]%lookup_delete_Some Hid Hx. apply (H2 j u id); [done..|].
    destruct (Hb j u id (not_eq_sym Hj) Hu Hid); congruence.
Qed.

(** No other goroutine is for the held request of this one. *)
Lemma named_unique by_ ts k t id : named by_ ts → ts !! k = Some t → held_id t = Some id →
  ∀ j u id', j ≠ k → ts !! j = Some u → held_id u = Some id' → id' ≠ id.
Proof. intros [H _] Hk Hid j u id' Hn Hj Hid' ->. by apply Hn, (H j k u t id). Qed.

(** A goroutine goes on with the record of its request as it is, or changes it. *)
Lemma named_go_on by_ ts k t t' id : ts !! k = Some t → held_id t = Some id → held_id t' = Some id →
  (∀ x, by_ !! id = Some x → record_ok t x → record_ok t' x) → named by_ ts → named by_ (<[k := t']> ts).
Proof.
  intros Hk Hid Hid' Hr Hn. pose proof (named_unique _ _ _ _ _ Hn Hk Hid) as Hu.
  apply (named_set by_); [|apply agrees_refl| |done].
  - intros j u i Hj Hju Hi [= ->]%(eq_trans (eq_sym Hid')). by apply (Hu j u i).
  - rewrite Hid'. intros i x [= <-] Hx. apply Hr; [done|]. by apply (proj2 Hn k t id).
Qed.

Lemma named_change by_ ts k t t' id x' : ts !! k = Some t → held_id t = Some id →
  held_id t' = None ∨ held_id t' = Some id ∧ record_ok t' x' → named by_ ts → named (<[id := x']> by_) (<[k := t']> ts).
Proof.
  intros Hk Hid Ht Hn. pose proof (named_unique _ _ _ _ _ Hn Hk Hid) as Hu. apply (named_set by_); [..|done].
  - intros j u i Hj Hju Hi Hi'. destruct Ht as [?|[? _]]; [congruence|]. apply (Hu j u i); congruence.
  - intros j u i Hj Hju Hi. right. rewrite lookup_insert_ne; [done|]. intros <-. by apply (Hu j u id).
  - intros i x Hi Hx. destruct Ht as [?|[Hi' Hr]]; [congruence|]. assert (i = id) as -> by congruence.
    rewrite lookup_insert_eq in Hx. by injection Hx as <-.
Qed.

(** A goroutine that is for no held request. *)
Lemma named_other by_ ts k t : held_id t = None → named by_ ts → named by_ (<[k := t]> ts).
Proof.
  intros Ht. apply named_set; [|apply agrees_refl|]; intros; congruence.
Qed.

(** What [hold] changes when it accepts. *)
Lemma hold_inr r id q r' id' : hold r id q = (r', inr id') → heldBy r !! id = None →
  id' = id ∧ held r < MaxHeld (cfg r) ∧ cfg r' = cfg r ∧ inflight r' = inflight r ∧ held r' = held r + 1 ∧
  ∃ by1, heldBy r' = <[id := mkHeld "" "" None false false true (keys.Nullifiers (request.Proof q))]> by1 ∧
    ∀ i, by1 !! i = None ∨ by1 !! i = heldBy r !! i.
Proof.
  unfold hold. destruct (Z.leb_spec (MaxHeld (cfg r)) (held r)) as [|Hb]; [done|].
  intros [= <- <-] Hid. unfold track. cbn [set_held heldBy heldOrder]. rewrite Hid. split; [done|].
  split; [done|]. destruct (maxStatuses <? _).
  - destruct (heldOrder r ++ [id]) as [|id0 rest]; cbn; (split; [done|]); (split; [done|]); (split; [done|]).
    + exists (heldBy r). split; [done|]. by right.
    + exists (delete id0 (heldBy r)). split; [done|]. intros i.
      destruct (decide (i = id0)) as [->|]; [left; apply lookup_delete_eq|right; by apply lookup_delete_ne].
  - cbn. split; [done|]. split; [done|]. split; [done|]. exists (heldBy r). split; [done|]. by right.
Qed.

(** [settleHeld] changes the record of the request alone. *)
Lemma settleHeld_slots r id h c reason : cfg (settleHeld r id h c reason) = cfg r ∧
  inflight (settleHeld r id h c reason) = inflight r ∧ held (settleHeld r id h c reason) = held r.
Proof. unfold settleHeld. by destruct (heldBy r !! id). Qed.

Lemma settleHeld_named r id h c reason ts k t : named (heldBy r) ts → ts !! k = Some t → held_id t = Some id →
  named (heldBy (settleHeld r id h c reason)) (<[k := Ending id]> ts).
Proof.
  intros Hn Hk Hid. unfold settleHeld. destruct (heldBy r !! id) as [x|] eqn:E.
  - apply (named_change _ _ _ t); [done..| |done]. right. split; [done|]. split; [|done].
    by apply (proj2 Hn k t id x).
  - apply (named_go_on _ _ _ t _ id); [done..| |done]. congruence.
Qed.

(** ** Each step keeps the system sound *)

Lemma unclaim_inflight r ns : inflight (unclaim r ns) = inflight r ∖ {[ ns.1; ns.2 ]}.
Proof. cbn. set_solver. Qed.

Lemma sound_release r ts k t ns : sound (mkSystem r ts) → ts !! k = Some t → held_id t = None →
  owned t = {[ ns.1; ns.2 ]} → sound (mkSystem (unclaim r ns) (delete k ts)).
Proof.
  intros [H1 H2 H3 H4] Hk Hid Ho. split; cbn [rel tasks] in *.
  - rewrite unclaim_inflight, <- Ho. by apply slots_end.
  - rewrite (holding_delete _ _ t) by done. unfold is_held. rewrite Hid. cbn. lia.
  - done.
  - by apply (named_delete (heldBy r)); [apply agrees_refl|].
Qed.

Lemma sound_go_on r ts k t t' : sound (mkSystem r ts) → ts !! k = Some t → owned t' = owned t →
  held_id t' = held_id t → (∀ x, record_ok t x → record_ok t' x) → sound (mkSystem r (<[k := t']> ts)).
Proof.
  intros [H1 H2 H3 H4] Hk Ho Hid Hr. split; cbn [rel tasks] in *; [|..|done|].
  - by apply (slots_go_on _ _ _ t).
  - rewrite (holding_go_on _ _ t) by done. unfold is_held. rewrite Hid. lia.
  - destruct (held_id t) as [id|] eqn:E; [|by apply named_other].
    by apply (named_go_on _ _ _ t _ id); [..|intros x _; apply Hr|].
Qed.

Lemma sound_claim r r' ts k ns : sound (mkSystem r ts) → ts !! k = None → claim r ns = (r', true) →
  sound (mkSystem r' (<[k := Claimed ns]> ts)).
Proof.
  intros [H1 H2 H3 H4] Hk (N1 & N2 & ->)%claim_true. split; cbn [rel tasks] in *.
  - apply (slots_begin (inflight r) ts k (Claimed ns)); [done|cbn; set_solver|done].
  - rewrite holding_insert by done. cbn. lia.
  - done.
  - by apply named_other.
Qed.

Lemma sound_hold r r' ts k id q : let ns := keys.Nullifiers (request.Proof q) in
  sound (mkSystem r ts) → ts !! k = Some (Claimed ns) → heldBy r !! id = None →
  (∀ j t, ts !! j = Some t → held_id t ≠ Some id) → hold r id q = (r', inr id) →
  sound (mkSystem r' (<[k := Waiting id ns]> ts)).
Proof.
  intros ns [H1 H2 H3 H4] Hk Hid Hf Hh. apply hold_inr in Hh as (_ & Hb & Hc & Hi & Hheld & by1 & Hby & Hd); [|done].
  split; cbn [rel tasks] in *.
  - rewrite Hi. by apply (slots_go_on _ _ _ (Claimed ns)).
  - rewrite (holding_go_on _ _ (Claimed ns)) by done. cbn. lia.
  - rewrite Hheld, Hc. lia.
  - rewrite Hby. apply (named_set (heldBy r)); [..|done].
    + intros j u i Hj Hu Hi' [= ->]. by apply (Hf j u).
    + intros j u i Hj Hu Hi'. rewrite lookup_insert_ne; [apply Hd|]. intros <-. by apply (Hf j u).
    + intros i x [= <-]. rewrite lookup_insert_eq. by intros [= <-].
Qed.

Lemma sound_begin r r' ts k id ns due : sound (mkSystem r ts) → ts !! k = Some (Fired id ns) →
  begin_locked r id = (r', due) →
  sound (mkSystem r' (match due with
                      | DueDropped => <[k := Freeing ns]> ts
                      | DueCancelled => delete k ts
                      | DueSend => <[k := Sending id ns]> ts
                      end)).
Proof.
  intros [H1 H2 H3 H4] Hk. unfold begin_locked. cbn [rel tasks] in *.
  destruct (heldBy r !! id) as [x|] eqn:Ex.
  - pose proof (proj2 H4 k _ id x Hk eq_refl Ex) as (Hc & Hx). rewrite Hc. intros [= <- <-].
    split; cbn [rel tasks]; [|..|done|].
    + by apply (slots_go_on _ _ _ (Fired id ns)).
    + rewrite (holding_go_on _ _ (Fired id ns)) by done. cbn in *. lia.
    + apply (named_change _ _ _ (Fired id ns)); [done..| |done]. right. destruct Hx as (_ & _ & _ & Hx1 & Hx2). repeat split; assumption.
  - intros [= <- <-]. split; cbn [rel tasks].
    + by apply (slots_go_on _ _ _ (Fired id ns)).
    + rewrite (holding_go_on _ _ (Fired id ns)) by done. cbn in *. lia.
    + cbn in *. lia.
    + by apply named_other.
Qed.

Lemma sound_fails r ts k id ns f : sound (mkSystem r ts) → ts !! k = Some (Sending id ns) →
  sound (mkSystem (unclaim r ns) (<[k := Failing id f]> ts)).
Proof.
  intros [H1 H2 H3 H4] Hk. split; cbn [rel tasks] in *; [|..|done|].
  - rewrite unclaim_inflight. by apply (slots_free _ _ _ (Sending id ns)).
  - rewrite (holding_go_on _ _ (Sending id ns)) by done. cbn in *. lia.
  - by apply (named_go_on _ _ _ (Sending id ns) _ id).
Qed.

Lemma sound_settle r ts k t id h c reason : sound (mkSystem r ts) → ts !! k = Some t → held_id t = Some id →
  owned t = ∅ → sound (mkSystem (settleHeld r id h c reason) (<[k := Ending id]> ts)).
Proof.
  intros [H1 H2 H3 H4] Hk Hid Ho. destruct (settleHeld_slots r id h c reason) as (Hc & Hi & Hh).
  split; cbn [rel tasks] in *.
  - rewrite Hi. by apply (slots_go_on _ _ _ t).
  - rewrite (holding_go_on _ _ t), Hh by done. unfold is_held. rewrite Hid. cbn in *. lia.
  - by rewrite Hh, Hc.
  - by apply (settleHeld_named _ _ _ _ _ _ _ t).
Qed.

Lemma sound_sends r ts k j id ns h : sound (mkSystem r ts) → ts !! k = Some (Sending id ns) → ts !! j = None →
  sound (mkSystem r (<[j := Following h ns]> (<[k := Handed id h]> ts))).
Proof.
  intros [H1 H2 H3 H4] Hk Hj. assert (k ≠ j) by congruence. split; cbn [rel tasks] in *; [|..|done|].
  - by apply (slots_hand _ _ _ _ (Sending id ns)).
  - rewrite holding_insert by by rewrite lookup_insert_ne.
    rewrite (holding_go_on _ _ (Sending id ns)) by done. cbn in *. lia.
  - apply named_other; [done|]. by apply (named_go_on _ _ _ (Sending id ns) _ id).
Qed.

Lemma sound_end r ts k id : sound (mkSystem r ts) → ts !! k = Some (Ending id) →
  sound (mkSystem (set_held (held r - 1) r) (delete k ts)).
Proof.
  intros [H1 H2 H3 H4] Hk. split; cbn [rel tasks] in *.
  - replace (inflight _) with (inflight r ∖ owned (Ending id)) by (cbn; set_solver). by apply slots_end.
  - rewrite (holding_delete _ _ (Ending id)) by done. cbn in *. lia.
  - cbn in *. lia.
  - by apply (named_delete (heldBy r)); [apply agrees_refl|].
Qed.

Lemma sound_cancel r r' ts k id ns ns' : sound (mkSystem r ts) → ts !! k = Some (Waiting id ns) →
  cancel_locked r id true = Some (r', ns') → sound (mkSystem r' (<[k := Freeing ns']> ts)) ∧ ns' = ns.
Proof.
  intros [H1 H2 H3 H4] Hk. unfold cancel_locked. cbn [rel tasks] in *.
  destruct (heldBy r !! id) as [x|] eqn:Ex; [|done]. destruct (_ || _); [done|]. intros [= <- <-].
  pose proof (proj2 H4 k _ id x Hk eq_refl Ex) as (_ & Hn & _).
  split; [|done]. split; cbn [rel tasks].
  - apply (slots_go_on _ _ _ (Waiting id ns)); [done| |done]. cbn. by rewrite Hn.
  - rewrite (holding_go_on _ _ (Waiting id ns)) by done. cbn in *. lia.
  - cbn in *. lia.
  - apply (named_change _ _ _ (Waiting id ns)); [done..| |done]. by left.
Qed.

Lemma step_sound l s s' : sound s → step l s s' → sound s'.
Proof.
  intros Hs H. destruct H.
  - destruct Hs as [H1 H2 H3 H4], H as (Hc & Hi & Hh & Hb & _). cbn [rel tasks] in *.
    split; cbn [rel tasks]; congruence.
  - by eapply sound_claim.
  - by apply (sound_hold r).
  - unfold hold in *. case_match; [|done]. simplify_eq. by eapply sound_release.
  - by eapply sound_release.
  - by eapply sound_go_on.
  - by eapply sound_go_on.
  - by apply (sound_begin r _ _ _ id).
  - by apply sound_fails.
  - by eapply sound_settle.
  - by apply sound_sends.
  - by eapply sound_settle.
  - by eapply sound_end.
  - by eapply sound_cancel.
  - by eapply sound_release.
  - by eapply sound_release.
Qed.

Lemma reachable_sound s : reachable s → sound s.
Proof.
  induction 1 as [r H1 H2 H3|l s s' _ IH H]; [|by eapply step_sound].
  split; cbn [rel tasks].
  - rewrite H1. split; [|intros k j t u Hk; by rewrite lookup_empty in Hk].
    intros x. rewrite elem_of_empty. split; [done|]. intros (k & t & Hk & _). by rewrite lookup_empty in Hk.
  - rewrite H2. unfold holding. by rewrite map_filter_empty.
  - lia.
  - split; intros k; intros; by rewrite lookup_empty in *.
Qed.

Lemma holding_nonneg ts : 0 <= holding ts.
Proof. unfold holding. lia. Qed.

(** ** What is left to do *)

Lemma left_insert ts k t : ts !! k = None → left_to_do (<[k := t]> ts) = (weight t + left_to_do ts)%nat.
Proof.
  intros Hk. unfold left_to_do. rewrite map_fold_insert_L; [done| |done]. intros. lia.
Qed.

Lemma left_delete ts k t : ts !! k = Some t → left_to_do ts = (weight t + left_to_do (delete k ts))%nat.
Proof.
  intros Hk. rewrite <- (insert_delete_id ts k t Hk) at 1. by rewrite left_insert by apply lookup_delete_eq.
Qed.

Lemma left_go_on ts k t t' : ts !! k = Some t →
  (left_to_do (<[k := t']> ts) + weight t = weight t' + left_to_do ts)%nat.
Proof.
  intros Hk. rewrite <- insert_delete_eq, left_insert by apply lookup_delete_eq.
  rewrite (left_delete ts k t) by done. lia.
Qed.

Lemma left_bound ts : (left_to_do ts <= 7 * size ts)%nat.
Proof.
  induction ts as [|k t ts Hk IH] using map_ind; [done|].
  rewrite left_insert, map_size_insert_None by done. destruct t; cbn [weight]; lia.
Qed.

Lemma work_is_done s s' : step Work s s' → (left_to_do (tasks s') < left_to_do (tasks s))%nat.
Proof.
  intros H. destruct s as [r ts]. inversion H; subst; cbn [tasks];
    try match goal with
    | H : ?m !! ?k = Some ?t |- context [<[_ := _]> (<[?k := ?t']> ?m)] =>
        pose proof (left_go_on m k t t' H)
    | H : ?m !! ?k = Some ?t |- context [<[?k := ?t']> ?m] => pose proof (left_go_on m k t t' H)
    | H : ?m !! ?k = Some ?t |- context [delete ?k ?m] => pose proof (left_delete m k t H)
    end; cbn [weight] in *; try lia.
  - match goal with H : _ !! _ = Some (Fired _ _) |- _ => rename H into Hk end.
    destruct due.
    + pose proof (left_go_on _ _ _ (Freeing ns) Hk). cbn [weight] in *. lia.
    + pose proof (left_delete _ _ _ Hk). cbn [weight] in *. lia.
    + pose proof (left_go_on _ _ _ (Sending id ns) Hk). cbn [weight] in *. lia.
  - rewrite left_insert by (rewrite lookup_insert_ne by congruence; done). cbn [weight]. lia.
Qed.

Lemma work_goes_on s k t : tasks s !! k = Some t → ∃ s', step Work s s'.
Proof.
  destruct s as [r ts]. cbn [tasks]. intros Hk. destruct t.
  - eexists. by eapply step_refused.
  - eexists. by eapply step_fire.
  - destruct (begin_locked r id) as [r' due] eqn:E. eexists. by eapply step_begin.
  - eexists. by apply (step_fails r ts k id ns (fail 0 "")).
  - eexists. by eapply step_settle_failed.
  - eexists. by eapply step_settle_sent.
  - eexists. by eapply step_end.
  - eexists. by eapply step_free.
  - eexists. by eapply step_followed.
Qed.

Lemma run_sound n s s' : sound s → run n s s' → sound s'.
Proof.
  intros Hs. induction 1 as [s|n s s' s'' _ IH H|n s s' s'' _ IH H]; [done|..];
    (eapply step_sound; [by apply IH|exact H]).
Qed.

Lemma run_work_left n s s' : run n s s' → (n + left_to_do (tasks s') <= left_to_do (tasks s))%nat.
Proof.
  induction 1 as [s|n s s' s'' _ IH H|n s s' s'' _ IH H]; [lia| |].
  - assert (tasks s'' = tasks s') as Ht by by inversion H. by rewrite Ht.
  - apply work_is_done in H. lia.
Qed.

Lemma run_app n m s s' s'' : run n s s' → run m s' s'' → run (m + n) s s''.
Proof.
  intros H1. induction 1 as [s'|m s' s'' s3 _ IH H|m s' s'' s3 _ IH H]; [done|..].
  - eapply run_elsewhere; [by apply IH|exact H].
  - eapply run_work; [by apply IH|exact H].
Qed.

(** Every state runs to one with no goroutine. *)
Lemma run_drains m s : (left_to_do (tasks s) <= m)%nat → ∃ n s', run n s s' ∧ tasks s' = ∅.
Proof.
  revert s. induction m as [|m IH]; intros s Hm.
  - exists 0%nat, s. split; [constructor|]. apply map_empty. intros k. destruct (tasks s !! k) as [t|] eqn:E; [|done].
    destruct (work_goes_on _ _ _ E) as [s' H%work_is_done]. lia.
  - destruct (decide (tasks s = ∅)) as [He|Hn]; [exists 0%nat, s; split; [constructor|done]|].
    apply map_choose in Hn as (k & t & Hk). destruct (work_goes_on _ _ _ Hk) as [s' Hs'].
    pose proof (work_is_done _ _ Hs'). destruct (IH s') as (n & s'' & H1 & H2); [lia|].
    exists (n + 1)%nat, s''. split; [|done]. eapply run_app; [|exact H1]. eapply run_work; [constructor|done].
Qed.

Lemma no_tasks r : sound (mkSystem r ∅) → inflight r = ∅ ∧ held r = 0.
Proof.
  intros [[H1 _] H2 _ _]. cbn [rel tasks] in *. split; [|by rewrite H2].
  apply set_eq. intros x. rewrite H1, elem_of_empty. split; [|done].
  intros (k & t & Hk & _). by rewrite lookup_empty in Hk.
Qed.

(** ** The functions as runs *)

Lemma same_slots_core r r' : core r' = core r → same_slots r r'.
Proof. intros ((? & _ & ?) & (? & ? & ?) & _)%core_inv. by repeat split. Qed.

Lemma same_slots_refl r : same_slots r r.
Proof. by repeat split. Qed.

Lemma same_slots_trans r1 r2 r3 : same_slots r1 r2 → same_slots r2 r3 → same_slots r1 r3.
Proof. intros (? & ? & ? & ? & ?) (? & ? & ? & ? & ?). repeat split; congruence. Qed.

Lemma steps_elsewhere r r' ts : same_slots r r' → steps (mkSystem r ts) (mkSystem r' ts).
Proof. intros H. apply rtc_once. exists Elsewhere. by constructor. Qed.

Lemma steps_work s s' s'' : step Work s s' → steps s' s'' → steps s s''.
Proof. intros H. apply rtc_l. by exists Work. Qed.

Lemma local_slots r c now q : same_slots r (local ledgerAt r c now q).1.
Proof. apply same_slots_core. by apply (reread_frame _ _ (local_reread ledgerAt r c now q)). Qed.

Lemma guard_slots r now q : same_slots r (guard_request sha256 r now q).1.
Proof.
  unfold guard_request. destruct (guard.open _ _); [apply same_slots_refl|].
  destruct (guard.cooling _ _ _) as [c []]; by repeat split.
Qed.

Lemma relay_slots r env now q r' a : relay_ sha256 r env now q = Some (r', a) → same_slots r r'.
Proof. intros H%relay_core. by apply same_slots_core. Qed.

(** The three ways of a submission: refused before its claim, held, or relayed. *)
Inductive submission (r : Relayer) (env : Env) (now : Z) (q : request.Request) : Relayer → answered Accepted → Prop :=
| submission_refused r' f : same_slots r r' → submission r env now q r' (inl f)
| submission_held r1 r2 r' b : same_slots r r1 → claim r1 (keys.Nullifiers (request.Proof q)) = (r2, true) →
    hold r2 (heldID env) q = (r', b) →
    submission r env now q r' (match b with inl f => inl f | inr id => inr (AcceptedHeld id) end)
| submission_relayed r1 r2 r3 r' b : same_slots r r1 →
    claim r1 (keys.Nullifiers (request.Proof q)) = (r2, true) → relay_ sha256 r2 env now q = Some (r3, b) →
    same_slots (match b with inl _ => unclaim r3 (keys.Nullifiers (request.Proof q)) | inr _ => r3 end) r' →
    submission r env now q r' (match b with inl f => inl f | inr (h, rec, slot) => inr (AcceptedSent h rec slot) end).

Lemma Submit_submission r env now q r' a : Submit sha256 ledgerAt r env now q = Some (r', a) →
  submission r env now q r' a.
Proof.
  unfold Submit. destruct (check _ _ _ _) as [f|].
  { intros [= <- <-]. apply submission_refused, same_slots_refl. }
  destruct (guard.recall _ _ _) as [f|]. { intros [= <- <-]. apply submission_refused, same_slots_refl. }
  destruct (guard.recall _ _ _) as [f|]. { intros [= <- <-]. apply submission_refused, same_slots_refl. }
  pose proof (local_slots r (client env) now q) as Hl.
  destruct (local ledgerAt r (client env) now q) as [r1 [f|]]; cbn [fst] in Hl.
  { intros [= <- <-]. apply submission_refused. by destruct (guard.settled f). }
  destruct (guard.spent_any _ _). { intros [= <- <-]. by apply submission_refused. }
  pose proof (guard_slots r1 now q) as Hg. destruct (guard_request sha256 r1 now q) as [r2 [f|]]; cbn [fst] in Hg.
  { intros [= <- <-]. apply submission_refused. by eapply same_slots_trans. }
  pose proof (same_slots_trans _ _ _ Hl Hg) as H2. destruct (claim r2 _) as [r3 []] eqn:Ec; cbn [negb].
  2: { intros [= <- <-]. apply submission_refused. unfold claim in Ec. destruct (_ || _); by simplify_eq. }
  destruct (match request.NotBefore q with Some _ => _ | None => false end).
  - destruct (hold r3 (heldID env) q) as [r4 b] eqn:Eh. intros [= <- <-]. by eapply submission_held.
  - destruct (relay_ sha256 r3 env now q) as [[r4 b]|] eqn:Er; cbn [mbind option_bind]; [|done]. intros H.
    destruct b as [f|[[h rec] slot]]; injection H as <- <-.
    + apply (submission_relayed r env now q r2 r3 r4 _ (inl f)); [done..|]. by destruct (_ || _).
    + by apply (submission_relayed r env now q r2 r3 r4 _ (inr (h, rec, slot))).
Qed.

Lemma claim_run r r1 r2 ts k ns : same_slots r r1 → claim r1 ns = (r2, true) → ts !! k = None →
  steps (mkSystem r ts) (mkSystem r2 (<[k := Claimed ns]> ts)).
Proof.
  intros H1 H2 Hk. eapply rtc_trans; [by apply steps_elsewhere|]. apply rtc_once. exists Begin.
  by constructor.
Qed.

(** A claimed request that is relayed at once. *)
Lemma relay_run r env now q r' a ts k : relay_ sha256 r env now q = Some (r', a) →
  ts !! k = Some (Claimed (keys.Nullifiers (request.Proof q))) →
  steps (mkSystem r ts)
    (mkSystem (match a with inl _ => unclaim r' (keys.Nullifiers (request.Proof q)) | inr _ => r' end)
      (match a with inl _ => delete k ts
       | inr (h, _, _) => <[k := Following h (keys.Nullifiers (request.Proof q))]> ts end)).
Proof.
  intros H Hk. eapply rtc_trans; [apply steps_elsewhere; by eapply relay_slots|].
  destruct a as [f|[[h rec] slot]]; (eapply steps_work; [|apply rtc_refl]);
    [by eapply step_refused|by apply step_sent].
Qed.

(** What the goroutines are after a submission that the goroutine [k] runs. *)
Definition after_submit (ts : gmap nat task) (k : nat) (ns : notes) (a : answered Accepted) : gmap nat task :=
  match a with
  | inl _ => ts
  | inr (AcceptedHeld id) => <[k := Waiting id ns]> ts
  | inr (AcceptedSent h _ _) => <[k := Following h ns]> ts
  end.

Lemma submission_run r env now q r' a ts k : submission r env now q r' a → ts !! k = None →
  heldBy r !! heldID env = None → (∀ j t, ts !! j = Some t → held_id t ≠ Some (heldID env)) →
  steps (mkSystem r ts) (mkSystem r' (after_submit ts k (keys.Nullifiers (request.Proof q)) a)).
Proof.
  intros H Hk Hid Hf. destruct H as [r' f H|r1 r2 r' b H1 H2 H3|r1 r2 r3 r' b H1 H2 H3 H4]; cbn [after_submit].
  - by apply steps_elsewhere.
  - pose proof (claim_run _ _ _ _ k _ H1 H2 Hk) as Hc. eapply rtc_trans; [exact Hc|].
    assert (heldBy r2 !! heldID env = None) as Hid2.
    { apply claim_true in H2 as (_ & _ & ->). destruct H1 as (_ & _ & _ & Hb & _). cbn. by rewrite Hb. }
    destruct b as [f|id]; (eapply steps_work; [|apply rtc_refl]).
    + eapply step_hold_full in H3; [|apply lookup_insert_eq]. rewrite delete_insert_id in H3 by done. exact H3.
    + pose proof (hold_inr _ _ _ _ _ H3 Hid2) as (-> & _).
      assert (∀ j t, <[k := Claimed (keys.Nullifiers (request.Proof q))]> ts !! j = Some t →
        held_id t ≠ Some (heldID env)) as Hf2
        by (intros j t [[<- <-]|[_ Hj]]%lookup_insert_Some; [done|by apply (Hf j)]).
      pose proof (step_hold r2 r' _ k _ q (lookup_insert_eq ts k _) Hid2 Hf2 H3) as Hw.
      rewrite insert_insert_eq in Hw. exact Hw.
  - pose proof (claim_run _ _ _ _ k _ H1 H2 Hk) as Hc. eapply rtc_trans; [exact Hc|].
    eapply rtc_trans; [eapply relay_run; [done|apply lookup_insert_eq]|].
    destruct b as [f|[[h rec] slot]]; cbn [after_submit].
    + rewrite delete_insert_id by done. by apply steps_elsewhere.
    + rewrite insert_insert_eq. by apply steps_elsewhere.
Qed.

Lemma send_due_slots r env now stopped q r' a : send_due r env now stopped q = Some (r', a) → same_slots r r'.
Proof.
  unfold send_due. destruct stopped; [intros [= <- _]; apply same_slots_refl|].
  destruct (minimumFee _ _ _); [intros [= <- _]; apply same_slots_refl|].
  pose proof (guard_slots r now q) as Hg. destruct (guard_request sha256 r now q) as [r1 [f|]]; cbn [fst] in Hg.
  - by intros [= <- _].
  - intros H%relay_slots. by eapply same_slots_trans.
Qed.

(** What the goroutines are after [sendHeld] of the goroutine [k], a new one [j] following what it
    sent. *)
Definition after_send (ts : gmap nat task) (k j : nat) (ns : notes) (sent : option (string * Rec * bool))
    : gmap nat task :=
  match sent with
  | None => delete k ts
  | Some (h, _, _) => <[j := Following h ns]> (delete k ts)
  end.

Lemma sending_run r id q a ts k j : let ns := keys.Nullifiers (request.Proof q) in
  ts !! k = Some (Sending id ns) → ts !! j = None →
  let '(r1, sent) :=
    match a with
    | inl f => (settleHeld (unclaim r ns) id "" (guard.code f) (guard.reason f), None)
    | inr (h, rec, slot) => (settleHeld r id h "" None, Some (h, rec, slot))
    end in
  steps (mkSystem r ts) (mkSystem (set_held (held r1 - 1) r1) (after_send ts k j ns sent)).
Proof.
  intros ns Hk Hj. assert (k ≠ j) by congruence. destruct a as [f|[[h rec] slot]]; cbn [after_send].
  - eapply steps_work; [by apply (step_fails _ _ k id ns f)|].
    eapply steps_work; [apply step_settle_failed, lookup_insert_eq|]. rewrite insert_insert_eq.
    eapply steps_work; [eapply step_end, lookup_insert_eq|]. rewrite delete_insert_eq. apply rtc_refl.
  - eapply steps_work; [by apply (step_sends _ _ k j id ns h)|].
    eapply steps_work; [apply (step_settle_sent _ _ k); rewrite lookup_insert_ne by done; apply lookup_insert_eq|].
    eapply steps_work; [apply (step_end _ _ k id), lookup_insert_eq|].
    rewrite delete_insert_eq, delete_insert_ne, delete_insert_eq by done. apply rtc_refl.
Qed.

Lemma sendHeld_run r env now stopped id q r' sent ts k j : sendHeld r env now stopped id q = Some (r', sent) →
  ts !! k = Some (Fired id (keys.Nullifiers (request.Proof q))) → ts !! j = None →
  steps (mkSystem r ts) (mkSystem r' (after_send ts k j (keys.Nullifiers (request.Proof q)) sent)).
Proof.
  unfold sendHeld. intros H Hk Hj. destruct (begin_locked r id) as [r1 due] eqn:Eb.
  eapply steps_work; [by eapply step_begin|]. destruct due.
  - injection H as <- <-. eapply steps_work; [eapply step_free, lookup_insert_eq|].
    rewrite delete_insert_eq. apply rtc_refl.
  - injection H as <- <-. apply rtc_refl.
  - destruct (send_due r1 env now stopped q) as [[r2 a]|] eqn:Es; cbn [mbind option_bind] in H; [|done].
    apply send_due_slots in Es. eapply rtc_trans; [by apply steps_elsewhere|].
    assert (k ≠ j) by congruence.
    pose proof (sending_run r2 id q a (<[k := Sending id (keys.Nullifiers (request.Proof q))]> ts) k j
      (lookup_insert_eq _ _ _) ltac:(by rewrite lookup_insert_ne)) as Hr.
    destruct a as [f|[[h rec] slot]]; injection H as <- <-; cbn [after_send] in *;
      by rewrite delete_insert_eq in Hr.
Qed.

Lemma CancelHeld_run r r' id ns ts k : sound (mkSystem r ts) → CancelHeld r id true = (r', true) →
  ts !! k = Some (Waiting id ns) → steps (mkSystem r ts) (mkSystem r' (delete k ts)).
Proof.
  unfold CancelHeld. intros Hs H Hk. destruct (cancel_locked r id true) as [[r1 ns']|] eqn:Ec; [|done].
  injection H as <-. destruct (sound_cancel _ _ _ _ _ _ _ Hs Hk Ec) as [_ ->].
  eapply steps_work; [by eapply step_cancel|]. eapply steps_work; [eapply step_free, lookup_insert_eq|].
  rewrite delete_insert_eq. apply rtc_refl.
Qed.

(** ** Theorems *)

(** C8: In every interleaving of submissions, timers, cancellations and followed transactions, a note
    in flight is answered for by exactly one goroutine, so no note is in two transactions at once; a
    submission is a duplicate exactly when a goroutine answers for one of its notes; the counter of held
    requests is exact, never negative and at most the limit; and a cancelled request has no goroutine
    that could still send it. *)
Theorem notes_have_one_owner (s : System) (Hs : reachable s) :
  (∀ k j t u, tasks s !! k = Some t → tasks s !! j = Some u → k ≠ j → owned t ## owned u) ∧
  (∀ ns, (claim (rel s) ns).2 = false ↔ ∃ k t, tasks s !! k = Some t ∧ (ns.1 ∈ owned t ∨ ns.2 ∈ owned t)) ∧
  (held (rel s) = holding (tasks s) ∧ 0 <= held (rel s) <= Z.max 0 (MaxHeld (cfg (rel s)))) ∧
  ∀ id x, heldBy (rel s) !! id = Some x → cancelled x = true →
    ∀ k t, tasks s !! k = Some t → held_id t ≠ Some id.
Proof.
  apply reachable_sound in Hs as [[H1 H2] H3 H4 [H5 H6]]. split; [done|]. split; [|split].
  - intros ns. unfold claim. destruct (_ || _) eqn:E; cbn [snd].
    + split; [intros _|done]. apply orb_true_iff in E. rewrite !bool_decide_eq_true, !H1 in E. naive_solver.
    + apply orb_false_iff in E. rewrite !bool_decide_eq_false, !H1 in E. split; [done|]. naive_solver.
  - split; [done|]. split; [|done]. rewrite H3. apply holding_nonneg.
  - intros id x Hx Hc k t Hk Hid. destruct (H6 k t id x Hk Hid Hx). congruence.
Qed.

(** C30: Nothing is held or in flight for ever: once no submission begins, every run has at most seven
    steps of work per goroutine left, a goroutine that is alive can always go on, and every state runs
    to one where no note is in flight and no request is held. *)
Theorem submissions_end (s : System) (Hs : reachable s) :
  (∀ n s', run n s s' → (n <= 7 * size (tasks s))%nat) ∧
  (∀ n s', run n s s' → tasks s' ≠ ∅ → ∃ s'', step Work s' s'') ∧
  ∃ n s', run n s s' ∧ tasks s' = ∅ ∧ inflight (rel s') = ∅ ∧ held (rel s') = 0.
Proof.
  apply reachable_sound in Hs. split; [|split].
  - intros n s' H%run_work_left. pose proof (left_bound (tasks s)). lia.
  - intros n s' _ (k & t & Hk)%map_choose. by eapply work_goes_on.
  - destruct (run_drains _ s (le_n _)) as (n & [r' ts'] & H1 & H2). exists n, (mkSystem r' ts').
    split; [done|]. split; [done|]. apply (run_sound n s) in H1; [|done]. cbn [tasks] in H2. subst ts'.
    by apply no_tasks.
Qed.

(** C29: The functions are runs of the system: a submission by a new goroutine, a held request that is
    sent when its timer has fired, and a cancellation before it fires each take the relayer they are
    given to the one they return in steps of the system, so what the interleavings keep they keep; a
    submission leaves a goroutine that waits or follows exactly when it is held or sent, a cancelled
    one none. *)
Theorem functions_are_runs (r r' : Relayer) (ts : gmap nat task) (env : Env) (now : Z) (q : request.Request)
    (k j : nat) (id : string) (Hs : sound (mkSystem r ts)) (Hj : ts !! j = None) :
  let ns := keys.Nullifiers (request.Proof q) in
  (∀ a, ts !! k = None → heldBy r !! heldID env = None →
     (∀ i t, ts !! i = Some t → held_id t ≠ Some (heldID env)) →
     Submit sha256 ledgerAt r env now q = Some (r', a) →
     steps (mkSystem r ts) (mkSystem r' (after_submit ts k ns a))) ∧
  (∀ stopped sent, ts !! k = Some (Fired id ns) → sendHeld r env now stopped id q = Some (r', sent) →
     steps (mkSystem r ts) (mkSystem r' (after_send ts k j ns sent))) ∧
  (∀ ns', ts !! k = Some (Waiting id ns') → CancelHeld r id true = (r', true) →
     steps (mkSystem r ts) (mkSystem r' (delete k ts))) ∧
  ∀ s', steps (mkSystem r ts) s' → sound s'.
Proof.
  intros ns. split; [|split; [|split]].
  - intros a Hk Hid Hf H%Submit_submission. by eapply submission_run.
  - intros stopped sent Hk H. by eapply sendHeld_run.
  - intros ns' Hk H. by eapply CancelHeld_run.
  - intros s' H. remember (mkSystem r ts) as s0 eqn:E0. clear E0. induction H as [s0|s0 s1 s2 [l Hl] _ IH]; [done|].
    by apply IH, (step_sound l s0).
Qed.

End held.

(** ** Witnesses *)

Lemma demo_reachable ns : reachable (mkSystem (claim demo_relayer ns).1 {[ 0%nat := Claimed ns ]}).
Proof.
  apply (reachable_step Begin (mkSystem demo_relayer ∅)); [by constructor|].
  by apply (step_claim demo_relayer _ ∅ 0 ns).
Qed.

Lemma one_owner_witness : (claim (claim demo_relayer (fr.SetUint64 8, fr.SetUint64 9)).1
  (fr.SetUint64 7, fr.SetUint64 8)).2 = false.
Proof.
  apply (notes_have_one_owner _ (demo_reachable (fr.SetUint64 8, fr.SetUint64 9))).
  exists 0%nat, (Claimed (fr.SetUint64 8, fr.SetUint64 9)). split; [reflexivity|]. right. cbn. set_solver.
Defined.

Lemma submissions_end_witness : ∃ n s',
  run n (mkSystem (claim demo_relayer (fr.SetUint64 8, fr.SetUint64 9)).1
           {[ 0%nat := Claimed (fr.SetUint64 8, fr.SetUint64 9) ]}) s' ∧ inflight (rel s') = ∅.
Proof.
  destruct (submissions_end _ (demo_reachable (fr.SetUint64 8, fr.SetUint64 9))) as (_ & _ & n & s' & H1 & _ & H2 & _).
  exists n, s'. split; [exact H1|exact H2].
Defined.

Lemma runs_witness : ∃ r' a, demo_submit (demo_env PrepareError) (demo_request (Some 100)) = Some (r', a) ∧
  steps (mkSystem demo_relayer ∅)
    (mkSystem r' (after_submit ∅ 0 (keys.Nullifiers (request.Proof (demo_request (Some 100)))) a)).
Proof.
  destruct (demo_submit (demo_env PrepareError) (demo_request (Some 100))) as [[r' a]|] eqn:E.
  - exists r', a. split; [reflexivity|].
    refine (proj1 (functions_are_runs (sdk := demo_sdk) (bn := groth16.toy) (λ l, l) (λ _ _ _, 9) demo_relayer r' ∅
      (demo_env PrepareError) 0 (demo_request (Some 100)) 0 1 "" _ eq_refl) a eq_refl _ _ E).
    + apply reachable_sound. by constructor.
    + reflexivity.
    + intros i t H. by rewrite lookup_empty in H.
  - pose proof (f_equal (λ o, match o with Some _ => true | None => false end) E) as H. vm_compute in H. discriminate H.
Defined.

End held.
