(* ===== verification/RelayOutcome.v ===== *)
(** What becomes of a relayed transaction: [finish], [classify] with the reads that tell the causes
    apart, [coolDown] and [queuedExit] of [services/internal/relayer/relayer.go].

    A result is what the engine tracked. The reads are given the network; a run of [finish] reads one
    clock. The writes to the database repeat the state kept in memory and the record returned. *)
From S2P Require Import Prelude.
From S2P Require Import Fr.
From S2P Require Import Xdr.
From S2P Require Import ScVal.
From S2P Require Import VaultState.
From S2P Require Import Events.
From S2P Require Import Keys.
From S2P Require Import Rpc.
From S2P Require Import Token.
From S2P Require Import Fee.
From S2P Require Import Guard.
From S2P Require Import Request.
From S2P Require Import Groth16.
From S2P Require Import RelayState.
From S2P Require Import Relay.
From S2P Require Import Held.

Module outcome.

Import scval relay submit held.

(** [submit.Outcome] *)
Inductive Outcome : Type := Success | Failed | Expired.

(** [xdr.InvokeHostFunctionResultCode], by the codes the relayer tells apart. *)
Inductive InvokeCode : Type := Trapped | ResourceLimitExceeded | EntryArchived | OtherInvoke.

(** [submit.ContractError] *)
Record ContractError : Type := mkContractError { Contract : string; ErrCode : Z }.

(** [submit.Result] *)
Record Result : Type := mkResult {
  Hash : string; ROutcome : Outcome; Ledger : Z; FeeCharged : Z; ResourceFeeCharged : Z; TxCode : string;
  TxEvents : list events.ContractEvent; Invoke : option InvokeCode; ContractErr : option ContractError;
  Diagnosed : bool; Conflict : bool }.

(** What [finish] completes a record with. *)
Record Finished : Type := mkFinished {
  FHash : string; FOutcome : string; FLedger : Z; FNetworkFee : Z; FResourceFee : Z; FExitID : option Z;
  FFinishedAt : Z }.

(** [cause] is why a relayed transaction failed on chain. *)
Inductive cause : Type :=
| causeRelayer | causeVault | causeSpent | causeReceive | causeRace | causeUnclear | causeConflict.

#[export] Instance cause_eq_dec : EqDecision cause.
Proof. solve_decision. Defined.

Definition vaultUnknownRoot : Z := 121.
Definition vaultNullifierSpent : Z := 123.
Definition vaultCannotReceive : Z := 144.
Definition firstVaultCode : Z := 100.

(** [sentNullifiers] *)
Definition sentNullifiers (rec : Rec) : list fr.Element :=
  omap (λ h, match fr.SetHex h with
             | Ok nf => if String.eqb h "" then None else Some nf
             | Fail _ => None
             end) [(RNullifiers rec).1; (RNullifiers rec).2].

Section outcome.
Context {sdk : StellarSDK} {bn : groth16.Bn254} (sha256 : list Z → list Z).
Context (ledgerAt : list guard.ledgerSample → Z → Z → Z).
(** The name of the code of a transaction that failed in its operation. *)
Context (txFailed : string).

(** [Relayer.changedSince] *)
Definition changedSince (r : Relayer) (c : rpc.Client) (address : string) (ledger : Z) : bool :=
  match AccountOf address with
  | Fail _ => false
  | Ok account =>
      if negb (bool_decide (first_char account = Some "G"%char)) then false
      else
        match keys.ReceiveKeys (Asset (cfg r)) account with
        | Fail _ => false
        | Ok ks =>
            match rpc.Entries c ks with
            | Fail _ => false
            | Ok (entries, _) => existsb (λ e, ledger <? rpc.LastModified e.2) (map_to_list entries)
            end
        end
  end.

(** [Relayer.resourceCause] *)
Definition resourceCause (r : Relayer) (c : rpc.Client) (sent : Rec) : cause :=
  if RSimulatedAt sent =? 0 then causeRelayer
  else if negb (String.eqb (RDestination sent) "") && changedSince r c (RDestination sent) (RSimulatedAt sent) then
    causeReceive
  else if changedSince r c (FeeAddress (cfg r)) (RSimulatedAt sent) then causeRace
  else causeRelayer.

(** [Relayer.vaultCanPay] *)
Definition vaultCanPay (r : Relayer) (c : rpc.Client) : res bool :=
  match inst r with
  | None => Fail (Sentinel "relayer: no vault state")
  | Some i =>
      key ← keys.BalanceKey (vault.Token (IConfig i)) (Vault (cfg r));
      match rpc.One c key with
      | Fail e => if errors_is "rpc: ledger entry missing" e then Ok false else Fail e
      | Ok (e, _) => v ← rpc.ContractValue e; '(_, authorized) ← token.DecodeBalance v; mret authorized
      end
  end.

(** The end of [classify], from its contract error on. *)
Definition contract_cause (r : Relayer) (c : rpc.Client) (res : Result) (sent : Rec) : cause :=
  match ContractErr res with
  | None =>
      if Conflict res then causeConflict
      else
        let spent_first :=
          match sentNullifiers sent with
          | [a; b] => match spent r c (a, b) with Ok true => true | _ => false end
          | _ => false
          end in
        if spent_first then causeSpent
        else if negb (Diagnosed res) then causeUnclear
        else causeVault
  | Some e =>
      let own := String.eqb (Contract e) (Vault (cfg r)) in
      if own && (ErrCode e =? vaultNullifierSpent) then causeSpent
      else if own && (ErrCode e =? vaultUnknownRoot) then causeRace
      else if own && (ErrCode e =? vaultCannotReceive) then
        match CanReceive r c (FeeAddress (cfg r)) 0 with Ok false => causeRelayer | _ => causeReceive end
      else if (ErrCode e <? firstVaultCode) && negb (String.eqb (RDestination sent) "") then
        match vaultCanPay r c with Ok false => causeRelayer | _ => causeReceive end
      else causeVault
  end.

(** [Relayer.classify] *)
Definition classify (r : Relayer) (c : rpc.Client) (res : Result) (sent : Rec) : cause :=
  if negb (String.eqb (TxCode res) txFailed) then causeRelayer
  else
    match Invoke res with
    | None | Some Trapped => contract_cause r c res sent
    | Some ResourceLimitExceeded => resourceCause r c sent
    | Some EntryArchived => if contractAddress (RDestination sent) then causeReceive else causeRelayer
    | Some OtherInvoke => causeRelayer
    end.

(** The keys [coolDown] rests until the cooldown's end. *)
Definition rest_keys (rec : Rec) (c : cause) : list string :=
  (if String.eqb (RRequest rec) "" then [] else [RRequest rec]) ++
  (if bool_decide (c ≠ causeRelayer) && bool_decide (c ≠ causeRace)
   then map guard.nullifierKey
          (filter (λ nf, Is_true (negb (String.eqb nf ""))) [(RNullifiers rec).1; (RNullifiers rec).2])
   else []).

(** [Relayer.coolDown], in memory. *)
Definition coolDown (r : Relayer) (now : Z) (rec : Rec) (c : cause) : Relayer :=
  if bool_decide (c = causeConflict) then r
  else
    let until := (now + Cooldown (cfg r)) / fee.second in
    let ks := rest_keys rec c in
    let r := match ks with [] => r | _ => set_cool (guard.add (cool r) ks until) r end in
    if (bool_decide (c ≠ causeReceive) && bool_decide (c ≠ causeUnclear)) || String.eqb (RDestination rec) "" then r
    else set_cool (guard.strike (cool r) (guard.destinationKey (RDestination rec)) (unix now)).1 r.

(** [Relayer.queuedExit] *)
Fixpoint queuedExit (r : Relayer) (evs : list events.ContractEvent) : option Z :=
  match evs with
  | [] => None
  | e :: evs =>
      match events.RawFromXDR e with
      | Ok raw =>
          if String.eqb (events.Contract raw) (Vault (cfg r)) then
            match events.Decode raw with
            | Ok ev => match events.EBody ev with events.BExitQueued x => Some (events.EQ_ID x) | _ => queuedExit r evs end
            | Fail _ => queuedExit r evs
            end
          else queuedExit r evs
      | Fail _ => queuedExit r evs
      end
  end.

(** Whether a cause is one that puts relaying in its guarded mode. *)
Definition race_like (c : cause) : bool :=
  match c with
  | causeSpent | causeReceive | causeRace | causeUnclear | causeConflict => true
  | causeRelayer | causeVault => false
  end.

(** [Relayer.finish]; [None] is a panic of the pricing. *)
Definition finish (r : Relayer) (c : rpc.Client) (now : Z) (res : Result) (sent : Rec)
    : option (Relayer * Finished) :=
  let rec := mkFinished (Hash res) "" (Ledger res) (FeeCharged res) (ResourceFeeCharged res) None (unix now) in
  match ROutcome res with
  | Success =>
      let exit := queuedExit r (TxEvents res) in
      let r := setStatus r (Hash res) (mkStatus "success" "" exit) in
      let r := set_costs (fee.Add (costs r) (RExpected sent)) r in
      r ← chargedAbove r now (Hash res) (Ledger res) (FeeCharged res) (RFee sent);
      let r := set_results (guard.outcomes_add (results r) true) r in
      Some (set_known (guard.spent_add (known r) (sentNullifiers sent)) r,
            mkFinished (Hash res) outcomeSuccess (Ledger res) (FeeCharged res) (ResourceFeeCharged res) exit (unix now))
  | Failed =>
      let r := set_results (guard.outcomes_add (results r) false) r in
      let why := classify r c res sent in
      let code := if bool_decide (why = causeConflict) then CodeUnavailable else CodeRejected in
      let r := setStatus r (Hash res) (mkStatus "failed" code None) in
      let r := coolDown r now sent why in
      let r :=
        if race_like why then
          let r := if bool_decide (why = causeSpent)
                   then set_known (guard.spent_add (known r) (sentNullifiers sent)) r else r in
          set_races (guard.failed (races r) now).1 r
        else set_brk (guard.failed (brk r) now).1 r in
      Some (r, mkFinished (Hash res) outcomeFailed (Ledger res) (FeeCharged res) (ResourceFeeCharged res) None (unix now))
  | Expired =>
      Some (setStatus r (Hash res) (mkStatus "failed" CodeUnavailable None),
            mkFinished (Hash res) outcomeExpired (Ledger res) (FeeCharged res) (ResourceFeeCharged res) None (unix now))
  end.

(** * Lemmas *)

Lemma coolDown_frame r now rec c : (brk (coolDown r now rec c) = brk r ∧ races (coolDown r now rec c) = races r) ∧
  results (coolDown r now rec c) = results r ∧ statuses (coolDown r now rec c) = statuses r ∧
  known (coolDown r now rec c) = known r ∧ cfg (coolDown r now rec c) = cfg r ∧
  inflight (coolDown r now rec c) = inflight r.
Proof.
  unfold coolDown. destruct (bool_decide _); [done|].
  destruct (rest_keys rec c); destruct (_ || _); done.
Qed.

(** When a failed relay's cooldown ends, in Unix seconds. *)
Definition rest_end (r : Relayer) (now : Z) : Z := (now + Cooldown (cfg r)) / fee.second.

Lemma coolDown_cool r now rec c : c ≠ causeConflict →
  let c1 := guard.add (cool r) (rest_keys rec c) (rest_end r now) in
  cool (coolDown r now rec c) =
    (if (bool_decide (c ≠ causeReceive) && bool_decide (c ≠ causeUnclear)) || String.eqb (RDestination rec) ""
     then c1 else (guard.strike c1 (guard.destinationKey (RDestination rec)) (unix now)).1).
Proof.
  intros Hc c1. unfold coolDown. rewrite bool_decide_eq_false_2 by done. fold (rest_end r now).
  assert (cool (match rest_keys rec c with [] => r | _ => set_cool c1 r end) = c1) as H.
  { unfold c1. destruct (rest_keys rec c); [|done]. by destruct (cool r). }
  cbv zeta. fold c1. destruct (_ || _); [done|]. cbn [cool set_cool]. by rewrite H.
Qed.

(** A key rested by [coolDown] rests whether or not the destination is struck. *)
Lemma coolDown_keeps r now rec c k u : c ≠ causeConflict →
  guard.rested (guard.add (cool r) (rest_keys rec c) (rest_end r now)) k u →
  guard.rested (cool (coolDown r now rec c)) k u.
Proof.
  intros Hc H. rewrite coolDown_cool by done. cbv zeta. destruct (_ || _); [done|].
  match goal with |- context [guard.strike ?C ?K ?N] => pose proof (guard.strike_rested C K N) as Hs;
    destruct (guard.strike C K N) as [c' [v n]] end.
  by apply Hs.
Qed.

(** What rests: the request after any cause but a conflict; its notes too, unless the relayer was at
    fault or the chain moved; and after a receive failure or one that cannot be told the destination. *)
Lemma coolDown_rests r now rec c : c ≠ causeConflict →
  (RRequest rec ≠ "" → guard.rested (cool (coolDown r now rec c)) (RRequest rec) (rest_end r now)) ∧
  (c ≠ causeRelayer → c ≠ causeRace → ∀ nf, nf ≠ "" → nf ∈ [(RNullifiers rec).1; (RNullifiers rec).2] →
     guard.rested (cool (coolDown r now rec c)) (guard.nullifierKey nf) (rest_end r now)) ∧
  (c = causeReceive ∨ c = causeUnclear → RDestination rec ≠ "" → ∃ u n,
     guard.rested (cool (coolDown r now rec c)) (guard.destinationKey (RDestination rec)) u ∧
     i64 (unix now + guard.destinationRest n / fee.second) <= u).
Proof.
  intros Hc. destruct (guard.add_rested (cool r) (rest_keys rec c) (rest_end r now)) as [_ Hadd].
  split; [|split].
  - intros Hq. apply coolDown_keeps, Hadd; [done|]. unfold rest_keys.
    apply String.eqb_neq in Hq as ->. apply elem_of_app. left. by left.
  - intros H1 H2 nf Hnf Hin. apply coolDown_keeps, Hadd; [done|]. unfold rest_keys.
    rewrite !bool_decide_eq_true_2 by done. apply elem_of_app. right. cbn [andb].
    apply list_elem_of_fmap. exists nf. split; [done|]. apply list_elem_of_filter. split; [|done].
    by apply String.eqb_neq in Hnf as ->.
  - intros H1 Hd. rewrite coolDown_cool by done. cbv zeta. apply String.eqb_neq in Hd as ->.
    assert (bool_decide (c ≠ causeReceive) && bool_decide (c ≠ causeUnclear) = false) as ->.
    { apply andb_false_iff. rewrite !bool_decide_eq_false. destruct H1 as [->| ->]; [left|right]; intros H; by apply H. }
    cbn [orb]. match goal with |- context [guard.strike ?C ?K ?N] => pose proof (guard.strike_rested C K N) as Hs;
      destruct (guard.strike C K N) as [c' [v n]] end.
    destruct Hs as (H & _ & Hv). by exists v, n.
Qed.

(** Only the reads of a call that failed in its operation ask the network. *)
Lemma classify_client r c res sent : ROutcome res = Failed → TxCode res = txFailed → Invoke res = None ∨ Invoke res = Some Trapped →
  classify r c res sent = contract_cause r c res sent.
Proof. intros _ Hc Hi. unfold classify. rewrite Hc, String.eqb_refl. by destruct Hi as [->| ->]. Qed.

Lemma guard_refuses r now q key u : guard.rested (cool r) key u → key ∈ guard_keys sha256 q → unix now < u →
  0 <= u → unix now < 2 ^ 62 → is_Some (guard_request sha256 r now q).2.
Proof.
  intros Hr Hk Hn H0 Hb. unfold guard_request. destruct (guard.open _ _); [done|].
  pose proof (guard.cooling_hits (unix now) (guard_keys sha256 q) (cool r) false key u Hr Hn H0 Hb Hk) as Hh.
  unfold guard.cooling. destruct (foldl _ _ _) as [c hit]. cbn [snd] in Hh. subst hit. done.
Qed.

(** A request whose key rests is neither held nor sent. *)
Lemma rested_refused r env now q r' a key u : guard.rested (cool r) key u → key ∈ guard_keys sha256 q →
  unix now < u → 0 <= u → unix now < 2 ^ 62 → Submit sha256 ledgerAt r env now q = Some (r', a) → ∃ f, a = inl f.
Proof.
  intros Hr Hk Hn H0 Hb. unfold Submit. destruct (check _ _ _ _) as [f|]; [intros [= <- <-]; by exists f|].
  destruct (guard.recall _ _ _) as [f|]; [intros [= <- <-]; by exists f|].
  destruct (guard.recall _ _ _) as [f|]; [intros [= <- <-]; by exists f|].
  pose proof (reread_frame _ _ (local_reread ledgerAt r (client env) now q)) as ((_ & _ & (_ & Hc & _) & _)%core_inv & _).
  destruct (local _ _ _ _ _) as [r1 [f|]]; cbn [fst] in Hc; [intros [= <- <-]; by exists f|].
  destruct (guard.spent_any _ _); [intros [= <- <-]; by eexists|].
  rewrite <- Hc in Hr. pose proof (guard_refuses r1 now q key u Hr Hk Hn H0 Hb) as [f Hf].
  destruct (guard_request sha256 r1 now q) as [r2 o]. cbn [snd] in Hf. subst o. intros [= <- <-]. by exists f.
Qed.

(** What [finish] does with a failed relay. *)
Lemma finish_failed r c now res sent r' fin : ROutcome res = Failed → finish r c now res sent = Some (r', fin) →
  let why := classify r c res sent in
  cool r' = cool (coolDown r now sent why) ∧ results r' = guard.outcomes_add (results r) false ∧
  inflight r' = inflight r ∧ FOutcome fin = outcomeFailed ∧
  if race_like why then races r' = (guard.failed (races r) now).1 ∧ brk r' = brk r
  else brk r' = (guard.failed (brk r) now).1 ∧ races r' = races r.
Proof.
  intros Ho H why. unfold finish in H. rewrite Ho in H. cbv zeta in H.
  set (r1 := set_results (guard.outcomes_add (results r) false) r) in *.
  change (classify r1 c res sent) with why in H.
  set (st := mkStatus _ _ _) in H. pose proof (setStatus_quiet r1 (Hash res) st) as Hq%quiet_core.
  set (r2 := setStatus r1 (Hash res) st) in *.
  assert (cool (coolDown r2 now sent why) = cool (coolDown r now sent why)) as Hcool.
  { apply core_inv in Hq as ((Hcfg & _) & _ & (_ & Hc & _) & _). unfold coolDown. rewrite Hcfg.
    destruct (bool_decide _); [exact Hc|].
    destruct (rest_keys sent why); cbn [cool set_cool]; destruct (_ || _); cbn [cool set_cool]; by rewrite ?Hc. }
  destruct (coolDown_frame r2 now sent why) as ((F1 & F2) & F3 & _ & _ & _ & F4).
  assert (results r2 = guard.outcomes_add (results r) false) as Hr2 by (unfold core in Hq; by simplify_eq).
  apply core_inv in Hq as ((_ & _ & Hi) & _ & (_ & _ & Hb & Hra) & _).
  change (inflight r2 = inflight r) in Hi. change (brk r2 = brk r) in Hb. change (races r2 = races r) in Hra.
  set (r3 := coolDown r2 now sent why) in *. clearbody r3 r2.
  injection H as <- <-. destruct (race_like why); [destruct (bool_decide (why = causeSpent))|]; cbn;
    repeat split; congruence.
Qed.

(** C15: A relay that failed on chain is not repeated: after any failure but a conflict on the exit
    queue, that is one a new simulation would see, the request is refused until the cooldown ends, as
    is any other that spends one of its notes unless the relayer was at fault or the chain moved under
    the call, whatever the network answers and whatever else is rested, struck or looked up meanwhile;
    a conflict rests nothing. *)
Theorem failed_relays_rest (r : Relayer) (c : rpc.Client) (now : Z) (res : Result) (sent : Rec) (r' : Relayer)
    (fin : Finished) (ops : list guard.cool_op)
    (Ho : ROutcome res = Failed) (Hf : finish r c now res sent = Some (r', fin))
    (H0 : 0 <= rest_end r now < 2 ^ 62)
    (Hops : ∀ t ks, guard.OpCooling t ks ∈ ops → t < rest_end r now + guard.strikeMemory ∧ t < 2 ^ 62) :
  let why := classify r c res sent in
  (why = causeConflict → cool r' = cool r) ∧
  ∀ r2 env now2 q r3 a, cool r2 = foldl guard.cool_step (cool r') ops → unix now2 < rest_end r now →
    why ≠ causeConflict →
    (RRequest sent = request.requestKey sha256 q ∨
     why ≠ causeRelayer ∧ why ≠ causeRace ∧ ∃ nf, nf ≠ "" ∧ nf ∈ [(RNullifiers sent).1; (RNullifiers sent).2] ∧
       nf ∈ [fr.Hex (keys.Nullifiers (request.Proof q)).1; fr.Hex (keys.Nullifiers (request.Proof q)).2]) →
    Submit sha256 ledgerAt r2 env now2 q = Some (r3, a) → ∃ f, a = inl f.
Proof.
  intros why. apply finish_failed in Hf as (Hc & _); [|done]. fold why in Hc. split.
  - intros Hw. rewrite Hc. unfold coolDown. by rewrite bool_decide_eq_true_2.
  - intros r2 env now2 q r3 a Hr2 Hn Hw Hk.
    assert (∃ key, guard.rested (cool r') key (rest_end r now) ∧ key ∈ guard_keys sha256 q) as (key & Hr & Hin).
    { destruct (coolDown_rests r now sent why Hw) as (R1 & R2 & _). rewrite Hc. unfold guard_keys.
      destruct Hk as [Hq|(N1 & N2 & nf & Hnf & I1 & I2)].
      - exists (RRequest sent). split; [apply R1; rewrite Hq; discriminate|]. rewrite Hq.
        apply elem_of_app. left. by do 2 right; left.
      - exists (guard.nullifierKey nf). split; [by apply R2|]. apply elem_of_app. left.
        apply elem_of_cons in I2 as [->|[->|[]%elem_of_nil]%elem_of_cons]; [left|right; left]. }
    assert (guard.rested (cool r2) key (rest_end r now)) as Hr'.
    { rewrite Hr2. clear Hr2 Hc. revert Hr. generalize (cool r'). induction ops as [|op ops IH]; intros cl Hr; [done|].
      cbn [foldl]. apply IH; [intros t ks Ht; apply (Hops t ks); by right|].
      apply guard.cool_step_rested; [done|lia|]. intros t ks ->. apply (Hops t ks). by left. }
    apply (rested_refused r2 env now2 q r3 a key (rest_end r now)); [done..|lia|lia].
Qed.

(** Only the relayer's own failures pause relaying, and each outcome is counted once: a success
    and an expiry count toward no breaker; a failure counts once among the outcomes a quote carries,
    and toward exactly one of the guarded mode and the pause; whatever the reads of the network answer,
    notes spent first, a root that left the vault's history and a conflict never count toward the
    pause, and a transaction that failed before its call always does. With a valid pricing every
    outcome is recorded. *)
Theorem outcomes_are_counted_once (r : Relayer) (c : rpc.Client) (now : Z) (res : Result) (sent : Rec) :
  (fee.Validate (Pricing (cfg r)) = Ok tt → 0 <= FeeCharged res → is_Some (finish r c now res sent)) ∧
  ∀ r' fin, finish r c now res sent = Some (r', fin) →
    inflight r' = inflight r ∧
    match ROutcome res with
    | Success => results r' = guard.outcomes_add (results r) true ∧ brk r' = brk r ∧ races r' = races r ∧ cool r' = cool r
    | Expired => results r' = results r ∧ brk r' = brk r ∧ races r' = races r ∧ cool r' = cool r
    | Failed =>
        results r' = guard.outcomes_add (results r) false ∧
        ((races r' = (guard.failed (races r) now).1 ∧ brk r' = brk r) ∨
         (brk r' = (guard.failed (brk r) now).1 ∧ races r' = races r)) ∧
        (TxCode res ≠ txFailed → brk r' = (guard.failed (brk r) now).1) ∧
        (TxCode res = txFailed → Invoke res = None ∨ Invoke res = Some Trapped →
         (∃ code, ContractErr res = Some (mkContractError (Vault (cfg r)) code) ∧ code ∈ [vaultNullifierSpent; vaultUnknownRoot]) ∨
         ContractErr res = None ∧ Conflict res = true → brk r' = brk r)
    end.
Proof.
  split.
  - intros Hp Hc. unfold finish. destruct (ROutcome res); [|done|done]. cbv zeta.
    match goal with |- context [chargedAbove ?R _ _ _ _ _] => destruct (chargedAbove R now (Hash res) (Ledger res)
      (FeeCharged res) (RFee sent)) as [r1|] eqn:E; [done|]; exfalso; revert E; set (R1 := R) end.
    assert (cfg R1 = cfg r) as Hcfg.
    { pose proof (quiet_core _ _ (setStatus_quiet r (Hash res) (mkStatus "success" "" (queuedExit r (TxEvents res)))))
        as ((H & _) & _)%core_inv. exact H. }
    unfold chargedAbove, loss. destruct (request.SetString (RFee sent)) as [paid|]; [|done].
    rewrite Hcfg. destruct (fee.ToAsset_spec _ _ Hp Hc) as (a & -> & _). cbn [mbind option_bind].
    by destruct (Z.sgn (a - paid) <=? 0).
  - intros r' fin Hf. destruct (ROutcome res) eqn:Ho.
    + unfold finish in Hf. rewrite Ho in Hf. cbv zeta in Hf.
      set (st := mkStatus _ _ _) in Hf. pose proof (setStatus_quiet r (Hash res) st) as Hq%quiet_core.
      set (r2 := setStatus r (Hash res) st) in *. clearbody r2.
      destruct (chargedAbove _ _ _ _ _ _) as [r3|] eqn:E; cbn [mbind option_bind] in Hf; [|done].
      injection Hf as <- <-. assert (core r3 = core (set_costs (fee.Add (costs r2) (RExpected sent)) r2)) as H3.
      { revert E. unfold chargedAbove. destruct (loss _ _ _) as [[o|]|]; cbn [mbind option_bind]; [|by intros [= <-]|done].
        by intros [= <-]. }
      unfold core in H3, Hq. cbn in H3 |- *. simplify_eq. repeat split; congruence.
    + pose proof (finish_failed r c now res sent r' fin Ho Hf) as (_ & Hr & Hi & _ & H).
      split; [done|]. split; [done|]. split; [|split].
      * destruct (race_like _); [left|right]; done.
      * intros Ht. unfold classify in H. apply String.eqb_neq in Ht as Ht'. rewrite Ht' in H. by apply H.
      * intros Ht Hv Hc. rewrite classify_client in H by done. unfold contract_cause in H.
        destruct Hc as [(code & Hce & Hin)|[Hce Hcf]]; rewrite Hce in H; cbn [Contract ErrCode] in H.
        -- rewrite String.eqb_refl in H.
           apply elem_of_cons in Hin as [->|[->|[]%elem_of_nil]%elem_of_cons]; by apply H.
        -- rewrite Hcf in H. by apply H.
    + unfold finish in Hf. rewrite Ho in Hf. cbv zeta in Hf. injection Hf as <- <-.
      set (st := mkStatus _ _ _). pose proof (setStatus_quiet r (Hash res) st) as Hq%quiet_core.
      set (r2 := setStatus r (Hash res) st) in *. clearbody r2. unfold core in Hq. by simplify_eq.
Qed.

End outcome.
(** ** Witnesses *)

(** The demo's payment failed since its notes were spent first. *)
Definition demo_result : Result :=
  mkResult "tx" Failed 12 70 60 "failed" [] None (Some (mkContractError (example.contract 7) vaultNullifierSpent)) true false.

Definition demo_sent : Rec := sent_record (λ l, l) (demo_request None) "tx" (example.account 6) 9 45.

Definition demo_finish : option (Relayer * Finished) :=
  finish (sdk := demo_sdk) "failed" demo_relayer demo_client fee.second demo_result demo_sent.

Lemma rest_witness : ∃ r' fin, demo_finish = Some (r', fin) ∧
  ∀ env r3 a, Submit (sdk := demo_sdk) (bn := groth16.toy) (λ l, l) (λ _ _ _, 9) r' env (2 * fee.second) (demo_request None)
    = Some (r3, a) → ∃ f, a = inl f.
Proof.
  destruct demo_finish as [[r' fin]|] eqn:E.
  - exists r', fin. split; [reflexivity|]. intros env r3 a. unfold demo_finish in E.
    destruct (failed_relays_rest (sdk := demo_sdk) (bn := groth16.toy) (λ l, l) (λ _ _ _, 9) "failed" demo_relayer
      demo_client fee.second demo_result demo_sent r' fin []) as [_ H].
    + reflexivity.
    + exact E.
    + vm_compute. split; [discriminate|reflexivity].
    + intros t ks H. by apply elem_of_nil in H.
    + apply (H r' env (2 * fee.second)); [reflexivity|vm_compute; reflexivity|vm_compute; discriminate|].
      left. reflexivity.
  - pose proof (f_equal (λ o, match o with Some _ => true | None => false end) E) as H. vm_compute in H. discriminate H.
Defined.

Lemma counted_witness : is_Some demo_finish.
Proof.
  apply (outcomes_are_counted_once (sdk := demo_sdk) "failed" demo_relayer demo_client fee.second demo_result demo_sent).
  - reflexivity.
  - vm_compute. discriminate.
Defined.

End outcome.
