(* ===== verification/Follow.v ===== *)
(** The follower of [services/internal/follow]: the reader of a contract's events from Stellar RPC, page by
    page (rpcsource.go), and the loop that moves a sink from its cursor to the chain's tip
    (follower.go).

    Stellar RPC is not under src/: a client is a record of its answers, each of which may depend on how
    many were given before, so that a node behind a balancer may change its mind. *)
From stdpp Require Import pretty.
From S2P Require Import Prelude.
From S2P Require Import Xdr.
From S2P Require Import ScVal.
From S2P Require Import Events.
From S2P Require Import Calls.

Module follow.

Import events.

Definition ErrRetention : gerr := Sentinel "follow: ledgers older than the source keeps".
Definition ErrStalled : gerr := Sentinel "follow: source stopped before the end of the range".
Definition ErrRange : gerr := Sentinel "follow: a ledger range that ends before it starts".
Definition ErrAhead : gerr := Sentinel "follow: ledger not closed yet on the node that answered".
Definition ErrFault : gerr := Sentinel "follow: ingest fault".

(** ** What the code takes from the RPC's protocol *)

(** [protocol.EventInfo]; [EventType] is only compared with the contract type. *)
Record EventInfo : Type := mkEventInfo {
  IsContract : bool; ILedger : Z; LedgerClosedAt : string; IContractID : string; ID : string;
  TransactionHash : string; TopicXDR : list string; ValueXDR : string }.

(** [protocol.GetEventsResponse] *)
Record Page : Type := mkPage { PEvents : list EventInfo; PCursor : string; POldestLedger : Z }.

(** [protocol.GetEventsRequest]: it starts at a ledger, up to an excluded one, or after a cursor. The
    filter, of the contract and the topics, and the limit are the same in every request. *)
Inductive Request : Type :=
| FromLedger (start end_ : Z)
| AfterCursor (c : Position).

(** [health], by the fields read. *)
Record Health : Type := mkHealth { OldestLedger : Z; LatestLedger : Z; LatestLedgerCloseTime : Z }.

(** A client's answers, by the number of calls before. *)
Record Client : Type := mkClient { GetEvents : nat → Request → res Page; GetHealth : nat → res Health }.

(** The protocol package: cursors read, compared and at their largest, a close time read, and the
    text of an error. *)
Class Protocol : Type := {
  ParseCursor : string → option Position;
  Cmp : Position → Position → Z;
  MaxCursor : Position;
  parse_time : string → option Z;
  Error : gerr → string }.

(** What its documentation says: a cursor is of unsigned integers, ordered by ledger, transaction,
    operation and event, and none of a ledger is past the largest one's place in it. *)
Class ProtocolLaws (P : Protocol) : Prop := {
  cursor_range : ∀ s c, ParseCursor s = Some c →
    is_u32 (PLedger c) ∧ 0 <= PTx c <= PTx MaxCursor ∧ 0 <= POp c <= POp MaxCursor ∧ 0 <= PIndex c <= PIndex MaxCursor;
  max_cursor : 0 <= PTx MaxCursor ∧ 0 <= POp MaxCursor ∧ 0 <= PIndex MaxCursor;
  cmp_order : ∀ a b, Cmp a b <= 0 ↔ Less b a = false }.

(** *** [nodeRange]: [startLedger must be within the ledger range: (\d+) - (\d+)] *)

Definition is_digit (c : Ascii.ascii) : bool := (48 <=? Ascii.nat_of_ascii c)%nat && (Ascii.nat_of_ascii c <=? 57)%nat.

(** The digits a string begins with, and the rest. *)
Fixpoint digits (s : string) : string * string :=
  match s with
  | String c s' => if is_digit c then let '(d, r) := digits s' in (String c d, r) else (EmptyString, s)
  | EmptyString => (EmptyString, EmptyString)
  end.

(** The string without a prefix. *)
Fixpoint after (p s : string) : option string :=
  match p, s with
  | EmptyString, _ => Some s
  | String c p, String d s => if Ascii.eqb c d then after p s else None
  | _, _ => None
  end.

(** A match at the start of the string: its second group. *)
Definition range_here (s : string) : option string :=
  s ← after "startLedger must be within the ledger range: " s;
  let '(d1, s) := digits s in
  s ← after " - " s;
  let '(d2, _) := digits s in
  if String.eqb d1 "" || String.eqb d2 "" then None else Some d2.

(** The leftmost match. *)
Fixpoint range_match (s : string) : option string :=
  match range_here s with
  | Some d => Some d
  | None => match s with EmptyString => None | String _ s => range_match s end
  end.

(** [strconv.ParseUint(s, 10, 32)] of digits. *)
Fixpoint decimal (acc : Z) (s : string) : Z :=
  match s with
  | EmptyString => acc
  | String c s => decimal (acc * 10 + (Z.of_nat (Ascii.nat_of_ascii c) - 48)) s
  end.

Section source.
Context {P : Protocol}.

(** [aheadOfNode] *)
Definition aheadOfNode (err : gerr) (from : Z) : bool :=
  match range_match (Error err) with
  | None => false
  | Some d => let latest := decimal 0 d in (latest <? W32) && (latest <? from)
  end.

(** [toRaw] *)
Definition toRaw (e : EventInfo) (c : Position) : res RawEvent :=
  if negb (IsContract e) then Fail (Wrapf scval.ErrMalformed "%w: %s event" [FOther])
  else
    match parse_time (LedgerClosedAt e) with
    | None => Fail (Wrapf (Sentinel "time: parse") "close time %q: %w" [FStr (LedgerClosedAt e)])
    | Some closed =>
        if negb (u32 (ILedger e) =? PLedger c) then Fail (Wrapf scval.ErrMalformed "%w: event id and ledger disagree" [])
        else Ok (mkRawEvent (PLedger c) closed (TransactionHash e) (PTx c) (POp c) (PIndex c)
                   (IContractID e) (TopicXDR e) (ValueXDR e))
    end.

(** The loop over a page's events: what it appends, and whether an event past the range ended the read. *)
Fixpoint take_page (contract : string) (to : Z) (es : list EventInfo) (out : list RawEvent)
    : res (list RawEvent * bool) :=
  match es with
  | [] => Ok (out, false)
  | e :: es =>
      match ParseCursor (ID e) with
      | None => Fail (Wrapf (Sentinel "cursor: parse") "event id %q: %w" [FStr (ID e)])
      | Some c =>
          if to <? PLedger c then Ok (out, true)
          else
            raw ← toRaw e c;
            _ ← fail_if (negb (String.eqb (Contract raw) contract))
                  (Wrapf scval.ErrMalformed "%w: event of contract %s" [FStr (Contract raw)]);
            take_page contract to es (out ++ [raw])
      end
  end.

(** The end of what the server scanned of the last ledger. *)
Definition at_end (to : Z) (c : Position) : bool :=
  (to <? PLedger c) ||
  ((PLedger c =? to) && (PTx c =? PTx MaxCursor) && (POp c =? POp MaxCursor) && (PIndex c =? PIndex MaxCursor)).

(** The error of a page the client did not give. *)
Definition page_error (c : Client) (n : nat) (from : Z) (err : gerr) : gerr :=
  if aheadOfNode err from then Wrapf ErrAhead "%w: ledger %d" [FInt from]
  else
    match GetHealth c n with
    | Ok h => if from <? OldestLedger h then Wrapf ErrRetention "%w: ledger %d, oldest %d" [FInt from; FInt (OldestLedger h)] else err
    | Fail _ => err
    end.

(** What one page leads to: an end, or the next request, whose cursor is the progress. *)
Inductive Turn : Type := Done (r : res (list RawEvent)) | More (out : list RawEvent) (c : Position).

(** One turn of the loop of [Events]. *)
Definition read_page (c : Client) (contract : string) (from to : Z) (n : nat) (req : Request)
    (out : list RawEvent) (progress : Position) : Turn :=
  match GetEvents c n req with
  | Fail err => Done (Fail (page_error c n from err))
  | Ok resp =>
      if from <? POldestLedger resp then
        Done (Fail (Wrapf ErrRetention "%w: ledger %d, oldest %d" [FInt from; FInt (POldestLedger resp)]))
      else
        match take_page contract to (PEvents resp) out with
        | Fail err => Done (Fail err)
        | Ok (out, true) => Done (Ok out)
        | Ok (out, false) =>
            match ParseCursor (PCursor resp) with
            | None => Done (Fail (Wrapf (Sentinel "cursor: parse") "cursor %q: %w" [FStr (PCursor resp)]))
            | Some cursor =>
                if at_end to cursor then Done (Ok out)
                else if Cmp cursor progress <=? 0 then
                  Done (Fail (Wrapf ErrStalled "%w: at ledger %d of %d" [FInt (PLedger cursor); FInt to]))
                else More out cursor
            end
        end
  end.

(** The loop of [Events], from the [n]th call, with fuel for its pages. *)
Fixpoint read_pages (fuel : nat) (c : Client) (contract : string) (from to : Z) (n : nat) (req : Request)
    (out : list RawEvent) (progress : Position) : option (res (list RawEvent)) :=
  match fuel with
  | O => None
  | S fuel =>
      match read_page c contract from to n req out progress with
      | Done r => Some r
      | More out cursor => read_pages fuel c contract from to (S n) (AfterCursor cursor) out cursor
      end
  end.

(** [RPCSource.Events] *)
Definition Events (fuel : nat) (c : Client) (contract : string) (from to : Z) : option (res (list RawEvent)) :=
  if to <? from then Some (Fail (Wrapf ErrRange "%w: ledgers %d to %d" [FInt from; FInt to]))
  else read_pages fuel c contract from to 0 (FromLedger from (u32 (to + 1))) [] (mkPosition from 0 0 0).

End source.

(** ** The follower *)

(** [Batch] *)
Record Batch : Type := mkBatch {
  From : Z; To : Z; BRaw : list RawEvent; Txs : list calls.Transaction; Latest : Z; LatestCloseTime : Z }.

(** A source's answer for a range. *)
Definition Source : Type := Z → Z → res (list RawEvent).

(** An error that is any of several: [errors.Join], or [fmt.Errorf] with two [%w]. *)
Definition joined_is (target : string) (errs : list gerr) : bool := existsb (errors_is target) errs.

(** [Follower], but the sink: the health and the sources as they answer one step. *)
Record Follower : Type := mkFollower { RPC : res Health; Live : Source; History : list Source; Window : Z }.

(** The loop over [History]: the first answer, or every error. *)
Fixpoint first_answer (hs : list Source) (from to : Z) : list gerr + list RawEvent :=
  match hs with
  | [] => inl []
  | h :: hs =>
      match h from to with
      | Ok raw => inr raw
      | Fail e => match first_answer hs from to with inl errs => inl (e :: errs) | inr raw => inr raw end
      end
  end.

(** [Follower.read] *)
Definition read (f : Follower) (from to oldest : Z) : list gerr + list RawEvent :=
  if oldest <=? from then match Live f from to with Ok raw => inr raw | Fail e => inl [e] end
  else if (length (History f) =? 0)%nat then
    inl [Wrapf ErrRetention "%w: ledger %d, RPC keeps from %d" [FInt from; FInt oldest]]
  else first_answer (History f) from to.

(** The last ledger of the next window: never past the latest, and handing over to RPC as soon as it
    covers the range. *)
Definition window_end (f : Follower) (h : Health) (next : Z) : Z :=
  let window := Z.max (Window f) 1 in
  let to := Z.min (u32 (u32 (next + window) - 1)) (LatestLedger h) in
  if next <? OldestLedger h then Z.min to (u32 (OldestLedger h - 1)) else to.

Section follower.
Context {sdk : StellarSDK}.

(** The loop over the raw events. *)
Fixpoint decode_all (raw : list RawEvent) : list gerr + list Event :=
  match raw with
  | [] => inr []
  | r :: raw =>
      match Valid r with
      | Some err => inl [ErrFault; err]
      | None =>
          match Decode r with
          | Fail err => inl [ErrFault; err]
          | Ok e => match decode_all raw with inl errs => inl errs | inr es => inr (e :: es) end
          end
      end
  end.

(** [Step] before the sink is asked to apply: an error, nothing new, or the batch. *)
Definition next_batch (f : Follower) (cursor : Z) : list gerr + option Batch :=
  match RPC f with
  | Fail err => inl [Wrapf err "rpc health: %w" []]
  | Ok h =>
      if LatestLedger h <? OldestLedger h then
        inl [Wrapf ErrRange "%w: the RPC keeps ledgers %d to %d" [FInt (OldestLedger h); FInt (LatestLedger h)]]
      else
        let next := u32 (cursor + 1) in
        if LatestLedger h <? next then inr None
        else
          let to := window_end f h next in
          match read f next to (OldestLedger h) with
          | inl errs => if joined_is "vault: malformed value" errs then inl (ErrFault :: errs) else inl errs
          | inr raw =>
              match decode_all raw with
              | inl errs => inl errs
              | inr events =>
                  match calls.ParseTxs events with
                  | Fail err => inl [ErrFault; err]
                  | Ok txs => inr (Some (mkBatch next to raw txs (LatestLedger h) (LatestLedgerCloseTime h)))
                  end
              end
          end
  end.

(** A sink: where it is, and what applying a batch makes of it. *)
Class Sink (S : Type) : Type := { Cursor : S → Z; Apply : Batch → ST S unit }.

(** [Step] *)
Definition Step {S : Type} `{!Sink S} (f : Follower) (s : S) : S * (list gerr + bool) :=
  match next_batch f (Cursor s) with
  | inl errs => (s, inl errs)
  | inr None => (s, inr false)
  | inr (Some b) =>
      match Apply b s with
      | (s, Ok _) => (s, inr true)
      | (s, Fail err) => (s, inl [err])
      end
  end.

End follower.

(** One turn of [Run], in milliseconds: what it sleeps, the next backoff, and whether [onError] hears. *)
Definition minute : Z := 60000.
Definition run_turn (poll backoff : Z) (outcome : list gerr + bool) : option Z * Z * bool :=
  match outcome with
  | inl errs =>
      if joined_is "follow: ledger not closed yet on the node that answered" errs then (Some poll, poll, false)
      else (Some backoff, Z.min (i64 (backoff * 2)) minute, true)
  | inr true => (None, poll, false)
  | inr false => (Some poll, poll, false)
  end.

(** * Specification *)

Definition before (a b : RawEvent) : Prop := Less (Pos a) (Pos b) = true.

(** Not past a position. *)
Definition upto (c : Position) (r : RawEvent) : Prop := Less c (Pos r) = false.
#[export] Instance upto_dec c r : Decision (upto c r) := decide (Less c (Pos r) = false).

Definition in_range (from to : Z) (r : RawEvent) : Prop := from <= Ledger r <= to.
#[export] Instance in_range_dec from to r : Decision (in_range from to r).
Proof. unfold in_range. apply _. Defined.

(** The events of a range of ledgers. *)
Definition events_in (log : list RawEvent) (from to : Z) : list RawEvent := filter (in_range from to) log.

Section honest.
Context {P : Protocol}.

(** A page's event is one of the log's. *)
Definition names (e : EventInfo) (r : RawEvent) : Prop :=
  ParseCursor (ID e) = Some (Pos r) ∧ toRaw e (Pos r) = Ok r.

(** What a request asks for, up to the cursor the page ends at. *)
Definition asked (req : Request) (cursor : Position) (r : RawEvent) : Prop :=
  upto cursor r ∧ match req with FromLedger start end_ => start <= Ledger r < end_ | AfterCursor c => ¬ upto c r end.
#[export] Instance asked_dec req cursor r : Decision (asked req cursor r).
Proof. unfold asked. destruct req; apply _. Defined.

(** A server of a log answers with a page of it: the events asked for, and none other, up to a cursor. *)
Definition serves (log : list RawEvent) (c : Client) : Prop :=
  ∀ n req page, GetEvents c n req = Ok page → ∃ cursor,
    ParseCursor (PCursor page) = Some cursor ∧ Forall2 names (PEvents page) (filter (asked req cursor) log).

End honest.

Section following.
Context {sdk : StellarSDK} {S : Type} `{!Sink S}.

(** A source that answers a range only with the events of the log in it. *)
Definition honest (log : list RawEvent) (src : Source) : Prop :=
  ∀ from to raw, 0 <= from <= to → to < W32 - 1 → src from to = Ok raw → raw = events_in log from to.

(** The ledgers and the window are far from where 32 bits wrap. *)
Definition in_bounds (f : Follower) : Prop :=
  0 <= Window f <= 2 ^ 31 ∧ ∀ h, RPC f = Ok h → is_u32 (OldestLedger h) ∧ 0 <= LatestLedger h < 2 ^ 31.

(** What a sink has applied: a batch it takes is last and moves its cursor, one it refuses is not there. *)
Class SinkLaws (applied : S → list Batch) : Prop := {
  applied_Ok : ∀ b s s', Apply b s = (s', Ok tt) → Cursor s' = To b ∧ applied s' = applied s ++ [b];
  applied_Fail : ∀ b s s' err, Apply b s = (s', Fail err) → Cursor s' = Cursor s ∧ applied s' = applied s }.

(** A step of a follower, its RPC and sources answering as they will, but honestly. *)
Inductive follows (log : list RawEvent) (s s' : S) : Prop :=
| Follows f outcome : in_bounds f → honest log (Live f) → Forall (honest log) (History f) →
    Step f s = (s', outcome) → follows log s s'.

(** Batches that follow one another from a ledger on to another. *)
Fixpoint chained (next : Z) (bs : list Batch) (last : Z) : Prop :=
  match bs with
  | [] => last = next - 1
  | b :: bs => From b = next ∧ From b <= To b <= Latest b ∧ chained (To b + 1) bs last
  end.

(** A batch's transactions are those of its events. *)
Definition parsed (b : Batch) : Prop := ∃ es, decode_all (BRaw b) = inr es ∧ calls.ParseTxs es = Ok (Txs b).

(** The sink holds the whole log of the ledgers since it began after [start]. *)
Record followed (log : list RawEvent) (start : Z) (applied : S → list Batch) (s : S) : Prop := {
  fd_cursor : start <= Cursor s < 2 ^ 31;
  fd_chained : chained (start + 1) (applied s) (Cursor s);
  fd_events : concat (map BRaw (applied s)) = events_in log (start + 1) (Cursor s);
  fd_parsed : Forall parsed (applied s) }.

End following.

(** * Lemmas *)

Lemma before_transitive : Transitive before.
Proof. intros a b c. apply Less_trans. Qed.

Lemma filter_none (P : RawEvent → Prop) `{!∀ x, Decision (P x)} l : (∀ x, x ∈ l → ¬ P x) → filter P l = [].
Proof.
  induction l as [|x l IH]; intros Hn; [done|]. rewrite filter_cons, decide_False by (apply Hn; by left).
  apply IH. intros y Hy. apply Hn. by right.
Qed.

(** Of a sorted list, the elements of an initial part and then some others are those of either. *)
Lemma filter_initial (P Q : RawEvent → Prop) `{!∀ x, Decision (P x), !∀ x, Decision (Q x), !∀ x, Decision (P x ∨ Q x)} l :
  StronglySorted before l → (∀ x y, before x y → P y → P x) → (∀ x, P x → Q x → False) →
  filter P l ++ filter Q l = filter (λ x, P x ∨ Q x) l.
Proof.
  intros Hs Hdown Hdis. induction Hs as [|x l Hs IH Hx]; [done|]. rewrite !filter_cons. destruct (decide (P x)) as [Hp|Hp].
  - rewrite (decide_False (P := Q x)) by eauto. rewrite decide_True by auto. cbn. by rewrite IH.
  - assert (filter P l = []) as El.
    { apply filter_none. rewrite Forall_forall in Hx. intros y Hy Hpy. apply Hp. eauto. }
    rewrite El in *. cbn in *. destruct (decide (Q x)) as [Hq|Hq]; [rewrite decide_True by auto|rewrite decide_False by tauto]; by rewrite IH.
Qed.

Lemma filter_same (P Q : RawEvent → Prop) `{!∀ x, Decision (P x), !∀ x, Decision (Q x)} (l : list RawEvent) :
  (∀ x, x ∈ l → P x ↔ Q x) → filter P l = filter Q l.
Proof.
  induction l as [|x l IH]; intros Hn; [done|]. rewrite !filter_cons.
  rewrite IH by (intros y Hy; apply Hn; by right).
  destruct (Hn x) as [H1 H2]; [by left|]. destruct (decide (P x)), (decide (Q x)); tauto.
Qed.

(** ** A page *)

Section page.
Context {P : Protocol}.

Lemma toRaw_contract e c r : toRaw e c = Ok r → Contract r = IContractID e.
Proof.
  unfold toRaw. destruct (negb (IsContract e)); [done|]. destruct (parse_time _); [|done].
  destruct (negb _); [done|]. by intros [= <-].
Qed.

(** The events of a page up to the first past the range are appended. *)
Lemma take_page_names contract to es : ∀ rs out, Forall2 names es rs → StronglySorted before rs →
  Forall (λ r, Contract r = contract) rs →
  take_page contract to es out =
    Ok (out ++ filter (λ r, Ledger r <= to) rs, negb (forallb (λ r, Ledger r <=? to) rs)).
Proof.
  intros rs out Hn. revert out. induction Hn as [|e r es rs [Hc Hr] Hn IH]; intros out Hs Hct.
  { cbn. by rewrite app_nil_r. }
  apply StronglySorted_cons in Hs as [Hx Hs]. apply Forall_cons_1 in Hct as [Hcr Hct].
  cbn [take_page]. rewrite Hc. cbn [PLedger Pos forallb]. rewrite filter_cons.
  destruct (Z.ltb_spec to (Ledger r)) as [Hl|Hl].
  - rewrite decide_False by lia. rewrite (proj2 (Z.leb_gt _ _)) by lia. cbn [andb negb].
    assert (filter (λ r, Ledger r <= to) rs = []) as ->; [|by rewrite app_nil_r].
    apply filter_none. intros y Hy. rewrite Forall_forall in Hx. apply Hx in Hy. unfold before in Hy.
    rewrite Less_spec in Hy. cbn in Hy. lia.
  - rewrite Hr, Ok_bind, Hcr, String.eqb_refl. cbn [negb fail_if]. rewrite Ok_bind, IH by done.
    rewrite decide_True by lia. rewrite (proj2 (Z.leb_le _ _)) by lia. cbn [andb]. by rewrite <- app_assoc.
Qed.

(** ** The pages of a log *)

Section log.
Context {laws : ProtocolLaws P}.
Variables (log : list RawEvent) (contract : string) (c : Client) (from to : Z).

(** The log is of one contract, in chain order, with positions a cursor can name. *)
Hypothesis log_sorted : StronglySorted before log.
Hypothesis log_contract : Forall (λ r, Contract r = contract) log.
Hypothesis log_positions : Forall (λ r, PTx (Pos r) <= PTx MaxCursor ∧ POp (Pos r) <= POp MaxCursor ∧
  PIndex (Pos r) <= PIndex MaxCursor) log.
Hypothesis served : serves log c.
Hypothesis to_range : 0 <= to < W32 - 1.

Let part : list RawEvent := events_in log from to.

Lemma forallb_false {A} (f : A → bool) l : forallb f l = false → ∃ x, x ∈ l ∧ f x = false.
Proof.
  induction l as [|x l IH]; [done|]. cbn [forallb]. destruct (f x) eqn:E; intros Hl.
  - destruct (IH Hl) as (y & Hy & Hf). exists y. split; [by right|done].
  - exists x. split; [by left|done].
Qed.

Lemma sorted_filter (Q : RawEvent → Prop) `{!∀ x, Decision (Q x)} (l : list RawEvent) :
  StronglySorted before l → StronglySorted before (filter Q l).
Proof.
  induction 1 as [|x l Hs IH Hx]; [constructor|]. rewrite filter_cons. destruct (decide (Q x)); [|done].
  constructor; [done|]. rewrite Forall_forall in Hx |- *. intros y [_ Hy]%list_elem_of_filter. by apply Hx.
Qed.

(** What a request leaves out, as read before. *)
Definition seen (req : Request) (r : RawEvent) : Prop :=
  match req with FromLedger _ _ => False | AfterCursor p => upto p r end.
#[local] Instance seen_dec req r : Decision (seen req r).
Proof. destruct req; apply _. Defined.

(** The requests the loop makes. *)
Definition made (req : Request) : Prop :=
  match req with FromLedger start end_ => start = from ∧ end_ = to + 1 | AfterCursor p => from <= PLedger p end.

Lemma upto_before p x y : before x y → upto p y → upto p x.
Proof. unfold before, upto. rewrite <- !not_true_iff_false, !Less_spec. lia. Qed.

(** A page adds the events of the range up to its cursor. *)
Lemma page_adds req q : made req →
  filter (seen req) part ++ filter (λ r, Ledger r <= to) (filter (asked req q) log) =
  filter (λ r, seen req r ∨ (upto q r ∧ ¬ seen req r)) part.
Proof.
  intros Hm. rewrite <- (filter_initial (seen req) (λ r, upto q r ∧ ¬ seen req r)).
  - f_equal. unfold part, events_in. rewrite !list_filter_filter. apply filter_same. intros r _.
    unfold asked, seen, in_range, made in *. destruct req as [start end_|p].
    + destruct Hm as [-> ->]. intuition lia.
    + assert (¬ upto p r → from <= Ledger r) as Hp.
      { unfold upto. rewrite not_false_iff_true, Less_spec. cbn. lia. }
      naive_solver.
  - by apply sorted_filter.
  - intros x y Hb. destruct req; cbn; [done|]. by apply upto_before.
  - naive_solver.
Qed.

(** A cursor at the end of the range, or past an event that is, leaves none of it out. *)
Lemma at_end_complete q : at_end to q = true → ∀ r, r ∈ part → upto q r.
Proof.
  unfold at_end, part, events_in. intros He r [Hr Hin]%list_elem_of_filter.
  rewrite Forall_forall in log_positions. apply log_positions in Hin. unfold in_range in Hr.
  unfold upto. apply not_true_iff_false. rewrite Less_spec. cbn in *. lia.
Qed.

Lemma past_complete q x : to < Ledger x → upto q x → ∀ r, r ∈ part → upto q r.
Proof.
  unfold part, events_in. intros Hx Hq r [Hr _]%list_elem_of_filter. unfold in_range in Hr. revert Hq.
  unfold upto. rewrite <- !not_true_iff_false, !Less_spec. cbn. lia.
Qed.

Lemma filter_every (Q : RawEvent → Prop) `{!∀ x, Decision (Q x)} (l : list RawEvent) :
  (∀ x, x ∈ l → Q x) → filter Q l = l.
Proof.
  induction l as [|x l IH]; intros Hn; [done|]. rewrite filter_cons, decide_True by (apply Hn; by left).
  f_equal. apply IH. intros y Hy. apply Hn. by right.
Qed.

Lemma complete_all req q : (∀ r, r ∈ part → upto q r) →
  filter (λ r, seen req r ∨ (upto q r ∧ ¬ seen req r)) part = part.
Proof. intros H. apply filter_every. intros r Hr. apply H in Hr. destruct (decide (seen req r)); auto. Qed.

(** One turn of the loop reads on, or ends with the events of the range. *)
Lemma read_page_honest n req out progress : made req → from <= PLedger progress →
  (∀ p, req = AfterCursor p → p = progress) → out = filter (seen req) part →
  match read_page c contract from to n req out progress with
  | Done (Ok out') => out' = part
  | Done (Fail _) => True
  | More out' q => made (AfterCursor q) ∧ out' = filter (seen (AfterCursor q)) part
  end.
Proof.
  intros Hm Hf Hp ->. unfold read_page. destruct (GetEvents c n req) as [page|err] eqn:E; [|done].
  destruct (from <? POldestLedger page); [done|].
  destruct (served n req page E) as (q & Hq & Hnames).
  rewrite (take_page_names contract to _ _ _ Hnames); [|by apply sorted_filter|].
  2: { rewrite Forall_forall in log_contract |- *. intros r [_ Hr]%list_elem_of_filter. by apply log_contract. }
  rewrite (page_adds req q Hm), Hq.
  destruct (forallb (λ r, Ledger r <=? to) (filter (asked req q) log)) eqn:Ea; cbn [negb].
  2: { apply complete_all. apply forallb_false in Ea as (x & [Hx _]%list_elem_of_filter & Hl).
       apply Z.leb_gt in Hl. apply (past_complete q x Hl), Hx. }
  destruct (at_end to q) eqn:Ee; [by apply complete_all, at_end_complete|].
  destruct (Z.leb_spec (Cmp q progress) 0) as [|Hc]; [done|].
  assert (Less progress q = true) as Hless.
  { apply not_false_iff_true. intros H. apply cmp_order in H. lia. }
  assert (∀ r, upto progress r → upto q r) as Hup.
  { intros r. unfold upto. rewrite <- !not_true_iff_false. revert Hless. rewrite !Less_spec. cbn. lia. }
  split; [revert Hless; rewrite Less_spec; cbn; lia|]. apply filter_same. intros r _. cbn [seen].
  destruct req as [|p]; cbn [seen]; [tauto|]. rewrite (Hp p eq_refl). specialize (Hup r).
  destruct (decide (upto progress r)); tauto.
Qed.

Lemma read_pages_honest fuel : ∀ n req out progress, made req → from <= PLedger progress →
  (∀ p, req = AfterCursor p → p = progress) → out = filter (seen req) part →
  ∀ out', read_pages fuel c contract from to n req out progress = Some (Ok out') → out' = part.
Proof.
  induction fuel as [|fuel IH]; intros n req out progress Hm Hf Hp Ho out' H; [done|]. cbn [read_pages] in H.
  pose proof (read_page_honest n req out progress Hm Hf Hp Ho) as Ht.
  destruct (read_page c contract from to n req out progress) as [r|out1 q].
  - injection H as ->. exact Ht.
  - destruct Ht as [Hm' Ho']. apply (IH _ _ _ _ Hm' Hm' ltac:(by intros p [= <-]) Ho' _ H).
Qed.

End log.
(** ** The pages end *)

Section ends.
Context {laws : ProtocolLaws P}.

(** A cursor's place among those a ledger range holds. *)
Definition place (a m x : Z) : Z := a * (m + 1) + x.
Definition rank (c : Position) : Z :=
  place (place (place (PLedger c) (PTx MaxCursor) (PTx c)) (POp MaxCursor) (POp c)) (PIndex MaxCursor) (PIndex c).
Definition ranks : Z :=
  place (place (place W32 (PTx MaxCursor) 0) (POp MaxCursor) 0) (PIndex MaxCursor) 0.

Definition bounded (c : Position) : Prop :=
  is_u32 (PLedger c) ∧ 0 <= PTx c <= PTx MaxCursor ∧ 0 <= POp c <= POp MaxCursor ∧ 0 <= PIndex c <= PIndex MaxCursor.

Lemma place_lt a b m x y : a < b → 0 <= x <= m → 0 <= y → place a m x < place b m y.
Proof. unfold place. nia. Qed.

Lemma rank_less c d : bounded c → bounded d → Less c d = true → rank c < rank d.
Proof.
  unfold bounded, is_u32, rank. intros Hc Hd. rewrite Less_spec. intros [H|[-> [H|[-> [H|[-> H]]]]]].
  - repeat (apply place_lt; [|lia|lia]). done.
  - apply place_lt; [|lia|lia]. apply place_lt; [|lia|lia]. unfold place. lia.
  - apply place_lt; [|lia|lia]. unfold place. lia.
  - unfold place. lia.
Qed.

Lemma rank_bound c : bounded c → 0 <= rank c < ranks.
Proof.
  pose proof max_cursor as (H1 & H2 & H3). unfold bounded, is_u32, rank, ranks. intros Hc. split.
  - unfold place. assert (0 <= PLedger c * (PTx MaxCursor + 1)) by nia.
    assert (0 <= (PLedger c * (PTx MaxCursor + 1) + PTx c) * (POp MaxCursor + 1)) by nia. nia.
  - repeat (apply place_lt; [|lia|lia]). lia.
Qed.

Lemma read_page_More c contract from to n req out progress out' q :
  read_page c contract from to n req out progress = More out' q → bounded q ∧ Less progress q = true.
Proof.
  unfold read_page. destruct (GetEvents c n req) as [page|]; [|done]. destruct (from <? _); [done|].
  destruct (take_page _ _ _ _) as [[out1 []]|]; [done| |done].
  destruct (ParseCursor (PCursor page)) as [q'|] eqn:Eq; [|done]. destruct (at_end to q'); [done|].
  destruct (Z.leb_spec (Cmp q' progress) 0) as [|Hc]; [done|]. intros [= _ <-].
  split; [by apply (cursor_range _ _ Eq)|]. apply not_false_iff_true. intros H. apply cmp_order in H. lia.
Qed.

Lemma read_pages_ends fuel : ∀ c contract from to n req out progress, bounded progress →
  ranks - rank progress <= Z.of_nat fuel → is_Some (read_pages fuel c contract from to n req out progress).
Proof.
  induction fuel as [|fuel IH]; intros c contract from to n req out progress Hb Hf.
  { apply rank_bound in Hb. lia. }
  cbn [read_pages]. destruct (read_page c contract from to n req out progress) as [r|out' q] eqn:E; [by eexists|].
  apply read_page_More in E as [Hq Hl]. apply IH; [done|]. pose proof (rank_less _ _ Hb Hq Hl). lia.
Qed.

(** More fuel does not change a result. *)
Lemma read_pages_more fuel fuel' : ∀ c contract from to n req out progress r, (fuel <= fuel')%nat →
  read_pages fuel c contract from to n req out progress = Some r →
  read_pages fuel' c contract from to n req out progress = Some r.
Proof.
  revert fuel'. induction fuel as [|fuel IH]; intros [|fuel'] c contract from to n req out progress r Hf H; [done..|lia|].
  cbn [read_pages] in *. destruct (read_page c contract from to n req out progress); [done|]. apply IH; [lia|done].
Qed.

End ends.

End page.

(** ** The follower *)

Lemma events_in_app log a b c : StronglySorted before log → a <= b + 1 → b <= c →
  events_in log a b ++ events_in log (b + 1) c = events_in log a c.
Proof.
  intros Hs Ha Hc. pose proof (sorted_filter (in_range a c) log Hs) as Hp.
  pose proof (filter_initial (λ r, Ledger r <= b) (λ r, b + 1 <= Ledger r) _ Hp) as Hf.
  rewrite (filter_every (λ r, Ledger r <= b ∨ b + 1 <= Ledger r)) in Hf by (intros; lia).
  unfold events_in.
  rewrite <- (Hf ltac:(intros x y; unfold before; rewrite Less_spec; cbn; lia) ltac:(intros; lia)).
  rewrite !list_filter_filter. f_equal; apply filter_same; intros r _; unfold in_range; lia.
Qed.

Lemma window_end_bounds f h next : 0 <= Window f <= 2 ^ 31 → is_u32 (OldestLedger h) → 0 <= LatestLedger h < 2 ^ 31 →
  0 <= next <= LatestLedger h → next <= window_end f h next <= LatestLedger h.
Proof.
  intros Hw Ho Hl Hn. unfold window_end, is_u32, W32 in *.
  rewrite (u32_small (next + _)), (u32_small (next + _ - 1)) by (unfold is_u32, W32; lia).
  destruct (Z.ltb_spec next (OldestLedger h)); [|lia].
  rewrite u32_small by (unfold is_u32, W32; lia). lia.
Qed.

Lemma first_answer_honest log hs from to raw : Forall (honest log) hs → 0 <= from <= to → to < W32 - 1 →
  first_answer hs from to = inr raw → raw = events_in log from to.
Proof.
  intros Hh Hle Hto. induction Hh as [|h hs Hh _ IH]; [done|]. cbn [first_answer].
  destruct (h from to) as [r|e] eqn:E; [intros [= <-]; by apply Hh|].
  destruct (first_answer hs from to); [done|exact IH].
Qed.

Section following.
Context {sdk : StellarSDK} {S : Type} `{!Sink S} (applied : S → list Batch) {laws : SinkLaws applied}.

(** What a batch holds. *)
Lemma next_batch_honest log f cursor b : in_bounds f → honest log (Live f) → Forall (honest log) (History f) →
  0 <= cursor < 2 ^ 31 → next_batch f cursor = inr (Some b) →
  From b = cursor + 1 ∧ From b <= To b <= Latest b ∧ Latest b < 2 ^ 31 ∧ BRaw b = events_in log (From b) (To b) ∧ parsed b.
Proof.
  intros [Hw Hh] Hl Hs Hc. unfold next_batch. destruct (RPC f) as [h|]; [|done].
  destruct (Hh h eq_refl) as [Ho Hla]. destruct (LatestLedger h <? OldestLedger h); [done|].
  rewrite u32_small by (unfold is_u32, W32; lia).
  destruct (Z.ltb_spec (LatestLedger h) (cursor + 1)) as [|Hn]; [done|].
  pose proof (window_end_bounds f h (cursor + 1) Hw Ho Hla ltac:(lia)) as Hb.
  set (to := window_end f h (cursor + 1)) in *.
  destruct (read f (cursor + 1) to (OldestLedger h)) as [errs|raw] eqn:Er; [by destruct (joined_is _ errs)|].
  assert (raw = events_in log (cursor + 1) to) as ->.
  { unfold read in Er. destruct (OldestLedger h <=? cursor + 1).
    - destruct (Live f (cursor + 1) to) eqn:E; [|done]. injection Er as <-. apply Hl; [lia|unfold W32; lia|done].
    - destruct (length (History f) =? 0)%nat; [done|]. apply (first_answer_honest log _ _ _ _ Hs) in Er; [done|lia|unfold W32; lia]. }
  destruct (decode_all _) as [|es] eqn:Ed; [done|]. destruct (calls.ParseTxs es) as [txs|] eqn:Et; [|done].
  intros [= <-]. cbn [From To Latest BRaw]. split_and!; try done; try lia. by exists es.
Qed.

Lemma chained_snoc next bs last b : chained next bs last → From b = last + 1 → From b <= To b <= Latest b →
  chained next (bs ++ [b]) (To b).
Proof.
  revert next. induction bs as [|x bs IH]; intros next H Hf Hb; cbn [chained app] in *; [split_and!; lia|].
  destruct H as (? & ? & H). split_and!; [done|lia|lia|]. by apply IH.
Qed.

Lemma follows_followed log start s s' : StronglySorted before log → 0 <= start →
  followed log start applied s → follows log s s' → followed log start applied s'.
Proof.
  intros Hlog Hst [Hc Hch He Hp] [f outcome Hb Hl Hh H]. unfold Step in H.
  destruct (next_batch f (Cursor s)) as [errs|[b|]] eqn:E; [by injection H as <- _| |by injection H as <- _].
  apply (next_batch_honest log) in E as (Hf & Hle & Hla & Hraw & Hpar); [|done|done|done|lia].
  destruct (Apply b s) as [s1 [[]|err]] eqn:Ea; injection H as <- _.
  - apply applied_Ok in Ea as [Ec Eap]. split.
    + lia.
    + rewrite Ec, Eap. by apply (chained_snoc _ _ _ _ Hch).
    + rewrite Ec, Eap, map_app, concat_app, He. cbn [map concat]. rewrite app_nil_r, Hraw, Hf.
      apply events_in_app; [done|lia|lia].
    + rewrite Eap. apply Forall_app. auto.
  - apply applied_Fail in Ea as [Ec Eap]. split; rewrite ?Ec, ?Eap; done.
Qed.

End following.

(** The source over RPC is honest about a log its client serves. *)
Definition RPCSource {P : Protocol} (c : Client) (contract : string) : Source := λ from to,
  default (Fail (Sentinel "out of fuel")) (Events (Z.to_nat ranks) c contract from to).

Lemma Events_honest {P : Protocol} {laws : ProtocolLaws P} log contract c fuel from to out :
  StronglySorted before log → Forall (λ r, Contract r = contract) log →
  Forall (λ r, PTx (Pos r) <= PTx MaxCursor ∧ POp (Pos r) <= POp MaxCursor ∧ PIndex (Pos r) <= PIndex MaxCursor) log →
  serves log c → 0 <= from → 0 <= to < W32 - 1 →
  Events fuel c contract from to = Some (Ok out) → out = events_in log from to.
Proof.
  intros Hs Hc Hp Hv Hf Ht. unfold Events. destruct (to <? from); [done|]. intros H.
  apply (read_pages_honest log contract c from to Hs Hc Hp Hv Ht fuel _ _ _ _) in H; [done| |cbn; lia|discriminate|].
  - cbn. split; [done|]. apply u32_small. unfold is_u32. lia.
  - symmetry. apply filter_none. intros r _ [].
Qed.

Lemma RPCSource_honest {P : Protocol} {laws : ProtocolLaws P} log contract c :
  StronglySorted before log → Forall (λ r, Contract r = contract) log →
  Forall (λ r, PTx (Pos r) <= PTx MaxCursor ∧ POp (Pos r) <= POp MaxCursor ∧ PIndex (Pos r) <= PIndex MaxCursor) log →
  serves log c → honest log (RPCSource c contract).
Proof.
  intros Hs Hc Hp Hv from to raw Hf Ht. unfold RPCSource.
  destruct (Events _ c contract from to) as [r|] eqn:E; [|done]. cbn. intros ->.
  apply (Events_honest log contract c _ from to raw Hs Hc Hp Hv) in E; [done|lia|lia].
Qed.

(** ** A concrete RPC and sink, to evaluate the theorems on *)
Module demo.

#[export] Instance protocol : Protocol := {|
  ParseCursor s := if String.eqb s "event" then Some (mkPosition 20 1 0 0)
                   else if String.eqb s "end" then Some (mkPosition 30 5 5 5) else None;
  Cmp a b := if Less b a then 1 else 0;
  MaxCursor := mkPosition 4294967295 5 5 5;
  parse_time _ := Some 1700000000;
  Error _ := ""%string |}.

#[export] Instance protocol_laws : ProtocolLaws protocol.
Proof.
  split.
  - intros s c. cbn [ParseCursor protocol]. unfold is_u32, W32.
    destruct (String.eqb s "event"); [intros [= <-]; cbn; lia|]. destruct (String.eqb s "end"); [intros [= <-]; cbn; lia|done].
  - cbn. lia.
  - intros a b. cbn [Cmp protocol]. destruct (Less b a); split; first [lia|done].
Qed.

Definition event : RawEvent := mkRawEvent 20 1700000000 "h" 1 0 0 "vault" [] "v".
Definition info : EventInfo := mkEventInfo true 20 "now" "vault" "event" "h" [] "v".

(** A server of the one event. *)
Definition client : Client := mkClient
  (λ _ req, Ok (mkPage (map (λ _, info) (filter (asked req (mkPosition 30 5 5 5)) [event])) "end" 1))
  (λ _, Ok (mkHealth 1 30 0)).

Lemma client_serves : serves [event] client.
Proof.
  intros n req page [= <-]. exists (mkPosition 30 5 5 5). split; [done|]. cbn [PEvents].
  rewrite filter_cons. destruct (decide _); repeat constructor.
Qed.

(** A sink that keeps every batch. *)
Definition State : Type := Z * list Batch.
#[export] Instance sink : Sink State := {| Cursor s := s.1; Apply b s := ((To b, s.2 ++ [b]), Ok tt) |}.
#[export] Instance sink_laws : SinkLaws (snd : State → list Batch).
Proof. split; [by intros b s s' [= <-]|by intros b s s' err H]. Qed.

Definition follower : Follower := mkFollower (Ok (mkHealth 1 30 0)) (λ _ _, Ok []) [] 10.

End demo.

(** * Properties *)

(** C35: [RPCSource.Events] ends whatever the RPC answers, since every page moves its cursor on; and when
    the RPC serves a log of the contract's events in chain order, in pages of any sizes, an answer
    without error is every event of the ledgers asked for, in order, and no other. *)
Theorem rpc_source_reads_the_range {P : Protocol} {laws : ProtocolLaws P} (c : Client) (contract : string)
    (from to : Z) (Hf : is_u32 from) :
  (∃ r, ∀ fuel, ranks <= Z.of_nat fuel → Events fuel c contract from to = Some r) ∧
  ∀ log fuel out, StronglySorted before log → Forall (λ r, Contract r = contract) log →
    Forall (λ r, PTx (Pos r) <= PTx MaxCursor ∧ POp (Pos r) <= POp MaxCursor ∧ PIndex (Pos r) <= PIndex MaxCursor) log →
    serves log c → 0 <= to < W32 - 1 →
    Events fuel c contract from to = Some (Ok out) → out = events_in log from to.
Proof.
  split; [|intros log fuel out ? ? ? ? ?; apply Events_honest; [done..|apply Hf|done]].
  unfold Events. destruct (to <? from); [by eexists|].
  assert (bounded (mkPosition from 0 0 0)) as Hb.
  { pose proof max_cursor as (? & ? & ?). split; [exact Hf|cbn; lia]. }
  pose proof (rank_bound _ Hb) as Hr.
  destruct (read_pages_ends (Z.to_nat ranks) c contract from to 0 (FromLedger from (u32 (to + 1))) [] _ Hb) as [r E]; [lia|].
  exists r. intros fuel Hfuel. apply (read_pages_more (Z.to_nat ranks)); [lia|done].
Qed.

Lemma rpc_source_witness :
  Events (P:=demo.protocol) 1 demo.client "vault" 10 30 = Some (Ok [demo.event]) ∧ [demo.event] = events_in [demo.event] 10 30.
Proof.
  assert (H : Events (P:=demo.protocol) 1 demo.client "vault" 10 30 = Some (Ok [demo.event])) by (vm_compute; reflexivity).
  split; [exact H|].
  apply (proj2 (rpc_source_reads_the_range (P:=demo.protocol) (laws:=demo.protocol_laws) demo.client "vault" 10 30 ltac:(split; [discriminate|reflexivity]))
    [demo.event] 1%nat [demo.event]).
  - repeat constructor.
  - repeat constructor.
  - constructor; [cbn; lia|constructor].
  - exact demo.client_serves.
  - split; [discriminate|reflexivity].
  - exact H.
Defined.

(** C14: a follower misses nothing: from a sink that has applied nothing since a ledger, whatever its RPC
    reports and however often steps fail, as long as the sources answer only with the events of the
    ledgers asked for, the batches the sink has applied follow one another without a gap up to its
    cursor, none past the latest ledger, and their events are all the log's since that ledger, once
    each and in order, with the transactions they parse to. *)
Theorem follower_misses_nothing {sdk : StellarSDK} {S : Type} `{!Sink S} (applied : S → list Batch)
    {laws : SinkLaws applied} (log : list RawEvent) (start : Z) (s0 s : S)
    (Hlog : StronglySorted before log) (Hstart : 0 <= start < 2 ^ 31) (Hc : Cursor s0 = start) (Ha : applied s0 = [])
    (H : rtc (follows log) s0 s) :
  followed log start applied s.
Proof.
  assert (followed log start applied s0) as H0.
  { split; rewrite ?Hc, ?Ha; cbn; [lia|lia| |constructor]. symmetry. apply filter_none.
    intros r _. unfold in_range. lia. }
  clear Hc Ha. induction H as [s|s s1 s2 Hs _ IH]; [done|].
  apply IH. apply (follows_followed applied log start s); [done|lia|done|done].
Qed.

Lemma follower_misses_nothing_witness :
  ∃ s : demo.State, rtc (@follows (example.sdk []) demo.State demo.sink []) (5, []) s ∧ @Cursor _ demo.sink s = 15 ∧
    concat (map BRaw s.2) = events_in [] 6 (@Cursor _ demo.sink s).
Proof.
  destruct (@Step (example.sdk []) demo.State demo.sink demo.follower (5, [])) as [s out] eqn:E.
  assert (Hr : rtc (@follows (example.sdk []) demo.State demo.sink []) (5, []) s).
  { apply rtc_once. apply (Follows _ _ _ demo.follower out); [|by intros ? ? ? ? ? [= <-]|constructor|exact E].
    split; [cbn; lia|]. intros h [= <-]. cbn. unfold is_u32, W32. lia. }
  exists s. split; [exact Hr|]. split.
  - pose proof (f_equal (λ x, @Cursor _ demo.sink x.1) E) as E'. vm_compute in E'. symmetry. exact E'.
  - exact (fd_events _ _ _ _ (@follower_misses_nothing (example.sdk []) demo.State demo.sink snd demo.sink_laws [] 5 (5, []) s
      (SSorted_nil _) ltac:(lia) eq_refl eq_refl Hr)).
Defined.

End follow.
