(* ===== verification/Archive.v ===== *)
(** The published archive of a vault's events, of [services/internal/vaultarchive]: the manifest's
    rules (format.go), the canonical bytes of a window of ledgers and their reader (window.go), and the
    contents of a whole archive (read.go).

    A file's bytes are a string. [encoding/json] writes an event's line, modelled with its escapes; what
    it reads back is an operation of a class, as are SHA-256 and gzip, and canonical lines are those
    that are written as they were read. *)
From stdpp Require Import pretty.
From S2P Require Import Prelude.
From S2P Require Import Fr.
From S2P Require Import Tree.
From S2P Require Import Xdr.
From S2P Require Import Events.
From S2P Require Import Calls.

Module archive.

Import events.

(** ** Format *)

Definition Format : string := "cyphras-vault-archive/1".
Definition WindowLedgers : Z := 17280.
Definition MaxWindowBytes : Z := Z.shiftl 64 20.
Definition MaxLineBytes : Z := Z.shiftl 1 20.
Definition maxProducerBytes : Z := 128.
Definition maxExactInteger : Z := Z.shiftl 1 53 - 1.

Definition ErrInvalid : gerr := Sentinel "vault archive: invalid".
Definition invalid (format : string) (args : list fmtarg) : gerr := Wrapf ErrInvalid format args.

(** [Window] is one window of ledgers, with the leaves its commitments take. *)
Record Window : Type := mkWindow {
  Start : Z; End_ : Z; WEvents : Z; Leaves : Z * Z; WNullifiers : Z; WBytes : Z; SHA256 : string }.

(** [Manifest] describes the archive. *)
Record Manifest : Type := mkManifest {
  MFormat : string; Network : string; NetworkPassphrase : string; MVault : string; DeployLedger : Z;
  MWindowLedgers : Z; CoveredTo : Z; Windows : list Window; Producer : string }.

(** [Expect] pins what a reader requires; a zero field is not checked. *)
Record Expect : Type := mkExpect { EVault : string; EPassphrase : string; EDeploy : Z }.

Definition windowStart (ledger : Z) : Z := ledger - ledger mod WindowLedgers.

(** [isHash]: [strings.Trim] of the hexadecimal digits leaves nothing. *)
Definition isHash (s : string) : bool :=
  (String.length s =? 64)%nat && (length (trim lower_hex (String.list_ascii_of_string s)) =? 0)%nat.

Definition byte_of (c : Ascii.ascii) : Z := Z.of_nat (Ascii.nat_of_ascii c).

(** [strings.ContainsAny(s, " \t\n")] *)
Definition has_space (s : string) : bool :=
  existsb (λ c, (byte_of c =? 32) || (byte_of c =? 9) || (byte_of c =? 10)) (String.list_ascii_of_string s).

(** [strings.ContainsFunc(s, r < ' ' || r > '~')]: a byte outside ASCII is part of a rune above it. *)
Definition unprintable (s : string) : bool :=
  existsb (λ c, (byte_of c <? 32) || (126 <? byte_of c)) (String.list_ascii_of_string s).

(** One turn of the loop of [Manifest.Validate], from the next window's start and its first leaf. *)
Definition validate_window (st : Z * Z) (iw : nat * Window) : res (Z * Z) :=
  let '(next, leaves) := st in let '(i, w) := iw in let i := Z.of_nat i in
  _ ← fail_if (negb (Start w =? next) || negb (End_ w =? Start w + WindowLedgers - 1))
        (invalid "window %d is ledgers %d to %d, want the window from %d" [FInt i; FInt (Start w); FInt (End_ w); FInt next]);
  _ ← fail_if (negb ((Leaves w).1 =? leaves) || ((Leaves w).2 <? (Leaves w).1) ||
               negb (((Leaves w).2 - (Leaves w).1) mod 2 =? 0))
        (invalid "window %d holds leaves %d to %d after %d" [FInt i; FInt (Leaves w).1; FInt (Leaves w).2; FInt leaves]);
  _ ← fail_if (tree.Capacity <? (Leaves w).2)
        (invalid "window %d ends at leaf %d, past the %d the tree holds" [FInt i; FInt (Leaves w).2; FInt tree.Capacity]);
  _ ← fail_if ((maxExactInteger <? WEvents w) || (maxExactInteger <? WNullifiers w))
        (invalid "window %d counts more than a JavaScript number holds exactly" [FInt i]);
  _ ← fail_if ((WEvents w <? 0) || (WNullifiers w <? 0) || (WBytes w <? 0) || (MaxWindowBytes <? WBytes w) ||
               (u64 (WEvents w) <? u64 (u64 (u64 (WNullifiers w) + (Leaves w).2) - (Leaves w).1)))
        (invalid "window %d counts do not fit" [FInt i]);
  _ ← (if WEvents w =? 0 then
         fail_if (negb (WBytes w =? 0) || negb (String.eqb (SHA256 w) "") ||
                  negb ((Leaves w).1 =? (Leaves w).2) || negb (WNullifiers w =? 0))
           (invalid "window %d has no events but has content" [FInt i])
       else fail_if ((WBytes w =? 0) || negb (isHash (SHA256 w)))
              (invalid "window %d has no size or hash" [FInt i]));
  mret (u32 (End_ w + 1), (Leaves w).2).

Fixpoint validate_windows (st : Z * Z) (ws : list (nat * Window)) : res (Z * Z) :=
  match ws with [] => Ok st | w :: ws => st ← validate_window st w; validate_windows st ws end.

Definition coveredTo (ws : list Window) : Z := match last ws with Some w => End_ w | None => 0 end.

Section format.
Context {sdk : StellarSDK}.

(** [Manifest.Validate] *)
Definition Validate (m : Manifest) (want : Expect) : res unit :=
  _ ← fail_if (negb (String.eqb (MFormat m) Format)) (invalid "format %q, want %q" [FStr (MFormat m); FStr Format]);
  _ ← fail_if (negb (MWindowLedgers m =? WindowLedgers))
        (invalid "windows of %d ledgers, want %d" [FInt (MWindowLedgers m); FInt WindowLedgers]);
  _ ← fail_if (negb (bool_decide (is_Some (strkey_decode VersionContract (MVault m)))))
        (invalid "vault %.80q is not a contract address" [FStr (MVault m)]);
  _ ← fail_if (String.eqb (NetworkPassphrase m) "" || String.eqb (Network m) "" || has_space (Network m))
        (invalid "manifest without a network" []);
  _ ← fail_if (DeployLedger m =? 0) (invalid "manifest without a deploy ledger" []);
  _ ← fail_if ((maxProducerBytes <? Z.of_nat (String.length (Producer m))) || unprintable (Producer m))
        (invalid "producer is not printable ASCII of at most %d bytes" [FInt maxProducerBytes]);
  _ ← fail_if (negb (String.eqb (EVault want) "") && negb (String.eqb (MVault m) (EVault want)))
        (invalid "archive of vault %s, want %s" [FStr (MVault m); FStr (EVault want)]);
  _ ← fail_if (negb (String.eqb (EPassphrase want) "") && negb (String.eqb (NetworkPassphrase m) (EPassphrase want)))
        (invalid "archive of network %q, want %q" [FStr (NetworkPassphrase m); FStr (EPassphrase want)]);
  _ ← fail_if (negb (EDeploy want =? 0) && negb (DeployLedger m =? EDeploy want))
        (invalid "deploy ledger %d, want %d" [FInt (DeployLedger m); FInt (EDeploy want)]);
  _ ← validate_windows (windowStart (DeployLedger m), 0) (imap pair (Windows m));
  fail_if (negb (CoveredTo m =? coveredTo (Windows m)))
    (invalid "covered to %d, the windows end at %d" [FInt (CoveredTo m); FInt (coveredTo (Windows m))]).

End format.

(** ** The canonical line of an event

    [json.Encoder] without HTML escapes: a string's control characters, quotes and backslashes are
    escaped, as are the two line separators U+2028 and U+2029, and a byte that begins no rune becomes
    U+FFFD. Go's map of fields is the order of the struct. *)

Definition quote : Ascii.ascii := Ascii.ascii_of_nat 34.
Definition backslash : Ascii.ascii := Ascii.ascii_of_nat 92.
Definition newline : Ascii.ascii := Ascii.ascii_of_nat 10.

Definition hex_digit (n : nat) : Ascii.ascii :=
  Ascii.ascii_of_nat (if (n <? 10)%nat then 48 + n else 87 + n).

(** The escape of one byte of ASCII. *)
Definition escape (c : Ascii.ascii) : list Ascii.ascii :=
  let n := Ascii.nat_of_ascii c in
  if (n =? 34)%nat || (n =? 92)%nat then [backslash; c]
  else if (n =? 8)%nat then [backslash; "b"%char]
  else if (n =? 12)%nat then [backslash; "f"%char]
  else if (n =? 10)%nat then [backslash; "n"%char]
  else if (n =? 13)%nat then [backslash; "r"%char]
  else if (n =? 9)%nat then [backslash; "t"%char]
  else if (n <? 32)%nat then
    [backslash; "u"%char; "0"%char; "0"%char; hex_digit (n / 16); hex_digit (n mod 16)]
  else [c].

Definition within (lo hi : nat) (c : Ascii.ascii) : bool :=
  (lo <=? Ascii.nat_of_ascii c)%nat && (Ascii.nat_of_ascii c <=? hi)%nat.

(** The length of the rune that a byte above ASCII begins, 1 when it begins none. *)
Definition rune_length (c : Ascii.ascii) (rest : list Ascii.ascii) : nat :=
  let cont := within 128 191 in
  match rest with
  | c1 :: rest1 =>
      if within 194 223 c && cont c1 then 2
      else
        match rest1 with
        | c2 :: rest2 =>
            if ((within 224 224 c && within 160 191 c1) || (within 225 236 c && cont c1) ||
                (within 237 237 c && within 128 159 c1) || (within 238 239 c && cont c1)) && cont c2 then 3
            else
              match rest2 with
              | c3 :: _ =>
                  if ((within 240 240 c && within 144 191 c1) || (within 241 243 c && cont c1) ||
                      (within 244 244 c && within 128 143 c1)) && cont c2 && cont c3 then 4 else 1
              | [] => 1
              end
        | [] => 1
        end
  | [] => 1
  end%nat.

(** A line separator, U+2028 or U+2029, by its three bytes. *)
Definition separator (c c1 c2 : Ascii.ascii) : bool :=
  within 226 226 c && within 128 128 c1 && within 168 169 c2.

Fixpoint json_chars (s : list Ascii.ascii) : list Ascii.ascii :=
  match s with
  | [] => []
  | c :: s1 =>
      if (Ascii.nat_of_ascii c <? 128)%nat then escape c ++ json_chars s1
      else
        match rune_length c s1, s1 with
        | 2%nat, c1 :: s2 => c :: c1 :: json_chars s2
        | 3%nat, c1 :: c2 :: s3 =>
            (if separator c c1 c2
             then [backslash; "u"%char; "2"%char; "0"%char; "2"%char; hex_digit (Ascii.nat_of_ascii c2 - 160)]
             else [c; c1; c2]) ++ json_chars s3
        | 4%nat, c1 :: c2 :: c3 :: s4 => c :: c1 :: c2 :: c3 :: json_chars s4
        | _, _ => backslash :: ["u"; "f"; "f"; "f"; "d"]%char ++ json_chars s1
        end
  end.

Definition json_string (s : string) : string :=
  String quote (String.string_of_list_ascii (json_chars (String.list_ascii_of_string s)) ++ String quote "").

(** ["name":value] *)
Definition json_field (name value : string) : string := json_string name ++ ":" ++ value.

Definition json_array (items : list string) : string := "[" ++ String.concat "," items ++ "]".
Definition json_object (fields : list string) : string := "{" ++ String.concat "," fields ++ "}".

(** [marshalLine]; the topics of an event are never nil. *)
Definition marshalLine (e : RawEvent) : string :=
  json_object [json_field "ledger" (pretty (Ledger e)); json_field "closed_at" (pretty (ClosedAt e));
    json_field "tx_hash" (json_string (TxHash e)); json_field "tx" (pretty (Tx e));
    json_field "op" (pretty (Op e)); json_field "index" (pretty (Index e));
    json_field "contract" (json_string (Contract e)); json_field "topics" (json_array (map json_string (Topics e)));
    json_field "value" (json_string (Value e))].

(** [json.Marshal(closing{...})] *)
Definition closing (start end_ count : Z) : string :=
  json_object [json_field "covered" (json_array [pretty start; pretty end_]); json_field "count" (pretty count)].

(** What the reader takes from the standard library: the decoding of a line, with unknown fields
    refused, SHA-256, and one gzip member read up to a limit, with the bytes left after it. *)
Class Codec : Type := {
  decode_line : string → option RawEvent;
  sha256 : string → list Z;
  gzip_read : string → option (string * Z) }.

(** ** Windows *)

(** [content] is what a window's events add up to. *)
Record content : Type := mkContent {
  c_events : Z; c_leaves : Z * Z; c_commitments : list fr.Element; c_nullifiers : list fr.Element }.

(** The variables of the loop of [parse]. *)
Record parser : Type := mkParser {
  p_content : content; p_last : option RawEvent; p_left : option NewCommitment; p_leftAt : Position;
  p_spent : gset fr.Element }.

Section window.
Context {sdk : StellarSDK} {codec : Codec}.

(** [canonicalXDR] *)
Definition canonicalXDR (s : string) : bool :=
  match unmarshal_base64 s with
  | None => false
  | Some v => match marshal_base64 v with Some again => String.eqb again s | None => false end
  end.

(** [parseEvent] *)
Definition parseEvent (line : string) (n : Z) (vaultID : string) : res RawEvent :=
  match decode_line line with
  | None => Fail (invalid "line %d: %v" [FInt n; FOther])
  | Some e =>
      _ ← fail_if (negb (String.eqb (marshalLine e) line)) (invalid "line %d is not in canonical form" [FInt n]);
      _ ← fail_if (negb (String.eqb (Contract e) vaultID)) (invalid "line %d: an event of contract %.80q" [FInt n; FStr (Contract e)]);
      _ ← match Valid e with Some err => Fail (invalid "line %d: %v" [FInt n; FErr err]) | None => Ok tt end;
      _ ← fail_if (maxExactInteger <? ClosedAt e)
            (invalid "line %d: closed_at %d is more than a JavaScript number holds exactly" [FInt n; FInt (ClosedAt e)]);
      _ ← fail_if (negb (forallb canonicalXDR (Value e :: Topics e)))
            (invalid "line %d is not in canonical form: a topic or value is not the base64 of its own XDR" [FInt n]);
      mret e
  end.

(** What [parse] does with a decoded body. [None] is the panic of a leaf that has no left one. *)
Definition take_body (n : Z) (e : RawEvent) (b : Body) (p : parser) : option (res parser) :=
  let c := p_content p in
  match b with
  | BNewNullifier x =>
      let nf := NN_Nullifier x in
      if bool_decide (nf ∈ p_spent p) then Some (Fail (invalid "line %d: nullifier %s is spent twice" [FInt n; FStr (fr.Hex nf)]))
      else
        Some (Ok (mkParser (mkContent (c_events c) (c_leaves c) (c_commitments c) (c_nullifiers c ++ [nf]))
                    (p_last p) (p_left p) (p_leftAt p) ({[nf]} ∪ p_spent p)))
  | BNewCommitment x =>
      if tree.Capacity <=? NC_Index x then
        Some (Fail (invalid "line %d: leaf %d is past the %d the tree holds" [FInt n; FInt (NC_Index x); FInt tree.Capacity]))
      else if negb (NC_Index x =? (c_leaves c).2) then
        Some (Fail (invalid "line %d: leaf %d where %d belongs" [FInt n; FInt (NC_Index x); FInt (c_leaves c).2]))
      else
        let leaves := ((c_leaves c).1, u64 ((c_leaves c).2 + 1)) in
        if NC_Index x mod 2 =? 0 then
          Some (Ok (mkParser (mkContent (c_events c) leaves (c_commitments c) (c_nullifiers c))
                      (p_last p) (Some x) (Pos e) (p_spent p)))
        else if negb (PLedger (p_leftAt p) =? Ledger e) || negb (PTx (p_leftAt p) =? Tx e) then
          Some (Fail (invalid "line %d: leaf %d is not the second of a pair in one transaction" [FInt n; FInt (NC_Index x)]))
        else
          lf ← p_left p;
          Some (Ok (mkParser (mkContent (c_events c) leaves
                               (c_commitments c ++ [NC_Commitment lf; NC_Commitment x]) (c_nullifiers c))
                      (p_last p) None (p_leftAt p) (p_spent p)))
  | _ => Some (Ok p)
  end.

(** One event line of the loop of [parse]. *)
Definition take_line (start end_ deploy : Z) (vaultID : string) (n : Z) (line : string) (p : parser)
    : option (res parser) :=
  match parseEvent line n vaultID with
  | Fail err => Some (Fail err)
  | Ok e =>
      if (Ledger e <? start) || (end_ <? Ledger e) then
        Some (Fail (invalid "line %d: ledger %d outside the window %d to %d" [FInt n; FInt (Ledger e); FInt start; FInt end_]))
      else if Ledger e <? deploy then
        Some (Fail (invalid "line %d: ledger %d is before the deploy ledger %d" [FInt n; FInt (Ledger e); FInt deploy]))
      else if match p_last p with Some l => negb (Less (Pos l) (Pos e)) | None => false end then
        Some (Fail (invalid "line %d: position %v does not follow %v" [FInt n; FOther; FOther]))
      else
        match Decode e with
        | Fail err => Some (Fail (invalid "line %d: %v" [FInt n; FErr err]))
        | Ok d =>
            let c := p_content p in
            take_body n e (EBody d)
              (mkParser (mkContent (c_events c + 1) (c_leaves c) (c_commitments c) (c_nullifiers c))
                 (Some e) (p_left p) (p_leftAt p) (p_spent p))
        end
  end.

(** [bytes.IndexByte(data, '\n')]: the line and what follows it. *)
Fixpoint cut_line (data : string) : option (string * string) :=
  match data with
  | EmptyString => None
  | String c data =>
      if Ascii.eqb c newline then Some (EmptyString, data)
      else '(line, rest) ← cut_line data; Some (String c line, rest)
  end.

(** The loop of [parse], with the bytes as fuel: the parser and the closing line. *)
Fixpoint parse_lines (fuel : nat) (start end_ deploy : Z) (vaultID : string) (n : Z) (data : string)
    (p : parser) : option (res (parser * string)) :=
  match data, fuel with
  | EmptyString, _ => Some (Ok (p, EmptyString))
  | _, O => None
  | _, S fuel =>
      match cut_line data with
      | None => Some (Fail (invalid "line %d is not ended by a newline" [FInt n]))
      | Some (line, rest) =>
          if MaxLineBytes <=? Z.of_nat (String.length line) then
            Some (Fail (invalid "line %d of %d bytes" [FInt n; FInt (Z.of_nat (String.length line))]))
          else
            match rest with
            | EmptyString => Some (Ok (p, line))
            | _ =>
                r ← take_line start end_ deploy vaultID n line p;
                match r with
                | Fail err => Some (Fail err)
                | Ok p => parse_lines fuel start end_ deploy vaultID (n + 1) rest p
                end
            end
      end
  end.

Definition start_parser (firstLeaf : Z) : parser :=
  mkParser (mkContent 0 (firstLeaf, firstLeaf) [] []) None None (mkPosition 0 0 0 0) ∅.

(** [parse]; [None] is a panic. *)
Definition parse (data : string) (start end_ deploy : Z) (vaultID : string) (firstLeaf : Z) : option (res content) :=
  if MaxWindowBytes <? Z.of_nat (String.length data) then
    Some (Fail (invalid "window of %d bytes" [FInt (Z.of_nat (String.length data))]))
  else
    r ← parse_lines (String.length data) start end_ deploy vaultID 1 data (start_parser firstLeaf);
    Some ('(p, tail) ← r;
      match p_left p with
      | Some lf => Fail (invalid "leaf %d has no partner in the window" [FInt (NC_Index lf)])
      | None =>
          let want := closing start end_ (c_events (p_content p)) in
          if String.eqb tail want then Ok (p_content p)
          else Fail (invalid "closing line %.120q, want %s" [FStr tail; FStr want])
      end).

(** [slices.SortStableFunc] by position. *)
Fixpoint insert_event (e : RawEvent) (l : list RawEvent) : list RawEvent :=
  match l with
  | [] => [e]
  | x :: l' => if Less (Pos e) (Pos x) then e :: l else x :: insert_event e l'
  end.
Definition sort_events (l : list RawEvent) : list RawEvent := foldl (λ s e, insert_event e s) [] l.

Definition line_of (s : string) : string := s ++ String newline "".

(** The bytes [encode] writes for sorted events. *)
Definition render (events : list RawEvent) (start end_ : Z) : string :=
  String.concat "" (map line_of (map marshalLine events ++ [closing start end_ (Z.of_nat (length events))])).

(** [encode] *)
Definition encode (events : list RawEvent) (start end_ deploy : Z) (vaultID : string) (firstLeaf : Z)
    : option (res (string * Window)) :=
  let sorted := sort_events events in
  match sorted with
  | [] => Some (Ok ("", mkWindow start end_ 0 (firstLeaf, firstLeaf) 0 0 ""))
  | _ =>
      let data := render sorted start end_ in
      match parse data start end_ deploy vaultID firstLeaf with
      | None => None
      | Some (Fail err) => Some (Fail err)
      | Some (Ok c) =>
          Some (Ok (data, mkWindow start end_ (c_events c) (c_leaves c) (Z.of_nat (length (c_nullifiers c)))
                            (Z.of_nat (String.length data)) (fr.hex_encode (sha256 data))))
      end
  end.

(** [gunzip] *)
Definition gunzip (compressed : string) : res string :=
  match gzip_read compressed with
  | None => Fail (invalid "window is not gzip: %v" [FOther])
  | Some (data, over) =>
      _ ← fail_if (MaxWindowBytes <? Z.of_nat (String.length data)) (invalid "window expands past %d bytes" [FInt MaxWindowBytes]);
      _ ← fail_if (negb (over =? 0)) (invalid "window has %d bytes after its gzip member" [FInt over]);
      mret data
  end.

(** [maxCompressed] *)
Definition maxCompressed (w : Window) : Z := i64 (i64 (WBytes w + Z.quot (WBytes w) 64) + 4096).

(** [check] reads a window's file against its manifest entry. *)
Definition check (w : Window) (compressed : string) (deploy : Z) (vaultID : string) : option (res content) :=
  if maxCompressed w <? Z.of_nat (String.length compressed) then
    Some (Fail (invalid "window %d is a file of %d bytes, more than the %d its %d bytes of content allow"
      [FInt (Start w); FInt (Z.of_nat (String.length compressed)); FInt (maxCompressed w); FInt (WBytes w)]))
  else
    match gunzip compressed with
    | Fail err => Some (Fail (Wrapf err "window %d: %w" [FInt (Start w)]))
    | Ok data =>
        if negb (Z.of_nat (String.length data) =? WBytes w) then
          Some (Fail (invalid "window %d holds %d bytes, the manifest says %d"
            [FInt (Start w); FInt (Z.of_nat (String.length data)); FInt (WBytes w)]))
        else if negb (String.eqb (fr.hex_encode (sha256 data)) (SHA256 w)) then
          Some (Fail (invalid "window %d has another sha256 than the manifest" [FInt (Start w)]))
        else
          r ← parse data (Start w) (End_ w) deploy vaultID (Leaves w).1;
          Some (match r with
          | Fail err => Fail (Wrapf err "window %d: %w" [FInt (Start w)])
          | Ok c =>
              if negb (c_events c =? WEvents w) || negb (bool_decide (c_leaves c = Leaves w)) ||
                 negb (Z.of_nat (length (c_nullifiers c)) =? WNullifiers w) then
                Fail (invalid "window %d holds %d events, %d to %d leaves and %d nullifiers, the manifest says %d, %d to %d and %d"
                  [FInt (Start w); FInt (c_events c); FInt (c_leaves c).1; FInt (c_leaves c).2;
                   FInt (Z.of_nat (length (c_nullifiers c))); FInt (WEvents w); FInt (Leaves w).1; FInt (Leaves w).2;
                   FInt (WNullifiers w)])
              else Ok c
          end)
    end.

End window.

(** ** The contents of an archive *)

(** [Fetcher.Get] of a file: its bytes, that it does not exist, or another error. *)
Inductive Fetched : Type := Found (data : string) | NotExist | FetchFailed (err : gerr).

(** [fmt.Sprintf("%010d", n)] *)
Definition pad10 (n : Z) : string :=
  let s := pretty n in String.string_of_list_ascii (replicate (10 - String.length s) "0"%char) ++ s.

(** [Window.File] *)
Definition File (w : Window) : string := "windows/" ++ pad10 (Start w) ++ ".jsonl.gz".

Record Contents : Type := mkContents {
  CManifest : Manifest; Commitments : list fr.Element; Nullifiers : list fr.Element }.

Section contents.
Context {sdk : StellarSDK} {codec : Codec}.

(** The loop over a window's nullifiers. *)
Fixpoint spend_all (w : Window) (spent : gset fr.Element) (nfs : list fr.Element) : res (gset fr.Element) :=
  match nfs with
  | [] => Ok spent
  | nf :: nfs =>
      if bool_decide (nf ∈ spent) then
        Fail (invalid "window %d: nullifier %s is spent twice" [FInt (Start w); FStr (fr.Hex nf)])
      else spend_all w ({[nf]} ∪ spent) nfs
  end.

(** The loop of [loadWindows]. *)
Fixpoint load_windows (get : string → Fetched) (m : Manifest) (ws : list Window)
    (st : list fr.Element * list fr.Element * gset fr.Element) : option (res (list fr.Element * list fr.Element)) :=
  let '(cs, nfs, spent) := st in
  match ws with
  | [] => Some (Ok (cs, nfs))
  | w :: ws =>
      if WEvents w =? 0 then load_windows get m ws st
      else
        match get (File w) with
        | NotExist => Some (Fail (invalid "window %d is in the manifest but has no file" [FInt (Start w)]))
        | FetchFailed err => Some (Fail (Wrapf err "window %d: %w" [FInt (Start w)]))
        | Found compressed =>
            match check w compressed (DeployLedger m) (MVault m) with
            | None => None
            | Some (Fail err) => Some (Fail err)
            | Some (Ok c) =>
                match spend_all w spent (c_nullifiers c) with
                | Fail err => Some (Fail err)
                | Ok spent => load_windows get m ws (cs ++ c_commitments c, nfs ++ c_nullifiers c, spent)
                end
            end
        end
  end.

(** [loadWindows] *)
Definition loadWindows (get : string → Fetched) (m : Manifest) : option (res Contents) :=
  match load_windows get m (Windows m) ([], [], ∅) with
  | None => None
  | Some (Fail err) => Some (Fail err)
  | Some (Ok (cs, nfs)) => Some (Ok (mkContents m cs nfs))
  end.

(** * Specification *)

(** The body of an event that decodes. *)
Definition body (e : RawEvent) : option Body := match Decode e with Ok d => Some (EBody d) | Fail _ => None end.

(** The nullifiers and the leaves of events, in order. *)
Definition nullifiers_of (evs : list RawEvent) : list fr.Element :=
  omap (λ e, match body e with Some (BNewNullifier x) => Some (NN_Nullifier x) | _ => None end) evs.

Definition leaf_of (e : RawEvent) : option (RawEvent * NewCommitment) :=
  match body e with Some (BNewCommitment x) => Some (e, x) | _ => None end.

Definition leaves_of (evs : list RawEvent) : list (RawEvent * NewCommitment) := omap leaf_of evs.

Definition commitments_of (evs : list RawEvent) : list fr.Element :=
  map (λ l, NC_Commitment l.2) (leaves_of evs).

Definition before (a b : RawEvent) : Prop := Less (Pos a) (Pos b) = true.

(** An event a window may hold. *)
Definition admissible (start end_ deploy : Z) (vaultID : string) (e : RawEvent) : Prop :=
  Contract e = vaultID ∧ Valid e = None ∧ ClosedAt e <= maxExactInteger ∧ start <= Ledger e <= end_ ∧
  deploy <= Ledger e ∧ forallb canonicalXDR (Value e :: Topics e) = true ∧ is_Some (body e).

(** The leaves follow one another from [first], and those of a pair are of one transaction. *)
Definition leaves_follow (first : Z) (lv : list (RawEvent * NewCommitment)) : Prop :=
  (∀ k l, lv !! k = Some l → NC_Index l.2 = first + Z.of_nat k ∧ NC_Index l.2 < tree.Capacity) ∧
  ∀ k a b, lv !! (2 * k)%nat = Some a → lv !! (2 * k + 1)%nat = Some b →
    Ledger a.1 = Ledger b.1 ∧ Tx a.1 = Tx b.1.

(** What the events of a window must be. *)
Record window_ok (start end_ deploy : Z) (vaultID : string) (first : Z) (evs : list RawEvent) : Prop := {
  wo_events : Forall (admissible start end_ deploy vaultID) evs;
  wo_order : StronglySorted before evs;
  wo_nullifiers : NoDup (nullifiers_of evs);
  wo_leaves : leaves_follow first (leaves_of evs) }.

(** An event that a reader reads back from its line. *)
Definition canonical (e : RawEvent) : Prop := decode_line (marshalLine e) = Some e.

Definition short (line : string) : Prop := Z.of_nat (String.length line) < MaxLineBytes.

(** The lines of events and a last one. *)
Definition text (evs : list RawEvent) (tail : string) : string :=
  String.concat "" (map line_of (map marshalLine evs ++ [tail])).

(** The leaves come in pairs. *)
Definition pairs (evs : list RawEvent) : Prop := (length (leaves_of evs) mod 2 = 0)%nat.

(** The events a window can be written with: a window's, in pairs, each its own line, within the limits. *)
Record writable (start end_ deploy : Z) (vaultID : string) (first : Z) (evs : list RawEvent) : Prop := {
  wr_ok : window_ok start end_ deploy vaultID first evs;
  wr_pairs : pairs evs;
  wr_canonical : Forall canonical evs;
  wr_short : Forall (λ e, short (marshalLine e)) evs;
  wr_closing : short (closing start end_ (Z.of_nat (length evs)));
  wr_size : Z.of_nat (String.length (render evs start end_)) <= MaxWindowBytes }.

(** What they add up to. *)
Definition summary (first : Z) (evs : list RawEvent) : content :=
  mkContent (Z.of_nat (length evs)) (first, first + Z.of_nat (length (leaves_of evs)))
    (commitments_of evs) (nullifiers_of evs).

(** * Lemmas *)

(** ** Lines *)

Lemma cut_line_Some data line rest : cut_line data = Some (line, rest) →
  data = (line ++ String newline rest)%string ∧ (String.length rest < String.length data)%nat.
Proof.
  revert line rest. induction data as [|c data IH]; intros line rest H; [done|]. cbn [cut_line] in H.
  destruct (Ascii.eqb_spec c newline) as [->|Hc].
  - injection H as <- <-. split; [done|]. cbn. lia.
  - destruct (cut_line data) as [[l r]|]; cbn [mbind option_bind] in H; [|done]. injection H as <- <-.
    destruct (IH l r eq_refl) as [-> Hl]. split; [done|]. cbn in *. lia.
Qed.

Lemma str_app_assoc (s t u : string) : String.append (String.append s t) u = String.append s (String.append t u).
Proof. induction s as [|c s IH]; [reflexivity|]. exact (f_equal (String c) IH). Qed.

Lemma str_app_nil (s : string) : String.append s "" = s.
Proof. induction s as [|c s IH]; [reflexivity|]. exact (f_equal (String c) IH). Qed.

Lemma concat_cons (s : string) (ls : list string) : String.concat "" (s :: ls) = String.append s (String.concat "" ls).
Proof. destruct ls as [|l ls]; [|done]. cbn. by rewrite str_app_nil. Qed.

Lemma concat_lines (l : string) (ls : list string) :
  String.concat "" (map line_of (l :: ls)) = (l ++ String newline (String.concat "" (map line_of ls)))%string.
Proof. cbn [map]. rewrite concat_cons. unfold line_of at 1. by rewrite str_app_assoc. Qed.

(** ** Lines hold no newline *)

Definition clean_chars (s : list Ascii.ascii) : Prop := Forall (λ c, c ≠ newline) s.
Definition clean (s : string) : Prop := clean_chars (String.list_ascii_of_string s).

Lemma list_ascii_app (s t : string) : String.list_ascii_of_string (String.append s t) =
  String.list_ascii_of_string s ++ String.list_ascii_of_string t.
Proof. induction s as [|c s IH]; [reflexivity|]. exact (f_equal (cons c) IH). Qed.

Lemma clean_app s t : clean s → clean t → clean (String.append s t).
Proof. unfold clean, clean_chars. rewrite list_ascii_app. apply Forall_app_2. Qed.

Lemma clean_cons c s : c ≠ newline → clean s → clean (String c s).
Proof. intros Hc Hs. by constructor. Qed.

(** Closed strings. *)
Lemma clean_chars_forallb s : forallb (λ c, negb (Ascii.eqb c newline)) s = true → clean_chars s.
Proof.
  unfold clean_chars. rewrite forallb_forall, Forall_forall. intros H c Hc%list_elem_of_In ->.
  by apply H in Hc.
Qed.

Lemma clean_forallb s : forallb (λ c, negb (Ascii.eqb c newline)) (String.list_ascii_of_string s) = true → clean s.
Proof. apply clean_chars_forallb. Qed.

Lemma clean_concat sep ls : clean sep → Forall clean ls → clean (String.concat sep ls).
Proof.
  intros Hs. induction 1 as [|l ls Hl Hls IH]; [by constructor|].
  destruct ls as [|l' ls]; [done|]. cbn [String.concat]. repeat apply clean_app; done.
Qed.

Lemma cut_line_append s rest : clean s → cut_line (String.append s (String newline rest)) = Some (s, rest).
Proof.
  induction s as [|c s IH]; intros Hc; [reflexivity|]. apply Forall_cons_1 in Hc as [Hc Hs].
  change (cut_line (String c (String.append s (String newline rest))) = Some (String c s, rest)). cbn [cut_line].
  destruct (Ascii.eqb_spec c newline); [done|]. by rewrite (IH Hs).
Qed.

Lemma pretty_char_clean n : pretty_N_char n ≠ newline.
Proof. unfold pretty_N_char. by repeat case_match. Qed.

Lemma pretty_go_clean x s : clean s → clean (pretty_N_go x s).
Proof.
  revert s. induction (N.lt_wf_0 x) as [x _ IH]. intros s Hs.
  destruct (decide (x = 0)%N) as [->|Hx]; [by rewrite pretty_N_go_0|].
  rewrite pretty_N_go_step by lia. apply IH; [apply N.div_lt; [lia|done]|].
  apply clean_cons; [apply pretty_char_clean|done].
Qed.

Lemma pretty_clean (z : Z) : clean (pretty z).
Proof.
  assert (∀ x : N, clean (pretty x)) as Hn.
  { intros x. unfold pretty, pretty_N. case_decide; [by apply clean_forallb|]. by apply pretty_go_clean, clean_forallb. }
  destruct z as [|q|q]; [by apply clean_forallb|apply Hn|]. apply clean_app; [by apply clean_forallb|apply Hn].
Qed.

Lemma within_clean lo hi c : within lo hi c = true → (11 <= lo)%nat → c ≠ newline.
Proof.
  unfold within. intros [Hlo _]%andb_true_iff Hl ->. apply Nat.leb_le in Hlo.
  change (Ascii.nat_of_ascii newline) with 10%nat in Hlo. lia.
Qed.

Lemma escape_clean c : clean_chars (escape c).
Proof. apply clean_chars_forallb. by destruct c as [[] [] [] [] [] [] [] []]. Qed.

(** The bytes after the first of a rune are above ASCII. *)
Lemma cont_clean d : within 128 191 d = true → d ≠ newline.
Proof. intros H. apply (within_clean _ _ _ H). apply Nat.leb_le. reflexivity. Qed.

Lemma rune_clean c rest : clean_chars (take (rune_length c rest - 1) rest).
Proof.
  unfold rune_length. destruct rest as [|c1 rest]; [constructor|].
  destruct (within 194 223 c && within 128 191 c1) eqn:E1.
  { apply andb_true_iff in E1 as [_ E1]. constructor; [by apply cont_clean|constructor]. }
  destruct rest as [|c2 rest]; [constructor|].
  match goal with |- context [if ?b then 3%nat else _] => destruct b eqn:E2 end.
  { rewrite !andb_true_iff, !orb_true_iff, !andb_true_iff in E2. destruct E2 as [E2 E3].
    constructor; [|constructor; [by apply cont_clean|constructor]].
    destruct E2 as [[[[_ H]|[_ H]]|[_ H]]|[_ H]]; apply (within_clean _ _ _ H); lia. }
  destruct rest as [|c3 rest]; [constructor|].
  match goal with |- context [if ?b then 4%nat else _] => destruct b eqn:E3; [|constructor] end.
  rewrite !andb_true_iff, !orb_true_iff, !andb_true_iff in E3. destruct E3 as [[E3 H2] H3].
  constructor; [|constructor; [by apply cont_clean|constructor; [by apply cont_clean|constructor]]].
  destruct E3 as [[[_ H]|[_ H]]|[_ H]]; apply (within_clean _ _ _ H); lia.
Qed.

Lemma above_clean c : (Ascii.nat_of_ascii c <? 128)%nat = false → c ≠ newline.
Proof. by intros H ->. Qed.

Lemma separator_digit c c1 c2 : separator c c1 c2 = true → hex_digit (Ascii.nat_of_ascii c2 - 160) ≠ newline.
Proof. destruct c2 as [[] [] [] [] [] [] [] []]; try done; unfold separator; cbn; by rewrite andb_false_r. Qed.

(** Four bytes at a time at most, a string is escaped to no newline. *)
Lemma json_chars_clean n : ∀ s, (length s <= n)%nat → clean_chars (json_chars s).
Proof.
  assert (∀ l : list Ascii.ascii, forallb (λ c, negb (Ascii.eqb c newline)) l = true → clean_chars l) as Hc
    by exact clean_chars_forallb.
  induction n as [|n IH]; intros [|c s1] Hn; cbn [length] in Hn; [constructor|lia|constructor|]. cbn [json_chars].
  destruct (Ascii.nat_of_ascii c <? 128)%nat eqn:E; [apply Forall_app_2; [apply escape_clean|apply IH; lia]|].
  apply above_clean in E. pose proof (rune_clean c s1) as Hr.
  assert (clean_chars (backslash :: ["u"; "f"; "f"; "f"; "d"]%char ++ json_chars s1)) as Hd.
  { apply (Forall_app_2 _ (backslash :: ["u"; "f"; "f"; "f"; "d"]%char)); [by apply Hc|apply IH; lia]. }
  destruct (rune_length c s1) as [|[|[|[|[|k]]]]]; cbn [Nat.sub take] in Hr; try exact Hd.
  - destruct s1 as [|c1 s2]; [done|]. apply Forall_cons_1 in Hr as [H1 _]. cbn [length] in Hn.
    repeat constructor; [done..|apply IH; lia].
  - destruct s1 as [|c1 [|c2 s3]]; [done..|]. apply Forall_cons_1 in Hr as [H1 [H2 _]%Forall_cons_1]. cbn [length] in Hn.
    apply Forall_app_2; [|apply IH; lia].
    destruct (separator c c1 c2) eqn:Es; repeat constructor; try done. by apply (separator_digit _ _ _ Es).
  - destruct s1 as [|c1 [|c2 [|c3 s4]]]; [done..|]. cbn [length] in Hn.
    apply Forall_cons_1 in Hr as [H1 [H2 [H3 _]%Forall_cons_1]%Forall_cons_1]. repeat constructor; [done..|apply IH; lia].
Qed.

Lemma json_string_clean s : clean (json_string s).
Proof.
  apply clean_cons; [done|]. apply clean_app; [|by apply clean_forallb].
  unfold clean. rewrite String.list_ascii_of_string_of_list_ascii. by apply (json_chars_clean _ _ (le_n _)).
Qed.

Lemma json_field_clean name value : clean value → clean (json_field name value).
Proof. intros H. apply clean_app; [apply json_string_clean|]. by apply clean_app; [apply clean_forallb|]. Qed.

Lemma bracket_clean o c items : clean o → clean c → Forall clean items →
  clean (String.append o (String.append (String.concat "," items) c)).
Proof. intros Ho Hc Hi. apply clean_app; [done|]. apply clean_app; [|done]. apply clean_concat; [by apply clean_forallb|done]. Qed.

Lemma json_array_clean items : Forall clean items → clean (json_array items).
Proof. apply bracket_clean; by apply clean_forallb. Qed.

Lemma json_object_clean items : Forall clean items → clean (json_object items).
Proof. apply bracket_clean; by apply clean_forallb. Qed.

Create HintDb clean.
#[local] Hint Resolve pretty_clean json_string_clean json_array_clean json_field_clean Forall_nil_2 Forall_cons_2 : clean.
#[local] Hint Constants Opaque : clean.

Lemma strings_clean ls : Forall clean (map json_string ls).
Proof. apply Forall_map, Forall_true. apply json_string_clean. Qed.
#[local] Hint Resolve strings_clean : clean.

Lemma marshalLine_clean e : clean (marshalLine e).
Proof. apply json_object_clean. auto 20 with clean. Qed.

Lemma closing_clean start end_ n : clean (closing start end_ n).
Proof. apply json_object_clean. auto 20 with clean. Qed.

(** ** What a reader has read *)

Lemma before_irrefl e : ¬ before e e.
Proof. unfold before. rewrite Less_spec. lia. Qed.

Lemma before_asym a b : before a b → ¬ before b a.
Proof. unfold before. rewrite !Less_spec. lia. Qed.

#[local] Instance before_order : Transitive before.
Proof. intros a b c. apply Less_trans. Qed.

(** A list whose last element comes before another is followed by it. *)
Lemma sorted_snoc evs e : StronglySorted before evs →
  (∀ l, last evs = Some l → before l e) → StronglySorted before (evs ++ [e]).
Proof.
  intros Hs Hl. apply StronglySorted_app. split; [|split; [done|by repeat constructor]].
  intros x y Hx ->%list_elem_of_singleton.
  destruct evs as [|z evs _] using rev_ind; [by apply not_elem_of_nil in Hx|].
  rewrite last_snoc in Hl. specialize (Hl z eq_refl).
  apply elem_of_app in Hx as [Hx| ->%list_elem_of_singleton]; [|done].
  transitivity z; [|done]. eapply StronglySorted_app_1_elem_of; [exact Hs|done|by apply list_elem_of_singleton].
Qed.

Lemma nullifiers_app evs more : nullifiers_of (evs ++ more) = nullifiers_of evs ++ nullifiers_of more.
Proof. apply omap_app. Qed.

Lemma leaves_app evs more : leaves_of (evs ++ more) = leaves_of evs ++ leaves_of more.
Proof. apply omap_app. Qed.

Lemma nullifiers_snoc evs e : nullifiers_of (evs ++ [e]) =
  nullifiers_of evs ++ match body e with Some (BNewNullifier x) => [NN_Nullifier x] | _ => [] end.
Proof. rewrite nullifiers_app. cbn. by destruct (body e) as [[]|]. Qed.

Lemma leaves_snoc evs e : leaves_of (evs ++ [e]) =
  leaves_of evs ++ match body e with Some (BNewCommitment x) => [(e, x)] | _ => [] end.
Proof. rewrite leaves_app. unfold leaves_of at 2, leaf_of. cbn. by destruct (body e) as [[]|]. Qed.

(** One more leaf follows when its index does and, on the right of a pair, its transaction is the left's. *)
Lemma leaves_follow_snoc first lv l : leaves_follow first lv →
  NC_Index l.2 = first + Z.of_nat (length lv) → NC_Index l.2 < tree.Capacity →
  (∀ k a, length lv = (2 * k + 1)%nat → lv !! (2 * k)%nat = Some a → Ledger a.1 = Ledger l.1 ∧ Tx a.1 = Tx l.1) →
  leaves_follow first (lv ++ [l]).
Proof.
  intros [Hi Hp] Hidx Hcap Hpair. split.
  - intros k x [Hk|[Hk Hx]]%lookup_app_Some; [by apply Hi|].
    destruct (k - length lv)%nat as [|n] eqn:E; [|done]. injection Hx as <-. split; [|done].
    rewrite Hidx. do 2 f_equal. lia.
  - intros k x y Hx [Hy|[Hy Hz]]%lookup_app_Some.
    + apply (Hp k); [|done]. rewrite lookup_app_l in Hx; [done|]. apply lookup_lt_Some in Hy. lia.
    + destruct (2 * k + 1 - length lv)%nat as [|n] eqn:E; [|done]. injection Hz as <-.
      assert (length lv = 2 * k + 1)%nat as Hl by lia.
      rewrite lookup_app_l in Hx by lia. by apply (Hpair k).
Qed.

Section reading.
Variables (start end_ deploy : Z) (vaultID : string) (first : Z).

(** The parser's variables say what the events read so far are: they are a window's, except that the
    left leaf of an open pair is not yet among the commitments. *)
Record reads (evs : list RawEvent) (p : parser) : Prop := {
  r_ok : window_ok start end_ deploy vaultID first evs;
  r_events : c_events (p_content p) = Z.of_nat (length evs);
  r_leaves : c_leaves (p_content p) = (first, first + Z.of_nat (length (leaves_of evs)));
  r_nullifiers : c_nullifiers (p_content p) = nullifiers_of evs;
  r_spent : p_spent p = list_to_set (nullifiers_of evs);
  r_last : p_last p = last evs;
  r_pairs : match p_left p with
    | None => (length (leaves_of evs) mod 2 = 0)%nat ∧ c_commitments (p_content p) = commitments_of evs
    | Some x => ∃ lv e, leaves_of evs = lv ++ [(e, x)] ∧ p_leftAt p = Pos e ∧ (length lv mod 2 = 0)%nat ∧
        c_commitments (p_content p) = map (λ l, NC_Commitment l.2) lv
    end }.

Hypothesis first_even : first mod 2 = 0.
Hypothesis first_u64 : is_u64 first.

Lemma reads_start : reads [] (start_parser first).
Proof.
  split; cbn; try done; [|by rewrite Z.add_0_r].
  split; [constructor|constructor|constructor|]. unfold leaves_follow. cbn. split; intros k *; by rewrite lookup_nil.
Qed.

(** The parts of [window_ok] that an event adds by being admissible and in order. *)
Lemma window_ok_snoc evs e : window_ok start end_ deploy vaultID first evs →
  admissible start end_ deploy vaultID e → (∀ l, last evs = Some l → before l e) →
  NoDup (nullifiers_of (evs ++ [e])) → leaves_follow first (leaves_of (evs ++ [e])) →
  window_ok start end_ deploy vaultID first (evs ++ [e]).
Proof.
  intros [He Ho _ _] Ha Hl Hn Hf. split; [apply Forall_app; auto|by apply sorted_snoc|done|done].
Qed.

(** What [take_body] finds in the parser after [take_line] has counted the event. *)
Definition counted (e : RawEvent) (p : parser) : parser :=
  let c := p_content p in
  mkParser (mkContent (c_events c + 1) (c_leaves c) (c_commitments c) (c_nullifiers c)) (Some e)
    (p_left p) (p_leftAt p) (p_spent p).

(** The outcome of taking an event: it reads on, or the events are no window's. It never panics. *)
Definition took (evs : list RawEvent) (e : RawEvent) (r : option (res parser)) : Prop :=
  match r with
  | None => False
  | Some (Fail _) => ¬ window_ok start end_ deploy vaultID first (evs ++ [e])
  | Some (Ok p) => reads (evs ++ [e]) p
  end.

(** An event that is neither a nullifier nor a leaf only counts. *)
Lemma reads_other evs e p : reads evs p → admissible start end_ deploy vaultID e →
  (∀ l, last evs = Some l → before l e) →
  nullifiers_of (evs ++ [e]) = nullifiers_of evs → leaves_of (evs ++ [e]) = leaves_of evs →
  reads (evs ++ [e]) (counted e p).
Proof.
  intros [Hok He Hl Hn Hs Hla Hp] Ha Hb En El. split; cbn; unfold commitments_of; rewrite ?En, ?El; try done.
  - apply window_ok_snoc; rewrite ?En, ?El; [done..|apply Hok|apply Hok].
  - rewrite He, length_app. cbn. lia.
  - by rewrite last_snoc.
Qed.

Lemma reads_nullifier evs e x n p : reads evs p → admissible start end_ deploy vaultID e →
  (∀ l, last evs = Some l → before l e) → body e = Some (BNewNullifier x) →
  took evs e (take_body n e (BNewNullifier x) (counted e p)).
Proof.
  unfold took. intros [Hok He Hl Hn Hs Hla Hp] Ha Hb Hx. cbn [take_body counted p_spent]. rewrite Hs.
  pose proof (nullifiers_snoc evs e) as En. rewrite Hx in En.
  pose proof (leaves_snoc evs e) as El. rewrite Hx, app_nil_r in El.
  case_bool_decide as Hin; rewrite elem_of_list_to_set in Hin.
  - intros [_ _ Hd _]. rewrite En, NoDup_app in Hd. destruct Hd as (_ & Hd & _).
    apply (Hd _ Hin). by apply list_elem_of_singleton.
  - split; cbn; unfold commitments_of; rewrite ?En, ?El; try done.
    + apply window_ok_snoc; rewrite ?En, ?El; [done..| |apply Hok].
      apply NoDup_app. split; [apply Hok|]. split; [|by apply NoDup_singleton].
      by intros y Hy ->%list_elem_of_singleton.
    + rewrite He, length_app. cbn. lia.
    + by rewrite Hn.
    + rewrite list_to_set_app_L. cbn. set_solver.
    + by rewrite last_snoc.
Qed.

(** The next leaf's place decides which of a pair it is. *)
Lemma leaf_parity (n : nat) : (first + Z.of_nat n) mod 2 = Z.of_nat (n mod 2).
Proof. rewrite Nat2Z.inj_mod, Z.add_mod, first_even, Z.add_0_l, Z.mod_mod by done. done. Qed.

Lemma even_next (n : nat) : (n mod 2 = 0 → (n + 1) mod 2 = 1)%nat.
Proof. intros H. by rewrite Nat.Div0.add_mod, H. Qed.

Lemma next_leaf evs : leaves_follow first (leaves_of evs) → length (leaves_of evs) ≠ 0%nat →
  first + Z.of_nat (length (leaves_of evs)) <= tree.Capacity.
Proof.
  intros [Hi _] Hn. destruct (lookup_lt_is_Some_2 (leaves_of evs) (length (leaves_of evs) - 1)) as [l Hl]; [lia|].
  apply Hi in Hl. lia.
Qed.

Lemma reads_left evs e x p : reads evs p → admissible start end_ deploy vaultID e →
  (∀ l, last evs = Some l → before l e) → body e = Some (BNewCommitment x) →
  NC_Index x < tree.Capacity → NC_Index x = first + Z.of_nat (length (leaves_of evs)) → NC_Index x mod 2 = 0 →
  let c := p_content p in
  reads (evs ++ [e])
    (mkParser (mkContent (c_events c + 1) (first, NC_Index x + 1) (c_commitments c) (c_nullifiers c))
       (Some e) (Some x) (Pos e) (p_spent p)).
Proof.
  intros [Hok He Hl Hn Hs Hla Hp] Ha Hb Hx Hcap Hidx Hev c.
  pose proof (nullifiers_snoc evs e) as En. rewrite Hx, app_nil_r in En.
  pose proof (leaves_snoc evs e) as El. rewrite Hx in El.
  rewrite Hidx, leaf_parity in Hev.
  split; cbn; rewrite ?En, ?El, ?length_app, ?last_snoc; try done.
  - apply window_ok_snoc; rewrite ?En, ?El; [done..|apply Hok|]. apply leaves_follow_snoc; [apply Hok|done..|].
    intros k a Hk _. rewrite Hk in Hev. exfalso.
    rewrite (Nat.mul_comm 2), Nat.add_comm, Nat.Div0.mod_add in Hev. done.
  - cbn. unfold c. rewrite He. lia.
  - cbn. f_equal. lia.
  - exists (leaves_of evs), e. split; [done|]. split; [done|]. split; [by apply (Nat2Z.inj _ 0)|].
    destruct (p_left p) as [y|]; [|apply Hp]. destruct Hp as (lv & e' & Hlv & _ & Hpar & _).
    rewrite Hlv, length_app in Hev. change (length [_]) with 1%nat in Hev. by rewrite (even_next _ Hpar) in Hev.
Qed.

Lemma reads_right evs e x p : reads evs p → admissible start end_ deploy vaultID e →
  (∀ l, last evs = Some l → before l e) → body e = Some (BNewCommitment x) →
  NC_Index x < tree.Capacity → NC_Index x = first + Z.of_nat (length (leaves_of evs)) → NC_Index x mod 2 ≠ 0 →
  ∃ y, p_left p = Some y ∧
  if (PLedger (p_leftAt p) =? Ledger e) && (PTx (p_leftAt p) =? Tx e) then
    let c := p_content p in
    reads (evs ++ [e])
      (mkParser (mkContent (c_events c + 1) (first, NC_Index x + 1)
                   (c_commitments c ++ [NC_Commitment y; NC_Commitment x]) (c_nullifiers c))
         (Some e) None (p_leftAt p) (p_spent p))
  else ¬ window_ok start end_ deploy vaultID first (evs ++ [e]).
Proof.
  intros [Hok He Hl Hn Hs Hla Hp] Ha Hb Hx Hcap Hidx Hodd.
  pose proof (nullifiers_snoc evs e) as En. rewrite Hx, app_nil_r in En.
  pose proof (leaves_snoc evs e) as El. rewrite Hx in El.
  rewrite Hidx, leaf_parity in Hodd.
  destruct (p_left p) as [y|]; [|destruct Hp as [Hp _]; rewrite Hp in Hodd; done].
  exists y. split; [done|]. destruct Hp as (lv & e' & Hlv & Hat & Hpar & Hc).
  assert (∃ k, length lv = 2 * k)%nat as [k Hk].
  { apply Nat.Div0.mod_divides in Hpar as [k ->]. by exists k. }
  assert ((leaves_of (evs ++ [e])) !! (2 * k)%nat = Some (e', y)) as Hy.
  { rewrite El, Hlv, <- app_assoc, <- Hk. by apply list_lookup_middle. }
  assert ((leaves_of (evs ++ [e])) !! (2 * k + 1)%nat = Some (e, x)) as Hz.
  { rewrite El. apply list_lookup_middle. rewrite Hlv, length_app. cbn. lia. }
  rewrite Hat. cbn [PLedger PTx Pos].
  destruct (Z.eqb_spec (Ledger e') (Ledger e)) as [E1|E1], (Z.eqb_spec (Tx e') (Tx e)) as [E2|E2]; cbn [andb].
  2-4: intros [_ _ _ [_ Hpair]]; destruct (Hpair k _ _ Hy Hz); done.
  split; cbn -[Nat.modulo]; rewrite ?En, ?last_snoc; try done.
  - apply window_ok_snoc; rewrite ?En; [done..|apply Hok|]. rewrite El. apply leaves_follow_snoc; [apply Hok|done..|].
    intros j a Hj Ha'. rewrite El, lookup_app_l in Hy by (rewrite Hlv, length_app; cbn; lia).
    assert (j = k) as -> by (rewrite Hlv, length_app in Hj; cbn in Hj; lia). rewrite Hy in Ha'. by injection Ha' as <-.
  - rewrite He, length_app. cbn. lia.
  - rewrite El, length_app. cbn. f_equal. lia.
  - unfold commitments_of. rewrite El, Hlv, !length_app, !map_app, Hc, <- app_assoc. split; [|done].
    change (length [_]) with 1%nat. by rewrite <- Nat.add_assoc, Nat.Div0.add_mod, Hpar.
Qed.

Lemma reads_commitment evs e x n p : reads evs p → admissible start end_ deploy vaultID e →
  (∀ l, last evs = Some l → before l e) → body e = Some (BNewCommitment x) →
  took evs e (take_body n e (BNewCommitment x) (counted e p)).
Proof.
  intros Hr Ha Hb Hx. pose proof (r_leaves _ _ Hr) as Hl.
  assert (∀ l, leaves_follow first (leaves_of (evs ++ [e])) → l = length (leaves_of evs) →
            NC_Index x = first + Z.of_nat l ∧ NC_Index x < tree.Capacity) as Hnext.
  { intros l [Hi _] ->. apply (Hi _ (e, x)). rewrite (leaves_snoc evs e), Hx. by apply list_lookup_middle. }
  cbn [take_body counted p_content c_leaves p_leftAt p_left]. rewrite Hl. cbn [fst snd].
  destruct (Z.leb_spec tree.Capacity (NC_Index x)) as [Hc|Hc].
  { intros [_ _ _ Hf]. destruct (Hnext _ Hf eq_refl). lia. }
  destruct (Z.eqb_spec (NC_Index x) (first + Z.of_nat (length (leaves_of evs)))) as [Hi|Hi]; cbn [negb].
  2: { intros [_ _ _ Hf]. by destruct (Hnext _ Hf eq_refl). }
  rewrite <- Hi, u64_small.
  2: { rewrite tree.Capacity_eq in Hc. unfold is_u64, W64 in *. lia. }
  destruct (Z.eqb_spec (NC_Index x mod 2) 0) as [Hm|Hm]; [exact (reads_left _ _ _ _ Hr Ha Hb Hx Hc Hi Hm)|].
  destruct (reads_right _ _ _ _ Hr Ha Hb Hx Hc Hi Hm) as (y & -> & Hy).
  destruct (PLedger (p_leftAt p) =? Ledger e), (PTx (p_leftAt p) =? Tx e); cbn [negb orb andb took mbind option_bind] in *;
    exact Hy.
Qed.

(** [take_body] on any body. *)
Lemma reads_body evs e b n p : reads evs p → admissible start end_ deploy vaultID e →
  (∀ l, last evs = Some l → before l e) → body e = Some b → took evs e (take_body n e b (counted e p)).
Proof.
  intros Hr Ha Hb Hx. destruct b; try (apply reads_other; [done..| |]; [rewrite nullifiers_snoc|rewrite leaves_snoc];
    rewrite Hx; apply app_nil_r).
  - by apply reads_commitment.
  - by apply reads_nullifier.
Qed.

(** What [parseEvent] accepts: the line is the event's own. *)
Lemma parseEvent_Ok line n e : parseEvent line n vaultID = Ok e ↔
  decode_line line = Some e ∧ marshalLine e = line ∧ Contract e = vaultID ∧ Valid e = None ∧
  ClosedAt e <= maxExactInteger ∧ forallb canonicalXDR (Value e :: Topics e) = true.
Proof.
  unfold parseEvent. destruct (decode_line line) as [e'|]; [|naive_solver].
  split.
  - intros (? & H1%fail_if_Ok & (? & H2%fail_if_Ok & (? & H3 & (? & H4%fail_if_Ok & (? & H5%fail_if_Ok & H6)%bind_Ok)%bind_Ok)%bind_Ok)%bind_Ok)%bind_Ok.
    injection H6 as ->. apply negb_false_iff, String.eqb_eq in H1, H2. apply negb_false_iff in H5.
    destruct (Valid e); [done|]. repeat split; try done. lia.
  - intros ([= ->] & -> & -> & -> & H4 & H5). rewrite !String.eqb_refl, H5. cbn.
    destruct (Z.ltb_spec maxExactInteger (ClosedAt e)); [lia|done].
Qed.

(** The body of an event is there when it decodes. *)
Lemma body_Ok e d : Decode e = Ok d → body e = Some (EBody d).
Proof. unfold body. by intros ->. Qed.

Lemma body_Fail e err : Decode e = Fail err → body e = None.
Proof. unfold body. by intros ->. Qed.

Lemma take_line_reads evs line n p : reads evs p →
  match take_line start end_ deploy vaultID n line p with
  | None => False
  | Some (Fail _) => ∀ e, line = marshalLine e → canonical e →
      ¬ window_ok start end_ deploy vaultID first (evs ++ [e])
  | Some (Ok p') => ∃ e, line = marshalLine e ∧ canonical e ∧ reads (evs ++ [e]) p'
  end.
Proof.
  intros Hr. unfold take_line.
  assert (∀ e', window_ok start end_ deploy vaultID first (evs ++ [e']) →
    admissible start end_ deploy vaultID e' ∧ ∀ l, last evs = Some l → before l e') as Hw.
  { intros e' [He Ho _ _]. apply Forall_app in He as [_ He]. apply Forall_cons_1 in He as [He _]. split; [exact He|].
    intros l Hl. apply last_Some in Hl as [l' ->].
    eapply StronglySorted_app_1_elem_of; [exact Ho| |by apply list_elem_of_singleton].
    apply elem_of_app. right. by apply list_elem_of_singleton. }
  destruct (parseEvent line n vaultID) as [e|err] eqn:E.
  2: { intros e -> Hc Hok. apply Hw in Hok as [(H1 & H2 & H3 & _ & _ & H4 & _) _].
       assert (parseEvent (marshalLine e) n vaultID = Ok e) as E'; [|by rewrite E' in E]. by apply parseEvent_Ok. }
  apply parseEvent_Ok in E as (Hd & <- & Hc & Hv & Hcl & Hx).
  assert (∀ e', marshalLine e = marshalLine e' → canonical e' → e' = e) as Hu.
  { intros e' Heq Hc'. unfold canonical in Hc'. rewrite <- Heq, Hd in Hc'. by injection Hc'. }
  rewrite (r_last _ _ Hr).
  destruct (Z.ltb_spec (Ledger e) start), (Z.ltb_spec end_ (Ledger e)); cbn [orb].
  1-3: intros e' Heq Hc' [Ha _]%Hw; rewrite (Hu _ Heq Hc') in Ha; unfold admissible in Ha; lia.
  destruct (Z.ltb_spec (Ledger e) deploy).
  { intros e' Heq Hc' [Ha _]%Hw; rewrite (Hu _ Heq Hc') in Ha; unfold admissible in Ha; lia. }
  destruct (match last evs with Some l => negb (Less (Pos l) (Pos e)) | None => false end) eqn:El.
  { intros e' Heq Hc' [_ Hl]%Hw. rewrite (Hu _ Heq Hc') in Hl. destruct (last evs) as [l|]; [|done].
    rewrite (Hl l eq_refl) in El. done. }
  destruct (Decode e) as [d|err] eqn:D.
  2: { intros e' Heq Hc' [Ha _]%Hw. rewrite (Hu _ Heq Hc') in Ha. destruct Ha as (_ & _ & _ & _ & _ & _ & Hb).
       rewrite (body_Fail _ _ D) in Hb. by destruct Hb. }
  assert (admissible start end_ deploy vaultID e) as Ha.
  { repeat split; try done. by rewrite (body_Ok _ _ D). }
  assert (∀ l, last evs = Some l → before l e) as Hl.
  { intros l El'. rewrite El' in El. by apply negb_false_iff in El. }
  pose proof (reads_body evs e (EBody d) n p Hr Ha Hl (body_Ok _ _ D)) as Ht. unfold counted in Ht.
  destruct (take_body n e (EBody d) _) as [[p'|err]|]; [by exists e| |done].
  intros e' Heq Hc'. by rewrite (Hu _ Heq Hc').
Qed.

(** ** The lines of a window *)

Lemma text_cons e evs tail : text (e :: evs) tail = String.append (marshalLine e) (String newline (text evs tail)).
Proof. apply (concat_lines (marshalLine e) (map marshalLine evs ++ [tail])). Qed.

Lemma text_nil tail : text [] tail = String.append tail (String newline "").
Proof. apply (concat_lines tail []). Qed.

Lemma text_not_nil evs tail : text evs tail ≠ "".
Proof.
  destruct evs as [|e evs]; [rewrite text_nil|rewrite text_cons].
  - by destruct tail.
  - by destruct (marshalLine e).
Qed.

(** The bytes are the lines of the events read and a last line. *)
Lemma parse_lines_reads fuel : ∀ data evs p n, (String.length data <= fuel)%nat → reads evs p →
  match parse_lines fuel start end_ deploy vaultID n data p with
  | None => False
  | Some (Fail _) => True
  | Some (Ok (p', tail)) => ∃ more, reads (evs ++ more) p' ∧ Forall canonical more ∧
      Forall (λ e, short (marshalLine e)) more ∧
      ((data = "" ∧ more = [] ∧ tail = "") ∨ (data = text more tail ∧ short tail))
  end.
Proof.
  induction fuel as [|fuel IH]; intros data evs p n Hf Hr.
  { destruct data; [|cbn in Hf; lia]. cbn. exists []. rewrite app_nil_r. split_and!; auto. }
  cbn [parse_lines]. destruct data as [|c data]; [exists []; rewrite app_nil_r; split_and!; auto|].
  destruct (cut_line (String c data)) as [[line rest]|] eqn:Ec; [|done].
  apply cut_line_Some in Ec as [Hd Hl]. rewrite Hd.
  destruct (Z.leb_spec MaxLineBytes (Z.of_nat (String.length line))) as [|Hs]; [done|].
  destruct rest as [|c' rest].
  { exists []. rewrite app_nil_r. split_and!; [done|constructor|constructor|]. right. split; [symmetry; apply text_nil|exact Hs]. }
  pose proof (take_line_reads _ line n _ Hr) as Ht.
  destruct (take_line _ _ _ _ n line p) as [[p1|err]|]; cbn [mbind option_bind]; [|done|done].
  destruct Ht as (e & -> & Hc & Hr1).
  specialize (IH (String c' rest) _ _ (n + 1) ltac:(lia) Hr1).
  destruct (parse_lines fuel _ _ _ _ (n + 1) (String c' rest) p1) as [[[p' tail]|err]|]; [|done|done].
  destruct IH as (more & Hm & Hcm & Hsm & [(? & _)|[Hx Ht]]); [done|].
  exists (e :: more). rewrite (cons_middle e evs more), app_assoc. split_and!; [done|by constructor|by constructor|].
  right. split; [|done]. by rewrite text_cons, <- Hx.
Qed.

(** A window's events but the last ones are a window's. *)
Lemma window_ok_prefix evs more : window_ok start end_ deploy vaultID first (evs ++ more) →
  window_ok start end_ deploy vaultID first evs.
Proof.
  intros [He Ho Hn Hl]. rewrite nullifiers_app in Hn. rewrite leaves_app in Hl. destruct Hl as [Hi Hp]. split.
  - by apply Forall_app in He as [He _].
  - by apply StronglySorted_app_1_l in Ho.
  - by apply NoDup_app in Hn as [Hn _].
  - split; [intros k l Hl; by apply Hi, lookup_app_l_Some|].
    intros k a b Ha Hb. apply (Hp k); by apply lookup_app_l_Some.
Qed.

Lemma take_line_complete evs e n p : reads evs p → canonical e →
  window_ok start end_ deploy vaultID first (evs ++ [e]) →
  ∃ p', take_line start end_ deploy vaultID n (marshalLine e) p = Some (Ok p') ∧ reads (evs ++ [e]) p'.
Proof.
  intros Hr Hc Hok. pose proof (take_line_reads _ (marshalLine e) n _ Hr) as Ht.
  destruct (take_line _ _ _ _ n (marshalLine e) p) as [[p'|err]|]; [|by destruct (Ht e eq_refl Hc)|done].
  destruct Ht as (e' & Heq & Hc' & Hr'). exists p'. split; [done|].
  unfold canonical in Hc, Hc'. rewrite Heq, Hc' in Hc. by injection Hc as <-.
Qed.

Lemma length_str_app s t : String.length (String.append s t) = (String.length s + String.length t)%nat.
Proof. induction s as [|c s IH]; [reflexivity|]. exact (f_equal S IH). Qed.

(** Every window's lines are read. *)
Lemma parse_lines_complete more : ∀ fuel evs p n tail,
  (String.length (text more tail) <= fuel)%nat → reads evs p →
  Forall canonical more → Forall (λ e, short (marshalLine e)) more → short tail → clean tail →
  window_ok start end_ deploy vaultID first (evs ++ more) →
  ∃ p', parse_lines fuel start end_ deploy vaultID n (text more tail) p = Some (Ok (p', tail)) ∧ reads (evs ++ more) p'.
Proof.
  induction more as [|e more IH]; intros fuel evs p n tail Hf Hr Hc Hs Ht Hcl Hok.
  - exists p. rewrite app_nil_r. split; [|done]. rewrite text_nil in *. rewrite length_str_app in Hf. cbn in Hf.
    destruct fuel as [|fuel]; [lia|]. cbn [parse_lines].
    rewrite cut_line_append by done. destruct (Z.leb_spec MaxLineBytes (Z.of_nat (String.length tail))); [unfold short in Ht; lia|].
    by destruct (String.append tail (String newline "")) eqn:E; [destruct tail|].
  - apply Forall_cons_1 in Hc as [Hce Hc]. apply Forall_cons_1 in Hs as [Hse Hs].
    rewrite (cons_middle e evs more), app_assoc in *.
    rewrite text_cons in *. rewrite length_str_app in Hf. cbn in Hf.
    destruct fuel as [|fuel]; [lia|]. cbn [parse_lines].
    rewrite cut_line_append by apply marshalLine_clean.
    destruct (Z.leb_spec MaxLineBytes (Z.of_nat (String.length (marshalLine e)))); [unfold short in Hse; lia|].
    destruct (take_line_complete evs e n p Hr Hce) as (p1 & -> & Hr1); [by apply window_ok_prefix in Hok|].
    cbn [mbind option_bind].
    destruct (IH fuel _ _ (n + 1) tail ltac:(lia) Hr1 Hc Hs Ht Hcl Hok) as (p' & Hp' & Hr').
    exists p'. split; [|done].
    destruct (text more tail) eqn:Et; [by apply text_not_nil in Et|]. rewrite <- Et in Hp' |- *.
    by destruct (String.append (marshalLine e) _) eqn:E; [destruct (marshalLine e)|].
Qed.

Lemma reads_done evs p : reads evs p → p_left p = None ↔ pairs evs.
Proof.
  intros Hr. pose proof (r_pairs _ _ Hr) as Hp. unfold pairs. destruct (p_left p) as [x|]; [|tauto].
  destruct Hp as (lv & e & -> & _ & Hpar & _). rewrite length_app. change (length [_]) with 1%nat.
  by rewrite (even_next _ Hpar).
Qed.

Lemma reads_content evs p : reads evs p → p_left p = None → p_content p = summary first evs.
Proof.
  intros Hr Hp. pose proof (r_pairs _ _ Hr) as Hc. rewrite Hp in Hc. destruct Hc as [_ Hc].
  pose proof (r_events _ _ Hr). pose proof (r_leaves _ _ Hr). pose proof (r_nullifiers _ _ Hr).
  unfold summary. destruct (p_content p). cbn in *. congruence.
Qed.

(** [parse] never panics, and accepts the bytes of the windows that can be written and no others. *)
Lemma parse_total data : parse data start end_ deploy vaultID first ≠ None.
Proof.
  unfold parse. destruct (MaxWindowBytes <? _); [done|].
  pose proof (parse_lines_reads _ data [] _ 1 (le_n _) reads_start) as Hp.
  by destruct (parse_lines _ _ _ _ _ _ data _).
Qed.

Lemma parse_Ok data c : parse data start end_ deploy vaultID first = Some (Ok c) ↔
  ∃ evs, data = render evs start end_ ∧ writable start end_ deploy vaultID first evs ∧ c = summary first evs.
Proof.
  unfold parse. split.
  - destruct (Z.ltb_spec MaxWindowBytes (Z.of_nat (String.length data))) as [|Hsz]; [done|].
    pose proof (parse_lines_reads _ data [] _ 1 (le_n _) reads_start) as Hp.
    destruct (parse_lines _ _ _ _ _ _ data _) as [[[p tail]|]|]; cbn [mbind option_bind res_bind]; [|done..].
    destruct Hp as (evs & Hr & Hc & Hs & Ht). cbn [app] in Hr.
    destruct (p_left p) as [x|] eqn:El; [done|].
    destruct (String.eqb_spec tail (closing start end_ (c_events (p_content p)))) as [Htail|]; [|done]. intros [= <-].
    rewrite (reads_content _ _ Hr El) in *. cbn [summary c_events] in Htail.
    destruct Ht as [(_ & _ & ->)|[-> Ht]]; [done|]. subst tail.
    exists evs. split_and!; [done| |done]. split; try done; [apply Hr|by apply (reads_done evs p)].
  - intros (evs & -> & [Hok Hpa Hc Hs Ht Hsz] & ->).
    destruct (Z.ltb_spec MaxWindowBytes (Z.of_nat (String.length (render evs start end_)))) as [|_]; [lia|].
    destruct (parse_lines_complete evs (String.length (render evs start end_)) [] _ 1 _ (le_n _) reads_start Hc Hs Ht
      (closing_clean _ _ _) Hok) as (p & Hp & Hr).
    unfold render at 2. unfold text in Hp. rewrite Hp. cbn [mbind option_bind res_bind app] in *.
    pose proof (proj2 (reads_done _ _ Hr) Hpa) as El. rewrite El, (reads_content _ _ Hr El). cbn [summary c_events].
    by rewrite String.eqb_refl.
Qed.

(** ** The order of the bytes *)

Lemma insert_event_perm e l : insert_event e l ≡ₚ e :: l.
Proof.
  induction l as [|x l IH]; [done|]. cbn [insert_event]. destruct (Less (Pos e) (Pos x)); [done|].
  by rewrite IH, Permutation_swap.
Qed.

Lemma sort_events_app s l : foldl (λ s e, insert_event e s) s l ≡ₚ s ++ l.
Proof.
  revert s. induction l as [|e l IH]; intros s; [by rewrite app_nil_r|]. cbn [foldl].
  rewrite IH, insert_event_perm. apply Permutation_middle.
Qed.

Lemma sort_events_perm l : sort_events l ≡ₚ l.
Proof. apply sort_events_app. Qed.

(** No later event comes before an earlier one. *)
Definition not_after (a b : RawEvent) : Prop := ¬ before b a.

#[local] Instance not_after_trans : Transitive not_after.
Proof. intros a b c. unfold not_after, before. rewrite !Less_spec. lia. Qed.

Lemma insert_event_sorted e l : StronglySorted not_after l → StronglySorted not_after (insert_event e l).
Proof.
  induction 1 as [|x l Hl IH Hx]; [by repeat constructor|]. cbn [insert_event].
  destruct (Less (Pos e) (Pos x)) eqn:El.
  - assert (not_after e x) as Hex by (by apply before_asym). constructor; [by constructor|].
    constructor; [done|]. apply (Forall_impl _ _ _ Hx). intros y. by transitivity x.
  - constructor; [done|]. apply Forall_forall. intros y Hy. rewrite insert_event_perm in Hy.
    apply elem_of_cons in Hy as [->|Hy]; [by intros H; unfold before in H; rewrite El in H|].
    by rewrite Forall_forall in Hx; apply Hx.
Qed.

Lemma sort_events_sorted l : StronglySorted not_after (sort_events l).
Proof.
  unfold sort_events. assert (StronglySorted not_after []) as Hs by constructor. revert Hs.
  generalize (@nil RawEvent). induction l as [|e l IH]; intros s Hs; [done|]. cbn [foldl].
  apply IH. by apply insert_event_sorted.
Qed.

Lemma before_total evs x y : StronglySorted before evs → x ∈ evs → y ∈ evs → not_after x y → not_after y x → x = y.
Proof.
  unfold not_after. induction 1 as [|z l Hl IH Hz]; intros Hx Hy Hxy Hyx; [by apply not_elem_of_nil in Hx|].
  rewrite Forall_forall in Hz.
  apply elem_of_cons in Hx as [->|Hx], Hy as [->|Hy]; [done|by apply Hz in Hy|by apply Hz in Hx|by apply IH].
Qed.

(** Events in order are what any arrangement of them is sorted to. *)
Lemma sort_events_unique evs l : StronglySorted before evs → l ≡ₚ evs → sort_events l = evs.
Proof.
  intros Hs Hp. assert (sort_events l ≡ₚ evs) as Hq by (by rewrite sort_events_perm).
  apply (StronglySorted_unique_strong not_after); [|apply sort_events_sorted| |done].
  - intros x y Hx Hy. rewrite Hq in Hx. by apply (before_total evs).
  - clear Hp Hq. induction Hs as [|x evs Hs IH Hx]; constructor; [done|].
    apply (Forall_impl _ _ _ Hx). intros y. apply before_asym.
Qed.

End reading.

(** ** The windows of a manifest *)

(** The fields a manifest's window has by their Go types. *)
Definition window_typed (w : Window) : Prop :=
  is_u32 (Start w) ∧ is_u32 (End_ w) ∧ is_u64 (Leaves w).1 ∧ is_u64 (Leaves w).2.

(** Windows that follow one another, and leaves that go on from window to window. *)
Fixpoint windows_follow (next leaves : Z) (ws : list Window) : Prop :=
  match ws with
  | [] => True
  | w :: ws =>
      Start w = next ∧ End_ w = next + WindowLedgers - 1 ∧ (Leaves w).1 = leaves ∧
      leaves <= (Leaves w).2 <= tree.Capacity ∧ (Leaves w).2 mod 2 = 0 ∧
      0 <= WNullifiers w ∧ WNullifiers w + ((Leaves w).2 - leaves) <= WEvents w <= maxExactInteger ∧
      windows_follow (next + WindowLedgers) (Leaves w).2 ws
  end.

Lemma mod_2_sub a b : b mod 2 = 0 → (a - b) mod 2 = 0 → a mod 2 = 0.
Proof. intros Hb H. replace a with ((a - b) + b) by lia. by rewrite Z.add_mod, H, Hb. Qed.

(** A window's counts are too small to wrap. *)
Lemma counts_fit ev nf l1 l2 : 0 <= ev <= maxExactInteger → 0 <= nf <= maxExactInteger → 0 <= l1 <= l2 → l2 <= tree.Capacity →
  u64 ev = ev ∧ u64 (u64 (u64 nf + l2) - l1) = nf + (l2 - l1).
Proof.
  intros He Hn Hl Hc. rewrite tree.Capacity_eq in Hc.
  change maxExactInteger with 9007199254740991 in *.
  rewrite (u64_small ev), (u64_small nf), (u64_small (nf + l2)), u64_small by (unfold is_u64, W64; lia). lia.
Qed.

Lemma validate_window_Ok next leaves i w st : is_u32 next → next mod WindowLedgers = 0 → 0 <= leaves → leaves mod 2 = 0 →
  window_typed w → validate_window (next, leaves) (i, w) = Ok st →
  windows_follow next leaves [w] ∧ st = (next + WindowLedgers, (Leaves w).2) ∧ is_u32 (next + WindowLedgers).
Proof.
  intros Hn Hm Hl0 Hl2 (Hs & He & H1 & H2) H.
  apply bind_Ok in H as (? & G1%fail_if_Ok & H). apply bind_Ok in H as (? & G2%fail_if_Ok & H).
  apply bind_Ok in H as (? & G3%fail_if_Ok & H). apply bind_Ok in H as (? & G4%fail_if_Ok & H).
  apply bind_Ok in H as (? & G5%fail_if_Ok & H). apply bind_Ok in H as (? & G6 & G7).
  injection G7 as <-. clear G6. unfold WindowLedgers in *.
  rewrite !orb_false_iff, !negb_false_iff, !Z.eqb_eq, !Z.ltb_ge in *. destruct G1 as [G1 G1'], G2 as [[G2 G2'] G2''], G4 as [G4 G4'].
  destruct G5 as [[[[G5 G5'] _] _] G6].
  destruct (counts_fit (WEvents w) (WNullifiers w) (Leaves w).1 (Leaves w).2) as [E1 E2]; [lia..|]. rewrite E1, E2 in G6.
  assert (is_u32 (next + 17280)) as Hu.
  { unfold is_u32, W32 in *. split; [lia|]. destruct (Z.eq_dec (next + 17280) 4294967296) as [E|]; [|lia].
    replace next with (4294967296 - 17280) in Hm by lia. done. }
  split_and!; try done; try lia.
  - cbn [windows_follow]. unfold WindowLedgers. split_and!; try done; try lia. apply (mod_2_sub _ (Leaves w).1); [by rewrite G2|done].
  - f_equal. rewrite u32_small; [lia|]. replace (End_ w + 1) with (next + 17280) by lia. done.
Qed.

Lemma validate_windows_Ok ws : ∀ next leaves st, is_u32 next → next mod WindowLedgers = 0 → 0 <= leaves → leaves mod 2 = 0 →
  Forall (λ iw, window_typed iw.2) ws → validate_windows (next, leaves) ws = Ok st → windows_follow next leaves (map snd ws).
Proof.
  induction ws as [|[i w] ws IH]; intros next leaves st Hn Hm Hl0 Hl2 Hw H; [done|].
  apply Forall_cons_1 in Hw as [Hw Hws]. cbn [validate_windows] in H. apply bind_Ok in H as (st1 & H1 & H).
  destruct (validate_window_Ok _ _ _ _ _ Hn Hm Hl0 Hl2 Hw H1) as (Hf & -> & Hu).
  cbn [map windows_follow snd] in *. destruct Hf as (? & ? & ? & ? & ? & ? & ? & _). split_and!; try done; try lia.
  apply (IH _ _ st); try done; [|lia]. unfold WindowLedgers in *. by rewrite Z.add_mod, Hm by done.
Qed.

Lemma map_snd_imap (ws : list Window) : map snd (imap pair ws) = ws.
Proof. change (snd <$> imap pair ws = ws). rewrite fmap_imap. apply list_eq. intros i. rewrite list_lookup_imap. by destruct (ws !! i). Qed.

(** What follows from it, by place. *)
Lemma windows_follow_lookup ws : ∀ next leaves k w, windows_follow next leaves ws → ws !! k = Some w →
  Start w = next + WindowLedgers * Z.of_nat k ∧ End_ w = Start w + WindowLedgers - 1.
Proof.
  induction ws as [|w' ws IH]; intros next leaves [|k] w H Hk; [done..| |]; destruct H as (Hs & He & _ & _ & _ & _ & _ & H).
  - injection Hk as <-. lia.
  - destruct (IH _ _ _ _ H Hk) as [-> ?]. split; [lia|done].
Qed.

(** The leaf a window begins at is the one the window before it ended at. *)
Definition leaf_at (ws : list Window) (k : nat) : Z :=
  match k with O => 0 | S k => match ws !! k with Some w => (Leaves w).2 | None => 0 end end.

Lemma windows_follow_leaves ws : ∀ next leaves k w, windows_follow next leaves ws → ws !! k = Some w →
  (Leaves w).1 = match k with O => leaves | S k => match ws !! k with Some w' => (Leaves w').2 | None => 0 end end ∧
  (Leaves w).1 <= (Leaves w).2 <= tree.Capacity ∧ (Leaves w).2 mod 2 = 0 ∧
  WNullifiers w + ((Leaves w).2 - (Leaves w).1) <= WEvents w.
Proof.
  induction ws as [|w' ws IH]; intros next leaves [|k] w H Hk; [done..| |]; destruct H as (_ & _ & Hl & ? & ? & ? & ? & H).
  - injection Hk as <-. split_and!; try done; lia.
  - destruct (IH _ _ _ _ H Hk) as [E ?]. split; [|done]. rewrite E. by destruct k.
Qed.

Lemma coveredTo_follow ws next leaves : windows_follow next leaves ws → ws ≠ [] →
  coveredTo ws = next + WindowLedgers * Z.of_nat (length ws) - 1.
Proof.
  intros H Hn. unfold coveredTo. rewrite last_lookup. destruct (ws !! pred (length ws)) as [w|] eqn:E.
  - destruct (windows_follow_lookup _ _ _ _ _ H E) as [-> ->]. destruct ws; [done|]. cbn [length pred] in *. lia.
  - apply lookup_ge_None in E. destruct ws; [done|]. cbn in E. lia.
Qed.

(** A manifest's fields by their Go types. *)
Definition manifest_typed (m : Manifest) : Prop := is_u32 (DeployLedger m) ∧ Forall window_typed (Windows m).

Lemma windowStart_spec l : is_u32 l → is_u32 (windowStart l) ∧ windowStart l mod WindowLedgers = 0 ∧
  windowStart l <= l < windowStart l + WindowLedgers.
Proof.
  unfold windowStart, is_u32, WindowLedgers. intros H. pose proof (Z.mod_pos_bound l 17280 eq_refl).
  pose proof (Z.mod_le l 17280 ltac:(lia) eq_refl). split_and!; try lia.
  by rewrite Zminus_mod, Z.mod_mod, Z.sub_diag by done.
Qed.

Lemma Validate_Ok m want : manifest_typed m → Validate m want = Ok tt →
  windows_follow (windowStart (DeployLedger m)) 0 (Windows m) ∧ CoveredTo m = coveredTo (Windows m) ∧ DeployLedger m ≠ 0.
Proof.
  intros [Hd Hw] H. unfold Validate in H.
  repeat (apply bind_Ok in H as (? & ?%fail_if_Ok & H)). apply bind_Ok in H as (st & Hv & H%fail_if_Ok).
  apply negb_false_iff, Z.eqb_eq in H.
  match goal with D : (DeployLedger m =? 0) = false |- _ => apply Z.eqb_neq in D end. split; [|done]. destruct (windowStart_spec _ Hd) as (? & ? & _).
  rewrite <- (map_snd_imap (Windows m)). apply (validate_windows_Ok _ _ _ st); try done.
  apply Forall_lookup. intros i iw Hi. rewrite list_lookup_imap in Hi. destruct (Windows m !! i) eqn:E; [|done].
  injection Hi as <-. by apply (Forall_lookup_1 _ _ _ _ Hw E).
Qed.

(** ** The windows of an archive *)

(** [check] accepts a file only for a window it holds. *)
Lemma check_reads w compressed deploy vaultID : (Leaves w).1 mod 2 = 0 → is_u64 (Leaves w).1 →
  match check w compressed deploy vaultID with
  | None => False
  | Some (Fail _) => True
  | Some (Ok c) => ∃ evs, writable (Start w) (End_ w) deploy vaultID (Leaves w).1 evs ∧
      gzip_read compressed = Some (render evs (Start w) (End_ w), 0) ∧ c = summary (Leaves w).1 evs ∧
      Z.of_nat (length evs) = WEvents w ∧ Z.of_nat (length (nullifiers_of evs)) = WNullifiers w ∧
      (Leaves w).2 = (Leaves w).1 + Z.of_nat (length (leaves_of evs))
  end.
Proof.
  intros He Hu. unfold check. destruct (maxCompressed w <? _); [done|].
  destruct (gunzip compressed) as [data|err] eqn:Eg; [|done].
  destruct (negb (_ =? WBytes w)); [done|]. destruct (negb (String.eqb _ (SHA256 w))); [done|].
  pose proof (parse_total (Start w) (End_ w) deploy vaultID (Leaves w).1 He Hu data) as Ht.
  destruct (parse data _ _ _ _ _) as [[c|err]|] eqn:Ep; cbn [mbind option_bind]; [|done|done].
  apply parse_Ok in Ep as (evs & -> & Hw & ->); [|done|done].
  destruct (negb _ || negb _ || negb _) eqn:E; [done|]. rewrite !orb_false_iff, !negb_false_iff in E.
  destruct E as [[E1%Z.eqb_eq E2%bool_decide_eq_true] E3%Z.eqb_eq]. cbn in E1, E2, E3.
  exists evs. split_and!; try done; [|by rewrite <- E2].
  unfold gunzip in Eg. destruct (gzip_read compressed) as [[d over]|]; [|done].
  apply bind_Ok in Eg as (? & _ & Eg). apply bind_Ok in Eg as (? & Eg%fail_if_Ok & [= ->]).
  apply negb_false_iff, Z.eqb_eq in Eg. by rewrite Eg.
Qed.

(** Two runs of events, the second in later ledgers and its leaves going on from the first's. *)
Lemma window_ok_app s1 e1 s2 e2 deploy vaultID f1 evs1 evs2 :
  window_ok s1 e1 deploy vaultID f1 evs1 → window_ok s2 e2 deploy vaultID (f1 + Z.of_nat (length (leaves_of evs1))) evs2 →
  s1 <= s2 → e1 < s2 → e1 <= e2 → pairs evs1 → NoDup (nullifiers_of evs1 ++ nullifiers_of evs2) →
  window_ok s1 e2 deploy vaultID f1 (evs1 ++ evs2).
Proof.
  intros [He1 Ho1 Hn1 [Hi1 Hp1]] [He2 Ho2 Hn2 [Hi2 Hp2]] Hs Hlt Hle Hpa Hn. split.
  - apply Forall_app_2; [apply (Forall_impl _ _ _ He1)|apply (Forall_impl _ _ _ He2)];
    intros e (? & ? & ? & ? & ? & ? & ?); repeat split; try done; lia.
  - apply StronglySorted_app. split; [|done]. intros a b Ha Hb. rewrite Forall_forall in He1, He2.
    apply He1 in Ha. apply He2 in Hb. unfold before. rewrite Less_spec. cbn. unfold admissible in *. lia.
  - by rewrite nullifiers_app.
  - rewrite leaves_app. split.
    + intros k l [Hk|[Hk Hl]]%lookup_app_Some; [by apply Hi1|]. apply Hi2 in Hl. lia.
    + assert (∃ n, length (leaves_of evs1) = 2 * n)%nat as [n Hn'].
      { apply Nat.Div0.mod_divides in Hpa as [n Hn']. by exists n. }
      intros k a b [Ha|[Ha Ha']]%lookup_app_Some [Hb|[Hb Hb']]%lookup_app_Some.
      * by apply (Hp1 k).
      * apply lookup_lt_Some in Ha. lia.
      * apply lookup_lt_Some in Hb. lia.
      * apply (Hp2 (k - n)%nat); [rewrite <- Ha'|rewrite <- Hb']; f_equal; lia.
Qed.

Lemma spend_all_Ok w spent nfs spent' : spend_all w spent nfs = Ok spent' →
  spent' = spent ∪ list_to_set nfs ∧ NoDup nfs ∧ ∀ x, x ∈ nfs → x ∉ spent.
Proof.
  revert spent. induction nfs as [|x nfs IH]; intros spent H; cbn [spend_all] in H.
  { injection H as <-. split; [set_solver|]. split; [constructor|set_solver]. }
  case_bool_decide as Hx; [done|]. apply IH in H as (-> & Hd & Hf). split; [set_solver|]. split.
  - constructor; [|done]. intros Hin. apply Hf in Hin. set_solver.
  - intros y [->|Hy]%elem_of_cons; [done|]. apply Hf in Hy. set_solver.
Qed.

(** The events the windows before [next] held, and what the loop has kept of them. *)
Record loaded (s deploy : Z) (vaultID : string) (next leaves : Z) (st : list fr.Element * list fr.Element * gset fr.Element)
    (evs : list RawEvent) : Prop := {
  ld_ok : window_ok s (next - 1) deploy vaultID 0 evs;
  ld_pairs : pairs evs;
  ld_leaves : leaves = Z.of_nat (length (leaves_of evs));
  ld_commitments : st.1.1 = commitments_of evs;
  ld_nullifiers : st.1.2 = nullifiers_of evs;
  ld_spent : st.2 = list_to_set (nullifiers_of evs) }.

Lemma window_ok_later s e e' deploy vaultID f evs : e <= e' →
  window_ok s e deploy vaultID f evs → window_ok s e' deploy vaultID f evs.
Proof.
  intros Hle [He Ho Hn Hl]. split; try done. apply (Forall_impl _ _ _ He).
  intros x (? & ? & ? & ? & ? & ? & ?); repeat split; try done; lia.
Qed.

Lemma pairs_app evs more : pairs evs → pairs more → pairs (evs ++ more).
Proof.
  unfold pairs. intros H1 H2. by rewrite leaves_app, length_app, Nat.Div0.add_mod, H1, H2.
Qed.

Lemma loaded_more s deploy vaultID next leaves cs nfs spent evs w more spent' :
  loaded s deploy vaultID next leaves (cs, nfs, spent) evs → s <= next → Start w = next → End_ w = next + WindowLedgers - 1 →
  (Leaves w).1 = leaves → writable (Start w) (End_ w) deploy vaultID (Leaves w).1 more →
  (Leaves w).2 = (Leaves w).1 + Z.of_nat (length (leaves_of more)) →
  spend_all w spent (nullifiers_of more) = Ok spent' →
  loaded s deploy vaultID (next + WindowLedgers) (Leaves w).2
    (cs ++ commitments_of more, nfs ++ nullifiers_of more, spent') (evs ++ more).
Proof.
  intros [Hok Hpa Hl Hc Hn Hs] Hsn Hst Hen Hl1 [Hw Hpm _ _ _ _] Hl2 Hsp. cbn [fst snd] in *.
  apply spend_all_Ok in Hsp as (-> & Hd & Hf). unfold WindowLedgers in *. split; cbn [fst snd].
  - apply window_ok_app with (e1 := next - 1) (s2 := next); try done; try lia.
    + rewrite <- Hl, <- Hl1. replace (next + 17280 - 1) with (End_ w) by lia. by rewrite <- Hst.
    + apply NoDup_app. split; [apply Hok|]. split; [|done]. intros x Hx Hx'. apply (Hf _ Hx'). rewrite Hs.
      by apply elem_of_list_to_set.
  - by apply pairs_app.
  - rewrite leaves_app, length_app. lia.
  - unfold commitments_of. by rewrite Hc, leaves_app, map_app.
  - by rewrite Hn, nullifiers_app.
  - by rewrite Hs, nullifiers_app, list_to_set_app_L.
Qed.

(** The events of a list of windows, by their manifest. *)
Definition events_listed (ws : list Window) : Z := foldr (λ w n, WEvents w + n) 0 ws.

Lemma load_windows_reads get m s ws : ∀ next leaves st evs,
  windows_follow next leaves ws → loaded s (DeployLedger m) (MVault m) next leaves st evs → s <= next →
  match load_windows get m ws st with
  | None => False
  | Some (Fail _) => True
  | Some (Ok (cs, nfs)) => ∃ more spent,
      loaded s (DeployLedger m) (MVault m) (next + WindowLedgers * Z.of_nat (length ws))
        (match last ws with Some w => (Leaves w).2 | None => leaves end) (cs, nfs, spent) (evs ++ more) ∧
      Z.of_nat (length more) = events_listed ws
  end.
Proof.
  induction ws as [|w ws IH]; intros next leaves [[cs nfs] spent] evs Hf Hl Hs.
  { cbn. exists [], spent. rewrite app_nil_r, Z.add_0_r. done. }
  destruct Hf as (Hst & Hen & Hl1 & Hl2 & Hm & Hn & Hc & Hf).
  assert (∀ A (x : A) f, match last (w :: ws) with Some w => f w | None => x end = match last ws with Some w => f w | None => f w end) as Hlast
    by (intros; destruct ws as [|w' ws']; [done|]; change (last (w :: w' :: ws')) with (last (w' :: ws')); by destruct (last (w' :: ws')) eqn:El; [|apply last_None in El]).
  rewrite Hlast. cbn [load_windows].
  assert (next + WindowLedgers * Z.of_nat (length (w :: ws)) = (next + WindowLedgers) + WindowLedgers * Z.of_nat (length ws)) as ->
    by (cbn [length]; lia).
  destruct (Z.eqb_spec (WEvents w) 0) as [E0|E0].
  - assert ((Leaves w).2 = leaves) as El by lia.
    assert (loaded s (DeployLedger m) (MVault m) (next + WindowLedgers) (Leaves w).2 (cs, nfs, spent) evs) as Hl'.
    { rewrite El. destruct Hl. split; try done. apply (window_ok_later _ (next - 1)); [unfold WindowLedgers; lia|done]. }
    specialize (IH _ _ _ _ Hf Hl' ltac:(unfold WindowLedgers; lia)).
    destruct (load_windows get m ws (cs, nfs, spent)) as [[[cs' nfs']|]|]; [|done|done].
    destruct IH as (more & spent' & H1 & H2). exists more, spent'. split; [done|]. cbn [events_listed foldr]. fold (events_listed ws). lia.
  - destruct (get (File w)) as [compressed| |err]; [|done..].
    assert (is_u64 (Leaves w).1) as Hu. { rewrite tree.Capacity_eq in Hl2. rewrite Hl1, (ld_leaves _ _ _ _ _ _ _ Hl) in *. unfold is_u64, W64. lia. }
    assert ((Leaves w).1 mod 2 = 0) as He.
    { rewrite Hl1, (ld_leaves _ _ _ _ _ _ _ Hl), <- (Nat2Z.inj_mod _ 2). by rewrite (ld_pairs _ _ _ _ _ _ _ Hl). }
    pose proof (check_reads w compressed (DeployLedger m) (MVault m) He Hu) as Hck.
    destruct (check w compressed _ _) as [[c|err]|]; [|done|done]. destruct Hck as (new & Hw & _ & -> & He' & _ & Hl2').
    cbn [c_nullifiers c_commitments summary].
    destruct (spend_all w spent (nullifiers_of new)) as [spent1|err] eqn:Es; [|done].
    pose proof (loaded_more _ _ _ _ _ _ _ _ _ _ _ _ Hl Hs Hst Hen Hl1 Hw Hl2' Es) as Hl'.
    specialize (IH _ _ _ _ Hf Hl' ltac:(unfold WindowLedgers; lia)).
    destruct (load_windows get m ws _) as [[[cs' nfs']|]|]; [|done|done].
    destruct IH as (more & spent' & H1 & H2). exists (new ++ more), spent'. rewrite app_assoc. split; [done|].
    rewrite length_app. cbn [events_listed foldr]. fold (events_listed ws). lia.
Qed.

(** The whole of [loadWindows]: the files hold one history. *)
Lemma loadWindows_history get m want : manifest_typed m → Validate m want = Ok tt →
  match loadWindows get m with
  | None => False
  | Some (Fail _) => True
  | Some (Ok c) => CManifest c = m ∧ ∃ evs,
      window_ok (windowStart (DeployLedger m)) (CoveredTo m) (DeployLedger m) (MVault m) 0 evs ∧ pairs evs ∧
      Commitments c = commitments_of evs ∧ Nullifiers c = nullifiers_of evs ∧
      Z.of_nat (length (Commitments c)) = leaf_at (Windows m) (length (Windows m)) ∧
      Z.of_nat (length evs) = events_listed (Windows m)
  end.
Proof.
  intros Ht H. destruct (Validate_Ok m want Ht H) as (Hf & Hc & _).
  assert (∀ e, window_ok (windowStart (DeployLedger m)) e (DeployLedger m) (MVault m) 0 []) as H0.
  { intros e. split; [constructor|constructor|constructor|]. unfold leaves_follow. cbn. split; intros k *; by rewrite lookup_nil. }
  assert (loaded (windowStart (DeployLedger m)) (DeployLedger m) (MVault m) (windowStart (DeployLedger m)) 0 ([], [], ∅) []) as Hl.
  { split; try done. }
  pose proof (load_windows_reads get m _ _ _ _ _ _ Hf Hl (Z.le_refl _)) as Hr. unfold loadWindows.
  destruct (load_windows get m (Windows m) ([], [], ∅)) as [[[cs nfs]|]|]; [|done|done].
  destruct Hr as (evs & spent & [Hok Hp Hlv Hcs Hn _] & He). cbn [app fst snd] in *. cbn [CManifest]. split; [done|].
  exists evs. cbn [Commitments Nullifiers]. split; [|split; [exact Hp|]; split; [exact Hcs|]; split; [exact Hn|]; split; [|exact He]].
  - destruct (decide (Windows m = [])) as [E|E]; [|by rewrite Hc, (coveredTo_follow _ _ _ Hf E)].
    rewrite E in He. destruct evs; [apply H0|done].
  - rewrite Hcs. unfold commitments_of. rewrite length_map, <- Hlv. unfold leaf_at. rewrite last_lookup. by destruct (Windows m).
Qed.

End contents.

(** ** A concrete archive, to evaluate the theorems on: one window of two leaves. *)
Module demo.

Definition leaf (i : Z) : Body := BNewCommitment (mkNewCommitment i fr.zero (replicate 181 7)).
Definition value (i : Z) : ScVal :=
  match @encode_body (example.sdk []) (leaf i) with Ok v => v | Fail _ => ScvVoid end.
Definition table : list (string * ScVal) :=
  [("new_commitment", ScvSymbol "new_commitment"); ("v0", value 0); ("v1", value 1)]%string.

(** The example SDK with the table read both ways. *)
Definition sdk : StellarSDK := {|
  strkey_decode := @strkey_decode (example.sdk table);
  strkey_encode := @strkey_encode (example.sdk table);
  muxed_of_string := @muxed_of_string (example.sdk table);
  address_string := @address_string (example.sdk table);
  account_id_of := @account_id_of (example.sdk table);
  credit_asset_ok := @credit_asset_ok (example.sdk table);
  is_public_key := @is_public_key (example.sdk table);
  unmarshal_base64 := @unmarshal_base64 (example.sdk table);
  marshal_base64 v :=
    match v with
    | ScvSymbol s => Some s
    | ScvMap (Some [_; _; (_, ScvU64 i)]) => Some (if Z.eqb i 0 then "v0" else "v1")%string
    | _ => None
    end;
  marshal_val := @marshal_val (example.sdk table);
  unmarshal_key := @unmarshal_key (example.sdk table);
  marshal_key := @marshal_key (example.sdk table);
  base64_encode := @base64_encode (example.sdk table);
  keccak256 := @keccak256 (example.sdk table) |}.

Definition vaultID : string := example.contract 9.
Definition hash : string := String.string_of_list_ascii (replicate 64 "a"%char).
Definition event (i : Z) (v : string) : RawEvent :=
  mkRawEvent 20000 1700000000 hash 3 0 i vaultID ["new_commitment"]%string v.
Definition events : list RawEvent := [event 0 "v0"; event 1 "v1"].

(** A codec that knows those events, with digests of zeros and files that are their content. *)
Definition codec : Codec := {|
  decode_line line := head (filter (λ e, marshalLine e = line) events);
  sha256 _ := replicate 32 0;
  gzip_read file := Some (file, 0) |}.

Definition window : Window :=
  match @encode sdk codec events 17280 34559 20000 vaultID 0 with
  | Some (Ok (_, w)) => w
  | _ => mkWindow 0 0 0 (0, 0) 0 0 ""
  end.
Definition manifest : Manifest :=
  mkManifest Format "testnet" "Test" vaultID 20000 WindowLedgers 51839
    [window; mkWindow 34560 51839 0 (2, 2) 0 0 ""] "demo".
Definition get (name : string) : Fetched :=
  if String.eqb name (File window) then Found (render events 17280 34559) else NotExist.

Lemma typed : manifest_typed manifest.
Proof.
  assert (E1 : Start window = 17280) by (vm_compute; reflexivity).
  assert (E2 : End_ window = 34559) by (vm_compute; reflexivity).
  assert (E3 : Leaves window = (0, 2)) by (vm_compute; reflexivity). split; [split; [discriminate|reflexivity]|].
  constructor; [|constructor; [|constructor]]; unfold window_typed; rewrite ?E1, ?E2, ?E3;
    cbn [Start End_ Leaves fst snd]; unfold is_u32, is_u64, W32, W64; lia.
Qed.

Example validates : @Validate sdk manifest (mkExpect vaultID "Test" 20000) = Ok tt.
Proof. vm_compute. reflexivity. Qed.

Example loads : match @loadWindows sdk codec get manifest with
  Some (Ok c) => length (Commitments c) = 2%nat | _ => False end.
Proof. vm_compute. reflexivity. Qed.

Lemma admissible_event i v : (i, v) = (0, "v0"%string) ∨ (i, v) = (1, "v1"%string) →
  @admissible sdk 17280 34559 20000 vaultID (event i v).
Proof.
  intros [[= -> ->]|[= -> ->]]; (split; [reflexivity|]); (split; [vm_compute; reflexivity|]);
    (split; [discriminate|]); (split; [split; discriminate|]); (split; [discriminate|]); (split; [vm_compute; reflexivity|]);
    apply not_eq_None_Some; intros E; apply (f_equal (λ o, match o with Some _ => true | None => false end)) in E;
    vm_compute in E; discriminate E.
Qed.

Lemma follow : @leaves_follow 0 (@leaves_of sdk events).
Proof.
  assert (E : map (λ l, (NC_Index l.2, (Ledger l.1, Tx l.1))) (@leaves_of sdk events) = [(0, (20000, 3)); (1, (20000, 3))])
    by (vm_compute; reflexivity).
  assert (∀ k l, @leaves_of sdk events !! k = Some l →
    (k < 2)%nat ∧ (NC_Index l.2, (Ledger l.1, Tx l.1)) = (Z.of_nat k, (20000, 3))) as Hk.
  { intros k l Hl. pose proof (f_equal (lookup k) E) as Ek. rewrite lookup_map, Hl in Ek.
    destruct k as [|[|k]]; cbn in Ek; [split; [lia|exact (inj Some _ _ Ek)]..|destruct k; discriminate Ek]. }
  split.
  - intros k l Hl. destruct (Hk _ _ Hl) as [? E']. injection E' as E' _. rewrite tree.Capacity_eq. lia.
  - intros k a b Ha Hb. destruct (Hk _ _ Ha) as [_ Ea], (Hk _ _ Hb) as [_ Eb].
    injection Ea as _ -> ->. injection Eb as _ -> ->. split; reflexivity.
Qed.

Lemma fits : @writable sdk codec 17280 34559 20000 vaultID 0 events.
Proof.
  split.
  - split; [|repeat constructor; vm_compute; reflexivity| |exact follow].
    + constructor; [apply admissible_event; by left|]. constructor; [apply admissible_event; by right|constructor].
    + assert (E : @nullifiers_of sdk events = []) by (vm_compute; reflexivity). rewrite E. constructor.
  - vm_compute. reflexivity.
  - constructor; [vm_compute; reflexivity|]. constructor; [vm_compute; reflexivity|constructor].
  - constructor; [vm_compute; reflexivity|]. constructor; [vm_compute; reflexivity|constructor].
  - vm_compute. reflexivity.
  - vm_compute. discriminate.
Qed.

End demo.

(** * Properties *)

(** The windows of a manifest that validates tile the ledgers from the deploy ledger's window to
    the last ledger covered: each is 17280 ledgers, no ledger wraps past 32 bits, every ledger
    covered is in exactly one window, and each window's leaves go on, in pairs and within the tree,
    from where the window before ended, with an event counted for every leaf and nullifier. *)
Theorem windows_tile_the_ledgers {sdk : StellarSDK} (m : Manifest) (want : Expect)
    (Ht : manifest_typed m) (H : Validate m want = Ok tt) :
  (∀ k w, Windows m !! k = Some w →
     Start w = windowStart (DeployLedger m) + WindowLedgers * Z.of_nat k ∧ End_ w = Start w + WindowLedgers - 1 ∧
     (Leaves w).1 = leaf_at (Windows m) k ∧ (Leaves w).1 <= (Leaves w).2 <= tree.Capacity ∧ (Leaves w).2 mod 2 = 0 ∧
     WNullifiers w + ((Leaves w).2 - (Leaves w).1) <= WEvents w) ∧
  ∀ ledger, DeployLedger m <= ledger <= CoveredTo m →
    exists! k, ∃ w, Windows m !! k = Some w ∧ Start w <= ledger <= End_ w.
Proof.
  destruct (Validate_Ok m want Ht H) as (Hf & Hc & Hd0). pose proof (proj1 Ht) as Hd.
  destruct (windowStart_spec _ Hd) as (Hs0 & _ & Hs). unfold is_u32 in Hs0.
  split.
  - intros k w Hk. destruct (windows_follow_lookup _ _ _ _ _ Hf Hk).
    destruct (windows_follow_leaves _ _ _ _ _ Hf Hk) as (Hl & ?). by destruct k.
  - intros l Hl. unfold WindowLedgers in *. set (s := windowStart (DeployLedger m)) in *.
    assert (Windows m ≠ []) as Hne by (intros E; rewrite E in Hc; cbn in Hc; unfold is_u32 in Hd; lia).
    rewrite (coveredTo_follow _ _ _ Hf Hne) in Hc. unfold WindowLedgers in Hc.
    pose proof (Z.div_mod (l - s) 17280 ltac:(lia)) as Hq. pose proof (Z.mod_pos_bound (l - s) 17280 eq_refl) as Hr.
    assert (0 <= (l - s) / 17280) by (apply Z.div_pos; lia).
    destruct (lookup_lt_is_Some_2 (Windows m) (Z.to_nat ((l - s) / 17280))) as [w Hw]; [lia|].
    destruct (windows_follow_lookup _ _ _ _ _ Hf Hw) as [Ew Ew']. unfold WindowLedgers in *. rewrite Z2Nat.id in Ew by done.
    exists (Z.to_nat ((l - s) / 17280)). split; [exists w; split; [done|lia]|].
    intros k (w' & Hk & Hle). destruct (windows_follow_lookup _ _ _ _ _ Hf Hk) as [Ek Ek']. unfold WindowLedgers in *. lia.
Qed.

Lemma windows_tile_witness :
  @Validate demo.sdk demo.manifest (mkExpect demo.vaultID "Test" 20000) = Ok tt ∧
  exists! k, ∃ w, Windows demo.manifest !! k = Some w ∧ Start w <= 40000 <= End_ w.
Proof.
  assert (H : @Validate demo.sdk demo.manifest (mkExpect demo.vaultID "Test" 20000) = Ok tt) by (vm_compute; reflexivity).
  split; [exact H|].
  apply (proj2 (@windows_tile_the_ledgers demo.sdk demo.manifest (mkExpect demo.vaultID "Test" 20000)
    demo.typed H)). vm_compute. split; discriminate.
Defined.

(** C34: the reader of a window and its format agree: [parse] never panics, and it accepts exactly the
    bytes that are the canonical lines of events in chain order, each the vault's and of the
    window's ledgers, that spend no nullifier twice and whose leaves follow on from the first in
    pairs of one transaction, under a closing line that counts them; what it returns is their sum. *)
Theorem windows_read_as_written {sdk : StellarSDK} {codec : Codec} (data : string) (start end_ deploy : Z)
    (vaultID : string) (first : Z) (Heven : first mod 2 = 0) (Hfirst : is_u64 first) :
  parse data start end_ deploy vaultID first ≠ None ∧
  ∀ c, parse data start end_ deploy vaultID first = Some (Ok c) ↔
    ∃ evs, data = render evs start end_ ∧ writable start end_ deploy vaultID first evs ∧ c = summary first evs.
Proof.
  split; [by apply parse_total|]. intros c. by apply parse_Ok.
Qed.

Lemma windows_read_witness :
  ∃ evs, render demo.events 17280 34559 = render evs 17280 34559 ∧
    @writable demo.sdk demo.codec 17280 34559 20000 demo.vaultID 0 evs.
Proof.
  pose proof (@windows_read_as_written demo.sdk demo.codec (render demo.events 17280 34559) 17280 34559 20000
    demo.vaultID 0 eq_refl ltac:(split; [discriminate|reflexivity])) as [_ H].
  destruct (@parse demo.sdk demo.codec (render demo.events 17280 34559) 17280 34559 20000 demo.vaultID 0)
    as [[c|err]|] eqn:E.
  - destruct (proj1 (H c) eq_refl) as (evs & Hd & Hw & _). exists evs. split; [exact Hd|exact Hw].
  - exfalso. pose proof (f_equal (λ r, match r with Some (Ok _) => true | _ => false end) E) as E'. vm_compute in E'. discriminate E'.
  - exfalso. pose proof (f_equal (λ r, match r with Some (Ok _) => true | _ => false end) E) as E'. vm_compute in E'. discriminate E'.
Defined.

(** What is published is read back: in whatever order the events of a window come, [encode]
    accepts them and writes the same bytes, those of their chain order, and a file of those bytes
    passes [check] against the entry written beside them, giving the same commitments and nullifiers. *)
Theorem published_windows_read_back {sdk : StellarSDK} {codec : Codec} (start end_ deploy : Z) (vaultID : string)
    (first : Z) (sorted evs : list RawEvent) (Heven : first mod 2 = 0) (Hfirst : is_u64 first)
    (Hw : writable start end_ deploy vaultID first sorted) (Hne : sorted ≠ []) (Hp : evs ≡ₚ sorted) :
  ∃ w, encode evs start end_ deploy vaultID first = Some (Ok (render sorted start end_, w)) ∧
    Start w = start ∧ End_ w = end_ ∧
    ∀ file, gzip_read file = Some (render sorted start end_, 0) → Z.of_nat (String.length file) <= maxCompressed w →
      check w file deploy vaultID = Some (Ok (summary first sorted)).
Proof.
  assert (parse (render sorted start end_) start end_ deploy vaultID first = Some (Ok (summary first sorted))) as Hparse
    by (apply parse_Ok; [done|done|by exists sorted]).
  unfold encode. rewrite (sort_events_unique sorted evs (wo_order _ _ _ _ _ _ (wr_ok _ _ _ _ _ _ Hw)) Hp), Hparse.
  destruct sorted as [|e l] eqn:El; [done|]. rewrite <- El in *. eexists. split; [reflexivity|]. split; [done|]. split; [done|].
  intros file Hg Hlen. unfold check. rewrite (proj2 (Z.ltb_ge _ _) Hlen).
  unfold gunzip. rewrite Hg. pose proof (wr_size _ _ _ _ _ _ Hw) as Hs.
  destruct (Z.ltb_spec MaxWindowBytes (Z.of_nat (String.length (render sorted start end_)))); [lia|].
  cbn [fail_if Z.eqb negb mbind res_bind mret res_ret WBytes SHA256 Start End_ Leaves fst snd WEvents WNullifiers].
  rewrite Z.eqb_refl, String.eqb_refl. cbn [negb summary c_leaves c_events c_nullifiers fst snd].
  rewrite Hparse. cbn [mbind option_bind summary c_leaves c_events c_nullifiers].
  by rewrite !Z.eqb_refl, bool_decide_eq_true_2.
Qed.

Lemma published_windows_witness :
  ∃ w, @encode demo.sdk demo.codec (rev demo.events) 17280 34559 20000 demo.vaultID 0 =
    Some (Ok (render demo.events 17280 34559, w)).
Proof.
  destruct (@published_windows_read_back demo.sdk demo.codec 17280 34559 20000 demo.vaultID 0 demo.events (rev demo.events)
    eq_refl ltac:(split; [discriminate|reflexivity]) demo.fits ltac:(discriminate)
    ltac:(apply Permutation_sym, Permutation_rev)) as (w & H & _).
  exists w. exact H.
Defined.

(** An archive that loads is one history: whatever the files are, [loadWindows] of a manifest that
    validates does not panic, and when it accepts, the files hold events of the ledgers covered, in
    chain order across windows, that spend no nullifier twice and whose leaves run from zero in
    pairs of one transaction; the commitments and the nullifiers returned are theirs, as many as the
    manifest lists. *)
Theorem archives_are_one_history {sdk : StellarSDK} {codec : Codec} (get : string → Fetched) (m : Manifest)
    (want : Expect) (Ht : manifest_typed m) (H : Validate m want = Ok tt) :
  match loadWindows get m with
  | None => False
  | Some (Fail _) => True
  | Some (Ok c) => CManifest c = m ∧ ∃ evs,
      window_ok (windowStart (DeployLedger m)) (CoveredTo m) (DeployLedger m) (MVault m) 0 evs ∧ pairs evs ∧
      Commitments c = commitments_of evs ∧ Nullifiers c = nullifiers_of evs ∧
      Z.of_nat (length (Commitments c)) = leaf_at (Windows m) (length (Windows m)) ∧
      Z.of_nat (length evs) = events_listed (Windows m)
  end.
Proof. by apply (loadWindows_history get m want). Qed.

Lemma archives_history_witness :
  ∃ c evs, @loadWindows demo.sdk demo.codec demo.get demo.manifest = Some (Ok c) ∧
    @window_ok demo.sdk (windowStart 20000) (CoveredTo demo.manifest) 20000 demo.vaultID 0 evs ∧
    Z.of_nat (length evs) = events_listed (Windows demo.manifest).
Proof.
  pose proof (@archives_are_one_history demo.sdk demo.codec demo.get demo.manifest (mkExpect demo.vaultID "Test" 20000)
    demo.typed demo.validates) as H.
  pose proof demo.loads as Hl.
  destruct (@loadWindows demo.sdk demo.codec demo.get demo.manifest) as [[c|err]|]; [|destruct Hl..].
  destruct H as (_ & evs & H1 & _ & _ & _ & _ & H2). exists c, evs. split; [reflexivity|]. split; [exact H1|exact H2].
Defined.

End archive.
