(* ===== verification/ArchiveChain.v ===== *)
(** The check of a published archive against the vault it claims to be of, of
    [services/internal/vaultarchive/chain.go], with the reading of its manifest (read.go): the archive's
    commitments must rebuild the vault's Merkle tree, or the root it held at that many leaves, and
    every nullifier must have its entry in the vault.

    Under Stellar RPC and [encoding/json], which are not under src/: their answers are the fields of
    a node and the operations of a class. *)
From S2P Require Import Prelude.
From S2P Require Import Fr.
From S2P Require Import Tree.
From S2P Require Import Xdr.
From S2P Require Import ScVal.
From S2P Require Import VaultState.
From S2P Require Import Events.
From S2P Require Import Keys.
From S2P Require Import Rpc.
From S2P Require Import Follow.
From S2P Require Import Archive.

Module archivechain.

Import events archive.

Definition ErrChain : gerr := Sentinel "vault archive: the chain does not confirm it".

Definition nullifierBatch : nat := Eval vm_compute in Z.to_nat 2000.

(** [Report] *)
Record Report : Type := mkReport {
  RLeaves : Z; ChainLeaves : Z; TailLeaves : Z; RNullifiers : Z; RLedger : Z }.

(** An RPC: the network it serves, its ledger entries and its events. *)
Record Node : Type := mkNode { GetNetwork : res string; Entries_ : rpc.Client; Events_ : follow.Client }.

(** [View] is what one RPC says about the vault's tree; [events] gives those after the archive. *)
Record View : Type := mkView {
  client : rpc.Client; VVault : string; ring : vault.RootRing; events : follow.Source; Next : Z; VLatest : Z }.

(** [LedgerEntryData.LedgerKey], of the SDK: the key an entry's own data names. *)
Class EntryKey : Type := own_key : rpc.Entry → option LedgerKey.

(** What the manifest's reader takes from [encoding/json]: the keys of the top level in order, the
    decoding with unknown fields refused, and the indented form with a newline. *)
Class ManifestCodec : Type := {
  top_keys : string → option (list string);
  decode_manifest : string → option Manifest;
  Canonical : Manifest → string }.

(** ** The manifest *)

Definition manifestFields : list string :=
  ["format"; "network"; "networkPassphrase"; "vault"; "deployLedger"; "windowLedgers"; "coveredTo"; "windows"; "producer"]%string.

(** The loop of [manifestKeysOnce]. *)
Fixpoint keys_once (seen : list string) (keys : list string) : option gerr :=
  match keys with
  | [] => None
  | k :: keys =>
      if negb (bool_decide (k ∈ manifestFields)) then Some (Wrapf (Sentinel "") "the key %.40q is not a field of the format" [FStr k])
      else if bool_decide (k ∈ seen) then Some (Wrapf (Sentinel "") "the key %q is given twice" [FStr k])
      else keys_once (k :: seen) keys
  end.

Section manifest.
Context {sdk : StellarSDK} {json : ManifestCodec}.

(** [manifestKeysOnce] *)
Definition manifestKeysOnce (raw : string) : option gerr :=
  match top_keys raw with
  | None => Some (Sentinel "not a JSON object")
  | Some keys => keys_once [] keys
  end.

(** [ParseManifest] *)
Definition ParseManifest (raw : string) (want : Expect) : res Manifest :=
  match manifestKeysOnce raw with
  | Some err => Fail (invalid "manifest: %v" [FErr err])
  | None =>
      match decode_manifest raw with
      | None => Fail (invalid "manifest: %v" [FOther])
      | Some m =>
          _ ← fail_if (negb (String.eqb raw (Canonical m))) (invalid "manifest is not in canonical form" []);
          _ ← Validate m want;
          mret m
      end
  end.

(** [ReadManifest] *)
Definition ReadManifest (get : string → Fetched) (want : Expect) : res Manifest :=
  match get "manifest.json" with
  | Found raw => ParseManifest raw want
  | NotExist => Fail (Sentinel "file does not exist")
  | FetchFailed err => Fail err
  end.

End manifest.

(** ** The view of a vault *)

Section view.
Context {sdk : StellarSDK} {own : EntryKey} {P : follow.Protocol}.

(** [rpc.CheckNetwork] *)
Definition CheckNetwork (network : res string) (passphrase : string) : res unit :=
  match network with
  | Fail err => Fail (Wrapf err "get network: %w" [])
  | Ok n => fail_if (negb (String.eqb n passphrase)) (Wrapf (Sentinel "") "the RPC serves %q, not %q" [FStr n; FStr passphrase])
  end.

(** [entryOf]; [None] is the panic of [mustKeyString]. *)
Definition entryOf (found : gmap string rpc.Entry) (key : LedgerKey) : option (option rpc.Entry) :=
  match rpc.KeyString key with
  | Fail _ => None
  | Ok name =>
      Some (e ← found !! name; k ← own_key e;
            match rpc.KeyString k with Ok got => if String.eqb got name then Some e else None | Fail _ => None end)
  end.

(** [ReadView] after the read of its two entries. *)
Definition view_of (n : Node) (vaultID : string) (ring : vault.RootRing) (nextVal : ScVal) (latest : Z) : res View :=
  match nextVal with
  | ScvU64 next =>
      _ ← fail_if (negb (next mod 2 =? 0)) (Wrapf ErrChain "%w: the vault's next leaf is not an even u64" []);
      let want := u32 (next / 2 mod vault.RootHistory) in
      _ ← fail_if (negb (vault.Newest ring =? want))
            (Wrapf ErrChain "%w: the root ring ends at slot %d, but %d leaves put it at %d"
               [FInt (vault.Newest ring); FInt next; FInt want]);
      mret (mkView (Entries_ n) vaultID ring (follow.RPCSource (Events_ n) vaultID) next latest)
  | _ => Fail (Wrapf ErrChain "%w: the vault's next leaf is not an even u64" [])
  end.

(** [ReadView]; [None] is a panic. *)
Definition ReadView (n : Node) (vaultID passphrase : string) : option (res View) :=
  match (_ ← CheckNetwork (GetNetwork n) passphrase;
         rootsKey ← keys.RootsKey vaultID;
         nextKey ← keys.NextLeafKey vaultID;
         '(entries, latest) ← rpc.Entries (Entries_ n) [rootsKey; nextKey];
         mret (rootsKey, nextKey, entries, latest)) with
  | Fail err => Some (Fail err)
  | Ok (rootsKey, nextKey, entries, latest) =>
      rootsEntry ← entryOf entries rootsKey;
      nextEntry ← entryOf entries nextKey;
      Some (match rootsEntry, nextEntry with
            | Some rootsEntry, Some nextEntry =>
                ringVal ← rpc.ContractValue rootsEntry;
                ring ← vault.DecodeRootRing ringVal;
                nextVal ← rpc.ContractValue nextEntry;
                view_of n vaultID ring nextVal latest
            | _, _ => Fail (Wrapf ErrChain "%w: the vault's tree entries are missing" [])
            end)
  end.

(** [Admits] *)
Definition Admits (v : View) (m : Manifest) : res unit :=
  match last (Windows m) with
  | Some w =>
      fail_if (Next v <? (Leaves w).2)
        (Wrapf ErrChain "%w: the manifest lists %d leaves, the vault holds %d" [FInt (Leaves w).2; FInt (Next v)])
  | None => Ok tt
  end ≫= λ _,
  fail_if (VLatest v <? CoveredTo m)
    (Wrapf ErrChain "%w: the manifest covers ledger %d, the RPC's latest is %d" [FInt (CoveredTo m); FInt (VLatest v)]).

(** ** The check of the root *)

Context {NH : tree.NodeHash}.

(** The loop over the archive's commitments, two at a time. *)
Fixpoint append_commitments (cs : list fr.Element) : ST tree.Tree unit :=
  match cs with
  | a :: b :: cs => _ ← tree.AppendPair a b; append_commitments cs
  | _ => mret tt
  end.

(** The variables of the loop over the events after the archive: the tree, the next leaf and the left of
    a pair, with where it was. *)
Record tail_state : Type := mkTail {
  t_tree : tree.Tree; t_next : Z; t_left : NewCommitment; t_leftAt : Position }.

(** One turn of that loop. *)
Definition tail_event (v : View) (st : tail_state) (e : RawEvent) : res tail_state :=
  if negb (String.eqb (Contract e) (VVault v)) then
    Fail (Wrapf ErrChain "%w: an event of contract %.80q among the vault's" [FStr (Contract e)])
  else
    match Decode e with
    | Fail err => Fail (Wrapf ErrChain "%w: an event after the archive: %w" [FErr err])
    | Ok d =>
        match EBody d with
        | BNewCommitment leaf =>
            if negb (NC_Index leaf =? t_next st) then
              Fail (Wrapf ErrChain "%w: leaf %d where %d belongs among the events after the archive" [FInt (NC_Index leaf); FInt (t_next st)])
            else if t_next st mod 2 =? 0 then
              Ok (mkTail (t_tree st) (u64 (t_next st + 1)) leaf (Pos e))
            else if negb (PLedger (t_leftAt st) =? Ledger e) || negb (PTx (t_leftAt st) =? Tx e) then
              Fail (Wrapf ErrChain "%w: leaf %d is not the second of a pair in one transaction" [FInt (NC_Index leaf)])
            else
              match tree.AppendPair (NC_Commitment (t_left st)) (NC_Commitment leaf) (t_tree st) with
              | (_, Fail err) => Fail err
              | (t, Ok _) => Ok (mkTail t (u64 (t_next st + 1)) (t_left st) (t_leftAt st))
              end
        | _ => Ok st
        end
    end.

Fixpoint tail_events (v : View) (st : tail_state) (es : list RawEvent) : res tail_state :=
  match es with [] => Ok st | e :: es => st ← tail_event v st e; tail_events v st es end.

Definition no_leaf : NewCommitment := mkNewCommitment 0 fr.zero [].

(** [checkRootThroughEvents]: the leaves it carried the tree on with, on success. *)
Definition checkRootThroughEvents (v : View) (t : tree.Tree) (covered : Z) (leaves behind : Z) : option (res Z) :=
  match (if covered <? VLatest v then
           or_fail (events v (u32 (covered + 1)) (VLatest v)) (λ err,
             Wrapf ErrChain "%w: the vault is %d pairs ahead of the archive, past the %d roots it keeps, and its events after ledger %d cannot be read: %w"
               [FInt behind; FInt vault.RootHistory; FInt covered; FErr err])
         else Ok []) with
  | Fail err => Some (Fail err)
  | Ok es =>
      match tail_events v (mkTail t leaves no_leaf (mkPosition 0 0 0 0)) es with
      | Fail err => Some (Fail err)
      | Ok st =>
          if negb (t_next st =? Next v) then
            Some (Fail (Wrapf ErrChain "%w: the vault is %d pairs ahead of the archive, past the %d roots it keeps, and the events after ledger %d account for %d of its %d leaves"
              [FInt behind; FInt vault.RootHistory; FInt covered; FInt (t_next st); FInt (Next v)]))
          else
            root ← vault.Current (ring v);
            Some (if bool_decide (tree.Root (t_tree st) = root) then Ok (u64 (t_next st - leaves))
                  else Fail (Wrapf ErrChain "%w: the archive's leaves and the events after it give root %s, not the vault's current root"
                         [FStr (fr.Hex (tree.Root (t_tree st)))]))
      end
  end.

(** [checkRoot]: how many leaves after the archive's were read; [None] is an index out of range. *)
Definition checkRoot (v : View) (c : Contents) : option (res Z) :=
  let leaves := Z.of_nat (length (Commitments c)) in
  if Next v <? leaves then
    Some (Fail (Wrapf ErrChain "%w: the archive holds %d leaves, the vault %d" [FInt leaves; FInt (Next v)]))
  else
    match append_commitments (Commitments c) tree.empty with
    | (_, Fail err) => Some (Fail err)
    | (t, Ok _) =>
        let behind := u64 (Next v - leaves) / 2 in
        if vault.RootHistory <=? behind then
          checkRootThroughEvents v t (CoveredTo (CManifest c)) leaves behind
        else
          let at_ := u64 (u64 (vault.Newest (ring v) + vault.RootHistory) - behind) mod vault.RootHistory in
          root ← vault.Roots (ring v) !! Z.to_nat at_;
          Some (if bool_decide (root = tree.Root t) then Ok 0
                else Fail (Wrapf ErrChain "%w: the archive's %d leaves give root %s, which the vault never held at that count"
                       [FInt leaves; FStr (fr.Hex (tree.Root t))]))
    end.

(** ** The check of the nullifiers *)

(** The loop over a batch's keys; [None] is a panic. *)
Fixpoint batch_found (found : gmap string rpc.Entry) (nks : list (fr.Element * LedgerKey)) : option (res unit) :=
  match nks with
  | [] => Some (Ok tt)
  | (n, k) :: nks =>
      e ← entryOf found k;
      match e with
      | None => Some (Fail (Wrapf ErrChain "%w: nullifier %s has no entry in the vault" [FStr (fr.Hex n)]))
      | Some _ => batch_found found nks
      end
  end.

(** One turn of the loop of [Verify]: a batch, from the latest ledger seen to the one seen then. *)
Definition verify_batch (v : View) (seen : Z) (batch : list fr.Element) : option (Z * res unit) :=
  match mapM (λ n, keys.NullifierKey (VVault v) (fr.Bytes n)) batch with
  | Fail err => Some (seen, Fail err)
  | Ok ks =>
      match rpc.Entries (client v) ks with
      | Fail err => Some (seen, Fail err)
      | Ok (found, latest) =>
          r ← batch_found found (zip batch ks);
          Some (Z.max seen latest, r)
      end
  end.

(** The loop of [Verify], with fuel for its batches. *)
Fixpoint verify_nullifiers (fuel : nat) (v : View) (seen : Z) (ns : list fr.Element) : option (Z * res unit) :=
  match ns, fuel with
  | [], _ => Some (seen, Ok tt)
  | _, O => None
  | _, S fuel =>
      r ← verify_batch v seen (take nullifierBatch ns);
      match r with
      | (seen, Ok _) => verify_nullifiers fuel v seen (drop nullifierBatch ns)
      | (seen, Fail err) => Some (seen, Fail err)
      end
  end.

(** [Verify]: the report and the error, if any. *)
Definition Verify (v : View) (c : Contents) : option (Report * res unit) :=
  let report tail ledger := mkReport (Z.of_nat (length (Commitments c))) (Next v) tail
                              (Z.of_nat (length (Nullifiers c))) ledger in
  r ← checkRoot v c;
  match r with
  | Fail err => Some (report 0 (VLatest v), Fail err)
  | Ok tail =>
      '(ledger, r) ← verify_nullifiers (length (Nullifiers c)) v (VLatest v) (Nullifiers c);
      Some (report tail ledger, r)
  end.

(** [VerifyChain] *)
Definition needs_pins : gerr := Sentinel "vault archive: a chain check needs the vault and network to check against".

Definition VerifyChain (n : Node) (want : Expect) (c : Contents) : option (res Report) :=
  if String.eqb (EVault want) "" || String.eqb (EPassphrase want) "" then Some (Fail needs_pins)
  else
    match Validate (CManifest c) want with
    | Fail err => Some (Fail err)
    | Ok _ =>
        match ReadView n (EVault want) (EPassphrase want) with
        | None => None
        | Some (Fail err) => Some (Fail err)
        | Some (Ok v) =>
            match Verify v c with
            | None => None
            | Some (_, Fail err) => Some (Fail err)
            | Some (report, Ok _) => Some (Ok report)
            end
        end
    end.

(** ** The check of a whole archive *)

Context {codec : Codec} {json : ManifestCodec}.

(** The loop of [VerifyArchive] that has every RPC admit the manifest. *)
Fixpoint read_views (ns : list Node) (want : Expect) (m : Manifest) : option (res (list View)) :=
  match ns with
  | [] => Some (Ok [])
  | n :: ns =>
      match ReadView n (EVault want) (EPassphrase want) with
      | None => None
      | Some (Fail err) => Some (Fail err)
      | Some (Ok v) =>
          match Admits v m with
          | Fail err => Some (Fail err)
          | Ok _ =>
              match read_views ns want m with
              | Some (Ok vs) => Some (Ok (v :: vs))
              | r => r
              end
          end
      end
  end.

(** The loop that has every RPC confirm the contents: the report of the lowest ledger, the first of
    those. [best] is what the loop has so far. *)
Fixpoint verify_all (vs : list View) (c : Contents) (best : option Report) : option (res (option Report)) :=
  match vs with
  | [] => Some (Ok best)
  | v :: vs =>
      match Verify v c with
      | None => None
      | Some (_, Fail err) => Some (Fail err)
      | Some (r, Ok _) =>
          verify_all vs c (match best with
                           | Some b => if RLedger r <? RLedger b then Some r else Some b
                           | None => Some r
                           end)
      end
  end.

(** [VerifyArchive] *)
Definition VerifyArchive (get : string → Fetched) (want : Expect) (ns : list Node) : option (res (Contents * Report)) :=
  if (length ns =? 0)%nat then Some (Fail (Sentinel "vault archive: a chain check needs an RPC"))
  else if String.eqb (EVault want) "" || String.eqb (EPassphrase want) "" then Some (Fail needs_pins)
  else
    match ReadManifest get want with
    | Fail err => Some (Fail err)
    | Ok m =>
        match read_views ns want m with
        | None => None
        | Some (Fail err) => Some (Fail err)
        | Some (Ok vs) =>
            match loadWindows get m with
            | None => None
            | Some (Fail err) => Some (Fail err)
            | Some (Ok c) =>
                match verify_all vs c None with
                | None | Some (Ok None) => None
                | Some (Fail err) => Some (Fail err)
                | Some (Ok (Some report)) => Some (Ok (c, report))
                end
            end
        end
    end.

(** * Specification *)

(** What an RPC shows of a vault whose tree holds [leaves]: their count, and in the ring the root of
    every count up to 255 pairs back. *)
Record shows (leaves : list fr.Element) (v : View) : Prop := {
  sh_next : Next v = Z.of_nat (length leaves);
  sh_even : (length leaves mod 2 = 0)%nat;
  sh_valid : Forall fr.valid leaves;
  sh_room : Z.of_nat (length leaves) <= tree.Capacity;
  sh_newest : vault.Newest (ring v) = Z.of_nat (length leaves) / 2 mod vault.RootHistory;
  sh_ring : ∀ k, (k < 256)%nat → (2 * k <= length leaves)%nat →
    vault.Roots (ring v) !! Z.to_nat ((vault.Newest (ring v) + vault.RootHistory - Z.of_nat k) mod vault.RootHistory) =
      Some (tree.reference_root (take (length leaves - 2 * k) leaves)) }.

(** The commitments among the events after the archive, as the RPC gives them. *)
Definition tail_leaves (v : View) (covered : Z) : list fr.Element :=
  if covered <? VLatest v then
    match events v (u32 (covered + 1)) (VLatest v) with Ok es => commitments_of es | Fail _ => [] end
  else [].

(** The leaves whose root the check of contents computes, and those the root it compares with is of: the first
    of the vault's in the ring's reach, and past it all, the archive's carried on by the events. *)
Definition compared (v : View) (leaves : list fr.Element) (c : Contents) : list fr.Element * list fr.Element :=
  let cs := Commitments c in
  if vault.RootHistory <=? (Next v - Z.of_nat (length cs)) / 2 then (cs ++ tail_leaves v (CoveredTo (CManifest c)), leaves)
  else (cs, take (length cs) leaves).

(** What a check that passed says of contents: their commitments are the vault's first leaves, unless one hash
    is of two different pairs of nodes at one place of the two trees compared. *)
Definition bound_to (v : View) (leaves : list fr.Element) (c : Contents) : Prop :=
  (∃ more, leaves = Commitments c ++ more) ∨ tree.collides (compared v leaves c).1 (compared v leaves c).2.

(** A nullifier has its entry in a ledger. *)
Definition in_ledger (vaultID : string) (ledger : gmap string rpc.Entry) (n : fr.Element) : Prop :=
  ∃ k s, keys.NullifierKey vaultID (fr.Bytes n) = Ok k ∧ rpc.KeyString k = Ok s ∧ is_Some (ledger !! s).

(** * Lemmas *)

(** ** The tree of the archive *)

Lemma two_at_a_time (Q : list fr.Element → Prop) : Q [] → (∀ a, Q [a]) → (∀ a b cs, Q cs → Q (a :: b :: cs)) → ∀ cs, Q cs.
Proof.
  intros H0 H1 H2 cs. assert (Q cs ∧ ∀ a, Q (a :: cs)) as [H _]; [|exact H].
  induction cs as [|c cs [IH1 IH2]]; split; auto.
Qed.

Lemma append_one t leaves a b t' i : tree.represents t leaves → tree.AppendPair a b t = (t', Ok i) →
  tree.represents t' (leaves ++ [a; b]).
Proof.
  intros Ht H. destruct (Z.le_gt_cases (tree.next t + 2) tree.Capacity) as [Hc|Hc].
  - destruct (tree.AppendPair_represents t leaves a b Ht Hc) as (t1 & E & H1). rewrite E in H. by injection H as <- _.
  - by rewrite (tree.AppendPair_full t leaves a b Ht Hc) in H.
Qed.

Lemma append_commitments_represents cs : ∀ t leaves t', (length cs mod 2 = 0)%nat → tree.represents t leaves →
  append_commitments cs t = (t', Ok tt) → tree.represents t' (leaves ++ cs).
Proof.
  induction cs as [|a|a b cs IH] using two_at_a_time; intros t leaves t' He Ht H.
  - injection H as <-. by rewrite app_nil_r.
  - done.
  - cbn [append_commitments] in H. apply st_bind_Ok in H as (i & t1 & E & H).
    change (a :: b :: cs) with ([a; b] ++ cs). rewrite app_assoc. apply (IH t1); [|by apply (append_one t leaves a b t1 i)|done].
    cbn [length] in He. by rewrite <- (Nat.Div0.mod_add (length cs) 1 2), Nat.add_comm.
Qed.

Lemma append_commitments_room cs : ∀ t leaves, tree.represents t leaves →
  Z.of_nat (length leaves + length cs) <= tree.Capacity → ∃ t', append_commitments cs t = (t', Ok tt).
Proof.
  induction cs as [|a|a b cs IH] using two_at_a_time; intros t leaves Ht Hc; [by eexists..|].
  pose proof (proj1 Ht) as Hn. cbn [length] in Hc.
  destruct (tree.AppendPair_represents t leaves a b Ht ltac:(lia)) as (t1 & E & H1).
  destruct (IH t1 _ H1) as [t2 E2]; [rewrite length_app; cbn [length]; lia|].
  exists t2. cbn [append_commitments]. unfold mbind, ST_bind. rewrite E. exact E2.
Qed.

Context {VH : tree.ValidHash NH}.

(** A tree over as many leaves as another sequence, with its root, holds that sequence. *)
Lemma represents_binds t xs ys : tree.represents t xs → Forall fr.valid xs → Forall fr.valid ys → length xs = length ys →
  tree.Root t = tree.reference_root ys → xs = ys ∨ tree.collides xs ys.
Proof.
  intros (Hn & _ & Hc & _ & Hr & _) Hx Hy Hl He. rewrite Hn in Hc. rewrite Hr in He. exact (tree.root_binds xs ys Hx Hy Hl Hc He).
Qed.

(** A commitment that decodes is a field element. *)
Lemma commitments_valid evs : Forall fr.valid (commitments_of evs).
Proof.
  unfold commitments_of, leaves_of. apply Forall_forall. intros x ([e l] & -> & Hl)%list_elem_of_fmap.
  apply list_elem_of_omap in Hl as (e' & _ & He). unfold leaf_of, body in He.
  destruct (Decode e') as [d|] eqn:Ed; [|done]. apply Decode_Ok in Ed as (_ & _ & _ & Hv).
  destruct (EBody d); try done. by injection He as <- <-.
Qed.

(** ** The events after the archive *)

Lemma commitments_app l k : commitments_of (l ++ k) = commitments_of l ++ commitments_of k.
Proof. unfold commitments_of, leaves_of. by rewrite omap_app, map_app. Qed.

(** After events of the commitments [read] the tree holds the archive's leaves and those, or all but the last,
    which waits as the left of a pair. *)
Definition carried (cs read : list fr.Element) (st : tail_state) : Prop :=
  t_next st = Z.of_nat (length (cs ++ read)) ∧ t_next st <= 2 ^ 32 + 1 ∧
  if decide (t_next st mod 2 = 0) then tree.represents (t_tree st) (cs ++ read)
  else ∃ init, read = init ++ [NC_Commitment (t_left st)] ∧ tree.represents (t_tree st) (cs ++ init).

Lemma represents_next t leaves : tree.represents t leaves →
  0 <= Z.of_nat (length leaves) <= 2 ^ 32 ∧ Z.of_nat (length leaves) mod 2 = 0.
Proof. intros (Hl & He & Hc & _). rewrite tree.Capacity_eq in Hc. rewrite Hl in *. lia. Qed.

Lemma tail_event_carried v cs read st e st' : carried cs read st → tail_event v st e = Ok st' →
  carried cs (read ++ commitments_of [e]) st'.
Proof.
  intros Hc H. pose proof Hc as (Hn & Hb & Ht). unfold tail_event in H. destruct (negb (String.eqb _ _)); [done|].
  unfold commitments_of, leaves_of, leaf_of, body. cbn [omap list_omap].
  destruct (Decode e) as [d|]; [|done]. destruct (EBody d) eqn:Eb; try (injection H as <-; cbn; by rewrite app_nil_r).
  destruct (negb (NC_Index _ =? _)); [done|]. cbn [map fst snd].
  destruct (Z.eqb_spec (t_next st mod 2) 0) as [Hm|Hm].
  - injection H as <-. rewrite decide_True in Ht by done. pose proof (represents_next _ _ Ht) as [Hr _]. rewrite <- Hn in Hr.
    unfold carried. cbn [t_next t_tree t_left]. rewrite u64_small by (unfold is_u64, W64; lia).
    split; [rewrite app_assoc, (length_app (cs ++ read)); cbn [length]; lia|]. split; [lia|].
    rewrite decide_False by (rewrite Z.add_mod, Hm by done; done). by exists read.
  - destruct (negb _ || negb _); [done|]. destruct (tree.AppendPair _ _ (t_tree st)) as [t [i|]] eqn:Ea; [|done]. injection H as <-.
    rewrite decide_False in Ht by done. destruct Ht as (init & -> & Ht).
    apply (append_one _ _ _ _ _ _ Ht) in Ea. rewrite <- app_assoc in Ea. cbn [app] in Ea.
    assert (El : cs ++ (init ++ [NC_Commitment (t_left st)]) ++ [NC_Commitment e0] = cs ++ init ++ [NC_Commitment (t_left st); NC_Commitment e0])
      by by rewrite <- !app_assoc.
    pose proof (represents_next _ _ Ea) as [Hr He].
    unfold carried. cbn [t_next t_tree t_left]. rewrite u64_small by (unfold is_u64, W64; rewrite !length_app in *; cbn [length] in *; lia).
    assert (t_next st + 1 = Z.of_nat (length (cs ++ init ++ [NC_Commitment (t_left st); NC_Commitment e0]))) as ->.
    { rewrite Hn, !length_app. cbn [length]. lia. }
    rewrite El. split; [done|]. split; [lia|]. by rewrite decide_True.
Qed.

Lemma tail_events_carried v cs es : ∀ read st st', carried cs read st → tail_events v st es = Ok st' →
  carried cs (read ++ commitments_of es) st'.
Proof.
  induction es as [|e es IH]; intros read st st' Hc H.
  - injection H as <-. by rewrite app_nil_r.
  - cbn [tail_events] in H. apply bind_Ok in H as (st1 & H1 & H).
    change (e :: es) with ([e] ++ es). rewrite commitments_app, app_assoc.
    apply (IH _ st1); [by eapply tail_event_carried|done].
Qed.

(** ** The root *)

Lemma mod_2_nat n : (n mod 2 = 0)%nat → Z.of_nat n mod 2 = 0.
Proof. intros H. change 2 with (Z.of_nat 2). by rewrite <- Nat2Z.inj_mod, H. Qed.

(** The leaves of the vault that the tail read accounts for. *)
Lemma through_events_binds v leaves cs t covered behind tail : shows leaves v → tree.represents t cs → Forall fr.valid cs →
  checkRootThroughEvents v t covered (Z.of_nat (length cs)) behind = Some (Ok tail) →
  leaves = cs ++ tail_leaves v covered ∨ tree.collides (cs ++ tail_leaves v covered) leaves.
Proof.
  intros [Hn He Hvalid Hc Hnew Hring] Ht Hcs H. unfold checkRootThroughEvents in H.
  destruct (if covered <? VLatest v then _ else _) as [es|] eqn:Ees; [|done].
  assert (Etail : tail_leaves v covered = commitments_of es).
  { unfold tail_leaves. destruct (covered <? VLatest v); [|by injection Ees as <-]. apply or_fail_Ok in Ees.
    destruct (events v _ _); [|done]. by injection Ees as ->. }
  rewrite Etail. destruct (tail_events v _ es) as [st|] eqn:E; [|done].
  destruct (Z.eqb_spec (t_next st) (Next v)) as [Hx|]; cbn [negb] in H; [|done].
  unfold vault.Current in H. destruct (vault.Roots (ring v) !! Z.to_nat (vault.Newest (ring v))) as [root|] eqn:Er; [|done].
  cbn [mbind option_bind] in H. case_bool_decide as Hroot; [|done].
  assert (carried cs [] (mkTail t (Z.of_nat (length cs)) no_leaf (mkPosition 0 0 0 0))) as H0.
  { pose proof (represents_next _ _ Ht) as [Hr Hev]. split; [by rewrite app_nil_r|]. cbn [t_next t_tree]. split; [lia|].
    rewrite decide_True by done. by rewrite app_nil_r. }
  destruct (tail_events_carried v cs es _ _ _ H0 E) as (Hlen & _ & Hrep). cbn [app] in *.
  rewrite Hx, Hn, decide_True in Hrep by by apply mod_2_nat. rewrite Hx, Hn in Hlen.
  assert (tree.Root (t_tree st) = tree.reference_root leaves) as Hrl.
  { rewrite Hroot. specialize (Hring 0%nat ltac:(lia) ltac:(lia)). rewrite Nat.mul_0_r, Nat.sub_0_r, firstn_all in Hring.
    assert ((vault.Newest (ring v) + vault.RootHistory - Z.of_nat 0) mod vault.RootHistory = vault.Newest (ring v)) as Em.
    { unfold vault.RootHistory in *. rewrite Z.sub_0_r, <- (Z.mul_1_l 256) at 1. rewrite Z.mod_add by done.
      rewrite Hnew. by apply Z.mod_mod. }
    rewrite Em, Er in Hring. by injection Hring. }
  destruct (represents_binds (t_tree st) _ leaves Hrep) as [<-|]; [|done|lia|done|by left|by right].
  apply Forall_app. split; [done|apply commitments_valid].
Qed.

(** A root check that passes proves the archive's leaves the vault's first, or finds a collision. *)
Lemma checkRoot_binds v leaves c tail : shows leaves v → (length (Commitments c) mod 2 = 0)%nat → Forall fr.valid (Commitments c) →
  checkRoot v c = Some (Ok tail) → bound_to v leaves c.
Proof.
  intros Hs Hev Hvc H. pose proof Hs as [Hn He Hvalid Hc Hnew Hring]. unfold checkRoot in H. unfold bound_to, compared.
  destruct (Z.ltb_spec (Next v) (Z.of_nat (length (Commitments c)))) as [|Hle]; [done|].
  destruct (append_commitments (Commitments c) tree.empty) as [t [[]|]] eqn:Et; [|done].
  apply (append_commitments_represents _ _ [] t Hev tree.represents_empty) in Et. cbn [app] in Et.
  set (cs := Commitments c) in *. rewrite Hn in *.
  rewrite u64_small in H by (unfold is_u64, W64; rewrite tree.Capacity_eq in Hc; lia).
  destruct (Z.leb_spec vault.RootHistory ((Z.of_nat (length leaves) - Z.of_nat (length cs)) / 2)) as [|Hb].
  { apply (through_events_binds v leaves cs t _ _ _ Hs Et Hvc) in H as [H|H]; [left; by eexists|by right]. }
  assert (∃ k, (length leaves - length cs = 2 * k)%nat) as [k Hk].
  { apply Nat.Div0.mod_divides in He as [x Hx], Hev as [y Hy]. exists (x - y)%nat. lia. }
  assert ((Z.of_nat (length leaves) - Z.of_nat (length cs)) / 2 = Z.of_nat k) as Ek.
  { symmetry. apply Z.div_unique_exact; lia. }
  rewrite Ek in *. unfold vault.RootHistory in Hb.
  assert (0 <= vault.Newest (ring v) < 256) as Hnb.
  { rewrite Hnew. unfold vault.RootHistory. by apply Z.mod_pos_bound. }
  rewrite (u64_small (_ + _)), u64_small in H by (unfold is_u64, W64, vault.RootHistory in *; rewrite ?u64_small; unfold is_u64, W64; lia).
  rewrite (Hring k) in H by lia. cbn [mbind option_bind] in H. case_bool_decide as Hroot; [|done].
  replace (length leaves - 2 * k)%nat with (length cs) in Hroot by lia. cbn [fst snd].
  destruct (represents_binds t cs (take (length cs) leaves) Et Hvc) as [E|]; [by apply Forall_take| |by symmetry| |by right].
  { rewrite length_take. lia. }
  left. exists (drop (length cs) leaves). rewrite E at 1. by rewrite take_drop.
Qed.

(** The vault's own first leaves pass while the ring holds their root. *)
Lemma checkRoot_accepts v leaves c n : shows leaves v → (n mod 2 = 0)%nat → (n <= length leaves)%nat →
  (length leaves - n < 512)%nat → Commitments c = take n leaves → checkRoot v c = Some (Ok 0).
Proof.
  intros [Hn He _ Hc Hnew Hring] Hev Hle Hring' Hcs. unfold checkRoot. rewrite Hcs.
  assert (length (take n leaves) = n) as Hl by (rewrite length_take; lia). rewrite Hl, Hn.
  destruct (Z.ltb_spec (Z.of_nat (length leaves)) (Z.of_nat n)) as [|_]; [lia|].
  destruct (append_commitments_room (take n leaves) tree.empty [] tree.represents_empty) as [t Et]; [cbn [length Nat.add]; lia|].
  rewrite Et. apply (append_commitments_represents _ _ [] t) in Et; [|by rewrite Hl|exact tree.represents_empty]. cbn [app] in Et.
  rewrite u64_small by (unfold is_u64, W64; rewrite tree.Capacity_eq in Hc; lia).
  assert (∃ k, (length leaves - n = 2 * k)%nat) as [k Hk].
  { apply Nat.Div0.mod_divides in He as [x Hx], Hev as [y Hy]. exists (x - y)%nat. lia. }
  assert ((Z.of_nat (length leaves) - Z.of_nat n) / 2 = Z.of_nat k) as -> by (symmetry; apply Z.div_unique_exact; lia).
  destruct (Z.leb_spec vault.RootHistory (Z.of_nat k)) as [|_]; [unfold vault.RootHistory in *; lia|].
  assert (0 <= vault.Newest (ring v) < 256) as Hnb.
  { rewrite Hnew. unfold vault.RootHistory. by apply Z.mod_pos_bound. }
  rewrite (u64_small (_ + _)), u64_small by (unfold is_u64, W64, vault.RootHistory in *; rewrite ?u64_small; unfold is_u64, W64; lia).
  rewrite (Hring k) by lia. cbn [mbind option_bind]. replace (length leaves - 2 * k)%nat with n by lia.
  rewrite bool_decide_eq_true_2; [done|]. destruct Et as (_ & _ & _ & _ & Hr & _). exact (eq_sym Hr).
Qed.

(** ** The nullifiers *)

Lemma mapM_res_pointwise {A B} (f : A → res B) l k : mapM f l = Ok k → length k = length l ∧
  ∀ i x, l !! i = Some x → ∃ y, k !! i = Some y ∧ f x = Ok y.
Proof.
  intros H. split; [by eapply mapM_res_length|]. apply mapM_Ok in H. intros i x Hx. exact (Forall2_lookup_l _ _ _ _ _ H Hx).
Qed.

(** What a read of entries returns is the ledger's. *)
Lemma entries_of_ledger c ledger latest fuel : rpc.serves c ledger latest → ∀ acc l0 ks m l, acc ⊆ ledger →
  rpc.read_batches fuel c (acc, l0) ks = Ok (m, l) → m ⊆ ledger.
Proof.
  intros Hc. induction fuel as [|fuel IH]; intros acc l0 ks m l Ha H.
  { destruct ks; injection H as <- _; done. }
  destruct ks as [|k0 ks0]; [injection H as <- _; done|]. set (ks := k0 :: ks0) in *. cbn [rpc.read_batches] in H. fold ks in H.
  apply bind_Ok in H as ([acc1 l1] & H1 & H). refine (IH acc1 l1 _ m l _ H). clear H.
  unfold rpc.read_batch in H1. apply bind_Ok in H1 as (ss & Hss & H1). apply bind_Ok in H1 as ([es l2] & He & H1).
  injection H1 as <- _. apply mapM_res_pointwise in Hss as [Hlen _].
  destruct (Hc ss) as (es' & He' & Hin); [rewrite Hlen, length_take; lia|]. rewrite He in He'. injection He' as -> ->.
  apply map_subseteq_spec. intros s e Hs. apply rpc.foldl_insert_entries in Hs as [[_ Hs]%Hin|[_ Hs]].
  - exact Hs.
  - by apply (lookup_weaken _ _ _ _ Hs).
  - intros s' e1 e2 [_ H1]%Hin [_ H2]%Hin. congruence.
Qed.

Lemma batch_found_entries found nks : batch_found found nks = Some (Ok tt) →
  ∀ n k, (n, k) ∈ nks → ∃ s, rpc.KeyString k = Ok s ∧ is_Some (found !! s).
Proof.
  induction nks as [|[n k] nks IH]; intros H n' k' Hin; [by apply not_elem_of_nil in Hin|]. cbn [batch_found] in H.
  unfold entryOf in H. destruct (rpc.KeyString k) as [s|] eqn:Ek; cbn [mbind option_bind] in H; [|done].
  destruct (found !! s) as [e|] eqn:Ef; cbn [mbind option_bind] in H; [|done].
  apply elem_of_cons in Hin as [Heq|Hin].
  - injection Heq as -> ->. exists s. rewrite Ef. by split; [|eexists].
  - destruct (own_key e) as [k2|]; cbn [mbind option_bind] in H; [|done]. destruct (rpc.KeyString k2) as [got|]; [|done].
    destruct (String.eqb got s); [|done]. by apply (IH H n' k').
Qed.

Lemma verify_batch_entries v ledger latest seen batch seen' : rpc.serves (client v) ledger latest →
  verify_batch v seen batch = Some (seen', Ok tt) → Forall (in_ledger (VVault v) ledger) batch.
Proof.
  intros Hc H. unfold verify_batch in H. destruct (mapM _ batch) as [ks|] eqn:Ek; [|done].
  destruct (rpc.Entries (client v) ks) as [[found l]|] eqn:Ee; [|done].
  destruct (batch_found found (zip batch ks)) as [r|] eqn:Ef; cbn [mbind option_bind] in H; [|done]. injection H as _ ->.
  apply (entries_of_ledger _ ledger latest _ Hc) in Ee; [|apply map_empty_subseteq].
  apply mapM_res_pointwise in Ek as [Hl Hk]. apply Forall_forall. intros n Hn. apply list_elem_of_lookup in Hn as [i Hi].
  destruct (Hk i n Hi) as (k & Hki & Hkey).
  destruct (batch_found_entries found _ Ef n k) as (s & Hs & [e He]).
  { apply (list_elem_of_lookup_2 _ i). rewrite lookup_zip_with, Hi. cbn. by rewrite Hki. }
  exists k, s. split; [done|]. split; [done|]. exists e. by apply (lookup_weaken _ _ _ _ He).
Qed.

Lemma verify_nullifiers_entries v ledger latest fuel : rpc.serves (client v) ledger latest → ∀ seen ns seen',
  verify_nullifiers fuel v seen ns = Some (seen', Ok tt) → Forall (in_ledger (VVault v) ledger) ns.
Proof.
  intros Hc. induction fuel as [|fuel IH]; intros seen ns seen' H; destruct ns as [|n ns]; [constructor|done|constructor|].
  set (all := n :: ns) in *. cbn [verify_nullifiers] in H. fold all in H.
  destruct (verify_batch v seen (take nullifierBatch all)) as [[s1 [[]|]]|] eqn:Eb; cbn [mbind option_bind] in H; [|done|done].
  rewrite <- (take_drop nullifierBatch all). apply Forall_app. split.
  - by apply (verify_batch_entries v ledger latest seen _ s1 Hc).
  - by apply (IH s1 _ seen').
Qed.

(** ** The whole archive *)

(** A manifest's numbers are in the range of their Go types. *)
Class ManifestCodecLaws : Prop := decode_typed : ∀ raw m, decode_manifest raw = Some m → manifest_typed m.

Lemma ReadView_vault n vaultID passphrase v : ReadView n vaultID passphrase = Some (Ok v) →
  VVault v = vaultID ∧ client v = Entries_ n.
Proof.
  unfold ReadView. destruct (mbind _ _) as [[[[rk nk] es] l]|]; [|done].
  destruct (entryOf es rk) as [re|]; cbn [mbind option_bind]; [|done].
  destruct (entryOf es nk) as [ne|]; cbn [mbind option_bind]; [|done].
  destruct re as [re|], ne as [ne|]; try done. intros [= H].
  apply bind_Ok in H as (rv & _ & H). apply bind_Ok in H as (r & _ & H). apply bind_Ok in H as (nv & _ & H).
  unfold view_of in H. destruct nv; try done. apply bind_Ok in H as (? & _ & H). apply bind_Ok in H as (? & _ & H).
  by injection H as <-.
Qed.

Lemma read_views_all want m : ∀ ns vs, read_views ns want m = Some (Ok vs) → ∀ n, n ∈ ns →
  ∃ v, v ∈ vs ∧ ReadView n (EVault want) (EPassphrase want) = Some (Ok v) ∧ Admits v m = Ok tt.
Proof.
  induction ns as [|n ns IH]; intros vs H n' Hn; [by apply not_elem_of_nil in Hn|]. cbn [read_views] in H.
  destruct (ReadView n _ _) as [[v|]|] eqn:Ev; [|done|done]. destruct (Admits v m) as [[]|] eqn:Ea; [|done].
  destruct (read_views ns want m) as [[vs'|]|]; [|done|done]. injection H as <-.
  apply elem_of_cons in Hn as [->|Hn]; [exists v; split; [by left|done]|].
  destruct (IH vs' eq_refl n' Hn) as (v' & Hv & H'). exists v'. split; [by right|done].
Qed.

Lemma verify_all_each c : ∀ vs best r, verify_all vs c best = Some (Ok r) → ∀ v, v ∈ vs →
  ∃ report, Verify v c = Some (report, Ok tt).
Proof.
  induction vs as [|v vs IH]; intros best r H v' Hv; [by apply not_elem_of_nil in Hv|]. cbn [verify_all] in H.
  destruct (Verify v c) as [[report [[]|]]|] eqn:E; [|done|done].
  apply elem_of_cons in Hv as [->|Hv]; [by exists report|]. by apply (IH _ _ H).
Qed.

(** What a view that confirms contents proves of them. *)
Lemma Verify_proves v leaves ledger latest c report : shows leaves v → rpc.serves (client v) ledger latest →
  (length (Commitments c) mod 2 = 0)%nat → Forall fr.valid (Commitments c) → Verify v c = Some (report, Ok tt) →
  bound_to v leaves c ∧ Forall (in_ledger (VVault v) ledger) (Nullifiers c).
Proof.
  intros Hs Hc He Hvc H. unfold Verify in H. destruct (checkRoot v c) as [[tail|]|] eqn:Er; cbn [mbind option_bind] in H; [|done|done].
  destruct (verify_nullifiers _ v _ _) as [[l r]|] eqn:En; cbn [mbind option_bind] in H; [|done]. injection H as _ ->.
  split; [by apply (checkRoot_binds v leaves c tail)|]. by apply (verify_nullifiers_entries v ledger latest _ Hc _ _ _ En).
Qed.

Lemma ReadManifest_valid {laws : ManifestCodecLaws} get want m : EVault want ≠ "" → ReadManifest get want = Ok m →
  manifest_typed m ∧ Validate m want = Ok tt ∧ MVault m = EVault want.
Proof.
  intros Hw H. unfold ReadManifest in H. destruct (get _) as [raw| |]; [|done..]. unfold ParseManifest in H.
  destruct (manifestKeysOnce raw); [done|]. destruct (decode_manifest raw) as [m'|] eqn:Ed; [|done].
  apply bind_Ok in H as (? & _ & H). apply bind_Ok in H as ([] & Hval & [= ->]).
  split; [by apply (laws raw)|]. split; [done|]. unfold Validate in Hval.
  repeat (apply bind_Ok in Hval as (? & ?%fail_if_Ok & Hval)).
  match goal with D : negb (String.eqb (EVault want) "") && negb (String.eqb (MVault m) (EVault want)) = false |- _ =>
    apply andb_false_iff in D as [D|D]; apply negb_false_iff, String.eqb_eq in D end; done.
Qed.

End view.

(** ** A concrete vault, whose tree has two leaves, and its archive, to evaluate the theorems on. *)
Module demo.

(** A hash that is not one. *)
#[export] Instance hash : tree.NodeHash := λ l r, l.
#[export] Instance hash_valid : tree.ValidHash hash.
Proof. by intros l r Hl _. Qed.

Definition vaultID : string := archive.demo.vaultID.

(** The example SDK of the archive, whose two keys of the tree are one byte each. *)
Definition sdk : StellarSDK := {|
  strkey_decode := @strkey_decode archive.demo.sdk;
  strkey_encode := @strkey_encode archive.demo.sdk;
  muxed_of_string := @muxed_of_string archive.demo.sdk;
  address_string := @address_string archive.demo.sdk;
  account_id_of := @account_id_of archive.demo.sdk;
  credit_asset_ok := @credit_asset_ok archive.demo.sdk;
  is_public_key := @is_public_key archive.demo.sdk;
  unmarshal_base64 := @unmarshal_base64 archive.demo.sdk;
  marshal_base64 := @marshal_base64 archive.demo.sdk;
  marshal_val := @marshal_val archive.demo.sdk;
  unmarshal_key := @unmarshal_key archive.demo.sdk;
  marshal_key k :=
    match k with
    | KeyContractData _ (ScvVec (Some [ScvSymbol name])) _ =>
        if String.eqb name "Roots" then Some [65] else if String.eqb name "NextLeaf" then Some [66] else None
    | _ => None
    end;
  base64_encode := @base64_encode archive.demo.sdk;
  keccak256 := @keccak256 archive.demo.sdk |}.

Definition leaves : list fr.Element := [fr.zero; fr.zero].

Definition roots : rpc.Entry := rpc.mkEntry (rpc.DataContract
  (scval.Struct [scval.mkField "newest" (scval.U32 1);
    scval.mkField "roots" (scval.Vec (repeat (scval.U256 (fr.Bytes fr.zero)) 256))])) 7 None.
Definition next_leaf : rpc.Entry := rpc.mkEntry (rpc.DataContract (scval.U64 2)) 7 None.

#[export] Instance own : EntryKey := λ e,
  let key := match rpc.Data e with rpc.DataContract (ScvU64 _) => @keys.NextLeafKey sdk vaultID | _ => @keys.RootsKey sdk vaultID end in
  match key with Ok k => Some k | Fail _ => None end.

Definition entries : list (string * rpc.Entry) := [("A"%string, roots); ("B"%string, next_leaf)].
Definition ledger : gmap string rpc.Entry := list_to_map entries.

Definition node : Node := mkNode (Ok "Test"%string)
  (rpc.mkClient (Ok (1, 60000, 100)) (λ batch, Ok (filter (λ p, p.1 ∈ batch) entries, 60000)))
  (follow.mkClient (λ _ _, Fail ErrChain) (λ _, Fail ErrChain)).

Definition want : Expect := mkExpect vaultID "Test" 20000.

#[export] Instance json : ManifestCodec := {|
  top_keys _ := Some manifestFields;
  decode_manifest _ := Some archive.demo.manifest;
  Canonical _ := "{}"%string |}.

#[export] Instance json_laws : ManifestCodecLaws.
Proof. intros raw m [= <-]. exact archive.demo.typed. Qed.

(** The manifest and the one file of the archive. *)
Definition get (name : string) : Fetched := if String.eqb name "manifest.json" then Found "{}" else archive.demo.get name.

Definition verified : option (res (Contents * Report)) :=
  @VerifyArchive sdk own follow.demo.protocol hash archive.demo.codec json get want [node].

Lemma node_serves : rpc.serves (Entries_ node) ledger 60000.
Proof.
  intros batch _. eexists. split; [reflexivity|]. intros s e. rewrite list_elem_of_filter. cbn [fst].
  unfold ledger. rewrite <- elem_of_list_to_map; [done|]. cbn.
  apply (bool_decide_unpack (NoDup _)). vm_compute. exact I.
Qed.

(** What a view with the two leaves' counts and roots shows. *)
Lemma view_shows v : Next v = 2 → vault.Newest (ring v) = 1 →
  (∀ k, (k < 2)%nat → vault.Roots (ring v) !! k = Some fr.zero) → @shows hash leaves v.
Proof.
  intros E1 E2 E3. split; [exact E1|done|by repeat constructor; apply fr.valid_zero|discriminate|by rewrite E2|].
  intros k _ Hk. cbn [length leaves] in Hk. rewrite E2. destruct k as [|[|k]]; [| |lia].
  - change (Z.to_nat _) with 1%nat. rewrite E3 by lia. reflexivity.
  - change (Z.to_nat _) with 0%nat. rewrite E3 by lia. reflexivity.
Qed.

(** The node's view is of the tree of those leaves. *)
Lemma node_shows v : @ReadView sdk own follow.demo.protocol node vaultID "Test" = Some (Ok v) →
  @shows hash leaves v ∧ client v = Entries_ node.
Proof.
  intros E. split; [|exact (proj2 (@ReadView_vault sdk own follow.demo.protocol node vaultID "Test" v E))].
  pose (p := λ r : option (res View), match r with
    | Some (Ok v) => Some (Next v, vault.Newest (ring v), vault.Roots (ring v) !! 0%nat, vault.Roots (ring v) !! 1%nat) | _ => None end).
  assert (Ep : p (@ReadView sdk own follow.demo.protocol node vaultID "Test") = Some (2, 1, Some fr.zero, Some fr.zero)) by (vm_compute; reflexivity).
  rewrite E in Ep. cbn [p] in Ep. injection Ep as E1 E2 E3 E4. apply view_shows; [done..|].
  intros [|[|k]] Hk; [done|done|lia].
Qed.

End demo.

(** * Properties *)

(** The root check knows the vault's leaves: against a view of a vault, commitments in pairs that
    pass it are the first of the vault's leaves, in the ring's reach or carried on by the events
    after the archive, unless one hash is of two different pairs of nodes of the trees compared; and the vault's
    own first leaves do pass while the ring still holds their root. *)
Theorem root_check_binds_the_leaves `{sdk : StellarSDK, own : EntryKey, P : follow.Protocol, NH : tree.NodeHash}
    {VH : tree.ValidHash NH} (v : View) (leaves : list fr.Element) (c : Contents) (Hs : shows leaves v)
    (He : (length (Commitments c) mod 2 = 0)%nat) (Hc : Forall fr.valid (Commitments c)) :
  (∀ tail, checkRoot v c = Some (Ok tail) → bound_to v leaves c) ∧
  (∀ more, leaves = Commitments c ++ more → (length more < 512)%nat → checkRoot v c = Some (Ok 0)).
Proof.
  split; [by intros tail; apply checkRoot_binds|]. intros more -> Hm.
  apply (checkRoot_accepts v (Commitments c ++ more) c (length (Commitments c)) Hs He).
  - rewrite length_app. lia.
  - rewrite length_app. lia.
  - by rewrite take_app_length.
Qed.

(** C11: an archive that is verified is the vault's: when [VerifyArchive] accepts against several RPCs, of
    which one shows the vault as it is, the archive is of the vault asked for and its files hold one
    history of events, whose commitments are the first of the vault's leaves in order, and each of whose
    nullifiers is spent in the vault. The commitments may differ from the vault's only where, at one place of the
    tree over them (with the leaves of the events after the archive, when it ends before the roots the vault
    keeps) and of the vault's own, two different pairs of reduced field elements have one hash. *)
Theorem verified_archives_are_the_vaults
    `{sdk : StellarSDK, own : EntryKey, P : follow.Protocol, NH : tree.NodeHash, codec : Codec, json : ManifestCodec}
    {VH : tree.ValidHash NH} {laws : ManifestCodecLaws} (get : string → Fetched) (want : Expect) (ns : list Node) (n : Node)
    (leaves : list fr.Element) (ledger : gmap string rpc.Entry) (latest : Z) (c : Contents) (report : Report)
    (Hn : n ∈ ns)
    (Hv : ∀ v, ReadView n (EVault want) (EPassphrase want) = Some (Ok v) →
       shows leaves v ∧ rpc.serves (client v) ledger latest)
    (H : VerifyArchive get want ns = Some (Ok (c, report))) :
  (∃ v, ReadView n (EVault want) (EPassphrase want) = Some (Ok v) ∧ bound_to v leaves c) ∧
  Forall (in_ledger (EVault want) ledger) (Nullifiers c) ∧
  ∃ evs, window_ok (windowStart (DeployLedger (CManifest c))) (CoveredTo (CManifest c))
           (DeployLedger (CManifest c)) (EVault want) 0 evs ∧
    Commitments c = commitments_of evs ∧ Nullifiers c = nullifiers_of evs.
Proof.
  unfold VerifyArchive in H. destruct (length ns =? 0)%nat; [done|].
  destruct (String.eqb_spec (EVault want) "") as [|Hw]; [done|]. cbn [orb] in H. destruct (String.eqb (EPassphrase want) ""); [done|].
  destruct (ReadManifest get want) as [m|] eqn:Em; [|done].
  destruct (read_views ns want m) as [[vs|]|] eqn:Evs; [|done|done].
  destruct (loadWindows get m) as [[c'|]|] eqn:El; [|done|done].
  destruct (verify_all vs c' None) as [[[r|]|]|] eqn:Ea; [|done..]. injection H as -> _.
  destruct (read_views_all want m ns vs Evs n Hn) as (v & Hin & Hr & _).
  destruct (verify_all_each c vs None _ Ea v Hin) as [rep Hver]. destruct (Hv v Hr) as [Hs Hc].
  assert (manifest_typed m ∧ Validate m want = Ok tt ∧ MVault m = EVault want) as (Ht & Hval & Hvault) by by apply (ReadManifest_valid get).
  pose proof (loadWindows_history get m want Ht Hval) as Hh. rewrite El in Hh.
  destruct Hh as (Hm & evs & Hok & Hp & Hcs & Hns & _).
  destruct (Verify_proves v leaves ledger latest c rep Hs Hc) as [H1 H2]; [| |done|].
  { rewrite Hcs. unfold commitments_of. by rewrite length_map. }
  { rewrite Hcs. apply commitments_valid. }
  rewrite (proj1 (ReadView_vault _ _ _ _ Hr)) in H2. rewrite Hm, <- Hvault in *.
  split; [by exists v|]. split; [exact H2|]. by exists evs.
Qed.

Lemma root_check_witness :
  ∃ v : View, @checkRoot demo.sdk demo.hash v (mkContents archive.demo.manifest demo.leaves []) = Some (Ok 0).
Proof.
  set (v := mkView (Entries_ demo.node) demo.vaultID (vault.mkRootRing [fr.zero; fr.zero] 1) (λ _ _, Ok []) 2 100).
  assert (Hs : @shows demo.hash demo.leaves v).
  { apply demo.view_shows; [reflexivity|reflexivity|]. intros [|[|k]] Hk; [reflexivity|reflexivity|lia]. }
  exists v. exact (proj2 (@root_check_binds_the_leaves demo.sdk demo.own follow.demo.protocol demo.hash demo.hash_valid v demo.leaves
    (mkContents archive.demo.manifest demo.leaves []) Hs eq_refl ltac:(repeat constructor; apply fr.valid_zero)) [] eq_refl ltac:(apply Nat.ltb_lt; reflexivity)).
Defined.

(** The archive of the two leaves, verified against the vault that has them. *)
Lemma verified_archives_witness :
  ∃ c report, demo.verified = Some (Ok (c, report)) ∧ Commitments c = demo.leaves ∧
    ∃ v, @ReadView demo.sdk demo.own follow.demo.protocol demo.node demo.vaultID "Test" = Some (Ok v) ∧
      @bound_to demo.sdk demo.hash v demo.leaves c.
Proof.
  assert (Ec : match demo.verified with Some (Ok (c, _)) => Some (Commitments c) | _ => None end = Some demo.leaves)
    by (vm_compute; reflexivity).
  destruct demo.verified as [[[c report]|err]|] eqn:E; [|discriminate Ec..]. injection Ec as Ec.
  exists c, report. split; [reflexivity|]. split; [exact Ec|].
  refine (proj1 (@verified_archives_are_the_vaults demo.sdk demo.own follow.demo.protocol demo.hash archive.demo.codec demo.json
    demo.hash_valid demo.json_laws demo.get demo.want [demo.node] demo.node demo.leaves demo.ledger 60000 c report
    (list_elem_of_here _ _) _ E)).
  intros v Hv. apply demo.node_shows in Hv as [H1 H2]. split; [exact H1|]. rewrite H2. exact demo.node_serves.
Defined.

End archivechain.
