(* ===== verification/Checker.v ===== *)
(** The checks of [services/internal/screening]: the lists the policy consults and the guards of their
    updates (sources.go), and the checker of an address and of its funders (checker.go).

    Horizon, which names an account's inflows, is not under src/: it is a function of the account and
    of the time the lookup goes back to. A check asks about an account once, so what the answers of
    different calls would be does not matter. *)
From stdpp Require Import pretty.
From S2P Require Import Prelude.
From S2P Require Import Xdr.
From S2P Require Import ScVal.
From S2P Require Import Rpc.
From S2P Require Import Freeze.

Module checker.

Import scval.

(** ** Sources *)

Definition ReasonCancelled : Z := 0.
Definition ReasonSanctions : Z := 1.
Definition ReasonExploit : Z := 2.
Definition ReasonFrozen : Z := 3.
Definition ReasonFraud : Z := 4.
Definition ReasonReview : Z := 5.
Definition ReasonHeld : Z := 6.
Definition ReasonOther : Z := 99.
Definition ReasonCourtOrder : Z := 100.

Definition validReason (r : Z) : bool :=
  bool_decide (r ∈ [ReasonSanctions; ReasonExploit; ReasonFrozen; ReasonFraud; ReasonReview; ReasonOther]).

(** [Hit] is a match of an address in a source. *)
Record Hit : Type := mkHit { Source_ : string; Reason : Z; HRefer : bool; HDetail : string }.

(** [SourceStatus]; a time that was never set is [None], the maximum age is in seconds. *)
Record SourceStatus : Type := mkStatus {
  SName : string; Version : string; FetchedAt : option Z; MaxAge : Z }.

(** [Guard] refuses a source update that looks broken. *)
Record Guard : Type := mkGuard { MaxShrinkPct : Z; Canaries : list string }.

Definition ErrSuspect : gerr := Sentinel "suspect update refused".

(** The first canary the update lacks. *)
Fixpoint lacking (canaries : list string) (has : string → bool) : option string :=
  match canaries with
  | [] => None
  | c :: canaries => if has c then lacking canaries has else Some c
  end.

(** [Guard.check] returns the canaries the update holds. *)
Definition check (g : option Guard) (name : string) (prev size : Z) (known : list string)
    (has : string → bool) : res (list string) :=
  match g with
  | None => Ok []
  | Some g =>
      _ ← fail_if ((0 <? prev) && (0 <? MaxShrinkPct g) && (i64 (size * 100) <? i64 (prev * (100 - MaxShrinkPct g))))
            (Wrapf ErrSuspect "%s: %w: the update shrinks the list from %d to %d entries" [FStr name; FInt prev; FInt size]);
      let canaries := match Canaries g with [] => known | _ => Canaries g end in
      match lacking canaries has with
      | Some c => Fail (Wrapf ErrSuspect "%s: %w: the update lacks the canary %q" [FStr name; FStr c])
      | None => Ok canaries
      end
  end.

(** [list] holds a source's entries and when they were fetched; [maxAge] is in nanoseconds. *)
Record lst : Type := mkLst {
  name : string; maxAge : Z; guard : option Guard; entries : gmap string Hit; version : string;
  fetchedAt : option Z; size : Z; known : list string }.

Definition newList (name : string) (maxAge : Z) : lst := mkLst name maxAge None ∅ "" None 0 [].

(** [list.accept] checks an update against the guard and the last accepted copy, and keeps it. *)
Definition accept (l : lst) (es : gmap string Hit) (v : string) (fetched : option Z) (sz : Z)
    (has : string → bool) : res lst :=
  canaries ← check (guard l) (name l) (size l) sz (known l) has;
  mret (mkLst (name l) (maxAge l) (guard l) es v fetched sz canaries).

(** [list.lastGood] *)
Definition lastGood (l : lst) : Z * list string * bool :=
  (size l, known l, match guard l with Some _ => true | None => false end).

(** [list.restore] *)
Definition restore (l : lst) (sz : Z) (canaries : list string) : lst :=
  mkLst (name l) (maxAge l) (guard l) (entries l) (version l) (fetchedAt l) sz canaries.

(** [inEntries] *)
Definition inEntries (es : gmap string Hit) (address : string) : bool :=
  match es !! address with Some _ => true | None => false end.

(** [list.Lookup] *)
Definition Lookup (l : lst) (address : string) : option Hit := entries l !! address.

Definition second : Z := 1000000000.

(** [list.Status] *)
Definition Status (l : lst) : SourceStatus :=
  mkStatus (name l) (version l) (fetchedAt l) (Z.quot (maxAge l) second).

(** [list.set] *)
Definition set (l : lst) (es : gmap string Hit) (v : string) (fetched : option Z) : lst :=
  mkLst (name l) (maxAge l) (guard l) es v fetched (size l) (known l).

(** [Source]: a list, and whether it names only the addresses it lists. *)
Record Source : Type := mkSource { SList : lst; directOnly : bool }.

(** *** The frozen keys, the curated list and the self-reports *)

Definition keyed (h : Hit) (addresses : list string) : gmap string Hit :=
  foldl (λ m a, <[a := h]> m) ∅ addresses.

Section refresh.
Context {sdk : StellarSDK}.

(** [strkey.IsValidEd25519PublicKey] or [strkey.IsValidContractAddress] *)
Definition is_contract (a : string) : bool :=
  match strkey_decode VersionContract a with Some _ => true | None => false end.
Definition is_address (a : string) : bool := is_public_key a || is_contract a.

(** [FrozenSource.Refresh], of a client's answers at a time. *)
Definition Refresh_Frozen (l : lst) (c : rpc.Client) (id now : Z) : res lst :=
  s ← freeze.Read c id;
  let h := mkHit (name l) ReasonFrozen false "frozen by validators" in
  mret (set l (keyed h (elements (freeze.Accounts s) ++ elements (freeze.Contracts s)))
          (pretty (Z.of_nat (base.size (freeze.Keys s))) +:+ " keys") (Some now)).

(** [listFile]: the curated list as the JSON decoder reads it; its entries may be missing. *)
Record listEntry : Type := mkListEntry { EAddress : string; EReason : Z; ESource : string }.
Record listFile : Type := mkListFile {
  FVersion : string; UpdatedAt : option Z; Entries : option (list listEntry) }.

(** What [strings.TrimSpace] leaves of an ASCII string is empty. *)
Fixpoint blank (s : string) : bool :=
  match s with
  | EmptyString => true
  | String c s =>
      (((9 <=? Ascii.nat_of_ascii c) && (Ascii.nat_of_ascii c <=? 13)) || (Ascii.nat_of_ascii c =? 32))%nat && blank s
  end.

(** The loop over the list's entries, of index [i] on. *)
Fixpoint file_entries (l : lst) (i : Z) (es : list listEntry) (out : gmap string Hit) : res (gmap string Hit) :=
  match es with
  | [] => Ok out
  | e :: es =>
      _ ← fail_if (negb (is_address (EAddress e))) (Wrapf (Sentinel "address") "%s: entry %d has no valid address" [FStr (name l); FInt i]);
      _ ← fail_if (negb (validReason (EReason e)) || (EReason e =? ReasonFrozen) || (EReason e =? ReasonReview))
            (Wrapf (Sentinel "reason") "%s: entry %d has reason %d" [FStr (name l); FInt i; FInt (EReason e)]);
      _ ← fail_if (blank (ESource e)) (Wrapf (Sentinel "source") "%s: entry %d names no source" [FStr (name l); FInt i]);
      file_entries l (i + 1) es (<[EAddress e := mkHit (name l) (EReason e) false (ESource e)]> out)
  end.

(** [FileSource.Refresh], of what reading and decoding the file gives. *)
Definition Refresh_File (l : lst) (read : res listFile) : res lst :=
  f ← read;
  match Entries f, UpdatedAt f with
  | Some es, Some at_ =>
      _ ← fail_if (String.eqb (FVersion f) "") (Wrapf (Sentinel "list") "%s: the list lacks its version, update time or entries" [FStr (name l)]);
      out ← file_entries l 0 es ∅;
      accept l out (FVersion f) (Some at_) (Z.of_nat (base.size out)) (inEntries out)
  | _, _ => Fail (Wrapf (Sentinel "list") "%s: the list lacks its version, update time or entries" [FStr (name l)])
  end.

(** [ReportSource.Refresh], of the addresses stored. *)
Definition Refresh_Report (l : lst) (load : res (list string)) (now : Z) : res lst :=
  addresses ← load;
  let es := keyed (mkHit (name l) ReasonFraud false "compromised-address self-report") addresses in
  mret (set l es (pretty (Z.of_nat (base.size es)) +:+ " reports") (Some now)).

(** *** The directory of stellar.expert *)

(** What an attempt to fetch a page gives: its body decoded, the status of an answer other than 200,
    or another error. *)
Record directoryRecord : Type := mkRecord { RAddress : string; RName : string }.
Record directoryPage : Type := mkPage { Next : string; Records : option (list directoryRecord) }.
Inductive fetched : Type :=
| Body (p : directoryPage)
| StatusError (code : Z)
| FetchError (e : gerr).

Definition directoryRetries : nat := 3.
Definition directoryPageSize : nat := 200.
Definition maxPages : nat := 500.

(** [DirectorySource.page]: [fetch] answers a page's path after a number of calls before; a page
    refused with 429 is asked for again, [retries] times. It returns the calls made. *)
Fixpoint page (retries : nat) (fetch : nat → string → fetched) (n : nat) (target : string) : res directoryPage * nat :=
  match fetch n target with
  | Body p => (Ok p, S n)
  | FetchError e => (Fail e, S n)
  | StatusError code =>
      match retries with
      | S retries => if code =? 429 then page retries fetch (S n) target
                     else (Fail (Wrapf (Sentinel "http") "answered %d" [FInt code]), S n)
      | O => (Fail (Wrapf (Sentinel "http") "answered %d" [FInt code]), S n)
      end
  end.

(** One record of a page of a tag; the malicious tag comes first and stands. *)
Definition directory_entry (l : lst) (malicious : bool) (es : gmap string Hit) (r : directoryRecord) : gmap string Hit :=
  if negb (is_address (RAddress r)) then es
  else if malicious then <[RAddress r := mkHit (name l) ReasonExploit false ("tagged malicious: " +:+ RName r)]> es
  else match es !! RAddress r with
       | Some _ => es
       | None => <[RAddress r := mkHit (name l) 0 true ("tagged unsafe: " +:+ RName r)]> es
       end.

(** The loop over a tag's pages; [pages] more may be read. *)
Fixpoint tag_pages (pages : nat) (l : lst) (fetch : nat → string → fetched) (malicious : bool) (n : nat)
    (next : string) (es : gmap string Hit) : res (gmap string Hit) * nat :=
  if String.eqb next "" then (Ok es, n)
  else
    match pages with
    | O => (Fail (Sentinel "stellar.expert: the directory does not end"), n)
    | S pages =>
        match page directoryRetries fetch n next with
        | (Fail e, n) => (Fail e, n)
        | (Ok p, n) =>
            match Records p with
            | None => (Fail (Sentinel "stellar.expert: a page without records"), n)
            | Some records =>
                tag_pages pages l fetch malicious n
                  (if (length records =? directoryPageSize)%nat then Next p else "")
                  (foldl (directory_entry l malicious) es records)
            end
        end
    end.

(** [DirectorySource.Refresh]; a copy younger than [every] is kept. *)
Definition Refresh_Directory (l : lst) (every : Z) (fetch : nat → string → fetched) (now : Z) : res lst :=
  if match fetchedAt l with Some at_ => now - at_ <? every | None => false end then Ok l
  else
    let '(r, n) := tag_pages maxPages l fetch true 0 "/explorer/directory?tag[]=malicious&limit=200" ∅ in
    es ← r;
    es ← (tag_pages maxPages l fetch false n "/explorer/directory?tag[]=unsafe&limit=200" es).1;
    accept l es (pretty (Z.of_nat (base.size es)) +:+ " accounts") (Some now) (Z.of_nat (base.size es)) (inEntries es).
End refresh.

(** ** The checker *)

Definition ErrUnavailable : gerr := Sentinel "screening: a required source is unavailable".

(** [Inflow] is value an address received; an unknown sender is empty, an unknown amount [None]. *)
Record Inflow : Type := mkInflow { From : string; Asset : string; IAmount : option Z }.

(** [Gap]: the bits of what a lookup left unread. *)
Definition GapVolume : Z := 1.
Definition GapUnnamed : Z := 2.

(** [Verdict] is the outcome of one check. *)
Record Verdict : Type := mkVerdict {
  Refused : bool; VReason : Z; Refer : bool; Incomplete : bool; Volume : bool; Findings : list string;
  Detail : string; VSources : list SourceStatus }.

(** [Verdict.Clear] and [Verdict.OnlyVolume] *)
Definition Clear (v : Verdict) : bool := negb (Refused v) && negb (Refer v) && negb (Incomplete v).
Definition OnlyVolume (v : Verdict) : bool := negb (Refused v) && negb (Refer v) && Incomplete v && Volume v.

(** [Dust] decides which funders are too small to matter. *)
Record Dust : Type := mkDust { ShareBps : Z; Floors : gmap string Z }.

(** [sent]: what one sender sent, by asset, and whether an amount is unknown. *)
Record sent : Type := mkSent { amounts : gmap string Z; unknown : bool }.

Definition add (m : gmap string Z) (asset : string) (amount : Z) : gmap string Z :=
  <[asset := default 0 (m !! asset) + amount]> m.

(** An inflow's asset and amount, when it names both. *)
Definition named (i : Inflow) : option (string * Z) :=
  match IAmount i with
  | Some n => if String.eqb (Asset i) "" then None else Some (Asset i, n)
  | None => None
  end.

(** The variables of the loop of [Dust.matter]. *)
Record tally : Type := mkTally { totals : gmap string Z; by_ : gmap string sent; order : list string }.

Definition tally_inflow (t : tally) (i : Inflow) : tally :=
  let totals := match named i with Some (a, n) => add (totals t) a n | None => totals t end in
  if String.eqb (From i) "" then mkTally totals (by_ t) (order t)
  else
    let '(s, order) := match by_ t !! From i with
                       | Some s => (s, order t)
                       | None => (mkSent ∅ false, order t ++ [From i])
                       end in
    let s := match named i with
             | Some (a, n) => mkSent (add (amounts s) a n) (unknown s)
             | None => mkSent (amounts s) true
             end in
    mkTally totals (<[From i := s]> (by_ t)) order.

(** One asset of [Dust.dust]: the amount is below the asset's floor and its share. *)
Definition small (d : Dust) (totals : gmap string Z) (asset : string) (amount : Z) : bool :=
  match Floors d !! asset with
  | None => false
  | Some floor => (amount <? floor) && (amount * 10000 <? default 0 (totals !! asset) * ShareBps d)
  end.

(** [Dust.dust] *)
Definition dust (d : Dust) (amounts totals : gmap string Z) : bool :=
  negb (base.size amounts =? 0)%nat && forallb (λ '(a, n), small d totals a n) (map_to_list amounts).

(** [Dust.matter] returns the senders that matter, in the order the inflows name them. *)
Definition matter (d : Dust) (inflows : list Inflow) : list string :=
  let t := foldl tally_inflow (mkTally ∅ ∅ []) inflows in
  filter (λ f, match by_ t !! f with
               | Some s => unknown s || negb (dust d (amounts s) (totals t))
               | None => false
               end = true) (order t).

(** [Checker]; [Inflows] is the interface of horizon's client. *)
Record Checker : Type := mkChecker {
  Sources : list Source; Inflows : string → Z → res (list Inflow * Z); MaxFunders : nat;
  CDust : Dust; Exempt : gset string }.

(** [Checker.Statuses] *)
Definition Statuses (c : Checker) : list SourceStatus := map (λ s, Status (SList s)) (Sources c).

(** One source of [Checker.Fresh]. *)
Definition stale (now : Z) (st : SourceStatus) : bool :=
  match FetchedAt st with
  | None => true
  | Some at_ => MaxAge st * second <? now - at_
  end.

(** [Checker.Fresh] *)
Definition Fresh (c : Checker) (now : Z) : res unit :=
  match List.find (λ s, stale now (Status (SList s))) (Sources c) with
  | Some s => Fail (Wrapf ErrUnavailable "%w: %s" [FStr (name (SList s))])
  | None => Ok tt
  end.

(** The loop of [Checker.lookup] over the sources left, with the referral found so far. *)
Fixpoint lookup_in (sources : list Source) (address : string) (funder : bool) (referral : option Hit) : option Hit :=
  match sources with
  | [] => referral
  | s :: sources =>
      if funder && directOnly s then lookup_in sources address funder referral
      else
        match Lookup (SList s) address with
        | None => lookup_in sources address funder referral
        | Some h => if HRefer h then lookup_in sources address funder (Some h) else Some h
        end
  end.

(** [Checker.lookup] *)
Definition lookup (c : Checker) (address : string) (funder : bool) : option Hit :=
  lookup_in (Sources c) address funder None.

(** The variables of [Checker.Check]: the verdict's flags and findings, the notes of its detail, the
    addresses seen and whether every gap is one of volume. *)
Record scan : Type := mkScan {
  refer : bool; incomplete : bool; findings : list string; notes : list string;
  checked : gset string; volume : bool }.

Definition note (finding text : string) (s : scan) : scan :=
  mkScan (refer s) (incomplete s) (findings s ++ [finding]) (notes s ++ [text]) (checked s) (volume s).
Definition set_refer (s : scan) : scan :=
  mkScan true (incomplete s) (findings s) (notes s) (checked s) (volume s).
Definition set_incomplete (s : scan) : scan :=
  mkScan (refer s) true (findings s) (notes s) (checked s) (volume s).
Definition set_named (s : scan) : scan :=
  mkScan (refer s) (incomplete s) (findings s) (notes s) (checked s) false.
Definition see (f : string) (s : scan) : scan :=
  mkScan (refer s) (incomplete s) (findings s) (notes s) ({[f]} ∪ checked s) (volume s).

Section check.
Context {sdk : StellarSDK}.

(** One funder of the innermost loop of [Check]. *)
Definition check_funder (c : Checker) (hop : Z) (st : scan * list string) (f : string) : scan * list string :=
  let '(s, next) := st in
  if bool_decide (f ∈ checked s) then (s, next)
  else
    let s := see f s in
    let s := match lookup c f true with
             | None => s
             | Some h =>
                 let what := if HRefer h then "a referral" else "reason " +:+ pretty (Reason h) in
                 note ("funder:" +:+ f +:+ ":" +:+ Source_ h)
                   ("a funder " +:+ pretty hop +:+ " hop(s) back, " +:+ f +:+ ", matched " +:+ Source_ h +:+ " (" +:+ what +:+ "): " +:+ HDetail h)
                   (set_refer s)
             end in
    (s, next ++ [f]).

(** What a lookup left unread, noted. *)
Definition note_gap (a : string) (gap : Z) (s : scan) : scan :=
  let s := if Z.land gap GapVolume =? 0 then s
           else note ("partial:" +:+ a) ("the history of " +:+ a +:+ " is longer than a check reads") (set_incomplete s) in
  if Z.land gap GapUnnamed =? 0 then s
  else note ("unnamed:" +:+ a) ("a sender of value to " +:+ a +:+ " could not be named") (set_named (set_incomplete s)).

(** The funders of an account that are checked. *)
Definition cut (c : Checker) (a : string) (funders : list string) (s : scan) : scan * list string :=
  if (MaxFunders c <? length funders)%nat then
    (note ("truncated:" +:+ a)
       (pretty (Z.of_nat (MaxFunders c)) +:+ " of the " +:+ pretty (Z.of_nat (length funders)) +:+ " funders of " +:+ a +:+ " that matter were checked")
       (set_incomplete s), take (MaxFunders c) funders)
  else (s, funders).

(** An account whose funders are read. *)
Definition read_funders (c : Checker) (a : string) : bool :=
  is_public_key a && negb (bool_decide (a ∈ Exempt c)).

(** One account of a hop. *)
Definition expand (c : Checker) (since hop : Z) (st : scan * list string) (a : string) : res (scan * list string) :=
  if negb (read_funders c a) then Ok st
  else
    '(inflows, gap) ← or_fail (Inflows c a since) (λ err, Wrapf ErrUnavailable "%w: %v" [FErr err]);
    let '(s, funders) := cut c a (matter (CDust c) inflows) (note_gap a gap st.1) in
    mret (foldl (check_funder c hop) (s, st.2) funders).

(** The accounts of a hop in order. *)
Fixpoint expand_all (c : Checker) (since hop : Z) (st : scan * list string) (level : list string) : res (scan * list string) :=
  match level with
  | [] => Ok st
  | a :: level => st ← expand c since hop st a; expand_all c since hop st level
  end.

(** The loop over the hops, [n] of them left. *)
Fixpoint hop_loop (n : nat) (c : Checker) (since hop : Z) (s : scan) (level : list string) : res scan :=
  match n with
  | O => Ok s
  | S n => '(s, next) ← expand_all c since hop (s, []) level; hop_loop n c since (hop + 1) s next
  end.

(** [strings.Join] *)
Fixpoint Join (sep : string) (l : list string) : string :=
  match l with
  | [] => EmptyString
  | [s] => s
  | s :: l => s +:+ sep +:+ Join sep l
  end.

(** [Checker.Check] screens an address, and up to [hops] back the funders that sent it value. *)
Definition Check (c : Checker) (now : Z) (address : string) (hops since : Z) : res Verdict :=
  _ ← Fresh c now;
  account ← AccountOf address;
  let direct h := "the address matched " +:+ Source_ h +:+ ": " +:+ HDetail h in
  let go (s : scan) : res Verdict :=
    s ← hop_loop (Z.to_nat hops) c since 1 s [account];
    mret (mkVerdict false 0 (refer s) (incomplete s) (incomplete s && volume s) (findings s) (Join "; " (notes s)) (Statuses c)) in
  let s := mkScan false false [] [] {[account]} true in
  match lookup c account false with
  | None => go s
  | Some h =>
      if HRefer h then go (note ("address:" +:+ Source_ h) (direct h) (set_refer s))
      else Ok (mkVerdict true (Reason h) false false false [] (direct h) (Statuses c))
  end.
End check.

(** * Specification *)

(** Whether a source lists an address, of those that name funders where [funder]. *)
Definition listed (c : Checker) (funder : bool) (a : string) : Prop :=
  ∃ s, s ∈ Sources c ∧ funder && directOnly s = false ∧ Lookup (SList s) a ≠ None.

(** [x] sent value that matters to an account, that to another, and so on to [account], in [k] hops
    through accounts whose funders are read. *)
Inductive reach (c : Checker) (sdk : StellarSDK) (since : Z) (account : string) : nat → string → Prop :=
| reach_self : reach c sdk since account 0 account
| reach_hop k a f ins gap :
    reach c sdk since account k a → read_funders c a = true → Inflows c a since = Ok (ins, gap) →
    f ∈ matter (CDust c) ins → reach c sdk since account (S k) f.

(** Nothing of an account's funders stays unread: no gap, and no more of them than are checked. *)
Definition complete (c : Checker) (sdk : StellarSDK) (since : Z) (a : string) : Prop :=
  read_funders c a = true →
  ∃ ins gap, Inflows c a since = Ok (ins, gap) ∧ Z.land gap GapVolume = 0 ∧ Z.land gap GapUnnamed = 0 ∧
    (length (matter (CDust c) ins) ≤ MaxFunders c)%nat.

(** What was sent of an asset. *)
Definition total (l : list (string * Z)) (asset : string) : Z :=
  foldr (λ x acc, (if String.eqb x.1 asset then x.2 else 0) + acc) 0 l.

(** The inflows of a sender, and whether they are dust: each names its asset and amount, and each
    asset is below its floor and its share of what was received. *)
Definition own (f : string) (ins : list Inflow) : list Inflow := filter (λ i, From i = f) ins.
Definition dusty (d : Dust) (ins : list Inflow) (f : string) : Prop :=
  ∀ i, i ∈ own f ins → ∃ a n floor, named i = Some (a, n) ∧ Floors d !! a = Some floor ∧
    total (omap named (own f ins)) a < floor ∧
    total (omap named (own f ins)) a * 10000 < total (omap named ins) a * ShareBps d.

(** * Lemmas *)

(** ** Dust *)

Definition gather (l : list (string * Z)) : gmap string Z := foldl (λ m x, add m x.1 x.2) ∅ l.

Lemma total_app l1 l2 a : total (l1 ++ l2) a = total l1 a + total l2 a.
Proof. induction l1 as [|x l1 IH]; simpl; [done|]. rewrite IH. lia. Qed.

Lemma gather_snoc l x : gather (l ++ [x]) = add (gather l) x.1 x.2.
Proof. unfold gather. by rewrite foldl_app. Qed.

Lemma total_absent l a : a ∉ l.*1 → total l a = 0.
Proof.
  induction l as [|[c m] l IH]; [done|]. simpl. intros [Hc Ha]%not_elem_of_cons.
  by rewrite (proj2 (String.eqb_neq c a)), IH by (done || congruence).
Qed.

Lemma gather_lookup l a :
  gather l !! a = if bool_decide (a ∈ l.*1) then Some (total l a) else None.
Proof.
  induction l as [|[b n] l IH] using rev_ind; [done|].
  rewrite gather_snoc, fmap_app, total_app. unfold add. simpl.
  destruct (String.eqb_spec b a) as [->|Hb].
  - rewrite lookup_insert_eq, IH, (bool_decide_eq_true_2 (a ∈ _ ++ _)) by set_solver.
    f_equal. case_bool_decide as Ha; simpl; [lia|]. rewrite total_absent by done. lia.
  - rewrite lookup_insert_ne, IH by done. replace (total l a + (0 + 0)) with (total l a) by lia.
    by rewrite (bool_decide_ext (a ∈ l.*1 ++ [b]) (a ∈ l.*1)) by set_solver.
Qed.

Definition unnamed (i : Inflow) : bool := match named i with None => true | Some _ => false end.

(** What the loop of [matter] knows of a sender. *)
Definition sender (ins : list Inflow) (f : string) : option sent :=
  if String.eqb f "" then None
  else match own f ins with
       | [] => None
       | l => Some (mkSent (gather (omap named l)) (existsb unnamed l))
       end.

Lemma own_snoc f ins i : own f (ins ++ [i]) = own f ins ++ if String.eqb (From i) f then [i] else [].
Proof.
  unfold own. rewrite filter_app. f_equal. rewrite filter_cons.
  destruct (String.eqb_spec (From i) f); by case_decide.
Qed.

Lemma tally_inflows ins : let t := foldl tally_inflow (mkTally ∅ ∅ []) ins in
  totals t = gather (omap named ins) ∧ (∀ f, by_ t !! f = sender ins f) ∧
  NoDup (order t) ∧ (∀ f, f ∈ order t ↔ sender ins f ≠ None).
Proof.
  induction ins as [|i ins (HT & HB & HN & HO)] using rev_ind.
  { cbn. split_and!; [done| |constructor|].
    - intros f. unfold sender. by destruct (String.eqb f "").
    - intros f. unfold sender. cbn. destruct (String.eqb f ""); set_solver. }
  rewrite foldl_app. cbn zeta. cbn [foldl]. set (t := foldl _ _ ins) in *. clearbody t.
  assert (ET : totals (tally_inflow t i) = gather (omap named (ins ++ [i]))).
  { unfold tally_inflow. rewrite omap_app. cbn [omap list_omap]. destruct (named i) as [[a n]|].
    - rewrite gather_snoc, <- HT. cbn. destruct (String.eqb (From i) ""); [done|]. by destruct (by_ t !! From i).
    - rewrite app_nil_r, <- HT. destruct (String.eqb (From i) ""); [done|]. by destruct (by_ t !! From i). }
  split; [exact ET|]. clear ET HT. unfold tally_inflow.
  destruct (String.eqb_spec (From i) "") as [Hi|Hi].
  { assert (ES : ∀ f, sender (ins ++ [i]) f = sender ins f).
    { intros f. unfold sender. rewrite own_snoc, Hi.
      destruct (String.eqb_spec f ""); [done|]. rewrite (proj2 (String.eqb_neq "" f)) by congruence.
      by rewrite app_nil_r. }
    cbn. split_and!; [|done|]; intros f; rewrite ES; [apply HB|apply HO]. }
  assert (EO : ∀ f, f ≠ From i → sender (ins ++ [i]) f = sender ins f).
  { intros f Hf. unfold sender. rewrite own_snoc, (proj2 (String.eqb_neq (From i) f)), app_nil_r by congruence. done. }
  assert (EI : sender (ins ++ [i]) (From i) = Some
      (let s := default (mkSent ∅ false) (sender ins (From i)) in
       match named i with
       | Some (a, n) => mkSent (add (amounts s) a n) (unknown s)
       | None => mkSent (amounts s) true
       end)).
  { unfold sender. rewrite (proj2 (String.eqb_neq (From i) "")) by done. rewrite own_snoc, String.eqb_refl.
    set (l := own (From i) ins). clearbody l.
    assert (EA : gather (omap named (l ++ [i])) = match named i with
              Some (a, n) => add (gather (omap named l)) a n | None => gather (omap named l) end).
    { rewrite omap_app. cbn [omap list_omap]. destruct (named i) as [[a n]|]; [apply gather_snoc|by rewrite app_nil_r]. }
    assert (EU : existsb unnamed (l ++ [i]) = existsb unnamed l || unnamed i).
    { rewrite existsb_app. cbn. by rewrite orb_false_r. }
    destruct (l ++ [i]) as [|j l'] eqn:E; [by destruct l|]. rewrite EA, EU. unfold unnamed at 2.
    destruct l; cbn [default from_option amounts unknown]; destruct (named i) as [[a n]|]; cbn [orb];
      rewrite ?orb_true_r, ?orb_false_r; reflexivity. }
  rewrite HB. destruct (sender ins (From i)) as [s|] eqn:Es; cbn [by_ order default from_option] in *.
  - split_and!; [|done|].
    + intros f. destruct (decide (f = From i)) as [->|Hf].
      * rewrite lookup_insert_eq, EI. reflexivity.
      * rewrite lookup_insert_ne, EO by congruence. apply HB.
    + intros f. destruct (decide (f = From i)) as [->|Hf]; [|rewrite EO by done; apply HO].
      rewrite HO, Es, EI. done.
  - split_and!.
    + intros f. destruct (decide (f = From i)) as [->|Hf].
      * rewrite lookup_insert_eq, EI. reflexivity.
      * rewrite lookup_insert_ne, EO by congruence. apply HB.
    + apply NoDup_app. split_and!; [done| |apply NoDup_singleton].
      intros x Hx ->%list_elem_of_singleton. apply HO in Hx. by rewrite Es in Hx.
    + intros f. rewrite elem_of_app, list_elem_of_singleton.
      destruct (decide (f = From i)) as [->|Hf]; [rewrite EI; naive_solver|].
      rewrite EO, HO by done. naive_solver.
Qed.

Lemma named_total l a n : (∃ i, i ∈ l ∧ named i = Some (a, n)) → a ∈ (omap named l).*1.
Proof.
  intros (i & Hi & Hn). apply list_elem_of_fmap. exists (a, n). split; [done|]. apply list_elem_of_omap. eauto.
Qed.

Lemma forallb_amounts (P : string → Z → bool) (m : gmap string Z) :
  forallb (λ '(a, n), P a n) (map_to_list m) = true ↔ ∀ a n, m !! a = Some n → P a n = true.
Proof.
  rewrite forallb_forall. split.
  - intros H a n Hm. apply (H (a, n)), list_elem_of_In, elem_of_map_to_list, Hm.
  - intros H [a n] Hx. apply H, elem_of_map_to_list, list_elem_of_In, Hx.
Qed.

Lemma dust_dusty d ins f s : sender ins f = Some s →
  unknown s = false ∧ dust d (amounts s) (gather (omap named ins)) = true ↔ dusty d ins f.
Proof.
  unfold sender. destruct (String.eqb f ""); [done|]. destruct (own f ins) as [|i0 l0] eqn:E0; [done|].
  rewrite <- E0. intros [= <-]. cbn [amounts unknown]. unfold dust. rewrite andb_true_iff, forallb_amounts.
  assert (Hsub : ∀ a, a ∈ (omap named (own f ins)).*1 → a ∈ (omap named ins).*1).
  { intros a ([b n] & -> & (i & Hi & Hn)%list_elem_of_omap)%list_elem_of_fmap.
    apply (named_total _ _ n). exists i. split; [|done]. by apply list_elem_of_filter in Hi as [_ Hi]. }
  split.
  - intros (HU & _ & HA) i Hi.
    assert (Hn : unnamed i = false).
    { destruct (unnamed i) eqn:E; [|done]. exfalso. enough (existsb unnamed (own f ins) = true) by congruence.
      apply existsb_exists. exists i. split; [by apply list_elem_of_In|done]. }
    unfold unnamed in Hn. destruct (named i) as [[a n]|] eqn:En; [|done].
    assert (Ha : a ∈ (omap named (own f ins)).*1) by (apply (named_total _ _ n); eauto).
    specialize (HA a (total (omap named (own f ins)) a)).
    rewrite gather_lookup, bool_decide_eq_true_2 in HA by done. specialize (HA eq_refl).
    unfold small in HA. destruct (Floors d !! a) as [floor|] eqn:EF; [|done].
    rewrite gather_lookup, bool_decide_eq_true_2 in HA by auto. cbn [default from_option id] in HA.
    apply andb_true_iff in HA as [H1 H2]. exists a, n, floor. split_and!; [done..| |]; by apply Z.ltb_lt.
  - intros HD. split_and!.
    + destruct (existsb unnamed (own f ins)) eqn:E; [|done].
      apply existsb_exists in E as (i & Hi & Hn). apply list_elem_of_In in Hi.
      destruct (HD i Hi) as (a & n & floor & Hna & _). unfold unnamed in Hn. by rewrite Hna in Hn.
    + destruct (HD i0) as (a & n & floor & Hna & _); [rewrite E0; left|].
      assert (Hg : gather (omap named (own f ins)) !! a ≠ None).
      { rewrite gather_lookup, bool_decide_eq_true_2; [done|]. apply (named_total _ _ n). exists i0.
        rewrite E0. split; [left|done]. }
      destruct (base.size (gather (omap named (own f ins)))) eqn:Es; [|done].
      apply map_size_empty_inv in Es. by rewrite Es, lookup_empty in Hg.
    + intros a n. rewrite gather_lookup. case_bool_decide as Ha; [|done]. intros [= <-].
      apply list_elem_of_fmap in Ha as ([b m] & -> & (i & Hi & Hn)%list_elem_of_omap).
      destruct (HD i Hi) as (b' & m' & floor & Hna & HF & H1 & H2). simplify_eq. cbn [fst].
      unfold small. rewrite HF, gather_lookup, bool_decide_eq_true_2.
      * apply andb_true_iff. split; by apply Z.ltb_lt.
      * apply Hsub, list_elem_of_fmap. exists (b, m). split; [done|]. apply list_elem_of_omap. eauto.
Qed.

Lemma sender_some ins f : sender ins f ≠ None ↔ f ≠ ""%string ∧ ∃ i, i ∈ ins ∧ From i = f.
Proof.
  unfold sender. destruct (String.eqb_spec f ""); [naive_solver|].
  destruct (own f ins) as [|i l] eqn:E; split.
  - done.
  - intros (_ & i & Hi & Hf). exfalso. apply (not_elem_of_nil i). rewrite <- E. by apply list_elem_of_filter.
  - intros _. split; [done|]. exists i. assert (Hi : i ∈ own f ins) by (rewrite E; left).
    apply list_elem_of_filter in Hi as [? ?]. done.
  - done.
Qed.

(** ** The breadth-first search of [Check] *)

Lemma lookup_in_None sources a funder r :
  lookup_in sources a funder r = None ↔
  r = None ∧ ∀ s, s ∈ sources → funder && directOnly s = false → Lookup (SList s) a = None.
Proof.
  revert r. induction sources as [|s sources IH]; intros r; cbn [lookup_in].
  { split; [|by intros [? _]]. intros ->. split; [done|]. set_solver. }
  assert (Hs : (∀ x, x ∈ s :: sources → funder && directOnly x = false → Lookup (SList x) a = None) ↔
               (funder && directOnly s = false → Lookup (SList s) a = None) ∧
               ∀ x, x ∈ sources → funder && directOnly x = false → Lookup (SList x) a = None) by set_solver.
  rewrite Hs. destruct (funder && directOnly s); [rewrite IH; naive_solver|].
  destruct (Lookup (SList s) a) as [h|]; [|rewrite IH; naive_solver].
  destruct (HRefer h); [rewrite IH|]; naive_solver.
Qed.

Lemma lookup_None c a funder : lookup c a funder = None ↔ ¬ listed c funder a.
Proof.
  unfold lookup. rewrite lookup_in_None. unfold listed. split.
  - intros [_ H] (s & Hs & Hd & Hn). by apply Hn, H.
  - intros H. split; [done|]. intros s Hs Hd. destruct (Lookup (SList s) a) eqn:E; [|done].
    destruct H. exists s. by rewrite E.
Qed.

Lemma lookup_in_refuses sources a funder r h : lookup_in sources a funder r = Some h → HRefer h = false →
  (∀ h', r = Some h' → HRefer h' = true) →
  ∃ s, s ∈ sources ∧ funder && directOnly s = false ∧ Lookup (SList s) a = Some h.
Proof.
  revert r. induction sources as [|s sources IH]; intros r; cbn [lookup_in].
  { intros -> Hh Hr. specialize (Hr h eq_refl). congruence. }
  intros H Hh Hr. destruct (funder && directOnly s) eqn:Hd.
  { destruct (IH _ H Hh Hr) as (x & ? & ?). exists x. split; [by right|done]. }
  destruct (Lookup (SList s) a) as [h'|] eqn:E.
  - destruct (HRefer h') eqn:Hh'.
    + destruct (IH _ H Hh) as (x & ? & ?); [naive_solver|]. exists x. split; [by right|done].
    + simplify_eq. exists s. split; [by left|done].
  - destruct (IH _ H Hh Hr) as (x & ? & ?). exists x. split; [by right|done].
Qed.

Lemma lookup_in_refused sources a funder r s h :
  s ∈ sources → funder && directOnly s = false → Lookup (SList s) a = Some h → HRefer h = false →
  ∃ h', lookup_in sources a funder r = Some h' ∧ HRefer h' = false.
Proof.
  intros Hs Hd Hl Hh. revert r. induction sources as [|x sources IH]; intros r; [by apply elem_of_nil in Hs|].
  cbn [lookup_in]. apply elem_of_cons in Hs as [->|Hs].
  - rewrite Hd, Hl, Hh. eauto.
  - specialize (IH Hs). destruct (funder && directOnly x); [apply IH|].
    destruct (Lookup (SList x) a) as [h'|]; [|apply IH]. destruct (HRefer h') eqn:E; [apply IH|eauto].
Qed.

(** A scan that found nothing so far. *)
Definition good (s : scan) : Prop := refer s = false ∧ incomplete s = false.

Section bfs.
Context {sdk : StellarSDK} (c : Checker) (since : Z).

(** The funders of an account that are checked, and whether they are all there are. *)
Definition chosen (a : string) : list string :=
  if read_funders c a then
    match Inflows c a since with
    | Ok (ins, _) => let fs := matter (CDust c) ins in
                     if (MaxFunders c <? length fs)%nat then take (MaxFunders c) fs else fs
    | Fail _ => []
    end
  else [].

Lemma check_funder_spec hop s next f : let st := check_funder c hop (s, next) f in
  checked st.1 = {[f]} ∪ checked s ∧ (∀ x, x ∈ st.2 ↔ x ∈ next ∨ x = f ∧ x ∉ checked s) ∧
  (good st.1 ↔ good s ∧ (f ∉ checked s → ¬ listed c true f)).
Proof.
  unfold check_funder. case_bool_decide as Hf; cbn zeta; cbn [fst snd].
  - split_and!; [set_solver|naive_solver|naive_solver].
  - rewrite <- lookup_None. split_and!.
    + by destruct (lookup c f true).
    + intros x. rewrite elem_of_app, list_elem_of_singleton. naive_solver.
    + unfold good. destruct (lookup c f true); cbn; naive_solver.
Qed.

Lemma check_funders_spec hop fs s next : let st := foldl (check_funder c hop) (s, next) fs in
  checked st.1 = list_to_set fs ∪ checked s ∧ (∀ x, x ∈ st.2 ↔ x ∈ next ∨ x ∈ fs ∧ x ∉ checked s) ∧
  (good st.1 ↔ good s ∧ ∀ f, f ∈ fs → f ∉ checked s → ¬ listed c true f).
Proof.
  revert s next. induction fs as [|f fs IH]; intros s next; cbn zeta; cbn [foldl].
  { split_and!; set_solver. }
  destruct (check_funder_spec hop s next f) as (HC & HN & HG).
  destruct (check_funder c hop (s, next) f) as [s1 next1]. cbn [fst snd] in *.
  destruct (IH s1 next1) as (HC' & HN' & HG'). rewrite HC in HN', HG'. split_and!.
  - rewrite HC', HC. cbn [list_to_set]. by rewrite (assoc_L (∪)), (comm_L (∪) (list_to_set fs)).
  - intros x. rewrite HN', HN, elem_of_cons, not_elem_of_union, not_elem_of_singleton.
    destruct (decide (x = f)); tauto.
  - rewrite HG', HG. split.
    + intros ((Hs & Hf) & Ha). split; [done|].
      intros x [->|Hx]%elem_of_cons Hn; [by apply Hf|]. destruct (decide (x = f)) as [->|]; [by apply Hf|].
      apply Ha; [done|]. by rewrite not_elem_of_union, not_elem_of_singleton.
    + intros (Hs & Ha). split; [split; [done|intros; apply Ha; [left|done]]|].
      intros x Hx [_ Hn]%not_elem_of_union. apply Ha; [by right|done].
Qed.

Lemma note_gap_spec a gap s : checked (note_gap a gap s) = checked s ∧
  (good (note_gap a gap s) ↔ good s ∧ Z.land gap GapVolume = 0 ∧ Z.land gap GapUnnamed = 0).
Proof.
  unfold note_gap, good. destruct (Z.eqb_spec (Z.land gap GapVolume) 0), (Z.eqb_spec (Z.land gap GapUnnamed) 0);
    cbn; (split; [done|]); naive_solver.
Qed.

Lemma expand_spec hop s next a st : expand c since hop (s, next) a = Ok st →
  checked st.1 = list_to_set (chosen a) ∪ checked s ∧ (∀ x, x ∈ st.2 ↔ x ∈ next ∨ x ∈ chosen a ∧ x ∉ checked s) ∧
  (good st.1 ↔ good s ∧ complete c sdk since a ∧ ∀ f, f ∈ chosen a → f ∉ checked s → ¬ listed c true f).
Proof.
  unfold expand, chosen, complete. destruct (read_funders c a); cbn [negb].
  2:{ intros [= <-]. split_and!; set_solver. }
  destruct (Inflows c a since) as [[ins gap]|e] eqn:EI; cbn [or_fail mbind res_bind]; [|done].
  set (fs := matter (CDust c) ins) in *.
  destruct (note_gap_spec a gap s) as [Hc Hg]. cbn [fst snd].
  unfold cut. destruct (Nat.ltb_spec (MaxFunders c) (length fs)) as [Hl|Hl]; cbn [mret res_ret]; intros [= <-].
  - match goal with |- context [foldl (check_funder c hop) (?s1, next) ?l] =>
      destruct (check_funders_spec hop l s1 next) as (HC & HN & HG) end.
    cbn [checked note set_incomplete] in HC, HN, HG. rewrite Hc in HC, HN, HG. split_and!; [done|done|].
    rewrite HG. split; [intros [[_ Hi] _]; discriminate Hi|].
    intros (_ & HK & _). destruct (HK eq_refl) as (? & ? & ? & _ & _ & ?). simplify_eq. unfold fs in Hl. lia.
  - destruct (check_funders_spec hop fs (note_gap a gap s) next) as (HC & HN & HG).
    rewrite Hc in HC, HN, HG. split_and!; [done|done|]. rewrite HG, Hg. split.
    + intros ((Hs & Hv & Hu) & Hf). split_and!; [done| |done]. intros _. by exists ins, gap.
    + intros (Hs & HK & Hf). destruct (HK eq_refl) as (? & ? & ? & ? & ? & ?). by simplify_eq.
Qed.

Lemma expand_all_spec hop level s next st : expand_all c since hop (s, next) level = Ok st →
  checked st.1 = list_to_set (level ≫= chosen) ∪ checked s ∧
  (∀ x, x ∈ st.2 ↔ x ∈ next ∨ x ∈ level ≫= chosen ∧ x ∉ checked s) ∧
  (good st.1 ↔ good s ∧ (∀ a, a ∈ level → complete c sdk since a) ∧
     ∀ f, f ∈ level ≫= chosen → f ∉ checked s → ¬ listed c true f).
Proof.
  revert s next. induction level as [|a level IH]; intros s next; cbn [expand_all].
  { intros [= <-]. cbn. split_and!; set_solver. }
  rewrite bind_Ok. intros ([s1 next1] & H1 & H2).
  apply expand_spec in H1 as (HC & HN & HG). cbn [fst snd] in *.
  apply IH in H2 as (HC' & HN' & HG'). rewrite HC in HN', HG'. cbn [mbind list_bind]. split_and!.
  - rewrite HC', HC, list_to_set_app_L. by rewrite (assoc_L (∪)), (comm_L (∪) (list_to_set (chosen a))).
  - intros x. rewrite HN', HN, elem_of_app, not_elem_of_union, elem_of_list_to_set.
    destruct (decide (x ∈ chosen a)); tauto.
  - rewrite HG', HG. split.
    + intros ((Hs & Ha & Hf) & HA & HF). split_and!; [done|by intros x [->|Hx]%elem_of_cons; [|apply HA]|].
      intros x Hx Hn. destruct (decide (x ∈ chosen a)) as [|Hx']; [by apply Hf|].
      apply elem_of_app in Hx as [Hx|Hx]; [done|].
      apply HF; [done|]. by rewrite not_elem_of_union, elem_of_list_to_set.
    + intros (Hs & HA & HF). split_and!; [done| | | |].
      * apply HA. left.
      * intros f Hf. apply HF, elem_of_app. by left.
      * intros x Hx. apply HA. by right.
      * intros f Hf [_ Hn]%not_elem_of_union. apply HF; [|done]. apply elem_of_app. by right.
Qed.

Lemma chosen_all a ins gap : read_funders c a = true → Inflows c a since = Ok (ins, gap) →
  complete c sdk since a → chosen a = matter (CDust c) ins.
Proof.
  intros Hr HI HK. destruct (HK Hr) as (ins' & gap' & HI' & _ & _ & Hl). rewrite HI in HI'. simplify_eq.
  unfold chosen. rewrite Hr, HI. by rewrite (proj2 (Nat.ltb_ge _ _)).
Qed.

Lemma chosen_reach account k a f : reach c sdk since account k a → f ∈ chosen a → reach c sdk since account (S k) f.
Proof.
  unfold chosen. intros Ha. destruct (read_funders c a) eqn:Hr; [|by intros ?%elem_of_nil].
  destruct (Inflows c a since) as [[ins gap]|] eqn:HI; [|by intros ?%elem_of_nil].
  intros Hf. eapply reach_hop; [done..|].
  destruct (_ <? _)%nat; [|done]. apply elem_of_take in Hf as (i & Hi & _). by eapply list_elem_of_lookup_2.
Qed.

(** A clean scan of the hops left has seen everything within reach. *)
Lemma hop_loop_sound account n k hop s level s' : hop_loop n c since hop s level = Ok s' → good s' →
  (∀ j x, (j ≤ k)%nat → reach c sdk since account j x → x ∈ checked s) →
  (∀ j x, (j < k)%nat → reach c sdk since account j x → complete c sdk since x) →
  (∀ x, x ∈ checked s → x ∈ level ∨ complete c sdk since x ∧ ∀ f, f ∈ chosen x → f ∈ checked s) →
  good s ∧ (∀ j x, (j ≤ k + n)%nat → reach c sdk since account j x → x ∈ checked s') ∧
  (∀ j x, (j < k + n)%nat → reach c sdk since account j x → complete c sdk since x) ∧
  (∀ x, x ∈ checked s' → x ∈ checked s ∨ ¬ listed c true x).
Proof.
  revert k hop s level. induction n as [|n IH]; intros k hop s level; cbn [hop_loop].
  { intros [= <-] Hg HR HK HL. rewrite Nat.add_0_r. split_and!; auto. }
  rewrite bind_Ok. intros ([s1 next] & H1 & H2) Hg HR HK HL.
  apply expand_all_spec in H1 as (HC & HN & HG). cbn [fst snd] in *.
  assert (HX : good s1 → (∀ x, x ∈ checked s → complete c sdk since x ∧ ∀ f, f ∈ chosen x → f ∈ checked s1)).
  { intros (_ & HA & _)%HG x Hx. destruct (HL x Hx) as [Hx'|[Hx' Hf]]; [|set_solver].
    split; [by apply HA|]. intros f Hf. rewrite HC. apply elem_of_union_l, elem_of_list_to_set, list_elem_of_bind. eauto. }
  specialize (IH (S k) (hop + 1) s1 next H2 Hg).
  assert (Hcore : good s1 → (∀ j x, (j ≤ S k)%nat → reach c sdk since account j x → x ∈ checked s1) ∧
            (∀ j x, (j < S k)%nat → reach c sdk since account j x → complete c sdk since x) ∧
            (∀ x, x ∈ checked s1 → x ∈ next ∨ complete c sdk since x ∧ ∀ f, f ∈ chosen x → f ∈ checked s1)).
  { intros Hg1. specialize (HX Hg1).
    assert (HK' : ∀ j x, (j < S k)%nat → reach c sdk since account j x → complete c sdk since x).
    { intros j x Hj Hx. apply HX, (HR j); [lia|done]. }
    split_and!; [|done|].
    - intros j x Hj Hx. destruct (decide (j ≤ k)%nat) as [Hj'|].
      { rewrite HC. apply elem_of_union_r, (HR j); done. }
      inversion Hx as [|k' a f ins gap Ha Hr HI Hf]; subst; [lia|].
      assert (Hin : a ∈ checked s) by (apply (HR k'); [lia|done]).
      apply (HX a Hin). rewrite (chosen_all a ins gap); [done..|]. apply HX, Hin.
    - intros x Hx. destruct (decide (x ∈ checked s)) as [Hs|Hs]; [right; by apply HX|].
      left. apply HN. right. rewrite HC in Hx. set_solver. }
  (* the flags only ever rise, so the scan was clean after this hop *)
  assert (Hg1 : good s1).
  { clear -H2 Hg. revert hop s1 next H2. induction n as [|n IHn]; intros hop s1 next; cbn [hop_loop]; [by intros [= <-]|].
    rewrite bind_Ok. intros ([s2 next2] & Ha & Hb). apply IHn in Hb.
    apply expand_all_spec in Ha as (_ & _ & Hc). by apply Hc in Hb as (? & _). }
  destruct (Hcore Hg1) as (A1 & A2 & A3). destruct (IH A1 A2 A3) as (_ & B1 & B2 & B3).
  destruct (proj1 HG Hg1) as (Hs & _ & HF). split_and!; [done| | |].
  - intros j x Hj. apply B1. lia.
  - intros j x Hj. apply B2. lia.
  - intros x Hx. destruct (B3 x Hx) as [Hx'|]; [|by right]. rewrite HC in Hx'.
    destruct (decide (x ∈ checked s)); [by left|]. right. apply HF; set_solver.
Qed.

(** A scan of accounts that are all complete and of funders none of which is listed stays clean. *)
Lemma hop_loop_complete account n k hop s level s' : hop_loop n c since hop s level = Ok s' → good s →
  (∀ x, x ∈ level → reach c sdk since account k x) →
  (∀ j x, (j < k + n)%nat → reach c sdk since account j x → complete c sdk since x) →
  (∀ j x, (j ≤ k + n)%nat → reach c sdk since account j x → ¬ listed c true x) →
  good s'.
Proof.
  revert k hop s level. induction n as [|n IH]; intros k hop s level; cbn [hop_loop]; [by intros [= <-]|].
  rewrite bind_Ok. intros ([s1 next] & H1 & H2) Hg HL HK HU.
  apply expand_all_spec in H1 as (HC & HN & HG). cbn [fst snd] in *.
  assert (Hnext : ∀ f, f ∈ level ≫= chosen → reach c sdk since account (S k) f).
  { intros f (a & Hf & Ha)%list_elem_of_bind. eapply chosen_reach; [|done]. by apply HL. }
  apply (IH (S k) (hop + 1) s1 next H2).
  - apply HG. split_and!; [done| |].
    + intros a Ha. apply (HK k); [lia|by apply HL].
    + intros f Hf _. apply (HU (S k)); [lia|by apply Hnext].
  - intros x Hx. apply HN in Hx as [Hx|[Hx _]]; [by apply elem_of_nil in Hx|by apply Hnext].
  - intros j x Hj. apply HK. lia.
  - intros j x Hj. apply HU. lia.
Qed.

End bfs.

(** ** [Check] as a whole *)

Lemma Fresh_Ok c now u : Fresh c now = Ok u ↔
  ∀ s, s ∈ Sources c → ∃ at_, fetchedAt (SList s) = Some at_ ∧ now - at_ <= Z.quot (maxAge (SList s)) second * second.
Proof.
  assert (Hst : ∀ s, stale now (Status (SList s)) = false ↔
      ∃ at_, fetchedAt (SList s) = Some at_ ∧ now - at_ <= Z.quot (maxAge (SList s)) second * second).
  { intros s. unfold stale, Status. cbn [FetchedAt MaxAge]. destruct (fetchedAt (SList s)); [|naive_solver].
    rewrite Z.ltb_ge. naive_solver. }
  unfold Fresh. destruct (List.find _ _) as [s|] eqn:E.
  - apply List.find_some in E as [Hs Hf]. split; [done|]. intros H. apply list_elem_of_In, H, Hst in Hs. congruence.
  - split; [|by destruct u]. intros _ s Hs. apply Hst. apply list_elem_of_In in Hs. exact (List.find_none _ _ E s Hs).
Qed.

(** What a check that answers went through: a refusal, or a search of the funders from the account. *)
Inductive checked_as (c : Checker) (sdk : StellarSDK) (account : string) (hops since : Z) (v : Verdict) : Prop :=
| Checked_refused h : lookup c account false = Some h → HRefer h = false → Refused v = true → VReason v = Reason h →
    checked_as c sdk account hops since v
| Checked_scanned s s' : Refused v = false →
    (∀ h, lookup c account false = Some h → HRefer h = true) →
    checked s = {[account]} → (good s ↔ lookup c account false = None) →
    hop_loop (Z.to_nat hops) c since 1 s [account] = Ok s' →
    (Clear v = true ↔ good s') → checked_as c sdk account hops since v.

Lemma scanned {sdk : StellarSDK} c account hops since s :
  (∀ h, lookup c account false = Some h → HRefer h = true) →
  checked s = {[account]} → (good s ↔ lookup c account false = None) → ∀ v,
  (s' ← hop_loop (Z.to_nat hops) c since 1 s [account];
   mret (mkVerdict false 0 (refer s') (incomplete s') (incomplete s' && volume s') (findings s') (Join "; " (notes s')) (Statuses c))) = Ok v →
  checked_as c sdk account hops since v.
Proof.
  intros Hh Hc Hg v. rewrite bind_Ok. intros (s' & HL & [= <-]).
  eapply Checked_scanned; [done..|]. unfold Clear, good. cbn. destruct (refer s'), (incomplete s'); naive_solver.
Qed.

Lemma Check_Ok {sdk : StellarSDK} c now address hops since v : Check c now address hops since = Ok v →
  ∃ u account, Fresh c now = Ok u ∧ AccountOf address = Ok account ∧ checked_as c sdk account hops since v.
Proof.
  unfold Check. rewrite bind_Ok. intros (u & Hu & H). apply bind_Ok in H as (account & Ha & H).
  exists u, account. split; [done|]. split; [done|].
  destruct (lookup c account false) as [h|] eqn:El.
  - destruct (HRefer h) eqn:Eh.
    + revert H. apply scanned; [congruence|done|]. unfold good. cbn. split; [by intros [? _]|congruence].
    + injection H as <-. by eapply Checked_refused.
  - revert H. by apply scanned; [congruence|done|].
Qed.

Lemma account_unlisted c account : ¬ listed c false account → ¬ listed c true account.
Proof. intros H (s & Hs & Hd & Hl). apply H. by exists s. Qed.

Lemma search_clean {sdk : StellarSDK} c account hops since s s' :
  hop_loop (Z.to_nat hops) c since 1 s [account] = Ok s' → checked s = {[account]} →
  (good s ↔ ¬ listed c false account) →
  good s' ↔
  ¬ listed c false account ∧
  (∀ k a, (k < Z.to_nat hops)%nat → reach c sdk since account k a → complete c sdk since a) ∧
  (∀ k f, (k <= Z.to_nat hops)%nat → reach c sdk since account k f → ¬ listed c true f).
Proof.
  intros HL Hc Hg. split.
  - intros Hg'. destruct (hop_loop_sound c since account _ 0 _ _ _ _ HL Hg') as (H0 & H1 & H2 & H3).
    + intros j x Hj Hx. replace j with 0%nat in Hx by lia. inversion Hx. rewrite Hc. set_solver.
    + intros j x Hj. lia.
    + intros x Hx. left. rewrite Hc in Hx. set_solver.
    + rewrite Nat.add_0_l in *. apply Hg in H0. split_and!; [done..|]. intros k f Hk Hf.
      destruct (H3 f) as [Hx|]; [by eapply H1| |done].
      rewrite Hc in Hx. apply elem_of_singleton in Hx as ->. by apply account_unlisted.
  - intros (H0 & H1 & H2). apply (hop_loop_complete c since account _ 0 _ _ _ _ HL); [by apply Hg| |done..].
    intros x ->%list_elem_of_singleton. apply reach_self.
Qed.

(** A scan without a match or a gap notes no finding. *)
Definition silent (s : scan) : Prop := good s → findings s = [].

Section silent.
Context {sdk : StellarSDK} (c : Checker).

Lemma silent_funders hop fs st : silent st.1 → silent (foldl (check_funder c hop) st fs).1.
Proof.
  revert st. induction fs as [|f fs IH]; intros [s next] Hs; [done|]. cbn [foldl]. apply IH.
  unfold check_funder. case_bool_decide; [done|]. cbn zeta. destruct (lookup c f true); [|done].
  by intros [Hr _].
Qed.

Lemma silent_gap a gap s : silent s → silent (note_gap a gap s).
Proof.
  intros Hs. unfold note_gap.
  destruct (Z.land gap GapVolume =? 0), (Z.land gap GapUnnamed =? 0); [done|..]; by intros [_ Hi].
Qed.

Lemma silent_expand since hop st a st' : expand c since hop st a = Ok st' → silent st.1 → silent st'.1.
Proof.
  unfold expand. destruct (negb _); [by intros [= <-]|]. rewrite bind_Ok. intros ([ins gap] & _ & H) Hs.
  unfold cut in H. destruct (_ <? _)%nat; injection H as <-; apply silent_funders; cbn [fst].
  - by intros [_ Hi].
  - by apply silent_gap.
Qed.

Lemma silent_expand_all since hop level st st' : expand_all c since hop st level = Ok st' → silent st.1 → silent st'.1.
Proof.
  revert st. induction level as [|a level IH]; intros st; cbn [expand_all]; [by intros [= <-]|].
  rewrite bind_Ok. intros (st1 & H1 & H2) Hs. apply (IH _ H2). by eapply silent_expand.
Qed.

Lemma silent_hops n since hop s level s' : hop_loop n c since hop s level = Ok s' → silent s → silent s'.
Proof.
  revert hop s level. induction n as [|n IH]; intros hop s level; cbn [hop_loop]; [by intros [= <-]|].
  rewrite bind_Ok. intros ([s1 next] & H1 & H2) Hs. apply (IH _ _ _ H2).
  by apply (silent_expand_all _ _ _ _ _ H1).
Qed.

Lemma verdict_silent now address hops since v : Check c now address hops since = Ok v →
  Clear v = true ∨ Refused v = true → Findings v = [].
Proof.
  unfold Check. rewrite bind_Ok. intros (u & _ & H). apply bind_Ok in H as (account & _ & H).
  assert (Hgo : ∀ s, silent s → (s' ← hop_loop (Z.to_nat hops) c since 1 s [account];
      mret (mkVerdict false 0 (refer s') (incomplete s') (incomplete s' && volume s') (findings s') (Join "; " (notes s')) (Statuses c))) = Ok v →
      Clear v = true ∨ Refused v = true → Findings v = []).
  { intros s Hs HL [Hv|Hv]; apply bind_Ok in HL as (s' & HL & [= <-]); [|done].
    apply (silent_hops _ _ _ _ _ _ HL Hs). unfold Clear in Hv. cbn in Hv.
    split; [by destruct (refer s')|by destruct (refer s'), (incomplete s')]. }
  destruct (lookup c account false) as [h|]; [|by refine (Hgo _ _ H)].
  destruct (HRefer h); [|by injection H as <-]. refine (Hgo _ _ H). by intros [Hr _].
Qed.
End silent.

(** ** Witnesses *)

Module demo.

Definition alice : string := example.account 1.
Definition bob : string := example.account 2.
Definition carol : string := example.account 3.

(** A list that refuses carol, read at time 0; bob paid alice, and carol paid bob, each an unknown amount. *)
Definition sanctions : lst :=
  mkLst "ofac" (3600 * second) None {[carol := mkHit "ofac" ReasonSanctions false "listed"]} "1" (Some 0) 1 [].
Definition paid (a : string) (since : Z) : res (list Inflow * Z) :=
  Ok (if String.eqb a alice then [mkInflow bob "native" None] else if String.eqb a bob then [mkInflow carol "native" None] else [], 0).
Definition checker (sources : list Source) : Checker := mkChecker sources paid 10 (mkDust 100 ∅) ∅.

End demo.

(** * Properties *)

(** C21: a check clears an address exactly when it is clean: no source lists the account behind it; and as
    far as the hops asked for go, no funder that matters is on a list that names funders, each account
    on the way to one was read without a gap, and it had no more funders that matter than are checked. *)
Theorem cleared_exactly_when_clean {sdk : StellarSDK} (c : Checker) (now : Z) (address account : string) (hops since : Z)
    (v : Verdict) (HC : Check c now address hops since = Ok v) (HA : AccountOf address = Ok account) :
  Clear v = true ↔
  ¬ listed c false account ∧
  (∀ k a, (k < Z.to_nat hops)%nat → reach c sdk since account k a → complete c sdk since a) ∧
  (∀ k f, (k <= Z.to_nat hops)%nat → reach c sdk since account k f → ¬ listed c true f).
Proof.
  destruct (Check_Ok _ _ _ _ _ _ HC) as (u & account' & _ & HA' & Hv). assert (account' = account) as -> by congruence.
  destruct Hv as [h Hh _ Hr _|s s' _ _ Hs Hg HL Hc].
  - unfold Clear. rewrite Hr. split; [done|]. intros (Hn & _). apply lookup_None in Hn. congruence.
  - rewrite lookup_None in Hg. rewrite Hc. by apply (search_clean c account hops since s s').
Qed.

(** Two hops back from alice the list's carol refers her; one hop back nobody is listed. *)
Lemma cleared_exactly_when_clean_witness :
  let c := demo.checker [mkSource demo.sanctions false] in
  ∃ v, @Check (example.sdk []) c second demo.alice 1 0 = Ok v ∧ Clear v = true ∧
    ¬ listed c true demo.bob.
Proof.
  set (c := demo.checker _).
  destruct (@Check (example.sdk []) c second demo.alice 1 0) as [v|e] eqn:E;
    [|exfalso; apply (f_equal is_ok) in E; vm_compute in E; discriminate E].
  exists v. split; [exact E|].
  assert (Hv : Clear v = true).
  { pose proof (f_equal (λ r, match r with Ok v => Clear v | Fail _ => false end) E) as H. vm_compute in H. symmetry. exact H. }
  split; [exact Hv|].
  assert (HA : @AccountOf (example.sdk []) demo.alice = Ok demo.alice) by (vm_compute; reflexivity).
  destruct (proj1 (@cleared_exactly_when_clean (example.sdk []) c second demo.alice demo.alice 1 0 v E HA) Hv) as (_ & _ & H).
  apply (H 1%nat); [apply le_n|].
  apply (reach_hop c (example.sdk []) 0 demo.alice 0 demo.alice demo.bob [mkInflow demo.bob "native" None] 0).
  - apply reach_self.
  - vm_compute. reflexivity.
  - vm_compute. reflexivity.
  - apply list_elem_of_In. vm_compute. left. reflexivity.
Defined.

(** Screening fails closed, and only an address's own match refuses it: a check that answers had
    every source fetched within its maximum age; it refuses exactly when a source lists the account
    itself with a hit that refuses, whoever its funders are, and then with the reason of such a hit. *)
Theorem only_its_own_match_refuses {sdk : StellarSDK} (c : Checker) (now : Z) (address account : string) (hops since : Z)
    (v : Verdict) (HC : Check c now address hops since = Ok v) (HA : AccountOf address = Ok account) :
  (∀ s, s ∈ Sources c → ∃ at_, fetchedAt (SList s) = Some at_ ∧ now - at_ <= Z.quot (maxAge (SList s)) second * second) ∧
  (Refused v = true ↔ ∃ s h, s ∈ Sources c ∧ Lookup (SList s) account = Some h ∧ HRefer h = false) ∧
  (Refused v = true → ∃ s h, s ∈ Sources c ∧ Lookup (SList s) account = Some h ∧ HRefer h = false ∧ VReason v = Reason h).
Proof.
  destruct (Check_Ok _ _ _ _ _ _ HC) as (u & account' & HF & HA' & Hv). assert (account' = account) as -> by congruence.
  pose proof (proj1 (Fresh_Ok c now u) HF) as HF'. split; [exact HF'|].
  destruct Hv as [h Hh Hn Hr HR|s s' Hr Hh _ _ _ _].
  - destruct (lookup_in_refuses _ _ _ _ _ Hh Hn) as (x & Hx & _ & Hl); [done|]. naive_solver.
  - rewrite Hr. split; [|done]. split; [done|]. intros (x & h & Hx & Hl & Hn). exfalso.
    destruct (lookup_in_refused (Sources c) account false None x h Hx (andb_false_l _) Hl Hn) as (h' & H1 & H2).
    specialize (Hh _ H1). congruence.
Qed.

Lemma only_its_own_match_refuses_witness :
  let c := demo.checker [mkSource demo.sanctions false] in
  ∃ v, @Check (example.sdk []) c second demo.carol 1 0 = Ok v ∧ Refused v = true.
Proof.
  set (c := demo.checker _).
  destruct (@Check (example.sdk []) c second demo.carol 1 0) as [v|e] eqn:E;
    [|exfalso; apply (f_equal is_ok) in E; vm_compute in E; discriminate E].
  exists v. split; [exact E|].
  assert (HA : @AccountOf (example.sdk []) demo.carol = Ok demo.carol) by (vm_compute; reflexivity).
  destruct (@only_its_own_match_refuses (example.sdk []) c second demo.carol demo.carol 1 0 v E HA) as (_ & H & _).
  apply H. exists (mkSource demo.sanctions false), (mkHit "ofac" ReasonSanctions false "listed").
  split; [left|]. split; vm_compute; reflexivity.
Defined.

(** [Dust.matter] leaves out dust and nothing else: it names once each the senders whose inflows are
    not all dust, where a sender is dust when each of its inflows has a known asset and amount and what
    it sent of each asset in all is below both the asset's floor and its share of what was received. *)
Theorem matter_leaves_out_only_dust (d : Dust) (ins : list Inflow) :
  NoDup (matter d ins) ∧
  ∀ f, f ∈ matter d ins ↔ f ≠ ""%string ∧ (∃ i, i ∈ ins ∧ From i = f) ∧ ¬ dusty d ins f.
Proof.
  destruct (tally_inflows ins) as (HT & HB & HN & HO). unfold matter. set (t := foldl _ _ ins) in *. clearbody t.
  split; [by apply NoDup_filter|].
  intros f. rewrite list_elem_of_filter, HO, HB, HT. pose proof (sender_some ins f) as Hs.
  destruct (sender ins f) as [s|] eqn:Es; [|naive_solver].
  rewrite <- (dust_dusty d ins f s Es). destruct (unknown s), (dust d (amounts s) (gather (omap named ins))); naive_solver.
Qed.

(** An update a source's guard accepts becomes the source's list and its measure for the next one; it
    shrinks the last accepted copy by no more than the percentage allowed, and holds every canary the
    guard names, or that the last copy held where it names none. One that fails leaves the source, and
    is refused as suspect. *)
Theorem guarded_updates (l : lst) (g : Guard) (es : gmap string Hit) (v : string) (at_ : option Z) (n : Z)
    (has : string → bool) (Hg : guard l = Some g) (Hpct : 0 < MaxShrinkPct g <= 100)
    (Hl : 0 <= size l < 2 ^ 31) (Hn : 0 <= n < 2 ^ 31) :
  let held := match Canaries g with [] => known l | cs => cs end in
  match accept l es v at_ n has with
  | Ok l' => entries l' = es ∧ fetchedAt l' = at_ ∧ size l' = n ∧ known l' = held ∧ guard l' = guard l ∧
      size l * (100 - MaxShrinkPct g) <= n * 100 ∧ ∀ c, c ∈ held → has c = true
  | Fail e => errors_is "suspect update refused" e = true ∧
      (n * 100 < size l * (100 - MaxShrinkPct g) ∨ ∃ c, c ∈ held ∧ has c = false)
  end.
Proof.
  cbn zeta. unfold accept, check. rewrite Hg.
  assert (Eh : match Canaries g with [] => known l | _ => Canaries g end = match Canaries g with [] => known l | cs => cs end)
    by by destruct (Canaries g).
  rewrite Eh. clear Eh. set (held := match Canaries g with [] => known l | cs => cs end).
  assert (HW : ∀ z, 0 <= z < 2 ^ 62 → i64 z = z) by (intros z Hz; unfold i64, W64; rewrite Z.mod_small; lia).
  rewrite !HW by nia. rewrite (proj2 (Z.ltb_lt 0 (MaxShrinkPct g))), andb_true_r by lia.
  assert (HLk : ∀ cs, match lacking cs has with
            | None => ∀ c, c ∈ cs → has c = true | Some c => c ∈ cs ∧ has c = false end).
  { induction cs as [|c cs IH]; cbn [lacking]; [by intros c ?%elem_of_nil|].
    destruct (has c) eqn:E; [|by split; [left|]]. destruct (lacking cs has); set_solver. }
  specialize (HLk held).
  destruct ((0 <? size l) && (n * 100 <? size l * (100 - MaxShrinkPct g))) eqn:E; cbn [fail_if mbind res_bind].
  { apply andb_true_iff in E as [_ E%Z.ltb_lt]. split; [reflexivity|by left]. }
  assert (Hsize : size l * (100 - MaxShrinkPct g) <= n * 100).
  { apply andb_false_iff in E as [E%Z.ltb_ge|E%Z.ltb_ge]; nia. }
  destruct (lacking held has) as [c|]; cbn [mret res_ret mbind res_bind].
  - split; [reflexivity|]. right. by exists c.
  - split_and!; [reflexivity..|exact Hsize|exact HLk].
Qed.

Lemma guarded_updates_witness :
  let l := mkLst "ofac" 0 (Some (mkGuard 10 [])) ∅ "1" (Some 0) 100 ["GABC"] in
  is_ok (accept l ∅ "2" (Some 1) 90 (λ _, true)) = true ∧
  match accept l ∅ "2" (Some 1) 89 (λ _, true) with
  | Ok _ => False | Fail e => errors_is "suspect update refused" e = true end.
Proof.
  set (l := mkLst _ _ _ _ _ _ _ _). split; [vm_compute; reflexivity|].
  pose proof (guarded_updates l (mkGuard 10 []) ∅ "2" (Some 1) 89 (λ _, true) eq_refl
    ltac:(cbn; lia) ltac:(cbn; lia) ltac:(cbn; lia)) as H. cbn zeta in H.
  destruct (accept l ∅ "2" (Some 1) 89 (λ _, true)) as [l'|e]; [|exact (proj1 H)].
  destruct H as (_ & _ & _ & _ & _ & H & _). cbn in H. lia.
Defined.

End checker.
