(* ===== verification/Screening.v ===== *)
(** The schedule of [services/internal/screening]: what each pending deposit needs next, the checks, flags,
    holds and lifts of a round, and its attestation (screener.go); the operators' decisions (ops.go); and
    the rows they read and write (store.go).

    What a round asks of the outside is a record of answers, each of which may depend on how many
    questions were asked before: the clock, Stellar RPC, the vault's deposits as the follower stores
    them, the sources and Horizon, the engine that sends transactions, the account's lock and the
    database, a statement of which may fail and then changes nothing. The checks of one round, which
    run on a pool of workers, each touch the row of another deposit and run here in their order. What
    the code did is kept as a trace. *)
From stdpp Require Import pretty.
From S2P Require Import Prelude.
From S2P Require Import Fr.
From S2P Require Import Xdr.
From S2P Require Import ScVal.
From S2P Require Import VaultState.
From S2P Require Import Keys.
From S2P Require Import Rpc.
From S2P Require Import Checker.

Module screening.

Import checker (ReasonFraud, ReasonReview, ReasonHeld, ReasonOther, ReasonCourtOrder, second).

(** ** Rows *)

(** A row of the table deposits without an outcome, as the follower of the vault's events keeps it. *)
Record deposit : Type := mkDeposit {
  d_id : Z; d_depositor : string; d_amount : Z; d_createdAt : Z; d_flag : option Z }.

(** A row of the table screening, each of whose columns may be NULL. *)
Record columns : Type := mkColumns {
  c_delay : option Z; c_first_check : option string; c_refuse_reason : option Z; c_review : option string;
  c_recheck : option string; c_flag_sent : option Z; c_first_findings : option string;
  c_flag_kind : option string; c_recheck_at : option Z; c_review_at : option Z }.

Definition no_columns : columns := mkColumns None None None None None None None None None None.

(** A column with the value [store.update] gives it. *)
Inductive column : Type :=
| Delay (v : option Z) | FirstCheck (v : option string) | RefuseReason (v : option Z) | Review (v : option string)
| Recheck (v : option string) | FlagSent (v : option Z) | FirstFindings (v : option string)
| FlagKind (v : option string) | RecheckAt (v : option Z) | ReviewAt (v : option Z).

Definition set_column (x : column) (c : columns) : columns :=
  let '(mkColumns de fc rr re rc fs ff fk ra va) := c in
  match x with
  | Delay v => mkColumns v fc rr re rc fs ff fk ra va
  | FirstCheck v => mkColumns de v rr re rc fs ff fk ra va
  | RefuseReason v => mkColumns de fc v re rc fs ff fk ra va
  | Review v => mkColumns de fc rr v rc fs ff fk ra va
  | Recheck v => mkColumns de fc rr re v fs ff fk ra va
  | FlagSent v => mkColumns de fc rr re rc v ff fk ra va
  | FirstFindings v => mkColumns de fc rr re rc fs v fk ra va
  | FlagKind v => mkColumns de fc rr re rc fs ff v ra va
  | RecheckAt v => mkColumns de fc rr re rc fs ff fk v va
  | ReviewAt v => mkColumns de fc rr re rc fs ff fk ra v
  end.

(** [row] is a pending deposit with its screening state. *)
Record row : Type := mkRow {
  r_id : Z; r_depositor : string; r_amount : Z; r_createdAt : Z; r_flag : option Z; r_delay : option Z;
  r_firstCheck : string; r_refuseReason : option Z; r_review : string; r_recheck : string;
  r_recheckAt : option Z; r_flagSent : option Z; r_findings : list string; r_flagKind : string;
  r_needsFlag : bool; r_reviewAt : option Z }.

(** The fields a round writes in place. *)
Definition set_flagged (sent : option Z) (kind : string) (r : row) : row :=
  mkRow (r_id r) (r_depositor r) (r_amount r) (r_createdAt r) (r_flag r) (r_delay r) (r_firstCheck r) (r_refuseReason r)
    (r_review r) (r_recheck r) (r_recheckAt r) sent (r_findings r) kind (r_needsFlag r) (r_reviewAt r).
Definition set_needsFlag (r : row) : row :=
  mkRow (r_id r) (r_depositor r) (r_amount r) (r_createdAt r) (r_flag r) (r_delay r) (r_firstCheck r) (r_refuseReason r)
    (r_review r) (r_recheck r) (r_recheckAt r) (r_flagSent r) (r_findings r) (r_flagKind r) true (r_reviewAt r).

Definition newline : Ascii.ascii := Ascii.ascii_of_nat 10.

(** [strings.Split(s, "\n")] *)
Fixpoint Split (s : string) : list string :=
  match s with
  | EmptyString => [EmptyString]
  | String c s => if Ascii.eqb c newline then EmptyString :: Split s
                  else match Split s with
                       | x :: l => String c x :: l
                       | [] => [String c EmptyString]
                       end
  end.

(** [strings.Join(l, "\n")] *)
Definition joined (l : list string) : string := checker.Join (String newline EmptyString) l.

Definition text (s : option string) : string := default EmptyString s.

(** One row of the query of [store.pending]: a deposit joined with its screening state. *)
Definition row_of (d : deposit) (c : columns) : row :=
  mkRow (d_id d) (d_depositor d) (d_amount d) (d_createdAt d) (d_flag d) (c_delay c) (text (c_first_check c))
    (c_refuse_reason c) (text (c_review c)) (text (c_recheck c)) (c_recheck_at c) (c_flag_sent c)
    (if String.eqb (text (c_first_findings c)) "" then [] else Split (text (c_first_findings c)))
    (text (c_flag_kind c)) false (c_review_at c).

(** [row.reason] is the deposit's flag: the one this service sent last, or else the chain's. *)
Definition reason (r : row) : option Z :=
  match r_flagSent r with
  | Some f => Some f
  | None => if String.eqb (r_flagKind r) "lifted" then None else r_flag r
  end.

(** [row.awaitsReview] *)
Definition awaitsReview (r : row) : bool :=
  String.eqb (r_review r) "needed" &&
  match reason r with None => true | Some f => f =? ReasonHeld end.

(** ** The service *)

(** [Config], by the fields the schedule reads; durations are in nanoseconds, and [seconds] is
    [uint64(d.Seconds())]. *)
Record Config : Type := mkConfig {
  Vault : string; RecheckWindow : Z; Cutoff : Z; FirstCheckWithin : Z; ReviewSLA : Z; TickChecks : nat;
  TickBudget : Z }.

Definition seconds (d : Z) : Z := u64 (Z.quot d second).

(** [time.Time.Unix] of nanoseconds. *)
Definition unix (t : Z) : Z := t / second.

(** [op] is an operator's flag or unflag queued. *)
Record op : Type := mkOp {
  o_id : Z; o_kind : string; o_deposit : Z; o_reason : option Z; o_reviewer : string; o_note : string;
  o_done : option string }.

Record retry : Type := mkRetry { attempts : Z; next : Z }.

(** A call of the vault as the asp account, and what the engine makes of it, [submit.Result]. *)
Inductive call : Type := CallFlag (id reason : Z) | CallUnflag (id : Z) | CallAttest (upTo : Z).
Record Result : Type := mkResult { Outcome : string; Hash : string; Code : string }.

(** [Decision] is one record of the table decisions. *)
Record Decision : Type := mkDecision {
  Kind : string; DepositID : option Z; Address : string; DAmount : option Z; DOutcome : string;
  DReason : option Z; DDetail : string; DSources : list checker.SourceStatus; TxHash : string }.

(** What the service did: a check that answered, with the hops it went back and the time its sources were compared with, a decision
    recorded, a column written or not, a person's decision on a deposit with
    the findings on record, and a call sent, with the questions asked before. *)
Inductive event : Type :=
| ECheck (id : Z) (address : string) (hops at_ : Z) (v : checker.Verdict)
| ERecord (at_ : Z) (d : Decision)
| EUpdate (id : Z) (x : column) (written : bool)
| EReviewed (id : Z) (cleared : bool) (findings : list string)
| ESend (n : nat) (c : call) (r : res Result).

(** The service and its database: the rows of screening by deposit, the operators' queue, when the
    deposits whose checks failed are tried again, the health of the schedule, how many questions were
    asked, and the trace, the newest event first. *)
Record World : Type := mkWorld {
  screening : gmap Z columns; ops : list op; retries : gmap Z retry; tickedAt : option Z; reviews : Z;
  oldestReview : Z; calls : nat; trace : list event }.

Definition set_screening (x : gmap Z columns) (w : World) : World :=
  mkWorld x (ops w) (retries w) (tickedAt w) (reviews w) (oldestReview w) (calls w) (trace w).
Definition set_ops (x : list op) (w : World) : World :=
  mkWorld (screening w) x (retries w) (tickedAt w) (reviews w) (oldestReview w) (calls w) (trace w).
Definition set_retries (x : gmap Z retry) (w : World) : World :=
  mkWorld (screening w) (ops w) x (tickedAt w) (reviews w) (oldestReview w) (calls w) (trace w).
Definition set_tickedAt (x : option Z) (w : World) : World :=
  mkWorld (screening w) (ops w) (retries w) x (reviews w) (oldestReview w) (calls w) (trace w).
Definition set_reviews (n oldest : Z) (w : World) : World :=
  mkWorld (screening w) (ops w) (retries w) (tickedAt w) n oldest (calls w) (trace w).
Definition ask_one (w : World) : World :=
  mkWorld (screening w) (ops w) (retries w) (tickedAt w) (reviews w) (oldestReview w) (S (calls w)) (trace w).
Definition happened (e : event) (w : World) : World :=
  mkWorld (screening w) (ops w) (retries w) (tickedAt w) (reviews w) (oldestReview w) (calls w) (e :: trace w).

(** The outside, by the number of questions before. [shuffle] is the order Go ranges over a map in. *)
Record Env : Type := mkEnv {
  now : nat → Z; client : nat → rpc.Client; deposits : nat → res (list deposit);
  chk : nat → checker.Checker; reports : nat → checker.lst; lock : nat → res unit;
  engine : nat → call → res Result; db : nat → option gerr; shuffle : nat → list column → list column }.

Section screener.
Context {sdk : StellarSDK} (cfg : Config) (env : Env).

Definition ask {A} (f : nat → A) : ST World A := λ w, (ask_one w, Ok (f (calls w))).
Definition emit (e : event) : ST World unit := st_modify (happened e).

(** The result of a computation as a value, its effects kept. *)
Definition try {A} (m : ST World A) : ST World (res A) := λ w, let '(w, r) := m w in (w, Ok r).
Definition lift_res {A} (r : res A) : ST World A := λ w, (w, r).

Definition clock : ST World Z := ask (now env).

(** A statement of the database: its error, or nothing. *)
Definition statement : ST World unit :=
  e ← ask (db env);
  match e with Some e => st_fail e | None => mret tt end.

(** [store.update] *)
Definition update (id : Z) (x : column) : ST World unit :=
  r ← try statement;
  match r with
  | Fail e => _ ← emit (EUpdate id x false); st_fail e
  | Ok _ =>
      _ ← st_modify (λ w, set_screening (<[id := set_column x (default no_columns (screening w !! id))]> (screening w)) w);
      emit (EUpdate id x true)
  end.

(** [Screener.record]: a decision that cannot be recorded pages, and the service goes on. *)
Definition day : Z := 24 * 3600 * second.
Definition record (d : Decision) : ST World unit :=
  at_ ← clock;
  let at_ := if String.eqb (Kind d) "unshield" || String.eqb (Kind d) "self_report" then at_ / day * day else at_ in
  _ ← try statement;
  emit (ERecord at_ d).

(** [store.pending] *)
Definition pending : ST World (list row) :=
  r ← ask (deposits env);
  ds ← lift_res r;
  w ← st_get;
  mret (map (λ d, row_of d (default no_columns (screening w !! d_id d))) ds).

(** [Screener.send]: nothing is sent without the lock. *)
Definition send (c : call) : ST World Result :=
  l ← ask (lock env);
  _ ← lift_res l;
  r ← ask (λ n, (n, engine env n c));
  _ ← emit (ESend r.1 c r.2);
  res ← lift_res r.2;
  if String.eqb (Outcome res) "success" then mret res
  else st_fail (Wrapf (Sentinel "send") "%s: %s" [FStr (Outcome res); FStr (Code res)]).

(** [Screener.Flag] refuses a pending deposit on chain and records it. *)
Definition Flag (id reason : Z) (kind detail : string) : ST World unit :=
  res ← send (CallFlag id reason);
  _ ← update id (FlagSent (Some reason));
  _ ← update id (FlagKind (Some kind));
  record (mkDecision kind (Some id) "" None "flag" (Some reason) detail [] (Hash res)).

(** ** What a deposit needs next *)

Record vaultView : Type := mkView {
  v_config : vault.Config; v_limits : vault.Limits; v_status : vault.Status; v_now : Z }.

(** An instance as decoded, which holds its config, limits and status. *)
Definition view_of (i : vault.VaultInstance) (now : Z) : res vaultView :=
  match vault.IConfig i, vault.ILimits i, vault.IStatus i with
  | Some c, Some l, Some s => Ok (mkView c l s now)
  | _, _, _ => Fail (Sentinel "instance")
  end.

Inductive task : Type := taskNone | taskFlag | taskLift | taskRecheck | taskFirst.
Record plan_ : Type := mkPlan {
  p_row : row; p_task : task; eligibleAt : Z; p_reason : Z; p_kind : string; p_detail : string }.

(** When a row's deposit is eligible, with its delay read. *)
Definition eligible (r : row) (delay : Z) (v : vaultView) : Z :=
  vault.EligibleAt (vault.mkPendingDeposit (r_depositor r) (r_amount r) fr.zero fr.zero [] [] (r_createdAt r) delay None 0)
    (v_config v) (v_limits v).

(** [Screener.fresh] *)
Definition fresh (now : Z) (r : row) : bool :=
  match r_recheckAt r with
  | Some at_ => now <=? u64 (at_ + seconds (RecheckWindow cfg))
  | None => false
  end.

(** [Screener.failing] and [Screener.due], of the retries and the clock *)
Definition failing (retries : gmap Z retry) (t id : Z) : bool :=
  match retries !! id with Some r => t <? next r | None => false end.
Definition due (retries : gmap Z retry) (t id : Z) : bool :=
  match retries !! id with Some r => negb (t <? next r) | None => true end.

(** [Screener.plan] decides what a deposit needs next from its stored state alone; [reported] is
    whether its depositor's key was reported, [failing] whether its last check failed and waits, [held]
    whether it is flagged as held. *)
Definition plan_as (v : vaultView) (reported failing held : bool) (r : row) (delay : Z) : plan_ :=
  let e := eligible r delay v in
  let as_ (t : task) := mkPlan r t e 0 "" "" in
  let flag reason kind detail := mkPlan r taskFlag e reason kind detail in
  if reported then flag ReasonFraud "self_report" "the depositor reported its key compromised"
  else
    let refusal := default ReasonOther (r_refuseReason r) in
    let inRecheck := e <=? u64 (v_now v + seconds (RecheckWindow cfg)) in
    let attested := r_id r <=? vault.AttestedUpTo (v_status v) in
    let passed := String.eqb (r_recheck r) "pass" && (attested || fresh (v_now v) r) in
    if String.eqb (r_firstCheck r) "refuse" then flag refusal "first_check" "refused at the first check"
    else if String.eqb (r_review r) "refused" then flag ReasonReview "review" "refused by the reviewer"
    else if String.eqb (r_recheck r) "refuse" then flag refusal "recheck" "refused at the final check"
    else if negb held && negb passed && (e <=? u64 (v_now v + seconds (Cutoff cfg))) && failing then
      flag ReasonHeld "hold" "its checks could not run in time"
    else if String.eqb (r_firstCheck r) "" then as_ taskFirst
    else if String.eqb (r_review r) "needed" then
      if inRecheck && negb held then flag ReasonHeld "hold" "the review was not finished before the final check"
      else as_ taskNone
    else if negb inRecheck then as_ taskNone
    else if held && String.eqb (r_recheck r) "pass" && fresh (v_now v) r then as_ taskLift
    else if held then as_ taskRecheck
    else if passed then as_ taskNone
    else as_ taskRecheck.
Definition plan (v : vaultView) (reported failing : bool) (r : row) : plan_ :=
  match r_delay r with
  | None => mkPlan r taskNone 0 0 "" ""
  | Some delay =>
      match reason r with
      | Some f => if f =? ReasonHeld then plan_as v reported failing true r delay else mkPlan r taskNone (eligible r delay v) 0 "" ""
      | None => plan_as v reported failing false r delay
      end
  end.

(** ** Checks *)

(** [Screener.failed] and [Screener.succeeded] *)
Definition wait (attempts : Z) : Z := Z.min (30 * second * 2 ^ Z.min (attempts - 1) 5) (600 * second).
Definition failed (id : Z) : ST World unit :=
  t ← clock;
  st_modify (λ w,
    let n := match retries w !! id with Some r => attempts r | None => 0 end + 1 in
    set_retries (<[id := mkRetry n (t + wait n)]> (retries w)) w).
Definition succeeded (id : Z) : ST World unit := st_modify (λ w, set_retries (delete id (retries w)) w).

Definition large (r : row) (v : vaultView) : bool := vault.LargeDepositThreshold (v_limits v) <=? r_amount r.

(** [Screener.hops] *)
Definition hops (r : row) (v : vaultView) : Z := if large r v then 2 else 1.

Definition FunderWindow : Z := 30 * 24 * 3600 * second.
Definition since (r : row) : Z := r_createdAt r * second - FunderWindow.

(** [check.Check] of a deposit's depositor; an answer is kept with the time it was asked at. *)
Definition check (r : row) (v : vaultView) : ST World checker.Verdict :=
  a ← ask (λ n, (now env n, checker.Check (chk env n) (now env n) (r_depositor r) (hops r v) (since r)));
  verdict ← lift_res a.2;
  _ ← emit (ECheck (r_id r) (r_depositor r) (hops r v) a.1 verdict);
  mret verdict.

(** [Screener.sendToReview] *)
Definition sendToReview (id : Z) : ST World unit :=
  t ← clock;
  _ ← update id (ReviewAt (Some (unix t)));
  update id (Review (Some "needed")).

(** What a check that answered decides, and the row it leaves in the table decisions. *)
Definition decision (kind : string) (r : row) (outcome detail : string) (verdict : checker.Verdict) : Decision :=
  mkDecision kind (Some (r_id r)) (r_depositor r) (Some (r_amount r)) outcome
    (if checker.Refused verdict then Some (checker.VReason verdict) else None) detail (checker.VSources verdict) "".

(** [Screener.firstCheck] *)
Definition firstCheck (v : vaultView) (r : row) : ST World string :=
  let id := r_id r in
  a ← try (check r v);
  match a with
  | Fail e => _ ← clock; st_fail e
  | Ok verdict =>
      let contract := checker.is_contract (r_depositor r) in
      let detail := if contract && checker.Clear verdict then "a contract depositor, whose funders cannot be read"
                    else checker.Detail verdict in
      let outcome := if checker.Refused verdict then "refuse"
                     else if negb (checker.Clear verdict) || large r v || contract then "refer" else "pass" in
      _ ← record (decision "first_check" r outcome detail verdict);
      _ ← (if checker.Refused verdict then update id (RefuseReason (Some (checker.VReason verdict))) else mret tt);
      _ ← update id (FirstFindings (Some (joined (checker.Findings verdict))));
      _ ← (if String.eqb outcome "refer" then sendToReview id else mret tt);
      _ ← update id (FirstCheck (Some outcome));
      mret outcome
  end.

(** [subset] *)
Definition subset (found cleared : list string) : bool := forallb (λ f, bool_decide (f ∈ cleared)) found.

(** The outcome of a final check: a review that cleared what it finds now lets it pass. *)
Definition recheck_outcome (r : row) (verdict : checker.Verdict) : string :=
  if checker.Refused verdict then "refuse"
  else if negb (checker.Clear verdict) && negb (String.eqb (r_review r) "cleared" && subset (checker.Findings verdict) (r_findings r))
  then "refer" else "pass".

(** [Screener.recheck] *)
Definition recheck (v : vaultView) (r : row) : ST World unit :=
  let id := r_id r in
  verdict ← check r v;
  let outcome := recheck_outcome r verdict in
  _ ← record (decision "recheck" r outcome (checker.Detail verdict) verdict);
  _ ← (if checker.Refused verdict then update id (RefuseReason (Some (checker.VReason verdict))) else mret tt);
  _ ← (if String.eqb outcome "refer" then
         _ ← update id (FirstFindings (Some (joined (checker.Findings verdict))));
         sendToReview id
       else mret tt);
  _ ← update id (Recheck (Some outcome));
  t ← clock;
  update id (RecheckAt (Some (unix t))).

(** [Screener.lift] unflags a held deposit. *)
Definition lift (r : row) : ST World row :=
  let id := r_id r in
  res ← send (CallUnflag id);
  _ ← update id (FlagSent None);
  _ ← update id (FlagKind (Some "lifted"));
  _ ← record (mkDecision "unflag" (Some id) (r_depositor r) (Some (r_amount r)) "unflag" (Some ReasonHeld)
               "the hold ended: its final check passed" [] (Hash res));
  mret (set_flagged None "lifted" r).

(** One worker's turn of [Screener.runChecks]. *)
Definition run_check (v : vaultView) (p : plan_) : ST World unit :=
  match p_task p with
  | taskRecheck => recheck v (p_row p)
  | _ =>
      outcome ← firstCheck v (p_row p);
      if String.eqb outcome "pass" && (eligibleAt p <=? u64 (v_now v + seconds (RecheckWindow cfg)))
      then recheck v (p_row p) else mret tt
  end.

(** [Screener.runChecks]: [more] more checks may start, and none once the round's budget is spent. *)
Fixpoint runChecks (more : nat) (v : vaultView) (checks : list plan_) (start : Z) : ST World unit :=
  match more, checks with
  | S more, p :: checks =>
      t ← clock;
      if TickBudget cfg <? t - start then mret tt
      else
        a ← try (run_check v p);
        _ ← (if is_ok a then succeeded (r_id (p_row p)) else failed (r_id (p_row p)));
        runChecks more v checks start
  | _, _ => mret tt
  end.

(** ** A round *)

(** One deposit of [Screener.settle]: what it becomes, and the check it is due. *)
Definition settle_one (v : vaultView) (flags lifts : bool) (r : row) : ST World (row * option plan_) :=
  t ← clock;
  list ← ask (reports env);
  w ← st_get;
  let reported := match checker.Lookup list (r_depositor r) with Some h => negb (checker.HRefer h) | None => false end in
  let p := plan v reported (failing (retries w) t (r_id r)) r in
  match p_task p with
  | taskFlag =>
      if flags then
        a ← try (Flag (r_id r) (p_reason p) (p_kind p) (p_detail p));
        mret (if is_ok a then set_flagged (Some (p_reason p)) (p_kind p) r else set_needsFlag r, None)
      else mret (r, None)
  | taskLift =>
      if lifts then
        a ← try (lift r);
        mret (match a with Ok r => r | Fail _ => r end, None)
      else mret (r, None)
  | taskRecheck | taskFirst =>
      t ← clock;
      w ← st_get;
      mret (r, if due (retries w) t (r_id r) then Some p else None)
  | taskNone => mret (r, None)
  end.

(** [Screener.settle] sends the flags the deposits' state calls for and lifts the holds whose deposits
    passed, as asked, and returns the rows it leaves and the checks that are due. *)
Fixpoint settle (v : vaultView) (flags lifts : bool) (rows : list row) : ST World (list row * list plan_) :=
  match rows with
  | [] => mret ([], [])
  | r :: rows =>
      '(r, p) ← settle_one v flags lifts r;
      '(rows, ps) ← settle v flags lifts rows;
      mret (r :: rows, match p with Some p => p :: ps | None => ps end)
  end.

(** [Screener.loadDelays] reads the delay snapshot of deposits that do not have one yet. *)
Fixpoint store_delays (entries : gmap string rpc.Entry) (keys : list (Z * LedgerKey)) : ST World unit :=
  match keys with
  | [] => mret tt
  | (id, k) :: keys =>
      match rpc.KeyString k with
      | Fail _ => store_delays entries keys
      | Ok name =>
          match entries !! name with
          | None => store_delays entries keys
          | Some e =>
              d ← lift_res (v ← rpc.ContractValue e; vault.DecodePendingDeposit v);
              _ ← update id (Delay (Some (vault.Delay d)));
              store_delays entries keys
          end
      end
  end.

Definition loadDelays (rows : list row) : ST World unit :=
  let missing := filter (λ r, r_delay r = None) rows in
  ks ← lift_res (mapM (λ r, k ← keys.PendingKey (Vault cfg) (r_id r); mret (r_id r, k)) missing);
  match ks with
  | [] => mret tt
  | _ =>
      c ← ask (client env);
      '(entries, _) ← lift_res (rpc.Entries c ks.*2);
      store_delays entries ks
  end.

(** ** The attestation *)

(** A row [attest] may vouch for: its final check passed and is fresh, and no flag of it failed. *)
Definition vouched (now window : Z) (r : row) : bool :=
  negb (r_needsFlag r) && String.eqb (r_recheck r) "pass" &&
  match r_recheckAt r with Some at_ => now <=? u64 (at_ + window) | None => false end.

(** The loop of [attestCandidate]. *)
Fixpoint candidate (rows : list row) (attested now window : Z) (holdable : row → bool)
    (best : Z) (holds waiting : list row) : Z * list row :=
  match rows with
  | [] => (best, holds)
  | r :: rows =>
      if (r_id r <=? attested) || match reason r with Some _ => true | None => false end then
        candidate rows attested now window holdable best holds waiting
      else if vouched now window r then
        candidate rows attested now window holdable (r_id r) (holds ++ waiting) []
      else if negb (r_needsFlag r) && holdable r then
        candidate rows attested now window holdable best holds (waiting ++ [r])
      else (best, holds)
  end.

(** [attestCandidate] *)
Definition attestCandidate (rows : list row) (attested now window : Z) (holdable : row → bool) : Z * list row :=
  candidate rows attested now window holdable 0 [] [].

Definition refundDelay : Z := 24 * 60 * 60.

(** A deposit [attest] may hold: its hold can be lifted, before it is eligible. *)
Definition holdable (v : vaultView) (r : row) : bool :=
  match r_delay r with
  | None => false
  | Some delay =>
      let e := eligible r delay v in
      (e <=? u64 (v_now v + refundDelay)) &&
      (String.eqb (r_review r) "needed" || (u64 (v_now v + seconds (RecheckWindow cfg)) <? e))
  end.

(** The loop of [chainAgrees] over the answer for each deposit. *)
Fixpoint agree (passed : list Z) (entries : gmap string rpc.Entry) (keys : list (Z * LedgerKey)) : res unit :=
  match keys with
  | [] => Ok tt
  | (id, k) :: keys =>
      match rpc.KeyString k with
      | Fail _ => agree passed entries keys
      | Ok name =>
          match entries !! name with
          | None => agree passed entries keys
          | Some e =>
              v ← rpc.ContractValue e;
              d ← vault.DecodePendingDeposit v;
              _ ← fail_if (bool_decide (vault.Flag d = None) && negb (bool_decide (id ∈ passed)))
                    (Wrapf (Sentinel "agree") "deposit %d is pending on chain without a passed final check here" [FInt id]);
              agree passed entries keys
          end
      end
  end.

(** The deposits an attestation would cover. *)
Definition covered (attested upTo : Z) : list Z := (λ i, attested + 1 + Z.of_nat i) <$> seq 0 (Z.to_nat (upTo - attested)).

(** [Screener.chainAgrees] reads every deposit an attestation would cover from the chain. *)
Definition chainAgrees (attested upTo now : Z) (rows : list row) : ST World unit :=
  let passed := r_id <$> filter (λ r, String.eqb (r_recheck r) "pass" && fresh now r = true) rows in
  ks ← lift_res (mapM (λ id, k ← keys.PendingKey (Vault cfg) id; mret (id, k)) (covered attested upTo));
  c ← ask (client env);
  '(entries, _) ← lift_res (rpc.Entries c ks.*2);
  lift_res (agree passed entries ks).

(** The holds [attest] sends before it. The rows it marks as flagged are only asked afterwards whether they
    await a review, which a hold does not change. *)
Fixpoint hold_all (holds : list row) : ST World unit :=
  match holds with
  | [] => mret tt
  | r :: holds =>
      _ ← Flag (r_id r) ReasonHeld "hold"
            (if String.eqb (r_review r) "needed" then "it holds back later deposits while it waits for a review"
             else "it holds back later deposits while it waits for its own final check");
      hold_all holds
  end.

(** [Screener.attest] *)
Definition attest (v : vaultView) (rows : list row) : ST World unit :=
  f ← ask (λ n, checker.Fresh (chk env n) (now env n));
  match f with
  | Fail _ => mret tt
  | Ok _ =>
      if vault.Halted (v_status v) (v_now v) then mret tt
      else
        let attested := vault.AttestedUpTo (v_status v) in
        let '(upTo, holds) := attestCandidate rows attested (v_now v) (seconds (RecheckWindow cfg)) (holdable v) in
        if (upTo =? 0) || (vault.NextDepositID (v_status v) <=? upTo) then mret tt
        else
          _ ← hold_all holds;
          _ ← chainAgrees attested upTo (v_now v) rows;
          res ← send (CallAttest upTo);
          w ← ask (chk env);
          record (mkDecision "attest" (Some upTo) "" None "attest" None ("attested up to " +:+ pretty upTo) (checker.Statuses w) (Hash res))
  end.

(** [Screener.remind], without its pages: how many deposits wait for a person, and how long the first of
    them has waited. *)
Fixpoint remind_rows (rows : list row) (n since : Z) : ST World (Z * Z) :=
  match rows with
  | [] => mret (n, since)
  | r :: rows =>
      if negb (awaitsReview r) then remind_rows rows n since
      else
        t ← clock;
        remind_rows rows (n + 1) (Z.max since (t - default (r_createdAt r) (r_reviewAt r) * second))
  end.
Definition remind (rows : list row) : ST World unit :=
  '(n, since) ← remind_rows rows 0 0;
  st_modify (set_reviews n since).

(** The order of a round's checks: re-checks by deadline, then first checks by age. *)
Definition rank (t : task) : Z :=
  match t with taskNone => 0 | taskFlag => 1 | taskLift => 2 | taskRecheck => 3 | taskFirst => 4 end.
Definition sooner (a b : plan_) : Prop :=
  if rank (p_task a) =? rank (p_task b) then
    match p_task a with
    | taskRecheck => eligibleAt a <= eligibleAt b
    | _ => r_createdAt (p_row a) <= r_createdAt (p_row b)
    end
  else rank (p_task a) <= rank (p_task b).
#[export] Instance sooner_dec a b : base.Decision (sooner a b).
Proof. unfold sooner. destruct (_ =? _); [destruct (p_task a)|]; apply _. Defined.

(** [slices.SortStableFunc]: each check goes after those no later than it. *)
Fixpoint insert_plan (p : plan_) (l : list plan_) : list plan_ :=
  match l with
  | [] => [p]
  | q :: l => if decide (sooner q p) then q :: insert_plan p l else p :: q :: l
  end.
Definition sorted (l : list plan_) : list plan_ := foldl (λ acc p, insert_plan p acc) [] l.

(** ** The operators *)

Definition ErrNotPending : gerr := Sentinel "screening: the deposit is not waiting for that decision".
Definition ErrBeforeFinalWindow : gerr := Sentinel "screening: the deposit keeps its flag until its final window".

(** [Screener.Reviews] *)
Definition Reviews : ST World (list row) := rows ← pending; mret (filter (λ r, awaitsReview r = true) rows).

(** [Screener.pendingRow] *)
Definition pendingRow (id : Z) : ST World row :=
  rows ← pending;
  match List.find (λ r, r_id r =? id) rows with Some r => mret r | None => st_fail ErrNotPending end.

(** [Screener.DecideReview] records a reviewer's decision. *)
Definition DecideReview (id : Z) (reviewer : string) (clear : bool) : ST World unit :=
  r ← pendingRow id;
  _ ← st_fail_if (negb (String.eqb (r_review r) "needed")) ErrNotPending;
  let outcome := if clear then "cleared" else "refused" in
  _ ← emit (EReviewed id clear (r_findings r));
  _ ← update id (Review (Some outcome));
  record (mkDecision "review" (Some id) (r_depositor r) (Some (r_amount r)) outcome None ("reviewer: " +:+ reviewer) [] "").

(** [manualReason] *)
Definition manualReason (r : Z) : bool := (r =? ReasonFraud) || (r =? ReasonOther) || (r =? ReasonCourtOrder).
Definition errManual : gerr :=
  Wrapf (Sentinel "manual") "screening: manual flags use reason %d, %d or %d" [FInt ReasonFraud; FInt ReasonOther; FInt ReasonCourtOrder].

(** [Screener.FlagManually] *)
Definition FlagManually (id reason : Z) (reviewer note : string) : ST World unit :=
  _ ← st_fail_if (negb (manualReason reason)) errManual;
  _ ← pendingRow id;
  Flag id reason "manual" ("reviewer: " +:+ reviewer +:+ "; " +:+ note).

(** [store.queueOp], with the next number of the queue. *)
Definition queueOp (kind : string) (id : Z) (reason : option Z) (reviewer note : string) : ST World Z :=
  _ ← clock;
  _ ← statement;
  w ← st_get;
  let n := Z.of_nat (length (ops w)) + 1 in
  _ ← st_modify (set_ops (ops w ++ [mkOp n kind id reason reviewer note None]));
  mret n.

(** [Screener.QueueFlag] and [Screener.QueueUnflag] *)
Definition QueueFlag (id reason : Z) (reviewer note : string) : ST World Z :=
  _ ← st_fail_if (negb (manualReason reason)) errManual;
  queueOp "flag" id (Some reason) reviewer note.
Definition QueueUnflag (id : Z) (reviewer note : string) : ST World Z := queueOp "unflag" id None reviewer note.

(** The columns an unflag resets; the last assignment of each stands. *)
Definition reset (final held : bool) (t : Z) : list column :=
  [FirstCheck (Some "pass"); Review (Some "cleared"); Recheck (if final then Some "pass" else None);
   RecheckAt (if final then Some (unix t) else None); FlagSent None; RefuseReason None;
   FlagKind (if held then Some "lifted" else None)].

Fixpoint update_all (id : Z) (xs : list column) : ST World unit :=
  match xs with
  | [] => mret tt
  | x :: xs => _ ← update id x; update_all id xs
  end.

(** The vault's instance as the node asked answers. *)
Definition vault_view (t : Z) : ST World vaultView :=
  i ← ask (λ n, rpc.VaultInstance (client env n) (Vault cfg));
  '(i, _) ← lift_res i;
  lift_res (view_of i (u64 (unix t))).

(** [Screener.Unflag] corrects a mistaken flag while the deposit is pending. *)
Definition Unflag (id : Z) (reviewer note : string) : ST World unit :=
  r ← pendingRow id;
  match r_flag r with
  | None => st_fail ErrNotPending
  | Some flag =>
      v ← vault_view 0;
      t ← clock;
      let held := flag =? ReasonHeld in
      _ ← st_fail_if (held && String.eqb (r_review r) "needed")
            (Wrapf (Sentinel "unflag") "screening: deposit %d is held for a review; the review decides it first" [FInt id]);
      let final := held || (id <=? vault.AttestedUpTo (v_status v)) in
      _ ← (if final then
             match r_delay r with
             | None => st_fail (Wrapf (Sentinel "unflag") "screening: deposit %d has no delay read yet" [FInt id])
             | Some delay =>
                 st_fail_if (u64 (unix (t + RecheckWindow cfg)) <? eligible r delay v)
                   (Wrapf ErrBeforeFinalWindow "%w, which opens %s before deposit %d is eligible" [FInt (RecheckWindow cfg); FInt id])
             end
           else mret tt);
      verdict ← check r v;
      _ ← st_fail_if (checker.Refused verdict)
            (Wrapf (Sentinel "unflag") "screening: the checks refuse deposit %d now: %s" [FInt id; FStr (checker.Detail verdict)]);
      _ ← st_fail_if (final && negb (checker.Clear verdict))
            (Wrapf (Sentinel "unflag") "screening: the checks do not clear deposit %d now: %s" [FInt id; FStr (checker.Detail verdict)]);
      res ← send (CallUnflag id);
      _ ← emit (EReviewed id true (r_findings r));
      _ ← (if final then record (decision "recheck" r "pass" (checker.Detail verdict) verdict) else mret tt);
      w ← st_get;
      _ ← update_all id (shuffle env (calls w) (reset final held t));
      record (mkDecision "unflag" (Some id) (r_depositor r) (Some (r_amount r)) "unflag" (Some flag)
                ("reviewer: " +:+ reviewer +:+ "; " +:+ note) [] (Hash res))
  end.

(** [store.finishOp] *)
Definition finishOp (id : Z) (result : string) : ST World unit :=
  _ ← clock;
  _ ← statement;
  st_modify (λ w, set_ops (map (λ o, if o_id o =? id
    then mkOp (o_id o) (o_kind o) (o_deposit o) (o_reason o) (o_reviewer o) (o_note o) (Some result) else o) (ops w)) w).

(** One queued decision of [Screener.runOps]. *)
Definition run_op (o : op) : ST World unit :=
  if String.eqb (o_kind o) "flag" then
    match o_reason o with
    | Some reason => FlagManually (o_deposit o) reason (o_reviewer o) (o_note o)
    | None => st_fail (Sentinel "panic: nil reason")
    end
  else if String.eqb (o_kind o) "unflag" then Unflag (o_deposit o) (o_reviewer o) (o_note o)
  else st_fail (Wrapf (Sentinel "operation") "unknown operation %q" [FStr (o_kind o)]).

(** The loop of [runOps]; of the result stored, the text of an error is left out. *)
Fixpoint run_ops (os : list op) : ST World unit :=
  match os with
  | [] => mret tt
  | o :: os =>
      a ← try (run_op o);
      match a with
      | Fail e =>
          if String.eqb (o_kind o) "unflag" && errors_is "screening: the deposit keeps its flag until its final window" e
          then run_ops os
          else _ ← finishOp (o_id o) "failed"; run_ops os
      | Ok _ => _ ← finishOp (o_id o) "done"; run_ops os
      end
  end.

(** [Screener.runOps] carries out the operators' queued decisions, in their order. *)
Definition runOps : ST World unit :=
  _ ← statement;
  w ← st_get;
  run_ops (filter (λ o, o_done o = None) (ops w)).

(** [Screener.PendingUnflags]: the deposits with an unflag queued, and when their final window ends. *)
Definition PendingUnflags : ST World (list (Z * Z)) :=
  _ ← statement;
  w ← st_get;
  let queued := o_deposit <$> filter (λ o, o_done o = None ∧ o_kind o = "unflag"%string) (ops w) in
  match queued with
  | [] => mret []
  | _ =>
      v ← vault_view 0;
      rows ← pending;
      mret (omap (λ r, if bool_decide (r_id r ∈ queued)
                       then (λ delay, (r_id r, eligible r delay v)) <$> r_delay r else None) rows)
  end.

(** [Screener.Tick] runs one round of the schedule. *)
Definition Tick : ST World unit :=
  start ← clock;
  v ← vault_view start;
  rows ← pending;
  _ ← loadDelays rows;
  rows ← pending;
  _ ← settle v true false rows;
  _ ← try runOps;
  rows ← pending;
  '(_, checks) ← settle v false true rows;
  _ ← runChecks (TickChecks cfg) v (sorted checks) start;
  rows ← pending;
  '(rows, _) ← settle v true true rows;
  _ ← attest v rows;
  _ ← remind rows;
  t ← clock;
  st_modify (set_tickedAt (Some t)).

(** Whatever changes the service's world: a round, a reviewer's decision, and an operator's. *)
Inductive step (w : World) : World → Prop :=
| Step_tick w' r : Tick w = (w', r) → step w w'
| Step_review id reviewer clear w' r : DecideReview id reviewer clear w = (w', r) → step w w'
| Step_queue_flag id reason reviewer note w' r : QueueFlag id reason reviewer note w = (w', r) → step w w'
| Step_queue_unflag id reviewer note w' r : QueueUnflag id reviewer note w = (w', r) → step w w'
| Step_flag id reason reviewer note w' r : FlagManually id reason reviewer note w = (w', r) → step w w'
| Step_unflag id reviewer note w' r : Unflag id reviewer note w = (w', r) → step w w'.

End screener.

Definition New : World := mkWorld ∅ [] ∅ None 0 0 0 [].

(** * Specification *)

Section spec.
Context {sdk : StellarSDK} (cfg : Config) (env : Env).

(** The clock never goes back, and ranging over a map visits each of its keys once. *)
Record laws : Prop := mkLaws {
  clock_forward : ∀ n m, (n ≤ m)%nat → now env n <= now env m;
  ranges_once : ∀ n l, shuffle env n l ≡ₚ l }.

(** No statement of the database fails. *)
Definition db_up : Prop := ∀ n, db env n = None.

(** A person cleared the deposit; and with this finding on its record. *)
Definition person (tr : list event) (id : Z) : Prop := ∃ fs, EReviewed id true fs ∈ tr.
Definition reviewed (tr : list event) (id : Z) (f : string) : Prop := ∃ fs, EReviewed id true fs ∈ tr ∧ f ∈ fs.

(** A final check's verdict that lets the deposit pass, after [tr]: it matched nothing that refuses, and
    it is clear or a person cleared the deposit before; and as long as the database never failed, a
    person had each of its findings on record. *)
Definition passing (tr : list event) (id : Z) (v : checker.Verdict) : Prop :=
  checker.Refused v = false ∧
  (checker.Clear v = true ∨ person tr id ∧ (db_up → ∀ f, f ∈ checker.Findings v → reviewed tr id f)).

(** A final check of the deposit let it pass: one that began at [t] or later, or the one whose outcome
    was stored with the time [t]. *)
Inductive passed_at (tr : list event) (id t : Z) : Prop :=
| Passed_later pre post a h at_ v :
    tr = pre ++ ECheck id a h at_ v :: post → passing post id v → t <= unix at_ → passed_at tr id t
| Passed_stored pre post a h at_ v at' d :
    tr = pre ++ EUpdate id (RecheckAt (Some t)) true :: EUpdate id (Recheck (Some "pass"%string)) true
             :: ERecord at' d :: ECheck id a h at_ v :: post →
    passing post id v → passed_at tr id t.

(** A deposit whose first check needed nobody: a clear one, of an account, one hop back, as only small
    deposits are checked; or a person cleared it. *)
Definition first_ok (tr : list event) (id : Z) : Prop :=
  person tr id ∨ ∃ a at_ v, ECheck id a 1 at_ v ∈ tr ∧ checker.Clear v = true ∧ checker.is_contract a = false.

(** What a row's state rests on. [up] is whether the findings on record are the ones a review cleared. *)
Record row_ok (up : Prop) (tr : list event) (r : row) : Prop := mkRowOk {
  ro_pass : r_recheck r = "pass"%string → first_ok tr (r_id r) ∧ ∀ t, r_recheckAt r = Some t → passed_at tr (r_id r) t;
  ro_cleared : r_review r = "cleared"%string →
    person tr (r_id r) ∧ (up → ∀ f, f ∈ r_findings r → reviewed tr (r_id r) f);
  ro_first : r_firstCheck r ∈ [""; "pass"; "refer"; "refuse"]%string;
  ro_first_pass : r_firstCheck r = "pass"%string → first_ok tr (r_id r);
  ro_first_refer : r_firstCheck r = "refer"%string → r_review r ∈ ["needed"; "cleared"; "refused"]%string }.

(** What an attestation sent at the [n]-th question rests on, after [tr]: in the same round the sources
    were fresh and the vault was not halted, and of every deposit it covers that the chain showed still
    pending and unflagged, a final check passed within the window of the round's time, and its first
    check needed nobody or a person cleared it. *)
Inductive attestation (n : nat) (upTo : Z) (tr : list event) : Prop :=
| Attestation (time view fresh_ chain : nat) v inst ks entries :
    (time < view < fresh_)%nat → (fresh_ < chain < n)%nat →
    rpc.VaultInstance (client env view) (Vault cfg) = Ok inst →
    view_of inst.1 (u64 (unix (now env time))) = Ok v →
    checker.Fresh (chk env fresh_) (now env fresh_) = Ok tt →
    vault.Halted (v_status v) (v_now v) = false → upTo < vault.NextDepositID (v_status v) →
    mapM (λ id, k ← keys.PendingKey (Vault cfg) id; mret (id, k)) (covered (vault.AttestedUpTo (v_status v)) upTo) = Ok ks →
    rpc.Entries (client env chain) ks.*2 = Ok entries →
    (∀ id k name e x d, (id, k) ∈ ks → rpc.KeyString k = Ok name → entries.1 !! name = Some e →
       rpc.ContractValue e = Ok x → vault.DecodePendingDeposit x = Ok d → vault.Flag d = None →
       first_ok tr id ∧ ∃ t, passed_at tr id t ∧ v_now v <= u64 (t + seconds (RecheckWindow cfg))) →
    attestation n upTo tr.

Definition sends_ok (tr : list event) : Prop :=
  ∀ pre n upTo r post, tr = pre ++ ESend n (CallAttest upTo) r :: post → attestation n upTo post.

(** The row of a deposit by its columns alone. *)
Definition stored (id : Z) (c : columns) : row := row_of (mkDeposit id "" 0 0 None) c.

(** The invariant, with the findings of the rows [U] those that were cleared. *)
Record Inv_at (U : Z → Prop) (w : World) : Prop := mkInv {
  inv_rows : ∀ id c, screening w !! id = Some c → row_ok (U id) (trace w) (stored id c);
  inv_times : ∀ id c t n, screening w !! id = Some c → c_recheck_at c = Some t → (calls w ≤ n)%nat → t <= unix (now env n);
  inv_sends : sends_ok (trace w) }.
Definition Inv : World → Prop := Inv_at (λ _, db_up).
End spec.

Section schedule.
Context {sdk : StellarSDK} (cfg : Config).
Implicit Types (r : row).

(** A deposit still to be decided: neither flagged nor only held. *)
Definition undecided (r : row) : Prop := reason r = None ∨ reason r = Some ReasonHeld.

(** What refuses a deposit, of its row and of the self-reports. *)
Definition refusal (reported : bool) (r : row) : Prop :=
  reported = true ∨ r_firstCheck r = "refuse"%string ∨ r_review r = "refused"%string ∨ r_recheck r = "refuse"%string.

(** The final window is open. *)
Definition inWindow (v : vaultView) (delay : Z) (r : row) : Prop := eligible r delay v <= u64 (v_now v + seconds (RecheckWindow cfg)).

(** Its own final check passed, lately or before the attestation that covers it. *)
Definition passed (v : vaultView) (r : row) : Prop :=
  r_recheck r = "pass"%string ∧ (r_id r <= vault.AttestedUpTo (v_status v) ∨ fresh cfg (v_now v) r = true).

End schedule.

(** The deposits of a list of rows an attestation would vouch for: past the attested ones and not flagged. *)
Definition vouches (attested : Z) (r : row) : Prop := attested < r_id r ∧ reason r = None.

(** A deposit that ends the run: it may neither be vouched for nor be held. *)
Definition blocks (attested now window : Z) (holdable : row → bool) (r : row) : Prop :=
  vouches attested r ∧ vouched now window r = false ∧ (r_needsFlag r = true ∨ holdable r = false).

(** * Lemmas *)

Section proofs.
Context {sdk : StellarSDK} (cfg : Config) (env : Env) (L : laws env).
Implicit Types (w : World) (tr : list event) (r : row) (c : columns).

Lemma elem_later tr tr' l (e : event) : tr' = l ++ tr → e ∈ tr → e ∈ tr'.
Proof. intros -> ?. apply elem_of_app. by right. Qed.

Lemma person_later tr tr' id : tr `suffix_of` tr' → person tr id → person tr' id.
Proof. intros [l Hl] (fs & ?). exists fs. by eapply elem_later. Qed.

Lemma reviewed_later tr tr' id f : tr `suffix_of` tr' → reviewed tr id f → reviewed tr' id f.
Proof. intros [l Hl] (fs & ? & ?). exists fs. split; [by eapply elem_later|done]. Qed.

Lemma first_ok_later tr tr' id : tr `suffix_of` tr' → first_ok tr id → first_ok tr' id.
Proof.
  intros Hs [?|(a & at_ & v & ? & ?)]; [left; by eapply person_later|]. right. exists a, at_, v.
  destruct Hs as [l Hl]. split; [by eapply elem_later|done].
Qed.

Lemma passed_later tr tr' id t : tr `suffix_of` tr' → passed_at env tr id t → passed_at env tr' id t.
Proof.
  intros [l ->] [pre post a h at_ v -> ? ?|pre post a h at_ v at' d -> ?].
  - apply (Passed_later _ _ _ _ (l ++ pre) post a h at_ v); [by rewrite <- app_assoc|done..].
  - apply (Passed_stored _ _ _ _ (l ++ pre) post a h at_ v at' d); [by rewrite <- app_assoc|done].
Qed.

Lemma row_ok_later up tr tr' r : tr `suffix_of` tr' → row_ok env up tr r → row_ok env up tr' r.
Proof.
  intros Hs [A B C D E]. split; [..|done| |done].
  - intros H. destruct (A H) as [? HP]. split; [by eapply first_ok_later|]. intros t Ht. by eapply passed_later, HP.
  - intros H. destruct (B H) as [? HP]. split; [by eapply person_later|]. intros u f Hf. by eapply reviewed_later, HP.
  - intros H. by eapply first_ok_later, D.
Qed.

Lemma suffix_cons1 (e : event) tr : tr `suffix_of` e :: tr.
Proof. by exists [e]. Qed.

(** A row with the same state on record. *)
Definition same_state (r r' : row) : Prop :=
  r_id r = r_id r' ∧ r_recheck r = r_recheck r' ∧ r_recheckAt r = r_recheckAt r' ∧ r_review r = r_review r' ∧
  r_findings r = r_findings r' ∧ r_firstCheck r = r_firstCheck r'.

Lemma row_ok_same up tr r r' : same_state r r' → row_ok env up tr r → row_ok env up tr r'.
Proof. intros (E1 & E2 & E3 & E4 & E5 & E6) [A B C D E]. split; rewrite <- ?E1, <- ?E2, <- ?E3, <- ?E4, <- ?E5, <- ?E6; done. Qed.

Lemma row_of_stored d c : same_state (stored (d_id d) c) (row_of d c).
Proof. done. Qed.

Lemma row_ok_none up tr id : row_ok env up tr (stored id no_columns).
Proof. split; cbn; try done. set_solver. Qed.

(** A column no claim rests on. *)
Definition idle (x : column) : Prop :=
  match x with Delay _ | RefuseReason _ | FlagSent _ | FlagKind _ | ReviewAt _ => True | _ => False end.

Lemma idle_same x id c : idle x → same_state (stored id c) (stored id (set_column x c)).
Proof. by destruct c, x. Qed.

Lemma idle_recheck_at x c : idle x → c_recheck_at (set_column x c) = c_recheck_at c.
Proof. by destruct c, x. Qed.

(** What each other column needs for the row to stay in order. *)
Section set_column.
Context (up : Prop) (tr : list event) (id : Z) (c : columns) (H : row_ok env up tr (stored id c)).

Lemma set_recheck (v : string) :
  (v = "pass"%string → first_ok tr id ∧ ∀ t, c_recheck_at c = Some t → passed_at env tr id t) →
  row_ok env up tr (stored id (set_column (Recheck (Some v)) c)).
Proof. intros Hv. destruct H as [A B D E F], c. by split. Qed.

Lemma set_recheck_none : row_ok env up tr (stored id (set_column (Recheck None) c)).
Proof. destruct H as [A B D E F], c. by split. Qed.

Lemma set_recheck_at (v : option Z) :
  (text (c_recheck c) = "pass"%string → ∀ t, v = Some t → passed_at env tr id t) →
  row_ok env up tr (stored id (set_column (RecheckAt v) c)).
Proof.
  intros Hv. destruct H as [A B D E F], c. split; try done. cbn in *. intros Hp.
  destruct (A Hp) as [? _]. split; [done|]. by apply Hv.
Qed.

Lemma set_review (v : string) : v ∈ ["needed"; "cleared"; "refused"]%string →
  (v = "cleared"%string → person tr id ∧ (up → ∀ f, f ∈ r_findings (stored id c) → reviewed tr id f)) →
  row_ok env up tr (stored id (set_column (Review (Some v)) c)).
Proof. intros Hv Hc. destruct H as [A B D E F], c. by split. Qed.

Lemma set_first (v : string) : v ∈ ["pass"; "refer"; "refuse"]%string →
  (v = "pass"%string → first_ok tr id) →
  (v = "refer"%string → text (c_review c) ∈ ["needed"; "cleared"; "refused"]%string) →
  row_ok env up tr (stored id (set_column (FirstCheck (Some v)) c)).
Proof. intros Hv Hp Hr. destruct H as [A B D E F], c. split; try done. cbn. by right. Qed.

Lemma set_findings (v : string) :
  (text (c_review c) = "cleared"%string → up → ∀ f, f ∈ (if String.eqb v "" then [] else Split v) → reviewed tr id f) →
  row_ok env up tr (stored id (set_column (FirstFindings (Some v)) c)).
Proof.
  intros Hv. destruct H as [A B D E F], c. split; try done. cbn in *. intros Hr. destruct (B Hr). split; [done|]. by apply Hv.
Qed.
End set_column.

(** An event that is not an attestation sent. *)
Definition plain (e : event) : Prop := match e with ESend _ (CallAttest _) _ => False | _ => True end.

Lemma sends_ok_plain tr e : plain e → sends_ok cfg env tr → sends_ok cfg env (e :: tr).
Proof.
  intros He H [|x pre] n upTo r post; cbn.
  - by intros [= -> _].
  - intros [= _ ->]. by eapply H.
Qed.

(** The columns on record for a deposit. *)
Definition cols (w : World) (id : Z) : columns := default no_columns (screening w !! id).

Lemma wp_ask {A} (f : nat → A) w (Q : res A → World → Prop) : Q (Ok (f (calls w))) (ask_one w) → wp (ask f) Q w.
Proof. done. Qed.

Lemma wp_emit e w (Q : res unit → World → Prop) : Q (Ok tt) (happened e w) → wp (emit e) Q w.
Proof. done. Qed.

Lemma wp_lift {A} (x : res A) w (Q : res A → World → Prop) :
  (∀ a, x = Ok a → Q (Ok a) w) → (∀ e, x = Fail e → Q (Fail e) w) → wp (lift_res x) Q w.
Proof. intros HO HF. destruct x; [by apply HO|by apply HF]. Qed.

Section at_.
Context (U : Z → Prop).
Abbreviation Inv := (Inv_at cfg env U).

Lemma inv_cols w id : Inv w → row_ok env (U id) (trace w) (stored id (cols w id)).
Proof. intros H. unfold cols. destruct (screening w !! id) eqn:E; [by eapply inv_rows|apply row_ok_none]. Qed.

Lemma inv_cols_time w id t n : Inv w → c_recheck_at (cols w id) = Some t → (calls w ≤ n)%nat → t <= unix (now env n).
Proof. intros H. unfold cols. destruct (screening w !! id) eqn:E; [by eapply inv_times|done]. Qed.

(** What a step does to the world at least: the trace only grows, and so does the number of questions. *)
Definition after (w w' : World) : Prop := trace w `suffix_of` trace w' ∧ (calls w ≤ calls w')%nat.

#[export] Instance after_preorder : PreOrder after.
Proof.
  split; [intros w; split; [done|lia]|]. intros x y z [? ?] [? ?]. split; [by etrans|lia].
Qed.

(** A computation that keeps the invariant, whatever it answers, with [Q] of its answer. *)
Definition keeps {A} (m : ST World A) : Prop := ∀ w, Inv w → wp m (λ _ w', Inv w' ∧ after w w') w.

Lemma keeps_bind {A B} (m : ST World A) (f : A → ST World B) : keeps m → (∀ a, keeps (f a)) → keeps (m ≫= f).
Proof.
  intros Hm Hf w Hw. apply wp_bind. eapply wp_mono; [by apply Hm|]. intros [a|e] w1 [H1 H2]; [|done].
  eapply wp_mono; [by apply Hf|]. intros r w2 [H3 H4]. split; [done|by etrans].
Qed.

Lemma keeps_ret {A} (a : A) : keeps (mret a).
Proof. intros w Hw. by apply wp_ret. Qed.

Lemma keeps_lift {A} (r : res A) : keeps (lift_res r).
Proof. intros w Hw. done. Qed.

Lemma keeps_fail {A} e : keeps (st_fail e : ST World A).
Proof. intros w Hw. by apply wp_fail. Qed.

Lemma keeps_fail_if b e : keeps (st_fail_if b e).
Proof. intros w Hw. by apply wp_fail_if. Qed.

Lemma keeps_get : keeps st_get.
Proof. intros w Hw. by apply wp_get. Qed.

Lemma Inv_same w w' : Inv w → screening w' = screening w → trace w' = trace w → (calls w ≤ calls w')%nat → Inv w'.
Proof.
  intros [A B C] Hs Ht Hc. split; rewrite ?Hs, ?Ht; [done| |done]. intros id c t n Hl Hr Hn. eapply B; [done..|lia].
Qed.

(** A change of the fields no claim rests on. *)
Lemma keeps_modify f : (∀ w, screening (f w) = screening w ∧ trace (f w) = trace w ∧ calls (f w) = calls w) → keeps (st_modify f).
Proof.
  intros Hf w Hw. apply wp_modify. destruct (Hf w) as (E1 & E2 & E3). split.
  - apply (Inv_same w); [done..|by rewrite E3].
  - split; [by rewrite E2|by rewrite E3].
Qed.

Lemma Inv_ask w : Inv w → Inv (ask_one w).
Proof. intros H. apply (Inv_same w); [done..|cbn; lia]. Qed.

Lemma after_ask w : after w (ask_one w).
Proof. split; [done|cbn; lia]. Qed.

Lemma keeps_ask {A} (f : nat → A) : keeps (ask f).
Proof. intros w Hw. split; [by apply Inv_ask|apply after_ask]. Qed.

Lemma Inv_happened e w : plain e → Inv w → Inv (happened e w).
Proof.
  intros He [A B C]. split; cbn; [|done|by apply sends_ok_plain].
  intros id c Hc. eapply row_ok_later; [apply suffix_cons1|by apply A].
Qed.

Lemma keeps_emit e : plain e → keeps (emit e).
Proof. intros He w Hw. split; [by apply Inv_happened|split; cbn; [apply suffix_cons1|lia]]. Qed.

Lemma keeps_try {A} (m : ST World A) : keeps m → keeps (try m).
Proof. intros Hm w Hw. specialize (Hm w Hw). unfold wp, try in *. by destruct (m w) as [w' r]. Qed.

(** ** Writes *)

(** The world a written column leaves, and one that failed. *)
Definition wrote (id : Z) (x : column) (w : World) : World :=
  happened (EUpdate id x true) (set_screening (<[id := set_column x (cols w id)]> (screening w)) (ask_one w)).
Definition unwritten (id : Z) (x : column) (w : World) : World := happened (EUpdate id x false) (ask_one w).

Lemma wp_update id x w (Q : res unit → World → Prop) :
  (¬ db_up env → ∀ e, Q (Fail e) (unwritten id x w)) → Q (Ok tt) (wrote id x w) → wp (update env id x) Q w.
Proof.
  intros HF HO. unfold wp, update, try, statement, ask, mbind, ST_bind. cbn.
  destruct (db env (calls w)) as [e|] eqn:E; cbn; [|exact HO].
  apply HF. intros HU. by rewrite HU in E.
Qed.

Lemma cols_wrote id x w : cols (wrote id x w) id = set_column x (cols w id).
Proof. unfold cols, wrote. cbn. by rewrite lookup_insert_eq. Qed.

Lemma after_wrote id x w : after w (wrote id x w).
Proof. split; cbn; [apply suffix_cons1|lia]. Qed.
Lemma after_unwritten id x w : after w (unwritten id x w).
Proof. split; cbn; [apply suffix_cons1|lia]. Qed.

Lemma Inv_unwritten id x w : Inv w → Inv (unwritten id x w).
Proof. intros H. by apply Inv_happened, Inv_ask. Qed.

Lemma Inv_wrote id x w : Inv w → row_ok env (U id) (trace (wrote id x w)) (stored id (set_column x (cols w id))) →
  (∀ t n, c_recheck_at (set_column x (cols w id)) = Some t → (calls w < n)%nat → t <= unix (now env n)) →
  Inv (wrote id x w).
Proof.
  intros H Hr Ht. split; cbn.
  - intros j c. rewrite lookup_insert_Some. intros [[<- <-]|[_ Hc]]; [exact Hr|].
    eapply row_ok_later; [apply suffix_cons1|by eapply inv_rows].
  - intros j c t n. rewrite lookup_insert_Some. intros [[<- <-]|[_ Hc]] Hat Hn; [eapply Ht; [done|lia]|].
    eapply inv_times; [done..|lia].
  - by apply sends_ok_plain, (inv_sends _ _ _ _ H).
Qed.

Lemma keeps_update_idle id x : idle x → keeps (update env id x).
Proof.
  intros Hx w Hw. apply wp_update; [intros _ e; split; [by apply Inv_unwritten|apply after_unwritten]|].
  split; [|apply after_wrote]. apply Inv_wrote; [done| |].
  - eapply row_ok_same; [by apply idle_same|]. eapply row_ok_later; [apply suffix_cons1|exact (inv_cols w id Hw)].
  - intros t n. rewrite idle_recheck_at by done. intros Ht Hn. eapply inv_cols_time; [done..|lia].
Qed.

Lemma keeps_clock : keeps (clock env).
Proof. apply keeps_ask. Qed.

Lemma keeps_statement : keeps (statement env).
Proof. apply keeps_bind; [apply keeps_ask|]. intros [e|]; [apply keeps_fail|apply keeps_ret]. Qed.

Lemma keeps_record d : keeps (record env d).
Proof.
  apply keeps_bind; [apply keeps_clock|]. intros t. apply keeps_bind; [apply keeps_try, keeps_statement|].
  intros _. by apply keeps_emit.
Qed.

Lemma keeps_send (x : call) : (∀ upTo, x ≠ CallAttest upTo) → keeps (send env x).
Proof.
  intros Hc. apply keeps_bind; [apply keeps_ask|]. intros l. apply keeps_bind; [apply keeps_lift|]. intros _.
  apply keeps_bind; [apply keeps_ask|]. intros r. apply keeps_bind; [apply keeps_emit; by destruct x; try destruct (Hc upTo)|].
  intros _. apply keeps_bind; [apply keeps_lift|]. intros res. destruct (String.eqb _ _); [apply keeps_ret|apply keeps_fail].
Qed.

Lemma keeps_Flag id reason kind detail : keeps (Flag env id reason kind detail).
Proof.
  apply keeps_bind; [by apply keeps_send|]. intros res. apply keeps_bind; [by apply keeps_update_idle|]. intros _.
  apply keeps_bind; [by apply keeps_update_idle|]. intros _. apply keeps_record.
Qed.

Lemma keeps_lift_hold r : keeps (lift env r).
Proof.
  apply keeps_bind; [by apply keeps_send|]. intros res. apply keeps_bind; [by apply keeps_update_idle|]. intros _.
  apply keeps_bind; [by apply keeps_update_idle|]. intros _. apply keeps_bind; [apply keeps_record|].
  intros _. apply keeps_ret.
Qed.

Lemma keeps_hold_all rows : keeps (hold_all env rows).
Proof. induction rows as [|r rows IH]; [apply keeps_ret|]. apply keeps_bind; [apply keeps_Flag|]. intros _. exact IH. Qed.

Lemma keeps_store_delays entries ks : keeps (store_delays env entries ks).
Proof.
  induction ks as [|[id k] ks IH]; [apply keeps_ret|]. cbn [store_delays].
  destruct (rpc.KeyString k) as [name|]; [|exact IH]. destruct (entries !! name); [|exact IH].
  apply keeps_bind; [apply keeps_lift|]. intros d. apply keeps_bind; [by apply keeps_update_idle|]. intros _. exact IH.
Qed.

Lemma keeps_loadDelays rows : keeps (loadDelays cfg env rows).
Proof.
  apply keeps_bind; [apply keeps_lift|]. intros ks. destruct ks; [apply keeps_ret|].
  apply keeps_bind; [apply keeps_ask|]. intros cl. apply keeps_bind; [apply keeps_lift|].
  intros [entries l]. apply keeps_store_delays.
Qed.

Lemma keeps_failed id : keeps (failed env id).
Proof. apply keeps_bind; [apply keeps_clock|]. intros t. by apply keeps_modify. Qed.
Lemma keeps_succeeded id : keeps (succeeded id).
Proof. by apply keeps_modify. Qed.

Lemma keeps_remind_rows rows n since : keeps (remind_rows env rows n since).
Proof.
  revert n since. induction rows as [|r rows IH]; intros n since; [apply keeps_ret|]. cbn [remind_rows].
  destruct (negb _); [apply IH|]. apply keeps_bind; [apply keeps_clock|]. intros t. apply IH.
Qed.
Lemma keeps_remind rows : keeps (remind env rows).
Proof. apply keeps_bind; [apply keeps_remind_rows|]. intros [n since]. by apply keeps_modify. Qed.

Lemma keeps_pending : keeps (pending env).
Proof.
  apply keeps_bind; [apply keeps_ask|]. intros r. apply keeps_bind; [apply keeps_lift|]. intros ds.
  apply keeps_bind; [apply keeps_get|]. intros w. apply keeps_ret.
Qed.

Lemma keeps_queueOp kind id reason reviewer note : keeps (queueOp env kind id reason reviewer note).
Proof.
  apply keeps_bind; [apply keeps_clock|]. intros t. apply keeps_bind; [apply keeps_statement|]. intros _.
  apply keeps_bind; [apply keeps_get|]. intros w. apply keeps_bind; [by apply keeps_modify|]. intros _. apply keeps_ret.
Qed.

Lemma keeps_finishOp id result : keeps (finishOp env id result).
Proof.
  apply keeps_bind; [apply keeps_clock|]. intros t. apply keeps_bind; [apply keeps_statement|]. intros _. by apply keeps_modify.
Qed.

Lemma keeps_vault_view t : keeps (vault_view cfg env t).
Proof.
  apply keeps_bind; [apply keeps_ask|]. intros i. apply keeps_bind; [apply keeps_lift|]. intros [i' l]. apply keeps_lift.
Qed.

End at_.

(** *** Checks *)

Abbreviation keeps_all := (keeps (λ _, db_up env)).
Abbreviation Inv := (Inv cfg env).

Lemma Inv_at_weaken (U V : Z → Prop) w : Inv_at cfg env U w → (∀ id, V id → U id) → Inv_at cfg env V w.
Proof.
  intros [A B C] H. split; [|done..]. intros id c Hc. destruct (A id c Hc) as [F G I J K]. split; [done| |done..].
  intros Hr. destruct (G Hr) as [? HF]. split; [done|]. intros HV. by apply HF, H.
Qed.

Lemma wp_check r v w (Q : res checker.Verdict → World → Prop) :
  (∀ e, Q (Fail e) (ask_one w)) →
  (∀ x, checker.Check (chk env (calls w)) (now env (calls w)) (r_depositor r) (hops r v) (since r) = Ok x →
     Q (Ok x) (happened (ECheck (r_id r) (r_depositor r) (hops r v) (now env (calls w)) x) (ask_one w))) →
  wp (check env r v) Q w.
Proof.
  intros HF HO. unfold wp, check, ask, mbind, ST_bind, lift_res. cbn [snd].
  destruct (checker.Check _ _ _ _ _) as [x|e] eqn:E; cbn; [by apply HO|apply HF].
Qed.

Lemma wp_record d w (Q : res unit → World → Prop) :
  (∀ at_, Q (Ok tt) (happened (ERecord at_ d) (ask_one (ask_one w)))) → wp (record env d) Q w.
Proof.
  intros HO. unfold wp, record, clock, try, statement, ask, mbind, ST_bind. cbn.
  destruct (db env (S (calls w))); cbn; apply HO.
Qed.

(** Columns as they stand after a question or an event, and after a write. *)
Lemma cols_ask w id : cols (ask_one w) id = cols w id.
Proof. done. Qed.
Lemma cols_happened e w id : cols (happened e w) id = cols w id.
Proof. done. Qed.

Lemma keeps_write id x w : Inv w →
  row_ok env (db_up env) (trace (wrote id x w)) (stored id (set_column x (cols w id))) →
  (∀ t, c_recheck_at (set_column x (cols w id)) = Some t → c_recheck_at (cols w id) = Some t ∨ t <= unix (now env (calls w))) →
  wp (update env id x) (λ _ w', Inv w' ∧ after w w') w.
Proof.
  intros Hw Hr Ht. apply wp_update; [intros _ e; split; [by apply Inv_unwritten|apply after_unwritten]|].
  split; [|apply after_wrote]. apply Inv_wrote; [done..|].
  intros t n Hc Hn. destruct (Ht t Hc) as [Hc'|Hc']; [eapply inv_cols_time; [done..|lia]|].
  etrans; [exact Hc'|]. apply Z.div_le_mono; [reflexivity|]. apply (clock_forward _ L). lia.
Qed.

(** The row on record after a write, and the state it was in. *)
Lemma recorded id x w : Inv w → row_ok env (db_up env) (trace (wrote id x w)) (stored id (cols w id)).
Proof. intros Hw. eapply row_ok_later; [apply suffix_cons1|exact (inv_cols _ w id Hw)]. Qed.

(** A final check whose outcome is not a pass. *)
Lemma store_outcome id outcome : outcome ≠ "pass"%string →
  keeps_all (_ ← update env id (Recheck (Some outcome)); t ← clock env; update env id (RecheckAt (Some (unix t)))).
Proof.
  intros Ho w Hw. apply wp_bind, wp_update; [intros _ e; split; [by apply Inv_unwritten|apply after_unwritten]|].
  assert (H1 : Inv (wrote id (Recheck (Some outcome)) w)).
  { apply Inv_wrote; [done|by apply set_recheck; [apply recorded|]|].
    intros t n Ht Hn. eapply (inv_cols_time _ w id); [done| |lia]. by destruct (cols w id). }
  assert (Hc : text (c_recheck (cols (wrote id (Recheck (Some outcome)) w) id)) = outcome)
    by (rewrite cols_wrote; by destruct (cols w id)).
  pose proof (after_wrote id (Recheck (Some outcome)) w) as Ha. set (w1 := wrote _ _ _) in *. clearbody w1.
  apply wp_bind. change (wp (update env id (RecheckAt (Some (unix (now env (calls w1)))))) (λ _ w', Inv w' ∧ after w w') (ask_one w1)).
  eapply wp_mono; [apply keeps_write; [by apply Inv_ask| |]|].
  - apply set_recheck_at; [apply recorded; by apply Inv_ask|]. rewrite cols_ask, Hc. done.
  - intros t Ht. right. assert (t = unix (now env (calls w1))) as -> by (destruct (cols (ask_one w1) id); cbn in Ht; congruence).
    apply Z.div_le_mono; [reflexivity|]. apply (clock_forward _ L). cbn. lia.
  - intros r w' [? ?]. split; [done|]. etrans; [exact Ha|]. etrans; [apply after_ask|done].
Qed.

(** The findings of a deposit on its way to review: until it awaits one, they are not the ones cleared. *)
Definition unreviewed (id : Z) : Z → Prop := λ j, db_up env ∧ j ≠ id.

Lemma Inv_down U w : ¬ db_up env → Inv_at cfg env U w → Inv w.
Proof. intros HD H. by apply (Inv_at_weaken U). Qed.

Lemma wp_findings id v w : Inv w →
  wp (update env id (FirstFindings (Some v))) (λ a w', after w w' ∧ Inv_at cfg env (unreviewed id) w' ∧ ∀ e, a = Fail e → Inv w') w.
Proof.
  intros Hw. assert (Hw' : Inv_at cfg env (unreviewed id) w) by (eapply Inv_at_weaken; [done|by intros j []]).
  apply wp_update.
  - intros HD e. split; [apply after_unwritten|]. split; [by apply Inv_unwritten|]. intros _ _. by apply Inv_unwritten.
  - split; [apply after_wrote|]. split; [|done]. apply Inv_wrote; [done| |].
    + apply set_findings; [|by intros _ []]. eapply row_ok_later; [apply suffix_cons1|exact (inv_cols _ w id Hw')].
    + intros t n Ht Hn. eapply (inv_cols_time _ w id); [done| |lia]. by destruct (cols w id).
Qed.

(** Findings that are none need no review. *)
Lemma wp_no_findings id w : Inv w → wp (update env id (FirstFindings (Some ""))) (λ _ w', Inv w' ∧ after w w') w.
Proof.
  intros Hw. apply keeps_write; [done| |].
  - apply set_findings; [by apply recorded|]. by intros _ _ f ?%elem_of_nil.
  - intros t Ht. left. by destruct (cols w id).
Qed.

Lemma wp_sendToReview id w : Inv_at cfg env (unreviewed id) w →
  wp (sendToReview env id) (λ a w', Inv w' ∧ after w w' ∧ ∀ u, a = Ok u → text (c_review (cols w' id)) = "needed"%string) w.
Proof.
  intros Hw. apply wp_bind. set (w1 := ask_one w).
  assert (Hw1 : Inv_at cfg env (unreviewed id) w1) by by apply Inv_ask.
  pose proof (after_ask w) as Ha. change (wp (_ ← update env id (ReviewAt (Some (unix (now env (calls w))))); update env id (Review (Some "needed")))
    (λ a w', Inv w' ∧ after w w' ∧ ∀ u, a = Ok u → text (c_review (cols w' id)) = "needed"%string) w1).
  fold w1 in Ha. clearbody w1. set (t := unix _). clearbody t. apply wp_bind, wp_update.
  { intros HD e. split; [eapply Inv_down, Inv_unwritten; done|]. split; [|done]. etrans; [exact Ha|apply after_unwritten]. }
  set (w2 := wrote _ _ w1). assert (Hw2 : Inv_at cfg env (unreviewed id) w2).
  { apply Inv_wrote; [done| |].
    - eapply row_ok_same; [by apply idle_same|]. eapply row_ok_later; [apply suffix_cons1|exact (inv_cols _ w1 id Hw1)].
    - intros t' n Ht Hn. eapply (inv_cols_time _ w1 id); [done| |lia]. by destruct (cols w1 id). }
  assert (Ha2 : after w w2) by (etrans; [exact Ha|apply after_wrote]). clearbody w2. apply wp_update.
  { intros HD e. split; [eapply Inv_down, Inv_unwritten; done|]. split; [|done]. etrans; [exact Ha2|apply after_unwritten]. }
  split; [|split; [etrans; [exact Ha2|apply after_wrote]|intros _ _; rewrite cols_wrote; by destruct (cols w2 id)]].
  destruct (Inv_at_weaken _ (unreviewed id) w2 Hw2 (λ _ h, h)) as [A B C]. split; cbn.
  - intros j c. rewrite lookup_insert_Some. intros [[<- <-]|[Hj Hc]].
    + assert (Hrow : row_ok env (unreviewed id id) (EUpdate id (Review (Some "needed"%string)) true :: trace w2) (stored id (cols w2 id)))
        by (eapply row_ok_later; [apply suffix_cons1|exact (inv_cols _ w2 id Hw2)]).
      pose proof (set_review _ _ _ _ Hrow "needed" ltac:(left) ltac:(done)) as [A1 A2 A3 A4 A5].
      split; [done| |done..]. intros Hr. by destruct (cols w2 id).
    + eapply row_ok_later; [apply suffix_cons1|]. destruct (A j c Hc) as [A1 A2 A3 A4 A5].
      split; [done| |done..]. intros Hr. destruct (A2 Hr) as [? HF]. split; [done|]. intros HU. by apply HF.
  - intros j c t' n. rewrite lookup_insert_Some. intros [[<- <-]|[_ Hc]] Ht Hn; [|eapply B; [done..|lia]].
    eapply (inv_cols_time _ w2 id); [done| |lia]. by destruct (cols w2 id).
  - by apply sends_ok_plain.
Qed.

Lemma wp_firstCheck v r w : Inv w →
  wp (firstCheck env v r) (λ a w', Inv w' ∧ after w w' ∧ (a = Ok "pass"%string → first_ok (trace w') (r_id r))) w.
Proof.
  intros Hw. apply wp_bind. unfold try. apply wp_intro. intros w1 a Ha.
  set (id := r_id r). destruct (check env r v w) as [w1' b] eqn:Ec. injection Ha as -> <-.
  eapply (wp_use (check env r v)) in Ec; [|apply (wp_check r v w (λ b w', match b with
    | Fail _ => w' = ask_one w
    | Ok x => w' = happened (ECheck id (r_depositor r) (hops r v) (now env (calls w)) x) (ask_one w) ∧
        checker.Check (chk env (calls w)) (now env (calls w)) (r_depositor r) (hops r v) (since r) = Ok x end)); [done|done]].
  destruct b as [x|e].
  2:{ subst w1. apply wp_bind. apply wp_fail. split; [by do 2 apply Inv_ask|]. split; [|done]. etrans; apply after_ask. }
  destruct Ec as [-> Hx]. set (w1 := happened _ _).
  assert (Hw1 : Inv w1) by by apply Inv_happened, Inv_ask.
  assert (Ha1 : after w w1) by (split; cbn; [apply suffix_cons1|lia]).
  assert (He : ECheck id (r_depositor r) (hops r v) (now env (calls w)) x ∈ trace w1) by left.
  clearbody w1.
  set (contract := checker.is_contract (r_depositor r)).
  set (outcome := if checker.Refused x then _ else _). apply wp_bind, wp_record. intros at_.
  set (w2 := happened _ _). assert (Hw2 : Inv w2) by (by apply Inv_happened; [|do 2 apply Inv_ask]).
  assert (Ha2 : after w1 w2) by (split; cbn; [apply suffix_cons1|lia]). clearbody w2. apply wp_bind.
  assert (Hstep : wp (if checker.Refused x then update env id (RefuseReason (Some (checker.VReason x))) else mret tt)
            (λ _ w', Inv w' ∧ after w2 w') w2).
  { destruct (checker.Refused x); [by apply keeps_update_idle|by apply keeps_ret]. }
  eapply wp_mono; [exact Hstep|]. clear Hstep. intros [[]|e] w3 [Hw3 Ha3].
  2:{ split; [done|]. split; [|done]. by etrans; [|etrans]. }
  assert (Ha3' : after w w3) by (by etrans; [|etrans]). apply wp_bind.
  set (outs := ["pass"; "refer"; "refuse"]%string).
  assert (Ho : outcome ∈ outs) by (unfold outcome, outs; destruct (checker.Refused x); [set_solver|destruct (_ || _); set_solver]).
  (* writing the first check's outcome *)
  assert (Hlast : ∀ w4, Inv w4 → after w w4 → after w1 w4 →
      (outcome = "refer"%string → text (c_review (cols w4 id)) = "needed"%string) →
      wp (_ ← update env id (FirstCheck (Some outcome)); mret outcome)
        (λ a w', Inv w' ∧ after w w' ∧ (a = Ok "pass"%string → first_ok (trace w') id)) w4).
  { intros w4 Hw4 Ha4 Ha4' Hn.
    assert (Hfirst : ∀ tr, trace w4 `suffix_of` tr → outcome = "pass"%string → first_ok tr id).
    { intros tr Htr Hpass. right. exists (r_depositor r), (now env (calls w)), x. unfold outcome in Hpass.
      destruct (checker.Refused x); [done|]. destruct (checker.Clear x); [|done].
      unfold hops in He. fold contract. destruct (large r v); [done|]. destruct contract; [done|]. split; [|done].
      destruct Htr as [l1 ->], Ha4' as [[l2 Hl2] _]. rewrite Hl2. apply elem_of_app. right. apply elem_of_app. by right. }
    apply wp_bind, wp_update.
    - intros _ e. split; [by apply Inv_unwritten|]. split; [|done]. etrans; [exact Ha4|apply after_unwritten].
    - apply wp_ret. split.
      + apply Inv_wrote; [done| |].
        * apply set_first; [by apply recorded|done| |].
          -- intros Hp. apply Hfirst; [apply suffix_cons1|done].
          -- intros Hr. rewrite (Hn Hr). left.
        * intros t n Ht Hn'. eapply (inv_cols_time _ w4 id); [done| |lia]. by destruct (cols w4 id).
      + split; [etrans; [exact Ha4|apply after_wrote]|]. intros [= Hp]. apply Hfirst; [apply suffix_cons1|done]. }
  assert (Ha13 : after w1 w3) by by etrans.
  destruct (String.eqb_spec outcome "refer") as [Er|Er].
  - eapply wp_mono; [by apply wp_findings|]. intros [[]|e] w4 (Ha4 & Hw4 & Hf); [|split; [by eapply Hf|split; [by etrans|done]]].
    apply wp_bind. eapply wp_mono; [by apply wp_sendToReview|]. intros [[]|e] w5 (Hw5 & Ha5 & Hn).
    + apply Hlast; [done| | |by intros _; apply (Hn tt)]; (etrans; [done|]; by etrans).
    + split; [done|]. split; [|done]. etrans; [done|]. by etrans.
  - assert (Hnone : checker.Findings x = []).
    { eapply checker.verdict_silent; [exact Hx|]. unfold outcome in Er. destruct (checker.Refused x); [by right|].
      destruct (checker.Clear x); [by left|]. done. }
    rewrite Hnone. eapply wp_mono; [by apply wp_no_findings|]. intros [[]|e] w4 [Hw4 Ha4].
    + apply wp_bind, wp_ret. apply Hlast; [done|by etrans|by etrans|done].
    + split; [done|]. split; [by etrans|done].
Qed.

(** A final check that lets the deposit pass, stored. *)
Lemma store_pass id a h at_ v tr0 at' d w : Inv w →
  trace w = ERecord at' d :: ECheck id a h at_ v :: tr0 → passing env tr0 id v → first_ok (trace w) id →
  (∀ t, c_recheck_at (cols w id) = Some t → t <= unix at_) →
  wp (_ ← update env id (Recheck (Some "pass")); t ← clock env; update env id (RecheckAt (Some (unix t))))
    (λ _ w', Inv w' ∧ after w w') w.
Proof.
  intros Hw Htr Hp Hf Ht. apply wp_bind, wp_update; [intros _ e; split; [by apply Inv_unwritten|apply after_unwritten]|].
  set (w1 := wrote id _ w). assert (H1 : Inv w1).
  { apply Inv_wrote; [done| |].
    - apply set_recheck; [by apply recorded|]. intros _. split; [eapply first_ok_later; [apply suffix_cons1|done]|].
      intros t Hc. apply (Passed_later _ _ _ _ [EUpdate id (Recheck (Some "pass"%string)) true; ERecord at' d] tr0 a h at_ v);
        [cbn; by rewrite Htr|done|by apply Ht].
    - intros t n Hc Hn. eapply (inv_cols_time _ w id); [done| |lia]. by destruct (cols w id). }
  assert (Ha1 : after w w1) by apply after_wrote.
  assert (Htr1 : trace w1 = EUpdate id (Recheck (Some "pass"%string)) true :: trace w) by done.
  clearbody w1. apply wp_bind.
  change (wp (update env id (RecheckAt (Some (unix (now env (calls w1)))))) (λ _ w', Inv w' ∧ after w w') (ask_one w1)).
  eapply wp_mono; [apply keeps_write; [by apply Inv_ask| |]|].
  - apply set_recheck_at; [apply recorded; by apply Inv_ask|]. intros _ t [= <-].
    apply (Passed_stored _ _ _ _ [] tr0 a h at_ v at' d); [cbn; by rewrite Htr1, Htr|done].
  - intros t Hc. right. assert (t = unix (now env (calls w1))) as -> by (destruct (cols (ask_one w1) id); cbn in Hc; congruence).
    apply Z.div_le_mono; [reflexivity|]. apply (clock_forward _ L). cbn. lia.
  - intros b w' [? ?]. split; [done|]. etrans; [exact Ha1|]. etrans; [apply after_ask|done].
Qed.

Lemma subset_true found cleared : subset found cleared = true → ∀ f, f ∈ found → f ∈ cleared.
Proof.
  unfold subset. rewrite forallb_forall. intros H f Hf. apply list_elem_of_In in Hf.
  specialize (H f Hf). by apply bool_decide_eq_true in H.
Qed.

Lemma recheck_passing tr r x : row_ok env (db_up env) tr r → recheck_outcome r x = "pass"%string → passing env tr (r_id r) x.
Proof.
  intros Hr. unfold recheck_outcome, passing. destruct (checker.Refused x); [done|]. destruct (checker.Clear x); [by auto|].
  destruct (String.eqb_spec (r_review r) "cleared") as [Hc|]; [|done].
  destruct (subset _ _) eqn:Es; [|done]. intros _. split; [done|]. right.
  destruct (ro_cleared _ _ _ _ Hr Hc) as [? HF]. split; [done|]. intros HU f Hf. apply HF; [done|].
  by eapply subset_true.
Qed.

Lemma wp_recheck v r w : Inv w → row_ok env (db_up env) (trace w) r → first_ok (trace w) (r_id r) →
  wp (recheck env v r) (λ _ w', Inv w' ∧ after w w') w.
Proof.
  intros Hw Hr Hf. set (id := r_id r). apply wp_bind, wp_check; [intros e; split; [by apply Inv_ask|apply after_ask]|].
  intros x Hx. set (w1 := happened _ _). assert (Hw1 : Inv w1) by by apply Inv_happened, Inv_ask.
  apply wp_bind, wp_record. intros at_. set (d := decision _ _ _ _ _). set (w2 := happened _ _).
  assert (Hw2 : Inv w2) by (by apply Inv_happened; [|do 2 apply Inv_ask]).
  assert (Ha2 : after w w2) by (split; cbn; [by eexists [_; _]|lia]).
  assert (Ht2 : trace w2 = ERecord at_ d :: ECheck id (r_depositor r) (hops r v) (now env (calls w)) x :: trace w) by done.
  assert (Hc2 : ∀ t, c_recheck_at (cols w2 id) = Some t → t <= unix (now env (calls w)))
    by (intros t Hc; by eapply (inv_cols_time _ w id)).
  clearbody w2 d. clear w1 Hw1. pose proof (recheck_passing (trace w) r x Hr) as Hpass.
  assert (Hfin : ∀ (m : ST World unit) w3, Inv w3 → after w w3 → keeps_all m → wp m (λ _ w', Inv w' ∧ after w w') w3).
  { intros m w3 Hw3 Ha3 Hm. eapply wp_mono; [by apply Hm|]. intros b w4 [? ?]. split; [done|by etrans]. }
  unfold recheck_outcome in *. destruct (checker.Refused x).
  - apply wp_bind. eapply wp_mono; [by apply (Hfin _ w2), keeps_update_idle|]. intros [[]|e] w3 [Hw3 Ha3]; [|done].
    apply wp_bind, wp_ret. apply Hfin; [done..|]. by apply store_outcome.
  - destruct (negb _ && negb _).
    + apply wp_bind, wp_ret, wp_bind, wp_bind.
      eapply wp_mono; [by apply wp_findings|]. intros [[]|e] w3 (Ha3 & Hw3 & He3); [|split; [by eapply He3|by etrans]].
      eapply wp_mono; [by apply wp_sendToReview|]. intros [[]|e] w4 (Hw4 & Ha4 & _); [|split; [done|etrans; [done|by etrans]]].
      apply Hfin; [done|etrans; [done|by etrans]|]. by apply store_outcome.
    + apply wp_bind, wp_ret, wp_bind, wp_ret. eapply wp_mono; [eapply store_pass; [done|exact Ht2|by apply Hpass| |done]|].
      * eapply first_ok_later; [apply Ha2|done].
      * intros b w3 [? ?]. split; [done|by etrans].
Qed.

(** *** A round *)

Lemma plan_row v reported fl r : p_row (plan cfg v reported fl r) = r.
Proof.
  unfold plan, plan_as. destruct (r_delay r); [|done]. cbn zeta. destruct (reason r) as [f|]; [destruct (f =? ReasonHeld)|].
  all: repeat (match goal with |- context [if ?b then _ else _] => destruct b end); done.
Qed.

(** What a row's plan to check it again tells of its state. *)
Lemma plan_recheck v reported fl r : p_task (plan cfg v reported fl r) = taskRecheck →
  r_firstCheck r ≠ ""%string ∧ r_firstCheck r ≠ "refuse"%string ∧ r_review r ≠ "needed"%string ∧ r_review r ≠ "refused"%string.
Proof.
  unfold plan, plan_as. destruct (r_delay r); [|done]. cbn zeta. destruct (reason r) as [f|]; [destruct (f =? ReasonHeld); [|done]|].
  all: destruct reported; [done|].
  all: destruct (String.eqb_spec (r_firstCheck r) "refuse"); [done|].
  all: destruct (String.eqb_spec (r_review r) "refused"); [done|].
  all: destruct (String.eqb_spec (r_recheck r) "refuse"); [done|].
  all: match goal with |- context [if ?b then _ else _] => destruct b end; [done|].
  all: destruct (String.eqb_spec (r_firstCheck r) ""); [done|].
  all: destruct (String.eqb_spec (r_review r) "needed"); [by destruct (_ && _)|done].
Qed.

(** A check a round may run: of a row in order, whose first check is settled if it is the final one. *)
Definition runnable (tr : list event) (p : plan_) : Prop :=
  row_ok env (db_up env) tr (p_row p) ∧ (p_task p = taskRecheck → first_ok tr (r_id (p_row p))).

Lemma runnable_later tr tr' p : tr `suffix_of` tr' → runnable tr p → runnable tr' p.
Proof. intros Hs [? H]. split; [by eapply row_ok_later|]. intros Hp. by eapply first_ok_later, H. Qed.

Lemma plan_runnable tr v reported fl r : row_ok env (db_up env) tr r → runnable tr (plan cfg v reported fl r).
Proof.
  intros Hr. unfold runnable. rewrite plan_row. split; [done|]. intros (H1 & H2 & H3 & H4)%plan_recheck.
  destruct Hr as [_ B C D E]. set_unfold in C. destruct C as [?|[?|[Hc|[?|[]]]]]; [done|by apply D| |done].
  specialize (E Hc). set_unfold in E. destruct E as [?|[Hr|[?|[]]]]; [done| |done]. left. by apply B.
Qed.

Lemma wp_run_check v p w : Inv w → runnable (trace w) p → wp (run_check cfg env v p) (λ _ w', Inv w' ∧ after w w') w.
Proof.
  intros Hw [Hr Hf]. unfold run_check.
  assert (HF : wp (outcome ← firstCheck env v (p_row p);
      if String.eqb outcome "pass" && (eligibleAt p <=? u64 (v_now v + seconds (RecheckWindow cfg)))
      then recheck env v (p_row p) else mret tt) (λ _ w', Inv w' ∧ after w w') w).
  { apply wp_bind. eapply wp_mono; [by apply wp_firstCheck|]. intros [o|e] w1 (Hw1 & Ha1 & Ho); [|done].
    destruct (String.eqb_spec o "pass") as [->|]; [|by apply wp_ret]. destruct (_ <=? _); [|by apply wp_ret].
    eapply wp_mono; [apply wp_recheck; [done|eapply row_ok_later; [apply Ha1|done]|by apply Ho]|].
    intros b w2 [? ?]. split; [done|by etrans]. }
  destruct (p_task p); [done..|by apply wp_recheck; auto|done].
Qed.

Lemma wp_runChecks n v ps start w : Inv w → Forall (runnable (trace w)) ps →
  wp (runChecks cfg env n v ps start) (λ _ w', Inv w' ∧ after w w') w.
Proof.
  revert w n. induction ps as [|p ps IH]; intros w n Hw Hps; [by destruct n; apply wp_ret|].
  destruct n as [|n]; [by apply wp_ret|]. apply Forall_cons in Hps as [Hp Hps]. cbn [runChecks]. apply wp_bind.
  eapply wp_mono; [by apply (keeps_clock (λ _, db_up env) w)|]. intros [t|e] w1 [Hw1 Ha1]; [|done].
  destruct (_ <? _); [by apply wp_ret|]. apply wp_bind.
  assert (Hr : wp (try (run_check cfg env v p)) (λ _ w', Inv w' ∧ after w1 w') w1).
  { assert (H := wp_run_check v p w1 Hw1 (runnable_later _ _ _ (proj1 Ha1) Hp)).
    unfold wp, try in *. by destruct (run_check cfg env v p w1). }
  eapply wp_mono; [exact Hr|]. intros [a|e] w2 [Hw2 Ha2]; [|split; [done|by etrans]]. apply wp_bind.
  assert (Hs : wp (if is_ok a then succeeded (r_id (p_row p)) else failed env (r_id (p_row p))) (λ _ w', Inv w' ∧ after w2 w') w2).
  { destruct (is_ok a); [by apply keeps_succeeded|by apply keeps_failed]. }
  eapply wp_mono; [exact Hs|]. intros [[]|e] w3 [Hw3 Ha3]; [|split; [done|etrans; [done|by etrans]]].
  assert (Ha : after w w3) by (etrans; [done|by etrans]).
  eapply wp_mono; [apply IH; [done|]|].
  - eapply Forall_impl; [exact Hps|]. intros q Hq. eapply runnable_later; [apply Ha|done].
  - intros b w4 [? ?]. split; [done|by etrans].
Qed.

Lemma wp_try {A} (m : ST World A) (Q : res (res A) → World → Prop) w :
  wp m (λ a w', Q (Ok a) w') w → wp (try m) Q w.
Proof. unfold wp, try. by destruct (m w). Qed.

Lemma wp_settle_one v flags lifts r w : Inv w → row_ok env (db_up env) (trace w) r →
  wp (settle_one cfg env v flags lifts r) (λ a w', Inv w' ∧ after w w' ∧ ∀ r' p, a = Ok (r', p) →
    same_state r r' ∧ ∀ q, p = Some q → runnable (trace w') q) w.
Proof.
  intros Hw Hr. apply wp_bind. eapply wp_mono; [by apply (keeps_clock (λ _, db_up env) w)|]. intros [t|e] w1 [Hw1 Ha1]; [|done].
  apply wp_bind. eapply wp_mono; [by apply (keeps_ask (λ _, db_up env) _ w1)|]. intros [list|e] w2 [Hw2 Ha2]; [|split; [done|split; [by etrans|done]]].
  apply wp_bind, wp_get. assert (Ha : after w w2) by by etrans. cbv beta iota zeta. set (p := plan cfg v _ _ r).
  assert (Hp : runnable (trace w2) p) by (eapply plan_runnable, row_ok_later; [apply Ha|done]).
  assert (Hcheck : wp (t ← clock env; w ← st_get; mret (r, if due (retries w) t (r_id r) then Some p else None))
    (λ a w', Inv w' ∧ after w w' ∧ ∀ r' p, a = Ok (r', p) → same_state r r' ∧ ∀ q, p = Some q → runnable (trace w') q) w2).
  { apply wp_bind. eapply wp_mono; [by apply (keeps_clock (λ _, db_up env) w2)|]. intros [t'|e] w3 [Hw3 Ha3]; [|split; [done|split; [by etrans|done]]].
    apply wp_bind, wp_get, wp_ret. split; [done|]. split; [by etrans|]. intros r' p' [= <- <-]. split; [done|].
    intros q Hq. destruct (due _ _ _); [|done]. injection Hq as <-. eapply runnable_later; [apply Ha3|done]. }
  assert (Hskip : wp (mret (r, None)) (λ a w', Inv w' ∧ after w w' ∧ ∀ r' p, a = Ok (r', p) →
    same_state r r' ∧ ∀ q, p = Some q → runnable (trace w') q) w2).
  { apply wp_ret. split; [done|]. split; [done|]. by intros r' p' [= <- <-]. }
  destruct (p_task p).
  - exact Hskip.
  - destruct flags; [|exact Hskip]. apply wp_bind, wp_try. eapply wp_mono; [by apply keeps_Flag|].
    intros a w3 [Hw3 Ha3]. apply wp_ret. split; [done|]. split; [by etrans|]. intros r' p' [= <- <-]. by destruct (is_ok a).
  - destruct lifts; [|exact Hskip]. apply wp_bind, wp_try.
    assert (HL : wp (lift env r) (λ a w', (Inv w' ∧ after w2 w') ∧ ∀ x, a = Ok x → x = set_flagged None "lifted" r) w2).
    { pose proof (keeps_lift_hold (λ _, db_up env) r w2 Hw2) as HK. unfold wp in *. split; [exact HK|].
      intros x. unfold lift. unfold mbind, ST_bind.
      repeat match goal with |- context [match ?m with (_, _) => _ end] => destruct m as [? [?|?]]; [|done] end.
      by intros [= <-]. }
    eapply wp_mono; [exact HL|]. intros a w3 [[Hw3 Ha3] Hx]. apply wp_ret. split; [done|]. split; [by etrans|].
    intros r' p' [= <- <-]. destruct a as [x|]; [|done]. by rewrite (Hx x eq_refl).
  - exact Hcheck.
  - exact Hcheck.
Qed.

Lemma wp_settle v flags lifts rows w : Inv w → Forall (row_ok env (db_up env) (trace w)) rows →
  wp (settle cfg env v flags lifts rows) (λ a w', Inv w' ∧ after w w' ∧ ∀ rows' ps, a = Ok (rows', ps) →
    Forall2 same_state rows rows' ∧ Forall (runnable (trace w')) ps) w.
Proof.
  revert w. induction rows as [|r rows IH]; intros w Hw Hrows; cbn [settle].
  { apply wp_ret. split; [done|]. split; [done|]. by intros rows' ps [= <- <-]. }
  apply Forall_cons in Hrows as [Hr Hrows]. apply wp_bind.
  eapply wp_mono; [by apply wp_settle_one|]. intros [[r' p]|e] w1 (Hw1 & Ha1 & H1); [|done].
  destruct (H1 r' p eq_refl) as [Hs Hp]. apply wp_bind. eapply wp_mono; [apply IH; [done|]|].
  { eapply Forall_impl; [exact Hrows|]. intros x Hx. eapply row_ok_later; [apply Ha1|done]. }
  intros [[rows' ps]|e] w2 (Hw2 & Ha2 & H2); [|split; [done|split; [by etrans|done]]].
  destruct (H2 rows' ps eq_refl) as [HS HP]. apply wp_ret. split; [done|]. split; [by etrans|].
  intros rows'' ps' [= <- <-]. split; [by constructor|]. destruct p as [q|]; [|done]. constructor; [|done].
  eapply runnable_later; [apply Ha2|by apply Hp].
Qed.

Lemma wp_pending w (Q : res (list row) → World → Prop) :
  (∀ e, Q (Fail e) (ask_one w)) → (∀ ds, Q (Ok (map (λ d, row_of d (cols w (d_id d))) ds)) (ask_one w)) → wp (pending env) Q w.
Proof.
  intros HF HO. unfold wp, pending, ask, lift_res, mbind, ST_bind, st_get. cbn.
  destruct (deposits env (calls w)) as [ds|e]; cbn; [apply HO|apply HF].
Qed.

Lemma pending_rows w ds : Inv w → Forall (row_ok env (db_up env) (trace w)) (map (λ d, row_of d (cols w (d_id d))) ds).
Proof.
  intros Hw. apply Forall_forall. intros r (d & <- & _)%list_elem_of_In%in_map_iff.
  eapply row_ok_same; [apply row_of_stored|exact (inv_cols _ w (d_id d) Hw)].
Qed.

Lemma wp_pending_rows w : Inv w →
  wp (pending env) (λ a w', Inv w' ∧ after w w' ∧ ∀ rows, a = Ok rows → Forall (row_ok env (db_up env) (trace w')) rows) w.
Proof.
  intros Hw. apply wp_pending.
  - intros e. split; [by apply Inv_ask|]. split; [apply after_ask|done].
  - intros ds. split; [by apply Inv_ask|]. split; [apply after_ask|]. intros rows [= <-]. exact (pending_rows w ds Hw).
Qed.

(** *** The attestation *)

Lemma agree_Ok passed entries ks u : agree passed entries ks = Ok u →
  ∀ id k name e x d, (id, k) ∈ ks → rpc.KeyString k = Ok name → entries !! name = Some e →
    rpc.ContractValue e = Ok x → vault.DecodePendingDeposit x = Ok d → vault.Flag d = None → id ∈ passed.
Proof.
  induction ks as [|[j k'] ks IH]; [by intros _ id k name e x d ?%elem_of_nil|].
  cbn [agree]. intros H id k name e x d Hin Hk He Hx Hd Hf. apply elem_of_cons in Hin as [[= <- <-]|Hin].
  - rewrite Hk, He in H. rewrite Hx in H. cbn [mbind res_bind] in H. rewrite Hd in H. cbn [mbind res_bind] in H.
    apply bind_Ok in H as (? & H & _). apply fail_if_Ok in H. rewrite (bool_decide_eq_true_2 _ Hf) in H.
    cbn in H. destruct (bool_decide (id ∈ passed)) eqn:E; [by apply bool_decide_eq_true in E|done].
  - destruct (rpc.KeyString k') as [name'|]; [|by eapply IH]. destruct (entries !! name'); [|by eapply IH].
    apply bind_Ok in H as (x' & _ & H). apply bind_Ok in H as (d' & _ & H). apply bind_Ok in H as (? & _ & H). by eapply IH.
Qed.

(** What makes a row's deposit one an attestation may cover. *)
Definition covers (tr : list event) (v : vaultView) (id : Z) : Prop :=
  first_ok tr id ∧ ∃ t, passed_at env tr id t ∧ v_now v <= u64 (t + seconds (RecheckWindow cfg)).

Lemma passed_covers tr v rows id : Forall (row_ok env (db_up env) tr) rows →
  id ∈ r_id <$> filter (λ r, String.eqb (r_recheck r) "pass" && fresh cfg (v_now v) r = true) rows → covers tr v id.
Proof.
  intros Hrows (r & -> & [[Hp Hf]%andb_true_iff Hin]%list_elem_of_filter)%list_elem_of_fmap.
  rewrite Forall_forall in Hrows. destruct (ro_pass _ _ _ _ (Hrows r Hin)) as [H1 H2]; [by apply String.eqb_eq|].
  split; [done|]. unfold fresh in Hf. destruct (r_recheckAt r) as [t|]; [|done]. exists t. split; [by apply H2|by apply Z.leb_le].
Qed.

Lemma wp_send_attest upTo w : Inv w → (∀ n, (calls w < n)%nat → attestation cfg env n upTo (trace w)) →
  wp (send env (CallAttest upTo)) (λ _ w', Inv w' ∧ after w w') w.
Proof.
  intros Hw HA. assert (Hw1 : Inv (ask_one w)) by by apply Inv_ask.
  apply wp_bind, wp_ask, wp_bind, wp_lift; [intros _ _|intros e _; split; [done|apply after_ask]].
  apply wp_bind, wp_ask, wp_bind, wp_emit, wp_bind. cbn [fst snd]. set (w1 := happened _ _).
  assert (H1 : Inv w1 ∧ after w w1).
  { unfold w1. split; [|split; cbn; [apply suffix_cons1|lia]]. destruct (Inv_ask _ _ Hw1) as [A B C]. split; cbn; [|exact B|].
    - intros id c Hc. eapply row_ok_later; [apply suffix_cons1|by apply A].
    - intros [|e pre] n u r post; cbn; intros Heq; simplify_eq; [apply HA; lia|by eapply C]. }
  apply wp_lift; [intros res _|done]. by destruct (String.eqb _ _).
Qed.

Lemma wp_attest v rows w time view inst : Inv w → Forall (row_ok env (db_up env) (trace w)) rows →
  (time < view < calls w)%nat → rpc.VaultInstance (client env view) (Vault cfg) = Ok inst →
  view_of inst.1 (u64 (unix (now env time))) = Ok v →
  wp (attest cfg env v rows) (λ _ w', Inv w' ∧ after w w') w.
Proof.
  intros Hw Hrows Horder Hinst Hv. assert (H1 : Inv (ask_one w)) by by apply Inv_ask. pose proof (after_ask w) as Ha1.
  apply wp_bind, wp_ask. cbv beta. destruct (checker.Fresh _ _) as [[]|e] eqn:Ef; [|by apply wp_ret].
  destruct (vault.Halted _ _) eqn:Eh; [by apply wp_ret|]. cbv zeta.
  destruct (attestCandidate _ _ _ _ _) as [upTo holds]. destruct (_ || _) eqn:Eup; [by apply wp_ret|].
  apply orb_false_iff in Eup as [_ Eup%Z.leb_gt]. apply wp_bind.
  eapply wp_mono; [by apply keeps_hold_all|]. intros [[]|e] w2 [Hw2 Ha2]; [|split; [done|by etrans]].
  assert (Ha : after w w2) by by etrans. assert (H3 : Inv (ask_one w2)) by by apply Inv_ask.
  assert (Ha3 : after w (ask_one w2)) by (etrans; [exact Ha|apply after_ask]).
  apply wp_bind, wp_bind, wp_lift; [intros ks Ek|done]. apply wp_bind, wp_ask, wp_bind, wp_lift; [intros [entries l] Ee|done].
  apply wp_lift; [intros [] Eg|done]. apply wp_bind.
  eapply wp_mono; [apply wp_send_attest; [done|]|].
  - intros n Hn. cbn in Hn. destruct Ha2 as [_ Hc2]. cbn in Hc2.
    apply (Attestation _ _ _ _ _ time view (calls w) (calls w2) v inst ks (entries, l)); try done; [lia|].
    intros id k name e x d H4 H5 H6 H7 H8 H9.
    apply (passed_covers (trace w2) v rows); [|by eapply agree_Ok].
    eapply Forall_impl; [exact Hrows|]. intros r Hr. eapply row_ok_later; [apply Ha|done].
  - intros [res|e] w4 [Hw4 Ha4]; [|split; [done|by etrans]]. apply wp_bind.
    eapply wp_mono; [by apply (keeps_ask (λ _, db_up env) _ w4)|]. intros [c|e] w5 [Hw5 Ha5]; [|split; [done|etrans; [done|by etrans]]].
    eapply wp_mono; [by apply (keeps_record (λ _, db_up env))|]. intros r w6 [Hw6 Ha6]. split; [done|]. etrans; [done|]. etrans; [done|by etrans].
Qed.

(** *** The operators *)

(** A person's decision on a row as it stands. *)
Lemma wp_pendingRow id w (Q : res row → World → Prop) :
  (∀ e, Q (Fail e) (ask_one w)) →
  (∀ r, r_id r = id → same_state (stored id (cols w id)) r → Q (Ok r) (ask_one w)) → wp (pendingRow env id) Q w.
Proof.
  intros HF HO. apply wp_bind, wp_pending; [exact HF|]. intros ds. cbv beta iota.
  destruct (List.find _ _) as [r|] eqn:E; [|exact (HF _)].
  apply List.find_some in E as [(d & <- & _)%in_map_iff Hid%Z.eqb_eq]. cbn in Hid. subst id. by apply HO.
Qed.

Lemma wp_DecideReview id reviewer clear w : Inv w →
  wp (DecideReview env id reviewer clear) (λ _ w', Inv w' ∧ after w w') w.
Proof.
  intros Hw. assert (Hw1 : Inv (ask_one w)) by by apply Inv_ask. pose proof (after_ask w) as Ha.
  apply wp_bind, wp_pendingRow; [done|]. intros r Hid Hr. apply wp_bind, wp_fail_if; [done|]. intros _. cbv zeta.
  apply wp_bind, wp_emit, wp_bind. set (w1 := happened _ _).
  assert (H1 : Inv w1) by (unfold w1; by apply Inv_happened).
  assert (Hc : ∀ f, f ∈ r_findings (stored id (cols w1 id)) → clear = true → reviewed (trace w1) id f).
  { intros f Hf ->. exists (r_findings r). split; [left|]. by rewrite <- (proj1 (proj2 (proj2 (proj2 (proj2 Hr))))). }
  assert (Hp : clear = true → person (trace w1) id) by (intros ->; exists (r_findings r); left).
  assert (Ha1 : after w w1) by (split; cbn; [apply suffix_cons1|lia]). clearbody w1.
  eapply wp_mono; [apply keeps_write; [done| |]|].
  - apply set_review; [by apply recorded|destruct clear; set_solver|]. intros Hcl. assert (Ec : clear = true) by by destruct clear.
    split; [eapply person_later; [apply suffix_cons1|by apply Hp]|]. intros _ f Hf.
    eapply reviewed_later; [apply suffix_cons1|by apply Hc].
  - intros t Ht. left. by destruct (cols w1 id).
  - intros [[]|e] w2 [Hw2 Ha2]; [|split; [done|by etrans]]. eapply wp_mono; [by apply (keeps_record (λ _, db_up env))|].
    intros a w3 [? ?]. split; [done|]. etrans; [done|by etrans].
Qed.

Lemma wp_FlagManually id reason reviewer note w : Inv w → wp (FlagManually env id reason reviewer note) (λ _ w', Inv w' ∧ after w w') w.
Proof.
  intros Hw. apply wp_bind, wp_fail_if; [done|]. intros _. apply wp_bind, wp_pendingRow.
  - intros e. split; [by apply Inv_ask|apply after_ask].
  - intros r _ _. eapply wp_mono; [by apply (keeps_Flag (λ _, db_up env)), Inv_ask|]. intros a w2 [? ?].
    split; [done|]. etrans; [apply after_ask|done].
Qed.

(** An unflag's writes, in any order: a person decided, and where they let the deposit pass, a clear check did. *)
Record unflagging (id : Z) (final : bool) (t : Z) (fs : list string) (w : World) : Prop := {
  uf_inv : Inv w;
  uf_person : EReviewed id true fs ∈ trace w;
  uf_findings : r_findings (stored id (cols w id)) = fs;
  uf_clock : t <= now env (calls w);
  uf_check : final = true → ∃ pre post a h at_ v, trace w = pre ++ ECheck id a h at_ v :: post ∧ passing env post id v ∧
    t <= at_ ∧ ∀ t', c_recheck_at (cols w id) = Some t' → t' <= unix at_ }.

Lemma wp_unflagging id final held t fs x w : x ∈ reset final held t → unflagging id final t fs w →
  wp (update env id x) (λ a w', Inv w' ∧ after w w' ∧ ∀ u, a = Ok u → unflagging id final t fs w') w.
Proof.
  intros Hx [Hw Hp Hf Ht HC]. apply wp_update; [intros _ e; split; [by apply Inv_unwritten|split; [apply after_unwritten|done]]|].
  assert (Hpt : ∀ e : event, person (e :: trace w) id) by (intros e; exists fs; by right).
  assert (Htime : ∀ t', c_recheck_at (set_column x (cols w id)) = Some t' →
      t' <= unix t ∧ final = true ∨ c_recheck_at (cols w id) = Some t').
  { intros t'. unfold reset in Hx. set_unfold in Hx. destruct (cols w id).
    destruct Hx as [->|[->|[->|[->|[->|[->|[->|[]]]]]]]]; cbn; try (by right). destruct final; [|done]. intros [= <-]. left. split; [lia|done]. }
  assert (Hpassed : final = true → ∀ t' e, t' <= unix t ∨ c_recheck_at (cols w id) = Some t' → passed_at env (e :: trace w) id t').
  { intros Hfin t' e Ht'. destruct (HC Hfin) as (pre & post & a & h & at_ & v & Htr & Hpass & Hat & Hrec).
    apply (Passed_later _ _ _ _ (e :: pre) post a h at_ v); [by rewrite Htr|done|].
    destruct Ht' as [Ht'|Ht']; [|by apply Hrec]. etrans; [exact Ht'|]. by apply Z.div_le_mono. }
  assert (Hw' : Inv (wrote id x w)).
  { apply Inv_wrote; [done| |].
    - pose proof (recorded id x w Hw) as Hrow. unfold reset in Hx. set_unfold in Hx.
      destruct Hx as [->|[->|[->|[->|[->|[->|[->|[]]]]]]]].
      + apply set_first; [done|set_solver|by left; apply Hpt|done].
      + apply set_review; [done|set_solver|]. intros _. split; [apply Hpt|]. intros _ f Hin. exists fs. split; [by right|]. by rewrite <- Hf.
      + destruct final; [|by apply set_recheck_none]. apply set_recheck; [done|]. intros _.
        split; [by left; apply Hpt|]. intros t' Ht'. apply Hpassed; [done|by right].
      + apply set_recheck_at; [done|]. intros _ t' Ht'. destruct final; [|done]. injection Ht' as <-. apply Hpassed; [done|by left].
      + eapply row_ok_same; [by apply idle_same|done].
      + eapply row_ok_same; [by apply idle_same|done].
      + eapply row_ok_same; [by apply idle_same|done].
    - intros t' n Ht' Hn. destruct (Htime t' Ht') as [[Hle _]|Hc]; [|eapply inv_cols_time; [done..|lia]].
      etrans; [exact Hle|]. apply Z.div_le_mono; [reflexivity|]. etrans; [exact Ht|]. apply (clock_forward _ L). lia. }
  split; [done|]. split; [apply after_wrote|]. intros _ _. split; [done|by right| | |].
  - rewrite cols_wrote, <- Hf. unfold reset in Hx. set_unfold in Hx. destruct (cols w id).
    destruct Hx as [->|[->|[->|[->|[->|[->|[->|[]]]]]]]]; done.
  - etrans; [exact Ht|]. apply (clock_forward _ L). cbn. lia.
  - intros Hfin. destruct (HC Hfin) as (pre & post & a & h & at_ & v & Htr & Hpass & Hat & Hrec).
    exists (EUpdate id x true :: pre), post, a, h, at_, v. split; [cbn; by rewrite Htr|]. split; [done|]. split; [done|].
    intros t' Ht'. rewrite cols_wrote in Ht'. destruct (Htime t' Ht') as [[Hle _]|Hc]; [|by apply Hrec].
    etrans; [exact Hle|]. by apply Z.div_le_mono.
Qed.

Lemma wp_update_all id final held t fs xs w : (∀ x, x ∈ xs → x ∈ reset final held t) → unflagging id final t fs w →
  wp (update_all env id xs) (λ _ w', Inv w' ∧ after w w') w.
Proof.
  revert w. induction xs as [|x xs IH]; intros w Hxs Hu; [apply wp_ret; by destruct Hu|]. cbn [update_all]. apply wp_bind.
  eapply wp_mono; [eapply wp_unflagging; [apply Hxs; left|exact Hu]|]. intros [[]|e] w1 (Hw1 & Ha1 & Hu1); [|done].
  eapply wp_mono; [apply IH; [intros y Hy; apply Hxs; by right|by apply (Hu1 tt)]|]. intros a w2 [? ?]. split; [done|by etrans].
Qed.

(** Sending a call leaves the rows as they are. *)
Lemma call_quiet (x : call) w : wp (send env x) (λ _ w', screening w' = screening w) w.
Proof.
  apply wp_bind, wp_ask, wp_bind, wp_lift; [intros _ _|done]. apply wp_bind, wp_ask, wp_bind, wp_emit, wp_bind, wp_lift; [|done].
  intros res _. by destruct (String.eqb _ _).
Qed.

Lemma wp_send_quiet (x : call) w : (∀ upTo, x ≠ CallAttest upTo) → Inv w →
  wp (send env x) (λ _ w', Inv w' ∧ after w w' ∧ screening w' = screening w) w.
Proof.
  intros Hx Hw. pose proof (keeps_send (λ _, db_up env) x Hx w Hw) as [? ?]. pose proof (call_quiet x w). by split.
Qed.

(** The end of an unflag: the flag is gone from the chain, and its columns are reset. *)
Lemma wp_unflagged id final held t r flag reviewer note hash verdict w : r_id r = id → Inv w → EReviewed id true (r_findings r) ∈ trace w →
  r_findings (stored id (cols w id)) = r_findings r → t <= now env (calls w) →
  (final = true → ∃ pre post a h at_ v, trace w = pre ++ ECheck id a h at_ v :: post ∧ passing env post id v ∧
    t <= at_ ∧ ∀ t', c_recheck_at (cols w id) = Some t' → t' <= unix at_) →
  wp (_ ← (if final then record env (decision "recheck" r "pass" (checker.Detail verdict) verdict) else mret tt);
      w ← st_get;
      _ ← update_all env id (shuffle env (calls w) (reset final held t));
      record env (mkDecision "unflag" (Some id) (r_depositor r) (Some (r_amount r)) "unflag" (Some flag)
                ("reviewer: " +:+ reviewer +:+ "; " +:+ note) [] hash))
    (λ _ w', Inv w' ∧ after w w') w.
Proof.
  intros Hid Hw Hp Hf Ht HC.
  assert (Hu : unflagging id final t (r_findings r) w) by done.
  assert (Hend : ∀ w1, after w w1 → unflagging id final t (r_findings r) w1 →
    wp (w ← st_get; _ ← update_all env id (shuffle env (calls w) (reset final held t));
      record env (mkDecision "unflag" (Some id) (r_depositor r) (Some (r_amount r)) "unflag" (Some flag)
                ("reviewer: " +:+ reviewer +:+ "; " +:+ note) [] hash)) (λ _ w', Inv w' ∧ after w w') w1).
  { intros w1 Ha1 Hu1. apply wp_bind, wp_get, wp_bind. eapply wp_mono; [eapply wp_update_all; [|exact Hu1]|].
    - intros x Hx. by rewrite (ranges_once _ L) in Hx.
    - intros [[]|e] w2 [Hw2 Ha2]; [|split; [done|by etrans]]. eapply wp_mono; [by apply (keeps_record (λ _, db_up env))|].
      intros a w3 [? ?]. split; [done|]. etrans; [done|by etrans]. }
  apply wp_bind. destruct final; [|by apply wp_ret, Hend]. apply wp_record. intros at_. apply Hend.
  - split; cbn; [apply suffix_cons1|lia].
  - split; [by apply Inv_happened; [|do 2 apply Inv_ask]|by right|done| |].
    + etrans; [exact Ht|]. apply (clock_forward _ L). cbn. lia.
    + intros Hfin. destruct (HC Hfin) as (pre & post & a & h & at' & v & Htr & Hrest).
      exists (ERecord at_ (decision "recheck" r "pass" (checker.Detail verdict) verdict) :: pre), post, a, h, at', v.
      split; [cbn; by rewrite Htr|exact Hrest].
Qed.

Lemma wp_Unflag id reviewer note w : Inv w → wp (Unflag cfg env id reviewer note) (λ _ w', Inv w' ∧ after w w') w.
Proof.
  intros Hw. assert (Hw1 : Inv (ask_one w)) by by apply Inv_ask. pose proof (after_ask w) as Ha1.
  apply wp_bind, wp_pendingRow; [done|]. intros r Hid Hr. destruct (r_flag r) as [flag|]; [|by apply wp_fail].
  assert (Hfin : r_findings (stored id (cols (ask_one w) id)) = r_findings r) by apply Hr.
  set (w1 := ask_one w) in *. clearbody w1. clear Hr.
  assert (Hw2 : Inv (ask_one w1)) by by apply Inv_ask. assert (Ha2 : after w (ask_one w1)) by (etrans; [done|apply after_ask]).
  apply wp_bind, wp_bind, wp_ask, wp_bind, wp_lift; [intros [i l] _|done]. apply wp_lift; [intros v _|done].
  apply wp_bind, wp_ask. cbv zeta beta. set (w3 := ask_one (ask_one w1)). set (t := now env (calls (ask_one w1))).
  assert (Hw3 : Inv w3) by by apply Inv_ask. assert (Ha3 : after w w3) by (etrans; [done|apply after_ask]).
  assert (Ht3 : t <= now env (calls w3)) by (apply (clock_forward _ L); cbn; lia).
  assert (Hf3 : r_findings (stored id (cols w3 id)) = r_findings r) by exact Hfin. clearbody w3 t. clear Hw2 Ha2.
  apply wp_bind, wp_fail_if; [done|]. intros _. set (final := _ || _). apply wp_bind.
  assert (Hwindow : wp (if final then match r_delay r with
             | None => st_fail (Wrapf (Sentinel "unflag") "screening: deposit %d has no delay read yet" [FInt id])
             | Some delay => st_fail_if (u64 (unix (t + RecheckWindow cfg)) <? eligible r delay v)
                   (Wrapf ErrBeforeFinalWindow "%w, which opens %s before deposit %d is eligible" [FInt (RecheckWindow cfg); FInt id])
             end else mret tt) (λ _ w', w' = w3) w3).
  { destruct final; [|by apply wp_ret]. destruct (r_delay r); [by apply wp_fail_if|by apply wp_fail]. }
  eapply wp_mono; [exact Hwindow|]. intros [[]|e] ? ->; [|done]. clear Hwindow.
  apply wp_bind, wp_check; [intros e; split; [by apply Inv_ask|etrans; [exact Ha3|apply after_ask]]|]. intros x _.
  set (w4 := happened _ _). assert (Hw4 : Inv w4) by by apply Inv_happened, Inv_ask.
  assert (Ha4 : after w w4) by (etrans; [exact Ha3|]; split; cbn; [apply suffix_cons1|lia]).
  apply wp_bind, wp_fail_if; [done|]. intros Href. apply wp_bind, wp_fail_if; [done|]. intros Hclear.
  apply wp_bind. eapply wp_mono; [by apply wp_send_quiet|]. intros [res|e] w5 (Hw5 & Ha5 & Hs5); [|split; [done|by etrans]].
  apply wp_bind, wp_emit. set (w6 := happened _ w5). assert (Hw6 : Inv w6) by by apply Inv_happened.
  assert (Hc6 : cols w6 id = cols w3 id) by (unfold cols; cbn; by rewrite Hs5).
  assert (Ha46 : after w4 w6) by (etrans; [exact Ha5|]; split; cbn; [apply suffix_cons1|lia]).
  eapply wp_mono; [apply (wp_unflagged id final (flag =? ReasonHeld) t r flag reviewer note (Hash res) x w6); [done|done|left|by rewrite Hc6| |]|].
  - etrans; [exact Ht3|]. apply (clock_forward _ L). destruct Ha46 as [_ Hc]. cbn in Hc |- *. lia.
  - intros Hfinal. rewrite Hfinal in Hclear. cbn in Hclear. apply negb_false_iff in Hclear.
    destruct Ha46 as [[l6 Hl6] _]. exists l6, (trace w3), (r_depositor r), (hops r v), (now env (calls w3)), x.
    split; [rewrite Hl6; cbn; by rewrite Hid|]. split; [by split; [|left]|]. split; [exact Ht3|].
    intros t' Ht'. rewrite Hc6 in Ht'. by eapply (inv_cols_time _ w3 id).
  - intros a w7 [? ?]. split; [done|]. etrans; [exact Ha4|by etrans].
Qed.

Lemma wp_run_op o w : Inv w → wp (run_op cfg env o) (λ _ w', Inv w' ∧ after w w') w.
Proof.
  intros Hw. unfold run_op. destruct (String.eqb _ _).
  - destruct (o_reason o); [by apply wp_FlagManually|by apply wp_fail].
  - destruct (String.eqb _ _); [by apply wp_Unflag|by apply wp_fail].
Qed.

Lemma wp_run_ops os w : Inv w → wp (run_ops cfg env os) (λ _ w', Inv w' ∧ after w w') w.
Proof.
  revert w. induction os as [|o os IH]; intros w Hw; [by apply wp_ret|]. cbn [run_ops]. apply wp_bind, wp_try.
  eapply wp_mono; [by apply wp_run_op|]. intros a w1 [Hw1 Ha1]. cbv beta.
  assert (Hrest : ∀ w', Inv w' → after w w' → wp (run_ops cfg env os) (λ _ w', Inv w' ∧ after w w') w').
  { intros w' ? ?. eapply wp_mono; [by apply IH|]. intros b w'' [? ?]. split; [done|by etrans]. }
  assert (Hfinish : ∀ result, wp (_ ← finishOp env (o_id o) result; run_ops cfg env os) (λ _ w', Inv w' ∧ after w w') w1).
  { intros result. apply wp_bind. eapply wp_mono; [by apply (keeps_finishOp (λ _, db_up env))|].
    intros [[]|e] w2 [Hw2 Ha2]; [apply Hrest; [done|by etrans]|split; [done|by etrans]]. }
  destruct a as [[]|e]; [apply Hfinish|]. destruct (_ && _); [by apply Hrest|apply Hfinish].
Qed.

Lemma wp_runOps w : Inv w → wp (runOps cfg env) (λ _ w', Inv w' ∧ after w w') w.
Proof.
  intros Hw. apply wp_bind. eapply wp_mono; [by apply (keeps_statement (λ _, db_up env))|].
  intros [[]|e] w1 [Hw1 Ha1]; [|done]. apply wp_bind, wp_get. eapply wp_mono; [by apply wp_run_ops|].
  intros a w2 [? ?]. split; [done|by etrans].
Qed.

Lemma insert_plan_Forall (P : plan_ → Prop) p l : P p → Forall P l → Forall P (insert_plan p l).
Proof. intros Hp. induction 1 as [|q l Hq Hl IH]; cbn; [by constructor|]. destruct (decide _); by repeat constructor. Qed.

Lemma sorted_Forall (P : plan_ → Prop) l : Forall P l → Forall P (sorted l).
Proof.
  unfold sorted. enough (∀ acc, Forall P acc → Forall P l → Forall P (foldl (λ acc p, insert_plan p acc) acc l)) by auto.
  intros acc Hacc. induction l as [|p l IH] in acc, Hacc |- *; intros Hl; [done|]. apply Forall_cons in Hl as [Hp Hl].
  cbn. apply IH; [|done]. by apply insert_plan_Forall.
Qed.

(** A step of a longer run that leaves the invariant, from [w] on. *)
Lemma wp_then {A B} (m : ST World A) (f : A → ST World B) (P : A → World → Prop) w w0 : after w w0 →
  wp m (λ a w', Inv w' ∧ after w0 w' ∧ ∀ x, a = Ok x → P x w') w0 →
  (∀ x w', Inv w' → after w w' → P x w' → wp (f x) (λ _ w', Inv w' ∧ after w w') w') →
  wp (m ≫= f) (λ _ w', Inv w' ∧ after w w') w0.
Proof.
  intros Ha Hm Hf. apply wp_bind. eapply wp_mono; [exact Hm|]. intros [x|e] w1 (Hw1 & Ha1 & HP).
  - apply Hf; [done|by etrans|by apply HP].
  - split; [done|by etrans].
Qed.

Lemma wp_plain {A} (m : ST World A) w0 : wp m (λ _ w', Inv w' ∧ after w0 w') w0 →
  wp m (λ a w', Inv w' ∧ after w0 w' ∧ ∀ x, a = Ok x → True) w0.
Proof. intros H. eapply wp_mono; [exact H|]. by intros a w' [? ?]. Qed.

Definition in_order (rows : list row) (w : World) : Prop := Forall (row_ok env (db_up env) (trace w)) rows.

Lemma wp_settled v flags lifts rows w : Inv w → in_order rows w →
  wp (settle cfg env v flags lifts rows) (λ a w', Inv w' ∧ after w w' ∧ ∀ x, a = Ok x →
    in_order x.1 w' ∧ Forall (runnable (trace w')) x.2) w.
Proof.
  intros Hw Hrows. eapply wp_mono; [by apply wp_settle|]. intros a w' (Hw' & Ha & HP). split; [done|]. split; [done|].
  intros [rows' ps] ->. destruct (HP rows' ps eq_refl) as [HS HR]. split; [|done]. clear HP HR. unfold in_order in *. cbn [fst].
  induction HS as [|r r' rows rows' Hsame HS IH]; [done|]. apply Forall_cons in Hrows as [Hr Hrows].
  constructor; [|by apply IH]. eapply row_ok_same; [exact Hsame|]. eapply row_ok_later; [apply Ha|exact Hr].
Qed.

Lemma wp_Tick w : Inv w → wp (Tick cfg env) (λ _ w', Inv w' ∧ after w w') w.
Proof.
  intros Hw. set (time := calls w). set (view := S time).
  assert (Hw1 : Inv (ask_one w)) by by apply Inv_ask. pose proof (after_ask w) as Ha1.
  assert (Ha2 : after w (ask_one (ask_one w))) by (etrans; [done|apply after_ask]).
  apply wp_bind, wp_ask. cbv beta iota. apply wp_bind, wp_bind, wp_ask, wp_bind, wp_lift.
  2:{ intros e _. split; [by apply Inv_ask|done]. }
  intros [i l] Hi. apply wp_lift; [|intros e _; split; [by apply Inv_ask|done]].
  intros v Hv. set (w2 := ask_one (ask_one w)) in *. assert (Hw2 : Inv w2) by by apply Inv_ask.
  assert (Hc2 : (view < calls w2)%nat) by (cbn; lia).
  change (rpc.VaultInstance (client env view) (Vault cfg) = Ok (i, l)) in Hi.
  change (view_of (i, l).1 (u64 (unix (now env time))) = Ok v) in Hv. assert (Htv : (time < view)%nat) by (unfold view; lia).
  change (now env (calls w)) with (now env time). clearbody w2 view time. clear Hw1 Ha1.
  apply (wp_mono _ (λ _ w', Inv w' ∧ after w2 w')); [|intros a w' [? ?]; split; [done|by etrans]]. cbv beta iota.
  apply (wp_then _ _ in_order); [done|by apply wp_pending_rows|]. intros rows1 w3 Hw3 Ha3 _.
  apply (wp_then _ _ (λ _ _, True)); [done|by apply wp_plain, (keeps_loadDelays (λ _, db_up env))|]. intros _ w4 Hw4 Ha4 _.
  apply (wp_then _ _ in_order); [done|by apply wp_pending_rows|]. intros rows2 w5 Hw5 Ha5 Hrows2.
  eapply wp_then; [done|by apply wp_settled|]. intros _ w6 Hw6 Ha6 _.
  apply (wp_then _ _ (λ _ _, True)); [done| |].
  { apply wp_try. eapply wp_mono; [by apply wp_runOps|]. by intros a w' [? ?]. }
  intros _ w7 Hw7 Ha7 _.
  apply (wp_then _ _ in_order); [done|by apply wp_pending_rows|]. intros rows3 w8 Hw8 Ha8 Hrows3.
  eapply wp_then; [done|by apply wp_settled|]. intros [rows3' checks] w9 Hw9 Ha9 [_ Hchecks]. cbn [fst snd] in *.
  apply (wp_then _ _ (λ _ _, True)); [done|by apply wp_plain, wp_runChecks; [|apply sorted_Forall]|]. intros _ w10 Hw10 Ha10 _.
  apply (wp_then _ _ in_order); [done|by apply wp_pending_rows|]. intros rows4 w11 Hw11 Ha11 Hrows4.
  eapply wp_then; [done|by apply wp_settled|]. intros [rows5 ps5] w12 Hw12 Ha12 [Hrows5 _]. cbn [fst snd] in *.
  apply (wp_then _ _ (λ _ _, True)); [done| |].
  { apply wp_plain, (wp_attest v rows5 w12 time view (i, l)); [done..| |done|done].
    split; [done|]. destruct Ha12 as [_ ?]. lia. }
  intros _ w13 Hw13 Ha13 _.
  apply (wp_then _ _ (λ _ _, True)); [done|by apply wp_plain, (keeps_remind (λ _, db_up env))|]. intros _ w14 Hw14 Ha14 _.
  apply (wp_then _ _ (λ _ _, True)); [done|by apply wp_plain, (keeps_clock (λ _, db_up env))|]. intros t w15 Hw15 Ha15 _.
  eapply wp_mono; [by apply (keeps_modify (λ _, db_up env))|]. intros a w16 [? ?]. split; [done|by etrans].
Qed.

Lemma step_Inv w w' : Inv w → step cfg env w w' → Inv w'.
Proof.
  intros Hw [? r E|? ? ? ? r E|? ? ? ? ? r E|? ? ? ? r E|? ? ? ? ? r E|? ? ? ? r E].
  - exact (proj1 (wp_use _ _ _ _ _ (wp_Tick w Hw) E)).
  - exact (proj1 (wp_use _ _ _ _ _ (wp_DecideReview _ _ _ w Hw) E)).
  - unfold QueueFlag in E. eapply (wp_use _ (λ _ w', Inv w' ∧ after w w')) in E as [? _]; [done|].
    apply wp_bind, wp_fail_if; [done|]. intros _. by apply (keeps_queueOp (λ _, db_up env)).
  - exact (proj1 (wp_use _ _ _ _ _ (keeps_queueOp (λ _, db_up env) _ _ _ _ _ w Hw) E)).
  - exact (proj1 (wp_use _ _ _ _ _ (wp_FlagManually _ _ _ _ w Hw) E)).
  - exact (proj1 (wp_use _ _ _ _ _ (wp_Unflag _ _ _ w Hw) E)).
Qed.

Lemma New_Inv : Inv New.
Proof. split; [done|done|]. by intros [|e pre] n u r post. Qed.

End proofs.

(** ** The candidate of an attestation *)

Section candidate.
Context (attested now window : Z) (holdable : row → bool).
(** What the loop of [attestCandidate] knows of the rows before: [best] is the last one vouched for, [holds]
    are the ones it passes only held, and [waiting] those held only if a later one is vouched for. *)
Record scanned (pre : list row) (best : Z) (holds waiting : list row) : Prop := {
  sc_best : best = 0 ∧ holds = [] ∨ ∃ r, r ∈ pre ∧ r_id r = best ∧ vouches attested r ∧ vouched now window r = true;
  sc_done : ∀ r, r ∈ pre → vouches attested r → vouched now window r = true ∧ r_id r <= best ∨ r ∈ holds ∨ r ∈ waiting;
  sc_held : ∀ r, r ∈ holds ++ waiting → r ∈ pre ∧ vouches attested r ∧ vouched now window r = false ∧
    r_needsFlag r = false ∧ holdable r = true;
  sc_holds : ∀ r, r ∈ holds → r_id r < best;
  sc_waiting : ∀ r, r ∈ waiting → best < r_id r ∨ best = 0 }.

(** The result on all rows. *)
Definition longest (rows : list row) (upTo : Z) (holds : list row) : Prop :=
  (upTo = 0 ∧ holds = [] ∨ ∃ r, r ∈ rows ∧ r_id r = upTo ∧ vouches attested r ∧ vouched now window r = true) ∧
  (∀ r, r ∈ rows → vouches attested r → r_id r <= upTo → vouched now window r = true ∨ r ∈ holds) ∧
  (∀ r, r ∈ holds → r ∈ rows ∧ vouches attested r ∧ r_id r < upTo ∧ vouched now window r = false ∧
     r_needsFlag r = false ∧ holdable r = true) ∧
  (∀ r, r ∈ rows → vouches attested r → vouched now window r = true → upTo < r_id r →
     ∃ b, b ∈ rows ∧ blocks attested now window holdable b ∧ r_id b < r_id r).

Lemma sorted_split (pre : list row) r rows : StronglySorted (λ a b, r_id a < r_id b) (pre ++ r :: rows) →
  (∀ x, x ∈ pre → r_id x < r_id r) ∧ (∀ x, x ∈ rows → r_id r < r_id x).
Proof.
  intros H. apply StronglySorted_app in H as (H1 & _ & H2). apply StronglySorted_inv in H2 as [_ H2].
  rewrite Forall_forall in H2. split; [|done]. intros x Hx. apply (H1 x r Hx). by apply list_elem_of_here.
Qed.

(** The loop ended, at the end of the rows or at one that blocks. *)
Lemma scanned_longest pre rest best holds waiting : Forall (λ r, 0 < r_id r) (pre ++ rest) → scanned pre best holds waiting →
  (∀ x y, x ∈ pre → y ∈ rest → r_id x < r_id y) →
  (∀ x, x ∈ rest → vouches attested x → vouched now window x = true →
     ∃ b, b ∈ rest ∧ blocks attested now window holdable b ∧ r_id b < r_id x) →
  longest (pre ++ rest) best holds.
Proof.
  intros Hpos [A B C D E] Hlt Hrest. rewrite Forall_forall in Hpos.
  split; [destruct A as [?|(r & ? & ?)]; [by left|right; exists r; split; [by apply elem_of_app; left|done]]|].
  split; [|split].
  - intros x Hx Hv Hle. pose proof (Hpos x Hx) as Hpos'. apply elem_of_app in Hx as [Hx|Hx].
    + destruct (B x Hx Hv) as [[? _]|[?|Hw]]; [by left|by right|]. destruct (E x Hw); lia.
    + destruct A as [[-> _]|(r & Hr & <- & _)]; [lia|]. specialize (Hlt r x Hr Hx). lia.
  - intros x Hx. destruct (C x) as (? & ? & ? & ? & ?); [by apply elem_of_app; left|].
    split; [by apply elem_of_app; left|]. split; [done|]. split; [by apply D|done].
  - intros x Hx Hv Hvv Hgt. apply elem_of_app in Hx as [Hx|Hx].
    + destruct (B x Hx Hv) as [[_ ?]|Hx']; [lia|]. apply elem_of_app in Hx'. destruct (C x Hx') as (_ & _ & ? & _). congruence.
    + destruct (Hrest x Hx Hv Hvv) as (b & Hb & ?). exists b. split; [by apply elem_of_app; right|done].
Qed.

(** One turn of the loop that goes on. *)
Lemma scanned_step pre r best holds waiting : (∀ x, x ∈ pre → r_id x < r_id r) → scanned pre best holds waiting →
  (¬ vouches attested r → scanned (pre ++ [r]) best holds waiting) ∧
  (vouches attested r → vouched now window r = true → scanned (pre ++ [r]) (r_id r) (holds ++ waiting) []) ∧
  (vouches attested r → vouched now window r = false → r_needsFlag r = false → holdable r = true →
     scanned (pre ++ [r]) best holds (waiting ++ [r])).
Proof.
  intros Hlt [A B C D E].
  assert (Hin : ∀ x, x ∈ pre → x ∈ pre ++ [r]) by (intros; apply elem_of_app; by left).
  assert (Hlast : r ∈ pre ++ [r]) by (set_solver).
  assert (Hbest : best < r_id r ∨ best = 0) by (destruct A as [[? _]|(x & Hx & <- & _)]; [by right|left; by apply Hlt]).
  assert (A' : best = 0 ∧ holds = [] ∨ ∃ x, x ∈ pre ++ [r] ∧ r_id x = best ∧ vouches attested x ∧ vouched now window x = true)
    by (destruct A as [?|(x & ? & ?)]; [by left|right; exists x; by auto]).
  split; [|split].
  - intros Hn. split; [done| | |done|done].
    + intros x [Hx| ->%list_elem_of_singleton]%elem_of_app Hv; [by apply B|done].
    + intros x Hx. destruct (C x Hx) as (? & ?). by auto.
  - intros Hv Hvv. split.
    + right. by exists r.
    + intros x [Hx| ->%list_elem_of_singleton]%elem_of_app Hvx; [|left; split; [done|lia]].
      destruct (B x Hx Hvx) as [[? ?]|Hh]; [left; split; [done|specialize (Hlt x Hx); lia]|]. right. left. by apply elem_of_app.
    + intros x Hx. rewrite app_nil_r in Hx. destruct (C x Hx) as (? & ?). by auto.
    + intros x Hx. apply Hlt. by apply C.
    + by intros x ?%elem_of_nil.
  - intros Hv Hvv Hn Hh. split; [done| | |done|].
    + intros x [Hx| ->%list_elem_of_singleton]%elem_of_app Hvx.
      * destruct (B x Hx Hvx) as [?|[?|?]]; [by left|by right; left|right; right; apply elem_of_app; by left].
      * right. right. set_solver.
    + intros x. rewrite app_assoc. intros [Hx| ->%list_elem_of_singleton]%elem_of_app; [|done].
      destruct (C x Hx) as (? & ?). by auto.
    + intros x [Hx| ->%list_elem_of_singleton]%elem_of_app; [by apply E|done].
Qed.

Lemma candidate_longest rows : ∀ pre best holds waiting,
  StronglySorted (λ a b, r_id a < r_id b) (pre ++ rows) → Forall (λ r, 0 < r_id r) (pre ++ rows) → scanned pre best holds waiting →
  longest (pre ++ rows) (candidate rows attested now window holdable best holds waiting).1
    (candidate rows attested now window holdable best holds waiting).2.
Proof.
  induction rows as [|r rows IH]; intros pre best holds waiting Hs Hp H; cbn [candidate].
  { apply (scanned_longest pre [] best holds waiting); [done..|by intros x y _ ?%elem_of_nil|by intros x ?%elem_of_nil]. }
  destruct (sorted_split _ _ _ Hs) as [Hlt Hgt].
  destruct (scanned_step pre r best holds waiting Hlt H) as (S1 & S2 & S3).
  assert (Hnext : ∀ best holds waiting, scanned (pre ++ [r]) best holds waiting →
    longest (pre ++ r :: rows) (candidate rows attested now window holdable best holds waiting).1
      (candidate rows attested now window holdable best holds waiting).2).
  { intros b h w Hsc. specialize (IH (pre ++ [r]) b h w). rewrite <- app_assoc in IH. by apply IH. }
  destruct ((r_id r <=? attested) || _) eqn:Eskip.
  { apply Hnext, S1. intros [Hv1 Hv2]. rewrite Hv2, orb_false_r in Eskip. apply Z.leb_le in Eskip. lia. }
  assert (Hv : vouches attested r).
  { apply orb_false_iff in Eskip as [E1%Z.leb_gt E2]. split; [done|]. by destruct (reason r). }
  destruct (vouched now window r) eqn:Evv; [by apply Hnext, S2|].
  destruct (negb (r_needsFlag r) && holdable r) eqn:Eh.
  { apply andb_true_iff in Eh as [?%negb_true_iff ?]. by apply Hnext, S3. }
  apply (scanned_longest pre (r :: rows) best holds waiting); [done..| |].
  - intros x y Hx [->|Hy]%elem_of_cons; [by apply Hlt|]. specialize (Hlt x Hx). specialize (Hgt y Hy). lia.
  - intros x [->|Hx]%elem_of_cons Hvx Hvvx; [congruence|]. exists r. split; [set_solver|]. split; [|by apply Hgt].
    split; [done|]. split; [done|]. apply andb_false_iff in Eh as [?%negb_false_iff|?]; [by left|by right].
Qed.
End candidate.

(** * Witnesses *)

(** A vault with one small deposit waiting, of an account no list names, and a round in its final window. *)
Module demo.

Definition alice : string := example.account 1.
Definition vaultID : string := example.contract 9.

(** The example SDK, whose keys of the instance and of the pending deposits are one byte each. *)
Definition sdk : StellarSDK := example.sdk_keys [] (λ _, None) (λ k,
  match k with
  | KeyContractData _ ScvLedgerKeyContractInstance _ => Some [65]
  | KeyContractData _ (ScvVec (Some [ScvSymbol name; ScvU64 id])) _ => if String.eqb name "Pending" then Some [66 + id] else None
  | _ => None
  end).

Definition config : vault.Config := vault.mkConfig vaultID fr.zero alice alice 100 1000.
Definition limits : vault.Limits := vault.mkLimits 1 1000000 1000000 1000000 1000000 1000 1000.
Definition status : vault.Status := vault.mkStatus false false 0 0 2 0 0 10 0 0 0 0 0.
Definition waiting : vault.PendingDeposit := vault.mkPendingDeposit alice 10 fr.zero fr.zero [] [] 1000 100 None 0.

Definition value (r : res ScVal) : ScVal := match r with Ok v => v | Fail _ => ScvVoid end.
Definition instance : rpc.Entry := rpc.mkEntry (rpc.DataContract (ScvContractInstance (ExecutableWasm (Some (repeat 7 32)))
  (Some [(keys.enumKey "Config" [], value (@vault.encode_config sdk config));
         (keys.enumKey "Limits" [], value (vault.encode_limits limits));
         (keys.enumKey "Status" [], value (vault.encode_status status))]))) 7 None.
Definition entry : rpc.Entry := rpc.mkEntry (rpc.DataContract (value (@vault.encode_pending sdk waiting))) 7 None.
Definition ledger : list (string * rpc.Entry) := [("A"%string, instance); ("C"%string, entry)].

Definition list_of (name : string) (es : gmap string checker.Hit) : checker.Source :=
  checker.mkSource (checker.mkLst name (3600 * second) None es "1" (Some 0) 0 []) false.
Definition checker_of (sources : list checker.Source) : checker.Checker :=
  checker.mkChecker sources (λ _ _, Ok ([], 0)) 10 (checker.mkDust 100 ∅) ∅.

Definition cfg : Config := mkConfig vaultID (3600 * second) (600 * second) (3600 * second) (7200 * second) 40 (15 * second).

(** [failing] are the statements of the database that fail; [lists] what the sources hold at a question. *)
Definition env_of (lists : nat → list checker.Source) (failing : list nat) : Env := {|
  now n := 1050 * second + Z.of_nat n;
  client _ := rpc.mkClient (Ok (1, 60000, 100)) (λ batch, Ok (filter (λ p, p.1 ∈ batch) ledger, 60000));
  deposits _ := Ok [mkDeposit 1 alice 10 1000 None];
  chk n := checker_of (lists n);
  reports _ := checker.newList "self_reports" 0;
  lock _ := Ok tt;
  engine _ _ := Ok (mkResult "success" "hash" "");
  db n := if bool_decide (n ∈ failing) then Some (Sentinel "db") else None;
  shuffle _ l := l |}.

Lemma env_laws lists failing : laws (env_of lists failing).
Proof. split; [|done]. intros n m Hnm. cbn. lia. Qed.

Definition env : Env := env_of (λ _, [list_of "ofac" ∅]) [].

(** The list names the depositor for a review, as "one" until the 39th question and as "two" after; the
    clock moves a minute there and at the 65th; and the 57th statement of the database fails. *)
Definition interrupted : Env :=
  let named n := checker.mkHit (if bool_decide (n < 39)%nat then "one" else "two") ReasonOther true "a match" in
  let e := env_of (λ n, [list_of "ofac" {[ alice := named n ]}]) [57%nat] in
  mkEnv (λ n, (1050 + (if bool_decide (n < 39)%nat then 0 else if bool_decide (n < 65)%nat then 60 else 120)) * second)
    (client e) (deposits e) (chk e) (reports e) (lock e) (engine e) (db e) (shuffle e).

Lemma interrupted_laws : laws interrupted.
Proof. split; [|done]. intros n m Hnm. cbn [now interrupted]. unfold interrupted, second; cbn [now]. repeat case_bool_decide; lia. Qed.

End demo.

(** The round of the vault's first deposit, and what it sends. *)
Definition round : World := (@Tick demo.sdk demo.cfg demo.env New).1.

(** * Properties *)

(** C5: an attestation covers no deposit that was not screened: whatever the service has done, through any
    rounds, reviews and operators' commands, and whatever failed, when it sent an attestation the same
    round found every source fresh and the vault not halted, and read on the chain that each deposit
    covered was resolved, flagged, or had passed its own final check within the window, where a check
    passes only with no match that refuses, and clear or after a person cleared the deposit; and its first check
    had needed nobody, or a person had cleared it. That the person had each of the check's findings on record is
    said only of a service none of whose database statements failed: after a failed write a final check may pass
    on findings nobody reviewed, as C28 shows. *)
Theorem attestations_cover_only_screened {sdk : StellarSDK} (cfg : Config) (env : Env) (L : laws env) (w : World)
    (H : rtc (step cfg env) New w) :
  ∀ later n upTo r earlier, trace w = later ++ ESend n (CallAttest upTo) r :: earlier → attestation cfg env n upTo earlier.
Proof.
  apply (inv_sends cfg env (λ _, db_up env)).
  remember New as w0 eqn:E. assert (H0 : Inv cfg env w0) by (rewrite E; apply New_Inv).
  clear E. induction H as [w|w w1 w2 Hs _ IH]; [done|]. apply IH. by apply (step_Inv cfg env L w).
Qed.

Lemma attestations_cover_only_screened_witness :
  ∃ last n r earlier, trace round = last :: ESend n (CallAttest 1) r :: earlier ∧
    @attestation demo.sdk demo.cfg demo.env n 1 earlier.
Proof.
  destruct (trace round) as [|last [|sent earlier]] eqn:E;
    [exfalso; apply (f_equal length) in E; vm_compute in E; discriminate E|exfalso; apply (f_equal length) in E; vm_compute in E; discriminate E|].
  assert (Es : Some sent = Some (ESend 32 (CallAttest 1) (Ok (mkResult "success" "hash" "")))).
  { transitivity (trace round !! 1%nat); [rewrite E; reflexivity|vm_compute; reflexivity]. }
  injection Es as ->. exists last, 32%nat, (Ok (mkResult "success" "hash" "")), earlier. split; [reflexivity|].
  apply (@attestations_cover_only_screened demo.sdk demo.cfg demo.env (demo.env_laws _ _) round
    ltac:(apply rtc_once; apply (Step_tick _ _ _ _ (@Tick demo.sdk demo.cfg demo.env New).2); unfold round; apply surjective_pairing)
    [last] 32%nat 1 (Ok (mkResult "success" "hash" "")) earlier).
  exact E.
Defined.

(** C22: the schedule decides every deposit by its deadline. A deposit with a refusal, by a list, a reviewer
    or its depositor's report, is flagged at once; otherwise, once its final window is open, it is
    left alone only if its own final check passed, or it is held and waits for a person; it is lifted
    only when held and freshly passed, flagged only as a hold, and else checked. *)
Theorem schedule_decides_every_deposit (cfg : Config) (v : vaultView) (reported failing : bool) (r : row) (delay : Z)
    (Hd : r_delay r = Some delay) (Hu : undecided r) :
  let p := plan cfg v reported failing r in
  (refusal reported r → p_task p = taskFlag ∧ p_reason p ∈ [ReasonFraud; ReasonReview; default ReasonOther (r_refuseReason r)]) ∧
  (¬ refusal reported r → inWindow cfg v delay r →
   match p_task p with
   | taskNone => reason r = None ∧ passed cfg v r ∨ reason r = Some ReasonHeld ∧ r_review r = "needed"%string
   | taskFlag => reason r = None ∧ p_reason p = ReasonHeld ∧ (r_review r = "needed"%string ∨ failing = true ∧ ¬ passed cfg v r)
   | taskLift => reason r = Some ReasonHeld ∧ r_recheck r = "pass"%string ∧ fresh cfg (v_now v) r = true ∧
       r_firstCheck r ≠ ""%string ∧ r_review r ≠ "needed"%string
   | taskRecheck => r_firstCheck r ≠ ""%string ∧ r_review r ≠ "needed"%string
   | taskFirst => r_firstCheck r = ""%string
   end).
Proof.
  assert (∃ held : bool, (if held then reason r = Some ReasonHeld else reason r = None) ∧
    plan cfg v reported failing r = plan_as cfg v reported failing held r delay) as (held & Hheld & ->).
  { unfold plan. rewrite Hd. destruct Hu as [E|E]; rewrite E; [by exists false|by exists true]. }
  unfold refusal, inWindow, passed, plan_as. cbv zeta. clear Hu Hd.
  set (inw := _ <=? u64 (v_now v + seconds (RecheckWindow cfg))).
  destruct reported; [cbn; split; [intros _; split; [done|by left]|intros []; by left]|].
  destruct (String.eqb_spec (r_firstCheck r) "refuse"); [cbn; split; [intros _; split; [done|set_solver]|intros []; by auto]|].
  destruct (String.eqb_spec (r_review r) "refused"); [cbn; split; [intros _; split; [done|set_solver]|intros []; by auto]|].
  destruct (String.eqb_spec (r_recheck r) "refuse"); [cbn; split; [intros _; split; [done|set_solver]|intros []; by auto]|].
  split; [by intros [?|[?|[?|?]]]|]. intros _ Hw. assert (Hin : inw = true) by by apply Z.leb_le. rewrite Hin. cbn [negb].
  set (ps := String.eqb (r_recheck r) "pass" && _).
  assert (Hps : ps = true ↔ r_recheck r = "pass"%string ∧ (r_id r <= vault.AttestedUpTo (v_status v) ∨ fresh cfg (v_now v) r = true)).
  { unfold ps. rewrite andb_true_iff, orb_true_iff, Z.leb_le, String.eqb_eq. done. }
  clearbody ps. clear Hin inw.
  destruct (negb held && negb ps && _ && failing) eqn:Ecut.
  { apply andb_true_iff in Ecut as [Ecut Hf]. apply andb_true_iff in Ecut as [Ecut _].
    apply andb_true_iff in Ecut as [Hh%negb_true_iff Hp%negb_true_iff]. subst held. cbn. split; [done|]. split; [done|].
    right. split; [done|]. intros ?%Hps. congruence. }
  destruct (String.eqb_spec (r_firstCheck r) ""); [done|].
  destruct (String.eqb_spec (r_review r) "needed"); [destruct held; cbn; by auto|].
  destruct (held && String.eqb (r_recheck r) "pass" && fresh cfg (v_now v) r) eqn:El.
  { apply andb_true_iff in El as [El Hf]. apply andb_true_iff in El as [-> Hp%String.eqb_eq]. done. }
  destruct held; [done|]. destruct ps eqn:Eps; [|done]. left. split; [done|]. by apply Hps.
Qed.

Lemma schedule_witness :
  let r := row_of (mkDeposit 1 demo.alice 10 1000 None) (mkColumns (Some 100) (Some "refer"%string) None (Some "needed"%string) None None None None None None) in
  let v := mkView demo.config demo.limits demo.status 1050 in
  p_task (plan demo.cfg v false false r) = taskFlag ∧ p_reason (plan demo.cfg v false false r) = ReasonHeld.
Proof.
  set (r := row_of _ _). set (v := mkView _ _ _ _). split; [vm_compute; reflexivity|].
  assert (Hn : ¬ refusal false r) by (intros [H|[H|[H|H]]]; vm_compute in H; discriminate H).
  assert (Hw : inWindow demo.cfg v 100 r) by (vm_compute; discriminate).
  pose proof (proj2 (schedule_decides_every_deposit demo.cfg v false false r 100 eq_refl (or_introl eq_refl)) Hn Hw) as H.
  assert (Ht : p_task (plan demo.cfg v false false r) = taskFlag) by (vm_compute; reflexivity).
  rewrite Ht in H. exact (proj1 (proj2 H)).
Defined.

(** [attestCandidate] is the longest run the policy allows. Of rows in the order of their deposits, each
    unflagged one past the attested deposits and up to the candidate passed its final check lately, or
    is among the deposits to hold, each of which may be held and comes before it; the candidate is itself a passed one;
    and a passed one past the candidate comes after one that is neither passed nor may be held. *)
Theorem candidate_is_the_longest_run (rows : list row) (attested now window : Z) (holdable : row → bool)
    (Hs : StronglySorted (λ a b, r_id a < r_id b) rows) (Hp : Forall (λ r, 0 < r_id r) rows) :
  let '(upTo, holds) := attestCandidate rows attested now window holdable in
  (upTo = 0 ∧ holds = [] ∨ ∃ r, r ∈ rows ∧ r_id r = upTo ∧ vouches attested r ∧ vouched now window r = true) ∧
  (∀ r, r ∈ rows → vouches attested r → r_id r <= upTo → vouched now window r = true ∨ r ∈ holds) ∧
  (∀ r, r ∈ holds → r ∈ rows ∧ vouches attested r ∧ r_id r < upTo ∧ vouched now window r = false ∧
     r_needsFlag r = false ∧ holdable r = true) ∧
  (∀ r, r ∈ rows → vouches attested r → vouched now window r = true → upTo < r_id r →
     ∃ b, b ∈ rows ∧ blocks attested now window holdable b ∧ r_id b < r_id r).
Proof.
  pose proof (candidate_longest attested now window holdable rows [] 0 [] []) as H. cbn [app] in H. unfold attestCandidate.
  destruct (candidate rows attested now window holdable 0 [] []) as [upTo holds]. apply H; [done..|].
  split; [by left|by intros r ?%elem_of_nil|by intros r ?%elem_of_nil|by intros r ?%elem_of_nil|by intros r ?%elem_of_nil].
Qed.

(** Deposit 1 waits for its window, 2 passed and 3 was never checked: the candidate is 2, with 1 held. *)
Lemma candidate_witness :
  let row_ id recheck at_ := row_of (mkDeposit id demo.alice 10 1000 None) (mkColumns (Some 100) (Some "pass"%string) None None recheck None None None at_ None) in
  let rows := [row_ 1 None None; row_ 2 (Some "pass"%string) (Some 1040); row_ 3 None None] in
  let holdable r := r_id r =? 1 in
  attestCandidate rows 0 1050 3600 holdable = (2, [row_ 1 None None]) ∧
  ∀ r, r ∈ rows → vouches 0 r → r_id r <= 2 → vouched 1050 3600 r = true ∨ r ∈ [row_ 1 None None].
Proof.
  intros row_ rows holdable.
  assert (E : attestCandidate rows 0 1050 3600 holdable = (2, [row_ 1 None None])) by (vm_compute; reflexivity).
  split; [exact E|].
  assert (Hs : StronglySorted (λ a b, r_id a < r_id b) rows) by (repeat constructor; vm_compute; reflexivity).
  assert (Hp : Forall (λ r, 0 < r_id r) rows) by (repeat constructor; vm_compute; reflexivity).
  pose proof (candidate_is_the_longest_run rows 0 1050 3600 holdable Hs Hp) as H. rewrite E in H. exact (proj1 (proj2 H)).
Defined.

(** A round that refers the depositor, a reviewer who clears it, and two rounds more, the first of which
    the database interrupts. *)
Definition after_interruption : World :=
  let tick w := (@Tick demo.sdk demo.cfg demo.interrupted w).1 in
  tick (tick (DecideReview demo.interrupted 1 "reviewer" true (tick New)).1).

(** C28: [recheck] interrupted between its writes lets a deposit pass on findings nobody reviewed: it stores
    the new findings over those a reviewer cleared before it asks for their review, and when the next
    write fails, the next check takes them for cleared. There is a run, of a clock that never goes back and
    one failed statement, that attests a deposit whose final check had a finding on no review. *)
Theorem interrupted_recheck_passes_unreviewed :
  ∃ (sdk : StellarSDK) (cfg : Config) (env : Env) (w : World) (i j n : nat) r a h at_ v f,
    laws env ∧ rtc (step cfg env) New w ∧
    (i < j)%nat ∧ trace w !! i = Some (ESend n (CallAttest 1) r) ∧
    trace w !! j = Some (EUpdate 1 (Recheck (Some "pass"%string)) true) ∧
    trace w !! (j + 2)%nat = Some (ECheck 1 a h at_ v) ∧ f ∈ checker.Findings v ∧ ¬ reviewed (trace w) 1 f.
Proof.
  exists demo.sdk, demo.cfg, demo.interrupted, after_interruption, 1%nat, 7%nat. do 5 eexists. eexists _, "address:two"%string.
  split; [apply demo.interrupted_laws|]. split.
  { unfold after_interruption. eapply rtc_l; [eapply Step_tick, surjective_pairing|].
    eapply rtc_l; [eapply Step_review, surjective_pairing|].
    eapply rtc_l; [eapply Step_tick, surjective_pairing|]. apply rtc_once. eapply Step_tick, surjective_pairing. }
  split; [lia|]. split; [vm_compute; reflexivity|]. split; [vm_compute; reflexivity|]. split; [vm_compute; reflexivity|].
  split; [vm_compute; left|].
  intros (fs & Hfs & Hf).
  assert (Hall : forallb (λ e, match e with EReviewed _ _ fs => bool_decide ("address:two"%string ∉ fs) | _ => true end)
    (trace after_interruption) = true) by (vm_compute; reflexivity).
  rewrite forallb_forall in Hall. apply list_elem_of_In, Hall, bool_decide_eq_true in Hfs. by apply Hfs.
Qed.

End screening.
