(* ===== verification/Threads.v ===== *)
(** Programs of atomic actions on a shared world, and the rule that proves what several of them keep when
    their actions interleave: each relies on what the others may do between two of its own actions, and
    guarantees that it does no more itself. *)
From S2P Require Import Prelude.

Module threads.

(** ** Programs *)

Section prog.
Context {W : Type}.

(** A program ends with a value, or does an action on the world, atomically, and goes on by its result. *)
Inductive prog (A : Type) : Type :=
| Ret (a : A)
| Act (X : Type) (f : W → W * X) (k : X → prog A).

Fixpoint bind {A B} (k : A → prog B) (p : prog A) : prog B :=
  match p with
  | Ret _ a => k a
  | Act _ X f next => Act B X f (λ x, bind k (next x))
  end.

(** The program alone, its actions one after the other. *)
Fixpoint run {A} (p : prog A) (w : W) : W * A :=
  match p with
  | Ret _ a => (w, a)
  | Act _ _ f k => let '(w', x) := f w in run (k x) w'
  end.
End prog.
Arguments prog W A : clear implicits.
Arguments Ret {W A} _.
Arguments Act {W A X} _ _.

#[export] Instance prog_ret {W} : MRet (prog W) := λ A a, Ret a.
#[export] Instance prog_bind {W} : MBind (prog W) := λ A B k p, bind k p.

Definition act {W X} (f : W → W * X) : prog W X := Act f Ret.

(** [for _, x := range l { f(x) }] *)
Fixpoint each {W A} (f : A → prog W unit) (l : list A) : prog W unit :=
  match l with
  | [] => mret tt
  | x :: l => _ ← f x; each f l
  end.

(** ** What interleaved programs keep *)

Section safe.
Context {W : Type} (Inv : W → Prop) (R G : relation W) `{!PreOrder R}.

(** From [w] on, whatever the others do within [R] between its actions, each action of the program keeps
    the invariant and is within [G], and if the program ends its result satisfies [Q]. *)
Fixpoint safe {A} (Q : A → W → Prop) (p : prog W A) (w : W) : Prop :=
  ∀ w1, R w w1 → Inv w1 →
  match p with
  | Ret a => Q a w1
  | Act f k => Inv (f w1).1 ∧ G w1 (f w1).1 ∧ safe Q (k (f w1).2) (f w1).1
  end.

Lemma safe_later {A} (Q : A → W → Prop) p w : (∀ w1, R w w1 → Inv w1 → safe Q p w1) → safe Q p w.
Proof. destruct p; intros H w1 HR HI; exact (H w1 HR HI w1 (reflexivity _) HI). Qed.

Lemma safe_stable {A} (Q : A → W → Prop) p w w1 : safe Q p w → R w w1 → safe Q p w1.
Proof. destruct p; intros H HR w2 HR2 HI; (apply H; [by etrans|done]). Qed.

Lemma safe_ret {A} (Q : A → W → Prop) a w : (∀ w1, R w w1 → Inv w1 → Q a w1) → safe Q (mret a) w.
Proof. done. Qed.

Lemma safe_mono {A} (Q1 Q2 : A → W → Prop) p w : safe Q1 p w → (∀ a w1, Inv w1 → Q1 a w1 → Q2 a w1) → safe Q2 p w.
Proof.
  revert w. induction p as [a|X f k IH]; intros w H HQ w1 HR HI; [by apply HQ, H|].
  destruct (H w1 HR HI) as (? & ? & ?). split; [done|]. split; [done|]. by apply IH.
Qed.

Lemma safe_bind {A B} (Q : B → W → Prop) (p : prog W A) (k : A → prog W B) w :
  safe (λ a w1, safe Q (k a) w1) p w → safe Q (p ≫= k) w.
Proof.
  revert w. induction p as [a|X f next IH]; intros w H.
  - apply safe_later. exact H.
  - intros w1 HR HI. destruct (H w1 HR HI) as (? & ? & ?). split; [done|]. split; [done|]. by apply IH.
Qed.

(** An action, and what follows it. *)
Lemma safe_act {X B} (Q : B → W → Prop) (f : W → W * X) (k : X → prog W B) w :
  (∀ w1, R w w1 → Inv w1 → Inv (f w1).1 ∧ G w1 (f w1).1 ∧ safe Q (k (f w1).2) (f w1).1) → safe Q (act f ≫= k) w.
Proof. intros H. exact H. Qed.

(** A loop keeps what each of its turns keeps and the others cannot break. *)
Lemma safe_each {A} (P : W → Prop) (f : A → prog W unit) l w :
  (∀ w w1, P w → R w w1 → Inv w1 → P w1) →
  (∀ x w, x ∈ l → P w → safe (λ _ w1, P w1) (f x) w) → P w → safe (λ _ w1, P w1) (each f l) w.
Proof.
  intros HS. revert w. induction l as [|x l IH]; intros w H HP; cbn [each].
  - apply safe_ret. intros w1 HR HI. by apply (HS w).
  - apply safe_bind. eapply safe_mono; [apply H; [by apply list_elem_of_here|done]|].
    intros u w1 _ HP1. apply IH; [|exact HP1]. intros y w2 Hy HP2. apply H; [|done]. by apply list_elem_of_further.
Qed.

End safe.

(** ** A pool of programs

    Threads of a finite map, each within its own relation and guarantee. *)

Section pool.
Context {W T : Type} `{Countable T} (Inv : W → Prop) (R G : T → relation W) `{!∀ i, PreOrder (R i)}.
Context (Q : T → W → Prop).
Hypothesis apart : ∀ i j w w1, i ≠ j → G i w w1 → R j w w1.

Abbreviation pool := (gmap T (prog W unit)).

(** Every thread is safe, and what an ended one left holds for the threads there are not. *)
Definition all_safe (w : W) (ts : pool) : Prop :=
  Inv w ∧ (∀ i p, ts !! i = Some p → safe Inv (R i) (G i) (λ _, Q i) p w) ∧ (∀ i, ts !! i = None → Q i w).

Hypothesis settled : ∀ i w w1, Q i w → R i w w1 → Inv w1 → Q i w1.

Lemma all_safe_act w ts i X f k : all_safe w ts → ts !! i = Some (@Act W unit X f k) →
  all_safe (f w).1 (<[i := k (f w).2]> ts).
Proof.
  intros (HI & HS & HQ) Hi. destruct (HS i _ Hi w (reflexivity _) HI) as (HI1 & HG & HS1).
  split; [done|]. split.
  - intros j p. destruct (decide (j = i)) as [->|Hj].
    + rewrite lookup_insert_eq. by intros [= <-].
    + rewrite lookup_insert_ne by done. intros Hp. eapply safe_stable; [apply _|by apply HS|by apply (apart i)].
  - intros j. destruct (decide (j = i)) as [->|Hj]; [by rewrite lookup_insert_eq|].
    rewrite lookup_insert_ne by done. intros Hn. apply (settled j w); [by apply HQ|by apply (apart i)|done].
Qed.

Lemma all_safe_end w ts i : all_safe w ts → ts !! i = Some (Ret tt) → all_safe w (delete i ts).
Proof.
  intros (HI & HS & HQ) Hi. split; [done|]. split.
  - intros j p. rewrite lookup_delete_Some. intros [_ ?]. by apply HS.
  - intros j. destruct (decide (j = i)) as [->|Hj]; [intros _; exact (HS i _ Hi w (reflexivity _) HI)|].
    rewrite lookup_delete_ne by done. by apply HQ.
Qed.

Lemma all_safe_start w ts i p : all_safe w ts → ts !! i = None →
  (Q i w → safe Inv (R i) (G i) (λ _, Q i) p w) → all_safe w (<[i := p]> ts).
Proof.
  intros (HI & HS & HQ) Hi Hp. split; [done|]. split.
  - intros j q. destruct (decide (j = i)) as [->|Hj].
    + rewrite lookup_insert_eq. intros [= <-]. by apply Hp, HQ.
    + rewrite lookup_insert_ne by done. by apply HS.
  - intros j. destruct (decide (j = i)) as [->|Hj]; [by rewrite lookup_insert_eq|]. rewrite lookup_insert_ne by done. by apply HQ.
Qed.
End pool.

End threads.
