(* ===== verification/Alert.v ===== *)
(** The alerts of [services/internal/alert]: what a service raises and when (alert.go, [Alerter]).

    A call of [Raise] or [Clear] is one section under the alerter's lock, at the time its clock shows;
    what it then delivers is what it returns. The message is already formatted. *)
From S2P Require Import Prelude.

Module alert.

(** ** Alerts *)

(** [Severity], a string *)
Definition Critical : string := "critical".
Definition Warning : string := "warning".
Definition Info : string := "info".

(** [Alert]; its time is in nanoseconds. *)
Record Alert : Type := mkAlert { Service : string; Severity : string; Code : string; Message : string; Time : Z }.

(** [rank] orders the severities a lane sends in. *)
Definition rank (s : string) : Z :=
  if String.eqb s Critical then 0 else if String.eqb s Info then 2 else 1.

Definition second : Z := 1000000000.
Definition minute : Z := 60 * second.
Definition hour : Z := 3600 * second.

(** What a channel makes of an alert: it takes it, refuses it for good, asks to wait, or fails. *)
Inductive answer : Type := Taken | Refused (Status : Z) | RetryAfter (Wait : Z) | Failed.

(** How [Webhook.Send] reads the status a webhook answers; [wait] is what a 429 asks for, and [None] no
    answer at all. *)
Definition answered (wait : Z) (StatusCode : option Z) : answer :=
  match StatusCode with
  | None => Failed
  | Some code =>
      if code =? 429 then RetryAfter wait
      else if (400 <=? code) && (code <? 500) && negb (code =? 408) then Refused code
      else if 300 <=? code then Failed else Taken
  end.

(** The bounds [retryAfter] puts on the wait it read. *)
Definition bounded (wait : Z) : Z := Z.min (Z.max wait second) hour.

(** ** The alerter *)

(** The variables of [Alerter] its lock guards. *)
Record Alerter : Type := mkAlerter { last : gmap string Z; opened : gmap string bool }.
Definition New : Alerter := mkAlerter ∅ ∅.

Section alerter.
Context (service : string) (Cooldown : Z).

(** The codes kept at most, past which those sent long ago are dropped. *)
Definition maxCodes : nat := 256.
Definition evictAge : Z := Z.max Cooldown (24 * hour).

Definition evict (now : Z) (a : Alerter) : Alerter :=
  let old (c : string) : bool := match last a !! c with Some t => evictAge <? now - t | None => false end in
  mkAlerter (filter (λ p, old p.1 = false) (last a)) (filter (λ p, old p.1 = false) (opened a)).

(** The code was sent within the cooldown. *)
Definition repeated (now : Z) (code : string) (a : Alerter) : bool :=
  match last a !! code with Some t => now - t <? Cooldown | None => false end.

(** [Alerter.Raise] *)
Definition Raise (now : Z) (sev code message : string) (a : Alerter) : Alerter * option Alert :=
  let a := mkAlerter (last a) (<[code := true]> (opened a)) in
  if repeated now code a then (a, None)
  else
    let a := mkAlerter (<[code := now]> (last a)) (opened a) in
    (if (maxCodes <? base.size (last a))%nat then evict now a else a, Some (mkAlert service sev code message now)).

(** [Alerter.Open] *)
Definition Open (code : string) (a : Alerter) : bool := default false (opened a !! code).

(** [Alerter.Clear] *)
Definition Clear (now : Z) (code message : string) (a : Alerter) : Alerter * option Alert :=
  let wasOpen := Open code a in
  (mkAlerter (delete code (last a)) (delete code (opened a)),
   if wasOpen then Some (mkAlert service Info (code +:+ "_resolved") message now) else None).

(** ** Its promise

    Calls one after the other, the newest first, each with the time its clock showed and whether it
    delivered an alert. *)
Inductive call : Type :=
| CRaise (now : Z) (code : string) (delivered : bool)
| CClear (now : Z) (code : string) (delivered : bool).
Definition at_ (c : call) : Z := match c with CRaise t _ _ | CClear t _ _ => t end.

Definition is_sent (o : option Alert) : bool := match o with Some _ => true | None => false end.

Inductive calls : list call → Alerter → Prop :=
| calls_none : calls [] New
| calls_raise log a now sev code message : calls log a → Forall (λ c, at_ c <= now) log →
    calls (CRaise now code (is_sent (Raise now sev code message a).2) :: log) (Raise now sev code message a).1
| calls_clear log a now code message : calls log a → Forall (λ c, at_ c <= now) log →
    calls (CClear now code (is_sent (Clear now code message a).2) :: log) (Clear now code message a).1.

(** When the code was last delivered and not cleared since. *)
Fixpoint sent (code : string) (log : list call) : option Z :=
  match log with
  | [] => None
  | CRaise t c d :: log => if String.eqb c code && d then Some t else sent code log
  | CClear _ c _ :: log => if String.eqb c code then None else sent code log
  end.

(** What the alerter remembers of the calls before: a code it forgot was sent long before whatever
    comes next. *)
Record remembers (log : list call) (a : Alerter) : Prop := {
  rm_last : ∀ c t, last a !! c = Some t → sent c log = Some t;
  rm_sent : ∀ c t now, sent c log = Some t → last a !! c = None → Forall (λ x, at_ x <= now) log → evictAge < now - t;
  rm_open : ∀ c, opened a !! c = (λ _, true) <$> last a !! c }.

Lemma remembers_evict log a now : remembers log a → Forall (λ x, at_ x <= now) log → (∃ e log', log = e :: log' ∧ at_ e = now) →
  remembers log (evict now a).
Proof.
  intros [A B C] Hnow (e & log' & El & Ee).
  assert (Hl : ∀ c, last (evict now a) !! c = match last a !! c with Some t => if evictAge <? now - t then None else Some t | None => None end).
  { intros c. cbn. rewrite map_lookup_filter. destruct (last a !! c) as [t|] eqn:E; [|done]. cbn.
    rewrite E. by destruct (evictAge <? now - t). }
  assert (Ho : ∀ c, opened (evict now a) !! c = (λ _, true) <$> last (evict now a) !! c).
  { intros c. rewrite Hl. cbn. rewrite map_lookup_filter, C. destruct (last a !! c) as [t|] eqn:E; [|done]. cbn.
    rewrite E. by destruct (evictAge <? now - t). }
  split; [| |exact Ho].
  - intros c t. rewrite Hl. destruct (last a !! c) as [t'|] eqn:E; [|done]. destruct (_ <? _); [done|]. intros [= <-]. by apply A.
  - intros c t now' Hs. rewrite Hl. destruct (last a !! c) as [t'|] eqn:E.
    + destruct (evictAge <? now - t') eqn:Ev; [|done]. intros _ Hf. apply Z.ltb_lt in Ev. rewrite (A c t' E) in Hs. injection Hs as ->.
      rewrite El in Hf. apply Forall_cons_1 in Hf as [Hf _]. lia.
    + intros _ Hf. by apply (B c t).
Qed.

Lemma repeated_exact log a now code : remembers log a → Forall (λ x, at_ x <= now) log →
  (repeated now code a = false ↔ ∀ t, sent code log = Some t → Cooldown <= now - t).
Proof.
  intros [A B C] Hnow. unfold repeated. destruct (last a !! code) as [t|] eqn:E.
  - rewrite Z.ltb_ge, (A code t E). split; [by intros ? t' [= <-]|auto].
  - split; [|done]. intros _ t Hs. specialize (B code t now Hs E Hnow). unfold evictAge in B. lia.
Qed.

Lemma remembers_raise log a now sev code message : remembers log a → Forall (λ x, at_ x <= now) log →
  remembers (CRaise now code (is_sent (Raise now sev code message a).2) :: log) (Raise now sev code message a).1.
Proof.
  intros H Hnow. pose proof H as [A B C]. unfold Raise.
  change (repeated now code (mkAlerter _ _)) with (repeated now code a).
  destruct (repeated now code a) eqn:E; cbn [is_sent fst snd].
  - unfold repeated in E. destruct (last a !! code) as [t|] eqn:El; [|done]. split; cbn [sent last opened].
    + intros c t'. rewrite andb_false_r. apply A.
    + intros c t' now' . rewrite andb_false_r. intros Hs Hn Hf. apply Forall_cons_1 in Hf as [_ ?]. by apply (B c).
    + intros c. destruct (decide (c = code)) as [->|]; [by rewrite lookup_insert_eq, El|by rewrite lookup_insert_ne by done].
  - set (a1 := mkAlerter (<[code := now]> (last a)) (<[code := true]> (opened a))).
    assert (H1 : remembers (CRaise now code true :: log) a1).
    { split; cbn [sent last opened a1].
      - intros c t. rewrite andb_true_r. destruct (String.eqb_spec code c) as [<-|]; [by rewrite lookup_insert_eq|].
        rewrite lookup_insert_ne by done. apply A.
      - intros c t now'. rewrite andb_true_r. destruct (String.eqb_spec code c) as [<-|]; [by rewrite lookup_insert_eq|].
        rewrite lookup_insert_ne by done. intros Hs Hn Hf. apply Forall_cons_1 in Hf as [_ ?]. by apply (B c).
      - intros c. destruct (decide (c = code)) as [->|]; [by rewrite !lookup_insert_eq|by rewrite !lookup_insert_ne by done]. }
    destruct (maxCodes <? _)%nat; [|done]. apply remembers_evict; [done|by constructor|by eexists _, _].
Qed.

Lemma remembers_clear log a now code message : remembers log a →
  remembers (CClear now code (is_sent (Clear now code message a).2) :: log) (Clear now code message a).1.
Proof.
  intros [A B C]. split; cbn [sent last opened Clear fst].
  - intros c t. destruct (String.eqb_spec code c) as [<-|]; [by rewrite lookup_delete_eq|]. rewrite lookup_delete_ne by done. apply A.
  - intros c t now'. destruct (String.eqb_spec code c) as [<-|]; [done|]. rewrite lookup_delete_ne by done.
    intros Hs Hn Hf. apply Forall_cons_1 in Hf as [_ ?]. by apply (B c).
  - intros c. destruct (decide (c = code)) as [->|]; [by rewrite !lookup_delete_eq|by rewrite !lookup_delete_ne by done].
Qed.

Lemma calls_remember log a : calls log a → remembers log a.
Proof.
  induction 1; [split; [done..|done]|by apply remembers_raise|by apply remembers_clear].
Qed.

End alerter.

(** * Properties *)

(** An alerter delivers a code once per cooldown. Of calls one after the other, with a clock that
    never goes back, a raise is delivered exactly when its code was not delivered, and not cleared since,
    within the cooldown; and a clear reports that an alert ended only when its code was delivered and not
    cleared since, and always unless that was longer ago than the cooldown and a day. *)
Theorem alerts_once_per_cooldown (service : string) (Cooldown : Z) (log : list call) (a : Alerter)
    (later : list call) (e : call) (earlier : list call)
    (H : calls service Cooldown log a) (Hlog : log = later ++ e :: earlier) :
  match e with
  | CRaise t code delivered => delivered = true ↔ ∀ t1, sent code earlier = Some t1 → Cooldown <= t - t1
  | CClear t code delivered =>
      (delivered = true → is_Some (sent code earlier)) ∧
      (delivered = false → ∀ t1, sent code earlier = Some t1 → evictAge Cooldown < t - t1)
  end.
Proof.
  revert later Hlog. induction H as [|log a now sev code message H IH Hnow|log a now code message H IH Hnow]; intros [|x later] E.
  - done.
  - done.
  - injection E as <- <-. pose proof (calls_remember _ _ _ _ H) as HR. rewrite <- (repeated_exact Cooldown log a now code HR Hnow).
    unfold Raise. change (repeated Cooldown now code (mkAlerter _ _)) with (repeated Cooldown now code a). by destruct (repeated _ _ _ a).
  - injection E as _ E. by apply (IH later).
  - injection E as <- <-. destruct (calls_remember _ _ _ _ H) as [A B C]. unfold Clear, Open. cbn [snd]. rewrite C.
    destruct (last a !! code) as [t|] eqn:El; cbn; split; intros ?; try done.
    + rewrite (A code t El). by eexists.
    + intros t1 Hs. by apply (B code t1).
  - injection E as _ E. by apply (IH later).
Qed.

(** Raised, raised again within its hour, cleared, and raised again: the second is not delivered. *)
Lemma alerts_once_witness :
  let log := [CRaise 30 "code" true; CClear 20 "code" true; CRaise 10 "code" false; CRaise 0 "code" true] in
  (∃ a, calls "service" hour log a) ∧ (false = true ↔ ∀ t1, sent "code" [CRaise 0 "code" true] = Some t1 → hour <= 10 - t1).
Proof.
  intros log.
  assert (H : ∃ a, calls "service" hour log a).
  { set (a1 := (Raise "service" hour 0 Critical "code" "m" New).1).
    set (a2 := (Raise "service" hour 10 Critical "code" "m" a1).1).
    set (a3 := (Clear "service" 20 "code" "m" a2).1). exists (Raise "service" hour 30 Critical "code" "m" a3).1.
    apply (calls_raise "service" hour [CClear 20 "code" true; CRaise 10 "code" false; CRaise 0 "code" true] a3 30 Critical "code" "m"); [|repeat constructor; cbn; lia].
    apply (calls_clear "service" hour [CRaise 10 "code" false; CRaise 0 "code" true] a2 20 "code" "m"); [|repeat constructor; cbn; lia].
    apply (calls_raise "service" hour [CRaise 0 "code" true] a1 10 Critical "code" "m"); [|repeat constructor; cbn; lia].
    apply (calls_raise "service" hour [] New 0 Critical "code" "m"); [apply calls_none|constructor]. }
  split; [exact H|]. destruct H as [a H].
  exact (alerts_once_per_cooldown "service" hour log a [CRaise 30 "code" true; CClear 20 "code" true] (CRaise 10 "code" false) [CRaise 0 "code" true] H eq_refl).
Defined.
End alert.
