(* ===== verification/AlertQueue.v ===== *)
(** The delivery of alerts by [services/internal/alert/queue.go]: a queue with a lane for each of its
    channels, whose copies wait in the service's database or in memory.

    A pass of a lane, a [Put] and the pruning at the start are programs of atomic actions: a section under
    the queue's lock, a statement of the database, a send. They run in any order, interleaved at every
    action, with at most one pass on a lane as [Run] has it. A statement may fail, or be carried out
    and reported as failed. A restart stops them all and keeps only the database, and may bring another
    configuration. The database holds the alert itself for its JSON form; copies stored
    before they had names are left out, and so are logs, the waking of lanes and the tests' [Flush]. *)
From stdpp Require Import pretty.
From S2P Require Import Prelude.
From S2P Require Import Threads.
From S2P Require Import Alert.

Module queue.

Import threads.
Import alert (Alert, mkAlert, Service, Severity, Code, Message, Time, Critical, Warning, Info, rank, second,
  minute, hour, answer, Taken, Refused, RetryAfter, Failed).

(** ** Data *)

(** [Queue], by what it is configured with: the names of its channels, in their order, and whether it has
    a store. *)
Record Config : Type := mkConfig {
  CService : string; Channels : list string; Store : bool; DigestEvery : Z; TestEvery : Z }.

(** [delivery] is one channel's copy of an alert. *)
Record delivery : Type := mkDelivery { id : Z; channel : nat; alert : Alert; attempts : Z; next : Z }.

(** A row of the table alert_outbox of this queue; its time is in milliseconds. *)
Record stored : Type := mkStored { s_id : Z; s_name : string; s_alert : Alert; s_attempts : Z; s_next : Z; s_rank : Z }.

(** [lane] is the delivery state of one channel; a time never set is [None]. *)
Record lane : Type := mkLane {
  failures : Z; failing : option Z; rest : option Z; digestAt : option Z; tried : option Z; refusing : bool }.
Definition new_lane : lane := mkLane 0 None None None None false.

Definition maxPending : Z := 10000.
Definition maxAge : Z := 7 * 24 * hour.
Definition laneBatch : nat := 100.
Definition failuresToRest : Z := 3.
Definition digestShown : nat := 10.

(** [Queue.digestEvery] *)
Definition digestEvery (c : Config) : Z := if 0 <? DigestEvery c then DigestEvery c else 5 * minute.

(** [backoff] is the wait after the given number of failed attempts. *)
Fixpoint doubled (n : nat) (d : Z) : Z := match n with O => d | S n => doubled n (d * 2) end.
Definition backoff (attempts : Z) : Z := Z.min (doubled (Z.to_nat (Z.min attempts 8)) (5 * second)) (10 * minute).

(** What a copy is known by: its number in the database, or in the memory of one life of the process. *)
Definition key : Type := nat * Z.

(** What happened: a copy kept, a message sent for copies, a test, a copy dropped for its age, from a memory
    that kept these alerts or for a channel not among those configured, an alert put for every channel, and a
    restart. *)
Inductive event : Type :=
| ECopy (k : key) (name : string) (a : Alert)
| ESend (names : list string) (ch : nat) (t : Z) (ks : list key) (a : Alert) (r : answer)
| ETest (ch : nat) (t : Z) (taken : bool)
| EAged (k : key) (t : Z)
| EFull (kept : list Alert) (k : key)
| EPruned (names : list string) (k : key)
| EPut (a : Alert) (names : list string)
| ERestart.

(** The queue and its database: the rows and the number of the next; the copies in memory and the
    last number given; the lanes; whether this life pruned the rows; which life it is; how many
    questions were asked of the outside; and what happened, the newest first. *)
Record World : Type := mkWorld {
  cfg : Config; rows : list stored; serial : Z; pending : list delivery; nextID : Z; lanes : gmap nat lane;
  pruned : bool; life : nat; asked : nat; trace : list event }.

Definition set_rows (x : list stored) (n : Z) (w : World) : World :=
  mkWorld (cfg w) x n (pending w) (nextID w) (lanes w) (pruned w) (life w) (asked w) (trace w).
Definition set_pending (x : list delivery) (n : Z) (w : World) : World :=
  mkWorld (cfg w) (rows w) (serial w) x n (lanes w) (pruned w) (life w) (asked w) (trace w).
Definition set_lane (ch : nat) (l : lane) (w : World) : World :=
  mkWorld (cfg w) (rows w) (serial w) (pending w) (nextID w) (<[ch := l]> (lanes w)) (pruned w) (life w) (asked w) (trace w).
Definition set_pruned (w : World) : World :=
  mkWorld (cfg w) (rows w) (serial w) (pending w) (nextID w) (lanes w) true (life w) (asked w) (trace w).
Definition ask_one (w : World) : World :=
  mkWorld (cfg w) (rows w) (serial w) (pending w) (nextID w) (lanes w) (pruned w) (life w) (S (asked w)) (trace w).
Definition happened (es : list event) (w : World) : World :=
  mkWorld (cfg w) (rows w) (serial w) (pending w) (nextID w) (lanes w) (pruned w) (life w) (asked w) (es ++ trace w).

(** A process that starts again: only the rows stay. *)
Definition restarted (c : Config) (w : World) : World :=
  mkWorld c (rows w) (serial w) [] 0 ∅ false (S (life w)) (asked w) (ERestart :: trace w).

Definition key_of (w : World) (i : Z) : key := if 0 <? i then (0%nat, i) else (life w, i).
Definition lane_of (ch : nat) (w : World) : lane := default new_lane (lanes w !! ch).

(** What becomes of a statement: it is carried out, or not, or is and is reported as failed. *)
Inductive statement : Type := Done | NotDone | Unreported.

(** The outside, by the number of questions before. *)
Record Env : Type := mkEnv { now : nat → Z; Send : nat → string → Alert → answer; db : nat → statement }.

Section queue.
Context (env : Env) (c : Config).

(** ** Actions *)

Definition clock : prog World Z := act (λ w, (ask_one w, now env (asked w))).
Definition get {A} (f : World → A) : prog World A := act (λ w, (w, f w)).
Definition modify (f : World → World) : prog World unit := act (λ w, (f w, tt)).

(** A statement of the database; its result, when it reports one. *)
Definition sql {A} (f : World → World * A) : prog World (option A) :=
  act (λ w, match db env (asked w) with
            | Done => let '(w', a) := f w in (ask_one w', Some a)
            | NotDone => (ask_one w, None)
            | Unreported => (ask_one (f w).1, None)
            end).

(** [Queue.channelName]; the code indexes a channel that exists. *)
Definition channelName (ch : nat) : string := default "" (Channels c !! ch).

(** ** Copies *)

(** The insertions of [Store.add]: one row per name. *)
Fixpoint insert_rows (a : Alert) (names : list string) (ms : Z) (w : World) : World :=
  match names with
  | [] => w
  | name :: names =>
      insert_rows a names ms
        (happened [ECopy (0%nat, serial w) name a]
           (set_rows (rows w ++ [mkStored (serial w) name a 0 ms (rank (Severity a))]) (serial w + 1) w))
  end.

(** [time.Time.UnixMilli] and [time.UnixMilli] *)
Definition milli (t : Z) : Z := t / 1000000.
Definition of_milli (ms : Z) : Z := ms * 1000000.

(** The copies [putMemory] adds; each reads the clock. *)
Fixpoint add_pending (a : Alert) (channels : list nat) (w : World) : World :=
  match channels with
  | [] => w
  | ch :: channels =>
      let n := nextID w - 1 in
      add_pending a channels
        (ask_one (happened [ECopy (life w, n) (channelName ch) a]
           (set_pending (pending w ++ [mkDelivery n ch a 0 (now env (asked w))]) n w)))
  end.

(** The oldest [over] copies of a rank, and the others. *)
Fixpoint drop_rank (r : Z) (over : nat) (l : list delivery) : list delivery * list delivery * nat :=
  match l with
  | [] => ([], [], over)
  | d :: l =>
      match over with
      | S n => if rank (Severity (alert d)) =? r then
                 let '(kept, dropped, more) := drop_rank r n l in (kept, d :: dropped, more)
               else let '(kept, dropped, more) := drop_rank r over l in (d :: kept, dropped, more)
      | O => (d :: l, [], O)
      end
  end.

(** The loop over a full queue, a rank a turn, the least severe first. *)
Definition lowest (l : list delivery) : Z := foldl (λ r d, Z.max r (rank (Severity (alert d)))) 0 l.
Fixpoint shrink (turns : nat) (over : nat) (l : list delivery) : list delivery * list delivery :=
  match turns, over with
  | S turns, S _ =>
      let '(kept, dropped, more) := drop_rank (lowest l) over l in
      let '(kept, dropped') := shrink turns more kept in
      (kept, dropped ++ dropped')
  | _, _ => (l, [])
  end.

(** There are three ranks. *)
Definition ranks : nat := 3.

(** [Queue.putMemory] *)
Definition put_memory (a : Alert) (channels : list nat) (w : World) : World :=
  let w := add_pending a channels w in
  let '(kept, dropped) := shrink ranks (Z.to_nat (Z.of_nat (length (pending w)) - maxPending)) (pending w) in
  happened (map (λ d, EFull (map alert kept) (life w, id d)) dropped) (set_pending kept (nextID w) w).
Definition putMemory (a : Alert) (channels : list nat) : prog World unit := modify (put_memory a channels).

(** [Queue.putTo] *)
Definition putTo (a : Alert) (channels : list nat) : prog World unit :=
  if Store c then
    t ← clock;
    r ← sql (λ w, (insert_rows a (map channelName channels) (milli t) w, tt));
    match r with
    | Some _ => mret tt
    | None => putMemory a channels
    end
  else putMemory a channels.

(** [Queue.Put] takes an alert for every channel. *)
Definition Put (a : Alert) : prog World unit :=
  _ ← putTo a (seq 0 (length (Channels c)));
  modify (happened [EPut a (Channels c)]).

(** [Queue.done] and [Queue.retry] *)
Definition forget (i : Z) (w : World) : World :=
  if 0 <? i then set_rows (filter (λ s, s_id s ≠ i) (rows w)) (serial w) w
  else set_pending (filter (λ d, id d ≠ i) (pending w)) (nextID w) w.
Definition done (d : delivery) : prog World unit :=
  if 0 <? id d then _ ← sql (λ w, (forget (id d) w, tt)); mret tt
  else modify (forget (id d)).

Definition postpone (i t : Z) (w : World) : World :=
  if 0 <? i then
    set_rows (map (λ s, if s_id s =? i then mkStored (s_id s) (s_name s) (s_alert s) (s_attempts s + 1) (milli t) (s_rank s) else s) (rows w)) (serial w) w
  else
    set_pending (map (λ d, if id d =? i then mkDelivery (id d) (channel d) (alert d) (attempts d + 1) t else d) (pending w)) (nextID w) w.
Definition retry (d : delivery) (t : Z) : prog World unit :=
  if 0 <? id d then _ ← sql (λ w, (postpone (id d) t w, tt)); mret tt
  else modify (postpone (id d) t).

(** [Queue.dropMemory] *)
Definition drop_memory (ds : list delivery) (w : World) : World :=
  set_pending (filter (λ d, id d ∉ id <$> filter (λ x, id x <= 0) ds) (pending w)) (nextID w) w.
Definition dropMemory (ds : list delivery) : prog World unit := modify (drop_memory ds).

(** [slices.SortStableFunc] by rank, which is 0, 1 or 2. *)
Definition by_rank {A} (f : A → Z) (l : list A) : list A :=
  filter (λ x, f x = 0) l ++ filter (λ x, f x = 1) l ++ filter (λ x, f x = 2) l.

(** [Store.due], of the rows in the order of their numbers. *)
Definition due_rows (ch : nat) (t : Z) (w : World) : list delivery :=
  map (λ s, mkDelivery (s_id s) ch (s_alert s) (s_attempts s) (of_milli (s_next s)))
    (take laneBatch (by_rank s_rank (filter (λ s, s_name s = channelName ch ∧ s_next s <= milli t) (rows w)))).

(** [Queue.due] *)
Definition due (ch : nat) (t : Z) : prog World (list delivery) :=
  stored ← (if Store c then sql (λ w, (w, due_rows ch t w)) else mret None);
  waiting ← get (λ w, filter (λ d, channel d = ch ∧ next d <= t) (pending w));
  mret (take (2 * laneBatch) (by_rank (λ d, rank (Severity (alert d))) (default [] stored ++ waiting))).

(** ** A pass *)

Definition rerouted : string := "_rerouted".

(** [strings.HasSuffix] *)
Definition HasSuffix (s suffix : string) : bool :=
  (String.length suffix <=? String.length s)%nat &&
  String.eqb (String.substring (String.length s - String.length suffix) (String.length suffix) s) suffix.

(** The alert a refused one becomes for the other channels. *)
Definition rerouted_alert (a : Alert) (name : string) (status : Z) : Alert :=
  mkAlert (Service a) (Severity a) (Code a +:+ rerouted)
    ("the " +:+ name +:+ " channel refused this alert, answering " +:+ pretty status +:+ ": " +:+ Message a) (Time a).

Definition drop_rows (ids : list Z) (w : World) : World :=
  set_rows (filter (λ s, s_id s ∉ ids) (rows w)) (serial w) w.

(** [Queue.reroute] *)
Definition reroute (a : Alert) (refusing : nat) (status : Z) (refusedCopies : list delivery) : prog World unit :=
  let others := filter (λ i, i ≠ refusing) (seq 0 (length (Channels c))) in
  let a := rerouted_alert a (channelName refusing) status in
  let storedIDs := filter (λ i, 0 < i) (id <$> refusedCopies) in
  let inMemory := _ ← (if bool_decide (others = []) then mret tt else putMemory a others); each done refusedCopies in
  if Store c && negb (bool_decide (others = [])) then
    t ← clock;
    r ← sql (λ w, (drop_rows storedIDs (insert_rows a (map channelName others) (milli t) w), tt));
    match r with
    | Some _ => dropMemory refusedCopies
    | None => inMemory
    end
  else inMemory.

(** What a section under the lock makes of a lane. *)
Definition on_lane (ch : nat) (f : lane → lane) : prog World unit := modify (λ w, set_lane ch (f (lane_of ch w)) w).
Definition set_tried (t : Z) (l : lane) : lane := mkLane (failures l) (failing l) (rest l) (digestAt l) (Some t) (refusing l).
Definition took (l : lane) : lane := mkLane 0 None (rest l) (digestAt l) (tried l) false.
Definition since (t : Z) (o : option Z) : option Z := match o with None => Some t | x => x end.
Definition refused (t : Z) (l : lane) : lane := mkLane (failures l) (since t (failing l)) (rest l) (digestAt l) (tried l) true.
Definition limited (t wait : Z) (l : lane) : lane :=
  mkLane (failures l) (since t (failing l)) (Some (t + wait)) (digestAt l) (tried l) (refusing l).
Definition failed (t : Z) (l : lane) : lane :=
  let n := failures l + 1 in
  mkLane n (since t (failing l)) (if failuresToRest <=? n then Some (t + backoff (n - failuresToRest)) else rest l)
    (digestAt l) (tried l) (refusing l).
Definition tested (l : lane) : lane := mkLane 0 None (rest l) (digestAt l) (tried l) (refusing l).
Definition digested (t : Z) (l : lane) : lane := mkLane (failures l) (failing l) (rest l) (Some (t + digestEvery c)) (tried l) (refusing l).

(** The channel's answer to a message. *)
Definition send (ch : nat) (t : Z) (ds : list delivery) (a : Alert) : prog World answer :=
  act (λ w, let r := Send env (asked w) (channelName ch) a in
            (happened [ESend (Channels c) ch t (map (λ d, key_of w (id d)) ds) a r] (ask_one w), r)).

(** [Queue.attempt] sends one message standing for the copies given, and reports whether the lane may go on. *)
Definition attempt (ch : nat) (t : Z) (ds : list delivery) (a : Alert) : prog World bool :=
  r ← send ch t ds a;
  _ ← on_lane ch (set_tried t);
  match r with
  | Taken =>
      _ ← each done ds;
      _ ← on_lane ch took;
      mret true
  | Refused status =>
      _ ← (if String.eqb (Severity a) Critical && negb (HasSuffix (Code a) rerouted) then reroute a ch status ds
           else each done ds);
      _ ← on_lane ch (refused t);
      mret true
  | RetryAfter wait =>
      _ ← on_lane ch (limited t wait);
      mret false
  | Failed =>
      _ ← each (λ d, retry d (t + backoff (attempts d))) ds;
      l ← act (λ w, let l := failed t (lane_of ch w) in (set_lane ch l w, l));
      mret (failures l <? failuresToRest)
  end.

Definition before (t : Z) (o : option Z) : bool := match o with Some at_ => t <? at_ | None => false end.

(** [Queue.restLeft] *)
Definition restLeft (ch : nat) (t : Z) : prog World Z :=
  l ← get (lane_of ch);
  mret (match rest l with Some at_ => if t <? at_ then at_ - t else 5 * second | None => 5 * second end).

(** [strings.Join] *)
Fixpoint Join (sep : string) (l : list string) : string :=
  match l with
  | [] => ""
  | [s] => s
  | s :: l => s +:+ sep +:+ Join sep l
  end.

(** [digest] gathers Info alerts into one message, which names the first of them in full. *)
Definition digest (d : delivery) (ds : list delivery) (t : Z) : Alert :=
  let all := d :: ds in
  let parts := map (λ d, Code (alert d) +:+ ": " +:+ Message (alert d)) (take digestShown all) in
  let more := Z.of_nat (length all) - Z.of_nat digestShown in
  mkAlert (Service (alert d)) Info "digest"
    (pretty (Z.of_nat (length all)) +:+ " notices: " +:+
     Join "; " (parts ++ if 0 <? more then ["and " +:+ pretty more +:+ " more in the log"] else [])) t.

(** [Queue.test]: the lane must count as failing or refusing, may not rest, and was not tried lately. *)
Definition wants_test (t : Z) (l : lane) : bool :=
  (0 <? TestEvery c) && (match failing l with Some _ => true | None => refusing l end) && negb (before t (rest l)) &&
  match tried l with Some at_ => TestEvery c <=? t - at_ | None => true end.
Definition test_alert (t : Z) : Alert :=
  mkAlert (CService c) Info "channel_test" "a test of this channel, which refused an alert" t.
Definition send_test (ch : nat) (t : Z) : prog World bool :=
  act (λ w, let taken := match Send env (asked w) (channelName ch) (test_alert t) with Taken => true | _ => false end in
            (happened [ETest ch t taken] (ask_one w), taken)).
Definition test (ch : nat) (t : Z) : prog World unit :=
  l ← get (lane_of ch);
  if wants_test t l then
    taken ← send_test ch t;
    on_lane ch (λ l, if taken : bool then tested (set_tried t l) else set_tried t l)
  else mret tt.

(** The loop of [flushLane] over the copies due: the Info copies it gathers, or nothing when a send ended
    the pass. *)
Fixpoint send_all (ch : nat) (t : Z) (ds infos : list delivery) : prog World (option (list delivery)) :=
  match ds with
  | [] => mret (Some infos)
  | d :: ds =>
      if maxAge <? t - Time (alert d) then
        _ ← modify (λ w, happened [EAged (key_of w (id d)) t] w);
        _ ← done d;
        send_all ch t ds infos
      else if String.eqb (Severity (alert d)) Info then send_all ch t ds (infos ++ [d])
      else
        go ← attempt ch t [d] (alert d);
        if go : bool then send_all ch t ds infos else mret None
  end.

(** The digest of [flushLane], and whether the pass goes on. *)
Definition send_infos (ch : nat) (t : Z) (digestAt : option Z) (infos : list delivery) : prog World bool :=
  match infos with
  | [] => mret true
  | d :: ds =>
      if before t digestAt then mret true
      else
        go ← attempt ch t infos (match ds with [] => alert d | _ => digest d ds t end);
        if go : bool then _ ← on_lane ch (digested t); mret true else mret false
  end.

(** [Queue.flushLane] sends what is due on one channel and returns how long until the lane has work again. *)
Definition pass (ch : nat) (t : Z) (l : lane) : prog World Z :=
  ds ← due ch t;
  infos ← send_all ch t ds [];
  match infos with
  | None => restLeft ch t
  | Some infos =>
      go ← send_infos ch t (digestAt l) infos;
      if go : bool then
        _ ← test ch t;
        wait ← restLeft ch t;
        mret (Z.max wait 50000000)
      else restLeft ch t
  end.
Definition flushLane (ch : nat) : prog World Z :=
  t ← clock;
  l ← get (lane_of ch);
  if before t (rest l) then mret (default t (rest l) - t) else pass ch t l.

(** [Queue.prune] drops, once, the stored copies of channels no longer configured. *)
Definition prune_rows (w : World) : World :=
  let gone := filter (λ s, s_name s ∉ Channels c) (rows w) in
  happened (map (λ s, EPruned (Channels c) (0%nat, s_id s)) gone)
    (set_rows (filter (λ s, s_name s ∈ Channels c) (rows w)) (serial w) w).
Definition prune : prog World unit :=
  before ← act (λ w, (set_pruned w, pruned w));
  if (before : bool) || negb (Store c) then mret tt
  else _ ← sql (λ w, (prune_rows w, tt)); mret tt.
End queue.

(** ** Health *)

Definition StalledAfter : Z := 10 * minute.

(** [LaneState] and [Queue.Lanes]; a time is in seconds, [None] when it is left out. *)
Record LaneState : Type := mkState { Channel : string; Failing : option Z; Refusing : bool; LStalled : bool }.
Definition Lanes (t : Z) (w : World) : list LaneState :=
  imap (λ i name,
    let l := lane_of i w in
    mkState name ((λ f, f / second) <$> failing l) (refusing l)
      (match failing l with Some f => StalledAfter <? t - f | None => false end)) (Channels (cfg w)).

(** [Queue.Stalled] *)
Definition Stalled (t after : Z) (w : World) : bool :=
  existsb (λ p, match failing p.2 with Some f => after <? t - f | None => false end) (map_to_list (lanes w)).

(** [Queue.Waiting] *)
Definition Waiting (w : World) : nat := (length (pending w) + length (rows w))%nat.

(** ** The process

    A pass runs on a lane when none does; anything else that runs has a number of its own. *)
Definition thread : Type := nat + nat.
Definition Sys : Type := World * gmap thread (prog World unit).

Inductive step (env : Env) : Sys → Sys → Prop :=
| Step_lane w ts ch : (ch < length (Channels (cfg w)))%nat → ts !! inl ch = None →
    step env (w, ts) (w, <[inl ch := _ ← flushLane env (cfg w) ch; mret tt]> ts)
| Step_put w ts n a : ts !! inr n = None → step env (w, ts) (w, <[inr n := Put env (cfg w) a]> ts)
| Step_prune w ts n : ts !! inr n = None → step env (w, ts) (w, <[inr n := prune env (cfg w)]> ts)
| Step_act w ts i X f k : ts !! i = Some (@Act World unit X f k) → step env (w, ts) ((f w).1, <[i := k (f w).2]> ts)
| Step_end w ts i : ts !! i = Some (Ret tt) → step env (w, ts) (w, delete i ts)
| Step_restart w ts c : step env (w, ts) (restarted c w, ∅).

(** The first process, on an empty table. *)
Definition start (c : Config) : Sys := (mkWorld c [] 1 [] 0 ∅ false 1 0 [], ∅).

(** * Specification *)

(** ** What becomes of a copy *)

(** A message a lane sends for a copy: the alert itself, or the digest of the Info ones. *)
Definition stands (a m : Alert) : Prop := m = a ∨ Severity a = Info ∧ Severity m = Info.

(** A copy that ended: its channel took a message for it; its channel refused one for good, and when the
    alert is critical and no rerouted one every other channel got a copy that says so; it grew old; the memory
    kept as many copies as it may, none of them less severe; its channel was not among those configured; or it
    was in the memory of a life of the process before this one. *)
Inductive ended (tr : list event) (life : nat) (k : key) (name : string) (a : Alert) : Prop :=
| Ended_taken names ch t ks m : ESend names ch t ks m Taken ∈ tr → names !! ch = Some name → k ∈ ks → stands a m → ended tr life k name a
| Ended_refused names ch t ks m status : ESend names ch t ks m (Refused status) ∈ tr → names !! ch = Some name → k ∈ ks → stands a m →
    (Severity a = Critical → HasSuffix (Code a) rerouted = false →
     ∀ i other, names !! i = Some other → i ≠ ch → ∃ k', ECopy k' other (rerouted_alert a name status) ∈ tr) → ended tr life k name a
| Ended_aged t : EAged k t ∈ tr → maxAge < t - Time a → ended tr life k name a
| Ended_full kept : EFull kept k ∈ tr → maxPending <= Z.of_nat (length kept) →
    Forall (λ x, rank (Severity x) <= rank (Severity a)) kept → ended tr life k name a
| Ended_pruned names : EPruned names k ∈ tr → name ∉ names → ended tr life k name a
| Ended_restart : (0 < k.1 < life)%nat → ended tr life k name a.

Section copies.
Context (names : list string) (rows : list stored) (serial : Z) (pending : list delivery) (nextID : Z) (life : nat)
  (tr : list event).

(** A copy that waits, in the database or in memory. *)
Definition waits (k : key) (name : string) (a : Alert) : Prop :=
  (∃ s, s ∈ rows ∧ k = (0%nat, s_id s) ∧ s_name s = name ∧ s_alert s = a) ∨
  (∃ d, d ∈ pending ∧ k = (life, id d) ∧ names !! channel d = Some name ∧ alert d = a).

(** A number already given to a copy. *)
Definition given (k : key) : Prop :=
  k.1 = 0%nat ∧ 0 < k.2 < serial ∨ (0 < k.1 < life)%nat ∨ k.1 = life ∧ nextID <= k.2 < 0.

Record copies : Prop := mkCopies {
  c_life : (0 < life)%nat; c_serial : 0 < serial; c_next : nextID <= 0;
  c_rows : ∀ s, s ∈ rows → 0 < s_id s < serial ∧ ECopy (0%nat, s_id s) (s_name s) (s_alert s) ∈ tr;
  c_pending : ∀ d, d ∈ pending → nextID <= id d < 0 ∧
    ∃ name, names !! channel d = Some name ∧ ECopy (life, id d) name (alert d) ∈ tr;
  c_given : ∀ k n a, ECopy k n a ∈ tr → given k;
  c_once : ∀ k n a n' a', ECopy k n a ∈ tr → ECopy k n' a' ∈ tr → n = n' ∧ a = a';
  c_account : ∀ k n a, ECopy k n a ∈ tr → waits k n a ∨ ended tr life k n a;
  c_put : ∀ a ns, EPut a ns ∈ tr → ∀ n, n ∈ ns → ∃ k, ECopy k n a ∈ tr }.
End copies.

Definition Copies (w : World) : Prop :=
  copies (Channels (cfg w)) (rows w) (serial w) (pending w) (nextID w) (life w) (trace w).
Definition waiting (w : World) : key → string → Alert → Prop := waits (Channels (cfg w)) (rows w) (pending w) (life w).

(** ** What a lane's state says

    The messages a channel was sent in this life of the process, the newest first; a test has none. *)
Record entry : Type := mkEntry { e_time : Z; e_message : option Alert; e_answer : answer }.

Fixpoint log (ch : nat) (tr : list event) : list entry :=
  match tr with
  | [] => []
  | ERestart :: _ => []
  | ESend _ ch' t _ a r :: tr => if decide (ch' = ch) then mkEntry t (Some a) r :: log ch tr else log ch tr
  | ETest ch' t taken :: tr =>
      if decide (ch' = ch) then mkEntry t None (if taken then Taken else Failed) :: log ch tr else log ch tr
  | _ :: tr => log ch tr
  end.

(** The lane after a message, before the digest's time is set. *)
Definition outcome (e : entry) (l : lane) : lane :=
  let l := set_tried (e_time e) l in
  match e_message e, e_answer e with
  | None, Taken => tested l
  | None, _ => l
  | Some _, Taken => took l
  | Some _, Refused _ => refused (e_time e) l
  | Some _, RetryAfter wait => limited (e_time e) wait l
  | Some _, Failed => failed (e_time e) l
  end.

Definition goes_on (e : entry) (l : lane) : bool :=
  match e_answer e with
  | Taken | Refused _ => true
  | RetryAfter _ => false
  | Failed => failures l <? failuresToRest
  end.

Definition informs (e : entry) : bool := match e_message e with Some a => String.eqb (Severity a) Info | None => false end.

Fixpoint replay (c : Config) (es : list entry) : lane :=
  match es with
  | [] => new_lane
  | e :: es => let l := outcome e (replay c es) in if informs e && goes_on e l then digested c (e_time e) l else l
  end.

(** Each message was sent when the lane did not rest, none before an earlier one, and a digest when it was
    due. *)
Fixpoint timely (c : Config) (es : list entry) : Prop :=
  match es with
  | [] => True
  | e :: es =>
      before (e_time e) (rest (replay c es)) = false ∧ (∀ x, x ∈ es → e_time x <= e_time e) ∧
      (informs e = true → before (e_time e) (digestAt (replay c es)) = false) ∧ timely c es
  end.

Section spec.
Context (env : Env).

Record Timing (w : World) : Prop := mkTiming {
  t_timely : ∀ ch, timely (cfg w) (log ch (trace w));
  t_past : ∀ ch e n, e ∈ log ch (trace w) → (asked w ≤ n)%nat → e_time e <= now env n }.

Definition Inv (w : World) : Prop := Copies w ∧ Timing w.

(** What a thread may find changed between two of its actions, and what its own may change. *)
Definition grows (w w1 : World) : Prop :=
  (∃ es, trace w1 = es ++ trace w) ∧ cfg w1 = cfg w ∧ life w1 = life w ∧ (asked w ≤ asked w1)%nat.
Definition same_lane (ch : nat) (w w1 : World) : Prop :=
  lane_of ch w1 = lane_of ch w ∧ log ch (trace w1) = log ch (trace w).
Definition R (i : thread) (w w1 : World) : Prop :=
  grows w w1 ∧ match i with inl ch => same_lane ch w w1 | inr _ => True end.
Definition G (i : thread) (w w1 : World) : Prop := grows w w1 ∧ ∀ ch, i ≠ inl ch → same_lane ch w w1.

(** What an ended pass leaves: the lane says what its log says. *)
Definition synced (ch : nat) (w : World) : Prop := lane_of ch w = replay (cfg w) (log ch (trace w)).
Definition Q (i : thread) (w : World) : Prop := match i with inl ch => synced ch w | inr _ => True end.
End spec.

(** * Proofs *)

(** ** Copies *)

Definition plain (e : event) : Prop := match e with ECopy _ _ _ | EPut _ _ => False | _ => True end.

Lemma ended_grows tr es life k n a : ended tr life k n a → ended (es ++ tr) life k n a.
Proof.
  assert (Hin : ∀ e, e ∈ tr → e ∈ es ++ tr) by (intros; apply elem_of_app; by right).
  intros [names ch t ks m H|names ch t ks m st H Hn Hk Hm Hr|t H|kept H|ns H|H];
    [by eapply Ended_taken; eauto| |by eapply Ended_aged; eauto|by eapply Ended_full; eauto|by eapply Ended_pruned; eauto|by apply Ended_restart].
  eapply Ended_refused; eauto. intros Hc Hs i other Hi Hne. destruct (Hr Hc Hs i other Hi Hne) as [k' ?]. exists k'. by apply Hin.
Qed.

Section copies_lemmas.
Context (names : list string) (serial nextID : Z) (life : nat).
Implicit Types (rows : list stored) (pending : list delivery) (tr : list event).

Lemma plain_in es tr k n a : Forall plain es → ECopy k n a ∈ es ++ tr → ECopy k n a ∈ tr.
Proof. rewrite Forall_forall. intros H [Hx|?]%elem_of_app; [by destruct (H _ Hx)|done]. Qed.

Lemma copies_events rows pending tr es : Forall plain es →
  copies names rows serial pending nextID life tr → copies names rows serial pending nextID life (es ++ tr).
Proof.
  intros He [A B C D E F O I P]. assert (Hin : ∀ e, e ∈ tr → e ∈ es ++ tr) by (intros; apply elem_of_app; by right).
  split; [done..| | | | | |].
  - intros s Hs. destruct (D s Hs). by auto.
  - intros d Hd. destruct (E d Hd) as (? & n & ? & ?). split; [done|]. exists n. by auto.
  - intros k n a Hk. eapply F, plain_in; [done|exact Hk].
  - intros k n a n' a' Hk Hk'. eapply O; eapply plain_in; [done|exact Hk|done|exact Hk'].
  - intros k n a Hk. destruct (I k n a) as [?|?]; [by eapply plain_in|by left|right; by apply ended_grows].
  - intros a ns Hp n Hn. assert (Hp' : EPut a ns ∈ tr).
    { apply elem_of_app in Hp as [Hp|?]; [|done]. rewrite Forall_forall in He. by destruct (He _ Hp). }
    destruct (P a ns Hp' n Hn) as [k ?]. exists k. by auto.
Qed.

(** Copies that changed nothing but their times, or ended. *)
Lemma copies_kept rows pending rows' pending' tr : copies names rows serial pending nextID life tr →
  (∀ s', s' ∈ rows' → ∃ s, s ∈ rows ∧ s_id s = s_id s' ∧ s_name s = s_name s' ∧ s_alert s = s_alert s') →
  (∀ d', d' ∈ pending' → ∃ d, d ∈ pending ∧ id d = id d' ∧ channel d = channel d' ∧ alert d = alert d') →
  (∀ k n a, ECopy k n a ∈ tr → waits names rows pending life k n a →
     waits names rows' pending' life k n a ∨ ended tr life k n a) →
  copies names rows' serial pending' nextID life tr.
Proof.
  intros [A B C D E F O I P] Hr Hp Hw. split; [done..| | |done|done| |done].
  - intros s' Hs'. destruct (Hr s' Hs') as (s & Hs & <- & <- & <-). by apply D.
  - intros d' Hd'. destruct (Hp d' Hd') as (d & Hd & <- & <- & <-). by apply E.
  - intros k n a Hk. destruct (I k n a Hk); [by apply Hw|by right].
Qed.

Lemma waits_row rows pending s : s ∈ rows → waits names rows pending life (0%nat, s_id s) (s_name s) (s_alert s).
Proof. intros Hs. left. by exists s. Qed.
Lemma waits_pending rows pending d n : d ∈ pending → names !! channel d = Some n →
  waits names rows pending life (life, id d) n (alert d).
Proof. intros Hd Hn. right. by exists d. Qed.

(** Copies taken out, each of which ended. *)
Lemma copies_filter_rows rows pending tr (P : stored → Prop) {HP : ∀ s, Decision (P s)} :
  copies names rows serial pending nextID life tr →
  (∀ s, s ∈ rows → ¬ P s → ended tr life (0%nat, s_id s) (s_name s) (s_alert s)) →
  copies names (filter P rows) serial pending nextID life tr.
Proof.
  intros HC He. eapply copies_kept; [exact HC| |by intros d; exists d|].
  - intros s [_ Hs]%list_elem_of_filter. by exists s.
  - intros k n a _ [(s & Hs & -> & <- & <-)|?]; [|by left; right].
    destruct (decide (P s)); [left; apply waits_row, list_elem_of_filter; by split|right; by apply He].
Qed.

Lemma copies_filter_pending rows pending tr (P : delivery → Prop) {HP : ∀ d, Decision (P d)} :
  copies names rows serial pending nextID life tr →
  (∀ d n, d ∈ pending → names !! channel d = Some n → ¬ P d → ended tr life (life, id d) n (alert d)) →
  copies names rows serial (filter P pending) nextID life tr.
Proof.
  intros HC He. eapply copies_kept; [exact HC|by intros s; exists s| |].
  - intros d [_ Hd]%list_elem_of_filter. by exists d.
  - intros k n a _ [?|(d & Hd & -> & Hn & <-)]; [by left; left|].
    destruct (decide (P d)); [left; apply waits_pending; [by apply list_elem_of_filter|done]|right; by apply He].
Qed.

(** A copy more, in the database or in memory. *)
Lemma copies_row rows pending tr s : copies names rows serial pending nextID life tr → s_id s = serial →
  copies names (rows ++ [s]) (serial + 1) pending nextID life (ECopy (0%nat, serial) (s_name s) (s_alert s) :: tr).
Proof.
  intros [A B C D E F O I P] Hs.
  assert (Hnew : ∀ n a, ECopy (0%nat, serial) n a ∉ tr).
  { intros n a Hk. destruct (F _ _ _ Hk) as [[_ ?]|[?|[? ?]]]; cbn in *; lia. }
  split; [done|lia|done| | | | | |].
  - intros x [Hx| ->%list_elem_of_singleton]%elem_of_app.
    + destruct (D x Hx). split; [lia|by right].
    + rewrite Hs. split; [lia|by left].
  - intros d Hd. destruct (E d Hd) as (? & n & ? & ?). split; [done|]. exists n. split; [done|by right].
  - intros k n a [[= -> -> ->]|Hk]%elem_of_cons; [left; cbn; lia|].
    destruct (F k n a Hk) as [[? ?]|[?|?]]; [left; split; [done|lia]|by right; left|by right; right].
  - intros k n a n' a' [E1|Hk]%elem_of_cons [E2|Hk']%elem_of_cons; simplify_eq.
    + done.
    + by destruct (Hnew n' a').
    + by destruct (Hnew n a).
    + by apply (O k).
  - intros k n a [[= -> -> ->]|Hk]%elem_of_cons.
    + left. left. exists s. split; [apply elem_of_app; right; by apply list_elem_of_singleton|]. by rewrite Hs.
    + destruct (I k n a Hk) as [[(x & Hx & ?)|?]|?]; [|by left; right|right; by apply (ended_grows _ [_])].
      left. left. exists x. split; [apply elem_of_app; by left|done].
  - intros a ns [?|Hp]%elem_of_cons n Hn; [done|]. destruct (P a ns Hp n Hn) as [k ?]. exists k. by right.
Qed.

Lemma copies_memory rows pending tr d n : copies names rows serial pending nextID life tr →
  id d = nextID - 1 → names !! channel d = Some n →
  copies names rows serial (pending ++ [d]) (nextID - 1) life (ECopy (life, nextID - 1) n (alert d) :: tr).
Proof.
  intros [A B C D E F O I P] Hd Hch.
  assert (Hnew : ∀ n a, ECopy (life, nextID - 1) n a ∉ tr).
  { intros n0 a Hk. destruct (F _ _ _ Hk) as [[? ?]|[?|[? ?]]]; cbn in *; lia. }
  split; [done|done|lia| | | | | |].
  - intros x Hx. destruct (D x Hx). split; [lia|by right].
  - intros x [Hx| ->%list_elem_of_singleton]%elem_of_app.
    + destruct (E x Hx) as (? & n' & ? & ?). split; [lia|]. exists n'. split; [done|by right].
    + rewrite Hd. split; [lia|]. exists n. split; [done|by left].
  - intros k n' a [[= -> -> ->]|Hk]%elem_of_cons; [right; right; cbn; lia|].
    destruct (F k n' a Hk) as [?|[?|[? ?]]]; [by left|by right; left|right; right; split; [done|lia]].
  - intros k n1 a n' a' [E1|Hk]%elem_of_cons [E2|Hk']%elem_of_cons; simplify_eq.
    + done.
    + by destruct (Hnew n' a').
    + by destruct (Hnew n1 a).
    + by apply (O k).
  - intros k n' a [[= -> -> ->]|Hk]%elem_of_cons.
    + left. right. exists d. split; [apply elem_of_app; right; by apply list_elem_of_singleton|]. by rewrite Hd.
    + destruct (I k n' a Hk) as [[?|(x & Hx & ?)]|?]; [by left; left| |right; by apply (ended_grows _ [_])].
      left. right. exists x. split; [apply elem_of_app; by left|done].
  - intros a ns [?|Hp]%elem_of_cons n' Hn; [done|]. destruct (P a ns Hp n' Hn) as [k ?]. exists k. by right.
Qed.

End copies_lemmas.

(** ** The memory's bound *)

Lemma drop_rank_split r over l : let '(kept, dropped, more) := drop_rank r over l in
  kept ++ dropped ≡ₚ l ∧ (length dropped + more = over)%nat ∧
  Forall (λ d, rank (Severity (alert d)) = r) dropped ∧ (0 < more → Forall (λ d, rank (Severity (alert d)) ≠ r) kept)%nat.
Proof.
  revert over. induction l as [|d l IH]; intros over; cbn [drop_rank]; [by destruct over|].
  destruct over as [|n]; [split; [by rewrite app_nil_r|]; split; [done|]; split; [done|lia]|].
  destruct (Z.eqb_spec (rank (Severity (alert d))) r) as [E|E].
  - specialize (IH n). destruct (drop_rank r n l) as [[kept dropped] more]. destruct IH as (H1 & H2 & H3 & H4).
    split; [by rewrite <- Permutation_middle, H1|]. split; [cbn; lia|]. split; [by constructor|done].
  - specialize (IH (S n)). destruct (drop_rank r (S n) l) as [[kept dropped] more]. destruct IH as (H1 & H2 & H3 & H4).
    split; [cbn; by rewrite H1|]. split; [done|]. split; [done|]. intros Hm. constructor; [done|by apply H4].
Qed.

Lemma shrink_split turns over l : let '(kept, dropped) := shrink turns over l in kept ++ dropped ≡ₚ l.
Proof.
  revert over l. induction turns as [|turns IH]; intros over l; cbn [shrink]; [by rewrite app_nil_r|].
  destruct over as [|n]; [by rewrite app_nil_r|].
  pose proof (drop_rank_split (lowest l) (S n) l) as H. destruct (drop_rank (lowest l) (S n) l) as [[kept dropped] more].
  specialize (IH more kept). destruct (shrink turns more kept) as [kept' dropped']. destruct H as [H _].
  rewrite <- H, <- IH. rewrite <- !app_assoc. f_equiv. by rewrite Permutation_app_comm.
Qed.

Lemma max_ge l r : r <= foldl (λ r d, Z.max r (rank (Severity (alert d)))) r l.
Proof. revert r. induction l as [|d l IH]; intros r; cbn; [done|]. specialize (IH (Z.max r (rank (Severity (alert d))))). lia. Qed.

Lemma lowest_max l d : d ∈ l → rank (Severity (alert d)) <= lowest l.
Proof.
  unfold lowest. generalize 0. induction l as [|x l IH]; intros r; [by intros ?%elem_of_nil|]. cbn.
  intros [->|Hd]%elem_of_cons; [|by apply IH]. pose proof (max_ge l (Z.max r (rank (Severity (alert x))))). lia.
Qed.

Lemma rank_bounds s : 0 <= rank s <= 2.
Proof. unfold rank. destruct (String.eqb s Critical), (String.eqb s Info); lia. Qed.

Lemma max_attained l r : let m := foldl (λ r d, Z.max r (rank (Severity (alert d)))) r l in m = r ∨ ∃ d, d ∈ l ∧ rank (Severity (alert d)) = m.
Proof.
  revert r. induction l as [|d l IH]; intros r; cbn; [by left|]. destruct (IH (Z.max r (rank (Severity (alert d))))) as [E|(x & Hx & E)].
  - destruct (Z.max_spec r (rank (Severity (alert d)))) as [[? ?]|[? ?]]; [right; exists d; split; [by left|lia]|left; lia].
  - right. exists x. split; [by right|done].
Qed.

Lemma lowest_in l x : x ∈ l → ∃ d, d ∈ l ∧ rank (Severity (alert d)) = lowest l.
Proof.
  intros Hx. destruct (max_attained l 0) as [E|?]; [|done]. exists x. split; [done|].
  pose proof (lowest_max l x Hx). pose proof (rank_bounds (Severity (alert x))). unfold lowest in *. lia.
Qed.

(** The copies of one rank. *)
Definition of_rank (r : Z) (l : list delivery) : list delivery := filter (λ d, rank (Severity (alert d)) = r) l.

Lemma of_rank_none r l : Forall (λ d, rank (Severity (alert d)) ≠ r) l → of_rank r l = [].
Proof. unfold of_rank. induction 1 as [|d l Hd _ IH]; [done|]. by rewrite filter_cons_False. Qed.

Lemma drop_rank_order r k over l : let '(kept, dropped, _) := drop_rank r over l in of_rank k dropped ++ of_rank k kept = of_rank k l.
Proof.
  unfold of_rank. revert over. induction l as [|d l IH]; intros over; cbn [drop_rank]; [done|].
  destruct over as [|n]; [done|]. destruct (Z.eqb_spec (rank (Severity (alert d))) r) as [E|E].
  - specialize (IH n). destruct (drop_rank r n l) as [[kept dropped] more].
    destruct (decide (rank (Severity (alert d)) = k)); [rewrite !filter_cons_True by done; cbn; by rewrite IH|by rewrite !filter_cons_False by done].
  - pose proof (drop_rank_split r (S n) l) as Hs. specialize (IH (S n)). destruct (drop_rank r (S n) l) as [[kept dropped] more].
    destruct Hs as (_ & _ & Hd & _). destruct (decide (rank (Severity (alert d)) = k)) as [Ek|Ek].
    + rewrite !(filter_cons_True _ d) by done. rewrite <- IH. fold (of_rank k dropped).
      rewrite (of_rank_none k dropped); [done|]. eapply Forall_impl; [exact Hd|]. cbn. lia.
    + by rewrite !(filter_cons_False _ d) by done.
Qed.

(** The least severe go, each rank oldest first, and no more than needed. *)
Lemma shrink_spec turns over l : (over ≤ length l)%nat → Forall (λ d, rank (Severity (alert d)) < Z.of_nat turns) l →
  let '(kept, dropped) := shrink turns over l in
  length dropped = over ∧ (∀ x y, x ∈ kept → y ∈ dropped → rank (Severity (alert x)) <= rank (Severity (alert y))) ∧
  (∀ k, of_rank k dropped ++ of_rank k kept = of_rank k l).
Proof.
  revert over l. induction turns as [|turns IH]; intros over l Hle Hr; cbn [shrink].
  - assert (l = []) as ->. { destruct l as [|d l]; [done|]. apply Forall_cons in Hr as [Hr _]. pose proof (rank_bounds (Severity (alert d))). lia. }
    cbn in Hle. split; [cbn; lia|]. split; [by intros x y ?%elem_of_nil|done].
  - destruct over as [|n]; [split; [done|]; split; [by intros x y _ ?%elem_of_nil|done]|].
    pose proof (drop_rank_split (lowest l) (S n) l) as Hs. pose proof (λ k, drop_rank_order (lowest l) k (S n) l) as Ho.
    destruct (drop_rank (lowest l) (S n) l) as [[kept dropped] more]. destruct Hs as (Hp & Hn & Hd & Hk).
    rewrite Forall_forall in Hr, Hd.
    assert (Hin : ∀ x, x ∈ kept → x ∈ l) by (intros x Hx; rewrite <- Hp; apply elem_of_app; by left).
    destruct more as [|m].
    { assert (shrink turns 0 kept = (kept, [])) as -> by by destruct turns. rewrite app_nil_r. split; [lia|]. split; [|done].
      intros x y Hx Hy. rewrite (Hd y Hy). by apply lowest_max, Hin. }
    specialize (IH (S m) kept). assert (Hlen := Permutation_length Hp). rewrite length_app in Hlen.
    destruct (shrink turns (S m) kept) as [kept' dropped'] eqn:Es. destruct IH as (H1 & H2 & H3); [lia| |].
    + apply Forall_forall. intros x Hx. assert (Hlt := Hk ltac:(lia)). rewrite Forall_forall in Hlt. specialize (Hlt x Hx).
      pose proof (lowest_max l x (Hin x Hx)). destruct (lowest_in l x (Hin x Hx)) as (y & Hy & Ey). specialize (Hr y Hy). lia.
    + pose proof (shrink_split turns (S m) kept) as Hp'. rewrite Es in Hp'.
      assert (Hin' : ∀ x, x ∈ kept' ++ dropped' → x ∈ l) by (intros x Hx; rewrite Hp' in Hx; by apply Hin).
      split; [rewrite length_app; lia|]. split.
      * intros x y Hx [Hy|Hy]%elem_of_app; [|by apply H2]. rewrite (Hd y Hy). apply lowest_max, Hin', elem_of_app. by left.
      * intros k. rewrite <- Ho, <- H3. unfold of_rank. by rewrite filter_app, app_assoc.
Qed.

(** Of a memory too full, as many as it may hold are kept, none of them less severe than one dropped. *)
Lemma shrink_full l : let '(kept, dropped) := shrink ranks (Z.to_nat (Z.of_nat (length l) - maxPending)) l in
  ∀ d, d ∈ dropped → maxPending <= Z.of_nat (length kept) ∧ Forall (λ x, rank (Severity x) <= rank (Severity (alert d))) (map alert kept).
Proof.
  set (over := Z.to_nat _). assert (Hover : (over ≤ length l)%nat) by (unfold over, maxPending; lia).
  pose proof (shrink_spec ranks over l Hover) as H. pose proof (shrink_split ranks over l) as Hp.
  destruct (shrink ranks over l) as [kept dropped]. destruct H as (Hl & Hr & _).
  { apply Forall_forall. intros d _. pose proof (rank_bounds (Severity (alert d))). unfold ranks. lia. }
  intros d Hd. apply Permutation_length in Hp. rewrite length_app in Hp. split.
  - destruct dropped; [by apply elem_of_nil in Hd|]. cbn [length] in *. unfold over in *. lia.
  - apply Forall_forall. intros a (x & -> & Hx)%list_elem_of_fmap. by apply Hr.
Qed.

(** ** What actions leave alone *)

Definition silent (e : event) : Prop :=
  match e with ESend _ _ _ _ _ _ | ETest _ _ _ | ERestart => False | _ => True end.

Lemma log_silent es tr ch : Forall silent es → log ch (es ++ tr) = log ch tr.
Proof. induction 1 as [|e es He _ IH]; [done|]. by destruct e. Qed.

(** An action that concerns no lane. *)
Definition quiet (w w1 : World) : Prop :=
  (∃ es, Forall silent es ∧ trace w1 = es ++ trace w) ∧ cfg w1 = cfg w ∧ life w1 = life w ∧ lanes w1 = lanes w ∧ (asked w ≤ asked w1)%nat.

#[export] Instance quiet_preorder : PreOrder quiet.
Proof.
  split.
  - intros w. split; [by exists []|done].
  - intros w1 w2 w3 ((e1 & F1 & E1) & ? & ? & ? & ?) ((e2 & F2 & E2) & ? & ? & ? & ?). split; [|repeat split; [congruence..|lia]].
    exists (e2 ++ e1). split; [by apply Forall_app|]. by rewrite E2, E1, app_assoc.
Qed.

#[export] Instance grows_preorder : PreOrder grows.
Proof.
  split.
  - intros w. split; [by exists []|done].
  - intros w1 w2 w3 ((e1 & E1) & ? & ? & ?) ((e2 & E2) & ? & ? & ?). split; [|repeat split; [congruence..|lia]].
    exists (e2 ++ e1). by rewrite E2, E1, app_assoc.
Qed.

#[export] Instance R_preorder i : PreOrder (R i).
Proof.
  split.
  - intros w. split; [done|by destruct i].
  - intros w1 w2 w3 [H1 S1] [H2 S2]. split; [by etrans|]. destruct i as [ch|]; [|done].
    destruct S1, S2. split; congruence.
Qed.

Lemma quiet_grows w w1 : quiet w w1 → grows w w1.
Proof. intros ((es & _ & ?) & ? & ? & _ & ?). split; [by exists es|done]. Qed.
Lemma quiet_lane ch w w1 : quiet w w1 → same_lane ch w w1.
Proof. intros ((es & ? & E) & _ & _ & El & _). split; [unfold lane_of; by rewrite El|]. rewrite E. by apply log_silent. Qed.
Lemma quiet_R i w w1 : quiet w w1 → R i w w1.
Proof. intros H. split; [by apply quiet_grows|]. destruct i; [by apply quiet_lane|done]. Qed.
Lemma quiet_G i w w1 : quiet w w1 → G i w w1.
Proof. intros H. split; [by apply quiet_grows|]. intros ch _. by apply quiet_lane. Qed.

Lemma apart i j w w1 : i ≠ j → G i w w1 → R j w w1.
Proof. intros Hij [H HG]. split; [done|]. destruct j as [ch|]; [by apply HG|done]. Qed.

Lemma quiet_ask w : quiet w (ask_one w).
Proof. split; [by exists []|]. repeat split; cbn; lia. Qed.
Lemma quiet_happened es w : Forall silent es → quiet w (happened es w).
Proof. intros H. split; [by exists es|done]. Qed.
Lemma quiet_rows x n w : quiet w (set_rows x n w).
Proof. split; [by exists []|done]. Qed.
Lemma quiet_pending x n w : quiet w (set_pending x n w).
Proof. split; [by exists []|done]. Qed.
Lemma quiet_pruned w : quiet w (set_pruned w).
Proof. split; [by exists []|done]. Qed.

Lemma ended_later w w1 k n a : grows w w1 → ended (trace w) (life w) k n a → ended (trace w1) (life w1) k n a.
Proof. intros ((es & ->) & _ & -> & _). apply ended_grows. Qed.
Lemma in_later w w1 e : grows w w1 → e ∈ trace w → e ∈ trace w1.
Proof. intros ((es & ->) & _). intros ?. apply elem_of_app. by right. Qed.
Lemma key_later w w1 i : grows w w1 → key_of w1 i = key_of w i.
Proof. intros (_ & _ & E & _). unfold key_of. by rewrite E. Qed.

(** ** What each change of the copies keeps *)

(** A copy of an alert that ended or a number no copy has. *)
Definition over (w : World) (i : Z) : Prop :=
  ∀ n a, ECopy (key_of w i) n a ∈ trace w → ended (trace w) (life w) (key_of w i) n a.

Lemma over_later w w1 i n a : Copies w1 → grows w w1 → ECopy (key_of w i) n a ∈ trace w →
  ended (trace w) (life w) (key_of w i) n a → over w1 i.
Proof.
  intros HC Hg Hin He n' a' Hin'. rewrite (key_later w w1) in * by done.
  destruct (c_once _ _ _ _ _ _ _ HC _ n a n' a' (in_later _ _ _ Hg Hin) Hin') as [<- <-]. by apply (ended_later w).
Qed.

Lemma Copies_forget w i : Copies w → over w i → Copies (forget i w) ∧ quiet w (forget i w).
Proof.
  intros HC Ho. unfold forget, over, key_of in *. destruct (0 <? i).
  - split; [|apply quiet_rows]. unfold Copies; cbn. apply copies_filter_rows; [done|].
    intros s Hs E. destruct (decide (s_id s = i)) as [<-|]; [|done]. by apply Ho, (c_rows _ _ _ _ _ _ _ HC).
  - split; [|apply quiet_pending]. unfold Copies; cbn. apply copies_filter_pending; [done|].
    intros d n Hd Hn E. destruct (decide (id d = i)) as [<-|]; [|done].
    destruct (c_pending _ _ _ _ _ _ _ HC d Hd) as (_ & n' & Hn' & ?). simplify_eq. by apply Ho.
Qed.

Lemma Copies_postpone w i t : Copies w → Copies (postpone i t w) ∧ quiet w (postpone i t w).
Proof.
  intros HC. unfold postpone. destruct (0 <? i).
  - split; [|apply quiet_rows]. unfold Copies; cbn. eapply copies_kept; [exact HC| |by intros d; exists d|].
    + intros s' (s & -> & Hs)%list_elem_of_fmap. exists s. by destruct (s_id s =? i).
    + intros k n a _ [(s & Hs & -> & <- & <-)|?]; [|by left; right]. left. left.
      exists (if s_id s =? i then mkStored (s_id s) (s_name s) (s_alert s) (s_attempts s + 1) (milli t) (s_rank s) else s).
      split; [apply list_elem_of_fmap; by exists s|]. by destruct (s_id s =? i).
  - split; [|apply quiet_pending]. unfold Copies; cbn. eapply copies_kept; [exact HC|by intros s; exists s| |].
    + intros d' (d & -> & Hd)%list_elem_of_fmap. exists d. by destruct (id d =? i).
    + intros k n a _ [?|(d & Hd & -> & Hn & <-)]; [by left; left|]. left. right.
      exists (if id d =? i then mkDelivery (id d) (channel d) (alert d) (attempts d + 1) t else d).
      split; [apply list_elem_of_fmap; by exists d|]. by destruct (id d =? i).
Qed.

(** Every one of these names got a copy of the alert. *)
Definition copied (a : Alert) (names : list string) (w : World) : Prop := ∀ n, n ∈ names → ∃ k, ECopy k n a ∈ trace w.

Lemma copied_later a names w w1 : grows w w1 → copied a names w → copied a names w1.
Proof. intros Hg H n Hn. destruct (H n Hn) as [k ?]. exists k. by apply (in_later w). Qed.

Lemma Copies_insert_rows a names ms w : Copies w →
  Copies (insert_rows a names ms w) ∧ quiet w (insert_rows a names ms w) ∧ copied a names (insert_rows a names ms w).
Proof.
  revert w. induction names as [|name names IH]; intros w HC; cbn [insert_rows]; [by split; [|split; [|intros n ?%elem_of_nil]]|].
  set (w1 := happened _ _). assert (H1 : Copies w1).
  { exact (copies_row _ _ _ _ _ _ _ (mkStored (serial w) name a 0 ms (rank (Severity a))) HC eq_refl). }
  assert (Hq : quiet w w1) by (unfold w1; etrans; [apply quiet_rows|apply quiet_happened; by repeat constructor]).
  destruct (IH w1 H1) as (H2 & Hq2 & Hc). split; [done|]. split; [by etrans|].
  intros n [->|Hn]%elem_of_cons; [|by apply Hc]. exists (0%nat, serial w). apply (in_later w1); [by apply quiet_grows|]. by left.
Qed.

Lemma Copies_add_pending env c a chs w : Copies w → cfg w = c → Forall (λ ch, ch < length (Channels c))%nat chs →
  let w1 := add_pending env c a chs w in Copies w1 ∧ quiet w w1 ∧ copied a (map (channelName c) chs) w1.
Proof.
  revert w. induction chs as [|ch chs IH]; intros w HC Hcfg Hchs; cbn [add_pending]; [by split; [|split; [|intros n ?%elem_of_nil]]|].
  apply Forall_cons in Hchs as [Hch Hchs]. cbv zeta.
  set (w0 := set_pending _ _ w). set (w1 := ask_one (happened _ w0)).
  assert (Hn : Channels (cfg w) !! ch = Some (channelName c ch)).
  { rewrite Hcfg. unfold channelName. destruct (lookup_lt_is_Some_2 (Channels c) ch Hch) as [n ->]. done. }
  assert (H1 : Copies w1).
  { exact (copies_memory _ _ _ _ _ _ _ (mkDelivery (nextID w - 1) ch a 0 (now env (asked w))) _ HC eq_refl Hn). }
  assert (Hq : quiet w w1).
  { transitivity w0; [apply quiet_pending|]. transitivity (happened [ECopy (life w, nextID w - 1) (channelName c ch) a] w0); [|apply quiet_ask].
    apply quiet_happened. by repeat constructor. }
  destruct (IH w1 H1) as (H2 & Hq2 & Hc); [done..|]. split; [done|]. split; [by etrans|].
  intros n [->|Hn']%elem_of_cons; [|by apply Hc]. exists (life w, nextID w - 1). apply (in_later w1); [by apply quiet_grows|]. by left.
Qed.

Lemma Copies_put_memory env c a chs w : Copies w → cfg w = c → Forall (λ ch, ch < length (Channels c))%nat chs →
  let w1 := put_memory env c a chs w in Copies w1 ∧ quiet w w1 ∧ copied a (map (channelName c) chs) w1.
Proof.
  intros HC Hcfg Hchs. destruct (Copies_add_pending env c a chs w HC Hcfg Hchs) as (H1 & Hq1 & Hc). unfold put_memory.
  set (w1 := add_pending env c a chs w) in *.
  pose proof (shrink_split ranks (Z.to_nat (Z.of_nat (length (pending w1)) - maxPending)) (pending w1)) as Hs.
  pose proof (shrink_full (pending w1)) as Hfull. destruct (shrink _ _ _) as [kept dropped]. cbv zeta.
  assert (Hq2 : quiet w1 (happened (map (λ d, EFull (map alert kept) (life w1, id d)) dropped) (set_pending kept (nextID w1) w1))).
  { etrans; [apply quiet_pending|]. apply quiet_happened, Forall_forall. by intros e (d & -> & _)%list_elem_of_fmap. }
  split; [|split; [by etrans|by apply (copied_later _ _ w1); [apply quiet_grows|]]].
  unfold Copies; cbn. eapply copies_kept; [apply copies_events; [|exact H1]|by intros s; exists s| |].
  - apply Forall_forall. by intros e (d & -> & _)%list_elem_of_fmap.
  - intros d Hd. exists d. split; [|done]. rewrite <- Hs. apply elem_of_app. by left.
  - intros k n b _ [?|(d & Hd & -> & Hn & <-)]; [by left; left|].
    rewrite <- Hs in Hd. apply elem_of_app in Hd as [Hd|Hd]; [left; right; by exists d|]. right.
    destruct (Hfull d Hd) as [Hl Hr]. eapply (Ended_full _ _ _ _ _ (map alert kept)); [|by rewrite length_map|exact Hr].
    apply elem_of_app. left. apply list_elem_of_fmap. by exists d.
Qed.

Lemma Copies_quiet_events es w : Copies w → Forall plain es → Forall silent es → Copies (happened es w) ∧ quiet w (happened es w).
Proof. intros HC Hp Hs. split; [|by apply quiet_happened]. by apply copies_events. Qed.

Lemma Copies_prune_rows c w : Copies w → Copies (prune_rows c w) ∧ quiet w (prune_rows c w).
Proof.
  intros HC. unfold prune_rows. set (es := map _ _).
  assert (Forall plain es ∧ Forall silent es) as [Hes1 Hes2].
  { split; apply Forall_forall; intros e He; apply list_elem_of_fmap in He as (d & -> & _); done. }
  split; [|etrans; [apply quiet_rows|by apply quiet_happened]].
  unfold Copies; cbn. apply copies_filter_rows; [by apply copies_events|]. intros s Hs Hn. apply (Ended_pruned _ _ _ _ _ (Channels c)); [|done].
  apply elem_of_app. left. apply list_elem_of_fmap. exists s. split; [done|]. by apply list_elem_of_filter.
Qed.

Lemma Copies_drop_rows ids w : Copies w → (∀ i, i ∈ ids → 0 < i ∧ over w i) → Copies (drop_rows ids w) ∧ quiet w (drop_rows ids w).
Proof.
  intros HC Ho. split; [|apply quiet_rows]. unfold Copies; cbn. apply copies_filter_rows; [done|].
  intros s Hs Hin. destruct (decide (s_id s ∈ ids)) as [Hi|]; [|done]. destruct (Ho _ Hi) as [Hp Ho'].
  unfold over, key_of in Ho'. replace (0 <? s_id s) with true in Ho' by lia. by apply Ho', (c_rows _ _ _ _ _ _ _ HC).
Qed.

Lemma Copies_drop_memory ds w : Copies w → (∀ d, d ∈ ds → over w (id d)) →
  Copies (drop_memory ds w) ∧ quiet w (drop_memory ds w).
Proof.
  intros HC Ho. split; [|apply quiet_pending]. unfold Copies; cbn. apply copies_filter_pending; [done|].
  intros d n Hd Hn Hin. destruct (decide (id d ∈ id <$> filter (λ x, id x <= 0) ds)) as [Hi|]; [|done].
  apply list_elem_of_fmap in Hi as (d' & Ed & [Hneg Hd']%list_elem_of_filter). specialize (Ho d' Hd').
  unfold over, key_of in Ho. rewrite <- Ed in Ho, Hneg. replace (0 <? id d) with false in Ho by lia.
  destruct (c_pending _ _ _ _ _ _ _ HC d Hd) as (_ & n' & Hn' & ?). simplify_eq. by apply Ho.
Qed.

(** ** Safety of the programs *)

Lemma quiet_Timing env w w1 : quiet w w1 → Timing env w → Timing env w1.
Proof.
  intros Hq [A B]. pose proof Hq as (_ & Ec & _ & _ & Hk).
  assert (Hlog : ∀ ch, log ch (trace w1) = log ch (trace w)) by (intros ch; by apply quiet_lane).
  split; [intros ch; rewrite Ec, Hlog; apply A|]. intros ch e n. rewrite Hlog. intros He Hn. apply (B ch e n); [done|lia].
Qed.

Lemma R_cfg i w w1 : R i w w1 → cfg w1 = cfg w.
Proof. by intros [(_ & ? & _) _]. Qed.
Lemma R_grows i w w1 : R i w w1 → grows w w1.
Proof. by intros [? _]. Qed.

(** A copy that ended, which may be taken out. *)
Definition gone (w : World) (d : delivery) : Prop :=
  ∃ n, ECopy (key_of w (id d)) n (alert d) ∈ trace w ∧ ended (trace w) (life w) (key_of w (id d)) n (alert d).

Lemma gone_later w w1 d : grows w w1 → gone w d → gone w1 d.
Proof.
  intros Hg (n & Hin & He). exists n. rewrite (key_later w) by done. split; [by apply (in_later w)|by apply (ended_later w)].
Qed.

Lemma gone_over w d : Copies w → gone w d → over w (id d).
Proof. intros HC (n & Hin & He). by apply (over_later w w _ n (alert d)). Qed.

Section safety.
Context (env : Env) (c : Config) (i : thread).
Abbreviation keeps := (safe (Inv env) (R i) (G i)).
Abbreviation Inv := (Inv env).

Lemma Inv_quiet w w1 : Inv w → Copies w1 → quiet w w1 → Inv w1.
Proof. intros [_ HT] HC Hq. split; [done|by apply (quiet_Timing env w)]. Qed.

(** An action that concerns no lane. *)
Lemma safe_quiet {X B} (P : B → World → Prop) (f : World → World * X) (k : X → prog World B) w :
  (∀ w1, R i w w1 → Inv w1 → Copies (f w1).1 ∧ quiet w1 (f w1).1) →
  (∀ w1, R i w w1 → Inv w1 → Inv (f w1).1 → R i w (f w1).1 → keeps P (k (f w1).2) (f w1).1) → keeps P (act f ≫= k) w.
Proof.
  intros Hf Hk w1 HR HI. destruct (Hf w1 HR HI) as [HC Hq]. assert (HI1 : Inv (f w1).1) by by apply (Inv_quiet w1).
  split; [done|]. split; [by apply quiet_G|]. apply Hk; [done..|]. etrans; [done|by apply quiet_R].
Qed.

(** The last action of a program. *)
Lemma safe_last {X} (P : X → World → Prop) (f : World → World * X) w :
  (∀ w1, R i w w1 → Inv w1 → Copies (f w1).1 ∧ quiet w1 (f w1).1) →
  (∀ w1 w2, R i w w1 → Inv w1 → R i (f w1).1 w2 → P (f w1).2 w2) → keeps P (act f) w.
Proof.
  intros Hf HP. change (act f) with (act f ≫= mret). apply safe_quiet; [done|]. intros w1 HR HI _ _.
  apply safe_ret. intros w2 HR2 _. by apply HP.
Qed.

Lemma safe_clock {B} (P : B → World → Prop) (k : Z → prog World B) w :
  (∀ t w1, R i w w1 → Inv w1 → (∃ w0, Inv w0 ∧ t = now env (asked w0) ∧ w1 = ask_one w0) → keeps P (k t) w1) → keeps P (clock env ≫= k) w.
Proof.
  intros Hk. apply safe_quiet; [intros w1 _ [HC _]; split; [exact HC|apply quiet_ask]|].
  intros w1 HR HI HI1 HR1. apply Hk; [done..|]. by exists w1.
Qed.

Lemma safe_get {X B} (P : B → World → Prop) (f : World → X) (k : X → prog World B) w :
  (∀ w1, R i w w1 → Inv w1 → keeps P (k (f w1)) w1) → keeps P (get f ≫= k) w.
Proof. intros Hk. apply safe_quiet; [by intros w1 _ [HC _]|]. intros w1 HR HI _ _. by apply Hk. Qed.

Lemma safe_modify {B} (P : B → World → Prop) (f : World → World) (k : unit → prog World B) w :
  (∀ w1, R i w w1 → Inv w1 → Copies (f w1) ∧ quiet w1 (f w1)) →
  (∀ w1, R i w w1 → Inv w1 → Inv (f w1) → R i w (f w1) → keeps P (k tt) (f w1)) → keeps P (modify f ≫= k) w.
Proof. intros Hf Hk. by apply safe_quiet. Qed.

(** A statement of the database, reported or not. *)
Lemma safe_sql {A B} (P : B → World → Prop) (f : World → World * A) (k : option A → prog World B) w :
  (∀ w1, R i w w1 → Inv w1 → Copies (f w1).1 ∧ quiet w1 (f w1).1) →
  (∀ w1 w2, R i w w1 → Inv w1 → R i w w2 → Inv w2 → grows (f w1).1 w2 → keeps P (k (Some (f w1).2)) w2) →
  (∀ w2, R i w w2 → Inv w2 → keeps P (k None) w2) → keeps P (sql env f ≫= k) w.
Proof.
  intros Hf Hs Hn. apply safe_quiet.
  - intros w1 HR HI. destruct (Hf w1 HR HI) as [HC Hq]. destruct (db env (asked w1)); [destruct (f w1) as [w2 a]| |]; cbn in *.
    + split; [exact HC|]. etrans; [exact Hq|apply quiet_ask].
    + split; [exact (proj1 HI)|apply quiet_ask].
    + split; [exact HC|]. etrans; [exact Hq|apply quiet_ask].
  - intros w1 HR HI HI1 HR1. specialize (Hs w1). destruct (db env (asked w1)); [destruct (f w1) as [w2 a]| |]; cbn in *; [|by apply Hn..].
    apply Hs; [done..|]. apply quiet_grows, quiet_ask.
Qed.

Lemma safe_done d w : gone w d → keeps (λ _ w1, R i w w1) (done env d) w.
Proof.
  intros Hg. assert (Hf : ∀ w1, R i w w1 → Inv w1 → Copies (forget (id d) w1) ∧ quiet w1 (forget (id d) w1)).
  { intros w1 HR [HC _]. apply Copies_forget, gone_over; [done..|]. by apply (gone_later w), Hg; apply (R_grows i). }
  unfold done. destruct (0 <? id d).
  - apply safe_sql; [done|..]; intros; apply safe_ret; intros; by etrans.
  - apply safe_last; [done|]. intros w1 w2 HR HI HR2. etrans; [done|]. etrans; [|exact HR2]. by apply quiet_R, Hf.
Qed.

Lemma safe_dones ds w : (∀ d, d ∈ ds → gone w d) → keeps (λ _ w1, R i w w1) (each (done env) ds) w.
Proof.
  intros Hg. apply (safe_each _ _ _ (R i w)); [by intros; etrans| |done]. intros d w1 Hd HR.
  eapply safe_mono; [apply safe_done, (gone_later w), Hg; [by apply (R_grows i)|done]|]. intros u w2 _ ?. by etrans.
Qed.

Lemma safe_retry d t w : keeps (λ _ w1, R i w w1) (retry env d t) w.
Proof.
  assert (Hf : ∀ w1, R i w w1 → Inv w1 → Copies (postpone (id d) t w1) ∧ quiet w1 (postpone (id d) t w1)).
  { intros w1 _ [HC _]. by apply Copies_postpone. }
  unfold retry. destruct (0 <? id d).
  - apply safe_sql; [done|..]; intros; apply safe_ret; intros; by etrans.
  - apply safe_last; [done|]. intros w1 w2 HR HI HR2. etrans; [done|]. etrans; [|exact HR2]. by apply quiet_R, Hf.
Qed.

Lemma safe_retries (f : delivery → Z) ds w : keeps (λ _ w1, R i w w1) (each (λ d, retry env d (f d)) ds) w.
Proof.
  apply (safe_each _ _ _ (R i w)); [by intros; etrans| |done]. intros d w1 _ HR.
  eapply safe_mono; [apply safe_retry|]. intros u w2 _ ?. by etrans.
Qed.

Lemma safe_putMemory a chs w : cfg w = c → Forall (λ ch, ch < length (Channels c))%nat chs →
  keeps (λ _ w1, R i w w1 ∧ copied a (map (channelName c) chs) w1) (putMemory env c a chs) w.
Proof.
  intros Hc Hchs.
  assert (Hf : ∀ w1, R i w w1 → Inv w1 → let w2 := put_memory env c a chs w1 in
    Copies w2 ∧ quiet w1 w2 ∧ copied a (map (channelName c) chs) w2).
  { intros w1 HR [HC _]. apply Copies_put_memory; [done| |done]. by rewrite (R_cfg i w). }
  apply safe_last; [intros w1 HR HI; by destruct (Hf w1 HR HI) as (? & ? & _)|].
  intros w1 w2 HR HI HR2. destruct (Hf w1 HR HI) as (_ & Hq & Hcp).
  split; [|by apply (copied_later _ _ (put_memory env c a chs w1)); [apply (R_grows i)|]].
  etrans; [done|]. etrans; [|exact HR2]. by apply quiet_R.
Qed.

Lemma safe_putTo a chs w : cfg w = c → Forall (λ ch, ch < length (Channels c))%nat chs →
  keeps (λ _ w1, R i w w1 ∧ copied a (map (channelName c) chs) w1) (putTo env c a chs) w.
Proof.
  intros Hc Hchs. unfold putTo. destruct (Store c); [|by apply safe_putMemory].
  apply safe_clock. intros t w1 HR1 _ _. apply safe_sql.
  - intros w2 _ [HC _]. by destruct (Copies_insert_rows a (map (channelName c) chs) (milli t) w2 HC) as (? & ? & _).
  - intros w2 w3 HR2 [HC2 _] HR3 _ Hg. cbn [fst snd]. apply safe_ret. intros w4 HR4 _. split; [etrans; [done|by etrans]|].
    eapply copied_later; [by apply (R_grows i)|]. eapply copied_later; [exact Hg|]. by apply Copies_insert_rows.
  - intros w2 HR2 _. assert (R i w w2) by by etrans. eapply safe_mono; [apply safe_putMemory; [by rewrite (R_cfg i w)|done]|].
    intros u w3 _ [? ?]. split; [by etrans|done].
Qed.

Lemma all_names : map (channelName c) (seq 0 (length (Channels c))) = Channels c.
Proof.
  apply list_eq. intros n. rewrite list_lookup_fmap. destruct (decide (n < length (Channels c))%nat) as [H|H].
  - rewrite lookup_seq_lt by done. cbn. unfold channelName. by destruct (lookup_lt_is_Some_2 (Channels c) n H) as [x ->].
  - rewrite lookup_seq_ge by lia. cbn. symmetry. apply lookup_ge_None. lia.
Qed.

Lemma all_below : Forall (λ ch, ch < length (Channels c))%nat (seq 0 (length (Channels c))).
Proof. apply Forall_forall. intros n Hn. apply elem_of_seq in Hn. lia. Qed.

Lemma copies_put_event w a ns : Copies w → copied a ns w → Copies (happened [EPut a ns] w).
Proof.
  intros [A B C D E F O I P] Hc. unfold Copies; cbn.
  assert (Hin : ∀ k n b, ECopy k n b ∈ EPut a ns :: trace w → ECopy k n b ∈ trace w) by (intros k n b [?|?]%elem_of_cons; done).
  split; [done..| | | | | |].
  - intros s Hs. destruct (D s Hs). split; [done|by right].
  - intros d Hd. destruct (E d Hd) as (? & n & ? & ?). split; [done|]. exists n. split; [done|by right].
  - intros k n b Hk. by apply (F k n b), Hin.
  - intros k n b n' b' Hk Hk'. by apply (O k n b n' b'); apply Hin.
  - intros k n b Hk. destruct (I k n b) as [?|?]; [by apply Hin|by left|right; by apply (ended_grows _ [_])].
  - intros b ns' [[= -> ->]|Hp]%elem_of_cons n Hn.
    + destruct (Hc n Hn) as [k ?]. exists k. by right.
    + destruct (P b ns' Hp n Hn) as [k ?]. exists k. by right.
Qed.

Lemma safe_Put a w : cfg w = c → keeps (λ _ _, True) (Put env c a) w.
Proof.
  intros Hc. unfold Put. apply (safe_bind _ _ _). eapply safe_mono; [apply safe_putTo; [done|apply all_below]|].
  intros u w1 _ [HR Hcp]. rewrite all_names in Hcp. apply safe_last; [|done].
  intros w2 HR2 [HC2 _]. split; [|apply quiet_happened; by repeat constructor].
  apply copies_put_event; [done|]. by apply (copied_later _ _ w1); [apply (R_grows i)|].
Qed.

Lemma safe_prune w : keeps (λ _ _, True) (prune env c) w.
Proof.
  unfold prune. apply safe_quiet; [intros w1 _ [HC _]; split; [exact HC|apply quiet_pruned]|].
  intros w1 _ _ _ _. cbn [snd fst]. destruct (pruned w1 || negb (Store c)); [by apply safe_ret|].
  apply safe_sql; [intros w2 _ [HC _]; by apply Copies_prune_rows|..]; intros; by apply safe_ret.
Qed.

(** ** The other channels *)
Definition others (ch : nat) : list nat := filter (λ j, j ≠ ch) (seq 0 (length (Channels c))).

Lemma others_below ch : Forall (λ j, j < length (Channels c))%nat (others ch).
Proof. apply Forall_forall. intros n [_ Hn]%list_elem_of_filter. apply elem_of_seq in Hn. lia. Qed.

Lemma safe_reroute a ch status ds w : cfg w = c →
  (∀ w1, grows w w1 → copied (rerouted_alert a (channelName c ch) status) (map (channelName c) (others ch)) w1 → ∀ d, d ∈ ds → gone w1 d) →
  keeps (λ _ w1, R i w w1) (reroute env c a ch status ds) w.
Proof.
  intros Hc Hgone. unfold reroute. fold (others ch). set (a' := rerouted_alert a (channelName c ch) status) in *.
  assert (Hmem : ∀ w1, R i w w1 → keeps (λ _ w2, R i w w2)
    (_ ← (if bool_decide (others ch = []) then mret tt else putMemory env c a' (others ch)); each (done env) ds) w1).
  { intros w1 HR1. assert (Hc1 : cfg w1 = c) by by rewrite (R_cfg i w).
    assert (Hdones : ∀ w2, R i w1 w2 → copied a' (map (channelName c) (others ch)) w2 → keeps (λ _ w3, R i w w3) (each (done env) ds) w2).
    { intros w2 HR2 Hcp. eapply safe_mono; [apply safe_dones, Hgone; [|done]; apply (R_grows i); by etrans|].
      intros u w3 _ ?. etrans; [done|by etrans]. }
    apply (safe_bind _ _ _). case_bool_decide as E.
    - apply safe_ret. intros w2 HR2 HI2. apply Hdones; [done|]. rewrite E. by intros n ?%elem_of_nil.
    - eapply safe_mono; [apply safe_putMemory; [done|apply others_below]|]. intros u w2 _ [HR2 Hcp]. by apply Hdones. }
  destruct (Store c && negb (bool_decide (others ch = []))); [|by apply Hmem].
  apply safe_clock. intros t w1 HR1 _ _.
  set (ids := filter (λ j, 0 < j) (id <$> ds)).
  assert (Hf : ∀ w2, R i w1 w2 → Inv w2 → let w3 := insert_rows a' (map (channelName c) (others ch)) (milli t) w2 in
    Copies (drop_rows ids w3) ∧ quiet w2 (drop_rows ids w3) ∧ ∀ d, d ∈ ds → gone (drop_rows ids w3) d).
  { intros w2 HR2 [HC2 _]. destruct (Copies_insert_rows a' (map (channelName c) (others ch)) (milli t) w2 HC2) as (HC3 & Hq3 & Hcp).
    cbv zeta. set (w3 := insert_rows _ _ _ w2) in *.
    assert (Hg3 : ∀ d, d ∈ ds → gone w3 d).
    { apply Hgone; [|done]. etrans; [by apply (R_grows i); etrans|by apply quiet_grows]. }
    destruct (Copies_drop_rows ids w3 HC3) as [HC4 Hq4].
    { intros j [Hj (d & -> & Hd)%list_elem_of_fmap]%list_elem_of_filter. split; [done|]. by apply gone_over, Hg3. }
    split; [done|]. split; [by etrans|]. intros d Hd. apply (gone_later w3); [by apply quiet_grows|by apply Hg3]. }
  apply safe_sql.
  - intros w2 HR2 HI2. by destruct (Hf w2 HR2 HI2) as (? & ? & _).
  - intros w2 w3 HR2 HI2 HR3 _ Hg3. cbn [fst snd]. destruct (Hf w2 HR2 HI2) as (_ & _ & Hd). apply safe_last.
    + intros w4 HR4 [HC4 _]. apply Copies_drop_memory; [done|]. intros d Hin. apply gone_over; [done|].
      apply (gone_later w3); [by apply (R_grows i)|]. by apply (gone_later _ _ _ Hg3), Hd.
    + intros w4 w5 HR4 HI4 HR5. etrans; [exact HR1|]. etrans; [exact HR3|]. etrans; [exact HR4|]. etrans; [|exact HR5]. apply quiet_R, quiet_pending.
  - intros w2 HR2 _. apply Hmem. by etrans.
Qed.

(** ** The copies due *)

(** A copy of the channel. *)
Definition known (ch : nat) (w : World) (d : delivery) : Prop :=
  ECopy (key_of w (id d)) (channelName c ch) (alert d) ∈ trace w.

Lemma known_later ch w w1 d : grows w w1 → known ch w d → known ch w1 d.
Proof. intros Hg H. unfold known. rewrite (key_later w) by done. by apply (in_later w). Qed.

Lemma by_rank_subset {A} (f : A → Z) (l : list A) x : x ∈ by_rank f l → x ∈ l.
Proof. unfold by_rank. intros [Hx|[Hx|Hx]%elem_of_app]%elem_of_app; by apply list_elem_of_filter in Hx as [_ ?]. Qed.

Lemma take_subset {A} n (l : list A) x : x ∈ take n l → x ∈ l.
Proof. intros H. rewrite <- (take_drop n l). apply elem_of_app. by left. Qed.

Lemma due_rows_known ch t w d : Copies w → cfg w = c → d ∈ due_rows c ch t w → known ch w d.
Proof.
  intros HC Hc Hd. apply list_elem_of_fmap in Hd as (s & -> & Hs%take_subset%by_rank_subset).
  apply list_elem_of_filter in Hs as [[Hn _] Hs]. destruct (c_rows _ _ _ _ _ _ _ HC s Hs) as [Hid Hin].
  unfold known, key_of; cbn. replace (0 <? s_id s) with true by lia. by rewrite <- Hn.
Qed.

Lemma pending_known ch w d : Copies w → cfg w = c → d ∈ pending w → channel d = ch → known ch w d.
Proof.
  intros HC Hc Hd Hch. destruct (c_pending _ _ _ _ _ _ _ HC d Hd) as (Hid & n & Hn & Hin).
  unfold known, key_of, channelName. replace (0 <? id d) with false by lia. rewrite <- Hc, <- Hch, Hn. done.
Qed.

Lemma safe_due ch t w : cfg w = c → keeps (λ ds w1, R i w w1 ∧ ∀ d, d ∈ ds → known ch w1 d) (due env c ch t) w.
Proof.
  intros Hc. unfold due.
  assert (Hrest : ∀ stored w1, R i w w1 → (∀ d, d ∈ default [] stored → known ch w1 d) →
    keeps (λ ds w1, R i w w1 ∧ ∀ d, d ∈ ds → known ch w1 d)
      (waiting ← get (λ w, filter (λ d, channel d = ch ∧ next d <= t) (pending w));
       mret (take (2 * laneBatch) (by_rank (λ d, rank (Severity (alert d))) (default [] stored ++ waiting)))) w1).
  { intros stored w1 HR1 Hst. apply safe_get. intros w2 HR2 [HC2 _]. apply safe_ret. intros w3 HR3 _.
    assert (HR13 : R i w1 w3) by by etrans. split; [by etrans|].
    intros d [Hd|Hd]%take_subset%by_rank_subset%elem_of_app; [apply (known_later _ w1); [by apply (R_grows i)|by apply Hst]|].
    apply list_elem_of_filter in Hd as [[Hch _] Hd]. apply (known_later _ w2); [by apply (R_grows i)|].
    apply pending_known; [done| |done|done]. rewrite (R_cfg i w); [done|by etrans]. }
  apply (safe_bind _ _ _). destruct (Store c).
  - change (sql env ?f) with (sql env f ≫= mret). apply safe_sql; [by intros w1 _ [HC _]|..].
    + intros w1 w2 HR1 [HC1 _] HR2 _ Hg. cbn [fst snd] in *. apply safe_ret. intros w3 HR3 _. apply Hrest; [by etrans|].
      intros d Hd. apply (known_later _ w1); [etrans; [done|by apply (R_grows i)]|].
      apply due_rows_known with t; [done| |done]. by rewrite (R_cfg i w).
    + intros w2 HR2 _. apply safe_ret. intros w3 HR3 _. apply Hrest; [by etrans|]. by intros d ?%elem_of_nil.
  - apply safe_ret. intros w1 HR1 _. apply Hrest; [done|]. by intros d ?%elem_of_nil.
Qed.

End safety.

(** ** Safety of a pass *)

Section lane.
Context (env : Env) (c : Config) (ch : nat).
Hypothesis clock_forward : ∀ n m, (n ≤ m)%nat → now env n <= now env m.
Abbreviation keeps := (safe (Inv env) (R (inl ch)) (G (inl ch))).
Abbreviation Inv := (Inv env).

(** What the pass knows of its lane: its state, its log, and that the pass's time is no later than the clock. *)
Record at_lane (t : Z) (l : lane) (es : list entry) (w : World) : Prop := mkAt {
  al_cfg : cfg w = c; al_lane : lane_of ch w = l; al_log : log ch (trace w) = es;
  al_past : ∀ x, x ∈ es → e_time x <= t;
  al_time : ∀ n, (asked w ≤ n)%nat → t <= now env n }.

Lemma at_lane_stable t l es w w1 : at_lane t l es w → R (inl ch) w w1 → at_lane t l es w1.
Proof.
  intros [A B C D E] [(_ & Hc & _ & Hk) [Hl Hg]]. split; [congruence..|done|]. intros n Hn. apply E. lia.
Qed.

(** A section under the lock on the lane. *)
Lemma safe_lane {X B} (P : B → World → Prop) (f : lane → lane) (g : lane → X) (k : X → prog World B) w t l es :
  at_lane t l es w →
  (∀ w1, grows w w1 → Inv w1 → at_lane t (f l) es w1 → keeps P (k (g l)) w1) →
  keeps P (act (λ w, (set_lane ch (f (lane_of ch w)) w, g (lane_of ch w))) ≫= k) w.
Proof.
  intros Hal Hk w1 HR [HC [HT1 HT2]]. pose proof (at_lane_stable _ _ _ _ _ Hal HR) as [A B0 C D E]. cbn [fst snd].
  assert (HI : Inv (set_lane ch (f (lane_of ch w1)) w1)) by (split; [exact HC|by split]).
  split; [done|]. split.
  - split; [by split; [exists []|]|]. intros ch' Hch. split; [|done]. unfold lane_of; cbn.
    rewrite lookup_insert_ne by congruence. done.
  - rewrite B0. apply Hk; [|by rewrite <- B0|].
    + etrans; [by apply (R_grows (inl ch))|]. by split; [exists []|].
    + split; [done| |done..]. unfold lane_of; cbn. by rewrite lookup_insert_eq.
Qed.

Lemma safe_on_lane {B} (P : B → World → Prop) (f : lane → lane) (k : unit → prog World B) w t l es :
  at_lane t l es w → (∀ w1, grows w w1 → Inv w1 → at_lane t (f l) es w1 → keeps P (k tt) w1) → keeps P (on_lane ch f ≫= k) w.
Proof. intros Hal Hk. exact (safe_lane P f (λ _, tt) k w t l es Hal Hk). Qed.

(** A message may be sent: the lane does not rest, and a digest is due. *)
Definition ready (t : Z) (a : option Alert) (es : list entry) : Prop :=
  before t (rest (replay c es)) = false ∧
  (match a with Some a => Severity a = Info | None => False end → before t (digestAt (replay c es)) = false).

Lemma Timing_entry w w1 t l es a r : Timing env w → at_lane t l es w → ready t a es →
  cfg w1 = cfg w → (asked w ≤ asked w1)%nat →
  (∀ ch', log ch' (trace w1) = if decide (ch' = ch) then mkEntry t a r :: es else log ch' (trace w)) → Timing env w1.
Proof.
  intros [T1 T2] [A B C D E] [R1 R2] Hc Hk Hlog. split.
  - intros ch'. rewrite Hlog, Hc. case_decide as E'; [subst ch'|apply T1]. cbn. rewrite A.
    split; [done|]. split; [done|]. split; [|rewrite <- A, <- C; apply T1].
    unfold informs; cbn. destruct a as [a|]; [|done]. by intros ?%String.eqb_eq%R2.
  - intros ch' e n. rewrite Hlog. case_decide as E'; [|intros ? ?; apply (T2 ch' e n); [done|lia]].
    intros [->|He]%elem_of_cons ?; [cbn; apply E; lia|]. rewrite <- C in He. apply (T2 ch e n); [done|lia].
Qed.

Lemma safe_send {B} (P : B → World → Prop) ds a (k : answer → prog World B) w t l es :
  at_lane t l es w → ready t (Some a) es →
  (∀ r w1, grows w w1 → Inv w1 → at_lane t l (mkEntry t (Some a) r :: es) w1 →
     ESend (Channels c) ch t (map (λ d, key_of w (id d)) ds) a r ∈ trace w1 → keeps P (k r) w1) →
  keeps P (send env c ch t ds a ≫= k) w.
Proof.
  intros Hal Hr Hk w1 HR [HC HT]. pose proof (at_lane_stable _ _ _ _ _ Hal HR) as Hal1.
  set (w2 := (happened [ESend (Channels c) ch t (map (λ d, key_of w1 (id d)) ds) a (Send env (asked w1) (channelName c ch) a)] (ask_one w1))).
  assert (Hlog : ∀ ch', log ch' (trace w2) = if decide (ch' = ch) then mkEntry t (Some a) (Send env (asked w1) (channelName c ch) a) :: es else log ch' (trace w1)).
  { intros ch'. cbn. destruct (decide (ch = ch')), (decide (ch' = ch)); subst; try done. by rewrite (al_log _ _ _ _ Hal1). }
  assert (HI : Inv w2).
  { split; [by apply copies_events; [repeat constructor|]|]. eapply Timing_entry; [exact HT|exact Hal1|exact Hr|done|cbn; lia|exact Hlog]. }
  assert (Hg : grows w1 w2) by (split; [by eexists [_]|repeat split; cbn; lia]).
  split; [done|]. split.
  - split; [done|]. intros ch' Hch. split; [done|]. cbn [fst]. fold w2. rewrite Hlog. case_decide; congruence.
  - cbn [fst snd]. fold w2. apply Hk; [etrans; [by apply (R_grows (inl ch))|done]|done| |].
    + destruct Hal1 as [A B0 C D E]. split; [done|done| | |].
      * rewrite Hlog. by case_decide.
      * intros x [->|Hx]%elem_of_cons; [done|by apply D].
      * intros n Hn. apply E. cbn in Hn. lia.
    + replace (map (λ d, key_of w (id d)) ds) with (map (λ d, key_of w1 (id d)) ds); [by left|].
      apply map_ext. intros d. apply key_later. by apply (R_grows (inl ch)).
Qed.

(** What the lane is after a message's answer is dealt with. *)
Definition handled (t : Z) (a : Alert) (l : lane) (es : list entry) (w : World) (go : bool) (w1 : World) : Prop :=
  ∃ r, let e := mkEntry t (Some a) r in
    grows w w1 ∧ at_lane t (outcome e l) (e :: es) w1 ∧ go = goes_on e (outcome e l).

(** The last section of an attempt. *)
Lemma safe_handled t a l es w w1 r f (go : bool) : let e := mkEntry t (Some a) r in
  grows w w1 → at_lane t (set_tried t l) (e :: es) w1 → f (set_tried t l) = outcome e l → go = goes_on e (outcome e l) →
  keeps (handled t a l es w) (_ ← on_lane ch f; mret go) w1.
Proof.
  intros e Hg Hal Hf Hgo. eapply safe_on_lane; [exact Hal|]. intros w2 Hg2 HI2 Hal2. apply safe_ret. intros w3 HR3 _.
  exists r. split; [etrans; [done|etrans; [done|by apply (R_grows (inl ch))]]|]. split; [|done].
  rewrite Hf in Hal2. by apply (at_lane_stable _ _ _ w2).
Qed.

Lemma safe_attempt ds a w t l es : at_lane t l es w → ready t (Some a) es →
  (∀ d, d ∈ ds → known c ch w d ∧ stands (alert d) a) → Channels c !! ch = Some (channelName c ch) →
  keeps (handled t a l es w) (attempt env c ch t ds a) w.
Proof.
  intros Hal Hr Hds Hch. unfold attempt. eapply safe_send; [exact Hal|exact Hr|]. intros r w1 Hg1 HI1 Hal1 Hin.
  eapply safe_on_lane; [exact Hal1|]. intros w2 Hg2 HI2 Hal2. clear HI1 HI2.
  assert (Hg : grows w w2) by by etrans.
  assert (Hgone : ∀ w3, grows w2 w3 → (∀ d, d ∈ ds → stands (alert d) a → ended (trace w3) (life w3) (key_of w (id d)) (channelName c ch) (alert d)) →
    ∀ d, d ∈ ds → gone w3 d).
  { intros w3 Hg3 He d Hd. destruct (Hds d Hd) as [Hk Hs]. exists (channelName c ch). rewrite (key_later w) by by etrans.
    split; [by apply (in_later w); [etrans|]|by apply He]. }
  assert (Hkey : ∀ d, d ∈ ds → key_of w (id d) ∈ map (λ d, key_of w (id d)) ds) by (intros d Hd; apply list_elem_of_fmap; by exists d).
  assert (Hin2 : ∀ w3, grows w2 w3 → ESend (Channels c) ch t (map (λ d, key_of w (id d)) ds) a r ∈ trace w3).
  { intros w3 Hg3. apply (in_later w1); [by etrans|done]. }
  assert (Hmid : ∀ f (go : bool) w3, R (inl ch) w2 w3 → f (set_tried t l) = outcome (mkEntry t (Some a) r) l →
    go = goes_on (mkEntry t (Some a) r) (outcome (mkEntry t (Some a) r) l) → keeps (handled t a l es w) (_ ← on_lane ch f; mret go) w3).
  { intros f go w3 HR3 Hf Hgo. apply (safe_handled t a l es w w3 r); [|by apply (at_lane_stable _ _ _ w2)|done..].
    etrans; [exact Hg|by apply (R_grows (inl ch))]. }
  destruct r as [|status|wait|].
  - apply (safe_bind _ _ _). eapply safe_mono; [apply safe_dones, Hgone; [done|]|].
    + intros d Hd Hs. eapply Ended_taken; [by apply Hin2|done|by apply Hkey|done].
    + intros u w3 _ HR3. by apply Hmid.
  - assert (Hend : ∀ w3, grows w2 w3 → (Severity a = Critical → HasSuffix (Code a) rerouted = false →
      copied (rerouted_alert a (channelName c ch) status) (map (channelName c) (others c ch)) w3) → ∀ d, d ∈ ds → gone w3 d).
    { intros w3 Hg3 Hcp. apply Hgone; [done|]. intros d Hd Hs.
      eapply Ended_refused; [by apply Hin2|done|by apply Hkey|done|]. intros Hc Hsuf j other Hj Hne.
      assert (a = alert d) as -> by (destruct Hs as [?|[Hi _]]; [done|by rewrite Hc in Hi]).
      destruct (Hcp Hc Hsuf other) as [k' ?]; [|by exists k'].
      apply list_elem_of_fmap. exists j. split; [unfold channelName; by rewrite Hj|]. apply list_elem_of_filter. split; [done|].
      apply elem_of_seq. split; [lia|]. apply lookup_lt_Some in Hj. lia. }
    apply (safe_bind _ _ _).
    destruct (String.eqb (Severity a) Critical && negb (HasSuffix (Code a) rerouted)) eqn:E.
    + eapply safe_mono; [apply safe_reroute; [apply Hal2|]|intros u w3 _ HR3; by apply Hmid].
      intros w3 Hg3 Hcp. by apply Hend.
    + eapply safe_mono; [apply safe_dones, Hend; [done|]|intros u w3 _ HR3; by apply Hmid].
      intros Hc Hsuf. rewrite Hc, Hsuf in E. done.
  - by apply Hmid.
  - apply (safe_bind _ _ _). eapply safe_mono; [apply safe_retries|]. intros u w3 _ HR3.
    assert (Hal3 : at_lane t (set_tried t l) (mkEntry t (Some a) Failed :: es) w3) by by apply (at_lane_stable _ _ _ w2).
    eapply (safe_lane _ (failed t) (failed t)); [exact Hal3|]. intros w4 Hg4 HI4 Hal4. apply safe_ret. intros w5 HR5 _.
    exists Failed. split; [|split; [by apply (at_lane_stable _ _ _ w4)|done]].
    transitivity w2; [exact Hg|]. transitivity w3; [exact (R_grows _ _ _ HR3)|].
    transitivity w4; [exact Hg4|exact (R_grows _ _ _ HR5)].
Qed.

(** Between two messages of a pass: the lane says what its log says, and does not rest. *)
Definition in_pass (t : Z) (D : option Z) (w : World) : Prop :=
  ∃ es, at_lane t (replay c es) es w ∧ before t (rest (replay c es)) = false ∧ digestAt (replay c es) = D.
Definition after_pass (t : Z) (w : World) : Prop := ∃ es, at_lane t (replay c es) es w.

Lemma in_pass_stable t D w w1 : in_pass t D w → R (inl ch) w w1 → in_pass t D w1.
Proof. intros (es & H & ?) HR. exists es. split; [by apply (at_lane_stable _ _ _ w)|done]. Qed.
Lemma after_pass_stable t w w1 : after_pass t w → R (inl ch) w w1 → after_pass t w1.
Proof. intros (es & H) HR. exists es. by apply (at_lane_stable _ _ _ w). Qed.
Lemma after_pass_synced t w : after_pass t w → synced ch w.
Proof. intros (es & [A B C D E]). unfold synced. by rewrite B, C, A. Qed.
Lemma in_after_pass t D w : in_pass t D w → after_pass t w.
Proof. intros (es & ? & _). by exists es. Qed.

Lemma outcome_digestAt e l : digestAt (outcome e l) = digestAt l.
Proof. unfold outcome. by destruct (e_message e), (e_answer e). Qed.

Lemma outcome_rest e l : goes_on e (outcome e l) = true → rest (outcome e l) = rest l.
Proof.
  unfold goes_on, outcome. destruct (e_message e), (e_answer e); try done. cbn. intros H.
  destruct (Z.leb_spec failuresToRest (failures l + 1)); [lia|done].
Qed.

(** A message that is no digest leaves the lane as its log says. *)
Lemma handled_replay t D a es w go w1 : Severity a ≠ Info → in_pass t D w → handled t a (replay c es) es w go w1 →
  before t (rest (replay c es)) = false → digestAt (replay c es) = D →
  if go then in_pass t D w1 else after_pass t w1.
Proof.
  intros Ha _ (r & Hg & Hal & ->) Hr HD. set (e := mkEntry t (Some a) r) in *.
  assert (E : replay c (e :: es) = outcome e (replay c es)).
  { cbn [replay]. unfold informs; cbn [e e_message]. by destruct (String.eqb_spec (Severity a) Info). }
  destruct (goes_on e (outcome e (replay c es))) eqn:Eg.
  - exists (e :: es). rewrite E. split; [done|]. by rewrite outcome_digestAt, outcome_rest.
  - exists (e :: es). by rewrite E.
Qed.

Lemma safe_send_all t D ds infos w : in_pass t D w → Channels c !! ch = Some (channelName c ch) →
  (∀ d, d ∈ ds → known c ch w d) → (∀ d, d ∈ infos → known c ch w d ∧ Severity (alert d) = Info) →
  keeps (λ o w1, match o with
                 | Some infos => in_pass t D w1 ∧ ∀ d, d ∈ infos → known c ch w1 d ∧ Severity (alert d) = Info
                 | None => after_pass t w1
                 end) (send_all env c ch t ds infos) w.
Proof.
  intros Hp Hch. revert infos w Hp. induction ds as [|d ds IH]; intros infos w Hp Hds Hinfos; cbn [send_all].
  { apply safe_ret. intros w1 HR _. split; [by apply (in_pass_stable _ _ w)|]. intros d Hd. destruct (Hinfos d Hd).
    split; [|done]. by apply (known_later _ _ w); [apply (R_grows (inl ch))|]. }
  assert (Hlater : ∀ w1, grows w w1 → (∀ d, d ∈ ds → known c ch w1 d) ∧ (∀ d, d ∈ infos → known c ch w1 d ∧ Severity (alert d) = Info)).
  { intros w1 Hg. split; [intros x Hx; apply (known_later _ _ w); [done|apply Hds; by right]|].
    intros x Hx. destruct (Hinfos x Hx). split; [by apply (known_later _ _ w)|done]. }
  destruct (Z.ltb_spec maxAge (t - Time (alert d))) as [Hage|_]; [|destruct (String.eqb_spec (Severity (alert d)) Info) as [Hi|Hi]].
  - apply safe_modify. { intros w1 HR [HC _]. by apply Copies_quiet_events; [|repeat constructor..]. }
    intros w1 HR HI HI1 HR1. apply (safe_bind _ _ _). eapply safe_mono; [apply safe_done|].
    + exists (channelName c ch). split.
      * apply (known_later _ _ w); [exact (R_grows _ _ _ HR1)|]. apply Hds. by left.
      * eapply Ended_aged; [|exact Hage]. by left.
    + intros u w2 _ HR2. assert (R (inl ch) w w2) as HR' by by etrans. destruct (Hlater w2 (R_grows _ _ _ HR')).
      apply IH; [by apply (in_pass_stable _ _ w)|done..].
  - apply IH; [done|intros x Hx; apply Hds; by right|]. intros x [Hx| ->%list_elem_of_singleton]%elem_of_app; [by apply Hinfos|].
    split; [|done]. apply Hds. by left.
  - destruct Hp as (es & Hal & Hrest & HD). apply (safe_bind _ _ _). eapply safe_mono.
    + apply (safe_attempt [d] (alert d) w t (replay c es) es); [done|by split| |done].
      intros x ->%list_elem_of_singleton. split; [apply Hds; by left|by left].
    + intros go w1 _ Hh. pose proof Hh as (r & Hg & _).
      assert (H : if go then in_pass t D w1 else after_pass t w1) by (eapply handled_replay; [exact Hi|by exists es|exact Hh|done..]).
      destruct (Hlater w1 Hg). destruct go; [by apply IH|]. apply safe_ret. intros w2 HR2 _. by apply (after_pass_stable _ w1).
Qed.

Lemma safe_send_infos t D infos w : in_pass t D w → Channels c !! ch = Some (channelName c ch) →
  (∀ d, d ∈ infos → known c ch w d ∧ Severity (alert d) = Info) →
  keeps (λ _ w1, after_pass t w1) (send_infos env c ch t D infos) w.
Proof.
  intros Hp Hch Hinfos. unfold send_infos.
  assert (Hret : ∀ b, keeps (λ (_ : bool) w1, after_pass t w1) (mret b) w).
  { intros b. apply safe_ret. intros w1 HR _. eapply in_after_pass, in_pass_stable; done. }
  destruct infos as [|d ds]; [done|]. destruct (before t D) eqn:ED; [done|].
  destruct Hp as (es & Hal & Hrest & HD).
  set (a := match ds with [] => alert d | _ => digest d ds t end).
  assert (Ha : Severity a = Info) by (unfold a; destruct ds; [by apply Hinfos; left|done]).
  apply (safe_bind _ _ _). eapply safe_mono.
  - apply (safe_attempt (d :: ds) a w t (replay c es) es); [done|split; [done|by rewrite HD]| |done].
    intros x Hx. destruct (Hinfos x Hx) as [? Hi]. split; [done|]. by right.
  - intros go w1 _ (r & Hg & Hal1 & Hgo). set (e := mkEntry t (Some a) r) in *.
    assert (Hi : informs e = true) by (unfold informs; cbn; by rewrite Ha).
    assert (E : replay c (e :: es) = if go then digested c t (outcome e (replay c es)) else outcome e (replay c es)).
    { cbn [replay]. rewrite Hi, <- Hgo. by destruct go. }
    destruct go.
    + eapply safe_on_lane; [exact Hal1|]. intros w2 Hg2 _ Hal2. apply safe_ret. intros w3 HR3 _.
      exists (e :: es). rewrite E. by apply (at_lane_stable _ _ _ w2).
    + apply safe_ret. intros w2 HR2 _. exists (e :: es). rewrite E. by apply (at_lane_stable _ _ _ w1).
Qed.

Lemma safe_send_test {B} (P : B → World → Prop) (k : bool → prog World B) w t l es :
  at_lane t l es w → ready t None es →
  (∀ r w1, grows w w1 → Inv w1 → at_lane t l (mkEntry t None (if r : bool then Taken else Failed) :: es) w1 → keeps P (k r) w1) →
  keeps P (send_test env c ch t ≫= k) w.
Proof.
  intros Hal Hr Hk w1 HR [HC HT]. pose proof (at_lane_stable _ _ _ _ _ Hal HR) as Hal1. cbn zeta.
  set (b := match Send env (asked w1) (channelName c ch) (test_alert c t) with Taken => true | _ => false end).
  set (w2 := happened [ETest ch t b] (ask_one w1)). cbn [fst snd].
  assert (Hlog : ∀ ch', log ch' (trace w2) = if decide (ch' = ch) then mkEntry t None (if b then Taken else Failed) :: es else log ch' (trace w1)).
  { intros ch'. cbn. destruct (decide (ch = ch')), (decide (ch' = ch)); subst; try done. by rewrite (al_log _ _ _ _ Hal1). }
  assert (HI : Inv w2).
  { split; [by apply copies_events; [repeat constructor|]|]. eapply Timing_entry; [exact HT|exact Hal1|exact Hr|done|cbn; lia|exact Hlog]. }
  assert (Hg : grows w1 w2) by (split; [by eexists [_]|repeat split; cbn; lia]).
  split; [done|]. split; [split; [done|]; intros ch' Hch; split; [done|]; rewrite Hlog; case_decide; congruence|].
  apply Hk; [etrans; [by apply (R_grows (inl ch))|done]|done|].
  destruct Hal1 as [A B0 C D E]. split; [done|done| | |].
  - rewrite Hlog. by case_decide.
  - intros x [->|Hx]%elem_of_cons; [done|by apply D].
  - intros n Hn. apply E. cbn in Hn. lia.
Qed.

Lemma safe_test t w : after_pass t w → keeps (λ _ w1, after_pass t w1) (test env c ch t) w.
Proof.
  intros Hp. unfold test. apply safe_get. intros w1 HR1 _. destruct (after_pass_stable _ _ _ Hp HR1) as [es Hal].
  destruct (wants_test c t (lane_of ch w1)) eqn:Ew; [|by apply safe_ret; intros w2 HR2 _; apply (after_pass_stable _ w1); [exists es|]].
  unfold wants_test in Ew. apply andb_true_iff in Ew as [[_ Hb%negb_true_iff]%andb_true_iff _].
  rewrite (al_lane _ _ _ _ Hal) in Hb.
  eapply safe_send_test; [exact Hal|by split|]. intros r w2 Hg2 _ Hal2.
  change (on_lane ch ?f) with (on_lane ch f ≫= mret). eapply safe_on_lane; [exact Hal2|]. intros w3 Hg3 _ Hal3.
  apply safe_ret. intros w4 HR4 _. exists (mkEntry t None (if r then Taken else Failed) :: es).
  apply (at_lane_stable _ _ _ w3); [|done]. by destruct r.
Qed.

Lemma safe_restLeft t w : after_pass t w → keeps (λ _ w1, after_pass t w1) (restLeft ch t) w.
Proof.
  intros Hp. unfold restLeft. apply safe_get. intros w1 HR1 _. apply safe_ret. intros w2 HR2 _.
  apply (after_pass_stable _ w); [done|by etrans].
Qed.

Lemma safe_pass t D l w : in_pass t D w → digestAt l = D → Channels c !! ch = Some (channelName c ch) →
  keeps (λ _ w1, after_pass t w1) (pass env c ch t l) w.
Proof.
  intros Hp <- Hch. assert (Hc : cfg w = c) by (destruct Hp as (es & [] & _); done). unfold pass.
  apply (safe_bind _ _ _). eapply safe_mono; [by apply safe_due|]. intros ds w1 _ [HR1 Hds].
  pose proof (in_pass_stable _ _ _ _ Hp HR1) as Hp1.
  apply (safe_bind _ _ _). eapply safe_mono; [apply (safe_send_all t _ ds [] w1 Hp1 Hch Hds); by intros d ?%elem_of_nil|].
  intros [infos|] w2 _; [|by apply safe_restLeft]. intros [Hp2 Hinfos].
  apply (safe_bind _ _ _). eapply safe_mono; [by apply safe_send_infos|]. intros go w3 _ Hp3.
  destruct go; [|by apply safe_restLeft].
  apply (safe_bind _ _ _). eapply safe_mono; [by apply safe_test|]. intros u w4 _ Hp4.
  apply (safe_bind _ _ _). eapply safe_mono; [by apply safe_restLeft|]. intros wait w5 _ Hp5.
  apply safe_ret. intros w6 HR6 _. by apply (after_pass_stable _ w5).
Qed.

Lemma safe_flushLane w : cfg w = c → synced ch w → (ch < length (Channels c))%nat →
  keeps (λ _ w1, synced ch w1) (_ ← flushLane env c ch; mret tt) w.
Proof.
  intros Hc Hs Hlt. assert (Hch : Channels c !! ch = Some (channelName c ch)).
  { unfold channelName. by destruct (lookup_lt_is_Some_2 (Channels c) ch Hlt) as [n ->]. }
  apply (safe_bind _ _ _).
  assert (Hpost : ∀ t (x : Z) w1, Inv w1 → after_pass t w1 → keeps (λ (_ : unit) w1, synced ch w1) (mret tt) w1).
  { intros t x w1 _ Hp. apply safe_ret. intros w2 HR2 _. eapply after_pass_synced, after_pass_stable; done. }
  unfold flushLane. apply safe_clock. intros t w1 HR1 HI1 (w0 & HI0 & Ht & Ew1). apply safe_get. intros w2 HR2 HI2.
  assert (HR12 : R (inl ch) w w2) by by etrans.
  assert (Hc2 : cfg w2 = c) by (rewrite (R_cfg (inl ch) w); done).
  assert (Hs2 : lane_of ch w2 = replay c (log ch (trace w2))).
  { destruct HR12 as [_ [El Eg]]. unfold synced in Hs. by rewrite El, Eg, Hs, Hc. }
  assert (Hal : at_lane t (replay c (log ch (trace w2))) (log ch (trace w2)) w2).
  { split; [done..| |].
    - intros x Hx. destruct HI0 as [_ [_ Hpast]]. rewrite Ht. apply (Hpast ch x); [|done].
      destruct HR2 as [_ [_ E]]. by rewrite E, Ew1 in Hx.
    - intros m Hm. rewrite Ht. apply clock_forward. destruct HR2 as [(_ & _ & _ & Hk) _]. rewrite Ew1 in Hk. cbn in Hk. lia. }
  rewrite Hs2. destruct (before t (rest (replay c (log ch (trace w2))))) eqn:Eb.
  - apply safe_ret. intros w3 HR3 HI3. apply (Hpost t); [done..|]. apply (after_pass_stable _ w2); [by eexists|done].
  - eapply safe_mono; [|intros x w3; by apply Hpost].
    eapply (safe_pass t (digestAt (replay c (log ch (trace w2))))); [by eexists|done|done].
Qed.
End lane.

(** ** The process *)

(** The clock never goes back. *)
Definition forward (env : Env) : Prop := ∀ n m, (n ≤ m)%nat → now env n <= now env m.

Definition sys_ok (env : Env) (s : Sys) : Prop := all_safe (Inv env) R G Q s.1 s.2.

Lemma Q_settled env i w w1 : Q i w → R i w w1 → Inv env w1 → Q i w1.
Proof.
  destruct i as [ch|]; [|done]. intros HQ [(_ & Hc & _) [Hl Hg]] _. unfold Q, synced in *. by rewrite Hl, Hg, HQ, Hc.
Qed.

Lemma Copies_restarted c w : Copies w → Copies (restarted c w).
Proof.
  intros HC. apply (copies_events _ _ _ _ _ _ _ [ERestart]) in HC; [|by repeat constructor].
  destruct HC as [A B C D E F O I P]. split; [cbn; lia|done|done|exact D|by intros d ?%elem_of_nil| |exact O| |exact P].
  - intros k n a Hk. destruct (F k n a Hk) as [?|[?|[? ?]]]; [by left|right; left; cbn; lia|right; left; cbn; lia].
  - intros k n a Hk.
    assert (Hl : ∀ k n a, ended (ERestart :: trace w) (life w) k n a → ended (ERestart :: trace w) (S (life w)) k n a).
    { intros k' n' a' []; [by eapply Ended_taken|by eapply Ended_refused|by eapply Ended_aged|by eapply Ended_full|by eapply Ended_pruned|].
      apply Ended_restart. lia. }
    destruct (I k n a Hk) as [[?|(d & _ & -> & _)]|He]; [by left; left|right; apply Ended_restart; cbn; lia|right; by apply Hl].
Qed.

Lemma sys_step env s s1 : forward env → sys_ok env s → step env s s1 → sys_ok env s1.
Proof.
  intros HF Hs Hst. revert Hs. destruct Hst as [w ts ch Hch Hn|w ts n a Hn|w ts n Hn|w ts i X f k Hi|w ts i Hi|w ts c];
    unfold sys_ok; cbn [fst snd]; intros Hs.
  - eapply (all_safe_start (Inv env) R G Q); [exact Hs|exact Hn|]. intros HQ. by apply safe_flushLane.
  - eapply (all_safe_start (Inv env) R G Q); [exact Hs|exact Hn|]. intros _. by apply safe_Put.
  - eapply (all_safe_start (Inv env) R G Q); [exact Hs|exact Hn|]. intros _. by apply safe_prune.
  - eapply (all_safe_act (Inv env) R G Q); [apply apart|by intros; eapply Q_settled|done|done].
  - by apply (all_safe_end (Inv env) R G Q).
  - destruct Hs as ([HC HT] & _ & _). split; [split; [by apply Copies_restarted|]|split].
    + split; [done|by intros ch e n ?%elem_of_nil].
    + intros i p. by rewrite lookup_empty.
    + by intros [ch|] _.
Qed.

Lemma sys_start env c : sys_ok env (start c).
Proof.
  split; [split|split; [by intros i p|by intros [ch|] _]].
  - split; [cbn; lia..| | | | | |]; by intros * ?%elem_of_nil.
  - split; [done|by intros ch e n ?%elem_of_nil].
Qed.

Lemma sys_reachable env c s : forward env → rtc (step env) (start c) s → sys_ok env s.
Proof.
  intros HF H. pose proof (sys_start env c) as H0. induction H as [|s s1 s2 Hs _ IH]; [done|]. by eapply IH, sys_step.
Qed.

(** A program that runs alone. *)
Lemma run_steps env (p : prog World unit) w ts i : rtc (step env) (w, <[i := p]> ts) ((run p w).1, <[i := Ret tt]> ts).
Proof.
  revert w. induction p as [[]|X f k IH]; intros w; [done|]. eapply rtc_l; [apply Step_act; by rewrite lookup_insert_eq|].
  rewrite insert_insert_eq. cbn [run]. destruct (f w) as [w1 x]. apply IH.
Qed.

Lemma run_alone env (p : prog World unit) w ts i : ts !! i = None → step env (w, ts) (w, <[i := p]> ts) →
  rtc (step env) (w, ts) ((run p w).1, ts).
Proof.
  intros Hi H. eapply rtc_l; [exact H|]. eapply rtc_r; [apply run_steps|].
  rewrite <- (delete_insert_id ts i (Ret tt) Hi) at 2. apply Step_end. by rewrite lookup_insert_eq.
Qed.

(** ** What the logs say *)

(** A message after which the lane rests at least until [until]. *)
Definition later_than (a : Z) (o : option Z) : Prop := match o with Some b => a <= b | None => False end.

Lemma later_than_before a t o : later_than a o → before t o = false → a <= t.
Proof. destruct o; cbn; lia. Qed.

Lemma doubled_pos n d : 0 < d → d <= doubled n d.
Proof. revert d. induction n as [|n IH]; intros d Hd; cbn; [lia|]. specialize (IH (d * 2)). lia. Qed.
Lemma backoff_pos n : 5 * second <= backoff n.
Proof. unfold backoff. pose proof (doubled_pos (Z.to_nat (Z.min n 8)) (5 * second)). unfold minute, second in *. lia. Qed.

Lemma replay_rest c e es : rest (replay c (e :: es)) = rest (outcome e (replay c es)).
Proof. cbn [replay]. by destruct (informs e && _). Qed.

Lemma replay_failing c e es : failing (replay c (e :: es)) = failing (outcome e (replay c es)).
Proof. cbn [replay]. by destruct (informs e && _). Qed.

Definition waits_positive (es : list entry) : Prop := ∀ e w, e ∈ es → e_answer e = RetryAfter w → 0 <= w.

(** A rest is never cut short. *)
Lemma rest_grows c a e es : (∀ w, e_answer e = RetryAfter w → 0 <= w) → before (e_time e) (rest (replay c es)) = false →
  later_than a (rest (replay c es)) → later_than a (rest (replay c (e :: es))).
Proof.
  intros Hw Hb Ha. rewrite replay_rest. pose proof (later_than_before _ _ _ Ha Hb) as Hle. unfold outcome.
  destruct (e_message e), (e_answer e) as [| |w|]; cbn; try done.
  - specialize (Hw w eq_refl). lia.
  - destruct (_ <=? _); [|done]. cbn. pose proof (backoff_pos (failures (replay c es) + 1 - failuresToRest)). unfold second in *. lia.
Qed.

Lemma timely_app c l1 l2 : timely c (l1 ++ l2) → timely c l2.
Proof. induction l1 as [|e l1 IH]; [done|]. intros (_ & _ & _ & ?). by apply IH. Qed.

Lemma rest_kept c a mid e es : waits_positive (mid ++ e :: es) → timely c (mid ++ e :: es) →
  later_than a (rest (replay c (e :: es))) → later_than a (rest (replay c (mid ++ e :: es))).
Proof.
  induction mid as [|x mid IH]; [done|]. intros Hw (Hb & _ & _ & Ht) Ha. apply rest_grows; [|done|].
  - intros w. apply Hw. by left.
  - apply IH; [|done|done]. intros y w Hy. apply Hw. by right.
Qed.

Lemma digest_grows c a e es : (informs e = true → before (e_time e) (digestAt (replay c es)) = false) →
  later_than a (digestAt (replay c es)) → later_than a (digestAt (replay c (e :: es))).
Proof.
  intros Hb Ha. cbn [replay]. destruct (informs e) eqn:Ei; cbn [andb]; [|by rewrite outcome_digestAt].
  pose proof (later_than_before _ _ _ Ha (Hb eq_refl)).
  destruct (goes_on _ _); [|by rewrite outcome_digestAt]. cbn. unfold digestEvery. destruct (Z.ltb_spec 0 (DigestEvery c)); unfold minute, second in *; lia.
Qed.

Lemma failing_since c es f : failing (replay c es) = Some f → ∃ later e earlier, es = later ++ e :: earlier ∧
  is_Some (e_message e) ∧ e_answer e ≠ Taken ∧ Forall (λ x, e_answer x ≠ Taken) later ∧ e_time e = f.
Proof.
  induction es as [|e es IH]; [done|]. rewrite replay_failing. intros H.
  assert (Hold : e_answer e ≠ Taken → failing (replay c es) = Some f → ∃ later e0 earlier, e :: es = later ++ e0 :: earlier ∧
    is_Some (e_message e0) ∧ e_answer e0 ≠ Taken ∧ Forall (λ x, e_answer x ≠ Taken) later ∧ e_time e0 = f).
  { intros Hn Hf. destruct (IH Hf) as (l & e0 & r & -> & ? & ? & ? & ?). exists (e :: l), e0, r. repeat split; try done. by constructor. }
  unfold outcome in H. destruct (e_message e) as [a|] eqn:Em.
  - assert (Hnew : e_answer e ≠ Taken → since (e_time e) (failing (replay c es)) = Some f → ∃ later e0 earlier, e :: es = later ++ e0 :: earlier ∧
      is_Some (e_message e0) ∧ e_answer e0 ≠ Taken ∧ Forall (λ x, e_answer x ≠ Taken) later ∧ e_time e0 = f).
    { intros Hn. unfold since. destruct (failing (replay c es)); [by apply Hold|]. intros [= <-]. exists [], e, es. by rewrite Em. }
    destruct (e_answer e); cbn in H; [done|by apply Hnew..].
  - destruct (e_answer e); cbn in H; [done|by apply Hold..].
Qed.

Lemma since_failing c later e earlier : is_Some (e_message e) → e_answer e ≠ Taken → Forall (λ x, e_answer x ≠ Taken) later →
  timely c (later ++ e :: earlier) → ∃ f, failing (replay c (later ++ e :: earlier)) = Some f ∧ f <= e_time e.
Proof.
  intros [a Hm] Hn Hl Ht. induction Hl as [|x later Hx _ IH].
  - cbn [app] in *. rewrite replay_failing. unfold outcome. rewrite Hm.
    assert (H : ∃ f, since (e_time e) (failing (replay c earlier)) = Some f ∧ f <= e_time e).
    { destruct (failing (replay c earlier)) as [f|] eqn:Ef; [|by eexists]. exists f. split; [done|].
      destruct (failing_since c earlier f Ef) as (l & x & r & -> & _ & _ & _ & <-). destruct Ht as (_ & Hpast & _).
      apply Hpast, elem_of_app. right. by left. }
    by destruct (e_answer e).
  - destruct Ht as (_ & _ & _ & Ht). destruct (IH Ht) as (f & Hf & Hle). exists f. split; [|done].
    cbn [app]. rewrite replay_failing. unfold outcome. destruct (e_message x), (e_answer x); cbn; try done; by rewrite Hf.
Qed.

Lemma digest_kept c a mid e es : timely c (mid ++ e :: es) →
  later_than a (digestAt (replay c (e :: es))) → later_than a (digestAt (replay c (mid ++ e :: es))).
Proof.
  induction mid as [|x mid IH]; [done|]. intros (_ & _ & Hd & Ht) Ha. apply digest_grows; [done|]. by apply IH.
Qed.

Lemma replay_failures c e es : is_Some (e_message e) → e_answer e = Failed →
  failures (replay c (e :: es)) = failures (replay c es) + 1.
Proof. intros [a Hm] He. cbn [replay]. assert (E : failures (outcome e (replay c es)) = failures (replay c es) + 1) by (unfold outcome; by rewrite Hm, He).
  by destruct (informs e && _).
Qed.

Lemma failures_pos c es : 0 <= failures (replay c es).
Proof.
  induction es as [|e es IH]; [done|]. cbn [replay].
  assert (H : 0 <= failures (outcome e (replay c es))) by (unfold outcome; destruct (e_message e), (e_answer e); cbn; lia).
  by destruct (informs e && _).
Qed.

Lemma rest_after_failures c e e1 e2 es : Forall (λ x, is_Some (e_message x) ∧ e_answer x = Failed) [e; e1; e2] →
  later_than (e_time e + 5 * second) (rest (replay c (e :: e1 :: e2 :: es))).
Proof.
  intros H. apply Forall_cons in H as [[Hm Hf] H]. apply Forall_cons in H as [[Hm1 Hf1] H]. apply Forall_cons in H as [[Hm2 Hf2] _].
  rewrite replay_rest. unfold outcome. rewrite Hf. destruct Hm as [a Hm]. rewrite Hm. unfold failed. cbn [failures set_tried rest].
  rewrite !replay_failures by done. pose proof (failures_pos c es).
  replace (failuresToRest <=? _) with true by (unfold failuresToRest; lia). cbn.
  match goal with |- context [backoff ?n] => pose proof (backoff_pos n) end. lia.
Qed.

(** * Witnesses *)

Module demo.

Definition config (store : bool) : Config := mkConfig "watcher" ["hook"; "chat"] store 0 (5 * minute).
Definition down : Alert := mkAlert "watcher" Critical "node_down" "no answer" 0.
Definition note (n : Z) : Alert := mkAlert "watcher" Info "note" "a notice" n.

(** A clock by the questions before, answers by the questions before and the channel, and a database that
    works. *)
Definition env_of (time : nat → Z) (answers : nat → string → answer) : Env := mkEnv time (λ n name _, answers n name) (λ _, Done).

Definition clock_of (n : nat) : Z := Z.of_nat n * second.
Definition env (answers : nat → string → answer) : Env := env_of clock_of answers.

Lemma clock_forward answers : forward (env answers).
Proof. intros n m H. cbn. unfold clock_of, second. lia. Qed.

Definition put (e : Env) (a : Alert) (w : World) : World := (run (Put e (cfg w) a) w).1.
Definition flush (e : Env) (ch : nat) (w : World) : World := (run (_ ← flushLane e (cfg w) ch; mret tt) w).1.

Lemma put_reaches e a w : rtc (step e) (w, ∅) (put e a w, ∅).
Proof. apply (run_alone e _ w ∅ (inr 0%nat)); [apply lookup_empty|]. apply Step_put, lookup_empty. Qed.
Lemma flush_reaches e ch w : (ch < length (Channels (cfg w)))%nat → rtc (step e) (w, ∅) (flush e ch w, ∅).
Proof. intros H. apply (run_alone e _ w ∅ (inl ch)); [apply lookup_empty|]. by apply Step_lane; [|apply lookup_empty]. Qed.

(** The hook refuses the alert, and the chat takes what it gets. *)
Definition refusing_env : Env := env (λ _ name, if String.eqb name "hook" then Refused 404 else Taken).
Definition refused_alert : World := flush refusing_env 0 (put refusing_env down (start (config true)).1).

(** The chat asks to wait an hour, and takes what it gets after; the passes go on. *)
Definition rest_env : Env := env_of (λ n, if bool_decide (n < 8)%nat then Z.of_nat n * second else hour + Z.of_nat n * second)
  (λ n _, if bool_decide (n < 8)%nat then RetryAfter hour else Taken).
Definition rested : World :=
  let go := flush rest_env in go 1%nat (go 1%nat (go 0%nat (go 1%nat (put rest_env down (start (config true)).1)))).

(** A channel refuses its only message, takes a test, and takes no test after it. *)
Definition test_env : Env := env_of (λ n, Z.of_nat (n / 2) * (6 * minute))
  (λ n _, match n with 2%nat => Refused 404 | 4%nat => Taken | _ => Failed end).
Definition test_config : Config := mkConfig "watcher" ["hook"%string] false 0 (5 * minute).
Definition untested : World :=
  let go := flush test_env 0%nat in go (go (go (go (put test_env down (start test_config).1)))).

Lemma start_put e c : rtc (step e) (start c) (put e down (start c).1, ∅).
Proof. apply put_reaches. Qed.
Lemma then_flush e c w ch : rtc (step e) (start c) (w, ∅) → (ch <? length (Channels (cfg w)))%nat = true →
  rtc (step e) (start c) (flush e ch w, ∅).
Proof. intros H Hch. etrans; [exact H|]. by apply flush_reaches, Nat.ltb_lt. Qed.

Lemma refused_alert_reached : rtc (step refusing_env) (start (config true)) (refused_alert, ∅).
Proof. apply then_flush; [apply start_put|vm_compute; reflexivity]. Qed.
Lemma rested_reached : rtc (step rest_env) (start (config true)) (rested, ∅).
Proof. do 4 (apply then_flush; [|vm_compute; reflexivity]). apply start_put. Qed.
Lemma untested_reached : rtc (step test_env) (start test_config) (untested, ∅).
Proof. do 4 (apply then_flush; [|vm_compute; reflexivity]). apply start_put. Qed.

End demo.

(** * Properties *)

(** C9: No alert is lost. However puts, passes of the lanes, the pruning and restarts interleave, whatever
    the channels answer and whatever statements of the database fail, an alert put has a copy for each
    channel, and every copy, a rerouted one too, waits in the database or in memory until its channel took a
    message for it, its channel refused one for good, after which every other channel got a copy of a
    critical one, or it was dropped: older than a week, from a memory that kept the ten thousand copies it may,
    none of them less severe, because its channel was not among those configured, or with the memory of a process
    that ended. *)
Theorem no_alert_is_lost (env : Env) (c : Config) (w : World) (ts : gmap thread (prog World unit))
    (HF : forward env) (H : rtc (step env) (start c) (w, ts)) :
  (∀ a names name, EPut a names ∈ trace w → name ∈ names → ∃ k, ECopy k name a ∈ trace w) ∧
  (∀ k name a, ECopy k name a ∈ trace w → waiting w k name a ∨ ended (trace w) (life w) k name a).
Proof.
  destruct (sys_reachable env c (w, ts) HF H) as ([HC _] & _ & _). split.
  - intros a names name Hp Hn. by apply (c_put _ _ _ _ _ _ _ HC a names).
  - intros k name a Hk. by apply (c_account _ _ _ _ _ _ _ HC k name a).
Qed.

(** The alert the hook refused waits for the chat, saying so. *)
Lemma no_alert_is_lost_witness :
  let a := rerouted_alert demo.down "hook" 404 in
  ECopy (0%nat, 3) "chat" a ∈ trace demo.refused_alert ∧
  (waiting demo.refused_alert (0%nat, 3) "chat" a ∨ ended (trace demo.refused_alert) (life demo.refused_alert) (0%nat, 3) "chat" a).
Proof.
  intros a. assert (Hk : ECopy (0%nat, 3) "chat" a ∈ trace demo.refused_alert).
  { assert (E : trace demo.refused_alert !! 0%nat = Some (ECopy (0%nat, 3) "chat" a)) by (vm_compute; reflexivity).
    exact (list_elem_of_lookup_2 _ _ _ E). }
  split; [exact Hk|].
  exact (proj2 (no_alert_is_lost demo.refusing_env (demo.config true) demo.refused_alert ∅ (demo.clock_forward _) demo.refused_alert_reached) _ _ _ Hk).
Defined.

(** A lane keeps its rests. In every interleaving, of the messages a channel was sent in one life of the
    process: after an answer that asks to wait nothing is sent before, after three alerts that failed in a
    row nothing is sent for five seconds, and a digest that was taken is followed by another no sooner than
    the lane's interval. *)
Theorem lanes_keep_their_rests (env : Env) (c : Config) (w : World) (ts : gmap thread (prog World unit)) (ch : nat)
    (HF : forward env) (H : rtc (step env) (start c) (w, ts)) (HW : waits_positive (log ch (trace w)))
    (later : list entry) (e' : entry) (mid : list entry) (e : entry) (earlier : list entry)
    (E : log ch (trace w) = later ++ e' :: mid ++ e :: earlier) (Hm : is_Some (e_message e)) :
  (∀ wait, e_answer e = RetryAfter wait → e_time e + wait <= e_time e') ∧
  (∀ e1 e2 rest, earlier = e1 :: e2 :: rest → Forall (λ x, is_Some (e_message x) ∧ e_answer x = Failed) [e; e1; e2] →
     e_time e + 5 * second <= e_time e') ∧
  (informs e = true → informs e' = true → e_answer e = Taken → e_time e + digestEvery (cfg w) <= e_time e').
Proof.
  destruct (sys_reachable env c (w, ts) HF H) as ([_ HT] & _ & _). pose proof (t_timely _ _ HT ch) as Ht. cbn [fst] in Ht.
  rewrite E in Ht, HW. apply timely_app in Ht as (Hb & _ & Hd & Ht).
  assert (HW' : waits_positive (mid ++ e :: earlier)).
  { intros x y Hx. apply HW, elem_of_app. right. by right. }
  assert (Hrest : ∀ a, later_than a (rest (replay (cfg w) (e :: earlier))) → a <= e_time e').
  { intros a Ha. eapply later_than_before; [|exact Hb]. by apply rest_kept. }
  destruct Hm as [m Hm]. split; [|split].
  - intros wait Hw. apply Hrest. rewrite replay_rest. unfold outcome. rewrite Hm, Hw. cbn. lia.
  - intros e1 e2 es -> Hf. by apply Hrest, rest_after_failures.
  - intros Hi Hi' Ha. eapply later_than_before; [|exact (Hd Hi')]. apply digest_kept; [done|].
    cbn [replay]. rewrite Hi. unfold goes_on. rewrite Ha. cbn. lia.
Qed.

(** The chat asked to wait an hour at its first message, and its second came after. *)
Lemma lanes_keep_their_rests_witness :
  ∃ w e' e, log 1 (trace w) = [e'; e] ∧ e_answer e = RetryAfter hour ∧ e_time e + hour <= e_time e'.
Proof.
  set (w := demo.rested).
  destruct (log 1 (trace w)) as [|e' [|e [|x l]]] eqn:E;
    [exfalso; apply (f_equal length) in E; vm_compute in E; discriminate E|exfalso; apply (f_equal length) in E; vm_compute in E; discriminate E| |
     exfalso; apply (f_equal length) in E; vm_compute in E; discriminate E].
  exists w, e', e. split; [exact E|].
  assert (Ee : Some e = Some (mkEntry (2 * second) (Some demo.down) (RetryAfter hour))).
  { transitivity (log 1 (trace w) !! 1%nat); [rewrite E; reflexivity|vm_compute; reflexivity]. }
  assert (Ee' : Some (e_answer e') = Some Taken).
  { transitivity (e_answer <$> log 1 (trace w) !! 0%nat); [rewrite E; reflexivity|vm_compute; reflexivity]. }
  injection Ee as ->. injection Ee' as Ea. split; [reflexivity|].
  assert (HF : forward demo.rest_env).
  { intros n m Hnm. cbn. unfold hour, second. repeat case_bool_decide; lia. }
  pose proof demo.rested_reached as H. fold w in H. clearbody w.
  assert (HW : waits_positive (log 1 (trace w))).
  { intros x y. rewrite E. intros [->|[->|Hx]%elem_of_cons]%elem_of_cons; [rewrite Ea; discriminate| |exfalso; exact (not_elem_of_nil _ Hx)].
    cbn [e_answer]. intros [= <-]. unfold hour, second. lia. }
  exact (proj1 (lanes_keep_their_rests demo.rest_env (demo.config true) w ∅ 1 HF H HW [] e' [] _ [] E ltac:(eexists; reflexivity)) hour eq_refl).
Defined.

(** The health of a lane is what its channel answered. When no pass runs, [Stalled] tells exactly whether
    some channel was sent an alert longer than [after] ago that it did not take, and took nothing since. *)
Theorem stalled_tells_what_failed (env : Env) (c : Config) (w : World) (ts : gmap thread (prog World unit)) (t after : Z)
    (HF : forward env) (H : rtc (step env) (start c) (w, ts)) (Hidle : ∀ ch, ts !! inl ch = None) :
  Stalled t after w = true ↔ ∃ ch later e earlier, log ch (trace w) = later ++ e :: earlier ∧ is_Some (e_message e) ∧
    e_answer e ≠ Taken ∧ Forall (λ x, e_answer x ≠ Taken) later ∧ after < t - e_time e.
Proof.
  destruct (sys_reachable env c (w, ts) HF H) as ([_ HT] & _ & HQ).
  assert (Hs : ∀ ch, lane_of ch w = replay (cfg w) (log ch (trace w))) by (intros ch; exact (HQ (inl ch) (Hidle ch))).
  unfold Stalled. rewrite existsb_exists. split.
  - intros ([ch l] & Hin & Hl). apply list_elem_of_In, elem_of_map_to_list in Hin. cbn [snd] in Hl.
    assert (El : lane_of ch w = l) by (unfold lane_of; by rewrite Hin). destruct (failing l) as [f|] eqn:Ef; [|done].
    rewrite <- El, Hs in Ef. destruct (failing_since _ _ _ Ef) as (later & e & earlier & E & ? & ? & ? & Et).
    exists ch, later, e, earlier. split; [done|]. repeat split; try done. rewrite Et. lia.
  - intros (ch & later & e & earlier & E & Hm & Ha & Hl & Ht). pose proof (t_timely _ _ HT ch) as Hti. cbn [fst] in Hti. rewrite E in Hti.
    destruct (since_failing (cfg w) later e earlier Hm Ha Hl Hti) as (f & Hf & Hle).
    assert (Hlane : failing (lane_of ch w) = Some f) by by rewrite Hs, E.
    unfold lane_of in Hlane. destruct (lanes w !! ch) as [l|] eqn:El; [|done]. cbn in Hlane.
    exists (ch, l). split; [by apply list_elem_of_In, elem_of_map_to_list|]. cbn [snd]. rewrite Hlane. lia.
Qed.

(** The hook refused its only message eleven minutes ago. *)
Lemma stalled_witness : Stalled (11 * minute + 3 * second) (10 * minute) demo.refused_alert = true ∧
  ∃ ch later e earlier, log ch (trace demo.refused_alert) = later ++ e :: earlier ∧ e_answer e ≠ Taken.
Proof.
  assert (Hs : Stalled (11 * minute + 3 * second) (10 * minute) demo.refused_alert = true) by (vm_compute; reflexivity).
  split; [exact Hs|].
  destruct (proj1 (stalled_tells_what_failed demo.refusing_env (demo.config true) demo.refused_alert ∅ (11 * minute + 3 * second) (10 * minute)
    (demo.clock_forward _) demo.refused_alert_reached ltac:(intros ch; apply lookup_empty)) Hs) as (ch & later & e & earlier & E & _ & Ha & _).
  exists ch, later, e, earlier. split; [exact E|exact Ha].
Defined.

(** A full memory keeps what is most severe. Of the copies [putMemory] finds and adds it keeps all that
    fit, and of those it drops none is more severe than one it keeps, and of each severity the oldest go. *)
Theorem full_memory_keeps_the_severe (env : Env) (c : Config) (a : Alert) (channels : list nat) (w : World) :
  let all := pending (add_pending env c a channels w) in
  let kept := pending (put_memory env c a channels w) in
  Z.of_nat (length kept) = Z.min (Z.of_nat (length all)) maxPending ∧
  ∃ dropped, (∀ x y, x ∈ kept → y ∈ dropped → rank (Severity (alert x)) <= rank (Severity (alert y))) ∧
    ∀ r, of_rank r dropped ++ of_rank r kept = of_rank r all.
Proof.
  cbv zeta. unfold put_memory. set (w1 := add_pending env c a channels w).
  set (over := Z.to_nat (Z.of_nat (length (pending w1)) - maxPending)).
  pose proof (shrink_spec ranks over (pending w1)) as H. pose proof (shrink_split ranks over (pending w1)) as Hp.
  destruct (shrink ranks over (pending w1)) as [kept dropped]. cbn [happened set_pending AlertQueue.queue.pending].
  destruct H as (H1 & H2 & H3); [unfold over, maxPending; lia| |].
  { apply Forall_forall. intros d _. pose proof (rank_bounds (Severity (alert d))). unfold ranks. lia. }
  apply Permutation_length in Hp. rewrite length_app in Hp. split; [unfold over, maxPending in *; lia|]. by exists dropped.
Qed.

(** A test that fails does not count. Once a channel that refused an alert took a test, the tests it
    fails after do not set its lane as failing again: it may take nothing for longer than the bound
    while [Stalled] reports none, though it is meant to report a channel that refuses every send. *)
Theorem failing_tests_do_not_stall :
  ∃ (env : Env) (c : Config) (w : World) (t : Z) later e earlier,
    forward env ∧ rtc (step env) (start c) (w, ∅) ∧ log 0 (trace w) = later ++ e :: earlier ∧
    e_answer e ≠ Taken ∧ Forall (λ x, e_answer x ≠ Taken) later ∧ StalledAfter < t - e_time e ∧
    refusing (lane_of 0 w) = true ∧ Stalled t StalledAfter w = false.
Proof.
  exists demo.test_env, demo.test_config, demo.untested, (80 * minute).
  exists (take 1 (log 0 (trace demo.untested))), (mkEntry (12 * minute) None Failed), (drop 2 (log 0 (trace demo.untested))).
  split.
  { intros n m Hnm. change (Z.of_nat (n / 2) * (6 * minute) <= Z.of_nat (m / 2) * (6 * minute)).
    pose proof (Nat.Div0.div_le_mono n m 2 Hnm). unfold minute, second. lia. }
  split; [exact demo.untested_reached|].
  split; [vm_compute; reflexivity|]. split; [discriminate|]. split; [vm_compute; repeat constructor; discriminate|].
  split; [vm_compute; reflexivity|]. split; vm_compute; reflexivity.
Qed.

End queue.
