(* ===== verification/EngineFees.v ===== *)
(** The fees and bounds of a Soroban transaction, as [services/internal/submit/submit.go] sets them: the
    network's costs, what padding and a call's other path add to a simulation, and the ledgers in which
    the entries of its footprint live.

    The marshalled size of the transaction data is the SDK's: a function of the data. The costs an engine
    keeps for an hour are passed in and returned. *)
From S2P Require Import Prelude.
From S2P Require Import Xdr.
From S2P Require Import Keys.
From S2P Require Import Rpc.

Module fees.

(** ** Data *)

(** [xdr.SorobanTransactionData], by the fields the engine reads and sets: the resources, the fee and the
    archived entries its extension marks. *)
Record Footprint : Type := mkFootprint { ReadOnly : list LedgerKey; ReadWrite : list LedgerKey }.
Record Resources : Type := mkResources { Foot : Footprint; Instructions : Z; DiskReadBytes : Z; WriteBytes : Z }.
Record TransactionData : Type := mkData { Res : Resources; ResourceFee : Z; Archived : list Z }.

(** [ledgerCosts], with the time they were read. *)
Record ledgerCosts : Type := mkCosts {
  at_ : Z; instruction : Z; readEntry : Z; writeEntry : Z; read1KB : Z; write1KB : Z; historical1KB : Z;
  txSize1KB : Z; events1KB : Z; rent1KB : Z; rentDenominator : Z; minPersistentTTL : Z; maxInstructions : Z;
  maxReadEntries : Z; maxWriteEntries : Z; maxFootprint : Z; maxReadBytes : Z; maxWrites : Z }.

(** [Extra] is what a call may need beyond its simulation. *)
Record Extra : Type := mkExtra {
  XReadWrite : list LedgerKey; XInstructions : Z; XWriteBytes : Z; NewBytes : Z; RentLedgers : Z; EventBytes : Z }.

Definition classicPad : Z := 2048.
Definition ttlEntryBytes : Z := 48.
Definition maxReserve : Z := 2 ^ 50.
Definition SimulatedRefundablePct : Z := 115.
Definition second : Z := 1000000000.

Definition ErrSimulation : gerr := Sentinel "submit: simulation failed".
Definition ErrFeeCap : gerr := Wrapf ErrSimulation "%w: the resource fee is above the cap" [].
Definition ErrRestoreNeeded : gerr := Wrapf ErrSimulation "%w: archived entries need a restore" [].

(** [ceilDiv] of int64, which truncates, and [perKB]. *)
Definition ceilDiv (a b : Z) : Z := i64 (Z.quot (i64 (i64 (a + b) - 1)) b).
Definition perKB (bytes rate : Z) : Z := i64 (u64 (u64 (bytes * u64 rate) + 1023) / 1024).

(** [classic] reports an entry of an account or a trustline. *)
Definition classic (k : LedgerKey) : bool :=
  match k with KeyAccount _ | KeyTrustline _ _ _ => true | _ => false end.
Definition classics (keys : list LedgerKey) : Z := Z.of_nat (length (filter (λ k, classic k = true) keys)).

(** [restoredEntries] *)
Definition restoredEntries (d : TransactionData) : Z := Z.of_nat (length (Archived d)).

Section fees.
Context {sdk : StellarSDK} (size : TransactionData → res Z).

(** ** The network's costs *)

(** The settings read: compute, ledger cost, its extension, historical data, events, bandwidth, archival
    and the state's size. *)
Definition setting_ids : list Z := [1; 2; 15; 3; 4; 5; 10; 12].
Definition setting_id (s : rpc.ConfigSetting) : Z :=
  match s with
  | rpc.ContractCompute _ _ => 1
  | rpc.LedgerCost _ _ _ _ _ => 2
  | rpc.HistoricalData _ => 3
  | rpc.ContractEvents _ => 4
  | rpc.Bandwidth _ => 5
  | rpc.StateArchival _ _ _ => 10
  | rpc.StateSizeWindow _ => 12
  | rpc.LedgerCostExt _ _ => 15
  | rpc.FrozenLedgerKeys _ => 17
  | rpc.OtherSetting id => id
  end.

(** The loop over the keys, with the settings met so far. *)
Definition settings_of (entries : gmap string rpc.Entry) (names : list string) : gmap Z rpc.ConfigSetting :=
  foldl (λ s name,
    match entries !! name with
    | Some e => match rpc.Data e with rpc.DataConfigSetting c => <[setting_id c := c]> s | _ => s end
    | None => s
    end) ∅ names.

Definition missing : gerr := Sentinel "ledger costs: the network's settings are missing".

Definition costs_of (now : Z) (s : gmap Z rpc.ConfigSetting) : res ledgerCosts :=
  match s !! 1, s !! 2, s !! 15, s !! 3, s !! 4, s !! 5, s !! 10, s !! 12 with
  | Some (rpc.ContractCompute fee maxIns), Some (rpc.LedgerCost target growth low high c), Some (rpc.LedgerCostExt write foot),
    Some (rpc.HistoricalData hist), Some (rpc.ContractEvents ev), Some (rpc.Bandwidth tx), Some (rpc.StateArchival _ minTTL den),
    Some (rpc.StateSizeWindow window) =>
      _ ← fail_if (bool_decide (window = [])) missing;
      _ ← or_fail (rpc.CheckStateWindow window target) (λ e, Wrapf e "ledger costs: %w" []);
      match rpc.StateAverage window with
      | None => Fail (Sentinel "division by zero")
      | Some avg =>
          mret (mkCosts now fee (rpc.FeeDiskReadLedgerEntry c) (rpc.FeeWriteLedgerEntry c) (rpc.FeeDiskRead1Kb c) write hist tx ev
            (rpc.RentPerKB avg low high target growth) den minTTL maxIns (rpc.TxMaxDiskReadEntries c) (rpc.TxMaxWriteLedgerEntries c)
            foot (rpc.TxMaxDiskReadBytes c) (rpc.TxMaxWriteBytes c))
      end
  | _, _, _, _, _, _, _, _ => Fail missing
  end.

(** [Engine.ledgerCosts] reads the network's Soroban fees and limits, at most once an hour. *)
Definition readCosts (now : Z) (c : rpc.Client) (costs : option ledgerCosts) : option ledgerCosts * res ledgerCosts :=
  let read :=
    let r :=
      '(entries, _) ← or_fail (rpc.Entries c (map keys.ConfigSettingKey setting_ids)) (λ e, Wrapf e "ledger costs: %w" []);
      names ← mapM (λ id, rpc.KeyString (keys.ConfigSettingKey id)) setting_ids;
      costs_of now (settings_of entries names) in
    (match r with Ok k => Some k | Fail _ => costs end, r) in
  match costs with
  | Some k => if now - at_ k <? 3600 * second then (costs, Ok k) else read
  | None => read
  end.

(** ** Padding *)

(** [Engine.padClassic]: room for the growth of the classic entries the call touches, and its fee. The
    costs are read only when there are any. *)
Definition pads (r : Resources) : bool := negb (classics (ReadWrite (Foot r)) + classics (ReadOnly (Foot r)) =? 0).
Definition padClassic (c : ledgerCosts) (r : Resources) : Resources * Z :=
  let writes := classics (ReadWrite (Foot r)) in
  let reads := writes + classics (ReadOnly (Foot r)) in
  let read := Z.min (DiskReadBytes r + reads * classicPad) (Z.max (maxReadBytes c) (DiskReadBytes r)) in
  let write := Z.min (WriteBytes r + writes * classicPad) (Z.max (maxWrites c) (WriteBytes r)) in
  (mkResources (Foot r) (Instructions r) (u32 read) (u32 write),
   i64 (perKB (u64 (read - DiskReadBytes r)) (read1KB c) + perKB (u64 (write - WriteBytes r)) (write1KB c))).

(** ** What another path may need *)

Definition keyOf (k : LedgerKey) : list Z := default [] (marshal_key k).

(** The variables of [addExtra]'s loop over the entries asked for. *)
Record extra_state : Type := mkState {
  written : list (list Z); readWrite : list LedgerKey; promoted : list nat; writes : Z; reads : Z; newReads : Z }.

(** The last place of a key among those read. *)
Fixpoint place (name : list Z) (i : nat) (keys : list LedgerKey) (found : option nat) : option nat :=
  match keys with
  | [] => found
  | k :: keys => place name (S i) keys (if decide (keyOf k = name) then Some i else found)
  end.

Definition add_key (c : ledgerCosts) (readOnly : list LedgerKey) (s : extra_state) (k : LedgerKey) : extra_state :=
  let name := keyOf k in
  if bool_decide (name ∈ written s) then s
  else
    let s := mkState (name :: written s) (readWrite s) (promoted s) (writes s) (reads s) (newReads s) in
    if maxWriteEntries c <=? Z.of_nat (length (readWrite s) + length (promoted s)) then s
    else
      match place name 0 readOnly None with
      | Some i => mkState (written s) (readWrite s) (promoted s ++ [i]) (writes s + 1) (reads s) (newReads s)
      | None =>
          if (maxFootprint c <=? Z.of_nat (length readOnly + length (readWrite s))) || (classic k && (maxReadEntries c <=? reads s)) then s
          else
            mkState (written s) (readWrite s ++ [k]) (promoted s) (writes s + 1)
              (if classic k then reads s + 1 else reads s) (if classic k then newReads s + 1 else newReads s)
      end.

(** [slices.Sort] of the places, and the move of each to the written entries; [j] moved before. *)
Fixpoint insert_place (i : nat) (l : list nat) : list nat :=
  match l with
  | [] => [i]
  | x :: l => if (i <=? x)%nat then i :: x :: l else x :: insert_place i l
  end.
Definition sort_places (l : list nat) : list nat := foldr insert_place [] l.
Fixpoint promote (places : list nat) (j : nat) (f : Footprint) : Footprint :=
  match places with
  | [] => f
  | i :: places =>
      let at_ := (i - j)%nat in
      promote places (S j) (match ReadOnly f !! at_ with
                            | Some k => mkFootprint (delete at_ (ReadOnly f)) (ReadWrite f ++ [k])
                            | None => f
                            end)
  end.

(** [ledgerCosts.newEntryRent], in integers of any size up to the sum. *)
Definition newEntryRent (c : ledgerCosts) (bytes ledgers : Z) : Z :=
  let den := i64 (1024 * Z.max (rentDenominator c) 1) in
  let rent := Z.quot (bytes * rent1KB c * Z.max ledgers (minPersistentTTL c) + i64 (den - 1)) den in
  let rent := if maxReserve <? rent then maxReserve else i64 rent in
  i64 (rent + writeEntry c + perKB ttlEntryBytes (write1KB c)).

(** [Engine.NewEntryFee] *)
Definition NewEntryFee (c : ledgerCosts) (bytes ledgers : Z) : Z :=
  let rent := newEntryRent c bytes ledgers in
  i64 (writeEntry c + perKB bytes (write1KB c) + ceilDiv (i64 (rent * SimulatedRefundablePct)) 100).

(** The footprint of [addExtra], with the entries it writes and those it reads anew. *)
Definition extend_footprint (c : ledgerCosts) (f : Footprint) (asked : list LedgerKey) : Footprint * Z * Z :=
  let s0 := mkState (map keyOf (ReadWrite f)) (ReadWrite f) [] 0 (classics (ReadOnly f ++ ReadWrite f)) 0 in
  let s := foldl (add_key c (ReadOnly f)) s0 asked in
  (promote (sort_places (promoted s)) 0 (mkFootprint (ReadOnly f) (readWrite s)), writes s, newReads s).

(** [Engine.addExtra]: the data with [x] added, the fees it adds and the reserve. *)
Definition addExtra (c : ledgerCosts) (data : TransactionData) (x : Extra) : res (TransactionData * Z * Z) :=
  before ← size data;
  let r := Res data in
  let '(f, writes, newReads) := extend_footprint c (Foot r) (XReadWrite x) in
  let instructions := Z.min (Instructions r + XInstructions x) (Z.max (maxInstructions c) (Instructions r)) in
  let writeBytes := Z.min (WriteBytes r + XWriteBytes x) (Z.max (maxWrites c) (WriteBytes r)) in
  let fee := i64 (writes * writeEntry c + newReads * readEntry c +
                  ceilDiv (i64 (instructions * instruction c)) 10000 - ceilDiv (i64 (Instructions r * instruction c)) 10000 +
                  perKB writeBytes (write1KB c) - perKB (WriteBytes r) (write1KB c)) in
  let data := mkData (mkResources f (u32 instructions) (DiskReadBytes r) (u32 writeBytes)) (ResourceFee data) (Archived data) in
  after ← size data;
  let grown := u64 (after - before) in
  let fee := i64 (fee + perKB grown (txSize1KB c) + perKB grown (historical1KB c)) in
  let reserve := if 0 <? NewBytes x then newEntryRent c (NewBytes x) (RentLedgers x) else 0 in
  mret (data, fee, i64 (reserve + perKB (EventBytes x) (events1KB c))).

(** ** The ledgers a footprint lives in *)

Definition persistent (k : LedgerKey) : bool :=
  match k with KeyContractCode _ => true | KeyContractData _ _ Persistent => true | _ => false end.

(** The loop over the entries read, in no fixed order. *)
Fixpoint live_bound (closed : Z) (entries : list rpc.Entry) (bound : Z) : res Z :=
  match entries with
  | [] => Ok bound
  | e :: entries =>
      match rpc.LiveUntil e with
      | None => live_bound closed entries bound
      | Some until =>
          if until <=? closed then Fail (Wrapf ErrRestoreNeeded "%w: an entry the call touches is archived" [])
          else let b := u32 (until + 1) in live_bound closed entries (if (bound =? 0) || (b <? bound) then b else bound)
      end
  end.

(** [Engine.liveBound] *)
Definition liveBound (c : rpc.Client) (f : Footprint) (simulated : Z) : res Z :=
  match filter (λ k, persistent k = true) (ReadOnly f ++ ReadWrite f) with
  | [] => Ok 0
  | keys =>
      '(entries, latest) ← or_fail (rpc.Entries c keys) (λ e, Wrapf e "footprint lives: %w" []);
      live_bound (Z.max latest simulated) (map_to_list entries).*2 0
  end.
End fees.

(** ** The entries a call's other path adds *)

Section footprints.
Context {sdk : StellarSDK}.

Definition names (ks : list LedgerKey) : list (list Z) := map keyOf ks.

Lemma classics_app ks ls : classics (ks ++ ls) = classics ks + classics ls.
Proof. unfold classics. rewrite filter_app, length_app. lia. Qed.

Lemma classics_one k : classics [k] = if classic k then 1 else 0.
Proof. unfold classics. rewrite filter_cons. case_decide as H; destruct (classic k); done. Qed.

Lemma classics_bound ks : 0 <= classics ks <= Z.of_nat (length ks).
Proof. unfold classics. pose proof (length_filter (λ k, classic k = true) ks). lia. Qed.

Lemma place_spec name keys i found :
  match place name i keys found with
  | Some n => (∃ k, (i <= n)%nat ∧ keys !! (n - i)%nat = Some k ∧ keyOf k = name) ∨ found = Some n ∧ name ∉ names keys
  | None => found = None ∧ name ∉ names keys
  end.
Proof.
  revert i found. induction keys as [|k keys IH]; intros i found; simpl.
  - destruct found; [right|]; split; try done; apply not_elem_of_nil.
  - specialize (IH (S i) (if decide (keyOf k = name) then Some i else found)).
    destruct (place name (S i) keys _) as [n|] eqn:E.
    + destruct IH as [(k' & Hle & Hk & Hn)|[Hf Hn]].
      * left. exists k'. split; [lia|]. split; [|done]. by replace (n - i)%nat with (S (n - S i)) by lia.
      * case_decide as D.
        -- left. injection Hf as ->. exists k. rewrite Nat.sub_diag. done.
        -- right. split; [done|]. rewrite elem_of_cons. intros [->|]; done.
    + destruct IH as [Hf Hn]. case_decide; [done|]. split; [done|]. rewrite elem_of_cons. intros [->|]; done.
Qed.

(** A key among those written or to be, and limits with room for all that is asked. *)
Definition taken (f : Footprint) (s : extra_state) (n : list Z) : Prop :=
  n ∈ names (readWrite s) ∨ ∃ i k, i ∈ promoted s ∧ ReadOnly f !! i = Some k ∧ keyOf k = n.
Definition roomy (c : ledgerCosts) (f : Footprint) (asked : list LedgerKey) : Prop :=
  Z.of_nat (length (ReadWrite f) + length asked) <= maxWriteEntries c ∧
  Z.of_nat (length (ReadOnly f) + length (ReadWrite f) + length asked) <= maxFootprint c ∧
  classics (ReadOnly f ++ ReadWrite f) + classics asked <= maxReadEntries c.

(** What holds of the loop's variables when it has gone over [asked]: [added] and the promoted places
    are what it takes, and with room it takes whatever is asked for. *)
Record grown (c : ledgerCosts) (f : Footprint) (asked : list LedgerKey) (s : extra_state) (added : list LedgerKey) : Prop := mkGrown {
  grown_rw : readWrite s = ReadWrite f ++ added;
  grown_asked : Forall (λ k, k ∈ asked) added;
  grown_new : Forall (λ k, keyOf k ∉ names (ReadOnly f)) added;
  grown_nodup : NoDup (names (readWrite s));
  grown_written : ∀ n, n ∈ names (readWrite s) → n ∈ written s;
  grown_places : NoDup (promoted s);
  grown_place : ∀ i, i ∈ promoted s → ∃ k, ReadOnly f !! i = Some k ∧ keyOf k ∈ written s ∧ keyOf k ∈ names asked;
  grown_writes : writes s = Z.of_nat (length added + length (promoted s));
  grown_few : writes s <= Z.of_nat (length asked);
  grown_reads : reads s = classics (ReadOnly f ++ readWrite s);
  grown_newReads : newReads s = classics added;
  grown_classics : newReads s <= classics asked;
  grown_write_limit : Z.of_nat (length (readWrite s) + length (promoted s)) <= Z.max (maxWriteEntries c) (Z.of_nat (length (ReadWrite f)));
  grown_limit : Z.of_nat (length (ReadOnly f) + length (readWrite s)) <=
    Z.max (maxFootprint c) (Z.of_nat (length (ReadOnly f) + length (ReadWrite f)));
  grown_read_limit : reads s <= Z.max (maxReadEntries c) (classics (ReadOnly f ++ ReadWrite f));
  grown_seen : ∀ n, n ∈ names asked → n ∈ written s;
  grown_room : roomy c f asked → ∀ n, n ∈ written s → taken f s n }.

Definition no_extra (f : Footprint) : extra_state :=
  mkState (names (ReadWrite f)) (ReadWrite f) [] 0 (classics (ReadOnly f ++ ReadWrite f)) 0.

Lemma grown_start c f : NoDup (names (ReadWrite f)) → grown c f [] (no_extra f) [].
Proof.
  intros H. unfold no_extra.
  split; simpl; rewrite ?app_nil_r; try done; try lia; try apply NoDup_nil_2; try (intros ? ?%not_elem_of_nil; done).
  intros _ n Hn. by left.
Qed.

Lemma names_app ks ls : names (ks ++ ls) = names ks ++ names ls.
Proof. apply map_app. Qed.

Lemma names_snoc ks k : names (ks ++ [k]) = names ks ++ [keyOf k].
Proof. apply names_app. Qed.

Lemma roomy_snoc c f asked k : roomy c f (asked ++ [k]) → roomy c f asked.
Proof. unfold roomy. rewrite length_app, (classics_app asked). pose proof (proj1 (classics_bound [k])). lia. Qed.

(** What one more key asked for leaves true of the loop's variables. *)
Ltac one_more :=
  match goal with
  | H : Forall (λ k, k ∈ ?l) ?a |- Forall (λ k, k ∈ ?l ++ [_]) ?a => eapply Forall_impl; [exact H|]; intros x Hx; cbn beta in *; rewrite elem_of_app; solve [auto]
  | H : ∀ i, i ∈ promoted _ → ∃ k, _ |- ∀ i, _ → ∃ k, _ =>
      let i := fresh in let Hi := fresh in let k := fresh in intros i Hi; destruct (H i Hi) as (k & ? & ? & ?); exists k; rewrite names_app, elem_of_app, ?elem_of_cons; solve [auto]
  | |- _ <= Z.of_nat (length (_ ++ _)) => rewrite length_app; simpl; lia
  | |- _ <= classics (?l ++ [?k]) => rewrite classics_app; pose proof (proj1 (classics_bound [k])); lia
  | |- ∀ n, n ∈ names (_ ++ [_]) → _ => intros n; rewrite names_snoc, elem_of_app, list_elem_of_singleton, ?elem_of_cons; intros [?| ->]; solve [auto]
  | |- ∀ n, n ∈ _ → n ∈ _ :: _ => let n := fresh in let H := fresh in intros n H; rewrite elem_of_cons; solve [auto]
  end.

(** A key met before, and one the limits leave out. *)
Lemma grown_skip c f asked s added k : grown c f asked s added → keyOf k ∈ written s → grown c f (asked ++ [k]) s added.
Proof.
  intros [] Hk. split; try done; try one_more.
  intros Hr. apply grown_room0. by eapply roomy_snoc.
Qed.

Definition leave_out (n : list Z) (s : extra_state) : extra_state :=
  mkState (n :: written s) (readWrite s) (promoted s) (writes s) (reads s) (newReads s).

Lemma grown_leave c f asked s added k : grown c f asked s added → ¬ roomy c f (asked ++ [k]) →
  grown c f (asked ++ [k]) (leave_out (keyOf k) s) added.
Proof. intros [] Hr. split; simpl; try done; one_more. Qed.

(** A key the call reads, moved to those it writes. *)
Lemma grown_promote c f asked s added k i k' : grown c f asked s added → keyOf k ∉ written s →
  Z.of_nat (length (readWrite s) + length (promoted s)) < maxWriteEntries c → ReadOnly f !! i = Some k' → keyOf k' = keyOf k →
  grown c f (asked ++ [k])
    (mkState (keyOf k :: written s) (readWrite s) (promoted s ++ [i]) (writes s + 1) (reads s) (newReads s)) added.
Proof.
  intros [] Hk Hlim Hi Hn. split; simpl; try done; try one_more.
  - apply NoDup_app. split; [done|]. split; [|apply NoDup_singleton].
    intros j Hj ->%list_elem_of_singleton. destruct (grown_place0 i Hj) as (x & Hx & Hw & _). congruence.
  - intros j [Hj| ->%list_elem_of_singleton]%elem_of_app.
    + destruct (grown_place0 j Hj) as (x & ? & ? & ?). exists x. rewrite names_app, elem_of_app, elem_of_cons. auto.
    + exists k'. rewrite names_app, elem_of_app, elem_of_cons, Hn. split; [done|]. split; [by left|]. right. by left.
  - rewrite length_app. simpl. lia.
  - rewrite length_app. simpl. lia.
  - intros Hr n [-> |Hw]%elem_of_cons.
    + right. exists i, k'. simpl. rewrite elem_of_app. split; [right; by left|]. done.
    + destruct (grown_room0 (roomy_snoc _ _ _ _ Hr) n Hw) as [?|(j & x & ? & ? & ?)]; [by left|].
      right. exists j, x. simpl. rewrite elem_of_app. auto.
Qed.

(** A key the call did not touch. *)
Lemma grown_append c f asked s added k : grown c f asked s added → keyOf k ∉ written s →
  Z.of_nat (length (readWrite s) + length (promoted s)) < maxWriteEntries c → keyOf k ∉ names (ReadOnly f) →
  Z.of_nat (length (ReadOnly f) + length (readWrite s)) < maxFootprint c →
  (classic k = true → reads s < maxReadEntries c) →
  grown c f (asked ++ [k])
    (mkState (keyOf k :: written s) (readWrite s ++ [k]) (promoted s) (writes s + 1)
      (if classic k then reads s + 1 else reads s) (if classic k then newReads s + 1 else newReads s)) (added ++ [k]).
Proof.
  intros [] Hk Hlim Hro Hfoot Hreads.
  assert (Hc : classics [k] = if classic k then 1 else 0) by apply classics_one.
  split; simpl; try done; try one_more.
  - rewrite grown_rw0, app_assoc. done.
  - apply Forall_app. split; [|apply Forall_singleton, elem_of_app; right; by left]. one_more.
  - apply Forall_app. split; [done|]. by apply Forall_singleton.
  - rewrite names_snoc. apply NoDup_app. split; [done|]. split; [|apply NoDup_singleton].
    intros n Hn ->%list_elem_of_singleton. auto.
  - rewrite length_app. simpl. lia.
  - rewrite !classics_app, Hc. rewrite classics_app in grown_reads0. destruct (classic k); lia.
  - rewrite classics_app, Hc. destruct (classic k); lia.
  - rewrite classics_app, Hc. destruct (classic k); lia.
  - rewrite length_app. simpl. lia.
  - rewrite length_app. simpl. lia.
  - destruct (classic k); [|done]. specialize (Hreads eq_refl). lia.
  - intros Hr n [-> |Hw]%elem_of_cons.
    + left. simpl. rewrite names_app, elem_of_app. right. by left.
    + destruct (grown_room0 (roomy_snoc _ _ _ _ Hr) n Hw) as [?|?]; [left|by right].
      simpl. rewrite names_app, elem_of_app. by left.
Qed.

Lemma grown_step c f asked s added k : grown c f asked s added →
  ∃ added', grown c f (asked ++ [k]) (add_key c (ReadOnly f) s k) added'.
Proof.
  intros G. unfold add_key. case_bool_decide as Hw; [exists added; by apply grown_skip|].
  assert (Hleave : ∀ P : Prop, (roomy c f (asked ++ [k]) → ¬ P) → P →
    ∃ added', grown c f (asked ++ [k]) (leave_out (keyOf k) s) added').
  { intros P HP HQ. exists added. apply grown_leave; [done|]. intros Hr. by apply (HP Hr). }
  cbn [promoted readWrite reads writes newReads written].
  destruct (Z.leb_spec (maxWriteEntries c) (Z.of_nat (length (readWrite s) + length (promoted s)))) as [Hlim|Hlim].
  { refine (Hleave _ _ Hlim). intros (Hr & _). destruct G. rewrite length_app in Hr. simpl in Hr.
    rewrite grown_rw0, length_app. lia. }
  pose proof (place_spec (keyOf k) (ReadOnly f) 0 None) as Hp.
  destruct (place (keyOf k) 0 (ReadOnly f) None) as [i|].
  { destruct Hp as [(k' & _ & Hi & Hn)|[? _]]; [|done]. rewrite Nat.sub_0_r in Hi. exists added. by eapply grown_promote. }
  destruct Hp as [_ Hro].
  destruct (Z.leb_spec (maxFootprint c) (Z.of_nat (length (ReadOnly f) + length (readWrite s)))) as [Hfoot|Hfoot]; simpl.
  { refine (Hleave _ _ Hfoot). intros (_ & Hr & _). destruct G. rewrite length_app in Hr. simpl in Hr.
    rewrite grown_rw0, length_app. lia. }
  destruct (classic k && (maxReadEntries c <=? reads s)) eqn:Hreads.
  { apply andb_prop in Hreads as [Hck Hreads]. apply Z.leb_le in Hreads.
    refine (Hleave _ _ Hreads). intros (_ & _ & Hr). destruct G. rewrite (classics_app asked), classics_one, Hck in Hr.
    rewrite grown_reads0, grown_rw0, app_assoc, (classics_app (_ ++ _)). rewrite grown_newReads0 in grown_classics0. lia. }
  exists (added ++ [k]). apply grown_append; try done.
  intros Hck. rewrite Hck in Hreads. simpl in Hreads. lia.
Qed.

Lemma grown_all c f asked : NoDup (names (ReadWrite f)) →
  ∃ added, grown c f asked (foldl (add_key c (ReadOnly f)) (no_extra f) asked) added.
Proof.
  intros Hnd. induction asked as [|k asked [added IH]] using rev_ind.
  - exists []. by apply grown_start.
  - rewrite foldl_app. simpl. by eapply grown_step.
Qed.
Lemma insert_place_perm i l : insert_place i l ≡ₚ i :: l.
Proof. induction l as [|x l IH]; simpl; [done|]. destruct (i <=? x)%nat; [done|]. rewrite IH. constructor. Qed.

Lemma sort_places_perm l : sort_places l ≡ₚ l.
Proof. induction l as [|x l IH]; simpl; [done|]. by rewrite insert_place_perm, IH. Qed.

Lemma insert_place_sorted i l : i ∉ l → Sorted lt l → Sorted lt (insert_place i l).
Proof.
  induction l as [|x l IH]; simpl; intros Hi Hs; [by repeat constructor|].
  apply not_elem_of_cons in Hi as [Hx Hi]. apply Sorted_inv in Hs as [Hs Hh].
  destruct (Nat.leb_spec i x).
  - repeat (constructor; try done). lia.
  - constructor; [by apply IH|]. destruct l as [|y l]; simpl; [constructor; lia|].
    destruct (i <=? y)%nat; constructor; [lia|]. by inversion Hh.
Qed.

Lemma sort_places_sorted l : NoDup l → Sorted lt (sort_places l).
Proof.
  induction 1 as [|x l Hx Hnd IH]; simpl; [constructor|].
  apply insert_place_sorted; [|done]. by rewrite sort_places_perm.
Qed.

(** The moves, place by place in their order, when the entries before the next place are those of [l]
    less the ones moved. *)
Lemma promote_spec (l : list LedgerKey) places j m f : Sorted lt places → (∀ i, i ∈ places → m <= i < length l)%nat → (j <= m)%nat →
  (∀ i, (m <= i)%nat → ReadOnly f !! (i - j)%nat = l !! i) →
  ReadWrite (promote places j f) = ReadWrite f ++ omap (l !!.) places ∧
  ReadOnly f ≡ₚ omap (l !!.) places ++ ReadOnly (promote places j f) ∧
  ReadOnly (promote places j f) `sublist_of` ReadOnly f.
Proof.
  revert j m f. induction places as [|i places IH]; intros j m f Hs Hb Hj Hl.
  { simpl. by rewrite app_nil_r. }
  destruct (Hb i ltac:(by left)) as [Hi1 Hi2].
  destruct (lookup_lt_is_Some_2 l i Hi2) as [k Hk].
  pose proof (Hl i Hi1) as Hat. rewrite Hk in Hat. simpl. rewrite Hat, Hk. simpl.
  assert (Hlt : ∀ i', i' ∈ places → (i < i')%nat).
  { assert (StronglySorted lt (i :: places)) as [_ Hs']%StronglySorted_inv by (apply Sorted_StronglySorted; [exact Nat.lt_trans|done]).
    intros i' Hi'. by apply (proj1 (Forall_forall _ _) Hs'). }
  destruct (IH (S j) (S i) (mkFootprint (delete (i - j)%nat (ReadOnly f)) (ReadWrite f ++ [k]))) as (IH1 & IH2 & IH3); simpl.
  - by apply Sorted_inv in Hs as [? _].
  - intros i' Hi'. specialize (Hlt i' Hi'). destruct (Hb i' ltac:(by right)). lia.
  - lia.
  - intros i' Hi'. rewrite list_lookup_delete_ge by lia. rewrite <- (Hl i') by lia. f_equal. lia.
  - simpl in *. split_and!.
    + rewrite IH1, <- app_assoc. done.
    + etransitivity; [exact (delete_Permutation _ _ _ Hat)|]. by constructor.
    + transitivity (delete (i - j)%nat (ReadOnly f)); [done|]. apply sublist_delete.
Qed.
(** The whole of [extend_footprint], from what the loop leaves. *)
Lemma extend_footprint_spec c f asked f' writes newReads : NoDup (names (ReadWrite f)) →
  extend_footprint c f asked = (f', writes, newReads) →
  ∃ s added moved, grown c f asked s added ∧ fees.writes s = writes ∧ fees.newReads s = newReads ∧
    ReadWrite f' = ReadWrite f ++ added ++ moved ∧ ReadOnly f ≡ₚ moved ++ ReadOnly f' ∧ ReadOnly f' `sublist_of` ReadOnly f ∧
    (length moved = length (promoted s)) ∧
    (∀ k, k ∈ moved ↔ ∃ i, i ∈ promoted s ∧ ReadOnly f !! i = Some k).
Proof.
  intros Hnd. unfold extend_footprint. fold (names (ReadWrite f)). fold (no_extra f).
  destruct (grown_all c f asked Hnd) as [added G].
  set (s := foldl (add_key c (ReadOnly f)) (no_extra f) asked) in *. clearbody s.
  intros E. injection E as <- <- <-.
  pose proof (sort_places_perm (promoted s)) as Hp.
  destruct (promote_spec (ReadOnly f) (sort_places (promoted s)) 0 0 (mkFootprint (ReadOnly f) (readWrite s))) as (H1 & H2 & H3).
  - apply sort_places_sorted, G.
  - intros i. rewrite Hp. intros Hi. destruct (grown_place _ _ _ _ _ G i Hi) as (k & Hk & _).
    split; [lia|]. by eapply lookup_lt_Some.
  - lia.
  - intros i _. by rewrite Nat.sub_0_r.
  - exists s, added, (omap (ReadOnly f !!.) (sort_places (promoted s))). simpl in *.
    split; [done|]. split; [done|]. split; [done|].
    split; [by rewrite app_assoc, <- (grown_rw _ _ _ _ _ G)|]. split; [done|]. split; [done|]. split.
    + transitivity (length (sort_places (promoted s))); [|by apply Permutation_length].
      assert (Hall : Forall (λ i, is_Some (ReadOnly f !! i)) (sort_places (promoted s))).
      { apply Forall_forall. intros i. rewrite Hp. intros Hi. destruct (grown_place _ _ _ _ _ G i Hi) as (k & Hk & _). eauto. }
      clear -Hall. induction Hall as [|i l [k Hk] _ IH]; simpl; [done|]. rewrite Hk. simpl. f_equal. exact IH.
    + intros k. rewrite list_elem_of_omap. setoid_rewrite Hp. done.
Qed.
Lemma classics_perm ks ls : ks ≡ₚ ls → classics ks = classics ls.
Proof. intros H. unfold classics. by rewrite H. Qed.

Lemma moved_within (ro ro' rw added moved : list LedgerKey) : ro ≡ₚ moved ++ ro' →
  ro' ++ rw ++ added ++ moved ≡ₚ (ro ++ rw) ++ added.
Proof.
  intros ->. rewrite <- !(assoc_L (++)). rewrite (Permutation_app_comm moved). rewrite <- !(assoc_L (++)). done.
Qed.

(** C20: The footprint a call goes with holds every entry its simulation found, each once, and besides
    them only entries asked for. None that was to be written becomes read-only; what is written besides
    was asked for, and [writes] and [newReads] count what is newly written and what classic entries are
    newly read. The network's limits on entries written, on the footprint and on entries read from disk
    hold after it wherever the simulation left them, and with room within them everything asked for is
    written. *)
Theorem footprint_grows_within_limits (c : ledgerCosts) (f f' : Footprint) (asked : list LedgerKey) (writes newReads : Z)
    (Hnd : NoDup (names (ReadOnly f ++ ReadWrite f))) (H : extend_footprint c f asked = (f', writes, newReads)) :
  (∃ added, ReadOnly f' ++ ReadWrite f' ≡ₚ (ReadOnly f ++ ReadWrite f) ++ added ∧
    (∀ k, k ∈ added → k ∈ asked) ∧ newReads = classics added) ∧
  NoDup (names (ReadOnly f' ++ ReadWrite f')) ∧
  ReadOnly f' `sublist_of` ReadOnly f ∧
  (∃ more, ReadWrite f' = ReadWrite f ++ more ∧ writes = Z.of_nat (length more) ∧ ∀ k, k ∈ more → keyOf k ∈ names asked) ∧
  Z.of_nat (length (ReadWrite f')) <= Z.max (maxWriteEntries c) (Z.of_nat (length (ReadWrite f))) ∧
  Z.of_nat (length (ReadOnly f' ++ ReadWrite f')) <= Z.max (maxFootprint c) (Z.of_nat (length (ReadOnly f ++ ReadWrite f))) ∧
  classics (ReadOnly f' ++ ReadWrite f') <= Z.max (maxReadEntries c) (classics (ReadOnly f ++ ReadWrite f)) ∧
  (roomy c f asked → ∀ k, k ∈ asked → keyOf k ∈ names (ReadWrite f')).
Proof.
  rewrite names_app in Hnd. apply NoDup_app in Hnd as (Hro & Hsep & Hrw).
  destruct (extend_footprint_spec _ _ _ _ _ _ Hrw H) as (s & added & moved & G & <- & <- & E & Hp & Hsub & Hlen & Hmoved).
  assert (Hall : ReadOnly f' ++ ReadWrite f' ≡ₚ (ReadOnly f ++ ReadWrite f) ++ added) by (rewrite E; by apply moved_within).
  destruct G. split_and!; try done.
  - exists added. split; [done|]. split; [|done]. by apply Forall_forall.
  - unfold names. rewrite Hall. fold (names ((ReadOnly f ++ ReadWrite f) ++ added)). rewrite <- app_assoc, <- grown_rw0, names_app.
    apply NoDup_app. split; [done|]. split; [|done].
    intros n Hn. rewrite grown_rw0, names_app, elem_of_app. intros [Hx|Hx]; [by apply (Hsep n)|].
    apply list_elem_of_fmap in Hx as (k & -> & Hk). by apply (proj1 (Forall_forall _ _) grown_new0 k Hk).
  - exists (added ++ moved). split; [by rewrite E|]. split; [rewrite length_app; lia|].
    intros k [Hk|Hk]%elem_of_app.
    + apply list_elem_of_fmap. exists k. split; [done|]. by apply (proj1 (Forall_forall _ _) grown_asked0).
    + apply Hmoved in Hk as (i & Hi & Hk). destruct (grown_place0 i Hi) as (k' & Hk' & _ & ?). by simplify_eq.
  - rewrite E. rewrite grown_rw0 in *. rewrite !length_app in *. lia.
  - rewrite Hall. rewrite grown_rw0 in *. rewrite !length_app in *. lia.
  - rewrite (classics_perm _ _ Hall), <- app_assoc, <- grown_rw0. lia.
  - intros Hr k Hk. rewrite E, app_assoc, <- grown_rw0, names_app, elem_of_app.
    destruct (grown_room0 Hr (keyOf k)) as [?|(i & k' & Hi & Hk' & <-)]; [|by left|right].
    + apply grown_seen0, list_elem_of_fmap. eauto.
    + apply list_elem_of_fmap. exists k'. split; [done|]. apply Hmoved. eauto.
Qed.
End footprints.

(** ** Fees in exact integers *)

(** Rates of up to 2^31 stroops and limits of 32 bits, as the network's settings hold them. *)
Record sane (c : ledgerCosts) : Prop := mkSane {
  sane_instruction : 0 <= instruction c < 2 ^ 31; sane_readEntry : 0 <= readEntry c < 2 ^ 31;
  sane_writeEntry : 0 <= writeEntry c < 2 ^ 31; sane_read1KB : 0 <= read1KB c < 2 ^ 31; sane_write1KB : 0 <= write1KB c < 2 ^ 31;
  sane_historical : 0 <= historical1KB c < 2 ^ 31; sane_txSize : 0 <= txSize1KB c < 2 ^ 31; sane_events : 0 <= events1KB c < 2 ^ 31;
  sane_rent : 0 <= rent1KB c; sane_denominator : rentDenominator c < 2 ^ 50; sane_minTTL : is_u32 (minPersistentTTL c);
  sane_maxInstructions : is_u32 (maxInstructions c); sane_maxReadBytes : is_u32 (maxReadBytes c); sane_maxWrites : is_u32 (maxWrites c) }.

(** [bytes] of them at a rate per KiB, and a quantity at a rate, rounded up. *)
Definition kb (bytes rate : Z) : Z := rpc.ceil (bytes * rate) 1024.

Lemma kb_range bytes rate : is_u32 bytes → 0 <= rate < 2 ^ 31 → 0 <= kb bytes rate < 2 ^ 54.
Proof.
  unfold kb, is_u32, W32. intros Hb Hr. rewrite rpc.ceil_div by nia. split; [apply Z.div_pos; nia|].
  apply Z.div_lt_upper_bound; nia.
Qed.

Lemma perKB_exact bytes rate : is_u32 bytes → 0 <= rate < 2 ^ 31 → perKB bytes rate = kb bytes rate.
Proof.
  intros Hb Hr. pose proof (kb_range bytes rate Hb Hr) as Hk. unfold perKB, kb, is_u32, W32 in *.
  rewrite (u64_small rate) by (unfold is_u64, W64; lia). rewrite (u64_small (bytes * rate)) by (unfold is_u64, W64; nia).
  rewrite u64_small by (unfold is_u64, W64; nia). rewrite rpc.ceil_div in * by nia.
  replace (bytes * rate + 1024 - 1) with (bytes * rate + 1023) in * by lia. apply rpc.i64_id. lia.
Qed.

Lemma ceilDiv_exact a b : 0 <= a < 2 ^ 62 → 0 < b < 2 ^ 31 → ceilDiv a b = rpc.ceil a b.
Proof.
  intros Ha Hb. unfold ceilDiv. rewrite (rpc.i64_id (a + b)), (rpc.i64_id (a + b - 1)) by lia.
  rewrite Z.quot_div_nonneg, rpc.ceil_div by lia. apply rpc.i64_id.
  assert (0 <= (a + b - 1) / b) by (apply Z.div_pos; lia). assert ((a + b - 1) / b < 2 ^ 63) by (apply Z.div_lt_upper_bound; nia). lia.
Qed.

Lemma cpu_exact n rate : is_u32 n → 0 <= rate < 2 ^ 31 →
  ceilDiv (i64 (n * rate)) 10000 = rpc.ceil (n * rate) 10000 ∧ 0 <= rpc.ceil (n * rate) 10000 < 2 ^ 50.
Proof.
  unfold is_u32, W32. intros Hn Hr. assert (0 <= n * rate < 2 ^ 63) by nia. rewrite rpc.i64_id by lia.
  rewrite rpc.ceil_div by lia. split.
  - unfold ceilDiv. rewrite (rpc.i64_id (n * rate + 10000)), (rpc.i64_id (n * rate + 10000 - 1)) by nia.
    rewrite Z.quot_div_nonneg by lia. apply rpc.i64_id. split; [apply Z.le_trans with 0; [lia|apply Z.div_pos; lia]|].
    apply Z.div_lt_upper_bound; nia.
  - split; [apply Z.div_pos; lia|]. apply Z.div_lt_upper_bound; nia.
Qed.

(** The rent of a new entry, capped, over integers of any size. *)
Definition entry_rent (c : ledgerCosts) (bytes ledgers : Z) : Z :=
  Z.min maxReserve (rpc.ceil (bytes * rent1KB c * Z.max ledgers (minPersistentTTL c)) (1024 * Z.max (rentDenominator c) 1)) +
  writeEntry c + kb ttlEntryBytes (write1KB c).

Lemma newEntryRent_exact c bytes ledgers : sane c → is_u32 bytes → is_u32 ledgers →
  newEntryRent c bytes ledgers = entry_rent c bytes ledgers ∧ 0 <= entry_rent c bytes ledgers < 2 ^ 55.
Proof.
  intros S Hb Hl. unfold newEntryRent, entry_rent, is_u32, W32 in *.
  pose proof (sane_rent c S). pose proof (sane_denominator c S). pose proof (sane_minTTL c S) as Hm. unfold is_u32, W32 in Hm.
  pose proof (sane_writeEntry c S). pose proof (sane_write1KB c S).
  rewrite (rpc.i64_id (1024 * Z.max (rentDenominator c) 1)) by lia.
  rewrite (rpc.i64_id (1024 * Z.max (rentDenominator c) 1 - 1)) by lia.
  rewrite perKB_exact by (unfold is_u32, W32, ttlEntryBytes; lia).
  pose proof (kb_range ttlEntryBytes (write1KB c) ltac:(unfold is_u32, W32, ttlEntryBytes; lia) ltac:(done)) as Hkb.
  set (den := 1024 * Z.max (rentDenominator c) 1) in *. set (n := bytes * rent1KB c * Z.max ledgers (minPersistentTTL c)).
  assert (0 <= n) by (unfold n; apply Z.mul_nonneg_nonneg; [nia|lia]).
  assert (0 < den) by lia.
  rewrite Z.quot_div_nonneg by lia. replace (n + (den - 1)) with (n + den - 1) by lia. rewrite <- rpc.ceil_div by done.
  pose proof (rpc.ceil_nonneg n den ltac:(done) ltac:(done)). unfold maxReserve in *.
  destruct (Z.ltb_spec (2 ^ 50) (rpc.ceil n den)).
  - rewrite Z.min_l by lia. split; [apply rpc.i64_id|]; lia.
  - rewrite Z.min_r by lia. rewrite (rpc.i64_id (rpc.ceil n den)) by lia. split; [apply rpc.i64_id|]; lia.
Qed.


(** A quantity raised by [more] and held to a limit of 32 bits, or to what it was when that is above. *)
Lemma held_to n more limit : is_u32 n → is_u32 limit → 0 <= more →
  let m := Z.min (n + more) (Z.max limit n) in n <= m <= Z.max limit n ∧ u32 m = m ∧ is_u32 m.
Proof.
  cbn. intros Hn Hl Hm. assert (is_u32 (Z.min (n + more) (Z.max limit n))) by (unfold is_u32 in *; lia).
  split; [lia|]. by rewrite u32_small.
Qed.

(** The fees one run of [addExtra] adds, over integers of any size: [i] and [w] the instructions and
    written bytes after it, and [grown] the bytes the data grew by. *)
Definition extra_charge (c : ledgerCosts) (r : Resources) (i w writes newReads grown : Z) : Z :=
  writes * writeEntry c + newReads * readEntry c +
  (rpc.ceil (i * instruction c) 10000 - rpc.ceil (Instructions r * instruction c) 10000) +
  (kb w (write1KB c) - kb (WriteBytes r) (write1KB c)) + kb grown (txSize1KB c) + kb grown (historical1KB c).
Definition extra_reserve (c : ledgerCosts) (x : Extra) : Z :=
  (if 0 <? NewBytes x then entry_rent c (NewBytes x) (RentLedgers x) else 0) + kb (EventBytes x) (events1KB c).

Record u32_resources (r : Resources) : Prop := mkU32 {
  u32_instructions : is_u32 (Instructions r); u32_read : is_u32 (DiskReadBytes r); u32_write : is_u32 (WriteBytes r) }.
Record u32_extra (x : Extra) : Prop := mkU32Extra {
  u32_x_instructions : is_u32 (XInstructions x); u32_x_write : is_u32 (XWriteBytes x); u32_x_new : is_u32 (NewBytes x);
  u32_x_ledgers : is_u32 (RentLedgers x); u32_x_events : is_u32 (EventBytes x);
  few_asked : Z.of_nat (length (XReadWrite x)) < 2 ^ 20 }.

Lemma kb_mono a b rate : is_u32 a → a <= b → 0 <= rate → kb a rate <= kb b rate.
Proof. unfold is_u32. intros Ha Hab Hr. apply rpc.ceil_mono; nia. Qed.

Lemma charge_exact c r i w writes newReads grown : sane c → u32_resources r → is_u32 i → is_u32 w → is_u32 grown →
  Instructions r <= i → WriteBytes r <= w → 0 <= newReads <= writes → writes < 2 ^ 20 →
  i64 (i64 (writes * writeEntry c + newReads * readEntry c +
            ceilDiv (i64 (i * instruction c)) 10000 - ceilDiv (i64 (Instructions r * instruction c)) 10000 +
            perKB w (write1KB c) - perKB (WriteBytes r) (write1KB c)) + perKB grown (txSize1KB c) + perKB grown (historical1KB c)) =
  extra_charge c r i w writes newReads grown ∧ 0 <= extra_charge c r i w writes newReads grown < 2 ^ 57.
Proof.
  intros [] [] Hi Hw Hg Hri Hrw Hn Hwr. unfold extra_charge.
  destruct (cpu_exact i (instruction c)) as [-> Ci]; [done|done|].
  destruct (cpu_exact (Instructions r) (instruction c)) as [-> Cr]; [done|done|].
  rewrite !perKB_exact by done.
  pose proof (kb_range w (write1KB c) Hw ltac:(done)). pose proof (kb_range (WriteBytes r) (write1KB c) ltac:(done) ltac:(done)).
  pose proof (kb_range grown (txSize1KB c) Hg ltac:(done)). pose proof (kb_range grown (historical1KB c) Hg ltac:(done)).
  assert (rpc.ceil (Instructions r * instruction c) 10000 <= rpc.ceil (i * instruction c) 10000).
  { apply rpc.ceil_mono; [|done]. unfold is_u32 in *. nia. }
  pose proof (kb_mono (WriteBytes r) w (write1KB c) ltac:(done) ltac:(done) ltac:(lia)).
  assert (0 <= writes * writeEntry c < 2 ^ 51) by nia. assert (0 <= newReads * readEntry c < 2 ^ 51) by nia.
  rewrite (rpc.i64_id (writes * writeEntry c + _ + _ - _ + _ - _)) by lia. rewrite rpc.i64_id by lia. lia.
Qed.

Lemma reserve_exact c x : sane c → u32_extra x →
  i64 ((if 0 <? NewBytes x then newEntryRent c (NewBytes x) (RentLedgers x) else 0) + perKB (EventBytes x) (events1KB c)) =
  extra_reserve c x ∧ 0 <= extra_reserve c x < 2 ^ 56.
Proof.
  intros S []. destruct (newEntryRent_exact c (NewBytes x) (RentLedgers x) S) as [Hr Hb]; [done|done|]. destruct S.
  rewrite perKB_exact by done. unfold extra_reserve. rewrite Hr.
  pose proof (kb_range (EventBytes x) (events1KB c) ltac:(done) ltac:(done)).
  destruct (0 <? NewBytes x); rewrite rpc.i64_id by lia; lia.
Qed.

(** What another path may need is added to a call exactly: the resources grow by what is asked, held
    to the network's limits and never shrink, the disk bytes and the fee declared stay, and the fee added
    is that of the entries, instructions, bytes and size added, in exact integers with no overflow, at
    rates up to 2^31 stroops. It and the reserve, which is the rent of a new entry and its events, are
    never negative, so what is added never lowers the fee. *)
Theorem extra_is_charged_exactly {sdk : StellarSDK} (size : TransactionData → res Z) (c : ledgerCosts) (data data' : TransactionData)
    (x : Extra) (fee reserve : Z) (S : sane c) (Hr : u32_resources (Res data)) (Hx : u32_extra x)
    (Hnd : NoDup (names (ReadWrite (Foot (Res data)))))
    (Hsize : ∀ d n, size d = Ok n → is_u32 n) (Hgrows : ∀ d d' n n' added, size d = Ok n → size d' = Ok n' → Archived d' = Archived d →
      ReadOnly (Foot (Res d')) ++ ReadWrite (Foot (Res d')) ≡ₚ (ReadOnly (Foot (Res d)) ++ ReadWrite (Foot (Res d))) ++ added → n <= n')
    (H : addExtra size c data x = Ok (data', fee, reserve)) :
  let r := Res data in let r' := Res data' in
  Instructions r' = Z.min (Instructions r + XInstructions x) (Z.max (maxInstructions c) (Instructions r)) ∧
  WriteBytes r' = Z.min (WriteBytes r + XWriteBytes x) (Z.max (maxWrites c) (WriteBytes r)) ∧
  DiskReadBytes r' = DiskReadBytes r ∧ ResourceFee data' = ResourceFee data ∧ Archived data' = Archived data ∧ u32_resources r' ∧
  (∃ writes newReads before after, extend_footprint c (Foot r) (XReadWrite x) = (Foot r', writes, newReads) ∧
    size data = Ok before ∧ size data' = Ok after ∧ before <= after ∧
    fee = extra_charge c r (Instructions r') (WriteBytes r') writes newReads (after - before)) ∧
  reserve = extra_reserve c x ∧ 0 <= fee < 2 ^ 57 ∧ 0 <= reserve < 2 ^ 56.
Proof.
  cbv zeta. unfold addExtra in H. apply bind_Ok in H as (before & Hb & H).
  destruct (extend_footprint c (Foot (Res data)) (XReadWrite x)) as [[f writes] newReads] eqn:Ef.
  apply bind_Ok in H as (after & Ha & H). injection H as <- <- <-. cbn [Res Foot Instructions WriteBytes DiskReadBytes ResourceFee Archived].
  destruct (extend_footprint_spec _ _ _ _ _ _ Hnd Ef) as (s & added & moved & G & Hw & Hn & E & Hp & _).
  destruct (held_to (Instructions (Res data)) (XInstructions x) (maxInstructions c)) as (I1 & I2 & I3);
    [apply Hr|apply S|destruct (u32_x_instructions x Hx); lia|].
  destruct (held_to (WriteBytes (Res data)) (XWriteBytes x) (maxWrites c)) as (W1 & W2 & W3);
    [apply Hr|apply S|destruct (u32_x_write x Hx); lia|].
  rewrite I2, W2 in *. set (i := Z.min (Instructions _ + _) _) in *. set (w := Z.min (WriteBytes _ + _) _) in *.
  assert (Hle : before <= after).
  { eapply (Hgrows _ _ _ _ added Hb Ha); [done|]. cbn. rewrite E. by apply moved_within. }
  pose proof (Hsize _ _ Hb) as Ub. pose proof (Hsize _ _ Ha) as Ua.
  assert (Ug : is_u32 (after - before)) by (unfold is_u32 in *; lia).
  assert (Hg : u64 (after - before) = after - before) by (apply u64_small; unfold is_u32, is_u64, W32, W64 in *; lia).
  destruct (reserve_exact c x S Hx) as [-> HR].
  destruct (charge_exact c (Res data) i w writes newReads (after - before)) as [HF HF']; try done; [lia|lia| | |].
  { pose proof (grown_writes _ _ _ _ _ G). pose proof (grown_newReads _ _ _ _ _ G). pose proof (classics_bound added). lia. }
  { pose proof (grown_few _ _ _ _ _ G). pose proof (few_asked x Hx). lia. }
  rewrite Hg, HF. split_and!; try done; try lia.
  - split; simpl; [done|apply Hr|done].
  - exists writes, newReads, before, after. done.
Qed.

(** Padding gives each classic entry of the footprint its 2 KiB to read, and to write when the call
    writes it, held to the network's limits: the bytes never shrink, nothing else of the resources moves,
    a call that touches no classic entry is left alone at no fee, and the fee is that of the bytes added,
    exact and never negative. *)
Theorem padding_is_charged_exactly (c : ledgerCosts) (r : Resources) (S : sane c) (Hr : u32_resources r)
    (Hlen : Z.of_nat (length (ReadOnly (Foot r) ++ ReadWrite (Foot r))) < 2 ^ 20) :
  let '(r', fee) := padClassic c r in
  let reads := classics (ReadOnly (Foot r) ++ ReadWrite (Foot r)) in let writes := classics (ReadWrite (Foot r)) in
  DiskReadBytes r' = Z.min (DiskReadBytes r + 2048 * reads) (Z.max (maxReadBytes c) (DiskReadBytes r)) ∧
  WriteBytes r' = Z.min (WriteBytes r + 2048 * writes) (Z.max (maxWrites c) (WriteBytes r)) ∧
  Foot r' = Foot r ∧ Instructions r' = Instructions r ∧ u32_resources r' ∧
  fee = kb (DiskReadBytes r' - DiskReadBytes r) (read1KB c) + kb (WriteBytes r' - WriteBytes r) (write1KB c) ∧ 0 <= fee < 2 ^ 56 ∧
  (pads r = false → r' = r ∧ fee = 0).
Proof.
  unfold padClassic, pads, classicPad. cbv zeta. rewrite classics_app.
  pose proof (classics_bound (ReadOnly (Foot r))) as C1. pose proof (classics_bound (ReadWrite (Foot r))) as C2.
  destruct r as [f i rd wr]. destruct Hr as [Ui Ur Uw]. cbn [Foot Instructions DiskReadBytes WriteBytes] in *.
  set (n := classics (ReadOnly f)) in *. set (m := classics (ReadWrite f)) in *. clearbody n m.
  destruct (held_to rd (2048 * (n + m)) (maxReadBytes c)) as (R1 & R2 & R3); [done|apply S|lia|].
  destruct (held_to wr (2048 * m) (maxWrites c)) as (W1 & W2 & W3); [done|apply S|lia|].
  replace ((m + n) * 2048) with (2048 * (n + m)) by lia. replace (m * 2048) with (2048 * m) by lia. rewrite R2, W2.
  set (r' := Z.min (rd + _) _) in *. set (w' := Z.min (wr + _) _) in *.
  assert (Ug : is_u32 (r' - rd) ∧ is_u32 (w' - wr)) by (unfold is_u32 in *; lia). destruct Ug as [Ug1 Ug2].
  rewrite (u64_small (r' - rd)), (u64_small (w' - wr)) by (unfold is_u32, is_u64, W32, W64 in *; lia).
  destruct S. rewrite !perKB_exact by done.
  pose proof (kb_range (r' - rd) (read1KB c) Ug1 ltac:(done)). pose proof (kb_range (w' - wr) (write1KB c) Ug2 ltac:(done)).
  rewrite rpc.i64_id by lia. split_and!; try done; try lia.
  intros Hz%negb_false_iff%Z.eqb_eq. assert (n = 0 ∧ m = 0) as [-> ->] by lia.
  assert (r' = rd) as -> by lia. assert (w' = wr) as -> by lia. rewrite !Z.sub_diag. by destruct (read1KB c), (write1KB c).
Qed.

(** ** The ledgers a footprint lives in *)

(** The bound one loop gives over lapses in any order: the least ledger after one, or the bound before. *)
Lemma live_bound_spec closed entries bound : (∀ e u, e ∈ entries → rpc.LiveUntil e = Some u → 0 <= u < W32 - 1) → 0 <= bound →
  match live_bound closed entries bound with
  | Ok b => (∀ e u, e ∈ entries → rpc.LiveUntil e = Some u → closed < u ∧ b <= u + 1 ∧ b ≠ 0) ∧ (bound ≠ 0 → b <= bound ∧ b ≠ 0) ∧ 0 <= b ∧
      (b = bound ∨ ∃ e, e ∈ entries ∧ rpc.LiveUntil e = Some (b - 1))
  | Fail err => err = Wrapf ErrRestoreNeeded "%w: an entry the call touches is archived" [] ∧ ∃ e u, e ∈ entries ∧ rpc.LiveUntil e = Some u ∧ u <= closed
  end.
Proof.
  revert bound. induction entries as [|e entries IH]; intros bound Hu Hb; simpl.
  { split; [by intros e u ?%elem_of_nil|]. split; [done|]. split; [done|]. by left. }
  assert (Hu' : ∀ e u, e ∈ entries → rpc.LiveUntil e = Some u → 0 <= u < W32 - 1) by (intros; eapply Hu; [by right|done]).
  destruct (rpc.LiveUntil e) as [u|] eqn:El.
  - pose proof (Hu e u ltac:(by left) El) as Hr.
    destruct (Z.leb_spec u closed); [split; [reflexivity|]; exists e, u; split; [by left|]; done|].
    assert (u32 (u + 1) = u + 1) as -> by (apply u32_small; unfold is_u32; lia).
    set (b1 := if (bound =? 0) || (u + 1 <? bound) then u + 1 else bound).
    assert (Hb1 : 0 < b1 ∧ b1 <= u + 1 ∧ (bound ≠ 0 → b1 <= bound) ∧ (b1 = bound ∨ b1 = u + 1)).
    { unfold b1. destruct (Z.eqb_spec bound 0); simpl; [lia|]. destruct (Z.ltb_spec (u + 1) bound); lia. }
    specialize (IH b1 Hu' ltac:(lia)). destruct (live_bound closed entries b1) as [b|err].
    + destruct IH as (I1 & I2 & I3 & I4). specialize (I2 ltac:(lia)). split_and!; try lia.
      * intros e' u' [->|He']%elem_of_cons Eu; [|by eapply I1]. rewrite El in Eu. injection Eu as <-. lia.
      * destruct I4 as [->|(e' & He' & Eu)]; [|right; exists e'; split; [by right|done]].
        destruct Hb1 as (_ & _ & _ & [->| ->]); [by left|]. right. exists e. split; [by left|]. rewrite El. f_equal. lia.
    + destruct IH as (I1 & e' & u' & ? & ?). split; [done|]. exists e', u'. split; [by right|done].
  - specialize (IH bound Hu' Hb). destruct (live_bound closed entries bound) as [b|err].
    + destruct IH as (I1 & I2 & I3 & I4). split_and!; try done.
      * intros e' u' [->|He']%elem_of_cons Eu; [congruence|by eapply I1].
      * destruct I4 as [->|(e' & He' & Eu)]; [by left|]. right. exists e'. split; [by right|done].
    + destruct IH as (I1 & e' & u' & ? & ?). split; [done|]. exists e', u'. split; [by right|done].
Qed.

(** A persistent entry of a footprint on the ledger, live until [u]. *)
Definition lives {sdk : StellarSDK} (ledger : gmap string rpc.Entry) (f : Footprint) (u : Z) : Prop :=
  ∃ k s e, k ∈ ReadOnly f ++ ReadWrite f ∧ persistent k = true ∧ rpc.KeyString k = Ok s ∧ ledger !! s = Some e ∧ rpc.LiveUntil e = Some u.

(** Against an RPC that serves the ledger, the bound set on a transaction is the first ledger in which
    a persistent entry of its footprint is no longer live, 0 when none has a lapse; it is refused exactly
    when one is not live in the first ledger the transaction can land in. So in every ledger a bounded
    transaction may land in, no entry it touches is archived. *)
Theorem bound_is_the_first_lapse {sdk : StellarSDK} (c : rpc.Client) (ledger : gmap string rpc.Entry) (latest simulated : Z) (f : Footprint)
    (Hc : rpc.serves c ledger latest) (Hl : latest ≠ 0)
    (Hk : ∀ k, k ∈ ReadOnly f ++ ReadWrite f → is_Some (marshal_key k))
    (Hu : ∀ s e u, ledger !! s = Some e → rpc.LiveUntil e = Some u → 0 <= u < W32 - 1) :
  let first := Z.max latest simulated + 1 in
  match liveBound c f simulated with
  | Ok bound =>
      (∀ u, lives ledger f u → first <= u) ∧
      (bound = 0 ↔ ∀ u, ¬ lives ledger f u) ∧
      (bound ≠ 0 → lives ledger f (bound - 1) ∧ ∀ u, lives ledger f u → bound - 1 <= u)
  | Fail err => err = Wrapf ErrRestoreNeeded "%w: an entry the call touches is archived" [] ∧ ∃ u, lives ledger f u ∧ u < first
  end.
Proof.
  cbv zeta. unfold liveBound.
  set (keys := filter (λ k, persistent k = true) (ReadOnly f ++ ReadWrite f)).
  assert (Hkeys : ∀ k, k ∈ keys ↔ persistent k = true ∧ k ∈ ReadOnly f ++ ReadWrite f) by (intros k; unfold keys; by rewrite list_elem_of_filter).
  destruct (decide (keys = [])) as [Hnil|Hnil].
  { rewrite Hnil in *. assert (Hno : ∀ u, ¬ lives ledger f u).
    { intros u (k & s & e & Hin & Hp & _). apply (not_elem_of_nil k), Hkeys. done. }
    split_and!; [by intros u ?%Hno|done|done]. }
  destruct (rpc.Entries_exactly c ledger latest keys Hc Hl Hnil) as (m & Hm & Hin); [intros k Hin; apply Hk, Hkeys, Hin|].
  destruct keys as [|k0 keys0] eqn:Ek; [done|]. rewrite <- Ek in *. rewrite Hm. cbn [or_fail mbind res_bind].
  assert (Hlives : ∀ u, lives ledger f u ↔ ∃ e, e ∈ (map_to_list m).*2 ∧ rpc.LiveUntil e = Some u).
  { intros u. split.
    - intros (k & s & e & Hi & Hp & Hs & He & Hlu). exists e. split; [|done]. apply list_elem_of_fmap.
      exists (s, e). split; [done|]. apply elem_of_map_to_list, Hin. split; [done|]. exists k. split; [by apply Hkeys|done].
    - intros (e & He & Hlu). apply list_elem_of_fmap in He as ([s e'] & -> & He). apply elem_of_map_to_list, Hin in He as (He & k & Hi & Hs).
      apply Hkeys in Hi as [Hp Hi]. exists k, s, e'. done. }
  pose proof (live_bound_spec (Z.max latest simulated) (map_to_list m).*2 0) as Hspec.
  destruct (live_bound _ _ 0) as [b|err].
  - destruct Hspec as (I1 & _ & I3 & I4); [|lia|].
    { intros e u He. apply list_elem_of_fmap in He as ([s e'] & -> & He). apply elem_of_map_to_list, Hin in He as [He _]. by apply (Hu s). }
    split_and!.
    + intros u (e & He & Hlu)%Hlives. specialize (I1 e u He Hlu). lia.
    + split; [|intros Hno; destruct I4 as [?|(e & He & Hlu)]; [done|]; exfalso; apply (Hno (b - 1)), Hlives; by exists e].
      intros -> u (e & He & Hlu)%Hlives. by destruct (I1 e u He Hlu) as (_ & _ & ?).
    + intros Hb. destruct I4 as [?|(e & He & Hlu)]; [done|]. split; [apply Hlives; by exists e|].
      intros u (e' & He' & Hlu')%Hlives. specialize (I1 e' u He' Hlu'). lia.
  - destruct Hspec as (I1 & e & u & He & Hlu & Hle); [|lia|].
    { intros e u He. apply list_elem_of_fmap in He as ([s e'] & -> & He). apply elem_of_map_to_list, Hin in He as [He _]. by apply (Hu s). }
    split; [done|]. exists u. split; [|lia]. apply Hlives. by exists e.
Qed.
(** ** A call that may also pay an account *)

(** Keys of code and accounts encode as their identifiers; the call reads code 1 and 2 and account 4, and
    writes code 3. Its other path writes code 2, account 6 and code 5, for which three written entries
    leave no room. *)
Definition fee_sdk : StellarSDK :=
  example.sdk_keys [] (λ _, None) (λ k, match k with KeyContractCode h => Some h | KeyAccount id => Some id | _ => None end).
Definition fee_costs : ledgerCosts := mkCosts 0 25 6250 10000 1786 3500 16235 1624 10000 115390 1215 2073600 100000000 40 3 20 200000 132096.
Definition fee_footprint : Footprint := mkFootprint [KeyContractCode [1]; KeyContractCode [2]; KeyAccount [4]] [KeyContractCode [3]].
Definition fee_asked : list LedgerKey := [KeyContractCode [2]; KeyContractCode [3]; KeyAccount [6]; KeyContractCode [5]].
Definition fee_after : Footprint :=
  mkFootprint [KeyContractCode [1]; KeyAccount [4]] [KeyContractCode [3]; KeyAccount [6]; KeyContractCode [2]].

Lemma fee_names : NoDup (names (sdk := fee_sdk) (ReadOnly fee_footprint ++ ReadWrite fee_footprint)).
Proof. apply (bool_decide_eq_true_1 _). vm_compute. reflexivity. Qed.

Lemma footprint_grows_witness : extend_footprint (sdk := fee_sdk) fee_costs fee_footprint fee_asked = (fee_after, 2, 1) ∧
  Z.of_nat (length (ReadWrite fee_after)) <= 3 ∧ classics (ReadOnly fee_after ++ ReadWrite fee_after) = 2.
Proof.
  assert (H : extend_footprint (sdk := fee_sdk) fee_costs fee_footprint fee_asked = (fee_after, 2, 1)) by (vm_compute; reflexivity).
  split; [exact H|].
  destruct (footprint_grows_within_limits (sdk := fee_sdk) _ _ _ _ _ _ fee_names H) as (_ & _ & _ & _ & H1 & _).
  split; [exact H1|vm_compute; reflexivity].
Defined.

(** A size of four bytes a key. *)
Definition fee_size (d : TransactionData) : res Z :=
  let n := 100 + 4 * Z.of_nat (length (ReadOnly (Foot (Res d)) ++ ReadWrite (Foot (Res d)))) in
  if n <? W32 then Ok n else Fail (Sentinel "too large").
Definition fee_data : TransactionData := mkData (mkResources fee_footprint 5000000 400 900) 70000 [].
Definition fee_extra : Extra := mkExtra fee_asked 3000000 500 200 100000 300.

Lemma fee_sane : sane fee_costs.
Proof. by split; vm_compute. Qed.

Lemma fee_data_u32 : u32_resources (Res fee_data).
Proof. by split; vm_compute. Qed.

Lemma fee_extra_u32 : u32_extra fee_extra.
Proof. by split; vm_compute. Qed.

Lemma fee_size_range d n : fee_size d = Ok n → is_u32 n.
Proof. unfold fee_size. case_match eqn:E; [|done]. intros [= <-]. apply Z.ltb_lt in E. unfold is_u32. lia. Qed.

Lemma fee_size_grows d d' n n' added : fee_size d = Ok n → fee_size d' = Ok n' → Archived d' = Archived d →
  ReadOnly (Foot (Res d')) ++ ReadWrite (Foot (Res d')) ≡ₚ (ReadOnly (Foot (Res d)) ++ ReadWrite (Foot (Res d))) ++ added → n <= n'.
Proof.
  unfold fee_size. intros H1 H2 _ Hp%Permutation_length. rewrite (length_app (_ ++ _) added) in Hp.
  destruct (_ <? W32) in H1; [|done]. destruct (_ <? W32) in H2; [|done]. injection H1 as <-. injection H2 as <-. lia.
Qed.

Lemma extra_witness : ∃ data' fee reserve, addExtra (sdk := fee_sdk) fee_size fee_costs fee_data fee_extra = Ok (data', fee, reserve) ∧
  Foot (Res data') = fee_after ∧ Instructions (Res data') = 8000000 ∧ fee = 35530 ∧ reserve = extra_reserve fee_costs fee_extra ∧ 0 <= fee.
Proof.
  destruct (addExtra (sdk := fee_sdk) fee_size fee_costs fee_data fee_extra) as [[[data' fee] reserve]|] eqn:E;
    [|exfalso; revert E; vm_compute; discriminate].
  exists data', fee, reserve. split; [reflexivity|].
  destruct (extra_is_charged_exactly (sdk := fee_sdk) fee_size fee_costs fee_data data' fee_extra fee reserve fee_sane) as (H1 & _ & _ & _ & _ & _ & _ & H2 & H3 & _).
  - exact fee_data_u32.
  - exact fee_extra_u32.
  - apply (bool_decide_eq_true_1 _). vm_compute. reflexivity.
  - exact fee_size_range.
  - exact fee_size_grows.
  - exact E.
  - assert (Hv : addExtra (sdk := fee_sdk) fee_size fee_costs fee_data fee_extra = Ok (data', fee, reserve)) by exact E.
    vm_compute in Hv. injection Hv as <- <- <-. vm_compute in H1. split_and!; [reflexivity|reflexivity|reflexivity|exact H2|apply H3].
Defined.

Lemma padding_witness : padClassic fee_costs (mkResources fee_footprint 5000000 400 900) =
  (mkResources fee_footprint 5000000 2448 900, 3572) ∧ pads (mkResources fee_footprint 5000000 400 900) = true ∧ 0 <= 3572.
Proof.
  pose proof (padding_is_charged_exactly fee_costs (mkResources fee_footprint 5000000 400 900) fee_sane) as H.
  assert (E : padClassic fee_costs (mkResources fee_footprint 5000000 400 900) = (mkResources fee_footprint 5000000 2448 900, 3572))
    by (vm_compute; reflexivity).
  rewrite E in H. split; [exact E|]. split; [reflexivity|]. apply H; [split; vm_compute; done|vm_compute; reflexivity].
Defined.

(** A ledger with code A live until 500 and code B until 90, and a client that serves it. *)
Definition lapse_ledger : gmap string rpc.Entry :=
  {[ "A"%string := rpc.mkEntry (rpc.DataOther 7) 1 (Some 500); "B"%string := rpc.mkEntry (rpc.DataOther 7) 1 (Some 90) ]}.
Definition lapse_client : rpc.Client := rpc.mkClient (Ok (1, 80, 100))
  (λ batch, Ok (filter (λ p : string * rpc.Entry, p.1 ∈ batch) (map_to_list lapse_ledger), 80)).
Definition lapse_footprint : Footprint := mkFootprint [KeyContractCode [65]] [KeyContractCode [66]].

Lemma lapse_serves : rpc.serves lapse_client lapse_ledger 80.
Proof.
  intros batch _. eexists. split; [reflexivity|]. intros s e.
  rewrite list_elem_of_filter, elem_of_map_to_list. done.
Qed.

Lemma lapse_range s e u : lapse_ledger !! s = Some e → rpc.LiveUntil e = Some u → 0 <= u < W32 - 1.
Proof.
  unfold lapse_ledger, W32. rewrite lookup_insert_Some, lookup_singleton_Some.
  intros [[_ <-]|[_ [_ <-]]]; intros [= <-]; lia.
Qed.

Lemma lapse_witness : liveBound (sdk := fee_sdk) lapse_client lapse_footprint 85 = Ok 91 ∧ lives (sdk := fee_sdk) lapse_ledger lapse_footprint 90 ∧
  ∃ err, liveBound (sdk := fee_sdk) lapse_client lapse_footprint 90 = Fail err ∧ err = Wrapf ErrRestoreNeeded "%w: an entry the call touches is archived" [].
Proof.
  assert (Hk : ∀ k, k ∈ ReadOnly lapse_footprint ++ ReadWrite lapse_footprint → is_Some (@marshal_key fee_sdk k)).
  { intros k [->|[->|[]%elem_of_nil]%elem_of_cons]%elem_of_cons; eexists; reflexivity. }
  pose proof (λ n, bound_is_the_first_lapse (sdk := fee_sdk) lapse_client lapse_ledger 80 n lapse_footprint lapse_serves ltac:(discriminate) Hk lapse_range) as H.
  assert (E : liveBound (sdk := fee_sdk) lapse_client lapse_footprint 85 = Ok 91) by (vm_compute; reflexivity).
  split; [exact E|]. split.
  - specialize (H 85). rewrite E in H. apply H. discriminate.
  - specialize (H 90). destruct (liveBound lapse_client lapse_footprint 90) as [b|err] eqn:E'; [exfalso; revert E'; vm_compute; discriminate|].
    exists err. split; [reflexivity|]. apply H.
Defined.
End fees.
