(* ===== verification/Engine.v ===== *)
(** The submission engine of [services/internal/submit/submit.go]: a call simulated, assembled within the
    fees and bounds its operator set, signed, sent, and followed until the network applied it, failed it
    or can no longer take it.

    The world outside is a function of what was asked of it before, so that any network is one; each
    question is recorded, with what sends and looks-up of transactions were answered. A context is the
    number of waits it lasts. The marshalling and signing of transactions is the SDK's. *)
From S2P Require Import Prelude.
From S2P Require Import Xdr.
From S2P Require Import ScVal.
From S2P Require Import Events.
From S2P Require Import Keys.
From S2P Require Import Rpc.
From S2P Require Import RelayOutcome.
From S2P Require Import EngineFees.

Module engine.

Import fees.

(** ** Data *)

(** The settings of [Engine]; times are in nanoseconds. *)
Record Config : Type := mkConfig {
  AccountID : string; MaxInclusionFee : Z; ResourceMarginPct : Z; MaxResourceFee : Z; MaxTTLFee : Z; RefuseRestores : bool;
  Validity : Z; Poll : Z }.

(** What an operation asks for, its data apart: a call of a contract or another host function, how far an
    extension goes, or nothing more. *)
Inductive Payload : Type :=
| Contract (address : ScAddress) (function : string) (args : list ScVal)
| HostFunction (type : Z)
| ExtendTo (ledgers : Z)
| NoPayload.

(** Operations: what they call or extend, the authorization an invocation carries and its Soroban data. *)
Record OpBody : Type := mkOp { Call : Payload; Auth : list (list Z); Ext : option TransactionData }.
Inductive Operation : Type :=
| InvokeHostFunction (o : OpBody)
| ExtendFootprintTtl (o : OpBody)
| RestoreFootprint (o : OpBody)
| OtherOperation (type : string).

(** What [txnbuild.NewTransaction] is given, with the sequence number after its increment. *)
Record Tx : Type := mkTx { TSeq : Z; TFee : Z; TMaxTime : Z; TMaxLedger : Z; TOp : Operation }.

(** The answers of the RPC, their XDR decoded; [None] is XDR that does not decode. An authorization is
    whether its credentials are the source account's, and its bytes. *)
Record SimResult : Type := mkSimResult { AuthXDR : option (list (option (bool * list Z))); ReturnXDR : option (option ScVal) }.
Record Simulation : Type := mkSim {
  SimError : string; Preamble : bool; SimData : option TransactionData; MinResourceFee : Z; Results : list SimResult; SimLatest : Z }.
Record SendResponse : Type := mkSendResponse { SStatus : string; SCode : option string; SLatest : Z; SClosed : Z }.

Inductive OpResult : Type := NoTr | Tr (code : option outcome.InvokeCode).
Record TxResult : Type := mkTxResult { TxFee : Z; TxResultCode : string; OpResults : option (list OpResult) }.
Inductive Meta : Type :=
| MetaV3 (soroban : option (option (Z * Z) * ScVal * list events.ContractEvent * list events.ContractEvent))
| MetaV4 (soroban : option (option (Z * Z) * option ScVal)) (operations : list (list events.ContractEvent))
    (diagnostics : list events.ContractEvent)
| MetaOther (v : Z).
Record GetResponse : Type := mkGetResponse {
  GStatus : string; GLedger : Z; GLatest : Z; GClosed : Z; GResult : option TxResult;
  GDiagnostics : list (option events.ContractEvent); GMeta : option Meta }.

(** What was asked, newest first. *)
Inductive Event : Type :=
| Asked
| Waited (d : Z)
| Sent (t : Tx) (hash : string) (a : res SendResponse)
| Got (hash : string) (a : res GetResponse).

(** The world outside, after what was asked of it: the clock, the RPC's answers, and the callers' own
    functions. *)
Record Env : Type := mkEnv {
  now : list Event → Z;
  GetFeeStats : list Event → res Z;
  reads : list Event → rpc.Client;
  Simulate : list Event → string → res Simulation;
  SendTransaction : list Event → string → res SendResponse;
  GetTransaction : list Event → string → res GetResponse }.

(** The account and the costs the engine keeps, the waits its context lasts, and what was asked. *)
Record World : Type := mkWorld {
  seq : Z; known : bool; costs : option ledgerCosts; patience : nat; log : list Event }.
Definition set_seq (n : Z) (w : World) : World := mkWorld n true (costs w) (patience w) (log w).
Definition forget (w : World) : World := mkWorld (seq w) false (costs w) (patience w) (log w).
Definition set_costs (c : option ledgerCosts) (w : World) : World := mkWorld (seq w) (known w) c (patience w) (log w).
Definition ask (e : Event) (w : World) : World := mkWorld (seq w) (known w) (costs w) (patience w) (e :: log w).

Record Prepared : Type := mkPrepared {
  PTx : Tx; Seq : Z; PInclusion : Z; PResource : Z; Expected : Z; MaxTime : Z; MaxLedger : Z; PReturn : option ScVal; SimulatedAt : Z }.
Record Signed : Type := mkSigned { SPrepared : Prepared; SHash : string }.

(** [Result] with its return value. *)
Record Tracked : Type := mkTracked { TResult : outcome.Result; TReturn : option ScVal }.

Definition Extend : Type := list Event → Footprint → res Extra.

Definition minInclusionFee : Z := 100.
Definition ErrRejected : gerr := Sentinel "submit: transaction rejected".
Definition ErrExpired : gerr := Sentinel "submit: transaction expired unconfirmed".
Definition ErrNotWorth : gerr := Sentinel "submit: the call would achieve nothing".
Definition ErrConflict : gerr := Sentinel "submit: the chain kept moving under the call".
(** [ctx.Err()] *)
Definition ctx_error : gerr := Sentinel "context canceled".

(** [FeeCapError] *)
Definition FeeCapError (resource inclusion expected cap : Z) : gerr :=
  Wrapf ErrFeeCap "%v: %d stroops, the cap is %d" [FInt resource; FInt inclusion; FInt expected; FInt cap].

(** The SDK's part: what it makes of a transaction. *)
Class TxSDK : Type := {
  (** [txnbuild.NewTransaction] and the unsigned envelope *)
  new_transaction : Tx → res string;
  (** [Sign] and the signed envelope *)
  sign : Tx → res string;
  (** [HashHex] *)
  hash_hex : Tx → res string;
  (** [TransactionData.MarshalBinary], its length *)
  data_size : TransactionData → res Z }.

Section engine.
Context {sdk : StellarSDK} {tx : TxSDK} (E : Env) (c : Config).

(** ** Questions *)

(** [Engine.now] *)
Definition clock : ST World Z := λ w, (ask Asked w, Ok (now E (log w))).

(** [wait]; a context that is done stays done. *)
Definition wait (d : Z) : ST World unit := λ w,
  match patience w with
  | O => (w, Fail ctx_error)
  | S n => (mkWorld (seq w) (known w) (costs w) n (Waited d :: log w), Ok tt)
  end.

Definition question {A} (answer : list Event → res A) : ST World A := λ w, (ask Asked w, answer (log w)).

Definition send (t : Tx) (hash envelope : string) : ST World (res SendResponse) := λ w,
  let a := SendTransaction E (log w) envelope in (ask (Sent t hash a) w, Ok a).
Definition get (hash : string) : ST World (res GetResponse) := λ w,
  let a := GetTransaction E (log w) hash in (ask (Got hash a) w, Ok a).

(** [Engine.ledgerCosts] *)
Definition ledger_costs : ST World ledgerCosts :=
  t ← clock;
  (λ w, let '(k, r) := readCosts t (reads E (log w)) (costs w) in (ask Asked (set_costs k w), r)) : ST World ledgerCosts.

(** [Engine.TTLFeeCap] *)
Definition TTLFeeCap : Z := if 0 <? MaxTTLFee c then MaxTTLFee c else MaxResourceFee c.

(** [Engine.InclusionFee]; the network's fee is a uint64. *)
Definition InclusionFee : ST World Z :=
  p90 ← question (λ h, or_fail (GetFeeStats E h) (λ e, Wrapf e "fee stats: %w" []));
  let fee := Z.max (i64 p90) minInclusionFee in
  mret (if 0 <? MaxInclusionFee c then Z.min fee (MaxInclusionFee c) else fee).

(** [Engine.loadSequence] *)
Definition loadSequence : ST World unit :=
  key ← st_lift (keys.AccountKey (AccountID c));
  '(entry, _) ← question (λ h, or_fail (rpc.One (reads E h) key) (λ e, Wrapf e "load account %s: %w" [FStr (AccountID c)]));
  match rpc.Data entry with
  | rpc.DataAccount n _ _ _ => st_modify (set_seq n)
  | _ => st_fail (Sentinel ("load account " +:+ AccountID c +:+ ": not an account"))
  end.

(** ** Preparing *)

Definition invokes (op : Operation) : bool := match op with InvokeHostFunction _ => true | _ => false end.

(** The operation before its simulation decides its footprint and authorization, and with the data and
    the authorization set. *)
Definition soroban (op : Operation) : res Operation :=
  match op with
  | InvokeHostFunction o => Ok (InvokeHostFunction (mkOp (Call o) [] None))
  | OtherOperation type => Fail (Sentinel ("submit: " +:+ type +:+ " is not a Soroban operation"))
  | _ => Ok op
  end.
Definition setExt (data : TransactionData) (op : Operation) : Operation :=
  match op with
  | InvokeHostFunction o => InvokeHostFunction (mkOp (Call o) (Auth o) (Some data))
  | ExtendFootprintTtl o => ExtendFootprintTtl (mkOp (Call o) (Auth o) (Some data))
  | RestoreFootprint o => RestoreFootprint (mkOp (Call o) (Auth o) (Some data))
  | OtherOperation _ => op
  end.
Definition add_auth (auth : list (list Z)) (op : Operation) : Operation :=
  match op with InvokeHostFunction o => InvokeHostFunction (mkOp (Call o) (Auth o ++ auth) (Ext o)) | _ => op end.

(** The loop over the simulated authorizations. *)
Fixpoint source_auths (l : list (option (bool * list Z))) : res (list (list Z)) :=
  match l with
  | [] => Ok []
  | None :: _ => Fail (Sentinel "simulated auth")
  | Some (source, raw) :: l =>
      _ ← fail_if (negb source) (Wrapf ErrSimulation "%w: the call needs a signature other than the source's" []);
      rest ← source_auths l; mret (raw :: rest)
  end.

(** What the first result of a simulated invocation adds: its authorizations and its return value. *)
Definition simulated (op : Operation) (results : list SimResult) : res (list (list Z) * option ScVal) :=
  if invokes op then
    match results with
    | [] => Ok ([], None)
    | r :: _ => auths ← match AuthXDR r with Some l => source_auths l | None => Ok [] end; mret (auths, mjoin (ReturnXDR r))
    end
  else Ok ([], None).

(** The fees [extend] adds to the data. *)
Definition extended (extend : option Extend) (data : TransactionData) : ST World (TransactionData * Z * Z) :=
  match extend with
  | None => mret (data, 0, 0)
  | Some f =>
      x ← question (λ h, f h (Foot (Res data)));
      k ← ledger_costs;
      st_lift (addExtra data_size k data x)
  end.
Definition padded (data : TransactionData) : ST World (TransactionData * Z) :=
  if pads (Res data) then
    k ← ledger_costs;
    let '(r, fee) := padClassic k (Res data) in mret (mkData r (ResourceFee data) (Archived data), fee)
  else mret (data, 0).

(** The ledger that bounds the transaction, with that of its footprint. *)
Definition bounded (data : TransactionData) (simulatedAt maxLedger : Z) : ST World Z :=
  if RefuseRestores c then
    bound ← question (λ h, liveBound (reads E h) (Foot (Res data)) simulatedAt);
    mret (if (0 <? bound) && ((maxLedger =? 0) || (bound <? maxLedger)) then bound else maxLedger)
  else mret maxLedger.

(** The resource fee declared: the simulation's with its margin, and the fees added. *)
Definition resource_fee (minResource margin padding extra reserve : Z) : Z :=
  i64 (minResource + Z.quot (i64 (minResource * margin)) 100 + padding + extra + reserve).

(** [Engine.PrepareUntil] *)
Definition PrepareUntil (op : Operation) (maxLedger : Z) (extend : option Extend) : ST World Prepared :=
  op ← st_lift (soroban op);
  w ← st_get;
  _ ← (if known w then mret tt else loadSequence);
  inclusion ← InclusionFee;
  t ← clock;
  let maxTime := (t + Validity c) / second in
  w ← st_get;
  let build bound op := mkTx (i64 (seq w + 1)) inclusion maxTime bound op in
  encoded ← st_lift (new_transaction (build maxLedger op));
  sim ← question (λ h, or_fail (Simulate E h encoded) (λ e, Wrapf e "simulate: %w" []));
  _ ← st_fail_if (negb (String.eqb (SimError sim) "")) (Wrapf ErrSimulation "%w: %s" [FStr (SimError sim)]);
  _ ← st_fail_if (Preamble sim) (Wrapf ErrRestoreNeeded "%w: they need a separate restore first" []);
  data ← st_lift (match SimData sim with Some d => Ok d | None => Fail (Sentinel "simulation data") end);
  _ ← st_fail_if ((0 <? restoredEntries data) && RefuseRestores c)
        (Wrapf ErrRestoreNeeded "%w: the call would restore %d entries" [FInt (restoredEntries data)]);
  '(data, extra, reserve) ← extended extend data;
  '(data, padding) ← padded data;
  let margin := if invokes op then ResourceMarginPct c else 0 in
  let limit := if invokes op then MaxResourceFee c else TTLFeeCap in
  let resource := resource_fee (MinResourceFee sim) margin padding extra reserve in
  let expected := i64 (inclusion + MinResourceFee sim + padding + extra) in
  _ ← st_fail_if ((0 <? limit) && (limit <? resource)) (FeeCapError resource inclusion expected limit);
  bound ← bounded data (SimLatest sim) maxLedger;
  '(auths, return_) ← st_lift (simulated op (Results sim));
  let t := build bound (add_auth auths (setExt (mkData (Res data) resource (Archived data)) op)) in
  _ ← st_lift (new_transaction t);
  mret (mkPrepared t (TSeq t) inclusion resource expected maxTime bound return_ (SimLatest sim)).

(** [Engine.Prepare] *)
Definition Prepare (op : Operation) : ST World Prepared := PrepareUntil op 0 None.

(** ** Sending *)

(** [pastLedger]: the network has closed the ledger at which the transaction stopped being includable. *)
Definition pastLedger (p : Prepared) (latest : Z) : bool := (0 <? MaxLedger p) && (MaxLedger p <=? latest).
Definition poll : Z := Z.max (Poll c) (50 * 1000000).

Definition decided (status : string) : bool := String.eqb status "SUCCESS" || String.eqb status "FAILED".

(** [wait] of a loop that forgets the account's sequence when the context ends. *)
Definition wait_or_forget (d : Z) : ST World unit :=
  r ← st_try (wait d);
  match r with Ok _ => mret tt | Fail e => _ ← st_modify forget; st_fail e end.

(** [Engine.resolve]; a turn ends with a wait, so that there are no more turns than waits and one. *)
Fixpoint resolve_loop (turns : nat) (s : Signed) : ST World Signed :=
  match turns with
  | O => st_fail ctx_error
  | S turns =>
      a ← get (SHash s);
      let again := _ ← wait_or_forget poll; resolve_loop turns s in
      match a with
      | Ok r =>
          if decided (GStatus r) then mret s
          else if String.eqb (GStatus r) "NOT_FOUND" && ((MaxTime (SPrepared s) <? GClosed r) || pastLedger (SPrepared s) (GLatest r)) then
            _ ← st_modify forget; st_fail ErrExpired
          else again
      | Fail _ => again
      end
  end.
Definition resolve (s : Signed) : ST World Signed := λ w, resolve_loop (S (patience w)) s w.

(** The loop of [Engine.Send]: [closed] and [ledger] are the newest close time and ledger known. *)
Fixpoint send_loop (turns : nat) (s : Signed) (envelope : string) (backoff : Z) (ambiguous : bool) (closed ledger : Z) : ST World Signed :=
  match turns with
  | O => st_fail ctx_error
  | S turns =>
      let p := SPrepared s in
      let go ambiguous closed ledger :=
        if (MaxTime p <? closed) || pastLedger p ledger then
          if ambiguous : bool then resolve s else _ ← st_modify forget; st_fail ErrExpired
        else
          _ ← wait_or_forget backoff;
          t ← clock;
          send_loop turns s envelope (Z.min (backoff * 2) (10 * second)) ambiguous (Z.max closed (t / second)) ledger in
      a ← send (PTx p) (SHash s) envelope;
      match a with
      | Fail _ => go true closed ledger
      | Ok r =>
          if String.eqb (SStatus r) "PENDING" || String.eqb (SStatus r) "DUPLICATE" then mret s
          else if String.eqb (SStatus r) "ERROR" then
            if ambiguous : bool then resolve s
            else _ ← st_modify forget; st_fail (Wrapf ErrRejected "%w: %s" [FStr (default "unknown"%string (SCode r))])
          else go ambiguous (Z.max closed (SClosed r)) (Z.max ledger (SLatest r))
      end
  end.

(** [Engine.Send] *)
Definition Send (p : Prepared) : ST World Signed :=
  envelope ← st_lift (sign (PTx p));
  hash ← st_lift (hash_hex (PTx p));
  t ← clock;
  (λ w, send_loop (S (patience w)) (mkSigned p hash) envelope poll false (t / second) 0 w) : ST World Signed.

(** ** Results *)

(** [storageError] and [contractError] over the diagnostic events; 3 is the storage's kind of error and 0
    a contract's. *)
Definition sceContract : Z := 0.
Definition sceStorage : Z := 3.
Definition topics (d : events.ContractEvent) : list ScVal := match events.CE_V0 d with Some (l, _) => l | None => [] end.
Definition is_storage_error (v : ScVal) : bool := match v with ScvError type _ => type =? sceStorage | _ => false end.
Definition storageError (l : list events.ContractEvent) : bool := existsb (λ d, existsb is_storage_error (topics d)) l.

Definition contract_code (v : ScVal) : option Z := match v with ScvError type code => if type =? sceContract then code else None | _ => None end.
Fixpoint contractError (l : list events.ContractEvent) : option outcome.ContractError :=
  match l with
  | [] => None
  | d :: l =>
      match omap contract_code (topics d) with
      | code :: _ =>
          let name := match events.CE_ContractId d with Some id => default "" (strkey_encode VersionContract id) | None => "" end in
          Some (outcome.mkContractError name code)
      | [] => contractError l
      end
  end.

(** What the meta of a transaction tells: the fees charged for resources, the return value, the contract
    events and the diagnostics. *)
Definition of_meta (m : option Meta) : option (Z * Z) * option ScVal * list events.ContractEvent * list events.ContractEvent :=
  match m with
  | Some (MetaV3 (Some (fees, v, evs, diags))) => (fees, Some v, evs, diags)
  | Some (MetaV4 soroban ops diags) =>
      (mjoin (fst <$> soroban), mjoin (snd <$> soroban), mjoin ops, diags)
  | _ => (None, None, [], [])
  end.

(** [Engine.result] *)
Definition result (hash : string) (r : GetResponse) : Tracked :=
  let '(fees, return_, evs, diags) := of_meta (GMeta r) in
  let diagnostics := omap id (GDiagnostics r) ++ diags in
  let failed := String.eqb (GStatus r) "FAILED" in
  let invoke := match GResult r with Some t => match OpResults t with Some (Tr code :: _) => code | _ => None end | None => None end in
  mkTracked
    (outcome.mkResult hash (if failed then outcome.Failed else outcome.Success) (GLedger r)
      (match GResult r with Some t => TxFee t | None => 0 end) (match fees with Some (a, b) => i64 (a + b) | None => 0 end)
      (match GResult r with Some t => TxResultCode t | None => "" end) evs invoke
      (if failed then contractError diagnostics else None) (negb (bool_decide (diagnostics = []))) (failed && storageError diagnostics))
    return_.

Definition expired (hash : string) : Tracked :=
  mkTracked (outcome.mkResult hash outcome.Expired 0 0 0 "" [] None None false false) None.

(** ** Following *)

(** [Engine.Track] *)
Fixpoint track_loop (turns : nat) (s : Signed) : ST World Tracked :=
  match turns with
  | O => st_fail ctx_error
  | S turns =>
      a ← get (SHash s);
      let again := _ ← wait_or_forget poll; track_loop turns s in
      match a with
      | Ok r =>
          if decided (GStatus r) then _ ← st_modify (set_seq (Seq (SPrepared s))); mret (result (SHash s) r)
          else if String.eqb (GStatus r) "NOT_FOUND" && ((MaxTime (SPrepared s) <? GClosed r) || pastLedger (SPrepared s) (GLatest r)) then
            _ ← st_modify forget; mret (expired (SHash s))
          else again
      | Fail _ => again
      end
  end.
Definition Track (s : Signed) : ST World Tracked := λ w, track_loop (S (patience w)) s w.

(** [Engine.Lookup] *)
Fixpoint lookup_loop (turns : nat) (hash : string) (giveUp : Z) : ST World Tracked :=
  match turns with
  | O => st_fail ctx_error
  | S turns =>
      a ← get hash;
      let again := _ ← wait poll; lookup_loop turns hash giveUp in
      match a with
      | Ok r =>
          if decided (GStatus r) then mret (result hash r)
          else if String.eqb (GStatus r) "NOT_FOUND" then
            t ← clock;
            if giveUp <? t then mret (expired hash) else again
          else again
      | Fail _ => again
      end
  end.
Definition Lookup (hash : string) : ST World Tracked :=
  t ← clock;
  (λ w, lookup_loop (S (patience w)) hash (t + Validity c + 60 * second) w) : ST World Tracked.

(** ** Calls *)

(** [errors.Is(err, ErrSimulation)] *)
Definition is_simulation (e : gerr) : bool := errors_is "submit: simulation failed" e.

(** One turn of [DoExtended]: the final result, or the error it goes on after. *)
Definition one_call (build : list Event → res Operation) (worth : option (option ScVal → bool)) (extend : option Extend)
    : ST World (Tracked + gerr) :=
  op ← question build;
  p ← st_try (PrepareUntil op 0 extend);
  match p with
  | Fail e => if is_simulation e then st_fail e else mret (inr e)
  | Ok p =>
      _ ← st_fail_if (match worth with Some f => negb (f (PReturn p)) | None => false end) ErrNotWorth;
      s ← st_try (Send p);
      match s with
      | Fail e => mret (inr e)
      | Ok s =>
          r ← Track s;
          match outcome.ROutcome (TResult r) with
          | outcome.Failed =>
              if outcome.Conflict (TResult r) then mret (inr (Wrapf ErrConflict "%w: %s" [FStr (outcome.Hash (TResult r))]))
              else mret (inl r)
          | outcome.Success => mret (inl r)
          | outcome.Expired => mret (inr ErrExpired)
          end
      end
  end.

Fixpoint calls (turns : nat) (build : list Event → res Operation) (worth : option (option ScVal → bool)) (extend : option Extend)
    (backoff : Z) : ST World Tracked :=
  a ← one_call build worth extend;
  match a with
  | inl r => mret r
  | inr last =>
      _ ← wait backoff;
      match turns with
      | O => st_fail last
      | S turns => calls turns build worth extend (Z.min (backoff * 2) (180 * second))
      end
  end.

(** [Engine.DoExtended] *)
Definition DoExtended (build : list Event → res Operation) (attempts : Z) (worth : option (option ScVal → bool)) (extend : option Extend)
    : ST World Tracked :=
  calls (Z.to_nat (Z.max attempts 1) - 1) build worth extend second.

(** [Engine.DoWorth] and [Engine.Do] *)
Definition DoWorth (build : list Event → res Operation) (attempts : Z) (worth : option (option ScVal → bool)) : ST World Tracked :=
  DoExtended build attempts worth None.
Definition Do (build : list Event → res Operation) (attempts : Z) : ST World Tracked := DoWorth build attempts None.
End engine.

(** * Lemmas *)

(** ** Rules of the questions *)

Lemma wp_answer {A} (r : res A) (Q : res A → World → Prop) w : Q r w → wp (st_lift r) Q w.
Proof. done. Qed.

(** Relations that questions and costs read keep. *)
Class Calm (R : relation World) : Prop := mkCalm {
  #[global] calm_pre :: PreOrder R;
  calm_ask : ∀ w, R w (ask Asked w);
  calm_costs : ∀ k w, R w (set_costs k w) }.

(** Only questions asked: nothing is sent, looked up or waited for. *)
Definition quiet (w w' : World) : Prop := ∃ l, log w' = l ++ log w ∧ Forall (λ e, e = Asked) l ∧ patience w' = patience w.
(** The account kept as it was. *)
Definition steady (w w' : World) : Prop := seq w' = seq w ∧ known w' = known w.

#[export] Instance quiet_calm : Calm quiet.
Proof.
  split; [split|..].
  - intros w. by exists [].
  - intros w1 w2 w3 (l & E1 & F1 & P1) (l' & E2 & F2 & P2). exists (l' ++ l). rewrite E2, E1, app_assoc, P2.
    split; [done|]. split; [by apply Forall_app|done].
  - intros w. exists [Asked]. split; [done|]. split; [by constructor|done].
  - intros k w. by exists [].
Qed.

#[export] Instance steady_calm : Calm steady.
Proof.
  split; [split|..]; try done.
  intros w1 w2 w3 [H1 H2] [H3 H4]. split; congruence.
Qed.

Section moves.
Context {R : relation World} `{HR : !Calm R}.

Lemma moves_question {A} (f : list Event → res A) : moves R (question f).
Proof. intros w. apply calm_ask. Qed.
Lemma moves_clock E : moves R (clock E).
Proof. intros w. apply calm_ask. Qed.
End moves.

#[export] Hint Resolve moves_question moves_clock : calm.

Section calm.
Context {R : relation World} `{HR : !Calm R} {sdk : StellarSDK} {tx : TxSDK} (E : Env) (c : Config).

Lemma moves_costs : moves R (ledger_costs E).
Proof.
  unfold ledger_costs. hush. intros w. destruct (readCosts _ _ _) as [k r].
  transitivity (set_costs k w); [apply calm_costs|apply calm_ask].
Qed.
Hint Resolve moves_costs : calm.

Lemma moves_inclusion : moves R (InclusionFee E c).
Proof. unfold InclusionFee. hush. Qed.

Lemma moves_extended extend data : moves R (extended E extend data).
Proof. unfold extended. hush. Qed.

Lemma moves_padded data : moves R (padded E data).
Proof. unfold padded. hush. Qed.

Lemma moves_bounded data at_ bound : moves R (bounded E c data at_ bound).
Proof. unfold bounded. hush. Qed.
End calm.
#[export] Hint Resolve moves_costs moves_inclusion moves_extended moves_padded moves_bounded : calm.

Section quiet.
Context {sdk : StellarSDK} {tx : TxSDK} (E : Env) (c : Config).

Lemma quiet_load : moves quiet (loadSequence E c).
Proof. unfold loadSequence. hush. intros w. by exists []. Qed.
Hint Resolve quiet_load : calm.

Lemma quiet_prepare op bound extend : moves quiet (PrepareUntil E c op bound extend).
Proof. unfold PrepareUntil. hush. Qed.
End quiet.

(** An operation without the authorization and the data its simulation gives it. *)
Definition bare (op : Operation) : Operation :=
  match op with
  | InvokeHostFunction o => InvokeHostFunction (mkOp (Call o) [] None)
  | ExtendFootprintTtl o => ExtendFootprintTtl (mkOp (Call o) [] None)
  | RestoreFootprint o => RestoreFootprint (mkOp (Call o) [] None)
  | OtherOperation _ => op
  end.

(** What was asked stays asked, and all that is sent makes a call that [P] holds of. *)
Definition only (P : Operation → Prop) (e : Event) : Prop := match e with Sent t _ _ => P (bare (TOp t)) | _ => True end.
Definition sends (P : Operation → Prop) (w w' : World) : Prop := ∃ l, log w' = l ++ log w ∧ Forall (only P) l.
Definition grows : relation World := sends (λ _, True).

#[export] Instance sends_calm P : Calm (sends P).
Proof.
  split; [split|..].
  - intros w. by exists [].
  - intros w1 w2 w3 (l & E1 & F1) (l' & E2 & F2). exists (l' ++ l). rewrite E2, E1, app_assoc.
    split; [done|]. by apply Forall_app.
  - intros w. exists [Asked]. split; [done|by repeat constructor].
  - intros k w. by exists [].
Qed.
#[export] Instance grows_calm : Calm grows.
Proof. apply sends_calm. Qed.

Lemma sends_mono P P' w w' : (∀ op, P op → P' op) → sends P w w' → sends P' w w'.
Proof.
  intros HP (l & El & Hl). exists l. split; [done|]. eapply Forall_impl; [exact Hl|]. intros []; simpl; auto.
Qed.

Section sends.
Context {sdk : StellarSDK} {tx : TxSDK} (E : Env) (c : Config) (P : Operation → Prop).

Lemma sends_event e w : only P e → sends P w (ask e w).
Proof. intros H. exists [e]. split; [done|by constructor]. Qed.

Lemma sends_wait d : moves (sends P) (wait d).
Proof. intros w. unfold wait. destruct (patience w); [reflexivity|]. exists [Waited d]. split; [done|by repeat constructor]. Qed.
Lemma sends_get x : moves (sends P) (get E x).
Proof. intros w. by apply sends_event. Qed.
Lemma sends_send t x e : P (bare (TOp t)) → moves (sends P) (send E t x e).
Proof. intros H w. by apply sends_event. Qed.
Lemma sends_forget : moves (sends P) (st_modify forget).
Proof. intros w. by exists []. Qed.
Lemma sends_seq n : moves (sends P) (st_modify (set_seq n)).
Proof. intros w. by exists []. Qed.
Hint Resolve sends_wait sends_get sends_send sends_forget sends_seq : calm.

Lemma sends_wait_or_forget d : moves (sends P) (wait_or_forget d).
Proof. unfold wait_or_forget. hush. Qed.
Hint Resolve sends_wait_or_forget : calm.

Lemma sends_resolve turns s : moves (sends P) (resolve_loop E c turns s).
Proof. induction turns; cbn [resolve_loop]; hush. Qed.

Lemma sends_send_loop turns s envelope backoff ambiguous closed ledger : P (bare (TOp (PTx (SPrepared s)))) →
  moves (sends P) (send_loop E c turns s envelope backoff ambiguous closed ledger).
Proof.
  intros HP. revert backoff ambiguous closed ledger.
  induction turns as [|turns IH]; intros backoff ambiguous closed ledger; cbn [send_loop]; hush.
  all: intros w; apply sends_resolve.
Qed.

Lemma sends_Send p : P (bare (TOp (PTx p))) → moves (sends P) (Send E c p).
Proof. intros HP. unfold Send. hush. intros w. by apply sends_send_loop. Qed.

Lemma sends_track turns s : moves (sends P) (track_loop E c turns s).
Proof. induction turns; cbn [track_loop]; hush. Qed.

Lemma sends_load : moves (sends P) (loadSequence E c).
Proof. unfold loadSequence. hush. Qed.
Hint Resolve sends_load : calm.

Lemma sends_prepare op bound extend : moves (sends P) (PrepareUntil E c op bound extend).
Proof. unfold PrepareUntil. hush. Qed.
End sends.
#[export] Hint Resolve sends_wait : calm.

(** ** What is prepared *)

(** Prepared within the operator's bounds, whatever the network answered: its transaction takes the
    account's next sequence number, bids and declares no more than the caps, binds itself to the time and
    the ledgers asked for, and makes the caller's own call. *)
Record within (c : Config) (op : Operation) (bound : Z) (p : Prepared) : Prop := mkWithin {
  within_seq : TSeq (PTx p) = Seq p;
  within_time : TMaxTime (PTx p) = MaxTime p;
  within_ledger : TMaxLedger (PTx p) = MaxLedger p;
  within_bound : 0 < bound → 0 < MaxLedger p <= bound;
  within_bid : TFee (PTx p) = PInclusion p ∧ (0 < MaxInclusionFee c → PInclusion p <= MaxInclusionFee c) ∧
    (MaxInclusionFee c = 0 ∨ minInclusionFee <= MaxInclusionFee c → minInclusionFee <= PInclusion p);
  within_fee : let limit := if invokes op then MaxResourceFee c else TTLFeeCap c in 0 < limit → PResource p <= limit;
  within_op : ∃ data, ResourceFee data = PResource p ∧ (RefuseRestores c = true → Archived data = []) ∧
    match op with
    | InvokeHostFunction o => ∃ auth, TOp (PTx p) = InvokeHostFunction (mkOp (Call o) auth (Some data))
    | ExtendFootprintTtl o => TOp (PTx p) = ExtendFootprintTtl (mkOp (Call o) (Auth o) (Some data))
    | RestoreFootprint o => TOp (PTx p) = RestoreFootprint (mkOp (Call o) (Auth o) (Some data))
    | OtherOperation _ => False
    end }.

(** The authorizations a simulation's first result lists, each with the source account's credentials. *)
Definition source_authorized (sim : Simulation) (auth : list (list Z)) : Prop :=
  match Results sim with
  | [] => auth = []
  | r :: _ => match AuthXDR r with None => auth = [] | Some l => l = map (λ raw, Some (true, raw)) auth end
  end.

(** A call prepared is authorized by nothing but its source: it carries the authorizations a simulation of the
    call itself, bare of any, asked on the way, lists, and all of those need the source's signature only. *)
Definition source_signed `{TxSDK} (E : Env) (op : Operation) (p : Prepared) (w' : World) : Prop :=
  match op with
  | InvokeHostFunction o => ∃ h l t encoded sim auth data, log w' = l ++ Asked :: h ∧
      TOp t = InvokeHostFunction (mkOp (Call o) [] None) ∧ new_transaction t = Ok encoded ∧ Simulate E h encoded = Ok sim ∧
      source_authorized sim auth ∧ TOp (PTx p) = InvokeHostFunction (mkOp (Call o) auth (Some data))
  | _ => True
  end.

Section prepared.
Context {sdk : StellarSDK} {tx : TxSDK} (E : Env) (c : Config).

(** A part whose result is of no matter, and one that keeps the account. *)
Lemma wp_any {A} (m : ST World A) (Q : res A → World → Prop) w : (∀ r w', Q r w') → wp m Q w.
Proof. intros H. apply H. Qed.

Lemma wp_steady {A} (m : ST World A) (Q : res A → World → Prop) w : moves steady m →
  (∀ r w', steady w w' → m w = (w', r) → Q r w') → wp m Q w.
Proof. intros Hm H. unfold wp. specialize (Hm w). destruct (m w) as [w' r] eqn:E'. by apply H. Qed.

Lemma inclusion_range w w' fee : InclusionFee E c w = (w', Ok fee) →
  (0 < MaxInclusionFee c → fee <= MaxInclusionFee c) ∧
  (MaxInclusionFee c = 0 ∨ minInclusionFee <= MaxInclusionFee c → minInclusionFee <= fee).
Proof.
  unfold InclusionFee, minInclusionFee. intros H. apply st_bind_Ok in H as (p90 & w1 & _ & H). injection H as _ <-.
  destruct (Z.ltb_spec 0 (MaxInclusionFee c)); lia.
Qed.

Lemma restored_none data : 0 <? restoredEntries data = false → Archived data = [].
Proof. unfold restoredEntries. destruct (Archived data); [done|discriminate]. Qed.

Lemma addExtra_keeps k data x data' fee reserve : addExtra data_size k data x = Ok (data', fee, reserve) →
  Archived data' = Archived data.
Proof.
  unfold addExtra. intros H. apply bind_Ok in H as (n & _ & H). destruct (extend_footprint _ _ _) as [[f ws] rs].
  apply bind_Ok in H as (n' & _ & H). by injection H as <- _ _.
Qed.

Lemma extended_keeps extend data w w' d a b : extended E extend data w = (w', Ok (d, a, b)) → Archived d = Archived data.
Proof.
  unfold extended. destruct extend; [|by intros [= _ <- _ _]]. intros H.
  apply st_bind_Ok in H as (x & w1 & _ & H). apply st_bind_Ok in H as (k & w2 & _ & H). injection H as _ H.
  by eapply addExtra_keeps.
Qed.

Lemma padded_keeps data w w' d a : padded E data w = (w', Ok (d, a)) → Archived d = Archived data.
Proof.
  unfold padded. destruct (pads _); [|by intros [= _ <- _]]. intros H.
  apply st_bind_Ok in H as (k & w1 & _ & H). destruct (padClassic k (Res data)). by injection H as _ <- _.
Qed.

Lemma bounded_range data at_ bound w w' b : bounded E c data at_ bound w = (w', Ok b) → 0 < bound → 0 < b <= bound.
Proof.
  unfold bounded. destruct (RefuseRestores c); [|by intros [= _ <-]; lia]. intros H.
  apply st_bind_Ok in H as (x & w1 & _ & H). injection H as _ <-.
  destruct ((0 <? x) && _) eqn:Hx; lia.
Qed.

Lemma account_known w w' : (if known w then mret tt else loadSequence E c) w = (w', Ok tt) → known w' = true.
Proof.
  destruct (known w) eqn:Ek; [by intros [= <-]|]. unfold loadSequence. intros H.
  apply st_bind_Ok in H as (k & w1 & _ & H). apply st_bind_Ok in H as ([e l] & w2 & _ & H).
  destruct (rpc.Data e); try done. by injection H as <-.
Qed.

Lemma soroban_kind op op' : soroban op = Ok op' → invokes op' = invokes op ∧ ∀ data auth,
  match op with
  | InvokeHostFunction o => add_auth auth (setExt data op') = InvokeHostFunction (mkOp (Call o) auth (Some data))
  | ExtendFootprintTtl o => add_auth auth (setExt data op') = ExtendFootprintTtl (mkOp (Call o) (Auth o) (Some data))
  | RestoreFootprint o => add_auth auth (setExt data op') = RestoreFootprint (mkOp (Call o) (Auth o) (Some data))
  | OtherOperation _ => False
  end.
Proof. destruct op; simpl; intros H; try discriminate H; by injection H as <-. Qed.

Lemma source_auths_Ok l auth : source_auths l = Ok auth → l = map (λ raw, Some (true, raw)) auth.
Proof.
  revert auth. induction l as [|[[source raw]|] l IH]; intros auth; cbn [source_auths]; [by intros [= <-]| |done].
  intros H. apply bind_Ok in H as (? & Hs%fail_if_Ok & H). apply bind_Ok in H as (rest & Hr & H). injection H as <-.
  destruct source; [|done]. cbn [map]. f_equal. by apply IH.
Qed.

Lemma simulated_auths op sim auths v : invokes op = true → simulated op (Results sim) = Ok (auths, v) → source_authorized sim auths.
Proof.
  unfold simulated, source_authorized. intros ->. destruct (Results sim) as [|r results]; [by intros [= <- _]|]. intros H.
  apply bind_Ok in H as (a & Ha & H). injection H as <- _. destruct (AuthXDR r) as [l|]; [by apply source_auths_Ok|].
  by injection Ha as <-.
Qed.

Lemma steady_run {A} (m : ST World A) w w' r : moves steady m → m w = (w', r) → steady w w'.
Proof. intros H E'. specialize (H w). by rewrite E' in H. Qed.

Lemma quiet_run {A} (m : ST World A) w w' r : moves quiet m → m w = (w', r) → quiet w w'.
Proof. intros H E'. specialize (H w). by rewrite E' in H. Qed.

(** The rest of [PrepareUntil] once the account is known and the inclusion fee read, in the order of the
    code; [w] is the world the clock was read in. *)
Lemma prepared_spec op bound extend w0 w' p : PrepareUntil E c op bound extend w0 = (w', Ok p) →
  within c op bound p ∧ known w' = true ∧ Seq p = i64 (seq w' + 1) ∧
  (∃ h l, log w' = l ++ h ∧ MaxTime p = (now E h + Validity c) / second) ∧ source_signed E op p w'.
Proof.
  unfold PrepareUntil. intros H.
  apply st_bind_Ok in H as (op' & w1 & H1 & H). injection H1 as <- Hop. destruct (soroban_kind _ _ Hop) as [Hinv Hkind].
  rewrite Hinv in H.
  apply st_bind_Ok in H as (? & w1 & [= <- <-] & H).
  apply st_bind_Ok in H as ([] & w2 & Hknown%account_known & H).
  apply st_bind_Ok in H as (inclusion & w3 & Hin & H). pose proof (inclusion_range _ _ _ Hin) as Hbid.
  apply (steady_run _ _ _ _ (moves_inclusion E c)) in Hin.
  apply st_bind_Ok in H as (t & w4 & [= <- <-] & H). set (w4 := ask Asked w3) in *.
  apply st_bind_Ok in H as (? & w5 & [= <- <-] & H).
  match type of H with ?m w4 = _ => assert (Hq : quiet w4 w') by (apply (quiet_run m _ _ _ ltac:(hush) H)) end.
  match type of H with ?m w4 = _ => assert (Hs : steady w4 w') by (apply (steady_run m _ _ _ ltac:(hush) H)) end.
  apply st_bind_Ok in H as (encoded & w5 & [= <- Henc] & H).
  apply st_bind_Ok in H as (sim & w6 & Hask & H). injection Hask as <- Hask%or_fail_Ok.
  match type of H with ?m ?w6 = _ => assert (Hq6 : quiet w6 w') by (apply (quiet_run m _ _ _ ltac:(hush) H)) end.
  apply st_bind_Ok in H as ([] & w7 & _ & H).
  apply st_bind_Ok in H as ([] & w8 & _ & H).
  apply st_bind_Ok in H as (data & w9 & _ & H).
  apply st_bind_Ok in H as ([] & w10 & [Hrestore _]%st_fail_if_Ok & H).
  apply st_bind_Ok in H as ([[data1 extra] reserve] & w11 & Hext%extended_keeps & H).
  apply st_bind_Ok in H as ([data2 padding] & w12 & Hpad%padded_keeps & H).
  apply st_bind_Ok in H as ([] & w13 & [Hcap _]%st_fail_if_Ok & H).
  apply st_bind_Ok in H as (b & w14 & Hb & H). pose proof (bounded_range _ _ _ _ _ _ Hb) as Hbound.
  apply st_bind_Ok in H as ([auths v] & w15 & Hsim & H). injection Hsim as _ Hsim.
  apply st_bind_Ok in H as (? & w16 & _ & H). injection H as _ <-.
  split_and!.
  - split; simpl; try done.
    + intros Hlim. destruct (Z.ltb_spec 0 (if invokes op then MaxResourceFee c else TTLFeeCap c)); simpl in Hcap; lia.
    + exists (mkData (Res data2) (resource_fee (MinResourceFee sim) (if invokes op then ResourceMarginPct c else 0) padding extra reserve) (Archived data2)).
      split; [done|]. split.
      * intros Hr. rewrite Hr, andb_true_r in Hrestore. simpl. rewrite Hpad, Hext. by apply restored_none.
      * specialize (Hkind (mkData (Res data2) (resource_fee (MinResourceFee sim) (if invokes op then ResourceMarginPct c else 0) padding extra reserve)
          (Archived data2)) auths). destruct op; try done. by exists auths.
  - destruct Hs as [_ ->], Hin as [_ Hk]. simpl in *. congruence.
  - simpl. destruct Hs as [-> _]. done.
  - destruct Hq as (l' & Hq & _). simpl in Hq. exists (log w3), (l' ++ [Asked]). rewrite Hq, <- app_assoc. done.
  - destruct op as [o| | |]; try done. injection Hop as <-. destruct Hq6 as (l' & Hq6 & _). simpl in Hq6.
    apply (simulated_auths (InvokeHostFunction (mkOp (Call o) [] None)) sim _ _ eq_refl) in Hsim.
    exists (log w4), l'. do 2 eexists. exists sim, auths. eexists.
    split; [exact Hq6|]. split; [|split; [exact Henc|split; [exact Hask|split; [exact Hsim|]]]]; reflexivity.
Qed.
End prepared.

(** ** What is sent *)

Section calls.
Context {sdk : StellarSDK} {tx : TxSDK} (E : Env) (c : Config) (P : Operation → Prop).

Lemma within_bare op bound p : within c op bound p → bare (TOp (PTx p)) = bare op.
Proof.
  intros [_ _ _ _ _ _ (data & _ & _ & Hop)]. destruct op; [|by rewrite Hop|by rewrite Hop|done].
  by destruct Hop as (auth & ->).
Qed.

Context (build : list Event → res Operation).
Hypothesis HP : ∀ h op, build h = Ok op → P (bare op).

Lemma sends_one_call worth extend : moves (sends P) (one_call E c build worth extend).
Proof.
  intros w. unfold one_call.
  apply moves_bind_at; [apply moves_question|]. intros op w1 [= <- Hop%HP].
  apply moves_bind_at; [apply moves_try, sends_prepare|]. intros [p|e] w2 Hp%st_try_Ok; [|by destruct (is_simulation e)].
  apply prepared_spec in Hp as (Hin%within_bare & _). rewrite <- Hin in Hop.
  apply moves_bind_at; [apply moves_fail_if|]. intros ? w3 _.
  apply moves_bind_at; [by apply moves_try, sends_Send|]. intros [s|e] w4 _; [|reflexivity].
  apply moves_bind_at; [apply sends_track|]. intros r w5 _. by repeat case_match.
Qed.

Lemma sends_calls turns worth extend backoff : moves (sends P) (calls E c turns build worth extend backoff).
Proof.
  revert backoff. induction turns as [|turns IH]; intros backoff; cbn [calls].
  all: apply moves_bind; [apply sends_one_call|]. all: intros [r|e]; [apply moves_ret|].
  all: apply moves_bind; [apply sends_wait|intros _; first [apply IH|apply moves_fail]].
Qed.

(** All that a call sends is the call it was given. *)
Lemma sends_DoExtended attempts worth extend : moves (sends P) (DoExtended E c build attempts worth extend).
Proof. apply sends_calls. Qed.
End calls.

End engine.
