(* ===== verification/EngineCalls.v ===== *)
(** What the engine's calls achieve, from the definitions of Engine: on a network that tells what becomes
    of a transaction truly, a call is applied at most once, and its answer says whether it was; and a call
    ends by itself. *)
From S2P Require Import Prelude.
From S2P Require Import Xdr.
From S2P Require Import ScVal.
From S2P Require Import Keys.
From S2P Require Import Rpc.
From S2P Require Import RelayOutcome.
From S2P Require Import EngineFees.
From S2P Require Import Engine.

Module enginecalls.

Import fees engine.

(** ** One call on an honest network *)

(** An answer after which the network may hold the envelope. *)
Definition taken (a : res SendResponse) : Prop :=
  match a with Ok r => SStatus r = "PENDING"%string ∨ SStatus r = "DUPLICATE"%string | Fail _ => True end.

(** An envelope the network may hold after what was asked. *)
Definition reached (x : string) (l : list Event) : Prop := ∃ t a, Sent t x a ∈ l ∧ taken a.

(** What becomes of each envelope, ever: the ledger that includes it, its close time, and whether it
    succeeded there. An honest RPC tells of it truly: it names a transaction successful or failed only when
    it is, and not found only as of a ledger closed before; and the network keeps a transaction's bounds. *)
Record honest {tx : TxSDK} (fate : string → option (Z * Z * bool)) (E : Env) : Prop := mkHonest {
  honest_success : ∀ h x r, GetTransaction E h x = Ok r → GStatus r = "SUCCESS"%string → ∃ l t, fate x = Some (l, t, true);
  honest_failed : ∀ h x r, GetTransaction E h x = Ok r → GStatus r = "FAILED"%string → ∃ l t, fate x = Some (l, t, false);
  honest_not_found : ∀ h x r l t b, GetTransaction E h x = Ok r → GStatus r = "NOT_FOUND"%string → fate x = Some (l, t, b) →
    GLatest r < l ∧ GClosed r < t;
  honest_bounds : ∀ t x l close b, hash_hex t = Ok x → fate x = Some (l, close, b) →
    close <= TMaxTime t ∧ (0 < TMaxLedger t → l < TMaxLedger t) }.

Section honest.
Context {sdk : StellarSDK} {tx : TxSDK} (fate : string → option (Z * Z * bool)) (E : Env) (c : Config).
Hypothesis HE : honest fate E.

Definition succeeds (x : string) : Prop := ∃ l t, fate x = Some (l, t, true).

(** None of the envelopes the network may hold succeeds, but perhaps [x]. *)
Definition clean (w : World) : Prop := ∀ y, reached y (log w) → ¬ succeeds y.
Definition clean_but (x : string) (w : World) : Prop := ∀ y, reached y (log w) → succeeds y → y = x.

Lemma clean_clean_but x w : clean w → clean_but x w.
Proof. intros H y Hr Hs. by destruct (H y Hr). Qed.

Lemma clean_but_clean x w : clean_but x w → ¬ succeeds x → clean w.
Proof. intros H Hx y Hr Hs. apply Hx. by rewrite <- (H y Hr Hs). Qed.

(** What the log gains leaves the envelopes held as they are. *)
Definition no_taken (e : Event) : Prop := match e with Sent _ _ a => ¬ taken a | _ => True end.

Lemma reached_more x l l' : Forall no_taken l → reached x (l ++ l') ↔ reached x l'.
Proof.
  intros H. unfold reached. setoid_rewrite elem_of_app. split; [|intros (t & a & ? & ?); eauto 10].
  intros (t & a & [Hin|?] & Ht); [|eauto]. by destruct (proj1 (Forall_forall _ _) H _ Hin).
Qed.

Lemma reached_taken x t y a l : reached y (Sent t x a :: l) → y = x ∨ reached y l.
Proof. intros (t' & a' & [[= -> -> ->]|Hin]%elem_of_cons & Ht); [by left|right; by exists t', a']. Qed.

Lemma clean_same w w' l : log w' = l ++ log w → Forall no_taken l → clean w → clean w'.
Proof. intros El Hl H y. rewrite El, reached_more by done. apply H. Qed.
Lemma clean_but_same x w w' l : log w' = l ++ log w → Forall no_taken l → clean_but x w → clean_but x w'.
Proof. intros El Hl H y. rewrite El, reached_more by done. apply H. Qed.

Lemma asked_no_taken l : Forall (λ e, e = Asked) l → Forall no_taken l.
Proof. intros H. eapply Forall_impl; [exact H|]. by intros e ->. Qed.

(** A transaction whose hash an honest RPC does not find once its bounds have passed is never included. *)
Lemma past_bounds s h r : hash_hex (PTx (SPrepared s)) = Ok (SHash s) → MaxTime (SPrepared s) = TMaxTime (PTx (SPrepared s)) →
  MaxLedger (SPrepared s) = TMaxLedger (PTx (SPrepared s)) →
  GetTransaction E h (SHash s) = Ok r → GStatus r = "NOT_FOUND"%string →
  (MaxTime (SPrepared s) <? GClosed r) || pastLedger (SPrepared s) (GLatest r) = true → fate (SHash s) = None.
Proof.
  intros Hh Ht Hl Hg Hs Hp. destruct (fate (SHash s)) as [[[l t] b]|] eqn:Ef; [|done]. exfalso.
  destruct (honest_not_found _ _ HE _ _ _ _ _ _ Hg Hs Ef) as [H1 H2].
  destruct (honest_bounds _ _ HE _ _ _ _ _ Hh Ef) as [H3 H4]. unfold pastLedger in Hp. lia.
Qed.

(** A transaction prepared and hashed. *)
Definition whole (s : Signed) : Prop := hash_hex (PTx (SPrepared s)) = Ok (SHash s) ∧
  MaxTime (SPrepared s) = TMaxTime (PTx (SPrepared s)) ∧ MaxLedger (SPrepared s) = TMaxLedger (PTx (SPrepared s)).

(** A failure that leaves no success in doubt, or one at the end of the context. *)
Definition given_up (x : string) (w : World) : Prop := clean w ∨ patience w = 0%nat ∧ clean_but x w.

Lemma wp_get_tx x (Q : res (res GetResponse) → World → Prop) w :
  Q (Ok (GetTransaction E (log w) x)) (ask (Got x (GetTransaction E (log w) x)) w) → wp (get E x) Q w.
Proof. done. Qed.

Lemma wp_send_tx t x e (Q : res (res SendResponse) → World → Prop) w :
  Q (Ok (SendTransaction E (log w) e)) (ask (Sent t x (SendTransaction E (log w) e)) w) → wp (send E t x e) Q w.
Proof. done. Qed.

(** A wait goes on with one less, or ends the context. *)
Lemma wp_wait_or_forget d (Q : res unit → World → Prop) w :
  (patience w = 0%nat → Q (Fail ctx_error) (forget w)) →
  (∀ n, patience w = S n → Q (Ok tt) (mkWorld (seq w) (known w) (costs w) n (Waited d :: log w))) → wp (wait_or_forget d) Q w.
Proof.
  intros H0 HS. unfold wp, wait_or_forget, st_try, wait, mbind, ST_bind.
  destruct (patience w) eqn:Ep; cbn; [by apply H0|by apply HS].
Qed.

Lemma clean_but_got x y a w : clean_but x w → clean_but x (ask (Got y a) w).
Proof. apply (clean_but_same _ _ _ [Got y a]); [done|by constructor]. Qed.

Definition waited (d : Z) (n : nat) (w : World) : World := mkWorld (seq w) (known w) (costs w) n (Waited d :: log w).

Lemma clean_but_waited x d n w : clean_but x w → clean_but x (waited d n w).
Proof. apply (clean_but_same _ _ _ [Waited d]); [done|by constructor]. Qed.
Lemma clean_waited d n w : clean w → clean (waited d n w).
Proof. apply (clean_same _ _ [Waited d]); [done|by constructor]. Qed.

Lemma resolve_outcome turns s w : whole s → turns = S (patience w) → clean_but (SHash s) w →
  wp (resolve_loop E c turns s) (λ r w', match r with Ok s' => s' = s ∧ clean_but (SHash s) w' | Fail _ => given_up (SHash s) w' end) w.
Proof.
  intros Hs. revert w. induction turns as [|turns IH]; intros w Ht Hc; [done|]. cbn [resolve_loop].
  apply wp_bind, wp_get_tx. pose proof (clean_but_got _ (SHash s) (GetTransaction E (log w) (SHash s)) _ Hc) as Hc'.
  assert (Hagain : wp (_ ← wait_or_forget (poll c); resolve_loop E c turns s)
    (λ r w', match r with Ok s' => s' = s ∧ clean_but (SHash s) w' | Fail _ => given_up (SHash s) w' end)
    (ask (Got (SHash s) (GetTransaction E (log w) (SHash s))) w)).
  { apply wp_bind, wp_wait_or_forget.
    - intros Hp. right. split; [done|exact Hc'].
    - intros n Hp. apply IH; [cbn in *; lia|]. by apply clean_but_waited. }
  destruct (GetTransaction E (log w) (SHash s)) as [r|e] eqn:Eg; [|exact Hagain].
  destruct (decided (GStatus r)); [by apply wp_ret|].
  destruct (String.eqb_spec (GStatus r) "NOT_FOUND") as [Hn|]; [cbn [andb]|exact Hagain].
  destruct ((MaxTime (SPrepared s) <? GClosed r) || pastLedger (SPrepared s) (GLatest r)) eqn:Hp; [|exact Hagain].
  apply wp_bind, wp_modify, wp_fail. left. destruct Hs as (H1 & H2 & H3).
  pose proof (past_bounds s _ r H1 H2 H3 Eg Hn Hp) as Hf. apply (clean_but_clean (SHash s)); [done|]. intros (l & t & ?). congruence.
Qed.

(** What a send leaves in doubt: none of the envelopes sent before, and its own only when it went on. *)
Definition sent_well (s : Signed) (r : res Signed) (w : World) : Prop :=
  match r with Ok s' => s' = s ∧ clean_but (SHash s) w | Fail _ => given_up (SHash s) w end.

Lemma clean_sent t x a w : clean w → (taken a → False) → clean (ask (Sent t x a) w).
Proof. intros H Ha. apply (clean_same w _ [Sent t x a]); [done|by constructor|done]. Qed.

Lemma clean_but_sent t x a w : clean_but x w → clean_but x (ask (Sent t x a) w).
Proof. intros H y Hr Hs. apply reached_taken in Hr as [?|Hr]; [done|by apply H]. Qed.

Lemma send_outcome turns s envelope backoff ambiguous closed ledger w : whole s → turns = S (patience w) →
  clean_but (SHash s) w → (ambiguous = false → clean w) →
  wp (send_loop E c turns s envelope backoff ambiguous closed ledger) (sent_well s) w.
Proof.
  intros Hs. revert backoff ambiguous closed ledger w.
  induction turns as [|turns IH]; intros backoff ambiguous closed ledger w Ht Hb Hc; [done|]. cbn [send_loop].
  apply wp_bind, wp_send_tx. set (a := SendTransaction E (log w) envelope).
  pose proof (clean_but_sent (PTx (SPrepared s)) (SHash s) a _ Hb) as Hb'.
  set (w1 := ask (Sent (PTx (SPrepared s)) (SHash s) a) w) in *.
  assert (Hgo : ∀ amb cl le, (amb = false → clean w1) →
    wp (if (MaxTime (SPrepared s) <? cl) || pastLedger (SPrepared s) le then
          if amb : bool then resolve E c s else _ ← st_modify forget; st_fail ErrExpired
        else
          _ ← wait_or_forget backoff; t ← clock E;
          send_loop E c turns s envelope (Z.min (backoff * 2) (10 * second)) amb (Z.max cl (t / second)) le) (sent_well s) w1).
  { intros amb cl le Hamb. destruct (_ || _).
    - destruct amb; [by apply resolve_outcome|]. apply wp_bind, wp_modify, wp_fail. left. by apply Hamb.
    - apply wp_bind, wp_wait_or_forget; [intros Hp; by right|].
      intros n Hp. apply wp_bind. unfold wp at 1. cbn. apply IH; [cbn in *; lia| |].
      + apply (clean_but_same _ w1 _ [Asked; Waited backoff]); [done|by repeat constructor|done].
      + intros ?. apply (clean_same w1 _ [Asked; Waited backoff]); [done|by repeat constructor|auto]. }
  assert (Hrefused : (taken a → False) → ambiguous = false → clean w1) by (intros Ha He; apply clean_sent; auto).
  cbv zeta in Hgo |- *. destruct a as [r|e] eqn:Ea; [|exact (Hgo true closed ledger (λ H, match Bool.diff_true_false H with end))].
  destruct (String.eqb_spec (SStatus r) "PENDING") as [Hp|Hp]; [by apply wp_ret|].
  destruct (String.eqb_spec (SStatus r) "DUPLICATE") as [Hd|Hd]; [by apply wp_ret|]. cbn [orb].
  assert (Hn : taken (Ok r) → False) by (intros [?|?]; done).
  destruct (String.eqb_spec (SStatus r) "ERROR") as [He|He]; [|exact (Hgo ambiguous _ _ (Hrefused Hn))].
  destruct ambiguous; [by apply resolve_outcome|]. apply wp_bind, wp_modify, wp_fail. left. by apply Hrefused.
Qed.

(** What following a transaction tells: its fate, with nothing else in doubt. *)
Definition tracked_well (s : Signed) (r : res Tracked) (w : World) : Prop :=
  match r with
  | Ok t => outcome.Hash (TResult t) = SHash s ∧ clean_but (SHash s) w ∧
      match outcome.ROutcome (TResult t) with
      | outcome.Success => succeeds (SHash s)
      | outcome.Failed => ∃ l close, fate (SHash s) = Some (l, close, false)
      | outcome.Expired => fate (SHash s) = None
      end
  | Fail _ => patience w = 0%nat ∧ clean_but (SHash s) w
  end.

Lemma result_outcome x r : outcome.Hash (TResult (result x r)) = x ∧
  outcome.ROutcome (TResult (result x r)) = if String.eqb (GStatus r) "FAILED" then outcome.Failed else outcome.Success.
Proof. unfold result. by destruct (of_meta (GMeta r)) as [[[??]?]?]. Qed.

Lemma track_outcome turns s w : whole s → turns = S (patience w) → clean_but (SHash s) w →
  wp (track_loop E c turns s) (tracked_well s) w.
Proof.
  intros Hs. revert w. induction turns as [|turns IH]; intros w Ht Hc; [done|]. cbn [track_loop].
  apply wp_bind, wp_get_tx. pose proof (clean_but_got _ (SHash s) (GetTransaction E (log w) (SHash s)) _ Hc) as Hc'.
  assert (Hagain : wp (_ ← wait_or_forget (poll c); track_loop E c turns s) (tracked_well s)
    (ask (Got (SHash s) (GetTransaction E (log w) (SHash s))) w)).
  { apply wp_bind, wp_wait_or_forget; [intros Hp; split; [done|exact Hc']|].
    intros n Hp. apply IH; [cbn in *; lia|]. by apply clean_but_waited. }
  destruct (GetTransaction E (log w) (SHash s)) as [r|e] eqn:Eg; [|exact Hagain].
  destruct (result_outcome (SHash s) r) as [Rh Ro].
  destruct (String.eqb_spec (GStatus r) "SUCCESS") as [Hsu|Hsu].
  { unfold decided. rewrite Hsu. cbn [String.eqb orb]. apply wp_bind, wp_modify, wp_ret. split; [done|]. split; [done|].
    rewrite Ro, Hsu. cbn. by eapply honest_success. }
  destruct (String.eqb_spec (GStatus r) "FAILED") as [Hf|Hf].
  { unfold decided. rewrite Hf. cbn [String.eqb orb]. apply wp_bind, wp_modify, wp_ret. split; [done|]. split; [done|].
    rewrite Ro. by eapply honest_failed. }
  unfold decided. rewrite (proj2 (String.eqb_neq _ _) Hsu), (proj2 (String.eqb_neq _ _) Hf). cbn [orb].
  destruct (String.eqb_spec (GStatus r) "NOT_FOUND") as [Hn|]; [cbn [andb]|exact Hagain].
  destruct ((MaxTime (SPrepared s) <? GClosed r) || pastLedger (SPrepared s) (GLatest r)) eqn:Hp; [|exact Hagain].
  apply wp_bind, wp_modify, wp_ret. destruct Hs as (H1 & H2 & H3). split; [done|]. split; [done|].
  cbn. by apply (past_bounds s _ r H1 H2 H3 Eg).
Qed.

Lemma clean_quiet w w' : quiet w w' → clean w → clean w'.
Proof. intros (l & El & Hl & _). apply (clean_same _ _ l El). by apply asked_no_taken. Qed.

Lemma Send_outcome p w : TMaxTime (PTx p) = MaxTime p → TMaxLedger (PTx p) = MaxLedger p → clean w →
  wp (Send E c p) (λ r w', match r with Ok s => whole s ∧ SPrepared s = p ∧ clean_but (SHash s) w' | Fail _ => ∃ x, given_up x w' end) w.
Proof.
  intros H1 H2 Hc. unfold Send. apply wp_bind, wp_answer. destruct (sign (PTx p)) as [envelope|]; [|by exists ""; left].
  apply wp_bind, wp_answer. destruct (hash_hex (PTx p)) as [x|] eqn:Ex; [|by exists ""; left].
  apply wp_bind. unfold wp at 1. cbn [clock fst snd].
  assert (Hs : whole (mkSigned p x)) by done.
  assert (Hc' : clean (ask Asked w)) by (apply (clean_same w _ [Asked]); [done|by constructor|done]).
  eapply wp_mono; [apply (send_outcome _ (mkSigned p x)); [done|done|by apply clean_clean_but|done]|].
  intros [s|e] w'; [intros [-> ?]; done|]. intros Hg. by exists x.
Qed.

(** What one turn of a call leaves: its final answer with nothing else in doubt, the error it goes on
    after with nothing in doubt, or the end of the context. *)
Definition settled (r : res (Tracked + gerr)) (w : World) : Prop :=
  match r with
  | Ok (inl t) => let R := TResult t in
      match outcome.ROutcome R with
      | outcome.Success => succeeds (outcome.Hash R) ∧ clean_but (outcome.Hash R) w
      | outcome.Failed => (∃ l close, fate (outcome.Hash R) = Some (l, close, false)) ∧ clean w
      | outcome.Expired => False
      end
  | Ok (inr _) | Fail _ => ∃ x, given_up x w
  end.

Lemma fate_not x w (P : Prop) : clean_but x w → (∀ l t, fate x ≠ Some (l, t, true)) → clean w.
Proof. intros H Hf. apply (clean_but_clean x); [done|]. intros (l & t & ?). by eapply Hf. Qed.

Lemma one_call_outcome build worth extend w : clean w → wp (one_call E c build worth extend) settled w.
Proof.
  intros Hc. unfold one_call. apply wp_bind, wp_intro. intros w1 r E1.
  assert (Hc1 : clean w1) by (eapply clean_quiet; [exact (quiet_run _ _ _ _ (moves_question _) E1)|done]).
  destruct r as [op|e]; [|by exists ""; left].
  apply wp_bind, wp_st_try, wp_intro. intros w2 r E2.
  assert (Hc2 : clean w2) by (eapply clean_quiet; [exact (quiet_run _ _ _ _ (quiet_prepare E c op 0 extend) E2)|done]).
  destruct r as [p|e]; [|destruct (is_simulation e); exists ""; by left].
  destruct (prepared_spec _ _ _ _ _ _ _ _ E2) as [Hw _].
  apply wp_bind, wp_fail_if; intros _; [exists ""; by left|].
  apply wp_bind, wp_st_try. eapply wp_mono; [apply (Send_outcome p); [apply Hw|apply Hw|done]|].
  intros [s|e] w3; [|by intros Hg]. intros (Hs & _ & Hc3).
  apply wp_bind. eapply wp_mono; [apply (track_outcome _ s); done|].
  intros [t|e] w4; [|intros [Hp Hc4]; exists (SHash s); by right]. intros (Hh & Hc4 & Hf).
  destruct (outcome.ROutcome (TResult t)) eqn:Ho.
  - apply wp_ret. cbn. rewrite Ho, Hh. done.
  - destruct Hf as (l & close & Hf).
    assert (clean w4) by (apply (fate_not (SHash s) w4 True); [done|congruence]).
    destruct (outcome.Conflict (TResult t)); apply wp_ret; cbn; [exists ""; by left|]. rewrite Ho, Hh. eauto.
  - apply wp_ret. cbn. exists "". left. apply (fate_not (SHash s) w4 True); [done|congruence].
Qed.

Lemma calls_outcome turns build worth extend backoff w : clean w →
  wp (calls E c turns build worth extend backoff) (λ r w', match r with Ok t => settled (Ok (inl t)) w' | Fail _ => ∃ x, given_up x w' end) w.
Proof.
  revert backoff w. induction turns as [|turns IH]; intros backoff w Hc; cbn [calls].
  all: apply wp_bind; eapply wp_mono; [by apply one_call_outcome|].
  all: intros [[t|e]|e] w1 Hs; [by apply wp_ret| |done].
  all: destruct Hs as [x Hs]; apply wp_bind; unfold wp at 1, wait; destruct (patience w1) eqn:Ep; cbn.
  1, 3: exists x; destruct Hs as [?|[? ?]]; [by left|by right].
  all: destruct Hs as [Hs|[? _]]; [|congruence].
  - exists x. left. by apply (clean_waited backoff n).
  - apply IH. by apply (clean_waited backoff n).
Qed.
End honest.

(** ** Calls end *)

(** A clock that never goes back and passes what is waited for, and an RPC that, [lag] after a
    transaction's time bound, answers that it was included or that a later ledger closed without it. *)
Record timely {tx : TxSDK} (lag : Z) (E : Env) : Prop := mkTimely {
  time_forward : ∀ e h, now E h <= now E (e :: h);
  time_waits : ∀ d h, now E h + d <= now E (Waited d :: h);
  time_tells : ∀ t x h, hash_hex t = Ok x → TMaxTime t * second + lag < now E h → ∃ r, GetTransaction E h x = Ok r ∧
    (decided (GStatus r) = true ∨ GStatus r = "NOT_FOUND"%string ∧ TMaxTime t < GClosed r) }.

Section timely.
Context {sdk : StellarSDK} {tx : TxSDK} (lag : Z) (E : Env) (c : Config).
Hypothesis HE : timely lag E.
Hypothesis Hlag : 0 <= lag.

Definition least_wait : Z := 50000000.

(** The waits left until [t]. *)
Definition turns_to (t : Z) (w : World) : nat := Z.to_nat ((t - now E (log w)) / least_wait + 1).

(** No more than [n] waits. *)
Definition uses (n : nat) {A} (m : ST World A) (w : World) : Prop := wp m (λ _ w', patience w <= patience w' + n)%nat w.

Lemma uses_then {A} n (m : ST World A) Q w : uses n m w → (∀ r w', (patience w <= patience w' + n)%nat → Q r w') → wp m Q w.
Proof. unfold uses, wp. auto. Qed.

Lemma now_later l h : now E h <= now E (l ++ h).
Proof. induction l as [|e l IH]; [done|]. cbn [app]. pose proof (time_forward _ _ HE e (l ++ h)). lia. Qed.

Lemma turns_mono t t' w w' : t <= t' → now E (log w) <= now E (log w') → (turns_to t w' <= turns_to t' w)%nat.
Proof.
  intros Ht H. unfold turns_to, least_wait.
  pose proof (Z.div_le_mono (t - now E (log w')) (t' - now E (log w)) 50000000 ltac:(lia) ltac:(lia)). lia.
Qed.

Lemma turns_step t w d n e : least_wait <= d → now E (log w) <= t → (turns_to t (waited d n (ask e w)) + 1 <= turns_to t w)%nat.
Proof.
  intros Hd Ht. unfold turns_to, least_wait in *. cbn [log waited ask].
  pose proof (time_waits _ _ HE d (e :: log w)) as H1. pose proof (time_forward _ _ HE e (log w)) as H2.
  assert (((t - now E (Waited d :: e :: log w)) / 50000000 + 1 <= (t - now E (log w)) / 50000000)%Z).
  { rewrite <- Z.div_add by lia. apply Z.div_le_mono; lia. }
  pose proof (Z.div_pos (t - now E (log w)) 50000000 ltac:(lia) ltac:(lia)). lia.
Qed.

(** A transaction prepared and hashed, and the time by which its fate is told. *)
Definition told (s : Signed) : Z := TMaxTime (PTx (SPrepared s)) * second + lag.

Lemma told_after s w : whole s → told s < now E (log w) → ∃ r, GetTransaction E (log w) (SHash s) = Ok r ∧
  (decided (GStatus r) = true ∨ GStatus r = "NOT_FOUND"%string ∧ (MaxTime (SPrepared s) <? GClosed r) = true).
Proof.
  intros (H1 & H2 & _) Ht. destruct (time_tells _ _ HE _ _ (log w) H1 Ht) as (r & Hr & Hd).
  exists r. split; [done|]. destruct Hd as [Hd|[Hn Hc]]; [by left|right]. split; [done|]. lia.
Qed.

Lemma poll_least : least_wait <= poll c.
Proof. unfold poll, least_wait. lia. Qed.

(** A turn that asks and waits, within the turns left. *)
Lemma uses_again {A} (m : ST World A) s e w :
  now E (log w) <= told s →
  (∀ n, patience w = S n → uses (turns_to (told s) (waited (poll c) n (ask e w))) m (waited (poll c) n (ask e w))) →
  uses (turns_to (told s) w) (_ ← wait_or_forget (poll c); m) (ask e w).
Proof.
  intros Ht Hm. unfold uses. apply wp_bind, wp_wait_or_forget; cbn [patience ask forget].
  - intros ->. lia.
  - intros n Hp. eapply wp_mono; [apply (Hm n Hp)|]. cbn beta. intros r w' Hw'.
    pose proof (turns_step (told s) w (poll c) n e poll_least Ht). cbn [patience waited] in Hw'. lia.
Qed.

Lemma resolve_uses turns s w : whole s → turns = S (patience w) → uses (turns_to (told s) w) (resolve_loop E c turns s) w.
Proof.
  intros Hs. revert w. induction turns as [|turns IH]; intros w Ht; [done|]. unfold uses. cbn [resolve_loop].
  apply wp_bind, wp_get_tx. set (e := Got (SHash s) _).
  destruct (Z.lt_ge_cases (told s) (now E (log w))) as [Hpast|Hpast].
  - destruct (told_after s w Hs Hpast) as (r & -> & [Hd|[Hn Hc]]).
    + rewrite Hd. apply wp_ret. cbn. lia.
    + rewrite Hn, Hc. apply wp_bind, wp_modify, wp_fail. cbn. lia.
  - assert (Hagain : uses (turns_to (told s) w) (_ ← wait_or_forget (poll c); resolve_loop E c turns s) (ask e w))
      by (apply uses_again; [done|]; intros n Hp; apply IH; cbn; lia).
    destruct (GetTransaction E (log w) (SHash s)) as [r|]; [|exact Hagain].
    destruct (decided (GStatus r)); [apply wp_ret; cbn; lia|].
    destruct (_ && _); [apply wp_bind, wp_modify, wp_fail; cbn; lia|exact Hagain].
Qed.

Lemma resolve_all s w : whole s → uses (turns_to (told s) w) (resolve E c s) w.
Proof. intros Hs. exact (resolve_uses _ s w Hs eq_refl). Qed.

Lemma track_uses turns s w : whole s → turns = S (patience w) → uses (turns_to (told s) w) (track_loop E c turns s) w.
Proof.
  intros Hs. revert w. induction turns as [|turns IH]; intros w Ht; [done|]. unfold uses. cbn [track_loop].
  apply wp_bind, wp_get_tx. set (e := Got (SHash s) _).
  destruct (Z.lt_ge_cases (told s) (now E (log w))) as [Hpast|Hpast].
  - destruct (told_after s w Hs Hpast) as (r & -> & [Hd|[Hn Hc]]).
    + rewrite Hd. apply wp_bind, wp_modify, wp_ret. cbn. lia.
    + rewrite Hn, Hc. apply wp_bind, wp_modify, wp_ret. cbn. lia.
  - assert (Hagain : uses (turns_to (told s) w) (_ ← wait_or_forget (poll c); track_loop E c turns s) (ask e w))
      by (apply uses_again; [done|]; intros n Hp; apply IH; cbn; lia).
    destruct (GetTransaction E (log w) (SHash s)) as [r|]; [|exact Hagain].
    destruct (decided (GStatus r)); [apply wp_bind, wp_modify, wp_ret; cbn; lia|].
    destruct (_ && _); [apply wp_bind, wp_modify, wp_ret; cbn; lia|exact Hagain].
Qed.

(** The waits left at a reading of the clock. *)
Definition turns_at (t at_ : Z) : nat := Z.to_nat ((t - at_) / least_wait + 1).

Lemma turns_at_mono t t' a a' : t - a <= t' - a' → (turns_at t a <= turns_at t' a')%nat.
Proof. intros H. unfold turns_at, least_wait. pose proof (Z.div_le_mono (t - a) (t' - a') 50000000 ltac:(lia) H). lia. Qed.

Lemma turns_at_step t a a' : a <= t → a + least_wait <= a' → (turns_at t a' + 1 <= turns_at t a)%nat.
Proof.
  intros Ht Ha. unfold turns_at, least_wait in *.
  assert ((t - a') / 50000000 + 1 <= (t - a) / 50000000) by (rewrite <- Z.div_add by lia; apply Z.div_le_mono; lia).
  pose proof (Z.div_pos (t - a) 50000000 ltac:(lia) ltac:(lia)). lia.
Qed.

Lemma send_uses turns s envelope backoff ambiguous closed ledger w read : whole s → turns = S (patience w) → least_wait <= backoff →
  read <= now E (log w) → read / second <= closed →
  uses (2 * turns_at (told s + second) read) (send_loop E c turns s envelope backoff ambiguous closed ledger) w.
Proof.
  intros Hs. revert backoff ambiguous closed ledger w read.
  induction turns as [|turns IH]; intros backoff ambiguous closed ledger w read Ht Hb Hr Hc; [done|].
  unfold uses. cbn [send_loop]. apply wp_bind, wp_send_tx. set (a := SendTransaction E (log w) envelope).
  set (w1 := ask (Sent (PTx (SPrepared s)) (SHash s) a) w).
  assert (Hr1 : read <= now E (log w1)).
  { pose proof (time_forward _ _ HE (Sent (PTx (SPrepared s)) (SHash s) a) (log w)). cbn. lia. }
  assert (Hresolve : uses (2 * turns_at (told s + second) read) (resolve E c s) w1).
  { eapply uses_then; [exact (resolve_all s w1 Hs)|]. intros r2 w2 Hw2.
    assert (turns_to (told s) w1 <= turns_at (told s + second) read)%nat by (apply turns_at_mono; unfold second; lia). lia. }
  assert (Hgo : ∀ amb cl le, read / second <= cl →
    uses (2 * turns_at (told s + second) read)
       (if (MaxTime (SPrepared s) <? cl) || pastLedger (SPrepared s) le then
          if amb : bool then resolve E c s else _ ← st_modify forget; st_fail ErrExpired
        else
          _ ← wait_or_forget backoff; t ← clock E;
          send_loop E c turns s envelope (Z.min (backoff * 2) (10 * second)) amb (Z.max cl (t / second)) le) w1).
  { intros amb cl le Hcl. unfold uses. destruct (_ || _) eqn:Hpast.
    - destruct amb; [exact Hresolve|]. apply wp_bind, wp_modify, wp_fail. cbn. lia.
    - apply orb_false_iff in Hpast as [Hpast _]. apply Z.ltb_ge in Hpast.
      assert (Hm : read <= told s + second).
      { destruct Hs as (_ & Hs & _). unfold told. rewrite <- Hs. pose proof (Z.mod_pos_bound read second ltac:(done)).
        pose proof (Z.div_mod read second ltac:(done)). unfold second in *. lia. }
      apply wp_bind, wp_wait_or_forget; [intros Hp; cbn in *; lia|]. intros n Hp. apply wp_bind. unfold wp at 1. cbn [clock fst snd].
      set (w2 := mkWorld _ _ _ n _). fold (now E (log w2)).
      assert (Hstep : read + least_wait <= now E (log w2)).
      { pose proof (time_waits _ _ HE backoff (log w1)). change (log w2) with (Waited backoff :: log w1). lia. }
      eapply uses_then; [apply (IH _ amb _ le (ask Asked w2) (now E (log w2)))|].
      + cbn in *. lia.
      + unfold least_wait, second in *. lia.
      + apply (time_forward _ _ HE Asked (log w2)).
      + lia.
      + intros r3 w3 Hw3. pose proof (turns_at_step _ _ _ Hm Hstep). cbn in *. lia. }
  cbv zeta. destruct a as [r|e]; [|exact (Hgo true closed ledger Hc)].
  destruct (_ || _); [apply wp_ret; cbn; lia|].
  destruct (String.eqb (SStatus r) "ERROR"); [|exact (Hgo ambiguous (Z.max closed (SClosed r)) (Z.max ledger (SLatest r)) ltac:(lia))].
  destruct ambiguous; [exact Hresolve|]. apply wp_bind, wp_modify, wp_fail. cbn. lia.
Qed.

(** The waits one send, or one follow, may need when it was prepared within the validity. *)
Definition window : nat := turns_at (Validity c + lag + second) 0.

Lemma told_window s w : TMaxTime (PTx (SPrepared s)) * second <= now E (log w) + Validity c →
  (turns_at (told s + second) (now E (log w)) <= window)%nat.
Proof. intros H. apply turns_at_mono. unfold told. lia. Qed.

Lemma later_grows w w' : grows w w' → now E (log w) <= now E (log w').
Proof. intros (l & -> & _). apply now_later. Qed.

Lemma Send_uses p w : TMaxTime (PTx p) = MaxTime p → TMaxLedger (PTx p) = MaxLedger p →
  TMaxTime (PTx p) * second <= now E (log w) + Validity c →
  wp (Send E c p) (λ r w', (patience w <= patience w' + 2 * window)%nat) w.
Proof.
  intros H1 H2 H3. unfold Send.
  apply wp_bind, wp_answer. destruct (sign (PTx p)) as [envelope|]; [|cbn; lia].
  apply wp_bind, wp_answer. destruct (hash_hex (PTx p)) as [x|] eqn:Ex; [|cbn; lia].
  apply wp_bind. unfold wp at 1. cbn [clock fst snd].
  assert (Hs : whole (mkSigned p x)) by done.
  eapply uses_then.
  - apply (send_uses _ (mkSigned p x) envelope (poll c) false (now E (log w) / second) 0 (ask Asked w) (now E (log w)) Hs eq_refl poll_least);
      [apply (time_forward _ _ HE Asked)|lia].
  - intros r w' Hw. cbn [patience ask] in Hw. pose proof (told_window (mkSigned p x) w H3). cbn [SPrepared] in *. lia.
Qed.

Lemma Send_grows p : moves grows (Send E c p).
Proof. by apply sends_Send. Qed.

(** A send gives back what it sent. *)
Definition same_signed (s : Signed) (r : res Signed) (_ : World) : Prop := match r with Ok s' => s' = s | Fail _ => True end.

Lemma resolve_same turns s w : wp (resolve_loop E c turns s) (same_signed s) w.
Proof.
  revert w. induction turns as [|turns IH]; intros w; [done|]. cbn [resolve_loop]. apply wp_bind, wp_get_tx.
  destruct (GetTransaction _ _ _) as [r|]; [destruct (decided _); [done|]; destruct (_ && _); [done|]|].
  all: apply wp_bind, wp_wait_or_forget; [done|intros; apply IH].
Qed.

Lemma send_same turns s envelope backoff ambiguous closed ledger w :
  wp (send_loop E c turns s envelope backoff ambiguous closed ledger) (same_signed s) w.
Proof.
  revert backoff ambiguous closed ledger w. induction turns as [|turns IH]; intros backoff ambiguous closed ledger w; [done|].
  cbn [send_loop]. apply wp_bind, wp_send_tx.
  destruct (SendTransaction _ _ _) as [r|].
  1: destruct (_ || _); [done|]; destruct (String.eqb _ "ERROR"); [destruct ambiguous; [apply resolve_same|done]|].
  all: destruct (_ || _); [first [apply resolve_same|destruct ambiguous; [apply resolve_same|done]]|].
  all: apply wp_bind, wp_wait_or_forget; [done|intros; apply wp_bind; unfold wp at 1; cbn [clock fst snd]; apply IH].
Qed.

Lemma Send_whole p w : TMaxTime (PTx p) = MaxTime p → TMaxLedger (PTx p) = MaxLedger p →
  wp (Send E c p) (λ r _, match r with Ok s => whole s ∧ SPrepared s = p | Fail _ => True end) w.
Proof.
  intros H1 H2. unfold Send.
  apply wp_bind, wp_answer. destruct (sign (PTx p)) as [envelope|]; [|done].
  apply wp_bind, wp_answer. destruct (hash_hex (PTx p)) as [x|] eqn:Ex; [|done].
  apply wp_bind. unfold wp at 1. cbn [clock fst snd].
  eapply wp_mono; [apply send_same|]. intros [s|e] w' Hs; [|done]. by rewrite Hs.
Qed.

Lemma one_call_uses build worth extend w : uses (3 * window) (one_call E c build worth extend) w.
Proof.
  unfold uses, one_call. apply wp_bind, wp_intro. intros w1 r E1.
  destruct (quiet_run _ _ _ _ (moves_question _) E1) as (_ & _ & _ & P1).
  destruct r as [op|e]; [|cbn; lia].
  apply wp_bind, wp_st_try, wp_intro. intros w2 r E2.
  destruct (quiet_run _ _ _ _ (quiet_prepare E c op 0 extend) E2) as (_ & _ & _ & P2).
  destruct r as [p|e]; [|destruct (is_simulation e); [apply wp_fail|apply wp_ret]; cbn; lia].
  destruct (prepared_spec _ _ _ _ _ _ _ _ E2) as ([W1 W2 W3 _ _ _ _] & _ & _ & (h & l & El & Et) & _).
  assert (Htime : TMaxTime (PTx p) * second <= now E (log w2) + Validity c).
  { rewrite W2, Et, El. pose proof (now_later l h). pose proof (Z.mul_div_le (now E h + Validity c) second ltac:(done)). lia. }
  apply wp_bind, wp_fail_if; intros _; [cbn; lia|].
  assert (HS : wp (Send E c p) (λ r w3, (patience w2 <= patience w3 + 2 * window)%nat ∧
    match r with Ok s => whole s ∧ SPrepared s = p | Fail _ => True end ∧ grows w2 w3) w2).
  { split; [exact (Send_uses p w2 W2 W3 Htime)|split; [exact (Send_whole p w2 W2 W3)|exact (Send_grows p w2)]]. }
  apply wp_bind, wp_st_try. eapply wp_mono; [exact HS|].
  cbn beta. intros r w3 (P3 & Hwhole & Hgrow). destruct r as [s|e]; [|apply wp_ret; cbn; lia]. destruct Hwhole as [Hs Hp].
  apply wp_bind. eapply uses_then; [exact (track_uses _ s w3 Hs eq_refl)|].
  assert (Hk : (turns_to (told s) w3 <= window)%nat).
  { apply turns_at_mono. pose proof (later_grows _ _ Hgrow). unfold told. rewrite Hp. unfold second in *. lia. }
  intros r w4 P4. destruct r as [t|e]; [|cbn; lia].
  destruct (outcome.ROutcome (TResult t)); [|destruct (outcome.Conflict (TResult t))|]; apply wp_ret; cbn; lia.
Qed.

Lemma calls_uses turns build worth extend backoff w :
  uses (S turns * (3 * window + 1)) (calls E c turns build worth extend backoff) w.
Proof.
  revert backoff w. induction turns as [|turns IH]; intros backoff w; unfold uses; cbn [calls].
  all: apply wp_bind; eapply uses_then; [apply one_call_uses|].
  all: intros [[t|e]|e] w1 Hw; [apply wp_ret; lia| |lia].
  all: apply wp_bind; unfold wp at 1, wait; destruct (patience w1) eqn:Ep; cbn [fst snd]; [lia|].
  - apply wp_fail. cbn in *. lia.
  - eapply uses_then; [apply IH|]. intros r w2 Hw2. cbn [patience] in *. lia.
Qed.
End timely.

(** * Properties *)

(** C16: What the engine prepares stays within its operator's bounds, whatever the network answers, an RPC
    that lies included, and at any overflow of the fees it names: the transaction takes the account's next
    sequence number, bids and declares no more than the caps, ends in time and at the ledger asked for or
    before, makes the caller's call and no other, carries the authorizations that a simulation of that call
    listed, every one with the source account's credentials, and restores nothing where restores are refused.
    Preparing sends and waits for nothing. *)
Theorem prepared_within_caps {sdk : StellarSDK} {tx : TxSDK} (E : Env) (c : Config) (op : Operation) (bound : Z)
    (extend : option Extend) (w w' : World) (p : Prepared) (H : PrepareUntil E c op bound extend w = (w', Ok p)) :
  within c op bound p ∧ source_signed E op p w' ∧ known w' = true ∧ Seq p = i64 (seq w' + 1) ∧ quiet w w' ∧
  ∃ h l, log w' = l ++ h ∧ MaxTime p = (now E h + Validity c) / second.
Proof.
  destruct (prepared_spec _ _ _ _ _ _ _ _ H) as (H1 & H2 & H3 & H4 & H5). split_and!; try done.
  exact (quiet_run _ _ _ _ (quiet_prepare E c op bound extend) H).
Qed.

(** C3: A call is applied at most once, however often it is simulated and sent again, whatever sends go
    unanswered and wherever its context ends. On a network that tells what becomes of a transaction truly,
    if the envelopes it includes are ones a send of which it took or left unanswered: a call that answers
    success was applied by the transaction it names and by no other; one that answers failure, or an error,
    was not applied by any, unless its context ended, and then by one at most. *)
Theorem calls_succeed_at_most_once {sdk : StellarSDK} {tx : TxSDK} (fate : string → option (Z * Z * bool)) (E : Env) (c : Config)
    (build : list Event → res Operation) (attempts : Z) (worth : option (option ScVal → bool)) (extend : option Extend)
    (w w' : World) (r : res Tracked) (HE : honest fate E) (Hlog : log w = [])
    (Hreach : ∀ t x a, Sent t x a ∈ log w' → is_Some (fate x) → reached x (log w'))
    (H : DoExtended E c build attempts worth extend w = (w', r)) :
  let sent x := ∃ t a, Sent t x a ∈ log w' in
  match r with
  | Ok t => let R := TResult t in
      match outcome.ROutcome R with
      | outcome.Success => succeeds fate (outcome.Hash R) ∧ ∀ x, sent x → succeeds fate x → x = outcome.Hash R
      | outcome.Failed => (∃ l close, fate (outcome.Hash R) = Some (l, close, false)) ∧ ∀ x, sent x → ¬ succeeds fate x
      | outcome.Expired => False
      end
  | Fail _ => (∀ x, sent x → ¬ succeeds fate x) ∨ patience w' = 0%nat ∧ ∃ x, ∀ y, sent y → succeeds fate y → y = x
  end.
Proof.
  assert (Hc : clean fate w) by (intros y (t & a & Hin & _); rewrite Hlog in Hin; by apply elem_of_nil in Hin).
  pose proof (calls_outcome fate E c HE (Z.to_nat (Z.max attempts 1) - 1) build worth extend second w Hc) as Hw.
  apply (wp_use _ _ _ _ _ Hw) in H. clear Hw Hlog Hc. cbv zeta.
  assert (Hsent : ∀ x, (∃ t a, Sent t x a ∈ log w') → succeeds fate x → reached x (log w')).
  { intros x (t & a & Hin) (l & close & Hf). by eapply Hreach; [exact Hin|eexists]. }
  destruct r as [t|e].
  - cbn in H. destruct (outcome.ROutcome (TResult t)); [| |done]; destruct H as [H1 H2]; (split; [done|]).
    + intros x Hx Hs. by apply H2; [apply Hsent|].
    + intros x Hx Hs. by apply (H2 x); [apply Hsent|].
  - destruct H as (x & [Hc|[Hp Hc]]); [left|right; split; [done|exists x]].
    + intros y Hy Hs. by apply (Hc y); [apply Hsent|].
    + intros y Hy Hs. by apply Hc; [apply Hsent|].
Qed.

(** C36: A call ends by itself. With a clock that passes what is waited for, and an RPC that answers, [lag]
    after a transaction's time bound, that it was included or that a ledger closed without it, a call of
    [attempts] turns waits no more than a number of times its validity and the lag set, whatever else the
    network answers; so a context that lasts longer never ends it. *)
Theorem calls_end {sdk : StellarSDK} {tx : TxSDK} (lag : Z) (E : Env) (c : Config) (build : list Event → res Operation) (attempts : Z)
    (worth : option (option ScVal → bool)) (extend : option Extend) (w w' : World) (r : res Tracked)
    (HE : timely lag E) (Hlag : 0 <= lag) (H : DoExtended E c build attempts worth extend w = (w', r)) :
  Z.of_nat (patience w) - Z.of_nat (patience w') <=
    Z.max attempts 1 * (3 * Z.max 0 ((Validity c + lag + second) / least_wait + 1) + 1).
Proof.
  pose proof (calls_uses lag E c HE Hlag (Z.to_nat (Z.max attempts 1) - 1) build worth extend second w) as Hw.
  unfold uses in Hw. apply (wp_use _ _ _ _ _ Hw) in H. unfold window, turns_at in H. rewrite Z.sub_0_r in H.
  set (n := (Validity c + lag + second) / least_wait + 1) in *. clearbody n.
  replace (S (Z.to_nat (Z.max attempts 1) - 1)) with (Z.to_nat (Z.max attempts 1)) in H by lia. nia.
Qed.

(** ** A run *)

Module demo.

Definition time (h : list Event) : Z := foldr (λ e t, match e with Waited d => Z.max d 0 | _ => 0 end + t) (900 * second) h.

(** Transactions that last until 1000 at least have the hash [tx], which the network includes in ledger 10,
    closed at 1000. The first send goes unanswered; a look-up before 960 finds nothing. *)
Definition hash (t : Tx) : string :=
  if (1000 <=? TMaxTime t) && ((TMaxLedger t <=? 0) || (10 <? TMaxLedger t)) then "tx" else "late".
Definition fate (x : string) : option (Z * Z * bool) := if String.eqb x "tx" then Some (10, 1000, true) else None.
Definition answer (status : string) (latest closed : Z) : GetResponse := mkGetResponse status 10 latest closed None [] None.
Definition look (h : list Event) (x : string) : res GetResponse :=
  if String.eqb x "tx" then Ok (if 960 * second <=? time h then answer "SUCCESS" 11 1005 else answer "NOT_FOUND" 9 950)
  else Ok (answer "NOT_FOUND" 9 (time h / second)).
Definition is_sent (e : Event) : bool := match e with Sent _ _ _ => true | _ => false end.

#[export] Instance sdk : StellarSDK := fee_sdk.
#[export] Instance tx : TxSDK := {
  new_transaction _ := Ok "draft"%string; sign _ := Ok "envelope"%string; hash_hex t := Ok (hash t);
  data_size d := Ok 100 }.

Definition data : TransactionData := mkData (mkResources (mkFootprint [KeyContractCode [1]] []) 1000 0 0) 500 [].
Definition account_entry : rpc.Entry := rpc.mkEntry (rpc.DataAccount 41 0 [] []) 8 None.
Definition env : Env := mkEnv time (λ _, Ok 250)
  (λ _, rpc.mkClient (Ok (1, 9, 940)) (λ batch, Ok (map (λ s, (s, account_entry)) batch, 9)))
  (λ _ _, Ok (mkSim "" false (Some data) 10000 [] 9))
  (λ h _, if existsb is_sent h then Ok (mkSendResponse "PENDING" None 9 940) else Fail (Sentinel "timeout"))
  look.
Definition config : Config := mkConfig (example.account 3) 1000 15 100000 0 false (300 * second) (30 * second).
Definition op : Operation := ExtendFootprintTtl (mkOp (ExtendTo 7) [] None).
Definition start : World := mkWorld 0 false None 100 [].

(** A call whose simulation lists one authorization, of the source account's. *)
Definition signing : Env := mkEnv (now env) (GetFeeStats env) (reads env)
  (λ _ _, Ok (mkSim "" false (Some data) 10000 [mkSimResult (Some [Some (true, [1; 2])]) None] 9)) (SendTransaction env) (GetTransaction env).
Definition invoke : Operation := InvokeHostFunction (mkOp (HostFunction 2) [] None).
Definition run : World * res Tracked := Do env config (λ _, Ok op) 3 start.

Lemma time_waited d h : time h + d <= time (Waited d :: h).
Proof. unfold time. cbn [foldr]. lia. Qed.

Lemma time_grows e h : time h <= time (e :: h).
Proof. unfold time. cbn [foldr]. destruct e; lia. Qed.

Lemma env_honest : honest fate env.
Proof.
  split; cbn [GetTransaction env].
  - intros h x r. unfold look, fate. destruct (String.eqb x "tx"); intros [= <-]; [eauto|discriminate].
  - intros h x r. unfold look, fate. destruct (String.eqb x "tx"); intros [= <-]; [|discriminate].
    destruct (960 * second <=? time h); discriminate.
  - intros h x r l t b. unfold look, fate. destruct (String.eqb x "tx"); [|discriminate]. intros [= <-] Hs [= <- <- <-].
    destruct (960 * second <=? time h); [discriminate Hs|]. split; reflexivity.
  - intros t x l close b. cbn [hash_hex tx]. unfold hash, fate. intros [= <-].
    destruct (Z.leb_spec 1000 (TMaxTime t)); cbn [andb]; [|discriminate].
    destruct (Z.leb_spec (TMaxLedger t) 0), (Z.ltb_spec 10 (TMaxLedger t)); cbn; intros [= <- <- <-]; lia.
Qed.

Lemma past_close n t : n * second + second < t → n < t / second.
Proof. intros H. assert (n + 1 <= t / second) by (apply Z.div_le_lower_bound; unfold second in *; lia). lia. Qed.

Lemma env_timely : timely second env.
Proof.
  split; cbn [now env].
  - intros e h. apply time_grows.
  - intros d h. apply time_waited.
  - intros t x h. cbn [hash_hex tx GetTransaction env]. unfold hash, look. intros [= <-] Ht.
    destruct (Z.leb_spec 1000 (TMaxTime t)) as [H1|H1]; cbn [andb].
    + destruct (_ || _); cbn [String.eqb].
      * assert (960 * second <=? time h = true) as -> by (unfold second in *; lia). eexists. split; [reflexivity|]. left. reflexivity.
      * eexists. split; [reflexivity|]. right. split; [reflexivity|]. by apply past_close.
    + eexists. split; [reflexivity|]. right. split; [reflexivity|]. by apply past_close.
Qed.

(** Every transaction the run sends has the hash [tx], and its second send was taken. *)
Lemma run_reached : ∀ t x a, Sent t x a ∈ log run.1 → is_Some (fate x) → reached x (log run.1).
Proof.
  intros t x a _ [v Hv]. unfold fate in Hv. destruct (String.eqb_spec x "tx"); [subst x|discriminate].
  assert (Hin : ∃ t a, log run.1 !! 3%nat = Some (Sent t "tx" a) ∧ taken a).
  { eexists _, _. split; [vm_compute; reflexivity|]. by left. }
  destruct Hin as (t' & a' & Hin & Ha). exists t', a'. split; [by eapply list_elem_of_lookup_2|done].
Qed.

Lemma run_is : Do env config (λ _, Ok op) 3 start = (run.1, run.2).
Proof. change (run = (run.1, run.2)). by destruct run. Qed.
End demo.

#[local] Existing Instance demo.sdk.
#[local] Existing Instance demo.tx.

(** The first send went unanswered; the envelope was sent again and included once. *)
Lemma calls_succeed_witness : ∃ t, demo.run.2 = Ok t ∧ outcome.Hash (TResult t) = "tx"%string ∧ succeeds demo.fate "tx" ∧
  ∀ x, (∃ tr a, Sent tr x a ∈ log demo.run.1) → succeeds demo.fate x → x = "tx"%string.
Proof.
  pose proof (calls_succeed_at_most_once demo.fate demo.env demo.config (λ _, Ok demo.op) 3 None None demo.start
    demo.run.1 demo.run.2 demo.env_honest eq_refl demo.run_reached) as H.
  specialize (H demo.run_is). cbv zeta in H.
  assert (Er : ∃ t, demo.run.2 = Ok t ∧ outcome.Hash (TResult t) = "tx"%string ∧ outcome.ROutcome (TResult t) = outcome.Success)
    by (eexists; split; [vm_compute; reflexivity|split; reflexivity]).
  destruct Er as (t & Er & Eh & Eo). rewrite Er, Eo, Eh in H. exists t. split; [exact Er|]. split; [exact Eh|]. exact H.
Defined.

Lemma calls_end_witness : Z.of_nat (patience demo.start) - Z.of_nat (patience demo.run.1) = 2 ∧ 2 <= 3 * (3 * 6041 + 1).
Proof.
  assert (Ep : Z.of_nat (patience demo.start) - Z.of_nat (patience demo.run.1) = 2) by (vm_compute; reflexivity).
  split; [exact Ep|].
  pose proof (calls_end second demo.env demo.config (λ _, Ok demo.op) 3 None None demo.start demo.run.1 demo.run.2
    demo.env_timely ltac:(discriminate)) as H.
  specialize (H demo.run_is). rewrite Ep in H. exact H.
Defined.

Lemma prepared_witness : ∃ w p, PrepareUntil demo.signing demo.config demo.invoke 500 None demo.start = (w, Ok p) ∧
  Seq p = 42 ∧ PInclusion p = 250 ∧ PResource p <= 100000 ∧ 0 < MaxLedger p <= 500 ∧
  source_signed demo.signing demo.invoke p w ∧ match TOp (PTx p) with InvokeHostFunction o => Auth o = [[1; 2]] | _ => False end.
Proof.
  destruct (PrepareUntil demo.signing demo.config demo.invoke 500 None demo.start) as [w [p|e]] eqn:E;
    [|exfalso; revert E; vm_compute; discriminate].
  exists w, p. split; [reflexivity|].
  destruct (prepared_within_caps demo.signing demo.config demo.invoke 500 None demo.start w p E) as ([_ _ _ Hb _ Hf _] & Hs & _).
  assert (Ev : Seq p = 42 ∧ PInclusion p = 250 ∧ match TOp (PTx p) with InvokeHostFunction o => Auth o = [[1; 2]] | _ => False end)
    by (vm_compute in E; injection E as _ <-; repeat split; reflexivity).
  split; [apply Ev|]. split; [apply Ev|]. split; [exact (Hf eq_refl)|]. split; [exact (Hb eq_refl)|]. split; [exact Hs|apply Ev].
Defined.

End enginecalls.
