(* ===== verification/Keeper.v ===== *)
(** The keeper of [services/internal/keeper/keeper.go] and [exits.go]: it admits eligible deposits, refunds
    those that stayed flagged, pays the exit queue as the outflow window allows and claims stranded exits
    again.

    It runs over the world of the engine it sends through: what it reads are questions of that world, and
    each of its calls is a run of [engine.DoExtended]. The state its follower replayed is one of those answers,
    as the follower runs beside the jobs; what the jobs themselves keep is theirs alone. The texts of alerts are
    left out. *)
From S2P Require Import Prelude.
From S2P Require Import Xdr.
From S2P Require Import ScVal.
From S2P Require Import VaultState.
From S2P Require Import Events.
From S2P Require Import ChainData.
From S2P Require Import Keys.
From S2P Require Import Rpc.
From S2P Require Import Token.
From S2P Require Import RelayOutcome.
From S2P Require Import Alert.
From S2P Require Import EngineFees.
From S2P Require Import Engine.

Module keeper.

Import scval fees engine.

(** ** Data *)

(** [Config], with the engine's. Times are in nanoseconds. *)
Record Config : Type := mkConfig {
  Vault : string; Asset : string; MaxAdmissions : Z; MaxExtensions : nat; MaxReleases : Z; RefundDelay : Z; HoldReasons : gset Z;
  BalanceFloor : Z; ExitKeys : Z; Engine : engine.Config }.

(** The world outside: the engine's, the state the follower replayed by then, how often the database says each
    exit stranded, the base reserve in the header of the latest ledger, decoded as a history entry and as a bare
    header, and, where it is set, the unflags the screening service waits with. *)
Record Env : Type := mkEnv {
  Net : engine.Env;
  Replayed : list Event → chaindata.State;
  Strands : list Event → list Z → res (gmap Z Z);
  Header : list Event → res (option Z * option Z);
  Unflags : option (list Event → res (gmap Z Z)) }.

(** [releaseIdle] *)
Record releaseIdle : Type := mkIdle { day : Z; room : Z; head : Z }.

#[export] Instance releaseIdle_eq_dec : EqDecision releaseIdle.
Proof. solve_decision. Defined.

(** [claimTry]; the parties' entries are named by the ledgers that last modified them, [None] for one
    that is missing. *)
Record claimTry : Type := mkTry { seen : list (option Z); tried : Z; failures : Z }.

(** An alert raised, by its severity and code, or cleared. *)
Inductive Alerted : Type := Raised (severity code : string) | Cleared (code : string).

(** [Keeper]: its engine's world, what its jobs keep, what the current TTL cycle's transactions were charged and
    when the last one completed, and the alerts raised and cleared, newest first. *)
Record World : Type := mkWorld {
  eng : engine.World; idle : option releaseIdle; claims : gmap Z claimTry; unflagMisses : Z; charged : Z;
  lastCycle : option Z; alerted : list Alerted }.
Definition set_eng (e : engine.World) (w : World) : World :=
  mkWorld e (idle w) (claims w) (unflagMisses w) (charged w) (lastCycle w) (alerted w).
Definition set_idle (i : releaseIdle) (w : World) : World :=
  mkWorld (eng w) (Some i) (claims w) (unflagMisses w) (charged w) (lastCycle w) (alerted w).
Definition set_claims (m : gmap Z claimTry) (w : World) : World :=
  mkWorld (eng w) (idle w) m (unflagMisses w) (charged w) (lastCycle w) (alerted w).
Definition set_misses (n : Z) (w : World) : World :=
  mkWorld (eng w) (idle w) (claims w) n (charged w) (lastCycle w) (alerted w).
Definition set_charged (n : Z) (w : World) : World :=
  mkWorld (eng w) (idle w) (claims w) (unflagMisses w) n (lastCycle w) (alerted w).
Definition set_lastCycle (t : Z) (w : World) : World :=
  mkWorld (eng w) (idle w) (claims w) (unflagMisses w) (charged w) (Some t) (alerted w).
Definition set_alerted (a : Alerted) (w : World) : World :=
  mkWorld (eng w) (idle w) (claims w) (unflagMisses w) (charged w) (lastCycle w) (a :: alerted w).

Definition Critical : string := "critical".
Definition Warning : string := "warning".

Definition raise (severity code : string) : ST World unit := st_modify (set_alerted (Raised severity code)).
Definition clear (code : string) : ST World unit := st_modify (set_alerted (Cleared code)).

(** A run of the engine's. *)
Definition on_engine {A} (m : ST engine.World A) : ST World A := λ w, let '(e, r) := m (eng w) in (set_eng e w, r).

Section keeper.
Context {sdk : StellarSDK} {tx : TxSDK} (E : Env) (c : Config).

Definition ask {A} (f : list Event → res A) : ST World A := on_engine (question f).
Definition client (h : list Event) : rpc.Client := reads (Net E) h.
Definition clock : ST World Z := on_engine (engine.clock (Net E)).
Definition replayed : ST World chaindata.State := λ w, (w, Ok (Replayed E (log (eng w)))).

(** ** Calls *)

(** [Keeper.invoke] *)
Definition invoke (fn : string) (args : list ScVal) : res Operation :=
  addr ← ScAddressOf (Vault c);
  mret (InvokeHostFunction (mkOp (Contract addr fn args) [] None)).

(** [Keeper.attempt]: the result, when the engine gives one, and the error, one for a call that did not
    succeed on chain included. *)
Definition attempt (build : res Operation) (worth : option (option ScVal → bool)) (extend : option Extend)
    : ST World (option Tracked * option gerr) :=
  r ← st_try (on_engine (DoExtended (Net E) (Engine c) (λ _, build) 5 worth extend));
  mret (match r with
        | Fail e => (None, Some e)
        | Ok t =>
            (Some t, match outcome.ROutcome (TResult t) with
                     | outcome.Success => None
                     | _ => Some (Sentinel (outcome.TxCode (TResult t)))
                     end)
        end).

Definition not_worth (e : gerr) : bool := errors_is "submit: the call would achieve nothing" e.

(** [Keeper.callWorth] and [Keeper.call] *)
Definition callWorth (build : res Operation) (worth : option (option ScVal → bool)) (extend : option Extend)
    : ST World (option Tracked * option gerr) :=
  r ← attempt build worth extend;
  _ ← match r.2 with
      | Some e => if negb (is_simulation e) && negb (not_worth e) then raise Critical "call_failed" else mret tt
      | None => mret tt
      end;
  mret r.
Definition call (build : res Operation) : ST World (option Tracked * option gerr) := callWorth build None None.

(** [Keeper.chainTime]: the close time and the number of the latest ledger. *)
Definition chainTime : ST World (Z * Z) :=
  '(_, latest, close) ← ask (λ h, rpc.GetHealth (client h));
  mret (u64 close, latest).

(** [rpc.BaseReserve] *)
Definition BaseReserve (h : list Event) : res Z :=
  '(entry, bare) ← Header E h;
  match entry, bare with
  | Some reserve, _ | None, Some reserve => Ok reserve
  | None, None => Fail (Sentinel "rpc: the latest ledger's header")
  end.

(** The parts of an instance, which one that decodes holds. *)
Definition parts (i : vault.VaultInstance) : res (vault.Config * vault.Limits * vault.Status) :=
  match vault.IConfig i, vault.ILimits i, vault.IStatus i with
  | Some cfg, Some l, Some s => Ok (cfg, l, s)
  | _, _, _ => Fail (Sentinel "instance")
  end.
Definition readVault : ST World (vault.Config * vault.Limits * vault.Status) :=
  '(i, _) ← ask (λ h, rpc.VaultInstance (client h) (Vault c));
  on_engine (st_lift (parts i)).

(** ** Deposits *)

Definition sorted (l : list Z) : list Z := merge_sort Z.le l.

(** [Keeper.pendingIDs] *)
Definition pendingIDs (s : chaindata.State) : list Z := sorted (map_to_list (chaindata.Pending s)).*1.

(** The loop of [readPending] over the entries read. *)
Fixpoint found {A} (decode : ScVal → res A) (entries : gmap string rpc.Entry) (l : list (Z * LedgerKey)) : res (list (Z * A)) :=
  match l with
  | [] => Ok []
  | (id, key) :: l =>
      match rpc.entry_of entries key with
      | None => found decode entries l
      | Some e => v ← rpc.ContractValue e; d ← decode v; rest ← found decode entries l; mret ((id, d) :: rest)
      end
  end.

(** [Keeper.readPending] *)
Definition readPending (ids : list Z) : ST World (list (Z * vault.PendingDeposit)) :=
  keys ← on_engine (st_lift (mapM (keys.PendingKey (Vault c)) ids));
  '(entries, _) ← ask (λ h, rpc.Entries (client h) keys);
  on_engine (st_lift (found vault.DecodePendingDeposit entries (zip ids keys))).

(** [admittedAny] *)
Definition admittedAny (v : option ScVal) : bool :=
  match v with Some (ScvVec (Some l)) => negb (bool_decide (l = [])) | _ => true end.

(** A deposit [Admit] admits now, and one it warns of as late. *)
Definition eligible (cfg : vault.Config) (l : vault.Limits) (now : Z) (d : vault.PendingDeposit) : bool :=
  match vault.Flag d with Some _ => false | None => negb (now <? vault.EligibleAt d cfg l) end.
Definition late (cfg : vault.Config) (l : vault.Limits) (now : Z) (d : vault.PendingDeposit) : bool :=
  u64 (vault.EligibleAt d cfg l + 600) <=? now.

(** The loop of [Admit] that sends: a turn takes a batch off or halves it. *)
Fixpoint admit_batches (turns : nat) (batch : nat) (ids : list Z) : ST World unit :=
  match turns, ids with
  | S turns, _ :: _ =>
      let n := Nat.min batch (length ids) in
      '(_, err) ← callWorth (invoke "admit" [Vec (map U64 (take n ids))]) (Some admittedAny) None;
      match err with
      | Some e =>
          if is_simulation e && (1 <? n)%nat then admit_batches turns (n / 2) ids
          else if negb (not_worth e) then st_fail e
          else admit_batches turns batch (drop n ids)
      | None => admit_batches turns batch (drop n ids)
      end
  | _, _ => mret tt
  end.

(** The warnings of the loop that picks the deposits. *)
Fixpoint warn_late (cfg : vault.Config) (l : vault.Limits) (now : Z) (ds : list (Z * vault.PendingDeposit)) : ST World unit :=
  match ds with
  | [] => mret tt
  | (_, d) :: ds =>
      _ ← (if eligible cfg l now d && late cfg l now d then raise Warning "admission_late" else mret tt);
      warn_late cfg l now ds
  end.

(** [Keeper.Admit] *)
Definition Admit : ST World unit :=
  '(cfg, l, s) ← readVault;
  '(now, _) ← chainTime;
  if vault.Halted s now then mret tt
  else
    st ← replayed;
    pending ← readPending (filter (λ id, id <= vault.AttestedUpTo s) (pendingIDs st));
    _ ← warn_late cfg l now pending;
    let ids := (filter (λ p : Z * vault.PendingDeposit, eligible cfg l now p.2 = true) pending).*1 in
    let batch := Z.to_nat (Z.max (MaxAdmissions c) 1) in
    _ ← admit_batches (length ids + batch) batch ids;
    clear "admission_late".

(** Whether [Refund] refunds a deposit now, given the unflags that wait. *)
Definition refundable (now : Z) (unflags : gmap Z Z) (id : Z) (d : vault.PendingDeposit) : bool :=
  match vault.Flag d with
  | None => false
  | Some f =>
      negb (bool_decide (f ∈ HoldReasons c)) && negb (now <? u64 (vault.FlaggedAt d + u64 (Z.quot (RefundDelay c) second))) &&
      negb (match unflags !! id with Some until => now <? until | None => false end)
  end.

(** [Keeper.pendingGone] *)
Definition pendingGone (id : Z) : ST World bool :=
  match keys.PendingKey (Vault c) id with
  | Fail _ => mret false
  | Ok key =>
      r ← st_try (ask (λ h, rpc.One (client h) key));
      mret (match r with Fail e => errors_is "rpc: ledger entry missing" e | Ok _ => false end)
  end.

Definition failed_on_chain (r : option Tracked) : bool :=
  match r with Some t => match outcome.ROutcome (TResult t) with outcome.Failed => true | _ => false end | None => false end.

(** One turn of the loop of [Refund]. *)
Definition refund_one (now : Z) (unflags : gmap Z Z) (id : Z) (d : vault.PendingDeposit) : ST World unit :=
  if refundable now unflags id d then
    '(r, err) ← attempt (invoke "refund" [U64 id]) None None;
    match err with
    | None => mret tt
    | Some e =>
        if is_simulation e then mret tt
        else
          gone ← (if failed_on_chain r then pendingGone id else mret false);
          if gone : bool then mret tt else raise Critical "call_failed"
    end
  else mret tt.
Fixpoint refund_all (now : Z) (unflags : gmap Z Z) (ds : list (Z * vault.PendingDeposit)) : ST World unit :=
  match ds with
  | [] => mret tt
  | (id, d) :: ds => _ ← refund_one now unflags id d; refund_all now unflags ds
  end.

(** The list of unflags that wait, without which no refund goes. *)
Definition read_unflags : ST World (gmap Z Z) :=
  match Unflags E with
  | None => mret ∅
  | Some f =>
      r ← st_try (ask f);
      match r with
      | Fail e =>
          w ← st_get;
          let n := unflagMisses w + 1 in
          _ ← st_modify (set_misses n);
          _ ← (if 2 <=? n then raise Warning "refunds_wait" else mret tt);
          st_fail e
      | Ok m => _ ← st_modify (set_misses 0); _ ← clear "refunds_wait"; mret m
      end
  end.

(** [Keeper.Refund] *)
Definition Refund : ST World unit :=
  '(now, _) ← chainTime;
  st ← replayed;
  pending ← readPending (pendingIDs st);
  unflags ← read_unflags;
  refund_all now unflags pending.

(** [Keeper.CheckBalance] *)
Definition CheckBalance : ST World unit :=
  key ← on_engine (st_lift (keys.AccountKey (AccountID (Engine c))));
  '(e, _) ← ask (λ h, rpc.One (client h) key);
  let balance := match rpc.Data e with rpc.DataAccount _ b _ _ => b | _ => 0 end in
  if balance <? BalanceFloor c then raise Warning "balance_low" else clear "balance_low".

(** ** The exit queue *)

(** [readExits] stops at the first entry that is gone. *)
Fixpoint exits_from (entries : gmap string rpc.Entry) (l : list LedgerKey) : res (list vault.Exit) :=
  match l with
  | [] => Ok []
  | key :: l =>
      match rpc.entry_of entries key with
      | None => Ok []
      | Some e => v ← rpc.ContractValue e; x ← vault.DecodeExit v; rest ← exits_from entries l; mret (x :: rest)
      end
  end.
Definition readExits (ids : list Z) : ST World (list vault.Exit) :=
  keys ← on_engine (st_lift (mapM (keys.ExitKey (Vault c)) ids));
  '(entries, _) ← ask (λ h, rpc.Entries (client h) keys);
  on_engine (st_lift (exits_from entries keys)).

(** [Keeper.funds] *)
Definition funds (token : string) : ST World Z :=
  key ← on_engine (st_lift (keys.BalanceKey token (Vault c)));
  r ← st_try (ask (λ h, rpc.One (client h) key));
  match r with
  | Fail e => if errors_is "rpc: ledger entry missing" e then mret 0 else st_fail e
  | Ok (e, _) =>
      v ← on_engine (st_lift (rpc.ContractValue e));
      '(amount, authorized) ← on_engine (st_lift (token.DecodeBalance v));
      mret (if authorized : bool then amount else 0)
  end.

(** [outflowWindow] *)
Record outflowWindow : Type := mkWindow { w_token : string; w_head : Z; w_tail : Z; w_day : Z; w_room : Z; w_funds : Z; w_open : bool }.

Definition secondsPerDay : Z := 86400.

(** [Keeper.window] *)
Definition window : ST World outflowWindow :=
  '(cfg, l, s) ← readVault;
  '(now, _) ← chainTime;
  f ← funds (vault.Token cfg);
  let d := now / secondsPerDay in
  mret (mkWindow (vault.Token cfg) (vault.ExitHead s) (vault.ExitTail s) d (vault.MaxDailyOutflow l - vault.OutflowOn s d) f
    (negb (vault.Halted s now))).

(** The count of the exits that fit the window and the funds whole. *)
Fixpoint fitting (room funds : Z) (exits : list vault.Exit) : nat :=
  match exits with
  | [] => O
  | e :: exits =>
      let outflow := vault.Payout e + vault.Fee e in
      if (room <? outflow) || (funds <? outflow) then O else S (fitting (room - outflow) (funds - outflow) exits)
  end.

(** [handledAny] *)
Definition handledAny (v : option ScVal) : bool := match v with Some (ScvU32 n) => 0 <? n | _ => true end.

Definition is_contract_data (k : LedgerKey) : bool := match k with KeyContractData _ _ _ => true | _ => false end.

(** The entries a payment to one party writes, with how many are balances. *)
Definition party_keys (token party : string) (amount : Z) : res (list LedgerKey * Z) :=
  if amount <=? 0 then Ok ([], 0)
  else
    paid ← keys.PayKeys token (Asset c) party;
    mret (paid, Z.of_nat (length (List.filter is_contract_data paid))).

(** The entries of the exits after those a release handles. *)
Fixpoint next_keys (token : string) (id : Z) (exits : list vault.Exit) : res (list LedgerKey * Z) :=
  match exits with
  | [] => Ok ([], 0)
  | e :: exits =>
      exit ← keys.ExitKey (Vault c) id;
      stranded ← keys.StrandedKey (Vault c) id;
      '(paid, n) ← party_keys token (vault.Recipient e) (vault.Payout e);
      '(relayed, m) ← party_keys token (vault.Relayer e) (vault.Fee e);
      '(rest, k) ← next_keys token (u64 (id + 1)) exits;
      mret ([exit; stranded] ++ paid ++ relayed ++ rest, n + m + k)
  end.

(** [Keeper.releaseRoom] *)
Definition releaseRoom (token : string) (head : Z) (n : nat) (exits : list vault.Exit) : Extend := λ _ _,
  handled ← mapM (keys.StrandedKey (Vault c)) (seqZ head (u64 (head + Z.of_nat n) - head));
  '(next, balances) ← next_keys token (u64 (head + Z.of_nat n)) (take (Z.to_nat (ExitKeys c)) (drop n exits));
  let written := u32 (keys.ExitEntryBytes + balances * keys.BalanceEntryBytes) in
  mret (mkExtra (handled ++ next) keys.SwitchInstructions written written keys.EntryTTL keys.SwitchEventBytes).

(** Whether the head can be paid in part, when no exit fits whole. *)
Definition part_fits (w : outflowWindow) (e : vault.Exit) : bool :=
  negb (w_funds w <? Z.min (vault.Payout e + vault.Fee e) (w_room w)).

(** The state a release that handles no exit leaves. *)
Definition release_state (w : outflowWindow) : releaseIdle := mkIdle (w_day w) (w_room w) (w_head w).

(** The loop of [Release]. *)
Fixpoint release_loop (turns : nat) (batch : Z) : ST World unit :=
  match turns with
  | O => mret tt
  | S turns =>
      w ← window;
      k ← st_get;
      if negb (w_open w) || (w_tail w <=? w_head w) || (w_room w <=? 0) || bool_decide (idle k = Some (release_state w)) then mret tt
      else
        exits ← readExits (seqZ (w_head w) (Z.min (w_tail w - w_head w) (batch + ExitKeys c)));
        let n := fitting (w_room w) (w_funds w) (take (Z.to_nat batch) exits) in
        if match n, exits with O, e :: _ => negb (part_fits w e) | _, _ => false end then mret tt
        else
          let n := Nat.max n 1 in
          '(r, err) ← callWorth (invoke "release" [U32 (u32 (Z.of_nat n))]) (Some handledAny) (Some (releaseRoom (w_token w) (w_head w) n exits));
          match err with
          | Some e =>
              if not_worth e then st_modify (set_idle (release_state w))
              else if is_simulation e && (1 <? n)%nat then release_loop turns (Z.of_nat (n / 2))
              else st_fail e
          | None =>
              if negb (handledAny (r ≫= TReturn)) then st_modify (set_idle (release_state w))
              else release_loop turns batch
          end
  end.

(** [Keeper.Release] *)
Definition Release : ST World unit := release_loop 100 (Z.max (MaxReleases c) 1).

(** [untilRelease] *)
Definition untilRelease (now every : Z) : Z :=
  let d := 24 * 3600 * second in
  Z.min every ((now / d + 1) * d - now + 10 * second).

(** ** Stranded exits *)

Definition claimRetry : Z := 3600 * second.
Definition claimRestMax : Z := 24 * 3600 * second.
Definition creatingReserveMax : Z := keys.MinNewAccountPayout / 2.

(** [rest] *)
Definition rest (n : Z) : Z := if n <=? 0 then 0 else Z.min (Z.shiftl claimRetry (Z.min (n - 1) 5)) claimRestMax.

(** [strandedExit], of an exit among the stranded. *)
Record strandedExit : Type := mkStranded { s_id : Z; parties : list string; payout : Z; recipient : string; strandedAt : Z }.
Definition stranded_of (id : Z) (e : chaindata.Exit) : strandedExit :=
  mkStranded id
    ((if 0 <? chaindata.Payout e then [chaindata.Recipient e] else []) ++ (if 0 <? chaindata.Fee e then [chaindata.Relayer e] else []))
    (chaindata.Payout e) (chaindata.Recipient e) (chaindata.StrandedAt e).
Definition stranded_exits (s : chaindata.State) : list strandedExit :=
  omap (λ id, stranded_of id <$> chaindata.Stranded s !! id) (sorted (map_to_list (chaindata.Stranded s)).*1).

(** [Keeper.receiveKeys] *)
Definition is_account (account : string) : bool := bool_decide (first_char account = Some "G"%char).
Definition receiveKeys (token address : string) : res (list LedgerKey) :=
  account ← AccountOf address;
  if is_account account then keys.ReceiveKeys (Asset c) account else key ← keys.BalanceKey token account; mret [key].

(** [Keeper.creates] *)
Definition creates (s : strandedExit) (entries : gmap string rpc.Entry) : res bool :=
  if negb (String.eqb (Asset c) "native") || (payout s <? keys.MinNewAccountPayout) then Ok false
  else
    account ← AccountOf (recipient s);
    if negb (is_account account) then Ok false
    else key ← keys.AccountKey account; ks ← rpc.KeyString key; mret (negb (bool_decide (is_Some (entries !! ks)))).

(** [Keeper.claimRoom] *)
Definition claimRoom : Extend := λ _ f,
  match keys.QueuedExit (Vault c) (ReadWrite f) with
  | None => Ok (mkExtra [] 0 0 0 0 0)
  | Some tail => ks ← keys.ExitKeys (Vault c) tail (ExitKeys c); mret (mkExtra ks 0 0 0 0 0)
  end.

(** [Keeper.claim] *)
Definition claim (id : Z) : ST World unit :=
  '(r, err) ← attempt (invoke "claim" [U64 id]) None (Some claimRoom);
  if match err with Some e => is_simulation e | None => false end then mret tt
  else
    w ← st_get;
    let try := default (mkTry [] 0 0) (claims w !! id) in
    let try := match err with
               | None => mkTry (seen try) (tried try) 0
               | Some _ => if failed_on_chain r then mkTry (seen try) (tried try) (failures try + 1) else try
               end in
    _ ← st_modify (λ w, set_claims (<[id := try]> (claims w)) w);
    match err with
    | None => mret tt
    | Some e => if failed_on_chain r then raise Warning "claim_failed" else _ ← raise Critical "call_failed"; st_fail e
    end.

(** Whether an exit is due a claim, by its last one. *)
Definition due (last : option claimTry) (seen_ : list (option Z)) (at_ : Z) : bool :=
  match last with
  | None => true
  | Some t => (negb (bool_decide (seen t = seen_)) || (claimRetry <=? at_ - tried t)) && negb (at_ - tried t <? rest (failures t))
  end.

(** Whether an exit that stranded again rests still. *)
Definition resting (strands : gmap Z Z) (now : Z) (s : strandedExit) : bool :=
  let n := default 0 (strands !! s_id s) in
  (1 <? n) && (now <? u64 (u64 (strandedAt s) + rest (n - 1) / second)).

(** The entries that decide whether a claim's parties can receive, by name. *)
Definition party_names (token : string) (s : strandedExit) : res (list (string * LedgerKey)) :=
  ks ← mapM (λ p, ks ← receiveKeys token p; mapM (λ key, name ← rpc.KeyString key; mret (name, key)) ks) (parties s);
  mret (mjoin ks).
(** Each entry to read once. *)
Fixpoint once (known : gset string) (l : list (string * LedgerKey)) : list LedgerKey :=
  match l with
  | [] => []
  | (name, key) :: l => if bool_decide (name ∈ known) then once known l else key :: once ({[name]} ∪ known) l
  end.

(** The loop that claims: with the base reserve, read when an exit needs it first, and how many exits
    wait for it. *)
Fixpoint claim_loop (strands : gmap Z Z) (now at_ : Z) (entries : gmap string rpc.Entry) (l : list (strandedExit * list string))
    (reserve : option (res Z)) (waiting : Z) : ST World (option (res Z) * Z) :=
  match l with
  | [] => mret (reserve, waiting)
  | (s, names) :: l =>
      if resting strands now s then claim_loop strands now at_ entries l reserve waiting
      else
        creating ← on_engine (st_lift (creates s entries));
        reserve ← (if creating : bool then
                     match reserve with
                     | Some _ => mret reserve
                     | None => r ← st_try (ask BaseReserve); mret (Some r)
                     end
                   else mret reserve);
        if creating && match reserve with Some (Ok r) => creatingReserveMax <? r | _ => true end then
          claim_loop strands now at_ entries l reserve (waiting + 1)
        else
          let seen_ := map (λ name, rpc.LastModified <$> entries !! name) names in
          w ← st_get;
          let last := claims w !! s_id s in
          if due last seen_ at_ then
            _ ← st_modify (λ w, set_claims (<[s_id s := mkTry seen_ at_ (match last with Some t => failures t | None => 0 end)]> (claims w)) w);
            _ ← claim (s_id s);
            claim_loop strands now at_ entries l reserve waiting
          else claim_loop strands now at_ entries l reserve waiting
  end.

(** [Keeper.Claims] *)
Definition Claims : ST World unit :=
  '(cfg, l, s) ← readVault;
  '(now, _) ← chainTime;
  if vault.Halted s now then mret tt
  else
    st ← replayed;
    let stranded := stranded_exits st in
    _ ← st_modify (λ w, set_claims (filter (λ p : Z * claimTry, is_Some (chaindata.Stranded st !! p.1)) (claims w)) w);
    if bool_decide (stranded = []) then mret tt
    else
      strands ← ask (λ h, Strands E h (map s_id stranded));
      names ← on_engine (st_lift (mapM (party_names (vault.Token cfg)) stranded));
      '(entries, _) ← ask (λ h, rpc.Entries (client h) (once ∅ (mjoin names)));
      at_ ← clock;
      '(reserve, waiting) ← claim_loop strands now at_ entries (zip stranded (map (λ l, l.*1) names)) None 0;
      if 0 <? waiting then raise Warning "creating_claims_wait" else clear "creating_claims_wait".
End keeper.

(** * Lemmas *)

(** ** What is sent *)

Definition sent (P : Operation → Prop) (w w' : World) : Prop := sends P (eng w) (eng w').

#[export] Instance sent_pre P : PreOrder (sent P).
Proof.
  split; [intros w; apply (reflexivity (R := sends P))|].
  intros w1 w2 w3 H1 H2. exact (transitivity (R := sends P) H1 H2).
Qed.

Lemma sent_mono P P' w w' : (∀ op, P op → P' op) → sent P w w' → sent P' w w'.
Proof. apply sends_mono. Qed.

(** The operation of a call of the vault. *)
Definition calls_vault {sdk : StellarSDK} (c : Config) (fn : string) (args : list ScVal) (op : Operation) : Prop :=
  ∃ addr, ScAddressOf (Vault c) = Ok addr ∧ op = InvokeHostFunction (mkOp (Contract addr fn args) [] None).

(** An invocation of the vault is that call. *)
Lemma invoke_calls {sdk : StellarSDK} c fn args op : invoke c fn args = Ok op → calls_vault c fn args (bare op).
Proof. intros H. unfold invoke in H. apply bind_Ok in H as (addr & Ha & H). injection H as <-. by exists addr. Qed.

Section sent.
Context {sdk : StellarSDK} {tx : TxSDK} (E : Env) (c : Config) (P : Operation → Prop).

Lemma sent_on_engine {A} (m : ST engine.World A) : moves (sends P) m → moves (sent P) (on_engine m).
Proof. intros H w. specialize (H (eng w)). unfold on_engine. by destruct (m (eng w)). Qed.
Lemma sent_ask {A} (f : list Event → res A) : moves (sent P) (ask f).
Proof. apply sent_on_engine, moves_question. Qed.
Lemma sent_clock : moves (sent P) (clock E).
Proof. apply sent_on_engine, moves_clock. Qed.
Lemma sent_lift {A} (r : res A) : moves (sent P) (on_engine (st_lift r)).
Proof. apply sent_on_engine, moves_lift. Qed.
Lemma sent_replayed : moves (sent P) (replayed E).
Proof. intros w. reflexivity. Qed.
Lemma sent_modify f : (∀ w, eng (f w) = eng w) → moves (sent P) (st_modify f).
Proof. intros H w. unfold sent. simpl. rewrite H. reflexivity. Qed.
Lemma sent_raise severity code : moves (sent P) (raise severity code).
Proof. by apply sent_modify. Qed.
Lemma sent_clear code : moves (sent P) (clear code).
Proof. by apply sent_modify. Qed.
Hint Resolve sent_ask sent_clock sent_lift sent_replayed sent_raise sent_clear : calm.

Lemma sent_attempt build worth extend : (∀ op, build = Ok op → P (bare op)) → moves (sent P) (attempt E c build worth extend).
Proof.
  intros HP. unfold attempt. hush. apply moves_try, sent_on_engine, sends_DoExtended. intros _ op. apply HP.
Qed.
Hint Resolve sent_attempt : calm.

Lemma sent_callWorth build worth extend : (∀ op, build = Ok op → P (bare op)) → moves (sent P) (callWorth E c build worth extend).
Proof. intros HP. unfold callWorth. hush. Qed.

Lemma sent_chainTime : moves (sent P) (chainTime E).
Proof. unfold chainTime. hush. Qed.
Lemma sent_readVault : moves (sent P) (readVault E c).
Proof. unfold readVault. hush. Qed.
Lemma sent_readPending ids : moves (sent P) (readPending E c ids).
Proof. unfold readPending. hush. Qed.
Lemma sent_pendingGone id : moves (sent P) (pendingGone E c id).
Proof. unfold pendingGone. hush. Qed.
Lemma sent_read_unflags : moves (sent P) (read_unflags E).
Proof. unfold read_unflags. hush; by apply sent_modify. Qed.
Lemma sent_warn_late cfg l now ds : moves (sent P) (warn_late cfg l now ds).
Proof. induction ds as [|[id d] ds IH]; cbn [warn_late]; hush. Qed.
Lemma sent_readExits ids : moves (sent P) (readExits E c ids).
Proof. unfold readExits. hush. Qed.
Lemma sent_funds token : moves (sent P) (funds E c token).
Proof. unfold funds. hush. Qed.
Hint Resolve sent_chainTime sent_readVault sent_funds : calm.
Lemma sent_window : moves (sent P) (window E c).
Proof. unfold window. hush. Qed.

End sent.
#[export] Hint Resolve sent_ask sent_clock sent_lift sent_replayed sent_raise sent_clear sent_attempt sent_callWorth sent_chainTime
  sent_readVault sent_readPending sent_pendingGone sent_read_unflags sent_warn_late sent_readExits sent_funds sent_window : calm.

End keeper.
