(* ===== verification/KeeperCalls.v ===== *)
(** What the keeper's calls achieve, from the definitions of Keeper: it refunds only deposits that stayed
    flagged, admits only eligible ones, releases what the window and the funds pay, and claims only exits
    that do not rest. *)
From S2P Require Import Prelude.
From S2P Require Import Fr.
From S2P Require Import Xdr.
From S2P Require Import ScVal.
From S2P Require Import VaultState.
From S2P Require Import ChainData.
From S2P Require Import Keys.
From S2P Require Import Rpc.
From S2P Require Import RelayOutcome.
From S2P Require Import EngineFees.
From S2P Require Import Engine.
From S2P Require Import EngineCalls.
From S2P Require Import Keeper.

Module keepercalls.

Import scval fees engine keeper.

(** A world later in a run than another: all that was asked by then has been asked. *)
Definition since : relation World := sent (λ _, True).

#[export] Instance since_pre : PreOrder since.
Proof. apply sent_pre. Qed.

(** What a method read, by then. *)
Definition reads {A} (w : World) (m : ST World A) (a : A) : Prop := ∃ w1 w2, since w w1 ∧ m w1 = (w2, Ok a).

(** A step of a method, after which what it gave is known. *)
Lemma sent_step {A B} P w0 (m : ST World A) (f : A → ST World B) w : moves (sent P) m → since w0 w →
  (∀ a w', m w = (w', Ok a) → reads w0 m a → since w0 w' → sent P w' (f a w').1) → sent P w (mbind f m w).1.
Proof.
  intros Hm Hw Hf. apply moves_bind_at; [apply Hm|]. intros a w' Ha. apply Hf; [done|by exists w, w'|].
  transitivity w; [done|]. specialize (Hm w). rewrite Ha in Hm. by eapply sent_mono.
Qed.

(** A step whose result matters, and one whose does not. *)
Ltac step := eapply sent_step; [hush|eassumption|].

Section keeper.
Context {sdk : StellarSDK} {tx : TxSDK} (E : Env) (c : Config).

(** ** Refunds *)

(** A refund of a deposit that was read flagged, for a reason that is not held, whose delay is over at the
    close time read, and for which no unflag waits. *)
Definition due_refund (w : World) (op : Operation) : Prop := ∃ ids id d f now latest pending unflags,
  calls_vault c "refund" [U64 id] op ∧
  reads w (readPending E c ids) pending ∧ (id, d) ∈ pending ∧ reads w (chainTime E) (now, latest) ∧ reads w (read_unflags E) unflags ∧
  vault.Flag d = Some f ∧ f ∉ HoldReasons c ∧ u64 (vault.FlaggedAt d + u64 (Z.quot (RefundDelay c) second)) <= now ∧
  (∀ until, unflags !! id = Some until → until <= now).

Lemma refundable_iff now unflags id d : refundable c now unflags id d = true → ∃ f, vault.Flag d = Some f ∧ f ∉ HoldReasons c ∧
  u64 (vault.FlaggedAt d + u64 (Z.quot (RefundDelay c) second)) <= now ∧ (∀ until, unflags !! id = Some until → until <= now).
Proof.
  unfold refundable. destruct (vault.Flag d) as [f|]; [|done]. intros [[H1 H2]%andb_true_iff H3]%andb_true_iff.
  exists f. split; [done|]. split; [by apply negb_true_iff, bool_decide_eq_false in H1|]. split; [lia|].
  intros u Hu. rewrite Hu in H3. lia.
Qed.

Lemma refund_one_sends P now unflags id d :
  (refundable c now unflags id d = true → ∀ op, calls_vault c "refund" [U64 id] op → P op) →
  moves (sent P) (refund_one E c now unflags id d).
Proof.
  intros HP. unfold refund_one. destruct (refundable _ _ _ _ _); [|apply moves_ret].
  apply moves_bind; [|intros [r [e|]]; hush]. apply sent_attempt. intros op Hop%invoke_calls. by apply HP.
Qed.

Lemma refund_all_sends P now unflags ds :
  (∀ id d, (id, d) ∈ ds → refundable c now unflags id d = true → ∀ op, calls_vault c "refund" [U64 id] op → P op) →
  moves (sent P) (refund_all E c now unflags ds).
Proof.
  induction ds as [|[id d] ds IH]; intros HP; cbn [refund_all]; [apply moves_ret|].
  apply moves_bind; [apply refund_one_sends, HP; by left|]. intros _. apply IH. intros id' d' Hin. apply HP. by right.
Qed.

(** C18: Whatever the chain, the screening service and the network answer, all that a run of [Refund] sends is
    the refund of a deposit it read as flagged, for a reason the operator does not hold, whose delay had passed
    at the close time it read, and for which no unflag was still waiting. *)
Theorem refunds_only_due w : sent (due_refund w) w (Refund E c w).1.
Proof.
  assert (H0 : since w w) by reflexivity. unfold Refund.
  step. intros [now latest] w1 _ Hnow H1. step. intros st w2 _ _ H2. step. intros pending w3 _ Hpending H3.
  step. intros unflags w4 _ Hunflags H4.
  apply refund_all_sends. intros id d Hin (f & Hf)%refundable_iff op Hop.
  exists (pendingIDs st), id, d, f, now, latest, pending, unflags. naive_solver.
Qed.

(** ** Admissions *)

(** An admission of at most a batch of deposits, in ascending order, each attested and read unflagged and past
    its delay, while the vault was not halted. *)
Definition due_admission (w : World) (op : Operation) : Prop := ∃ ids ds cfg l s now latest read pending,
  calls_vault c "admit" [Vec (map U64 ids)] op ∧ ids ≠ [] ∧ Z.of_nat (length ids) <= Z.max (MaxAdmissions c) 1 ∧
  StronglySorted Z.lt ids ∧
  reads w (readVault E c) (cfg, l, s) ∧ reads w (chainTime E) (now, latest) ∧ vault.Halted s now = false ∧
  reads w (readPending E c read) pending ∧ ids = ds.*1 ∧
  Forall (λ p, p ∈ pending ∧ p.1 <= vault.AttestedUpTo s ∧ vault.Flag p.2 = None ∧ vault.EligibleAt p.2 cfg l <= now) ds.

Lemma admit_batches_sends P turns batch ids :
  (∀ pre l post, ids = pre ++ l ++ post → l ≠ [] → (length l <= batch)%nat → ∀ op, calls_vault c "admit" [Vec (map U64 l)] op → P op) →
  (1 <= batch)%nat → moves (sent P) (admit_batches E c turns batch ids).
Proof.
  revert batch ids. induction turns as [|turns IH]; intros batch ids HP Hb; [by destruct ids; apply moves_ret|].
  destruct ids as [|id ids]; [apply moves_ret|]. cbn [admit_batches]. set (ids' := id :: ids) in *.
  set (n := Nat.min batch (length ids')). assert (Hn : (1 <= n <= batch)%nat) by (unfold n; subst ids'; simpl; lia).
  assert (Hdrop : moves (sent P) (admit_batches E c turns batch (drop n ids'))).
  { apply IH; [|done]. intros pre l post Hl. apply (HP (take n ids' ++ pre) l post). by rewrite <- app_assoc, <- Hl, take_drop. }
  apply moves_bind.
  - apply sent_callWorth. intros op Hop%invoke_calls. apply (HP [] (take n ids') (drop n ids')); [by rewrite take_drop| | |done].
    + subst ids'. destruct n; [lia|done].
    + rewrite length_take. lia.
  - intros [r [e|]]; [|done]. destruct (is_simulation e && (1 <? n)%nat) eqn:Eh; [|destruct (negb _); [apply moves_fail|done]].
    apply andb_true_iff in Eh as [_ Hn1%Nat.ltb_lt]. apply IH.
    + intros pre l post Hl Hne Hlen. apply (HP pre l post Hl Hne). pose proof (Nat.div_le_upper_bound n 2 n). lia.
    + pose proof (Nat.div_le_lower_bound n 2 1). lia.
Qed.

(** What is found is read in the order asked for. *)
Lemma found_sublist {A} (decode : ScVal → res A) entries l out : found decode entries l = Ok out → out.*1 `sublist_of` l.*1.
Proof.
  revert out. induction l as [|[id key] l IH]; intros out H; cbn [found] in H; [by injection H as <-|].
  destruct (rpc.entry_of entries key).
  - apply bind_Ok in H as (v & _ & H). apply bind_Ok in H as (d & _ & H). apply bind_Ok in H as (rest & Hr & H).
    injection H as <-. simpl. constructor. by apply IH.
  - simpl. constructor. by apply IH.
Qed.

Lemma readPending_sublist ids w w' pending : readPending E c ids w = (w', Ok pending) → pending.*1 `sublist_of` ids.
Proof.
  unfold readPending. intros H. apply st_bind_Ok in H as (ks & w1 & Hk & H). apply st_bind_Ok in H as ([entries latest] & w2 & _ & H).
  injection H as _ H%found_sublist. etransitivity; [exact H|]. injection Hk as _ Hk%mapM_res_length.
  rewrite fst_zip; [done|lia].
Qed.

Lemma sorted_strict l : NoDup l → StronglySorted Z.lt (sorted l).
Proof.
  intros Hd. unfold sorted. assert (Hp := merge_sort_Permutation Z.le l). rewrite <- Hp in Hd.
  assert (Hs : StronglySorted Z.le (merge_sort Z.le l)) by (apply StronglySorted_merge_sort; apply _).
  clear Hp. induction Hs as [|x k Hs IH Hx]; constructor.
  - apply IH. by inversion Hd.
  - apply Forall_forall. intros y Hy. rewrite Forall_forall in Hx. specialize (Hx _ Hy).
    apply NoDup_cons in Hd as [Hin _]. assert (x ≠ y) by congruence. lia.
Qed.

Lemma sublist_fmap {A B} (f : A → B) k l : k `sublist_of` l → f <$> k `sublist_of` f <$> l.
Proof. induction 1; simpl; by constructor. Qed.

Lemma sublist_sorted (k l : list Z) : k `sublist_of` l → StronglySorted Z.lt l → StronglySorted Z.lt k.
Proof.
  induction 1 as [|x k l H IH|x k l H IH]; intros Hs; [done| |].
  - apply StronglySorted_inv in Hs as [Hs Hx]. constructor; [by apply IH|]. rewrite Forall_forall in *.
    intros y Hy. apply Hx. by eapply elem_of_sublist.
  - apply StronglySorted_inv in Hs as [Hs _]. by apply IH.
Qed.

Lemma pendingIDs_sorted st : StronglySorted Z.lt (pendingIDs st).
Proof. apply sorted_strict, NoDup_fst_map_to_list. Qed.

(** Whatever the chain and the network answer, all that a run of [Admit] sends is the admission of at most
    [MaxAdmissions] deposits, in ascending order and each once, that the screening service had attested and that
    were read unflagged and past their delay, by a vault read as not halted. *)
Theorem admissions_are_due w : sent (due_admission w) w (Admit E c w).1.
Proof.
  assert (H0 : since w w) by reflexivity. unfold Admit.
  step. intros [[cfg l] s] w1 _ Hv H1. step. intros [now latest] w2 _ Hnow H2.
  destruct (vault.Halted s now) eqn:Eh; [apply moves_ret|].
  step. intros st w3 _ _ H3. step. intros pending w4 Hp Hpending H4. step. intros ? w5 _ _ H5.
  apply moves_bind; [|hush]. apply admit_batches_sends; [|lia].
  intros pre ids post Hids Hne Hlen op Hop.
  set (eligible_ := filter (λ p : Z * vault.PendingDeposit, eligible cfg l now p.2 = true) pending) in *.
  assert (Hds : ∃ ds, ids = ds.*1 ∧ ds `sublist_of` eligible_).
  { exists (take (length ids) (drop (length pre) eligible_)). split.
    - rewrite fmap_take, fmap_drop, Hids, drop_app_length. by rewrite take_app_length.
    - etransitivity; [apply sublist_take|apply sublist_drop]. }
  destruct Hds as (ds & -> & Hds).
  assert (Hall : Forall (λ p, p ∈ pending ∧ p.1 <= vault.AttestedUpTo s ∧ vault.Flag p.2 = None ∧ vault.EligibleAt p.2 cfg l <= now) ds).
  { apply Forall_forall. intros [id d] Hin. eapply elem_of_sublist in Hin; [|done].
    unfold eligible_ in Hin. apply list_elem_of_filter in Hin as [He Hin]. simpl in *. split; [done|].
    apply (list_elem_of_fmap_2 fst) in Hin. eapply elem_of_sublist in Hin; [|by eapply readPending_sublist].
    apply list_elem_of_filter in Hin as [Hid _]. unfold eligible in He. destruct (vault.Flag d); [done|]. split_and!; [exact Hid|done|lia]. }
  eexists _, ds, cfg, l, s, now, latest, _, pending. split_and!; try done; [lia|].
  eapply sublist_sorted; [|apply pendingIDs_sorted]. transitivity (eligible_.*1); [by apply sublist_fmap|].
  transitivity (pending.*1); [apply sublist_fmap, sublist_filter|].
  etransitivity; [by eapply readPending_sublist|apply sublist_filter].
Qed.

(** A turn takes a batch off the list or shortens the batches, so that the loop of [Admit] has turns enough:
    more make no difference. *)
Lemma admit_batches_ends turns turns' batch ids w : (length ids + batch <= turns)%nat → (length ids + batch <= turns')%nat →
  (1 <= batch)%nat → admit_batches E c turns batch ids w = admit_batches E c turns' batch ids w.
Proof.
  revert turns' batch ids w. induction turns as [|turns IH]; intros turns' batch ids w H H' Hb; [lia|].
  destruct turns' as [|turns']; [lia|]. destruct ids as [|id ids]; [done|].
  cbn [admit_batches]. set (ids' := id :: ids) in *.
  assert (Hn : (1 <= Nat.min batch (length ids') <= batch)%nat) by (subst ids'; simpl; lia).
  set (n := Nat.min batch (length ids')) in *. assert (Hlen : (length (drop n ids') + n = length ids')%nat) by (rewrite length_drop; lia).
  assert (Hdrop : ∀ w, admit_batches E c turns batch (drop n ids') w = admit_batches E c turns' batch (drop n ids') w)
    by (intros w'; apply IH; lia).
  unfold mbind, ST_bind. destruct (callWorth _ _ _ _ _ w) as [w1 [[r [e|]]|e]]; [|apply Hdrop|done].
  destruct (is_simulation e && (1 <? n)%nat) eqn:Eh; [|by destruct (negb _)].
  apply andb_true_iff in Eh as [_ Hn1%Nat.ltb_lt].
  pose proof (Nat.div_le_lower_bound n 2 1). pose proof (Nat.div_lt n 2). apply IH; lia.
Qed.

(** ** Releases *)

Definition outflow (e : vault.Exit) : Z := vault.Payout e + vault.Fee e.
Definition total (exits : list vault.Exit) : Z := foldr (λ e s, outflow e + s) 0 exits.

(** A release of as many exits as fit the day's window and the vault's funds whole, or of the head alone,
    when the funds pay the part of the first exit found that the window has room for, or none was found; of a queue that is not
    empty, by a vault that is open; and not in the state the keeper remembers at [w] of a release that handled
    none. *)
Definition due_release (w : World) (op : Operation) : Prop := ∃ win n count exits,
  calls_vault c "release" [U32 (u32 (Z.of_nat n))] op ∧
  reads w (window E c) win ∧ idle w ≠ Some (release_state win) ∧
  w_open win = true ∧ w_head win < w_tail win ∧ 0 < w_room win ∧
  1 <= count <= w_tail win - w_head win ∧ reads w (readExits E c (seqZ (w_head win) count)) exits ∧
  1 <= Z.of_nat n <= Z.max (MaxReleases c) 1 ∧
  ((n <= length exits)%nat ∧ total (take n exits) <= w_room win ∧ total (take n exits) <= w_funds win ∨
   n = 1%nat ∧ (exits = [] ∨ ∃ e, hd_error exits = Some e ∧ Z.min (outflow e) (w_room win) <= w_funds win)).

(** A call that handled no exit: its simulation shows none, or its return value does. *)
Definition handled_none (r : option Tracked) (err : option gerr) : Prop :=
  match err with Some e => not_worth e = true | None => handledAny (r ≫= TReturn) = false end.

(** What the keeper remembers after a run of [Release]: what it did before; or, when its last call handled no
    exit, the state of the window it had read. *)
Definition remembers (w w' : World) : Prop :=
  idle w' = idle w ∨ ∃ win n exits w1 w2 r err, reads w (window E c) win ∧ since w w1 ∧
    callWorth E c (invoke c "release" [U32 (u32 (Z.of_nat n))]) (Some handledAny)
      (Some (releaseRoom c (w_token win) (w_head win) n exits)) w1 = (w2, Ok (r, err)) ∧
    handled_none r err ∧ w' = set_idle (release_state win) w2.

(** What leaves the keeper's memory of releases alone. *)
Definition same_idle : relation World := λ w w', idle w' = idle w.
#[export] Instance same_idle_pre : PreOrder same_idle.
Proof. split; [done|]. intros w1 w2 w3 H1 H2. unfold same_idle in *. congruence. Qed.

Lemma same_idle_on_engine {A} (m : ST engine.World A) : moves same_idle (on_engine m).
Proof. intros w. unfold on_engine. by destruct (m (eng w)). Qed.
Lemma same_idle_raise severity code : moves same_idle (raise severity code).
Proof. by intros w. Qed.
Hint Resolve same_idle_on_engine same_idle_raise : calm.

Lemma same_idle_window : moves same_idle (window E c).
Proof. unfold window, readVault, chainTime, funds, ask. hush. Qed.
Lemma same_idle_readExits ids : moves same_idle (readExits E c ids).
Proof. unfold readExits, ask. hush. Qed.
Lemma same_idle_callWorth build worth extend : moves same_idle (callWorth E c build worth extend).
Proof. unfold callWorth, attempt. hush; apply moves_try; hush. Qed.

Lemma same_idle_run {A} (m : ST World A) w w' r : moves same_idle m → m w = (w', r) → idle w' = idle w.
Proof. intros H E'. specialize (H w). by rewrite E' in H. Qed.

Lemma fitting_fits room funds exits n : fitting room funds exits = S n →
  (S n <= length exits)%nat ∧ total (take (S n) exits) <= room ∧ total (take (S n) exits) <= funds.
Proof.
  revert room funds n. induction exits as [|e exits IH]; intros room funds n; [done|]. cbn [fitting].
  destruct (_ || _) eqn:Ef; [done|]. apply orb_false_iff in Ef as [H1 H2]. intros [= Hn].
  cbn [take total foldr length]. fold total. unfold outflow at 1 3. destruct n as [|n].
  - simpl. lia.
  - apply IH in Hn. fold (total (take (S n) exits)). lia.
Qed.

Lemma fitting_length room funds exits : (fitting room funds exits <= length exits)%nat.
Proof. revert room funds. induction exits as [|e exits IH]; intros room funds; cbn [fitting length]; [lia|]. destruct (_ || _); [lia|]. specialize (IH (room - (vault.Payout e + vault.Fee e)) (funds - (vault.Payout e + vault.Fee e))). lia. Qed.

Lemma fitting_take room funds batch exits :
  (fitting room funds (take batch exits) <= length exits)%nat ∧ (fitting room funds (take batch exits) <= batch)%nat.
Proof. pose proof (fitting_length room funds (take batch exits)) as H. rewrite length_take in H. lia. Qed.

(** What the loop makes of the exits read. *)
Lemma release_count win batch exits n : n = fitting (w_room win) (w_funds win) (take (Z.to_nat batch) exits) → 1 <= batch →
  match n, exits with O, e :: _ => negb (part_fits win e) | _, _ => false end = false →
  let m := Nat.max n 1 in 1 <= Z.of_nat m <= batch ∧
  ((m <= length exits)%nat ∧ total (take m exits) <= w_room win ∧ total (take m exits) <= w_funds win ∨
   m = 1%nat ∧ (exits = [] ∨ ∃ e, hd_error exits = Some e ∧ Z.min (outflow e) (w_room win) <= w_funds win)).
Proof.
  intros Hn Hb Hp m. pose proof (fitting_take (w_room win) (w_funds win) (Z.to_nat batch) exits) as Hlen. rewrite <- Hn in Hlen.
  split; [lia|]. destruct n as [|k].
  - right. split; [done|]. destruct exits as [|e exits]; [by left|right]. exists e. split; [done|].
    apply negb_false_iff in Hp. unfold part_fits in Hp. unfold outflow. lia.
  - left. symmetry in Hn. apply fitting_fits in Hn. rewrite length_take in Hn. subst m. replace (Nat.max (S k) 1) with (S k) by lia.
    rewrite take_take in Hn. replace (Nat.min (S k) (Z.to_nat batch)) with (S k) in Hn by lia. split; [lia|]. exact (proj2 Hn).
Qed.

Section release.
Context (w0 : World) (HK : 0 <= ExitKeys c).

Lemma release_loop_sends turns batch w : since w0 w → idle w = idle w0 → 1 <= batch <= Z.max (MaxReleases c) 1 →
  sent (due_release w0) w (release_loop E c turns batch w).1.
Proof.
  revert batch w. induction turns as [|turns IH]; intros batch w H0 Hi Hb; cbn [release_loop]; [apply moves_ret|].
  step. intros win w1 Hrun1 Hwin H1. step. intros k w2 [= -> ->] _ H2.
  apply (same_idle_run _ _ _ _ same_idle_window) in Hrun1.
  destruct (_ || _) eqn:Ec; [apply moves_ret|].
  apply orb_false_iff in Ec as [[[Hopen Htail]%orb_false_iff Hroom]%orb_false_iff Hidle%bool_decide_eq_false].
  step. intros exits w3 Hrun3 Hexits H3. apply (same_idle_run _ _ _ _ (same_idle_readExits _)) in Hrun3.
  set (n := fitting (w_room win) (w_funds win) (take (Z.to_nat batch) exits)) in *.
  destruct (match n with O => match exits with e :: _ => negb (part_fits win e) | _ => false end | _ => false end) eqn:Ep; [apply moves_ret|].
  destruct (release_count win batch exits n eq_refl ltac:(lia) Ep) as [Hm Hfit].
  assert (Hdue : ∀ op, calls_vault c "release" [U32 (u32 (Z.of_nat (Nat.max n 1)))] op → due_release w0 op).
  { intros op Hop. exists win, (Nat.max n 1), (Z.min (w_tail win - w_head win) (batch + ExitKeys c)), exits.
    apply negb_false_iff in Hopen. split_and!; try done; try lia. congruence. }
  eapply sent_step; [apply sent_callWorth; intros op Hop%invoke_calls; by apply Hdue|eassumption|]. intros [r [e|]] w4 Hrun4 _ H4.
  all: apply (same_idle_run _ _ _ _ (same_idle_callWorth _ _ _)) in Hrun4.
  - destruct (not_worth e); [by apply sent_modify|]. destruct (is_simulation e && _) eqn:Eh; [|apply moves_fail].
    apply andb_true_iff in Eh as [_ Hn%Nat.ltb_lt]. apply IH; [done|congruence|].
    pose proof (Nat.div_le_lower_bound (Nat.max n 1) 2 1). pose proof (Nat.div_lt (Nat.max n 1) 2). lia.
  - destruct (handledAny _); [apply IH; [done|congruence|done]|by apply sent_modify].
Qed.

Lemma release_loop_remembers turns batch w : since w0 w → idle w = idle w0 → remembers w0 (release_loop E c turns batch w).1.
Proof.
  revert batch w. induction turns as [|turns IH]; intros batch w H0 Hi; cbn [release_loop]; [by left|].
  assert (Hstep : ∀ {A B} (m : ST World A) (f : A → ST World B) w, since w0 w → idle w = idle w0 → moves since m → moves same_idle m →
    (∀ a w', m w = (w', Ok a) → since w0 w' → idle w' = idle w0 → remembers w0 (f a w').1) → remembers w0 (mbind f m w).1).
  { clear. intros A B m f w H0 Hi Hs Hk Hf. unfold mbind, ST_bind. specialize (Hs w). specialize (Hk w). unfold same_idle in Hk.
    destruct (m w) as [w' [a|e]]; cbn [fst] in *; [|left; congruence]. apply Hf; [done|by transitivity w|congruence]. }
  apply Hstep; [done|done|hush|apply same_idle_window|]. intros win w1 Hwin H1 Hi1.
  apply Hstep; [done|done|hush|by intros w'|]. intros k w2 [= -> ->] H2 Hi2.
  destruct (_ || _); [by left|]. apply Hstep; [done|done|hush|apply same_idle_readExits|]. intros exits w3 _ H3 Hi3.
  destruct (match fitting _ _ _ with O => _ | _ => _ end); [by left|]. set (n := Nat.max _ 1).
  apply Hstep; [done|done|apply sent_callWorth; done|apply same_idle_callWorth|]. intros [r err] w4 Hcall H4 Hi4.
  assert (Hnone : handled_none r err → remembers w0 (set_idle (release_state win) w4)).
  { intros Hh. right. exists win, n, exits, w3, w4, r, err. split; [by exists w, k|]. done. }
  destruct err as [e|].
  - destruct (not_worth e) eqn:En; [by apply Hnone|]. destruct (_ && _); [by apply IH|by left].
  - destruct (handledAny _) eqn:Eh; [by apply IH|by apply Hnone].
Qed.
End release.

(** C19: Whatever the chain and the network answer, all that a run of [Release] sends is a release of at most
    [MaxReleases] exits from a queue that is not empty, by a vault read as open, whose exits as read from the
    head fit what is left of the day's window and the vault's funds together; or of the head alone when the funds
    pay the part of the first exit found that the window has room for, or when none of the entries asked for,
    the head's first, was found. None is sent while the window read is in
    the state the keeper remembered, before the run, of a release that handled none; and a run changes what is
    remembered only to the state of a window it read, when its last call handled none. *)
Theorem releases_fit w (HK : 0 <= ExitKeys c) :
  sent (due_release w) w (Release E c w).1 ∧ remembers w (Release E c w).1.
Proof.
  split; [apply release_loop_sends; [done|reflexivity|done|lia]|by apply release_loop_remembers; [reflexivity|]].
Qed.

(** The job sleeps its interval, or until ten seconds past the next midnight. *)
Lemma untilRelease_range now every : 0 < every → 0 <= now →
  let midnight := (now / (24 * 3600 * second) + 1) * (24 * 3600 * second) in
  0 < untilRelease now every <= every ∧ now + untilRelease now every <= midnight + 10 * second ∧
  (untilRelease now every = every ∨ midnight < now + untilRelease now every).
Proof.
  intros He Hn. unfold untilRelease. cbv zeta. set (d := 24 * 3600 * second).
  assert (Hd : 0 < d) by reflexivity. pose proof (Z.mul_succ_div_gt now d Hd). unfold second in *. lia.
Qed.

(** ** Claims *)

(** What the comment on [rest] says: an hour, doubling with each further setback up to a day. *)
Lemma rest_doubles n : 1 <= n → rest n = Z.min (3600 * second * 2 ^ (n - 1)) (24 * 3600 * second).
Proof.
  intros Hn. unfold rest. destruct (Z.leb_spec n 0); [lia|]. rewrite Z.shiftl_mul_pow2 by lia. unfold claimRetry, claimRestMax.
  destruct (Z.le_ge_cases (n - 1) 5) as [H5|H5]; [by rewrite (Z.min_l (n - 1) 5)|].
  rewrite (Z.min_r (n - 1) 5) by lia. assert (2 ^ 5 <= 2 ^ (n - 1)) by (apply Z.pow_le_mono_r; lia). change (2 ^ 5) with 32 in *. unfold second. lia.
Qed.

(** A claim of an exit the follower knew as stranded, by a vault read as not halted, that does not rest: when it
    stranded more than once, the time since covers its rest; since its last claim, as the keeper remembers it at
    the start of the run, the rest of its failures has passed, and an hour unless the entries of its parties
    were modified since; and one that would create an account goes when the base reserve is read to be low
    enough. *)
Definition entries_seen (entries : gmap string rpc.Entry) (names : list string) : list (option Z) :=
  map (λ name, rpc.LastModified <$> entries !! name) names.
Definition rested (at_ : Z) (seen_ : list (option Z)) (t : claimTry) : Prop :=
  rest (failures t) <= at_ - tried t ∧ (claimRetry <= at_ - tried t ∨ seen t ≠ seen_).
Definition due_claim (w : World) (op : Operation) : Prop := ∃ cfg l s st x names strands now latest all entries latest' at_,
  calls_vault c "claim" [U64 (s_id x)] op ∧
  reads w (readVault E c) (cfg, l, s) ∧ reads w (chainTime E) (now, latest) ∧ vault.Halted s now = false ∧
  reads w (replayed E) st ∧ reads w (ask (λ h, Strands E h (map s_id (stranded_exits st)))) strands ∧
  mapM (party_names c (vault.Token cfg)) (stranded_exits st) = Ok all ∧ (x, names) ∈ zip (stranded_exits st) (map (λ l, l.*1) all) ∧
  reads w (ask (λ h, rpc.Entries (client E h) (once ∅ (mjoin all)))) (entries, latest') ∧ reads w (clock E) at_ ∧
  (∀ n, strands !! s_id x = Some n → 1 < n → u64 (u64 (strandedAt x) + rest (n - 1) / second) <= now) ∧
  (∀ t, claims w !! s_id x = Some t → rested at_ (entries_seen entries names) t) ∧
  (creates c x entries = Ok true → ∃ r, reads w (ask (BaseReserve E)) r ∧ r <= creatingReserveMax).

(** What leaves the keeper's memory of some claims alone. *)
Definition keeps_claims (P : Z → Prop) : relation World := λ w w', ∀ j, P j → claims w' !! j = claims w !! j.
#[export] Instance keeps_claims_pre P : PreOrder (keeps_claims P).
Proof. split; [done|]. intros w1 w2 w3 H1 H2 j Hj. by rewrite H2, H1. Qed.

Lemma keeps_on_engine {A} P (m : ST engine.World A) : moves (keeps_claims P) (on_engine m).
Proof. intros w. unfold on_engine. by destruct (m (eng w)). Qed.
Lemma keeps_raise P severity code : moves (keeps_claims P) (raise severity code).
Proof. by intros w. Qed.
Lemma keeps_insert (P : Z → Prop) id t : ¬ P id → moves (keeps_claims P) (st_modify (λ w, set_claims (<[id := t]> (claims w)) w)).
Proof. intros Hid w j Hj. simpl. apply lookup_insert_ne. by intros ->. Qed.
Hint Resolve keeps_on_engine keeps_raise keeps_insert : calm.

Lemma keeps_readVault P : moves (keeps_claims P) (readVault E c).
Proof. unfold readVault, ask. hush. Qed.
Lemma keeps_chainTime P : moves (keeps_claims P) (chainTime E).
Proof. unfold chainTime, ask. hush. Qed.
Lemma keeps_claim (P : Z → Prop) id : ¬ P id → moves (keeps_claims P) (claim E c id).
Proof. intros Hid. unfold claim, attempt. hush; apply moves_try; hush. Qed.

Lemma keeps_claims_run {A} P (m : ST World A) w w' r j : moves (keeps_claims P) m → m w = (w', r) → P j → claims w' !! j = claims w !! j.
Proof. intros H E' Hj. specialize (H w). rewrite E' in H. by apply H. Qed.

Lemma claim_sends P id : (∀ op, calls_vault c "claim" [U64 id] op → P op) → moves (sent P) (claim E c id).
Proof.
  intros HP. unfold claim. apply moves_bind; [apply sent_attempt; intros op Hop%invoke_calls; by apply HP|].
  intros [r [e|]]; [destruct (is_simulation e)|]; hush; by apply sent_modify.
Qed.

Lemma due_spec last seen_ at_ : due last seen_ at_ = true → ∀ t, last = Some t → rested at_ seen_ t.
Proof.
  unfold due, rested. intros H t ->. apply andb_true_iff in H as [H1 H2]. split; [lia|].
  apply orb_true_iff in H1 as [H1|H1]; [right; by apply negb_true_iff, bool_decide_eq_false in H1|left; lia].
Qed.

Lemma resting_spec strands now s : resting strands now s = false → ∀ n, strands !! s_id s = Some n → 1 < n →
  u64 (u64 (strandedAt s) + rest (n - 1) / second) <= now.
Proof. unfold resting. intros H n Hn H1. rewrite Hn in H. simpl in H. lia. Qed.

Section claims.
Context (w0 : World) (strands : gmap Z Z) (now at_ : Z) (entries : gmap string rpc.Entry).

(** What the loop needs to know of an exit it claims. *)
Definition claimable (x : strandedExit) (names : list string) (op : Operation) : Prop := calls_vault c "claim" [U64 (s_id x)] op ∧
  (∀ n, strands !! s_id x = Some n → 1 < n → u64 (u64 (strandedAt x) + rest (n - 1) / second) <= now) ∧
  (∀ t, claims w0 !! s_id x = Some t → rested at_ (entries_seen entries names) t) ∧
  (creates c x entries = Ok true → ∃ r, reads w0 (ask (BaseReserve E)) r ∧ r <= creatingReserveMax).

(** The exits the run has not come to, which the keeper remembers as at its start. *)
Definition to_come (l : list (strandedExit * list string)) (w : World) : Prop :=
  NoDup (map (λ p, s_id p.1) l) ∧ ∀ p, p ∈ l → claims w !! s_id p.1 = claims w0 !! s_id p.1.

Lemma to_come_next p l w w' : to_come (p :: l) w → keeps_claims (λ j, j ≠ s_id p.1) w w' → to_come l w'.
Proof.
  intros [[Hp Hd]%NoDup_cons Hk] Hw. split; [done|]. intros q Hq. rewrite Hw; [apply Hk; by right|].
  intros Heq. apply Hp, list_elem_of_fmap. by exists q.
Qed.

Lemma claim_loop_sends P l reserve waiting w : since w0 w → to_come l w →
  (∀ x names op, (x, names) ∈ l → claimable x names op → P op) →
  (∀ r, reserve = Some (Ok r) → reads w0 (ask (BaseReserve E)) r) →
  sent P w (claim_loop E c strands now at_ entries l reserve waiting w).1.
Proof.
  revert reserve waiting w. induction l as [|[x names] l IH]; intros reserve waiting w H0 Hcome HP Hres; cbn [claim_loop]; [apply moves_ret|].
  assert (IH' : ∀ reserve waiting w', since w0 w' → keeps_claims (λ j, j ≠ s_id x) w w' → (∀ r, reserve = Some (Ok r) → reads w0 (ask (BaseReserve E)) r) →
    sent P w' (claim_loop E c strands now at_ entries l reserve waiting w').1).
  { intros reserve' waiting' w' H' Hw Hres'. apply IH; [done|by eapply to_come_next| |done]. intros x' names' op Hin. apply (HP x' names' op). by right. }
  clear IH. destruct (resting strands now x) eqn:Erest; [by apply IH'|]. pose proof (resting_spec _ _ _ Erest) as Hrest.
  step. intros creating w1 Hc _ H1. injection Hc as Hw1 Hc.
  eapply (sent_step P w0); [destruct creating, reserve; hush|done|]. intros reserve' w2 Hr _ H2.
  assert (Hk2 : keeps_claims (λ _, True) w w2).
  { intros j Hj. transitivity (claims w1 !! j); [|by subst w1]. eapply keeps_claims_run; [|exact Hr|exact Hj]. unfold ask.
    destruct creating, reserve; hush; apply moves_try; hush. }
  assert (Hres' : ∀ r, reserve' = Some (Ok r) → reads w0 (ask (BaseReserve E)) r).
  { destruct creating, reserve as [r0|]; try by injection Hr as _ <-.
    apply st_bind_Ok in Hr as (a & w3 & Ha%st_try_Ok & Hr). injection Hr as -> <-. intros r [= ->]. by exists w1, w2. }
  destruct (creating && _) eqn:Ecreating; [by apply IH'; [|intros j _; apply Hk2|]|].
  step. intros k w3 [= <- <-] _ H3. destruct (due _ _ _) eqn:Edue; [|by apply IH'; [|intros j _; apply Hk2|]].
  pose proof (due_spec _ _ _ Edue) as Hdue.
  pose proof (proj2 Hcome (x, names) ltac:(by left)) as Hx. cbn [fst] in Hx. rewrite Hk2, Hx in Hdue by done.
  eapply (sent_step P w0); [by apply sent_modify|done|]. intros ? w4 Hw4 _ H4.
  eapply (sent_step P w0); [|done|intros ? w5 Hw5 _ H5; apply IH'; [done| |done]].
  - apply claim_sends. intros op Hop. apply (HP x names op); [by left|]. split; [done|]. split; [done|]. split; [exact Hdue|].
    intros Hcr. rewrite Hc in Hcr. injection Hcr as ->. simpl in Ecreating.
    destruct reserve' as [[r|]|]; try done. exists r. split; [by apply Hres'|]. lia.
  - intros j Hj. rewrite (keeps_claims_run _ _ _ _ _ j (keeps_claim (λ j, j ≠ s_id x) _ ltac:(tauto)) Hw5 Hj).
    injection Hw4 as <- _. simpl. rewrite lookup_insert_ne by done. by apply Hk2.
Qed.
End claims.

Lemma stranded_exits_ids st : NoDup (map s_id (stranded_exits st)).
Proof.
  unfold stranded_exits. assert (Hd : NoDup (sorted (map_to_list (chaindata.Stranded st)).*1)).
  { unfold sorted. rewrite merge_sort_Permutation. apply NoDup_fst_map_to_list. }
  induction Hd as [|id l Hid _ IH]; [constructor|]. cbn [omap list_omap]. destruct (chaindata.Stranded st !! id) as [e|]; [|done].
  cbn [fmap option_fmap option_map map]. constructor; [|done]. intros (x & Hx & (j & Hj & Ej)%list_elem_of_omap)%list_elem_of_fmap.
  destruct (chaindata.Stranded st !! j); [|done]. injection Ej as <-. simpl in Hx. by subst j.
Qed.

Lemma stranded_exits_known st x : x ∈ stranded_exits st → is_Some (chaindata.Stranded st !! s_id x).
Proof.
  intros (id & _ & Hx)%list_elem_of_omap. destruct (chaindata.Stranded st !! id) as [e|] eqn:Ee; [|done].
  injection Hx as <-. simpl. by rewrite Ee.
Qed.

Lemma zip_ids {A} (l : list strandedExit) (k : list A) : NoDup (map s_id l) → NoDup (map (λ p, s_id p.1) (zip l k)).
Proof.
  revert k. induction l as [|x l IH]; intros [|y k] Hd; cbn [zip zip_with map]; try constructor.
  - apply NoDup_cons in Hd as [Hx _]. intros ([x' y'] & Heq & Hp%elem_of_zip_l)%list_elem_of_fmap. cbn [fst] in Heq. rewrite Heq in Hx.
    apply Hx, list_elem_of_fmap. by exists x'.
  - apply IH. by apply NoDup_cons in Hd as [_ Hd].
Qed.

(** Whatever the chain and the network answer, all that a run of [Claims] sends is the claim of an exit its
    follower knew as stranded, by a vault read as not halted, and never of one that rests: one that stranded
    again waits an hour, doubled with each further time up to a day; one whose claims failed on chain waits
    likewise since its last claim; without a change of its parties' entries an hour passes between two claims;
    and a claim that would create an account waits until the base reserve is read to allow it. *)
Theorem claims_never_rest w : sent (due_claim w) w (Claims E c w).1.
Proof.
  assert (H0 : since w w) by reflexivity. unfold Claims.
  step. intros [[cfg l] s] w1 Hr1 Hv H1. step. intros [now latest] w2 Hr2 Hnow H2.
  destruct (vault.Halted s now) eqn:Eh; [apply moves_ret|].
  step. intros st w3 Hr3 Hst H3.
  eapply (sent_step _ w); [by apply sent_modify|done|]. intros ? w4 Hr4 _ H4.
  destruct (bool_decide _); [apply moves_ret|].
  step. intros strands w5 Hr5 Hs H5. step. intros all w6 Hr6 _ H6. step. intros [entries latest'] w7 Hr7 He H7. step. intros at_ w8 Hr8 Hat H8.
  assert (Hcome : to_come w (zip (stranded_exits st) (map (λ l, l.*1) all)) w8).
  { split; [apply zip_ids, stranded_exits_ids|]. intros [x names] Hin%elem_of_zip_l. simpl.
    apply (keeps_claims_run (λ _, True) _ _ _ _ (s_id x) (keeps_readVault _)) in Hr1; [|done].
    apply (keeps_claims_run (λ _, True) _ _ _ _ (s_id x) (keeps_chainTime _)) in Hr2; [|done].
    injection Hr3 as <- _. injection Hr4 as <-. injection Hr5 as <- _. injection Hr6 as <- _. injection Hr7 as <- _. injection Hr8 as <- _.
    simpl. rewrite <- Hr1, <- Hr2. rewrite map_lookup_filter. destruct (claims w2 !! s_id x) as [t|]; [|done].
    simpl. rewrite option_guard_True; [done|]. by apply stranded_exits_known. }
  injection Hr6 as _ Hall.
  apply moves_bind_at.
  - apply (claim_loop_sends w); [done|exact Hcome| |done]. intros x names op Hin (Hop & Hr & Ht & Hc).
    exists cfg, l, s, st, x, names, strands, now, latest, all, entries, latest', at_. by split_and!.
  - intros [reserve waiting] w9 _. destruct (0 <? waiting); [apply sent_raise|apply sent_clear].
Qed.
End keeper.


(** * A vault with something for every job *)

Module demo.

Definition alice : string := example.account 1.
Definition bob : string := example.account 2.
Definition vaultID : string := example.contract 9.
Definition tokenID : string := example.contract 8.

(** Every key is one byte. *)
Definition key_byte (k : LedgerKey) : option (list Z) :=
  match k with
  | KeyContractData (AddressContract id) ScvLedgerKeyContractInstance _ => Some [if default 0 (last id) =? 9 then 65 else 66]
  | KeyContractData _ (ScvVec (Some [ScvSymbol name])) _ =>
      Some [if String.eqb name "Roots" then 67 else if String.eqb name "Frontier" then 68 else 69]
  | KeyContractData _ (ScvVec (Some [ScvSymbol name; ScvU64 id])) _ =>
      Some [(if String.eqb name "Pending" then 97 else if String.eqb name "Exit" then 105 else 113) + id]
  | KeyContractData _ _ _ => Some [70]
  | KeyContractCode _ => Some [71]
  | KeyAccount id => Some [72 + default 0 (last id)]
  | KeyConfigSetting _ => Some [80]
  | _ => None
  end.
#[export] Instance vault_sdk : StellarSDK := example.sdk_keys [] (λ _, None) key_byte.
#[export] Instance vault_tx : TxSDK := {
  new_transaction _ := Ok "draft"%string; sign _ := Ok "envelope"%string; hash_hex _ := Ok "hash"%string; data_size _ := Ok 100 }.

Definition value (r : res ScVal) : ScVal := match r with Ok v => v | Fail _ => ScvVoid end.
Definition entry (v : ScVal) : rpc.Entry := rpc.mkEntry (rpc.DataContract v) 7 (Some 1000).

(** The window has room for 1000 a day, of which nothing is spent; deposits 1 to 3 are attested, and the
    exits 1 and 2 wait. *)
Definition vconfig : vault.Config := vault.mkConfig tokenID fr.zero alice alice 100 1000.
Definition vlimits : vault.Limits := vault.mkLimits 1 1000000 1000000 1000000 1000 1000 1000.
Definition vstatus : vault.Status := vault.mkStatus false false 0 0 4 3 0 10 1200 1 3 0 0.
Definition instance : rpc.Entry := entry (ScvContractInstance (ExecutableWasm (Some (repeat 7 32)))
  (Some [(keys.enumKey "Config" [], value (vault.encode_config vconfig));
         (keys.enumKey "Limits" [], value (vault.encode_limits vlimits));
         (keys.enumKey "Status" [], value (vault.encode_status vstatus))])).

(** Deposit 1 is past its delay; 2 was flagged for a sanction, 3 on an order, which is held. *)
Definition deposit (flag : option Z) : rpc.Entry :=
  entry (value (vault.encode_pending (vault.mkPendingDeposit alice 10 fr.zero fr.zero [] [] 1000 100 flag 1000))).
Definition exit (payout : Z) : rpc.Entry := entry (value (vault.encode_exit (vault.mkExit bob payout alice 0 1000))).
Definition balance : rpc.Entry := entry (Struct [mkField "amount" (value (I128 5000));
  mkField "authorized" (ScvBool true); mkField "clawback" (ScvBool false)]).
Definition ledger : list (string * rpc.Entry) :=
  [("A", instance); ("F", balance); ("K", rpc.mkEntry (rpc.DataAccount 41 500 [] []) 7 None);
   ("b", deposit None); ("c", deposit (Some 1)); ("d", deposit (Some 2)); ("j", exit 600); ("k", exit 600)]%string.

Definition client : rpc.Client := rpc.mkClient (Ok (1, 900, 50000)) (λ batch, Ok (List.filter (λ p, bool_decide (p.1 ∈ batch)) ledger, 900)).

(** The network simulates every call, takes it and applies it. *)
Definition data : TransactionData := mkData (mkResources (mkFootprint [] []) 1000 0 0) 500 [].
Definition net : engine.Env := engine.mkEnv (λ _, 50000 * second) (λ _, Ok 250) (λ _, client)
  (λ _ _, Ok (mkSim "" false (Some data) 10000 [] 900))
  (λ _ _, Ok (mkSendResponse "PENDING" None 900 50000))
  (λ _ _, Ok (mkGetResponse "SUCCESS" 901 902 50010 None [] None)).

(** Exit 7 stranded once. *)
Definition stranded : chaindata.Exit := chaindata.mkExit 7 600 0 600 0 0 0 bob alice 1000 5 "" 6 1000 "" None [].
Definition pending (id : Z) : chaindata.Deposit := chaindata.mkDeposit id alice 10 fr.zero fr.zero 1000 5 "" None 0.
Definition state : chaindata.State :=
  chaindata.set_Stranded {[ 7 := stranded ]} (chaindata.set_Pending (list_to_map (map (λ id, (id, pending id)) [1; 2; 3])) chaindata.New).
Definition env : Env := mkEnv net (λ _, state) (λ _ _, Ok ∅) (λ _, Ok (Some 5000000, None)) None.

Definition config : Config := mkConfig vaultID "native" 16 50 15 (600 * second) {[ 2 ]} 1000 4
  (engine.mkConfig (example.account 3) 1000 15 100000000 0 false (300 * second) (30 * second)).
Definition costs : ledgerCosts := mkCosts (50000 * second) 25 6250 10000 1786 3500 16235 1624 10000 115390 1215 2073600 100000000 40 3 20 200000 132096.
Definition start : World := mkWorld (engine.mkWorld 0 false (Some costs) 100 []) None ∅ 0 0 None [].
Definition calls (w : World) : list Operation := omap (λ e, match e with Sent t _ _ => Some (bare (TOp t)) | _ => None end) (log (eng w)).
Definition call_of (fn : string) (args : list ScVal) : Operation :=
  InvokeHostFunction (mkOp (Contract (AddressContract (be_bytes 32 9)) fn args) [] None).

End demo.

#[local] Existing Instance demo.vault_sdk.
#[local] Existing Instance demo.vault_tx.

(** Each job sends its one call, and [CheckBalance] warns of an account below its floor. *)
Example admit_run : demo.calls (Admit demo.env demo.config demo.start).1 = [demo.call_of "admit" [Vec [U64 1]]].
Proof. vm_compute. reflexivity. Qed.
Example refund_run : demo.calls (Refund demo.env demo.config demo.start).1 = [demo.call_of "refund" [U64 2]].
Proof. vm_compute. reflexivity. Qed.
Example release_run : let '(w, r) := Release demo.env demo.config demo.start in
  hd_error (demo.calls w) = Some (demo.call_of "release" [U32 1]).
Proof. vm_compute. reflexivity. Qed.
(** A run that remembers a release of none at the window it reads sends nothing. *)
Definition idle_start : World := set_idle (mkIdle 0 1000 1) demo.start.
Example idle_run : demo.calls (Release demo.env demo.config idle_start).1 = [] ∧ (Release demo.env demo.config idle_start).2 = Ok tt.
Proof. vm_compute. done. Qed.
Lemma releases_witness :
  hd_error (demo.calls (Release demo.env demo.config demo.start).1) = Some (demo.call_of "release" [U32 1]) ∧
  sent (due_release demo.env demo.config demo.start) demo.start (Release demo.env demo.config demo.start).1.
Proof.
  split; [vm_compute; reflexivity|].
  exact (proj1 (releases_fit demo.env demo.config demo.start ltac:(vm_compute; discriminate))).
Defined.
Example claims_run : let w := (Claims demo.env demo.config demo.start).1 in
  demo.calls w = [demo.call_of "claim" [U64 7]] ∧ tried <$> claims w !! 7 = Some (50000 * second).
Proof. vm_compute. done. Qed.
Example balance_run : alerted (CheckBalance demo.env demo.config demo.start).1 = [Raised Warning "balance_low"].
Proof. vm_compute. reflexivity. Qed.

End keepercalls.
