(* ===== verification/KeeperTTL.v ===== *)
(** The keeper's TTL cycle, [services/internal/keeper/ttl.go]: it reads the remaining life of every entry the
    vault depends on, restores the archived ones and extends those near expiry, within the fees of a cycle.

    The entries a cycle looks at are a list that its batches name by index, as the code's batches point into
    it. The database of spent nullifiers is its query and its updates, each of which may fail. *)
From S2P Require Import Prelude.
From S2P Require Import Fr.
From S2P Require Import Xdr.
From S2P Require Import ScVal.
From S2P Require Import VaultState.
From S2P Require Import ChainData.
From S2P Require Import Keys.
From S2P Require Import Rpc.
From S2P Require Import RelayOutcome.
From S2P Require Import EngineFees.
From S2P Require Import Engine.
From S2P Require Import Keeper.

Module ttl.

Import scval fees engine keeper.

(** ** Batches *)

Section batches.
Context {S A : Type} (run : list A → ST S unit).

(** The inner function of [inBatches]: the refusals of lone items are appended to [refused]. A batch is split
    no more often than it has items. *)
Fixpoint do_batch (fuel : nat) (batch : list A) (refused : list gerr) : ST S (list gerr) :=
  r ← st_try (run batch);
  match r with
  | Ok _ => mret refused
  | Fail e =>
      if negb (is_simulation e) then st_fail e
      else if (length batch =? 1)%nat then mret (refused ++ [e])
      else
        match fuel with
        | O => mret refused
        | Datatypes.S fuel =>
            refused ← do_batch fuel (take (length batch / 2) batch) refused;
            do_batch fuel (drop (length batch / 2) batch) refused
        end
  end.

(** The batches of [inBatches] are [chunks]. *)
Fixpoint do_all (l : list (list A)) (refused : list gerr) : ST S (list gerr) :=
  match l with
  | [] => mret refused
  | batch :: l => refused ← do_batch (length batch) batch refused; do_all l refused
  end.

(** [inBatches]; a size of 0, with which the code's loop does not end, sends nothing here. *)
Definition inBatches (items : list A) (size : nat) : ST S unit :=
  refused ← do_all (chunks (length items) size items) [];
  match refused with
  | [] => mret tt
  | [e] => st_fail e
  | e :: rest => st_fail (Wrapf e "%w; %d more entries refused alone" [FInt (Z.of_nat (length rest))])
  end.
End batches.

(** ** Entries *)

Definition ledgersPerDay : Z := 17280.
Definition holdWithin : Z := 45 * ledgersPerDay.
Definition renewWithin : Z := 31 * ledgersPerDay.
Definition warnWithin : Z := 14 * ledgersPerDay.
Definition renewStep : Z := ledgersPerDay.
Definition minStep : Z := ledgersPerDay / 24.
Definition cycleCaps : Z := 10.

Definition errCycleSpent : gerr := Sentinel "the cycle's transactions were charged 10 times the TTL fee cap".

(** [tracked], without the name. *)
Record tracked : Type := mkTracked { key : LedgerKey; optional : bool; missing : bool; liveUntil : option Z }.
Definition set_life (l : option Z) (t : tracked) : tracked := mkTracked (key t) (optional t) (missing t) l.

Definition gone (t : tracked) : bool := optional t && missing t.
(** Whether an entry ends before a ledger. *)
Definition ends_before (l : option Z) (ledger : Z) : bool := match l with Some n => n <? ledger | None => true end.
Definition urgent (latest : Z) (t : tracked) : bool := negb (gone t) && ends_before (liveUntil t) (u32 (latest + warnWithin)).

Definition item (k : LedgerKey) : tracked := mkTracked k false false None.
Definition optional_item (k : LedgerKey) : tracked := mkTracked k true false None.

(** The database of the spent nullifiers: the rows that may be due, with their bytes, and the update of a
    row's end of life. *)
Record Store : Type := mkStore {
  Due : list Event → Z → res (list (Z * list Z));
  Update : list Event → Z → Z → res unit }.

(** The world with something a closure writes to. *)
Definition on_world {X A} (m : ST World A) : ST (World * X) A := λ '(w, x), let '(w, r) := m w in ((w, x), r).

Section ttl.
Context {sdk : StellarSDK} {tx : TxSDK} (E : Env) (db : Store) (c : Config).

(** One entry as [read] finds it. *)
Definition found_life (entries : gmap string rpc.Entry) (latest : Z) (t : tracked) : tracked :=
  match rpc.entry_of entries (key t) with
  | None => mkTracked (key t) (optional t) true None
  | Some e =>
      mkTracked (key t) (optional t) false
        (match rpc.LiveUntil e with Some l => if latest <=? l then Some l else None | None => None end)
  end.
(** [Keeper.read] *)
Definition read (items : list tracked) : ST World (list tracked * Z) :=
  '(entries, latest) ← ask (λ h, rpc.Entries (client E h) (map key items));
  mret (map (found_life entries latest) items, latest).

(** [footprint] *)
Definition footprint (readOnly readWrite : list LedgerKey) : TransactionData :=
  mkData (mkResources (mkFootprint readOnly readWrite) 0 0 0) 0 [].

(** [Keeper.ttlCall] *)
Definition ttlCall (build : res Operation) : ST World unit :=
  w ← st_get;
  let limit := TTLFeeCap (Engine c) in
  if (0 <? limit) && (i64 (cycleCaps * limit) <=? charged w) then st_fail errCycleSpent
  else
    '(r, err) ← call E c build;
    _ ← st_modify (λ w, set_charged (i64 (charged w + match r with Some t => outcome.FeeCharged (TResult t) | None => 0 end)) w);
    match err with Some e => st_fail e | None => mret tt end.

(** The items a batch points to. *)
Definition keysOf (items : list tracked) (batch : list nat) : list LedgerKey := omap (λ i, key <$> items !! i) batch.

(** [errors.Is(err, ErrFeeCap)], an error that wraps another itself. *)
Fixpoint is_fee_cap (e : gerr) : bool :=
  match e with
  | Wrapf cause fmt _ => String.eqb fmt "%w: the resource fee is above the cap" || is_fee_cap cause
  | _ => false
  end.

(** What an extension gives the entries of its batch. *)
Definition lengthen (life : Z) (batch : list nat) (items : list tracked) : list tracked :=
  foldl (λ l i, alter (λ t, if ends_before (liveUntil t) life then set_life (Some life) t else t) i l) items batch.

(** The loop of [extendBatch]: a turn extends the batch or halves what a lone entry is extended by. *)
Fixpoint extend_loop (turns : nat) (batch : list nat) (to latest : Z) : ST (World * list tracked) unit :=
  '(_, items) ← st_get;
  r ← st_try (on_world (ttlCall (Ok (ExtendFootprintTtl (mkOp (ExtendTo to) [] (Some (footprint (keysOf items batch) [])))))));
  match r with
  | Ok _ => st_modify (λ '(w, items), (w, lengthen (u32 (latest + to)) batch items))
  | Fail e =>
      let left := u32 (default 0 (i ← hd_error batch; t ← items !! i; liveUntil t) - latest) in
      if (1 <? length batch)%nat || negb (is_fee_cap e) || (to <=? u32 (left + minStep)) then st_fail (Wrapf e "extension: %w" [])
      else
        match turns with
        | O => st_fail (Wrapf e "extension: %w" [])
        | S turns => extend_loop turns batch (u32 (left + Z.max (u32 (to - left) / 2) minStep)) latest
        end
  end.

(** [Keeper.extendBatch]; 32 turns halve any 32-bit distance to nothing. *)
Definition extendBatch (to latest : Z) (batch : list nat) : ST (World * list tracked) unit := extend_loop 32 batch to latest.

(** One batch of [restore]: its entries are appended to those restored. *)
Definition restoreBatch (items : list tracked) (batch : list nat) : ST (World * list nat) unit :=
  r ← st_try (on_world (ttlCall (Ok (RestoreFootprint (mkOp NoPayload [] (Some (footprint [] (keysOf items batch))))))));
  match r with
  | Fail e => st_fail (Wrapf e "restore: %w" [])
  | Ok _ => st_modify (λ '(w, restored), (w, restored ++ batch))
  end.

(** An error that may be none, and several joined; a job only tells of them. *)
Definition error_of {A} (r : res A) : list gerr := match r with Ok _ => [] | Fail e => [e] end.

(** The lives read are those of the entries restored, in their order. *)
Definition put_lives (restored : list nat) (read : list tracked) (items : list tracked) : list tracked :=
  foldl (λ l p, alter (set_life (liveUntil p.2)) p.1 l) items (zip restored read).

(** [Keeper.restore] *)
Definition restore (archived : list nat) (items : list tracked) : ST World (list tracked * list gerr) := λ w,
  let '((w, restored), r) := inBatches (restoreBatch items) archived (MaxExtensions c) (w, []) in
  (if bool_decide (restored = []) then mret (items, error_of r)
   else
     a ← st_try (read (omap (λ i, items !! i) restored));
     mret (match a with
           | Fail e => (items, error_of r ++ [e])
           | Ok (read, _) => (put_lives restored read items, error_of r)
           end)) w.

(** The archived entries of a list, and those within a ledger of their end. *)
Definition is_archived (t : tracked) : bool := negb (gone t) && bool_decide (liveUntil t = None).
Definition is_due (ledger : Z) (t : tracked) : bool := negb (gone t) && match liveUntil t with Some l => l <? ledger | None => false end.
Definition indices (P : tracked → bool) (items : list tracked) : list nat :=
  List.filter (λ i, match items !! i with Some t => P t | None => false end) (List.seq 0 (length items)).

(** [Keeper.extend]: the items with the life their restoration or extension gave them, and the errors. *)
Definition extend (items : list tracked) (renewAt to latest : Z) : ST World (list tracked * list gerr) :=
  let ledger := u32 (latest + renewAt) in
  let archived := indices is_archived items in
  let due := indices (is_due ledger) items in
  '(items, errs) ← restore archived items;
  let revived := List.filter (λ i, match items !! i with Some t => match liveUntil t with Some l => l <? ledger | None => false end | None => false end) archived in
  (λ w, let '((w, items), r) := inBatches (extendBatch to latest) (due ++ revived) (MaxExtensions c) (w, items) in
        (w, Ok (items, errs ++ error_of r))) : ST World (list tracked * list gerr).

(** ** The nullifiers *)

(** [nullifierRun] *)
Record nullifierRun : Type := mkRun { run_failures : list gerr; run_urgent : Z; run_archived : Z }.

Definition count {A} (P : A → bool) (l : list A) : Z := Z.of_nat (length (List.filter P l)).

(** The loop that records the lives of a chunk. *)
Fixpoint record_lives (l : list (Z * tracked)) : ST World unit :=
  match l with
  | [] => mret tt
  | (seq, t) :: l =>
      _ ← match liveUntil t with Some life => ask (λ h, Update db h seq life) | None => mret tt end;
      record_lives l
  end.

(** The loop over the chunks; the run so far is returned beside an error. *)
Fixpoint nullifier_chunks (maxTTL : Z) (l : list (list (Z * LedgerKey))) (run : nullifierRun) : ST World (nullifierRun * option gerr) :=
  match l with
  | [] => mret (run, None)
  | chunk :: l =>
      a ← st_try (read (map (λ p, item p.2) chunk));
      match a with
      | Fail e => mret (run, Some e)
      | Ok (items, latest) =>
          '(items, errs) ← extend items renewWithin (u32 (maxTTL - 1)) latest;
          let run := match errs with
                     | [] => run
                     | _ => mkRun (run_failures run ++ errs) (run_urgent run + count (urgent latest) items)
                              (run_archived run + count (λ t, bool_decide (liveUntil t = None)) items)
                     end in
          b ← st_try (record_lives (zip (map fst chunk) items));
          match b with
          | Fail e => mret (run, Some e)
          | Ok _ => nullifier_chunks maxTTL l run
          end
      end
  end.

Definition readBatch : nat := 200.

(** The key of a row. *)
Definition nullifier_row (p : Z * list Z) : res (Z * LedgerKey) :=
  e ← fr.SetBytes p.2;
  k ← keys.NullifierKey (Vault c) (fr.Bytes e);
  mret (p.1, k).

(** [Keeper.nullifiers] *)
Definition nullifiers (maxTTL : Z) : ST World (nullifierRun * option gerr) :=
  let run := mkRun [] 0 0 in
  a ← st_try ('(_, latest) ← chainTime E;
           rows ← ask (λ h, Due db h (u32 (latest + renewWithin + ledgersPerDay)));
           on_engine (st_lift (mapM nullifier_row rows)));
  match a with
  | Fail e => mret (run, Some e)
  | Ok l => nullifier_chunks maxTTL (chunks (length l) readBatch l) run
  end.

(** ** The cycle *)

(** [Keeper.exitEntries] *)
Definition exitEntries (s : chaindata.State) : res (list tracked) :=
  queued ← mapM (keys.ExitKey (Vault c)) (seqZ (chaindata.ExitHead s) (chaindata.ExitTail s - chaindata.ExitHead s));
  stranded ← mapM (keys.StrandedKey (Vault c)) (sorted (map_to_list (chaindata.Stranded s)).*1);
  mret (map optional_item (queued ++ stranded)).

(** An entry of the vault's own a day below the life it is held at. *)
Definition is_behind (latest : Z) (t : tracked) : bool := ends_before (liveUntil t) (u32 (latest + holdWithin - ledgersPerDay)).

(** What the cycle left: the failures, whether entries of the vault's own are behind, and how many entries
    are archived or near their end. *)
Definition conclude (failures : list gerr) (own queued others : list tracked) (nfs : nullifierRun) (latest : Z) : ST World unit :=
  _ ← (if existsb (is_behind latest) own then raise Warning "ttl_behind" else clear "ttl_behind");
  let urgent := run_urgent nfs + count (urgent latest) (own ++ queued ++ others) in
  if bool_decide (failures = []) then
    t ← clock E;
    _ ← st_modify (set_lastCycle t);
    _ ← clear "entry_expiring";
    clear "ttl_cycle_stale"
  else
    _ ← (if 0 <? urgent then raise Critical "entry_expiring" else mret tt);
    st_fail (Sentinel "ttl cycle incomplete").

(** The vault's own entries, and those of the pending deposits. *)
Definition own_entries (inst : vault.VaultInstance) : res (list tracked) :=
  instanceKey ← keys.InstanceKey (Vault c);
  treeKeys ← keys.TreeKeys (Vault c);
  mret (map item ([instanceKey; keys.CodeKey (vault.WasmHash inst)] ++ treeKeys)).
Definition pendingEntries (s : chaindata.State) : res (list tracked) :=
  pending ← mapM (keys.PendingKey (Vault c)) (pendingIDs s);
  mret (map optional_item pending).

(** [Keeper.TTLCycle] *)
Definition TTLCycle : ST World unit :=
  maxTTL ← ask (λ h, rpc.MaxEntryTTL (client E h));
  '(inst, _) ← ask (λ h, rpc.VaultInstance (client E h) (Vault c));
  '(cfg, _, _) ← on_engine (st_lift (parts inst));
  _ ← st_modify (set_charged 0);
  own ← on_engine (st_lift (own_entries inst));
  s ← replayed E;
  pending ← on_engine (st_lift (pendingEntries s));
  s ← replayed E;
  exits ← on_engine (st_lift (exitEntries s));
  '(items, latest) ← read (own ++ pending ++ exits);
  '(own', errs1) ← extend (take (length own) items) holdWithin (holdWithin + renewStep) latest;
  '(queued, errs2) ← extend (drop (length own) items) renewWithin (renewWithin + renewStep) latest;
  tokenInstance ← on_engine (st_lift (keys.InstanceKey (vault.Token cfg)));
  balance ← on_engine (st_lift (keys.BalanceKey (vault.Token cfg) (Vault c)));
  '(others, _) ← read [item tokenInstance; optional_item balance];
  '(others, errs3) ← extend others renewWithin (u32 (maxTTL - 1)) latest;
  '(nfs, err) ← nullifiers maxTTL;
  conclude (errs1 ++ errs2 ++ errs3 ++ match err with Some e => [Wrapf e "nullifiers: %w" []] | None => [] end ++ run_failures nfs)
    own' queued others nfs latest.

(** [Keeper.Watch] *)
Definition Watch : ST World unit :=
  w ← st_get;
  last ← match lastCycle w with
         | Some t => mret t
         | None => t ← clock E; _ ← st_modify (set_lastCycle t); mret t
         end;
  t ← clock E;
  if 2 * 3600 * second <? t - last then raise Critical "ttl_cycle_stale" else mret tt.
End ttl.

(** * Lemmas *)

(** ** Batches *)

Section batches.
Context {S A : Type} (run : list A → ST S unit).

Lemma do_batch_moves (R : relation S) `{!PreOrder R} fuel batch refused :
  (∀ b, b ⊆ batch → moves R (run b)) → moves R (do_batch run fuel batch refused).
Proof.
  revert batch refused. induction fuel as [|fuel IH]; intros batch refused HR; cbn [do_batch].
  all: apply moves_bind; [by apply moves_try, HR|intros [?|e]; [apply moves_ret|]].
  all: destruct (negb _); [apply moves_fail|]; destruct (_ =? _)%nat; [apply moves_ret|].
  1: apply moves_ret.
  apply moves_bind; [|intros ?].
  all: apply IH; intros b Hb; apply HR; etransitivity; [exact Hb|].
  - apply sublist_subseteq, sublist_take.
  - apply sublist_subseteq, sublist_drop.
Qed.

(** What moves with every batch moves with all. *)
Lemma inBatches_moves (R : relation S) `{!PreOrder R} items size :
  (∀ b, b ⊆ items → moves R (run b)) → moves R (inBatches run items size).
Proof.
  intros HR. unfold inBatches. apply moves_bind; [|intros [|e [|]]; auto using moves_ret, moves_fail].
  assert (Hc : ∀ b, b ∈ chunks (length items) size items → b ⊆ items) by (intros b; apply chunks_subseteq).
  revert Hc. generalize (chunks (length items) size items) ([] : list gerr). intros l.
  induction l as [|b l IH]; intros refused Hc; cbn [do_all]; [apply moves_ret|].
  apply moves_bind; [|intros ?; apply IH; intros b' Hb'; apply Hc; by right].
  apply do_batch_moves; [done|]. intros b' Hb'. apply HR. etransitivity; [exact Hb'|]. apply Hc. by left.
Qed.

(** What a batch that goes through does for its items, and nothing undoes, is done for all when none is
    refused. *)
Section done.
Context (R : relation S) `{!PreOrder R} (D : A → S → Prop) (items : list A) (s0 : S).
Hypothesis Hstay : ∀ x s s', R s s' → D x s → D x s'.
Hypothesis Hmoves : ∀ b, b ⊆ items → moves R (run b).
Hypothesis Hrun : ∀ b s s', R s0 s → b ⊆ items → run b s = (s', Ok tt) → ∀ x, x ∈ b → D x s'.

Lemma sub_batch_moves fuel b refused : b ⊆ items → moves R (do_batch run fuel b refused).
Proof. intros Hb. apply do_batch_moves; [done|]. intros b' Hb'. apply Hmoves. by etransitivity. Qed.

Lemma do_batch_done fuel batch refused s s' refused' : R s0 s → batch ⊆ items → (length batch <= Datatypes.S fuel)%nat →
  do_batch run fuel batch refused s = (s', Ok refused') →
  ∃ errs, refused' = refused ++ errs ∧ (errs = [] → ∀ x, x ∈ batch → D x s').
Proof.
  revert batch refused s s' refused'. induction fuel as [|fuel IH]; intros batch refused s s' refused' H0 Hb Hl H; cbn [do_batch] in H.
  all: apply st_bind_Ok in H as ([[]|e] & s1 & Hr%st_try_Ok & H).
  1,3: injection H as <- <-; exists []; rewrite app_nil_r; split; [done|intros _; by eapply Hrun].
  all: assert (H1' : R s0 s1) by (etransitivity; [exact H0|]; specialize (Hmoves batch Hb s); by rewrite Hr in Hmoves).
  all: destruct (negb (is_simulation e)); [done|]; destruct (length batch =? 1)%nat eqn:E1; [injection H as <- <-; by exists [e]|].
  - injection H as <- <-. exists []. rewrite app_nil_r. split; [done|]. destruct batch as [|x [|]]; [by intros _ ? ?%elem_of_nil|done|simpl in Hl; lia].
  - apply Nat.eqb_neq in E1. apply st_bind_Ok in H as (r1 & s2 & H1 & H2).
    assert (Hn : (length batch / 2 <= Datatypes.S fuel ∧ length batch - length batch / 2 <= Datatypes.S fuel)%nat).
    { destruct (length batch) as [|[|n]]; [simpl; lia|done|].
      pose proof (Nat.div_lt (Datatypes.S (Datatypes.S n)) 2). pose proof (Nat.div_le_lower_bound (Datatypes.S (Datatypes.S n)) 2 1). lia. }
    assert (Ht : take (length batch / 2) batch ⊆ items) by (etransitivity; [apply sublist_subseteq, sublist_take|done]).
    assert (Hd : drop (length batch / 2) batch ⊆ items) by (etransitivity; [apply sublist_subseteq, sublist_drop|done]).
    pose proof (sub_batch_moves fuel _ refused Ht s1) as HR1. rewrite H1 in HR1. simpl in HR1.
    pose proof (sub_batch_moves fuel _ r1 Hd s2) as HR2. rewrite H2 in HR2. simpl in HR2.
    apply IH in H1 as (e1 & -> & Hd1); [|done..|rewrite length_take; lia].
    apply IH in H2 as (e2 & -> & Hd2); [|by etransitivity|done|rewrite length_drop; lia].
    exists (e1 ++ e2). rewrite app_assoc. split; [done|]. intros [-> ->]%app_eq_nil x Hx.
    rewrite <- (take_drop (length batch / 2) batch) in Hx. apply elem_of_app in Hx as [Hx|Hx]; [|by apply Hd2].
    eapply Hstay; [exact HR2|]. by apply Hd1.
Qed.

Lemma do_all_done l refused s s' : R s0 s → Forall (λ b, b ⊆ items) l → do_all run l refused s = (s', Ok []) →
  refused = [] ∧ ∀ x, x ∈ concat l → D x s'.
Proof.
  revert refused s. induction l as [|b l IH]; intros refused s H0 Hb H; cbn [do_all] in H.
  { injection H as <- ->. split; [done|]. by intros x ?%elem_of_nil. }
  apply Forall_cons in Hb as [Hb Hl]. apply st_bind_Ok in H as (r1 & s1 & H1 & H2).
  pose proof (sub_batch_moves (length b) b refused Hb s) as HR1. rewrite H1 in HR1. simpl in HR1.
  assert (HR2 : R s1 s').
  { assert (Hm : ∀ r, moves R (do_all run l r)).
    { clear -Hl Hmoves PreOrder0. induction Hl as [|b l Hb _ IH]; intros r; cbn [do_all]; [apply moves_ret|].
      apply moves_bind; [by apply sub_batch_moves|apply IH]. }
    specialize (Hm r1 s1). by rewrite H2 in Hm. }
  apply IH in H2 as [-> H2]; [|by etransitivity|done]. apply do_batch_done in H1 as (errs & E & H1); [|done..|lia].
  symmetry in E. apply app_eq_nil in E as [-> ->]. split; [done|]. simpl. intros x [Hx|Hx]%elem_of_app; [|by apply H2].
  eapply Hstay; [exact HR2|]. by apply H1.
Qed.

Lemma inBatches_done size s' : (0 < size)%nat → inBatches run items size s0 = (s', Ok tt) → ∀ x, x ∈ items → D x s'.
Proof.
  intros Hs H. unfold inBatches in H. apply st_bind_Ok in H as (refused & s1 & H1 & H).
  destruct refused as [|e [|]]; [injection H as ->|done|done].
  apply do_all_done in H1 as [_ H1]; [by rewrite concat_chunks in H1|done|]. apply Forall_forall. intros b. apply chunks_subseteq.
Qed.
End done.
End batches.

End ttl.
