(* ===== verification/KeeperLife.v ===== *)
(** What the TTL cycle achieves, from the definitions of KeeperTTL: an item the simulation refuses holds back
    no other, and a cycle that ends without an error has every live entry it read extended. *)
From S2P Require Import Prelude.
From S2P Require Import Fr.
From S2P Require Import Xdr.
From S2P Require Import ScVal.
From S2P Require Import VaultState.
From S2P Require Import ChainData.
From S2P Require Import Keys.
From S2P Require Import Rpc.
From S2P Require Import RelayOutcome.
From S2P Require Import EngineFees.
From S2P Require Import Engine.
From S2P Require Import Keeper.
From S2P Require Import KeeperCalls.
From S2P Require Import KeeperTTL.

Module life.

Import scval fees engine keeper keepercalls ttl.
#[local] Existing Instance keepercalls.demo.vault_sdk.
#[local] Existing Instance keepercalls.demo.vault_tx.

(** ** Refusals *)

Section refusals.
Context {S A : Type} (run : list A → ST S unit) (bad : A → bool) (v : S → list A).

(** A run that the simulation refuses exactly for the batches with a bad item, and that keeps what it ran. *)
Definition refuses : Prop := ∀ b s, if existsb bad b
  then ∃ s' e, run b s = (s', Fail e) ∧ is_simulation e = true ∧ v s' = v s
  else ∃ s', run b s = (s', Ok tt) ∧ v s' = v s ++ b.

Hypothesis Hrun : refuses.

Definition good (items : list A) : list A := List.filter (λ x, negb (bad x)) items.

Lemma good_all items : existsb bad items = false → good items = items.
Proof.
  induction items as [|x items IH]; [done|]. cbn [existsb good List.filter]. intros [-> H]%orb_false_iff. simpl. f_equal. by apply IH.
Qed.
Lemma good_app k l : good (k ++ l) = good k ++ good l.
Proof. apply List.filter_app. Qed.

(** What a batch leaves: the good items run, and a refusal for each bad one. *)
Definition split_up (items : list A) (refused : list gerr) (s : S) (out : S * res (list gerr)) : Prop :=
  ∃ s' errs, out = (s', Ok (refused ++ errs)) ∧ v s' = v s ++ good items ∧ (errs = [] ↔ existsb bad items = false) ∧
    Forall (λ e, is_simulation e = true) errs.

Lemma split_up_good items refused s s' : existsb bad items = false → v s' = v s ++ items → split_up items refused s (s', Ok refused).
Proof. intros Hb Hv. exists s', []. by rewrite app_nil_r, (good_all _ Hb). Qed.

Lemma split_up_bad x refused s s' e : bad x = true → is_simulation e = true → v s' = v s → split_up [x] refused s (s', Ok (refused ++ [e])).
Proof.
  intros Hb He Hv. exists s', [e]. unfold good. cbn [List.filter existsb]. rewrite Hb. simpl. rewrite app_nil_r.
  split; [done|]. split; [done|]. split; [done|]. by constructor.
Qed.

(** Two runs one after the other. *)
Lemma split_up_bind k l refused s (m : ST S (list gerr)) (f : list gerr → ST S (list gerr)) :
  split_up k refused s (m s) → (∀ refused s, split_up l refused s (f refused s)) → split_up (k ++ l) refused s (mbind f m s).
Proof.
  intros (s1 & e1 & E1 & V1 & N1 & F1) Hf. unfold mbind, ST_bind. rewrite E1.
  destruct (Hf (refused ++ e1) s1) as (s2 & e2 & E2 & V2 & N2 & F2).
  exists s2, (e1 ++ e2). rewrite E2, good_app, V2, V1, existsb_app, <- !app_assoc, orb_false_iff, <- N1, <- N2.
  split; [done|]. split; [done|]. split; [|by apply Forall_app].
  split; [by intros [-> ->]%app_eq_nil|by intros [-> ->]].
Qed.

Lemma split_up_before items refused s s1 out : v s1 = v s → split_up items refused s1 out → split_up items refused s out.
Proof. intros Hv (s' & errs & E' & V & H). exists s', errs. by rewrite V, Hv. Qed.

Lemma do_batch_split fuel batch refused s : batch ≠ [] → (length batch <= Datatypes.S fuel)%nat →
  split_up batch refused s (do_batch run fuel batch refused s).
Proof.
  revert batch refused s. induction fuel as [|fuel IH]; intros batch refused s Hne Hl; cbn [do_batch].
  all: specialize (Hrun batch s); destruct (existsb bad batch) eqn:Eb.
  2,4: destruct Hrun as (s' & Hr & Hv); unfold mbind, ST_bind, st_try; rewrite Hr; by apply split_up_good.
  all: destruct Hrun as (s1 & e & Hr & He & Hv).
  all: assert (Hstep : ∀ B (k : res unit → ST S B), mbind k (st_try (run batch)) s = k (Fail e) s1) by (intros B k; unfold mbind, ST_bind, st_try; by rewrite Hr).
  all: rewrite Hstep, He; cbn [negb]; destruct (length batch =? 1)%nat eqn:E1.
  1,3: apply Nat.eqb_eq in E1; destruct batch as [|x [|]]; try done; simpl in Eb; rewrite orb_false_r in Eb; by apply split_up_bad.
  all: apply Nat.eqb_neq in E1; destruct batch as [|x [|y batch]]; try done.
  1: simpl in Hl; lia.
  apply (split_up_before _ _ _ _ _ Hv). rewrite <- (take_drop (length (x :: y :: batch) / 2) (x :: y :: batch)) at 1.
  set (b := x :: y :: batch) in *. assert (H2 : (2 <= length b)%nat) by (subst b; simpl; lia).
  pose proof (Nat.div_lt (length b) 2). pose proof (Nat.div_le_lower_bound (length b) 2 1).
  apply split_up_bind; [|intros refused' s']; apply IH; rewrite ?length_take, ?length_drop; try lia.
  all: intros E0; apply (f_equal length) in E0; rewrite ?length_take, ?length_drop in E0; change (length (@nil A)) with 0%nat in E0; lia.
Qed.

Lemma do_all_split l refused s : Forall (λ b, b ≠ []) l → split_up (concat l) refused s (do_all run l refused s).
Proof.
  intros Hl. revert refused s. induction Hl as [|b l Hb Hl IH]; intros refused s; cbn [do_all concat]; [by apply split_up_good; rewrite ?app_nil_r|].
  apply split_up_bind; [|apply IH]. apply do_batch_split; [done|lia].
Qed.
End refusals.

(** When the simulation refuses a batch exactly for the bad items in it, [inBatches] ends with every good item
    run exactly once and in order, whatever the size of the batches, and with an error exactly when an item was
    bad, which is then the simulation's. *)
Theorem refused_alone {S A} (run : list A → ST S unit) bad v items size s : refuses run bad v → (0 < size)%nat →
  ∃ s' r, inBatches run items size s = (s', r) ∧ v s' = v s ++ good bad items ∧
    (r = Ok tt ↔ existsb bad items = false) ∧ ∀ e, r = Fail e → is_simulation e = true.
Proof.
  intros Hrun Hs. destruct (do_all_split run bad v Hrun (chunks (length items) size items) [] s) as (s' & errs & E' & V & N & F).
  { by apply chunks_nonempty. }
  rewrite concat_chunks in V, N by lia. unfold inBatches, mbind, ST_bind. rewrite E'. cbn [app].
  exists s'. destruct errs as [|e [|e' errs]]; eexists; (split; [done|]); (split; [done|]); rewrite <- N; (split; [by split|]); try done.
  all: intros ? [= <-]; apply Forall_cons in F as [F _]; exact F.
Qed.

Module demo.

(** Batches of numbers, of which the simulation refuses those with an odd one. *)
Definition run (b : list nat) : ST (list nat) unit := λ s,
  if existsb Nat.odd b then (s, Fail ErrSimulation) else (s ++ b, Ok tt).

Lemma run_refuses : refuses run Nat.odd id.
Proof. intros b s. unfold run. destruct (existsb Nat.odd b); eauto 10. Qed.

End demo.

Lemma refused_alone_witness : inBatches demo.run [2; 4; 5; 6; 8]%nat 3 [] = ([2; 4; 6; 8]%nat, Fail ErrSimulation) ∧
  ∃ s' r, inBatches demo.run [2; 4; 5; 6; 8]%nat 3 [] = (s', r) ∧ s' = [2; 4; 6; 8]%nat ∧ (r = Ok tt ↔ false = true) ∧ ∀ e, r = Fail e → is_simulation e = true.
Proof.
  split; [reflexivity|]. destruct (refused_alone demo.run Nat.odd id [2; 4; 5; 6; 8]%nat 3 [] demo.run_refuses) as (s' & r & H); [lia|].
  exists s', r. simpl in H. naive_solver.
Defined.

(** ** Lives *)

(** Lives that only grow, of the same entries. *)
Definition life_le (a b : option Z) : Prop := ∀ l, a = Some l → ∃ l', b = Some l' ∧ l <= l'.
Definition same (t t' : tracked) : Prop := key t' = key t ∧ optional t' = optional t ∧ missing t' = missing t ∧ life_le (liveUntil t) (liveUntil t').
Definition longer (items items' : list tracked) : Prop := Forall2 same items items'.

#[export] Instance same_pre : PreOrder same.
Proof.
  split.
  - intros t. split_and!; try done. intros l ->. exists l. split; [done|lia].
  - intros a b d (K1 & O1 & M1 & L1) (K2 & O2 & M2 & L2). split_and!; try congruence.
    intros l (l' & Hl' & Hle)%L1. apply L2 in Hl' as (l2 & -> & Hle2). exists l2. split; [done|lia].
Qed.

#[export] Instance longer_pre : PreOrder longer.
Proof. split; [intros l; unfold longer; reflexivity|intros a b d; unfold longer; apply (transitivity (R := Forall2 same))]. Qed.

Lemma longer_alter f i items : (∀ t, same t (f t)) → longer items (alter f i items).
Proof.
  intros Hf. unfold longer. apply Forall2_same_length_lookup. split; [by rewrite length_alter|].
  intros j t t' Ht Ht'. rewrite list_lookup_alter in Ht'. case_decide; subst.
  - rewrite Ht in Ht'. injection Ht' as <-. apply Hf.
  - rewrite Ht in Ht'. injection Ht' as <-. reflexivity.
Qed.

Lemma set_longer life t : same t (if ends_before (liveUntil t) life then set_life (Some life) t else t).
Proof.
  destruct (ends_before _ _) eqn:Ee; [|reflexivity]. split_and!; try done. intros l Hl. exists life. split; [done|].
  rewrite Hl in Ee. simpl in Ee. lia.
Qed.

Lemma lengthen_longer life batch items : longer items (lengthen life batch items).
Proof.
  unfold lengthen. revert items. induction batch as [|i batch IH]; intros items; [reflexivity|].
  cbn [foldl]. etransitivity; [|apply IH]. apply longer_alter. intros t. apply set_longer.
Qed.

Lemma longer_lookup items items' i t : longer items items' → items !! i = Some t → ∃ t', items' !! i = Some t' ∧ same t t'.
Proof. apply Forall2_lookup_l. Qed.

Lemma lengthen_gives life batch items i t : i ∈ batch → items !! i = Some t → ∃ t' l', lengthen life batch items !! i = Some t' ∧
  liveUntil t' = Some l' ∧ life <= l'.
Proof.
  unfold lengthen. revert items t. induction batch as [|j batch IH]; intros items t Hi Ht; [by apply elem_of_nil in Hi|].
  cbn [foldl]. destruct (decide (i ∈ batch)) as [Hin|Hin].
  - set (items1 := alter _ j items). destruct (longer_lookup items items1 i t) as (t1 & Ht1 & _);
      [apply longer_alter; intros ?; apply set_longer|done|]. by eapply IH.
  - apply elem_of_cons in Hi as [->|Hi]; [|done].
    destruct (longer_lookup (alter (λ t, if ends_before (liveUntil t) life then set_life (Some life) t else t) j items)
      (lengthen life batch (alter (λ t, if ends_before (liveUntil t) life then set_life (Some life) t else t) j items)) j
      (if ends_before (liveUntil t) life then set_life (Some life) t else t)) as (t' & Ht' & _ & _ & _ & Hl).
    + apply lengthen_longer.
    + rewrite list_lookup_alter, decide_True by done. by rewrite Ht.
    + destruct (ends_before (liveUntil t) life) eqn:Ee.
      * destruct (Hl life eq_refl) as (l' & Hl' & Hle). by exists t', l'.
      * destruct (liveUntil t) as [l|]; [|done]. destruct (Hl l eq_refl) as (l' & Hl' & Hle). exists t', l'.
        split; [done|]. split; [done|]. simpl in Ee. lia.
Qed.


(** ** Extensions *)

(** Later in a run, with lives that only grew. *)
Definition onward (s s' : World * list tracked) : Prop := since s.1 s'.1 ∧ longer s.2 s'.2.

#[export] Instance onward_pre : PreOrder onward.
Proof.
  split; [intros s; by split|]. intros s1 s2 s3 [H1 H2] [H3 H4]. split; [by transitivity s2.1|by transitivity s2.2].
Qed.

Section extend.
Context {sdk : StellarSDK} {tx : TxSDK} (E : Env) (c : Config).

Lemma since_ttlCall build : moves since (ttlCall E c build).
Proof.
  unfold ttlCall. apply moves_bind; [apply moves_get|intros w]. destruct (_ && _); [apply moves_fail|].
  apply moves_bind; [by apply sent_callWorth|intros [r err]].
  apply moves_bind; [by apply sent_modify|intros _]. destruct err; [apply moves_fail|apply moves_ret].
Qed.

Lemma onward_on_world {A} (m : ST World A) : moves since m → moves onward (on_world m).
Proof. intros H [w items]. specialize (H w). unfold on_world. by destruct (m w). Qed.

Lemma on_world_run {A} (m : ST World A) w (items : list tracked) w' items' r :
  on_world m (w, items) = ((w', items'), r) → items' = items ∧ m w = (w', r).
Proof. unfold on_world. destruct (m w). by intros [= -> -> ->]. Qed.

Lemma extend_loop_onward turns b to latest : moves onward (extend_loop E c turns b to latest).
Proof.
  revert to. induction turns as [|turns IH]; intros to; cbn [extend_loop].
  all: apply moves_bind; [apply moves_get|intros [w items]].
  all: apply moves_bind; [apply moves_try, onward_on_world, since_ttlCall|intros [?|e]].
  1,3: intros [w' items']; split; [reflexivity|apply lengthen_longer].
  all: destruct (_ || _); [apply moves_fail|first [apply moves_fail|apply IH]].
Qed.

(** A call of a run that extends an entry to [n] ledgers past the one it lands in, and that succeeded on chain. *)
Definition extended (w0 : World) (k : LedgerKey) (n : Z) : Prop := ∃ w1 w2 ks t, since w0 w1 ∧ k ∈ ks ∧
  call E c (Ok (ExtendFootprintTtl (mkOp (ExtendTo n) [] (Some (footprint ks []))))) w1 = (w2, Ok (Some t, None)) ∧
  outcome.ROutcome (TResult t) = outcome.Success.

(** A call of a run that would extend an entry alone to more than [n] ledgers, and that the fee cap refused. *)
Definition capped (w0 : World) (k : LedgerKey) (n : Z) : Prop := ∃ m w1 w2 e, since w0 w1 ∧ n < m ∧ is_fee_cap e = true ∧
  ttlCall E c (Ok (ExtendFootprintTtl (mkOp (ExtendTo m) [] (Some (footprint [k] []))))) w1 = (w2, Fail e).

Lemma ttlCall_Ok build w w' : ttlCall E c build w = (w', Ok tt) →
  ∃ w2 t, call E c build w = (w2, Ok (Some t, None)) ∧ outcome.ROutcome (TResult t) = outcome.Success.
Proof.
  unfold ttlCall. intros H. apply st_bind_Ok in H as (w1 & ? & [= <- <-] & H). destruct (_ && _); [done|].
  apply st_bind_Ok in H as ([r err] & w2 & Hc & H). apply st_bind_Ok in H as (? & w3 & _ & H). destruct err; [done|].
  exists w2. pose proof Hc as Hr. unfold call, callWorth in Hr. apply st_bind_Ok in Hr as (a & w4 & Ha & Hr).
  apply st_bind_Ok in Hr as (? & w5 & _ & Hr). injection Hr as _ ->.
  unfold attempt in Ha. apply st_bind_Ok in Ha as (b & w6 & _ & Ha). injection Ha as _ Ha.
  destruct b as [t|e]; [|done]. injection Ha as <- Ha. exists t. split; [done|]. by destruct (outcome.ROutcome _).
Qed.

Section entry.
Context (w0 : World) (latest renewAt to0 : Z).
Hypothesis Hlatest : 0 <= latest.
Hypothesis Hrenew : 0 <= renewAt <= to0.
Hypothesis Hsmall : latest + to0 + minStep < W32.

(** An entry that an extension of this cycle gave what it needs: the life it is to be extended to, or an hour
    more than it had when the cap refused more. *)
Definition renewed (t t' : tracked) (l : Z) : Prop := ∃ l' n, liveUntil t' = Some l' ∧ extended w0 (key t) n ∧ latest + n <= l' ∧
  (n = to0 ∨ l + minStep <= latest + n ∧ capped w0 (key t) n).

Lemma elem_keysOf i t items b : i ∈ b → items !! i = Some t → key t ∈ keysOf items b.
Proof. intros Hi Ht. unfold keysOf. apply list_elem_of_omap. exists i. split; [done|]. by rewrite Ht. Qed.

Lemma extend_loop_gives turns b to w items s' i t l : since w0 w →
  extend_loop E c turns b to latest (w, items) = (s', Ok tt) → i ∈ b → items !! i = Some t → liveUntil t = Some l →
  latest <= l < latest + renewAt → l - latest < to <= to0 → to = to0 ∨ l + minStep <= latest + to ∧ capped w0 (key t) to →
  ∃ t', s'.2 !! i = Some t' ∧ renewed t t' l.
Proof.
  assert (Hstep : minStep = 720) by reflexivity.
  intros H0 H Hi Ht Hl Hrange Hto Hgoal. revert to w items s' H0 H Ht Hto Hgoal.
  induction turns as [|turns IH]; intros to w items s' H0 H Ht Hto Hgoal; cbn [extend_loop] in H.
  all: apply st_bind_Ok in H as ([w1 items1] & s1 & [= <- <- <-] & H).
  all: apply st_bind_Ok in H as (r & [w2 items2] & Hr%st_try_Ok & H).
  all: apply on_world_run in Hr as [-> Hr].
  all: destruct r as [[]|e].
  1,3: injection H as <-; destruct (lengthen_gives (u32 (latest + to)) b items i t Hi Ht) as (t' & l' & Ht' & Hl' & Hle); exists t'.
  1,2: split; [done|]; exists l', to; rewrite u32_small in Hle by (unfold is_u32; lia); split; [done|]; split; [|split; [lia|done]].
  1,2: apply ttlCall_Ok in Hr as (w3 & t0 & Hcall & Hok); exists w, w3, (keysOf items b), t0; split; [done|]; split; [by eapply elem_keysOf|done].
  all: destruct (_ || _) eqn:Eend; [done|].
  1: done.
  apply orb_false_iff in Eend as [[Hlone Hcap]%orb_false_iff Hmin].
  assert (Hb : b = [i]). { destruct b as [|j [|]]; [by apply elem_of_nil in Hi| |apply Nat.ltb_ge in Hlone; cbn [length] in Hlone; lia]. by apply list_elem_of_singleton in Hi as ->. }
  subst b. cbn [hd_error] in H, Hmin.
  assert (Hlife : default 0 (i ← Some i; t ← items !! i; liveUntil t) = l) by (cbn; by rewrite Ht; cbn; rewrite Hl).
  rewrite Hlife, Hstep in H, Hmin.
  rewrite (u32_small (l - latest)) in H, Hmin by (unfold is_u32; lia).
  rewrite (u32_small (l - latest + 720)) in Hmin by (unfold is_u32; lia).
  rewrite (u32_small (to - (l - latest))) in H by (unfold is_u32; lia).
  pose proof (Z.div_pos (to - (l - latest)) 2). pose proof (Z.div_le_upper_bound (to - (l - latest)) 2 (to - (l - latest))).
  rewrite (u32_small (l - latest + Z.max ((to - (l - latest)) / 2) 720)) in H by (unfold is_u32; lia).
  assert (Hks : keysOf items [i] = [key t]) by (unfold keysOf; cbn; by rewrite Ht). rewrite Hks in Hr.
  assert (Hfee : is_fee_cap e = true) by (by apply negb_false_iff).
  eapply (IH _ w2 items s'); [|exact H|done|lia|].
  - transitivity w; [done|]. pose proof (since_ttlCall (Ok (ExtendFootprintTtl (mkOp (ExtendTo to) [] (Some (footprint [key t] []))))) w) as Hs.
    by rewrite Hr in Hs.
  - right. split; [lia|]. exists to, w, w2, e. split; [done|]. split; [|done].
    pose proof (Z.div_lt (to - (l - latest)) 2). lia.
Qed.

(** Of a lone entry the fee cap refuses, an extension by no more than an hour is refused last: the turns of
    the loop are enough to halve down to it. *)
Lemma extend_loop_tries_down turns i to w items s' t l e : since w0 w →
  extend_loop E c turns [i] to latest (w, items) = (s', Fail e) → is_fee_cap e = true → items !! i = Some t → liveUntil t = Some l →
  latest <= l → l - latest < to <= to0 → to - (l - latest) <= minStep * 2 ^ Z.of_nat turns →
  ∃ n w1 w2 e', since w0 w1 ∧ n <= l - latest + minStep ∧ is_fee_cap e' = true ∧
    ttlCall E c (Ok (ExtendFootprintTtl (mkOp (ExtendTo n) [] (Some (footprint [key t] []))))) w1 = (w2, Fail e').
Proof.
  assert (Hstep : minStep = 720) by reflexivity. rewrite Hstep.
  intros H0 H He Ht Hl Hle. revert to w H0 H.
  induction turns as [|turns IH]; intros to w H0 H Hto Hturns; cbn [extend_loop] in H.
  all: unfold mbind at 1, ST_bind at 1, st_get in H; cbn beta iota in H.
  all: destruct (ttlCall E c (Ok (ExtendFootprintTtl (mkOp (ExtendTo to) [] (Some (footprint (keysOf items [i]) []))))) w) as [w2 r] eqn:Er.
  all: match type of H with mbind ?f ?m ?s = _ => assert (Em : m s = ((w2, items), Ok r)) by (unfold st_try, on_world; by rewrite Er) end.
  all: unfold mbind, ST_bind in H; rewrite Em in H; destruct r as [[]|e1]; [discriminate H|].
  all: cbn [hd_error length Nat.ltb Nat.leb orb] in H.
  all: assert (Hlife : default 0 (i ← Some i; t ← items !! i; liveUntil t) = l) by (cbn; by rewrite Ht; cbn; rewrite Hl).
  all: unfold mbind in Hlife; rewrite Hlife, Hstep in H.
  all: rewrite (u32_small (l - latest)) in H by (unfold is_u32; lia).
  all: destruct (is_fee_cap e1) eqn:Ec; [|injection H as _ <-; change (is_fee_cap e1 = true) in He; congruence].
  all: cbn [negb orb] in H; rewrite (u32_small (l - latest + 720)) in H by (unfold is_u32; lia).
  all: assert (Hks : keysOf items [i] = [key t]) by (unfold keysOf; cbn; by rewrite Ht); rewrite Hks in Er.
  all: destruct (Z.leb_spec to (l - latest + 720)) as [Hend|Hend]; [exists to, w, w2, e1; by split_and!|].
  { simpl in Hturns. lia. }
  rewrite (u32_small (to - (l - latest))) in H by (unfold is_u32; lia).
  pose proof (Z.div_pos (to - (l - latest)) 2). pose proof (Z.div_le_upper_bound (to - (l - latest)) 2 (to - (l - latest))).
  rewrite (u32_small (l - latest + Z.max ((to - (l - latest)) / 2) 720)) in H by (unfold is_u32; lia).
  assert (Hs2 : since w0 w2).
  { transitivity w; [done|]. match type of Er with ttlCall _ _ ?b _ = _ => pose proof (since_ttlCall b w) as Hs end. by rewrite Er in Hs. }
  eapply (IH _ w2 Hs2 H); [lia|].
  rewrite Nat2Z.inj_succ, Z.pow_succ_r in Hturns by lia.
  assert (Hpow : 1 <= 2 ^ Z.of_nat turns) by (apply (Z.pow_le_mono_r 2 0); lia).
  pose proof (Z.div_le_upper_bound (to - (l - latest)) 2 (720 * 2 ^ Z.of_nat turns)). lia.
Qed.

(** A batch touches only its entries, and none when it fails. *)
Lemma extend_loop_frame turns b to w items s' r j : extend_loop E c turns b to latest (w, items) = (s', r) →
  j ∉ b ∨ (∃ e, r = Fail e) → s'.2 !! j = items !! j.
Proof.
  revert to w. induction turns as [|turns IH]; intros to w H Hj; cbn [extend_loop] in H.
  all: unfold mbind at 1, ST_bind at 1, st_get in H; cbn beta iota in H.
  all: match type of H with mbind ?f ?m ?s = _ => destruct (m s) as [[w2 items2] [r1|e1]] eqn:Em; unfold mbind, ST_bind in H; rewrite Em in H end.
  all: try (unfold st_try, on_world in Em; destruct (ttlCall _ _ _ _); discriminate Em).
  all: apply st_try_Ok, on_world_run in Em as [-> _]; destruct r1 as [[]|e].
  1,3: injection H as <- <-; destruct Hj as [Hj|[e He]]; [simpl; unfold lengthen; clear -Hj|discriminate He].
  1,2: revert items Hj; induction b as [|i b IH']; intros items Hj; [done|]; apply not_elem_of_cons in Hj as [Hi Hj]; cbn [foldl]; rewrite IH' by done; by rewrite list_lookup_alter_ne.
  all: destruct (_ || _); [by injection H as <- _|first [by injection H as <- _|by eapply IH]].
Qed.

(** Of every entry near its end: nothing happened yet, or it was renewed. *)
Section progress.
Context (items1 : list tracked).

Definition pending_or_renewed (t t' : tracked) (l : Z) : Prop := key t' = key t ∧ liveUntil t' = Some l ∨ renewed t t' l.
Definition progress (s : World * list tracked) : Prop := ∀ j t l, items1 !! j = Some t → liveUntil t = Some l →
  latest <= l < latest + renewAt → ∃ t', s.2 !! j = Some t' ∧ pending_or_renewed t t' l.

Lemma renewed_longer t t1 t2 l : same t1 t2 → renewed t t1 l → renewed t t2 l.
Proof.
  intros (_ & _ & _ & Hlife) (l1 & n & Hl1 & Hext & Hn & Hor). destruct (Hlife l1 Hl1) as (l2 & Hl2 & Hle).
  exists l2, n. split; [done|]. split; [done|]. split; [lia|exact Hor].
Qed.

Lemma batch_renews b s s' j t l : since w0 s.1 → progress s → extendBatch E c to0 latest b s = (s', Ok tt) → j ∈ b →
  items1 !! j = Some t → liveUntil t = Some l → latest <= l < latest + renewAt → ∃ t', s'.2 !! j = Some t' ∧ renewed t t' l.
Proof.
  destruct s as [w items]. intros H0 Hp H Hj Ht Hl Hr. destruct (Hp j t l Ht Hl Hr) as (t1 & Ht1 & Hcase). simpl in H0, Ht1.
  destruct Hcase as [[Hkey Hl1]|Hdone].
  - eapply extend_loop_gives in H as (t2 & Ht2 & Hre); [|done..|lia|by left]. exists t2. split; [done|].
    unfold renewed in *. by rewrite <- Hkey.
  - pose proof (extend_loop_onward 32 b to0 latest (w, items)) as [_ Hlong]. unfold extendBatch in H. rewrite H in Hlong.
    destruct (longer_lookup _ _ _ _ Hlong Ht1) as (t2 & Ht2 & Hsame). exists t2. split; [done|]. by eapply renewed_longer.
Qed.

Lemma batch_progress b s : since w0 s.1 → progress s → progress (extendBatch E c to0 latest b s).1.
Proof.
  intros H0 Hp j t l Ht Hl Hr. destruct (extendBatch E c to0 latest b s) as [s' r] eqn:Eb. cbn [fst].
  assert (Hcase : (j ∉ b ∨ ∃ e, r = Fail e) ∨ j ∈ b ∧ r = Ok tt).
  { destruct (decide (j ∈ b)); [|by left; left]. destruct r as [[]|err]; [by right|left; right; by exists err]. }
  destruct Hcase as [Hframe|[Hj ->]].
  - destruct s as [w items]. unfold extendBatch in Eb. rewrite (extend_loop_frame _ _ _ _ _ _ _ _ Eb Hframe). by apply (Hp j).
  - destruct (batch_renews b s s' j t l H0 Hp Eb Hj Ht Hl Hr) as (t' & Ht' & Hre). exists t'. split; [done|by right].
Qed.
End progress.
End entry.

(** A restoration touches only the entries it was given. *)
Definition restoring (archived : list nat) (s s' : World * list nat) : Prop := since s.1 s'.1 ∧ s'.2 ⊆ s.2 ++ archived.

#[export] Instance restoring_pre archived : PreOrder (restoring archived).
Proof.
  split; [intros s; split; [reflexivity|set_solver]|]. intros s1 s2 s3 [H1 H2] [H3 H4]. split; [by transitivity s2.1|set_solver].
Qed.

Lemma restoreBatch_moves items archived b : b ⊆ archived → moves (restoring archived) (restoreBatch E c items b).
Proof.
  intros Hb. unfold restoreBatch. apply moves_bind.
  - apply moves_try. intros [w r]. pose proof (since_ttlCall (Ok (RestoreFootprint (mkOp NoPayload [] (Some (footprint [] (keysOf items b)))))) w) as H.
    unfold on_world. destruct (ttlCall _ _ _ w). split; [done|set_solver].
  - intros [?|e]; [|apply moves_fail]. intros [w r]. split; [reflexivity|set_solver].
Qed.

Lemma put_lives_other restored read items i : i ∉ restored → put_lives restored read items !! i = items !! i.
Proof.
  unfold put_lives. revert read items. induction restored as [|j restored IH]; intros read items Hi; [done|].
  apply not_elem_of_cons in Hi as [Hij Hi]. destruct read as [|t read]; [done|]. cbn [zip zip_with foldl fst snd].
  rewrite IH by done. by rewrite list_lookup_alter_ne.
Qed.

Lemma since_read items : moves since (read E items).
Proof. unfold read. apply moves_bind; [apply sent_ask|intros [? ?]; apply moves_ret]. Qed.

Lemma restore_keeps archived items w w' items' errs : restore E c archived items w = (w', Ok (items', errs)) →
  since w w' ∧ ∀ i, i ∉ archived → items' !! i = items !! i.
Proof.
  unfold restore. intros H.
  pose proof (inBatches_moves (restoreBatch E c items) (restoring archived) archived (MaxExtensions c)
    (λ b, restoreBatch_moves items archived b) (w, [])) as [Hs Hsub].
  destruct (inBatches _ _ _ _) as [[w1 restored] r]. cbn [fst snd app] in Hs, Hsub.
  case_bool_decide as Er; [injection H as <- <- _; by split|].
  apply st_bind_Ok in H as (a & w2 & Ha%st_try_Ok & H). injection H as <- H.
  assert (Hs2 : since w w2). { transitivity w1; [done|]. pose proof (since_read (omap (λ i, items !! i) restored) w1) as Hr. by rewrite Ha in Hr. }
  destruct a as [[read_ ?]|e]; injection H as <- _; (split; [done|]); [|done].
  intros i Hi. apply put_lives_other. set_solver.
Qed.

(** What an extension without errors did for the live entries near their end. *)
Lemma extend_renews w0 items renewAt to latest w w' out : since w0 w →
  0 <= latest → 0 <= renewAt <= to → latest + to + minStep < W32 → (0 < MaxExtensions c)%nat →
  extend E c items renewAt to latest w = (w', Ok (out, [])) →
  ∀ i t l, items !! i = Some t → gone t = false → liveUntil t = Some l → latest <= l →
  latest + renewAt <= l ∨ ∃ t', out !! i = Some t' ∧ renewed w0 latest to t t' l.
Proof.
  intros H0 Hlat Hto Hsmall Hsize H i t l Ht Hgone Hl Hle.
  destruct (Z.le_gt_cases (latest + renewAt) l) as [|Hdue]; [by left|right].
  assert (Hstep : minStep = 720) by reflexivity. unfold extend in H. rewrite (u32_small (latest + renewAt)) in H by (unfold is_u32; lia).
  set (archived := indices is_archived items) in H. set (due_ := indices (is_due (latest + renewAt)) items) in H.
  apply st_bind_Ok in H as ([items1 errs] & w1 & Hr & H). apply restore_keeps in Hr as [Hs1 Hkeep].
  assert (Hindices : ∀ P j, j ∈ indices P items ↔ ∃ t, items !! j = Some t ∧ P t = true).
  { intros P j. unfold indices. rewrite list_elem_of_In, filter_In, <- list_elem_of_In. split.
    - intros [_ Hj]. destruct (items !! j) as [t'|]; [by exists t'|done].
    - intros (t' & Hj & HP). rewrite Hj. split; [|done]. apply elem_of_seq. apply lookup_lt_Some in Hj. lia. }
  assert (Hi : i ∈ due_). { apply Hindices. exists t. split; [done|]. unfold is_due. rewrite Hgone, Hl. simpl. lia. }
  assert (Hi1 : items1 !! i = Some t).
  { rewrite Hkeep; [done|]. intros (t' & Ht' & Ha)%Hindices. rewrite Ht in Ht'. injection Ht' as <-. unfold is_archived in Ha.
    rewrite Hgone, Hl in Ha. done. }
  set (revived := List.filter _ archived) in H.
  destruct (inBatches _ _ _ _) as [[w2 items2] r] eqn:Eb. injection H as _ <- Herr. apply app_eq_nil in Herr as [_ Herr].
  destruct r as [[]|e]; [clear Herr|done].
  set (D := λ j (s : World * list tracked), ∀ t l, items1 !! j = Some t → liveUntil t = Some l → latest <= l < latest + renewAt →
    ∃ t', s.2 !! j = Some t' ∧ renewed w0 latest to t t' l).
  set (R := λ s s', onward s s' ∧ (since w0 s.1 → progress w0 latest renewAt to items1 s → progress w0 latest renewAt to items1 s')).
  assert (HR : PreOrder R).
  { split; [intros s; by split|]. intros s1 s2 s3 [O1 P1] [O2 P2]. split; [by transitivity s2|]. intros Hs Hp. apply P2; [|by apply P1].
    transitivity s1.1; [done|apply O1]. }
  assert (H1 : since w0 w1) by (transitivity w; [done|exact Hs1]).
  assert (Hp1 : progress w0 latest renewAt to items1 (w1, items1)).
  { intros j t1 l1 Ht1 Hl1 _. exists t1. split; [done|]. by left. }
  assert (HD : D i (w2, items2)); [|by apply (HD t l)].
  eapply (inBatches_done (extendBatch E c to latest) R D (due_ ++ revived) (w1, items1)); [..|exact Eb|].
  - intros j s s' [[_ Hlong] _] Hj t1 l1 Ht1 Hl1 Hr1. destruct (Hj t1 l1 Ht1 Hl1 Hr1) as (t2 & Ht2 & Hre).
    destruct (longer_lookup _ _ _ _ Hlong Ht2) as (t3 & Ht3 & Hsame). exists t3. split; [done|]. by eapply renewed_longer.
  - intros b _ s. split; [apply extend_loop_onward|]. by apply batch_progress.
  - intros b s s' [Ho Hp] _ Hrun j Hj t1 l1 Ht1 Hl1 Hr1.
    refine (batch_renews w0 latest renewAt to Hlat Hto Hsmall items1 b s s' j t1 l1 _ (Hp H1 Hp1) Hrun Hj Ht1 Hl1 Hr1). transitivity w1; [exact H1|apply (proj1 Ho)].
  - done.
  - apply elem_of_app. by left.
Qed.

(** ** The cycle *)

Lemma since_extend items renewAt to latest : moves since (extend E c items renewAt to latest).
Proof.
  intros w. unfold extend. apply moves_bind_at.
  - destruct (restore _ _ _ _ _) as [w1 [[items1 errs]|e]] eqn:Er; [by apply restore_keeps in Er as [H _]|].
    exfalso. unfold restore in Er. destruct (inBatches _ _ _ _) as [[w2 restored] r]. case_bool_decide; [done|].
    unfold mbind, ST_bind, st_try in Er. destruct (read _ _ _) as [w3 ?]. discriminate Er.
  - intros [items1 errs] w1 _. set (l := _ ++ List.filter _ _).
    pose proof (inBatches_moves (extendBatch E c to latest) onward l (MaxExtensions c) (λ b _, extend_loop_onward 32 b to latest) (w1, items1)) as [H _].
    unfold extendBatch in *. destruct (inBatches _ _ _ _) as [[w2 items2] r]. exact H.
Qed.

(** A step of a run that went through. *)
Lemma run_step {A B} w0 (m : ST World A) (f : A → ST World B) w w' b : mbind f m w = (w', Ok b) → moves since m → since w0 w →
  ∃ a w1, f a w1 = (w', Ok b) ∧ reads w0 m a ∧ since w0 w1 ∧ m w = (w1, Ok a).
Proof.
  intros (a & w1 & Hm & Hf)%st_bind_Ok Hs H0. exists a, w1. split; [done|]. split; [by exists w, w1|]. split; [|done].
  transitivity w; [done|]. specialize (Hs w). by rewrite Hm in Hs.
Qed.

Lemma found_live entries latest t l : liveUntil (found_life entries latest t) = Some l → latest <= l.
Proof.
  unfold found_life. destruct (rpc.entry_of _ _) as [e|]; [|done]. simpl. destruct (rpc.LiveUntil e) as [u|]; [|done].
  destruct (Z.leb_spec latest u); [|done]. by intros [= <-].
Qed.

(** Sane ledger numbers: two months before the last a 32-bit number names. *)
Definition sane : Prop := ∀ h ks m l, rpc.Entries (client E h) ks = Ok (m, l) → 0 <= l ∧ l + (holdWithin + renewStep + minStep) < W32.

Lemma read_live items w w' out latest : sane → read E items w = (w', Ok (out, latest)) →
  0 <= latest ∧ latest + (holdWithin + renewStep + minStep) < W32 ∧ ∀ j t l, out !! j = Some t → liveUntil t = Some l → latest <= l.
Proof.
  intros HE H. unfold read in H. apply st_bind_Ok in H as ([entries l] & w1 & He & H). injection H as _ <- <-.
  injection He as _ He. destruct (HE _ _ _ _ He) as [H1 H2]. split; [done|]. split; [done|]. intros j t l' Hj Hl.
  rewrite list_lookup_fmap in Hj. destruct (items !! j); [|done]. injection Hj as <-. by eapply found_live.
Qed.

(** What a cycle without an error did for an entry that is to have [renewAt] ledgers left: it has them, or a call
    extended its life by an hour at the least, and to a day past them unless the fee cap refused more. *)
Definition kept (w : World) (latest renewAt : Z) (t : tracked) : Prop := ∀ l, gone t = false → liveUntil t = Some l →
  latest + renewAt <= l ∨ ∃ n, extended w (key t) n ∧ l + ledgersPerDay / 24 <= latest + n ∧
    (n = renewAt + ledgersPerDay ∨ capped w (key t) n).

Lemma extend_kept w0 items renewAt latest w w' out : since w0 w →
  0 <= latest → 0 <= renewAt → latest + (renewAt + renewStep) + minStep < W32 → (0 < MaxExtensions c)%nat →
  (∀ j t l, items !! j = Some t → liveUntil t = Some l → latest <= l) →
  extend E c items renewAt (renewAt + renewStep) latest w = (w', Ok (out, [])) → Forall (kept w0 latest renewAt) items.
Proof.
  assert (Hday : renewStep = 17280 ∧ ledgersPerDay = 17280 ∧ minStep = 720 ∧ ledgersPerDay / 24 = 720) by done.
  intros H0 H1 H2 H3 H4 H5 H. apply Forall_forall. intros t Ht l Hg Hl. apply list_elem_of_lookup in Ht as [j Hj].
  destruct (Z.le_gt_cases (latest + renewAt) l) as [|Hdue]; [by left|right].
  destruct (extend_renews w0 items renewAt (renewAt + renewStep) latest w w' out H0 H1 ltac:(lia) H3 H4 H j t l Hj Hg Hl (H5 j t l Hj Hl))
    as [|(t' & _ & l' & n & _ & Hext & _ & Hn)]; [lia|].
  exists n. split; [done|]. split; [lia|]. destruct Hn as [Hn|[_ Hn]]; [left; lia|by right].
Qed.

Lemma conclude_Ok failures own queued others nfs latest w w' : conclude E failures own queued others nfs latest w = (w', Ok tt) → failures = [].
Proof.
  unfold conclude. intros H. apply st_bind_Ok in H as (? & w1 & _ & H). case_bool_decide; [done|].
  apply st_bind_Ok in H as (? & w2 & _ & H). discriminate H.
Qed.

Context (db : Store).

(** C17: When ledger numbers are sane, a TTL cycle that ends without an error leaves no entry of the vault behind:
    of the vault's instance, code and tree entries each one read as live has 45 days left or more, or a call of
    the cycle that landed extended its life by an hour at the least, and to 46 days unless the fee cap refused a
    longer one; and likewise with 31 and 32 days the pending deposits and the queued and stranded exits the
    follower knew, but those gone since. *)
Theorem cycle_keeps_entries w w' : sane → (0 < MaxExtensions c)%nat → TTLCycle E db c w = (w', Ok tt) →
  ∃ inst n own s pending s' exits items latest, reads w (ask (λ h, rpc.VaultInstance (client E h) (Vault c))) (inst, n) ∧
    own_entries c inst = Ok own ∧ reads w (replayed E) s ∧ pendingEntries c s = Ok pending ∧
    reads w (replayed E) s' ∧ exitEntries c s' = Ok exits ∧ reads w (read E (own ++ pending ++ exits)) (items, latest) ∧
    Forall (kept w latest holdWithin) (take (length own) items) ∧ Forall (kept w latest renewWithin) (drop (length own) items).
Proof.
  intros HE Hsize H. assert (H0 : since w w) by reflexivity. unfold TTLCycle in H.
  apply (run_step w) in H as (maxTTL & w1 & H & _ & H1 & _); [|apply sent_ask|done].
  apply (run_step w) in H as ([inst n] & w2 & H & Hinst & H2 & _); [|apply sent_ask|done].
  apply (run_step w) in H as ([[cfg lim] stat] & w3 & H & _ & H3 & _); [|apply sent_lift|done].
  apply (run_step w) in H as ([] & w4 & H & _ & H4 & _); [|by apply sent_modify|done].
  apply (run_step w) in H as (own & w5 & H & _ & H5 & Hown); [|apply sent_lift|done]. injection Hown as _ Hown.
  apply (run_step w) in H as (s & w6 & H & Hs & H6 & _); [|apply sent_replayed|done].
  apply (run_step w) in H as (pending & w7 & H & _ & H7 & Hpending); [|apply sent_lift|done]. injection Hpending as _ Hpending.
  apply (run_step w) in H as (s' & w8 & H & Hs' & H8 & _); [|apply sent_replayed|done].
  apply (run_step w) in H as (exits & w9 & H & _ & H9 & Hexits); [|apply sent_lift|done]. injection Hexits as _ Hexits.
  apply (run_step w) in H as ([items latest] & w10 & H & Hread & H10 & Hrun); [|apply since_read|done].
  apply (read_live _ _ _ _ _ HE) in Hrun as (Hl1 & Hl2 & Hlive).
  apply (run_step w) in H as ([own' errs1] & w11 & H & _ & H11 & Hx1); [|apply since_extend|done].
  apply (run_step w) in H as ([queued errs2] & w12 & H & _ & _ & Hx2); [|apply since_extend|done].
  exists inst, n, own, s, pending, s', exits, items, latest.
  assert (Herr : errs1 = [] ∧ errs2 = []).
  { apply st_bind_Ok in H as (tokenInstance & w13 & _ & H). apply st_bind_Ok in H as (balance & w14 & _ & H).
    apply st_bind_Ok in H as ([others ?] & w15 & _ & H). apply st_bind_Ok in H as ([others' errs3] & w16 & _ & H).
    apply st_bind_Ok in H as ([nfs err] & w17 & _ & H). apply conclude_Ok in H.
    by apply app_eq_nil in H as [-> [-> _]%app_eq_nil]. }
  destruct Herr as [-> ->]. split_and!; try done.
  - eapply (extend_kept w); [exact H10|done|done|lia|done| |exact Hx1].
    intros j t l Hj. apply (Hlive j). by apply lookup_take_Some in Hj as [Hj _].
  - eapply (extend_kept w); [exact H11|done|done| |done| |exact Hx2].
    + unfold renewWithin, holdWithin, ledgersPerDay in *. lia.
    + intros j t l Hj. rewrite lookup_drop in Hj. by apply (Hlive _ _ _ Hj).
Qed.
End extend.


(** * A cycle *)

Module cycle.

(** The vault of the jobs' example with its code, its tree and its asset contract; its entries live for a
    hundred ledgers more. *)
Definition ledger : list (string * rpc.Entry) :=
  [("P", rpc.mkEntry (rpc.DataConfigSetting (rpc.StateArchival 3110400 2073600 1215)) 7 None);
   ("B", demo.entry ScvVoid); ("C", demo.entry ScvVoid); ("D", demo.entry ScvVoid); ("E", demo.entry ScvVoid);
   ("G", demo.entry ScvVoid)]%string ++ demo.ledger.
Definition client : rpc.Client := rpc.mkClient (Ok (1, 900, 50000)) (λ batch, Ok (List.filter (λ p, bool_decide (p.1 ∈ batch)) ledger, 900)).
Definition net : engine.Env := engine.mkEnv (now demo.net) (GetFeeStats demo.net) (λ _, client) (Simulate demo.net)
  (SendTransaction demo.net) (GetTransaction demo.net).
Definition env : Env := mkEnv net (Replayed demo.env) (Strands demo.env) (Header demo.env) None.
Definition db : Store := mkStore (λ _ _, Ok []) (λ _ _ _, Ok tt).
Definition run : World * res unit := TTLCycle env db demo.config demo.start.

Lemma ok : run.2 = Ok tt.
Proof. vm_compute. reflexivity. Qed.

Lemma run_pair : run = (run.1, Ok tt).
Proof. rewrite <- ok. apply surjective_pairing. Qed.

Lemma latest_read fuel acc ks m l : (acc.2 = 0 ∨ acc.2 = 900) → rpc.read_batches fuel client acc ks = Ok (m, l) → l = 0 ∨ l = 900.
Proof.
  revert acc ks. induction fuel as [|fuel IH]; intros [out l0] ks Hl H.
  { destruct ks; by injection H as <- <-. }
  destruct ks as [|k ks]; [by injection H as <- <-|]. cbn [rpc.read_batches] in H. apply bind_Ok in H as ([out1 l1] & Hb & H).
  apply (IH (out1, l1) _) in H; [done|]. unfold rpc.read_batch in Hb. apply bind_Ok in Hb as (names & _ & Hb).
  simpl in Hb. injection Hb as _ <-. simpl in *. destruct Hl as [->| ->]; simpl; by right.
Qed.

Lemma ledgers_sane : sane env.
Proof.
  intros h ks m l H. unfold rpc.Entries in H. apply latest_read in H; [|by left].
  unfold holdWithin, renewStep, minStep, ledgersPerDay, W32. change (17280 / 24) with 720. lia.
Qed.

End cycle.

Lemma cycle_witness : cycle.run.2 = Ok tt ∧
  ∃ inst n own s pending s' exits items latest, reads demo.start (ask (λ h, rpc.VaultInstance (keeper.client cycle.env h) demo.vaultID)) (inst, n) ∧
    own_entries demo.config inst = Ok own ∧ reads demo.start (replayed cycle.env) s ∧ pendingEntries demo.config s = Ok pending ∧
    reads demo.start (replayed cycle.env) s' ∧ exitEntries demo.config s' = Ok exits ∧
    reads demo.start (read cycle.env (own ++ pending ++ exits)) (items, latest) ∧
    Forall (kept cycle.env demo.config demo.start latest holdWithin) (take (length own) items) ∧
    Forall (kept cycle.env demo.config demo.start latest renewWithin) (drop (length own) items).
Proof.
  split; [exact cycle.ok|].
  exact (cycle_keeps_entries cycle.env demo.config cycle.db demo.start cycle.run.1 cycle.ledgers_sane ltac:(simpl; lia) cycle.run_pair).
Defined.

(** It extends the vault's entries to 46 days, the queues' to 32, and the asset contract's and the vault's balance
    as far as the network allows. *)
Example cycle_calls : map (λ op, match op with ExtendFootprintTtl o => Call o | _ => NoPayload end) (demo.calls cycle.run.1) =
  [ExtendTo 3110399; ExtendTo (32 * 17280); ExtendTo (46 * 17280)].
Proof. vm_compute. reflexivity. Qed.

End life.
