(* ===== verification/Watcher.v ===== *)
(** The watcher of [services/internal/watcher]: it rebuilds the vault from events with a follower of its own and
    pages when the chain, as two RPC providers report it, breaks the vault's rules or disagrees with the replay.
    This file holds its data, its records ([store.go]) and what it does with a window ([watcher.go]);
    WatcherChecks has the periodic checks.

    The world outside answers questions in order: an answer may depend on how many were asked before. The
    watcher's tables are part of its world: a statement of it may fail, and then changes nothing. Ids are held
    there as the unsigned integers whose bits the signed columns keep. The texts of alerts are left out, and so
    is the log. *)
From stdpp Require Import pretty.
From Stdlib Require Import SpecFloat.
From S2P Require Import Prelude.
From S2P Require Import Fr.
From S2P Require Import Tree.
From S2P Require Import Xdr.
From S2P Require Import ScVal.
From S2P Require Import VaultState.
From S2P Require Import Events.
From S2P Require Import Calls.
From S2P Require Import ChainData.
From S2P Require Import ChainState.
From S2P Require Import Keys.
From S2P Require Import Rpc.
From S2P Require Import Token.
From S2P Require Import Follow.

Module watcher.

Import scval.

(** ** Numbers *)

Definition secondsPerDay : Z := 86400.
Definition ledgersPerDay : Z := 17280.
Definition tipLedgers : Z := 12.
Definition attestSlack : Z := 2 * 60.
Definition rootHistory : nat := 1024.
Definition snapshotHistory : nat := 64.
Definition pendingHistory : nat := 1000.
Definition readHistory : nat := 16.

(** The language's [float64]: binary64, rounded to nearest even. *)
Definition float64 (n : Z) : spec_float := binary_normalize 53 1024 n 0 false.
Definition fmul : spec_float → spec_float → spec_float := SFmul 53 1024.
Definition fdiv : spec_float → spec_float → spec_float := SFdiv 53 1024.

(** The built-in [max] of two floats. *)
Definition fmax (a b : spec_float) : spec_float :=
  match SFcompare a b with
  | None => S754_nan
  | Some Lt => b
  | Some Gt => a
  | Some Eq => match a with S754_zero true => b | _ => a end
  end.

(** [big.Float]: [SetInt] keeps every bit, at least 64, and [Quo] rounds to the longer precision. Its
    exponents are wider than any used here. *)
Definition big_prec (n : Z) : Z := Z.max (Zdigits2 n) 64.
Definition big_exponents : Z := 2147483648.
Definition big_quo (a b : Z) : spec_float :=
  SFdiv (Z.max (big_prec a) (big_prec b)) big_exponents
    (binary_normalize (big_prec a) big_exponents a 0 false) (binary_normalize (big_prec b) big_exponents b 0 false).
(** [Float64] of one. *)
Definition big_float64 (x : spec_float) : spec_float :=
  match x with
  | S754_finite s m e => binary_normalize 53 1024 (cond_Zopp s (Z.pos m)) e s
  | _ => x
  end.

(** [escalation]: the loop doubles at most twenty times. *)
Fixpoint doublings (turns : nat) (n : Z) (times : spec_float) : Z :=
  match turns with
  | O => n
  | S turns => if (n <? 1048576) && SFleb (float64 (2 * n)) times then doublings turns (2 * n) times else n
  end.
Definition escalation (times : spec_float) : string := "_x" +:+ pretty (doublings 20 1 times).

(** [%.16s] *)
Definition short (s : string) : string := String.substring 0 16 s.

(** ** Data *)

(** [HotAccount] *)
Record HotAccount : Type := mkHot { HName : string; HAddress : string; Floor : Z; AssetFloor : Z }.

(** [Config]; times are in nanoseconds. *)
Record Config : Type := mkConfig {
  Vault : string; HealthURLs : list string; HotAccounts : list HotAccount; Lumens : string; Asset : string;
  ServiceAccounts : list string; BurstMultiple : spec_float; BurstFloor : Z; QueueLength : Z; QueueAge : Z;
  RoundTrips : Z; IgnoreFunders : gset string; EarlyWindow : Z; EarlyShare : Z; SkipStateSize : bool }.

(** [vault.Instance], of one that decodes. *)
Record Inst : Type := mkInst { IConfig : vault.Config; ILimits : vault.Limits; IStatus : vault.Status; IWasmHash : list Z }.
Definition complete (i : vault.VaultInstance) : res Inst :=
  match vault.IConfig i, vault.ILimits i, vault.IStatus i with
  | Some cfg, Some l, Some s => Ok (mkInst cfg l s (vault.WasmHash i))
  | _, _, _ => Fail (Sentinel "instance")
  end.

(** [snapshot] *)
Record snapshot : Type := mkSnapshot { s_ledger : Z; s_status : vault.Status; s_limits : option vault.Limits }.
Definition snapshotOf (ledger : Z) (s : chaindata.State) : snapshot :=
  mkSnapshot ledger (chaindata.Status s) (chaindata.Limits s).

(** [statusRead] *)
Record statusRead : Type := mkRead { r_inst : Inst; r_from : Z; r_to : Z; r_now : Z }.

(** [attestCheck] *)
Record attestCheck : Type := mkCheck { upTo : Z; ledger : Z; c_closedAt : Z; covered : list Z }.

(** The tables: the transact calls of a ledger with its close time, the delays of deposits, an account's
    funders with the time of the lookup, small values, and the attestation checks by the attestation and its
    ledger, with the close time and the deposits, which an old row does not name. *)
Record Rows : Type := mkRows {
  activity : gmap Z (Z * Z); delays : gmap Z Z; funders : gmap string (list string * Z); meta : gmap string string;
  attests : gmap (Z * Z) (Z * option (list Z)) }.
Definition set_activity (m : gmap Z (Z * Z)) (r : Rows) : Rows := mkRows m (delays r) (funders r) (meta r) (attests r).
Definition set_delays (m : gmap Z Z) (r : Rows) : Rows := mkRows (activity r) m (funders r) (meta r) (attests r).
Definition set_funders (m : gmap string (list string * Z)) (r : Rows) : Rows := mkRows (activity r) (delays r) m (meta r) (attests r).
Definition set_meta (m : gmap string string) (r : Rows) : Rows := mkRows (activity r) (delays r) (funders r) m (attests r).
Definition set_attests (m : gmap (Z * Z) (Z * option (list Z))) (r : Rows) : Rows :=
  mkRows (activity r) (delays r) (funders r) (meta r) m.

(** An alert raised to the operator by its severity and code, raised to the public channel, or cleared. *)
Inductive Alerted : Type := Raised (severity code : string) | Published (code : string) | Cleared (code : string).

#[export] Instance Alerted_eq_dec : EqDecision Alerted.
Proof. solve_decision. Defined.

Definition Critical : string := "critical".
Definition Warning : string := "warning".
Definition Info : string := "info".

(** [Watcher]: its tables, its memory, the alerts raised and cleared, newest first, and how many questions it
    has asked. *)
Record World : Type := mkWorld {
  rows : Rows; state : chaindata.State; cursor : Z; latest : Z; closedAt : Z; roots : gmap Z fr.Element;
  rootOrder : list Z; snapshots : list snapshot; reads : list statusRead; inst : option Inst; pendingCross :
  list follow.Batch; rpcFails : gmap string Z; healthFails : gmap string Z; authorized : option bool; faulted
  : bool; stateLevel : Z; alerted : list Alerted; asked : nat }.
Definition set_rows (x : Rows) (w : World) : World := mkWorld x (state w) (cursor w) (latest w) (closedAt w)
    (roots w) (rootOrder w) (snapshots w) (reads w) (inst w) (pendingCross w) (rpcFails w) (healthFails w)
    (authorized w) (faulted w) (stateLevel w) (alerted w) (asked w).
Definition set_state (x : chaindata.State) (w : World) : World := mkWorld (rows w) x (cursor w) (latest w)
    (closedAt w) (roots w) (rootOrder w) (snapshots w) (reads w) (inst w) (pendingCross w) (rpcFails w)
    (healthFails w) (authorized w) (faulted w) (stateLevel w) (alerted w) (asked w).
Definition set_cursor (x : Z) (w : World) : World := mkWorld (rows w) (state w) x (latest w) (closedAt w)
    (roots w) (rootOrder w) (snapshots w) (reads w) (inst w) (pendingCross w) (rpcFails w) (healthFails w)
    (authorized w) (faulted w) (stateLevel w) (alerted w) (asked w).
Definition set_latest (x : Z) (w : World) : World := mkWorld (rows w) (state w) (cursor w) x (closedAt w)
    (roots w) (rootOrder w) (snapshots w) (reads w) (inst w) (pendingCross w) (rpcFails w) (healthFails w)
    (authorized w) (faulted w) (stateLevel w) (alerted w) (asked w).
Definition set_closedAt (x : Z) (w : World) : World := mkWorld (rows w) (state w) (cursor w) (latest w) x
    (roots w) (rootOrder w) (snapshots w) (reads w) (inst w) (pendingCross w) (rpcFails w) (healthFails w)
    (authorized w) (faulted w) (stateLevel w) (alerted w) (asked w).
Definition set_roots (x : gmap Z fr.Element) (w : World) : World := mkWorld (rows w) (state w) (cursor w)
    (latest w) (closedAt w) x (rootOrder w) (snapshots w) (reads w) (inst w) (pendingCross w) (rpcFails w)
    (healthFails w) (authorized w) (faulted w) (stateLevel w) (alerted w) (asked w).
Definition set_rootOrder (x : list Z) (w : World) : World := mkWorld (rows w) (state w) (cursor w) (latest w)
    (closedAt w) (roots w) x (snapshots w) (reads w) (inst w) (pendingCross w) (rpcFails w) (healthFails w)
    (authorized w) (faulted w) (stateLevel w) (alerted w) (asked w).
Definition set_snapshots (x : list snapshot) (w : World) : World := mkWorld (rows w) (state w) (cursor w)
    (latest w) (closedAt w) (roots w) (rootOrder w) x (reads w) (inst w) (pendingCross w) (rpcFails w)
    (healthFails w) (authorized w) (faulted w) (stateLevel w) (alerted w) (asked w).
Definition set_reads (x : list statusRead) (w : World) : World := mkWorld (rows w) (state w) (cursor w)
    (latest w) (closedAt w) (roots w) (rootOrder w) (snapshots w) x (inst w) (pendingCross w) (rpcFails w)
    (healthFails w) (authorized w) (faulted w) (stateLevel w) (alerted w) (asked w).
Definition set_inst (x : option Inst) (w : World) : World := mkWorld (rows w) (state w) (cursor w) (latest w)
    (closedAt w) (roots w) (rootOrder w) (snapshots w) (reads w) x (pendingCross w) (rpcFails w) (healthFails
    w) (authorized w) (faulted w) (stateLevel w) (alerted w) (asked w).
Definition set_pendingCross (x : list follow.Batch) (w : World) : World := mkWorld (rows w) (state w) (cursor
    w) (latest w) (closedAt w) (roots w) (rootOrder w) (snapshots w) (reads w) (inst w) x (rpcFails w)
    (healthFails w) (authorized w) (faulted w) (stateLevel w) (alerted w) (asked w).
Definition set_rpcFails (x : gmap string Z) (w : World) : World := mkWorld (rows w) (state w) (cursor w)
    (latest w) (closedAt w) (roots w) (rootOrder w) (snapshots w) (reads w) (inst w) (pendingCross w) x
    (healthFails w) (authorized w) (faulted w) (stateLevel w) (alerted w) (asked w).
Definition set_healthFails (x : gmap string Z) (w : World) : World := mkWorld (rows w) (state w) (cursor w)
    (latest w) (closedAt w) (roots w) (rootOrder w) (snapshots w) (reads w) (inst w) (pendingCross w)
    (rpcFails w) x (authorized w) (faulted w) (stateLevel w) (alerted w) (asked w).
Definition set_authorized (x : option bool) (w : World) : World := mkWorld (rows w) (state w) (cursor w)
    (latest w) (closedAt w) (roots w) (rootOrder w) (snapshots w) (reads w) (inst w) (pendingCross w)
    (rpcFails w) (healthFails w) x (faulted w) (stateLevel w) (alerted w) (asked w).
Definition set_faulted (x : bool) (w : World) : World := mkWorld (rows w) (state w) (cursor w) (latest w)
    (closedAt w) (roots w) (rootOrder w) (snapshots w) (reads w) (inst w) (pendingCross w) (rpcFails w)
    (healthFails w) (authorized w) x (stateLevel w) (alerted w) (asked w).
Definition set_stateLevel (x : Z) (w : World) : World := mkWorld (rows w) (state w) (cursor w) (latest w)
    (closedAt w) (roots w) (rootOrder w) (snapshots w) (reads w) (inst w) (pendingCross w) (rpcFails w)
    (healthFails w) (authorized w) (faulted w) x (alerted w) (asked w).
Definition set_alerted (x : list Alerted) (w : World) : World := mkWorld (rows w) (state w) (cursor w) (latest
    w) (closedAt w) (roots w) (rootOrder w) (snapshots w) (reads w) (inst w) (pendingCross w) (rpcFails w)
    (healthFails w) (authorized w) (faulted w) (stateLevel w) x (asked w).
Definition set_asked (x : nat) (w : World) : World := mkWorld (rows w) (state w) (cursor w) (latest w)
    (closedAt w) (roots w) (rootOrder w) (snapshots w) (reads w) (inst w) (pendingCross w) (rpcFails w)
    (healthFails w) (authorized w) (faulted w) (stateLevel w) (alerted w) x.


(** A topic filter of [getEvents]: values, or exactly one topic of any. *)
Inductive Topic : Type := TValue (v : ScVal) | TAnyOne.

(** What the chain state's [Commit] comes to around the watcher's own statements: refused before them, done, or
    lost, when the transaction may stand all the same. *)
Inductive Committed : Type := Refused (e : gerr) | Done | Lost (e : gerr) (stands : bool).

(** An operation of Horizon, by the fields read: the accounts its balance changes are from. *)
Record Operation : Type := mkOperation {
  OID : string; PagingToken : string; OType : string; SourceAccount : string; Trustor : string; Changes : list string }.

(** A payment of the records: an address, an amount and a time. *)
Record flow : Type := mkFlow { f_address : string; f_amount : Z; f_at : Z }.

(** The world outside, by the number of questions before: the two RPC providers, the events of a contract by
    topics on the primary one and of the vault on the second, the outcome of a commit, whether a statement on
    the watcher's tables runs, the chain state's records, the ends of life of the spent nullifiers among them,
    the clock, whether every alert channel is stalled, the heartbeat, Horizon, and the health endpoints with
    the indexer's; the XDR of an entry's data and of an executable, and the SDK's number of a setting. *)
Record Env : Type := mkEnv {
  Primary : nat → rpc.Client; Second : nat → rpc.Client;
  Transfers : nat → string → list (list Topic) → Z → Z → res (list events.RawEvent);
  SecondEvents : nat → Z → Z → res (list events.RawEvent);
  Commit : nat → Committed; Access : nat → res unit;
  DepositRow : nat → Z → res (option (Z * Z)); OutflowSince : nat → Z → res Z;
  DepositsSince : nat → Z → res (list flow); PayoutsSince : nat → Z → res (list flow);
  NearNullifiers : nat → Z → res (list (Z * list Z)); UpdateNullifier : nat → Z → Z → res unit;
  Now : nat → Z; Stalled : nat → bool; Beat : option (nat → res unit);
  Operations : option (nat → string → string → res (list Operation));
  FundersSince : nat → string → Z → res (list string);
  Healthy : nat → string → bool * option (list (string * bool)); Indexer : option (nat → res (Z * string));
  DataXDR : rpc.EntryData → string; ExecXDR : Executable → option string; FrozenSetting : Z }.

Definition raise (severity code : string) : ST World unit := st_modify (λ w, set_alerted (Raised severity code :: alerted w) w).
Definition publish (code : string) : ST World unit := st_modify (λ w, set_alerted (Published code :: alerted w) w).
Definition clear (code : string) : ST World unit := st_modify (λ w, set_alerted (Cleared code :: alerted w) w).

(** A question to the world outside. *)
Definition ask {A} (f : nat → res A) : ST World A := λ w, (set_asked (S (asked w)) w, f (asked w)).

(** The operations of a list, one after the other. *)
Fixpoint each {S A} (f : A → ST S unit) (l : list A) : ST S unit :=
  match l with
  | [] => mret tt
  | a :: l => _ ← f a; each f l
  end.

Section watcher.
Context {sdk : StellarSDK} {NH : tree.NodeHash} (E : Env) (c : Config).

(** ** Records *)

Definition statement (f : Rows → Rows) : ST World unit :=
  _ ← ask (Access E); st_modify (λ w, set_rows (f (rows w)) w).
Definition query {A} (f : Rows → A) : ST World A := _ ← ask (Access E); w ← st_get; mret (f (rows w)).

(** [store.recordActivity] *)
Definition recordActivity (ledger closed n : Z) : ST World unit :=
  statement (λ r, set_activity (<[ledger := (default closed (fst <$> activity r !! ledger), n)]> (activity r)) r).

(** [store.transacts] *)
Definition transacts (recent day : Z) : ST World (Z * Z) :=
  query (λ r, (map_sum (λ p, if (day <? p.1) && (recent <? p.1) then p.2 else 0) (activity r),
               map_sum (λ p, if day <? p.1 then p.2 else 0) (activity r))).

(** [store.setDelay] *)
Definition setDelay (id delay : Z) : ST World unit :=
  statement (λ r, set_delays (match delays r !! id with Some _ => delays r | None => <[id := delay]> (delays r) end) r).

(** [store.addAttestCheck] *)
Definition merged (old new : list Z) : list Z := merge_sort Z.le (remove_dups (old ++ new)).
Definition add_check (k : attestCheck) (m : gmap (Z * Z) (Z * option (list Z))) : gmap (Z * Z) (Z * option (list Z)) :=
  <[(upTo k, ledger k) :=
      match m !! (upTo k, ledger k) with
      | Some (at_, old) => (at_, Some (merged (default [] old) (covered k)))
      | None => (c_closedAt k, Some (covered k))
      end]> m.
Definition addAttestCheck (k : attestCheck) : ST World unit := statement (λ r, set_attests (add_check k (attests r)) r).

(** [store.dropAttestCheck] *)
Definition without (old judged : list Z) : list Z := merge_sort Z.le (remove_dups (filter (λ id, id ∉ judged) old)).
Definition drop_check (k : attestCheck) (m : gmap (Z * Z) (Z * option (list Z))) : gmap (Z * Z) (Z * option (list Z)) :=
  match m !! (upTo k, ledger k) with
  | None => m
  | Some (at_, old) =>
      match without (default [] old) (covered k) with
      | [] => delete (upTo k, ledger k) m
      | rest => <[(upTo k, ledger k) := (at_, Some rest)]> m
      end
  end.
Definition dropAttestCheck (k : attestCheck) : ST World unit := statement (λ r, set_attests (drop_check k (attests r)) r).

(** [store.attestChecks] *)
Definition check_le (a b : attestCheck) : Prop := ledger a < ledger b ∨ ledger a = ledger b ∧ upTo a <= upTo b.
#[local] Instance check_le_dec : RelDecision check_le := λ a b, ltac:(unfold check_le; apply _).
Definition stored_check (row : (Z * Z) * (Z * option (list Z))) : attestCheck :=
  mkCheck row.1.1 row.1.2 row.2.1 (default [row.1.1] row.2.2).
Definition stored_checks (m : gmap (Z * Z) (Z * option (list Z))) : list attestCheck :=
  merge_sort check_le (map stored_check (map_to_list m)).
Definition attestChecks : ST World (list attestCheck) := query (λ r, stored_checks (attests r)).

(** ** Attestations *)

(** [Watcher.delayOf]: the delay a deposit was made under, if it is still known. *)
Definition delayOf (id : Z) : ST World (option Z) :=
  d ← query (λ r, delays r !! id);
  match d with
  | Some d => mret (Some d)
  | None =>
      key ← st_lift (keys.PendingKey (Vault c) id);
      r ← st_try (ask (λ n, rpc.One (Primary E n) key));
      match r with
      | Fail e => if errors_is "rpc: ledger entry missing" e then mret None else st_fail e
      | Ok (e, _) =>
          p ← st_lift (v ← rpc.ContractValue e; vault.DecodePendingDeposit v);
          _ ← setDelay id (vault.Delay p);
          mret (Some (vault.Delay p))
      end
  end.

(** When a deposit may be admitted, of its amount, creation and delay. *)
Definition eligibleAt (i : Inst) (amount created delay : Z) : Z :=
  vault.EligibleAt (vault.mkPendingDeposit "" amount fr.zero fr.zero [] [] created delay None 0) (IConfig i) (ILimits i).

(** Whether an attestation came more than ten minutes before the deposit may be admitted. *)
Definition early (closed eligible : Z) : bool := u64 (u64 (u64 closed + 600) + attestSlack) <? eligible.

Definition early_code (id : Z) : string := "early_attestation_" +:+ pretty id.

(** One turn of the loop of [judgeAttestation]. *)
Definition judge_one (i : Inst) (closed id : Z) : ST World unit :=
  row ← ask (λ n, DepositRow E n id);
  match row with
  | None => mret tt
  | Some (amount, created) =>
      known ← delayOf id;
      let delay := match known with Some d => d | None => vault.DelayFor amount (IConfig i) (ILimits i) end in
      if early closed (eligibleAt i amount created delay) then raise Critical (early_code id) else mret tt
  end.

Definition errNotYet : gerr := Sentinel "the vault's instance is not read yet".

(** [Watcher.judgeAttestation] *)
Definition judgeAttestation (k : attestCheck) : ST World unit :=
  w ← st_get;
  match inst w with
  | None => st_fail errNotYet
  | Some i => _ ← each (judge_one i (c_closedAt k)) (covered k); dropAttestCheck k
  end.

(** The loop of [RetryAttestations]: the errors met. *)
Fixpoint judge_checks (l : list attestCheck) : ST World (list gerr) :=
  match l with
  | [] => mret []
  | k :: l =>
      r ← st_try (judgeAttestation k);
      errs ← judge_checks l;
      mret (match r with Ok _ => errs | Fail e => e :: errs end)
  end.

(** [errors.Join], which is nil of none. *)
Definition join_errors (errs : list gerr) : ST World unit :=
  match errs with [] => mret tt | e :: rest => st_fail (Wrapf e "%w" (map FErr rest)) end.

(** [Watcher.RetryAttestations] *)
Definition RetryAttestations : ST World unit :=
  checks ← attestChecks; errs ← judge_checks checks; join_errors errs.

(** [judged] *)
Definition judged (n : chaindata.Notice) : option attestCheck :=
  match chaindata.NoticeBodyOf n with
  | chaindata.NAttestation a cov =>
      Some (mkCheck (events.A_UpTo a) (chaindata.NLedger n) (chaindata.NClosedAt n) cov)
  | chaindata.NUnflag u attestedUpTo =>
      if events.DU_ID u <=? attestedUpTo then
        Some (mkCheck attestedUpTo (chaindata.NLedger n) (chaindata.NClosedAt n) [events.DU_ID u])
      else None
  | _ => None
  end.

(** ** Notices *)

Definition governance : list string :=
  ["limits_queued"; "limits_applied"; "limits_cancelled"; "paused"; "halted"; "resumed"]%string.

(** A failed type assertion. *)
Definition panics {A} : ST World A := st_fail (Sentinel "panic: interface conversion").

Definition event_code (n : chaindata.Notice) : string :=
  chaindata.NName n +:+ "_" +:+ short (chaindata.NTxHash n) +:+ "_" +:+ pretty (chaindata.NIndex n).

(** The switch of [notices]. *)
Definition report (n : chaindata.Notice) : ST World unit :=
  let name := chaindata.NName n in
  if bool_decide (name ∈ governance) then
    let code := "governance_" +:+ event_code n in
    _ ← raise (if String.eqb name "halted" then Critical else Warning) code;
    publish code
  else if String.eqb name "deposit_flagged" || String.eqb name "deposit_unflagged" then raise Info (event_code n)
  else if String.eqb name "exit_stranded" then
    match chaindata.NoticeBodyOf n with
    | chaindata.NBody (events.BExitStranded s) => raise Warning ("exit_stranded_" +:+ pretty (events.ES_ID s))
    | _ => panics
    end
  else if String.eqb name "exit_requeued" then
    match chaindata.NoticeBodyOf n with
    | chaindata.NBody (events.BExitRequeued r) => raise Info ("exit_requeued_" +:+ pretty (events.ER_NewID r))
    | _ => panics
    end
  else mret tt.

(** [Watcher.notices] *)
Definition notice_one (latestClose : Z) (n : chaindata.Notice) : ST World unit :=
  if i64 (chaindata.NClosedAt n + secondsPerDay) <? latestClose then mret tt
  else
    _ ← report n;
    match judged n with
    | Some k => _ ← st_try (judgeAttestation k); mret tt
    | None => mret tt
    end.
Definition notices (l : list chaindata.Notice) (latestClose : Z) : ST World unit := each (notice_one latestClose) l.

(** ** Activity *)

(** [Watcher.limits] *)
Definition limits : ST World (option vault.Limits) :=
  w ← st_get;
  mret (match inst w with Some i => Some (ILimits i) | None => chaindata.Limits (state w) end).

(** A fifth of the day's window. *)
Definition hourly_share (l : vault.Limits) : Z := vault.MaxDailyOutflow l * 20 / 100.

(** What an hour's outflow raises. *)
Definition spike (l : vault.Limits) (hour : Z) : ST World unit :=
  if hourly_share l <? hour then raise Warning ("outflow_spike" +:+ escalation (big_float64 (big_quo hour (hourly_share l))))
  else mret tt.

(** What the transact calls of ten minutes and of a day raise. *)
Definition burst_bound (day : Z) : spec_float :=
  fmax (float64 (BurstFloor c)) (fdiv (fmul (BurstMultiple c) (float64 day)) (float64 144)).
Definition burst (recent day : Z) : ST World unit :=
  if SFltb (burst_bound day) (float64 recent) then
    raise Warning ("nullifier_burst" +:+ escalation (fdiv (float64 recent) (burst_bound day)))
  else mret tt.

Definition large_unshield (l : vault.Limits) (i : nat) (s : chaindata.Settlement) : ST World unit :=
  if vault.MaxDeposit l <? - events.S_ExtAmount (chaindata.SSettled s) then
    raise Warning ("large_unshield_" +:+ short (chaindata.STxHash s) +:+ "_" +:+ pretty i)
  else mret tt.

(** [Watcher.activityChecks] *)
Definition activityChecks (b : follow.Batch) (s : chaindata.State) (d : chaindata.Delta) : ST World unit :=
  l ← limits;
  match l with
  | None => mret tt
  | Some l =>
      let now := follow.LatestCloseTime b in
      _ ← (if vault.MaxDailyOutflow l <? chaindata.OutflowOn s (u64 now / secondsPerDay)
           then raise Critical "outflow_over_cap" else mret tt);
      _ ← each (λ p, large_unshield l p.1 p.2) (imap pair (chaindata.Settlements d));
      hour ← st_try (ask (λ n, OutflowSince E n (i64 (now - 3600))));
      _ ← match hour with Ok hour => spike l hour | Fail _ => mret tt end;
      r ← st_try (transacts (i64 (now - 600)) (i64 (now - secondsPerDay)));
      match r with Ok (recent, day) => burst recent day | Fail _ => mret tt end
  end.

(** ** Transfers *)

(** The inner function [add] of [checkTransfers], and its calls one after the other. *)
Definition add (m : gmap string Z) (p : string * Z) : res (gmap string Z) :=
  if Z.sgn p.2 <=? 0 then Ok m
  else account ← AccountOf p.1; mret (<[account := default 0 (m !! account) + p.2]> m).
Fixpoint add_all (m : gmap string Z) (l : list (string * Z)) : res (gmap string Z) :=
  match l with [] => Ok m | p :: l => m ← add m p; add_all m l end.

(** The payments and refunds a window's events report. *)
Definition paid_out (s : chaindata.Settlement) : list (string * Z) :=
  let s := chaindata.SSettled s in [(events.S_Recipient s, - events.S_ExtAmount s); (events.S_Relayer s, events.S_Fee s)].
Definition refunded (r : chaindata.Resolution) : list (string * Z) :=
  match chaindata.ROutcome r with
  | chaindata.OutAdmitted => []
  | _ => [(chaindata.Depositor (chaindata.RDeposit r), chaindata.Amount (chaindata.RDeposit r))]
  end.
Definition reported (d : chaindata.Delta) : list (string * Z) :=
  flat_map paid_out (chaindata.Settlements d) ++ flat_map refunded (chaindata.Resolved d).

(** What an event of the asset's contract moved out of the vault. *)
Definition moved_by (e : events.RawEvent) : list (string * Z) :=
  let t := match token.DecodeTransfer e with Ok t => Ok t | Fail _ => token.DecodeBurn e end in
  match t with
  | Ok t => if String.eqb (token.From t) (Vault c) then [(token.To t, token.Amount t)] else []
  | Fail _ => []
  end.

(** [sameAmounts] *)
Definition sameAmounts (a b : gmap string Z) : bool :=
  (size a =? size b)%nat &&
  forallb (λ p, match b !! p.1 with Some v => v =? p.2 | None => false end) (map_to_list a).

(** A symbol's value, and the address [Address] gives, the zero value with an error. *)
Definition address_or_zero (a : string) : ScVal := match Address a with Ok v => v | Fail _ => ScvOther 0 end.

(** [transferFilters] *)
Definition transferFilters (vaultID : string) : list (list Topic) :=
  let from := TValue (address_or_zero vaultID) in
  [[TValue (Symbol "transfer"); from; TAnyOne];
   [TValue (Symbol "transfer"); from; TAnyOne; TAnyOne];
   [TValue (Symbol "burn"); from; TAnyOne]].

Definition is_retention (e : gerr) : bool := errors_is "follow: ledgers older than the source keeps" e.

(** [Watcher.checkTransfers] *)
Definition checkTransfers (b : follow.Batch) (d : chaindata.Delta) : ST World unit :=
  w ← st_get;
  match inst w with
  | None => mret tt
  | Some i =>
      want ← st_lift (add_all ∅ (reported d));
      r ← st_try (ask (λ n, Transfers E n (vault.Token (IConfig i)) (transferFilters (Vault c)) (follow.From b) (follow.To b)));
      match r with
      | Fail e => if is_retention e then mret tt else st_fail (Wrapf e "asset transfers: %w" [])
      | Ok es =>
          got ← st_lift (add_all ∅ (flat_map moved_by es));
          if sameAmounts want got then mret tt
          else raise Critical ("outflow_mismatch_" +:+ pretty (follow.To b))
      end
  end.

(** The topic filters of the hot accounts for one contract, with the senders they name. *)
Fixpoint hot_topics (burns : bool) (hs : list HotAccount) (sender : gmap string HotAccount)
    : res (list (list Topic) * gmap string HotAccount) :=
  match hs with
  | [] => Ok ([], sender)
  | h :: hs =>
      from ← Address (HAddress h);
      topic ← match marshal_base64 from with Some s => Ok s | None => Fail (Sentinel "xdr: marshal") end;
      '(topics, sender) ← hot_topics burns hs (<[topic := h]> sender);
      mret ([TValue (Symbol "transfer"); TValue from; TAnyOne; TAnyOne] ::
            (if burns then [[TValue (Symbol "burn"); TValue from; TAnyOne]] else []) ++ topics, sender)
  end.

Definition hot_code (e : events.RawEvent) : string :=
  "hot_account_transfer_" +:+ short (events.TxHash e) +:+ "_" +:+ pretty (events.Op e) +:+ "_" +:+ pretty (events.Index e).

(** One event of a hot account's: its second topic names the sender. *)
Definition hot_event (sender : gmap string HotAccount) (e : events.RawEvent) : ST World unit :=
  match events.Topics e !! 1%nat with
  | None => mret tt
  | Some t => match sender !! t with Some _ => raise Critical (hot_code e) | None => mret tt end
  end.

(** The groups of topic filters, of which a request takes five; whether the rest is still looked at. *)
Fixpoint hot_groups (b : follow.Batch) (contract : string) (sender : gmap string HotAccount) (groups : list (list (list Topic)))
    : ST World bool :=
  match groups with
  | [] => mret true
  | group :: groups =>
      r ← st_try (ask (λ n, Transfers E n contract group (follow.From b) (follow.To b)));
      match r with
      | Fail e => if is_retention e then mret false else st_fail (Wrapf e "hot account transfers: %w" [])
      | Ok es => _ ← each (hot_event sender) es; hot_groups b contract sender groups
      end
  end.
Fixpoint hot_contracts (b : follow.Batch) (sender : gmap string HotAccount) (l : list (string * bool)) : ST World unit :=
  match l with
  | [] => mret tt
  | (contract, burns) :: l =>
      '(topics, sender) ← st_lift (hot_topics burns (HotAccounts c) sender);
      go ← hot_groups b contract sender (chunks (length topics) 5 topics);
      if go : bool then hot_contracts b sender l else mret tt
  end.

(** [Watcher.checkHotTransfers] *)
Definition watched (w : World) : list (string * bool) :=
  (if String.eqb (Lumens c) "" then [] else [(Lumens c, false)]) ++
  match inst w with
  | Some i => if String.eqb (vault.Token (IConfig i)) (Lumens c) then [] else [(vault.Token (IConfig i), true)]
  | None => []
  end.
Definition checkHotTransfers (b : follow.Batch) : ST World unit := w ← st_get; hot_contracts b ∅ (watched w).

(** ** Windows *)

(** [Watcher.loadInstance] *)
Definition readInstance : ST World Inst :=
  '(i, _) ← ask (λ n, rpc.VaultInstance (Primary E n) (Vault c)); st_lift (complete i).
Definition loadInstance : ST World unit :=
  w ← st_get;
  match inst w with
  | Some _ => mret tt
  | None => i ← readInstance; st_modify (set_inst (Some i))
  end.

(** [Watcher.recordActivity]: the transact calls by ledger, in order, with the close time of the last
    transaction that has one. *)
Definition is_transact (x : calls.Call) : bool := match x with calls.CTransact _ => true | _ => false end.
Definition count_tx (m : gmap Z (Z * Z)) (t : calls.Transaction) : gmap Z (Z * Z) :=
  let n := Z.of_nat (length (List.filter is_transact (calls.TCalls t))) in
  if n =? 0 then m else <[calls.TLedger t := (calls.TClosedAt t, default 0 (snd <$> m !! calls.TLedger t) + n)]> m.
Definition counted (b : follow.Batch) : list (Z * (Z * Z)) :=
  let m := foldl count_tx ∅ (follow.Txs b) in
  omap (λ k, (λ p, (k, p)) <$> m !! k) (merge_sort Z.le (map fst (map_to_list m))).
Definition recordActivity_of (b : follow.Batch) : ST World unit :=
  each (λ p : Z * (Z * Z), recordActivity p.1 p.2.1 p.2.2) (counted b).

(** The function [Apply] gives [Commit]: the window's activity, and the attestation checks of the last day. *)
Definition recent_check (latestClose : Z) (n : chaindata.Notice) : option attestCheck :=
  if latestClose <=? i64 (chaindata.NClosedAt n + secondsPerDay) then judged n else None.
Definition record (b : follow.Batch) (d : chaindata.Delta) : ST World unit :=
  _ ← recordActivity_of b;
  each addAttestCheck (omap (recent_check (follow.LatestCloseTime b)) (chaindata.Notices d)).

(** [chainstate.Store.Commit], with the watcher's statements in its transaction. *)
Definition commit (b : follow.Batch) (d : chaindata.Delta) : ST World unit :=
  before ← st_get;
  outcome ← ask (λ n, Ok (Commit E n));
  match outcome with
  | Refused e => st_fail e
  | _ =>
      r ← st_try (record b d);
      match r, outcome with
      | Fail e, _ => _ ← st_modify (set_rows (rows before)); st_fail e
      | Ok _, Lost e false => _ ← st_modify (set_rows (rows before)); st_fail e
      | Ok _, Lost e true => st_fail e
      | Ok _, _ => mret tt
      end
  end.

(** The tail of a list that keeps its newest elements, as the code drops the first of one grown too long. *)
Definition push {A} (limit : nat) (x : A) (l : list A) : list A :=
  let l := l ++ [x] in if (limit <? length l)%nat then tail l else l.

(** [Watcher.keepRoot] *)
Definition keepRoot (r : chaindata.RootAt) (w : World) : World :=
  let k := chaindata.LeafCount r in
  match roots w !! k with
  | Some _ => w
  | None =>
      let m := <[k := chaindata.RootOf r]> (roots w) in
      let order := rootOrder w ++ [k] in
      if (rootHistory <? length order)%nat then
        match order with
        | first :: rest => set_rootOrder rest (set_roots (delete first m) w)
        | [] => w
        end
      else set_rootOrder order (set_roots m w)
  end.

(** The section of [Apply] under the lock. *)
Definition remember (b : follow.Batch) (next : chaindata.State) (d : chaindata.Delta) (w : World) : World :=
  let w := set_latest (Z.max (latest w) (follow.Latest b)) (set_faulted false (set_cursor (follow.To b) (set_state next w))) in
  let w := foldl (λ w r, keepRoot r w) w (chaindata.Roots d) in
  let w := set_snapshots (push snapshotHistory (snapshotOf (follow.To b) next) (snapshots w)) w in
  if follow.Latest b <=? u32 (follow.To b + ledgersPerDay) then set_pendingCross (push pendingHistory b (pendingCross w)) w
  else w.

Definition fault (e : gerr) : gerr := Wrapf follow.ErrFault "%w: %w" [FErr e].

(** [Watcher.Apply] *)
Definition Apply (b : follow.Batch) : ST World unit :=
  w ← st_get;
  match chainstate.Apply (follow.Txs b) (state w) with
  | (_, Fail e) => _ ← raise Critical "invariant"; st_fail (fault e)
  | (next, Ok d) =>
      _ ← loadInstance;
      _ ← checkTransfers b d;
      _ ← checkHotTransfers b;
      r ← st_try (commit b d);
      match r with
      | Fail e =>
          if errors_is "chainstate: events contradict the vault" e then _ ← raise Critical "invariant"; st_fail (fault e)
          else st_fail e
      | Ok _ =>
          _ ← st_modify (remember b next d);
          _ ← notices (chaindata.Notices d) (follow.LatestCloseTime b);
          if follow.Latest b <=? u32 (follow.To b + tipLedgers) then activityChecks b next d else mret tt
      end
  end.

(** [Watcher.Fault] *)
Definition Fault (e : gerr) : ST World unit :=
  if errors_is "follow: ingest fault" e then _ ← st_modify (set_faulted true); raise Critical "ingest_fault" else mret tt.

(** [New], of the state and the cursor the chain state loads. *)
Definition New (loaded : chaindata.State) (at_ : Z) (r : Rows) : World :=
  keepRoot (chaindata.mkRootAt (tree.Len (chaindata.Tree loaded)) (tree.Root (chaindata.Tree loaded)))
    (mkWorld r loaded at_ 0 0 ∅ [] [snapshotOf at_ loaded] [] None [] ∅ ∅ None false 0 [] 0).

End watcher.
End watcher.
