(* ===== verification/WatcherChecks.v ===== *)
(** The watcher's periodic checks, of [services/internal/watcher]: the replay against the chain and the two
    providers against each other ([checks.go]), the network's state size ([statesize.go]), the lives of entries
    ([ttl.go]), the hot accounts ([hot.go]), the patterns of payments ([patterns.go]), and the loop that runs
    them ([watcher.go]). *)
From stdpp Require Import pretty.
From S2P Require Import Prelude.
From S2P Require Import Fr.
From S2P Require Import Tree.
From S2P Require Import Xdr.
From S2P Require Import ScVal.
From S2P Require Import VaultState.
From S2P Require Import Events.
From S2P Require Import ChainData.
From S2P Require Import Keys.
From S2P Require Import Rpc.
From S2P Require Import Token.
From S2P Require Import Freeze.
From S2P Require Import Follow.
From S2P Require Import Watcher.

Module checks.

Import scval watcher.

#[export] Instance Limits_eq_dec : EqDecision vault.Limits.
Proof. solve_decision. Defined.

(** What a reconciliation finds wrong. *)
Inductive Problem : Type :=
| Differs (d : chaindata.difference)
| LimitsDiffer (chain replayed : vault.Limits)
| TreeMissing
| TreeUnreadable (what : string)
| RootDiffers (leaves : Z) (ours : fr.Element).

Section checks.
Context {sdk : StellarSDK} {NH : tree.NodeHash} (E : Env) (c : Config).

(** ** Providers *)

(** [Watcher.methodFailed] and [Watcher.methodAnswered] *)
Definition method_key (provider method : string) : string := provider +:+ " " +:+ method.
Definition method_code (provider method : string) : string := "rpc_failing_" +:+ provider +:+ "_" +:+ method.
Definition methodFailed (provider method : string) : ST World unit :=
  let key := method_key provider method in
  w ← st_get;
  let fails := default 0 (rpcFails w !! key) + 1 in
  _ ← st_modify (set_rpcFails (<[key := fails]> (rpcFails w)));
  if 3 <=? fails then raise Warning (method_code provider method) else mret tt.
Definition methodAnswered (provider method : string) : ST World unit :=
  let key := method_key provider method in
  w ← st_get;
  _ ← st_modify (set_rpcFails (delete key (rpcFails w)));
  if 0 <? default 0 (rpcFails w !! key) then clear (method_code provider method) else mret tt.

(** A call of a provider's whose failures are counted. *)
Definition called {A} (provider method : string) (f : nat → res A) : ST World A :=
  r ← st_try (ask f);
  match r with
  | Fail e => _ ← methodFailed provider method; st_fail e
  | Ok a => _ ← methodAnswered provider method; mret a
  end.

(** [Watcher.vaultKeys] *)
Definition vaultKeys (token : string) : res (list LedgerKey) :=
  i ← keys.InstanceKey (Vault c);
  next ← keys.NextLeafKey (Vault c);
  ring ← keys.RootsKey (Vault c);
  balance ← keys.BalanceKey token (Vault c);
  mret [i; next; ring; balance].

(** [statusDiff] *)
Definition statusDiff (i : Inst) (s : snapshot) (now : Z) : list Problem :=
  map Differs (chaindata.StatusDiff (IStatus i) (s_status s) (now / secondsPerDay)) ++
  match s_limits s with
  | Some l => if bool_decide (l = ILimits i) then [] else [LimitsDiffer (ILimits i) l]
  | None => []
  end.

(** The newest snapshot a read is valid at. *)
Definition match_read (l : list snapshot) (r : statusRead) : option snapshot :=
  snd <$> list_find (λ s, r_from r <= s_ledger s <= r_to r) (rev l).

(** [Watcher.compareReads] *)
Definition read_problems (w : World) (r : statusRead) : list Problem :=
  match match_read (snapshots w) r with Some s => statusDiff (r_inst r) s (r_now r) | None => [] end.
Definition read_matched (w : World) (r : statusRead) : bool := bool_decide (is_Some (match_read (snapshots w) r)).
Definition read_kept (w : World) (r : statusRead) : bool := negb (read_matched w r) && (cursor w <? r_to r).
Definition compareReads : ST World (list Problem * bool) :=
  w ← st_get;
  _ ← st_modify (set_reads (List.filter (read_kept w) (reads w)));
  mret (flat_map (read_problems w) (reads w), existsb (read_matched w) (reads w)).

(** [Watcher.treeDiff]; [None] when the watcher has no root at that count yet. *)
Definition treeDiff (w : World) (next ring : rpc.Entry) : option (option Problem) :=
  match rpc.ContractValue next with
  | Fail _ => Some (Some (TreeUnreadable "the next leaf entry is not contract data"))
  | Ok v =>
      match v with
      | ScvU64 n =>
          match rpc.ContractValue ring with
          | Fail _ => Some (Some (TreeUnreadable "the root ring is not contract data"))
          | Ok v =>
              match vault.DecodeRootRing v with
              | Fail _ => Some (Some (TreeUnreadable "the root ring does not decode"))
              | Ok ring =>
                  ours ← roots w !! n;
                  Some (if bool_decide (vault.Current ring = Some ours) then None else Some (RootDiffers n ours))
              end
          end
      | _ => Some (Some (TreeUnreadable "the next leaf entry is not a u64"))
      end
  end.

(** [Watcher.checkAuthorization] *)
Definition authorization_code (a : bool) : string := "vault_authorization_" +:+ (if a then "true" else "false").
Definition checkAuthorization (a : bool) : ST World unit :=
  w ← st_get;
  _ ← st_modify (set_authorized (Some a));
  _ ← (if match authorized w with Some b => negb (Bool.eqb b a) | None => false end
       then raise Critical (authorization_code a) else mret tt);
  if a then clear "vault_deauthorized" else raise Critical "vault_deauthorized".

(** The loop of [compareProviders] over one key. *)
Definition compare_entry (same : bool) (a b : option rpc.Entry) : ST World unit :=
  match a, b with
  | Some a, Some b =>
      if negb (rpc.LastModified a =? rpc.LastModified b) then
        if same then raise Critical "rpc_disagreement" else mret tt
      else if String.eqb (DataXDR E (rpc.Data a)) (DataXDR E (rpc.Data b)) then mret tt
      else raise Critical "rpc_disagreement"
  | None, None => mret tt
  | _, _ => if same then raise Critical "rpc_disagreement" else mret tt
  end.

(** What the two providers' latest ledgers raise. *)
Definition compare_ledgers (latest other : Z) : ST World unit :=
  if u32 (other + 60) <? latest then raise Warning "second_rpc_lagging"
  else if u32 (latest + 60) <? other then raise Critical "primary_rpc_lagging"
  else _ ← clear "second_rpc_lagging"; clear "primary_rpc_lagging".

(** [Watcher.compareProviders] *)
Definition compareProviders (ks : list LedgerKey) (primary : gmap string rpc.Entry) (latest : Z) : ST World unit :=
  r ← st_try (called "second" "getLedgerEntries" (λ n, rpc.Entries (Second E n) ks));
  match r with
  | Fail _ => mret tt
  | Ok (other, otherLatest) =>
      _ ← compare_ledgers latest otherLatest;
      each (λ k, compare_entry (latest =? otherLatest) (rpc.entry_of primary k) (rpc.entry_of other k)) ks
  end.

(** [sameEvent] *)
Definition sameEvent (a b : events.RawEvent) : bool :=
  bool_decide (events.Pos a = events.Pos b) && String.eqb (events.TxHash a) (events.TxHash b) &&
  String.eqb (events.Contract a) (events.Contract b) && String.eqb (events.Value a) (events.Value b) &&
  bool_decide (events.Topics a = events.Topics b).
Fixpoint same_events (l k : list events.RawEvent) : bool :=
  match l, k with
  | [], [] => true
  | a :: l, b :: k => sameEvent a b && same_events l k
  | _, _ => false
  end.

Definition disagreement_code (b : follow.Batch) : string := "rpc_disagreement_" +:+ pretty (follow.To b).

(** The loop of [crossCheckEvents]. *)
Fixpoint cross_windows (l : list follow.Batch) : ST World unit :=
  match l with
  | [] => mret tt
  | b :: l =>
      r ← st_try (ask (λ n, SecondEvents E n (follow.From b) (follow.To b)));
      match r with
      | Fail e =>
          if is_retention e then cross_windows l
          else
            _ ← methodFailed "second" "getEvents";
            st_modify (λ w, set_pendingCross (b :: pendingCross w) w)
      | Ok es =>
          _ ← methodAnswered "second" "getEvents";
          _ ← (if same_events es (follow.BRaw b) then mret tt else raise Critical (disagreement_code b));
          cross_windows l
      end
  end.

(** [Watcher.crossCheckEvents] *)
Definition is_ready (latest : Z) (b : follow.Batch) : bool := follow.To b <=? latest.
Definition crossCheckEvents : ST World unit :=
  r ← st_try (called "second" "getHealth" (λ n, rpc.GetHealth (Second E n)));
  match r with
  | Fail _ => mret tt
  | Ok (_, latest, _) =>
      w ← st_get;
      _ ← st_modify (set_pendingCross (List.filter (λ b, negb (is_ready latest b)) (pendingCross w)));
      cross_windows (List.filter (is_ready latest) (pendingCross w))
  end.

(** ** Reconciliation *)

(** What [Reconcile] does with the lag, the reads and the tree. *)
Definition check_lag (cursor latest : Z) : ST World unit :=
  if u32 (cursor + 60) <? latest then raise Warning "watcher_lagging" else clear "watcher_lagging".

Definition check_state (next ring : option rpc.Entry) : ST World unit :=
  '(problems, compared) ← compareReads;
  w ← st_get;
  let '(problems, compared) :=
    match next, ring with
    | Some next, Some ring =>
        match treeDiff w next ring with
        | Some p => (problems ++ match p with Some p => [p] | None => [] end, true)
        | None => (problems, compared)
        end
    | _, _ => (problems ++ [TreeMissing], compared)
    end in
  match problems with
  | _ :: _ => raise Critical "state_mismatch"
  | [] => if compared : bool then clear "state_mismatch" else mret tt
  end.

Definition read_balance (e : option rpc.Entry) : res (Z * bool) :=
  match e with
  | Some e => v ← rpc.ContractValue e; token.DecodeBalance v
  | None => Ok (0, true)
  end.

(** What the vault's balance and its status, of one ledger, raise. *)
Definition check_tvl (balance : Z) (i : Inst) : ST World unit :=
  if balance <? vault.Tvl (IStatus i) then raise Critical "balance_below_tvl" else clear "balance_below_tvl".
Definition check_outflow (i : Inst) (now : Z) : ST World unit :=
  if vault.MaxDailyOutflow (ILimits i) <? vault.OutflowOn (IStatus i) (now / secondsPerDay)
  then raise Critical "outflow_over_cap" else mret tt.

(** The section of [Reconcile] under the lock. *)
Definition keep_read (i : Inst) (from to close : Z) (w : World) : World :=
  set_reads (push readHistory (mkRead i from to (u64 close)) (reads w))
    (set_closedAt close (set_latest (Z.max (latest w) to) (set_inst (Some i) w))).

(** [Watcher.Reconcile] *)
Definition Reconcile : ST World unit :=
  w ← st_get;
  known ← match inst w with Some i => mret i | None => readInstance E c end;
  ks ← st_lift (vaultKeys (vault.Token (IConfig known)));
  '(entries, latest) ← called "primary" "getLedgerEntries" (λ n, rpc.Entries (Primary E n) ks);
  let entry i := k ← ks !! i; rpc.entry_of entries k in
  match entry 0%nat with
  | None => _ ← raise Critical "vault_instance_missing"; st_fail (Sentinel "the vault's instance is missing")
  | Some e =>
      i ← st_lift (v ← rpc.ContractValue e; d ← vault.DecodeInstance v; complete d);
      '(_, _, close) ← called "primary" "getHealth" (λ n, rpc.GetHealth (Primary E n));
      _ ← st_modify (keep_read i (rpc.LastModified e) latest close);
      w ← st_get;
      _ ← check_lag (cursor w) latest;
      _ ← check_state (entry 1%nat) (entry 2%nat);
      '(balance, ok) ← st_lift (read_balance (entry 3%nat));
      _ ← checkAuthorization ok;
      _ ← check_tvl balance i;
      _ ← check_outflow i (u64 close);
      _ ← compareProviders ks entries latest;
      crossCheckEvents
  end.

(** [Watcher.reconcileAndBeat]; two minutes, in seconds. *)
Definition staleAfter : Z := 120.
Definition healthy (w : World) : bool := negb (faulted w) && (latest w <=? u32 (cursor w + 60)).
Definition reconcileAndBeat : ST World unit :=
  _ ← Reconcile;
  now ← ask (λ n, Ok (Now E n));
  w ← st_get;
  if staleAfter * 1000000000 <? now - closedAt w * 1000000000 then raise Critical "rpc_stale"
  else
    _ ← clear "rpc_stale";
    stalled ← ask (λ n, Ok (Stalled E n));
    if stalled : bool then mret tt
    else
      match Beat E with
      | Some beat => if healthy w then _ ← st_try (ask beat); mret tt else mret tt
      | None => mret tt
      end.

(** ** Other services *)

(** [Watcher.CheckIndexer] *)
Definition CheckIndexer : ST World unit :=
  match Indexer E with
  | None => mret tt
  | Some f =>
      '(leaves, hex) ← ask f;
      w ← st_get;
      match roots w !! leaves with
      | None => mret tt
      | Some root => if String.eqb (fr.Hex root) hex then clear "indexer_root_mismatch" else raise Critical "indexer_root_mismatch"
      end
  end.

(** [Watcher.judgeLanes] *)
Definition lanes_code (i : nat) : string := "alerts_stalled_" +:+ pretty i.
Definition judgeLanes (i : nat) (lanes : list (string * bool)) : ST World unit :=
  if (0 <? length lanes)%nat && forallb snd lanes then raise Critical (lanes_code i) else clear (lanes_code i).

(** [Watcher.CheckHealth] *)
Definition health_code (i : nat) : string := "health_failing_" +:+ pretty i.
Definition check_health (i : nat) (u : string) : ST World unit :=
  '(ok, lanes) ← ask (λ n, Ok (Healthy E n u));
  _ ← match lanes with Some lanes => judgeLanes i lanes | None => mret tt end;
  w ← st_get;
  let fails := if ok : bool then 0 else default 0 (healthFails w !! u) + 1 in
  _ ← st_modify (set_healthFails (<[u := fails]> (healthFails w)));
  if 2 <=? fails then raise Warning (health_code i) else if ok : bool then clear (health_code i) else mret tt.
Definition CheckHealth : ST World unit := each (λ p, check_health p.1 p.2) (imap pair (HealthURLs c)).

(** [Watcher.CheckFreezes] *)
Definition named (i : Inst) : list string :=
  [Vault c; vault.Token (IConfig i); vault.Guardian (IConfig i); vault.ASP (IConfig i)] ++ ServiceAccounts c.
Definition frozen (s : freeze.Set_) (i : Inst) : bool :=
  existsb (freeze.Touches s) (named i) || bool_decide (IWasmHash i ∈ freeze.Codes s).
Definition CheckFreezes : ST World unit :=
  w ← st_get;
  match inst w with
  | None => mret tt
  | Some i =>
      s ← ask (λ n, freeze.Read (Primary E n) (FrozenSetting E));
      if frozen s i then raise Critical "frozen" else clear "frozen"
  end.

(** ** Queues *)

Definition chain_now : ST World Z := '(_, _, close) ← ask (λ n, rpc.GetHealth (Primary E n)); mret (u64 close).

(** An alert that is raised while something holds and cleared otherwise. *)
Definition signal (b : bool) (severity code : string) : ST World unit := if b then raise severity code else clear code.

(** [Watcher.CheckAdmissions]: the deposits admitted late and those attested late. *)
Definition overdue (i : Inst) (now : Z) (d : chaindata.Deposit) (delay : Z) : bool :=
  negb (now <? u64 (eligibleAt i (chaindata.Amount d) (chaindata.CreatedAt d) delay + 600)).
Fixpoint overdue_ids (i : Inst) (now : Z) (l : list chaindata.Deposit) : ST World (list Z) :=
  match l with
  | [] => mret []
  | d :: l =>
      delay ← delayOf E c (chaindata.DepID d);
      rest ← overdue_ids i now l;
      mret (match delay with Some delay => if overdue i now d delay then chaindata.DepID d :: rest else rest | None => rest end)
  end.
Definition unflagged (s : chaindata.State) : list chaindata.Deposit :=
  List.filter (λ d, match chaindata.Flag d with None => true | Some _ => false end) (map snd (map_to_list (chaindata.Pending s))).
Definition CheckAdmissions : ST World unit :=
  now ← chain_now;
  w ← st_get;
  match inst w with
  | None => mret tt
  | Some i =>
      if now <? chaindata.HaltedUntil (state w) then mret tt
      else
        ids ← overdue_ids i now (unflagged (state w));
        let attested := chaindata.AttestedUpTo (state w) in
        _ ← signal (existsb (λ id, id <=? attested) ids) Warning "admission_late";
        signal (existsb (λ id, attested <? id) ids) Warning "attestation_late"
  end.

Definition partPaidAge : Z := 2 * secondsPerDay.
Definition strandedAge : Z := 7 * secondsPerDay.

(** What the exit queue shows: its length, the age of its head, whether that is paid in part, and whether an
    exit has been stranded for long. *)
Definition queue_length (s : chaindata.State) : Z := u64 (chaindata.ExitTail s - chaindata.ExitHead s).
Definition head_exit (s : chaindata.State) : option chaindata.Exit := chaindata.Exits s !! chaindata.ExitHead s.
Definition head_age (s : chaindata.State) (now : Z) : Z :=
  let oldest := match head_exit s with Some e => chaindata.QueuedAt e | None => 0 end in
  if (0 <? queue_length s) && (oldest <? now) then now - oldest else 0.
Definition part_paid (s : chaindata.State) : bool :=
  match head_exit s with
  | Some e => negb (chaindata.Payout e =? chaindata.QueuedPayout e) || negb (chaindata.Fee e =? chaindata.QueuedFee e)
  | None => false
  end.
Definition stuck (now : Z) (e : chaindata.Exit) : bool :=
  (u64 (chaindata.StrandedAt e) <? now) && (strandedAge <=? now - u64 (chaindata.StrandedAt e)).
Definition any_stuck (s : chaindata.State) (now : Z) : bool :=
  existsb (λ p, stuck now p.2) (map_to_list (chaindata.Stranded s)).

(** [Watcher.CheckExitQueue] *)
Definition CheckExitQueue : ST World unit :=
  now ← chain_now;
  w ← st_get;
  let s := state w in
  _ ← signal (QueueLength c <=? queue_length s) Warning "exit_queue_long";
  _ ← signal ((u64 (Z.quot (QueueAge c) 1000000000) <=? head_age s now) && (0 <? queue_length s)) Warning "exit_queue_old";
  _ ← signal (part_paid s && (partPaidAge <=? head_age s now)) Warning "exit_part_paid_old";
  signal (any_stuck s now) Warning "exit_stranded_old".

(** ** The network's state *)

Definition stateLevels : list Z := [70; 85; 95; 100].
Definition stateMargin : Z := 2.
Definition stateCode (level : Z) : string := "state_size_" +:+ pretty level.
Definition stateSeverity (level : Z) : string := if 100 <=? level then Critical else Warning.

(** The highest level a share reaches, 0 for none. *)
Definition level_of (permille : Z) : Z := foldl (λ acc l, if l * 10 <=? permille then l else acc) 0 stateLevels.

(** The loop that clears, from the highest level down: each level with the one under it. *)
Definition descending : list (Z * Z) := [(100, 95); (95, 85); (85, 70); (70, 0)].
Fixpoint clear_levels (permille : Z) (l : list (Z * Z)) (held : Z) (cleared : list Z) : Z * list Z :=
  match l with
  | [] => (held, cleared)
  | (level, below) :: l =>
      if (held <? level) || ((level - stateMargin) * 10 <=? permille) then clear_levels permille l held cleared
      else clear_levels permille l below (cleared ++ [level])
  end.

(** What one reading makes of the highest level that has paged: the new one, the level that pages, and those
    that clear. *)
Definition judge_size (permille reached : Z) : Z * option Z * list Z :=
  let level := level_of permille in
  let '(held, cleared) := clear_levels permille descending (Z.max reached level) [] in
  (held, if reached <? level then Some level else None, cleared).

(** [Watcher.CheckStateSize] *)
Definition CheckStateSize : ST World unit :=
  if SkipStateSize c then mret tt
  else
    st ← ask (λ n, rpc.ReadSorobanState (Primary E n));
    let permille := Z.quot (i64 (rpc.Average st * 1000)) (rpc.Target st) in
    w ← st_get;
    let '(held, paged, cleared) := judge_size permille (stateLevel w) in
    _ ← st_modify (set_stateLevel held);
    _ ← match paged with Some l => raise (stateSeverity l) (stateCode l) | None => mret tt end;
    each (λ l, clear (stateCode l)) cleared.

(** * Lemmas *)

(** The count of failures never fails itself. *)
Lemma methodFailed_Ok p m w : methodFailed p m w = ((methodFailed p m w).1, Ok tt).
Proof. unfold methodFailed, mbind, ST_bind, st_get, st_modify. by destruct (3 <=? _). Qed.
Lemma methodAnswered_Ok p m w : methodAnswered p m w = ((methodAnswered p m w).1, Ok tt).
Proof. unfold methodAnswered, mbind, ST_bind, st_get, st_modify. by destruct (0 <? _). Qed.

(** What a window's events leave when they were read, and when they were not. *)
Definition read_other (es : list events.RawEvent) (b : follow.Batch) (w : World) : World :=
  let w := (methodAnswered "second" "getEvents" w).1 in
  if same_events es (follow.BRaw b) then w else set_alerted (Raised Critical (disagreement_code b) :: alerted w) w.
Definition put_back (b : follow.Batch) (w : World) : World :=
  let w := (methodFailed "second" "getEvents" w).1 in set_pendingCross (b :: pendingCross w) w.

Lemma cross_windows_cons b l w : cross_windows (b :: l) w =
  let w1 := set_asked (S (asked w)) w in
  match SecondEvents E (asked w) (follow.From b) (follow.To b) with
  | Ok es => cross_windows l (read_other es b w1)
  | Fail e => if is_retention e then cross_windows l w1 else (put_back b w1, Ok tt)
  end.
Proof.
  cbn [cross_windows]. unfold st_try, ask, mbind, ST_bind. cbv zeta.
  destruct (SecondEvents E (asked w) (follow.From b) (follow.To b)) as [es|e].
  - rewrite methodAnswered_Ok. unfold read_other. by destruct (same_events _ _).
  - destruct (is_retention e); [done|]. by rewrite methodFailed_Ok.
Qed.

End checks.
End checks.
