(* ===== verification/WatcherAccounts.v ===== *)
(** The watcher's checks of entries and accounts, of [services/internal/watcher]: the lives of the entries the
    vault depends on ([ttl.go]), the accounts that govern it ([checks.go]), the hot accounts ([hot.go]), the
    patterns of payments ([patterns.go]), and the loop that runs every check ([watcher.go]). *)
From stdpp Require Import pretty.
From S2P Require Import Prelude.
From S2P Require Import Fr.
From S2P Require Import Xdr.
From S2P Require Import ScVal.
From S2P Require Import VaultState.
From S2P Require Import ChainData.
From S2P Require Import Keys.
From S2P Require Import Rpc.
From S2P Require Import Watcher.
From S2P Require Import WatcherChecks.

Module accounts.

Import scval watcher checks.

Section accounts.
Context {sdk : StellarSDK} (E : Env) (c : Config).

(** ** Lives of entries *)

Definition expiryWarning : Z := 14 * ledgersPerDay.
Definition writeWarning : Z := 31 * ledgersPerDay.

(** [entry], without the name. *)
Record entry : Type := mkEntry { key : LedgerKey; optional : bool; written : bool }.

(** The entries [CheckTTL] reads. *)
Definition sorted_keys {A} (m : gmap Z A) : list Z := merge_sort Z.le (map fst (map_to_list m)).
Definition depended (i : Inst) (s : chaindata.State) : res (list entry) :=
  instKey ← keys.InstanceKey (Vault c);
  tree ← keys.TreeKeys (Vault c);
  tokenKey ← keys.InstanceKey (vault.Token (IConfig i));
  balance ← keys.BalanceKey (vault.Token (IConfig i)) (Vault c);
  pending ← mapM (keys.PendingKey (Vault c)) (sorted_keys (chaindata.Pending s));
  queued ← mapM (keys.ExitKey (Vault c)) (seqZ (chaindata.ExitHead s) (chaindata.ExitTail s - chaindata.ExitHead s));
  stranded ← mapM (keys.StrandedKey (Vault c)) (sorted_keys (chaindata.Stranded s));
  mret ([mkEntry instKey false true; mkEntry (keys.CodeKey (IWasmHash i)) false true] ++
        map (λ k, mkEntry k false true) tree ++ [mkEntry tokenKey false false; mkEntry balance true false] ++
        map (λ k, mkEntry k true false) (pending ++ queued ++ stranded)).

(** The switch of [CheckTTL]. *)
Inductive Life : Type := Lasting | Expiring | Unrenewed.
#[export] Instance Life_eq_dec : EqDecision Life.
Proof. solve_decision. Defined.
Definition life_of (latest : Z) (e : entry) (got : option rpc.Entry) : Life :=
  match got with
  | None => if optional e then Lasting else Expiring
  | Some got =>
      match rpc.LiveUntil got with
      | None => Lasting
      | Some l =>
          if l <? latest then Expiring
          else if l <? u32 (latest + expiryWarning) then Expiring
          else if written e && (l <? u32 (latest + writeWarning)) then Unrenewed
          else Lasting
      end
  end.
Definition lives (entries : gmap string rpc.Entry) (latest : Z) (l : list entry) : list Life :=
  map (λ e, life_of latest e (rpc.entry_of entries (key e))) l.
Definition some_life (x : Life) (l : list Life) : bool := existsb (λ y, bool_decide (y = x)) l.

(** The key of a spent nullifier's row. *)
Definition nullifier_key (row : Z * list Z) : res (Z * LedgerKey) :=
  e ← fr.SetBytes row.2; k ← keys.NullifierKey (Vault c) (fr.Bytes e); mret (row.1, k).

(** The loops of [expiringNullifiers]: over a chunk as it was read, and over the chunks. *)
Fixpoint near_ends (entries : gmap string rpc.Entry) (at_ : Z) (l : list (Z * LedgerKey)) (n : Z) : ST World Z :=
  match l with
  | [] => mret n
  | (seq, k) :: l =>
      match e ← rpc.entry_of entries k; rpc.LiveUntil e with
      | Some life =>
          if life <? u32 (at_ + expiryWarning) then near_ends entries at_ l (n + 1)
          else _ ← ask (λ q, UpdateNullifier E q seq life); near_ends entries at_ l n
      | None => near_ends entries at_ l (n + 1)
      end
  end.
Fixpoint near_chunks (l : list (list (Z * LedgerKey))) (n : Z) : ST World Z :=
  match l with
  | [] => mret n
  | chunk :: l =>
      '(entries, at_) ← ask (λ q, rpc.Entries (Primary E q) (map snd chunk));
      n ← near_ends entries at_ chunk n;
      near_chunks l n
  end.

(** [Watcher.expiringNullifiers] *)
Definition expiringNullifiers (latest : Z) : ST World Z :=
  rows ← ask (λ q, NearNullifiers E q (u32 (latest + expiryWarning + ledgersPerDay)));
  l ← st_lift (mapM nullifier_key rows);
  near_chunks (chunks (length l) 200 l) 0.

(** [Watcher.CheckTTL] *)
Definition CheckTTL : ST World unit :=
  w ← st_get;
  match inst w with
  | None => mret tt
  | Some i =>
      es ← st_lift (depended i (state w));
      '(found, latest) ← ask (λ q, rpc.Entries (Primary E q) (map key es));
      let ls := lives found latest es in
      _ ← signal (some_life Unrenewed ls) Warning "renewal_late";
      n ← expiringNullifiers latest;
      signal (some_life Expiring ls || (0 <? n)) Critical "entry_expiring"
  end.

(** ** Governing accounts *)

(** [Watcher.fingerprint]: an account's thresholds and signers, or a contract's executable. *)
Definition signer_text (s : option string * Z) : string := default "other" s.1 +:+ ":" +:+ pretty s.2.
Fixpoint joined (sep : string) (l : list string) : string :=
  match l with [] => "" | [s] => s | s :: l => s +:+ sep +:+ joined sep l end.
Definition account_text (thresholds : list Z) (signers : list (option string * Z)) : string :=
  "thresholds " +:+ joined "/" (map pretty thresholds) +:+
  " signers [" +:+ joined " " (merge_sort String.le (map signer_text signers)) +:+ "]".
Definition fingerprint (address : string) : ST World string :=
  if bool_decide (first_char address = Some "C"%char) then
    key ← st_lift (keys.InstanceKey address);
    '(e, _) ← ask (λ q, rpc.One (Primary E q) key);
    v ← st_lift (rpc.ContractValue e);
    match v with
    | ScvContractInstance exe _ =>
        match ExecXDR E exe with
        | Some s => mret ("executable " +:+ s)
        | None => st_fail (Sentinel "xdr: marshal")
        end
    | _ => st_fail (Sentinel "not a contract instance")
    end
  else
    key ← st_lift (keys.AccountKey address);
    '(e, _) ← ask (λ q, rpc.One (Primary E q) key);
    match rpc.Data e with
    | rpc.DataAccount _ _ thresholds signers => mret (account_text thresholds signers)
    | _ => st_fail (Sentinel "not an account")
    end.

(** One turn of the loop of [CheckGovernanceAccounts]. *)
Definition fingerprint_key (address : string) : string := "fingerprint:" +:+ address.
Definition governance_code (role fp : string) : string := "governance_account_" +:+ role +:+ "_" +:+ fp.
Definition put_meta (k v : string) : ST World unit := statement E (λ r, set_meta (<[k := v]> (meta r)) r).
Definition check_governor (p : string * string) : ST World unit :=
  let '(role, address) := p in
  fp ← fingerprint address;
  old ← query E (λ r, meta r !! fingerprint_key address);
  _ ← match old with
      | Some o => if String.eqb o fp then mret tt else _ ← raise Critical (governance_code role fp); publish (governance_code role fp)
      | None => mret tt
      end;
  if bool_decide (old = Some fp) then mret tt else put_meta (fingerprint_key address) fp.

(** [Watcher.CheckGovernanceAccounts] *)
Definition CheckGovernanceAccounts : ST World unit :=
  w ← st_get;
  match inst w with
  | None => mret tt
  | Some i => each check_governor [("guardian", vault.Guardian (IConfig i)); ("asp", vault.ASP (IConfig i))]%string
  end.

(** ** Hot accounts *)

Definition ownOperations : list string := ["invoke_host_function"; "extend_footprint_ttl"; "restore_footprint"]%string.

(** The switch of [judgeOperations]: whether a hot account should never take part in an operation. *)
Definition suspicious (h : HotAccount) (op : Operation) : bool :=
  bool_decide (HAddress h ∈ Changes op) ||
  (String.eqb (SourceAccount op) (HAddress h) && negb (bool_decide (OType op ∈ ownOperations))) ||
  ((String.eqb (OType op) "set_trust_line_flags" || String.eqb (OType op) "allow_trust") && String.eqb (Trustor op) (HAddress h)).
Definition activity_code (h : HotAccount) : string := "hot_account_activity_" +:+ HAddress h.

(** [Watcher.judgeOperations] *)
Definition judgeOperations (h : HotAccount) (l : list Operation) : ST World unit :=
  if existsb (suspicious h) l then raise Critical (activity_code h) else mret tt.

(** The loop of [operations]; each page is judged before the cursor moves past it. *)
Definition operations_key (h : HotAccount) : string := "operations:" +:+ HAddress h.
Fixpoint read_operations (ops : nat → string → string → res (list Operation)) (pages : nat) (h : HotAccount) (cursor : string)
    : ST World unit :=
  match pages with
  | O => mret tt
  | S pages =>
      l ← ask (λ q, ops q (HAddress h) cursor);
      match last l with
      | None => mret tt
      | Some op =>
          _ ← (if String.eqb cursor "" then mret tt else judgeOperations h l);
          _ ← put_meta (operations_key h) (PagingToken op);
          read_operations ops pages h (PagingToken op)
      end
  end.

(** [Watcher.operations] *)
Definition before_dash (s : string) : string := match keys.cut "-"%char s with Some (a, _) => a | None => s end.
Definition operations (ops : nat → string → string → res (list Operation)) (h : HotAccount) : ST World unit :=
  stored ← query E (λ r, meta r !! operations_key h);
  cursor ← match stored with
           | Some s => mret s
           | None => e ← query E (λ r, meta r !! ("effects:" +:+ HAddress h)); mret (default "" (before_dash <$> e))
           end;
  read_operations ops 50 h cursor.

(** [Watcher.checkAssetFloor] *)
Definition asset_balance (h : HotAccount) (ks : list LedgerKey) : ST World Z :=
  match ks with
  | [_; k] =>
      r ← st_try (ask (λ q, rpc.One (Primary E q) k));
      match r with
      | Fail e => if errors_is "rpc: ledger entry missing" e then mret 0 else st_fail e
      | Ok (e, _) => mret (match rpc.Data e with rpc.DataTrustLine _ b => b | _ => 0 end)
      end
  | _ => mret 0
  end.
Definition checkAssetFloor (h : HotAccount) : ST World unit :=
  ks ← st_lift (keys.ReceiveKeys (Asset c) (HAddress h));
  balance ← asset_balance h ks;
  signal (balance <? AssetFloor h) Warning ("hot_asset_low_" +:+ HAddress h).

(** [Watcher.checkHot] *)
Definition check_floor (h : HotAccount) (e : rpc.Entry) : ST World unit :=
  if 0 <? Floor h then
    match rpc.Data e with
    | rpc.DataAccount _ balance _ _ => signal (balance <? Floor h) Warning ("hot_balance_low_" +:+ HAddress h)
    | _ => panics
    end
  else mret tt.
Definition checkHot (h : HotAccount) : ST World unit :=
  key ← st_lift (keys.AccountKey (HAddress h));
  r ← st_try (ask (λ q, rpc.One (Primary E q) key));
  match r with
  | Fail e => if errors_is "rpc: ledger entry missing" e then raise Critical ("hot_account_missing_" +:+ HAddress h) else st_fail e
  | Ok (e, _) =>
      _ ← clear ("hot_account_missing_" +:+ HAddress h);
      _ ← check_floor h e;
      _ ← (if (0 <? AssetFloor h) && negb (String.eqb (Asset c) "native") then checkAssetFloor h else mret tt);
      match Operations E with Some ops => operations ops h | None => mret tt end
  end.

(** [Watcher.CheckHotAccounts]: each account is checked on its own. *)
Fixpoint check_hots (l : list HotAccount) : ST World (list gerr) :=
  match l with
  | [] => mret []
  | h :: l =>
      r ← st_try (checkHot h);
      errs ← check_hots l;
      mret (match r with Ok _ => errs | Fail e => Wrapf e "the %s account: %w" [FStr (HName h)] :: errs end)
  end.
Definition CheckHotAccounts : ST World unit := errs ← check_hots (HotAccounts c); join_errors errs.

(** ** Patterns *)

Definition patternWindow : Z := 7 * secondsPerDay.
Definition funderWindow : Z := 30 * secondsPerDay.

(** [store.funders], [store.setFunders] and [store.forgetFunders] *)
Definition fresh_funders (account : string) (fresh : Z) (r : Rows) : option (list string) :=
  p ← funders r !! account; if fresh <? p.2 then Some p.1 else None.
Definition setFunders (account : string) (l : list string) (at_ : Z) : ST World unit :=
  statement E (λ r, set_funders (<[account := (l, at_)]> (funders r)) r).
Definition forgetFunders (before : Z) : ST World unit :=
  statement E (λ r, set_funders (filter (λ p, before <= p.2.2) (funders r)) r).

(** [Watcher.sources] *)
Definition counts_as_source (f : string) : bool := negb (String.eqb f (Vault c)) && negb (bool_decide (f ∈ IgnoreFunders c)).
Definition sources (address : string) (now : Z) : ST World (gset string) :=
  account ← st_lift (AccountOf address);
  known ← query E (fresh_funders account (now - secondsPerDay));
  l ← match known with
      | Some l => mret l
      | None => l ← ask (λ q, FundersSince E q account (now - funderWindow)); _ ← setFunders account l now; mret l
      end;
  mret ({[account]} ∪ list_to_set (List.filter counts_as_source l)).

Fixpoint with_sources (now : Z) (l : list flow) : ST World (list (flow * gset string)) :=
  match l with
  | [] => mret []
  | f :: l => s ← sources (f_address f) now; rest ← with_sources now l; mret ((f, s) :: rest)
  end.

(** The sources a payout shares with the deposits before it, which come by time. *)
Fixpoint linked (deposits : list (flow * gset string)) (at_ : Z) (s : gset string) : gset string :=
  match deposits with
  | [] => ∅
  | (d, ds) :: deposits => if at_ <=? f_at d then ∅ else (s ∩ ds) ∪ linked deposits at_ s
  end.

(** The payouts of each source, counted and summed. *)
Definition add_trip (amount : Z) (m : gmap string (Z * Z)) (s : string) : gmap string (Z * Z) :=
  let old := default (0, 0) (m !! s) in <[s := (old.1 + 1, old.2 + amount)]> m.
Fixpoint count_trips (deposits : list (flow * gset string)) (now : Z) (payouts : list flow) (m : gmap string (Z * Z))
    : ST World (gmap string (Z * Z)) :=
  match payouts with
  | [] => mret m
  | p :: payouts =>
      ps ← sources (f_address p) now;
      count_trips deposits now payouts (foldl (add_trip (f_amount p)) m (elements (linked deposits (f_at p) ps)))
  end.

(** [Watcher.roundTrips] *)
Definition roundTrips (now : Z) : ST World unit :=
  deposits ← ask (λ q, DepositsSince E q (now - patternWindow));
  payouts ← ask (λ q, PayoutsSince E q (now - patternWindow));
  if bool_decide (deposits = []) || bool_decide (payouts = []) then mret tt
  else
    ds ← with_sources now deposits;
    trips ← count_trips ds now payouts ∅;
    each (λ p : string * (Z * Z), if RoundTrips c <=? p.2.1 then raise Warning ("round_trip_" +:+ p.1) else mret tt)
      (map_to_list trips).

(** [Watcher.earlySaturation] *)
Definition paid_by (m : gmap string Z) (amount : Z) (s : gset string) : gmap string Z :=
  foldl (λ m s, <[s := default 0 (m !! s) + amount]> m) m (elements s).
Definition saturated (l : vault.Limits) (ps : list (flow * gset string)) : bool :=
  let used := foldr (λ p n, f_amount p.1 + n) 0 ps in
  let by_source := foldl (λ m p, paid_by m (f_amount p.1) p.2) ∅ ps in
  (vault.MaxDailyOutflow l * EarlyShare c / 100 <=? used) &&
  existsb (λ p : string * Z, used <=? p.2 * 2) (map_to_list by_source).
Definition earlySaturation (now : Z) : ST World unit :=
  l ← limits;
  let dayStart := now - Z.rem now secondsPerDay in
  match l with
  | None => mret tt
  | Some l =>
      if Z.quot (EarlyWindow c) 1000000000 <? now - dayStart then mret tt
      else
        payouts ← ask (λ q, PayoutsSince E q (dayStart - 1));
        ps ← with_sources now payouts;
        if saturated l ps then raise Warning ("window_saturated_early_" +:+ pretty (Z.quot dayStart secondsPerDay)) else mret tt
  end.

(** [Watcher.CheckPatterns] *)
Definition CheckPatterns : ST World unit :=
  match Operations E with
  | None => mret tt
  | Some _ =>
      '(_, _, now) ← ask (λ q, rpc.GetHealth (Primary E q));
      _ ← forgetFunders (now - patternWindow);
      _ ← roundTrips now;
      earlySaturation now
  end.

(** ** The loop *)

(** One turn of a job of [Run], with its failures in a row. *)
Definition failing_code (name : string) : string := "check_failing_" +:+ name.
Definition job_turn (name : string) (run : ST World unit) (failures : Z) : ST World Z :=
  r ← st_try run;
  match r with
  | Fail _ => _ ← (if 5 <=? failures + 1 then raise Warning (failing_code name) else mret tt); mret (failures + 1)
  | Ok _ => _ ← (if 5 <=? failures then clear (failing_code name) else mret tt); mret 0
  end.

End accounts.
End accounts.
