(* ===== verification/WatcherAttest.v ===== *)
(** What becomes of the watcher's attestation checks: a deposit an attestation covered stays to be judged until
    it has been, whatever the database, the RPC and the order of windows do. *)
From stdpp Require Import pretty.
From S2P Require Import Prelude.
From S2P Require Import Fr.
From S2P Require Import Tree.
From S2P Require Import Xdr.
From S2P Require Import ScVal.
From S2P Require Import VaultState.
From S2P Require Import Events.
From S2P Require Import ChainData.
From S2P Require Import ChainState.
From S2P Require Import Keys.
From S2P Require Import Rpc.
From S2P Require Import Follow.
From S2P Require Import Watcher.

Module attest.

Import watcher.

(** * Specification *)

(** A deposit that the stored check of an attestation still names. *)
Definition owed (m : gmap (Z * Z) (Z * option (list Z))) (k : Z * Z) (id : Z) : Prop :=
  ∃ at_ l, m !! k = Some (at_, Some l) ∧ id ∈ l.

(** Between two worlds the primary RPC answered that a deposit's entry is gone. *)
Definition entry_gone `{sdk : StellarSDK} (E : Env) (c : Config) (id : Z) (w w' : World) : Prop := ∃ n key e,
  (asked w <= n < asked w')%nat ∧ keys.PendingKey (Vault c) id = Ok key ∧ rpc.One (Primary E n) key = Fail e ∧
  errors_is "rpc: ledger entry missing" e = true.

(** The delay a deposit is judged with: the one recorded, which a read of its entry records; or, when none was
    recorded and the entry is gone, the one its amount has today. *)
Definition judged_delay `{sdk : StellarSDK} (E : Env) (c : Config) (i : Inst) (id amount delay : Z) (w w' : World) : Prop :=
  delays (rows w') !! id = Some delay ∨
  delays (rows w) !! id = None ∧ entry_gone E c id w w' ∧ delay = vault.DelayFor amount (IConfig i) (ILimits i).

(** A deposit judged between two worlds, against an instance and the time of its attestation: the records have
    no such deposit; or, by its delay, an attestation that came too early has been paged. *)
Definition judged_at `{sdk : StellarSDK} (E : Env) (c : Config) (i : Inst) (t id : Z) (w w' : World) : Prop := ∃ n,
  (asked w <= n < asked w')%nat ∧
  (DepositRow E n id = Ok None ∨ ∃ amount created delay,
     DepositRow E n id = Ok (Some (amount, created)) ∧ judged_delay E c i id amount delay w w' ∧
     (early t (eligibleAt i amount created delay) = true → Raised Critical (early_code id) ∈ alerted w')).

(** What a step may do to the checks: [T] tells the times an attestation's check is judged at. *)
Record settles `{sdk : StellarSDK} (E : Env) (c : Config) (i : Inst) (T : Z * Z → Z → Prop) (w w' : World) : Prop := mkSettles {
  s_asked : (asked w <= asked w')%nat;
  s_alerted : ∃ l, alerted w' = l ++ alerted w;
  s_inst : inst w' = inst w;
  s_delays : ∀ id d, delays (rows w) !! id = Some d → delays (rows w') !! id = Some d;
  s_owed : ∀ k id, owed (attests (rows w)) k id → owed (attests (rows w')) k id ∨ ∃ t, T k t ∧ judged_at E c i t id w w' }.

(** * Lemmas *)

Lemma judged_wider `{sdk : StellarSDK} E c i t id w0 w w' w1 : judged_at E c i t id w w' →
  (asked w0 <= asked w)%nat → (asked w' <= asked w1)%nat → (∃ l, alerted w1 = l ++ alerted w') →
  (∀ d, delays (rows w0) !! id = Some d → delays (rows w) !! id = Some d) →
  (∀ d, delays (rows w') !! id = Some d → delays (rows w1) !! id = Some d) → judged_at E c i t id w0 w1.
Proof.
  intros (n & Hn & HJ) H0 H1 [l Hl] Hd0 Hd. exists n. split; [lia|].
  destruct HJ as [?|(amount & created & delay & Hr & Hk & He)]; [by left|].
  right. exists amount, created, delay. split; [done|]. split.
  - destruct Hk as [Hk|(Hk & (m & key & e & Hm & Hg) & Hf)]; [left; by apply Hd|right]. split_and!; [|by exists m, key, e; split; [lia|]|done].
    destruct (delays (rows w0) !! id) as [d|] eqn:E0; [|done]. rewrite (Hd0 d eq_refl) in Hk. done.
  - intros Hearly. rewrite Hl. apply elem_of_app. right. by apply He.
Qed.

#[export] Instance settles_preorder `{sdk : StellarSDK} E c i T : PreOrder (settles E c i T).
Proof.
  split.
  - intros w. split; [done|by exists []|done|done|by left].
  - intros w w1 w2 [A1 [l1 L1] I1 D1 O1] [A2 [l2 L2] I2 D2 O2]. split; [lia| | | |].
    + exists (l2 ++ l1). by rewrite L2, L1, app_assoc.
    + by rewrite I2.
    + auto.
    + intros k id [H|(t & Ht & H)]%O1.
      * destruct (O2 k id H) as [?|(t & Ht & Hj)]; [by left|right]. exists t. split; [done|].
        eapply judged_wider; [exact Hj|done|done|by exists []|apply D1|done].
      * right. exists t. split; [done|]. eapply judged_wider; [exact H|done|done|by exists l2|done|]. intros d. apply D2.
Qed.

Section settle.
Context {sdk : StellarSDK} {NH : tree.NodeHash} (E : Env) (c : Config) (i : Inst) (T : Z * Z → Z → Prop).
Abbreviation settle := (settles E c i T).

(** A step that leaves the instance, the delays and the checks alone. *)
Lemma settles_plain (w w' : World) : (asked w <= asked w')%nat → (∃ l, alerted w' = l ++ alerted w) → inst w' = inst w →
  delays (rows w') = delays (rows w) → attests (rows w') = attests (rows w) → settle w w'.
Proof. intros HA HL HI HD HR. split; [done|done|done|by rewrite HD|]. rewrite HR. by left. Qed.

Lemma settles_alert a : moves settle (st_modify (λ w, set_alerted (a :: alerted w) w)).
Proof. intros w. apply settles_plain; [done|by exists [a]|done..]. Qed.

Lemma settles_raise severity code : moves settle (raise severity code).
Proof. apply settles_alert. Qed.
Lemma settles_publish code : moves settle (publish code).
Proof. apply settles_alert. Qed.
Lemma settles_ask {A} (f : nat → res A) : moves settle (ask f).
Proof. intros w. apply settles_plain; [simpl; lia|by exists []|done..]. Qed.
Lemma settles_query {A} (f : Rows → A) : moves settle (query E f).
Proof.
  intros w. unfold query. apply (moves_bind (ask (Access E)) (λ _, w ← st_get; mret (f (rows w))) (settles_ask _)).
  intros ?. apply moves_bind; hush.
Qed.
Hint Resolve settles_raise settles_publish settles_ask settles_query : calm.

Lemma settles_each {A} (f : A → ST World unit) l : (∀ a, moves settle (f a)) → moves settle (each f l).
Proof. intros H. induction l as [|a l IH]; simpl; hush. Qed.

(** A statement that leaves the checks alone and keeps the delays. *)
Lemma settles_statement (f : Rows → Rows) : (∀ r, attests (f r) = attests r) →
  (∀ r id d, delays r !! id = Some d → delays (f r) !! id = Some d) → moves settle (statement E f).
Proof.
  intros HA HD. unfold statement. apply moves_bind; [auto with calm|]. intros _ w. split; [done|by exists []|done|by apply HD|].
  intros k id H. left. simpl. by rewrite HA.
Qed.

Lemma settles_setDelay id d : moves settle (setDelay E id d).
Proof.
  apply settles_statement; [done|]. intros r id' d' H. simpl. destruct (delays r !! id) eqn:E'; [done|].
  rewrite lookup_insert_ne; [done|congruence].
Qed.
Hint Resolve settles_setDelay : calm.

Lemma settles_delayOf id : moves settle (delayOf E c id).
Proof. unfold delayOf. hush. Qed.
Hint Resolve settles_delayOf : calm.

Lemma settles_judge_one t id : moves settle (judge_one E c i t id).
Proof. unfold judge_one. hush. Qed.

(** ** Judging *)

Lemma ask_Ok {A} (f : nat → res A) w w' a : ask f w = (w', Ok a) → f (asked w) = Ok a ∧ w' = set_asked (S (asked w)) w.
Proof. unfold ask. intros [= <- ->]. done. Qed.

Lemma query_Ok {A} (f : Rows → A) w w' a : query E f w = (w', Ok a) → a = f (rows w) ∧ w' = set_asked (S (asked w)) w.
Proof. unfold query, mbind, ST_bind, ask, st_get. destruct (Access E (asked w)); [|done]. by intros [= <- <-]. Qed.

Lemma statement_Ok (f : Rows → Rows) w w' u :
  statement E f w = (w', Ok u) → w' = set_rows (f (rows w)) (set_asked (S (asked w)) w).
Proof. unfold statement, mbind, ST_bind, ask, st_modify. destruct (Access E (asked w)); [|done]. by intros [= <- _]. Qed.

(** The delay found is one the table then has; none is found only where there was none and the entry is gone. *)
Lemma delayOf_known id w w' d : delayOf E c id w = (w', Ok d) →
  match d with Some d => delays (rows w') !! id = Some d | None => delays (rows w) !! id = None ∧ entry_gone E c id w w' end.
Proof.
  unfold delayOf. rewrite st_bind_Ok. intros (d0 & w1 & [Hd0 ->]%query_Ok & H). destruct d0 as [d0|].
  - injection H as <- <-. done.
  - rewrite st_bind_Ok in H. destruct H as (key & w3 & [= <- Hkey] & H). rewrite st_bind_Ok in H.
    destruct H as (r & w4 & Hr & H). unfold st_try, ask in Hr. injection Hr as <- <-.
    destruct (rpc.One _ _) as [[e ?]|e] eqn:Eo.
    + rewrite st_bind_Ok in H. destruct H as (p & w5 & [= <- _] & H). rewrite st_bind_Ok in H.
      destruct H as ([] & w6 & ->%statement_Ok & [= <- <-]). simpl. rewrite <- Hd0. apply lookup_insert_eq.
    + destruct (errors_is _ e) eqn:Ee; [|done]. injection H as <- <-. split; [done|].
      exists (S (asked w)), key, e. split; [simpl; lia|done].
Qed.

Lemma judge_one_judges t id w w' u : judge_one E c i t id w = (w', Ok u) → judged_at E c i t id w w'.
Proof.
  intros H. unfold judge_one in H. rewrite st_bind_Ok in H. destruct H as (row & w1 & Ha & H). apply ask_Ok in Ha as [Hr ->].
  destruct row as [[amount created]|].
  - rewrite st_bind_Ok in H. destruct H as (known & w2 & Hd & H).
    pose proof (settles_delayOf id (set_asked (S (asked w)) w)) as S2. rewrite Hd in S2. cbn [fst] in S2.
    set (delay := match known with Some d => d | None => _ end) in H.
    assert (asked w2 <= asked w')%nat as A3 by (destruct (early _ _); by injection H as <-).
    exists (asked w). split; [pose proof (s_asked _ _ _ _ _ _ S2); simpl in *; lia|]. right. exists amount, created, delay.
    split; [done|]. split.
    + apply delayOf_known in Hd. destruct known as [d|]; [left; by destruct (early _ _); injection H as <-|right].
      destruct Hd as [Hn (m & key & e & Hm & Hg)]. split; [exact Hn|]. split; [|done]. exists m, key, e.
      split; [simpl in Hm; lia|done].
    + intros He. rewrite He in H. injection H as <-. left.
  - injection H as <-. exists (asked w). split; [simpl; lia|]. by left.
Qed.

Lemma judge_all_judges t ids w w' u : each (judge_one E c i t) ids w = (w', Ok u) → ∀ id, id ∈ ids → judged_at E c i t id w w'.
Proof.
  revert w u. induction ids as [|x ids IH]; intros w u H id Hin; [by apply elem_of_nil in Hin|].
  simpl in H. rewrite st_bind_Ok in H. destruct H as ([] & w1 & H1 & H).
  pose proof (settles_judge_one t x w) as S1. rewrite H1 in S1. cbn [fst] in S1.
  pose proof (settles_each (judge_one E c i t) ids (settles_judge_one t) w1) as S2. rewrite H in S2. cbn [fst] in S2.
  apply elem_of_cons in Hin as [->|Hin].
  - eapply judged_wider; [by eapply judge_one_judges|done|apply S2|apply S2|done|apply S2].
  - eapply judged_wider; [by eapply IH|apply S1|done|by exists []|apply S1|done].
Qed.

Lemma elem_of_without old l id : id ∈ without old l ↔ id ∈ old ∧ id ∉ l.
Proof.
  unfold without. rewrite merge_sort_Permutation, elem_of_remove_dups, list_elem_of_filter. tauto.
Qed.

Lemma drop_check_owed k m k' id : owed m k' id → owed (drop_check k m) k' id ∨ k' = (upTo k, ledger k) ∧ id ∈ covered k.
Proof.
  intros (at_ & l & Hm & Hid). unfold drop_check. destruct (decide (k' = (upTo k, ledger k))) as [->|Hne].
  - rewrite Hm. simpl. destruct (decide (id ∈ covered k)) as [?|Hn]; [by right|left].
    assert (id ∈ without l (covered k)) as Hw by by apply elem_of_without.
    destruct (without l (covered k)) as [|x rest] eqn:Ew; [by apply elem_of_nil in Hw|].
    exists at_, (x :: rest). by rewrite lookup_insert_eq.
  - left. destruct (m !! (upTo k, ledger k)) as [[a o]|]; [|by exists at_, l].
    destruct (without _ _); [|].
    + exists at_, l. by rewrite lookup_delete_ne.
    + exists at_, l. by rewrite lookup_insert_ne.
Qed.

Lemma settles_judgeAttestation k w : inst w = Some i → T (upTo k, ledger k) (c_closedAt k) →
  settle w (judgeAttestation E c k w).1.
Proof.
  intros Hi HT. unfold judgeAttestation. unfold mbind at 1, ST_bind at 1, st_get. rewrite Hi.
  unfold mbind, ST_bind. pose proof (settles_each _ (covered k) (settles_judge_one (c_closedAt k)) w) as S1.
  destruct (each _ (covered k) w) as [w1 [[]|e]] eqn:E1; [|exact S1]. cbn [fst] in S1.
  pose proof (judge_all_judges _ _ _ _ _ E1) as HJ. unfold dropAttestCheck, statement, mbind, ST_bind, ask.
  destruct (Access E (asked w1)) as [[]|e].
  - destruct S1 as [A1 L1 I1 D1 O1]. split; [simpl in *; lia|done|done|done|].
    intros k' id [H|(t & Ht & H)]%O1.
    + destruct (drop_check_owed k _ k' id H) as [?|[-> Hid]]; [by left|right]. exists (c_closedAt k). split; [done|].
      eapply judged_wider; [by apply HJ|done|simpl; lia|by exists []|done|done].
    + right. exists t. split; [done|]. eapply judged_wider; [exact H|done|simpl; lia|by exists []|done|done].
  - etransitivity; [exact S1|]. apply settles_plain; [simpl; lia|by exists []|done..].
Qed.

Lemma settles_checks l w : inst w = Some i → (∀ k, k ∈ l → T (upTo k, ledger k) (c_closedAt k)) →
  settle w (judge_checks E c l w).1.
Proof.
  revert w. induction l as [|k l IH]; intros w Hi HT; simpl; [reflexivity|].
  assert (S1 : settle w (judgeAttestation E c k w).1) by (apply settles_judgeAttestation; [done|apply HT; by left]).
  unfold st_try, mbind, ST_bind. destruct (judgeAttestation E c k w) as [w1 r] eqn:E1. cbn [fst] in S1.
  assert (S2 : settle w1 (judge_checks E c l w1).1).
  { apply IH; [by rewrite (s_inst _ _ _ _ _ _ S1)|]. intros k' Hk'. apply HT. by right. }
  destruct (judge_checks E c l w1) as [w2 [errs|e]]; cbn [fst] in *; by etransitivity.
Qed.

Lemma settles_panics {A} : moves settle (panics : ST World A).
Proof. unfold panics. hush. Qed.
Hint Resolve settles_panics : calm.

Lemma settles_report n : moves settle (report n).
Proof. unfold report. hush. Qed.

Lemma settles_notices l close w : inst w = Some i →
  (∀ n k, n ∈ l → judged n = Some k → T (upTo k, ledger k) (c_closedAt k)) → settle w (notices E c l close w).1.
Proof.
  unfold notices. revert w. induction l as [|n l IH]; intros w Hi HT; simpl; [reflexivity|].
  assert (S1 : settle w (notice_one E c close n w).1).
  { unfold notice_one. destruct (_ <? _); [reflexivity|]. apply moves_bind_at; [apply settles_report|]. intros [] w1 H1.
    pose proof (settles_report n w) as S0. rewrite H1 in S0. cbn [fst] in S0. destruct (judged n) as [k|] eqn:Ej; [|reflexivity].
    apply moves_bind_at; [|reflexivity]. unfold st_try.
    assert (S2 : settle w1 (judgeAttestation E c k w1).1).
    { apply settles_judgeAttestation; [by rewrite (s_inst _ _ _ _ _ _ S0)|apply (HT n); [by left|done]]. }
    by destruct (judgeAttestation E c k w1). }
  apply moves_bind_at; [exact S1|]. intros [] w1 H1. rewrite H1 in S1. cbn [fst] in S1.
  apply IH; [by rewrite (s_inst _ _ _ _ _ _ S1)|]. intros n' k Hn'. apply HT. by right.
Qed.

Lemma settles_activityChecks b s d : moves settle (activityChecks E c b s d).
Proof.
  unfold activityChecks, limits, spike, transacts, burst. hush; try (apply settles_each; intros p; unfold large_unshield; hush).
Qed.

(** ** A window *)

Lemma settles_loadInstance w : inst w = Some i → settle w (loadInstance E c w).1.
Proof. intros Hi. unfold loadInstance, mbind, ST_bind, st_get. rewrite Hi. reflexivity. Qed.

Lemma settles_checkTransfers b d : moves settle (checkTransfers E c b d).
Proof. unfold checkTransfers. hush. Qed.

Lemma settles_hot_groups b contract sender groups : moves settle (hot_groups E b contract sender groups).
Proof.
  induction groups as [|g groups IH]; simpl; hush. apply settles_each. intros e. unfold hot_event. hush.
Qed.
Hint Resolve settles_hot_groups : calm.
Lemma settles_checkHotTransfers b : moves settle (checkHotTransfers E c b).
Proof.
  unfold checkHotTransfers. apply moves_bind; [hush|]. intros w. generalize (∅ : gmap string HotAccount). generalize (watched c w).
  intros l. induction l as [|[contract burns] l IH]; intros sender; simpl; hush.
Qed.

Lemma elem_of_merged old new id : id ∈ merged old new ↔ id ∈ old ∨ id ∈ new.
Proof. unfold merged. by rewrite merge_sort_Permutation, elem_of_remove_dups, elem_of_app. Qed.

Lemma add_check_owed k m k' id : owed m k' id → owed (add_check k m) k' id.
Proof.
  intros (at_ & l & Hm & Hid). unfold add_check. destruct (decide (k' = (upTo k, ledger k))) as [->|Hne].
  - rewrite Hm. exists at_, (merged l (covered k)). rewrite lookup_insert_eq. split; [done|]. apply elem_of_merged. by left.
  - exists at_, l. by rewrite lookup_insert_ne.
Qed.

Lemma add_check_adds k m id : id ∈ covered k → owed (add_check k m) (upTo k, ledger k) id.
Proof.
  intros Hid. unfold add_check. destruct (m !! _) as [[at_ old]|]; eexists _, _; rewrite lookup_insert_eq; [|done].
  split; [done|]. apply elem_of_merged. by right.
Qed.

Lemma settles_addAttestCheck k : moves settle (addAttestCheck E k).
Proof.
  unfold addAttestCheck, statement. apply moves_bind; [apply settles_ask|]. intros _ w. split; [done|by exists []|done|done|].
  intros k' id H. left. simpl. by apply add_check_owed.
Qed.

Lemma settles_record b d : moves settle (record E b d).
Proof.
  unfold record, recordActivity_of. apply moves_bind; intros; apply settles_each; intros k; [|apply settles_addAttestCheck].
  by apply settles_statement.
Qed.

Lemma add_all_owed l w w' u : each (addAttestCheck E) l w = (w', Ok u) →
  (∀ k id, owed (attests (rows w)) k id → owed (attests (rows w')) k id) ∧
  ∀ k id, k ∈ l → id ∈ covered k → owed (attests (rows w')) (upTo k, ledger k) id.
Proof.
  revert w u. induction l as [|x l IH]; intros w u H; simpl in H.
  - injection H as <- _. split; [done|]. by intros k id Hk%elem_of_nil.
  - rewrite st_bind_Ok in H. destruct H as ([] & w1 & H1%statement_Ok & H). apply IH in H as [K A]. split.
    + intros k id Ho. apply K. rewrite H1. simpl. by apply add_check_owed.
    + intros k id [->|Hk]%elem_of_cons Hid; [|by apply A]. apply K. rewrite H1. simpl. by apply add_check_adds.
Qed.

Lemma record_owed b d w w' u : record E b d w = (w', Ok u) → ∀ n k id, n ∈ chaindata.Notices d →
  recent_check (follow.LatestCloseTime b) n = Some k → id ∈ covered k → owed (attests (rows w')) (upTo k, ledger k) id.
Proof.
  unfold record. rewrite st_bind_Ok. intros ([] & w1 & _ & H) n k id Hn Hk Hid. apply add_all_owed in H as [_ H].
  apply H; [|done]. apply list_elem_of_omap. by exists n.
Qed.

(** A transaction that is undone. *)
Lemma settles_undone w w1 : settle w w1 → settle w (set_rows (rows w) w1).
Proof. intros [A L I D O]. by apply settles_plain. Qed.

Lemma settles_commit b d : moves settle (commit E b d).
Proof.
  intros w. unfold commit, mbind, ST_bind, st_get, ask, st_try. pose proof (settles_record b d (set_asked (S (asked w)) w)) as S1.
  assert (S0 : settle w (set_asked (S (asked w)) w)) by (apply settles_plain; [simpl; lia|by exists []|done..]).
  destruct (Commit E (asked w)) as [e| |e stands]; [exact S0|..];
    destruct (record E b d _) as [w1 [[]|e']]; cbn [fst] in S1; assert (S2 : settle w w1) by (by etransitivity); try exact S2.
  - by apply settles_undone.
  - destruct stands; [exact S2|by apply settles_undone].
  - by apply settles_undone.
Qed.

Lemma commit_owed b d w w' u : commit E b d w = (w', Ok u) → ∀ n k id, n ∈ chaindata.Notices d →
  recent_check (follow.LatestCloseTime b) n = Some k → id ∈ covered k → owed (attests (rows w')) (upTo k, ledger k) id.
Proof.
  unfold commit, mbind, ST_bind, st_get, ask, st_try. destruct (Commit E (asked w)) as [e| |e stands]; [done|..];
    destruct (record E b d _) as [w1 [[]|e']] eqn:E1; try done.
  - intros [= <- _]. by eapply record_owed.
  - by destruct stands.
Qed.

Lemma keepRoot_frame r w : asked (keepRoot r w) = asked w ∧ alerted (keepRoot r w) = alerted w ∧
  inst (keepRoot r w) = inst w ∧ rows (keepRoot r w) = rows w.
Proof.
  unfold keepRoot. destruct (roots w !! _); [done|]. destruct (_ <? _)%nat; [|done]. by destruct (rootOrder w ++ _).
Qed.

Lemma remember_frame b next d w : asked (remember b next d w) = asked w ∧ alerted (remember b next d w) = alerted w ∧
  inst (remember b next d w) = inst w ∧ rows (remember b next d w) = rows w.
Proof.
  unfold remember. set (w1 := set_latest _ _). change (asked w) with (asked w1). change (alerted w) with (alerted w1).
  change (inst w) with (inst w1). change (rows w) with (rows w1). clearbody w1.
  enough (H : ∀ l w1, let w2 := foldl (λ w r, keepRoot r w) w1 l in
    asked w2 = asked w1 ∧ alerted w2 = alerted w1 ∧ inst w2 = inst w1 ∧ rows w2 = rows w1).
  { specialize (H (chaindata.Roots d) w1). by destruct (follow.Latest b <=? _). }
  clear. intros l. induction l as [|r l IH]; intros w; [done|]. simpl. destruct (IH (keepRoot r w)) as (-> & -> & -> & ->).
  apply keepRoot_frame.
Qed.

Lemma settles_remember b next d : moves settle (st_modify (remember b next d)).
Proof.
  intros w. simpl. destruct (remember_frame b next d w) as (HA & HL & HI & HR).
  apply settles_plain; [by rewrite HA|exists []; by rewrite HL|done|by rewrite HR..].
Qed.

(** ** The steps after the instance is there *)

Definition close_times (d : chaindata.Delta) (k : Z * Z) (t : Z) : Prop :=
  ∃ n x, n ∈ chaindata.Notices d ∧ judged n = Some x ∧ k = (upTo x, ledger x) ∧ t = c_closedAt x.

(** The steps once the window is stored. *)
Definition reported (b : follow.Batch) (next : chaindata.State) (d : chaindata.Delta) : ST World unit :=
  _ ← st_modify (remember b next d);
  _ ← notices E c (chaindata.Notices d) (follow.LatestCloseTime b);
  if follow.Latest b <=? u32 (follow.To b + tipLedgers) then activityChecks E c b next d else mret tt.

Lemma settles_reported b next d w : inst w = Some i → (∀ k t, close_times d k t → T k t) → settle w (reported b next d w).1.
Proof.
  intros Hi HT. apply moves_bind_at; [apply settles_remember|]. intros [] w4 [= <-]. apply moves_bind_at.
  - apply settles_notices; [by destruct (remember_frame b next d w) as (_ & _ & -> & _)|]. intros n k Hn Hk.
    apply HT. by exists n, k.
  - intros [] w5 _. destruct (_ <=? _); [apply settles_activityChecks|reflexivity].
Qed.

(** A window stored and reported: the checks are there in between. *)
Definition stored_window (b : follow.Batch) (next : chaindata.State) (d : chaindata.Delta) : ST World unit :=
  _ ← checkTransfers E c b d; _ ← checkHotTransfers E c b; r ← st_try (commit E b d);
  match r with
  | Fail e =>
      if errors_is "chainstate: events contradict the vault" e then _ ← raise Critical "invariant"; st_fail (fault e)
      else st_fail e
  | Ok _ => reported b next d
  end.

Lemma settles_window b next d w : inst w = Some i → (∀ k t, close_times d k t → T k t) →
  let '(w', r) := stored_window b next d w in
  settle w w' ∧
  (r = Ok tt → ∃ w1, settle w w1 ∧ settle w1 w' ∧ ∀ n k id, n ∈ chaindata.Notices d →
     recent_check (follow.LatestCloseTime b) n = Some k → id ∈ covered k → owed (attests (rows w1)) (upTo k, ledger k) id).
Proof.
  intros Hi HT. unfold stored_window, mbind, ST_bind, st_try. pose proof (settles_checkTransfers b d w) as S1.
  destruct (checkTransfers E c b d w) as [w1 [[]|e]]; cbn [fst] in S1; [|done].
  pose proof (settles_checkHotTransfers b w1) as S2.
  destruct (checkHotTransfers E c b w1) as [w2 [[]|e]]; cbn [fst] in S2; assert (S12 : settle w w2) by (by etransitivity); [|done].
  pose proof (settles_commit b d w2) as S3. destruct (commit E b d w2) as [w3 [[]|e]] eqn:E3; cbn [fst] in S3;
    assert (S13 : settle w w3) by (by etransitivity).
  - assert (S4 : settle w3 (reported b next d w3).1).
    { apply settles_reported; [|done]. by rewrite (s_inst _ _ _ _ _ _ S13). }
    destruct (reported b next d w3) as [w4 r]. cbn [fst] in S4. split; [by etransitivity|]. intros _. exists w3. split; [done|].
    split; [done|]. by eapply commit_owed.
  - pose proof (settles_raise Critical "invariant" w3). destruct (errors_is _ e); cbn; [|done]. split; [by etransitivity|done].
Qed.

Lemma load_frame w : let '(w1, r) := loadInstance E c w in
  (asked w <= asked w1)%nat ∧ alerted w1 = alerted w ∧ rows w1 = rows w ∧ (r = Ok tt → is_Some (inst w1)).
Proof.
  unfold loadInstance, readInstance, mbind, ST_bind, st_get, ask, st_lift. destruct (inst w) eqn:Ei; [simpl; rewrite Ei; eauto with lia|].
  destruct (rpc.VaultInstance _ _) as [[v ?]|]; [destruct (complete v)|]; (split_and!; [simpl; lia|done|done|]); [|done..].
  intros _. by eexists.
Qed.

Lemma stored_checks_rows m k : k ∈ stored_checks m → ∃ cov, m !! (upTo k, ledger k) = Some (c_closedAt k, cov).
Proof.
  unfold stored_checks. rewrite merge_sort_Permutation. rewrite list_elem_of_fmap.
  intros ([[u l] [t cov]] & -> & Hin%elem_of_map_to_list). by exists cov.
Qed.

Lemma judge_checks_none l w : inst w = None → (judge_checks E c l w).1 = w.
Proof.
  intros Hi. induction l as [|k l IH]; [done|]. simpl. unfold st_try, judgeAttestation, mbind, ST_bind, st_get.
  rewrite Hi. simpl. by destruct (judge_checks E c l w) as [w1 [errs|e]].
Qed.
End settle.

(** * Properties *)

(** C7: An attestation is never left unjudged: whatever fails, of the database, the RPC or the window's commit, a
    deposit that a stored check names is after [Apply] and after [RetryAttestations] still named by it, or its
    record was read meanwhile and, where its attestation came more than ten minutes and the slack before it could
    be admitted, that was paged. And a window that is applied leaves each deposit of each attestation and unflag
    of the last day so: named by a check or judged at the time of its notice. *)
Theorem attest_checks_leave_judged {sdk : StellarSDK} {NH : tree.NodeHash} (E : Env) (c : Config) (b : follow.Batch) (w : World) :
  (∀ k id, owed (attests (rows w)) k id → let w' := (RetryAttestations E c w).1 in
     owed (attests (rows w')) k id ∨
     ∃ i t cov, inst w = Some i ∧ attests (rows w) !! k = Some (t, cov) ∧ judged_at E c i t id w w') ∧
  (∀ next d, chainstate.Apply (follow.Txs b) (state w) = (next, Ok d) → let '(w', r) := Apply E c b w in
     (∀ k id, owed (attests (rows w)) k id → owed (attests (rows w')) k id ∨
        ∃ i t, inst w' = Some i ∧ close_times d k t ∧ judged_at E c i t id w w') ∧
     (r = Ok tt → ∀ n k id, n ∈ chaindata.Notices d → recent_check (follow.LatestCloseTime b) n = Some k → id ∈ covered k →
        owed (attests (rows w')) (upTo k, ledger k) id ∨
        ∃ i t, inst w' = Some i ∧ close_times d (upTo k, ledger k) t ∧ judged_at E c i t id w w')).
Proof.
  split.
  - intros k id Ho. unfold RetryAttestations, attestChecks. unfold mbind, ST_bind.
    destruct (query E _ w) as [w1 r] eqn:Eq. destruct r as [l|e].
    2:{ left. unfold query, mbind, ST_bind, ask in Eq. destruct (Access E (asked w)); by injection Eq as <-. }
    apply query_Ok in Eq as [-> ->]. destruct (inst w) as [i|] eqn:Ei.
    + set (T := λ k t, ∃ cov, attests (rows w) !! k = Some (t, cov)). set (w1 := set_asked _ w).
      assert (S1 : settles E c i T w1 (judge_checks E c (stored_checks (attests (rows w))) w1).1).
      { apply settles_checks; [done|]. intros k' Hk'. by apply stored_checks_rows. }
      destruct (judge_checks E c _ w1) as [w2 [errs|e]]; cbn [fst] in *.
      * replace (join_errors errs w2).1 with w2 by (by destruct errs).
        destruct (s_owed _ _ _ _ _ _ S1 k id Ho) as [?|(t & [cov Ht] & Hj)]; [by left|right]. exists i, t, cov. split; [done|].
        split; [done|]. eapply judged_wider; [exact Hj|simpl; lia|done|by exists []|done|done].
      * destruct (s_owed _ _ _ _ _ _ S1 k id Ho) as [?|(t & [cov Ht] & Hj)]; [by left|right]. exists i, t, cov. split; [done|].
        split; [done|]. eapply judged_wider; [exact Hj|simpl; lia|done|by exists []|done|done].
    + left. set (w1 := set_asked _ w). pose proof (judge_checks_none E c (stored_checks (attests (rows w))) w1 Ei) as H1.
      destruct (judge_checks E c _ w1) as [w2 [errs|e]]; cbn [fst] in *; subst w2; [|done]. by destruct errs.
  - intros next d Happly. unfold Apply. unfold mbind at 1, ST_bind at 1, st_get. rewrite Happly.
    pose proof (load_frame E c w) as HL. unfold mbind at 1, ST_bind at 1. destruct (loadInstance E c w) as [w1 r1].
    destruct HL as (HA & HAl & HR & HI). destruct r1 as [[]|e].
    2:{ split; [intros k id; rewrite HR; by left|done]. }
    destruct (HI eq_refl) as [i Hi]. fold (reported E c b next d). fold (stored_window E c b next d).
    pose proof (settles_window E c i (close_times d) b next d w1 Hi (λ _ _ H, H)) as SW.
    destruct (stored_window E c b next d w1) as [w' r]. destruct SW as [S1 SO].
    assert (HI' : inst w' = Some i) by (by rewrite (s_inst _ _ _ _ _ _ S1)). split.
    + intros k id Ho. rewrite <- HR in Ho. destruct (s_owed _ _ _ _ _ _ S1 k id Ho) as [?|(t & Ht & Hj)]; [by left|right].
      exists i, t. split; [done|]. split; [done|]. eapply judged_wider; [exact Hj|done|done|by exists []|by rewrite HR|done].
    + intros ->. destruct (SO eq_refl) as (w2 & S2 & S3 & HO). intros n k id Hn Hk Hid.
      destruct (s_owed _ _ _ _ _ _ S3 _ _ (HO n k id Hn Hk Hid)) as [?|(t & Ht & Hj)]; [by left|right].
      exists i, t. split; [done|]. split; [done|]. pose proof (s_asked _ _ _ _ _ _ S2).
      eapply judged_wider; [exact Hj|lia|done|by exists []| |done]. intros d0 Hd0. apply (s_delays _ _ _ _ _ _ S2). by rewrite HR.
Qed.

(** ** A run: an attestation an hour early is judged and its check goes *)

Module demo.

Definition limits : vault.Limits := vault.mkLimits 1 1000 5000 100000 10000 10 500.
Definition inst0 : Inst :=
  mkInst (vault.mkConfig "T" fr.zero "G" "A" 3600 7200) limits (vault.mkStatus false false 0 0 8 0 0 0 0 1 1 0 0) [1].
Definition down {A} : res A := Fail (Sentinel "down").
Definition env : Env :=
  mkEnv (λ _, rpc.mkClient down (λ _, down)) (λ _, rpc.mkClient down (λ _, down)) (λ _ _ _ _ _, Ok []) (λ _ _ _, Ok [])
    (λ _, Done) (λ _, Ok tt) (λ _ id, Ok (if id =? 7 then Some (400, 1000) else None)) (λ _ _, Ok 0) (λ _ _, Ok []) (λ _ _, Ok [])
    (λ _ _, Ok []) (λ _ _ _, Ok tt) (λ _, 0) (λ _, false) None None (λ _ _ _, down) (λ _ _, (true, None)) None (λ _, ""%string)
    (λ _, None) 17.
Definition config : Config :=
  mkConfig "V" [] [] "" "native" [] (SpecFloat.S754_zero false) 10 5 0 3 ∅ 0 50 true.
Definition checks : gmap (Z * Z) (Z * option (list Z)) := {[ (8, 100) := (1200, Some [7; 8]) ]}.
Definition world : World :=
  set_inst (Some inst0) (New (NH := λ a _, a) chaindata.New 100 (mkRows ∅ {[ 7 := 3600 ]} ∅ ∅ checks)).
Definition after : World := (RetryAttestations (sdk := example.sdk_keys [] (λ _, None) (λ _, None)) env config world).1.

Example after_checks : attests (rows after) = ∅ ∧ alerted after = [Raised Critical "early_attestation_7"].
Proof. split; vm_compute; reflexivity. Qed.
End demo.

Lemma attest_checks_witness : owed (attests (rows demo.world)) (8, 100) 7 ∧
  (∃ i t cov, inst demo.world = Some i ∧ attests (rows demo.world) !! (8, 100) = Some (t, cov) ∧
     judged_at (sdk := example.sdk_keys [] (λ _, None) (λ _, None)) demo.env demo.config i t 7 demo.world demo.after).
Proof.
  assert (Ho : owed (attests (rows demo.world)) (8, 100) 7).
  { exists 1200, [7; 8]. split; [reflexivity|]. apply elem_of_cons. by left. }
  split; [exact Ho|].
  destruct (proj1 (attest_checks_leave_judged (sdk := example.sdk_keys [] (λ _, None) (λ _, None)) (NH := λ a _, a)
    demo.env demo.config (follow.mkBatch 0 0 [] [] 0 0) demo.world) (8, 100) 7 Ho) as [H|H]; [|exact H].
  exfalso. fold demo.after in H. rewrite (proj1 demo.after_checks) in H. destruct H as (? & ? & H & _). discriminate H.
Defined.

End attest.
