(* ===== verification/WatcherReplay.v ===== *)
(** What the watcher holds after any run of its operations: the replay of exactly the windows it took, with
    snapshots and roots of that replay, within the bounds of its memory. *)
From stdpp Require Import pretty.
From S2P Require Import Prelude.
From S2P Require Import Fr.
From S2P Require Import Tree.
From S2P Require Import Xdr.
From S2P Require Import ScVal.
From S2P Require Import VaultState.
From S2P Require Import Events.
From S2P Require Import ChainData.
From S2P Require Import ChainState.
From S2P Require Import Rpc.
From S2P Require Import Follow.
From S2P Require Import Watcher.
From S2P Require Import WatcherChecks.
From S2P Require Import WatcherAccounts.

Module replayed.

Import watcher checks accounts.

(** * Specification *)

Section spec.
Context {sdk : StellarSDK} {NH : tree.NodeHash} (E : Env) (c : Config).

(** The operations of the watcher: the sink's, and the jobs of [Run]. *)
Inductive Op : Type :=
| OApply (b : follow.Batch) | OFault (e : gerr) | OReconcile | OBeat | OIndexer | OHealth | OAdmissions | OAttestations
| OExitQueue | OHotAccounts | OGovernance | OFreezes | OPatterns | OTTL | OStateSize.

Definition perform (o : Op) : ST World unit :=
  match o with
  | OApply b => Apply E c b
  | OFault e => Fault e
  | OReconcile => Reconcile E c
  | OBeat => reconcileAndBeat E c
  | OIndexer => CheckIndexer E
  | OHealth => CheckHealth E c
  | OAdmissions => CheckAdmissions E c
  | OAttestations => RetryAttestations E c
  | OExitQueue => CheckExitQueue E c
  | OHotAccounts => CheckHotAccounts E c
  | OGovernance => CheckGovernanceAccounts E
  | OFreezes => CheckFreezes E c
  | OPatterns => CheckPatterns E c
  | OTTL => CheckTTL E c
  | OStateSize => CheckStateSize E c
  end.
Fixpoint perform_all (l : list Op) (w : World) : World :=
  match l with [] => w | o :: l => perform_all l (perform o w).1 end.

(** The replay of windows one after the other, with where it is and the roots it met. *)
Record Replay : Type := mkReplay { at_state : chaindata.State; at_cursor : Z; met : list chaindata.RootAt }.
Definition replay_one (r : Replay) (b : follow.Batch) : option Replay :=
  match chainstate.Apply (follow.Txs b) (at_state r) with
  | (next, Ok d) => Some (mkReplay next (follow.To b) (met r ++ chaindata.Roots d))
  | (_, Fail _) => None
  end.
Fixpoint replay (l : list follow.Batch) (r : Replay) : option Replay :=
  match l with [] => Some r | b :: l => r ← replay_one r b; replay l r end.
Definition start (s : chaindata.State) (cursor : Z) : Replay :=
  mkReplay s cursor [chaindata.mkRootAt (tree.Len (chaindata.Tree s)) (tree.Root (chaindata.Tree s))].

(** The windows a run was given. *)
Definition given (l : list Op) : list follow.Batch := omap (λ o, match o with OApply b => Some b | _ => None end) l.

(** The bounds of the watcher's memory. *)
Record bounded (w : World) : Prop := mkBounded {
  b_order : rootOrder w ≡ₚ (map_to_list (roots w)).*1;
  b_roots : (length (rootOrder w) <= rootHistory)%nat;
  b_snapshots : (length (snapshots w) <= snapshotHistory)%nat;
  b_reads : (length (reads w) <= readHistory)%nat;
  b_pending : (length (pendingCross w) <= pendingHistory)%nat }.

(** A world that holds the replay of some windows. *)
Record holds (s0 : chaindata.State) (cursor0 : Z) (taken : list follow.Batch) (w : World) : Prop := mkHolds {
  h_replay : ∃ ms, replay taken (start s0 cursor0) = Some (mkReplay (state w) (cursor w) ms) ∧
    ∀ k r, roots w !! k = Some r → chaindata.mkRootAt k r ∈ ms;
  h_snapshots : Forall (λ s, ∃ l r, l `prefix_of` taken ∧ replay l (start s0 cursor0) = Some r ∧
    s = snapshotOf (at_cursor r) (at_state r)) (snapshots w);
  h_newest : last (snapshots w) = Some (snapshotOf (cursor w) (state w));
  h_cross : Forall (λ b, b ∈ taken) (pendingCross w) }.

End spec.

(** What an operation other than [Apply] leaves of it. *)
Record still (w w' : World) : Prop := mkStill {
  t_state : state w' = state w; t_cursor : cursor w' = cursor w; t_roots : roots w' = roots w;
  t_order : rootOrder w' = rootOrder w; t_snapshots : snapshots w' = snapshots w;
  t_reads : (length (reads w) <= readHistory)%nat → (length (reads w') <= readHistory)%nat;
  t_pending : pendingCross w' = pendingCross w }.

(** ...and what a reconciliation does, which takes windows off those to cross-check. *)
Record loosely (w w' : World) : Prop := mkLoosely {
  l_length : (length (pendingCross w') <= length (pendingCross w))%nat;
  l_cross : pendingCross w' ⊆ pendingCross w;
  l_still : still w (set_pendingCross (pendingCross w) w') }.

(** * Lemmas *)

#[export] Instance still_preorder : PreOrder still.
Proof.
  split; [by intros w; split|]. intros w w1 w2 [A1 B1 C1 D1 E1 F1 G1] [A2 B2 C2 D2 E2 F2 G2].
  split; [congruence..|auto|congruence].
Qed.

#[export] Instance loosely_preorder : PreOrder loosely.
Proof.
  split; [by intros w; split; [| |by split]|].
  intros w w1 w2 [L1 S1 [A1 B1 C1 D1 E1 F1 G1]] [L2 S2 [A2 B2 C2 D2 E2 F2 G2]]. cbn in *.
  split; [lia|by etransitivity|]. split; cbn; [congruence..|auto|done].
Qed.

Lemma still_loosely w w' : still w w' → loosely w w'.
Proof. intros [A B C D E F G]. split; [by rewrite G|by rewrite G|by split]. Qed.
Lemma moves_loosely {A} (m : ST World A) : moves still m → moves loosely m.
Proof. intros H w. apply still_loosely, H. Qed.

Section still.
Context {sdk : StellarSDK} {NH : tree.NodeHash} (E : Env) (c : Config).

Lemma still_raise severity code : moves still (raise severity code).
Proof. by intros w. Qed.
Lemma still_publish code : moves still (publish code).
Proof. by intros w. Qed.
Lemma still_clear code : moves still (clear code).
Proof. by intros w. Qed.
Lemma still_ask {A} (f : nat → res A) : moves still (ask f).
Proof. by intros w. Qed.
Lemma still_statement f : moves still (statement E f).
Proof. unfold statement. apply moves_bind; [apply still_ask|by intros _ w]. Qed.
Lemma still_set_inst i : moves still (st_modify (set_inst i)).
Proof. by intros w. Qed.
Lemma still_panics {A} : moves still (panics : ST World A).
Proof. by intros w. Qed.
Hint Resolve still_raise still_publish still_clear still_ask still_statement still_set_inst still_panics : calm.
Lemma still_query {A} (f : Rows → A) : moves still (query E f).
Proof. unfold query. hush. Qed.
Lemma still_signal b severity code : moves still (signal b severity code).
Proof. unfold signal. hush. Qed.
Lemma still_each {A} (f : A → ST World unit) l : (∀ a, moves still (f a)) → moves still (each f l).
Proof. intros H. induction l as [|a l IH]; simpl; hush. Qed.
Hint Resolve still_query still_signal still_each : calm.

(** ** The sink's checks *)

Lemma still_setDelay id d : moves still (setDelay E id d).
Proof. apply still_statement. Qed.
Hint Resolve still_setDelay : calm.
Lemma still_delayOf id : moves still (delayOf E c id).
Proof. unfold delayOf. hush. Qed.
Hint Resolve still_delayOf : calm.
Lemma still_judgeAttestation k : moves still (judgeAttestation E c k).
Proof.
  unfold judgeAttestation, dropAttestCheck. hush. apply still_each. intros id. unfold judge_one. hush.
Qed.
Hint Resolve still_judgeAttestation : calm.
Lemma still_judge_checks l : moves still (judge_checks E c l).
Proof. induction l as [|k l IH]; simpl; hush. Qed.
Lemma still_join errs : moves still (join_errors errs).
Proof. unfold join_errors. hush. Qed.
Hint Resolve still_judge_checks still_join : calm.
Lemma still_RetryAttestations : moves still (RetryAttestations E c).
Proof. unfold RetryAttestations, attestChecks. hush. Qed.
Lemma still_notices l close : moves still (notices E c l close).
Proof. apply still_each. intros n. unfold notice_one, report. hush. Qed.
Lemma still_activityChecks b s d : moves still (activityChecks E c b s d).
Proof. unfold activityChecks, limits, spike, transacts, burst. hush; apply still_each; intros p; unfold large_unshield; hush. Qed.
Lemma still_readInstance : moves still (readInstance E c).
Proof. unfold readInstance. hush. Qed.
Hint Resolve still_readInstance : calm.
Lemma still_loadInstance : moves still (loadInstance E c).
Proof. unfold loadInstance. hush. Qed.
Lemma still_checkTransfers b d : moves still (checkTransfers E c b d).
Proof. unfold checkTransfers. hush. Qed.
Lemma still_hot_groups b contract sender groups : moves still (hot_groups E b contract sender groups).
Proof. induction groups as [|g groups IH]; simpl; hush. apply still_each. intros e. unfold hot_event. hush. Qed.
Hint Resolve still_hot_groups : calm.
Lemma still_checkHotTransfers b : moves still (checkHotTransfers E c b).
Proof.
  unfold checkHotTransfers. apply moves_bind; [hush|]. intros w. generalize (∅ : gmap string HotAccount). generalize (watched c w).
  intros l. induction l as [|[contract burns] l IH]; intros sender; simpl; hush.
Qed.
Lemma still_commit b d : moves still (commit E b d).
Proof.
  assert (moves still (record E b d)) as Hr.
  { unfold record, recordActivity_of. apply moves_bind; intros; apply still_each; intros k; apply still_statement. }
  assert (∀ r, moves still (st_modify (set_rows r))) as Hs by (by intros r w).
  unfold commit. hush.
Qed.

(** ** The jobs *)

Lemma still_methodFailed p m : moves still (methodFailed p m).
Proof. unfold methodFailed. hush. by intros w. Qed.
Lemma still_methodAnswered p m : moves still (methodAnswered p m).
Proof. unfold methodAnswered. hush. by intros w. Qed.
Hint Resolve still_methodFailed still_methodAnswered : calm.
Lemma still_called {A} p m (f : nat → res A) : moves still (called p m f).
Proof. unfold called. hush. Qed.
Hint Resolve still_called : calm.

Lemma still_compareReads : moves still compareReads.
Proof. intros w. split; cbn; try done. intros H. etransitivity; [apply List.filter_length_le|exact H]. Qed.
Hint Resolve still_compareReads : calm.

Lemma length_push {A} limit (x : A) l : (0 < limit)%nat → (length l <= limit)%nat → (length (push limit x l) <= limit)%nat.
Proof.
  intros H0 Hl. unfold push. destruct (Nat.ltb_spec limit (length (l ++ [x]))); [|done].
  destruct (l ++ [x]) as [|y k] eqn:E'; cbn in *; [lia|]. apply (f_equal length) in E'. rewrite length_app in E'. cbn in E'. lia.
Qed.

Lemma still_keep_read i from to close : moves still (st_modify (keep_read i from to close)).
Proof. intros w. split; cbn; try done. apply length_push. unfold readHistory. lia. Qed.
Hint Resolve still_keep_read : calm.

(** One window is put back at most. *)
Lemma cross_windows_back l w : let w' := (cross_windows E l w).1 in
  ∃ back, pendingCross w' = back ++ pendingCross w ∧ back ⊆ l ∧ (length back <= length l)%nat ∧
    still w (set_pendingCross (pendingCross w) w').
Proof.
  revert w. induction l as [|b l IH]; intros w; [by exists []|]. rewrite cross_windows_cons. cbv zeta. set (w1 := set_asked _ w).
  assert (later : ∀ w2 : World, still w w2 → ∃ back, pendingCross (cross_windows E l w2).1 = back ++ pendingCross w ∧
    back ⊆ b :: l ∧ (length back <= length (b :: l))%nat ∧ still w (set_pendingCross (pendingCross w) (cross_windows E l w2).1)).
  { intros w2 S2. destruct (IH w2) as (back & Hb & Hs & Hl & Hst). rewrite (t_pending _ _ S2) in Hb, Hst.
    exists back. split; [done|]. split; [set_solver|]. split; [simpl; lia|]. by etransitivity. }
  assert (S1 : still w w1) by (by split). destruct (SecondEvents E _ _ _) as [es|e].
  - apply later. etransitivity; [exact S1|]. unfold read_other. pose proof (still_methodAnswered "second" "getEvents" w1) as S2.
    destruct (same_events es _); [exact S2|]. etransitivity; [exact S2|]. apply (still_raise Critical (disagreement_code b)).
  - destruct (is_retention e); [by apply later|]. exists [b]. unfold put_back.
    pose proof (still_methodFailed "second" "getEvents" w1) as S2. cbn. rewrite (t_pending _ _ S2).
    split; [done|]. split; [set_solver|]. split; [lia|]. destruct S2 as [A1 B1 C1 D1 E1 F1 G1]. by split.
Qed.

Lemma loosely_crossCheckEvents : moves loosely (crossCheckEvents E).
Proof.
  intros w. unfold crossCheckEvents.
  assert (S1 : moves still (st_try (called "second" "getHealth" (λ n, rpc.GetHealth (Second E n))))) by hush.
  apply moves_bind_at; [by apply still_loosely|]. intros r w1 _. destruct r as [[[o latest] close]|e]; [|done].
  unfold mbind, ST_bind, st_get, st_modify. set (w2 := set_pendingCross _ w1).
  destruct (cross_windows_back (List.filter (is_ready latest) (pendingCross w1)) w2) as (back & Hb & Hs & Hl & Hst).
  pose proof (List.filter_length (is_ready latest) (pendingCross w1)) as Hf.
  assert (HS : ∀ f, List.filter f (pendingCross w1) ⊆ pendingCross w1).
  { intros f x. rewrite !list_elem_of_In. by intros []%List.filter_In. }
  split.
  - rewrite Hb, length_app. cbn. lia.
  - rewrite Hb. intros x [Hx|Hx]%elem_of_app; [eapply HS, Hs, Hx|eapply HS, Hx].
  - destruct Hst as [A1 B1 C1 D1 E1 F1 G1]. by split.
Qed.
Hint Resolve loosely_crossCheckEvents : calm.

Lemma still_checkAuthorization a : moves still (checkAuthorization a).
Proof. unfold checkAuthorization. hush. by intros w. Qed.
Lemma still_check_state next ring : moves still (check_state next ring).
Proof. unfold check_state. hush. Qed.
Lemma still_compareProviders ks p latest : moves still (compareProviders E ks p latest).
Proof. unfold compareProviders, compare_ledgers. hush. apply still_each. intros k. unfold compare_entry. hush. Qed.
Hint Resolve still_checkAuthorization still_check_state still_compareProviders : calm.

Lemma loosely_Reconcile : moves loosely (Reconcile E c).
Proof.
  unfold Reconcile, check_lag, check_tvl, check_outflow.
  repeat first [solve [auto with calm] | solve [apply moves_loosely; hush] | apply moves_bind; [|intros ?]
               | match goal with |- moves _ (match ?x with _ => _ end) => destruct x end].
Qed.
Hint Resolve loosely_Reconcile still_RetryAttestations : calm.

Lemma loosely_reconcileAndBeat : moves loosely (reconcileAndBeat E c).
Proof. unfold reconcileAndBeat. apply moves_bind; [auto with calm|]. intros []. apply moves_loosely. hush. Qed.

Lemma still_CheckHealth : moves still (CheckHealth E c).
Proof.
  apply still_each. intros [i u]. unfold check_health, judgeLanes. hush; by intros w.
Qed.

Lemma still_overdue_ids i now l : moves still (overdue_ids E c i now l).
Proof. induction l as [|d l IH]; simpl; hush. Qed.
Hint Resolve still_overdue_ids : calm.
Lemma still_chain_now : moves still (chain_now E).
Proof. unfold chain_now. hush. Qed.
Hint Resolve still_chain_now : calm.
Lemma still_CheckAdmissions : moves still (CheckAdmissions E c).
Proof. unfold CheckAdmissions. hush. Qed.
Lemma still_CheckExitQueue : moves still (CheckExitQueue E c).
Proof. unfold CheckExitQueue. hush. Qed.

Lemma still_CheckStateSize : moves still (CheckStateSize E c).
Proof.
  assert (∀ n, moves still (st_modify (set_stateLevel n))) as H by (by intros n w). unfold CheckStateSize. hush.
Qed.

Lemma still_near_ends entries at_ l n : moves still (near_ends E entries at_ l n).
Proof. revert n. induction l as [|[seq k] l IH]; intros n; simpl; hush. Qed.
Hint Resolve still_near_ends : calm.
Lemma still_near_chunks l n : moves still (near_chunks E l n).
Proof. revert n. induction l as [|chunk l IH]; intros n; simpl; hush. Qed.
Hint Resolve still_near_chunks : calm.
Lemma still_CheckTTL : moves still (CheckTTL E c).
Proof. unfold CheckTTL, expiringNullifiers. hush. Qed.

Lemma still_put_meta k v : moves still (put_meta E k v).
Proof. apply still_statement. Qed.
Hint Resolve still_put_meta : calm.
Lemma still_check_governor p : moves still (check_governor E p).
Proof. destruct p as [role address]. unfold check_governor, fingerprint. hush. Qed.
Lemma still_CheckGovernanceAccounts : moves still (CheckGovernanceAccounts E).
Proof. pose proof still_check_governor. unfold CheckGovernanceAccounts. hush. Qed.

Lemma still_judgeOperations h l : moves still (judgeOperations h l).
Proof. unfold judgeOperations. hush. Qed.
Hint Resolve still_judgeOperations : calm.
Lemma still_read_operations ops pages h cursor : moves still (read_operations E ops pages h cursor).
Proof. revert cursor. induction pages as [|pages IH]; intros cursor; simpl; hush. Qed.
Hint Resolve still_read_operations : calm.
Lemma still_checkHot h : moves still (checkHot E c h).
Proof. unfold checkHot, check_floor, checkAssetFloor, asset_balance, operations. hush. Qed.
Hint Resolve still_checkHot : calm.
Lemma still_CheckHotAccounts : moves still (CheckHotAccounts E c).
Proof.
  assert (∀ l, moves still (check_hots E c l)) as H by (intros l; induction l as [|h l IH]; simpl; hush).
  unfold CheckHotAccounts. hush.
Qed.

Lemma still_sources a now : moves still (sources E c a now).
Proof. unfold sources, setFunders. hush. Qed.
Hint Resolve still_sources : calm.
Lemma still_with_sources now l : moves still (with_sources E c now l).
Proof. induction l as [|f l IH]; simpl; hush. Qed.
Hint Resolve still_with_sources : calm.
Lemma still_count_trips ds now l m : moves still (count_trips E c ds now l m).
Proof. revert m. induction l as [|f l IH]; intros m; simpl; hush. Qed.
Hint Resolve still_count_trips : calm.
Lemma still_CheckPatterns : moves still (CheckPatterns E c).
Proof.
  unfold CheckPatterns, forgetFunders, roundTrips, earlySaturation, limits. hush. apply still_each. intros p. hush.
Qed.

Lemma loosely_job o : (∀ b, o ≠ OApply b) → moves loosely (perform E c o).
Proof.
  intros Ho. destruct o as [b|e| | | | | | | | | | | | |]; cbn [perform]; [by destruct (Ho b)| |apply loosely_Reconcile|
    apply loosely_reconcileAndBeat|..]; apply moves_loosely;
    auto using still_CheckHealth, still_CheckAdmissions, still_CheckExitQueue, still_CheckStateSize, still_CheckTTL,
      still_CheckGovernanceAccounts, still_CheckHotAccounts, still_CheckPatterns, still_RetryAttestations.
  - unfold Fault. hush. by intros w.
  - unfold CheckIndexer. hush.
  - unfold CheckFreezes. hush.
Qed.

(** ** Windows *)

Lemma Forall_push {A} (P : A → Prop) limit x l : P x → Forall P l → Forall P (push limit x l).
Proof.
  intros Hx Hl. assert (H : Forall P (l ++ [x])) by (by apply Forall_app; split; [|apply Forall_singleton]).
  unfold push. destruct (_ <? _)%nat; [by apply Forall_tail|done].
Qed.

Lemma last_push {A} limit (x : A) l : (0 < limit)%nat → last (push limit x l) = Some x.
Proof.
  intros H0. unfold push. destruct (Nat.ltb_spec limit (length (l ++ [x]))) as [Hl|]; [|apply last_snoc].
  destruct l as [|y l]; [cbn in Hl; lia|]. apply last_snoc.
Qed.

Lemma keepRoot_bounded r w : bounded w → bounded (keepRoot r w).
Proof.
  intros [B1 B2 B3 B4 B5]. unfold keepRoot. destruct (roots w !! chaindata.LeafCount r) eqn:Hr; [by split|].
  set (k := chaindata.LeafCount r) in *. set (m := <[k := _]> (roots w)). set (order := rootOrder w ++ [k]).
  assert (Ho : order ≡ₚ (map_to_list m).*1).
  { unfold order, m. rewrite map_to_list_insert by done. cbn. by rewrite B1, <- Permutation_cons_append. }
  destruct (Nat.ltb_spec rootHistory (length order)) as [Hl|Hl]; [|by split].
  destruct order as [|first rest] eqn:Eo; [cbn in Hl; lia|].
  assert (is_Some (m !! first)) as [x Hx].
  { assert (first ∈ (map_to_list m).*1) as ([k' v] & -> & Hin%elem_of_map_to_list)%list_elem_of_fmap by (rewrite <- Ho; by left).
    by exists v. }
  assert (length rest = length (rootOrder w)) as Hlen.
  { apply (f_equal length) in Eo. unfold order in Eo. rewrite length_app in Eo. cbn in Eo. lia. }
  split; cbn; [|lia|done..].
  rewrite <- (map_to_list_delete _ _ _ Hx) in Ho. cbn in Ho. by apply Permutation_cons_inv in Ho.
Qed.

Lemma keepRoot_same r w : state (keepRoot r w) = state w ∧ cursor (keepRoot r w) = cursor w ∧
  snapshots (keepRoot r w) = snapshots w ∧ pendingCross (keepRoot r w) = pendingCross w ∧
  ∀ k v, roots (keepRoot r w) !! k = Some v → roots w !! k = Some v ∨ chaindata.mkRootAt k v = r.
Proof.
  unfold keepRoot. destruct (roots w !! chaindata.LeafCount r) eqn:Hr; [split_and!; [done..|by left]|]. set (m := <[_ := _]> (roots w)).
  assert (Hm : ∀ k v, m !! k = Some v → roots w !! k = Some v ∨ chaindata.mkRootAt k v = r).
  { intros k v [[<- <-]|[_ ?]]%lookup_insert_Some; [right; by destruct r|by left]. }
  destruct (_ <? _)%nat; [|done]. destruct (rootOrder w ++ _) as [|first rest]; [split_and!; [done..|by left]|].
  split_and!; try done. cbn. intros k v [_ H]%lookup_delete_Some. by apply Hm.
Qed.

Lemma keepRoots_bounded l w : bounded w → bounded (foldl (λ w r, keepRoot r w) w l).
Proof. revert w. induction l as [|r l IH]; intros w H; [done|]. by apply IH, keepRoot_bounded. Qed.

Lemma keepRoots_same l w : let w' := foldl (λ w r, keepRoot r w) w l in
  state w' = state w ∧ cursor w' = cursor w ∧ snapshots w' = snapshots w ∧ pendingCross w' = pendingCross w ∧
  ∀ k v, roots w' !! k = Some v → roots w !! k = Some v ∨ chaindata.mkRootAt k v ∈ l.
Proof.
  revert w. induction l as [|r l IH]; intros w; [split_and!; [done..|by left]|]. destruct (keepRoot_same r w) as (A & B & C & D & F).
  destruct (IH (keepRoot r w)) as (A' & B' & C' & D' & F'). simpl.
  split_and!; [congruence..|]. intros k v [H|H]%F'; [|right; by right]. destruct (F k v H) as [?|<-]; [by left|right; by left].
Qed.

Lemma remember_bounded b next d w : bounded w → bounded (remember b next d w).
Proof.
  intros H. unfold remember. set (w1 := foldl _ _ _).
  assert (H1 : bounded w1) by (apply keepRoots_bounded; by destruct H).
  destruct H1 as [B1 B2 B3 B4 B5].
  assert (length (push snapshotHistory (snapshotOf (follow.To b) next) (snapshots w1)) <= snapshotHistory)%nat
    by (apply length_push; [unfold snapshotHistory; lia|done]).
  destruct (follow.Latest b <=? _); split; cbn; try done. apply length_push; [unfold pendingHistory; lia|done].
Qed.

Lemma replay_app l k r : replay (l ++ k) r = r ← replay l r; replay k r.
Proof. revert r. induction l as [|b l IH]; intros r; [done|]. cbn. destruct (replay_one r b); [apply IH|done]. Qed.

Lemma remember_holds s0 c0 taken b next d w : holds s0 c0 taken w → chainstate.Apply (follow.Txs b) (state w) = (next, Ok d) →
  holds s0 c0 (taken ++ [b]) (remember b next d w).
Proof.
  intros [(ms & Hr & Hms) Hs Hn Hc] Ha.
  assert (Hr' : replay (taken ++ [b]) (start s0 c0) = Some (mkReplay next (follow.To b) (ms ++ chaindata.Roots d))).
  { rewrite replay_app, Hr. cbn. unfold replay_one. cbn. by rewrite Ha. }
  unfold remember. set (w0 := set_latest _ _). destruct (keepRoots_same (chaindata.Roots d) w0) as (A & B & C & D & F).
  set (w1 := foldl _ w0 _) in *. set (w2 := set_snapshots _ w1).
  assert (H2 : holds s0 c0 (taken ++ [b]) w2).
  { split; cbn.
    - exists (ms ++ chaindata.Roots d). rewrite A, B. split; [exact Hr'|]. intros k v [H|H]%F; apply elem_of_app; [left; by apply Hms|by right].
    - rewrite C. apply Forall_push.
      + eexists (taken ++ [b]), _. split; [done|]. split; [exact Hr'|]. done.
      + eapply Forall_impl; [exact Hs|]. intros s (l & r & Hl & ?). exists l, r. split; [by apply prefix_app_r|done].
    - rewrite A, B. apply last_push. unfold snapshotHistory. lia.
    - rewrite D. eapply Forall_impl; [exact Hc|]. intros x Hx. apply elem_of_app. by left. }
  destruct (follow.Latest b <=? _); [|exact H2]. destruct H2 as [H21 H22 H23 H24]. split; try done.
  cbn. apply Forall_push; [apply elem_of_app; right; by left|exact H24].
Qed.

Lemma loosely_holds s0 c0 taken w w' : loosely w w' → holds s0 c0 taken w → holds s0 c0 taken w'.
Proof.
  intros [L1 L2 [A B C D F G H]] [H1 H2 H3 H4]. cbn in *. split; rewrite ?A, ?B, ?C, ?F; try done.
  rewrite Forall_forall in *. intros b Hb. by apply H4, L2.
Qed.

Lemma loosely_bounded w w' : loosely w w' → bounded w → bounded w'.
Proof.
  intros [L1 L2 [A B C D F G H]] [B1 B2 B3 B4 B5]. cbn in *. split; rewrite ?A, ?B, ?C, ?D, ?F; try done; [by apply G|lia].
Qed.

(** What [Apply] does: it takes the window, or not. *)
Definition took (b : follow.Batch) (w w' : World) : Prop :=
  ∃ w1 next d, still w w1 ∧ chainstate.Apply (follow.Txs b) (state w) = (next, Ok d) ∧ still (remember b next d w1) w'.
Definition took_or_not (b : follow.Batch) (w : World) (p : World * res unit) : Prop :=
  still w p.1 ∧ p.2 ≠ Ok tt ∨ took b w p.1.
Lemma Apply_steps b w : took_or_not b w (Apply E c b w).
Proof.
  unfold Apply. unfold mbind at 1, ST_bind at 1, st_get. destruct (chainstate.Apply _ _) as [next [d|e]] eqn:Ea.
  2:{ left. split; [|done]. assert (moves still (_ ← raise Critical "invariant"; st_fail (fault e) : ST World unit)) as H by hush. apply H. }
  unfold mbind at 1, ST_bind at 1. pose proof (still_loadInstance w) as S1. destruct (loadInstance E c w) as [w1 [[]|e]]; [|by left; split].
  unfold mbind at 1, ST_bind at 1. pose proof (still_checkTransfers b d w1) as S2.
  destruct (checkTransfers E c b d w1) as [w2 [[]|e]]; cbn [fst] in *; [|left; split; [by etransitivity|done]].
  unfold mbind at 1, ST_bind at 1. pose proof (still_checkHotTransfers b w2) as S3.
  destruct (checkHotTransfers E c b w2) as [w3 [[]|e]]; cbn [fst] in *; [|left; split; [do 2 (etransitivity; [eassumption|]); done|done]].
  unfold mbind at 1, ST_bind at 1, st_try. pose proof (still_commit b d w3) as S4.
  destruct (commit E b d w3) as [w4 [[]|e]]; cbn [fst] in *.
  - right. exists w4, next, d. split; [do 3 (etransitivity; [eassumption|]); done|]. split; [done|].
    assert (moves still (_ ← notices E c (chaindata.Notices d) (follow.LatestCloseTime b);
         if follow.Latest b <=? u32 (follow.To b + tipLedgers) then activityChecks E c b next d else mret tt)) as H.
    { pose proof (still_notices (chaindata.Notices d) (follow.LatestCloseTime b)). pose proof (still_activityChecks b next d). hush. }
    apply (H (remember b next d w4)).
  - left. split; [|by destruct (errors_is _ e)].
    assert (moves still (if errors_is "chainstate: events contradict the vault" e then _ ← raise Critical "invariant"; st_fail (fault e)
          else st_fail e : ST World unit)) as H by hush. do 4 (etransitivity; [eassumption|]). apply H.
Qed.

Lemma took_holds s0 c0 taken b w w' : holds s0 c0 taken w → took b w w' → holds s0 c0 (taken ++ [b]) w'.
Proof.
  intros Hh (w1 & next & d & Hs%still_loosely & Ha & Hs'%still_loosely). eapply loosely_holds; [exact Hs'|].
  apply remember_holds; [by eapply loosely_holds|]. by rewrite (t_state _ _ (l_still _ _ Hs) : state w1 = state w).
Qed.

Lemma took_bounded b w w' : bounded w → took b w w' → bounded w'.
Proof.
  intros Hb (w1 & next & d & Hs%still_loosely & Ha & Hs'%still_loosely).
  by eapply loosely_bounded, remember_bounded, loosely_bounded.
Qed.

Lemma perform_taken s0 c0 taken o w : holds s0 c0 taken w → bounded w →
  bounded (perform E c o w).1 ∧ ∃ l, l `sublist_of` given [o] ∧ holds s0 c0 (taken ++ l) (perform E c o w).1.
Proof.
  intros Hh Hb. assert ((∃ b, o = OApply b) ∨ ∀ b, o ≠ OApply b) as [[b ->]|Hn] by (destruct o; eauto).
  - cbn [perform]. destruct (Apply_steps b w) as [[Hs _]|Ht].
    + apply still_loosely in Hs. split; [by eapply loosely_bounded|]. exists []. rewrite app_nil_r.
      split; [apply sublist_nil_l|by eapply loosely_holds].
    + split; [by eapply took_bounded|]. exists [b]. split; [done|by eapply took_holds].
  - pose proof (loosely_job o Hn w) as Hs. split; [by eapply loosely_bounded|].
    exists []. rewrite app_nil_r. split; [apply sublist_nil_l|by eapply loosely_holds].
Qed.

Lemma perform_all_taken s0 c0 ops taken w : holds s0 c0 taken w → bounded w →
  bounded (perform_all E c ops w) ∧ ∃ l, l `sublist_of` given ops ∧ holds s0 c0 (taken ++ l) (perform_all E c ops w).
Proof.
  revert taken w. induction ops as [|o ops IH]; intros taken w Hh Hb.
  - split; [done|]. exists []. by rewrite app_nil_r.
  - destruct (perform_taken s0 c0 taken o w Hh Hb) as (Hb1 & l & Hl & Hh1). destruct (IH _ _ Hh1 Hb1) as (Hb2 & l2 & Hl2 & Hh2).
    split; [done|]. exists (l ++ l2). rewrite app_assoc. split; [|done]. change (o :: ops) with ([o] ++ ops).
    unfold given. rewrite omap_app. by apply sublist_app.
Qed.

Lemma New_holds s0 c0 r : holds s0 c0 [] (New s0 c0 r) ∧ bounded (New s0 c0 r).
Proof.
  unfold New. set (w := mkWorld _ _ _ _ _ _ _ _ _ _ _ _ _ _ _ _ _ _). destruct (keepRoot_same (chaindata.mkRootAt
    (tree.Len (chaindata.Tree s0)) (tree.Root (chaindata.Tree s0))) w) as (A & B & C & D & F). split.
  - split; rewrite ?A, ?B, ?C, ?D; cbn; [|apply Forall_singleton; by exists [], (start s0 c0)|done|done].
    exists [chaindata.mkRootAt (tree.Len (chaindata.Tree s0)) (tree.Root (chaindata.Tree s0))]. split; [done|].
    intros k v [H| ->]%F; [change (roots w) with (∅ : gmap Z fr.Element) in H; by rewrite lookup_empty in H|by left].
  - apply keepRoot_bounded. split; cbn; [done|unfold rootHistory, snapshotHistory, readHistory, pendingHistory; lia..].
Qed.
End still.

(** * Properties *)

(** C6: The watcher holds the replay of the windows it took: after any sequence of its operations, whatever the
    network and the database answer, its state and cursor are the replay, from the state it loaded, of a
    subsequence of the windows it was given, each of which kept the vault's rules; its newest snapshot is of that
    state, every snapshot is of the state at the end of a window, every root it keeps is one the replay met at
    that leaf count, and every window that waits to be cross-checked is one it took; the roots, snapshots, reads
    and windows it keeps stay within their bounds. A window whose [Apply] succeeds is taken. *)
Theorem watcher_holds_replay {sdk : StellarSDK} {NH : tree.NodeHash} (E : Env) (c : Config) (loaded : chaindata.State)
    (at_ : Z) (r : Rows) (ops : list Op) :
  let w := perform_all E c ops (New loaded at_ r) in
  bounded w ∧ ∃ taken, taken `sublist_of` given ops ∧ holds loaded at_ taken w ∧
    ∀ b, (Apply E c b w).2 = Ok tt → holds loaded at_ (taken ++ [b]) (Apply E c b w).1.
Proof.
  intros w. destruct (New_holds loaded at_ r). destruct (perform_all_taken E c loaded at_ ops [] (New loaded at_ r)) as (Hb & l & Hl & Hh);
    [done..|]. split; [done|]. exists l. split; [done|]. split; [done|]. intros b Ho.
  destruct (Apply_steps E c b w) as [[_ Hf]|Ht]; [done|by eapply took_holds].
Qed.

End replayed.
