(* ===== verification/WatcherCompare.v ===== *)
(** What the watcher's comparisons page: the asset's transfers against the vault's events, the two providers'
    events, the reads of the vault against the replay, and the network's state size against its levels. *)
From stdpp Require Import pretty.
From S2P Require Import Prelude.
From S2P Require Import Fr.
From S2P Require Import Tree.
From S2P Require Import Xdr.
From S2P Require Import ScVal.
From S2P Require Import VaultState.
From S2P Require Import Events.
From S2P Require Import ChainData.
From S2P Require Import Rpc.
From S2P Require Import Token.
From S2P Require Import Follow.
From S2P Require Import Watcher.
From S2P Require Import WatcherChecks.
From S2P Require Import WatcherAttest.

Module compared.

Import scval watcher checks.

(** * Specification *)

(** What the payments of a list give an account: those that are positive, to any address of it. *)
Definition gives `{StellarSDK} (a : string) (p : string * Z) : Z :=
  match AccountOf p.1 with Ok x => if String.eqb x a && (0 <? p.2) then p.2 else 0 | Fail _ => 0 end.
Definition total `{StellarSDK} (a : string) (l : list (string * Z)) : Z := foldr (λ p n, gives a p + n) 0 l.

(** What a window's settlements, fees and refunds owe an account, and what the events of the asset's contract
    moved to it out of the vault, burns among them. *)
Definition due_of `{StellarSDK} (a : string) (s : events.Settled) : Z :=
  gives a (events.S_Recipient s, - events.S_ExtAmount s) + gives a (events.S_Relayer s, events.S_Fee s).
Definition back_of `{StellarSDK} (a : string) (r : chaindata.Resolution) : Z :=
  match chaindata.ROutcome r with
  | chaindata.OutAdmitted => 0
  | _ => gives a (chaindata.Depositor (chaindata.RDeposit r), chaindata.Amount (chaindata.RDeposit r))
  end.
Definition sum_of {A} (f : A → Z) (l : list A) : Z := foldr (λ x n, f x + n) 0 l.
Definition due `{StellarSDK} (a : string) (d : chaindata.Delta) : Z :=
  sum_of (due_of a) (map chaindata.SSettled (chaindata.Settlements d)) + sum_of (back_of a) (chaindata.Resolved d).
Definition moved_of `{StellarSDK} (vault a : string) (e : events.RawEvent) : Z :=
  match token.DecodeTransfer e, token.DecodeBurn e with
  | Ok t, _ | Fail _, Ok t => if String.eqb (token.From t) vault then gives a (token.To t, token.Amount t) else 0
  | Fail _, Fail _ => 0
  end.

(** The RPC's filters: one takes an event with as many topics as its own, each any or the value it names, and an
    event passes when one of the filters takes it. *)
Definition takes `{StellarSDK} (t : Topic) (x : string) : Prop :=
  match t with TAnyOne => True | TValue v => unmarshal_base64 x = Some v end.
#[export] Instance takes_dec `{StellarSDK} t x : Decision (takes t x).
Proof. unfold takes. destruct t; apply _. Defined.
Definition passes `{StellarSDK} (filters : list (list Topic)) (e : events.RawEvent) : Prop :=
  Exists (λ f, Forall2 takes f (events.Topics e)) filters.

(** A provider that has the events [emitted], or fails: to any filters a request takes it answers those that pass. *)
Definition serves `{StellarSDK} (emitted : res (list events.RawEvent)) (answer : list (list Topic) → res (list events.RawEvent)) : Prop :=
  ∀ filters, (length filters <= 5)%nat → answer filters = (es ← emitted; mret (filter (passes filters) es)).

(** An event as asset contracts emit them: of four topics at the most, addresses of 32 bytes among them. *)
Definition asset_event `{StellarSDK} (e : events.RawEvent) : Prop := (length (events.Topics e) <= 4)%nat ∧
  ∀ x v, x ∈ events.Topics e → unmarshal_base64 x = Some v → sized_address v.

(** A window read again from the second provider, by the answer to a question: its events agree, their
    disagreement is paged, or the provider no longer has them. *)
Definition read_again (E : Env) (n : nat) (b : follow.Batch) (alerts : list Alerted) : Prop :=
  match SecondEvents E n (follow.From b) (follow.To b) with
  | Ok es => same_events es (follow.BRaw b) = false → Raised Critical (disagreement_code b) ∈ alerts
  | Fail e => is_retention e = true
  end.

(** Whether the newest mention of a code raises it. *)
Fixpoint outstanding (code : string) (l : list Alerted) : bool :=
  match l with
  | [] => false
  | Raised _ k :: l => if String.eqb k code then true else outstanding code l
  | Cleared k :: l => if String.eqb k code then false else outstanding code l
  | Published _ :: l => outstanding code l
  end.

(** A code is raised only when it is not outstanding. *)
Fixpoint pages_once (code : string) (l : list Alerted) : Prop :=
  match l with
  | [] => True
  | Raised _ k :: l => (k = code → outstanding code l = false) ∧ pages_once code l
  | _ :: l => pages_once code l
  end.

(** The code an alert is about. *)
Definition code_of (a : Alerted) : string := match a with Raised _ k | Published k | Cleared k => k end.

(** A stretch of the watcher's life, seen from its checks of the state size: those, and anything else, which
    neither touches the level nor mentions its codes. *)
Inductive sizes `{StellarSDK} (E : Env) (c : Config) (w : World) : World → Prop :=
| sizes_none : sizes E c w w
| sizes_check w1 : sizes E c w w1 → sizes E c w (CheckStateSize E c w1).1
| sizes_other w1 w2 new : sizes E c w w1 → stateLevel w2 = stateLevel w1 → alerted w2 = new ++ alerted w1 →
    (∀ a l, a ∈ new → l ∈ stateLevels → code_of a ≠ stateCode l) → sizes E c w w2.

(** * Lemmas *)

(** ** Transfers *)

Section transfers.
Context {sdk : StellarSDK} (E : Env) (c : Config).

Definition positive (m : gmap string Z) : Prop := ∀ k v, m !! k = Some v → 0 < v.

Lemma add_total m p m' : add m p = Ok m' → positive m →
  positive m' ∧ ∀ a, default 0 (m' !! a) = default 0 (m !! a) + gives a p.
Proof.
  unfold add, gives. rewrite sgn_leb_0. destruct p as [address amount]. cbn [fst snd]. intros H Hm.
  destruct (Z.leb_spec amount 0) as [Hle|Hlt].
  - injection H as <-. split; [done|]. intros a. destruct (AccountOf address); [|lia].
    destruct (Z.ltb_spec 0 amount); [lia|]. rewrite andb_false_r. lia.
  - apply bind_Ok in H as (account & Ha & [= <-]). rewrite Ha. split.
    + intros k v [[<- <-]|[_ ?]]%lookup_insert_Some; [|by eapply Hm].
      destruct (m !! account) as [v|] eqn:E'; cbn; [specialize (Hm _ _ E'); lia|lia].
    + intros a. destruct (Z.ltb_spec 0 amount); [|lia]. rewrite andb_true_r. destruct (decide (a = account)) as [->|Hn].
      * by rewrite lookup_insert_eq, String.eqb_refl.
      * rewrite lookup_insert_ne by done. destruct (String.eqb_spec account a); [congruence|lia].
Qed.

Lemma add_all_total l m m' : add_all m l = Ok m' → positive m →
  positive m' ∧ ∀ a, default 0 (m' !! a) = default 0 (m !! a) + total a l.
Proof.
  revert m. induction l as [|p l IH]; intros m H Hm; cbn [add_all] in H.
  - injection H as <-. split; [done|]. intros a. cbn. lia.
  - apply bind_Ok in H as (m1 & H1 & H). destruct (add_total _ _ _ H1 Hm) as [P1 T1]. destruct (IH _ H P1) as [P2 T2].
    split; [done|]. intros a. rewrite T2, T1. unfold total. cbn [foldr]. lia.
Qed.

Lemma sameAmounts_spec a b : sameAmounts a b = true ↔ a = b.
Proof.
  unfold sameAmounts. rewrite andb_true_iff, forallb_forall, Nat.eqb_eq. split.
  - intros [Hs Hf]. assert (Hsub : a ⊆ b).
    { apply map_subseteq_spec. intros k v Hk.
      specialize (Hf (k, v) (proj1 (list_elem_of_In _ _) (proj2 (elem_of_map_to_list _ _ _) Hk))). cbn in Hf.
      destruct (b !! k) as [u|]; [f_equal; by apply Z.eqb_eq|done]. }
    apply map_subseteq_size_eq; [done|lia].
  - intros ->. split; [done|]. intros [k v] Hin%list_elem_of_In%elem_of_map_to_list. cbn. rewrite Hin. by apply Z.eqb_eq.
Qed.

Lemma totals_same l k m m' : add_all ∅ l = Ok m → add_all ∅ k = Ok m' → (m = m' ↔ ∀ a, total a l = total a k).
Proof.
  intros H H'. assert (P0 : positive ∅) by (intros ? ? ?%lookup_empty_Some; done).
  apply add_all_total in H as [P T]; [|done]. apply add_all_total in H' as [P' T']; [|done]. split.
  - intros -> a. specialize (T a). rewrite T' in T. rewrite lookup_empty in T. cbn in T. lia.
  - intros Heq. apply map_eq. intros a. specialize (T a). specialize (T' a). rewrite lookup_empty, Heq in *. cbn in T, T'.
    destruct (m !! a) as [v|] eqn:Ev, (m' !! a) as [v'|] eqn:Ev'; cbn in *; [f_equal; lia| | |done];
      [specialize (P _ _ Ev); lia|specialize (P' _ _ Ev'); lia].
Qed.

Lemma totals_app a l k : total a (l ++ k) = total a l + total a k.
Proof. unfold total. induction l as [|x l IH]; cbn [app foldr]; lia. Qed.
Lemma total_flat {A} a (f : A → list (string * Z)) (g : A → Z) l :
  (∀ x, total a (f x) = g x) → total a (flat_map f l) = sum_of g l.
Proof.
  intros H. induction l as [|x l IH]; [done|]. cbn [flat_map]. rewrite totals_app, H, IH. done.
Qed.
Lemma sum_of_map {A B} (h : A → B) (f : B → Z) l : sum_of f (map h l) = sum_of (λ x, f (h x)) l.
Proof. induction l as [|x l IH]; [done|]. unfold sum_of in *. cbn [map foldr]. by rewrite IH. Qed.

(** The code's lists are the account's dues. *)
Lemma total_reported a d : total a (reported d) = due a d.
Proof.
  unfold reported, due. rewrite totals_app, sum_of_map. f_equal; apply total_flat; intros x.
  - unfold total, paid_out, due_of. cbn [foldr]. lia.
  - unfold total, refunded, back_of. destruct (chaindata.ROutcome x); cbn [foldr]; lia.
Qed.
Lemma total_moved a es : total a (flat_map (moved_by c) es) = sum_of (moved_of (Vault c) a) es.
Proof.
  apply total_flat. intros e. unfold moved_by, moved_of, total.
  destruct (token.DecodeTransfer e) as [t|]; [|destruct (token.DecodeBurn e) as [t|]]; try done;
    destruct (String.eqb _ _); cbn [foldr]; lia.
Qed.

(** Every event that moves something out of the vault passes the filters. *)
Lemma transfer_length e t : token.DecodeTransfer e = Ok t → (3 <= length (events.Topics e))%nat.
Proof. unfold token.DecodeTransfer. by destruct (Nat.ltb_spec (length (events.Topics e)) 3). Qed.
Lemma burn_length e t : token.DecodeBurn e = Ok t → length (events.Topics e) = 3%nat.
Proof. unfold token.DecodeBurn. by destruct (Nat.eqb_spec (length (events.Topics e)) 3). Qed.

Lemma emitted_topics `{!StellarSDKLaws sdk} name from e : asset_event e → token.emitted name from e →
  ∃ x y rest, events.Topics e = x :: y :: rest ∧ takes (TValue (Symbol name)) x ∧ takes (TValue (address_or_zero from)) y.
Proof.
  intros [_ Hsized] (x & y & v & Hx & Hy & Ux & Uy & Ha). destruct (events.Topics e) as [|a [|b rest]]; try done.
  injection Hx as ->. injection Hy as ->. exists x, y, rest. split; [done|]. split; [done|]. cbn.
  unfold address_or_zero. rewrite (Address_addressOf _ _ (Hsized y v ltac:(set_solver) Uy) Ha). exact Uy.
Qed.

Lemma moved_passes `{!StellarSDKLaws sdk} a e : asset_event e → moved_of (Vault c) a e ≠ 0 → passes (transferFilters (Vault c)) e.
Proof.
  intros He Hm. unfold moved_of in Hm. unfold passes, transferFilters. rewrite !Exists_cons.
  destruct (token.DecodeTransfer e) as [t|] eqn:Et; [|destruct (token.DecodeBurn e) as [t|] eqn:Eb; [|done]].
  all: destruct (String.eqb_spec (token.From t) (Vault c)) as [<-|]; [|done].
  - destruct (token.DecodeTransfer_Ok _ _ Et) as [Hem _]. destruct (emitted_topics _ _ _ He Hem) as (x & y & rest & Ht & Hx & Hy).
    pose proof (transfer_length _ _ Et) as Hl. destruct He as [Hl4 _]. rewrite Ht in *. destruct rest as [|z [|z' [|]]]; cbn in Hl, Hl4; try lia.
    + left. by repeat constructor.
    + right. left. by repeat constructor.
  - destruct (token.DecodeBurn_Ok _ _ Eb) as [Hem _]. destruct (emitted_topics _ _ _ He Hem) as (x & y & rest & Ht & Hx & Hy).
    pose proof (burn_length _ _ Eb) as Hl. rewrite Ht in *. destruct rest as [|z [|]]; try done.
    right. right. left. by repeat constructor.
Qed.

Lemma moved_filtered `{!StellarSDKLaws sdk} a all : Forall asset_event all →
  sum_of (moved_of (Vault c) a) (filter (passes (transferFilters (Vault c))) all) = sum_of (moved_of (Vault c) a) all.
Proof.
  induction 1 as [|e all He _ IH]; [done|]. rewrite filter_cons. unfold sum_of in *. case_decide as Hp; cbn [foldr]; rewrite IH; [done|].
  destruct (Z.eq_dec (moved_of (Vault c) a e) 0) as [->|Hm]; [done|]. by destruct Hp; apply moved_passes with a.
Qed.
End transfers.

(** ** The state's size *)

Definition level_ok (n : Z) : Prop := n ∈ 0 :: stateLevels.

Lemma level_cases n : level_ok n → n = 0 ∨ n = 70 ∨ n = 85 ∨ n = 95 ∨ n = 100.
Proof. unfold level_ok, stateLevels. rewrite !elem_of_cons, elem_of_nil. tauto. Qed.

(** What one reading does to the level. *)
Record judged_size (permille reached held : Z) (paged : option Z) (cleared : list Z) : Prop := mkJudged {
  j_held : level_ok held;
  j_paged : ∀ l, paged = Some l → l ∈ stateLevels ∧ reached < l ∧ l * 10 <= permille ∧ held = l ∧ cleared = [];
  j_reached : ∀ l, l ∈ stateLevels → l * 10 <= permille → l <= held;
  j_cleared : ∀ l, l ∈ cleared → l ∈ stateLevels ∧ l <= reached ∧ permille < (l - stateMargin) * 10;
  j_kept : ∀ l, l ∈ stateLevels → l <= reached → l ∉ cleared → l <= held;
  j_above : held = 0 ∨ (held - stateMargin) * 10 <= permille }.

Lemma levels_in l : l ∈ stateLevels ↔ l = 70 ∨ l = 85 ∨ l = 95 ∨ l = 100.
Proof. unfold stateLevels. rewrite !elem_of_cons, elem_of_nil. tauto. Qed.

Ltac sized := unfold level_ok, stateLevels; rewrite !elem_of_cons, elem_of_nil; lia.
Ltac sized_paged := intros l Hl; first [discriminate Hl|injection Hl as <-; rewrite levels_in; repeat split; lia].
Ltac sized_reached := intros l; rewrite levels_in; lia.
Ltac sized_cleared := intros l; rewrite ?elem_of_cons, elem_of_nil; rewrite levels_in; unfold stateMargin; lia.
Ltac sized_kept := intros l; rewrite levels_in, ?elem_of_cons, elem_of_nil; lia.

Lemma judge_size_spec permille reached : level_ok reached →
  let '(held, paged, cleared) := judge_size permille reached in judged_size permille reached held paged cleared.
Proof.
  intros H%level_cases. unfold judge_size, level_of, descending, stateLevels, stateMargin.
  destruct H as [->|[->|[->|[->| ->]]]]; cbn [foldl clear_levels]; unfold stateMargin.
  all: repeat (match goal with
    | |- context [?a <=? ?b] => destruct (Z.leb_spec a b); try lia
    | |- context [Z.max ?a ?b <? ?l] => destruct (Z.ltb_spec (Z.max a b) l); try lia
    | |- context [?a <? ?b] => destruct (Z.ltb_spec a b); try lia
    end; cbn [orb app clear_levels]).
  all: split; [sized|sized_paged|sized_reached|sized_cleared|sized_kept|unfold stateMargin; lia].
Qed.

Lemma stateCode_inj l k : l ∈ stateLevels → k ∈ stateLevels → stateCode l = stateCode k → l = k.
Proof. rewrite !levels_in. by intros [->|[->|[->| ->]]] [->|[->|[->| ->]]]. Qed.

Lemma outstanding_apart code new l : (∀ a, a ∈ new → code_of a ≠ code) → outstanding code (new ++ l) = outstanding code l.
Proof.
  intros H. induction new as [|a new IH]; [done|]. rewrite <- app_comm_cons.
  assert (Hk : code_of a ≠ code) by (apply H; by left). specialize (IH (λ a Ha, H a (list_elem_of_further _ _ _ Ha))).
  apply String.eqb_neq in Hk. destruct a as [sev k|k|k]; cbn in *; rewrite ?Hk; exact IH.
Qed.

Lemma pages_once_apart code new l : (∀ a, a ∈ new → code_of a ≠ code) → pages_once code l → pages_once code (new ++ l).
Proof.
  intros H. induction new as [|a new IH]; [done|]. intros Hl. rewrite <- app_comm_cons.
  assert (code_of a ≠ code) by (apply H; by left). specialize (IH (λ a Ha, H a (list_elem_of_further _ _ _ Ha)) Hl).
  by destruct a.
Qed.

(** The clears of levels. *)
Lemma outstanding_cleared l cl rest : l ∈ stateLevels → (∀ k, k ∈ cl → k ∈ stateLevels) →
  outstanding (stateCode l) (map (λ k, Cleared (stateCode k)) cl ++ rest) = (if bool_decide (l ∈ cl) then false else outstanding (stateCode l) rest).
Proof.
  intros Hl Hc. induction cl as [|k cl IH]; [by rewrite bool_decide_false by by intros ?%elem_of_nil|].
  cbn [map app outstanding]. rewrite IH by (intros; apply Hc; by right). destruct (String.eqb_spec (stateCode k) (stateCode l)) as [He|He].
  - rewrite bool_decide_true; [done|]. apply stateCode_inj in He as ->; [by left|apply Hc; by left|done].
  - destruct (decide (l ∈ cl)); [rewrite !bool_decide_true by (done || by right); done|].
    rewrite !bool_decide_false by (rewrite ?elem_of_cons; naive_solver). done.
Qed.

Lemma pages_once_cleared code cl rest : pages_once code (map (λ k, Cleared (stateCode k)) cl ++ rest) ↔ pages_once code rest.
Proof. by induction cl. Qed.

Section sizes.
Context {sdk : StellarSDK} (E : Env) (c : Config).

(** What the levels keep. *)
Record sized (w : World) : Prop := mkSized {
  z_level : level_ok (stateLevel w);
  z_outstanding : ∀ l, l ∈ stateLevels → outstanding (stateCode l) (alerted w) = true → l <= stateLevel w;
  z_once : ∀ l, l ∈ stateLevels → pages_once (stateCode l) (alerted w) }.

Lemma clear_all l w : each (λ l, clear (stateCode l)) l w = (set_alerted (map (λ k, Cleared (stateCode k)) (rev l) ++ alerted w) w, Ok tt).
Proof.
  revert w. induction l as [|k l IH]; intros w; [by destruct w|]. cbn [each rev]. unfold mbind, ST_bind, clear, st_modify at 1.
  rewrite IH. rewrite map_app, <- app_assoc. done.
Qed.

(** The reading of a check, when there is one. *)
Definition share (st : rpc.SorobanState) : Z := Z.quot (i64 (rpc.Average st * 1000)) (rpc.Target st).
Definition sized_by (w : World) (st : rpc.SorobanState) : World :=
  let '(held, paged, cleared) := judge_size (share st) (stateLevel w) in
  set_alerted (map (λ k, Cleared (stateCode k)) (rev cleared) ++
    match paged with Some l => [Raised (stateSeverity l) (stateCode l)] | None => [] end ++ alerted w)
    (set_stateLevel held (set_asked (S (asked w)) w)).

Lemma CheckStateSize_step w : CheckStateSize E c w =
  if SkipStateSize c then (w, Ok tt)
  else match rpc.ReadSorobanState (Primary E (asked w)) with
       | Fail e => (set_asked (S (asked w)) w, Fail e)
       | Ok st => (sized_by w st, Ok tt)
       end.
Proof.
  unfold CheckStateSize. destruct (SkipStateSize c); [done|]. unfold mbind, ST_bind, ask.
  destruct (rpc.ReadSorobanState _) as [st|e]; [|done]. unfold st_get, sized_by, share. cbn [stateLevel set_asked].
  destruct (judge_size _ _) as [[held paged] cleared]. unfold st_modify. destruct paged as [l|]; cbn [raise];
    unfold raise, st_modify, mret, ST_ret; rewrite clear_all; done.
Qed.

Lemma sized_by_sized w st : sized w → sized (sized_by w st).
Proof.
  intros [HL HO HP]. unfold sized_by. pose proof (judge_size_spec (share st) (stateLevel w) HL) as HJ.
  destruct (judge_size _ _) as [[held paged] cleared]. destruct HJ as [J1 J2 J3 J4 J5 J6].
  assert (Hcl : ∀ k, k ∈ rev cleared → k ∈ stateLevels).
  { intros k Hk%list_elem_of_In%in_rev%list_elem_of_In. by apply J4. }
  assert (Hrev : ∀ l, l ∈ rev cleared ↔ l ∈ cleared) by (intros l; rewrite !list_elem_of_In; symmetry; apply in_rev).
  split; [exact J1|..]; cbn [stateLevel alerted set_alerted set_stateLevel].
  - intros l Hl. rewrite outstanding_cleared by done. destruct (bool_decide_reflect (l ∈ rev cleared)) as [?|Hn]; [done|].
    rewrite Hrev in Hn. destruct paged as [p|]; cbn [app outstanding].
    + destruct (J2 p eq_refl) as (Hp & Hr & _ & -> & _). destruct (String.eqb_spec (stateCode p) (stateCode l)) as [He|_].
      * apply stateCode_inj in He as ->; [intros _; lia|done|done].
      * intros Ho%HO; [lia|done].
    + intros Ho%HO; [|done]. by apply J5.
  - intros l Hl. apply pages_once_cleared. destruct paged as [p|]; cbn [app pages_once]; [|by apply HP].
    split; [|by apply HP]. intros He. destruct (J2 p eq_refl) as (Hp & Hr & _). apply stateCode_inj in He as ->; [|done..].
    destruct (outstanding (stateCode l) (alerted w)) eqn:Ho; [|done]. apply HO in Ho; [lia|done].
Qed.

Lemma sizes_sized w0 w : sized w0 → sizes E c w0 w → sized w.
Proof.
  intros H0. induction 1 as [|w1 _ IH|w1 w2 new _ IH Hl Ha Hn]; [done|..].
  - rewrite CheckStateSize_step. destruct (SkipStateSize c); [done|].
    destruct (rpc.ReadSorobanState _); [by apply sized_by_sized|]. destruct IH as [A B C]. by split.
  - destruct IH as [A B C]. split; rewrite ?Hl, ?Ha; [done|..].
    + intros l Hin. rewrite outstanding_apart; [by apply B|]. intros a Hain. by apply Hn.
    + intros l Hin. apply pages_once_apart; [|by apply C]. intros a Hain. by apply Hn.
Qed.
End sizes.

(** ** Windows read again *)

Section cross.
Context {sdk : StellarSDK} (E : Env).

(** What a step over one window leaves alone. *)
Definition beside (w w' : World) : Prop :=
  asked w' = asked w ∧ pendingCross w' = pendingCross w ∧ ∃ new, alerted w' = new ++ alerted w.

Lemma beside_failed p m w : beside w (methodFailed p m w).1.
Proof.
  unfold methodFailed, mbind, ST_bind, st_get, st_modify. destruct (3 <=? _); repeat split; [|by exists []].
  by exists [Raised Warning (method_code p m)].
Qed.
Lemma beside_answered p m w : beside w (methodAnswered p m w).1.
Proof.
  unfold methodAnswered, mbind, ST_bind, st_get, st_modify. destruct (0 <? _); repeat split; [|by exists []].
  by exists [Cleared (method_code p m)].
Qed.

Lemma beside_read_other es b w : beside w (read_other es b w) ∧
  (same_events es (follow.BRaw b) = false → Raised Critical (disagreement_code b) ∈ alerted (read_other es b w)).
Proof.
  unfold read_other. destruct (beside_answered "second" "getEvents" w) as (A & P & new & L). destruct (same_events _ _).
  - split; [|done]. split; [done|]. split; [done|]. by exists new.
  - split; [|intros _; by left]. split; [done|]. split; [done|]. cbn. rewrite L. by eexists (_ :: new).
Qed.

Lemma read_again_later n b new alerts : read_again E n b alerts → read_again E n b (new ++ alerts).
Proof.
  unfold read_again. destruct (SecondEvents E _ _ _); [|done]. intros H Hs. apply elem_of_app. right. by apply H.
Qed.

(** What a run over the ready windows comes to. *)
Definition outcome (l : list follow.Batch) (w w' : World) : Prop :=
  (∃ new, alerted w' = new ++ alerted w) ∧ ∃ done rest, l = done ++ rest ∧
  (∀ j b, done !! j = Some b → read_again E (asked w + j) b (alerted w')) ∧
  ((rest = [] ∧ pendingCross w' = pendingCross w) ∨
   ∃ b dropped e, rest = b :: dropped ∧ SecondEvents E (asked w + length done) (follow.From b) (follow.To b) = Fail e ∧
     is_retention e = false ∧ pendingCross w' = b :: pendingCross w).

Lemma outcome_next b l w w1 w' : asked w1 = S (asked w) → pendingCross w1 = pendingCross w → (∃ new, alerted w1 = new ++ alerted w) →
  read_again E (asked w) b (alerted w1) → outcome l w1 w' → outcome (b :: l) w w'.
Proof.
  intros HA HP [new HL] Hb ([new' HL'] & dn & rest & -> & Hd & Hr). split; [exists (new' ++ new); by rewrite HL', HL, app_assoc|].
  exists (b :: dn), rest. split; [done|]. split.
  - intros [|j] x Hx; cbn in Hx.
    + injection Hx as <-. rewrite Nat.add_0_r, HL'. by apply read_again_later.
    + replace (asked w + S j)%nat with (asked w1 + j)%nat by lia. by apply Hd.
  - rewrite HP in Hr. cbn [length]. by replace (asked w + S (length dn))%nat with (asked w1 + length dn)%nat by lia.
Qed.

Lemma cross_windows_outcome l w : outcome l w (cross_windows E l w).1.
Proof.
  revert w. induction l as [|b l IH]; intros w.
  - split; [by exists []|]. exists [], []. split; [done|]. split; [by intros j b|by left].
  - rewrite cross_windows_cons. cbv zeta. set (w1 := set_asked _ w).
    destruct (SecondEvents E (asked w) (follow.From b) (follow.To b)) as [es|e] eqn:Es.
    + destruct (beside_read_other es b w1) as [(A & P & L) Hr]. eapply outcome_next; [exact A|exact P|exact L| |apply IH].
      unfold read_again. by rewrite Es.
    + destruct (is_retention e) eqn:Er.
      * eapply (outcome_next b l w w1); [done|done|by exists []| |apply IH]. unfold read_again. by rewrite Es.
      * destruct (beside_failed "second" "getEvents" w1) as (A & P & L). unfold put_back. cbn [fst]. split; [exact L|].
        exists [], (b :: l). split; [done|]. split; [by intros j x|]. right. exists b, l, e. cbn [length].
        rewrite Nat.add_0_r. split; [done|]. split; [done|]. split; [done|]. cbn. by rewrite P.
Qed.
End cross.

(** ** Escalation *)

(** The doublings stop at the last power of two the reading reaches, the twentieth at most. *)
Lemma doublings_spec times : ∃ k, (k <= 20)%nat ∧ doublings 20 1 times = 2 ^ Z.of_nat k ∧
  (k = 0%nat ∨ SpecFloat.SFleb (float64 (2 ^ Z.of_nat k)) times = true) ∧
  (k = 20%nat ∨ SpecFloat.SFleb (float64 (2 ^ Z.of_nat (S k))) times = false).
Proof.
  enough (H : ∀ turns j, (turns + j = 20)%nat → (j = 0%nat ∨ SpecFloat.SFleb (float64 (2 ^ Z.of_nat j)) times = true) →
    ∃ k, (k <= 20)%nat ∧ doublings turns (2 ^ Z.of_nat j) times = 2 ^ Z.of_nat k ∧
      (k = 0%nat ∨ SpecFloat.SFleb (float64 (2 ^ Z.of_nat k)) times = true) ∧
      (k = 20%nat ∨ SpecFloat.SFleb (float64 (2 ^ Z.of_nat (S k))) times = false)).
  { apply (H 20%nat 0%nat); [done|by left]. }
  intros turns. induction turns as [|turns IH]; intros j Hj Hle; cbn [doublings].
  - exists j. split; [lia|]. split; [done|]. split; [done|left; lia].
  - assert (Hs : 2 * 2 ^ Z.of_nat j = 2 ^ Z.of_nat (S j)) by (rewrite Nat2Z.inj_succ, Z.pow_succ_r; lia).
    assert (Hlt : 2 ^ Z.of_nat j < 1048576) by (change 1048576 with (2 ^ 20); apply Z.pow_lt_mono_r; lia).
    rewrite (proj2 (Z.ltb_lt _ _) Hlt), Hs. cbn [andb].
    destruct (SpecFloat.SFleb (float64 (2 ^ Z.of_nat (S j))) times) eqn:E'; [apply IH; [lia|by right]|]. exists j. split; [lia|]. split; [done|]. split; [done|by right].
Qed.

(** * Properties *)

(** C23: The transfers check pages the windows whose money does not add up, of those the RPC still has: against a
    provider that serves the events [emitted] by the asset's contract in the window, nothing is paged if for every
    account what they moved out of the vault to it, in transfers and in burns, equals what the window's settlements,
    fees and refunds report, and otherwise one critical alert of that window is; with the events past the
    provider's retention nothing is compared and nothing paged, and a window whose events cannot be read for
    another reason is not applied. *)
Theorem transfers_match {sdk : StellarSDK} `{!StellarSDKLaws sdk} (E : Env) (c : Config) (b : follow.Batch) (d : chaindata.Delta)
    (i : Inst) (emitted : res (list events.RawEvent)) (w w' : World) (r : res unit)
    (Hs : serves emitted (λ filters, Transfers E (asked w) (vault.Token (IConfig i)) filters (follow.From b) (follow.To b)))
    (He : ∀ all, emitted = Ok all → Forall asset_event all)
    (Hi : inst w = Some i) (Hc : checkTransfers E c b d w = (w', r)) (Hr : r = Ok tt) :
  match emitted with
  | Ok all =>
      ((∀ a, due a d = sum_of (moved_of (Vault c) a) all) → alerted w' = alerted w) ∧
      ((∃ a, due a d ≠ sum_of (moved_of (Vault c) a) all) →
         alerted w' = Raised Critical ("outflow_mismatch_" +:+ pretty (follow.To b)) :: alerted w)
  | Fail e => is_retention e = true ∧ alerted w' = alerted w
  end.
Proof.
  subst r. unfold checkTransfers in Hc. rewrite st_bind_Ok in Hc. destruct Hc as (w0 & w1 & [= <- <-] & Hc). rewrite Hi in Hc.
  rewrite st_bind_Ok in Hc. destruct Hc as (want & w1 & [= <- Hw] & Hc). rewrite st_bind_Ok in Hc.
  destruct Hc as (a & w2 & Ha & Hc). unfold st_try, ask in Ha. injection Ha as <- <-.
  rewrite Hs in Hc by (cbn; lia). destruct emitted as [all|e]; cbn [mbind res_bind mret res_ret] in Hc.
  - specialize (He all eq_refl). rewrite st_bind_Ok in Hc. destruct Hc as (got & w3 & [= <- Hg] & Hc).
    pose proof (totals_same _ _ _ _ Hw Hg) as HT. setoid_rewrite total_reported in HT. setoid_rewrite total_moved in HT.
    setoid_rewrite (λ a, moved_filtered c a all He) in HT. pose proof (sameAmounts_spec want got) as HS.
    destruct (sameAmounts want got); injection Hc as <-; split; try done.
    + intros (a & Hn). exfalso. apply Hn. apply HT. by apply HS.
    + intros Hall%HT. apply HS in Hall. done.
  - destruct (is_retention e); [|done]. by injection Hc as <-.
Qed.

(** C32: The network's state pages a level once: in any stretch of the watcher's life, an alert of a level is raised
    only when that level is not already raised and not cleared; after each reading every level the state has
    reached is held, and the level held is no more than the margin above the state. *)
Theorem state_levels_page_once {sdk : StellarSDK} (E : Env) (c : Config) (w0 w : World) (H0 : stateLevel w0 = 0)
    (Ha : ∀ a l, a ∈ alerted w0 → l ∈ stateLevels → code_of a ≠ stateCode l) (Hs : sizes E c w0 w) :
  (∀ l, l ∈ stateLevels → pages_once (stateCode l) (alerted w)) ∧
  ∀ st, SkipStateSize c = false → rpc.ReadSorobanState (Primary E (asked w)) = Ok st →
    let w' := (CheckStateSize E c w).1 in
    (∀ l, l ∈ stateLevels → l * 10 <= share st → l <= stateLevel w') ∧
    (stateLevel w' = 0 ∨ (stateLevel w' - stateMargin) * 10 <= share st).
Proof.
  assert (sized w0) as Z0.
  { split; [rewrite H0; by left|..]; intros l Hl; rewrite <- (app_nil_r (alerted w0)).
    - rewrite outstanding_apart; [done|]. intros a Hin. by apply Ha.
    - apply pages_once_apart; [|done]. intros a Hin. by apply Ha. }
  pose proof (sizes_sized E c w0 w Z0 Hs) as [ZL _ ZP]. split; [done|]. intros st Hk Hst. cbv zeta.
  rewrite CheckStateSize_step, Hk, Hst. cbn [fst]. unfold sized_by.
  pose proof (judge_size_spec (share st) (stateLevel w) ZL) as HJ. destruct (judge_size _ _) as [[held paged] cleared].
  destruct HJ as [J1 J2 J3 J4 J5 J6]. split; [exact J3|exact J6].
Qed.

(** C31: What a cross-check comes to: when the second provider answers where it is, the windows it has reached are
    read again in order, each agreeing, paged or too old for the provider, until a read fails for another reason;
    that window waits again with those not reached yet, and the ready windows after it are dropped: they wait no
    more, and nothing was asked about them. *)
Theorem cross_check_outcome {sdk : StellarSDK} (E : Env) (w : World) (oldest latest close : Z)
    (Hh : rpc.GetHealth (Second E (asked w)) = Ok (oldest, latest, close)) :
  let w' := (crossCheckEvents E w).1 in
  let waiting := List.filter (λ b, negb (is_ready latest b)) (pendingCross w) in
  ∃ done rest, List.filter (is_ready latest) (pendingCross w) = done ++ rest ∧
    (∀ j b, done !! j = Some b → read_again E (S (asked w) + j) b (alerted w')) ∧
    ((rest = [] ∧ pendingCross w' = waiting) ∨
     ∃ b dropped e, rest = b :: dropped ∧
       SecondEvents E (S (asked w) + length done) (follow.From b) (follow.To b) = Fail e ∧ is_retention e = false ∧
       pendingCross w' = b :: waiting).
Proof.
  cbv zeta. unfold crossCheckEvents, called, st_try, ask. unfold mbind, ST_bind. rewrite Hh. cbn [asked].
  rewrite methodAnswered_Ok. cbn [mret ST_ret].
  destruct (beside_answered "second" "getHealth" (set_asked (S (asked w)) w)) as (A & P & _). cbn in A, P.
  unfold st_get, st_modify. set (w1 := (methodAnswered _ _ _).1) in *. rewrite P.
  destruct (cross_windows_outcome E (List.filter (is_ready latest) (pendingCross w))
    (set_pendingCross (List.filter (λ b, negb (is_ready latest b)) (pendingCross w)) w1)) as (_ & dn & rest & Hl & Hd & Hr).
  cbn [asked pendingCross set_pendingCross] in Hd, Hr. rewrite A in Hd, Hr. exists dn, rest. split; [done|]. split; [exact Hd|exact Hr].
Qed.

(** ** Runs of the checks *)

Module demo.

Import attest.demo.

#[local] Instance watch_sdk : StellarSDK :=
  example.sdk_keys [] (λ _, None) (λ k, match k with KeyConfigSetting n => Some [n] | _ => None end).

(** A state of 900 bytes of a target of 1000; a second provider at ledger 100 that fails its first read. *)
Definition settings : list (string * rpc.Entry) :=
  [("A"%string, rpc.mkEntry (rpc.DataConfigSetting (rpc.StateSizeWindow [900])) 7 None);
   ("B"%string, rpc.mkEntry (rpc.DataConfigSetting
      (rpc.LedgerCost 1000 1 1000 2000 (rpc.mkLedgerCosts 1 1 1 1 1 1 1))) 7 None)].
Definition network : Env :=
  mkEnv (λ _, rpc.mkClient (Ok (1, 100, 2000)) (λ _, Ok (settings, 100))) (λ _, rpc.mkClient (Ok (1, 100, 2000)) (λ _, down))
    (λ _ _ _ _ _, Ok []) (λ n _ _, if (n =? 1)%nat then down else Ok []) (λ _, Done) (λ _, Ok tt) (λ _ _, Ok None) (λ _ _, Ok 0)
    (λ _ _, Ok []) (λ _ _, Ok []) (λ _ _, Ok []) (λ _ _ _, Ok tt) (λ _, 0) (λ _, false) None None (λ _ _ _, down)
    (λ _ _, (true, None)) None (λ _, ""%string) (λ _, None) 17.
Definition sized_config : Config :=
  mkConfig "V" [] [] "" "native" [] (SpecFloat.S754_zero false) 10 5 0 3 ∅ 0 50 false.

Definition window (from to : Z) : follow.Batch := follow.mkBatch from to [] [] 300 0.
Definition crossed : World := set_pendingCross [window 1 10; window 11 20; window 101 110] world.
Definition payout : chaindata.Delta :=
  chaindata.add_Settlements
    (chaindata.mkSettlement (events.mkSettled (-28) 2 (example.account 1) (example.account 2) None) 10 1000 "h")
    chaindata.empty_delta.

(** The state at nine tenths pages once, however often it is read. *)
Definition sized_once : World := (CheckStateSize network sized_config world).1.
Definition sized_twice : World := (CheckStateSize network sized_config sized_once).1.

Example sized_alerts : alerted sized_twice = [Raised Warning "state_size_85"] ∧ stateLevel sized_twice = 85.
Proof. split; vm_compute; reflexivity. Qed.

(** A reading of three times its bound, and the burst's bound from a day of 1440 calls, without a multiple. *)
Example escalations : escalation (big_float64 (big_quo 3000 1000)) = "_x2"%string ∧ escalation (float64 4000000) = "_x1048576"%string ∧
  escalation (fdiv (float64 45) (burst_bound sized_config 1440)) = "_x4"%string.
Proof. repeat split; vm_compute; reflexivity. Qed.
End demo.

(** An asset contract that pays the settlement's recipient, its issuer, by a burn and the relayer by a transfer. *)
Module paying.

#[export] Instance pay_sdk : StellarSDK := example.sdk_keys
  [("t", Symbol "transfer"); ("u", Symbol "burn"); ("v", ScvAddress (AddressContract (be_bytes 32 9)));
   ("r", ScvAddress (AddressAccount (be_bytes 32 2))); ("i", ScvString ("USDC:" +:+ example.account 1)); ("p", ScvI128 0 28); ("f", ScvI128 0 2)]%string
  (λ _, None) (λ _, None).
#[export] Instance pay_laws : StellarSDKLaws pay_sdk.
Proof. apply example.sdk_keys_laws. Qed.

Definition event (topics : list string) (value : string) : events.RawEvent := events.mkRawEvent 10 1000 "h" 1 0 0 "T" topics value.
Definition burned : events.RawEvent := event ["u"; "v"; "i"]%string "p"%string.
Definition paid : events.RawEvent := event ["t"; "v"; "r"; "i"]%string "f"%string.
Definition config : Config :=
  mkConfig (example.contract 9) [] [] "" "native" [] (SpecFloat.S754_zero false) 10 5 0 3 ∅ 0 50 false.
Definition network (emitted : list events.RawEvent) : Env :=
  mkEnv (λ _, rpc.mkClient attest.demo.down (λ _, attest.demo.down)) (λ _, rpc.mkClient attest.demo.down (λ _, attest.demo.down))
    (λ _ _ filters _ _, Ok (filter (passes filters) emitted)) (λ _ _ _, Ok []) (λ _, Done) (λ _, Ok tt) (λ _ _, Ok None) (λ _ _, Ok 0)
    (λ _ _, Ok []) (λ _ _, Ok []) (λ _ _, Ok []) (λ _ _ _, Ok tt) (λ _, 0) (λ _, false) None None (λ _ _ _, attest.demo.down)
    (λ _ _, (true, None)) None (λ _, ""%string) (λ _, None) 17.
Definition run (emitted : list events.RawEvent) : World * res unit := checkTransfers (network emitted) config (demo.window 1 10) demo.payout attest.demo.world.

Lemma all_asset : Forall asset_event [burned; paid].
Proof.
  repeat constructor; cbn; try lia; intros x v Hx Hv; repeat (apply elem_of_cons in Hx as [->|Hx]); try (by apply elem_of_nil in Hx);
    vm_compute in Hv; injection Hv as <-; vm_compute; done.
Qed.

(** The recipient and the relayer are each paid what the settlement reports. *)
Lemma adds_up a : due a demo.payout = sum_of (moved_of (Vault config) a) [burned; paid].
Proof.
  assert (Hb : moved_of (Vault config) a burned = gives a (example.account 1, 28)).
  { unfold moved_of. assert (token.DecodeTransfer burned = Fail (malformed "not a transfer event" [])) as -> by (vm_compute; reflexivity).
    assert (token.DecodeBurn burned = Ok (token.mkTransfer (Vault config) (example.account 1) 28)) as -> by (vm_compute; reflexivity).
    cbn [token.From token.To token.Amount]. by rewrite String.eqb_refl. }
  assert (Hp : moved_of (Vault config) a paid = gives a (example.account 2, 2)).
  { unfold moved_of. assert (token.DecodeTransfer paid = Ok (token.mkTransfer (Vault config) (example.account 2) 2)) as -> by (vm_compute; reflexivity).
    cbn [token.From token.To token.Amount]. by rewrite String.eqb_refl. }
  unfold sum_of. cbn [foldr]. rewrite Hb, Hp. unfold due, sum_of, due_of. cbn -[gives example.account]. change (- (-28)) with 28. lia.
Qed.
End paying.

#[local] Existing Instance paying.pay_sdk.
#[local] Existing Instance paying.pay_laws.

(** With the burn and the transfer nothing is paged; with the transfer alone the window is. *)
Lemma transfers_witness : alerted (paying.run [paying.burned; paying.paid]).1 = [] ∧
  alerted (paying.run [paying.paid]).1 = [Raised Critical "outflow_mismatch_10"].
Proof.
  assert (Hs : ∀ l, serves (Ok l) (λ filters, Transfers (paying.network l) (asked attest.demo.world) "T" filters 1 10)) by done.
  assert (He : ∀ l all, Forall asset_event l → Ok l = Ok all → Forall asset_event all) by (intros l all H [= <-]; exact H).
  split.
  - exact (proj1 (transfers_match _ paying.config (demo.window 1 10) demo.payout attest.demo.inst0 _ attest.demo.world _ (Ok tt)
      (Hs [paying.burned; paying.paid]) (λ all, He _ all paying.all_asset) eq_refl (surjective_pairing _) ltac:(vm_compute; reflexivity))
      paying.adds_up).
  - refine (proj2 (transfers_match _ paying.config (demo.window 1 10) demo.payout attest.demo.inst0 _ attest.demo.world _ (Ok tt)
      (Hs [paying.paid]) (λ all, He _ all (Forall_inv_tail paying.all_asset)) eq_refl (surjective_pairing _) ltac:(vm_compute; reflexivity)) _).
    exists (example.account 1). vm_compute. discriminate.
Defined.

Lemma state_levels_witness : (∀ l, l ∈ stateLevels → pages_once (stateCode l) (alerted demo.sized_twice)) ∧
  alerted demo.sized_twice = [Raised Warning "state_size_85"].
Proof.
  split; [|exact (proj1 demo.sized_alerts)].
  apply (state_levels_page_once (sdk := demo.watch_sdk) demo.network demo.sized_config attest.demo.world demo.sized_twice); [reflexivity| |].
  - intros a l Ha. apply elem_of_nil in Ha. destruct Ha.
  - apply sizes_check, sizes_check, sizes_none.
Defined.

(** The second window, though the provider has reached it, waits no more. *)
Lemma cross_check_witness :
  pendingCross (crossCheckEvents demo.network demo.crossed).1 = [demo.window 1 10; demo.window 101 110].
Proof.
  destruct (cross_check_outcome (sdk := demo.watch_sdk) demo.network demo.crossed 1 100 2000 eq_refl)
    as (dn & rest & Hl & Hd & [[-> Hp]|(b & dropped & e & -> & He & _ & Hp)]).
  - exfalso. rewrite app_nil_r in Hl. assert (H0 : dn !! 0%nat = Some (demo.window 1 10)) by (rewrite <- Hl; reflexivity).
    specialize (Hd _ _ H0). discriminate Hd.
  - rewrite Hp. destruct dn as [|x dn].
    + injection Hl as <- _. reflexivity.
    + exfalso. injection Hl as <- _. specialize (Hd 0%nat _ eq_refl). discriminate Hd.
Defined.

End compared.
